(* ===== verification/_CoqProject ===== *)
-Q . S2P
Prelude.v
Bytes.v
StoreAccounting.v
StoreWire.v
StoreSteps.v
StoreSlots.v
StoreInvariant.v
StoreTheorems.v
DispatchAdmission.v
DispatchWire.v
DispatchSteps.v
DispatchInvariant.v
DispatchTheorems.v
GoStrings.v
LifecycleGate.v
LifecycleController.v
LifecycleRunner.v
LifecycleStatus.v
IdlPreflight.v
ReadLedger.v
OwnersBarrier.v
OwnersInvariant.v
OwnersTheorems.v
PhaseControl.v
PhaseTheorems.v
DispatchClient.v
DispatchLink.v
ClientMirror.v
ClientTheorems.v
LoginLimiter.v
RepoLock.v
PublicationCache.v
Positions.v
GoText.v
JobErrors.v
StoreErrors.v
Ranking.v
BoundSearch.v
BoundSearchTheorems.v
StreamSearch.v
StreamSearchTheorems.v
JobQueue.v
JobQueueRows.v
JobQueueInvariant.v
JobQueueTheorems.v
JobQueueOps.v
JobQueueRuns.v
JobRunner.v
JobRunnerTheorems.v
RunnerHeartbeat.v
GenerationSpec.v
GenerationStore.v
GenerationInvariant.v
GenerationLeases.v
GenerationSteps.v
GenerationFanout.v
GenerationScopes.v
GenerationSamples.v
GenerationTheorems.v
GenerationFences.v
GenerationProgress.v
GenerationOps.v
GenerationLogic.v
GenerationRuns.v
GenerationRunner.v
GenerationFenced.v
GenerationRunnerTheorems.v
PartitionModel.v
PartitionPlan.v
PartitionTheorems.v
PartitionStage.v
PartitionBuild.v
PartitionSamples.v
