(* ===== verification/Prelude.v ===== *)
(** * phebs: a verification library

    phebs is a code-search server: a Go process that mirrors repositories,
    indexes them with Zoekt, extracts facts from them and answers queries.  What
    is verified here is the part of it that decides: who may start work, how
    work is counted, how it is handed out and taken back, and what is refused.
    Effects (sockets, files, child processes, the database engine) are inputs
    and results of the definitions.

    ** The program and its model

    A measured run of phebs is a tree of processes.  The parent keeps two
    reducers, one for submissions to the store and one for dispatched
    commands; children report to them over sockets and wait for an answer
    before they act.  Phase control moves the whole tree from one phase of the
    measurement to the next, draining application turns through the owner
    barrier first.  Inside a server, jobs are handed to workers by a durable
    queue and by generation schedules, the lifecycle collector reclaims disk
    space, searches fan out over the shards and are merged, and bounded
    ledgers, caches and limiters guard single requests.  Sources are below
    [src/internal].

    - Store accounting ([storeaccounting/controller.go], [wire.go], half of
      [terminal_successor.go]).  [Bytes] is [encoding/binary];
      [StoreAccounting] has the controller's state and one definition per
      method ([Attach], [Submit], [Settle], [Checkpoint], [Close], [Fence],
      [Advance], [Snapshot], ...); [StoreWire] the SA01 frame and the wire
      budget; [StoreSteps] the events, runs and their log; [StoreSlots] and
      [StoreInvariant] the invariant; [StoreTheorems] the results.
    - Dispatch admission ([dispatchadmission/controller.go], [transport.go],
      [backup_retirement.go]).  [DispatchAdmission] has the controller, the
      DA01 codec and the served loop; [DispatchWire], [DispatchSteps],
      [DispatchInvariant] and [DispatchTheorems] follow the same pattern.
    - The dispatch client ([client.go], [producer_view.go],
      [local_producer.go]).  [DispatchClient] is the client, one function per
      critical section; [DispatchLink] joins it to the controller of
      [DispatchAdmission] by one socket, as a transition system whose steps
      are the critical sections of both sides, deliveries and losses;
      [ClientMirror] is the invariant of the composition, [ClientTheorems] the
      results.
    - The owner barrier ([owners.go], [owner_measurement.go]).
      [OwnersBarrier] turns calls that wait into threads that remember the
      channel they wait on; [OwnersInvariant], [OwnersTheorems].
    - Phase control ([phase_control.go], [phase_owners.go]).  [PhaseControl]
      has the PC01 codec, the control state machine, the parent's exchange and
      the server's loop; [PhaseTheorems].
    - Lifecycle ([lifecycle/policy.go], [capacity.go], [controller.go],
      [runner.go], [status.go]).  [GoStrings] has the string functions of Go
      they use; [LifecycleGate], [LifecycleController], [LifecycleRunner],
      [LifecycleStatus] are one file each.  The cursor store is the class
      [CursorLaws], which an in-memory store discharges.
    - IDL preflight ([idlpreflight/preflight.go]): [IdlPreflight].
    - The exact-read ledger ([readaccounting/ledger.go],
      [search_repositories.go]): [ReadLedger].
    - The login limiter ([auth/limiter.go]): [LoginLimiter].
    - The repository lock ([repowork/lock.go]): [RepoLock].
    - The durable job queue ([store/surreal.go], the job tables).  [JobErrors]
      is [store/class.go]: error classes, markers and backoff.  [JobQueue] has
      the rows and every statement, each an atomic function of a table;
      [JobQueueRows] the state machine of a row and the proof that statements
      take only its steps; [JobQueueInvariant] the queue under arbitrary
      interleavings of statements; [JobQueueTheorems] its results.
      [StoreErrors] has the store's sentinels, the texts of errors and which
      of them are retried; [JobQueueOps] writes the Go methods as programs of actions (a free
      monad), [JobQueueRuns] runs them among others, with lost replies.
    - The job runner ([store/runner.go]): [JobRunner],
      [JobRunnerTheorems] and, for the heartbeat goroutine,
      [RunnerHeartbeat].  It calls the programs of [JobQueueOps].
    - Generation schedules ([store/generation_schedule.go],
      [generation_lifecycle.go]): large work split into chunks that are fanned
      out by pages, claimed under leases and settled.  [GenerationSpec] has
      specifications, digests and the validator; [GenerationStore] the four
      tables and every statement; [GenerationInvariant] the run of statements
      by anyone and its invariant, which relates a schedule to a view with one
      cell per chunk; [GenerationLeases], [GenerationSteps],
      [GenerationFanout] and [GenerationScopes] preserve it, statement by
      statement; [GenerationTheorems], [GenerationFences] and
      [GenerationProgress] are the results, on the runs of
      [GenerationSamples].  [GenerationOps] has the Go methods as programs,
      [GenerationLogic] a program logic for them and [GenerationRuns] what
      they guarantee.  [GoText] has Go's UTF-8, JSON and path functions.
    - The generation scheduler ([generationscheduler/runner.go]), which works
      the chunks off: [GenerationRunner] has its validation, the admission of
      a process, its reports and one execution of a claimed chunk, a program
      that calls those of [GenerationOps]; [GenerationFenced] has what a refused
      call says of the lease, [GenerationRunnerTheorems] the results.
    - Source partitions ([sourcepartition/model.go], [plan.go],
      [validate.go]), the input of extraction: the selected blobs of a source
      are spread over members by the bits of their hashes.  [PartitionModel]
      has the records, the checks of names and paths, the digests and the
      validator of a manifest; [PartitionPlan] the spools and their splitting;
      [PartitionStage] the encoding of members, the build and the validation
      of what it wrote.  [PartitionTheorems] and [PartitionBuild] are the
      results, on the sources of [PartitionSamples].
    - Searching ([search/bound.go], [searcher.go]): [Ranking] orders matches,
      [BoundSearch] fans a search out over a bounded pool and merges its
      results, [StreamSearch] is the streaming variant; [BoundSearchTheorems]
      and [StreamSearchTheorems] their results.
    - The publication cache ([relationshippublication/cache.go]):
      [PublicationCache].
    - Positions in source text ([codenav/encoding.go]): [Positions], with
      Go's UTF-8 decoder.

    ** What the theorems show

    - Reducers count exactly: [store_accounting_exact] and
      [dispatch_log_exact] state that every counter, and the digest chain, is
      a function of the log of accepted requests, within the budgets.
      [submission_bound] bounds all submissions of a phase by its transaction
      and row budgets; [advance_is_quiescent] and [advance_only_carries] state
      that a phase ends with nothing open; [replayed_frame_rejected],
      [serving_terminates].
    - The composition of client, link and controller: nothing is started that
      the controller has not counted ([commands_are_counted]), a client that
      holds no error agrees with the controller before or after the exchange
      in flight ([client_mirrors_controller]), and an admission on a healthy
      link starts its command ([healthy_admission_starts]).
    - The barrier and phase control: turns have their slots alone
      ([slots_are_exclusive]), a drained side stays empty
      ([drained_side_stays_empty]), no wake-up is lost ([no_lost_wakeup]); the
      control states refine an abstract barrier
      ([control_refines_barrier]), parent and server stay in step
      ([parent_server_lockstep]), and a healthy exchange completes.
    - The queue: rows are well formed ([queue_wellformed]); a lease fences
      everyone else out and does nothing once lost ([lease_fences],
      [lost_lease_is_inert]); an enqueued event stays pending until a claim
      takes it ([enqueued_event_survives]); a lease given back leaves its
      target pending with its force flag ([work_is_conserved]).  The Go
      methods terminate ([operations_terminate]) and a result that says a
      lease is over is right whatever happened in between
      ([settled_lease_is_over]).
    - The runner: an execution that reports a transition has ended its lease
      ([executed_job_is_settled]), runners and reapers together stay within
      the attempt budget ([retries_are_bounded]), undisturbed executions end
      their rows and report by rules stated apart from the model's
      ([execution_ends_as_judged]), and a handler whose heartbeat cannot be
      made durable is stopped, if beats are timely, before a stale cutoff and
      one period have passed since its last confirmed beat
      ([failing_heartbeat_stops_handler]).
    - Generation schedules: a current schedule loses no item and does none
      twice ([settled_schedule_covers]), its counters are exact and its row
      passes the validator of its readers ([schedule_rows_are_exact]), the
      budgets of a repository hold ([repository_budgets_hold]), a lease ends
      once ([generation_lease_ends_once]), and work that is not held back can
      be driven to settlement ([schedule_can_settle]).  The methods only
      submit what these results allow ([operations_keep_rules]), what they
      answer is true even if replies are lost ([settling_answers_are_true]), and
      a settlement that reads as complete is ([complete_settlement_is_done]).
      What a report of the scheduler says of the record is stated outcome by
      outcome ([runner_reports_are_true]; of a failed settlement hook it says
      no more than that, [interrupted_gate_is_reported]); it keeps the rules
      of the schedules ([scheduler_turns_keep_rules]) and stays within the
      bounds of its process ([process_admission_is_exact]).
      Schedules, scopes and attempts have distinct identities
      ([identities_are_exact]), given that SHA-256 does not collide.
    - Source partitions: a plan is an exact partition of the selected source
      within all bounds ([plan_partitions_source]), planning a valid source
      ends and refuses nothing but limits ([plan_refuses_only_limits]), what a
      build wrote is read back without loss ([build_loses_nothing]), and
      validation accepts it but for two shapes that the plan admits
      ([built_stage_is_accepted]).
    - Lifecycle: the gate is a two-watermark latch on exact percentages
      ([gate_refines_watermarks]), owners are swept in rotation
      ([rotation_is_fair]), what is published passes its own validator
      ([published_status_is_valid]).
    - Limits: the preflight accepts exactly the sources with a tokenization
      within the limits ([preflight_accepts_exactly]), the ledger certifies
      exact counts ([certified_ledger_is_exact]), a client of the limiter has
      a bounded number of failed logins per window ([brute_force_bounded]),
      the repository lock excludes and does not leak ([repo_lock_excludes],
      [lock_makes_progress]).
    - Searching: the result does not depend on the order in which backends
      answer ([search_is_deterministic]), a search that fails reports the cause
      and not the cancellation it led to ([failed_search_reports_cause]), a
      stream ends ([stream_finishes]), and if it reports no error then every
      error it received was the end of a context, received with the limit
      reached ([silent_stream_hid_nothing]).
    - A generation of a publication that is leased stays in the cache
      ([leased_generation_is_pinned]), and a position converts exactly between
      bytes and UTF-16 units ([position_exact]).
    - Codecs: the fixed frames are canonical, decoding succeeds exactly on
      encodings ([decodeFrame_exact], [dispatch_decode_exact],
      [phase_decode_exact]).

    ** How the model is made

    Machine integers are [Z] with [u64] and [i64] where the code can wrap;
    times and durations are nanoseconds.  A critical section of a mutex is
    one atomic function; what happens between two of them is arbitrary, so an
    interleaving is a list of steps, and the theorems quantify over it.  The
    pools of a search join a few actions without a lock into one step: taking a
    job with the tests that follow, and an acknowledgement with the
    cancellation it leads to.
    Errors are values: of an inductive [err] where the code compares them, of
    an error tree in [JobErrors].  SHA-256 and the other functions that are
    not the repository's are parameters.

    Recursion is structural wherever it can be.  Where it is not, the fuel is
    a function of the input that a theorem shows to be enough: the served loop
    of dispatch runs within the peer's wire budget of frames
    ([serving_terminates]); the queue's conflict loop makes at most
    [maxQueueRetries] = 64 turns, as the code does, and no operation takes
    more than the actions [operations_terminate] names; detached writes of the
    runner pause at most [persistPauses] = 50 times, more than their deadline
    allows; the preflight's scanners recurse on the source they consume; a spool
    splits once per bit of its hash that is left, and
    [plan_refuses_only_limits] shows that these are enough.  The
    runner's drain goes on for as long as claims find jobs: its fuel is an
    argument and running out of it a result of its own ([drain]).

    ** Not modelled

    The endpoints of both sockets and the interception of SurrealDB calls; the
    production bootstrap (descriptors, engines, archives); the lifecycle
    owners' sweeps and the filesystem probe, whose results are arguments of
    the tick; SurrealDB itself: a transaction is taken to be atomic, and the
    queries outside the job and schedule tables, whose behaviour is that of
    query text, are left out, as are the observers of a reap and the
    migrations of the schedule tables; the scheduler's tickers and goroutines,
    its terminal and marker heartbeats, whose ends are inputs of an execution; sessions, OIDC and HTTP; query parsing,
    shards and indexing, which wrap Zoekt; of source partitions, the batch
    reader, the super-roots over several segments, failing files and
    cancellation; extraction, publication, catalogs
    and typed indexing, which are pipelines over third-party parsers, canonical
    JSON and the file system; recovery, release and the commands.  The benchmarks and prototypes below
    [src/spike] and [src/tools] are not part of the server. *)
From stdpp Require Export base tactics option list gmap strings.
From Stdlib Require Export ZArith Lia.

#[export] Set Default Goal Selector "!".
#[global] Open Scope Z_scope.

Declare Scope go_scope.
Delimit Scope go_scope with go.
#[global] Open Scope go_scope.

(** ** Machine integers

    A Go integer is a [Z]; an operation that can leave its width is wrapped
    explicitly with the function of that width. *)
Definition MaxUint64 : Z := 2 ^ 64 - 1.
Definition MaxInt64 : Z := 2 ^ 63 - 1.
Definition u8 (z : Z) : Z := z mod 2 ^ 8.
Definition u16 (z : Z) : Z := z mod 2 ^ 16.
Definition u32 (z : Z) : Z := z mod 2 ^ 32.
Definition u64 (z : Z) : Z := z mod 2 ^ 64.
Definition i64 (z : Z) : Z := (z + 2 ^ 63) mod 2 ^ 64 - 2 ^ 63.

(** ** Results and the state-and-error monad

    A Go method with receiver state [S] that returns [(A, error)] is a
    function of the state to a result and the next state.  An error does not
    roll the state back: [bind] keeps the state of the failing prefix. *)
Inductive res (E A : Type) : Type :=
  | Ok (a : A)
  | Err (e : E).
Arguments Ok {E A} a.
Arguments Err {E A} e.

Definition M (S E A : Type) : Type := S -> res E A * S.

Definition ret {S E A} (a : A) : M S E A := fun s => (Ok a, s).
Definition throw {S E A} (e : E) : M S E A := fun s => (Err e, s).
Definition get {S E} : M S E S := fun s => (Ok s, s).
Definition put {S E} (s' : S) : M S E unit := fun _ => (Ok tt, s').
Definition modify {S E} (f : S -> S) : M S E unit := fun s => (Ok tt, f s).
Definition bind {S E A B} (m : M S E A) (k : A -> M S E B) : M S E B :=
  fun s => match m s with
           | (Ok a, s') => k a s'
           | (Err e, s') => (Err e, s')
           end.

Notation "x <- m ;; k" := (bind m (fun x => k))
  (at level 100, m at next level, right associativity) : go_scope.
Notation "m ;; k" := (bind m (fun _ => k))
  (at level 100, right associativity) : go_scope.

Definition is_ok {E A} (r : res E A) : bool :=
  match r with Ok _ => true | Err _ => false end.
Definition is_nil {A} (o : option A) : bool :=
  match o with None => true | Some _ => false end.

(** ** Record update

    A record type gives its eta expansion once; the setter of a field is then
    found by type-class search. *)
Class Eta (R : Type) := eta : R -> R.
Class Setter {R T : Type} (proj : R -> T) := setter : (T -> T) -> R -> R.
Arguments setter {R T} proj {Setter} _ _.

Ltac derive_setter :=
  match goal with
  | |- @Setter ?R ?T ?proj =>
      let inst := constr:(_ : Eta R) in
      let h := constr:(fun (upd__ : T -> T) (rec__ : R) =>
        ltac:(let b := eval hnf in (inst rec__) in
              let p := eval pattern (proj rec__) in b in
              match p with
              | ?g _ => let t := eval cbv beta in (g (upd__ (proj rec__))) in exact t
              end)) in
      exact h
  end.
#[export] Hint Extern 1 (Setter _) => derive_setter : typeclass_instances.

Notation "r <| f := v |>" := (setter f (fun _ => v) r)
  (at level 1, f at level 1, v at level 200, left associativity) : go_scope.
Notation "r <| f ::= g |>" := (setter f g r)
  (at level 1, f at level 1, g at level 200, left associativity) : go_scope.

(** ** Arrays

    A Go loop that stops at the first index whose element passes a test. *)
Fixpoint findIndex {A} (f : A -> bool) (l : list A) : option nat :=
  match l with
  | [] => None
  | x :: l' => if f x then Some O else option_map S (findIndex f l')
  end.

Fixpoint zsum (l : list Z) : Z :=
  match l with [] => 0 | x :: l' => x + zsum l' end.

(** ** Lemmas on arrays and sums *)
Lemma findIndex_Some {A} (f : A -> bool) l i :
  findIndex f l = Some i ->
  exists x, l !! i = Some x /\ f x = true /\
            forall j y, (j < i)%nat -> l !! j = Some y -> f y = false.
Proof.
  revert i; induction l as [|x l IH]; intros i H; [discriminate|].
  simpl in H. destruct (f x) eqn:Ef.
  - simplify_eq. exists x. repeat split; auto. intros; lia.
  - destruct (findIndex f l) as [k|] eqn:Ek; simplify_eq/=.
    destruct (IH k eq_refl) as (y & Hy & Hf & Hlt).
    exists y; repeat split; auto.
    intros [|j] z Hj Hz; simplify_eq/=; auto. apply (Hlt j z); auto; lia.
Qed.

Lemma findIndex_None {A} (f : A -> bool) l :
  findIndex f l = None <-> forall i x, l !! i = Some x -> f x = false.
Proof.
  induction l as [|x l IH]; simpl; [split; [intros _ i x H; destruct i; discriminate|auto]|].
  destruct (f x) eqn:Ef.
  - split; [discriminate|]. intros H. specialize (H 0%nat x eq_refl). congruence.
  - destruct (findIndex f l) eqn:El; simpl.
    + split; [discriminate|]. intros H.
      assert (Some n = None) as Hn by (apply IH; intros i y Hi; apply (H (S i) y Hi)).
      discriminate.
    + split; [|auto]. intros _ [|i] y Hy; simplify_eq/=; auto.
      apply (proj1 IH eq_refl i y Hy).
Qed.

Lemma findIndex_unique {A} (f : A -> bool) l i x :
  l !! i = Some x -> f x = true -> (forall j y, l !! j = Some y -> f y = true -> j = i) ->
  findIndex f l = Some i.
Proof.
  intros Hx Hf Hu. destruct (findIndex f l) as [j|] eqn:E.
  - apply findIndex_Some in E as (y & Hy & Hfy & _). f_equal. eauto.
  - rewrite findIndex_None in E. rewrite (E i x Hx) in Hf. discriminate.
Qed.

Lemma zsum_app l1 l2 : zsum (l1 ++ l2) = zsum l1 + zsum l2.
Proof. induction l1; simpl; lia. Qed.

Lemma zsum_insert l i x y :
  l !! i = Some x -> zsum (<[i := y]> l) = zsum l - x + y.
Proof.
  revert i; induction l as [|z l IH]; intros [|i] H; try discriminate.
  - injection H as ->. cbn. lia.
  - change (<[S i := y]> (z :: l)) with (z :: <[i := y]> l).
    cbn [zsum]. rewrite (IH i H). lia.
Qed.

Lemma zsum_fmap_insert {A} (f : A -> Z) l i x y :
  l !! i = Some x -> zsum (f <$> <[i := y]> l) = zsum (f <$> l) - f x + f y.
Proof.
  intros H. rewrite list_fmap_insert. apply zsum_insert. rewrite list_lookup_fmap, H. reflexivity.
Qed.

Lemma lookup_insert_cases {A} (l : list A) i j x y z :
  l !! i = Some z -> <[i := x]> l !! j = Some y ->
  (j = i /\ y = x) \/ (j <> i /\ l !! j = Some y).
Proof.
  intros Hi H. apply list_lookup_insert_Some in H as [(<- & -> & _)|[Hne H]]; auto.
Qed.

Lemma zsum_nonneg l : (forall x, x ∈ l -> 0 <= x) -> 0 <= zsum l.
Proof.
  induction l as [|x l IH]; intros H; simpl; [lia|].
  assert (0 <= x) by (apply H; left).
  assert (0 <= zsum l) by (apply IH; intros y Hy; apply H; by right). lia.
Qed.

Lemma zsum_zero l : (forall x, x ∈ l -> x = 0) -> zsum l = 0.
Proof.
  induction l as [|x l IH]; intros H; [reflexivity|]. cbn [zsum].
  rewrite (H x) by (left). rewrite IH; [reflexivity|]. intros y Hy. apply H. by right.
Qed.

Lemma zsum_elem_le l x : (forall y, y ∈ l -> 0 <= y) -> x ∈ l -> x <= zsum l.
Proof.
  induction l as [|z l IH]; intros Hn Hx; [inversion Hx|]. cbn [zsum].
  assert (0 <= z) by (apply Hn; left).
  assert (forall y, y ∈ l -> 0 <= y) as Hn' by (intros y Hy; apply Hn; by right).
  pose proof (zsum_nonneg l Hn'). apply elem_of_cons in Hx as [->|Hx]; [lia|].
  specialize (IH Hn' Hx). lia.
Qed.

Lemma zsum_le {A} (f g : A -> Z) l :
  (forall x, x ∈ l -> f x <= g x) -> zsum (f <$> l) <= zsum (g <$> l).
Proof.
  induction l as [|x l IH]; intros H; [simpl; lia|].
  rewrite !fmap_cons. cbn [zsum].
  assert (f x <= g x) by (apply H; left).
  assert (zsum (f <$> l) <= zsum (g <$> l)) by (apply IH; intros y Hy; apply H; by right). lia.
Qed.

(** ** Totals

    The sum of a measure over the goroutines of a component, for counting
    references and holders. *)
Definition total {A} (f : A -> Z) (l : list A) : Z := zsum (f <$> l).
#[global] Arguments total {A} f l : simpl never.

Section Totals.
Context {A : Type} (f : A -> Z).

Lemma total_nil : total f [] = 0.
Proof. reflexivity. Qed.

Lemma total_nonneg l : (forall x, 0 <= f x) -> 0 <= total f l.
Proof. intros Hf. apply zsum_nonneg. intros x (y & -> & _)%list_elem_of_fmap. apply Hf. Qed.

Lemma total_insert l i x y : l !! i = Some x -> total f (<[i := y]> l) = total f l - f x + f y.
Proof. apply zsum_fmap_insert. Qed.

Lemma total_snoc l x : total f (l ++ [x]) = total f l + f x.
Proof. unfold total. rewrite fmap_app, zsum_app. cbn. lia. Qed.

Lemma total_le l i x : (forall x, 0 <= f x) -> l !! i = Some x -> f x <= total f l.
Proof.
  intros Hf Hi. apply zsum_elem_le; [intros z (y & -> & _)%list_elem_of_fmap; apply Hf|].
  apply list_elem_of_fmap. exists x. split; [reflexivity|]. by eapply list_elem_of_lookup_2.
Qed.

Lemma total_two l i j x y :
  (forall x, 0 <= f x) -> i <> j -> l !! i = Some x -> l !! j = Some y -> f x + f y <= total f l.
Proof.
  intros Hf. revert i j. induction l as [|z l IH]; intros [|i] [|j] Hne Hi Hj; try discriminate; try congruence;
    change (total f (z :: l)) with (f z + total f l); cbn in Hi, Hj; simplify_eq.
  - pose proof (total_le l j y Hf Hj). lia.
  - pose proof (total_le l i x Hf Hi). lia.
  - pose proof (Hf z). specialize (IH i j ltac:(congruence) Hi Hj). lia.
Qed.

Lemma total_pos l : 0 < total f l -> exists i x, l !! i = Some x /\ 0 < f x.
Proof.
  unfold total. induction l as [|y l IH]; cbn; intros H; [lia|]. destruct (Z.ltb_spec 0 (f y)) as [Hy|Hy].
  - by exists O, y.
  - destruct IH as (i & x & Hx & Hp); [lia|]. by exists (S i), x.
Qed.

Lemma total_zero l : (forall i x, l !! i = Some x -> f x = 0) -> total f l = 0.
Proof.
  intros H. apply zsum_zero. intros z (y & -> & [i Hi]%list_elem_of_lookup_1)%list_elem_of_fmap. by eapply H.
Qed.
End Totals.

(** ** Sums over maps

    The sum of a measure over the rows of a table. *)
Definition msum `{Countable K} {A} (f : A -> Z) (m : gmap K A) : Z := map_fold (fun _ x n => f x + n) 0 m.

Section MapSums.
Context `{Countable K} {A : Type} (f : A -> Z).
Implicit Types m : gmap K A.

Lemma msum_empty : msum f (∅ : gmap K A) = 0.
Proof. apply map_fold_empty. Qed.

Lemma msum_insert_new (m : gmap K A) k x : m !! k = None -> msum f (<[k := x]> m) = f x + msum f m.
Proof. intros Hk. apply (map_fold_insert_L (fun _ y n => f y + n)); [intros; lia|exact Hk]. Qed.

Lemma msum_delete (m : gmap K A) k x : m !! k = Some x -> msum f (delete k m) = msum f m - f x.
Proof.
  intros Hk. assert (E : m = <[k := x]> (delete k m)) by by rewrite insert_delete_id.
  rewrite E at 2. rewrite msum_insert_new by apply lookup_delete_eq. lia.
Qed.

Lemma msum_insert (m : gmap K A) k x y : m !! k = Some x -> msum f (<[k := y]> m) = msum f m - f x + f y.
Proof.
  intros Hk. rewrite <-insert_delete_eq, msum_insert_new by apply lookup_delete_eq. rewrite (msum_delete m k x Hk). lia.
Qed.

Lemma msum_nonneg (m : gmap K A) : (forall k x, m !! k = Some x -> 0 <= f x) -> 0 <= msum f m.
Proof.
  induction m as [|k x m Hk IH] using map_ind; intros Hf; [rewrite msum_empty; lia|]. rewrite msum_insert_new by exact Hk.
  pose proof (Hf k x (lookup_insert_eq _ _ _)). enough (0 <= msum f m) by lia. apply IH. intros j y Hj. apply (Hf j).
  rewrite lookup_insert_ne; [exact Hj|congruence].
Qed.

Lemma msum_elem_le (m : gmap K A) k x : (forall k x, m !! k = Some x -> 0 <= f x) -> m !! k = Some x -> f x <= msum f m.
Proof.
  intros Hf Hk. pose proof (msum_delete m k x Hk). enough (0 <= msum f (delete k m)) by lia. apply msum_nonneg.
  intros j y [_ Hj]%lookup_delete_Some. eauto.
Qed.

Lemma msum_zero (m : gmap K A) : (forall k x, m !! k = Some x -> 0 <= f x) -> msum f m = 0 -> forall k x, m !! k = Some x -> f x = 0.
Proof. intros Hf Hz k x Hk. pose proof (msum_elem_le m k x Hf Hk). specialize (Hf k x Hk). lia. Qed.

Lemma msum_all_zero (m : gmap K A) : (forall k x, m !! k = Some x -> f x = 0) -> msum f m = 0.
Proof.
  induction m as [|k x m Hk IH] using map_ind; intros Hf; [apply msum_empty|]. rewrite msum_insert_new by exact Hk.
  rewrite (Hf k x (lookup_insert_eq _ _ _)), IH; [lia|]. intros j y Hj. apply (Hf j). rewrite lookup_insert_ne; [exact Hj|congruence].
Qed.

Lemma msum_pos (m : gmap K A) : msum f m <> 0 -> exists k x, m !! k = Some x /\ f x <> 0.
Proof.
  induction m as [|k x m Hk IH] using map_ind; intros Hf; [by rewrite msum_empty in Hf|]. rewrite msum_insert_new in Hf by exact Hk.
  destruct (decide (f x = 0)) as [E|Hx]; [|exists k, x; by rewrite lookup_insert_eq].
  destruct IH as (j & y & Hj & Hy); [lia|]. exists j, y. rewrite lookup_insert_ne by congruence. auto.
Qed.

Lemma msum_alter (m : gmap K A) k x (g : A -> A) : m !! k = Some x -> msum f (alter g k m) = msum f m - f x + f (g x).
Proof.
  intros Hk. replace (alter g k m) with (<[k := g x]> m); [by apply msum_insert|]. apply map_eq. intros j.
  rewrite lookup_insert, lookup_alter. case_decide; subst; [by rewrite Hk|done].
Qed.

Lemma msum_alter_le (m : gmap K A) k (g : A -> A) : (forall x, m !! k = Some x -> f (g x) <= f x) -> msum f (alter g k m) <= msum f m.
Proof.
  intros Hf. destruct (m !! k) as [x|] eqn:Hk; [|by rewrite alter_id by congruence]. rewrite (msum_alter m k x g Hk). specialize (Hf x eq_refl). lia.
Qed.
End MapSums.

(** How many entries satisfy a predicate. *)
Lemma size_filter_msum `{Countable K} {A} (P : K * A -> Prop) `{forall kx, Decision (P kx)} (f : A -> Z) (m : gmap K A) :
  (forall k x, m !! k = Some x -> f x = if decide (P (k, x)) then 1 else 0) -> Z.of_nat (size (filter P m)) = msum f m.
Proof.
  induction m as [|k x m Hk IH] using map_ind; intros Hf; [by rewrite map_filter_empty, map_size_empty, msum_empty|].
  rewrite msum_insert_new by exact Hk. rewrite (Hf k x (lookup_insert_eq _ _ _)), <-IH.
  - case_decide as HP.
    + rewrite map_filter_insert_True by exact HP. rewrite map_size_insert_None; [lia|]. apply map_lookup_filter_None. by left.
    + rewrite map_filter_insert_False by exact HP. by rewrite delete_id.
  - intros j y Hj. apply Hf. rewrite lookup_insert_ne; [exact Hj|congruence].
Qed.

Lemma msum_le `{Countable K} {A} (f g : A -> Z) (m : gmap K A) : (forall k x, m !! k = Some x -> f x <= g x) -> msum f m <= msum g m.
Proof.
  induction m as [|k x m Hk IH] using map_ind; intros Hf; [rewrite !msum_empty; lia|]. rewrite !msum_insert_new by exact Hk.
  pose proof (Hf k x (lookup_insert_eq _ _ _)). enough (msum f m <= msum g m) by lia. apply IH. intros j y Hj. apply (Hf j).
  rewrite lookup_insert_ne; [exact Hj|congruence].
Qed.
Lemma msum_ext `{Countable K} {A} (f g : A -> Z) (m : gmap K A) : (forall k x, m !! k = Some x -> f x = g x) -> msum f m = msum g m.
Proof. intros Hf. apply Z.le_antisymm; apply msum_le; intros k x Hk; rewrite (Hf k x Hk); lia. Qed.
Lemma msum_add `{Countable K} {A} (f g : A -> Z) (m : gmap K A) : msum (fun x => f x + g x) m = msum f m + msum g m.
Proof. induction m as [|k x m Hk IH] using map_ind; [by rewrite !msum_empty|]. rewrite !msum_insert_new by exact Hk. lia. Qed.
Lemma msum_scale `{Countable K} {A} (n : Z) (f : A -> Z) (m : gmap K A) : msum (fun x => n * f x) m = n * msum f m.
Proof. induction m as [|k x m Hk IH] using map_ind; [by rewrite !msum_empty; lia|]. rewrite !msum_insert_new by exact Hk. lia. Qed.

(** ** Lemmas on machine integers *)
Lemma u64_small z : 0 <= z <= MaxUint64 -> u64 z = z.
Proof. unfold u64, MaxUint64. intros. apply Z.mod_small. lia. Qed.
Lemma u64_range z : 0 <= u64 z <= MaxUint64.
Proof. unfold u64, MaxUint64. pose proof (Z.mod_pos_bound z (2 ^ 64)). lia. Qed.

Lemma i64_range z : - (MaxInt64 + 1) <= i64 z <= MaxInt64.
Proof. unfold i64, MaxInt64. pose proof (Z.mod_pos_bound (z + 2 ^ 63) (2 ^ 64)). lia. Qed.
Lemma i64_small z : - 2 ^ 63 <= z <= MaxInt64 -> i64 z = z.
Proof. unfold i64, MaxInt64. intros H. rewrite Z.mod_small; lia. Qed.

(** ** Tactics *)

(** Split a run of a monadic operation along its guards. *)
Ltac mrun H :=
  repeat first
    [ progress cbv [bind ret throw get put modify] in H
    | progress cbn beta iota zeta in H
    | match type of H with
      | context [match ?x with _ => _ end] =>
          lazymatch x with
          | context [match _ with _ => _ end] => fail
          | _ => let E := fresh "E" in destruct x eqn:E
          end
      end ];
  simplify_eq.

(** Turn boolean guards into arithmetic and logical facts. *)
Ltac bsplit :=
  repeat match goal with
  | H : (_ || _) = false |- _ => apply orb_false_iff in H as [? ?]
  | H : (_ && _) = true |- _ => apply andb_true_iff in H as [? ?]
  | H : negb _ = false |- _ => apply negb_false_iff in H
  | H : negb _ = true |- _ => apply negb_true_iff in H
  | H : (_ =? _) = true |- _ => apply Z.eqb_eq in H
  | H : (_ =? _) = false |- _ => apply Z.eqb_neq in H
  | H : (_ <? _) = true |- _ => apply Z.ltb_lt in H
  | H : (_ <? _) = false |- _ => apply Z.ltb_ge in H
  | H : (_ <=? _) = true |- _ => apply Z.leb_le in H
  | H : (_ <=? _) = false |- _ => apply Z.leb_gt in H
  end.
