(* ===== verification/Bytes.v ===== *)
(** * Byte sequences and big-endian integers

    The part of [encoding/binary] and of slice expressions that the wire
    formats use.  A byte is a [Z] in [0, 256); a fixed array [[n]byte] is a
    list of [n] bytes. *)
From S2P Require Import Prelude.

Definition isByte (b : Z) : Prop := 0 <= b < 256.
#[export] Instance isByte_dec b : Decision (isByte b).
Proof. unfold isByte. apply _. Defined.

(** [binary.BigEndian.PutUint{8n}] *)
Fixpoint be_put (n : nat) (z : Z) : list Z :=
  match n with
  | O => []
  | S n' => (z / 256 ^ Z.of_nat n') mod 256 :: be_put n' z
  end.

(** [binary.BigEndian.Uint{8n}] *)
Fixpoint be_get (l : list Z) : Z :=
  match l with
  | [] => 0
  | b :: l' => b * 256 ^ Z.of_nat (length l') + be_get l'
  end.

(** The slice expression [raw[a:b]]. *)
Definition slice (a b : nat) (raw : list Z) : list Z := take (b - a) (drop a raw).

(** The comparison of two byte sequences. *)
Definition bytes_eqb (a b : list Z) : bool := bool_decide (a = b).

(** The ASCII codes of a string constant. *)
Definition ascii_bytes (s : string) : list Z :=
  (fun a => Z.of_nat (Ascii.nat_of_ascii a)) <$> String.list_ascii_of_string s.

(** ** Lemmas *)
Lemma length_be_put n z : length (be_put n z) = n.
Proof. induction n; simpl; auto. Qed.

Lemma be_put_bytes n z : Forall isByte (be_put n z).
Proof.
  induction n; simpl; constructor; auto.
  unfold isByte. apply Z.mod_pos_bound. lia.
Qed.

Lemma be_get_put n z : be_get (be_put n z) = z mod 256 ^ Z.of_nat n.
Proof.
  induction n as [|n IH].
  - cbn. rewrite Z.mod_1_r. reflexivity.
  - cbn [be_put be_get]. rewrite length_be_put, IH, Nat2Z.inj_succ.
    rewrite Z.pow_succ_r by lia. rewrite (Z.mul_comm 256).
    rewrite Z.rem_mul_r by lia. lia.
Qed.

Lemma be_get_range l : Forall isByte l -> 0 <= be_get l < 256 ^ Z.of_nat (length l).
Proof.
  induction 1 as [|b l Hb _ IH]; [simpl; lia|].
  cbn [be_get length]. rewrite Nat2Z.inj_succ, Z.pow_succ_r by lia.
  unfold isByte in Hb. nia.
Qed.

Lemma be_put_add n k z : be_put n (k * 256 ^ Z.of_nat n + z) = be_put n z.
Proof.
  revert k z; induction n as [|n IH]; intros k z; [reflexivity|].
  cbn [be_put]. rewrite Nat2Z.inj_succ, Z.pow_succ_r by lia. f_equal.
  - replace (k * (256 * 256 ^ Z.of_nat n) + z) with (z + (k * 256) * 256 ^ Z.of_nat n) by lia.
    rewrite Z.div_add by lia. rewrite Z.mod_add; lia.
  - replace (k * (256 * 256 ^ Z.of_nat n) + z) with ((k * 256) * 256 ^ Z.of_nat n + z) by lia.
    apply IH.
Qed.

Lemma be_put_get l : Forall isByte l -> be_put (length l) (be_get l) = l.
Proof.
  induction 1 as [|b l Hb Hl IH]; [reflexivity|].
  cbn [be_get be_put length]. pose proof (be_get_range l Hl) as Hr. f_equal.
  - rewrite Z.add_comm, Z.div_add by lia. rewrite Z.div_small by lia.
    apply Z.mod_small. exact Hb.
  - rewrite be_put_add. exact IH.
Qed.

Lemma be_put_get_n n l : length l = n -> Forall isByte l -> be_put n (be_get l) = l.
Proof. intros <-. apply be_put_get. Qed.

Lemma be_get_small n z : 0 <= z < 256 ^ Z.of_nat n -> be_get (be_put n z) = z.
Proof. intros H. rewrite be_get_put. apply Z.mod_small. exact H. Qed.

Lemma length_slice a b raw :
  (a <= b)%nat -> (b <= length raw)%nat -> length (slice a b raw) = (b - a)%nat.
Proof. intros. unfold slice. rewrite length_take, length_drop. lia. Qed.

Lemma slice_bytes a b raw : Forall isByte raw -> Forall isByte (slice a b raw).
Proof. intros H. unfold slice. apply Forall_take, Forall_drop, H. Qed.

Lemma slice_app a b c raw :
  (a <= b)%nat -> (b <= c)%nat -> slice a b raw ++ slice b c raw = slice a c raw.
Proof.
  intros Hab Hbc. unfold slice.
  replace (drop b raw) with (drop (b - a) (drop a raw)) by (rewrite drop_drop; f_equal; lia).
  replace (c - a)%nat with ((b - a) + (c - b))%nat by lia.
  generalize (drop a raw) as l. intros l.
  generalize (b - a)%nat as i. generalize (c - b)%nat as j. intros j i.
  revert l. induction i as [|i IH]; intros [|x l]; simpl; auto.
  - rewrite !take_nil. reflexivity.
  - f_equal. apply IH.
Qed.

Lemma slice_all raw n : length raw = n -> slice 0 n raw = raw.
Proof. intros <-. unfold slice. rewrite Nat.sub_0_r, drop_0. apply take_ge. lia. Qed.

(** Reading a field out of a concatenation whose earlier parts are known. *)
Lemma slice_skip a b n l rest :
  length l = n -> (n <= a)%nat -> slice a b (l ++ rest) = slice (a - n) (b - n) rest.
Proof.
  intros <- H. unfold slice. rewrite drop_app_ge by lia. f_equal. lia.
Qed.

Lemma slice_here n l rest : length l = n -> slice 0 n (l ++ rest) = l.
Proof.
  intros <-. unfold slice. rewrite drop_0, Nat.sub_0_r. apply take_app_length.
Qed.

Lemma be_put_slice n a b raw :
  (b = a + n)%nat -> (b <= 64)%nat -> length raw = 64%nat -> Forall isByte raw ->
  be_put n (be_get (slice a b raw)) = slice a b raw.
Proof.
  intros. apply be_put_get_n; [rewrite length_slice; lia|apply slice_bytes; assumption].
Qed.

Lemma be_get_slice_range a b raw :
  (a <= b)%nat -> (b <= length raw)%nat -> Forall isByte raw ->
  0 <= be_get (slice a b raw) < 256 ^ Z.of_nat (b - a).
Proof.
  intros. rewrite <- (length_slice a b raw) by lia. apply be_get_range, slice_bytes. assumption.
Qed.
