(* ===== verification/StoreAccounting.v ===== *)
(** * The store-accounting controller

    Model of [internal/storeaccounting/controller.go] and of the controller
    half of [terminal_successor.go]: the parent-side reducer that counts every
    store submission against the budgets of the current phase.

    The controller's fixed arrays with a separate length ([producers] and
    [producerCount], [phases]/[counts] and [phaseCount], the call and
    transaction slots up to the configured capacities) are the lists of their
    live prefixes: no loop of the code reads past the length.  A pointer into
    [producers] is its index.  Every exported method takes the mutex for its
    whole body, so each one is a single atomic step. *)
From S2P Require Import Prelude.

(** ** Constants, errors and configuration *)
Definition MaximumPhases : Z := 15.
Definition MaximumProducers : Z := 7.
Definition MaximumCalls : Z := 40.
Definition MaximumTransactions : Z := 2.
Definition MaximumRows : Z := 512.

Inductive err :=
  | ErrConfig | ErrDescriptor | ErrProtocol | ErrLimit | ErrTransport
  | ErrCanceled | ErrIncomplete | ErrFenced | ErrBusy.

#[export] Instance err_eq_dec : EqDecision err.
Proof. solve_decision. Defined.

Record Producer := mkProducer {
  pr_ID : Z;            (* uint32 *)
  pr_Calls : Z;         (* int *)
  pr_Transactions : Z   (* int *)
}.

Record Phase := mkPhase {
  ph_ID : Z;            (* uint32 *)
  ph_Transactions : Z;  (* uint64 *)
  ph_Rows : Z           (* uint64 *)
}.

Record Config := mkConfig { cf_Producers : list Producer; cf_Phases : list Phase }.

(** [Kind] is a [uint8]; the code compares kinds numerically. *)
Definition Kind : Type := Z.
Definition ImplicitWrite : Kind := 1.
Definition Begin : Kind := 2.
Definition Append : Kind := 3.
Definition Commit : Kind := 4.
Definition Cancel : Kind := 5.

Record Request := mkRequest {
  rq_Producer : Z;
  rq_Phase : Z;
  rq_Kind : Kind;
  rq_Transaction : Z;
  rq_Rows : Z
}.

Record Submission := mkSubmission {
  sb_Producer : Z;
  sb_Ordinal : Z;
  sb_Transaction : Z
}.

Record PhaseCount := mkPhaseCount {
  pc_Phase : Z;
  pc_Transactions : Z;
  pc_Rows : Z;
  pc_MaximumRows : Z
}.

Record ProducerCount := mkProducerCount {
  pn_Producer : Z;
  pn_Ordinal : Z;
  pn_Calls : Z;
  pn_Transactions : Z;
  pn_Checkpoint : Z;
  pn_Attached : bool;
  pn_Closed : bool;
  pn_TerminalPhase : Z;
  pn_TerminalFencedEOF : bool
}.

Record Snapshot_ := mkSnapshot {
  sn_Transactions : Z;
  sn_Rows : Z;
  sn_MaximumRows : Z;
  sn_Phase : Z;
  sn_Phases : list PhaseCount;
  sn_Producers : list ProducerCount;
  sn_Complete : bool;
  sn_PrefixesClosed : bool
}.

(** ** Live state *)
Record transaction := mkTransaction {
  tx_ordinal : Z;
  tx_rows : Z;
  tx_busy : bool
}.

(** The zero transaction index [-1] of a call outside a transaction is [None]. *)
Record call := mkCall {
  ca_ordinal : Z;
  ca_kind : Kind;
  ca_transaction : option nat
}.

Definition noTransaction : transaction := mkTransaction 0 0 false.
Definition noCall : call := mkCall 0 0 (Some 0%nat).

Record producerState := mkProducerState {
  ps_config : Producer;
  ps_ordinal : Z;
  ps_calls : list call;
  ps_transactions : list transaction;
  ps_checkpoint : Z;
  ps_lastPhase : Z;
  ps_attached : bool;
  ps_closed : bool;
  ps_terminalPhase : Z;
  ps_terminalEOF : bool
}.

(** What the controller can observe of its [context.Context]. *)
Inductive ctxState := CtxNil | CtxLive | CtxDone.

Record Controller := mkController {
  c_ctx : ctxState;
  c_ordinal : Z;
  c_producers : list producerState;
  c_phases : list Phase;
  c_counts : list PhaseCount;
  c_phase : nat;
  c_fenced : bool;
  c_transactions : Z;
  c_rows : Z;
  c_maximumRows : Z;
  c_err : option err;
  c_wireOwned : bool
}.

#[export] Instance eta_transaction : Eta transaction :=
  fun t => mkTransaction (tx_ordinal t) (tx_rows t) (tx_busy t).
#[export] Instance eta_PhaseCount : Eta PhaseCount :=
  fun n => mkPhaseCount (pc_Phase n) (pc_Transactions n) (pc_Rows n) (pc_MaximumRows n).
#[export] Instance eta_producerState : Eta producerState :=
  fun p => mkProducerState (ps_config p) (ps_ordinal p) (ps_calls p) (ps_transactions p)
    (ps_checkpoint p) (ps_lastPhase p) (ps_attached p) (ps_closed p) (ps_terminalPhase p)
    (ps_terminalEOF p).
#[export] Instance eta_Controller : Eta Controller :=
  fun c => mkController (c_ctx c) (c_ordinal c) (c_producers c) (c_phases c) (c_counts c)
    (c_phase c) (c_fenced c) (c_transactions c) (c_rows c) (c_maximumRows c) (c_err c)
    (c_wireOwned c).

Definition op (A : Type) : Type := M Controller err A.

(** Default elements, read only at indices that are out of range. *)
Definition noPhase : Phase := mkPhase 0 0 0.
Definition noCount : PhaseCount := mkPhaseCount 0 0 0 0.
Definition noProducer : producerState :=
  mkProducerState (mkProducer 0 0 0) 0 [] [] 0 0 false false 0 false.

Definition curPhase (c : Controller) : Phase := nth (c_phase c) (c_phases c) noPhase.
Definition curCount (c : Controller) : PhaseCount := nth (c_phase c) (c_counts c) noCount.
Definition producerAt (c : Controller) (i : nat) : producerState :=
  nth i (c_producers c) noProducer.
Definition setProducer (i : nat) (p : producerState) (c : Controller) : Controller :=
  c <| c_producers ::= fun l => <[i := p]> l |>.

(** ** Construction *)
Definition newProducerState (p : Producer) : producerState :=
  mkProducerState p 0 (replicate (Z.to_nat (pr_Calls p)) noCall)
    (replicate (Z.to_nat (pr_Transactions p)) noTransaction) 0 0 false false 0 false.

Fixpoint newProducers (seen : list producerState) (ps : list Producer)
    : res err (list producerState) :=
  match ps with
  | [] => Ok seen
  | p :: ps' =>
      if (pr_ID p =? 0) || (pr_Calls p <? 1) || (MaximumCalls <? pr_Calls p)
         || (pr_Transactions p <? 1) || (MaximumTransactions <? pr_Transactions p)
      then Err ErrConfig
      else if existsb (fun q => pr_ID (ps_config q) =? pr_ID p) seen
      then Err ErrConfig
      else newProducers (seen ++ [newProducerState p]) ps'
  end.

(** [prev] is the previous phase of the loop; the sums are its accumulators. *)
Fixpoint newPhases (prev : option Phase) (transactions rows : Z) (ps : list Phase)
    : res err unit :=
  match ps with
  | [] => Ok tt
  | p :: ps' =>
      if (ph_ID p =? 0) || (MaximumPhases <? ph_ID p)
         || match prev with Some q => ph_ID p <=? ph_ID q | None => false end
         || (u64 (MaxUint64 - transactions) <? ph_Transactions p)
         || (u64 (MaxUint64 - rows) <? ph_Rows p)
      then Err ErrConfig
      else newPhases (Some p) (u64 (transactions + ph_Transactions p))
             (u64 (rows + ph_Rows p)) ps'
  end.

Definition New (ctx : ctxState) (config : Config) : res err Controller :=
  if match ctx with CtxLive => false | _ => true end
     || (Z.of_nat (length (cf_Producers config)) =? 0)
     || (MaximumProducers <? Z.of_nat (length (cf_Producers config)))
     || (Z.of_nat (length (cf_Phases config)) =? 0)
     || (MaximumPhases <? Z.of_nat (length (cf_Phases config)))
  then Err ErrConfig
  else match newProducers [] (cf_Producers config) with
  | Err e => Err e
  | Ok producers =>
      match newPhases None 0 0 (cf_Phases config) with
      | Err e => Err e
      | Ok _ =>
          Ok (mkController ctx 0 producers (cf_Phases config)
                ((fun p => mkPhaseCount (ph_ID p) 0 0 0) <$> cf_Phases config)
                0 false 0 0 0 None false)
      end
  end.

(** ** Failure latch and guards *)
Definition failLocked {A} (e : err) : op A := fun c =>
  match c_err c with
  | None => (Err e, c <| c_err := Some e |>)
  | Some e0 => (Err e0, c)
  end.

Definition checkLocked : op unit := fun c =>
  match c_ctx c with
  | CtxNil => (Err ErrConfig, c)
  | _ => match c_err c with
         | Some e => (Err e, c)
         | None => match c_ctx c with
                   | CtxDone => failLocked ErrCanceled c
                   | _ => (Ok tt, c)
                   end
         end
  end.

Definition producerLocked (id : Z) (c : Controller) : option nat :=
  findIndex (fun p => pr_ID (ps_config p) =? id) (c_producers c).

(** [if c == nil { return ErrConfig }], the first line of every exported method. *)
Definition onPointer {A} (m : op A) : M (option Controller) err A := fun p =>
  match p with
  | None => (Err ErrConfig, None)
  | Some c => let '(r, c') := m c in (r, Some c')
  end.

(** ** Operations *)
Definition Attach (producer phase : Z) : op unit :=
  checkLocked ;; c <- get ;;
  match producerLocked producer c with
  | None => failLocked ErrProtocol
  | Some i =>
      let p := producerAt c i in
      if c_fenced c || negb (phase =? ph_ID (curPhase c)) || ps_attached p || ps_closed p
      then failLocked ErrProtocol
      else modify (setProducer i (p <| ps_attached := true |>))
  end.

(** The [ErrDescriptor] condition of [Submit]. *)
Definition badDescriptor (r : Request) : bool :=
  (rq_Kind r <? ImplicitWrite) || (Cancel <? rq_Kind r)
  || (((rq_Kind r =? Begin) || (rq_Kind r =? Commit) || (rq_Kind r =? Cancel))
      && negb (rq_Rows r =? 0))
  || ((rq_Kind r =? Append) && (rq_Rows r =? 0))
  || (((rq_Kind r =? Begin) || (rq_Kind r =? ImplicitWrite))
      && negb (rq_Transaction r =? 0))
  || ((Append <=? rq_Kind r) && (rq_Transaction r =? 0)).

Definition freeCall (p : producerState) : option nat :=
  findIndex (fun x => ca_ordinal x =? 0) (ps_calls p).

Definition transactionSlot (r : Request) (p : producerState) : option nat :=
  findIndex (fun t => ((rq_Kind r =? Begin) && (tx_ordinal t =? 0))
                      || (negb (rq_Transaction r =? 0)
                          && (tx_ordinal t =? rq_Transaction r)))
    (ps_transactions p).

Definition transactionAt (p : producerState) (i : nat) : transaction :=
  nth i (ps_transactions p) noTransaction.

(** The commit point of [Submit]: every validation precedes it. *)
Definition acceptSubmission (r : Request) (pi ci : nat) (ti : option nat)
    (addTransactions txRows : Z) (c : Controller) : Submission * Controller :=
  let p := producerAt c pi in
  let ordinal := u64 (c_ordinal c + 1) in
  let txs :=
    match ti with
    | Some t =>
        if rq_Kind r =? Begin
        then <[t := mkTransaction ordinal 0 true]> (ps_transactions p)
        else if Append <=? rq_Kind r
        then <[t := mkTransaction (tx_ordinal (transactionAt p t))
                      (if rq_Kind r =? Append then txRows else tx_rows (transactionAt p t))
                      true]> (ps_transactions p)
        else ps_transactions p
    | None => ps_transactions p
    end in
  let p' := p <| ps_ordinal := ordinal |>
              <| ps_calls ::= fun l => <[ci := mkCall ordinal (rq_Kind r) ti]> l |>
              <| ps_transactions := txs |> in
  let n := curCount c in
  let n' := n <| pc_Transactions := u64 (pc_Transactions n + addTransactions) |>
              <| pc_Rows := u64 (pc_Rows n + rq_Rows r) |>
              <| pc_MaximumRows := Z.max (pc_MaximumRows n) txRows |> in
  (mkSubmission (rq_Producer r) ordinal
     (if rq_Kind r =? Begin then ordinal else rq_Transaction r),
   setProducer pi p' c
     <| c_ordinal := ordinal |>
     <| c_counts ::= fun l => <[c_phase c := n']> l |>
     <| c_transactions := u64 (c_transactions c + addTransactions) |>
     <| c_rows := u64 (c_rows c + rq_Rows r) |>
     <| c_maximumRows := Z.max (c_maximumRows c) txRows |>).

(** The row and transaction budget checks of [Submit]. *)
Definition admitBudget (r : Request) (pi ci : nat) (ti : option nat) : op Submission :=
  c <- get ;;
  let p := producerAt c pi in
  let held := match ti with Some t => tx_rows (transactionAt p t) | None => 0 end in
  let addTransactions := if (rq_Kind r =? Begin) || (rq_Kind r =? ImplicitWrite) then 1 else 0 in
  if (rq_Kind r =? Append) && (u64 (MaximumRows - held) <? rq_Rows r)
  then failLocked ErrLimit
  else
    let txRows := if rq_Kind r =? Append then u64 (rq_Rows r + held) else rq_Rows r in
    if (MaximumRows <? txRows)
       || (u64 (ph_Transactions (curPhase c) - pc_Transactions (curCount c)) <? addTransactions)
       || (u64 (ph_Rows (curPhase c) - pc_Rows (curCount c)) <? rq_Rows r)
    then failLocked ErrLimit
    else
      let '(out, c') := acceptSubmission r pi ci ti addTransactions txRows c in
      put c' ;; ret out.

Definition Submit (r : Request) : op Submission :=
  checkLocked ;; c <- get ;;
  match producerLocked (rq_Producer r) c with
  | None => failLocked ErrProtocol
  | Some pi =>
      let p := producerAt c pi in
      if negb (ps_attached p) || ps_closed p || negb (ps_terminalPhase p =? 0)
         || negb (rq_Phase r =? ph_ID (curPhase c)) || (ps_checkpoint p =? rq_Phase r)
      then failLocked ErrProtocol
      else if badDescriptor r then failLocked ErrDescriptor
      else if c_fenced c && negb (rq_Kind r =? Commit) && negb (rq_Kind r =? Cancel)
      then failLocked ErrFenced
      else
        let ti := transactionSlot r p in
        if (Append <=? rq_Kind r)
           && match ti with None => true | Some t => tx_busy (transactionAt p t) end
        then failLocked ErrProtocol
        else match freeCall p with
             | None => failLocked ErrLimit
             | Some ci =>
                 if ((rq_Kind r =? Begin) && is_nil ti) || (c_ordinal c =? MaxUint64)
                 then failLocked ErrLimit
                 else admitBudget r pi ci ti
             end
  end.

Definition callAt (p : producerState) (i : nat) : call := nth i (ps_calls p) noCall.

Definition Settle (s : Submission) : op unit :=
  checkLocked ;; c <- get ;;
  match producerLocked (sb_Producer s) c with
  | None => failLocked ErrProtocol
  | Some pi =>
      let p := producerAt c pi in
      if negb (ps_attached p) || ps_closed p || (sb_Ordinal s =? 0)
      then failLocked ErrProtocol
      else match findIndex (fun x => ca_ordinal x =? sb_Ordinal s) (ps_calls p) with
      | None => failLocked ErrProtocol
      | Some ci =>
          let active := callAt p ci in
          let want := match ca_transaction active with
                      | Some t => tx_ordinal (transactionAt p t)
                      | None => 0
                      end in
          if negb (sb_Transaction s =? want) then failLocked ErrProtocol
          else
            let txs :=
              match ca_transaction active with
              | Some t =>
                  if (ca_kind active =? Commit) || (ca_kind active =? Cancel)
                  then <[t := noTransaction]> (ps_transactions p)
                  else <[t := (transactionAt p t) <| tx_busy := false |>]> (ps_transactions p)
              | None => ps_transactions p
              end in
            modify (setProducer pi
              (p <| ps_transactions := txs |>
                 <| ps_calls ::= fun l => <[ci := noCall]> l |>))
      end
  end.

Definition Fail (reason : err) : op unit :=
  checkLocked ;;
  match reason with
  | ErrDescriptor | ErrProtocol | ErrLimit | ErrTransport | ErrCanceled | ErrIncomplete =>
      failLocked reason
  | _ => failLocked ErrProtocol
  end.

Definition Fence : op unit :=
  checkLocked ;; modify (fun c => c <| c_fenced := true |>).

Definition busy (p : producerState) : bool :=
  existsb (fun x => negb (ca_ordinal x =? 0)) (ps_calls p)
  || existsb (fun t => negb (tx_ordinal t =? 0)) (ps_transactions p).

Definition Checkpoint (producer phase : Z) : op unit :=
  checkLocked ;; c <- get ;;
  match producerLocked producer c with
  | None => failLocked ErrProtocol
  | Some i =>
      let p := producerAt c i in
      if negb (c_fenced c) || negb (phase =? ph_ID (curPhase c)) || negb (ps_attached p)
         || ps_closed p || negb (ps_terminalPhase p =? 0) || (ps_checkpoint p =? phase)
      then failLocked ErrProtocol
      else if busy p then throw ErrBusy
      else modify (setProducer i (p <| ps_checkpoint := phase |>))
  end.

(** The producers that keep [Advance] from leaving the current phase. *)
Definition blocksAdvance (phase : Z) (p : producerState) : bool :=
  ps_attached p && negb (ps_closed p) && negb (ps_terminalEOF p)
  && (negb (ps_checkpoint p =? phase) || (ps_lastPhase p =? phase)).

Definition Advance : op unit :=
  checkLocked ;; c <- get ;;
  if negb (c_fenced c) || (Nat.leb (length (c_phases c)) (c_phase c + 1))
  then failLocked ErrProtocol
  else if existsb (blocksAdvance (ph_ID (curPhase c))) (c_producers c)
  then throw ErrBusy
  else modify (fun c => c <| c_phase ::= S |> <| c_fenced := false |>).

Definition Close (producer : Z) : op unit :=
  checkLocked ;; c <- get ;;
  match producerLocked producer c with
  | None => failLocked ErrProtocol
  | Some i =>
      let p := producerAt c i in
      if negb (ps_attached p) || ps_closed p || negb (ps_terminalPhase p =? 0)
      then failLocked ErrProtocol
      else if busy p then throw ErrBusy
      else modify (setProducer i (p <| ps_closed := true |>))
  end.

Definition armTerminalEOF (producer phase : Z) : op unit :=
  checkLocked ;; c <- get ;;
  match producerLocked producer c with
  | None => failLocked ErrProtocol
  | Some i =>
      let p := producerAt c i in
      if negb (c_fenced c) || negb (phase =? ph_ID (curPhase c)) || negb (ps_attached p)
         || ps_closed p || negb (ps_terminalPhase p =? 0) || negb (ps_lastPhase p =? phase)
         || negb (ps_checkpoint p =? phase)
      then failLocked ErrProtocol
      else if existsb busy (c_producers c) then failLocked ErrProtocol
      else modify (setProducer i (p <| ps_terminalPhase := phase |>))
  end.

Definition acceptTerminalEOF (producer : Z) : op unit :=
  checkLocked ;; c <- get ;;
  match producerLocked producer c with
  | None => failLocked ErrIncomplete
  | Some i =>
      let p := producerAt c i in
      let phase := ph_ID (curPhase c) in
      if negb (c_fenced c) || negb (ps_attached p) || ps_closed p || ps_terminalEOF p
         || negb (ps_terminalPhase p =? phase) || negb (ps_lastPhase p =? phase)
         || negb (ps_checkpoint p =? phase)
      then failLocked ErrIncomplete
      else if existsb busy (c_producers c) then failLocked ErrIncomplete
      else modify (setProducer i (p <| ps_terminalEOF := true |>))
  end.

(** The controller half of [ReopenAfterTerminalEOF]. *)
Definition reopenAfterTerminalEOF (predecessor successor phase : Z) : op unit :=
  checkLocked ;; c <- get ;;
  match producerLocked predecessor c, producerLocked successor c with
  | Some i, Some j =>
      let prior := producerAt c i in
      let next := producerAt c j in
      if negb (c_fenced c) || negb (phase =? ph_ID (curPhase c))
         || negb (ps_terminalEOF prior) || negb (ps_terminalPhase prior =? phase)
         || negb (ps_checkpoint prior =? phase)
         || ps_attached next || ps_closed next || negb (ps_ordinal next =? 0)
         || negb (ps_checkpoint next =? 0) || negb (ps_terminalPhase next =? 0)
      then failLocked ErrProtocol
      else if existsb (fun p => busy p
                                || (ps_attached p && negb (ps_closed p) && negb (ps_terminalEOF p)))
                (c_producers c)
      then failLocked ErrIncomplete
      else modify (fun c => c <| c_fenced := false |>)
  | _, _ => failLocked ErrProtocol
  end.

(** [Snapshot] returns its prefix beside the sticky error. *)
Definition producerRow (p : producerState) : ProducerCount :=
  mkProducerCount (pr_ID (ps_config p)) (ps_ordinal p)
    (Z.of_nat (length (List.filter (fun x => negb (ca_ordinal x =? 0)) (ps_calls p))))
    (Z.of_nat (length (List.filter (fun t => negb (tx_ordinal t =? 0)) (ps_transactions p))))
    (ps_checkpoint p) (ps_attached p) (ps_closed p) (ps_terminalPhase p) (ps_terminalEOF p).

Definition Snapshot (c : Controller) : (Snapshot_ * option err) * Controller :=
  let '(r, c') := checkLocked c in
  let e := match r with Ok _ => None | Err e => Some e end in
  let done := is_nil e && c_fenced c' && Nat.eqb (c_phase c' + 1) (length (c_phases c')) in
  (mkSnapshot (c_transactions c') (c_rows c') (c_maximumRows c') (ph_ID (curPhase c'))
     (c_counts c') (producerRow <$> c_producers c')
     (done && forallb ps_closed (c_producers c'))
     (done && forallb (fun p => ps_closed p || ps_terminalEOF p) (c_producers c')),
   e, c').
