(* ===== verification/StoreWire.v ===== *)
(** * The store-accounting wire format and its budget

    Model of [internal/storeaccounting/wire.go]: the fixed 64-byte frame
    "SA01" and its strict decoder, the conservative wire budget, and the
    controller's wire configuration and lookups. *)
From S2P Require Import Prelude Bytes StoreAccounting.

(** ** Definitions *)
Definition FrameBytes : Z := 64.
Definition pairBytes : Z := 2 * FrameBytes.
Definition replyBit : Z := 0x80.

Definition opAttach : Z := 1.
Definition opSubmit : Z := 2.
Definition opSettle : Z := 3.
Definition opCheckpoint : Z := 4.
Definition opClose : Z := 5.
Definition opFail : Z := 6.

Record WireProducer := mkWireProducer {
  wp_ID : Z;
  wp_Binding : list Z;   (* [32]byte *)
  wp_Phases : Z          (* uint16 mask; bit zero is phase one *)
}.

Record WireConfig := mkWireConfig {
  wc_Producers : list WireProducer;
  wc_AckTimeout : Z      (* time.Duration *)
}.

Record ClientConfig := mkClientConfig {
  cc_Producer : Z;
  cc_Binding : list Z;
  cc_Phase : Z;
  cc_Phases : Z;
  cc_Calls : Z;
  cc_Transactions : Z;
  cc_WireBytes : Z;
  cc_AckTimeout : Z
}.

Record wireFrame := mkWireFrame {
  wf_op : Z;
  wf_kind : Z;
  wf_rows : Z;
  wf_phase : Z;
  wf_sequence : Z;
  wf_token : Z;
  wf_binding : list Z
}.

Definition magicSA : list Z := ascii_bytes "SA01".

Definition encode (f : wireFrame) : list Z :=
  magicSA ++ [wf_op f; wf_kind f] ++ be_put 2 (wf_rows f) ++ be_put 4 (wf_phase f)
  ++ [0; 0; 0; 0] ++ be_put 8 (wf_sequence f) ++ be_put 8 (wf_token f) ++ wf_binding f.

(** The per-operation field rules at the end of [decodeFrame]. *)
Definition opFieldsInvalid (op : Z) (f : wireFrame) : bool :=
  if (op =? opAttach) || (op =? opCheckpoint) || (op =? opClose)
  then negb (wf_kind f =? 0) || negb (wf_rows f =? 0) || negb (wf_token f =? 0)
  else if op =? opSettle
  then negb (wf_kind f =? 0) || negb (wf_rows f =? 0) || (wf_token f =? 0)
  else if op =? opSubmit
  then (wf_kind f <? ImplicitWrite) || (Cancel <? wf_kind f)
  else if op =? opFail
  then (wf_kind f <? 1) || (6 <? wf_kind f) || negb (wf_rows f =? 0) || negb (wf_token f =? 0)
  else false.

Definition byteAt (raw : list Z) (i : nat) : Z := nth i raw 0.

Definition decodeFrame (raw : list Z) (reply : bool) : res err wireFrame :=
  let op0 := byteAt raw 4 in
  if reply && (Z.land op0 replyBit =? 0) then Err ErrProtocol
  else
    let op := if reply then Z.ldiff op0 replyBit else op0 in
    if negb (bytes_eqb (slice 0 4 raw) magicSA) || (op <? opAttach) || (opFail <? op)
       || negb (byteAt raw 12 =? 0) || negb (byteAt raw 13 =? 0)
       || negb (byteAt raw 14 =? 0) || negb (byteAt raw 15 =? 0)
    then Err ErrProtocol
    else
      let f := mkWireFrame op0 (byteAt raw 5) (be_get (slice 6 8 raw))
                 (be_get (slice 8 12 raw)) (be_get (slice 16 24 raw))
                 (be_get (slice 24 32 raw)) (slice 32 64 raw) in
      if (wf_phase f =? 0) || (MaximumPhases <? wf_phase f) || (wf_sequence f =? 0)
         || (MaximumRows <? wf_rows f)
      then Err ErrProtocol
      else if opFieldsInvalid op f then Err ErrProtocol
      else Ok f.

Definition wireProducerID (id : Z) : bool :=
  ((2 <=? id) && (id <=? 6)) || (id =? 10) || (id =? 11).

Definition phaseIn (mask phase : Z) : bool :=
  (0 <? phase) && (phase <=? MaximumPhases)
  && negb (Z.land mask (u16 (Z.shiftl 1 (phase - 1))) =? 0).

(** The accumulation loop of [wireBudget] over its three extra terms. *)
Fixpoint addPairs (pairs : Z) (extras : list Z) : res err Z :=
  match extras with
  | [] => Ok pairs
  | extra :: extras' =>
      if u64 (MaxUint64 - pairs) <? extra then Err ErrConfig
      else addPairs (u64 (pairs + extra)) extras'
  end.

Definition wireBudget (transactions rows checkpoints producers : Z) : res err Z :=
  let appends :=
    if transactions <=? MaxUint64 / MaximumRows
    then Z.min rows (u64 (transactions * MaximumRows)) else rows in
  if (MaxUint64 / 4 <? transactions) || (MaxUint64 / 2 <? appends)
     || (MaxUint64 / 4 <? producers)
  then Err ErrConfig
  else match addPairs (u64 (4 * transactions))
               [u64 (2 * appends); checkpoints; u64 (4 * producers)] with
       | Err e => Err e
       | Ok pairs =>
           if MaxUint64 / pairBytes <? pairs then Err ErrConfig
           else Ok (u64 (pairs * pairBytes))
       end.

(** [bits.Len16] and [bits.OnesCount16]. *)
Definition len16 (x : Z) : Z := if x =? 0 then 0 else Z.log2 x + 1.
Definition onesCount16 (x : Z) : Z :=
  zsum ((fun i => if Z.testbit x (Z.of_nat i) then 1 else 0) <$> seq 0 16).

Definition knownPhases (ps : list Phase) : Z :=
  fold_left (fun m p => Z.lor m (u16 (Z.shiftl 1 (ph_ID p - 1)))) ps 0.

Definition sumPhases (sel : Phase -> bool) (f : Phase -> Z) (ps : list Phase) : Z :=
  fold_left (fun acc p => if sel p then u64 (acc + f p) else acc) ps 0.

(** One turn of the loop of [wireConfiguration] over the wire producers. *)
Definition configureProducer (c : Controller) (timeout known : Z)
    (clients : list ClientConfig) (input : WireProducer) : res err ClientConfig :=
  match producerLocked (wp_ID input) c with
  | None => Err ErrConfig
  | Some i =>
      let p := producerAt c i in
      if negb (wireProducerID (wp_ID input)) || ps_attached p || ps_closed p
         || bytes_eqb (wp_Binding input) (replicate 32 0) || (wp_Phases input =? 0)
         || negb (Z.ldiff (wp_Phases input) known =? 0)
      then Err ErrConfig
      else if existsb (fun k => (cc_Producer k =? wp_ID input)
                                || bytes_eqb (cc_Binding k) (wp_Binding input)) clients
      then Err ErrConfig
      else
        let sel ph := phaseIn (wp_Phases input) (ph_ID ph) in
        match wireBudget (sumPhases sel ph_Transactions (c_phases c))
                (sumPhases sel ph_Rows (c_phases c)) (onesCount16 (wp_Phases input)) 1 with
        | Err e => Err e
        | Ok wire =>
            Ok (mkClientConfig (wp_ID input) (wp_Binding input) 0 (wp_Phases input)
                  (pr_Calls (ps_config p)) (pr_Transactions (ps_config p)) wire timeout)
        end
  end.

Fixpoint configureProducers (c : Controller) (timeout known : Z)
    (clients : list ClientConfig) (checkpoints : Z) (inputs : list WireProducer)
    : res err (list ClientConfig * Z) :=
  match inputs with
  | [] => Ok (clients, checkpoints)
  | input :: inputs' =>
      match configureProducer c timeout known clients input with
      | Err e => Err e
      | Ok k => configureProducers c timeout known (clients ++ [k])
                  (u64 (checkpoints + onesCount16 (wp_Phases input))) inputs'
      end
  end.

Definition setLastPhase (c : Controller) (input : WireProducer) : Controller :=
  match producerLocked (wp_ID input) c with
  | None => c
  | Some i => setProducer i ((producerAt c i) <| ps_lastPhase := len16 (wp_Phases input) |>) c
  end.

(** The clients of a refused configuration are not returned: every caller
    drops them with the error. *)
Definition wireConfiguration (config : WireConfig) : op (list ClientConfig * Z) := fun c0 =>
  if (wc_AckTimeout config <=? 0) || (Z.of_nat (length (wc_Producers config)) =? 0)
  then (Err ErrConfig, c0)
  else
    let '(checked, c) := checkLocked c0 in
    if negb (is_ok checked) || c_wireOwned c || negb (c_ordinal c =? 0) || c_fenced c
       || negb (Nat.eqb (c_phase c) 0)
       || negb (Nat.eqb (length (wc_Producers config)) (length (c_producers c)))
    then (Err ErrConfig, c)
    else
      match configureProducers c (wc_AckTimeout config) (knownPhases (c_phases c)) [] 0
              (wc_Producers config) with
      | Err e => (Err e, c)
      | Ok (clients, checkpoints) =>
          match wireBudget (sumPhases (fun _ => true) ph_Transactions (c_phases c))
                  (sumPhases (fun _ => true) ph_Rows (c_phases c)) checkpoints
                  (Z.of_nat (length (c_producers c))) with
          | Err e => (Err e, c)
          | Ok global =>
              (Ok (clients, global),
               (fold_left setLastPhase (wc_Producers config) c) <| c_wireOwned := true |>)
          end
      end.

Definition wirePhase : op Z :=
  checkLocked ;; c <- get ;; ret (ph_ID (curPhase c)).

Definition wireSubmission (producer ordinal : Z) : op Submission :=
  checkLocked ;; c <- get ;;
  match producerLocked producer c with
  | None => failLocked ErrProtocol
  | Some pi =>
      if ordinal =? 0 then failLocked ErrProtocol
      else
        let p := producerAt c pi in
        match findIndex (fun x => ca_ordinal x =? ordinal) (ps_calls p) with
        | None => failLocked ErrProtocol
        | Some ci =>
            ret (mkSubmission producer ordinal
                   (match ca_transaction (callAt p ci) with
                    | Some t => tx_ordinal (transactionAt p t)
                    | None => 0
                    end))
        end
  end.

Definition failureErrors : list err :=
  [ErrDescriptor; ErrProtocol; ErrLimit; ErrTransport; ErrCanceled; ErrIncomplete].

Definition failureKind (reason : err) : Z :=
  match findIndex (fun known => bool_decide (reason = known)) failureErrors with
  | Some i => u8 (Z.of_nat i + 1)
  | None => 2
  end.

Definition failureReason (kind : Z) : err :=
  if (kind <? 1) || (6 <? kind) then ErrProtocol
  else nth (Z.to_nat (kind - 1)) failureErrors ErrProtocol.

(** ** The wire budget *)
Lemma addPairs_spec pairs extras :
  0 <= pairs <= MaxUint64 -> Forall (fun e => 0 <= e <= MaxUint64) extras ->
  addPairs pairs extras =
    (if pairs + zsum extras <=? MaxUint64 then Ok (pairs + zsum extras) else Err ErrConfig).
Proof.
  intros Hp Hs. revert pairs Hp. induction Hs as [|e l He Hl IH]; intros pairs Hp; cbn [addPairs zsum].
  - rewrite Z.add_0_r. destruct (Z.leb_spec pairs MaxUint64); [reflexivity|lia].
  - assert (0 <= zsum l).
    { apply zsum_nonneg. intros x Hx. rewrite Forall_forall in Hl. apply Hl in Hx. lia. }
    rewrite u64_small by (unfold MaxUint64 in *; lia).
    destruct (Z.ltb_spec (MaxUint64 - pairs) e).
    + destruct (Z.leb_spec (pairs + (e + zsum l)) MaxUint64); [lia|reflexivity].
    + rewrite u64_small by lia. rewrite IH by lia.
      replace (pairs + e + zsum l) with (pairs + (e + zsum l)) by lia. reflexivity.
Qed.

Lemma wireBudget_spec transactions rows checkpoints producers :
  0 <= transactions <= MaxUint64 -> 0 <= rows <= MaxUint64 ->
  0 <= checkpoints <= MaxUint64 -> 0 <= producers <= MaxUint64 ->
  let pairs := 2 * (2 * transactions + Z.min rows (MaximumRows * transactions))
               + checkpoints + 4 * producers in
  wireBudget transactions rows checkpoints producers =
    (if pairBytes * pairs <=? MaxUint64 then Ok (pairBytes * pairs) else Err ErrConfig).
Proof.
  intros HT HR HC HP pairs. subst pairs. unfold wireBudget.
  change pairBytes with 128. change MaximumRows with 512.
  set (A := if transactions <=? MaxUint64 / 512
            then Z.min rows (u64 (transactions * 512)) else rows).
  assert (Hbig : MaxUint64 / 512 < transactions \/
          A = Z.min rows (512 * transactions) /\ transactions <= MaxUint64 / 512).
  { subst A. destruct (Z.leb_spec transactions (MaxUint64 / 512)); [right|left; lia].
    split; [|lia]. rewrite u64_small; [f_equal; lia|].
    pose proof (Z.mul_div_le MaxUint64 512). lia. }
  assert (MaxUint64 = 18446744073709551615) as Hmax by reflexivity.
  assert (0 <= A <= MaxUint64) as HA by (subst A; destruct (_ <=? _); [pose proof (u64_range (transactions * 512))|]; lia).
  rewrite Hmax in *. change (18446744073709551615 / 512) with 36028797018963967 in *.
  change (18446744073709551615 / 4) with 4611686018427387903.
  change (18446744073709551615 / 2) with 9223372036854775807.
  change (18446744073709551615 / 128) with 144115188075855871.
  destruct ((4611686018427387903 <? transactions) || (9223372036854775807 <? A)
            || (4611686018427387903 <? producers)) eqn:Eguard.
  - destruct (Z.leb_spec (128 * (2 * (2 * transactions + Z.min rows (512 * transactions))
      + checkpoints + 4 * producers)) 18446744073709551615); [|reflexivity].
    apply orb_true_iff in Eguard as [[Eg|Eg]%orb_true_iff|Eg]; apply Z.ltb_lt in Eg; lia.
  - bsplit. rewrite !u64_small by (unfold MaxUint64; lia).
    rewrite addPairs_spec by (repeat constructor; unfold MaxUint64; lia).
    cbn [zsum]. rewrite Hmax.
    destruct (Z.leb_spec (4 * transactions + (2 * A + (checkpoints + (4 * producers + 0))))
                18446744073709551615);
    destruct (Z.leb_spec (128 * (2 * (2 * transactions + Z.min rows (512 * transactions))
                + checkpoints + 4 * producers)) 18446744073709551615); try lia; try reflexivity.
    + destruct (Z.ltb_spec 144115188075855871
                 (4 * transactions + (2 * A + (checkpoints + (4 * producers + 0))))); [lia|].
      rewrite u64_small by (unfold MaxUint64; lia). f_equal. lia.
    + destruct (Z.ltb_spec 144115188075855871
                 (4 * transactions + (2 * A + (checkpoints + (4 * producers + 0))))); [reflexivity|lia].
Qed.

(** The byte budget is exactly the pairs of every possible submission,
    and is refused exactly when it does not fit a [uint64]. *)
Theorem wireBudget_exact transactions rows checkpoints producers :
  0 <= transactions <= MaxUint64 -> 0 <= rows <= MaxUint64 ->
  0 <= checkpoints <= MaxUint64 -> 0 <= producers <= MaxUint64 ->
  let pairs := 2 * (2 * transactions + Z.min rows (MaximumRows * transactions))
               + checkpoints + 4 * producers in
  wireBudget transactions rows checkpoints producers =
    (if pairBytes * pairs <=? MaxUint64 then Ok (pairBytes * pairs) else Err ErrConfig).
Proof. exact (wireBudget_spec transactions rows checkpoints producers). Qed.

(** ** The frame codec *)

(** The frames the decoder admits, field by field. *)
Definition frameAdmitted (reply : bool) (f : wireFrame) : Prop :=
  let op := if reply then Z.ldiff (wf_op f) replyBit else wf_op f in
  (reply = true -> Z.land (wf_op f) replyBit <> 0) /\
  opAttach <= op <= opFail /\ 1 <= wf_phase f <= MaximumPhases /\
  1 <= wf_sequence f < 2 ^ 64 /\ 0 <= wf_rows f <= MaximumRows /\
  0 <= wf_token f < 2 ^ 64 /\ isByte (wf_op f) /\ isByte (wf_kind f) /\
  length (wf_binding f) = 32%nat /\ Forall isByte (wf_binding f) /\
  opFieldsInvalid op f = false.

(** Reading every field back out of an encoded frame. *)
Section Fields.
Context (f : wireFrame) (Hlen : length (wf_binding f) = 32%nat).

Lemma encode_length : length (encode f) = 64%nat.
Proof using Hlen.
  unfold encode. rewrite !length_app, !length_be_put, Hlen. reflexivity.
Qed.

Lemma encode_fields :
  slice 0 4 (encode f) = magicSA /\ byteAt (encode f) 4 = wf_op f /\
  byteAt (encode f) 5 = wf_kind f /\ slice 6 8 (encode f) = be_put 2 (wf_rows f) /\
  slice 8 12 (encode f) = be_put 4 (wf_phase f) /\
  slice 12 16 (encode f) = [0; 0; 0; 0] /\
  slice 16 24 (encode f) = be_put 8 (wf_sequence f) /\
  slice 24 32 (encode f) = be_put 8 (wf_token f) /\
  slice 32 64 (encode f) = wf_binding f.
Proof using Hlen.
  unfold encode, slice, byteAt. repeat split; try reflexivity.
  unfold magicSA. cbn -[take]. rewrite drop_0, <- Hlen. apply firstn_all.
Qed.
End Fields.

Lemma slice_cons4 raw :
  length raw = 64%nat ->
  slice 12 16 raw = [byteAt raw 12; byteAt raw 13; byteAt raw 14; byteAt raw 15] /\
  slice 4 6 raw = [byteAt raw 4; byteAt raw 5].
Proof.
  intros H. do 16 (destruct raw as [|? raw]; [discriminate|]). split; reflexivity.
Qed.

(** The nine fields of a 64-byte frame, in order, are the frame. *)
Lemma slices_of_frame raw :
  length raw = 64%nat ->
  raw = slice 0 4 raw ++ slice 4 6 raw ++ slice 6 8 raw ++ slice 8 12 raw ++ slice 12 16 raw
        ++ slice 16 24 raw ++ slice 24 32 raw ++ slice 32 64 raw.
Proof.
  intros H. rewrite !slice_app by lia. symmetry. apply slice_all, H.
Qed.

Lemma byteAt_range raw i : Forall isByte raw -> isByte (byteAt raw i).
Proof.
  intros H. unfold byteAt. destruct (nth_in_or_default i raw 0) as [Hin| ->];
    [|unfold isByte; lia].
  rewrite Forall_forall in H. apply H. apply list_elem_of_In. exact Hin.
Qed.

Lemma decodeFrame_sound raw reply f :
  length raw = 64%nat -> Forall isByte raw -> decodeFrame raw reply = Ok f ->
  frameAdmitted reply f /\ encode f = raw.
Proof.
  intros Hlen Hbytes H. unfold decodeFrame in H.
  destruct (reply && (Z.land (byteAt raw 4) replyBit =? 0)) eqn:Ereply; [discriminate|].
  match type of H with (if ?g then _ else _) = _ => destruct g eqn:Eg; [discriminate|] end.
  match type of H with (if ?g then _ else _) = _ => destruct g eqn:Er; [discriminate|] end.
  match type of H with (if ?g then _ else _) = _ => destruct g eqn:Eo; [discriminate|] end.
  injection H as <-. cbn [wf_op wf_kind wf_rows wf_phase wf_sequence wf_token wf_binding] in Er.
  bsplit.
  match goal with H : bytes_eqb _ _ = true |- _ => apply bool_decide_eq_true in H end.
  assert (0 <= be_get (slice 8 12 raw) < 2 ^ 32) by (apply (be_get_slice_range 8 12); auto; lia).
  assert (0 <= be_get (slice 6 8 raw) < 2 ^ 16) by (apply (be_get_slice_range 6 8); auto; lia).
  assert (0 <= be_get (slice 16 24 raw) < 2 ^ 64) by (apply (be_get_slice_range 16 24); auto; lia).
  assert (0 <= be_get (slice 24 32 raw) < 2 ^ 64) by (apply (be_get_slice_range 24 32); auto; lia).
  split.
  - unfold frameAdmitted. cbn [wf_op wf_kind wf_rows wf_phase wf_sequence wf_token wf_binding].
    repeat split; auto; try lia; try apply byteAt_range; auto.
    + intros ->. cbn in Ereply. apply Z.eqb_neq in Ereply. exact Ereply.
    + apply length_slice; lia.
    + apply slice_bytes, Hbytes.
  - destruct (slice_cons4 raw Hlen) as [S12 S4].
    unfold encode. cbn [wf_op wf_kind wf_rows wf_phase wf_sequence wf_token wf_binding].
    rewrite (slices_of_frame raw Hlen) at 8.
    rewrite S12, S4. repeat match goal with H : byteAt raw _ = 0 |- _ => rewrite H end.
    rewrite !be_put_slice by (auto; lia).
    f_equal. congruence.
Qed.

Lemma byteAt_reserved raw :
  length raw = 64%nat -> slice 12 16 raw = [0; 0; 0; 0] ->
  byteAt raw 12 = 0 /\ byteAt raw 13 = 0 /\ byteAt raw 14 = 0 /\ byteAt raw 15 = 0.
Proof.
  intros H E. rewrite (proj1 (slice_cons4 raw H)) in E. injection E. auto.
Qed.

Lemma decodeFrame_complete reply f :
  frameAdmitted reply f -> decodeFrame (encode f) reply = Ok f.
Proof.
  intros (Hr & Hop & Hph & Hsq & Hrow & Htok & Hbop & Hbk & Hlen & Hb & Hof).
  destruct (encode_fields f Hlen) as (F0 & F4 & F5 & F6 & F8 & F12 & F16 & F24 & F32).
  destruct (byteAt_reserved _ (encode_length f Hlen) F12) as (Z12 & Z13 & Z14 & Z15).
  unfold decodeFrame. rewrite F0, F4, F5, F6, F8, F16, F24, F32, Z12, Z13, Z14, Z15.
  rewrite !be_get_small by (cbn; unfold MaximumPhases, MaximumRows in *; lia).
  destruct (reply && (Z.land (wf_op f) replyBit =? 0)) eqn:Ereply.
  { bsplit. subst. tauto. }
  unfold bytes_eqb. rewrite bool_decide_eq_true_2 by reflexivity.
  rewrite (proj2 (Z.ltb_ge _ opAttach)) by lia. rewrite (proj2 (Z.ltb_ge opFail _)) by lia.
  cbn [negb orb Z.eqb wf_phase wf_sequence wf_rows].
  rewrite (proj2 (Z.eqb_neq (wf_phase f) 0)), (proj2 (Z.eqb_neq (wf_sequence f) 0)) by lia.
  rewrite (proj2 (Z.ltb_ge MaximumPhases _)), (proj2 (Z.ltb_ge MaximumRows _)) by lia.
  cbn [orb]. destruct f; cbn [wf_op wf_kind wf_rows wf_phase wf_sequence wf_token wf_binding] in *.
  rewrite Hof. reflexivity.
Qed.

(** C37: decoding accepts exactly the canonical encodings of admitted frames. *)
Theorem decodeFrame_exact raw reply f :
  length raw = 64%nat -> Forall isByte raw ->
  (decodeFrame raw reply = Ok f <-> frameAdmitted reply f /\ raw = encode f).
Proof.
  intros Hlen Hb. split.
  - intros H. apply decodeFrame_sound in H as [? <-]; auto.
  - intros [Ha ->]. apply decodeFrame_complete, Ha.
Qed.

Definition sampleFrame : wireFrame :=
  mkWireFrame opSubmit Append 7 3 9 4 (replicate 32 5).

Example decodeFrame_exact_witness :
  decodeFrame (encode sampleFrame) false = Ok sampleFrame /\
  frameAdmitted false sampleFrame /\ encode sampleFrame = encode sampleFrame.
Proof.
  assert (decodeFrame (encode sampleFrame) false = Ok sampleFrame) as H
    by (vm_compute; reflexivity).
  split; [exact H|].
  apply (proj1 (decodeFrame_exact (encode sampleFrame) false sampleFrame
    eq_refl ltac:(apply (bool_decide_eq_true_1 _); vm_compute; reflexivity)) H).
Defined.

Example wireBudget_exact_witness :
  wireBudget 3 10 2 1 = Ok (128 * (2 * (2 * 3 + 10) + 2 + 4)).
Proof.
  rewrite (wireBudget_exact 3 10 2 1) by (unfold MaxUint64; lia).
  vm_compute. reflexivity.
Defined.
