(* ===== verification/StoreSteps.v ===== *)
(** * Runs of the store-accounting controller

    The events an owner can apply to a controller, the runs they produce with
    the log of accepted submissions, and, for every operation, the one
    inversion lemma the invariant proofs use: an operation either only latches
    an error or makes exactly the change its guards allow. *)
From S2P Require Import Prelude Bytes StoreAccounting StoreWire.

(** ** Events and runs *)
Inductive event :=
  | EvCancel
  | EvAttach (producer phase : Z)
  | EvSubmit (r : Request)
  | EvSettle (s : Submission)
  | EvFail (reason : err)
  | EvFence
  | EvCheckpoint (producer phase : Z)
  | EvAdvance
  | EvClose (producer : Z)
  | EvArm (producer phase : Z)
  | EvEOF (producer : Z)
  | EvReopen (predecessor successor phase : Z)
  | EvSnapshot
  | EvWire (config : WireConfig)
  | EvWirePhase
  | EvWireSubmission (producer ordinal : Z).

Definition cancelCtx (c : Controller) : Controller :=
  match c_ctx c with CtxLive => c <| c_ctx := CtxDone |> | _ => c end.

Definition apply (ev : event) (c : Controller) : Controller :=
  match ev with
  | EvCancel => cancelCtx c
  | EvAttach p ph => snd (Attach p ph c)
  | EvSubmit r => snd (Submit r c)
  | EvSettle s => snd (Settle s c)
  | EvFail e => snd (Fail e c)
  | EvFence => snd (Fence c)
  | EvCheckpoint p ph => snd (Checkpoint p ph c)
  | EvAdvance => snd (Advance c)
  | EvClose p => snd (Close p c)
  | EvArm p ph => snd (armTerminalEOF p ph c)
  | EvEOF p => snd (acceptTerminalEOF p c)
  | EvReopen a b ph => snd (reopenAfterTerminalEOF a b ph c)
  | EvSnapshot => snd (Snapshot c)
  | EvWire config => snd (wireConfiguration config c)
  | EvWirePhase => snd (wirePhase c)
  | EvWireSubmission p o => snd (wireSubmission p o c)
  end.

(** The kind an event adds to the log: that of a submission it had accepted. *)
Definition logged (ev : event) (c : Controller) : list Kind :=
  match ev with
  | EvSubmit r => match fst (Submit r c) with Ok _ => [rq_Kind r] | Err _ => [] end
  | _ => []
  end.

(** The Go types of the inputs. *)
Definition typedEvent (ev : event) : Prop :=
  match ev with
  | EvSubmit r => 0 <= rq_Rows r <= MaxUint64
  | _ => True
  end.
Definition typedConfig (config : Config) : Prop :=
  Forall (fun p => 0 <= ph_ID p /\ 0 <= ph_Transactions p <= MaxUint64
                   /\ 0 <= ph_Rows p <= MaxUint64) (cf_Phases config).

Inductive runs (config : Config) : list Kind -> Controller -> Prop :=
  | runs_new ctx c : New ctx config = Ok c -> runs config [] c
  | runs_step log c ev :
      runs config log c -> typedEvent ev ->
      runs config (log ++ logged ev c) (apply ev c).

Definition reachable (config : Config) (c : Controller) : Prop :=
  exists log, runs config log c.

(** ** The error latch *)

(** [c'] differs from [c] in the latched error at most. *)
Definition latched (c c' : Controller) : Prop := exists e, c' = c <| c_err := e |>.

Lemma latched_refl c : latched c c.
Proof. exists (c_err c). destruct c; reflexivity. Qed.

Lemma failLocked_latched {A} e c (r : res err A) c' :
  failLocked e c = (r, c') -> latched c c' /\ exists e', r = Err e' /\ c_err c' = Some e'.
Proof.
  unfold failLocked. destruct (c_err c) eqn:E; intros [= <- <-].
  - split; [apply latched_refl|eauto].
  - split; [eexists; reflexivity|eauto].
Qed.

Lemma checked_inv {A} (k : op A) c r c' :
  bind checkLocked (fun _ => k) c = (r, c') ->
  (latched c c' /\ exists e, r = Err e) \/
  (c_err c = None /\ c_ctx c = CtxLive /\ k c = (r, c')).
Proof.
  unfold bind, checkLocked. destruct (c_ctx c) eqn:Ec; destruct (c_err c) eqn:Ee.
  all: try (intros [= <- <-]; left; split; [apply latched_refl|eauto]).
  - intros H. right. auto.
  - unfold failLocked. rewrite Ee. intros [= <- <-]. left. split; [eexists; reflexivity|eauto].
Qed.

Definition failed {A} (r : res err A) : Prop := exists e, r = Err e.

(** ** Lookup of a producer *)
Lemma producerLocked_Some id c i :
  producerLocked id c = Some i ->
  c_producers c !! i = Some (producerAt c i) /\ pr_ID (ps_config (producerAt c i)) = id.
Proof.
  intros H. apply findIndex_Some in H as (p & Hp & Hid & _).
  unfold producerAt. rewrite nth_lookup, Hp. cbn. bsplit. auto.
Qed.

Lemma transactionAt_lookup p t tx :
  ps_transactions p !! t = Some tx -> transactionAt p t = tx.
Proof. intros H. unfold transactionAt. rewrite nth_lookup, H. reflexivity. Qed.

Lemma callAt_lookup p i x : ps_calls p !! i = Some x -> callAt p i = x.
Proof. intros H. unfold callAt. rewrite nth_lookup, H. reflexivity. Qed.

Lemma freeCall_Some p i :
  freeCall p = Some i -> exists x, ps_calls p !! i = Some x /\ ca_ordinal x = 0.
Proof. intros H. apply findIndex_Some in H as (x & Hx & E & _). bsplit. eauto. Qed.

Lemma transactionSlot_Some r p t :
  transactionSlot r p = Some t ->
  exists tx, ps_transactions p !! t = Some tx /\ transactionAt p t = tx /\
    ((rq_Kind r = Begin /\ tx_ordinal tx = 0)
     \/ (rq_Transaction r <> 0 /\ tx_ordinal tx = rq_Transaction r)).
Proof.
  intros H. apply findIndex_Some in H as (tx & Htx & E & _).
  exists tx. repeat split; auto; [apply transactionAt_lookup; assumption|].
  apply orb_true_iff in E as [E|E]; bsplit; auto.
Qed.

Lemma not_busy p :
  busy p = false <->
  (forall i x, ps_calls p !! i = Some x -> ca_ordinal x = 0) /\
  (forall t tx, ps_transactions p !! t = Some tx -> tx_ordinal tx = 0).
Proof.
  unfold busy. rewrite orb_false_iff. split.
  - intros [Hc Ht]. split.
    + intros i x Hx. destruct (Z.eq_dec (ca_ordinal x) 0) as [|Hn]; [assumption|].
      assert (existsb (fun x => negb (ca_ordinal x =? 0)) (ps_calls p) = true) as Hb.
      { apply existsb_exists. exists x. split.
        - apply list_elem_of_In. eapply list_elem_of_lookup_2; eassumption.
        - apply negb_true_iff, Z.eqb_neq, Hn. }
      congruence.
    + intros t tx Hx. destruct (Z.eq_dec (tx_ordinal tx) 0) as [|Hn]; [assumption|].
      assert (existsb (fun t => negb (tx_ordinal t =? 0)) (ps_transactions p) = true) as Hb.
      { apply existsb_exists. exists tx. split.
        - apply list_elem_of_In. eapply list_elem_of_lookup_2; eassumption.
        - apply negb_true_iff, Z.eqb_neq, Hn. }
      congruence.
  - intros [Hc Ht]. split.
    + apply not_true_is_false. intros (x & Hin & E)%existsb_exists.
      apply list_elem_of_In, list_elem_of_lookup in Hin as [i Hi]. apply Hc in Hi.
      bsplit. contradiction.
    + apply not_true_is_false. intros (x & Hin & E)%existsb_exists.
      apply list_elem_of_In, list_elem_of_lookup in Hin as [i Hi]. apply Ht in Hi.
      bsplit. contradiction.
Qed.

Lemma not_existsb {A} (f : A -> bool) l i x :
  existsb f l = false -> l !! i = Some x -> f x = false.
Proof.
  intros H Hx. destruct (f x) eqn:E; [|reflexivity].
  assert (existsb f l = true); [|congruence].
  apply existsb_exists. exists x. split; [|assumption].
  apply list_elem_of_In. eapply list_elem_of_lookup_2; eassumption.
Qed.

(** ** Inversion of every operation *)
Ltac op_latched :=
  match goal with
  | H : failLocked _ _ = (_, _) |- _ => apply failLocked_latched in H as [H (? & -> & _)]
  | H : throw _ _ = (_, _) |- _ => injection H as <- <-
  end;
  left; split; [assumption || apply latched_refl|unfold failed; eauto].

Ltac op_start H :=
  apply checked_inv in H as [H|(Herr & Hctx & H)]; [left; exact H|];
  cbv [bind get] in H;
  repeat match type of H with
  | match ?x with _ => _ end _ = _ => let E := fresh "E" in destruct x eqn:E; try op_latched
  end.

Ltac op_done H := cbv [modify ret put get bind] in H; injection H as <- <-.

(** A producer operation that succeeds replaces one producer. *)
Definition updates (c : Controller) (id : Z) (guard : producerState -> Prop)
    (f : producerState -> producerState) (c' : Controller) : Prop :=
  exists i p, producerLocked id c = Some i /\ c_producers c !! i = Some p /\ guard p /\
    c' = setProducer i (f p) c.

Lemma Attach_inv id ph c r c' :
  Attach id ph c = (r, c') ->
  (latched c c' /\ failed r) \/
  (c_fenced c = false /\ ph = ph_ID (curPhase c) /\
   updates c id (fun p => ps_attached p = false /\ ps_closed p = false)
     (fun p => p <| ps_attached := true |>) c').
Proof.
  intros H. unfold Attach in H. op_start H. op_done H. bsplit.
  destruct (producerLocked_Some _ _ _ E) as [Hp _]. right. unfold updates. eauto 10.
Qed.

Lemma Checkpoint_inv id ph c r c' :
  Checkpoint id ph c = (r, c') ->
  (latched c c' /\ failed r) \/
  (c_fenced c = true /\ ph = ph_ID (curPhase c) /\
   updates c id (fun p => ps_attached p = true /\ ps_closed p = false /\ ps_terminalPhase p = 0
                          /\ busy p = false)
     (fun p => p <| ps_checkpoint := ph |>) c').
Proof.
  intros H. unfold Checkpoint in H. op_start H. op_done H. bsplit.
  destruct (producerLocked_Some _ _ _ E) as [Hp _]. right. unfold updates. eauto 12.
Qed.

Lemma Close_inv id c r c' :
  Close id c = (r, c') ->
  (latched c c' /\ failed r) \/
  updates c id (fun p => ps_attached p = true /\ ps_closed p = false /\ ps_terminalPhase p = 0
                         /\ busy p = false)
    (fun p => p <| ps_closed := true |>) c'.
Proof.
  intros H. unfold Close in H. op_start H. op_done H. bsplit.
  destruct (producerLocked_Some _ _ _ E) as [Hp _]. right. unfold updates. eauto 12.
Qed.

Lemma armTerminalEOF_inv id ph c r c' :
  armTerminalEOF id ph c = (r, c') ->
  (latched c c' /\ failed r) \/
  (ph = ph_ID (curPhase c) /\
   updates c id (fun p => busy p = false /\ ps_checkpoint p = ph)
     (fun p => p <| ps_terminalPhase := ph |>) c').
Proof.
  intros H. unfold armTerminalEOF in H. op_start H. op_done H. bsplit.
  destruct (producerLocked_Some _ _ _ E) as [Hp _].
  pose proof (not_existsb _ _ _ _ E1 Hp). right. unfold updates. eauto 12.
Qed.

Lemma acceptTerminalEOF_inv id c r c' :
  acceptTerminalEOF id c = (r, c') ->
  (latched c c' /\ failed r) \/
  updates c id (fun p => busy p = false /\ ps_terminalPhase p = ph_ID (curPhase c)
                         /\ ps_checkpoint p = ph_ID (curPhase c))
    (fun p => p <| ps_terminalEOF := true |>) c'.
Proof.
  intros H. unfold acceptTerminalEOF in H. op_start H. op_done H. bsplit.
  destruct (producerLocked_Some _ _ _ E) as [Hp _].
  pose proof (not_existsb _ _ _ _ E1 Hp). right. unfold updates. eauto 12.
Qed.

Lemma Fence_inv c r c' :
  Fence c = (r, c') ->
  (latched c c' /\ failed r) \/ c' = c <| c_fenced := true |>.
Proof.
  intros H. unfold Fence in H. apply checked_inv in H as [H|(_ & _ & H)]; [left; exact H|].
  op_done H. auto.
Qed.

Lemma reopen_inv a b ph c r c' :
  reopenAfterTerminalEOF a b ph c = (r, c') ->
  (latched c c' /\ failed r) \/
  ((forall i p, c_producers c !! i = Some p -> busy p = false) /\
   c' = c <| c_fenced := false |>).
Proof.
  intros H. unfold reopenAfterTerminalEOF in H. op_start H. op_done H. right.
  split; [|reflexivity]. intros i p Hp. pose proof (not_existsb _ _ _ _ E2 Hp) as Hb.
  cbn in Hb. bsplit. assumption.
Qed.

Lemma Advance_inv c r c' :
  Advance c = (r, c') ->
  (latched c c' /\ failed r) \/
  (c_fenced c = true /\ (c_phase c + 1 < length (c_phases c))%nat /\
   (forall i p, c_producers c !! i = Some p -> blocksAdvance (ph_ID (curPhase c)) p = false) /\
   r = Ok tt /\ c' = c <| c_phase ::= S |> <| c_fenced := false |>).
Proof.
  intros H. unfold Advance in H. op_start H. op_done H. bsplit.
  right. repeat split; auto.
  - apply Nat.leb_gt. assumption.
  - intros i p Hp. eapply not_existsb; eassumption.
Qed.

Lemma Fail_inv e c r c' : Fail e c = (r, c') -> latched c c' /\ failed r.
Proof.
  intros H. unfold Fail in H. apply checked_inv in H as [H|(_ & _ & H)]; [exact H|].
  destruct e; apply failLocked_latched in H as [? (? & -> & _)]; split; unfold failed; eauto.
Qed.

Lemma wirePhase_state c r c' : wirePhase c = (r, c') -> latched c c'.
Proof.
  intros H. unfold wirePhase in H. apply checked_inv in H as [[H _]|(_ & _ & H)]; [exact H|].
  op_done H. apply latched_refl.
Qed.

Lemma wireSubmission_state p o c r c' : wireSubmission p o c = (r, c') -> latched c c'.
Proof.
  intros H. unfold wireSubmission in H.
  apply checked_inv in H as [[H _]|(_ & _ & H)]; [exact H|]. cbv [bind get] in H.
  repeat match type of H with
  | match ?x with _ => _ end _ = _ => destruct x
  end; try (apply failLocked_latched in H as [H _]; exact H).
  op_done H. apply latched_refl.
Qed.

Lemma Snapshot_state c : latched c (snd (Snapshot c)).
Proof.
  unfold Snapshot. destruct (checkLocked c) as [r c'] eqn:E. cbn.
  assert (bind checkLocked (fun _ => fun s => (Ok tt, s)) c = (match r with Ok _ => Ok tt | Err e => Err e end, c')) as H.
  { unfold bind. rewrite E. destruct r as [[]|]; reflexivity. }
  apply checked_inv in H as [[H _]|(_ & _ & H)]; [exact H|].
  injection H as _ <-. apply latched_refl.
Qed.

(** ** Submissions and settlements *)

(** What the four groups of kinds guarantee about the slot they use. *)
Definition kindCase (r : Request) (p : producerState) (ti : option nat)
    (addTransactions txRows : Z) : Prop :=
  (rq_Kind r = ImplicitWrite /\ ti = None /\ addTransactions = 1 /\ txRows = rq_Rows r)
  \/ (rq_Kind r = Begin /\ rq_Rows r = 0 /\ addTransactions = 1 /\ txRows = 0 /\
      exists t tx, ti = Some t /\ ps_transactions p !! t = Some tx /\ tx_ordinal tx = 0)
  \/ (rq_Kind r = Append /\ rq_Rows r <> 0 /\ addTransactions = 0 /\
      exists t tx, ti = Some t /\ ps_transactions p !! t = Some tx /\
        tx_ordinal tx <> 0 /\ tx_ordinal tx = rq_Transaction r /\ tx_busy tx = false /\
        rq_Rows r <= u64 (MaximumRows - tx_rows tx) /\ txRows = u64 (rq_Rows r + tx_rows tx))
  \/ ((rq_Kind r = Commit \/ rq_Kind r = Cancel) /\ rq_Rows r = 0 /\ addTransactions = 0 /\
      txRows = 0 /\
      exists t tx, ti = Some t /\ ps_transactions p !! t = Some tx /\
        tx_ordinal tx <> 0 /\ tx_ordinal tx = rq_Transaction r /\ tx_busy tx = false).

Record Accepted (r : Request) (c : Controller) (pi ci : nat) (ti : option nat)
    (addTransactions txRows : Z) : Prop := {
  ac_producer : c_producers c !! pi = Some (producerAt c pi);
  ac_id : pr_ID (ps_config (producerAt c pi)) = rq_Producer r;
  ac_attached : ps_attached (producerAt c pi) = true;
  ac_open : ps_closed (producerAt c pi) = false;
  ac_terminal : ps_terminalPhase (producerAt c pi) = 0;
  ac_phase : rq_Phase r = ph_ID (curPhase c);
  ac_checkpoint : ps_checkpoint (producerAt c pi) <> rq_Phase r;
  ac_fence : c_fenced c = true -> rq_Kind r = Commit \/ rq_Kind r = Cancel;
  ac_call : exists x, ps_calls (producerAt c pi) !! ci = Some x /\ ca_ordinal x = 0;
  ac_ordinal : c_ordinal c <> MaxUint64;
  ac_kind : kindCase r (producerAt c pi) ti addTransactions txRows;
  ac_rows : txRows <= MaximumRows;
  ac_transactions_budget :
    addTransactions <= u64 (ph_Transactions (curPhase c) - pc_Transactions (curCount c));
  ac_rows_budget : rq_Rows r <= u64 (ph_Rows (curPhase c) - pc_Rows (curCount c));
  ac_descriptor : badDescriptor r = false
}.

(** The slot facts follow from the guards that precede the budget checks. *)
Lemma guards_kindCase r p ti :
  badDescriptor r = false -> ti = transactionSlot r p ->
  (Append <=? rq_Kind r) && match ti with None => true | Some t => tx_busy (transactionAt p t) end
    = false ->
  (rq_Kind r =? Begin) && is_nil ti = false ->
  let held := match ti with Some t => tx_rows (transactionAt p t) | None => 0 end in
  (rq_Kind r =? Append) && (u64 (MaximumRows - held) <? rq_Rows r) = false ->
  kindCase r p ti (if (rq_Kind r =? Begin) || (rq_Kind r =? ImplicitWrite) then 1 else 0)
    (if rq_Kind r =? Append then u64 (rq_Rows r + held) else rq_Rows r).
Proof.
  intros Hd -> Hb Hn held Hr. subst held.
  unfold badDescriptor, ImplicitWrite, Begin, Append, Commit, Cancel, kindCase in *.
  assert (1 <= rq_Kind r <= 5) as Hk by (bsplit; lia).
  assert (rq_Kind r = 1 \/ rq_Kind r = 2 \/ rq_Kind r = 3 \/ rq_Kind r = 4 \/ rq_Kind r = 5)
    as [K|[K|[K|[K|K]]]] by lia; rewrite K in *; cbn in Hd, Hb, Hn, Hr |- *;
    rewrite ?orb_true_r, ?orb_false_r, ?andb_true_r in Hd; bsplit.
  all: destruct (transactionSlot r p) as [t|] eqn:Et; try discriminate;
    try (apply transactionSlot_Some in Et as (tx & Htx & Eat & [[Hk1 Hz]|[Hrz Heq]]);
         rewrite ?Eat in *; rewrite ?K in *; try discriminate; try contradiction).
  all: unfold ImplicitWrite, Begin, Append, Commit, Cancel; rewrite ?K.
  - left. auto.
  - right; left. eauto 12.
  - right; right; left. repeat split; auto. exists t, tx. repeat split; auto; lia.
  - right; right; right. repeat split; auto. exists t, tx. repeat split; auto; lia.
  - right; right; right. repeat split; auto. exists t, tx. repeat split; auto; lia.
Qed.

Lemma Submit_inv r c res c' :
  Submit r c = (res, c') ->
  (latched c c' /\ failed res) \/
  (exists pi ci ti addT txRows,
     producerLocked (rq_Producer r) c = Some pi /\
     Accepted r c pi ci ti addT txRows /\
     (res, c') = (Ok (fst (acceptSubmission r pi ci ti addT txRows c)),
                  snd (acceptSubmission r pi ci ti addT txRows c))).
Proof.
  intros H. unfold Submit in H. op_start H.
  unfold admitBudget in H. cbv [bind get] in H.
  repeat match type of H with
  | (if ?x then _ else _) _ = _ => let E := fresh "E" in destruct x eqn:E; try op_latched
  end.
  apply orb_false_iff in E5 as [En Emax].
  pose proof (guards_kindCase _ _ _ E1 eq_refl E3 En E6) as Hkind.
  set (addT := if (_ =? Begin) || _ then 1 else 0) in *.
  set (txRows := if rq_Kind r =? Append then _ else _) in *.
  right. exists n, n0, (transactionSlot r (producerAt c n)), addT, txRows.
  destruct (producerLocked_Some _ _ _ E) as [Hp Hid].
  split; [first [exact E|reflexivity]|]. split; [|op_done H; reflexivity].
  bsplit. split; auto using freeCall_Some.
  intros Hf. rewrite Hf in E2. cbn in E2.
  destruct (Z.eqb_spec (rq_Kind r) Commit); [auto|]. destruct (Z.eqb_spec (rq_Kind r) Cancel); [auto|].
  discriminate.
Qed.

Lemma Settle_inv s c r c' :
  Settle s c = (r, c') ->
  (latched c c' /\ failed r) \/
  (exists pi ci x,
     producerLocked (sb_Producer s) c = Some pi /\
     c_producers c !! pi = Some (producerAt c pi) /\
     ps_attached (producerAt c pi) = true /\ ps_closed (producerAt c pi) = false /\
     ps_calls (producerAt c pi) !! ci = Some x /\
     ca_ordinal x = sb_Ordinal s /\ ca_ordinal x <> 0 /\ r = Ok tt /\
     c' = setProducer pi
       ((producerAt c pi)
          <| ps_transactions :=
               match ca_transaction x with
               | Some t =>
                   if (ca_kind x =? Commit) || (ca_kind x =? Cancel)
                   then <[t := noTransaction]> (ps_transactions (producerAt c pi))
                   else <[t := (transactionAt (producerAt c pi) t) <| tx_busy := false |>]>
                          (ps_transactions (producerAt c pi))
               | None => ps_transactions (producerAt c pi)
               end |>
          <| ps_calls ::= fun l => <[ci := noCall]> l |>) c).
Proof.
  intros H. unfold Settle in H. op_start H.
  apply findIndex_Some in E1 as (x & Hx & Ex & _).
  rewrite (callAt_lookup _ _ _ Hx) in H.
  op_done H. bsplit.
  destruct (producerLocked_Some _ _ _ E) as [Hp Hid].
  right. exists n, n0, x. repeat split; auto; lia.
Qed.

(** ** The wire configuration changes [lastPhase] and [wireOwned] only *)

(** Equality of two producers up to their last wire phase. *)
Definition sameButLast (p q : producerState) : Prop := q = p <| ps_lastPhase := ps_lastPhase q |>.

Lemma sameButLast_refl p : sameButLast p p.
Proof. unfold sameButLast. destruct p; reflexivity. Qed.

Definition reconfigured (c c' : Controller) : Prop :=
  exists ps w e, Forall2 sameButLast (c_producers c) ps /\
    c' = c <| c_producers := ps |> <| c_wireOwned := w |> <| c_err := e |>.

Lemma reconfigured_refl c : reconfigured c c.
Proof.
  exists (c_producers c), (c_wireOwned c), (c_err c). split; [|destruct c; reflexivity].
  apply Forall_Forall2_diag, Forall_true, sameButLast_refl.
Qed.

Lemma setLastPhase_reconfigured c c' input :
  reconfigured c c' -> reconfigured c (setLastPhase c' input).
Proof.
  intros (ps & w & e & Hps & ->). unfold setLastPhase.
  destruct (producerLocked (wp_ID input) _) as [i|] eqn:E; [|exists ps, w, e; auto].
  destruct (producerLocked_Some _ _ _ E) as [Hp _]. cbn in Hp.
  exists (<[i := (producerAt (c <| c_producers := ps |> <| c_wireOwned := w |> <| c_err := e |>) i)
               <| ps_lastPhase := len16 (wp_Phases input) |>]> ps), w, e.
  split; [|reflexivity].
  rewrite Forall2_lookup in Hps |- *. intros j. specialize (Hps j).
  destruct (decide (i = j)) as [<-|Hne]; [|rewrite list_lookup_insert_ne by assumption; exact Hps].
  rewrite list_lookup_insert_eq by (eapply lookup_lt_Some; exact Hp).
  rewrite Hp in Hps. inversion Hps as [p q Hpq Ep Eq|]; subst. constructor.
  unfold producerAt. cbn. destruct (nth i ps noProducer), p.
  unfold sameButLast in *. cbn in *. injection Hpq as -> -> -> -> -> -> -> -> ->. reflexivity.
Qed.

Lemma wireConfiguration_inv config c r c' :
  wireConfiguration config c = (r, c') -> reconfigured c c'.
Proof.
  unfold wireConfiguration. destruct (_ || _); [intros [= <- <-]; apply reconfigured_refl|].
  destruct (checkLocked c) as [r0 c0] eqn:Ec.
  assert (reconfigured c c0) as H0.
  { assert (latched c c0) as [e ->]; [|exists (c_producers c), (c_wireOwned c), e; split;
      [apply Forall_Forall2_diag, Forall_true, sameButLast_refl|destruct c; reflexivity]].
    assert (bind checkLocked (fun _ s => (r0, s)) c = (match r0 with Ok _ => r0 | Err e => Err e end, c0)) as H
      by (unfold bind; rewrite Ec; destruct r0; reflexivity).
    apply checked_inv in H as [[H _]|(_ & _ & H)]; [exact H|].
    injection H as _ <-. apply latched_refl. }
  destruct (_ || _); [intros [= <- <-]; exact H0|].
  destruct (configureProducers _ _ _ _ _ _) as [[clients n]|]; [|intros [= <- <-]; exact H0].
  destruct (wireBudget _ _ _ _); [|intros [= <- <-]; exact H0].
  intros [= <- <-].
  assert (forall l c1, reconfigured c c1 -> reconfigured c (fold_left setLastPhase l c1)) as Hfold.
  { induction l as [|input l IH]; intros c1 H1; [exact H1|]. apply IH.
    apply setLastPhase_reconfigured, H1. }
  destruct (Hfold (wc_Producers config) c0 H0) as (ps & w & e & Hps & E).
  exists ps, true, e. split; [exact Hps|]. rewrite E. reflexivity.
Qed.
