(* ===== verification/StoreSlots.v ===== *)
(** * The slot discipline of one store-accounting producer

    The calls and transactions a producer holds, what keeps them consistent,
    and the two weights the submission bound counts: open transactions and
    the rows they hold. *)
From S2P Require Import Prelude Bytes StoreAccounting StoreWire StoreSteps.

(** ** Definitions *)

(** A live terminal call has claimed transaction slot [t]. *)
Definition terminated (calls : list call) (t : nat) : bool :=
  existsb (fun x => negb (ca_ordinal x =? 0) && (Commit <=? ca_kind x)
                    && bool_decide (ca_transaction x = Some t)) calls.

Definition isOpen (calls : list call) (t : nat) (tx : transaction) : bool :=
  negb (tx_ordinal tx =? 0) && negb (terminated calls t).

(** The sum of [w] over the open transaction slots. *)
Definition openWeight (w : transaction -> Z) (calls : list call) (txs : list transaction) : Z :=
  zsum (imap (fun t tx => if isOpen calls t tx then w tx else 0) txs).

#[global] Arguments openWeight : simpl never.

Record SlotsOK (ord : Z) (calls : list call) (txs : list transaction) : Prop := {
  so_ord : 0 <= ord;
  so_call_ord : forall i x, calls !! i = Some x -> 0 <= ca_ordinal x <= ord;
  so_call_inj : forall i j x y, calls !! i = Some x -> calls !! j = Some y ->
    ca_ordinal x <> 0 -> ca_ordinal x = ca_ordinal y -> i = j;
  so_call_tx : forall i x t, calls !! i = Some x -> ca_ordinal x <> 0 ->
    ca_transaction x = Some t ->
    exists tx, txs !! t = Some tx /\ tx_ordinal tx <> 0 /\ tx_busy tx = true;
  so_call_tx_inj : forall i j x y t, calls !! i = Some x -> calls !! j = Some y ->
    ca_ordinal x <> 0 -> ca_ordinal y <> 0 -> ca_transaction x = Some t ->
    ca_transaction y = Some t -> i = j;
  so_call_kind : forall i x, calls !! i = Some x -> ca_ordinal x <> 0 ->
    ImplicitWrite <= ca_kind x <= Cancel /\ (ca_transaction x = None <-> ca_kind x = ImplicitWrite);
  so_busy : forall t tx, txs !! t = Some tx -> tx_ordinal tx <> 0 -> tx_busy tx = true ->
    exists i x, calls !! i = Some x /\ ca_ordinal x <> 0 /\ ca_transaction x = Some t;
  so_tx : forall t tx, txs !! t = Some tx ->
    0 <= tx_ordinal tx <= ord /\ 0 <= tx_rows tx <= MaximumRows;
  so_tx_inj : forall s t x y, txs !! s = Some x -> txs !! t = Some y ->
    tx_ordinal x <> 0 -> tx_ordinal x = tx_ordinal y -> s = t
}.

(** ** Lemmas *)
Lemma terminated_true calls t :
  terminated calls t = true <->
  exists i x, calls !! i = Some x /\ ca_ordinal x <> 0 /\ Commit <= ca_kind x
              /\ ca_transaction x = Some t.
Proof.
  unfold terminated. rewrite existsb_exists. split.
  - intros (x & Hin & H). apply list_elem_of_In, list_elem_of_lookup in Hin as [i Hi].
    bsplit. apply bool_decide_eq_true in H0. eauto 10.
  - intros (i & x & Hi & Ho & Hk & Ht). exists x. split.
    + apply list_elem_of_In. eapply list_elem_of_lookup_2; eassumption.
    + rewrite (proj2 (Z.eqb_neq _ _) Ho), (proj2 (Z.leb_le _ _) Hk), bool_decide_eq_true_2; auto.
Qed.

Lemma terminated_ext calls calls' t :
  (terminated calls t = true <-> terminated calls' t = true) ->
  terminated calls t = terminated calls' t.
Proof. destruct (terminated calls t), (terminated calls' t); intuition congruence. Qed.

(** Replacing a free call slot: the slots other than the new call's keep their claim. *)
Lemma terminated_insert_call calls i x y t :
  calls !! i = Some x -> ca_ordinal x = 0 -> ca_transaction y <> Some t ->
  terminated (<[i := y]> calls) t = terminated calls t.
Proof.
  intros Hi Hx Hy. apply terminated_ext. rewrite !terminated_true. split.
  - intros (j & z & Hj & Ho & Hk & Ht).
    destruct (lookup_insert_cases _ _ _ _ _ _ Hi Hj) as [[-> ->]|[Hne Hj']]; [congruence|eauto 10].
  - intros (j & z & Hj & Ho & Hk & Ht). exists j, z.
    rewrite list_lookup_insert_ne by congruence. auto.
Qed.

Lemma terminated_insert_small calls i x y t :
  calls !! i = Some x -> ca_ordinal x = 0 -> ca_kind y < Commit ->
  terminated (<[i := y]> calls) t = terminated calls t.
Proof.
  intros Hi Hx Hy. apply terminated_ext. rewrite !terminated_true. split.
  - intros (j & z & Hj & Ho & Hk & Ht).
    destruct (lookup_insert_cases _ _ _ _ _ _ Hi Hj) as [[-> ->]|[Hne Hj']]; [lia|eauto 10].
  - intros (j & z & Hj & Ho & Hk & Ht). exists j, z.
    rewrite list_lookup_insert_ne by congruence. auto.
Qed.

(** Clearing a call slot: only its own transaction's claim can change. *)
Lemma terminated_clear_call calls i x t :
  calls !! i = Some x -> (ca_transaction x <> Some t \/ ca_kind x < Commit) ->
  terminated (<[i := noCall]> calls) t = terminated calls t.
Proof.
  intros Hi Hx. apply terminated_ext. rewrite !terminated_true. split.
  - intros (j & z & Hj & Ho & Hk & Ht).
    destruct (lookup_insert_cases _ _ _ _ _ _ Hi Hj) as [[-> ->]|[Hne Hj']];
      [cbn in Ho; lia|eauto 10].
  - intros (j & z & Hj & Ho & Hk & Ht). exists j, z.
    assert (j <> i); [|rewrite list_lookup_insert_ne by congruence; auto].
    intros ->. assert (z = x) as -> by congruence. destruct Hx; [contradiction|lia].
Qed.

(** The weight changes by the change of the one slot that changes. *)
Lemma openWeight_change w calls calls' txs txs' t tx tx' :
  txs !! t = Some tx -> txs' = <[t := tx']> txs ->
  (forall s y, s <> t -> txs !! s = Some y -> isOpen calls' s y = isOpen calls s y) ->
  openWeight w calls' txs' =
    openWeight w calls txs - (if isOpen calls t tx then w tx else 0)
    + (if isOpen calls' t tx' then w tx' else 0).
Proof.
  intros Ht -> Hsame. unfold openWeight.
  set (l := imap (fun t tx => if isOpen calls t tx then w tx else 0) txs).
  assert (l !! t = Some (if isOpen calls t tx then w tx else 0)) as Hl
    by (subst l; rewrite list_lookup_imap, Ht; reflexivity).
  rewrite <- (zsum_insert _ _ _ _ Hl). f_equal.
  apply list_eq. intros s. rewrite list_lookup_imap.
  destruct (decide (s = t)) as [->|Hne].
  - rewrite !list_lookup_insert_eq by (eapply lookup_lt_Some; eassumption). reflexivity.
  - rewrite !list_lookup_insert_ne by congruence. subst l. rewrite list_lookup_imap.
    destruct (txs !! s) as [y|] eqn:Ey; [|reflexivity]. cbn. rewrite (Hsame s y) by assumption.
    reflexivity.
Qed.

Lemma openWeight_same w calls calls' txs :
  (forall s y, txs !! s = Some y -> isOpen calls' s y = isOpen calls s y) ->
  openWeight w calls' txs = openWeight w calls txs.
Proof.
  intros H. unfold openWeight. f_equal. apply list_eq. intros s. rewrite !list_lookup_imap.
  destruct (txs !! s) as [y|] eqn:Ey; [|reflexivity]. cbn. rewrite (H s y) by assumption.
  reflexivity.
Qed.

Lemma isOpen_calls calls calls' t tx :
  terminated calls' t = terminated calls t -> isOpen calls' t tx = isOpen calls t tx.
Proof. unfold isOpen. intros ->. reflexivity. Qed.

(** ** Preservation *)
Lemma SlotsOK_mono ord ord' calls txs : ord <= ord' -> SlotsOK ord calls txs -> SlotsOK ord' calls txs.
Proof.
  intros H []. split; eauto; try lia.
  - intros i x Hx. specialize (so_call_ord0 i x Hx). lia.
  - intros t tx Hx. specialize (so_tx0 t tx Hx). lia.
Qed.

Lemma SlotsOK_new n m : SlotsOK 0 (replicate n noCall) (replicate m noTransaction).
Proof.
  split; intros; try lia;
    repeat match goal with
    | H : replicate _ _ !! _ = Some _ |- _ => apply lookup_replicate in H as [-> ?]
    end; unfold MaximumRows in *; cbn in *; try lia; try contradiction.
Qed.

(** A submission outside a transaction takes a free call slot. *)
Lemma SlotsOK_implicit ord calls txs ci x :
  SlotsOK ord calls txs -> calls !! ci = Some x -> ca_ordinal x = 0 ->
  SlotsOK (ord + 1) (<[ci := mkCall (ord + 1) ImplicitWrite None]> calls) txs.
Proof.
  intros HS Hx H0. pose proof (so_ord _ _ _ HS). destruct HS. split; [lia|..].
  - intros i y Hy. destruct (lookup_insert_cases _ _ _ _ _ _ Hx Hy) as [[-> ->]|[Hne Hy']]; cbn; [lia|].
    specialize (so_call_ord0 _ _ Hy'). lia.
  - intros i j y z Hy Hz Ho Heq.
    destruct (lookup_insert_cases _ _ _ _ _ _ Hx Hy) as [[-> ->]|[Hn1 Hy']];
    destruct (lookup_insert_cases _ _ _ _ _ _ Hx Hz) as [[-> ->]|[Hn2 Hz']]; cbn in *; eauto.
    + specialize (so_call_ord0 _ _ Hz'). lia.
    + specialize (so_call_ord0 _ _ Hy'). lia.
  - intros i y t Hy Ho Ht.
    destruct (lookup_insert_cases _ _ _ _ _ _ Hx Hy) as [[-> ->]|[Hn1 Hy']]; [discriminate|eauto].
  - intros i j y z t Hy Hz Ho1 Ho2 Ht1 Ht2.
    destruct (lookup_insert_cases _ _ _ _ _ _ Hx Hy) as [[-> ->]|[Hn1 Hy']]; [discriminate|].
    destruct (lookup_insert_cases _ _ _ _ _ _ Hx Hz) as [[-> ->]|[Hn2 Hz']]; [discriminate|eauto].
  - intros i y Hy Ho.
    destruct (lookup_insert_cases _ _ _ _ _ _ Hx Hy) as [[-> ->]|[Hn1 Hy']]; [|eauto].
    cbn. split; [unfold ImplicitWrite, Cancel; lia|tauto].
  - intros t tx Ht Ho Hb. destruct (so_busy0 _ _ Ht Ho Hb) as (i & y & Hy & Hyo & Hyt).
    exists i, y. rewrite list_lookup_insert_ne; [auto|]. intros <-. congruence.
  - intros t tx Ht. specialize (so_tx0 _ _ Ht). lia.
  - eauto.
Qed.

(** A submission that claims transaction slot [t]: [Begin] on a free slot,
    the others on a live one no call holds. *)
Lemma SlotsOK_claim ord calls txs ci x k t tx tx' :
  SlotsOK ord calls txs -> calls !! ci = Some x -> ca_ordinal x = 0 ->
  ImplicitWrite < k <= Cancel -> txs !! t = Some tx ->
  (tx_ordinal tx = 0 /\ tx_ordinal tx' = ord + 1
   \/ tx_ordinal tx <> 0 /\ tx_busy tx = false /\ tx_ordinal tx' = tx_ordinal tx) ->
  0 <= tx_rows tx' <= MaximumRows -> tx_busy tx' = true ->
  SlotsOK (ord + 1) (<[ci := mkCall (ord + 1) k (Some t)]> calls) (<[t := tx']> txs).
Proof.
  intros HS Hx H0 Hk Ht Hcase Hrows Hbusy. pose proof (so_ord _ _ _ HS).
  assert (Hfree : forall i y, calls !! i = Some y -> ca_ordinal y <> 0 -> ca_transaction y <> Some t).
  { intros i y Hy Hyo Hyt. destruct (so_call_tx _ _ _ HS _ _ _ Hy Hyo Hyt) as (tx0 & E & ? & ?).
    rewrite Ht in E. injection E as <-. destruct Hcase as [[? _]|(_ & ? & _)]; congruence. }
  assert (Hord : 0 < tx_ordinal tx' <= ord + 1).
  { pose proof (so_tx _ _ _ HS _ _ Ht). destruct Hcase as [[_ ?]|(? & _ & ?)]; lia. }
  destruct HS. split; [lia|..].
  - intros i y Hy. destruct (lookup_insert_cases _ _ _ _ _ _ Hx Hy) as [[-> ->]|[Hne Hy']]; cbn; [lia|].
    specialize (so_call_ord0 _ _ Hy'). lia.
  - intros i j y z Hy Hz Ho Heq.
    destruct (lookup_insert_cases _ _ _ _ _ _ Hx Hy) as [[-> ->]|[Hn1 Hy']];
    destruct (lookup_insert_cases _ _ _ _ _ _ Hx Hz) as [[-> ->]|[Hn2 Hz']]; cbn in *; eauto.
    + specialize (so_call_ord0 _ _ Hz'). lia.
    + specialize (so_call_ord0 _ _ Hy'). lia.
  - intros i y s Hy Ho Hs.
    destruct (lookup_insert_cases _ _ _ _ _ _ Hx Hy) as [[-> ->]|[Hn1 Hy']]; cbn in *.
    + injection Hs as <-. exists tx'. rewrite list_lookup_insert_eq by (eapply lookup_lt_Some; eassumption).
      repeat split; auto; lia.
    + destruct (so_call_tx0 _ _ _ Hy' Ho Hs) as (tx0 & E & ? & ?).
      exists tx0. rewrite list_lookup_insert_ne; [auto|]. intros <-. eapply Hfree; eassumption.
  - intros i j y z s Hy Hz Ho1 Ho2 Ht1 Ht2.
    destruct (lookup_insert_cases _ _ _ _ _ _ Hx Hy) as [[-> ->]|[Hn1 Hy']];
    destruct (lookup_insert_cases _ _ _ _ _ _ Hx Hz) as [[-> ->]|[Hn2 Hz']]; cbn in *; eauto.
    + injection Ht1 as <-. exfalso. eapply Hfree; eassumption.
    + injection Ht2 as <-. exfalso. eapply Hfree; eassumption.
  - intros i y Hy Ho.
    destruct (lookup_insert_cases _ _ _ _ _ _ Hx Hy) as [[-> ->]|[Hn1 Hy']]; [cbn|eauto].
    split; [lia|]. split; [discriminate|lia].
  - intros s tx0 Hs Ho Hb.
    destruct (lookup_insert_cases _ _ _ _ _ _ Ht Hs) as [[-> ->]|[Hne Hs']].
    + exists ci, (mkCall (ord + 1) k (Some t)).
      rewrite list_lookup_insert_eq by (eapply lookup_lt_Some; eassumption). cbn. repeat split; lia || auto.
    + destruct (so_busy0 _ _ Hs' Ho Hb) as (i & y & Hy & Hyo & Hyt).
      exists i, y. rewrite list_lookup_insert_ne; [auto|]. intros <-. congruence.
  - intros s tx0 Hs. destruct (lookup_insert_cases _ _ _ _ _ _ Ht Hs) as [[-> ->]|[Hne Hs']]; [lia|].
    specialize (so_tx0 _ _ Hs'). lia.
  - assert (Huniq : forall s z, s <> t -> txs !! s = Some z -> tx_ordinal z <> 0 ->
              tx_ordinal z <> tx_ordinal tx').
    { intros s z Hne Hz Hzo Heq. pose proof (so_tx0 _ _ Hz).
      destruct Hcase as [[_ ?]|(_ & _ & Hk')]; [lia|].
      apply Hne. apply (so_tx_inj0 _ _ _ _ Hz Ht Hzo). congruence. }
    intros s u y z Hy Hz Ho Heq.
    destruct (lookup_insert_cases _ _ _ _ _ _ Ht Hy) as [[-> ->]|[Hn1 Hy']];
    destruct (lookup_insert_cases _ _ _ _ _ _ Ht Hz) as [[-> ->]|[Hn2 Hz']]; eauto; exfalso.
    + apply (Huniq u z Hn2 Hz'); congruence.
    + apply (Huniq s y Hn1 Hy'); congruence.
Qed.

(** Settling the live call [x] clears its slot and releases its transaction. *)
Lemma SlotsOK_settle ord calls txs ci x txs' :
  SlotsOK ord calls txs -> calls !! ci = Some x -> ca_ordinal x <> 0 ->
  (ca_transaction x = None /\ txs' = txs \/
   exists t tx tx', ca_transaction x = Some t /\ txs !! t = Some tx /\ txs' = <[t := tx']> txs /\
     tx_busy tx' = false /\ 0 <= tx_rows tx' <= MaximumRows /\
     (tx_ordinal tx' = 0 \/ tx_ordinal tx' = tx_ordinal tx)) ->
  SlotsOK ord (<[ci := noCall]> calls) txs'.
Proof.
  intros HS Hx Hxo Hcase. pose proof (so_ord _ _ _ HS).
  assert (Hcalls : forall i y, <[ci := noCall]> calls !! i = Some y -> ca_ordinal y <> 0 ->
            i <> ci /\ calls !! i = Some y).
  { intros i y Hy Ho. destruct (lookup_insert_cases _ _ _ _ _ _ Hx Hy) as [[-> ->]|Hr]; [|exact Hr].
    cbn in Ho. lia. }
  assert (Htxs : forall s y, txs' !! s = Some y ->
            txs !! s = Some y /\ ca_transaction x <> Some s
            \/ ca_transaction x = Some s /\ tx_busy y = false /\ 0 <= tx_rows y <= MaximumRows /\
               exists tx, txs !! s = Some tx /\ (tx_ordinal y = 0 \/ tx_ordinal y = tx_ordinal tx)).
  { intros s y Hy. destruct Hcase as [[Hn ->]|(t & tx & tx' & Hxt & Htx & -> & Hb & Hr & Ho)].
    - left. rewrite Hn. split; [exact Hy|discriminate].
    - destruct (lookup_insert_cases _ _ _ _ _ _ Htx Hy) as [[-> ->]|[Hne Hy']].
      + right. eauto 10.
      + left. split; [exact Hy'|]. congruence. }
  assert (Hkeep : forall s y, txs !! s = Some y -> ca_transaction x <> Some s -> txs' !! s = Some y).
  { intros s y Hy Hne. destruct Hcase as [[_ ->]|(t & tx & tx' & Hxt & Htx & -> & _)]; [exact Hy|].
    rewrite list_lookup_insert_ne; congruence. }
  destruct HS. split; [lia|..].
  - intros i y Hy. destruct (lookup_insert_cases _ _ _ _ _ _ Hx Hy) as [[-> ->]|[_ Hy']]; cbn; [lia|eauto].
  - intros i j y z Hy Hz Ho Heq. destruct (Hcalls _ _ Hy Ho) as [_ Hy'].
    destruct (Hcalls _ _ Hz ltac:(congruence)) as [_ Hz']. eauto.
  - intros i y t Hy Ho Ht. destruct (Hcalls _ _ Hy Ho) as [Hne Hy'].
    destruct (so_call_tx0 _ _ _ Hy' Ho Ht) as (tx & Htx & ? & ?). exists tx.
    split; [|auto]. apply Hkeep; [exact Htx|]. intros Hxt.
    apply Hne. eapply so_call_tx_inj0; eassumption.
  - intros i j y z t Hy Hz Ho1 Ho2. destruct (Hcalls _ _ Hy Ho1) as [_ Hy'].
    destruct (Hcalls _ _ Hz Ho2) as [_ Hz']. eauto.
  - intros i y Hy Ho. destruct (Hcalls _ _ Hy Ho) as [_ Hy']. eauto.
  - intros s y Hy Ho Hb. destruct (Htxs _ _ Hy) as [[Hy' Hne]|(_ & Hb' & _)]; [|congruence].
    destruct (so_busy0 _ _ Hy' Ho Hb) as (i & z & Hz & Hzo & Hzt). exists i, z.
    rewrite list_lookup_insert_ne; [auto|]. intros <-. congruence.
  - intros s y Hy. destruct (Htxs _ _ Hy) as [[Hy' _]|(_ & _ & Hr & tx & Htx & Ho)]; [eauto|].
    specialize (so_tx0 _ _ Htx). lia.
  - intros s u y z Hy Hz Ho Heq.
    destruct (Htxs _ _ Hy) as [[Hy' _]|(_ & _ & _ & tx & Htx & Ht)];
    destruct (Htxs _ _ Hz) as [[Hz' _]|(_ & _ & _ & ux & Hux & Hu)]; eauto.
    + destruct Hu as [Hu|Hu]; [congruence|]. eapply so_tx_inj0; [exact Hy'|exact Hux|..]; congruence.
    + destruct Ht as [Ht|Ht]; [congruence|]. eapply so_tx_inj0; [exact Htx|exact Hz'|..]; congruence.
    + destruct Hu as [Hu|Hu], Ht as [Ht|Ht]; try congruence.
      eapply so_tx_inj0; [exact Htx|exact Hux|..]; congruence.
Qed.
