(* ===== verification/StoreInvariant.v ===== *)
(** * The invariant of the store-accounting controller

    Every reachable controller satisfies [StoreOK] (slots, checkpoints and
    budgets) and [LogOK] (its counters are those of its accepted log). *)
From S2P Require Import Prelude Bytes StoreAccounting StoreWire StoreSteps StoreSlots.

(** ** Definitions *)
Fixpoint zmax (l : list Z) : Z :=
  match l with [] => 0 | x :: l' => Z.max x (zmax l') end.

Record ProducerOK (ord cur : Z) (p : producerState) : Prop := {
  pk_slots : SlotsOK ord (ps_calls p) (ps_transactions p);
  pk_checkpoint : 0 <= ps_checkpoint p <= cur;
  (** Outside its working window a producer holds nothing. *)
  pk_idle : ps_attached p = false \/ ps_closed p = true \/ ps_checkpoint p = cur
            \/ ps_terminalPhase p <> 0 -> busy p = false;
  pk_eof : ps_terminalEOF p = true -> ps_terminalPhase p <> 0
}.

Record BudgetOK (phases : list Phase) (counts : list PhaseCount) (phase : nat)
    (transactions rows maximumRows : Z) : Prop := {
  bo_len : length counts = length phases;
  bo_phase : (phase < length phases)%nat;
  bo_ids : forall i j p q, phases !! i = Some p -> phases !! j = Some q -> (i < j)%nat ->
    ph_ID p < ph_ID q;
  bo_pos : forall i p, phases !! i = Some p ->
    0 < ph_ID p <= MaximumPhases /\ 0 <= ph_Transactions p /\ 0 <= ph_Rows p;
  bo_counts : forall i p n, phases !! i = Some p -> counts !! i = Some n ->
    pc_Phase n = ph_ID p /\ 0 <= pc_Transactions n <= ph_Transactions p /\
    0 <= pc_Rows n <= ph_Rows p /\ 0 <= pc_MaximumRows n <= MaximumRows;
  bo_future : forall i n, (phase < i)%nat -> counts !! i = Some n ->
    pc_Transactions n = 0 /\ pc_Rows n = 0 /\ pc_MaximumRows n = 0;
  bo_sumT : transactions = zsum (pc_Transactions <$> counts);
  bo_sumR : rows = zsum (pc_Rows <$> counts);
  bo_max : maximumRows = zmax (pc_MaximumRows <$> counts);
  bo_totalT : zsum (ph_Transactions <$> phases) <= MaxUint64;
  bo_totalR : zsum (ph_Rows <$> phases) <= MaxUint64
}.

Definition StoreOK (c : Controller) : Prop :=
  BudgetOK (c_phases c) (c_counts c) (c_phase c) (c_transactions c) (c_rows c)
    (c_maximumRows c) /\
  0 <= c_ordinal c <= MaxUint64 /\
  forall i p, c_producers c !! i = Some p ->
    ProducerOK (c_ordinal c) (ph_ID (curPhase c)) p.

(** How many entries of a log satisfy a test. *)
Definition tally (f : Kind -> bool) (log : list Kind) : Z :=
  zsum ((fun k => if f k then 1 else 0) <$> log).
Definition isStart (k : Kind) : bool := (k =? Begin) || (k =? ImplicitWrite).
Definition isTerminal (k : Kind) : bool := (k =? Commit) || (k =? Cancel).

Definition openIn (w : transaction -> Z) (p : producerState) : Z :=
  openWeight w (ps_calls p) (ps_transactions p).
Definition openSum (w : transaction -> Z) (c : Controller) : Z :=
  zsum (openIn w <$> c_producers c).

Record LogOK (log : list Kind) (c : Controller) : Prop := {
  lo_ordinal : c_ordinal c = Z.of_nat (length log);
  lo_starts : c_transactions c = tally isStart log;
  lo_open : tally (Z.eqb Begin) log = tally isTerminal log + openSum (fun _ => 1) c;
  lo_rows : tally (Z.eqb Append) log <= 512 * tally isTerminal log + openSum tx_rows c;
  lo_appends : tally (Z.eqb Append) log <= c_rows c;
  lo_kinds : Forall (fun k => ImplicitWrite <= k <= Cancel) log
}.

(** ** Lemmas on sums *)
Lemma zmax_nonneg l : 0 <= zmax l.
Proof. induction l; simpl; lia. Qed.

Lemma zmax_insert l i x y :
  l !! i = Some x -> x <= y -> zmax (<[i := y]> l) = Z.max (zmax l) y.
Proof.
  revert i; induction l as [|z l IH]; intros [|i] H Hle; try discriminate.
  - injection H as ->. cbn. pose proof (zmax_nonneg l). lia.
  - change (<[S i := y]> (z :: l)) with (z :: <[i := y]> l). cbn [zmax].
    rewrite (IH i H Hle). lia.
Qed.

Lemma tally_app f l k : tally f (l ++ [k]) = tally f l + (if f k then 1 else 0).
Proof. unfold tally. rewrite fmap_app, zsum_app. simpl. lia. Qed.

Lemma tally_nonneg f l : 0 <= tally f l.
Proof.
  unfold tally. apply zsum_nonneg. intros x Hx. apply list_elem_of_fmap in Hx as (k & -> & _).
  destruct (f k); lia.
Qed.

Lemma zsum_fmap_le_lookup {A B} (f : A -> Z) (g : B -> Z) l k :
  length l = length k -> (forall i x y, l !! i = Some x -> k !! i = Some y -> f x <= g y) ->
  zsum (f <$> l) <= zsum (g <$> k).
Proof.
  revert k; induction l as [|x l IH]; intros [|y k] Hlen H; try discriminate.
  rewrite !fmap_cons. cbn [zsum].
  specialize (H 0%nat x y eq_refl eq_refl) as H0.
  assert (zsum (f <$> l) <= zsum (g <$> k)); [|lia].
  apply IH; [cbn in Hlen; lia|]. intros i a b Ha Hb. apply (H (S i) a b Ha Hb).
Qed.

(** ** Construction *)
Lemma newPhases_ok prev t r ps :
  newPhases prev t r ps = Ok tt -> 0 <= t <= MaxUint64 -> 0 <= r <= MaxUint64 ->
  Forall (fun p => 0 <= ph_ID p /\ 0 <= ph_Transactions p <= MaxUint64
                   /\ 0 <= ph_Rows p <= MaxUint64) ps ->
  t + zsum (ph_Transactions <$> ps) <= MaxUint64 /\ r + zsum (ph_Rows <$> ps) <= MaxUint64 /\
  (forall i p, ps !! i = Some p -> 0 < ph_ID p <= MaximumPhases /\
     match prev with Some q => ph_ID q < ph_ID p | None => True end) /\
  (forall i j p q, ps !! i = Some p -> ps !! j = Some q -> (i < j)%nat -> ph_ID p < ph_ID q).
Proof.
  revert prev t r; induction ps as [|p ps IH]; intros prev t r H Ht Hr Hty.
  - simpl. repeat split; try lia; intros; discriminate.
  - cbn [newPhases] in H.
    match type of H with (if ?g then _ else _) = _ => destruct g eqn:Eg; [discriminate|] end.
    inversion Hty as [|? ? Hp Hps]; subst.
    rewrite (u64_small (MaxUint64 - t)), (u64_small (MaxUint64 - r)) in Eg by lia. bsplit.
    rewrite !u64_small in H by lia.
    destruct (IH (Some p) (t + ph_Transactions p) (r + ph_Rows p) H ltac:(lia) ltac:(lia) Hps)
      as (IT & IR & Ipos & Iinc).
    rewrite !fmap_cons. cbn [zsum].
    split; [lia|]. split; [lia|]. split.
    + intros i x Hx. destruct i as [|i].
      * injection Hx as <-. split; [lia|]. destruct prev; [bsplit; lia|exact I].
      * destruct (Ipos i x Hx). split; [lia|]. destruct prev; [bsplit; lia|exact I].
    + intros i j x y Hx Hy Hlt. destruct i as [|i], j as [|j]; try lia.
      * injection Hx as <-. apply (proj2 (Ipos j y Hy)).
      * apply (Iinc i j); auto; lia.
Qed.

Lemma newProducers_ok seen ps out :
  newProducers seen ps = Ok out ->
  exists l, out = seen ++ l /\ l = newProducerState <$> ps.
Proof.
  revert seen out; induction ps as [|p ps IH]; intros seen out H; cbn in H.
  - injection H as <-. exists []. rewrite app_nil_r. auto.
  - destruct (_ || _); [discriminate|]. destruct (existsb _ _); [discriminate|].
    apply IH in H as (l & -> & ->). exists (newProducerState p :: (newProducerState <$> ps)).
    rewrite <- app_assoc. auto.
Qed.

Lemma openIn_idle w p : busy p = false -> openIn w p = 0.
Proof.
  intros [_ Ht]%not_busy. unfold openIn, openWeight. apply zsum_zero. intros x Hx.
  apply elem_of_lookup_imap in Hx as (t & tx & -> & Hl). unfold isOpen. rewrite (Ht t tx Hl).
  reflexivity.
Qed.

Lemma newProducerState_idle p : busy (newProducerState p) = false.
Proof.
  apply not_busy. split; cbn; intros ? ? Hl; apply lookup_replicate in Hl as [-> _]; reflexivity.
Qed.

Lemma New_ok ctx config c :
  typedConfig config -> New ctx config = Ok c -> StoreOK c /\ LogOK [] c.
Proof.
  intros Hty H. unfold typedConfig in Hty. unfold New in H.
  match type of H with (if ?g then _ else _) = _ => destruct g eqn:Eg; [discriminate|] end.
  destruct (newProducers [] (cf_Producers config)) as [ps|] eqn:Ep; [|discriminate].
  destruct (newPhases None 0 0 (cf_Phases config)) as [[]|] eqn:Eh; [|discriminate].
  injection H as <-. apply newProducers_ok in Ep as (l & -> & ->). cbn.
  apply newPhases_ok in Eh as (HT & HR & Hpos & Hinc);
    [|unfold MaxUint64; lia..|exact Hty].
  bsplit. assert (forall (f : PhaseCount -> Z) (l : list Phase),
    (forall p, f (mkPhaseCount (ph_ID p) 0 0 0) = 0) ->
    zsum (f <$> ((fun p => mkPhaseCount (ph_ID p) 0 0 0) <$> l)) = 0 /\
    zmax (f <$> ((fun p => mkPhaseCount (ph_ID p) 0 0 0) <$> l)) = 0) as Hz.
  { intros f l Hf. induction l as [|p l [IH1 IH2]]; [auto|].
    rewrite !fmap_cons. cbn [zsum zmax]. rewrite Hf, IH1, IH2. auto. }
  assert (Hprod : forall i p, (newProducerState <$> cf_Producers config) !! i = Some p ->
            exists q, p = newProducerState q).
  { intros i p Hp. apply list_lookup_fmap_Some in Hp as (q & -> & _). eauto. }
  assert (Hopen : forall w, zsum (openIn w <$> (newProducerState <$> cf_Producers config)) = 0).
  { intros w. apply zsum_zero. intros x Hx. apply list_elem_of_fmap in Hx as (q & -> & Hq).
    apply list_elem_of_fmap in Hq as (q0 & -> & _). apply openIn_idle, newProducerState_idle. }
  split; [split; [split|split]|split]; cbn [c_phases c_counts c_phase c_transactions c_rows
    c_maximumRows c_ordinal c_producers length Z.of_nat]; auto.
  - rewrite length_fmap. reflexivity.
  - destruct (cf_Phases config); cbn in *; lia.
  - intros i p Hp. destruct (Hpos i p Hp). rewrite Forall_lookup in Hty. specialize (Hty i p Hp). lia.
  - intros i p n Hp Hn. rewrite list_lookup_fmap, Hp in Hn. injection Hn as <-. cbn.
    rewrite Forall_lookup in Hty. specialize (Hty i p Hp). unfold MaximumRows. lia.
  - intros i n _ Hn. apply list_lookup_fmap_Some in Hn as (p & -> & _). auto.
  - symmetry. apply Hz. reflexivity.
  - symmetry. apply Hz. reflexivity.
  - symmetry. apply Hz. reflexivity.
  - unfold MaxUint64. lia.
  - intros i p Hp. destruct (Hprod i p Hp) as [q ->]. split.
    + apply SlotsOK_new.
    + cbn. unfold curPhase. cbn. destruct (cf_Phases config) as [|ph phs]; [cbn; lia|].
      specialize (Hpos 0%nat ph eq_refl). cbn. lia.
    + intros _. apply newProducerState_idle.
    + discriminate.
  - cbn. symmetry. apply Hopen.
  - cbn. rewrite Hopen. lia.
  - reflexivity.
Qed.

(** ** Preservation by the producer updates *)
Lemma ProducerOK_mono ord ord' cur p :
  ord <= ord' -> ProducerOK ord cur p -> ProducerOK ord' cur p.
Proof. intros H [HS ? ? ?]. split; auto. eapply SlotsOK_mono; eassumption. Qed.

(** Replacing a producer by one with the same slots. *)
Lemma update_same_slots c i p p' :
  c_producers c !! i = Some p ->
  ps_calls p' = ps_calls p -> ps_transactions p' = ps_transactions p ->
  (ProducerOK (c_ordinal c) (ph_ID (curPhase c)) p ->
   ProducerOK (c_ordinal c) (ph_ID (curPhase c)) p') ->
  (StoreOK c -> StoreOK (setProducer i p' c)) /\
  (forall log, LogOK log c -> LogOK log (setProducer i p' c)).
Proof.
  intros Hp Hc Ht Hok. split.
  - intros (HB & Ho & HP). split; [exact HB|]. split; [exact Ho|].
    intros j q Hq. cbn in Hq.
    destruct (lookup_insert_cases _ _ _ _ _ _ Hp Hq) as [[-> ->]|[Hne Hq']].
    + apply Hok. apply (HP i). exact Hp.
    + apply (HP j). exact Hq'.
  - intros log [L1 L2 L3 L4 L5 L6]. 
    assert (forall w, openSum w (setProducer i p' c) = openSum w c) as Hw.
    { intros w. unfold openSum. cbn. rewrite (zsum_fmap_insert _ _ _ _ _ Hp).
      unfold openIn. rewrite Hc, Ht. lia. }
    split; rewrite ?Hw; assumption.
Qed.

(** The flag setters of [Checkpoint], [Close], [armTerminalEOF], ... on a
    producer that holds nothing. *)
Lemma ProducerOK_idle ord cur p p' :
  ProducerOK ord cur p -> busy p = false -> 0 <= ps_checkpoint p' <= cur ->
  ps_calls p' = ps_calls p -> ps_transactions p' = ps_transactions p ->
  (ps_terminalEOF p' = true -> ps_terminalPhase p' <> 0) ->
  ProducerOK ord cur p'.
Proof.
  intros [HS _ _ _] Hb Hcp Hc Ht He. split; rewrite ?Hc, ?Ht; auto.
  intros _. apply not_busy in Hb. apply not_busy. rewrite Hc, Ht. exact Hb.
Qed.

Lemma latched_ok c c' :
  latched c c' -> (StoreOK c -> StoreOK c') /\ (forall log, LogOK log c -> LogOK log c').
Proof.
  intros [e ->]. split; [intros H; exact H|]. intros log []. split; assumption.
Qed.

Lemma idle_update c id guard f c' :
  updates c id guard f c' ->
  (forall p, guard p -> busy p = false /\
     (0 <= ps_checkpoint p <= ph_ID (curPhase c) ->
      0 <= ps_checkpoint (f p) <= ph_ID (curPhase c)) /\
     ps_calls (f p) = ps_calls p /\ ps_transactions (f p) = ps_transactions p /\
     ((ps_terminalEOF p = true -> ps_terminalPhase p <> 0) ->
      ps_terminalEOF (f p) = true -> ps_terminalPhase (f p) <> 0)) ->
  (StoreOK c -> StoreOK c') /\ (forall log, LogOK log c -> LogOK log c').
Proof.
  intros (i & p & _ & Hp & Hg & ->) Hf. destruct (Hf p Hg) as (Hb & Hcp & Hc & Ht & He).
  eapply update_same_slots; eauto. intros HP.
  eapply ProducerOK_idle; eauto; [apply Hcp, HP|apply He, HP].
Qed.

Lemma curPhase_lookup c : StoreOK c -> c_phases c !! c_phase c = Some (curPhase c).
Proof.
  intros (HB & _). unfold curPhase. rewrite nth_lookup.
  destruct (c_phases c !! c_phase c) eqn:E; [reflexivity|].
  apply lookup_ge_None in E. pose proof (bo_phase _ _ _ _ _ _ HB). lia.
Qed.

Lemma curCount_lookup c : StoreOK c -> c_counts c !! c_phase c = Some (curCount c).
Proof.
  intros (HB & _). unfold curCount. rewrite nth_lookup.
  destruct (c_counts c !! c_phase c) eqn:E; [reflexivity|].
  apply lookup_ge_None in E. pose proof (bo_phase _ _ _ _ _ _ HB).
  pose proof (bo_len _ _ _ _ _ _ HB). lia.
Qed.

Lemma curPhase_pos c : StoreOK c -> 0 < ph_ID (curPhase c) <= MaximumPhases.
Proof.
  intros H. pose proof (curPhase_lookup c H) as Hl. destruct H as (HB & _).
  apply (bo_pos _ _ _ _ _ _ HB _ _ Hl).
Qed.

(** The counters never reach the width of their type. *)
Lemma totals_bounded c :
  StoreOK c -> 0 <= c_transactions c <= zsum (ph_Transactions <$> c_phases c) /\
               0 <= c_rows c <= zsum (ph_Rows <$> c_phases c).
Proof.
  intros (HB & _). destruct HB. rewrite bo_sumT0, bo_sumR0.
  assert (forall n, n ∈ c_counts c -> 0 <= pc_Transactions n /\ 0 <= pc_Rows n) as Hn.
  { intros n [i Hi]%list_elem_of_lookup. pose proof (lookup_lt_Some _ _ _ Hi) as Hlt.
    rewrite bo_len0 in Hlt. apply lookup_lt_is_Some in Hlt as [ph Hph].
    specialize (bo_counts0 _ _ _ Hph Hi). lia. }
  repeat split.
  - apply zsum_nonneg. intros x (n & -> & Hin)%list_elem_of_fmap. apply Hn, Hin.
  - apply zsum_fmap_le_lookup; [lia|]. intros i n ph Hi Hph. specialize (bo_counts0 _ _ _ Hph Hi). lia.
  - apply zsum_nonneg. intros x (n & -> & Hin)%list_elem_of_fmap. apply Hn, Hin.
  - apply zsum_fmap_le_lookup; [lia|]. intros i n ph Hi Hph. specialize (bo_counts0 _ _ _ Hph Hi). lia.
Qed.

(** ** Advance *)
Lemma Advance_ok c :
  (c_phase c + 1 < length (c_phases c))%nat ->
  (forall i p, c_producers c !! i = Some p -> blocksAdvance (ph_ID (curPhase c)) p = false) ->
  let c' := c <| c_phase ::= S |> <| c_fenced := false |> in
  (StoreOK c -> StoreOK c') /\ (forall log, LogOK log c -> LogOK log c').
Proof.
  intros Hlt Hblock c'. split; [|intros log []; split; assumption].
  intros Hok. pose proof (curPhase_lookup c Hok) as Hcur. pose proof Hok as (HB & Ho & HP).
  assert (ph_ID (curPhase c) < ph_ID (curPhase c')) as Hinc.
  { destruct (c_phases c !! S (c_phase c)) as [ph|] eqn:E; [|apply lookup_ge_None in E; lia].
    assert (curPhase c' = ph) as -> by (unfold curPhase; subst c'; cbn -[nth]; rewrite nth_lookup, E; reflexivity).
    apply (bo_ids _ _ _ _ _ _ HB _ _ _ _ Hcur E). lia. }
  split; [|split; [exact Ho|]].
  - destruct HB. subst c'. cbn. split; auto; [lia|]. intros i n Hi. apply bo_future0. lia.
  - intros i p Hp. specialize (HP i p Hp). specialize (Hblock i p Hp).
    destruct HP as [HS Hcp Hidle Heof]. split; [exact HS|lia| |exact Heof].
    intros _. apply Hidle. unfold blocksAdvance in Hblock.
    destruct (ps_attached p), (ps_closed p), (ps_terminalEOF p); auto 6.
    cbn in Hblock. bsplit. auto.
Qed.

(** ** Settle *)
Lemma Settle_ok c pi ci x :
  c_producers c !! pi = Some (producerAt c pi) ->
  ps_calls (producerAt c pi) !! ci = Some x -> ca_ordinal x <> 0 ->
  ps_attached (producerAt c pi) = true -> ps_closed (producerAt c pi) = false ->
  let p := producerAt c pi in
  let txs' := match ca_transaction x with
              | Some t =>
                  if (ca_kind x =? Commit) || (ca_kind x =? Cancel)
                  then <[t := noTransaction]> (ps_transactions p)
                  else <[t := (transactionAt p t) <| tx_busy := false |>]> (ps_transactions p)
              | None => ps_transactions p
              end in
  let c' := setProducer pi (p <| ps_transactions := txs' |>
                              <| ps_calls ::= fun l => <[ci := noCall]> l |>) c in
  StoreOK c -> StoreOK c' /\ forall w,
    (forall tx, w (tx <| tx_busy := false |>) = w tx) -> openSum w c' = openSum w c.
Proof.
  intros Hp Hx Hxo Hatt Hcl p txs' c' Hok. pose proof Hok as (HB & Ho & HP).
  pose proof (HP _ _ Hp) as [HS Hcp Hidle Heof]. fold p in HS, Hcp, Hidle, Heof.
  assert (Hcase : ca_transaction x = None /\ txs' = ps_transactions p \/
    exists t tx tx', ca_transaction x = Some t /\ ps_transactions p !! t = Some tx /\
      txs' = <[t := tx']> (ps_transactions p) /\ tx_busy tx' = false /\
      0 <= tx_rows tx' <= MaximumRows /\
      (tx_ordinal tx' = 0 \/ tx_ordinal tx' = tx_ordinal tx) /\
      (tx' = noTransaction /\ Commit <= ca_kind x
       \/ tx' = tx <| tx_busy := false |> /\ (ca_kind x =? Commit) || (ca_kind x =? Cancel) = false)).
  { subst txs'. destruct (ca_transaction x) as [t|] eqn:Et; [right|left; auto].
    destruct (so_call_tx _ _ _ HS _ _ _ Hx Hxo Et) as (tx & Htx & _ & _).
    pose proof (so_tx _ _ _ HS _ _ Htx).
    destruct (_ || _) eqn:Ek.
    - exists t, tx, noTransaction. repeat split; auto; cbn; try lia.
      left. split; [reflexivity|]. unfold Commit, Cancel in *.
      apply orb_true_iff in Ek as [Ek|Ek]; bsplit; lia.
    - rewrite (transactionAt_lookup _ _ _ Htx).
      exists t, tx, (tx <| tx_busy := false |>). repeat split; auto; cbn; lia. }
  assert (Hnb : busy p = true).
  { destruct (busy p) eqn:E; [reflexivity|]. apply not_busy in E as [E _].
    rewrite (E _ _ Hx) in Hxo. contradiction. }
  split.
  - split; [exact HB|]. split; [exact Ho|]. intros j q Hq. cbn in Hq.
    destruct (lookup_insert_cases _ _ _ _ _ _ Hp Hq) as [[-> ->]|[Hne Hq']]; [|apply (HP j), Hq'].
    split; [|exact Hcp| |exact Heof].
    + cbn. eapply SlotsOK_settle; eauto. destruct Hcase as [?|(t & tx & tx' & ? & ? & ? & ? & ? & ? & _)];
        [left; assumption|right; eauto 12].
    + cbn. intros Hany. apply Hidle in Hany. congruence.
  - intros w Hwb. unfold openSum. cbn. rewrite (zsum_fmap_insert _ _ _ _ _ Hp).
    enough (openIn w (p <| ps_transactions := txs' |>
      <| ps_calls ::= fun l => <[ci := noCall]> l |>) = openIn w p) by (fold p; lia).
    unfold openIn. cbn.
    destruct Hcase as [[Hn ->]|(t & tx & tx' & Hxt & Htx & -> & _ & _ & _ & Hk)].
    + apply openWeight_same. intros s y _. apply isOpen_calls.
      apply (terminated_clear_call _ _ _ _ Hx). left. congruence.
    + rewrite (openWeight_change w (ps_calls p) _ _ _ t tx tx' Htx eq_refl).
      2: { intros s y Hs _. apply isOpen_calls, (terminated_clear_call _ _ _ _ Hx). left. congruence. }
      destruct Hk as [[-> Hk]|[-> Hk]].
      * unfold isOpen at 2. cbn.
        unfold isOpen. rewrite (proj2 (terminated_true _ _)); [|eauto 10].
        rewrite andb_false_r. lia.
      * assert (isOpen (<[ci := noCall]> (ps_calls p)) t (tx <| tx_busy := false |>)
                = isOpen (ps_calls p) t tx) as ->.
        { unfold isOpen. cbn. do 2 f_equal. apply (terminated_clear_call _ _ _ _ Hx). right.
          pose proof (proj1 (so_call_kind _ _ _ HS _ _ Hx Hxo)).
          apply orb_false_iff in Hk as [? ?]. bsplit. unfold Commit, Cancel in *. lia. }
        rewrite Hwb. lia.
Qed.

(** ** Submit *)
Lemma BudgetOK_add phases counts phase T R m n ph a r k :
  BudgetOK phases counts phase T R m ->
  counts !! phase = Some n -> phases !! phase = Some ph ->
  0 <= a <= ph_Transactions ph - pc_Transactions n -> 0 <= r <= ph_Rows ph - pc_Rows n ->
  0 <= k <= MaximumRows ->
  let n' := mkPhaseCount (pc_Phase n) (pc_Transactions n + a) (pc_Rows n + r)
              (Z.max (pc_MaximumRows n) k) in
  BudgetOK phases (<[phase := n']> counts) phase (T + a) (R + r) (Z.max m k) /\
  pc_Transactions n + a <= MaxUint64 /\ pc_Rows n + r <= MaxUint64 /\
  T + a <= MaxUint64 /\ R + r <= MaxUint64.
Proof.
  intros HB Hn Hph Ha Hr Hk n'. destruct HB.
  pose proof (bo_counts0 _ _ _ Hph Hn) as (Hid & HnT & HnR & HnM).
  assert (HB' : BudgetOK phases (<[phase := n']> counts) phase (T + a) (R + r) (Z.max m k)).
  { split; auto.
    - rewrite length_insert. exact bo_len0.
    - intros i p q Hp Hq. destruct (lookup_insert_cases _ _ _ _ _ _ Hn Hq) as [[-> ->]|[Hne Hq']]; [|eauto].
      assert (p = ph) as -> by congruence. cbn. lia.
    - intros i q Hi Hq. rewrite list_lookup_insert_ne in Hq by lia. eauto.
    - rewrite (zsum_fmap_insert _ _ _ _ _ Hn), <- bo_sumT0. cbn. lia.
    - rewrite (zsum_fmap_insert _ _ _ _ _ Hn), <- bo_sumR0. cbn. lia.
    - rewrite list_fmap_insert, (zmax_insert _ _ (pc_MaximumRows n)); cbn.
      + rewrite <- bo_max0.
        assert (pc_MaximumRows n <= m); [|lia]. rewrite bo_max0.
        assert (forall l x, x ∈ l -> x <= zmax l) as Hmx.
        { induction l as [|z l IH]; intros x Hx; [inversion Hx|]. cbn.
          apply elem_of_cons in Hx as [->|Hx]; [lia|]. specialize (IH x Hx). lia. }
        apply Hmx, list_elem_of_fmap. exists n. split; [reflexivity|].
        eapply list_elem_of_lookup_2; eassumption.
      + rewrite list_lookup_fmap, Hn. reflexivity.
      + lia. }
  split; [exact HB'|].
  assert (forall f : Phase -> Z, (forall i p, phases !! i = Some p -> 0 <= f p) ->
            f ph <= zsum (f <$> phases)) as Hf.
  { intros f Hf. apply zsum_elem_le.
    - intros y (p & -> & [i Hi]%list_elem_of_lookup)%list_elem_of_fmap. eauto.
    - apply list_elem_of_fmap. exists ph. split; [reflexivity|]. eapply list_elem_of_lookup_2; eassumption. }
  pose proof (Hf ph_Transactions (fun i p H => proj1 (proj2 (bo_pos0 i p H)))).
  pose proof (Hf ph_Rows (fun i p H => proj2 (proj2 (bo_pos0 i p H)))).
  destruct HB'.
  assert (T + a <= zsum (ph_Transactions <$> phases)).
  { rewrite bo_sumT1. apply zsum_fmap_le_lookup; [lia|]. intros i x y Hx Hy.
    specialize (bo_counts1 _ _ _ Hy Hx). lia. }
  assert (R + r <= zsum (ph_Rows <$> phases)).
  { rewrite bo_sumR1. apply zsum_fmap_le_lookup; [lia|]. intros i x y Hx Hy.
    specialize (bo_counts1 _ _ _ Hy Hx). lia. }
  lia.
Qed.

(** The new slots of an accepted submission. *)
Definition submittedTxs (r : Request) (p : producerState) (ti : option nat) (ord txRows : Z)
    : list transaction :=
  match ti with
  | Some t =>
      if rq_Kind r =? Begin
      then <[t := mkTransaction ord 0 true]> (ps_transactions p)
      else if Append <=? rq_Kind r
      then <[t := mkTransaction (tx_ordinal (transactionAt p t))
                    (if rq_Kind r =? Append then txRows else tx_rows (transactionAt p t))
                    true]> (ps_transactions p)
      else ps_transactions p
  | None => ps_transactions p
  end.

Arguments submittedTxs : simpl never.

Definition submittedProducer (r : Request) (p : producerState) (ti : option nat) (ord txRows : Z)
    (ci : nat) : producerState :=
  p <| ps_ordinal := ord + 1 |>
    <| ps_calls ::= fun l => <[ci := mkCall (ord + 1) (rq_Kind r) ti]> l |>
    <| ps_transactions := submittedTxs r p ti (ord + 1) txRows |>.

(** What an accepted call does to the slots: no transaction slot, or one. *)
Definition slotEffect (r : Request) (p : producerState) (ti : option nat) (ord txRows : Z) : Prop :=
  (rq_Kind r = ImplicitWrite /\ ti = None /\ submittedTxs r p ti (ord + 1) txRows = ps_transactions p
   /\ 0 <= txRows) \/
  (exists t tx tx', ti = Some t /\ ps_transactions p !! t = Some tx /\
     ImplicitWrite < rq_Kind r <= Cancel /\
     submittedTxs r p ti (ord + 1) txRows = <[t := tx']> (ps_transactions p) /\
     tx_busy tx' = true /\ 0 <= tx_rows tx' <= MaximumRows /\ 0 <= txRows /\
     (rq_Kind r = Begin /\ tx_ordinal tx = 0 /\ tx_ordinal tx' = ord + 1 /\ tx_rows tx' = 0
      \/ rq_Kind r <> Begin /\ tx_ordinal tx <> 0 /\ tx_busy tx = false /\
         tx_ordinal tx' = tx_ordinal tx /\
         tx_rows tx' = tx_rows tx + (if rq_Kind r =? Append then rq_Rows r else 0))).

(** Every accepted kind claims no slot, or one, with these effects. *)
Lemma submitted_slots r p ti addT txRows ord :
  SlotsOK ord (ps_calls p) (ps_transactions p) -> 0 <= rq_Rows r -> txRows <= MaximumRows ->
  kindCase r p ti addT txRows ->
  slotEffect r p ti ord txRows.
Proof.
  intros HS Hrr Hmax Hk.
  destruct Hk as [(K & -> & _ & ->)|[(K & Hr & _ & -> & t & tx & -> & Htx & H0)
    |[(K & Hr & _ & t & tx & -> & Htx & Hn0 & _ & Hb & Hle & ->)
     |(K & Hr & _ & -> & t & tx & -> & Htx & Hn0 & _ & Hb)]]]; [left|right..].
  - unfold submittedTxs. auto.
  - exists t, tx, (mkTransaction (ord + 1) 0 true). unfold submittedTxs. rewrite K.
    unfold ImplicitWrite, Begin, Cancel, MaximumRows. cbn. repeat split; auto; lia.
  - pose proof (so_tx _ _ _ HS _ _ Htx) as [_ Hrows]. unfold MaximumRows in *.
    rewrite u64_small in Hle by (unfold MaxUint64; lia).
    rewrite u64_small by (unfold MaxUint64; lia).
    exists t, tx, (mkTransaction (tx_ordinal tx) (rq_Rows r + tx_rows tx) true).
    unfold submittedTxs. rewrite (transactionAt_lookup _ _ _ Htx), K.
    unfold ImplicitWrite, Begin, Append, Cancel. cbn. repeat split; auto; try lia.
    right. repeat split; auto; lia.
  - pose proof (so_tx _ _ _ HS _ _ Htx) as [_ Hrows].
    exists t, tx, (mkTransaction (tx_ordinal tx) (tx_rows tx) true).
    unfold submittedTxs. rewrite (transactionAt_lookup _ _ _ Htx).
    unfold ImplicitWrite, Begin, Append, Commit, Cancel in *.
    destruct K as [K|K]; rewrite K; cbn; repeat split; auto; try lia;
      right; repeat split; auto; lia.
Qed.

(** How an accepted call moves the open weight of its producer. *)
Lemma submitted_weight w ord calls txs ci x k t tx tx' :
  SlotsOK ord calls txs -> calls !! ci = Some x -> ca_ordinal x = 0 ->
  txs !! t = Some tx -> ImplicitWrite < k <= Cancel ->
  (k = Begin /\ tx_ordinal tx = 0 /\ tx_ordinal tx' = ord + 1
   \/ k <> Begin /\ tx_ordinal tx <> 0 /\ tx_busy tx = false /\ tx_ordinal tx' = tx_ordinal tx) ->
  openWeight w (<[ci := mkCall (ord + 1) k (Some t)]> calls) (<[t := tx']> txs) =
    openWeight w calls txs - (if k =? Begin then 0 else w tx)
    + (if isTerminal k then 0 else w tx').
Proof.
  intros HS Hx H0 Ht Hk Hcase. pose proof (so_ord _ _ _ HS).
  assert (Hnt : terminated calls t = false).
  { apply not_true_is_false. intros (i & y & Hy & Hyo & _ & Hyt)%terminated_true.
    destruct (so_call_tx _ _ _ HS _ _ _ Hy Hyo Hyt) as (z & Hz & ? & ?).
    rewrite Ht in Hz. injection Hz as <-. destruct Hcase as [(_ & ? & _)|(_ & _ & ? & _)]; congruence. }
  rewrite (openWeight_change w calls _ txs _ t tx tx' Ht eq_refl).
  2: { intros s y Hs _. apply isOpen_calls, (terminated_insert_call _ _ _ _ _ Hx H0).
       cbn. congruence. }
  assert (Hlive : tx_ordinal tx' <> 0) by (destruct Hcase as [(_ & _ & ?)|(_ & ? & _ & ?)]; lia).
  unfold isOpen. rewrite Hnt, (proj2 (Z.eqb_neq _ _) Hlive). cbn [negb andb].
  assert (Hold : (if negb (tx_ordinal tx =? 0) && true then w tx else 0)
                 = if k =? Begin then 0 else w tx).
  { destruct Hcase as [(-> & -> & _)|(Hne & Ho & _)]; [reflexivity|].
    rewrite (proj2 (Z.eqb_neq _ _) Ho), (proj2 (Z.eqb_neq _ _) Hne). reflexivity. }
  rewrite Hold.
  assert (Hnew : terminated (<[ci := mkCall (ord + 1) k (Some t)]> calls) t = isTerminal k).
  { unfold isTerminal, Begin, Commit, Cancel, ImplicitWrite in *. destruct (Z_lt_le_dec k 4).
    - rewrite (terminated_insert_small _ _ _ _ _ Hx H0) by (cbn; assumption). rewrite Hnt.
      destruct (Z.eqb_spec k 4), (Z.eqb_spec k 5); cbn; auto; lia.
    - rewrite (proj2 (terminated_true _ _)).
      + destruct (Z.eqb_spec k 4), (Z.eqb_spec k 5); cbn; auto; lia.
      + exists ci, (mkCall (ord + 1) k (Some t)).
        rewrite list_lookup_insert_eq by (eapply lookup_lt_Some; eassumption).
        cbn. repeat split; auto; lia. }
  rewrite Hnew. destruct (isTerminal k); reflexivity.
Qed.

Lemma openIn_submitted w r p ti ord txRows ci :
  openIn w (submittedProducer r p ti ord txRows ci)
  = openWeight w (<[ci := mkCall (ord + 1) (rq_Kind r) ti]> (ps_calls p))
      (submittedTxs r p ti (ord + 1) txRows).
Proof. reflexivity. Qed.

Section SubmittedWeights.
Context (r : Request) (p : producerState) (ti : option nat) (ord txRows : Z) (ci : nat) (x : call).
Context (HS : SlotsOK ord (ps_calls p) (ps_transactions p)).
Context (Hx : ps_calls p !! ci = Some x) (H0 : ca_ordinal x = 0).
Context (He : slotEffect r p ti ord txRows).

Lemma implicit_weight w :
  rq_Kind r = ImplicitWrite ->
  openWeight w (<[ci := mkCall (ord + 1) (rq_Kind r) None]> (ps_calls p)) (ps_transactions p)
  = openIn w p.
Proof using Hx H0.
  intros K. apply openWeight_same. intros s y _. apply isOpen_calls.
  apply (terminated_insert_call _ _ _ _ _ Hx H0). discriminate.
Qed.

Lemma submitted_open1 :
  openIn (fun _ => 1) (submittedProducer r p ti ord txRows ci) = openIn (fun _ => 1) p
    + (if Begin =? rq_Kind r then 1 else 0) - (if isTerminal (rq_Kind r) then 1 else 0).
Proof using HS Hx H0 He.
  destruct He as [(K & -> & E & _)|(t & tx & tx' & -> & Ht & K & E & _ & _ & _ & Hc)];
    rewrite openIn_submitted, E.
  - rewrite implicit_weight, K by assumption. cbn. lia.
  - rewrite (submitted_weight _ _ _ _ _ _ _ _ _ _ HS Hx H0 Ht K) by tauto.
    rewrite (Z.eqb_sym Begin). fold (openIn (fun _ => 1) p).
    destruct (Z.eqb_spec (rq_Kind r) Begin) as [->|Hn]; cbn; [lia|].
    destruct (isTerminal _); lia.
Qed.

Lemma submitted_openRows :
  0 <= rq_Rows r ->
  openIn tx_rows p - (if isTerminal (rq_Kind r) then MaximumRows else 0)
    + (if Append =? rq_Kind r then rq_Rows r else 0)
  <= openIn tx_rows (submittedProducer r p ti ord txRows ci).
Proof using HS Hx H0 He.
  intros Hr. destruct He as [(K & -> & E & _)|(t & tx & tx' & -> & Ht & K & E & _ & Hrw & _ & Hc)];
    rewrite openIn_submitted, E.
  - rewrite implicit_weight, K by assumption. cbn. lia.
  - rewrite (submitted_weight _ _ _ _ _ _ _ _ _ _ HS Hx H0 Ht K) by tauto.
    pose proof (so_tx _ _ _ HS _ _ Ht) as [_ Htr]. rewrite (Z.eqb_sym Append).
    fold (openIn tx_rows p).
    destruct Hc as [(-> & _ & _ & ->)|(Hn & _ & _ & _ & Hrows)]; [cbn; lia|].
    rewrite (proj2 (Z.eqb_neq _ _) Hn). destruct (isTerminal (rq_Kind r)) eqn:Et; [|lia].
    destruct (Z.eqb_spec (rq_Kind r) Append) as [Ha|_]; [|lia].
    rewrite Ha in Et. discriminate.
Qed.
End SubmittedWeights.

Lemma Submit_ok r c pi ci ti addT txRows :
  0 <= rq_Rows r <= MaxUint64 -> Accepted r c pi ci ti addT txRows -> StoreOK c ->
  let c' := snd (acceptSubmission r pi ci ti addT txRows c) in
  StoreOK c' /\ forall log, LogOK log c -> LogOK (log ++ [rq_Kind r]) c'.
Proof.
  intros Hrr HA Hok c'. pose proof Hok as (HB & Ho & HP).
  pose proof (curPhase_lookup c Hok) as Hph. pose proof (curCount_lookup c Hok) as Hcnt.
  pose proof (bo_counts _ _ _ _ _ _ HB _ _ _ Hph Hcnt) as (_ & HcT & HcR & _).
  destruct HA as [Apr Aid Aatt Aopen Aterm Aph Acp Afence (x & Hx & H0) Aord Akind Arows AT AR _].
  set (p := producerAt c pi) in *. pose proof (HP _ _ Apr) as [HS Hcp Hidle Heof].
  assert (Hadd : addT = if isStart (rq_Kind r) then 1 else 0).
  { unfold isStart. destruct Akind as [(-> & _ & -> & _)|[(-> & _ & -> & _)
      |[(-> & _ & -> & _)|([->| ->] & _ & -> & _)]]]; reflexivity. }
  assert (Hbig : ph_Transactions (curPhase c) <= MaxUint64 /\ ph_Rows (curPhase c) <= MaxUint64).
  { pose proof (BudgetOK_add _ _ _ _ _ _ _ _ (ph_Transactions (curPhase c) - pc_Transactions (curCount c))
      (ph_Rows (curPhase c) - pc_Rows (curCount c)) 0 HB Hcnt Hph) as Hb.
    unfold MaximumRows in Hb. destruct Hb as (_ & ? & ? & _); lia. }
  rewrite u64_small in AT, AR by lia.
  assert (Hord : u64 (c_ordinal c + 1) = c_ordinal c + 1) by (apply u64_small; lia).
  pose proof (submitted_slots r p ti addT txRows (c_ordinal c) HS (proj1 Hrr) Arows Akind) as Hslots.
  assert (Htr : 0 <= txRows) by (destruct Hslots as [(_ & _ & _ & ?)|(? & ? & ? & _ & _ & _ & _ & _ & _ & ? & _)]; assumption).
  destruct (BudgetOK_add _ _ _ _ _ _ _ _ addT (rq_Rows r) txRows HB Hcnt Hph) as (HB' & ? & ? & ? & ?);
    [rewrite Hadd in *; destruct (isStart _); lia|lia|lia|].
  set (p' := submittedProducer r p ti (c_ordinal c) txRows ci).
  assert (Hc' : c' = setProducer pi p' c <| c_ordinal := c_ordinal c + 1 |>
     <| c_counts ::= fun l => <[c_phase c := mkPhaseCount (pc_Phase (curCount c))
          (pc_Transactions (curCount c) + addT) (pc_Rows (curCount c) + rq_Rows r)
          (Z.max (pc_MaximumRows (curCount c)) txRows)]> l |>
     <| c_transactions := c_transactions c + addT |> <| c_rows := c_rows c + rq_Rows r |>
     <| c_maximumRows := Z.max (c_maximumRows c) txRows |>).
  { subst c' p'. unfold acceptSubmission. cbn [snd]. fold p. rewrite Hord.
    destruct (totals_bounded c Hok). rewrite !u64_small by (rewrite Hadd in *; destruct (isStart _); lia).
    reflexivity. }
  clearbody c'. subst c'. clear Hord.
  assert (HS' : SlotsOK (c_ordinal c + 1) (ps_calls p') (ps_transactions p')).
  { subst p'. cbn. destruct Hslots as [(K & -> & -> & _)|(t & tx & tx' & -> & Htx & K & -> & Hb & Hrw & _ & Hcase)].
    - rewrite K. eapply SlotsOK_implicit; eauto.
    - eapply SlotsOK_claim; eauto. destruct Hcase as [(_ & ? & ? & _)|(_ & ? & ? & ? & _)]; auto. }
  split.
  - split; [exact HB'|]. split; [cbn; lia|]. intros j q Hq. cbn in Hq.
    destruct (lookup_insert_cases _ _ _ _ _ _ Apr Hq) as [[-> ->]|[Hne Hq']].
    + split; [exact HS'|exact Hcp| |exact Heof].
      intros [Hf|[Hf|[Hf|Hf]]]; cbn in Hf; try congruence.
      unfold curPhase in *. cbn in Hf. congruence.
    + apply (ProducerOK_mono (c_ordinal c)); [cbn; lia|]. apply (HP j), Hq'.
  - intros log [L1 L2 L3 L4 L5 L6].
    match goal with |- LogOK _ ?d => set (c2 := d) end.
    assert (Hopen : forall w, openSum w c2 = openSum w c - openIn w p + openIn w p').
    { intros w. unfold openSum. cbn. apply (zsum_fmap_insert _ _ _ _ _ Apr). }
    split; rewrite ?tally_app, ?Hopen, ?length_app; cbn [length].
    + cbn. lia.
    + change (c_transactions c2) with (c_transactions c + addT). rewrite L2, Hadd. reflexivity.
    + subst p'. rewrite (submitted_open1 _ _ _ _ _ _ _ HS Hx H0 Hslots). lia.
    + pose proof (submitted_openRows _ _ _ _ _ _ _ HS Hx H0 Hslots (proj1 Hrr)) as Hw.
      subst p'. destruct Akind as [(K & _)|[(K & _)|[(K & ? & _)|([K|K] & _)]]]; rewrite K in *;
        cbn in Hw |- *; unfold MaximumRows in Hw; lia.
    + change (c_rows c2) with (c_rows c + rq_Rows r).
      destruct Akind as [(-> & _)|[(-> & _)|[(-> & ? & _)|([->| ->] & _)]]]; cbn; lia.
    + apply Forall_app. split; [exact L6|]. repeat constructor;
      destruct Hslots as [(-> & _)|(_ & _ & _ & _ & _ & ? & _)]; unfold ImplicitWrite, Cancel in *; lia.
Qed.

(** ** Every event *)
Lemma reconfigured_ok c c' :
  reconfigured c c' -> (StoreOK c -> StoreOK c') /\ (forall log, LogOK log c -> LogOK log c').
Proof.
  intros (ps & w & e & Hps & ->).
  assert (Hsame : forall i q, ps !! i = Some q -> exists p, c_producers c !! i = Some p /\
            q = p <| ps_lastPhase := ps_lastPhase q |>).
  { intros i q Hq. destruct (Forall2_lookup_r _ _ _ _ _ Hps Hq) as (p & Hp & Hs). eauto. }
  assert (Hopen : forall w, zsum (openIn w <$> ps) = openSum w c).
  { intros w0. unfold openSum. f_equal. clear Hsame. induction Hps as [|p q l k Hpq _ IH]; [reflexivity|].
    rewrite !fmap_cons, IH. rewrite Hpq. reflexivity. }
  split.
  - intros (HB & Ho & HP). split; [exact HB|]. split; [exact Ho|]. intros i q Hq.
    destruct (Hsame i q Hq) as (p & Hp & Hs). destruct (HP i p Hp). rewrite Hs. split; assumption.
  - intros log []. split; auto; unfold openSum; cbn [c_producers]; rewrite Hopen; assumption.
Qed.

Lemma unlogged_ok c c' ev :
  (match ev with EvSubmit _ => False | _ => True end) ->
  (StoreOK c -> StoreOK c') /\ (forall log, LogOK log c -> LogOK log c') ->
  StoreOK c -> StoreOK c' /\ forall log, LogOK log c -> LogOK (log ++ logged ev c) c'.
Proof.
  intros Hev [H1 H2] Hok. split; [auto|]. intros log HL.
  destruct ev; try contradiction; cbn; rewrite app_nil_r; auto.
Qed.

Lemma Attach_ok id ph c r c' :
  Attach id ph c = (r, c') -> (StoreOK c -> StoreOK c') /\ (forall log, LogOK log c -> LogOK log c').
Proof.
  intros [[Hl _]|(_ & _ & i & p & _ & Hp & [Ha _] & ->)]%Attach_inv; [apply latched_ok, Hl|].
  eapply update_same_slots; eauto. intros HP. eapply ProducerOK_idle; eauto; apply HP. auto.
Qed.

Ltac idle_tac :=
  eapply idle_update; [eassumption|];
  intros p Hg; cbn in Hg |- *; repeat split; try tauto; try lia.

Lemma apply_ok ev c :
  typedEvent ev -> StoreOK c ->
  StoreOK (apply ev c) /\ forall log, LogOK log c -> LogOK (log ++ logged ev c) (apply ev c).
Proof.
  intros Hty Hok. destruct ev as [|id ph|r|s|e| |id ph| |id|id ph|id|a b ph| |config| |p o].
  3: { cbn [apply logged]. destruct (Submit r c) as [res c'] eqn:E. cbn [fst snd].
       apply Submit_inv in E as [[Hl [e ->]]|(pi & ci & ti & addT & txRows & _ & HA & [= -> ->])].
       - destruct (latched_ok _ _ Hl) as [H1 H2]. split; [auto|]. intros log HL. rewrite app_nil_r. auto.
       - apply (Submit_ok _ _ _ _ _ _ _ Hty HA Hok). }
  all: apply unlogged_ok; [exact I| |exact Hok]; cbn [apply];
    try match goal with |- context [snd (?m ?x)] => destruct (m x) as [r c'] eqn:E; cbn [snd] end.
  - unfold cancelCtx. destruct (c_ctx c); split; auto; intros log []; split; assumption.
  - eapply Attach_ok, E.
  - apply Settle_inv in E as [[Hl _]|(pi & ci & x & _ & Hp & Ha & Hc & Hx & _ & H0 & _ & ->)];
      [apply latched_ok, Hl|].
    destruct (Settle_ok _ _ _ _ Hp Hx H0 Ha Hc Hok) as [H1 H2].
    split; [intros _; exact H1|]. intros log [L1 L2 L3 L4 L5 L6].
    split; rewrite ?H2; auto.
  - apply latched_ok. eapply Fail_inv, E.
  - apply Fence_inv in E as [[Hl _]| ->]; [apply latched_ok, Hl|]. split; auto. intros log []; split; assumption.
  - apply Checkpoint_inv in E as [[Hl _]|(_ & -> & Hu)]; [apply latched_ok, Hl|]. idle_tac.
  - apply Advance_inv in E as [[Hl _]|(_ & Hlt & Hb & _ & ->)]; [apply latched_ok, Hl|].
    apply Advance_ok; assumption.
  - apply Close_inv in E as [[Hl _]|Hu]; [apply latched_ok, Hl|]. idle_tac.
  - apply armTerminalEOF_inv in E as [[Hl _]|(-> & Hu)]; [apply latched_ok, Hl|]. idle_tac.
    intros _ _. pose proof (curPhase_pos c Hok). lia.
  - apply acceptTerminalEOF_inv in E as [[Hl _]|Hu]; [apply latched_ok, Hl|]. idle_tac.
    intros _ _. destruct Hg as (_ & -> & _). pose proof (curPhase_pos c Hok). lia.
  - apply reopen_inv in E as [[Hl _]|(_ & ->)]; [apply latched_ok, Hl|]. split; auto.
    intros log []; split; assumption.
  - apply latched_ok. pose proof (Snapshot_state c) as H. rewrite E in H. exact H.
  - apply reconfigured_ok. eapply wireConfiguration_inv, E.
  - apply latched_ok. eapply wirePhase_state, E.
  - apply latched_ok. eapply wireSubmission_state, E.
Qed.

(** Every controller a run reaches satisfies both invariants. *)
Lemma runs_ok config log c :
  typedConfig config -> runs config log c -> StoreOK c /\ LogOK log c.
Proof.
  intros Hty H. induction H as [ctx c HN|log c ev _ [IH1 IH2] Hev].
  - eapply New_ok; eassumption.
  - destruct (apply_ok ev c Hev IH1) as [H1 H2]. auto.
Qed.
