(* ===== verification/StoreTheorems.v ===== *)
(** * What the store-accounting controller guarantees

    The theorems about [internal/storeaccounting/controller.go] and the budget
    of [wire.go]: exact accounting, the global submission bound, phases that
    never share a transaction, the sticky first error, and settlement. *)
From S2P Require Import Prelude Bytes StoreAccounting StoreWire StoreSteps StoreSlots StoreInvariant.

(** ** Lemmas *)
Lemma updates_phases c id g f c' : updates c id g f c' -> c_phases c' = c_phases c.
Proof. intros (i & p & _ & _ & _ & ->). reflexivity. Qed.

Lemma latched_phases c c' : latched c c' -> c_phases c' = c_phases c.
Proof. intros [e ->]. reflexivity. Qed.

Lemma apply_phases ev c : c_phases (apply ev c) = c_phases c.
Proof.
  destruct ev as [|id ph|r|s|e| |id ph| |id|id ph|id|a b ph| |config| |p o]; cbn [apply];
    try match goal with |- context [snd (?m ?x)] => destruct (m x) as [res c'] eqn:E; cbn [snd] end.
  - unfold cancelCtx. destruct (c_ctx c); reflexivity.
  - apply Attach_inv in E as [[? _]|(_ & _ & ?)]; eauto using latched_phases, updates_phases.
  - apply Submit_inv in E as [[? _]|(? & ? & ? & ? & ? & _ & _ & [= _ ->])]; eauto using latched_phases.
  - apply Settle_inv in E as [[? _]|(? & ? & ? & _ & _ & _ & _ & _ & _ & _ & _ & ->)]; eauto using latched_phases.
  - apply Fail_inv in E as [? _]; eauto using latched_phases.
  - apply Fence_inv in E as [[? _]| ->]; eauto using latched_phases.
  - apply Checkpoint_inv in E as [[? _]|(_ & _ & ?)]; eauto using latched_phases, updates_phases.
  - apply Advance_inv in E as [[? _]|(_ & _ & _ & _ & ->)]; eauto using latched_phases.
  - apply Close_inv in E as [[? _]|?]; eauto using latched_phases, updates_phases.
  - apply armTerminalEOF_inv in E as [[? _]|(_ & ?)]; eauto using latched_phases, updates_phases.
  - apply acceptTerminalEOF_inv in E as [[? _]|?]; eauto using latched_phases, updates_phases.
  - apply reopen_inv in E as [[? _]|(_ & ->)]; eauto using latched_phases.
  - apply latched_phases. pose proof (Snapshot_state c) as H. rewrite E in H. exact H.
  - apply wireConfiguration_inv in E as (? & ? & ? & _ & ->). reflexivity.
  - apply wirePhase_state in E. eauto using latched_phases.
  - apply wireSubmission_state in E. eauto using latched_phases.
Qed.

Lemma runs_phases config log c : runs config log c -> c_phases c = cf_Phases config.
Proof.
  induction 1 as [ctx c HN|log c ev _ IH _]; [|rewrite apply_phases; exact IH].
  unfold New in HN. destruct (_ || _); [discriminate|].
  destruct (newProducers _ _); [|discriminate]. destruct (newPhases _ _ _ _); [|discriminate].
  injection HN as <-. reflexivity.
Qed.

Lemma openSum_nonneg c : 0 <= openSum (fun _ => 1) c.
Proof.
  unfold openSum. apply zsum_nonneg. intros x (p & -> & _)%list_elem_of_fmap.
  unfold openIn, openWeight. apply zsum_nonneg. intros x (t & tx & -> & _)%elem_of_lookup_imap.
  destruct (isOpen _ _ _); lia.
Qed.

Lemma zsum_imap_le {A} k (f g : nat -> A -> Z) l :
  (forall i x, l !! i = Some x -> f i x <= k * g i x) ->
  zsum (imap f l) <= k * zsum (imap g l).
Proof.
  revert f g; induction l as [|x l IH]; intros f g H; [cbn; lia|]. rewrite !imap_cons. cbn [zsum].
  pose proof (H 0%nat x eq_refl). specialize (IH (f ∘ S) (g ∘ S)).
  assert (zsum (imap (f ∘ S) l) <= k * zsum (imap (g ∘ S) l)); [|lia].
  apply IH. intros i y Hi. apply (H (S i) y Hi).
Qed.

Lemma openSum_rows c : StoreOK c -> openSum tx_rows c <= 512 * openSum (fun _ => 1) c.
Proof.
  intros (_ & _ & HP). unfold openSum. 
  assert (forall l, (forall p, p ∈ l -> openIn tx_rows p <= 512 * openIn (fun _ => 1) p) ->
    zsum (openIn tx_rows <$> l) <= 512 * zsum (openIn (fun _ => 1) <$> l)) as Hl.
  { induction l as [|p l IH]; intros H; [cbn; lia|]. rewrite !fmap_cons. cbn [zsum].
    assert (openIn tx_rows p <= 512 * openIn (fun _ => 1) p) by (apply H; left).
    assert (zsum (openIn tx_rows <$> l) <= 512 * zsum (openIn (fun _ => 1) <$> l)); [|lia].
    apply IH. intros q Hq. apply H. by right. }
  apply Hl. intros p [i Hi]%list_elem_of_lookup. specialize (HP i p Hi).
  pose proof (so_tx _ _ _ (pk_slots _ _ _ HP)) as Htx. unfold openIn, openWeight.
  apply zsum_imap_le. intros t tx Hl'. specialize (Htx t tx Hl').
  unfold MaximumRows in Htx. destruct (isOpen _ _ _); lia.
Qed.

(** The log is its starts, its terminals and its appends. *)
Lemma length_by_kind (log : list Kind) :
  Forall (fun k => ImplicitWrite <= k <= Cancel) log ->
  Z.of_nat (length log) = tally isStart log + tally isTerminal log + tally (Z.eqb Append) log /\
  tally (Z.eqb Begin) log <= tally isStart log.
Proof.
  induction 1 as [|k log Hk _ [IH1 IH2]]; [cbn; lia|].
  unfold tally in *. rewrite !fmap_cons. cbn [zsum length].
  unfold isStart, isTerminal, ImplicitWrite, Begin, Append, Commit, Cancel in *.
  destruct (Z.eqb_spec k 2), (Z.eqb_spec k 1), (Z.eqb_spec k 4), (Z.eqb_spec k 5), (Z.eqb_spec 3 k),
    (Z.eqb_spec 2 k); cbn [orb]; lia.
Qed.

Lemma filter_insert_length {A} (f : A -> bool) l i x y :
  l !! i = Some x ->
  Z.of_nat (length (List.filter f (<[i := y]> l))) =
  Z.of_nat (length (List.filter f l)) - (if f x then 1 else 0) + (if f y then 1 else 0).
Proof.
  revert i; induction l as [|z l IH]; intros [|i] H; try discriminate.
  - injection H as ->. cbn. destruct (f x), (f y); cbn [length]; lia.
  - change (<[S i := y]> (z :: l)) with (z :: <[i := y]> l). cbn [List.filter].
    specialize (IH i H). destruct (f z); cbn [length]; lia.
Qed.

(** ** The theorems *)

(** C1: in every state a run reaches, each phase is charged within its own
    budget, the totals are the sums over the phases, and the counters are
    exactly those of the accepted log: no counter has wrapped. *)
Theorem store_accounting_exact config log c :
  typedConfig config -> runs config log c ->
  (forall i ph n, cf_Phases config !! i = Some ph -> c_counts c !! i = Some n ->
     pc_Phase n = ph_ID ph /\ 0 <= pc_Transactions n <= ph_Transactions ph /\
     0 <= pc_Rows n <= ph_Rows ph /\ 0 <= pc_MaximumRows n <= MaximumRows) /\
  (forall i n, (c_phase c < i)%nat -> c_counts c !! i = Some n ->
     pc_Transactions n = 0 /\ pc_Rows n = 0) /\
  c_transactions c = zsum (pc_Transactions <$> c_counts c) /\
  c_rows c = zsum (pc_Rows <$> c_counts c) /\
  c_ordinal c = Z.of_nat (length log) /\
  c_transactions c = tally isStart log.
Proof.
  intros Hty Hr. destruct (runs_ok _ _ _ Hty Hr) as [(HB & _) HL].
  rewrite <- (runs_phases _ _ _ Hr).
  destruct HB as [_ _ _ _ Hcounts Hfuture HT HR _ _ _], HL as [HO HS _ _ _ _].
  split; [exact Hcounts|]. split; [|auto].
  intros i n Hi Hn. destruct (Hfuture i n Hi Hn) as (? & ? & _). auto.
Qed.

(** C9: a controller accepts at most [2 T + min(R, 512 T)] submissions, and
    the two frame pairs each of them needs always fit the global wire budget. *)
Theorem submission_bound config log c checkpoints producers budget :
  typedConfig config -> runs config log c ->
  0 <= checkpoints <= MaxUint64 -> 0 <= producers <= MaxUint64 ->
  let T := zsum (ph_Transactions <$> cf_Phases config) in
  let R := zsum (ph_Rows <$> cf_Phases config) in
  wireBudget T R checkpoints producers = Ok budget ->
  Z.of_nat (length log) <= 2 * T + Z.min R (MaximumRows * T) /\
  pairBytes * (2 * Z.of_nat (length log) + checkpoints + 4 * producers) <= budget.
Proof.
  intros Hty Hr Hc Hp T R HB. pose proof (runs_ok _ _ _ Hty Hr) as [Hok HL].
  pose proof (totals_bounded c Hok) as Htot. rewrite (runs_phases _ _ _ Hr) in Htot.
  fold T R in Htot. pose proof (openSum_rows c Hok). pose proof (openSum_nonneg c).
  pose proof Hok as ([_ _ _ _ _ _ _ _ _ HT HR] & _). rewrite (runs_phases _ _ _ Hr) in HT, HR.
  fold T in HT. fold R in HR. destruct HL as [_ HS HO Hrows Happ Hk].
  destruct (length_by_kind log Hk). unfold MaximumRows.
  rewrite wireBudget_spec in HB by lia. unfold MaximumRows in HB.
  destruct (Z.leb_spec (pairBytes * (2 * (2 * T + Z.min R (512 * T)) + checkpoints + 4 * producers))
    MaxUint64); [|discriminate]. injection HB as <-.
  clearbody T R.
  assert (Z.of_nat (length log) <= 2 * T + Z.min R (512 * T)) by lia.
  split; [assumption|]. change pairBytes with 128. lia.
Qed.

(** When [Advance] succeeds no producer holds a call or a transaction, so
    no submission is settled in another phase than its own; the successor
    phase starts unfenced with untouched counters. *)
Theorem advance_is_quiescent config c c' :
  typedConfig config -> reachable config c -> Advance c = (Ok tt, c') ->
  Forall (fun p => busy p = false) (c_producers c') /\
  c_producers c' = c_producers c /\ c_phase c' = S (c_phase c) /\ c_fenced c' = false /\
  ph_ID (curPhase c) < ph_ID (curPhase c') /\
  pc_Transactions (curCount c') = 0 /\ pc_Rows (curCount c') = 0.
Proof.
  intros Hty [log Hr] HA. destruct (runs_ok _ _ _ Hty Hr) as [Hok _].
  apply Advance_inv in HA as [[_ [e He]]|(_ & Hlt & Hb & _ & ->)]; [discriminate|].
  destruct (Advance_ok c Hlt Hb) as [Hok' _]. specialize (Hok' Hok).
  set (c' := c <| c_phase ::= S |> <| c_fenced := false |>) in *.
  pose proof (curPhase_lookup _ Hok) as H1. pose proof (curPhase_lookup _ Hok') as H2.
  pose proof (curCount_lookup _ Hok') as H3. pose proof Hok as (HB & _ & HP).
  split; [|split; [reflexivity|split; [reflexivity|split; [reflexivity|]]]].
  - apply Forall_lookup_2. intros i p Hp. change (c_producers c') with (c_producers c) in Hp.
    specialize (HP i p Hp). specialize (Hb i p Hp). apply (pk_idle _ _ _ HP).
    pose proof (pk_eof _ _ _ HP) as He. unfold blocksAdvance in Hb.
    destruct (ps_attached p), (ps_closed p), (ps_terminalEOF p); auto 6.
    cbn in Hb. bsplit. auto.
  - split; [exact (bo_ids _ _ _ _ _ _ HB _ _ _ _ H1 H2 ltac:(cbn; lia))|].
    change (c_counts c') with (c_counts c) in H3.
    pose proof (bo_future _ _ _ _ _ _ HB (c_phase c') _ ltac:(cbn; lia) H3). tauto.
Qed.

(** ** Errors *)

(** A failing operation either reports [ErrBusy] and changes nothing, or its
    error is the one now latched and nothing else has changed. *)
Definition failsAtomically {A} (m : op A) : Prop :=
  forall c e c', c_ctx c <> CtxNil -> m c = (Err e, c') ->
    (e = ErrBusy /\ c' = c) \/ c' = c <| c_err := Some e |>.

Lemma fails_failLocked {A} e : failsAtomically (@failLocked A e).
Proof.
  intros c e' c' _ H. unfold failLocked in H. right.
  destruct (c_err c) eqn:E; injection H as <- <-; [|reflexivity]. rewrite <- E. destruct c; reflexivity.
Qed.
Lemma fails_busy {A} : failsAtomically (throw (A := A) ErrBusy).
Proof. intros c e' c' _ [= <- <-]. auto. Qed.
Lemma fails_modify f : failsAtomically (modify f).
Proof. intros c e c' _ H. discriminate. Qed.
Lemma fails_get {A} (k : Controller -> op A) :
  (forall s, failsAtomically (k s)) -> failsAtomically (bind get k).
Proof. intros H c e c' Hc E. apply (H c c e c' Hc E). Qed.
Lemma fails_checked {A} (k : op A) :
  failsAtomically k -> failsAtomically (bind checkLocked (fun _ => k)).
Proof.
  intros Hk c e c' Hc. unfold bind, checkLocked.
  destruct (c_ctx c) eqn:Ec; [contradiction|..]; destruct (c_err c) eqn:Ee;
    try (intros [= <- <-]; right; rewrite <- Ee; destruct c; reflexivity).
  - apply Hk. congruence.
  - unfold failLocked. rewrite Ee. intros [= <- <-]. auto.
Qed.
Lemma fails_accept {A} (a : A) s : failsAtomically (put s ;; ret a).
Proof. intros c e s' _ H. discriminate. Qed.

Create HintDb store_fails.
#[export] Hint Resolve fails_failLocked fails_busy fails_modify fails_accept : store_fails.
Ltac fails :=
  first [apply fails_checked | idtac]; try (apply fails_get; intros ?);
  repeat match goal with
  | |- failsAtomically (match ?x with _ => _ end) => destruct x
  end; auto with store_fails.

(** A call that fails leaves the reducer exactly as it was, except that
    its error becomes the latched one; only the retryable [ErrBusy] of
    [Checkpoint], [Advance] and [Close] is not latched. *)
Theorem operations_fail_atomically :
  (forall producer phase, failsAtomically (Attach producer phase)) /\
  (forall r, failsAtomically (Submit r)) /\ (forall s, failsAtomically (Settle s)) /\
  (forall producer phase, failsAtomically (Checkpoint producer phase)) /\
  failsAtomically Advance /\ failsAtomically Fence /\
  (forall producer, failsAtomically (Close producer)) /\
  (forall producer, failsAtomically (acceptTerminalEOF producer)) /\
  (forall a b phase, failsAtomically (reopenAfterTerminalEOF a b phase)).
Proof.
  repeat split; intros; unfold Attach, Submit, Settle, Checkpoint, Advance, Fence, Close,
    acceptTerminalEOF, reopenAfterTerminalEOF; fails.
  unfold admitBudget. fails.
Qed.

Definition applyAll (evs : list event) (c : Controller) : Controller :=
  fold_left (fun c ev => apply ev c) evs c.

Lemma checked_latched {A} (k : op A) c e :
  c_ctx c <> CtxNil -> c_err c = Some e -> bind checkLocked (fun _ => k) c = (Err e, c).
Proof.
  intros Hc He. unfold bind, checkLocked. destruct (c_ctx c); [contradiction|..]; rewrite He; reflexivity.
Qed.

Lemma apply_latched ev c e :
  c_ctx c <> CtxNil -> c_err c = Some e -> apply ev c = c \/ apply ev c = cancelCtx c.
Proof.
  intros Hc He. destruct ev; cbn [apply]; auto; left;
    try (unfold Attach, Submit, Settle, Fail, Fence, Checkpoint, Advance, Close,
      armTerminalEOF, acceptTerminalEOF, reopenAfterTerminalEOF, wirePhase, wireSubmission;
      rewrite (checked_latched _ _ _ Hc He); reflexivity).
  - unfold Snapshot, checkLocked. destruct (c_ctx c); [contradiction|..]; rewrite He; reflexivity.
  - unfold wireConfiguration, checkLocked. destruct (_ || _); [reflexivity|].
    destruct (c_ctx c); [contradiction|..]; rewrite He; reflexivity.
Qed.

(** The first latched error is final: whatever is called afterwards, in
    any order, counters, slots and phase stay as they were and every
    operation reports that same error, the snapshot beside its prefix. *)
Theorem first_error_is_final c e evs :
  c_ctx c <> CtxNil -> c_err c = Some e ->
  let c' := applyAll evs c in
  (c' = c \/ c' = cancelCtx c) /\
  (forall r, Submit r c' = (Err e, c')) /\ (forall s, Settle s c' = (Err e, c')) /\
  (forall producer phase, Checkpoint producer phase c' = (Err e, c')) /\
  Advance c' = (Err e, c') /\ (forall reason, Fail reason c' = (Err e, c')) /\
  snd (fst (Snapshot c')) = Some e /\ sn_Complete (fst (fst (Snapshot c'))) = false.
Proof.
  intros Hc He c'.
  assert (Hcc : cancelCtx (cancelCtx c) = cancelCtx c).
  { unfold cancelCtx at 2 3. destruct (c_ctx c) eqn:E; unfold cancelCtx; rewrite ?E; reflexivity. }
  assert (Hx : c_ctx (cancelCtx c) <> CtxNil /\ c_err (cancelCtx c) = Some e).
  { unfold cancelCtx. destruct (c_ctx c) eqn:E; auto; split; rewrite ?E; cbn; auto; discriminate. }
  assert (Hs : forall evs d, d = c \/ d = cancelCtx c -> applyAll evs d = c \/ applyAll evs d = cancelCtx c).
  { induction evs0 as [|ev evs0 IH]; intros d Hd; [exact Hd|]. apply IH.
    destruct Hd as [-> | ->].
    - apply (apply_latched ev c e Hc He).
    - destruct (apply_latched ev _ e (proj1 Hx) (proj2 Hx)) as [-> | ->]; auto. }
  specialize (Hs evs c (or_introl eq_refl)). fold c' in Hs. split; [exact Hs|].
  assert (c_ctx c' <> CtxNil /\ c_err c' = Some e) as [Hn Hl].
  { destruct Hs as [-> | ->]; auto. }
  unfold Submit, Settle, Checkpoint, Advance, Fail.
  repeat split; intros; try (apply checked_latched; assumption).
  all: unfold Snapshot, checkLocked; destruct (c_ctx c'); [contradiction|..]; rewrite Hl; reflexivity.
Qed.

(** ** Settlement *)
Lemma Submit_live r c s c' :
  Submit r c = (Ok s, c') -> c_err c = None /\ c_ctx c = CtxLive.
Proof.
  unfold Submit. intros H. apply checked_inv in H as [[_ [e He]]|(? & ? & _)]; [discriminate|auto].
Qed.

Lemma findIndex_insert {A} (f : A -> bool) l i x y :
  l !! i = Some x -> f y = f x -> findIndex f (<[i := y]> l) = findIndex f l.
Proof.
  revert i; induction l as [|z l IH]; intros [|i] H Hf; try discriminate.
  - injection H as ->. cbn. rewrite Hf. reflexivity.
  - change (<[S i := y]> (z :: l)) with (z :: <[i := y]> l). cbn. rewrite (IH i H Hf). reflexivity.
Qed.

Lemma producerLocked_set c i p p' id :
  c_producers c !! i = Some p -> ps_config p' = ps_config p ->
  producerLocked id (setProducer i p' c) = producerLocked id c.
Proof.
  intros Hp Hc. unfold producerLocked. cbn. eapply findIndex_insert; [eassumption|].
  cbn. rewrite Hc. reflexivity.
Qed.

Lemma producerAt_set c i p p' :
  c_producers c !! i = Some p -> producerAt (setProducer i p' c) i = p'.
Proof.
  intros Hp. unfold producerAt. cbn. rewrite nth_lookup, list_lookup_insert_eq; [reflexivity|].
  eapply lookup_lt_Some; eassumption.
Qed.

(** The settlement of a live call whose descriptor names its transaction. *)
Lemma Settle_found c s pi p ci x :
  c_err c = None -> c_ctx c = CtxLive ->
  producerLocked (sb_Producer s) c = Some pi -> c_producers c !! pi = Some p ->
  ps_attached p = true -> ps_closed p = false -> sb_Ordinal s <> 0 ->
  ps_calls p !! ci = Some x -> ca_ordinal x = sb_Ordinal s ->
  (forall j y, ps_calls p !! j = Some y -> ca_ordinal y = sb_Ordinal s -> j = ci) ->
  sb_Transaction s = match ca_transaction x with
                     | Some t => tx_ordinal (transactionAt p t)
                     | None => 0
                     end ->
  Settle s c =
    (Ok tt, setProducer pi
       (p <| ps_transactions :=
               match ca_transaction x with
               | Some t =>
                   if (ca_kind x =? Commit) || (ca_kind x =? Cancel)
                   then <[t := noTransaction]> (ps_transactions p)
                   else <[t := (transactionAt p t) <| tx_busy := false |>]> (ps_transactions p)
               | None => ps_transactions p
               end |>
          <| ps_calls ::= fun l => <[ci := noCall]> l |>) c).
Proof.
  intros He Hc Hl Hp Ha Hcl H0 Hx Ho Hu Hs. unfold Settle, bind, checkLocked, get.
  rewrite Hc, He, Hl. assert (producerAt c pi = p) as -> by (unfold producerAt; rewrite nth_lookup, Hp; reflexivity).
  rewrite Ha, Hcl, (proj2 (Z.eqb_neq _ _) H0). cbn [negb orb].
  rewrite (findIndex_unique _ _ ci x Hx).
  - rewrite (callAt_lookup _ _ _ Hx), Hs, Z.eqb_refl. reflexivity.
  - apply Z.eqb_eq, Ho.
  - intros j y Hy Hf. bsplit. eauto.
Qed.

Definition liveTransactions (p : producerState) : Z := pn_Transactions (producerRow p).
Definition liveCalls (p : producerState) : Z := pn_Calls (producerRow p).

(** The ordinal a submission names is that of the slot it holds. *)
Lemma submitted_transaction r p ti addT txRows ord :
  badDescriptor r = false -> kindCase r p ti addT txRows ->
  (if rq_Kind r =? Begin then ord + 1 else rq_Transaction r)
  = match ti with
    | Some t => tx_ordinal (nth t (submittedTxs r p ti (ord + 1) txRows) noTransaction)
    | None => 0
    end.
Proof.
  intros Hd Hk. unfold submittedTxs.
  destruct Hk as [(K & -> & _)|[(K & _ & _ & _ & t & tx & -> & Htx & _)
    |[(K & _ & _ & t & tx & -> & Htx & _ & Ho & _)|(K & _ & _ & _ & t & tx & -> & Htx & _ & Ho & _)]]].
  - rewrite K. unfold badDescriptor in Hd. rewrite K in Hd. cbn in Hd |- *. bsplit. assumption.
  - rewrite K. cbn. rewrite nth_lookup, list_lookup_insert_eq; [reflexivity|].
    eapply lookup_lt_Some; eassumption.
  - rewrite K, (transactionAt_lookup _ _ _ Htx). cbn.
    rewrite nth_lookup, list_lookup_insert_eq; [cbn; congruence|]. eapply lookup_lt_Some; eassumption.
  - rewrite (transactionAt_lookup _ _ _ Htx).
    destruct K as [K|K]; rewrite K; cbn; (rewrite nth_lookup, list_lookup_insert_eq;
      [cbn; congruence|eapply lookup_lt_Some; eassumption]).
Qed.

(** The live transactions after an accepted call has also been settled. *)
Lemma settled_transactions r p ti ord txRows :
  SlotsOK ord (ps_calls p) (ps_transactions p) -> slotEffect r p ti ord txRows ->
  let txs := submittedTxs r p ti (ord + 1) txRows in
  Z.of_nat (length (List.filter (fun t => negb (tx_ordinal t =? 0))
    (match ti with
     | Some t =>
         if (rq_Kind r =? Commit) || (rq_Kind r =? Cancel)
         then <[t := noTransaction]> txs
         else <[t := (nth t txs noTransaction) <| tx_busy := false |>]> txs
     | None => txs
     end)))
  = liveTransactions p + (if rq_Kind r =? Begin then 1
                          else if isTerminal (rq_Kind r) then -1 else 0).
Proof.
  intros HS He txs. subst txs. unfold liveTransactions. cbn [producerRow pn_Transactions].
  destruct He as [(-> & -> & -> & _)|(t & tx & tx' & -> & Htx & K & -> & _ & _ & _ & Hc)]; [cbn; lia|].
  pose proof (lookup_lt_Some _ _ _ Htx) as Hlt.
  rewrite nth_lookup, (list_lookup_insert_eq _ _ _ Hlt), !list_insert_insert_eq.
  fold (isTerminal (rq_Kind r)). pose proof (so_ord _ _ _ HS) as Hso.
  pose proof (so_tx _ _ _ HS _ _ Htx) as Hsx.
  destruct Hc as [(Hk & H0 & H1 & _)|(Hk & H0 & _ & H1 & _)].
  - rewrite Hk. cbn -[List.filter]. rewrite (filter_insert_length _ _ _ _ _ Htx). cbn -[Z.eqb List.filter].
    rewrite H0, H1. cbn -[Z.eqb List.filter]. rewrite (proj2 (Z.eqb_neq (ord + 1) 0)) by lia. cbn. lia.
  - rewrite (proj2 (Z.eqb_neq _ _) Hk). destruct (isTerminal _);
      rewrite (filter_insert_length _ _ _ _ _ Htx); cbn -[Z.eqb List.filter];
      rewrite ?H1, (proj2 (Z.eqb_neq _ _) H0); cbn; lia.
Qed.

(** Every accepted submission can be settled with the descriptor [Submit]
    returned: settlement frees its call slot, keeps a [Begin] or [Append]
    transaction open, frees a committed or cancelled one, and refunds
    nothing. *)
Theorem accepted_submission_settles config log c r s c1 :
  typedConfig config -> runs config log c -> 0 <= rq_Rows r <= MaxUint64 ->
  Submit r c = (Ok s, c1) ->
  exists pi c2, producerLocked (rq_Producer r) c = Some pi /\ Settle s c1 = (Ok tt, c2) /\
    c_counts c2 = c_counts c1 /\ c_transactions c2 = c_transactions c1 /\
    c_rows c2 = c_rows c1 /\ c_ordinal c2 = c_ordinal c + 1 /\
    liveCalls (producerAt c1 pi) = liveCalls (producerAt c pi) + 1 /\
    liveCalls (producerAt c2 pi) = liveCalls (producerAt c pi) /\
    liveTransactions (producerAt c2 pi) = liveTransactions (producerAt c pi) +
      (if rq_Kind r =? Begin then 1 else if isTerminal (rq_Kind r) then -1 else 0).
Proof.
  intros Hty Hr Hrr HS. destruct (runs_ok _ _ _ Hty Hr) as [(HB & Hord & HP) _].
  destruct (Submit_live _ _ _ _ HS) as [Hlive Hctx].
  apply Submit_inv in HS as [[_ [e He]]|(pi & ci & ti & addT & txRows & Hpl & HA & HS)]; [discriminate|].
  destruct HA as [Apr Aid Aatt Aopen Aterm Aph Acp Afence (x & Hx & H0) Aord Akind Arows AT AR Ades].
  set (p := producerAt c pi) in *. pose proof (HP _ _ Apr) as [HSl _ _ _].
  set (p' := submittedProducer r p ti (c_ordinal c) txRows ci).
  assert (Hc1 : c1 = snd (acceptSubmission r pi ci ti addT txRows c) /\
    s = mkSubmission (rq_Producer r) (c_ordinal c + 1)
          (if rq_Kind r =? Begin then c_ordinal c + 1 else rq_Transaction r) /\
    c_producers c1 = <[pi := p']> (c_producers c) /\ c_ordinal c1 = c_ordinal c + 1 /\
    c_err c1 = c_err c /\ c_ctx c1 = c_ctx c).
  { injection HS as -> ->. unfold acceptSubmission. fold p. rewrite u64_small by lia.
    repeat split. }
  destruct Hc1 as (_ & -> & Hps & Hc1o & Hc1e & Hc1c). clear HS.
  pose proof (submitted_slots r p ti addT txRows (c_ordinal c) HSl (proj1 Hrr) Arows Akind) as Heff.
  assert (Hpi : c_producers c1 !! pi = Some p').
  { rewrite Hps, list_lookup_insert_eq; [reflexivity|eapply lookup_lt_Some; eassumption]. }
  assert (Hp1 : producerAt c1 pi = p') by (unfold producerAt; rewrite nth_lookup, Hpi; reflexivity).
  pose proof (lookup_lt_Some _ _ _ Hx) as Hci.
  eexists pi, _. split; [exact Hpl|]. split.
  { eapply (Settle_found _ _ pi p' ci (mkCall (c_ordinal c + 1) (rq_Kind r) ti)); cbn -[submittedTxs];
      try congruence; try lia.
    - unfold producerLocked in *. rewrite Hps. erewrite findIndex_insert; eauto.
    - rewrite list_lookup_insert_eq; auto.
    - intros j y Hy Ho. destruct (lookup_insert_cases _ _ _ _ _ _ Hx Hy) as [[-> _]|[_ Hy']]; [reflexivity|].
      pose proof (so_call_ord _ _ _ HSl _ _ Hy'). lia.
    - apply (submitted_transaction r p ti addT txRows); assumption. }
  split; [reflexivity|]. split; [reflexivity|]. split; [reflexivity|]. split; [exact Hc1o|].
  rewrite Hp1, (producerAt_set _ _ _ _ Hpi).
  fold p. unfold liveCalls. cbn -[submittedTxs List.filter].
  rewrite list_insert_insert_eq, !(filter_insert_length _ _ _ _ _ Hx). cbn -[Z.eqb List.filter].
  rewrite H0, (proj2 (Z.eqb_neq (c_ordinal c + 1) 0)) by lia. cbn -[List.filter].
  split; [lia|]. split; [lia|]. apply (settled_transactions r p ti _ txRows HSl Heff).
Qed.

(** ** Witnesses *)
Fixpoint execute (evs : list event) (log : list Kind) (c : Controller) : list Kind * Controller :=
  match evs with
  | [] => (log, c)
  | ev :: evs' => execute evs' (log ++ logged ev c) (apply ev c)
  end.

Lemma execute_runs config evs log c :
  runs config log c -> Forall typedEvent evs ->
  runs config (fst (execute evs log c)) (snd (execute evs log c)).
Proof.
  intros Hr Hev. revert log c Hr; induction Hev as [|ev evs He _ IH]; intros log c Hr; [exact Hr|].
  apply IH, runs_step; assumption.
Qed.

Definition sampleConfig : Config :=
  mkConfig [mkProducer 1 2 2; mkProducer 2 1 1] [mkPhase 1 2 10; mkPhase 3 1 5].
Definition sampleNew : Controller :=
  match New CtxLive sampleConfig with Ok c => c | Err _ => mkController CtxNil 0 [] [] [] 0 false 0 0 0 None false end.
Definition sampleTransaction : list event :=
  [EvAttach 1 1; EvSubmit (mkRequest 1 1 Begin 0 0); EvSettle (mkSubmission 1 1 1);
   EvSubmit (mkRequest 1 1 Append 1 4); EvSettle (mkSubmission 1 2 1);
   EvSubmit (mkRequest 1 1 Commit 1 0); EvSettle (mkSubmission 1 3 1)].
Definition sampleFenced : list event := sampleTransaction ++ [EvFence; EvCheckpoint 1 1].
Definition sampleState (evs : list event) : Controller := snd (execute evs [] sampleNew).

Lemma sampleConfig_typed : typedConfig sampleConfig.
Proof.
  unfold typedConfig, MaxUint64. repeat (apply Forall_cons; split); try apply Forall_nil; cbn; lia.
Qed.

Lemma sample_runs evs :
  Forall typedEvent evs -> runs sampleConfig (fst (execute evs [] sampleNew)) (sampleState evs).
Proof. intros H. apply execute_runs; [|exact H]. apply (runs_new _ CtxLive). reflexivity. Qed.

Lemma sampleFenced_typed : Forall typedEvent sampleFenced.
Proof.
  repeat (apply Forall_cons; split); try apply Forall_nil; cbn; try exact I; unfold MaxUint64; lia.
Qed.

Lemma store_accounting_exact_witness :
  c_transactions (sampleState sampleFenced) = 1 /\
  c_rows (sampleState sampleFenced) = zsum (pc_Rows <$> c_counts (sampleState sampleFenced)).
Proof.
  split; [vm_compute; reflexivity|].
  destruct (store_accounting_exact _ _ _ sampleConfig_typed (sample_runs _ sampleFenced_typed))
    as (_ & _ & _ & H & _). exact H.
Defined.

Lemma submission_bound_witness :
  wireBudget 3 15 3 2 = Ok 6784 /\
  pairBytes * (2 * Z.of_nat (length (fst (execute sampleFenced [] sampleNew))) + 3 + 4 * 2) <= 6784.
Proof.
  split; [vm_compute; reflexivity|].
  destruct (submission_bound sampleConfig _ _ 3 2 6784 sampleConfig_typed (sample_runs _ sampleFenced_typed)
    ltac:(unfold MaxUint64; lia) ltac:(unfold MaxUint64; lia) ltac:(vm_compute; reflexivity)) as [_ H].
  exact H.
Defined.

Lemma advance_is_quiescent_witness :
  ph_ID (curPhase (snd (Advance (sampleState sampleFenced)))) = 3 /\
  Forall (fun p => busy p = false) (c_producers (snd (Advance (sampleState sampleFenced)))).
Proof.
  split; [vm_compute; reflexivity|].
  destruct (advance_is_quiescent sampleConfig (sampleState sampleFenced) _ sampleConfig_typed
    (ex_intro _ _ (sample_runs _ sampleFenced_typed)) ltac:(vm_compute; reflexivity)) as [H _].
  exact H.
Defined.

Lemma first_error_is_final_witness :
  let c := snd (Fail ErrLimit sampleNew) in
  c_err c = Some ErrLimit /\ Advance (applyAll sampleFenced c) = (Err ErrLimit, applyAll sampleFenced c).
Proof.
  intros c. split; [vm_compute; reflexivity|].
  destruct (first_error_is_final c ErrLimit sampleFenced ltac:(vm_compute; discriminate)
    ltac:(vm_compute; reflexivity)) as (_ & _ & _ & _ & H & _). exact H.
Defined.

Lemma accepted_submission_settles_witness :
  let c := sampleState [EvAttach 1 1] in
  let r := mkRequest 1 1 Begin 0 0 in
  exists c2, Settle (mkSubmission 1 1 1) (snd (Submit r c)) = (Ok tt, c2) /\ c_transactions c2 = 1.
Proof.
  intros c r.
  destruct (accepted_submission_settles sampleConfig _ c r (mkSubmission 1 1 1) (snd (Submit r c))
    sampleConfig_typed (sample_runs [EvAttach 1 1] ltac:(repeat constructor))
    ltac:(unfold MaxUint64; cbn; lia) ltac:(vm_compute; reflexivity)) as (pi & c2 & _ & H & _ & Ht & _).
  exists c2. split; [exact H|]. rewrite Ht. vm_compute. reflexivity.
Defined.
