(* ===== verification/DispatchAdmission.v ===== *)
(** * The dispatch-admission controller

    Model of [internal/dispatchadmission/controller.go], of the reducer
    methods and the frame codec of [transport.go], and of
    [RetireBackupEndpoint] in [backup_retirement.go].

    [c.producers], [p.sites] and [p.active] are finite maps; a producer is
    changed by inserting its new value under its key, which is what a write
    through the map's pointer does.  The cancelable context of the controller
    is the flag [c_done]; [failLocked] sets it with the first error.  The hash
    is a parameter of the operations that use it. *)
From S2P Require Import Prelude Bytes.

(** ** Errors, configuration and state *)
Inductive err :=
  | ErrConfig | ErrProtocol | ErrLimit | ErrTransport | ErrCanceled | ErrFenced
  | ErrBusy | ErrIncomplete | ErrPanic | errTerminating | ErrProductionBootstrap.

#[export] Instance err_eq_dec : EqDecision err.
Proof. solve_decision. Defined.

Record Site := mkSite { si_ID : Z; si_Role : Z; si_Persistent : bool }.
Record Producer := mkProducer { pr_ID : Z; pr_Binding : list Z; pr_Sites : list Site }.
Record RoleBudget := mkRoleBudget { rb_Role : Z; rb_Attempts : Z }.
Record Phase := mkPhase { ph_ID : Z; ph_Roles : list RoleBudget }.

Record Limits := mkLimits {
  li_Producers : Z;
  li_Sites : Z;
  li_Roles : Z;
  li_Phases : Z;
  li_ActivePerProducer : Z;
  li_Attempts : Z;
  li_WireBytes : Z;
  li_AckTimeout : Z
}.

Record Config := mkConfig {
  cf_Limits : Limits;
  cf_Producers : list Producer;
  cf_Phases : list Phase
}.

Record RoleCount := mkRoleCount { rc_Role : Z; rc_Attempts : Z }.
Record PhaseCount := mkPhaseCount { pc_Phase : Z; pc_Attempts : Z; pc_Roles : list RoleCount }.

Record ProducerCount := mkProducerCount {
  pn_Producer : Z;
  pn_Ordinal : Z;
  pn_Active : Z;
  pn_Checkpoint : Z;
  pn_Attached : bool;
  pn_Closed : bool
}.

Record Snapshot_ := mkSnapshot {
  sn_Attempts : Z;
  sn_Digest : list Z;
  sn_ReservedWireBytes : Z;
  sn_Phases : list PhaseCount;
  sn_Producers : list ProducerCount;
  sn_Complete : bool
}.

Record activeDispatch := mkActive { ad_persistent : bool; ad_carried : bool }.

Record producerState := mkProducerState {
  ps_binding : list Z;
  ps_sites : gmap Z Site;
  ps_ordinal : Z;
  ps_sequence : Z;
  ps_active : gmap Z activeDispatch;
  ps_checkpoint : Z;
  ps_attached : bool;
  ps_pid : Z;
  ps_eof : bool;
  ps_closed : bool;
  ps_hardDeath : bool;
  ps_backupRetired : bool
}.

Record Controller := mkController {
  c_done : bool;
  c_limits : Limits;
  c_producers : gmap Z producerState;
  c_producerOrder : list Z;
  c_phases : list Phase;
  c_counts : list PhaseCount;
  c_phase : nat;
  c_fenced : bool;
  c_attempts : Z;
  c_wireBytes : Z;
  c_digest : list Z;
  c_err : option err
}.

#[export] Instance eta_producerState : Eta producerState :=
  fun p => mkProducerState (ps_binding p) (ps_sites p) (ps_ordinal p) (ps_sequence p)
    (ps_active p) (ps_checkpoint p) (ps_attached p) (ps_pid p) (ps_eof p) (ps_closed p)
    (ps_hardDeath p) (ps_backupRetired p).
#[export] Instance eta_Controller : Eta Controller :=
  fun c => mkController (c_done c) (c_limits c) (c_producers c) (c_producerOrder c) (c_phases c)
    (c_counts c) (c_phase c) (c_fenced c) (c_attempts c) (c_wireBytes c) (c_digest c) (c_err c).

Definition op (A : Type) : Type := M Controller err A.

(** ** The wire frame *)
Definition FrameBytes : Z := 64.
Definition opAdmit : Z := 1.
Definition opSettle : Z := 2.
Definition opCarry : Z := 3.
Definition opCheckpoint : Z := 4.
Definition opClose : Z := 5.

Record frame := mkFrame {
  fr_op : Z;
  fr_phase : Z;
  fr_site : Z;
  fr_ordinal : Z;
  fr_sequence : Z;
  fr_binding : list Z
}.

Definition magicDA : list Z := ascii_bytes "DA01".

Definition encode (f : frame) : list Z :=
  magicDA ++ [fr_op f; 0; 0; 0] ++ be_put 4 (fr_phase f) ++ be_put 4 (fr_site f)
  ++ be_put 8 (fr_ordinal f) ++ be_put 8 (fr_sequence f) ++ fr_binding f.

Definition decode (raw : list Z) : res err frame :=
  let at_ i := nth i raw 0 in
  if negb (bytes_eqb (slice 0 4 raw) magicDA) || (at_ 4%nat <? opAdmit)
     || (opClose <? at_ 4%nat) || negb (at_ 5%nat =? 0) || negb (at_ 6%nat =? 0)
     || negb (at_ 7%nat =? 0)
  then Err ErrProtocol
  else Ok (mkFrame (at_ 4%nat) (be_get (slice 8 12 raw)) (be_get (slice 12 16 raw))
             (be_get (slice 16 24 raw)) (be_get (slice 24 32 raw)) (slice 32 64 raw)).

(** ** Construction *)
Definition zeroDigest : list Z := replicate 32 0.

Fixpoint newSites (sites : gmap Z Site) (roles : gset Z) (input : list Site)
    : res err (gmap Z Site * gset Z) :=
  match input with
  | [] => Ok (sites, roles)
  | s :: rest =>
      if (si_ID s =? 0) || (si_Role s =? 0)
         || match sites !! si_ID s with Some q => negb (si_ID q =? 0) | None => false end
      then Err ErrConfig
      else newSites (<[si_ID s := s]> sites) ({[si_Role s]} ∪ roles) rest
  end.

Record building := mkBuilding {
  bd_producers : gmap Z producerState;
  bd_order : list Z;
  bd_roles : gset Z;
  bd_bindings : list (list Z);
  bd_sites : Z
}.

Fixpoint newProducers (l : Limits) (b : building) (input : list Producer) : res err building :=
  match input with
  | [] => Ok b
  | p :: rest =>
      if (pr_ID p =? 0) || bytes_eqb (pr_Binding p) zeroDigest
         || existsb (bytes_eqb (pr_Binding p)) (bd_bindings b)
         || negb (is_nil (bd_producers b !! pr_ID p))
         || (Z.of_nat (length (pr_Sites p)) =? 0)
         || (li_Sites l - bd_sites b <? Z.of_nat (length (pr_Sites p)))
      then Err ErrConfig
      else match newSites ∅ (bd_roles b) (pr_Sites p) with
           | Err e => Err e
           | Ok (sites, roles) =>
               newProducers l
                 (mkBuilding
                    (<[pr_ID p := mkProducerState (pr_Binding p) sites 0 0 ∅ 0 false 0 false false
                                    false false]> (bd_producers b))
                    (bd_order b ++ [pr_ID p]) roles (pr_Binding p :: bd_bindings b)
                    (bd_sites b + Z.of_nat (length (pr_Sites p)))) rest
           end
  end.

Fixpoint checkRoles (l : Limits) (roles seen : gset Z) (input : list RoleBudget) : bool :=
  match input with
  | [] => true
  | r :: rest =>
      if negb (bool_decide (rb_Role r ∈ roles)) || bool_decide (rb_Role r ∈ seen)
         || (li_Attempts l <? rb_Attempts r)
      then false
      else checkRoles l roles ({[rb_Role r]} ∪ seen) rest
  end.

Fixpoint checkPhases (l : Limits) (roles ids : gset Z) (input : list Phase) : bool :=
  match input with
  | [] => true
  | p :: rest =>
      if (ph_ID p =? 0) || bool_decide (ph_ID p ∈ ids)
         || negb (Nat.eqb (length (ph_Roles p)) (size roles))
      then false
      else checkRoles l roles ∅ (ph_Roles p) && checkPhases l roles ({[ph_ID p]} ∪ ids) rest
  end.

Definition newCount (p : Phase) : PhaseCount :=
  mkPhaseCount (ph_ID p) 0 ((fun r => mkRoleCount (rb_Role r) 0) <$> ph_Roles p).

(** [ctxLive] is [ctx != nil && ctx.Err() == nil]. *)
Definition New (ctxLive : bool) (config : Config) : res err Controller :=
  let l := cf_Limits config in
  if negb ctxLive || (li_Producers l <? 1) || (li_Sites l <? 1) || (li_Roles l <? 1)
     || (li_Phases l <? 1) || (li_ActivePerProducer l <? 1) || (li_Attempts l =? 0)
     || (li_Attempts l =? MaxUint64) || (li_WireBytes l <? 2 * FrameBytes)
     || (li_AckTimeout l <=? 0)
     || (Z.of_nat (length (cf_Producers config)) =? 0)
     || (li_Producers l <? Z.of_nat (length (cf_Producers config)))
     || (Z.of_nat (length (cf_Phases config)) =? 0)
     || (li_Phases l <? Z.of_nat (length (cf_Phases config)))
  then Err ErrConfig
  else match newProducers l (mkBuilding ∅ [] ∅ [] 0) (cf_Producers config) with
  | Err e => Err e
  | Ok b =>
      if li_Roles l <? Z.of_nat (size (bd_roles b)) then Err ErrConfig
      else if negb (checkPhases l (bd_roles b) ∅ (cf_Phases config)) then Err ErrConfig
      else Ok (mkController false l (bd_producers b) (bd_order b) (cf_Phases config)
                 (newCount <$> cf_Phases config) 0 false 0 0 zeroDigest None)
  end.

(** ** Failure latch *)
Definition failLocked {A} (e : err) : op A := fun c =>
  match c_err c with
  | None => (Err e, c <| c_err := Some e |> <| c_done := true |>)
  | Some e0 => (Err e0, c)
  end.

Definition checkLocked : op unit := fun c =>
  match c_err c with
  | Some e => (Err e, c)
  | None => if c_done c then failLocked ErrCanceled c else (Ok tt, c)
  end.

Definition noPhase : Phase := mkPhase 0 [].
Definition noCount : PhaseCount := mkPhaseCount 0 0 [].
Definition curPhase (c : Controller) : Phase := nth (c_phase c) (c_phases c) noPhase.
Definition curCount (c : Controller) : PhaseCount := nth (c_phase c) (c_counts c) noCount.
Definition setProducer (id : Z) (p : producerState) (c : Controller) : Controller :=
  c <| c_producers ::= insert id p |>.

(** Some active dispatch passes the test ([range p.active]). *)
Definition anyActive (f : activeDispatch -> bool) (p : producerState) : bool :=
  existsb (fun kv => f kv.2) (map_to_list (ps_active p)).
Definition notCarried (a : activeDispatch) : bool := negb (ad_persistent a) || negb (ad_carried a).

(** ** Phases and lifetimes *)

(** [c.fail]: the failure an owner reports from outside the reducer. *)
Definition fail (e : err) : op unit := failLocked e.

Definition Fence : op unit :=
  checkLocked ;; modify (fun c => c <| c_fenced := true |>).

Definition blocksAdvance (phase : Z) (p : producerState) : bool :=
  ps_attached p && negb (ps_closed p) && (ps_hardDeath p || negb (ps_checkpoint p =? phase)).

Definition Advance : op unit :=
  checkLocked ;; c <- get ;;
  if negb (c_fenced c) || Nat.leb (length (c_phases c)) (c_phase c + 1)
  then failLocked ErrProtocol
  else if existsb (fun kv => blocksAdvance (ph_ID (curPhase c)) kv.2) (map_to_list (c_producers c))
  then throw ErrBusy
  else modify (fun c => c <| c_phase ::= S |> <| c_fenced := false |>).

Definition ExpectHardDeath (producer : Z) : op unit :=
  checkLocked ;; c <- get ;;
  match c_producers c !! producer with
  | None => failLocked ErrProtocol
  | Some p =>
      if negb (c_fenced c) || negb (ps_attached p) || ps_closed p || ps_hardDeath p
      then failLocked ErrProtocol
      else modify (setProducer producer (p <| ps_hardDeath := true |>))
  end.

Definition CancelUnused (producer : Z) : op unit :=
  checkLocked ;; c <- get ;;
  match c_producers c !! producer with
  | None => failLocked ErrProtocol
  | Some p =>
      if negb (c_fenced c) || ps_attached p || ps_closed p
      then failLocked ErrProtocol
      else modify (setProducer producer (p <| ps_closed := true |>))
  end.

(** [waited] is the pid of the [*os.ProcessState], [None] for a nil one. *)
Definition CloseHardDeath (producer : Z) (waited : option Z) : op unit :=
  checkLocked ;; c <- get ;;
  match c_producers c !! producer with
  | None => failLocked ErrIncomplete
  | Some p =>
      if negb (c_fenced c) || negb (ps_hardDeath p) || negb (ps_eof p) || ps_closed p
         || match waited with None => true | Some pid => negb (pid =? ps_pid p) end
      then failLocked ErrIncomplete
      else modify (setProducer producer (p <| ps_active := ∅ |> <| ps_closed := true |>))
  end.

Definition RetireBackupEndpoint : op unit :=
  checkLocked ;; c <- get ;;
  match c_producers c !! 5 with
  | None => failLocked ErrProtocol
  | Some p =>
      if negb (c_fenced c) || negb (ph_ID (curPhase c) =? 11) || negb (ps_attached p)
         || ps_closed p || ps_hardDeath p || ps_backupRetired p || negb (ps_checkpoint p =? 11)
      then failLocked ErrProtocol
      else if anyActive notCarried p then failLocked ErrBusy
      else modify (setProducer 5 (p <| ps_backupRetired := true |>))
  end.

Definition producerRow (id : Z) (p : producerState) : ProducerCount :=
  mkProducerCount id (ps_ordinal p) (Z.of_nat (size (ps_active p))) (ps_checkpoint p)
    (ps_attached p) (ps_closed p).

(** The rows of [Snapshot], in configuration order. *)
Definition producerRows (c : Controller) : list ProducerCount :=
  omap (fun id => producerRow id <$> (c_producers c !! id)) (c_producerOrder c).

Definition Snapshot (c : Controller) : (Snapshot_ * option err) * Controller :=
  let '(r, c') := checkLocked c in
  let e := match r with Ok _ => None | Err e => Some e end in
  (mkSnapshot (c_attempts c') (c_digest c') (c_wireBytes c') (c_counts c') (producerRows c')
     (c_fenced c' && is_nil e && forallb pn_Closed (producerRows c')), e, c').

(** ** Endpoints *)
Definition attach (producer pid : Z) : op unit :=
  checkLocked ;; c <- get ;;
  match c_producers c !! producer with
  | None => failLocked ErrProtocol
  | Some p =>
      if ps_attached p || ps_closed p || (pid <=? 0) then failLocked ErrProtocol
      else modify (setProducer producer (p <| ps_attached := true |> <| ps_pid := pid |>))
  end.

Definition reservePair : op unit :=
  checkLocked ;; c <- get ;;
  if u64 (li_WireBytes (c_limits c) - c_wireBytes c) <? 2 * FrameBytes
  then failLocked ErrLimit
  else modify (fun c => c <| c_wireBytes := u64 (c_wireBytes c + 2 * FrameBytes) |>).

(** [endStream] runs after [attach]; on an unknown producer the nil pointer
    panics and [serveAttached] reports [ErrPanic]. *)
Definition endStream (producer : Z) : op unit :=
  c <- get ;;
  match c_producers c !! producer with
  | None => failLocked ErrPanic
  | Some p =>
      modify (setProducer producer (p <| ps_eof := true |>)) ;;
      if ps_closed p || ps_hardDeath p
      then match c_err c with None => ret tt | Some e => throw e end
      else failLocked ErrIncomplete
  end.

(** ** Admission *)
Definition roleIndex (role : Z) (roles : list RoleBudget) : option nat :=
  findIndex (fun r => rb_Role r =? role) roles.
Definition roleBudget (c : Controller) (i : nat) : Z :=
  rb_Attempts (nth i (ph_Roles (curPhase c)) (mkRoleBudget 0 0)).
Definition roleCount (c : Controller) (i : nat) : Z :=
  rc_Attempts (nth i (pc_Roles (curCount c)) (mkRoleCount 0 0)).

(** The loop over the current phase's roles in [checkedAdmissionSite]. *)
Fixpoint roleOpen (role : Z) (roles : list RoleBudget) (counts : list RoleCount) : bool :=
  match roles, counts with
  | r :: roles', n :: counts' =>
      ((rb_Role r =? role) && (rc_Attempts n <? rb_Attempts r)) || roleOpen role roles' counts'
  | _, _ => false
  end.

Definition checkedAdmissionSite (producer : Z) (request : frame) : op Site :=
  checkLocked ;; c <- get ;;
  match c_producers c !! producer with
  | None => failLocked ErrProtocol
  | Some p =>
      if ps_hardDeath p then throw errTerminating
      else if negb (ps_attached p) || ps_closed p
              || negb (bytes_eqb (fr_binding request) (ps_binding p))
              || (ps_sequence p =? MaxUint64)
              || negb (fr_sequence request =? u64 (ps_sequence p + 1))
              || negb (fr_phase request =? ph_ID (curPhase c))
      then failLocked ErrProtocol
      else match ps_sites p !! fr_site request with
      | None => failLocked ErrProtocol
      | Some site =>
          if (ps_ordinal p =? MaxUint64) || negb (fr_ordinal request =? u64 (ps_ordinal p + 1))
             || (ps_checkpoint p =? fr_phase request)
          then failLocked ErrProtocol
          else if c_fenced c then failLocked ErrFenced
          else if (li_ActivePerProducer (c_limits c) <=? Z.of_nat (size (ps_active p)))
                  || (li_Attempts (c_limits c) <=? c_attempts c)
          then failLocked ErrLimit
          else if roleOpen (si_Role site) (ph_Roles (curPhase c)) (pc_Roles (curCount c))
          then ret site
          else failLocked ErrLimit
      end
  end.

Section Hash.
Variable sha256 : list Z -> list Z.

(** The event that extends the digest chain. *)
Definition admissionDigest (digest : list Z) (producer : Z) (f : frame) (role : Z) : list Z :=
  sha256 (digest ++ encode f ++ be_put 4 producer ++ be_put 4 role).

(** The linearization point of an admission. *)
Definition commitAdmission (producer : Z) (p : producerState) (f : frame) (site : Site)
    (role : nat) (c : Controller) : Controller :=
  let n := curCount c in
  let roles := <[role := mkRoleCount (rc_Role (nth role (pc_Roles n) (mkRoleCount 0 0)))
                           (u64 (roleCount c role + 1))]> (pc_Roles n) in
  setProducer producer
    (p <| ps_ordinal := u64 (ps_ordinal p + 1) |>
       <| ps_active ::= insert (fr_ordinal f) (mkActive (si_Persistent site) false) |>) c
    <| c_attempts := u64 (c_attempts c + 1) |>
    <| c_counts ::= fun l =>
         <[c_phase c := mkPhaseCount (pc_Phase n) (u64 (pc_Attempts n + 1)) roles]> l |>
    <| c_digest := admissionDigest (c_digest c) producer f (si_Role site) |>.

(** The [opAdmit] case of [accept]; [p] has its sequence already advanced. *)
Definition acceptAdmit (producer : Z) (p : producerState) (f : frame) : op unit :=
  c <- get ;;
  match ps_sites p !! fr_site f with
  | None => failLocked ErrProtocol
  | Some site =>
      if (ps_ordinal p =? MaxUint64) || negb (fr_ordinal f =? u64 (ps_ordinal p + 1))
         || (ps_checkpoint p =? fr_phase f)
      then failLocked ErrProtocol
      else if c_fenced c then failLocked ErrFenced
      else if (li_ActivePerProducer (c_limits c) <=? Z.of_nat (size (ps_active p)))
              || (li_Attempts (c_limits c) <=? c_attempts c)
      then failLocked ErrLimit
      else match roleIndex (si_Role site) (ph_Roles (curPhase c)) with
      | None => failLocked ErrLimit
      | Some role =>
          if roleBudget c role <=? roleCount c role then failLocked ErrLimit
          else modify (commitAdmission producer p f site role)
      end
  end.

(** The [opSettle], [opCarry] case of [accept]. *)
Definition settleOrCarry (producer : Z) (p : producerState) (f : frame) : op unit :=
  match ps_active p !! fr_ordinal f with
  | None => failLocked ErrProtocol
  | Some active =>
      if negb (fr_site f =? 0) then failLocked ErrProtocol
      else if fr_op f =? opSettle
      then modify (setProducer producer (p <| ps_active ::= delete (fr_ordinal f) |>))
      else if negb (ad_persistent active) || ad_carried active then failLocked ErrProtocol
      else modify (setProducer producer
             (p <| ps_active ::= insert (fr_ordinal f) (mkActive (ad_persistent active) true) |>))
  end.

(** The [opCheckpoint], [opClose] case of [accept]. *)
Definition checkpointOrClose (producer : Z) (p : producerState) (f : frame) : op unit :=
  c <- get ;;
  if negb (fr_site f =? 0) || negb (fr_ordinal f =? ps_ordinal p)
     || ((fr_op f =? opCheckpoint) && (negb (c_fenced c) || (ps_checkpoint p =? fr_phase f)))
  then failLocked ErrProtocol
  else if anyActive (fun a => (fr_op f =? opClose) || notCarried a) p
  then failLocked ErrBusy
  else modify (setProducer producer
         (p <| ps_checkpoint := fr_phase f |> <| ps_closed := fr_op f =? opClose |>)).

Definition retiredClose (producer : Z) (p : producerState) (f : frame) (c : Controller) : bool :=
  (fr_op f =? opClose) && (producer =? 5) && ps_backupRetired p && (fr_phase f =? 11)
  && (ps_checkpoint p =? 11) && (ph_ID (curPhase c) =? 12).

Definition accept (producer : Z) (f : frame) : op unit :=
  checkLocked ;; c <- get ;;
  match c_producers c !! producer with
  | None => failLocked ErrProtocol
  | Some p =>
      if ps_hardDeath p then throw errTerminating
      else if negb (ps_attached p) || ps_closed p
              || negb (bytes_eqb (fr_binding f) (ps_binding p))
              || (ps_sequence p =? MaxUint64) || negb (fr_sequence f =? u64 (ps_sequence p + 1))
      then failLocked ErrProtocol
      else if negb (fr_phase f =? ph_ID (curPhase c)) && negb (retiredClose producer p f c)
              && (negb (fr_op f =? opSettle) || negb (fr_phase f =? ps_checkpoint p))
      then failLocked ErrProtocol
      else
        let p' := p <| ps_sequence := u64 (ps_sequence p + 1) |> in
        modify (setProducer producer p') ;;
        if fr_op f =? opAdmit then acceptAdmit producer p' f
        else if (fr_op f =? opSettle) || (fr_op f =? opCarry) then settleOrCarry producer p' f
        else if (fr_op f =? opCheckpoint) || (fr_op f =? opClose) then checkpointOrClose producer p' f
        else failLocked ErrProtocol
  end.

(** ** One round of [serveAttached]

    What the socket gives a round, and the round's outcome: serve on, or
    return with an error or [nil].  [check] is the parent's callback with its
    own context already folded in ([Ok] when it returns nil in time). *)
Inductive readResult :=
  | ReadEOF                (** no byte, or the stream ends inside the frame *)
  | ReadError
  | ReadFrame (raw : list Z).

Inductive round :=
  | Continue
  | Return (r : res err unit).

(** [continue] on [errTerminating], return any other error. *)
Definition orReturn {A} (m : op A) (k : A -> Controller -> round * Controller) (c : Controller)
    : round * Controller :=
  match m c with
  | (Ok a, c') => k a c'
  | (Err errTerminating, c') => (Continue, c')
  | (Err e, c') => (Return (Err e), c')
  end.
Definition finish (m : op unit) (c : Controller) : round * Controller :=
  let '(r, c') := m c in (Return r, c').

Definition serveRound (producer : Z) (check : option (Site -> bool)) (input : readResult)
    (writeOk : bool) (c : Controller) : round * Controller :=
  match reservePair c with
  | (Err e, c') => (Return (Err e), c')
  | (Ok _, c1) =>
      match input with
      | ReadEOF => finish (endStream producer) c1
      | ReadError => finish (fail ErrTransport) c1
      | ReadFrame raw =>
          match decode raw with
          | Err e => finish (fail e) c1
          | Ok request =>
              let commit c2 :=
                orReturn (accept producer request)
                  (fun _ c3 => if negb writeOk then finish (fail ErrTransport) c3
                               else if fr_op request =? opClose then (Return (Ok tt), c3)
                               else (Continue, c3)) c2 in
              match check with
              | Some f =>
                  if fr_op request =? opAdmit
                  then orReturn (checkedAdmissionSite producer request)
                         (fun site c2 => if f site then commit c2
                                         else finish (fail ErrProductionBootstrap) c2) c1
                  else commit c1
              | None => commit c1
              end
          end
      end
  end.
End Hash.
