(* ===== verification/DispatchWire.v ===== *)
(** * The dispatch-admission frame codec is canonical *)
From S2P Require Import Prelude Bytes DispatchAdmission.

(** The frames the decoder can return. *)
Definition frameAdmitted (f : frame) : Prop :=
  opAdmit <= fr_op f <= opClose /\ 0 <= fr_phase f < 2 ^ 32 /\ 0 <= fr_site f < 2 ^ 32 /\
  0 <= fr_ordinal f < 2 ^ 64 /\ 0 <= fr_sequence f < 2 ^ 64 /\
  length (fr_binding f) = 32%nat /\ Forall isByte (fr_binding f).

Lemma header_slice raw :
  length raw = 64%nat -> slice 4 8 raw = [nth 4 raw 0; nth 5 raw 0; nth 6 raw 0; nth 7 raw 0].
Proof. intros H. do 8 (destruct raw as [|? raw]; [discriminate|]). reflexivity. Qed.

Lemma frame_slices raw :
  length raw = 64%nat ->
  raw = slice 0 4 raw ++ slice 4 8 raw ++ slice 8 12 raw ++ slice 12 16 raw
        ++ slice 16 24 raw ++ slice 24 32 raw ++ slice 32 64 raw.
Proof. intros H. rewrite !slice_app by lia. symmetry. apply slice_all, H. Qed.

Lemma decode_sound raw f :
  length raw = 64%nat -> Forall isByte raw -> decode raw = Ok f -> frameAdmitted f /\ encode f = raw.
Proof.
  intros Hlen Hb H. unfold decode in H.
  match type of H with (if ?g then _ else _) = _ => destruct g eqn:Eg; [discriminate|] end.
  injection H as <-. bsplit.
  match goal with H : bytes_eqb _ _ = true |- _ => apply bool_decide_eq_true in H; rename H into Hm end.
  split.
  - split; [cbn; lia|]. cbn [fr_phase fr_site fr_ordinal fr_sequence fr_binding].
    split; [apply (be_get_slice_range 8 12); auto; lia|].
    split; [apply (be_get_slice_range 12 16); auto; lia|].
    split; [apply (be_get_slice_range 16 24); auto; lia|].
    split; [apply (be_get_slice_range 24 32); auto; lia|].
    split; [apply length_slice; lia|apply slice_bytes, Hb].
  - unfold encode. cbn [fr_op fr_phase fr_site fr_ordinal fr_sequence fr_binding].
    rewrite !be_put_slice by (auto; lia).
    rewrite (frame_slices raw Hlen) at 7. rewrite Hm, (header_slice raw Hlen). congruence.
Qed.

Lemma decode_complete f : frameAdmitted f -> decode (encode f) = Ok f.
Proof.
  intros (Hop & Hph & Hsi & Hor & Hsq & Hlen & Hb). unfold decode.
  assert (S : slice 0 4 (encode f) = magicDA /\ slice 8 12 (encode f) = be_put 4 (fr_phase f) /\
    slice 12 16 (encode f) = be_put 4 (fr_site f) /\ slice 16 24 (encode f) = be_put 8 (fr_ordinal f) /\
    slice 24 32 (encode f) = be_put 8 (fr_sequence f) /\ slice 32 64 (encode f) = fr_binding f /\
    nth 4 (encode f) 0 = fr_op f /\ nth 5 (encode f) 0 = 0 /\ nth 6 (encode f) 0 = 0 /\
    nth 7 (encode f) 0 = 0).
  { unfold encode, slice. repeat split; try reflexivity.
    unfold magicDA. cbn -[take]. rewrite drop_0, <- Hlen. apply firstn_all. }
  destruct S as (-> & -> & -> & -> & -> & -> & -> & -> & -> & ->).
  rewrite !be_get_small by (cbn; lia). unfold bytes_eqb.
  rewrite bool_decide_eq_true_2 by reflexivity.
  rewrite (proj2 (Z.ltb_ge _ opAdmit)), (proj2 (Z.ltb_ge opClose _)) by lia. destruct f; reflexivity.
Qed.

(** The controller decodes exactly the canonical encodings of well-formed
    frames, so the echo it sends as ACK names one frame only. *)
Theorem dispatch_decode_exact raw f :
  length raw = 64%nat -> Forall isByte raw ->
  (decode raw = Ok f <-> frameAdmitted f /\ raw = encode f).
Proof.
  intros Hlen Hb. split.
  - intros H. apply decode_sound in H as [? <-]; auto.
  - intros [Ha ->]. apply decode_complete, Ha.
Qed.

Definition sampleFrame : frame := mkFrame opSettle 11 0 7 9 (replicate 32 171).

Lemma dispatch_decode_exact_witness :
  decode (encode sampleFrame) = Ok sampleFrame /\ frameAdmitted sampleFrame.
Proof.
  assert (decode (encode sampleFrame) = Ok sampleFrame) as H by (vm_compute; reflexivity).
  split; [exact H|].
  destruct (proj1 (dispatch_decode_exact (encode sampleFrame) sampleFrame eq_refl
    ltac:(apply (bool_decide_eq_true_1 _); vm_compute; reflexivity)) H) as [Ha _]. exact Ha.
Defined.
