(* ===== verification/DispatchSteps.v ===== *)
(** * Runs of the dispatch-admission controller

    The events of an owner or an endpoint, the runs they produce with the log
    of admitted dispatches, and the inversion lemma of every operation. *)
From S2P Require Import Prelude Bytes DispatchAdmission.

Section Runs.
Context (sha256 : list Z -> list Z).

(** ** Events *)
Inductive event :=
  | EvCancel
  | EvFail (e : err)
  | EvFence
  | EvAdvance
  | EvExpectHardDeath (producer : Z)
  | EvCancelUnused (producer : Z)
  | EvCloseHardDeath (producer : Z) (waited : option Z)
  | EvRetire
  | EvSnapshot
  | EvAttach (producer pid : Z)
  | EvReserve
  | EvEndStream (producer : Z)
  | EvChecked (producer : Z) (f : frame)
  | EvAccept (producer : Z) (f : frame).

Definition apply (ev : event) (c : Controller) : Controller :=
  match ev with
  | EvCancel => c <| c_done := true |>
  | EvFail e => snd (fail e c)
  | EvFence => snd (Fence c)
  | EvAdvance => snd (Advance c)
  | EvExpectHardDeath p => snd (ExpectHardDeath p c)
  | EvCancelUnused p => snd (CancelUnused p c)
  | EvCloseHardDeath p w => snd (CloseHardDeath p w c)
  | EvRetire => snd (RetireBackupEndpoint c)
  | EvSnapshot => snd (Snapshot c)
  | EvAttach p pid => snd (attach p pid c)
  | EvReserve => snd (reservePair c)
  | EvEndStream p => snd (endStream p c)
  | EvChecked p f => snd (checkedAdmissionSite p f c)
  | EvAccept p f => snd (accept sha256 p f c)
  end.

(** ** The log *)
Record admission := mkAdmission { am_producer : Z; am_frame : frame; am_role : Z }.

(** The admission an accepted [opAdmit] frame adds. *)
Definition logged (ev : event) (c : Controller) : list admission :=
  match ev with
  | EvAccept producer f =>
      match fst (accept sha256 producer f c) with
      | Ok _ =>
          if fr_op f =? opAdmit
          then match p ← c_producers c !! producer; ps_sites p !! fr_site f with
               | Some site => [mkAdmission producer f (si_Role site)]
               | None => []
               end
          else []
      | Err _ => []
      end
  | _ => []
  end.

(** The Go types of the configuration: [Attempts] and [WireBytes] are [uint64]. *)
Definition typedConfig (config : Config) : Prop :=
  li_Attempts (cf_Limits config) <= MaxUint64 /\ li_WireBytes (cf_Limits config) <= MaxUint64 /\
  0 < li_Attempts (cf_Limits config) /\
  Forall (fun p => Forall (fun r => 0 <= rb_Attempts r) (ph_Roles p)) (cf_Phases config).

Inductive runs (config : Config) : list admission -> Controller -> Prop :=
  | runs_new c : New true config = Ok c -> runs config [] c
  | runs_step log c ev : runs config log c -> runs config (log ++ logged ev c) (apply ev c).

Definition applyAll (evs : list event) (c : Controller) : Controller :=
  fold_left (fun c ev => apply ev c) evs c.

(** ** The error latch *)

(** [c'] differs from [c] in the latch and the context at most. *)
Definition latched (c c' : Controller) : Prop :=
  exists e d, c' = c <| c_err := e |> <| c_done := d |>.
Definition failed {A} (r : res err A) : Prop := exists e, r = Err e.

Lemma da_latched_refl c : latched c c.
Proof. exists (c_err c), (c_done c). destruct c; reflexivity. Qed.

Lemma da_failLocked_latched {A} e c (r : res err A) c' :
  failLocked e c = (r, c') -> latched c c' /\ failed r.
Proof.
  unfold failLocked, failed. destruct (c_err c) eqn:E; intros [= <- <-].
  - split; [apply da_latched_refl|eauto].
  - split; [eexists _, _; reflexivity|eauto].
Qed.

Lemma da_checked_inv {A} (k : op A) c r c' :
  bind checkLocked (fun _ => k) c = (r, c') ->
  (latched c c' /\ failed r) \/ (c_err c = None /\ c_done c = false /\ k c = (r, c')).
Proof.
  unfold bind, checkLocked. destruct (c_err c) eqn:Ee.
  - intros [= <- <-]. left. split; [apply da_latched_refl|unfold failed; eauto].
  - destruct (c_done c) eqn:Ed; [|auto].
    destruct (failLocked ErrCanceled c) as [[[]|e] c1] eqn:E;
      pose proof (da_failLocked_latched _ _ _ _ E) as [Hl [x Hx]]; [discriminate|].
    intros [= <- <-]. left. split; [assumption|unfold failed; eauto].
Qed.

(** ** Inversions *)
Ltac da_latched :=
  match goal with
  | H : failLocked _ _ = (_, _) |- _ => apply da_failLocked_latched in H as [H ?]
  | H : throw _ _ = (_, _) |- _ => injection H as <- <-
  end;
  left; split; [assumption || apply da_latched_refl|unfold failed in *; eauto].

Ltac da_start H :=
  apply da_checked_inv in H as [[? ?]|(Hlive & Hdone & H)]; [left; split; assumption|];
  cbv [bind get] in H;
  repeat match type of H with
  | match ?x with _ => _ end _ = _ => let E := fresh "E" in destruct x eqn:E; try da_latched
  end.
Ltac da_done H := cbv [modify ret put get bind] in H; injection H as <- <-.

(** A successful operation on one producer replaces it. *)
Definition updates (c : Controller) (id : Z) (guard : producerState -> Prop)
    (f : producerState -> producerState) (c' : Controller) : Prop :=
  exists p, c_producers c !! id = Some p /\ guard p /\ c' = setProducer id (f p) c.

Lemma ExpectHardDeath_inv id c r c' :
  ExpectHardDeath id c = (r, c') ->
  (latched c c' /\ failed r) \/
  updates c id (fun p => ps_attached p = true /\ ps_closed p = false)
    (fun p => p <| ps_hardDeath := true |>) c'.
Proof. intros H. unfold ExpectHardDeath in H. da_start H. da_done H. bsplit. right. unfold updates. eauto 10. Qed.

Lemma CancelUnused_inv id c r c' :
  CancelUnused id c = (r, c') ->
  (latched c c' /\ failed r) \/
  updates c id (fun p => ps_attached p = false /\ ps_closed p = false)
    (fun p => p <| ps_closed := true |>) c'.
Proof. intros H. unfold CancelUnused in H. da_start H. da_done H. bsplit. right. unfold updates. eauto 10. Qed.

Lemma CloseHardDeath_inv id w c r c' :
  CloseHardDeath id w c = (r, c') ->
  (latched c c' /\ failed r) \/
  updates c id (fun p => ps_hardDeath p = true /\ ps_closed p = false)
    (fun p => p <| ps_active := ∅ |> <| ps_closed := true |>) c'.
Proof. intros H. unfold CloseHardDeath in H. da_start H. da_done H. bsplit. right. unfold updates. eauto 10. Qed.

Lemma RetireBackupEndpoint_inv c r c' :
  RetireBackupEndpoint c = (r, c') ->
  (latched c c' /\ failed r) \/
  updates c 5 (fun p => ps_attached p = true) (fun p => p <| ps_backupRetired := true |>) c'.
Proof. intros H. unfold RetireBackupEndpoint in H. da_start H. da_done H. bsplit. right. unfold updates. eauto 10. Qed.

Lemma attach_inv id pid c r c' :
  attach id pid c = (r, c') ->
  (latched c c' /\ failed r) \/
  updates c id (fun p => ps_attached p = false /\ ps_closed p = false)
    (fun p => p <| ps_attached := true |> <| ps_pid := pid |>) c'.
Proof. intros H. unfold attach in H. da_start H. da_done H. bsplit. right. unfold updates. eauto 10. Qed.

Lemma da_Fence_inv c r c' :
  Fence c = (r, c') -> (latched c c' /\ failed r) \/ c' = c <| c_fenced := true |>.
Proof. intros H. unfold Fence in H. da_start H. da_done H. auto. Qed.

Lemma reservePair_inv c r c' :
  reservePair c = (r, c') ->
  (latched c c' /\ failed r) \/
  (2 * FrameBytes <= u64 (li_WireBytes (c_limits c) - c_wireBytes c) /\
   c' = c <| c_wireBytes := u64 (c_wireBytes c + 2 * FrameBytes) |>).
Proof. intros H. unfold reservePair in H. da_start H. da_done H. bsplit. auto. Qed.

Lemma range_false {A} (f : A -> bool) (m : gmap Z A) :
  existsb (fun kv => f kv.2) (map_to_list m) = false <->
  forall k x, m !! k = Some x -> f x = false.
Proof.
  split.
  - intros H k x Hx. apply not_true_is_false. intros Hf.
    assert (existsb (fun kv => f kv.2) (map_to_list m) = true); [|congruence].
    apply existsb_exists. exists (k, x). split; [|exact Hf].
    apply list_elem_of_In, elem_of_map_to_list, Hx.
  - intros H. apply not_true_is_false. intros ([k x] & Hin & Hf)%existsb_exists.
    apply list_elem_of_In, elem_of_map_to_list in Hin. cbn in Hf.
    rewrite (H k x Hin) in Hf. discriminate.
Qed.

Lemma da_Advance_inv c r c' :
  Advance c = (r, c') ->
  (latched c c' /\ failed r) \/
  (c_fenced c = true /\ (c_phase c + 1 < length (c_phases c))%nat /\
   (forall id p, c_producers c !! id = Some p -> blocksAdvance (ph_ID (curPhase c)) p = false) /\
   r = Ok tt /\ c' = c <| c_phase ::= S |> <| c_fenced := false |>).
Proof.
  intros H. unfold Advance in H. da_start H. da_done H. rewrite range_false in E0.
  apply orb_false_iff in E as [E1 E2]. bsplit. apply Nat.leb_gt in E2. right. auto 10.
Qed.

Lemma endStream_inv id c r c' :
  endStream id c = (r, c') ->
  (latched c c' /\ failed r) \/
  exists p c1, c_producers c !! id = Some p /\ c1 = setProducer id (p <| ps_eof := true |>) c /\
    latched c1 c'.
Proof.
  intros H. unfold endStream in H. cbv [bind get] in H.
  destruct (c_producers c !! id) as [p|] eqn:E; [|da_latched].
  cbn [modify] in H. right. exists p, (setProducer id (p <| ps_eof := true |>) c).
  split; [reflexivity|]. split; [reflexivity|].
  destruct (_ || _); [|apply da_failLocked_latched in H as [? _]; assumption].
  destruct (c_err c); injection H as <- <-; apply da_latched_refl.
Qed.

Lemma checked_state id f c r c' : checkedAdmissionSite id f c = (r, c') -> latched c c'.
Proof.
  intros H. unfold checkedAdmissionSite in H.
  apply da_checked_inv in H as [[? ?]|(Hlive & Hdone & H)]; [assumption|].
  cbv [bind get] in H.
  repeat match type of H with
  | match ?x with _ => _ end _ = _ => destruct x
  end; try (apply da_failLocked_latched in H as [? _]; assumption);
  da_done H; apply da_latched_refl.
Qed.

Lemma da_Snapshot_state c : latched c (snd (Snapshot c)).
Proof.
  unfold Snapshot. destruct (checkLocked c) as [r c'] eqn:E. cbn. unfold checkLocked in E.
  destruct (c_err c) eqn:Ee; [injection E as <- <-; apply da_latched_refl|].
  destruct (c_done c); [|injection E as <- <-; apply da_latched_refl].
  apply da_failLocked_latched in E as [? _]. assumption.
Qed.

(** ** Acceptance of a frame *)
Definition bumped (p : producerState) : producerState :=
  p <| ps_sequence := u64 (ps_sequence p + 1) |>.

(** The guards every accepted frame passes before its operation runs. *)
Record Framed (c : Controller) (id : Z) (f : frame) (p : producerState) : Prop := {
  fd_lookup : c_producers c !! id = Some p;
  fd_live : c_err c = None /\ c_done c = false;
  fd_death : ps_hardDeath p = false;
  fd_attached : ps_attached p = true;
  fd_closed : ps_closed p = false;
  fd_binding : fr_binding f = ps_binding p;
  fd_max : ps_sequence p <> MaxUint64;
  fd_sequence : fr_sequence f = u64 (ps_sequence p + 1);
  fd_phase : fr_phase f = ph_ID (curPhase c) \/ fr_phase f = ps_checkpoint p /\
               (fr_op f = opSettle \/ fr_op f = opClose)
}.

(** What an accepted frame does, once the sequence is advanced. *)
Inductive effect (id : Z) (p : producerState) (f : frame) (c : Controller) : Controller -> Prop :=
  | effect_admit site role :
      fr_op f = opAdmit -> ps_sites p !! fr_site f = Some site ->
      ps_ordinal p <> MaxUint64 -> fr_ordinal f = u64 (ps_ordinal p + 1) ->
      ps_checkpoint p <> fr_phase f -> c_fenced c = false ->
      Z.of_nat (size (ps_active p)) < li_ActivePerProducer (c_limits c) ->
      c_attempts c < li_Attempts (c_limits c) ->
      roleIndex (si_Role site) (ph_Roles (curPhase c)) = Some role ->
      roleCount c role < roleBudget c role ->
      effect id p f c (commitAdmission sha256 id p f site role c)
  | effect_settle a :
      fr_op f = opSettle -> ps_active p !! fr_ordinal f = Some a ->
      effect id p f c (setProducer id (p <| ps_active ::= delete (fr_ordinal f) |>) c)
  | effect_carry a :
      fr_op f = opCarry -> ps_active p !! fr_ordinal f = Some a ->
      ad_persistent a = true -> ad_carried a = false ->
      effect id p f c
        (setProducer id (p <| ps_active ::= insert (fr_ordinal f) (mkActive true true) |>) c)
  | effect_checkpoint :
      fr_op f = opCheckpoint -> fr_ordinal f = ps_ordinal p -> c_fenced c = true ->
      (forall k a, ps_active p !! k = Some a -> notCarried a = false) ->
      effect id p f c
        (setProducer id (p <| ps_checkpoint := fr_phase f |> <| ps_closed := false |>) c)
  | effect_close :
      fr_op f = opClose -> fr_ordinal f = ps_ordinal p -> ps_active p = ∅ ->
      effect id p f c
        (setProducer id (p <| ps_checkpoint := fr_phase f |> <| ps_closed := true |>) c).

Lemma admit_inv id p f c r c' :
  fr_op f = opAdmit -> acceptAdmit sha256 id p f c = (r, c') ->
  (latched c c' /\ failed r) \/ (r = Ok tt /\ effect id p f c c').
Proof.
  intros Hop H. unfold acceptAdmit in H. cbv [bind get] in H.
  repeat match type of H with
  | match ?x with _ => _ end _ = _ => let E := fresh "E" in destruct x eqn:E; try da_latched
  end.
  da_done H. bsplit. right. split; [reflexivity|]. eapply effect_admit; eauto.
Qed.

Lemma settleOrCarry_inv id p f c r c' :
  fr_op f = opSettle \/ fr_op f = opCarry -> settleOrCarry id p f c = (r, c') ->
  (latched c c' /\ failed r) \/ (r = Ok tt /\ effect id p f c c').
Proof.
  intros Hop H. unfold settleOrCarry in H.
  repeat match type of H with
  | match ?x with _ => _ end _ = _ => let E := fresh "E" in destruct x eqn:E; try da_latched
  end; da_done H; bsplit; right; (split; [reflexivity|]).
  - eapply effect_settle; eauto.
  - destruct Hop; [contradiction|].
    match goal with Hp : ad_persistent a = true |- _ => rewrite Hp; eapply effect_carry; eauto end.
Qed.

Lemma checkpointOrClose_inv id p f c r c' :
  fr_op f = opCheckpoint \/ fr_op f = opClose -> checkpointOrClose id p f c = (r, c') ->
  (latched c c' /\ failed r) \/ (r = Ok tt /\ effect id p f c c').
Proof.
  intros Hop H. unfold checkpointOrClose in H. cbv [bind get] in H.
  repeat match type of H with
  | match ?x with _ => _ end _ = _ => let E := fresh "E" in destruct x eqn:E; try da_latched
  end.
  da_done H. pose proof (proj1 (range_false _ _) E0) as E1. clear E0. rename E1 into E0.
  right. split; [reflexivity|]. destruct Hop as [Ho|Ho]; rewrite Ho in *; cbn -[Z.eqb] in E, E0 |- *; cbn in E.
  - bsplit. apply effect_checkpoint; auto.
  - rewrite orb_false_r in E. bsplit. apply effect_close; auto. apply map_empty. intros k.
    destruct (ps_active p !! k) eqn:Ek; [|reflexivity]. specialize (E0 _ _ Ek). discriminate.
Qed.

Lemma accept_inv id f c r c' :
  accept sha256 id f c = (r, c') ->
  (latched c c' /\ failed r) \/
  (exists p, Framed c id f p /\
     let c1 := setProducer id (bumped p) c in
     (latched c1 c' /\ failed r) \/ (r = Ok tt /\ effect id (bumped p) f c1 c')).
Proof.
  intros H. unfold accept in H. da_start H. fold (bumped p) in H. cbn [modify] in H.
  right. exists p.
  assert (HF : Framed c id f p).
  { unfold bytes_eqb in E1. bsplit. split; auto.
    - eapply bool_decide_eq_true_1. assumption.
    - destruct (Z.eqb_spec (fr_phase f) (ph_ID (curPhase c))) as [|Hne]; [auto|right].
      cbn in E2. unfold retiredClose in E2.
      apply andb_false_iff in E2 as [E2|E2].
      + apply negb_false_iff in E2. bsplit. split; [congruence|auto].
      + bsplit. auto. }
  split; [exact HF|].
  destruct (Z.eqb_spec (fr_op f) opAdmit); [eapply admit_inv; eauto|].
  destruct (Z.eqb_spec (fr_op f) opSettle); [eapply settleOrCarry_inv; eauto|].
  destruct (Z.eqb_spec (fr_op f) opCarry); [eapply settleOrCarry_inv; eauto|]. cbn [orb] in H.
  destruct (Z.eqb_spec (fr_op f) opCheckpoint); [eapply checkpointOrClose_inv; eauto|].
  destruct (Z.eqb_spec (fr_op f) opClose); [eapply checkpointOrClose_inv; eauto|]. cbn [orb] in H.
  left. apply da_failLocked_latched in H. assumption.
Qed.
End Runs.
