(* ===== verification/DispatchInvariant.v ===== *)
(** * The invariant of the dispatch-admission controller

    [DispatchOK]: counters within the budgets and active dispatches within
    their producer's window.  [LogOK]: every counter, ordinal and the digest
    are functions of the log of admissions. *)
From S2P Require Import Prelude Bytes DispatchAdmission DispatchSteps.

(** ** Definitions *)
Record ProducerOK (l : Limits) (phases : list Phase) (phase : nat) (p : producerState) : Prop := {
  po_ordinal : 0 <= ps_ordinal p <= MaxUint64;
  po_sequence : 0 <= ps_sequence p <= MaxUint64;
  po_keys : forall k a, ps_active p !! k = Some a -> 1 <= k <= ps_ordinal p;
  po_size : Z.of_nat (size (ps_active p)) <= li_ActivePerProducer l;
  po_idle : ps_attached p = false \/ ps_closed p = true -> ps_active p = ∅;
  po_carried : forall ph, phases !! phase = Some ph -> ps_checkpoint p = ph_ID ph ->
    forall k a, ps_active p !! k = Some a -> notCarried a = false;
  po_checkpoint : ps_checkpoint p = 0 \/
    exists i ph, (i <= phase)%nat /\ phases !! i = Some ph /\ ps_checkpoint p = ph_ID ph
}.

(** One phase's counters against its budgets. *)
Record CountOK (l : Limits) (ph : Phase) (n : PhaseCount) : Prop := {
  co_id : pc_Phase n = ph_ID ph;
  co_pos : ph_ID ph <> 0;
  co_nodup : NoDup (rb_Role <$> ph_Roles ph);
  co_len : length (pc_Roles n) = length (ph_Roles ph);
  co_roles : forall j b r, ph_Roles ph !! j = Some b -> pc_Roles n !! j = Some r ->
    rc_Role r = rb_Role b /\ 0 <= rc_Attempts r <= rb_Attempts b /\ rb_Attempts b <= li_Attempts l;
  co_sum : pc_Attempts n = zsum (rc_Attempts <$> pc_Roles n)
}.

Record BudgetOK (l : Limits) (phases : list Phase) (counts : list PhaseCount) (phase : nat)
    (attempts wire : Z) : Prop := {
  bo_phase : (phase < length phases)%nat;
  bo_len : length counts = length phases;
  bo_ids : NoDup (ph_ID <$> phases);
  bo_counts : forall i ph n, phases !! i = Some ph -> counts !! i = Some n -> CountOK l ph n;
  bo_attempts : 0 <= attempts <= li_Attempts l;
  bo_sum : attempts = zsum (pc_Attempts <$> counts);
  bo_limit : li_Attempts l < MaxUint64;
  bo_active : 1 <= li_ActivePerProducer l;
  bo_wire : 0 <= wire <= li_WireBytes l /\ li_WireBytes l <= MaxUint64 /\ (2 * FrameBytes | wire)
}.

Definition DispatchOK (c : Controller) : Prop :=
  BudgetOK (c_limits c) (c_phases c) (c_counts c) (c_phase c) (c_attempts c) (c_wireBytes c) /\
  forall id p, c_producers c !! id = Some p -> ProducerOK (c_limits c) (c_phases c) (c_phase c) p.

Section Log.
Context (sha256 : list Z -> list Z).

Definition tally (f : admission -> bool) (log : list admission) : Z :=
  Z.of_nat (length (List.filter f log)).
Definition byProducer (id : Z) (e : admission) : bool := am_producer e =? id.
Definition byRole (phase role : Z) (e : admission) : bool :=
  (fr_phase (am_frame e) =? phase) && (am_role e =? role).

(** The digest the log determines. *)
Definition chain (log : list admission) : list Z :=
  fold_left (fun d e => admissionDigest sha256 d (am_producer e) (am_frame e) (am_role e)) log
    zeroDigest.

Record LogOK (log : list admission) (c : Controller) : Prop := {
  lg_attempts : c_attempts c = Z.of_nat (length log);
  lg_digest : c_digest c = chain log;
  lg_ordinal : forall id p, c_producers c !! id = Some p ->
    ps_ordinal p = tally (byProducer id) log;
  lg_roles : forall i ph n j b r, c_phases c !! i = Some ph -> c_counts c !! i = Some n ->
    ph_Roles ph !! j = Some b -> pc_Roles n !! j = Some r ->
    rc_Attempts r = tally (byRole (ph_ID ph) (rb_Role b)) log;
  lg_order : forall k e, log !! k = Some e ->
    fr_ordinal (am_frame e) = tally (byProducer (am_producer e)) (take k log) + 1
}.

(** ** Lemmas *)
Lemma tally_snoc f log e : tally f (log ++ [e]) = tally f log + (if f e then 1 else 0).
Proof.
  unfold tally. rewrite List.filter_app, length_app. cbn. destruct (f e); cbn [length]; lia.
Qed.

Lemma checkRoles_ok l roles seen rs :
  checkRoles l roles seen rs = true ->
  NoDup (rb_Role <$> rs) /\ (forall r, r ∈ rs -> (rb_Role r ∉ seen) /\ rb_Attempts r <= li_Attempts l).
Proof.
  revert seen; induction rs as [|r rs IH]; intros seen H.
  - split; [constructor|]. intros r Hr. inversion Hr.
  - cbn in H. destruct (_ || _) eqn:E; [discriminate|]. apply IH in H as [Hn Hs]. bsplit.
    match goal with Hb : bool_decide _ = false |- _ => apply bool_decide_eq_false in Hb end. split.
    + rewrite fmap_cons. constructor; [|exact Hn].
      intros (q & Hq & Hin)%list_elem_of_fmap. destruct (Hs q Hin) as [Hns _].
      apply Hns, elem_of_union_l, elem_of_singleton. congruence.
    + intros q [->|Hq]%elem_of_cons; [auto|]. destruct (Hs q Hq) as [Hns ?].
      split; [|assumption]. intros Hin. apply Hns, elem_of_union_r, Hin.
Qed.

Lemma checkPhases_ok l roles ids ps :
  checkPhases l roles ids ps = true ->
  NoDup (ph_ID <$> ps) /\
  (forall p, p ∈ ps -> (ph_ID p ∉ ids) /\ ph_ID p <> 0 /\ NoDup (rb_Role <$> ph_Roles p) /\
     forall r, r ∈ ph_Roles p -> rb_Attempts r <= li_Attempts l).
Proof.
  revert ids; induction ps as [|p ps IH]; intros ids H.
  - split; [constructor|]. intros p Hp. inversion Hp.
  - cbn in H. destruct (_ || _) eqn:E; [discriminate|].
    apply andb_true_iff in H as [Hr H]. apply IH in H as [Hn Hs].
    apply checkRoles_ok in Hr as [Hr1 Hr2]. bsplit.
    match goal with Hb : bool_decide _ = false |- _ => apply bool_decide_eq_false in Hb end.
    split.
    + rewrite fmap_cons. constructor; [|exact Hn].
      intros (q & Hq & Hin)%list_elem_of_fmap. destruct (Hs q Hin) as [Hns _].
      apply Hns, elem_of_union_l, elem_of_singleton. congruence.
    + intros q [->|Hq]%elem_of_cons.
      * repeat split; auto. intros r Hin. apply Hr2, Hin.
      * destruct (Hs q Hq) as (Hns & ? & ? & ?). repeat split; auto.
        intros Hin. apply Hns, elem_of_union_r, Hin.
Qed.

Definition fresh (p : producerState) : Prop :=
  ps_ordinal p = 0 /\ ps_sequence p = 0 /\ ps_active p = ∅ /\ ps_checkpoint p = 0 /\
  ps_attached p = false /\ ps_closed p = false.

Lemma newProducers_fresh l b ps b' :
  newProducers l b ps = Ok b' -> map_Forall (fun _ => fresh) (bd_producers b) ->
  map_Forall (fun _ => fresh) (bd_producers b').
Proof.
  revert b; induction ps as [|p ps IH]; intros b H Hb; cbn in H; [injection H as <-; exact Hb|].
  destruct (_ || _); [discriminate|]. destruct (newSites _ _ _) as [[sites roles]|]; [|discriminate].
  apply IH in H; [exact H|]. cbn. apply map_Forall_insert_2; [|exact Hb]. repeat split.
Qed.

Lemma fresh_ok l phases phase p : 1 <= li_ActivePerProducer l -> fresh p -> ProducerOK l phases phase p.
Proof.
  intros Hl (Ho & Hs & Ha & Hc & _ & _).
  split; rewrite ?Ho, ?Hs, ?Ha, ?Hc; unfold MaxUint64; try lia; auto.
  - intros k a Hk. rewrite lookup_empty in Hk. discriminate.
  - rewrite map_size_empty. lia.
  - intros ph _ _ k a Hk. rewrite lookup_empty in Hk. discriminate.
Qed.

Lemma zsum_const0 {A} (f : A -> Z) l : (forall x, x ∈ l -> f x = 0) -> zsum (f <$> l) = 0.
Proof. intros H. apply zsum_zero. intros x (y & -> & Hy)%list_elem_of_fmap. auto. Qed.

Lemma newCount_ok l ph :
  ph_ID ph <> 0 -> NoDup (rb_Role <$> ph_Roles ph) ->
  (forall r, r ∈ ph_Roles ph -> 0 <= rb_Attempts r <= li_Attempts l) ->
  CountOK l ph (newCount ph) /\ pc_Attempts (newCount ph) = 0 /\
  forall j r, pc_Roles (newCount ph) !! j = Some r -> rc_Attempts r = 0.
Proof.
  intros Hid Hn Hb.
  assert (Hz : forall j r, pc_Roles (newCount ph) !! j = Some r -> rc_Attempts r = 0).
  { intros j r Hr. apply list_lookup_fmap_Some in Hr as (b & -> & _). reflexivity. }
  split; [|auto]. split; auto.
  - cbn. apply length_fmap.
  - intros j b r Hj Hr. cbn in Hr. rewrite list_lookup_fmap, Hj in Hr. injection Hr as <-. cbn.
    apply list_elem_of_lookup_2 in Hj. apply Hb in Hj. lia.
  - cbn. symmetry. apply zsum_const0. intros r (b & -> & _)%list_elem_of_fmap. reflexivity.
Qed.

Lemma da_New_ok config c :
  typedConfig config -> New true config = Ok c -> DispatchOK c /\ LogOK [] c.
Proof.
  intros (HA & HW & HA0 & HR) H. unfold New in H.
  destruct (_ || _) eqn:Eg; [discriminate|]. bsplit.
  destruct (newProducers _ _ _) as [b|] eqn:Ep; [|discriminate].
  destruct (li_Roles _ <? _); [discriminate|].
  destruct (checkPhases _ _ _ _) eqn:Ec; cbn in H; [|discriminate]. injection H as <-.
  apply newProducers_fresh in Ep; [|apply map_Forall_empty].
  apply checkPhases_ok in Ec as [Hnd Hph].
  assert (Hcount : forall i ph, cf_Phases config !! i = Some ph ->
    CountOK (cf_Limits config) ph (newCount ph) /\ pc_Attempts (newCount ph) = 0 /\
    forall j r, pc_Roles (newCount ph) !! j = Some r -> rc_Attempts r = 0).
  { intros i ph Hi. rewrite Forall_lookup in HR. specialize (HR i ph Hi).
    apply list_elem_of_lookup_2 in Hi. destruct (Hph ph Hi) as (_ & Hid & Hrn & Hrb).
    apply newCount_ok; auto. intros r Hr. rewrite Forall_forall in HR. specialize (HR r Hr).
    specialize (Hrb r Hr). lia. }
  assert (Hlook : forall i ph n, cf_Phases config !! i = Some ph ->
            (newCount <$> cf_Phases config) !! i = Some n -> n = newCount ph).
  { intros i ph n Hi Hn. rewrite list_lookup_fmap, Hi in Hn. injection Hn as <-. reflexivity. }
  split; [split|split]; cbn.
  - split; auto; try lia.
    + apply length_fmap.
    + intros i ph n Hi Hn. rewrite (Hlook i ph n Hi Hn). apply (Hcount i ph Hi).
    + symmetry. apply zsum_const0. intros n (ph & -> & [i Hi]%list_elem_of_lookup)%list_elem_of_fmap.
      apply (Hcount i ph Hi).
    + unfold FrameBytes in *. split; [lia|]. split; [lia|]. apply Z.divide_0_r.
  - intros id p Hp. apply fresh_ok; [lia|]. apply (Ep id p Hp).
  - reflexivity.
  - reflexivity.
  - intros id p Hp. destruct (Ep id p Hp) as (-> & _). reflexivity.
  - intros i ph n j b0 r Hi Hn Hb Hr. rewrite (Hlook i ph n Hi Hn) in Hr.
    rewrite (proj2 (proj2 (Hcount i ph Hi)) j r Hr). reflexivity.
  - intros k e Hk. rewrite lookup_nil in Hk. discriminate.
Qed.

(** ** Preservation *)
Definition preserves (c c' : Controller) : Prop :=
  (DispatchOK c -> DispatchOK c') /\ (forall log, LogOK log c -> LogOK log c').

Lemma preserves_trans c1 c2 c3 : preserves c1 c2 -> preserves c2 c3 -> preserves c1 c3.
Proof. intros [? ?] [? ?]. split; auto. Qed.

Lemma da_latched_ok c c' : latched c c' -> preserves c c'.
Proof. intros (e & d & ->). split; [intros H; exact H|]. intros log []. split; assumption. Qed.

Lemma fenced_ok c b : preserves c (c <| c_fenced := b |>).
Proof. split; [intros H; exact H|]. intros log []. split; assumption. Qed.

Lemma update_ok c id p p' :
  c_producers c !! id = Some p -> ps_ordinal p' = ps_ordinal p ->
  (DispatchOK c -> ProducerOK (c_limits c) (c_phases c) (c_phase c) p ->
   ProducerOK (c_limits c) (c_phases c) (c_phase c) p') ->
  preserves c (setProducer id p' c).
Proof.
  intros Hp Ho Hok. split.
  - intros HD. pose proof HD as [HB HP]. split; [exact HB|]. intros k q Hq. cbn in Hq.
    apply lookup_insert_Some in Hq as [[<- <-]|[Hne Hq]]; eauto.
  - intros log []. split; auto. intros k q Hq. cbn in Hq.
    apply lookup_insert_Some in Hq as [[<- <-]|[Hne Hq]]; [rewrite Ho|]; eauto.
Qed.

Lemma updates_ok c id guard f c' :
  updates c id guard f c' ->
  (forall p, guard p -> ps_ordinal (f p) = ps_ordinal p /\
     (DispatchOK c -> ProducerOK (c_limits c) (c_phases c) (c_phase c) p ->
      ProducerOK (c_limits c) (c_phases c) (c_phase c) (f p))) ->
  preserves c c'.
Proof. intros (p & Hp & Hg & ->) Hf. destruct (Hf p Hg). eapply update_ok; eauto. Qed.

Lemma bumped_ok l phases phase p :
  ps_sequence p <> MaxUint64 -> ProducerOK l phases phase p -> ProducerOK l phases phase (bumped p).
Proof.
  intros Hm [? Hs]. split; auto. cbn. rewrite u64_small by lia. lia.
Qed.

Lemma da_curPhase_lookup c : DispatchOK c -> c_phases c !! c_phase c = Some (curPhase c).
Proof.
  intros [HB _]. unfold curPhase. rewrite nth_lookup.
  destruct (c_phases c !! c_phase c) eqn:E; [reflexivity|].
  apply lookup_ge_None in E. pose proof (bo_phase _ _ _ _ _ _ HB). lia.
Qed.

Lemma da_curCount_lookup c : DispatchOK c -> c_counts c !! c_phase c = Some (curCount c).
Proof.
  intros [HB _]. unfold curCount. rewrite nth_lookup.
  destruct (c_counts c !! c_phase c) eqn:E; [reflexivity|].
  apply lookup_ge_None in E. pose proof (bo_phase _ _ _ _ _ _ HB).
  pose proof (bo_len _ _ _ _ _ _ HB). lia.
Qed.

Lemma curCount_ok c : DispatchOK c -> CountOK (c_limits c) (curPhase c) (curCount c).
Proof.
  intros H. pose proof (da_curPhase_lookup c H). pose proof (da_curCount_lookup c H).
  destruct H as [HB _]. eapply (bo_counts _ _ _ _ _ _ HB); eauto.
Qed.

Lemma fmap_nodup_inj {A B} (f : A -> B) l i j x y :
  NoDup (f <$> l) -> l !! i = Some x -> l !! j = Some y -> f x = f y -> i = j.
Proof.
  intros Hn Hi Hj Hf. eapply (NoDup_lookup _ i j (f x) Hn).
  - rewrite list_lookup_fmap, Hi. reflexivity.
  - rewrite list_lookup_fmap, Hj. cbn. congruence.
Qed.

(** [Advance] moves no producer into the window of its last checkpoint. *)
Lemma da_Advance_ok c :
  (c_phase c + 1 < length (c_phases c))%nat ->
  preserves c (c <| c_phase ::= S |> <| c_fenced := false |>).
Proof.
  intros Hlt. split; [|intros log []; split; assumption].
  intros [HB HP]. pose proof HB as []. split; [split; cbn; auto; lia|].
  intros id p Hp. destruct (HP id p Hp) as [? ? ? ? ? ? Hcp]. split; auto; cbn.
  - intros ph Hph Heq. destruct Hcp as [H0|(i & q & Hi & Hq & Hcp)].
    + assert (Hlt' : (S (c_phase c) < length (c_counts c))%nat) by lia.
      apply lookup_lt_is_Some in Hlt' as [n Hn].
      destruct (co_pos _ _ _ (bo_counts0 _ _ _ Hph Hn)). congruence.
    + pose proof (fmap_nodup_inj ph_ID _ _ _ _ _ bo_ids0 Hq Hph ltac:(congruence)). lia.
  - destruct Hcp as [?|(i & q & Hi & ? & ?)]; [auto|right]. exists i, q. auto with lia.
Qed.

(** ** Admission *)
Section Admit.
Context (c : Controller) (id : Z) (p : producerState) (f : frame) (site : Site) (role : nat).
Context (HD : DispatchOK c) (Hp : c_producers c !! id = Some p).
Context (Hatt : ps_attached p = true) (Hcl : ps_closed p = false).
Context (Hph : fr_phase f = ph_ID (curPhase c)).
Context (Hmax : ps_ordinal p <> MaxUint64) (Hord : fr_ordinal f = u64 (ps_ordinal p + 1)).
Context (Hcp : ps_checkpoint p <> fr_phase f).
Context (Hact : Z.of_nat (size (ps_active p)) < li_ActivePerProducer (c_limits c)).
Context (Hatm : c_attempts c < li_Attempts (c_limits c)).
Context (Hrole : roleIndex (si_Role site) (ph_Roles (curPhase c)) = Some role).
Context (Hbudget : roleCount c role < roleBudget c role).

Definition admittedProducer : producerState :=
  p <| ps_ordinal := ps_ordinal p + 1 |>
    <| ps_active ::= insert (ps_ordinal p + 1) (mkActive (si_Persistent site) false) |>.
Definition admittedCount (b : RoleBudget) (r : RoleCount) : PhaseCount :=
  mkPhaseCount (pc_Phase (curCount c)) (pc_Attempts (curCount c) + 1)
    (<[role := mkRoleCount (rc_Role r) (rc_Attempts r + 1)]> (pc_Roles (curCount c))).

Lemma roles_found :
  exists b r, ph_Roles (curPhase c) !! role = Some b /\ rb_Role b = si_Role site /\
    pc_Roles (curCount c) !! role = Some r /\ 0 <= rc_Attempts r < rb_Attempts b /\
    rb_Attempts b <= li_Attempts (c_limits c).
Proof.
  apply findIndex_Some in Hrole as (b & Hb & E & _). bsplit.
  pose proof (curCount_ok c HD) as HC. pose proof (lookup_lt_Some _ _ _ Hb) as Hlt.
  rewrite <- (co_len _ _ _ HC) in Hlt. apply lookup_lt_is_Some in Hlt as [r Hr].
  destruct (co_roles _ _ _ HC _ _ _ Hb Hr) as (? & ? & ?).
  unfold roleCount, roleBudget in Hbudget.
  rewrite !nth_lookup, Hb, Hr in Hbudget. cbn in Hbudget. exists b, r. repeat split; auto; lia.
Qed.

Lemma count_bounds l ph n :
  CountOK l ph n -> 0 <= pc_Attempts n.
Proof.
  intros HC. rewrite (co_sum _ _ _ HC). apply zsum_nonneg.
  intros x (r & -> & [j Hj]%list_elem_of_lookup)%list_elem_of_fmap.
  pose proof (lookup_lt_Some _ _ _ Hj) as Hlt. rewrite (co_len _ _ _ HC) in Hlt.
  apply lookup_lt_is_Some in Hlt as [b Hb]. destruct (co_roles _ _ _ HC _ _ _ Hb Hj). lia.
Qed.

(** No addition of the commit wraps. *)
Lemma commit_eq b r :
  ph_Roles (curPhase c) !! role = Some b -> pc_Roles (curCount c) !! role = Some r ->
  commitAdmission sha256 id p f site role c =
  setProducer id admittedProducer c
    <| c_attempts := c_attempts c + 1 |>
    <| c_counts ::= fun l => <[c_phase c := admittedCount b r]> l |>
    <| c_digest := admissionDigest sha256 (c_digest c) id f (si_Role site) |>.
Proof.
  intros Hb Hr. pose proof (curCount_ok c HD) as HC.
  destruct (co_roles _ _ _ HC _ _ _ Hb Hr) as (_ & Hrb & Hbl).
  pose proof HD as [HB HP]. destruct (HP _ _ Hp) as [Ho _ _ _ _ _ _].
  pose proof (bo_limit _ _ _ _ _ _ HB). pose proof (bo_attempts _ _ _ _ _ _ HB).
  unfold roleCount, roleBudget in Hbudget. rewrite !nth_lookup, Hb, Hr in Hbudget. cbn in Hbudget.
  assert (Hle : pc_Attempts (curCount c) <= c_attempts c).
  { rewrite (bo_sum _ _ _ _ _ _ HB).
    apply zsum_elem_le.
    + intros y (n & -> & [i Hi]%list_elem_of_lookup)%list_elem_of_fmap.
      pose proof (lookup_lt_Some _ _ _ Hi) as Hlt. rewrite (bo_len _ _ _ _ _ _ HB) in Hlt.
      apply lookup_lt_is_Some in Hlt as [ph Hi']. eapply count_bounds, (bo_counts _ _ _ _ _ _ HB); eauto.
    + apply list_elem_of_fmap. exists (curCount c). split; [reflexivity|].
      eapply list_elem_of_lookup_2, da_curCount_lookup, HD. }
  pose proof (count_bounds _ _ _ HC).
  unfold commitAdmission, roleCount. rewrite !nth_lookup, Hr. change (default _ (Some r)) with r.
  rewrite Hord, (u64_small (ps_ordinal p + 1)), (u64_small (c_attempts c + 1)),
    (u64_small (pc_Attempts _ + 1)), (u64_small (rc_Attempts r + 1)) by lia.
  reflexivity.
Qed.

Lemma admittedCount_ok b r :
  ph_Roles (curPhase c) !! role = Some b -> pc_Roles (curCount c) !! role = Some r ->
  rc_Attempts r < rb_Attempts b -> CountOK (c_limits c) (curPhase c) (admittedCount b r).
Proof.
  intros Hb Hr Hlt. pose proof (curCount_ok c HD) as [? ? ? Hlen Hrs Hsum]. split; cbn; auto.
  - rewrite length_insert. exact Hlen.
  - intros j b' r' Hb' Hr'.
    destruct (lookup_insert_cases _ _ _ _ _ _ Hr Hr') as [[-> ->]|[Hne Hj]]; [|eauto].
    assert (b' = b) as -> by congruence. destruct (Hrs _ _ _ Hb Hr) as (? & ? & ?). cbn.
    repeat split; auto; lia.
  - rewrite (zsum_fmap_insert _ _ _ _ _ Hr), Hsum. cbn. lia.
Qed.

Lemma admittedProducer_ok :
  ProducerOK (c_limits c) (c_phases c) (c_phase c) admittedProducer.
Proof.
  pose proof HD as [_ HP]. destruct (HP _ _ Hp) as [? ? Hk Hs Hi Hc ?].
  assert (Hnew : ps_active p !! (ps_ordinal p + 1) = None).
  { destruct (ps_active p !! (ps_ordinal p + 1)) eqn:E; [|reflexivity]. apply Hk in E. lia. }
  split; cbn; auto; try lia.
  - intros k a [[<- _]|[_ Ha]]%lookup_insert_Some; [lia|]. apply Hk in Ha. lia.
  - rewrite map_size_insert_None by assumption. lia.
  - intros [?|?]; congruence.
  - intros ph Hl Heq. pose proof (da_curPhase_lookup c HD) as Hcur. rewrite Hcur in Hl. injection Hl as <-.
    congruence.
Qed.

Lemma commit_dispatch_ok : DispatchOK (commitAdmission sha256 id p f site role c).
Proof.
  destruct roles_found as (b & r & Hb & Hsr & Hr & Hlt & Hbl). rewrite (commit_eq b r Hb Hr).
  pose proof (da_curCount_lookup c HD) as Hcc. pose proof (da_curPhase_lookup c HD) as Hcur.
  pose proof HD as [HB HP]. destruct HB. split; [split|]; cbn; auto; try lia.
  - rewrite length_insert. exact bo_len0.
  - intros i ph n Hi Hn.
    destruct (lookup_insert_cases _ _ _ _ _ _ Hcc Hn) as [[-> ->]|[Hne Hj]]; [|eauto].
    assert (ph = curPhase c) as -> by congruence. apply admittedCount_ok; auto; lia.
  - rewrite (zsum_fmap_insert _ _ _ _ _ Hcc), <- bo_sum0. cbn. lia.
  - intros k q [[<- <-]|[_ Hq]]%lookup_insert_Some; [apply admittedProducer_ok|eauto].
Qed.

Lemma commit_log_ok log :
  LogOK log c -> LogOK (log ++ [mkAdmission id f (si_Role site)]) (commitAdmission sha256 id p f site role c).
Proof.
  intros [L1 L2 L3 L4 L5].
  destruct roles_found as (b & r & Hb & Hsr & Hr & Hlt & Hbl). rewrite (commit_eq b r Hb Hr).
  pose proof (da_curCount_lookup c HD) as Hcc. pose proof (da_curPhase_lookup c HD) as Hcur.
  pose proof HD as [HB HP]. pose proof (po_ordinal _ _ _ _ (HP _ _ Hp)).
  split; cbn.
  - rewrite length_app. cbn. lia.
  - rewrite L2. unfold chain. rewrite fold_left_app. reflexivity.
  - intros k q. rewrite tally_snoc. unfold byProducer at 2. cbn.
    intros [[<- <-]|[Hne Hq]]%lookup_insert_Some.
    + rewrite Z.eqb_refl. cbn. rewrite (L3 _ _ Hp). reflexivity.
    + rewrite (proj2 (Z.eqb_neq id k) Hne), Z.add_0_r. eauto.
  - intros i ph n j b' r' Hi Hn Hb' Hr'. rewrite tally_snoc. unfold byRole at 2. cbn.
    destruct (lookup_insert_cases _ _ _ _ _ _ Hcc Hn) as [[-> ->]|[Hne Hn']].
    + assert (ph = curPhase c) as -> by congruence. rewrite Hph, Z.eqb_refl. cbn in Hr'. cbn [andb].
      destruct (lookup_insert_cases _ _ _ _ _ _ Hr Hr') as [[-> ->]|[Hnj Hr'']].
      * assert (b' = b) as -> by congruence. rewrite Hsr, Z.eqb_refl. cbn.
        rewrite (L4 _ _ _ _ _ _ Hcur Hcc Hb Hr), Hsr. reflexivity.
      * destruct (Z.eqb_spec (si_Role site) (rb_Role b')) as [He|_]; [|rewrite Z.add_0_r; eauto].
        destruct Hnj. apply (fmap_nodup_inj rb_Role (ph_Roles (curPhase c)) _ _ b' b); auto; [|congruence].
        apply (curCount_ok c HD).
    + destruct (Z.eqb_spec (fr_phase f) (ph_ID ph)) as [He|_]; [|rewrite Z.add_0_r; eauto].
      destruct Hne. apply (fmap_nodup_inj ph_ID (c_phases c) _ _ ph (curPhase c)); auto; [|congruence].
      apply HB.
  - intros k e Hk. destruct (decide (k < length log)%nat) as [Hl|Hl].
    + rewrite lookup_app_l in Hk by assumption. rewrite take_app_le by lia. auto.
    + rewrite lookup_app_r in Hk by lia. apply list_lookup_singleton_Some in Hk as [Hz <-].
      rewrite take_app_ge by lia. rewrite Hz. cbn. rewrite app_nil_r, Hord, u64_small by lia.
      rewrite (L3 _ _ Hp). reflexivity.
Qed.
End Admit.

(** ** Every event *)
Lemma effect_ok id f c p c' :
  Framed c id f p -> DispatchOK c ->
  let c1 := setProducer id (bumped p) c in
  effect sha256 id (bumped p) f c1 c' ->
  DispatchOK c' /\ forall log, LogOK log c ->
    LogOK (log ++ match ps_sites p !! fr_site f with
                  | Some site => if fr_op f =? opAdmit then [mkAdmission id f (si_Role site)] else []
                  | None => []
                  end) c'.
Proof.
  intros HF Hok c1 He. pose proof HF as [Hl _ _ Hatt Hcl _ Hmax _ Hphase].
  assert (Hb : preserves c c1) by (eapply update_ok; eauto using bumped_ok).
  assert (Hp1 : c_producers c1 !! id = Some (bumped p)) by apply lookup_insert_eq.
  pose proof (proj1 Hb Hok) as Hok1.
  assert (Hother : fr_op f <> opAdmit -> preserves c1 c' ->
    DispatchOK c' /\ forall log, LogOK log c ->
    LogOK (log ++ match ps_sites p !! fr_site f with
                  | Some site => if fr_op f =? opAdmit then [mkAdmission id f (si_Role site)] else []
                  | None => []
                  end) c').
  { intros Hop [H1 H2]. rewrite (proj2 (Z.eqb_neq _ _) Hop). split; [auto|]. intros log HL.
    destruct (ps_sites p !! fr_site f); rewrite app_nil_r; apply H2, Hb, HL. }
  destruct He as [site role Hop Hs Ho1 Ho2 Hcp Hfe Hac Hat Hri Hbu|a Hop Ha|a Hop Ha Hpe Hca
                 |Hop Ho Hfe Hca|Hop Ho Hem].
  - assert (Hph : fr_phase f = ph_ID (curPhase c1)).
    { destruct Hphase as [->|[_ [Hc|Hc]]]; [reflexivity|..]; rewrite Hop in Hc; discriminate. }
    cbn in Hs. rewrite Hs, Hop. cbn.
    split; [apply commit_dispatch_ok; auto|]. intros log HL. apply commit_log_ok; auto. apply Hb, HL.
  - apply Hother; [rewrite Hop; discriminate|]. eapply update_ok; eauto. intros _ [? ? Hk Hsz Hi Hc ?].
    split; cbn; auto.
    + intros k x [_ Hx]%lookup_delete_Some. eauto.
    + rewrite map_size_delete_Some by (exists a; exact Ha). cbn in Hsz. lia.
    + intros Hx. specialize (Hi Hx). cbn in Hi. rewrite Hi. apply delete_empty.
    + intros ph Hph Heq k x [_ Hx]%lookup_delete_Some. eauto.
  - apply Hother; [rewrite Hop; discriminate|]. eapply update_ok; eauto. intros _ [? ? Hk Hsz Hi Hc ?].
    split; cbn; auto.
    + intros k x [[<- _]|[_ Hx]]%lookup_insert_Some; eauto.
    + rewrite map_size_insert_Some; [exact Hsz|exists a; exact Ha].
    + intros Hx. rewrite (Hi Hx), lookup_empty in Ha. discriminate.
    + intros ph Hph Heq k x [[_ <-]|[_ Hx]]%lookup_insert_Some; [reflexivity|]. eauto.
  - apply Hother; [rewrite Hop; discriminate|]. eapply update_ok; eauto. intros _ [? ? Hk Hsz Hi Hc Hcp].
    pose proof (da_curPhase_lookup c1 Hok1) as Hcur.
    split; cbn; auto.
    + intros [Hx|Hx]; [auto|discriminate].
    + destruct Hphase as [->|[-> _]]; [|exact Hcp]. right. exists (c_phase c), (curPhase c). auto.
  - apply Hother; [rewrite Hop; discriminate|]. eapply update_ok; eauto. intros _ [? ? Hk Hsz Hi Hc Hcp].
    pose proof (da_curPhase_lookup c1 Hok1) as Hcur.
    split; cbn; auto.
    + intros ph _ _ k x Hx. cbn in Hem. rewrite Hem, lookup_empty in Hx. discriminate.
    + destruct Hphase as [->|[-> _]]; [|exact Hcp]. right. exists (c_phase c), (curPhase c). auto.
Qed.

Lemma da_unlogged_ok ev c c' :
  logged sha256 ev c = [] -> preserves c c' -> DispatchOK c ->
  DispatchOK c' /\ forall log, LogOK log c -> LogOK (log ++ logged sha256 ev c) c'.
Proof. intros -> [H1 H2] Hok. split; [auto|]. intros log HL. rewrite app_nil_r. auto. Qed.

Lemma accept_ok id f c r c' :
  accept sha256 id f c = (r, c') -> DispatchOK c ->
  DispatchOK c' /\ forall log, LogOK log c -> LogOK (log ++ logged sha256 (EvAccept id f) c) c'.
Proof.
  intros E Hok. cbn [logged]. rewrite E. cbn [fst].
  apply accept_inv in E as [[Hl [e ->]]|(p & HF & [[Hl [e ->]]|[-> He]])].
  - destruct (da_latched_ok _ _ Hl) as [H1 H2]. split; [auto|]. intros log HL. rewrite app_nil_r. auto.
  - pose proof HF as [Hlk _ _ _ _ _ Hmax _ _].
    assert (preserves c c') as [H1 H2].
    { eapply preserves_trans; [|apply da_latched_ok, Hl]. eapply update_ok; eauto using bumped_ok. }
    split; [auto|]. intros log HL. rewrite app_nil_r. auto.
  - destruct (effect_ok _ _ _ _ _ HF Hok He) as [H1 H2]. split; [exact H1|].
    intros log HL. specialize (H2 log HL). rewrite (fd_lookup _ _ _ _ HF). cbn.
    destruct (ps_sites p !! fr_site f), (fr_op f =? opAdmit); exact H2.
Qed.

Ltac same_active :=
  eapply updates_ok; [eassumption|];
  intros p Hg; split; [reflexivity|]; intros _ [? ? ? ? Hi ? ?]; split; cbn; auto.

Lemma da_apply_ok ev c :
  DispatchOK c ->
  DispatchOK (apply sha256 ev c) /\
  forall log, LogOK log c -> LogOK (log ++ logged sha256 ev c) (apply sha256 ev c).
Proof.
  intros Hok. destruct ev as [|e| | |id|id|id w| | |id pid| |id|id f|id f].
  14: { cbn [apply]. destruct (accept sha256 id f c) as [r c'] eqn:E. cbn [snd].
        eapply accept_ok; eauto. }
  all: apply da_unlogged_ok; [reflexivity| |exact Hok]; cbn [apply];
    try match goal with |- context [snd (?m ?x)] => destruct (m x) as [r c'] eqn:E; cbn [snd] end.
  - split; [intros H; exact H|]. intros log []. split; assumption.
  - apply da_latched_ok. eapply da_failLocked_latched, E.
  - apply da_Fence_inv in E as [[Hl _]| ->]; [apply da_latched_ok, Hl|apply fenced_ok].
  - apply da_Advance_inv in E as [[Hl _]|(_ & Hlt & _ & _ & ->)]; [apply da_latched_ok, Hl|].
    apply da_Advance_ok, Hlt.
  - apply ExpectHardDeath_inv in E as [[Hl _]|Hu]; [apply da_latched_ok, Hl|]. same_active.
  - apply CancelUnused_inv in E as [[Hl _]|Hu]; [apply da_latched_ok, Hl|]. same_active.
    intros _. apply Hi. left. apply Hg.
  - apply CloseHardDeath_inv in E as [[Hl _]|Hu]; [apply da_latched_ok, Hl|].
    pose proof (bo_active _ _ _ _ _ _ (proj1 Hok)). same_active.
    + intros k a Hk. rewrite lookup_empty in Hk. discriminate.
    + rewrite map_size_empty. lia.
    + intros ph _ _ k a Hk. rewrite lookup_empty in Hk. discriminate.
  - apply RetireBackupEndpoint_inv in E as [[Hl _]|Hu]; [apply da_latched_ok, Hl|]. same_active.
  - apply da_latched_ok. pose proof (da_Snapshot_state c) as H. rewrite E in H. exact H.
  - apply attach_inv in E as [[Hl _]|Hu]; [apply da_latched_ok, Hl|]. same_active.
    intros [?|?]; [discriminate|auto].
  - apply reservePair_inv in E as [[Hl _]|(Hw & ->)]; [apply da_latched_ok, Hl|].
    split; [|intros log []; split; assumption]. intros [HB HP]. split; [|exact HP].
    destruct HB as [? ? ? ? ? ? ? ? (Hw1 & Hw2 & Hw3)]. split; auto.
    rewrite u64_small in Hw by lia. unfold FrameBytes in *.
    cbn [c_wireBytes c_limits setter]. rewrite (u64_small (c_wireBytes c + 2 * 64)) by lia.
    change (0 <= c_wireBytes c + 2 * 64 <= li_WireBytes (c_limits c) /\
            li_WireBytes (c_limits c) <= MaxUint64 /\ (2 * 64 | c_wireBytes c + 2 * 64)).
    split; [lia|]. split; [lia|].
    apply Z.divide_add_r; [exact Hw3|]. apply Z.divide_refl.
  - apply endStream_inv in E as [[Hl _]|(p & c1 & Hp & -> & Hl)]; [apply da_latched_ok, Hl|].
    eapply preserves_trans; [|apply da_latched_ok, Hl]. eapply update_ok; eauto.
    intros _ []. split; auto.
  - apply da_latched_ok. eapply checked_state, E.
Qed.

Lemma da_runs_ok config log c :
  typedConfig config -> runs sha256 config log c -> DispatchOK c /\ LogOK log c.
Proof.
  intros Hty H. induction H as [c HN|log c ev _ [IH1 IH2]].
  - eapply da_New_ok; eassumption.
  - destruct (da_apply_ok ev c IH1). auto.
Qed.
End Log.
