(* ===== verification/DispatchTheorems.v ===== *)
(** * What the dispatch-admission controller guarantees *)
From S2P Require Import Prelude Bytes DispatchAdmission DispatchSteps DispatchInvariant.

Section Theorems.
Context (sha256 : list Z -> list Z).

(** ** What no event changes *)
Definition static (c c' : Controller) : Prop :=
  c_limits c' = c_limits c /\ c_phases c' = c_phases c /\ c_producerOrder c' = c_producerOrder c /\
  dom (c_producers c') = dom (c_producers c).

(** Sequence numbers only grow. *)
Definition sequenceGrows (c c' : Controller) : Prop :=
  forall id p, c_producers c !! id = Some p ->
    exists p', c_producers c' !! id = Some p' /\ ps_sequence p <= ps_sequence p'.

Definition steps (c c' : Controller) : Prop :=
  static c c' /\ sequenceGrows c c' /\ c_wireBytes c <= c_wireBytes c'.

Lemma steps_trans c1 c2 c3 : steps c1 c2 -> steps c2 c3 -> steps c1 c3.
Proof.
  intros [(? & ? & ? & ?) [G1 ?]] [(? & ? & ? & ?) [G2 ?]]. split; [repeat split; congruence|].
  split; [|lia].
  intros id p Hp. destruct (G1 id p Hp) as (q & Hq & ?). destruct (G2 id q Hq) as (r & Hr & ?).
  exists r. split; [exact Hr|lia].
Qed.

(** A step that keeps the limits, phases, order and producers. *)
Lemma steps_same c c' :
  c_limits c' = c_limits c -> c_phases c' = c_phases c -> c_producerOrder c' = c_producerOrder c ->
  c_producers c' = c_producers c -> c_wireBytes c <= c_wireBytes c' -> steps c c'.
Proof.
  intros ? ? ? Hp Hw. split; [repeat split; auto; congruence|]. split; [|exact Hw]. intros id p Hid. rewrite Hp.
  exists p. split; [exact Hid|lia].
Qed.

Lemma latched_steps c c' : latched c c' -> steps c c'.
Proof. intros (e & d & ->). apply steps_same; reflexivity. Qed.

(** A step that also replaces one producer. *)
Lemma replaced_steps c c' id p p' :
  c_limits c' = c_limits c -> c_phases c' = c_phases c -> c_producerOrder c' = c_producerOrder c ->
  c_producers c !! id = Some p -> c_producers c' = <[id := p']> (c_producers c) ->
  ps_sequence p <= ps_sequence p' -> c_wireBytes c' = c_wireBytes c -> steps c c'.
Proof.
  intros ? ? ? Hp Hc Hs Hw. split; [|split; [|rewrite Hw; lia]].
  - repeat split; auto. rewrite Hc. rewrite dom_insert_L.
    assert (id ∈ dom (c_producers c)) as Hin by (apply elem_of_dom; eauto).
    apply subseteq_union_L, singleton_subseteq_l, Hin.
  - intros k q Hq. rewrite Hc. destruct (decide (k = id)) as [->|Hne].
    + rewrite lookup_insert_eq. exists p'. split; [reflexivity|]. congruence.
    + rewrite lookup_insert_ne by congruence. exists q. split; [exact Hq|lia].
Qed.

Lemma updates_steps c id guard f c' :
  updates c id guard f c' -> (forall p, ps_sequence (f p) = ps_sequence p) -> steps c c'.
Proof.
  intros (p & Hp & _ & ->) Hf. eapply (replaced_steps _ _ id p (f p)); try reflexivity; [exact Hp|].
  rewrite Hf. lia.
Qed.

Lemma effect_steps id f c p c' :
  DispatchOK c -> Framed c id f p ->
  effect sha256 id (bumped p) f (setProducer id (bumped p) c) c' ->
  steps c c' /\ exists p', c_producers c' !! id = Some p' /\ ps_sequence p' = fr_sequence f.
Proof.
  intros [_ HP] HF He. pose proof HF as [Hl _ _ _ _ _ Hmax Hseq _].
  destruct (HP _ _ Hl) as [_ Hs _ _ _ _ _].
  assert (Hb : ps_sequence p <= ps_sequence (bumped p)) by (cbn; rewrite u64_small by lia; lia).
  assert (Hc : exists p', c_producers c' = <[id := p']> (c_producers c) /\
            ps_sequence p' = ps_sequence (bumped p) /\ c_limits c' = c_limits c /\
            c_phases c' = c_phases c /\ c_producerOrder c' = c_producerOrder c /\
            c_wireBytes c' = c_wireBytes c).
  { destruct He; (eexists; split; [cbn; rewrite insert_insert_eq; reflexivity|repeat split]). }
  destruct Hc as (p' & Hc & Hs' & ? & ? & ? & ?). split.
  - eapply (replaced_steps _ _ id p p'); auto. rewrite Hs'. exact Hb.
  - exists p'. rewrite Hc, lookup_insert_eq. split; [reflexivity|]. rewrite Hs', Hseq. reflexivity.
Qed.

Lemma accept_steps id f c r c' :
  DispatchOK c -> accept sha256 id f c = (r, c') -> steps c c'.
Proof.
  intros Hok E. apply accept_inv in E as [[Hl _]|(p & HF & [[Hl _]|[_ He]])].
  - apply latched_steps, Hl.
  - eapply steps_trans; [|apply latched_steps, Hl]. destruct HF as [Hp _ _ _ _ _ Hmax _ _].
    destruct (proj2 Hok _ _ Hp) as [_ Hs _ _ _ _ _].
    eapply (replaced_steps _ _ id p (bumped p)); try reflexivity; [exact Hp|].
    cbn. rewrite u64_small by lia. lia.
  - eapply effect_steps; eauto.
Qed.

Lemma reserve_fits c :
  DispatchOK c -> 2 * FrameBytes <= u64 (li_WireBytes (c_limits c) - c_wireBytes c) ->
  u64 (c_wireBytes c + 2 * FrameBytes) = c_wireBytes c + 2 * FrameBytes /\
  c_wireBytes c + 2 * FrameBytes <= li_WireBytes (c_limits c).
Proof.
  intros [[_ _ _ _ _ _ _ _ (Hw1 & Hw2 & _)] _] H. rewrite u64_small in H by lia.
  unfold FrameBytes in *. split; [apply u64_small|]; lia.
Qed.

Lemma apply_steps ev c : DispatchOK c -> steps c (apply sha256 ev c).
Proof.
  intros Hok. destruct ev as [|e| | |id|id|id w| | |id pid| |id|id f|id f]; cbn [apply];
    try match goal with |- context [snd (?m ?x)] => destruct (m x) as [r c'] eqn:E; cbn [snd] end.
  - apply steps_same; reflexivity.
  - apply latched_steps. eapply da_failLocked_latched, E.
  - apply da_Fence_inv in E as [[Hl _]| ->]; [apply latched_steps, Hl|apply steps_same; reflexivity].
  - apply da_Advance_inv in E as [[Hl _]|(_ & _ & _ & _ & ->)]; [apply latched_steps, Hl|apply steps_same; reflexivity].
  - apply ExpectHardDeath_inv in E as [[Hl _]|Hu]; [apply latched_steps, Hl|eapply updates_steps; eauto].
  - apply CancelUnused_inv in E as [[Hl _]|Hu]; [apply latched_steps, Hl|eapply updates_steps; eauto].
  - apply CloseHardDeath_inv in E as [[Hl _]|Hu]; [apply latched_steps, Hl|eapply updates_steps; eauto].
  - apply RetireBackupEndpoint_inv in E as [[Hl _]|Hu]; [apply latched_steps, Hl|eapply updates_steps; eauto].
  - apply latched_steps. pose proof (da_Snapshot_state c) as H. rewrite E in H. exact H.
  - apply attach_inv in E as [[Hl _]|Hu]; [apply latched_steps, Hl|eapply updates_steps; eauto].
  - apply reservePair_inv in E as [[Hl _]|(Hw & ->)]; [apply latched_steps, Hl|].
    destruct (reserve_fits c Hok Hw) as [Hu _]. apply steps_same; try reflexivity. cbn. rewrite Hu.
    unfold FrameBytes. lia.
  - apply endStream_inv in E as [[Hl _]|(p & c1 & Hp & -> & Hl)]; [apply latched_steps, Hl|].
    eapply steps_trans; [|apply latched_steps, Hl].
    eapply (replaced_steps _ _ id p); try reflexivity. exact Hp.
  - apply latched_steps. eapply checked_state, E.
  - eapply accept_steps; eauto.
Qed.

Lemma applyAll_steps evs c : DispatchOK c -> DispatchOK (applyAll sha256 evs c) /\ steps c (applyAll sha256 evs c).
Proof.
  revert c; induction evs as [|ev evs IH]; intros c Hok.
  - split; [exact Hok|apply steps_same; reflexivity].
  - destruct (da_apply_ok sha256 ev c Hok) as [Hok' _]. destruct (IH _ Hok') as [H1 H2].
    split; [exact H1|]. eapply steps_trans; [apply apply_steps, Hok|exact H2].
Qed.

Lemma newProducers_dom l b ps b' :
  newProducers l b ps = Ok b' -> dom (bd_producers b) = list_to_set (bd_order b) ->
  dom (bd_producers b') = list_to_set (C := gset Z) (bd_order b').
Proof.
  revert b; induction ps as [|p ps IH]; intros b H Hb; cbn in H; [injection H as <-; exact Hb|].
  destruct (_ || _); [discriminate|]. destruct (newSites _ _ _) as [[sites roles]|]; [|discriminate].
  apply IH in H; [exact H|]. cbn. rewrite dom_insert_L, list_to_set_app_L, Hb. cbn.
  rewrite union_empty_r_L. apply union_comm_L.
Qed.

Lemma New_static config c :
  New true config = Ok c -> c_limits c = cf_Limits config /\ c_phases c = cf_Phases config /\
  dom (c_producers c) = list_to_set (C := gset Z) (c_producerOrder c).
Proof.
  unfold New. destruct (_ || _); [discriminate|].
  destruct (newProducers _ _ _) as [b|] eqn:Ep; [|discriminate].
  destruct (_ <? _); [discriminate|]. destruct (negb _); [discriminate|]. intros [= <-]. cbn.
  split; [reflexivity|]. split; [reflexivity|]. eapply newProducers_dom; [exact Ep|reflexivity].
Qed.

Lemma runs_static config log c :
  typedConfig config -> runs sha256 config log c ->
  c_limits c = cf_Limits config /\ c_phases c = cf_Phases config /\
  dom (c_producers c) = list_to_set (C := gset Z) (c_producerOrder c).
Proof.
  intros Hty. induction 1 as [c HN|log c ev Hr (IH1 & IH2 & IH3)].
  - eapply New_static, HN.
  - destruct (da_runs_ok _ _ _ _ Hty Hr) as [Hok _].
    destruct (apply_steps ev c Hok) as [(-> & -> & -> & ->) _]. auto.
Qed.

(** ** The theorems *)

(** C11: the log of admissions determines every counter: the total is its
    length and within the limit, the digest is the hash chain over it, a
    producer's ordinal and a phase's role count are the numbers of its
    entries, each role stays within its budget, and a producer's admissions
    carry the consecutive ordinals 1, 2, 3, ... *)
Theorem dispatch_log_exact config log c :
  typedConfig config -> runs sha256 config log c ->
  c_attempts c = Z.of_nat (length log) /\ c_attempts c <= li_Attempts (cf_Limits config) /\
  c_digest c = chain sha256 log /\
  (forall id p, c_producers c !! id = Some p -> ps_ordinal p = tally (byProducer id) log) /\
  (forall i ph n j b r, cf_Phases config !! i = Some ph -> c_counts c !! i = Some n ->
     ph_Roles ph !! j = Some b -> pc_Roles n !! j = Some r ->
     rc_Attempts r = tally (byRole (ph_ID ph) (rb_Role b)) log /\ rc_Attempts r <= rb_Attempts b) /\
  (forall k e, log !! k = Some e ->
     fr_ordinal (am_frame e) = tally (byProducer (am_producer e)) (take k log) + 1).
Proof.
  intros Hty Hr. destruct (da_runs_ok _ _ _ _ Hty Hr) as [[HB HP] [L1 L2 L3 L4 L5]].
  destruct (runs_static _ _ _ Hty Hr) as (Hl & Hph & _). rewrite <- Hl, <- Hph.
  destruct HB as [_ _ _ Hc Ha _ _ _ _].
  split; [exact L1|]. split; [lia|]. split; [exact L2|]. split; [exact L3|]. split; [|exact L5].
  intros i ph n j b r Hi Hn Hb Hj. split; [eauto|].
  apply (co_roles _ _ _ (Hc i ph n Hi Hn) _ _ _ Hb Hj).
Qed.

(** Active dispatches stay bounded: a producer never holds more than
    its limit, an unattached or closed one holds none, and every active
    token is an ordinal it has already been granted. *)
Theorem active_dispatches_bounded config log c id p :
  typedConfig config -> runs sha256 config log c -> c_producers c !! id = Some p ->
  Z.of_nat (size (ps_active p)) <= li_ActivePerProducer (cf_Limits config) /\
  (ps_attached p = false \/ ps_closed p = true -> ps_active p = ∅) /\
  (forall k a, ps_active p !! k = Some a -> 1 <= k <= tally (byProducer id) log).
Proof.
  intros Hty Hr Hp. destruct (da_runs_ok _ _ _ _ Hty Hr) as [[HB HP] HL].
  destruct (runs_static _ _ _ Hty Hr) as (Hl & _). rewrite <- Hl.
  destruct (HP _ _ Hp) as [_ _ Hk Hs Hi _ _]. rewrite <- (lg_ordinal _ _ _ HL _ _ Hp). auto.
Qed.

Lemma accept_Ok_sequence id f c c' :
  DispatchOK c -> accept sha256 id f c = (Ok tt, c') ->
  (exists p, c_producers c !! id = Some p /\ fr_sequence f = ps_sequence p + 1) /\
  (exists p', c_producers c' !! id = Some p' /\ ps_sequence p' = fr_sequence f).
Proof.
  intros Hok E. apply accept_inv in E as [[_ [e He]]|(p & HF & [[_ [e He]]|[_ He]])]; try discriminate.
  split; [|eapply effect_steps; eauto]. destruct HF as [Hp _ _ _ _ _ Hmax Hseq _].
  exists p. split; [exact Hp|]. destruct (proj2 Hok _ _ Hp) as [_ Hs _ _ _ _ _].
  rewrite Hseq, u64_small by lia. reflexivity.
Qed.

(** A frame the controller acknowledged is never accepted again, however
    the run continues: a replayed admission cannot be counted twice. *)
Theorem replayed_frame_rejected config log c id f c1 evs :
  typedConfig config -> runs sha256 config log c -> accept sha256 id f c = (Ok tt, c1) ->
  fst (accept sha256 id f (applyAll sha256 evs c1)) <> Ok tt.
Proof.
  intros Hty Hr E. destruct (da_runs_ok _ _ _ _ Hty Hr) as [Hok _].
  destruct (accept_Ok_sequence _ _ _ _ Hok E) as [_ (p1 & Hp1 & Hs1)].
  destruct (accept_ok sha256 _ _ _ _ _ E Hok) as [Hok1 _].
  destruct (applyAll_steps evs c1 Hok1) as [Hok2 (_ & Hg & _)].
  destruct (Hg _ _ Hp1) as (p2 & Hp2 & Hs2).
  destruct (accept sha256 id f (applyAll sha256 evs c1)) as [r c3] eqn:E2. cbn. intros ->.
  destruct (accept_Ok_sequence _ _ _ _ Hok2 E2) as [(q & Hq & Hsq) _].
  assert (q = p2) as -> by congruence. lia.
Qed.

(** [Advance] leaves a phase only when every attached, unclosed producer
    has checkpointed it, so that the only dispatches still active anywhere
    are persistent ones their producer declared carried. *)
Theorem advance_only_carries config log c c' :
  typedConfig config -> runs sha256 config log c -> Advance c = (Ok tt, c') ->
  c_phase c' = S (c_phase c) /\ c_fenced c' = false /\ c_producers c' = c_producers c /\
  forall id p, c_producers c' !! id = Some p ->
    (ps_attached p = true -> ps_closed p = false ->
     ps_hardDeath p = false /\ ps_checkpoint p = ph_ID (curPhase c)) /\
    forall k a, ps_active p !! k = Some a -> ad_persistent a = true /\ ad_carried a = true.
Proof.
  intros Hty Hr E. destruct (da_runs_ok _ _ _ _ Hty Hr) as [Hok _].
  apply da_Advance_inv in E as [[_ [e He]]|(_ & _ & Hb & _ & ->)]; [discriminate|].
  split; [reflexivity|]. split; [reflexivity|]. split; [reflexivity|].
  intros id p Hp. specialize (Hb id p Hp). destruct (proj2 Hok _ _ Hp) as [_ _ _ _ Hi Hc _].
  assert (Hcp : ps_attached p = true -> ps_closed p = false ->
            ps_hardDeath p = false /\ ps_checkpoint p = ph_ID (curPhase c)).
  { intros Ha Hcl. unfold blocksAdvance in Hb. rewrite Ha, Hcl in Hb. cbn in Hb. bsplit. auto. }
  split; [exact Hcp|]. intros k a Hk.
  destruct (ps_attached p) eqn:Ea; [|rewrite Hi, lookup_empty in Hk by auto; discriminate].
  destruct (ps_closed p) eqn:Ecl; [rewrite Hi, lookup_empty in Hk by auto; discriminate|].
  destruct (Hcp eq_refl eq_refl) as [_ Heq].
  pose proof (Hc _ (da_curPhase_lookup c Hok) Heq k a Hk) as Hn. unfold notCarried in Hn. bsplit. auto.
Qed.

(** A snapshot reports [Complete] only for a fenced controller without
    failure in which every configured producer is closed and no dispatch is
    active. *)
Theorem complete_snapshot_is_final config log c :
  typedConfig config -> runs sha256 config log c ->
  sn_Complete (fst (fst (Snapshot c))) = true ->
  c_err c = None /\ c_fenced c = true /\ snd (fst (Snapshot c)) = None /\
  forall id p, c_producers c !! id = Some p -> ps_closed p = true /\ ps_active p = ∅.
Proof.
  intros Hty Hr. destruct (da_runs_ok _ _ _ _ Hty Hr) as [[_ HP] _].
  destruct (runs_static _ _ _ Hty Hr) as (_ & _ & Hdom).
  unfold Snapshot, checkLocked. destruct (c_err c) eqn:Ee; [cbn; rewrite andb_false_r; discriminate|].
  destruct (c_done c); [unfold failLocked; rewrite Ee; cbn; rewrite andb_false_r; discriminate|].
  cbn. intros [Hf Hcl]%andb_true_iff. rewrite andb_true_r in Hf.
  split; [reflexivity|]. split; [exact Hf|]. split; [reflexivity|].
  intros id p Hp. assert (Hclosed : ps_closed p = true).
  { rewrite forallb_forall in Hcl. apply (Hcl (producerRow id p)), list_elem_of_In.
    unfold producerRows. apply list_elem_of_omap. exists id. split.
    - assert (id ∈ dom (c_producers c)) as Hin by (apply elem_of_dom; eauto).
      rewrite Hdom in Hin. apply elem_of_list_to_set in Hin. exact Hin.
    - rewrite Hp. reflexivity. }
  split; [exact Hclosed|]. apply (po_idle _ _ _ _ (HP _ _ Hp)). auto.
Qed.

(** The two loops over the roles agree when roles are distinct. *)
Lemma roleOpen_index role roles counts :
  NoDup (rb_Role <$> roles) -> length counts = length roles ->
  roleOpen role roles counts =
  match roleIndex role roles with
  | Some i => rc_Attempts (nth i counts (mkRoleCount 0 0)) <? rb_Attempts (nth i roles (mkRoleBudget 0 0))
  | None => false
  end.
Proof.
  revert counts; induction roles as [|r roles IH]; intros [|n counts] Hn Hl; try discriminate; [reflexivity|].
  rewrite fmap_cons in Hn. apply NoDup_cons in Hn as [Hni Hn]. cbn.
  rewrite (IH counts Hn ltac:(cbn in Hl; lia)). unfold roleIndex. cbn.
  destruct (Z.eqb_spec (rb_Role r) role) as [He|Hne]; cbn.
  - destruct (findIndex _ roles) as [i|] eqn:Ei; [|apply orb_false_r].
    apply findIndex_Some in Ei as (b & Hb & Hr & _). bsplit. destruct Hni. rewrite He.
    apply list_elem_of_fmap. exists b. split; [congruence|]. eapply list_elem_of_lookup_2, Hb.
  - destruct (findIndex _ roles); reflexivity.
Qed.

(** The decision both admission paths make, as a pure function. *)
Definition verdict (c : Controller) (p : producerState) (f : frame) : res err Site :=
  match ps_sites p !! fr_site f with
  | None => Err ErrProtocol
  | Some site =>
      if (ps_ordinal p =? MaxUint64) || negb (fr_ordinal f =? u64 (ps_ordinal p + 1))
         || (ps_checkpoint p =? fr_phase f)
      then Err ErrProtocol
      else if c_fenced c then Err ErrFenced
      else if (li_ActivePerProducer (c_limits c) <=? Z.of_nat (size (ps_active p)))
              || (li_Attempts (c_limits c) <=? c_attempts c)
      then Err ErrLimit
      else match roleIndex (si_Role site) (ph_Roles (curPhase c)) with
           | Some i => if roleCount c i <? roleBudget c i then Ok site else Err ErrLimit
           | None => Err ErrLimit
           end
  end.

Lemma fst_fail {A} e c : c_err c = None -> fst (@failLocked A e c) = Err e.
Proof. intros H. unfold failLocked. rewrite H. reflexivity. Qed.

Lemma admit_verdict id p f c :
  c_err c = None ->
  fst (acceptAdmit sha256 id p f c) = match verdict c p f with Ok _ => Ok tt | Err e => Err e end.
Proof.
  intros He. unfold acceptAdmit, verdict, bind, get.
  destruct (ps_sites p !! fr_site f) as [site|]; [|apply fst_fail, He].
  destruct (_ || _ || _); [apply fst_fail, He|]. destruct (c_fenced c); [apply fst_fail, He|].
  destruct (_ || _); [apply fst_fail, He|].
  destruct (roleIndex _ _) as [i|]; [|apply fst_fail, He].
  rewrite Z.ltb_antisym. destruct (_ <=? _); cbn [negb]; [apply fst_fail, He|reflexivity].
Qed.

(** The frame guards common to both. *)
Definition unframed (c : Controller) (p : producerState) (f : frame) : bool :=
  negb (ps_attached p) || ps_closed p || negb (bytes_eqb (fr_binding f) (ps_binding p))
  || (ps_sequence p =? MaxUint64) || negb (fr_sequence f =? u64 (ps_sequence p + 1))
  || negb (fr_phase f =? ph_ID (curPhase c)).

Definition decideAdmission (c : Controller) (id : Z) (f : frame) : res err Site :=
  match c_producers c !! id with
  | None => Err ErrProtocol
  | Some p => if ps_hardDeath p then Err errTerminating
              else if unframed c p f then Err ErrProtocol else verdict c p f
  end.

Lemma checked_admission c id f :
  DispatchOK c -> c_err c = None -> c_done c = false ->
  fst (checkedAdmissionSite id f c) = decideAdmission c id f.
Proof.
  intros Hok He Hd. pose proof (curCount_ok c Hok) as [_ _ Hnd Hlen _ _].
  unfold checkedAdmissionSite, decideAdmission, bind, checkLocked, get. rewrite He, Hd.
  destruct (c_producers c !! id) as [p|]; [|apply fst_fail, He].
  destruct (ps_hardDeath p); [reflexivity|].
  unfold unframed. destruct (_ || _); [apply fst_fail, He|]. unfold verdict.
  destruct (ps_sites p !! fr_site f) as [site|]; [|apply fst_fail, He].
  destruct (_ || _ || _); [apply fst_fail, He|]. destruct (c_fenced c); [apply fst_fail, He|].
  destruct (_ || _); [apply fst_fail, He|].
  rewrite (roleOpen_index _ _ _ Hnd Hlen). fold (roleBudget c) (roleCount c).
  destruct (roleIndex _ _) as [i|]; [|apply fst_fail, He].
  fold (roleCount c i) (roleBudget c i). destruct (_ <? _); [reflexivity|apply fst_fail, He].
Qed.

Lemma accept_admission c id f :
  c_err c = None -> c_done c = false -> fr_op f = opAdmit ->
  fst (accept sha256 id f c) = match decideAdmission c id f with Ok _ => Ok tt | Err e => Err e end.
Proof.
  intros He Hd Hop. unfold accept, decideAdmission, bind, checkLocked, get. rewrite He, Hd.
  destruct (c_producers c !! id) as [p|]; [|apply fst_fail, He].
  destruct (ps_hardDeath p); [reflexivity|].
  unfold unframed. destruct (_ || _ || _ || _ || _); [apply fst_fail, He|]. cbn [orb].
  unfold retiredClose. rewrite Hop.
  replace (opAdmit =? opClose) with false by reflexivity.
  replace (opAdmit =? opSettle) with false by reflexivity. cbn [andb negb orb]. rewrite !andb_true_r.
  destruct (negb _); [apply fst_fail, He|].
  exact (admit_verdict id _ f (setProducer id (bumped p) c) He).
Qed.

(** The pre-admission check and the acceptance that follows it agree:
    in the same state the check names a site exactly when the admission
    succeeds, and fails with the error the admission would latch. *)
Theorem checked_admission_agrees config log c id f :
  typedConfig config -> runs sha256 config log c -> fr_op f = opAdmit ->
  match fst (checkedAdmissionSite id f c) with
  | Ok site => fst (accept sha256 id f c) = Ok tt /\
      exists p, c_producers c !! id = Some p /\ ps_sites p !! fr_site f = Some site
  | Err e => fst (accept sha256 id f c) = Err e
  end.
Proof.
  intros Hty Hr Hop. destruct (da_runs_ok _ _ _ _ Hty Hr) as [Hok _].
  destruct (c_err c) as [e|] eqn:Ee.
  { unfold checkedAdmissionSite, accept, bind, checkLocked. rewrite Ee. reflexivity. }
  destruct (c_done c) eqn:Ed.
  { unfold checkedAdmissionSite, accept, bind, checkLocked, failLocked. rewrite Ee, Ed. reflexivity. }
  rewrite (checked_admission c id f Hok Ee Ed), (accept_admission c id f Ee Ed Hop).
  unfold decideAdmission, verdict. destruct (c_producers c !! id) as [p|]; [|reflexivity].
  destruct (ps_hardDeath p); [reflexivity|]. destruct (unframed c p f); [reflexivity|].
  destruct (ps_sites p !! fr_site f) as [site|] eqn:Es; [|reflexivity].
  destruct (_ || _ || _); [reflexivity|]. destruct (c_fenced c); [reflexivity|].
  destruct (_ || _); [reflexivity|]. destruct (roleIndex _ _); [|reflexivity].
  destruct (_ <? _); [eauto|reflexivity].
Qed.

(** ** The latch *)

(** What a latched controller may still change: the context flag, and the
    end-of-stream flags [endStream] records. *)
Definition sameButEof (p q : producerState) : Prop := q = p <| ps_eof := ps_eof q |>.
Definition frozen (c c' : Controller) : Prop :=
  (exists d ps, c' = c <| c_done := d |> <| c_producers := ps |>) /\
  (forall id, option_relation sameButEof (fun _ => False) (fun _ => False)
                (c_producers c !! id) (c_producers c' !! id)).

Lemma sameButEof_refl p : sameButEof p p.
Proof. unfold sameButEof. destruct p; reflexivity. Qed.

Lemma frozen_refl c : frozen c c.
Proof.
  split; [exists (c_done c), (c_producers c); destruct c; reflexivity|].
  intros id. destruct (c_producers c !! id); cbn; [apply sameButEof_refl|exact I].
Qed.

Lemma frozen_trans c1 c2 c3 : frozen c1 c2 -> frozen c2 c3 -> frozen c1 c3.
Proof.
  intros [(d & ps & ->) H1] [(d' & ps' & ->) H2]. split; [exists d', ps'; reflexivity|].
  intros id. specialize (H1 id). specialize (H2 id). cbn in *.
  destruct (c_producers c1 !! id) as [p|], (ps !! id) as [q|], (ps' !! id) as [r|]; cbn in *; try tauto.
  unfold sameButEof in *. rewrite H1 in H2. rewrite H2. reflexivity.
Qed.

Lemma da_checked_latched {A} (k : op A) c e :
  c_err c = Some e -> bind checkLocked (fun _ => k) c = (Err e, c).
Proof. intros He. unfold bind, checkLocked. rewrite He. reflexivity. Qed.

Lemma apply_frozen ev c e : c_err c = Some e -> frozen c (apply sha256 ev c).
Proof.
  intros He. destruct ev as [|e0| | |id|id|id w| | |id pid| |id|id f|id f]; cbn [apply];
    try (unfold Fence, Advance, ExpectHardDeath, CancelUnused, CloseHardDeath, RetireBackupEndpoint,
           attach, reservePair, checkedAdmissionSite, accept;
         rewrite (da_checked_latched _ _ _ He); apply frozen_refl).
  - split; [exists true, (c_producers c); reflexivity|]. intros id. cbn.
    destruct (c_producers c !! id); cbn; [apply sameButEof_refl|exact I].
  - unfold fail, failLocked. rewrite He. apply frozen_refl.
  - unfold Snapshot, checkLocked. rewrite He. apply frozen_refl.
  - unfold endStream, bind, get, failLocked.
    destruct (c_producers c !! id) as [p|] eqn:Ep; [|rewrite He; apply frozen_refl].
    assert (frozen c (setProducer id (p <| ps_eof := true |>) c)) as Hf.
    { split; [exists (c_done c); eexists; destruct c; reflexivity|]. intros k. cbn.
      destruct (decide (k = id)) as [->|Hne].
      - rewrite Ep, lookup_insert_eq. reflexivity.
      - rewrite lookup_insert_ne by congruence.
        destruct (c_producers c !! k); cbn; [apply sameButEof_refl|exact I]. }
    cbn [modify]. destruct (_ || _); [rewrite He; exact Hf|].
    change (c_err (setProducer id (p <| ps_eof := true |>) c)) with (c_err c). rewrite He. exact Hf.
Qed.

(** The first failure is final: whatever arrives afterwards, no counter,
    digest, phase, token or sequence changes, and every operation answers
    with that failure. *)
Theorem dispatch_failure_is_final c e evs :
  c_err c = Some e ->
  let c' := applyAll sha256 evs c in
  frozen c c' /\ c_err c' = Some e /\ c_attempts c' = c_attempts c /\ c_digest c' = c_digest c /\
  (forall id f, accept sha256 id f c' = (Err e, c')) /\ Advance c' = (Err e, c') /\
  Fence c' = (Err e, c') /\ reservePair c' = (Err e, c') /\
  sn_Complete (fst (fst (Snapshot c'))) = false.
Proof.
  intros He c'.
  assert (Hf : frozen c c').
  { subst c'. revert c He; induction evs as [|ev evs IH]; intros c He; [apply frozen_refl|].
    pose proof (apply_frozen ev c e He) as Hf. eapply frozen_trans; [exact Hf|]. apply IH.
    destruct Hf as [(d & ps & ->) _]. exact He. }
  split; [exact Hf|]. destruct Hf as [(d & ps & ->) _]. cbn.
  split; [exact He|]. split; [reflexivity|]. split; [reflexivity|].
  unfold accept, Advance, Fence, reservePair.
  repeat split; intros; try (apply da_checked_latched; exact He).
  unfold Snapshot, checkLocked. cbn. rewrite He. cbn. rewrite andb_false_r. reflexivity.
Qed.

(** ** The serving loop *)

Definition reaches (c c' : Controller) : Prop := exists evs, c' = applyAll sha256 evs c.

Lemma reaches_refl c : reaches c c.
Proof. exists []. reflexivity. Qed.

Lemma reaches_step ev c c' : reaches c c' -> reaches c (apply sha256 ev c').
Proof. intros [evs ->]. exists (evs ++ [ev]). unfold applyAll. rewrite fold_left_app. reflexivity. Qed.

Lemma finish_reaches m ev c c' :
  (forall s, snd (m s) = apply sha256 ev s) -> reaches c c' -> reaches c (snd (finish m c')).
Proof.
  intros Hm H. unfold finish. specialize (Hm c'). destruct (m c') as [r c2]. cbn in *. subst.
  apply reaches_step, H.
Qed.

Lemma fail_reaches e c c' : reaches c c' -> reaches c (snd (finish (fail e) c')).
Proof. apply (finish_reaches _ (EvFail e)). reflexivity. Qed.

Lemma orReturn_reaches {A} (m : op A) k ev c c' :
  (forall s, snd (m s) = apply sha256 ev s) -> (forall a s, reaches c s -> reaches c (snd (k a s))) ->
  reaches c c' -> reaches c (snd (orReturn m k c')).
Proof.
  intros Hm Hk H. unfold orReturn. specialize (Hm c'). destruct (m c') as [[a|e] c2]; cbn in Hm; subst.
  - apply Hk, reaches_step, H.
  - destruct e; apply reaches_step, H.
Qed.

Lemma commit_reaches producer request ok c c' :
  reaches c c' ->
  reaches c (snd (orReturn (accept sha256 producer request)
    (fun _ c3 => if negb ok then finish (fail ErrTransport) c3
                 else if fr_op request =? opClose then (Return (Ok tt), c3) else (Continue, c3)) c')).
Proof.
  apply (orReturn_reaches _ _ (EvAccept producer request)); [reflexivity|]. intros _ c3 H.
  destruct (negb ok); [apply fail_reaches, H|]. destruct (_ =? _); exact H.
Qed.

(** A round is a reservation followed by at most two reducer events. *)
Lemma round_reaches producer check input ok c c1 :
  reservePair c = (Ok tt, c1) -> reaches c1 (snd (serveRound sha256 producer check input ok c)).
Proof.
  intros E. unfold serveRound. rewrite E.
  destruct input as [| |raw].
  - apply (finish_reaches _ (EvEndStream producer)); [reflexivity|apply reaches_refl].
  - apply fail_reaches, reaches_refl.
  - destruct (decode raw) as [request|e]; [|apply fail_reaches, reaches_refl].
    destruct check as [f|]; [|apply commit_reaches, reaches_refl].
    destruct (fr_op request =? opAdmit); [|apply commit_reaches, reaches_refl].
    apply (orReturn_reaches _ _ (EvChecked producer request)); [reflexivity| |apply reaches_refl].
    intros site c2 H. destruct (f site); [apply commit_reaches, H|apply fail_reaches, H].
Qed.

(** [serveAttached]: rounds of one endpoint, with the events other owners
    interleave after each; [None] when the script ends before it returns. *)
Fixpoint serveAttached (producer : Z) (check : option (Site -> bool))
    (script : list (readResult * bool * list event)) (c : Controller)
    : option (res err unit) * Controller :=
  match script with
  | [] => (None, c)
  | (input, writeOk, others) :: rest =>
      match serveRound sha256 producer check input writeOk c with
      | (Return r, c') => (Some r, c')
      | (Continue, c') => serveAttached producer check rest (applyAll sha256 others c')
      end
  end.

Lemma round_continues producer check input ok c c' :
  DispatchOK c -> serveRound sha256 producer check input ok c = (Continue, c') ->
  DispatchOK c' /\ c_limits c' = c_limits c /\ c_wireBytes c + 2 * FrameBytes <= c_wireBytes c'.
Proof.
  intros Hok H. destruct (reservePair c) as [[[]|e] c1] eqn:E;
    [|unfold serveRound in H; rewrite E in H; discriminate].
  pose proof (round_reaches producer check input ok _ _ E) as [evs Hr]. rewrite H in Hr. cbn in Hr.
  destruct (da_apply_ok sha256 EvReserve c Hok) as [Hok1 _]. cbn in Hok1. rewrite E in Hok1. cbn in Hok1.
  destruct (applyAll_steps evs c1 Hok1) as [Hok2 ((Hl & _) & _ & Hw)]. rewrite <- Hr in Hok2, Hl, Hw.
  apply reservePair_inv in E as [[_ [e He]]|(Hfit & ->)]; [discriminate|].
  destruct (reserve_fits c Hok Hfit) as [Hu _]. split; [exact Hok2|]. split; [exact Hl|].
  cbn in Hw. rewrite Hu in Hw. exact Hw.
Qed.

Lemma serve_bound producer check script c c' :
  DispatchOK c -> serveAttached producer check script c = (None, c') ->
  c_wireBytes c + 2 * FrameBytes * Z.of_nat (length script) <= li_WireBytes (c_limits c).
Proof.
  revert c; induction script as [|[[input ok] others] rest IH]; intros c Hok H.
  - cbn. destruct Hok as [[_ _ _ _ _ _ _ _ (? & _ & _)] _]. lia.
  - cbn [serveAttached] in H. destruct (serveRound _ _ _ _ _ _) as [[|r] c1] eqn:E; [|discriminate].
    destruct (round_continues _ _ _ _ _ _ Hok E) as (Hok1 & Hl & Hw).
    destruct (applyAll_steps others c1 Hok1) as [Hok2 ((Hl2 & _) & _ & Hw2)].
    specialize (IH _ Hok2 H). cbn [length]. unfold FrameBytes in *. rewrite Hl2, Hl in IH. lia.
Qed.

(** Serving an endpoint terminates whatever it sends and whatever the
    other owners do: each round reserves 128 bytes of the frozen wire budget,
    so the loop returns within [WireBytes / 128] rounds. *)
Theorem serving_terminates config log c producer check script :
  typedConfig config -> runs sha256 config log c ->
  li_WireBytes (cf_Limits config) < 2 * FrameBytes * Z.of_nat (length script) ->
  exists r c', serveAttached producer check script c = (Some r, c').
Proof.
  intros Hty Hr Hlen. destruct (da_runs_ok _ _ _ _ Hty Hr) as [Hok _].
  destruct (serveAttached producer check script c) as [[r|] c'] eqn:E; [eauto|].
  pose proof (serve_bound _ _ _ _ _ Hok E) as Hb.
  destruct (runs_static _ _ _ Hty Hr) as (Hl & _). rewrite Hl in Hb.
  destruct Hok as [[_ _ _ _ _ _ _ _ (? & _ & _)] _]. lia.
Qed.
End Theorems.

(** ** Witnesses *)
Fixpoint execute (h : list Z -> list Z) (evs : list event) (log : list DispatchSteps.admission)
    (c : Controller) : list DispatchSteps.admission * Controller :=
  match evs with
  | [] => (log, c)
  | ev :: evs' => execute h evs' (log ++ logged h ev c) (apply h ev c)
  end.

Lemma execute_dispatch_runs h config evs log c :
  runs h config log c -> runs h config (fst (execute h evs log c)) (snd (execute h evs log c)).
Proof.
  revert log c; induction evs as [|ev evs IH]; intros log c Hr; [exact Hr|]. apply IH, runs_step, Hr.
Qed.

(** A stand-in for the hash: the first 32 bytes of the event. *)
Definition sampleHash (l : list Z) : list Z := take 32 (rev l).
Definition sampleBinding : list Z := replicate 32 7.
Definition sampleConfig : Config :=
  mkConfig (mkLimits 2 4 2 2 2 5 1024 1)
    [mkProducer 5 sampleBinding [mkSite 1 1 true; mkSite 2 2 false]]
    [mkPhase 11 [mkRoleBudget 1 2; mkRoleBudget 2 1]; mkPhase 12 [mkRoleBudget 1 1; mkRoleBudget 2 0]].
Definition noLimits : Limits := mkLimits 0 0 0 0 0 0 0 0.
Definition sampleNew : Controller :=
  match New true sampleConfig with
  | Ok c => c
  | Err _ => mkController true noLimits ∅ [] [] [] 0 false 0 0 [] None
  end.
Definition sampleAdmit : frame := mkFrame opAdmit 11 1 1 1 sampleBinding.
(** Admit a persistent dispatch, carry it over a fenced checkpoint. *)
Definition sampleEvents : list event :=
  [EvAttach 5 100; EvAccept 5 sampleAdmit; EvFence;
   EvAccept 5 (mkFrame opCarry 11 0 1 2 sampleBinding);
   EvAccept 5 (mkFrame opCheckpoint 11 0 1 3 sampleBinding)].
Definition sampleClosing : list event :=
  [EvAttach 5 100; EvAccept 5 (mkFrame opClose 11 0 0 1 sampleBinding); EvFence].
Definition sampleLog (evs : list event) := fst (execute sampleHash evs [] sampleNew).
Definition sampleState (evs : list event) := snd (execute sampleHash evs [] sampleNew).

Lemma sample_dispatch_typed : typedConfig sampleConfig.
Proof.
  unfold typedConfig, MaxUint64. cbn. repeat split; try lia.
  repeat (apply Forall_cons; split); try apply Forall_nil; cbn;
    repeat (apply Forall_cons; split); try apply Forall_nil; cbn; lia.
Qed.

Lemma sample_dispatch_runs evs : runs sampleHash sampleConfig (sampleLog evs) (sampleState evs).
Proof. apply execute_dispatch_runs, runs_new. vm_compute. reflexivity. Qed.

Lemma dispatch_log_exact_witness :
  length (sampleLog sampleEvents) = 1%nat /\ c_attempts (sampleState sampleEvents) = 1.
Proof.
  assert (length (sampleLog sampleEvents) = 1%nat) as Hl by (vm_compute; reflexivity).
  split; [exact Hl|].
  destruct (dispatch_log_exact sampleHash sampleConfig _ _ sample_dispatch_typed
    (sample_dispatch_runs sampleEvents)) as [H _].
  rewrite H, Hl. reflexivity.
Defined.

Definition sampleProducer (evs : list event) : producerState :=
  match c_producers (sampleState evs) !! 5 with
  | Some p => p
  | None => mkProducerState [] ∅ 0 0 ∅ 0 false 0 false false false false
  end.

Lemma active_dispatches_bounded_witness :
  size (ps_active (sampleProducer sampleEvents)) = 1%nat /\
  Z.of_nat (size (ps_active (sampleProducer sampleEvents))) <= 2.
Proof.
  split; [vm_compute; reflexivity|].
  destruct (active_dispatches_bounded sampleHash sampleConfig _ _ 5 (sampleProducer sampleEvents)
    sample_dispatch_typed (sample_dispatch_runs sampleEvents) ltac:(vm_compute; reflexivity)) as [H _].
  exact H.
Defined.

Lemma replayed_frame_rejected_witness :
  fst (accept sampleHash 5 sampleAdmit (sampleState [EvAttach 5 100])) = Ok tt /\
  fst (accept sampleHash 5 sampleAdmit
    (applyAll sampleHash [EvFence] (snd (accept sampleHash 5 sampleAdmit (sampleState [EvAttach 5 100])))))
  <> Ok tt.
Proof.
  split; [vm_compute; reflexivity|].
  apply (replayed_frame_rejected sampleHash sampleConfig _ _ 5 sampleAdmit _ [EvFence]
    sample_dispatch_typed (sample_dispatch_runs [EvAttach 5 100]) ltac:(vm_compute; reflexivity)).
Defined.

Lemma advance_only_carries_witness :
  fst (Advance (sampleState sampleEvents)) = Ok tt /\
  c_phase (snd (Advance (sampleState sampleEvents))) = S (c_phase (sampleState sampleEvents)).
Proof.
  split; [vm_compute; reflexivity|].
  destruct (advance_only_carries sampleHash sampleConfig _ _ (snd (Advance (sampleState sampleEvents)))
    sample_dispatch_typed (sample_dispatch_runs sampleEvents) ltac:(vm_compute; reflexivity)) as [H _].
  exact H.
Defined.

Lemma complete_snapshot_is_final_witness :
  sn_Complete (fst (fst (Snapshot (sampleState sampleClosing)))) = true /\
  c_fenced (sampleState sampleClosing) = true.
Proof.
  split; [vm_compute; reflexivity|].
  destruct (complete_snapshot_is_final sampleHash sampleConfig _ _ sample_dispatch_typed
    (sample_dispatch_runs sampleClosing) ltac:(vm_compute; reflexivity)) as (_ & H & _).
  exact H.
Defined.

Lemma checked_admission_agrees_witness :
  fst (checkedAdmissionSite 5 sampleAdmit (sampleState [EvAttach 5 100])) = Ok (mkSite 1 1 true) /\
  fst (accept sampleHash 5 sampleAdmit (sampleState [EvAttach 5 100])) = Ok tt.
Proof.
  assert (fst (checkedAdmissionSite 5 sampleAdmit (sampleState [EvAttach 5 100])) = Ok (mkSite 1 1 true))
    as Hc by (vm_compute; reflexivity).
  split; [exact Hc|].
  pose proof (checked_admission_agrees sampleHash sampleConfig _ _ 5 sampleAdmit
    sample_dispatch_typed (sample_dispatch_runs [EvAttach 5 100]) eq_refl) as H.
  rewrite Hc in H. exact (proj1 H).
Defined.

Lemma dispatch_failure_is_final_witness :
  let c := snd (fail ErrTransport sampleNew) in
  c_err c = Some ErrTransport /\ c_err (applyAll sampleHash sampleEvents c) = Some ErrTransport.
Proof.
  intros c. split; [vm_compute; reflexivity|].
  destruct (dispatch_failure_is_final sampleHash c ErrTransport sampleEvents
    ltac:(vm_compute; reflexivity)) as (_ & H & _). exact H.
Defined.

Lemma serving_terminates_witness :
  exists r c', serveAttached sampleHash 5 None
    (replicate 9 (ReadFrame (encode sampleAdmit), true, [])) (sampleState [EvAttach 5 100]) = (Some r, c').
Proof.
  apply (serving_terminates sampleHash sampleConfig _ _ 5 None
    (replicate 9 (ReadFrame (encode sampleAdmit), true, []))
    sample_dispatch_typed (sample_dispatch_runs [EvAttach 5 100])).
  vm_compute. reflexivity.
Defined.
