(* ===== verification/GoStrings.v ===== *)
(** * Go strings

    A Go string is its byte sequence, a [string] of bytes.  The bytewise order
    of [<], the white space of [strings.TrimSpace] and [sort.Search]. *)
From S2P Require Import Prelude.
From Stdlib Require Import Ascii String.

(** ** Order *)
Definition str_ltb (a b : string) : bool :=
  match String.compare a b with Lt => true | _ => false end.

Lemma str_compare_trans a b c :
  String.compare a b = Lt -> String.compare b c = Lt -> String.compare a c = Lt.
Proof.
  revert b c; induction a as [|x a IH]; intros [|y b] [|z c]; cbn; try discriminate; auto.
  unfold Ascii.compare.
  destruct (N.compare_spec (N_of_ascii x) (N_of_ascii y)) as [E|E|E]; try discriminate;
  destruct (N.compare_spec (N_of_ascii y) (N_of_ascii z)) as [E'|E'|E']; try discriminate;
  destruct (N.compare_spec (N_of_ascii x) (N_of_ascii z)) as [E''|E''|E'']; try lia; auto.
  eauto.
Qed.

Lemma str_compare_refl a : String.compare a a = Eq.
Proof.
  induction a as [|x a IH]; [reflexivity|]. cbn. unfold Ascii.compare. rewrite N.compare_refl. exact IH.
Qed.

Lemma str_ltb_trans a b c : str_ltb a b = true -> str_ltb b c = true -> str_ltb a c = true.
Proof.
  unfold str_ltb. destruct (String.compare a b) eqn:E1; try discriminate.
  destruct (String.compare b c) eqn:E2; try discriminate. rewrite (str_compare_trans _ _ _ E1 E2). auto.
Qed.

Lemma str_ltb_irrefl a : str_ltb a a = false.
Proof. unfold str_ltb. rewrite str_compare_refl. reflexivity. Qed.

Lemma str_ltb_total a b : str_ltb a b = false -> a <> b -> str_ltb b a = true.
Proof.
  unfold str_ltb. rewrite (String.compare_antisym b a).
  destruct (String.compare a b) eqn:E; cbn; try discriminate; auto.
  intros _ Hne. destruct Hne. apply String.compare_eq_iff, E.
Qed.

Lemma str_ltb_asym a b : str_ltb a b = true -> str_ltb b a = false.
Proof.
  intros H. apply not_true_is_false. intros H'. pose proof (str_ltb_trans _ _ _ H H') as Hf.
  rewrite str_ltb_irrefl in Hf. discriminate.
Qed.

(** ** White space *)

(** The UTF-8 encodings of the code points of [unicode.IsSpace]. *)
Definition byte (n : nat) : ascii := ascii_of_nat n.
Definition spaces : list (list ascii) :=
  ((fun n => [byte n]) <$> [9; 10; 11; 12; 13; 32]%nat)
  ++ [[byte 194; byte 133]; [byte 194; byte 160]; [byte 225; byte 154; byte 128]]
  ++ ((fun n => [byte 226; byte 128; byte n]) <$> [128; 129; 130; 131; 132; 133; 134; 135; 136; 137;
        138; 168; 169; 175]%nat)
  ++ [[byte 226; byte 129; byte 159]; [byte 227; byte 128; byte 128]].

(** [strings.TrimSpace(s) == s]: no white space at either end. *)
Definition trimmed (s : string) : bool :=
  let l := list_ascii_of_string s in
  negb (existsb (fun w => bool_decide (take (Datatypes.length w) l = w)
                          || bool_decide (drop (Datatypes.length l - Datatypes.length w) l = w)) spaces).

(** ** Binary search *)

(** [sort.Search]: the loop on [i < j]; each turn halves [j - i], so
    [fuel = n + 1] turns suffice. *)
Fixpoint searchLoop (fuel : nat) (f : nat -> bool) (i j : nat) : nat :=
  match fuel with
  | O => i
  | S fuel' =>
      if Nat.ltb i j
      then let h := Nat.div2 (i + j) in
           if f h then searchLoop fuel' f i h else searchLoop fuel' f (S h) j
      else i
  end.
Definition search (n : nat) (f : nat -> bool) : nat := searchLoop (S n) f 0 n.

(** On a monotone predicate the search finds the first true index. *)
Lemma searchLoop_spec f fuel i j :
  (forall a b, (a <= b)%nat -> f a = true -> f b = true) ->
  (j - i < fuel)%nat -> (i <= j)%nat -> (forall a, (a < i)%nat -> f a = false) ->
  let r := searchLoop fuel f i j in
  (i <= r <= j)%nat /\ (forall a, (a < r)%nat -> f a = false) /\ ((r < j)%nat -> f r = true).
Proof.
  intros Hm. revert i j; induction fuel as [|fuel IH]; intros i j Hfuel Hij Hlo; [lia|].
  cbn [searchLoop]. destruct (Nat.ltb_spec i j) as [Hlt|Hge].
  - assert (Hh : (i <= Nat.div2 (i + j) < j)%nat).
    { pose proof (Nat.div2_odd (i + j)). destruct (Nat.odd (i + j)); cbn in *; lia. }
    set (h := Nat.div2 (i + j)) in *. destruct (f h) eqn:Ef.
    + destruct (IH i h) as (H1 & H2 & H3); auto; try lia.
      split; [lia|]. split; [exact H2|]. intros Hr.
      destruct (Nat.eq_dec (searchLoop fuel f i h) h) as [->|Hne]; [exact Ef|apply H3; lia].
    + destruct (IH (S h) j) as (H1 & H2 & H3); auto; try lia.
      * intros a Ha. destruct (f a) eqn:E; [|reflexivity].
        rewrite (Hm a h) in Ef by (auto; lia). discriminate.
      * split; [lia|]. auto.
  - split; [lia|]. split; [exact Hlo|]. lia.
Qed.

Lemma search_spec n f :
  (forall a b, (a <= b)%nat -> f a = true -> f b = true) ->
  (search n f <= n)%nat /\ (forall a, (a < search n f)%nat -> f a = false) /\
  ((search n f < n)%nat -> f (search n f) = true).
Proof.
  intros Hm. destruct (searchLoop_spec f (S n) 0 n Hm) as (H1 & H2 & H3); [lia|lia|intros; lia|].
  split; [apply H1|]. auto.
Qed.
