(* ===== verification/LifecycleGate.v ===== *)
(** * Lifecycle policy and the disk-pressure gate

    Model of [internal/lifecycle/policy.go] (limits and owner normalization)
    and of [capacity.go]: the 128-bit percentage and the latched gate.
    [ProbeCapacity] is filesystem I/O: its result is an input of [Check]. *)
From S2P Require Import Prelude.
From Stdlib Require Import Ascii String.

(** ** Policy constants *)
Definition SelectedCleanupObservationDeletes : Z := 1024.
Definition SelectedCleanupSearchDeletes : Z := 64.
Definition SelectedCleanupRelationshipDeletes : Z := 1024.
Definition SoftWatermarkPercent : Z := 80.
Definition HardWatermarkPercent : Z := 90.
Definition ResumeWatermarkPercent : Z := 75.
Definition MaxOwnersPerController : Z := 32.
Definition MaxCandidatesPerTick : Z := 64.
Definition MaxDeletesPerTick : Z := 16.
Definition MaxQueriesPerTick : Z := 16.
Definition MaxStatsPerTick : Z := 256.
Definition MaxDescriptorsPerTick : Z := 8.
Definition MaxMetadataBytesPerTick : Z := 2 ^ 20.
Definition MaxPressureDependentAdmissionBytes : Z := 48 * 2 ^ 30.

Definition SearchOwner : string := "search-generations".
Definition ObservationV2Owner : string := "observation-v2-generations".
Definition RelationshipV3Owner : string := "relationship-v3-namespaces".

Definition SelectedCleanupDeleteLimit (owner : string) : Z :=
  if String.eqb owner ObservationV2Owner then SelectedCleanupObservationDeletes
  else if String.eqb owner SearchOwner then SelectedCleanupSearchDeletes
  else if String.eqb owner RelationshipV3Owner then SelectedCleanupRelationshipDeletes
  else MaxDeletesPerTick.

Record Limits := mkLimits {
  lm_Candidates : Z;
  lm_Deletes : Z;
  lm_Queries : Z;
  lm_Stats : Z;
  lm_Descriptors : Z;
  lm_MetadataBytes : Z
}.

Definition DefaultLimits : Limits :=
  mkLimits MaxCandidatesPerTick MaxDeletesPerTick MaxQueriesPerTick MaxStatsPerTick
    MaxDescriptorsPerTick MaxMetadataBytesPerTick.

Inductive lifecycleErr :=
  | ErrCapacityUnavailable | ErrPressureRefusal | ErrCursorConflict
  | ErrContext               (** [ctx.Err()] *)
  | ErrEnvelope              (** tick limits exceed the fixed envelope *)
  | ErrAdmissionBytes        (** admission bytes out of range *)
  | ErrProjectedOverflow     (** projected capacity overflows int64 *)
  | ErrOwnerCount | ErrOwnerRegistration | ErrDuplicateOwner | ErrNilOwner.

#[export] Instance lifecycleErr_eq_dec : EqDecision lifecycleErr.
Proof. solve_decision. Defined.

(** [validate] returns nil. *)
Definition validate (l : Limits) : bool :=
  negb ((lm_Candidates l <? 1) || (MaxCandidatesPerTick <? lm_Candidates l)
        || (lm_Deletes l <? 1) || (MaxDeletesPerTick <? lm_Deletes l)
        || (lm_Queries l <? 1) || (MaxQueriesPerTick <? lm_Queries l)
        || (lm_Stats l <? 1) || (MaxStatsPerTick <? lm_Stats l)
        || (lm_Descriptors l <? 1) || (MaxDescriptorsPerTick <? lm_Descriptors l)
        || (lm_MetadataBytes l <? 1) || (MaxMetadataBytesPerTick <? lm_MetadataBytes l)).

(** ** The percentage *)

(** [bits.Mul64]: the high and low words of the product. *)
Definition mul64 (x y : Z) : Z * Z := (x * y / 2 ^ 64, (x * y) mod 2 ^ 64).
(** [bits.Div64]: [None] is its panic (zero divisor or quotient overflow). *)
Definition div64 (hi lo y : Z) : option (Z * Z) :=
  if (y =? 0) || (y <=? hi) then None
  else Some ((hi * 2 ^ 64 + lo) / y, (hi * 2 ^ 64 + lo) mod y).

(** [None] is a panic. *)
Definition percentCeiling (part total : Z) : option Z :=
  if (part <=? 0) || (total <=? 0) then Some 0
  else
    let '(high, low) := mul64 (u64 part) 100 in
    match div64 high low (u64 total) with
    | None => None
    | Some (percent, remainder) =>
        let percent := if 0 <? remainder then u64 (percent + 1) else percent in
        Some (if 100 <? percent then 100 else percent)
    end.

(** ** The gate *)
Inductive Pressure := PressureNormal | PressureCollect | PressureRefuse | PressureUnavailable
  | PressureNone.            (** the zero value [""] *)

Record Capacity := mkCapacity {
  cp_TotalBytes : Z;
  cp_AvailableBytes : Z;
  cp_UsedBytes : Z;
  cp_ProjectedBytes : Z;
  cp_UsedPercent : Z;
  cp_Pressure : Pressure
}.
#[export] Instance eta_Capacity : Eta Capacity :=
  fun c => mkCapacity (cp_TotalBytes c) (cp_AvailableBytes c) (cp_UsedBytes c)
    (cp_ProjectedBytes c) (cp_UsedPercent c) (cp_Pressure c).

Definition zeroCapacity : Capacity := mkCapacity 0 0 0 0 0 PressureNone.
Definition unavailableCapacity : Capacity := mkCapacity 0 0 0 0 0 PressureUnavailable.

Record Gate := mkGate {
  gt_dataDir : string;
  gt_probe : bool;           (** the probe is not nil *)
  gt_latched : bool
}.
#[export] Instance eta_Gate : Eta Gate :=
  fun g => mkGate (gt_dataDir g) (gt_probe g) (gt_latched g).

Definition NewGate (dataDir : string) : Gate := mkGate dataDir true false.

(** The latch and the watermarks, under the gate's mutex. *)
Definition latch (g : Gate) (c : Capacity) : Capacity * option lifecycleErr * Gate :=
  let refuse := c <| cp_Pressure := PressureRefuse |> in
  if gt_latched g && (ResumeWatermarkPercent <=? cp_UsedPercent c)
  then (refuse, Some ErrPressureRefusal, g)
  else
    if HardWatermarkPercent <=? cp_UsedPercent c
    then (refuse, Some ErrPressureRefusal, g <| gt_latched := true |>)
    else
      let g' := g <| gt_latched := false |> in
      if SoftWatermarkPercent <=? cp_UsedPercent c
      then (c <| cp_Pressure := PressureCollect |>, None, g')
      else (c <| cp_Pressure := PressureNormal |>, None, g').

Definition invalidBytes (estimated : Z) : bool :=
  (estimated <? 0) || (MaxPressureDependentAdmissionBytes <? estimated).
Definition invalidCapacity (c : Capacity) : bool :=
  (cp_TotalBytes c <=? 0) || (cp_AvailableBytes c <? 0) || (cp_TotalBytes c <? cp_AvailableBytes c)
  || negb (cp_UsedBytes c =? i64 (cp_TotalBytes c - cp_AvailableBytes c)).

(** The result [(Capacity, error)] and the next gate; [None] is a panic of the
    percentage.  [gate] is [None] for a nil receiver, [ctxDone] is [ctx.Err() != nil] and
    [ctxNil] a nil context. *)
Definition CheckObserved (gate : option Gate) (ctxNil ctxDone : bool) (c : Capacity)
    (estimated : Z) : option (Capacity * option lifecycleErr * option Gate) :=
  match gate with
  | None => Some (unavailableCapacity, Some ErrCapacityUnavailable, None)
  | Some g =>
      if ctxNil then Some (unavailableCapacity, Some ErrCapacityUnavailable, gate)
      else if ctxDone then Some (zeroCapacity, Some ErrContext, gate)
      else if invalidBytes estimated then Some (zeroCapacity, Some ErrAdmissionBytes, gate)
      else if invalidCapacity c then Some (unavailableCapacity, Some ErrCapacityUnavailable, gate)
      else if i64 (MaxInt64 - estimated) <? cp_UsedBytes c
      then Some (zeroCapacity, Some ErrProjectedOverflow, gate)
      else
        let projected := Z.min (i64 (cp_UsedBytes c + estimated)) (cp_TotalBytes c) in
        match percentCeiling projected (cp_TotalBytes c) with
        | None => None
        | Some percent =>
            let c' := c <| cp_ProjectedBytes := projected |> <| cp_UsedPercent := percent |> in
            let '(out, e, g') := latch g c' in Some (out, e, Some g')
        end
  end.

(** [probed] is the outcome of the probe, [None] an error. *)
Definition Check (gate : option Gate) (ctxDone : bool) (probed : option Capacity) (estimated : Z)
    : option (Capacity * option lifecycleErr * option Gate) :=
  match gate with
  | None => Some (unavailableCapacity, Some ErrCapacityUnavailable, None)
  | Some g =>
      if negb (gt_probe g) || String.eqb (gt_dataDir g) ""
      then Some (unavailableCapacity, Some ErrCapacityUnavailable, gate)
      else if invalidBytes estimated then Some (zeroCapacity, Some ErrAdmissionBytes, gate)
      else match probed with
           | None => if ctxDone then Some (zeroCapacity, Some ErrContext, gate)
                     else Some (unavailableCapacity, Some ErrCapacityUnavailable, gate)
           | Some c => CheckObserved gate false ctxDone c estimated
           end
  end.

(** ** The percentage is exact *)
Lemma percent_value part total :
  0 <= part <= total -> 0 < total <= MaxInt64 ->
  exists percent, percentCeiling part total = Some percent /\ 0 <= percent <= 100 /\
    percent * total >= 100 * part /\ (percent - 1) * total < 100 * part \/
    percentCeiling part total = Some 0 /\ part = 0.
Proof.
  unfold MaxInt64. intros Hp Ht. unfold percentCeiling.
  destruct (Z.leb_spec part 0); [exists 0; right; split; [reflexivity|lia]|].
  destruct (Z.leb_spec total 0); [lia|]. cbn [orb].
  rewrite !u64_small by (unfold MaxUint64; lia). unfold mul64, div64.
  pose proof (Z.div_mod (part * 100) (2 ^ 64) ltac:(lia)) as Hdm.
  pose proof (Z.mod_pos_bound (part * 100) (2 ^ 64) ltac:(lia)) as Hmb.
  set (hi := part * 100 / 2 ^ 64) in *. set (lo := (part * 100) mod 2 ^ 64) in *.
  assert (hi < total) by nia.
  rewrite (proj2 (Z.eqb_neq total 0)), (proj2 (Z.leb_gt total hi)) by lia. cbn [orb].
  replace (hi * 2 ^ 64 + lo) with (part * 100) by lia.
  pose proof (Z.div_mod (part * 100) total ltac:(lia)) as Hq.
  pose proof (Z.mod_pos_bound (part * 100) total ltac:(lia)) as Hr.
  set (q := part * 100 / total) in *. set (r := (part * 100) mod total) in *.
  assert (0 <= q <= 100) by nia.
  assert (0 < r -> q <= 99) by nia.
  exists (if 0 <? r then q + 1 else q). left.
  destruct (Z.ltb_spec 0 r).
  - rewrite u64_small by (unfold MaxUint64; lia). rewrite (proj2 (Z.ltb_ge 100 (q + 1))) by lia.
    repeat split; nia.
  - rewrite (proj2 (Z.ltb_ge 100 q)) by lia. repeat split; nia.
Qed.

(** The value and its comparison with a watermark in [1, 100]. *)
Lemma percent_watermark part total :
  0 <= part <= total -> 0 < total <= MaxInt64 ->
  exists percent, percentCeiling part total = Some percent /\ 0 <= percent <= 100 /\
    forall w, 1 <= w -> (w <=? percent) = ((w - 1) * total <? 100 * part).
Proof.
  intros Hp Ht. destruct (percent_value part total Hp Ht) as (p & [(E & Hb & H1 & H2)|(E & ->)]);
    [exists p|exists 0]; split; try exact E; (split; [lia|]); intros w Hw.
  - destruct (Z.leb_spec w p), (Z.ltb_spec ((w - 1) * total) (100 * part)); auto; nia.
  - destruct (Z.leb_spec w 0), (Z.ltb_spec ((w - 1) * total) (100 * 0)); auto; nia.
Qed.

(** The percentage never panics and is the exact ceiling of
    [100 * part / total], for any part of any filesystem size. *)
Theorem percentCeiling_exact part total :
  0 <= part <= total -> 0 < total <= MaxInt64 ->
  percentCeiling part total = Some ((100 * part + total - 1) / total).
Proof.
  intros Hp Ht. destruct (percent_value part total Hp Ht) as (p & [(-> & Hb & H1 & H2)|(-> & ->)]); f_equal.
  - apply (Z.div_unique_pos _ _ p (100 * part + total - 1 - total * p)); nia.
  - symmetry. apply Z.div_small. lia.
Qed.

Lemma percentCeiling_exact_witness :
  percentCeiling 4611686018427387904 9223372036854775807 = Some 51.
Proof. rewrite percentCeiling_exact; [vm_compute; reflexivity|unfold MaxInt64; lia..]. Defined.

(** ** The gate refines a two-threshold automaton *)
Record observation := mkObservation { ob_total : Z; ob_used : Z; ob_estimated : Z }.

Definition measurable (o : observation) : Prop :=
  0 < ob_total o <= MaxInt64 /\ 0 <= ob_used o <= ob_total o /\
  0 <= ob_estimated o <= MaxPressureDependentAdmissionBytes /\
  ob_used o + ob_estimated o <= MaxInt64.

Definition capacityOf (o : observation) : Capacity :=
  mkCapacity (ob_total o) (ob_total o - ob_used o) (ob_used o) 0 0 PressureNone.
Definition projected (o : observation) : Z := Z.min (ob_used o + ob_estimated o) (ob_total o).

(** More than [w - 1] percent of the filesystem would be used. *)
Definition above (w : Z) (o : observation) : bool :=
  (w - 1) * ob_total o <? 100 * projected o.

(** The specification: one bit of state, refuse above a threshold that a
    refusal lowers. *)
Definition specRefuse (latched : bool) (o : observation) : bool :=
  above (if latched then ResumeWatermarkPercent else HardWatermarkPercent) o.

Fixpoint specRun (latched : bool) (obs : list observation) : list bool :=
  match obs with
  | [] => []
  | o :: rest => let r := specRefuse latched o in r :: specRun r rest
  end.

(** The decisions of the gate on a sequence of observations. *)
Fixpoint gateRun (g : Gate) (obs : list observation) : option (list bool) :=
  match obs with
  | [] => Some []
  | o :: rest =>
      match CheckObserved (Some g) false false (capacityOf o) (ob_estimated o) with
      | Some (_, e, Some g') =>
          match gateRun g' rest with
          | Some ds => Some (bool_decide (e = Some ErrPressureRefusal) :: ds)
          | None => None
          end
      | _ => None
      end
  end.

(** One check of a measurable filesystem. *)
Lemma CheckObserved_value g o :
  measurable o ->
  exists percent,
    CheckObserved (Some g) false false (capacityOf o) (ob_estimated o) =
      (let '(out, e, g') :=
         latch g ((capacityOf o) <| cp_ProjectedBytes := projected o |> <| cp_UsedPercent := percent |>)
       in Some (out, e, Some g')) /\ 0 <= percent <= 100 /\
    forall w, 1 <= w -> (w <=? percent) = above w o.
Proof.
  intros (Ht & Hu & He & Hs). unfold MaxInt64 in Ht, Hs.
  assert (Hproj : 0 <= projected o <= ob_total o) by (unfold projected; lia).
  destruct (percent_watermark (projected o) (ob_total o) Hproj) as (p & Ep & Hb & Hw);
    [unfold MaxInt64; lia|].
  exists p. split; [|split; [exact Hb|exact Hw]].
  unfold CheckObserved, invalidBytes, invalidCapacity. cbn [capacityOf cp_TotalBytes cp_AvailableBytes cp_UsedBytes].
  rewrite !i64_small by (unfold MaxInt64; lia).
  unfold MaxPressureDependentAdmissionBytes in *.
  rewrite (proj2 (Z.ltb_ge (ob_estimated o) 0)), (proj2 (Z.ltb_ge (48 * 2 ^ 30) (ob_estimated o))) by lia.
  rewrite (proj2 (Z.leb_gt (ob_total o) 0)), (proj2 (Z.ltb_ge (ob_total o - ob_used o) 0)),
    (proj2 (Z.ltb_ge (ob_total o) (ob_total o - ob_used o))) by lia.
  replace (ob_total o - (ob_total o - ob_used o)) with (ob_used o) by lia. rewrite Z.eqb_refl.
  rewrite (proj2 (Z.ltb_ge (MaxInt64 - ob_estimated o) (ob_used o))) by (unfold MaxInt64; lia).
  cbn [orb negb]. fold (projected o). rewrite Ep. reflexivity.
Qed.

Lemma latch_spec g c o :
  (forall w, 1 <= w -> (w <=? cp_UsedPercent c) = above w o) ->
  exists out, latch g c =
    (out, if specRefuse (gt_latched g) o then Some ErrPressureRefusal else None,
     g <| gt_latched := specRefuse (gt_latched g) o |>).
Proof.
  intros Hw. unfold latch, specRefuse, ResumeWatermarkPercent, HardWatermarkPercent.
  rewrite !Hw by (unfold SoftWatermarkPercent; lia).
  assert (Hmono : above 90 o = true -> above 75 o = true).
  { unfold above. intros H%Z.ltb_lt. apply Z.ltb_lt.
    assert (0 <= ob_total o \/ ob_total o < 0) as [?|?] by lia; [lia|].
    specialize (Hw 1 ltac:(lia)) as H1. specialize (Hw 90 ltac:(lia)) as H90.
    specialize (Hw 75 ltac:(lia)) as H75. unfold above in H75, H90.
    rewrite (proj2 (Z.ltb_lt _ _) H) in H90. apply Z.leb_le in H90.
    rewrite (proj2 (Z.leb_le 75 _)) in H75 by lia. symmetry in H75. apply Z.ltb_lt in H75. lia. }
  destruct (gt_latched g) eqn:El, (above 75 o) eqn:E75, (above 90 o) eqn:E90; cbn;
    try (specialize (Hmono eq_refl); discriminate);
    try (destruct (above SoftWatermarkPercent o)); eexists; try reflexivity.
  all: destruct g; cbn in El; subst; reflexivity.
Qed.

Lemma latch_output g c out e g' :
  latch g c = (out, e, g') ->
  exists p, out = c <| cp_Pressure := p |> /\ p <> PressureUnavailable /\
    e <> Some ErrCapacityUnavailable.
Proof.
  unfold latch. destruct (_ && _); [intros [= <- <- <-]; eexists; repeat split; discriminate|].
  destruct (HardWatermarkPercent <=? _); [intros [= <- <- <-]; eexists; repeat split; discriminate|].
  destruct (SoftWatermarkPercent <=? _); intros [= <- <- <-]; eexists; repeat split; discriminate.
Qed.

(** C21: on any sequence of measurable filesystem observations the gate never
    panics and decides exactly as the two-threshold automaton: it starts
    refusing above 89 percent of projected use and, once refusing, admits
    again only at 74 percent or below. *)
Theorem gate_refines_watermarks g obs :
  Forall measurable obs -> gateRun g obs = Some (specRun (gt_latched g) obs).
Proof.
  intros H. revert g; induction H as [|o obs Ho _ IH]; intros g; [reflexivity|]. cbn [gateRun specRun].
  destruct (CheckObserved_value g o Ho) as (p & -> & _ & Hw).
  destruct (latch_spec g ((capacityOf o) <| cp_ProjectedBytes := projected o |> <| cp_UsedPercent := p |>) o)
    as (out & ->); [exact Hw|]. rewrite IH. cbn.
  destruct (specRefuse (gt_latched g) o); reflexivity.
Qed.

(** Refused at 90%, held at 80%, admitted again at 74%. *)
Definition sampleObservations : list observation :=
  [mkObservation 1000 880 0; mkObservation 1000 880 20; mkObservation 1000 800 0;
   mkObservation 1000 740 0; mkObservation 1000 800 0].

Lemma gate_refines_watermarks_witness :
  gateRun (NewGate "/data") sampleObservations = Some [false; true; true; false; false].
Proof.
  rewrite gate_refines_watermarks; [vm_compute; reflexivity|].
  repeat (apply Forall_cons; split); try apply Forall_nil;
    unfold measurable, MaxInt64, MaxPressureDependentAdmissionBytes; cbn; lia.
Defined.

(** Every limit the controller hands to an owner is inside the fixed envelope. *)
Lemma DefaultLimits_valid : validate DefaultLimits = true.
Proof. reflexivity. Qed.

Lemma SelectedCleanupDeleteLimit_range owner :
  MaxDeletesPerTick <= SelectedCleanupDeleteLimit owner <= SelectedCleanupObservationDeletes.
Proof.
  unfold SelectedCleanupDeleteLimit, MaxDeletesPerTick, SelectedCleanupObservationDeletes,
    SelectedCleanupSearchDeletes, SelectedCleanupRelationshipDeletes.
  repeat destruct (String.eqb _ _); lia.
Qed.
