(* ===== verification/LifecycleController.v ===== *)
(** * The lifecycle controller

    Model of [internal/lifecycle/controller.go] ([NewController], [tick],
    [nextOwner]) and of [normalizeOwners] in [policy.go].  The durable cursor
    store is an interface: its laws are the class [CursorLaws], discharged by
    a concrete store below.  What an owner's [Sweep] returns is an argument of
    the tick that runs it. *)
From S2P Require Import Prelude GoStrings LifecycleGate.
From Stdlib Require Import Ascii String Sorted.

(** ** Results *)
Inductive Completeness := Exact | LowerBound | Unavailable
  | CompletenessNone.        (** the zero value [""] *)
#[export] Instance Completeness_eq_dec : EqDecision Completeness.
Proof. solve_decision. Defined.

Inductive tickErr :=
  | ECtx | ENotConfigured | ELimits | EReadRotation | EReadCursor
  | ESweep (code : Z)        (** the owner's own error *)
  | EInvalidResult | EInvalidAdvance | ESaveCursor | ESaveRotation.
#[export] Instance tickErr_eq_dec : EqDecision tickErr.
Proof. solve_decision. Defined.

(** [Err] is the list [errors.Join] has collected; nil is []. *)
Record OwnerResult := mkOwnerResult {
  or_Owner : string;
  or_Cursor : string;
  or_Scanned : Z;
  or_Deleted : Z;
  or_LogicalBytes : Z;
  or_RootBytes : Z;
  or_MemberBytes : Z;
  or_More : bool;
  or_AttemptedAt : Z;
  or_CycleStart : bool;
  or_CycleComplete : bool;
  or_AdvanceOnError : bool;
  or_Completeness : Completeness;
  or_Err : list tickErr
}.
#[export] Instance eta_OwnerResult : Eta OwnerResult :=
  fun r => mkOwnerResult (or_Owner r) (or_Cursor r) (or_Scanned r) (or_Deleted r)
    (or_LogicalBytes r) (or_RootBytes r) (or_MemberBytes r) (or_More r) (or_AttemptedAt r)
    (or_CycleStart r) (or_CycleComplete r) (or_AdvanceOnError r) (or_Completeness r) (or_Err r).

Definition failedResult (owner : string) (e : tickErr) : OwnerResult :=
  mkOwnerResult owner "" 0 0 0 0 0 false 0 false false false Unavailable [e].

(** ** Owners *)
Record registeredOwner := mkRegistered { ro_name : string; ro_present : bool }.

(** [sort.Slice] by name: any sorted permutation; two owners with equal names
    are refused below, so the order among them does not matter. *)
Fixpoint insertOwner (o : registeredOwner) (l : list registeredOwner) : list registeredOwner :=
  match l with
  | [] => [o]
  | q :: l' => if str_ltb (ro_name q) (ro_name o) then q :: insertOwner o l' else o :: l
  end.
Definition sortOwners (l : list registeredOwner) : list registeredOwner :=
  fold_right insertOwner [] l.

Fixpoint checkOwners (prev : option string) (l : list registeredOwner) : res lifecycleErr unit :=
  match l with
  | [] => Ok tt
  | o :: l' =>
      if String.eqb (ro_name o) "" || negb (trimmed (ro_name o)) || negb (ro_present o)
      then Err ErrOwnerRegistration
      else if match prev with Some q => String.eqb q (ro_name o) | None => false end
      then Err ErrDuplicateOwner
      else checkOwners (Some (ro_name o)) l'
  end.

Definition normalizeOwners (owners : list registeredOwner) : res lifecycleErr (list registeredOwner) :=
  let n := Z.of_nat (Datatypes.length owners) in
  if (n =? 0) || (MaxOwnersPerController <? n) then Err ErrOwnerCount
  else
    let result := sortOwners owners in
    match checkOwners None result with
    | Err e => Err e
    | Ok _ => Ok result
    end.

(** ** The cursor store *)
Definition rotationCursorKey : string := "rotation".
Definition ownerKey (name : string) : string := ("owner:" ++ name)%string.

(** A read is [None] on error; a failed swap leaves any state. *)
Class CursorStore (S : Type) := {
  GetLifecycleCursor : string -> S -> option (string * Z);
  CompareAndSwapLifecycleCursor : string -> Z -> string -> S -> bool * S
}.
Class CursorLaws (S : Type) `{CursorStore S} := {
  swap_reads : forall k rev v s s', CompareAndSwapLifecycleCursor k rev v s = (true, s') ->
    exists rev', GetLifecycleCursor k s' = Some (v, rev');
  swap_others : forall k k' rev v s s', CompareAndSwapLifecycleCursor k rev v s = (true, s') ->
    k' <> k -> GetLifecycleCursor k' s' = GetLifecycleCursor k' s
}.

(** ** The controller *)
Record Controller := mkController { ct_owners : list registeredOwner; ct_limits : Limits }.

Definition NewController (owners : list registeredOwner) : res lifecycleErr Controller :=
  if negb (forallb ro_present owners) then Err ErrNilOwner
  else match normalizeOwners owners with
       | Err e => Err e
       | Ok normalized => Ok (mkController normalized DefaultLimits)
       end.

Definition noOwner : registeredOwner := mkRegistered "" false.
Definition nameAt (c : Controller) (i : nat) : string := ro_name (nth i (ct_owners c) noOwner).

(** The index [nextOwner] picks: [sort.Search] for the first later name. *)
Definition nextIndex (c : Controller) (previous : string) : nat :=
  let n := Datatypes.length (ct_owners c) in
  let index := search n (fun i => Nat.leb n i || str_ltb previous (nameAt c i)) in
  if Nat.eqb index n then 0%nat else index.
Definition nextOwner (c : Controller) (previous : string) : registeredOwner :=
  nth (nextIndex c previous) (ct_owners c) noOwner.

Definition isEmpty (s : string) : bool := String.eqb s "".

(** The checks of a sweep's result before it is saved. *)
Definition checkResult (cursor : string) (l : Limits) (r : OwnerResult) : OwnerResult :=
  if is_nil (head (or_Err r))
  then
    let r := match or_Completeness r with
             | CompletenessNone => r <| or_Completeness := Exact |>
             | _ => r
             end in
    if (or_Scanned r <? 0) || (lm_Candidates l <? or_Scanned r) || (or_Deleted r <? 0)
       || (lm_Deletes l <? or_Deleted r)
       || (String.eqb (or_Cursor r) cursor && or_More r && (or_Scanned r =? 0) && (or_Deleted r =? 0))
    then r <| or_Err := [EInvalidResult] |> <| or_Completeness := Unavailable |>
    else r
  else r.

Definition checkAdvance (cursor : string) (r : OwnerResult) : OwnerResult :=
  if negb (is_nil (head (or_Err r))) && or_AdvanceOnError r
     && (isEmpty (or_Cursor r) || String.eqb (or_Cursor r) cursor)
  then r <| or_Err ::= fun e => (e ++ [EInvalidAdvance])%list |> <| or_AdvanceOnError := false |>
  else r.

Section Tick.
Context {S : Type} `{CursorStore S}.

(** Save a cursor; a failure joins [e] and makes the result unavailable. *)
Definition saveCursor (key : string) (rev : Z) (value : string) (e : tickErr)
    (r : OwnerResult) (s : S) : OwnerResult * S :=
  match CompareAndSwapLifecycleCursor key rev value s with
  | (true, s') => (r, s')
  | (false, s') =>
      (r <| or_Err ::= fun l => (l ++ [e])%list |> <| or_Completeness := Unavailable |>, s')
  end.

Definition sweepFn : Type := string -> string -> Limits -> OwnerResult.

Definition tick (c : Controller) (ctxDone : bool) (now : Z) (sweep : sweepFn)
    (selectedCleanup : bool) (s : S) : OwnerResult * S :=
  if ctxDone then (failedResult "" ECtx, s)
  else if Nat.eqb (Datatypes.length (ct_owners c)) 0 then (failedResult "" ENotConfigured, s)
  else if negb (validate (ct_limits c)) then (failedResult "" ELimits, s)
  else match GetLifecycleCursor rotationCursorKey s with
  | None => (failedResult "" EReadRotation, s)
  | Some (rotation, rotationRevision) =>
      let name := ro_name (nextOwner c rotation) in
      let l := ct_limits c in
      let l := if selectedCleanup
               then mkLimits (lm_Candidates l) (SelectedCleanupDeleteLimit name) (lm_Queries l)
                      (lm_Stats l) (lm_Descriptors l) (lm_MetadataBytes l)
               else l in
      match GetLifecycleCursor (ownerKey name) s with
      | None => (failedResult name EReadCursor, s)
      | Some (cursor, cursorRevision) =>
          let r := sweep name cursor l in
          let r := r <| or_Owner := name |> <| or_AttemptedAt := now |>
                     <| or_CycleStart := String.eqb name (nameAt c 0) |>
                     <| or_CycleComplete :=
                          String.eqb name (nameAt c (Datatypes.length (ct_owners c) - 1)) |> in
          let r := checkAdvance cursor (checkResult cursor l r) in
          let '(r, s1) :=
            if is_nil (head (or_Err r)) || or_AdvanceOnError r
            then saveCursor (ownerKey name) cursorRevision (or_Cursor r) ESaveCursor r s
            else (r, s) in
          saveCursor rotationCursorKey rotationRevision name ESaveRotation r s1
      end
  end.

(** Successive ticks, each with its own sweep outcomes. *)
Fixpoint ticks (c : Controller) (sweeps : list (Z * sweepFn * bool)) (s : S)
    : list OwnerResult * S :=
  match sweeps with
  | [] => ([], s)
  | (now, sweep, selected) :: rest =>
      let '(r, s1) := tick c false now sweep selected s in
      let '(rs, s2) := ticks c rest s1 in (r :: rs, s2)
  end.
End Tick.

(** ** Owners are strictly sorted *)
Definition strictlySorted (l : list registeredOwner) : Prop :=
  forall i j x y, l !! i = Some x -> l !! j = Some y -> (i < j)%nat ->
    str_ltb (ro_name x) (ro_name y) = true.

Lemma insertOwner_perm o l : Permutation (insertOwner o l) (o :: l).
Proof.
  induction l as [|q l IH]; [reflexivity|]. cbn. destruct (str_ltb _ _); [|reflexivity].
  rewrite IH. apply perm_swap.
Qed.

Lemma sortOwners_perm l : Permutation (sortOwners l) l.
Proof. induction l as [|o l IH]; [reflexivity|]. cbn. rewrite insertOwner_perm, IH. reflexivity. Qed.

(** No later name is smaller. *)
Definition weaklySorted (l : list registeredOwner) : Prop :=
  StronglySorted (fun x y => str_ltb (ro_name y) (ro_name x) = false) l.

Lemma str_le_trans a b c : str_ltb b a = false -> str_ltb c b = false -> str_ltb c a = false.
Proof.
  intros H1 H2. apply not_true_is_false. intros H.
  destruct (string_dec a b) as [->|Hne]; [congruence|].
  pose proof (str_ltb_total _ _ H1 (not_eq_sym Hne)) as Hab.
  rewrite (str_ltb_trans _ _ _ H Hab) in H2. discriminate.
Qed.

Lemma insertOwner_sorted o l : weaklySorted l -> weaklySorted (insertOwner o l).
Proof.
  induction 1 as [|q l Hl IH Hq]; [repeat constructor|]. cbn.
  destruct (str_ltb (ro_name q) (ro_name o)) eqn:E.
  - constructor; [exact IH|]. rewrite (insertOwner_perm o l). constructor; [|exact Hq].
    apply str_ltb_asym, E.
  - constructor; [constructor; assumption|]. constructor; [exact E|].
    eapply Forall_impl; [exact Hq|]. cbn. intros x Hx. eapply str_le_trans; eassumption.
Qed.

Lemma sortOwners_sorted l : weaklySorted (sortOwners l).
Proof. induction l as [|o l IH]; [constructor|]. apply insertOwner_sorted, IH. Qed.

Lemma checkOwners_strict prev l :
  weaklySorted l -> checkOwners prev l = Ok tt ->
  strictlySorted l /\ (forall q o, prev = Some q -> head l = Some o -> q <> ro_name o).
Proof.
  intros Hs. revert prev; induction Hs as [|o l Hl IH Ho]; intros prev H.
  - split; [intros i j x y Hx; destruct i; discriminate|discriminate].
  - cbn in H. destruct (_ || _); [discriminate|].
    destruct (match prev with Some q => String.eqb q (ro_name o) | None => false end) eqn:Ep; [discriminate|].
    destruct (IH _ H) as [Hst Hhd]. split.
    + assert (Hfirst : forall y, y ∈ l -> str_ltb (ro_name o) (ro_name y) = true).
      { destruct l as [|z l]; [intros y Hy; inversion Hy|].
        pose proof (Hhd _ _ eq_refl eq_refl) as Hne.
        assert (Hz : str_ltb (ro_name o) (ro_name z) = true).
        { apply Forall_cons in Ho as [Ho _]. apply str_ltb_total; auto. }
        intros y [->|[k Hk]%list_elem_of_lookup]%elem_of_cons; [exact Hz|].
        eapply str_ltb_trans; [exact Hz|]. apply (Hst 0%nat (S k) z y eq_refl Hk). lia. }
      intros [|i] [|j] x y Hx Hy Hij; try lia.
      * injection Hx as <-. apply Hfirst. eapply list_elem_of_lookup_2, Hy.
      * apply (Hst i j x y Hx Hy). lia.
    + intros q o' -> [= <-] ->. rewrite String.eqb_refl in Ep. discriminate.
Qed.

Lemma NewController_ok owners c :
  NewController owners = Ok c ->
  strictlySorted (ct_owners c) /\ Permutation (ct_owners c) owners /\
  (0 < Datatypes.length (ct_owners c))%nat /\ validate (ct_limits c) = true.
Proof.
  unfold NewController, normalizeOwners. destruct (negb _); [discriminate|].
  destruct (_ || _) eqn:Eg; [discriminate|].
  destruct (checkOwners _ _) as [[]|] eqn:Ec; [|discriminate]. intros [= <-]. cbn.
  split; [eapply checkOwners_strict; [apply sortOwners_sorted|exact Ec]|].
  split; [apply sortOwners_perm|]. split; [|reflexivity].
  rewrite (Permutation_length (sortOwners_perm owners)). bsplit. lia.
Qed.

(** ** The rotation *)
Section Rotation.
Context (c : Controller) (Hsorted : strictlySorted (ct_owners c)).
Local Abbreviation n := (Datatypes.length (ct_owners c)).
Context (Hn : (0 < n)%nat).

Lemma nameAt_lookup i : (i < n)%nat -> exists o, ct_owners c !! i = Some o /\ nameAt c i = ro_name o.
Proof using.
  intros Hi. apply lookup_lt_is_Some in Hi as [o Ho]. exists o. split; [exact Ho|].
  unfold nameAt. rewrite nth_lookup, Ho. reflexivity.
Qed.

Lemma nameAt_lt i j : (i < j < n)%nat -> str_ltb (nameAt c i) (nameAt c j) = true.
Proof using Hsorted Hn.
  intros Hij. destruct (nameAt_lookup i) as (x & Hx & ->); [lia|].
  destruct (nameAt_lookup j) as (y & Hy & ->); [lia|]. apply (Hsorted i j x y Hx Hy). lia.
Qed.

Lemma later_monotone previous a b :
  (a <= b)%nat -> (Nat.leb n a || str_ltb previous (nameAt c a)) = true ->
  (Nat.leb n b || str_ltb previous (nameAt c b)) = true.
Proof using Hsorted Hn.
  intros Hab. destruct (Nat.leb_spec n b); [reflexivity|].
  rewrite (proj2 (Nat.leb_gt n a)) by lia. cbn. intros Hx.
  destruct (Nat.eq_dec a b) as [->|Hne]; [exact Hx|]. eapply str_ltb_trans; [exact Hx|].
  apply nameAt_lt. lia.
Qed.

Lemma nextIndex_range previous : (nextIndex c previous < n)%nat.
Proof using Hsorted Hn.
  unfold nextIndex. destruct (search_spec n _ (later_monotone previous)) as [H _].
  destruct (Nat.eqb_spec (search n (fun i => Nat.leb n i || str_ltb previous (nameAt c i))) n); lia.
Qed.

(** After the owner at [j] comes its cyclic successor. *)
Lemma nextIndex_successor j : (j < n)%nat -> nextIndex c (nameAt c j) = (S j mod n)%nat.
Proof using Hsorted Hn.
  intros Hj. unfold nextIndex.
  destruct (search_spec n _ (later_monotone (nameAt c j))) as (H1 & H2 & H3).
  set (r := search n _) in *. clearbody r.
  assert (r = S j) as ->.
  { assert (j < r)%nat.
    { destruct (Nat.lt_ge_cases j r) as [|Hge]; [assumption|].
      specialize (H3 ltac:(lia)). rewrite (proj2 (Nat.leb_gt n r)) in H3 by lia. cbn in H3.
      destruct (Nat.eq_dec r j) as [He|Hne]; [rewrite He, str_ltb_irrefl in H3; discriminate|].
      rewrite (str_ltb_asym _ _ (nameAt_lt r j ltac:(lia))) in H3. discriminate. }
    destruct (Nat.eq_dec r (S j)) as [|Hne]; [assumption|].
    specialize (H2 (S j) ltac:(lia)). rewrite (proj2 (Nat.leb_gt n (S j))) in H2 by lia. cbn in H2.
    rewrite (nameAt_lt j (S j) ltac:(lia)) in H2. discriminate. }
  destruct (Nat.eqb_spec (S j) n) as [->|Hne]; [rewrite Nat.Div0.mod_same; reflexivity|].
  rewrite Nat.mod_small by lia. reflexivity.
Qed.
End Rotation.

(** ** The theorems *)
Section Theorems.
Context {S : Type} `{CursorLaws S}.

(** The turn reached its owner and its rotation was saved. *)
Definition infrastructure (e : tickErr) : bool :=
  match e with
  | ECtx | ENotConfigured | ELimits | EReadRotation | EReadCursor | ESaveRotation => true
  | _ => false
  end.
Definition turnTaken (r : OwnerResult) : bool := forallb (fun e => negb (infrastructure e)) (or_Err r).

Lemma saveCursor_owner key rev v e r (s : S) : or_Owner (fst (saveCursor key rev v e r s)) = or_Owner r.
Proof. unfold saveCursor. destruct (CompareAndSwapLifecycleCursor key rev v s) as [[|] s']; reflexivity. Qed.

Lemma checkResult_fields cursor l r :
  or_Owner (checkResult cursor l r) = or_Owner r /\
  or_AttemptedAt (checkResult cursor l r) = or_AttemptedAt r.
Proof.
  unfold checkResult. destruct (is_nil _); [|auto].
  destruct (or_Completeness r); destruct (_ || _); auto.
Qed.

Lemma check_owner cursor l r : or_Owner (checkAdvance cursor (checkResult cursor l r)) = or_Owner r.
Proof.
  rewrite <- (proj1 (checkResult_fields cursor l r)).
  unfold checkAdvance. destruct (_ && _); reflexivity.
Qed.

(** A taken turn runs the owner after the rotation and records it there. *)
Lemma tick_turn c now sweep sel (s : S) r s' :
  tick c false now sweep sel s = (r, s') -> turnTaken r = true ->
  exists rotation rev rev', GetLifecycleCursor rotationCursorKey s = Some (rotation, rev) /\
    or_Owner r = ro_name (nextOwner c rotation) /\
    GetLifecycleCursor rotationCursorKey s' = Some (or_Owner r, rev').
Proof.
  intros Ht Hok. unfold tick in Ht.
  destruct (Nat.eqb _ 0); [injection Ht as <- <-; discriminate|].
  destruct (negb _); [injection Ht as <- <-; discriminate|].
  destruct (GetLifecycleCursor rotationCursorKey s) as [[rotation rev]|] eqn:Er;
    [|injection Ht as <- <-; discriminate].
  set (name := ro_name (nextOwner c rotation)) in *.
  destruct (GetLifecycleCursor (ownerKey name) s) as [[cursor crev]|];
    [|injection Ht as <- <-; discriminate].
  match type of Ht with (let '(_, _) := ?x in _) = _ => destruct x as [r1 s1] eqn:E1 end.
  assert (Hname : or_Owner r1 = name).
  { destruct (is_nil _ || _).
    - match type of E1 with ?x = _ => replace r1 with (fst x) by (rewrite E1; reflexivity) end.
      rewrite saveCursor_owner, check_owner. reflexivity.
    - injection E1 as <- <-. rewrite check_owner. reflexivity. }
  unfold saveCursor in Ht.
  destruct (CompareAndSwapLifecycleCursor rotationCursorKey rev name s1) as [[|] s2] eqn:Es;
    injection Ht as <- <-.
  - destruct (swap_reads _ _ _ _ _ Es) as [rev' Hg]. exists rotation, rev, rev'. rewrite Hname. auto.
  - exfalso. unfold turnTaken in Hok. cbn in Hok. rewrite forallb_app in Hok.
    apply andb_true_iff in Hok as [_ Hok]. discriminate.
Qed.

Lemma ticks_rotate owners c sweeps (s : S) rs s' rotation rev :
  NewController owners = Ok c -> ticks c sweeps s = (rs, s') -> Forall (fun r => turnTaken r = true) rs ->
  GetLifecycleCursor rotationCursorKey s = Some (rotation, rev) ->
  forall i r, rs !! i = Some r ->
    or_Owner r = nameAt c ((nextIndex c rotation + i) mod Datatypes.length (ct_owners c)).
Proof.
  intros HN. destruct (NewController_ok _ _ HN) as (Hs & _ & Hn & _).
  revert s rs rotation rev; induction sweeps as [|[[now sweep] sel] sweeps IH];
    intros s rs rotation rev Ht Hall Hg i r Hi; cbn [ticks] in Ht.
  - injection Ht as <- <-. rewrite lookup_nil in Hi. discriminate.
  - destruct (tick c false now sweep sel s) as [r1 s1] eqn:E1.
    destruct (ticks c sweeps s1) as [rs1 s2] eqn:E2. injection Ht as <- <-.
    apply Forall_cons in Hall as [Hok Hall].
    destruct (tick_turn _ _ _ _ _ _ _ E1 Hok) as (rot & rv & rv' & Hg' & Hname & Hg1).
    rewrite Hg in Hg'. injection Hg' as <- <-.
    pose proof (nextIndex_range c Hs Hn rotation) as Hk.
    change (ro_name (nextOwner c rotation)) with (nameAt c (nextIndex c rotation)) in Hname.
    destruct i as [|i].
    + injection Hi as <-. rewrite Hname, Nat.add_0_r, Nat.mod_small by lia. reflexivity.
    + rewrite (IH s1 rs1 (or_Owner r1) rv' E2 Hall Hg1 i r Hi), Hname, (nextIndex_successor c Hs Hn) by lia.
      f_equal. rewrite Nat.Div0.add_mod_idemp_l. f_equal. lia.
Qed.

Lemma ticks_length c sweeps (s : S) : Datatypes.length (fst (ticks c sweeps s)) = Datatypes.length sweeps.
Proof.
  revert s; induction sweeps as [|[[now sweep] sel] sweeps IH]; intros s; [reflexivity|].
  cbn [ticks]. destruct (tick _ _ _ _ _ _) as [r s1]. specialize (IH s1).
  destruct (ticks c sweeps s1) as [rs s2]. cbn in *. lia.
Qed.

(** A full cyclic pass is a permutation of the indices. *)
Lemma cyclic_perm {A} (f : nat -> A) k n :
  (k < n)%nat ->
  Permutation ((fun i => f ((k + i) mod n)%nat) <$> seq 0 n) (f <$> seq 0 n).
Proof.
  intros Hk.
  assert (E1 : seq 0 n = seq 0 (n - k) ++ seq (0 + (n - k)) k) by (rewrite <- seq_app; f_equal; lia).
  assert (E2 : seq 0 n = seq 0 k ++ seq (0 + k) (n - k)) by (rewrite <- seq_app; f_equal; lia).
  rewrite E1 at 1. rewrite E2, !fmap_app.
  assert (Hhi : (fun i => f ((k + i) mod n)%nat) <$> seq 0 (n - k) = f <$> seq (0 + k) (n - k)).
  { rewrite (Nat.add_comm 0 k), <- (fmap_add_seq k 0 (n - k)), <- list_fmap_compose. apply list_fmap_ext.
    intros i x [-> Hx]%lookup_seq. cbn. rewrite Nat.mod_small by lia. reflexivity. }
  assert (Hlo : (fun i => f ((k + i) mod n)%nat) <$> seq (0 + (n - k)) k = f <$> seq 0 k).
  { rewrite (Nat.add_comm 0 (n - k)), <- (fmap_add_seq (n - k) 0 k), <- list_fmap_compose. apply list_fmap_ext.
    intros i x [-> Hx]%lookup_seq. cbn. replace (k + (n - k + i))%nat with (i + 1 * n)%nat by lia.
    rewrite Nat.Div0.mod_add, Nat.mod_small by lia. reflexivity. }
  rewrite Hhi, Hlo. apply Permutation_app_comm.
Qed.

(** C25: the durable rotation is fair.  Whatever the owners' sweeps return,
    failures included, as long as each turn's rotation is read and saved, any
    [n] consecutive turns of [n] owners visit every owner exactly once, in
    cyclic name order after the saved cursor. *)
Theorem rotation_is_fair owners c sweeps (s : S) rs s' rotation rev :
  NewController owners = Ok c -> ticks c sweeps s = (rs, s') ->
  Forall (fun r => turnTaken r = true) rs ->
  GetLifecycleCursor rotationCursorKey s = Some (rotation, rev) ->
  (forall i r, rs !! i = Some r ->
     or_Owner r = nameAt c ((nextIndex c rotation + i) mod Datatypes.length (ct_owners c))) /\
  (Datatypes.length sweeps = Datatypes.length owners ->
   Permutation (or_Owner <$> rs) (ro_name <$> owners)).
Proof.
  intros HN Ht Hall Hg.
  pose proof (ticks_rotate _ _ _ _ _ _ _ _ HN Ht Hall Hg) as Hrot. split; [exact Hrot|]. intros Hlen.
  destruct (NewController_ok _ _ HN) as (Hs & Hp & Hn & _).
  pose proof (nextIndex_range c Hs Hn rotation) as Hk.
  pose proof (ticks_length c sweeps s) as Hl. rewrite Ht in Hl. cbn in Hl.
  pose proof (Permutation_length Hp) as Hpl. set (n := Datatypes.length (ct_owners c)) in *.
  assert (Hmap : or_Owner <$> rs = (fun i => nameAt c ((nextIndex c rotation + i) mod n)%nat) <$> seq 0 n).
  { apply list_eq. intros i. rewrite !list_lookup_fmap. destruct (rs !! i) as [r|] eqn:Ei.
    - pose proof (lookup_lt_Some _ _ _ Ei). rewrite lookup_seq_lt by lia. cbn. f_equal. apply Hrot, Ei.
    - apply lookup_ge_None in Ei. rewrite lookup_seq_ge by lia. reflexivity. }
  rewrite Hmap, (cyclic_perm (nameAt c) _ _ Hk), <- Hp.
  assert (nameAt c <$> seq 0 n = ro_name <$> ct_owners c) as ->; [|reflexivity].
  apply list_eq. intros i. rewrite !list_lookup_fmap. destruct (ct_owners c !! i) as [o|] eqn:Ei.
  - pose proof (lookup_lt_Some _ _ _ Ei). rewrite lookup_seq_lt by lia. cbn.
    unfold nameAt. rewrite nth_lookup, Ei. reflexivity.
  - apply lookup_ge_None in Ei. rewrite lookup_seq_ge by lia. reflexivity.
Qed.

(** The delete limit of a turn. *)
Definition turnDeletes (sel : bool) (c : Controller) (name : string) : Z :=
  if sel then SelectedCleanupDeleteLimit name else lm_Deletes (ct_limits c).

Lemma checkResult_clean cursor l r :
  or_Err (checkResult cursor l r) = [] ->
  0 <= or_Scanned (checkResult cursor l r) <= lm_Candidates l /\
  0 <= or_Deleted (checkResult cursor l r) <= lm_Deletes l /\
  or_Completeness (checkResult cursor l r) <> CompletenessNone.
Proof.
  unfold checkResult. destruct (or_Err r) eqn:Er; cbn [head is_nil]; [|congruence].
  set (r' := match or_Completeness r with
             | CompletenessNone => r <| or_Completeness := Exact |>
             | _ => r end).
  assert (or_Completeness r' <> CompletenessNone)
    by (subst r'; destruct (or_Completeness r) eqn:E; cbn; rewrite ?E; discriminate).
  destruct (_ || _) eqn:Eg; [cbn; discriminate|]. bsplit. auto with lia.
Qed.

Lemma saveCursor_clean key rev v e r (s : S) :
  or_Err (fst (saveCursor key rev v e r s)) = [] -> fst (saveCursor key rev v e r s) = r.
Proof.
  unfold saveCursor. destruct (CompareAndSwapLifecycleCursor key rev v s) as [[|] s']; cbn; [auto|].
  intros H1%app_eq_nil. destruct H1 as [_ H1]. discriminate.
Qed.

Lemma checkAdvance_clean cursor r : or_Err (checkAdvance cursor r) = [] -> checkAdvance cursor r = r.
Proof.
  unfold checkAdvance. destruct (_ && _); [|auto]. cbn.
  intros H1%app_eq_nil. destruct H1 as [_ H1]. discriminate.
Qed.

(** A turn reported without error did bounded work: its scan and its
    deletions are within the limits of the turn, the selected-cleanup profile
    included, and it carries a completeness and the time of the attempt. *)
Theorem tick_success_is_bounded owners c ctxDone now sweep sel (s : S) r s' :
  NewController owners = Ok c -> tick c ctxDone now sweep sel s = (r, s') -> or_Err r = [] ->
  0 <= or_Scanned r <= MaxCandidatesPerTick /\
  0 <= or_Deleted r <= turnDeletes sel c (or_Owner r) /\
  or_Completeness r <> CompletenessNone /\ or_AttemptedAt r = now.
Proof.
  intros HN Ht He. destruct (NewController_ok _ _ HN) as (_ & _ & _ & Hv).
  assert (Hc : lm_Candidates (ct_limits c) <= MaxCandidatesPerTick).
  { unfold validate in Hv. apply negb_true_iff in Hv. bsplit. assumption. }
  unfold tick in Ht. destruct ctxDone; [injection Ht as <- <-; discriminate|].
  destruct (Nat.eqb _ 0); [injection Ht as <- <-; discriminate|].
  destruct (negb _); [injection Ht as <- <-; discriminate|].
  destruct (GetLifecycleCursor rotationCursorKey s) as [[rotation rev]|];
    [|injection Ht as <- <-; discriminate].
  set (name := ro_name (nextOwner c rotation)) in *.
  destruct (GetLifecycleCursor (ownerKey name) s) as [[cursor crev]|];
    [|injection Ht as <- <-; discriminate].
  set (l := if sel then _ else _) in *. set (r0 := sweep name cursor l) in *.
  set (r1 := setter or_CycleComplete _ _) in *.
  match type of Ht with (let '(_, _) := ?x in _) = _ => destruct x as [r2 s1] eqn:E1 end.
  assert (r = r2) as ->.
  { pose proof (saveCursor_clean rotationCursorKey rev name ESaveRotation r2 s1) as Hc2.
    rewrite Ht in Hc2. cbn in Hc2. auto. }
  assert (r2 = checkAdvance cursor (checkResult cursor l r1)) as ->.
  { destruct (_ || _) in E1; [|congruence]. set (x := saveCursor _ _ _ _ _ _) in E1.
    assert (r2 = fst x) as Hx by (rewrite E1; reflexivity). rewrite Hx in He |- *.
    apply saveCursor_clean, He. }
  pose proof (checkAdvance_clean _ _ He) as Hca. rewrite Hca in He |- *. destruct (checkResult_clean _ _ _ He) as (H1 & H2 & H3).
  assert (or_Owner (checkResult cursor l r1) = name /\ or_AttemptedAt (checkResult cursor l r1) = now)
    as [-> ->].
  { apply (checkResult_fields cursor l r1). }
  assert (lm_Candidates l = lm_Candidates (ct_limits c) /\ lm_Deletes l = turnDeletes sel c name)
    as [Hl1 Hl2] by (subst l; unfold turnDeletes; destruct sel; auto).
  rewrite Hl1 in H1. rewrite Hl2 in H2. repeat split; auto; lia.
Qed.

Lemma checkAdvance_failed cursor l r :
  or_Err r <> [] -> or_AdvanceOnError r = false ->
  checkAdvance cursor (checkResult cursor l r) = r.
Proof.
  intros He Ha. unfold checkResult. destruct (or_Err r) eqn:E; [contradiction|]. cbn [head is_nil].
  unfold checkAdvance. rewrite Ha, andb_false_r. reflexivity.
Qed.

(** A failing sweep is local.  Its owner's durable cursor, and every other
    owner's, stay where they were, so the owner retries from the same place;
    only the rotation moves on, past the failed owner. *)
Theorem tick_failure_is_local c now sweep sel (s : S) r s' :
  (forall name cursor l, or_Err (sweep name cursor l) <> [] /\
     or_AdvanceOnError (sweep name cursor l) = false) ->
  tick c false now sweep sel s = (r, s') -> turnTaken r = true ->
  or_Err r <> [] /\
  (exists rev, GetLifecycleCursor rotationCursorKey s' = Some (or_Owner r, rev)) /\
  forall k, k <> rotationCursorKey -> GetLifecycleCursor k s' = GetLifecycleCursor k s.
Proof.
  intros Hsweep Ht Hok. pose proof (tick_turn _ _ _ _ _ _ _ Ht Hok) as (_ & _ & rev1 & _ & _ & Hg1).
  unfold tick in Ht.
  destruct (Nat.eqb _ 0); [injection Ht as <- <-; discriminate|].
  destruct (negb _); [injection Ht as <- <-; discriminate|].
  destruct (GetLifecycleCursor rotationCursorKey s) as [[rotation rev]|];
    [|injection Ht as <- <-; discriminate].
  set (name := ro_name (nextOwner c rotation)) in *.
  destruct (GetLifecycleCursor (ownerKey name) s) as [[cursor crev]|];
    [|injection Ht as <- <-; discriminate].
  set (l := if sel then _ else _) in *. destruct (Hsweep name cursor l) as [He Ha].
  rewrite checkAdvance_failed in Ht by assumption.
  set (r1 := setter or_CycleComplete _ _) in *.
  assert (Hr1 : or_Err r1 <> [] /\ or_AdvanceOnError r1 = false) by (split; assumption).
  clearbody r1. destruct Hr1 as [He1 Ha1].
  destruct (or_Err r1) as [|e es] eqn:Ee; [contradiction|]. cbn [head is_nil orb] in Ht.
  rewrite Ha1 in Ht. unfold saveCursor in Ht.
  destruct (CompareAndSwapLifecycleCursor rotationCursorKey rev name s) as [[|] s2] eqn:Es;
    injection Ht as <- <-.
  - split; [congruence|]. split; [eauto|]. intros k Hk. eapply swap_others; eassumption.
  - exfalso. unfold turnTaken in Hok. cbn in Hok. rewrite Ee, forallb_app in Hok.
    apply andb_true_iff in Hok as [_ Hok]. discriminate.
Qed.
End Theorems.

(** ** A concrete store, and witnesses *)

(** A revisioned map: a swap succeeds on the current revision only. *)
#[export] Instance mapStore : CursorStore (gmap string (string * Z)) := {
  GetLifecycleCursor k s := Some (default (EmptyString, 0) (s !! k));
  CompareAndSwapLifecycleCursor k rev v s :=
    if snd (default (EmptyString, 0) (s !! k)) =? rev
    then (true, <[k := (v, rev + 1)]> s) else (false, s)
}.
#[export] Instance mapStore_laws : CursorLaws (gmap string (string * Z)).
Proof.
  split; intros k; intros; cbn in *; destruct (_ =? _); try discriminate; simplify_eq.
  - exists (rev + 1). rewrite lookup_insert_eq. reflexivity.
  - rewrite lookup_insert_ne by congruence. reflexivity.
Defined.

Definition sampleOwners : list registeredOwner :=
  [mkRegistered "search-generations" true; mkRegistered "durable-jobs" true;
   mkRegistered "observation-v2-generations" true].
Definition sampleController : Controller :=
  match NewController sampleOwners with Ok c => c | Err _ => mkController [] DefaultLimits end.
Definition quietSweep : sweepFn := fun _ _ _ =>
  mkOwnerResult "" "" 3 1 0 0 0 false 0 false false false CompletenessNone [].
Definition failingSweep : sweepFn := fun _ _ _ =>
  mkOwnerResult "" "" 0 0 0 0 0 false 0 false false false Unavailable [ESweep 7].
Definition sampleSweeps : list (Z * sweepFn * bool) :=
  [(1, quietSweep, false); (2, failingSweep, false); (3, quietSweep, true)].
Definition sampleStore : gmap string (string * Z) := {[rotationCursorKey := ("durable-jobs"%string, 4)]}.

Lemma sampleController_new : NewController sampleOwners = Ok sampleController.
Proof. vm_compute. reflexivity. Qed.
Lemma sampleTurns_taken :
  Forall (fun r => turnTaken r = true) (fst (ticks sampleController sampleSweeps sampleStore)).
Proof. apply (bool_decide_eq_true_1 _). vm_compute. reflexivity. Qed.

Lemma rotation_is_fair_witness :
  (or_Owner <$> fst (ticks sampleController sampleSweeps sampleStore))
  = ["observation-v2-generations"; "search-generations"; "durable-jobs"]%string /\
  Permutation (or_Owner <$> fst (ticks sampleController sampleSweeps sampleStore))
    (ro_name <$> sampleOwners).
Proof.
  split; [vm_compute; reflexivity|].
  destruct (rotation_is_fair sampleOwners sampleController sampleSweeps sampleStore
    (fst (ticks sampleController sampleSweeps sampleStore))
    (snd (ticks sampleController sampleSweeps sampleStore)) "durable-jobs" 4
    sampleController_new (surjective_pairing _) sampleTurns_taken eq_refl) as [_ H].
  apply H. reflexivity.
Defined.

Lemma tick_success_is_bounded_witness :
  let r := fst (tick sampleController false 9 quietSweep true sampleStore) in
  or_Owner r = "observation-v2-generations"%string /\ 0 <= or_Deleted r <= 1024.
Proof.
  intros r. split; [vm_compute; reflexivity|].
  destruct (tick_success_is_bounded sampleOwners sampleController false 9 quietSweep true sampleStore r
    (snd (tick sampleController false 9 quietSweep true sampleStore))
    sampleController_new (surjective_pairing _) ltac:(vm_compute; reflexivity))
    as (_ & H & _). exact H.
Defined.

Lemma tick_failure_is_local_witness :
  let '(r, s') := tick sampleController false 9 failingSweep false sampleStore in
  or_Err r = [ESweep 7] /\
  GetLifecycleCursor (ownerKey (or_Owner r)) s' = GetLifecycleCursor (ownerKey (or_Owner r)) sampleStore.
Proof.
  destruct (tick sampleController false 9 failingSweep false sampleStore) as [r s'] eqn:E.
  assert (or_Err r = [ESweep 7] /\ ownerKey (or_Owner r) <> rotationCursorKey /\ turnTaken r = true)
    as (He & Hk & Ht).
  { assert (r = fst (tick sampleController false 9 failingSweep false sampleStore)) as -> by (rewrite E; reflexivity).
    vm_compute. repeat split; discriminate. }
  split; [exact He|].
  destruct (tick_failure_is_local sampleController 9 failingSweep false sampleStore r s'
    ltac:(split; [discriminate|reflexivity]) E Ht) as (_ & _ & H). apply H, Hk.
Defined.
