(* ===== verification/LifecycleRunner.v ===== *)
(** * The lifecycle runner

    Model of [runnerState.turn] in [internal/lifecycle/runner.go]: how the
    outcome of one owner turn and of the capacity check after it choose the
    delay before the next turn.  The timer, the reporters and the collector
    are inputs or observers; the state here is the whole of [runnerState]. *)
From S2P Require Import Prelude GoStrings LifecycleGate LifecycleController.
From Stdlib Require Import Ascii String.

(** Durations are nanoseconds. *)
Definition DefaultPressureRecoveryDelay : Z := 250 * 1000000.

Record runnerState := mkRunner {
  rn_idleInterval : Z;
  rn_backlogDelay : Z;
  rn_delay : Z;
  rn_cycleStarted : bool;
  rn_cycleNeedsRetry : bool;
  rn_pressureRecoveryCycle : bool;
  rn_pressureRecoveryNormalCycle : bool;
  rn_capacityRetryCycle : bool;
  rn_priorCapacityExactNormal : bool
}.
#[export] Instance eta_runnerState : Eta runnerState :=
  fun s => mkRunner (rn_idleInterval s) (rn_backlogDelay s) (rn_delay s) (rn_cycleStarted s)
    (rn_cycleNeedsRetry s) (rn_pressureRecoveryCycle s) (rn_pressureRecoveryNormalCycle s)
    (rn_capacityRetryCycle s) (rn_priorCapacityExactNormal s).

(** [runnerState{idleInterval: ..., backlogDelay: ...}] *)
Definition newRunner (idleInterval backlogDelay : Z) : runnerState :=
  mkRunner idleInterval backlogDelay 0 false false false false false false.

Definition runnerBacklogDelay (backlogDelay : Z) (pressureRecovery : bool) : Z :=
  if pressureRecovery && (DefaultPressureRecoveryDelay <? backlogDelay)
  then DefaultPressureRecoveryDelay else backlogDelay.

(** What one turn sees: the controller's result and, when there is a gate,
    what its check returned. *)
Record turnInput := mkTurn {
  ti_result : OwnerResult;
  ti_capacity : option (Capacity * option lifecycleErr)
}.

Definition accelerated (p : Pressure) : bool :=
  match p with PressureCollect | PressureRefuse => true | _ => false end.
Definition capacityExact (c : Capacity) (e : option lifecycleErr) : bool :=
  match cp_Pressure c with PressureUnavailable => false | _ => true end
  && match e with None | Some ErrPressureRefusal => true | Some _ => false end.
Definition capacityExactNormal (c : Capacity) (e : option lifecycleErr) : bool :=
  capacityExact c e && match cp_Pressure c with PressureNormal => true | _ => false end.
Definition failed (r : OwnerResult) : bool := match or_Err r with [] => false | _ => true end.

(** The cycle flags. *)
Definition observeCycle (r : OwnerResult) (s : runnerState) : runnerState :=
  let s := if or_CycleStart r
           then s <| rn_cycleStarted := true |> <| rn_cycleNeedsRetry := false |> else s in
  if rn_cycleStarted s && (failed r || or_More r)
  then s <| rn_cycleNeedsRetry := true |> else s.

(** The block under [if gate != nil]. *)
Definition observePressure (r : OwnerResult) (c : Capacity) (e : option lifecycleErr)
    (s : runnerState) : runnerState :=
  let s := if or_CycleStart r then s <| rn_capacityRetryCycle := false |> else s in
  let s := if capacityExact c e then s else s <| rn_capacityRetryCycle := true |> in
  let s := if accelerated (cp_Pressure c)
           then s <| rn_pressureRecoveryCycle := true |> <| rn_pressureRecoveryNormalCycle := false |>
           else s in
  let s :=
    if rn_pressureRecoveryCycle s then
      let s :=
        if or_CycleStart r then
          s <| rn_pressureRecoveryNormalCycle :=
                rn_priorCapacityExactNormal s && capacityExactNormal c e |>
        else if capacityExactNormal c e then s
        else s <| rn_pressureRecoveryNormalCycle := false |> in
      if or_CycleComplete r && rn_pressureRecoveryNormalCycle s && negb (rn_cycleNeedsRetry s)
      then s <| rn_pressureRecoveryCycle := false |> <| rn_pressureRecoveryNormalCycle := false |>
      else s
    else s in
  s <| rn_priorCapacityExactNormal := capacityExactNormal c e |>.

(** The delay chosen at the end of the turn. *)
Definition chooseDelay (r : OwnerResult) (pressureAccelerated : bool) (s : runnerState) : runnerState :=
  if rn_cycleNeedsRetry s || negb (or_CycleComplete r) || negb (rn_cycleStarted s)
     || pressureAccelerated || rn_pressureRecoveryCycle s || rn_capacityRetryCycle s
  then s <| rn_delay := runnerBacklogDelay (rn_backlogDelay s)
                          (pressureAccelerated || rn_pressureRecoveryCycle s) |>
  else s <| rn_delay := rn_idleInterval s |> <| rn_cycleStarted := false |>
         <| rn_cycleNeedsRetry := false |>.

(** [ctxDone] is [ctx.Err() != nil] after the tick: the turn then stops,
    with a collector or without one, and leaves the state alone. *)
Definition turn (ctxDone : bool) (i : turnInput) (s : runnerState) : bool * runnerState :=
  if ctxDone then (false, s)
  else
    let r := ti_result i in
    let s := observeCycle r s in
    match ti_capacity i with
    | Some (c, e) => (true, chooseDelay r (accelerated (cp_Pressure c)) (observePressure r c e s))
    | None => (true, chooseDelay r false s)
    end.

(** The runner's loop over completed turns. *)
Definition turns (l : list turnInput) (s : runnerState) : runnerState :=
  fold_left (fun s i => snd (turn false i s)) l s.

(** ** What a turn has to show for its cycle to be clean *)
Definition cleanTurn (i : turnInput) : Prop :=
  or_Err (ti_result i) = [] /\ or_More (ti_result i) = false.
Definition steadyCapacity (i : turnInput) : Prop :=
  match ti_capacity i with
  | None => True
  | Some (c, e) => capacityExact c e = true /\ accelerated (cp_Pressure c) = false
  end.
Definition normalCapacity (i : turnInput) : Prop :=
  match ti_capacity i with None => True | Some (c, e) => capacityExactNormal c e = true end.

(** The turns since the last start of a cycle, most recent first. *)
Fixpoint lastCycle (h : list turnInput) : option (list turnInput) :=
  match h with
  | [] => None
  | i :: h' => if or_CycleStart (ti_result i) then Some [i]
               else match lastCycle h' with Some c => Some (i :: c) | None => None end
  end.

(** [P] holds of every turn since the last start of a cycle. *)
Definition since (P : turnInput -> Prop) (h : list turnInput) : Prop :=
  forall c, lastCycle h = Some c -> Forall P c.
Definition exactCapacity (i : turnInput) : Prop :=
  match ti_capacity i with None => True | Some (c, e) => capacityExact c e = true end.
Definition calmCapacity (i : turnInput) : Prop :=
  match ti_capacity i with None => True | Some (c, _) => accelerated (cp_Pressure c) = false end.

(** What the cycle flags and the pressure flags say of the history. *)
Definition cycleFlags (h : list turnInput) (s : runnerState) : Prop :=
  rn_cycleStarted s = true ->
  lastCycle h <> None /\ (rn_cycleNeedsRetry s = false -> since cleanTurn h).
Record pressureFlags (h : list turnInput) (s : runnerState) : Prop := {
  fl_exact : rn_capacityRetryCycle s = false -> since exactCapacity h;
  fl_normal : rn_pressureRecoveryNormalCycle s = true -> since normalCapacity h;
  fl_recovery : rn_pressureRecoveryCycle s = false -> since calmCapacity h;
  fl_dormant : rn_pressureRecoveryCycle s = false -> rn_pressureRecoveryNormalCycle s = false
}.

(** ** Lemmas *)
Lemma since_cons (P : turnInput -> Prop) i h :
  P i -> (or_CycleStart (ti_result i) = false -> since P h) -> since P (i :: h).
Proof.
  intros Hi Hh c. cbn. destruct (or_CycleStart _).
  - intros [= <-]. by constructor.
  - destruct (lastCycle h) as [c'|] eqn:E; [|discriminate]. intros [= <-].
    constructor; [exact Hi|]. by apply Hh.
Qed.

Lemma since_weaken (P Q : turnInput -> Prop) h : (forall i, P i -> Q i) -> since P h -> since Q h.
Proof. intros HPQ H c Hc. eapply Forall_impl; eauto. Qed.

Lemma normal_is_calm i : normalCapacity i -> calmCapacity i.
Proof.
  unfold normalCapacity, calmCapacity, capacityExactNormal.
  destruct (ti_capacity i) as [[c e]|]; [|auto]. destruct (cp_Pressure c); cbn; auto;
  rewrite andb_false_r; discriminate.
Qed.

Lemma observeCycle_flags i h s :
  cycleFlags h s -> cycleFlags (i :: h) (observeCycle (ti_result i) s).
Proof.
  intros H Hst.
  assert (Hin : or_CycleStart (ti_result i) = false -> rn_cycleStarted s = true).
  { revert Hst. unfold observeCycle. intros Hst Hs. rewrite Hs in Hst. destruct (_ && _) in Hst; exact Hst. }
  split.
  - cbn. destruct (or_CycleStart _) eqn:Es; [discriminate|].
    destruct (H (Hin eq_refl)) as [Hl _]. destruct (lastCycle h); [discriminate|contradiction].
  - intros Hr. apply since_cons.
    + revert Hr Hst. unfold observeCycle, cleanTurn, failed.
      destruct (or_CycleStart _), (or_Err _), (or_More _), (rn_cycleStarted s) eqn:E; cbn;
        rewrite ?E; cbn; try discriminate; rewrite ?E; auto; discriminate.
    + intros Hs. destruct (H (Hin Hs)) as [_ Hc]. apply Hc. revert Hr. unfold observeCycle. rewrite Hs.
      destruct (_ && _); [discriminate|auto].
Qed.

(** The flags after the pressure block, as boolean expressions. *)
Lemma observePressure_fields r c e s :
  let prc := accelerated (cp_Pressure c) || rn_pressureRecoveryCycle s in
  let prn := if prc then (if or_CycleStart r then rn_priorCapacityExactNormal s
                          else negb (accelerated (cp_Pressure c)) && rn_pressureRecoveryNormalCycle s)
                         && capacityExactNormal c e
             else rn_pressureRecoveryNormalCycle s in
  let cleared := prc && or_CycleComplete r && prn && negb (rn_cycleNeedsRetry s) in
  let s' := observePressure r c e s in
  rn_pressureRecoveryCycle s' = prc && negb cleared /\
  rn_pressureRecoveryNormalCycle s' = prn && negb cleared /\
  rn_capacityRetryCycle s' = negb (or_CycleStart r) && rn_capacityRetryCycle s || negb (capacityExact c e) /\
  rn_priorCapacityExactNormal s' = capacityExactNormal c e /\
  rn_cycleStarted s' = rn_cycleStarted s /\ rn_cycleNeedsRetry s' = rn_cycleNeedsRetry s /\
  rn_idleInterval s' = rn_idleInterval s /\ rn_backlogDelay s' = rn_backlogDelay s.
Proof.
  destruct s as [idle back del st rt prc prn crc prior]. unfold observePressure. cbn.
  destruct (or_CycleStart r), (capacityExact c e), (accelerated (cp_Pressure c)),
    (capacityExactNormal c e), prc; cbn; destruct prn, prior, (or_CycleComplete r), rt; cbn;
    rewrite ?orb_false_r, ?orb_true_r; auto 10.
Qed.

Lemma observePressure_flags i h s c e :
  ti_capacity i = Some (c, e) -> pressureFlags h s ->
  pressureFlags (i :: h) (observePressure (ti_result i) c e s).
Proof.
  intros Hc [H1 H2 H3 H4].
  assert (Hnormal : rn_pressureRecoveryNormalCycle (observePressure (ti_result i) c e s) = true \/
      (rn_pressureRecoveryCycle (observePressure (ti_result i) c e s) = false /\
       (accelerated (cp_Pressure c) || rn_pressureRecoveryCycle s) = true) ->
    since normalCapacity (i :: h)).
  { destruct (observePressure_fields (ti_result i) c e s) as (-> & -> & _).
    intros Hn. apply since_cons.
    - unfold normalCapacity. rewrite Hc. revert Hn.
      destruct (accelerated _), (rn_pressureRecoveryCycle s), (capacityExactNormal c e); auto; cbn;
      rewrite ?H4 by reflexivity; rewrite ?andb_false_r; cbn; intuition congruence.
    - intros Hs. rewrite Hs in Hn. apply H2. revert Hn.
      destruct (accelerated _), (rn_pressureRecoveryCycle s), (rn_pressureRecoveryNormalCycle s); auto; cbn;
      rewrite ?andb_false_r; cbn; intuition congruence. }
  constructor.
  - destruct (observePressure_fields (ti_result i) c e s) as (_ & _ & -> & _). intros Hf. bsplit.
    apply since_cons; [unfold exactCapacity; rewrite Hc; assumption|]. intros Hs. apply H1.
    rewrite Hs in *. assumption.
  - auto.
  - intros Hf. destruct (accelerated (cp_Pressure c) || rn_pressureRecoveryCycle s) eqn:E.
    + eapply since_weaken; [apply normal_is_calm|]. auto.
    + bsplit. apply since_cons; [unfold calmCapacity; rewrite Hc; assumption|auto].
  - destruct (observePressure_fields (ti_result i) c e s) as (-> & -> & _).
    destruct (_ || _) eqn:E; cbn; [|bsplit; rewrite H4 by assumption; reflexivity].
    intros ->%negb_false_iff. apply andb_false_r.
Qed.

Lemma noGate_flags i h s :
  ti_capacity i = None -> pressureFlags h s -> pressureFlags (i :: h) s.
Proof.
  intros Hc [H1 H2 H3 H4]. constructor; auto; intros H; apply since_cons; auto;
    unfold exactCapacity, normalCapacity, calmCapacity; rewrite Hc; exact I.
Qed.

Lemma chooseDelay_flags h r p s :
  cycleFlags h s -> pressureFlags h s ->
  cycleFlags h (chooseDelay r p s) /\ pressureFlags h (chooseDelay r p s).
Proof.
  intros Hc [H1 H2 H3 H4]. unfold chooseDelay. destruct (_ || _); cbn; split.
  - exact Hc.
  - constructor; assumption.
  - discriminate.
  - constructor; assumption.
Qed.

(** A turn that chooses the idle interval saw every flag clear. *)
Lemma chooseDelay_idle r p s :
  0 < rn_backlogDelay s < rn_idleInterval s ->
  rn_delay (chooseDelay r p s) = rn_idleInterval s ->
  rn_cycleNeedsRetry s = false /\ or_CycleComplete r = true /\ rn_cycleStarted s = true /\
  rn_pressureRecoveryCycle s = false /\ rn_capacityRetryCycle s = false.
Proof.
  intros Hlt. unfold chooseDelay. destruct (_ || _) eqn:E; cbn.
  - unfold runnerBacklogDelay. destruct (_ && _) eqn:Eb; [|lia]. bsplit. lia.
  - intros _. bsplit. auto.
Qed.

Lemma observeCycle_fields r s :
  let s' := observeCycle r s in
  rn_cycleStarted s' = or_CycleStart r || rn_cycleStarted s /\
  rn_cycleNeedsRetry s' = negb (or_CycleStart r) && rn_cycleNeedsRetry s
    || (or_CycleStart r || rn_cycleStarted s) && (failed r || or_More r) /\
  rn_idleInterval s' = rn_idleInterval s /\ rn_backlogDelay s' = rn_backlogDelay s /\
  rn_pressureRecoveryCycle s' = rn_pressureRecoveryCycle s /\
  rn_pressureRecoveryNormalCycle s' = rn_pressureRecoveryNormalCycle s /\
  rn_capacityRetryCycle s' = rn_capacityRetryCycle s /\
  rn_priorCapacityExactNormal s' = rn_priorCapacityExactNormal s.
Proof.
  destruct s as [idle back del st rt prc prn crc prior]. unfold observeCycle. cbn.
  destruct (or_CycleStart r), (failed r), (or_More r), st; cbn; rewrite ?orb_false_r, ?orb_true_r; auto 10.
Qed.

Lemma chooseDelay_fields r p s :
  let s' := chooseDelay r p s in
  rn_idleInterval s' = rn_idleInterval s /\ rn_backlogDelay s' = rn_backlogDelay s /\
  rn_pressureRecoveryCycle s' = rn_pressureRecoveryCycle s /\
  rn_pressureRecoveryNormalCycle s' = rn_pressureRecoveryNormalCycle s /\
  rn_capacityRetryCycle s' = rn_capacityRetryCycle s /\
  rn_priorCapacityExactNormal s' = rn_priorCapacityExactNormal s.
Proof. unfold chooseDelay. destruct (_ || _); cbn; auto 10. Qed.

(** One turn extends what the flags say by its input, and the idle interval
    is chosen only with every flag clear. *)
Lemma turn_flags i h s :
  cycleFlags h s -> pressureFlags h s ->
  let s' := snd (turn false i s) in
  cycleFlags (i :: h) s' /\ pressureFlags (i :: h) s' /\
  rn_idleInterval s' = rn_idleInterval s /\ rn_backlogDelay s' = rn_backlogDelay s /\
  (0 < rn_backlogDelay s < rn_idleInterval s -> rn_delay s' = rn_idleInterval s ->
   or_CycleComplete (ti_result i) = true /\ lastCycle (i :: h) <> None /\
   since cleanTurn (i :: h) /\ since exactCapacity (i :: h) /\ since calmCapacity (i :: h)).
Proof.
  intros Hc Hp. pose proof (observeCycle_flags i h s Hc) as Hc1.
  assert (Hp1 : pressureFlags h (observeCycle (ti_result i) s)).
  { destruct (observeCycle_fields (ti_result i) s) as (_ & _ & _ & _ & E1 & E2 & E3 & _).
    destruct Hp as [F1 F2 F3 F4]. constructor; rewrite ?E1, ?E2, ?E3; assumption. }
  assert (Hstep : forall (p : bool) s2, cycleFlags (i :: h) s2 -> pressureFlags (i :: h) s2 ->
    rn_idleInterval s2 = rn_idleInterval s -> rn_backlogDelay s2 = rn_backlogDelay s ->
    let s' := chooseDelay (ti_result i) p s2 in
    cycleFlags (i :: h) s' /\ pressureFlags (i :: h) s' /\
    rn_idleInterval s' = rn_idleInterval s /\ rn_backlogDelay s' = rn_backlogDelay s /\
    (0 < rn_backlogDelay s < rn_idleInterval s -> rn_delay s' = rn_idleInterval s ->
     or_CycleComplete (ti_result i) = true /\ lastCycle (i :: h) <> None /\
     since cleanTurn (i :: h) /\ since exactCapacity (i :: h) /\ since calmCapacity (i :: h))).
  { intros p s2 Hc2 Hp2 Ei Eb. cbn zeta.
    destruct (chooseDelay_flags (i :: h) (ti_result i) p s2 Hc2 Hp2) as [Hc3 Hp3].
    destruct (chooseDelay_fields (ti_result i) p s2) as (Ei3 & Eb3 & _).
    rewrite Ei3, Eb3. split; [exact Hc3|]. split; [exact Hp3|]. split; [exact Ei|]. split; [exact Eb|].
    intros Hlt Hd. rewrite <- Ei in Hd. rewrite <- Ei, <- Eb in Hlt.
    destruct (chooseDelay_idle _ _ _ Hlt Hd) as (Hr & Hcc & Hst & Hprc & Hcrc).
    destruct Hp2 as [G1 _ G3 _]. destruct (Hc2 Hst) as [Hl Hcl]. auto 10. }
  destruct (observeCycle_fields (ti_result i) s) as (_ & _ & Ei & Eb & _). unfold turn.
  destruct (ti_capacity i) as [[c e]|] eqn:Ec; cbn [snd]; apply Hstep; auto.
  - destruct (observePressure_fields (ti_result i) c e (observeCycle (ti_result i) s))
      as (_ & _ & _ & _ & E1 & E2 & _).
    intros Hst. rewrite E1 in Hst. rewrite E2. exact (Hc1 Hst).
  - apply observePressure_flags; assumption.
  - destruct (observePressure_fields (ti_result i) c e (observeCycle (ti_result i) s))
      as (_ & _ & _ & _ & _ & _ & -> & _). exact Ei.
  - destruct (observePressure_fields (ti_result i) c e (observeCycle (ti_result i) s))
      as (_ & _ & _ & _ & _ & _ & _ & ->). exact Eb.
  - apply noGate_flags; assumption.
Qed.

Lemma turns_flags l h s :
  cycleFlags h s -> pressureFlags h s ->
  cycleFlags (rev l ++ h) (turns l s) /\ pressureFlags (rev l ++ h) (turns l s) /\
  rn_idleInterval (turns l s) = rn_idleInterval s /\ rn_backlogDelay (turns l s) = rn_backlogDelay s.
Proof.
  revert h s; induction l as [|i l IH]; intros h s Hc Hp; [auto|].
  cbn [rev]. rewrite <- app_assoc. change (turns (i :: l) s) with (turns l (snd (turn false i s))).
  destruct (turn_flags i h s Hc Hp) as (Hc' & Hp' & Ei & Eb & _).
  destruct (IH _ _ Hc' Hp') as (? & ? & Ei' & Eb'). rewrite Ei', Eb'. auto.
Qed.

Lemma lastCycle_split h c :
  lastCycle h = Some c -> exists c' i h', c = c' ++ [i] /\ h = c ++ h' /\ or_CycleStart (ti_result i) = true.
Proof.
  revert c; induction h as [|i h IH]; intros c H; [discriminate|]. cbn in H.
  destruct (or_CycleStart _) eqn:Es.
  - injection H as <-. exists [], i, h. auto.
  - destruct (lastCycle h) as [c0|]; [|discriminate]. injection H as <-.
    destruct (IH _ eq_refl) as (c' & j & h' & -> & -> & Hj). exists (i :: c'), j, h'. auto.
Qed.

(** The runner waits for the idle interval only after a complete clean
    cycle: the turns it took end with one that starts at the first owner,
    completes at the last, and in which no owner failed or had more to do and
    every capacity check was exact and below the collection watermark. *)
Theorem idle_follows_a_clean_cycle idleInterval backlogDelay l :
  0 < backlogDelay < idleInterval ->
  rn_delay (turns l (newRunner idleInterval backlogDelay)) = idleInterval ->
  exists before cycle,
    l = before ++ cycle /\
    option_map (fun i => or_CycleStart (ti_result i)) (head cycle) = Some true /\
    option_map (fun i => or_CycleComplete (ti_result i)) (last cycle) = Some true /\
    Forall (fun i => cleanTurn i /\ steadyCapacity i) cycle.
Proof.
  intros Hlt Hd. destruct l as [|i l _] using rev_ind; [cbn in Hd; lia|].
  assert (H0 : cycleFlags [] (newRunner idleInterval backlogDelay)) by (intros H; discriminate).
  assert (H1 : pressureFlags [] (newRunner idleInterval backlogDelay))
    by (constructor; try discriminate; auto; intros _ c H; discriminate).
  destruct (turns_flags l [] _ H0 H1) as (Hc & Hp & Ei & Eb). rewrite app_nil_r in Hc, Hp.
  unfold turns in Hd. rewrite fold_left_app in Hd. cbn [fold_left] in Hd. fold (turns l) in Hd.
  destruct (turn_flags i (rev l) _ Hc Hp) as (_ & _ & _ & _ & Hidle).
  rewrite Ei, Eb in Hidle. destruct (Hidle Hlt Hd) as (Hcc & Hl & S1 & S2 & S3).
  destruct (lastCycle (i :: rev l)) as [c|] eqn:El; [|contradiction].
  destruct (lastCycle_split _ _ El) as (c' & j & h' & Ec & Eh & Hj).
  exists (rev h'), (rev c).
  assert (Happ : l ++ [i] = rev h' ++ rev c).
  { rewrite <- rev_app_distr, <- Eh. cbn. rewrite rev_involutive. reflexivity. }
  split; [exact Happ|]. split; [|split].
  - rewrite Ec, rev_app_distr. cbn. by rewrite Hj.
  - destruct c as [|i' c]; [destruct c'; discriminate|]. injection Eh as <- _.
    cbn [rev]. rewrite last_snoc. cbn. by rewrite Hcc.
  - apply Forall_rev. apply Forall_and. split; [auto|].
    specialize (S2 c El). specialize (S3 c El). clear -S2 S3.
    induction c as [|x c IH]; [constructor|]. inversion S2; inversion S3; subst.
    constructor; [|auto]. unfold exactCapacity, calmCapacity, steadyCapacity in *.
    destruct (ti_capacity x) as [[? ?]|]; auto.
Qed.

(** ** Recovery *)
Definition healthyTurn (i : turnInput) : Prop :=
  cleanTurn i /\ exists c e, ti_capacity i = Some (c, e) /\ capacityExactNormal c e = true.
Definition inHealthyCycle (s : runnerState) : Prop :=
  rn_cycleStarted s = true /\ rn_cycleNeedsRetry s = false /\ rn_capacityRetryCycle s = false /\
  (rn_pressureRecoveryCycle s = true -> rn_pressureRecoveryNormalCycle s = true).

Lemma healthy_turn i s :
  healthyTurn i ->
  (if or_CycleStart (ti_result i) then rn_priorCapacityExactNormal s = true else inHealthyCycle s) ->
  let s' := snd (turn false i s) in
  rn_idleInterval s' = rn_idleInterval s /\
  if or_CycleComplete (ti_result i) then rn_delay s' = rn_idleInterval s else inHealthyCycle s'.
Proof.
  intros ((Herr & Hmore) & c & e & Ec & En) Hpre. unfold turn. rewrite Ec. cbn [snd].
  assert (Hcalm : accelerated (cp_Pressure c) = false).
  { pose proof (normal_is_calm i) as H. unfold normalCapacity, calmCapacity in H. rewrite Ec in H. auto. }
  assert (Hex : capacityExact c e = true) by (unfold capacityExactNormal in En; bsplit; assumption).
  assert (Hcl : failed (ti_result i) || or_More (ti_result i) = false) by (unfold failed; rewrite Herr, Hmore; reflexivity).
  destruct (observeCycle_fields (ti_result i) s) as (F1 & F2 & F3 & _ & F5 & F6 & F7 & F8).
  destruct (observePressure_fields (ti_result i) c e (observeCycle (ti_result i) s))
    as (G1 & G2 & G3 & _ & G5 & G6 & G7 & _).
  set (s2 := observePressure _ _ _ _) in *. clearbody s2.
  rewrite F1 in G5. rewrite F2, Hcl, andb_false_r, orb_false_r in G6. rewrite F3 in G7.
  rewrite F7, Hex, orb_false_r in G3.
  rewrite F2, F5, F6, F8, Hcalm, En, Hcl, andb_false_r, orb_false_r in G1, G2. cbn in G1, G2.
  assert (Hin : inHealthyCycle s2 /\ (or_CycleComplete (ti_result i) = true -> rn_pressureRecoveryCycle s2 = false)).
  { unfold inHealthyCycle. rewrite G1, G2, G3, G5, G6. clear -Hpre. unfold inHealthyCycle in Hpre.
    destruct (or_CycleStart _), (or_CycleComplete _); cbn in *.
    all: try rewrite Hpre. all: try (destruct Hpre as (-> & -> & -> & Hpr)).
    all: destruct (rn_pressureRecoveryCycle s); try (rewrite (Hpr eq_refl)); cbn; intuition congruence. }
  clear -Hin Hcalm G7. destruct Hin as ((H1 & H2 & H3 & H4) & H5). unfold chooseDelay.
  rewrite Hcalm, H1, H2, H3. destruct (or_CycleComplete _); cbn.
  - rewrite H5 by reflexivity. cbn. auto.
  - unfold inHealthyCycle. cbn. auto.
Qed.

(** Pressure and retries never keep the runner in backlog for good: from
    whatever state, one complete healthy cycle (first owner to last, no
    failure, nothing left, every capacity exact and normal) that follows a
    normal capacity ends with the idle interval. *)
Theorem healthy_cycle_reaches_idle s first middle final :
  rn_priorCapacityExactNormal s = true ->
  Forall healthyTurn (first :: middle ++ [final]) ->
  or_CycleStart (ti_result first) = true ->
  Forall (fun i => or_CycleStart (ti_result i) = false) (middle ++ [final]) ->
  Forall (fun i => or_CycleComplete (ti_result i) = false) (first :: middle) ->
  or_CycleComplete (ti_result final) = true ->
  rn_delay (turns (first :: middle ++ [final]) s) = rn_idleInterval s.
Proof.
  intros Hprior Hh Hs Hns Hnc Hc. inversion Hh as [|? ? Hh1 Hhs]; subst.
  inversion Hnc as [|? ? Hnc1 Hncs]; subst.
  change (turns (first :: middle ++ [final]) s) with (turns (middle ++ [final]) (snd (turn false first s))).
  pose proof (healthy_turn first s Hh1) as H. rewrite Hs, Hnc1 in H. destruct (H Hprior) as [Ei Hin]. clear H.
  rewrite <- Ei. set (s1 := snd _) in *. clearbody s1. clear -Hhs Hns Hncs Hc Hin.
  revert s1 Hin. induction middle as [|i middle IH]; intros s1 Hin; cbn [app] in *;
    inversion Hhs as [|? ? Hi Hrest]; inversion Hns as [|? ? Hi' Hns']; subst.
  - pose proof (healthy_turn final s1 Hi) as H. rewrite Hi', Hc in H. exact (proj2 (H Hin)).
  - inversion Hncs as [|? ? Hnci Hncs']; subst. pose proof (healthy_turn i s1 Hi) as H.
    rewrite Hi', Hnci in H. destruct (H Hin) as [Ei Hin'].
    change (turns (i :: middle ++ [final]) s1) with (turns (middle ++ [final]) (snd (turn false i s1))).
    rewrite <- Ei. apply IH; assumption.
Qed.

(** ** Witnesses *)
Definition sampleTurn (start complete : bool) : turnInput :=
  mkTurn (mkOwnerResult "durable-jobs" "" 1 0 0 0 0 false 0 start complete false Exact [])
    (Some (mkCapacity 100 60 40 40 40 PressureNormal, None)).
Definition sampleTurns : list turnInput := [sampleTurn true false; sampleTurn false false; sampleTurn false true].

Lemma idle_follows_a_clean_cycle_witness :
  exists before cycle, sampleTurns = before ++ cycle /\ Forall (fun i => cleanTurn i /\ steadyCapacity i) cycle.
Proof.
  destruct (idle_follows_a_clean_cycle 3600 5 sampleTurns ltac:(lia) ltac:(reflexivity))
    as (before & cycle & H1 & _ & _ & H4).
  exists before, cycle. split; assumption.
Defined.

Lemma healthy_cycle_reaches_idle_witness :
  rn_delay (turns sampleTurns (mkRunner 3600 5 1 false true true false true true)) = 3600.
Proof.
  apply (healthy_cycle_reaches_idle (mkRunner 3600 5 1 false true true false true true)
    (sampleTurn true false) [sampleTurn false false] (sampleTurn false true)); try reflexivity.
  - repeat constructor; eexists _, _; split; reflexivity.
  - repeat constructor.
  - repeat constructor.
Defined.
