(* ===== verification/LifecycleStatus.v ===== *)
(** * Lifecycle status

    Model of [internal/lifecycle/status.go]: the monitor that keeps one row
    per owner and the last capacity, and the validator of what it publishes. *)
From S2P Require Import Prelude GoStrings LifecycleGate LifecycleController.
From Stdlib Require Import Ascii String Sorted.

Definition MaxRootBytes : Z := 256 * 2 ^ 10.
Definition MaxMemberBytes : Z := 2 * 2 ^ 20.
Definition MaxLogicalBytes : Z := 16 * 2 ^ 20.

Definition StatusSchema : string := "phebs-lifecycle-status-v1".

Record StatusPolicy := mkStatusPolicy {
  sp_Enabled : bool;
  sp_Owners : Z;
  sp_SoftWatermarkPercent : Z;
  sp_HardWatermarkPercent : Z;
  sp_ResumeWatermarkPercent : Z;
  sp_MaxCandidatesPerTurn : Z;
  sp_MaxDeletesPerTurn : Z;
  sp_MaxQueriesPerTurn : Z
}.
#[export] Instance eta_StatusPolicy : Eta StatusPolicy :=
  fun p => mkStatusPolicy (sp_Enabled p) (sp_Owners p) (sp_SoftWatermarkPercent p)
    (sp_HardWatermarkPercent p) (sp_ResumeWatermarkPercent p) (sp_MaxCandidatesPerTurn p)
    (sp_MaxDeletesPerTurn p) (sp_MaxQueriesPerTurn p).

(** Nil pointers are [None]. *)
Record CapacityStatus := mkCapacityStatus {
  cs_Completeness : Completeness;
  cs_Pressure : Pressure;
  cs_TotalBytes : option Z;
  cs_UsedBytes : option Z;
  cs_UsedPercent : option Z;
  cs_ObservedAt : option Z
}.

(** ["not_run"], ["ok"] and ["error"]. *)
Inductive OwnerState := NotRun | StateOk | StateError.

Record OwnerStatus := mkOwnerStatus {
  os_Name : string;
  os_State : OwnerState;
  os_Completeness : Completeness;
  os_Scanned : Z;
  os_Deleted : Z;
  os_LogicalBytes : Z;
  os_RootBytes : Z;
  os_MemberBytes : Z;
  os_Backlog : bool;
  os_AttemptedAt : option Z
}.

Record Status := mkStatus {
  st_SchemaVersion : string;
  st_Policy : StatusPolicy;
  st_Capacity : CapacityStatus;
  st_Owners : list OwnerStatus
}.
#[export] Instance eta_Status : Eta Status :=
  fun s => mkStatus (st_SchemaVersion s) (st_Policy s) (st_Capacity s) (st_Owners s).

Definition unavailableStatus : CapacityStatus :=
  mkCapacityStatus Unavailable PressureUnavailable None None None None.

Definition NewStatusMonitor (enabled : bool) (owners : list registeredOwner)
    : res lifecycleErr Status :=
  if negb (forallb ro_present owners) then Err ErrNilOwner
  else match normalizeOwners owners with
  | Err e => Err e
  | Ok normalized =>
      Ok (mkStatus StatusSchema
            (mkStatusPolicy enabled (Z.of_nat (Datatypes.length normalized)) SoftWatermarkPercent
               HardWatermarkPercent ResumeWatermarkPercent MaxCandidatesPerTick MaxDeletesPerTick
               MaxQueriesPerTick)
            unavailableStatus
            ((fun o => mkOwnerStatus (ro_name o) NotRun Unavailable 0 0 0 0 0 false None)
               <$> normalized))
  end.

Definition NewSelectedCleanupStatusMonitor (enabled : bool) (owners : list registeredOwner)
    : res lifecycleErr Status :=
  match NewStatusMonitor enabled owners with
  | Err e => Err e
  | Ok s =>
      Ok (s <| st_Policy ::= fun p =>
                 p <| sp_MaxDeletesPerTurn := SelectedCleanupObservationDeletes |> |>)
  end.

(** [slices.BinarySearchFunc] on the sorted rows. *)
Definition noStatus : OwnerStatus := mkOwnerStatus "" NotRun Unavailable 0 0 0 0 0 false None.
Definition rowName (l : list OwnerStatus) (i : nat) : string := os_Name (nth i l noStatus).
Definition findRow (l : list OwnerStatus) (name : string) : option nat :=
  let n := Datatypes.length l in
  let i := search n (fun i => Nat.leb n i || negb (str_ltb (rowName l i) name)) in
  if Nat.ltb i n && String.eqb (rowName l i) name then Some i else None.

(** A time is an integer and 0 is the zero [time.Time]; [now] is the clock. *)
Definition ObserveOwner (now : Z) (r : OwnerResult) (s : Status) : Status :=
  match findRow (st_Owners s) (or_Owner r) with
  | None => s
  | Some i =>
      let attempted := if or_AttemptedAt r =? 0 then now else or_AttemptedAt r in
      let state := match or_Err r with [] => StateOk | _ => StateError end in
      s <| st_Owners ::= fun l =>
        <[i := mkOwnerStatus (or_Owner r) state (or_Completeness r) (or_Scanned r) (or_Deleted r)
                 (or_LogicalBytes r) (or_RootBytes r) (or_MemberBytes r) (or_More r)
                 (Some attempted)]> l |>
  end.

Definition pressureUnavailable (p : Pressure) : bool :=
  match p with PressureUnavailable => true | _ => false end.

Definition ObserveCapacity (now : Z) (c : Capacity) (e : option lifecycleErr) (s : Status) : Status :=
  if pressureUnavailable (cp_Pressure c) || bool_decide (e = Some ErrCapacityUnavailable)
  then s <| st_Capacity := unavailableStatus |>
  else s <| st_Capacity :=
         mkCapacityStatus Exact (cp_Pressure c) (Some (cp_TotalBytes c)) (Some (cp_UsedBytes c))
           (Some (cp_UsedPercent c)) (Some now) |>.

Definition validOwner (selected : bool) (previous : string) (o : OwnerStatus) : bool :=
  let deleteLimit := if selected then SelectedCleanupDeleteLimit (os_Name o) else MaxDeletesPerTick in
  negb (String.eqb (os_Name o) "" || negb (str_ltb previous (os_Name o))
        || match os_Completeness o with CompletenessNone => true | _ => false end
        || (os_Scanned o <? 0) || (MaxCandidatesPerTick <? os_Scanned o)
        || (os_Deleted o <? 0) || (deleteLimit <? os_Deleted o)
        || (os_LogicalBytes o <? 0) || (MaxLogicalBytes <? os_LogicalBytes o)
        || (os_RootBytes o <? 0) || (MaxRootBytes <? os_RootBytes o)
        || (os_MemberBytes o <? 0) || (MaxMemberBytes <? os_MemberBytes o)).

Fixpoint validOwners (selected : bool) (previous : string) (l : list OwnerStatus) : bool :=
  match l with
  | [] => true
  | o :: l' => validOwner selected previous o && validOwners selected (os_Name o) l'
  end.

Definition validPolicy (selected : bool) (s : Status) : bool :=
  let p := st_Policy s in
  let maximumDeletes := if selected then SelectedCleanupObservationDeletes else MaxDeletesPerTick in
  String.eqb (st_SchemaVersion s) StatusSchema && (1 <=? sp_Owners p)
  && (sp_Owners p =? Z.of_nat (Datatypes.length (st_Owners s)))
  && (sp_SoftWatermarkPercent p =? SoftWatermarkPercent)
  && (sp_HardWatermarkPercent p =? HardWatermarkPercent)
  && (sp_ResumeWatermarkPercent p =? ResumeWatermarkPercent)
  && (sp_MaxCandidatesPerTurn p =? MaxCandidatesPerTick)
  && (sp_MaxDeletesPerTurn p =? maximumDeletes) && (sp_MaxQueriesPerTurn p =? MaxQueriesPerTick).

Definition validCapacity (c : CapacityStatus) : bool :=
  match cs_Completeness c with
  | Unavailable =>
      pressureUnavailable (cs_Pressure c) && is_nil (cs_TotalBytes c) && is_nil (cs_UsedBytes c)
      && is_nil (cs_UsedPercent c)
  | Exact =>
      match cs_TotalBytes c, cs_UsedBytes c, cs_UsedPercent c with
      | Some total, Some used, Some percent =>
          negb (pressureUnavailable (cs_Pressure c)) && (0 <? total) && (0 <=? used)
          && (used <=? total) && (0 <=? percent) && (percent <=? 100)
      | _, _, _ => false
      end
  | _ => false
  end.

(** [validateStatus] returns nil. *)
Definition validateStatus (s : Status) (selected : bool) : bool :=
  validPolicy selected s && validOwners selected "" (st_Owners s) && validCapacity (st_Capacity s).

(** ** What the monitor publishes is valid *)
Inductive report :=
  | OwnerTurn (now : Z) (r : OwnerResult)
  | CapacityCheck (now : Z) (c : Capacity) (e : option lifecycleErr).

Definition observe (s : Status) (rep : report) : Status :=
  match rep with
  | OwnerTurn now r => ObserveOwner now r s
  | CapacityCheck now c e => ObserveCapacity now c e s
  end.

(** The bounds of one row, its name and place apart. *)
Definition boundedRow (selected : bool) (r : OwnerResult) : Prop :=
  or_Completeness r <> CompletenessNone /\ 0 <= or_Scanned r <= MaxCandidatesPerTick /\
  0 <= or_Deleted r <= (if selected then SelectedCleanupDeleteLimit (or_Owner r) else MaxDeletesPerTick) /\
  0 <= or_LogicalBytes r <= MaxLogicalBytes /\ 0 <= or_RootBytes r <= MaxRootBytes /\
  0 <= or_MemberBytes r <= MaxMemberBytes.

(** A capacity the gate reported for a filesystem it could measure, or the
    explicit unavailability. *)
Definition gateReport (c : Capacity) (e : option lifecycleErr) : Prop :=
  (c = unavailableCapacity /\ e = Some ErrCapacityUnavailable) \/
  exists g o g', measurable o /\
    CheckObserved (Some g) false false (capacityOf o) (ob_estimated o) = Some (c, e, g').

Definition reportable (selected : bool) (rep : report) : Prop :=
  match rep with
  | OwnerTurn _ r => boundedRow selected r
  | CapacityCheck _ c e => gateReport c e
  end.

Lemma validOwners_replace selected previous l i o o' :
  validOwners selected previous l = true -> l !! i = Some o -> os_Name o' = os_Name o ->
  (forall p, validOwner selected p o = true -> validOwner selected p o' = true) ->
  validOwners selected previous (<[i := o']> l) = true.
Proof.
  revert previous i; induction l as [|x l IH]; intros previous i Hv Hi Hn Ho; [discriminate|].
  cbn in Hv. apply andb_true_iff in Hv as [Hx Hl]. destruct i as [|i].
  - injection Hi as ->. cbn. rewrite (Ho _ Hx), Hn. exact Hl.
  - change (<[S i := o']> (x :: l)) with (x :: <[i := o']> l). cbn. rewrite Hx. cbn. eauto.
Qed.

Lemma findRow_Some l name i :
  findRow l name = Some i -> exists o, l !! i = Some o /\ os_Name o = name.
Proof.
  unfold findRow. set (k := search _ _). clearbody k.
  destruct (_ && _) eqn:E; [|discriminate]. intros [= <-].
  apply andb_true_iff in E as [E1 E2]. apply Nat.ltb_lt in E1. apply String.eqb_eq in E2.
  apply lookup_lt_is_Some in E1 as [o Ho]. exists o. split; [exact Ho|].
  unfold rowName in E2. rewrite nth_lookup, Ho in E2. exact E2.
Qed.

Lemma observe_owner_valid selected now r s :
  boundedRow selected r -> validateStatus s selected = true ->
  validateStatus (ObserveOwner now r s) selected = true.
Proof.
  intros (Hc & Hs & Hd & Hl & Hr & Hm) Hv. unfold ObserveOwner.
  destruct (findRow (st_Owners s) (or_Owner r)) as [i|] eqn:Ei; [|exact Hv].
  destruct (findRow_Some _ _ _ Ei) as (o & Ho & Hname).
  unfold validateStatus in *. apply andb_true_iff in Hv as [[Hp Hv]%andb_true_iff Hcap].
  apply andb_true_iff. split; [apply andb_true_iff; split|exact Hcap].
  - unfold validPolicy in *. cbn. rewrite length_insert. exact Hp.
  - cbn [st_Owners setter]. apply (validOwners_replace _ _ _ _ o); auto.
    intros p Hp'. unfold validOwner in Hp'. apply negb_true_iff in Hp'.
    assert (String.eqb (os_Name o) "" = false /\ str_ltb p (os_Name o) = true) as [Hp1 Hp2]
      by (bsplit; auto).
    unfold validOwner. cbn -[Z.ltb]. rewrite Hname in Hp1, Hp2. rewrite Hp1, Hp2.
    rewrite !(proj2 (Z.ltb_ge _ _)) by (destruct selected; lia).
    destruct (or_Completeness r); [reflexivity..|contradiction].
Qed.

Lemma observe_capacity_valid selected now c e s :
  gateReport c e -> validateStatus s selected = true ->
  validateStatus (ObserveCapacity now c e s) selected = true.
Proof.
  intros Hg Hv. unfold validateStatus in *. apply andb_true_iff in Hv as [Hp Hcap].
  destruct Hg as [(-> & ->)|(g & o & g' & Hm & Hg)].
  - cbn. unfold validPolicy in *. cbn in *. rewrite Hp. reflexivity.
  - destruct (CheckObserved_value g o Hm) as (p & Hval & Hb & _). rewrite Hval in Hg.
    destruct Hm as (Ht & Hu & _).
    assert (Hout : cp_TotalBytes c = ob_total o /\ cp_UsedBytes c = ob_used o /\ cp_UsedPercent c = p /\
              pressureUnavailable (cp_Pressure c) = false /\ e <> Some ErrCapacityUnavailable).
    { destruct (latch _ _) as [[out e0] g0] eqn:El in Hg. injection Hg as <- <- _.
      apply latch_output in El as (pr & -> & Hpr & He). cbn. repeat split; auto.
      destruct pr; auto; contradiction. }
    destruct Hout as (H1 & H2 & H3 & H4 & H5). unfold ObserveCapacity.
    rewrite H4, bool_decide_eq_false_2 by exact H5. cbn [orb].
    unfold validPolicy in *. cbn -[Z.leb Z.ltb validOwners] in *. rewrite Hp, H1, H2, H3, H4. cbn [andb negb].
    rewrite (proj2 (Z.ltb_lt 0 _)), !(proj2 (Z.leb_le _ _)) by lia. reflexivity.
Qed.

Lemma new_owners_valid selected previous l :
  strictlySorted l -> (forall o, head l = Some o -> str_ltb previous (ro_name o) = true) ->
  (forall o, o ∈ l -> ro_name o <> EmptyString) ->
  validOwners selected previous
    ((fun o => mkOwnerStatus (ro_name o) NotRun Unavailable 0 0 0 0 0 false None) <$> l) = true.
Proof.
  revert previous; induction l as [|o l IH]; intros previous Hs Hh Hne; [reflexivity|].
  rewrite fmap_cons. cbn -[validOwner]. apply andb_true_iff. split.
  - unfold validOwner. cbn. rewrite (proj2 (String.eqb_neq _ _) (Hne o ltac:(left))).
    rewrite (Hh o eq_refl). cbn. pose proof (SelectedCleanupDeleteLimit_range (ro_name o)) as Hr.
    unfold MaxDeletesPerTick in *. destruct selected; [|reflexivity].
    rewrite (proj2 (Z.ltb_ge _ 0)) by lia. reflexivity.
  - apply IH.
    + intros i j x y Hx Hy Hij. apply (Hs (S i) (S j) x y Hx Hy). lia.
    + intros o' Ho'. destruct l as [|z l]; [discriminate|]. injection Ho' as <-.
      apply (Hs 0%nat 1%nat o z eq_refl eq_refl). lia.
    + intros o' Ho'. apply Hne. by right.
Qed.

Lemma checkOwners_nonempty prev l :
  checkOwners prev l = Ok tt -> forall o, o ∈ l -> ro_name o <> EmptyString.
Proof.
  revert prev; induction l as [|x l IH]; intros prev H o Ho; [inversion Ho|].
  cbn in H. destruct (_ || _) eqn:E; [discriminate|].
  destruct (match prev with Some q => String.eqb q (ro_name x) | None => false end); [discriminate|].
  apply elem_of_cons in Ho as [->|Ho]; [|eauto].
  apply orb_false_iff in E as [E _]. apply orb_false_iff in E as [E _]. apply String.eqb_neq, E.
Qed.

Lemma normalized_nonempty owners l :
  normalizeOwners owners = Ok l ->
  strictlySorted l /\ (0 < Datatypes.length l)%nat /\ forall o, o ∈ l -> ro_name o <> EmptyString.
Proof.
  unfold normalizeOwners. destruct (_ || _) eqn:Eg; [discriminate|].
  destruct (checkOwners _ _) as [[]|] eqn:Ec; [|discriminate]. intros [= <-].
  split; [eapply checkOwners_strict; [apply sortOwners_sorted|exact Ec]|]. split.
  - rewrite (Permutation_length (sortOwners_perm owners)). bsplit. lia.
  - eauto using checkOwners_nonempty.
Qed.

Lemma new_status_valid (selected : bool) enabled owners s :
  (if selected then NewSelectedCleanupStatusMonitor enabled owners else NewStatusMonitor enabled owners)
    = Ok s -> validateStatus s selected = true.
Proof.
  assert (Hbase : forall s : Status, NewStatusMonitor enabled owners = Ok s ->
    forall (sel : bool) (m : Z), validOwners sel EmptyString (st_Owners s) = true /\
      validPolicy sel (s <| st_Policy ::= fun p => p <| sp_MaxDeletesPerTurn := m |> |>)
      = (m =? if sel then SelectedCleanupObservationDeletes else MaxDeletesPerTick) /\
      st_Capacity s = unavailableStatus /\ sp_MaxDeletesPerTurn (st_Policy s) = MaxDeletesPerTick).
  { intros s0 H0 sel m. unfold NewStatusMonitor in H0. destruct (negb _); [discriminate|].
    destruct (normalizeOwners owners) as [l|] eqn:En; [|discriminate]. cbn in H0. injection H0 as <-.
    destruct (normalized_nonempty _ _ En) as (Hs & Hn & Hne). split; [|split; [|split; reflexivity]].
    - apply new_owners_valid; auto. intros o Ho. destruct l as [|x l]; [discriminate|]. cbn in Ho. injection Ho as <-.
      specialize (Hne x ltac:(left)). destruct (ro_name x); [contradiction|reflexivity].
    - unfold validPolicy. cbn -[Z.leb Z.eqb]. rewrite length_fmap, Z.eqb_refl, (proj2 (Z.leb_le 1 _)) by lia.
      rewrite !Z.eqb_refl. cbn -[Z.eqb]. apply andb_true_r. }
  intros H. unfold validateStatus. destruct selected.
  - unfold NewSelectedCleanupStatusMonitor in H. destruct (NewStatusMonitor enabled owners) as [s0|]; [|discriminate].
    injection H as <-. destruct (Hbase s0 eq_refl true SelectedCleanupObservationDeletes) as (H1 & H2 & H3 & _).
    rewrite H2. cbn. rewrite H1, H3. reflexivity.
  - destruct (Hbase s H false MaxDeletesPerTick) as (H1 & H2 & H3 & H4).
    assert (s <| st_Policy ::= fun p => p <| sp_MaxDeletesPerTurn := MaxDeletesPerTick |> |> = s) as Hid.
    { destruct s as [v p c o]. cbn in *. destruct p. cbn in *. subst. reflexivity. }
    rewrite Hid in H2. rewrite H2, H1, H3. reflexivity.
Qed.

(** As long as owner turns stay within their bounds and capacity comes
    from a measured or explicitly unavailable filesystem, everything the
    monitor publishes passes the package's own status validation, in the
    ordinary and in the selected-cleanup profile. *)
Theorem published_status_is_valid (selected : bool) enabled owners s reports :
  (if selected then NewSelectedCleanupStatusMonitor enabled owners else NewStatusMonitor enabled owners)
    = Ok s ->
  Forall (reportable selected) reports ->
  validateStatus (fold_left observe reports s) selected = true.
Proof.
  intros Hnew Hall. apply new_status_valid in Hnew. revert s Hnew.
  induction Hall as [|rep reports Hrep _ IH]; intros s Hv; [exact Hv|]. cbn. apply IH.
  destruct rep; cbn in *; [apply observe_owner_valid|apply observe_capacity_valid]; assumption.
Qed.

(** A canceled capacity check poisons the published status: the gate
    returns the zero capacity with the context's error, the monitor records
    it as an exact capacity, and the result fails validation until the next
    measurement. *)
Theorem canceled_check_publishes_invalid_status g c estimated now s selected out e g' :
  CheckObserved (Some g) false true c estimated = Some (out, e, g') ->
  validateStatus (ObserveCapacity now out e s) selected = false /\
  cs_Completeness (st_Capacity (ObserveCapacity now out e s)) = Exact.
Proof.
  intros H. cbn in H. injection H as <- <- _. cbn. split; [apply andb_false_r|reflexivity].
Qed.

Definition sampleMonitor : Status :=
  match NewStatusMonitor true sampleOwners with
  | Ok s => s
  | Err _ => mkStatus "" (mkStatusPolicy false 0 0 0 0 0 0 0) unavailableStatus []
  end.
Definition sampleReports : list report :=
  [OwnerTurn 5 ((quietSweep "" "" DefaultLimits) <| or_Owner := "durable-jobs"%string |>
      <| or_Completeness := Exact |>);
   CapacityCheck 6 unavailableCapacity (Some ErrCapacityUnavailable)].

Lemma published_status_is_valid_witness :
  validateStatus (fold_left observe sampleReports sampleMonitor) false = true.
Proof.
  apply (published_status_is_valid false true sampleOwners sampleMonitor).
  - vm_compute. reflexivity.
  - repeat (apply Forall_cons; split); [| |constructor].
    + unfold reportable, boundedRow, MaxCandidatesPerTick, MaxDeletesPerTick, MaxLogicalBytes,
        MaxRootBytes, MaxMemberBytes. cbn. repeat split; try lia. discriminate.
    + left. split; reflexivity.
Defined.

Lemma canceled_check_publishes_invalid_status_witness :
  validateStatus sampleMonitor false = true /\
  validateStatus (ObserveCapacity 7 zeroCapacity (Some ErrContext) sampleMonitor) false = false.
Proof.
  split; [vm_compute; reflexivity|].
  destruct (canceled_check_publishes_invalid_status (NewGate "/data") zeroCapacity 0 7 sampleMonitor false
    zeroCapacity (Some ErrContext) (Some (NewGate "/data")) ltac:(reflexivity)) as [H _]. exact H.
Defined.
