(* ===== verification/IdlPreflight.v ===== *)
(** * The lexical preflight of IDL sources

    Model of [internal/idlpreflight/preflight.go]: the two streaming
    validators that bound a protobuf or Thrift source (bytes, tokens, nesting)
    before a parser sees it.  A source is its list of bytes; [canceled i] says
    whether [ctx.Err()] is not nil when the scan polls it at index [i] (no
    index is polled twice).  The reference is a relation between a source and
    its tokens; the validators are shown to accept exactly the sources that
    have a tokenization within the limits. *)
From S2P Require Import Prelude.

Definition MaxFileBytes : Z := 4 * 2 ^ 20.
Definition MaxTokens : Z := 500000.
Definition MaxStructuralDepth : Z := 128.

Inductive Protocol := Protobuf | Thrift | OtherProtocol.

Inductive preflightErr :=
  | ErrTooLarge | ErrTokens | ErrDepth | ErrUnterminatedComment | ErrUnterminatedString
  | ErrUnsupported | ErrCanceled
  | ErrFuel.                 (** the model's fuel ran out: never, see below *)

(** ** Bytes *)
Definition newline : Z := 10.
Definition slash : Z := 47.
Definition star : Z := 42.
Definition backslash : Z := 92.
Definition isQuote (c : Z) : bool := (c =? 39) || (c =? 34).
Definition isProtoSpace (c : Z) : bool :=
  (c =? 32) || (c =? 9) || (c =? 13) || (c =? 10) || (c =? 12).
Definition isThriftSpace (c : Z) : bool := (c =? 32) || (c =? 9) || (c =? 13) || (c =? 10).
Definition isProtoWordByte (c : Z) : bool :=
  (c =? 95) || (97 <=? c) && (c <=? 122) || (65 <=? c) && (c <=? 90) || (48 <=? c) && (c <=? 57).
Definition isThriftWordByte (c : Z) : bool := (c =? 46) || isProtoWordByte c.

(** [{ [ ( <] and [} ] ) >] *)
Definition isProtoOpener (c : Z) : bool := (c =? 123) || (c =? 91) || (c =? 40) || (c =? 60).
Definition isProtoCloser (c : Z) : bool := (c =? 125) || (c =? 93) || (c =? 41) || (c =? 62).
Definition closerOf (c : Z) : Z :=
  if c =? 123 then 125 else if c =? 91 then 93 else if c =? 40 then 41 else 62.

(** ** The inner loops

    Each takes the index and the rest of the source from it, and returns
    both where the loop leaves them. *)
Section Scan.
Context (canceled : Z -> bool).

(** [if index&4095 == 0 { if err := ctx.Err(); err != nil ... }] *)
Definition polled (index : Z) : bool := (Z.land index 4095 =? 0) && canceled index.

Fixpoint skipLine (index : Z) (rest : list Z) : Z * list Z :=
  match rest with
  | [] => (index, [])
  | c :: tl => if c =? newline then (index, rest) else skipLine (index + 1) tl
  end.

Fixpoint skipWord (word : Z -> bool) (index : Z) (rest : list Z) : Z * list Z :=
  match rest with
  | [] => (index, [])
  | c :: tl => if word c then skipWord word (index + 1) tl else (index, rest)
  end.

Fixpoint skipBlock (index : Z) (rest : list Z) : res preflightErr (Z * list Z) :=
  match rest with
  | c :: (d :: tl') as tl =>
      if polled index then Err ErrCanceled
      else if (c =? star) && (d =? slash) then Ok (index + 2, tl')
      else skipBlock (index + 1) tl
  | _ => Err ErrUnterminatedComment
  end.

Fixpoint skipString (quote index : Z) (rest : list Z) : res preflightErr (Z * list Z) :=
  match rest with
  | [] => Err ErrUnterminatedString
  | c :: tl =>
      if polled index then Err ErrCanceled
      else if c =? backslash
      then match tl with
           | [] => Err ErrUnterminatedString     (** the index has passed the end *)
           | _ :: tl' => skipString quote (index + 2) tl'
           end
      else if c =? quote then Ok (index + 1, tl)
      else skipString quote (index + 1) tl
  end.

Definition nextIs (c : Z) (tl : list Z) : bool :=
  match tl with d :: _ => d =? c | [] => false end.

(** ** The validators

    One unit of fuel per turn of the outer loop; every turn consumes at least
    one byte, so [length source + 1] units are enough. *)
Fixpoint scanProtobuf (fuel : nat) (index : Z) (rest : list Z) (depth : nat)
    (expectedClosers : list Z) (tokens : Z) : res preflightErr unit :=
  match fuel with
  | O => Err ErrFuel
  | S fuel =>
  match rest with
  | [] => Ok tt
  | current :: tl =>
      if polled index then Err ErrCanceled
      else if isProtoSpace current then scanProtobuf fuel (index + 1) tl depth expectedClosers tokens
      else if (current =? slash) && nextIs slash tl then
        let '(index, rest) := skipLine (index + 2) (drop 1 tl) in
        scanProtobuf fuel index rest depth expectedClosers tokens
      else if (current =? slash) && nextIs star tl then
        match skipBlock (index + 2) (drop 1 tl) with
        | Err e => Err e
        | Ok (index, rest) => scanProtobuf fuel index rest depth expectedClosers tokens
        end
      else
        let tokens := tokens + 1 in
        if MaxTokens <? tokens then Err ErrTokens
        else if isQuote current then
          match skipString current (index + 1) tl with
          | Err e => Err e
          | Ok (index, rest) => scanProtobuf fuel index rest depth expectedClosers tokens
          end
        else if isProtoWordByte current then
          let '(index, rest) := skipWord isProtoWordByte (index + 1) tl in
          scanProtobuf fuel index rest depth expectedClosers tokens
        else if isProtoOpener current then
          if MaxStructuralDepth <=? Z.of_nat depth then Err ErrDepth
          else scanProtobuf fuel (index + 1) tl (S depth)
                 (<[depth := closerOf current]> expectedClosers) tokens
        else if isProtoCloser current then
          if Nat.ltb 0 depth && bool_decide (expectedClosers !! (depth - 1)%nat = Some current)
          then scanProtobuf fuel (index + 1) tl (depth - 1) expectedClosers tokens
          else scanProtobuf fuel (index + 1) tl depth expectedClosers tokens
        else scanProtobuf fuel (index + 1) tl depth expectedClosers tokens
  end end.

Definition validateProtobuf (source : list Z) : res preflightErr unit :=
  scanProtobuf (S (length source)) 0 source 0 (replicate (Z.to_nat MaxStructuralDepth) 0) 0.

Fixpoint scanThrift (fuel : nat) (index : Z) (rest : list Z) (depth tokens : Z)
    : res preflightErr unit :=
  match fuel with
  | O => Err ErrFuel
  | S fuel =>
  match rest with
  | [] => Ok tt
  | current :: tl =>
      if polled index then Err ErrCanceled
      else if isThriftSpace current then scanThrift fuel (index + 1) tl depth tokens
      else if current =? 35 then
        let '(index, rest) := skipLine index rest in scanThrift fuel index rest depth tokens
      else if (current =? slash) && nextIs slash tl then
        let '(index, rest) := skipLine (index + 2) (drop 1 tl) in
        scanThrift fuel index rest depth tokens
      else if (current =? slash) && nextIs star tl then
        match skipBlock (index + 2) (drop 1 tl) with
        | Err e => Err e
        | Ok (index, rest) => scanThrift fuel index rest depth tokens
        end
      else
        let tokens := tokens + 1 in
        if MaxTokens <? tokens then Err ErrTokens
        else if isQuote current then
          match skipString current (index + 1) tl with
          | Err e => Err e
          | Ok (index, rest) => scanThrift fuel index rest depth tokens
          end
        else if (current =? 123) || (current =? 60) then
          let depth := depth + 1 in
          if MaxStructuralDepth <? depth then Err ErrDepth
          else scanThrift fuel (index + 1) tl depth tokens
        else if (current =? 125) || (current =? 62) then
          scanThrift fuel (index + 1) tl (if 0 <? depth then depth - 1 else depth) tokens
        else if isThriftWordByte current then
          let '(index, rest) := skipWord isThriftWordByte index rest in
          scanThrift fuel index rest depth tokens
        else scanThrift fuel (index + 1) tl depth tokens
  end end.

Definition validateThrift (source : list Z) : res preflightErr unit :=
  scanThrift (S (length source)) 0 source 0 0.

Definition Validate (protocol : Protocol) (source : list Z) : res preflightErr unit :=
  if MaxFileBytes <? Z.of_nat (length source) then Err ErrTooLarge
  else match protocol with
       | Protobuf => validateProtobuf source
       | Thrift => validateThrift source
       | OtherProtocol => Err ErrUnsupported
       end.
End Scan.

(** ** The reference: the tokens of a source *)
Inductive token := TString | TWord | TPunct (c : Z).

Record rules := mkRules { isSpace : Z -> bool; isWord : Z -> bool; hashComments : bool }.
Definition protoRules : rules := mkRules isProtoSpace isProtoWordByte false.
Definition thriftRules : rules := mkRules isThriftSpace isThriftWordByte true.
Definition rulesOf (p : Protocol) : rules :=
  match p with Thrift => thriftRules | _ => protoRules end.

Inductive class := Space | LineComment | BlockComment | Quote | Word | Punct.
Definition classify (r : rules) (c : Z) (tl : list Z) : class :=
  if isSpace r c then Space
  else if hashComments r && (c =? 35) then LineComment
  else if (c =? slash) && nextIs slash tl then LineComment
  else if (c =? slash) && nextIs star tl then BlockComment
  else if isQuote c then Quote
  else if isWord r c then Word
  else Punct.

(** The body of a string literal: escapes, and bytes other than the quote. *)
Inductive Quoted (q : Z) : list Z -> Prop :=
  | QuotedNil : Quoted q []
  | QuotedEscape x b : Quoted q b -> Quoted q (backslash :: x :: b)
  | QuotedPlain c b : c <> backslash -> c <> q -> Quoted q b -> Quoted q (c :: b).

(** The body of a block comment: the comment ends at the first closer. *)
Inductive Uncommented : list Z -> Prop :=
  | UncommentedNil : Uncommented []
  | UncommentedCons c b :
      ~ (c = star /\ head (b ++ [star]) = Some slash) -> Uncommented b -> Uncommented (c :: b).

Inductive Lex (r : rules) : list Z -> list token -> Prop :=
  | LexNil : Lex r [] []
  | LexSpace c s ts : classify r c s = Space -> Lex r s ts -> Lex r (c :: s) ts
  | LexLine c b s ts :
      classify r c (b ++ s) = LineComment -> Forall (fun x => x <> newline) b ->
      (s = [] \/ head s = Some newline) -> Lex r s ts -> Lex r (c :: b ++ s) ts
  | LexBlock c b s ts :
      classify r c (star :: b ++ star :: slash :: s) = BlockComment -> Uncommented b ->
      Lex r s ts -> Lex r (c :: star :: b ++ star :: slash :: s) ts
  | LexString q b s ts :
      classify r q (b ++ q :: s) = Quote -> Quoted q b -> Lex r s ts ->
      Lex r (q :: b ++ q :: s) (TString :: ts)
  | LexWord c b s ts :
      classify r c (b ++ s) = Word -> Forall (fun x => isWord r x = true) b ->
      (forall x, head s = Some x -> isWord r x = false) -> Lex r s ts ->
      Lex r (c :: b ++ s) (TWord :: ts)
  | LexPunct c s ts : classify r c s = Punct -> Lex r s ts -> Lex r (c :: s) (TPunct c :: ts).

(** Nesting: protobuf keeps the stack of closers it expects and ignores a
    closer that is not on top; Thrift counts braces and angle brackets. *)
Fixpoint protoNests (stack : list Z) (ts : list token) : bool :=
  match ts with
  | [] => true
  | TPunct c :: ts =>
      if isProtoOpener c
      then (Z.of_nat (length stack) <? MaxStructuralDepth) && protoNests (closerOf c :: stack) ts
      else match stack with
           | top :: stack' => protoNests (if isProtoCloser c && (top =? c) then stack' else stack) ts
           | [] => protoNests [] ts
           end
  | _ :: ts => protoNests stack ts
  end.

Fixpoint thriftNests (depth : Z) (ts : list token) : bool :=
  match ts with
  | [] => true
  | TPunct c :: ts =>
      if (c =? 123) || (c =? 60) then (depth <? MaxStructuralDepth) && thriftNests (depth + 1) ts
      else if (c =? 125) || (c =? 62) then thriftNests (Z.max 0 (depth - 1)) ts
      else thriftNests depth ts
  | _ :: ts => thriftNests depth ts
  end.
Definition nests (p : Protocol) (ts : list token) : bool :=
  match p with Protobuf => protoNests [] ts | Thrift => thriftNests 0 ts | OtherProtocol => false end.

(** ** The inner loops find the lexeme's end *)
Lemma skipLine_spec i l :
  exists b s, l = b ++ s /\ snd (skipLine i l) = s /\ Forall (fun x => x <> newline) b /\
    (s = [] \/ head s = Some newline).
Proof.
  revert i; induction l as [|c l IH]; intros i; cbn; [exists [], []; auto|].
  destruct (c =? newline) eqn:E; bsplit.
  - exists [], (c :: l). cbn. subst. auto.
  - destruct (IH (i + 1)) as (b & s & -> & Hs & Hb & He). exists (c :: b), s. auto.
Qed.

Lemma skipLine_app i b s :
  Forall (fun x => x <> newline) b -> (s = [] \/ head s = Some newline) -> snd (skipLine i (b ++ s)) = s.
Proof.
  intros Hb He. revert i; induction Hb as [|c b Hc Hb IH]; intros i; cbn.
  - destruct He as [->|He]; [reflexivity|]. destruct s as [|x s]; [reflexivity|]. injection He as ->. reflexivity.
  - rewrite (proj2 (Z.eqb_neq _ _) Hc). apply IH.
Qed.

Lemma skipLine_index i j l : snd (skipLine i l) = snd (skipLine j l).
Proof.
  destruct (skipLine_spec i l) as (b & s & -> & -> & Hb & He). by rewrite skipLine_app.
Qed.

Lemma skipWord_spec w i l :
  exists b s, l = b ++ s /\ snd (skipWord w i l) = s /\ Forall (fun x => w x = true) b /\
    (forall x, head s = Some x -> w x = false).
Proof.
  revert i; induction l as [|c l IH]; intros i; cbn; [exists [], []; repeat split; auto; discriminate|].
  destruct (w c) eqn:E.
  - destruct (IH (i + 1)) as (b & s & -> & Hs & Hb & He). exists (c :: b), s. auto.
  - exists [], (c :: l). repeat split; auto. cbn. intros x [= <-]. exact E.
Qed.

Lemma skipWord_app w i b s :
  Forall (fun x => w x = true) b -> (forall x, head s = Some x -> w x = false) ->
  snd (skipWord w i (b ++ s)) = s.
Proof.
  intros Hb He. revert i; induction Hb as [|c b Hc Hb IH]; intros i; cbn.
  - destruct s as [|x s]; [reflexivity|]. cbn. rewrite (He x eq_refl). reflexivity.
  - rewrite Hc. apply IH.
Qed.

Section Loops.
Context (canceled : Z -> bool).

Lemma skipBlock_sound i l j s :
  skipBlock canceled i l = Ok (j, s) -> exists b, l = b ++ star :: slash :: s /\ Uncommented b.
Proof.
  revert i; induction l as [|c l IH]; intros i H; [discriminate|]. cbn in H.
  destruct l as [|d l]; [discriminate|]. destruct (polled _ _); [discriminate|].
  destruct (_ && _) eqn:E.
  - bsplit. injection H as _ <-. subst. exists []. split; [reflexivity|constructor].
  - destruct (IH _ H) as (b & Hl & Hb). exists (c :: b). rewrite Hl. split; [reflexivity|].
    constructor; [|exact Hb]. intros (-> & Hd). rewrite Z.eqb_refl in E. cbn in E. bsplit.
    destruct b as [|x b]; cbn in Hd, Hl; [discriminate|]. congruence.
Qed.

Lemma skipString_sound q i l j s :
  skipString canceled q i l = Ok (j, s) -> exists b, l = b ++ q :: s /\ Quoted q b.
Proof.
  remember (length l) as n eqn:Hn. revert i l Hn.
  induction (lt_wf n) as [n _ IH]. intros i [|c l] Hn H; [discriminate|]. cbn in H.
  destruct (polled _ _); [discriminate|]. destruct (c =? backslash) eqn:Eb; bsplit.
  - destruct l as [|x l]; [discriminate|]. cbn in Hn.
    destruct (IH (length l) ltac:(lia) _ l eq_refl H) as (b & -> & Hb).
    exists (backslash :: x :: b). subst c. split; [reflexivity|]. by constructor.
  - destruct (c =? q) eqn:Eq; bsplit.
    + injection H as _ <-. subst. exists []. split; [reflexivity|constructor].
    + cbn in Hn. destruct (IH (length l) ltac:(lia) _ l eq_refl H) as (b & -> & Hb).
      exists (c :: b). split; [reflexivity|]. by constructor.
Qed.

Hypothesis never : forall i, canceled i = false.

Lemma polled_false i : polled canceled i = false.
Proof. unfold polled. rewrite never. apply andb_false_r. Qed.

Lemma skipBlock_complete i b s :
  Uncommented b -> exists j, skipBlock canceled i (b ++ star :: slash :: s) = Ok (j, s).
Proof.
  intros Hb. revert i; induction Hb as [|c b Hc Hb IH]; intros i.
  - cbn. rewrite polled_false. eauto.
  - cbn [app skipBlock]. rewrite polled_false. destruct (IH (i + 1)) as [j Hj].
    destruct (b ++ star :: slash :: s) as [|d l] eqn:E; [destruct b; discriminate|].
    destruct (_ && _) eqn:Ec; [|eauto]. bsplit. subst. exfalso. apply Hc. split; [reflexivity|].
    destruct b; cbn in *; congruence.
Qed.

Lemma skipString_complete q i b s :
  q <> backslash -> Quoted q b -> exists j, skipString canceled q i (b ++ q :: s) = Ok (j, s).
Proof.
  intros Hq Hb. revert i; induction Hb as [|x b Hb IH|c b Hc1 Hc2 Hb IH]; intros i; cbn; rewrite polled_false.
  - rewrite (proj2 (Z.eqb_neq _ _) Hq), Z.eqb_refl. eauto.
  - apply IH.
  - rewrite (proj2 (Z.eqb_neq _ _) Hc1), (proj2 (Z.eqb_neq _ _) Hc2). apply IH.
Qed.
End Loops.

(** ** Acceptance, one lexeme at a time *)
Definition accept (r : rules) (rest : list Z) (tokens : Z) (P : list token -> bool) : Prop :=
  exists ts, Lex r rest ts /\ tokens + Z.of_nat (length ts) <= MaxTokens /\ P ts = true.

Section Accept.
Context (r : rules) (canceled : Z -> bool).
Hypothesis never : forall i, canceled i = false.
Implicit Types (P : list token -> bool) (k : Z).

(** The first lexeme of a source has the class of its first bytes. *)
Ltac lex_inv H := inversion H; subst; try (exfalso; congruence).

Lemma accept_nil k P : k <= MaxTokens -> accept r [] k P <-> P [] = true.
Proof.
  intros Hk. split.
  - intros (ts & H & _ & HP). lex_inv H. exact HP.
  - intros HP. exists []. split; [constructor|]. cbn. split; [lia|exact HP].
Qed.

Lemma accept_space c tl k P :
  classify r c tl = Space -> accept r (c :: tl) k P <-> accept r tl k P.
Proof.
  intros Hc. split; intros (ts & H & Hk & HP); exists ts; (split; [|auto]).
  - lex_inv H. assumption.
  - by constructor.
Qed.

Lemma accept_line c tl i k P :
  classify r c tl = LineComment -> accept r (c :: tl) k P <-> accept r (snd (skipLine i tl)) k P.
Proof.
  intros Hc. split; intros (ts & H & Hk & HP); exists ts; (split; [|auto]).
  - lex_inv H. rewrite skipLine_app by assumption. assumption.
  - destruct (skipLine_spec i tl) as (b & s & -> & Hs & Hb & He). rewrite Hs in H.
    apply LexLine; assumption.
Qed.

Lemma accept_block c tl i k P :
  classify r c tl = BlockComment ->
  accept r (c :: tl) k P <->
  exists j s, skipBlock canceled i (drop 1 tl) = Ok (j, s) /\ accept r s k P.
Proof.
  intros Hc. split.
  - intros (ts & H & Hk & HP). lex_inv H.
    destruct (skipBlock_complete canceled never i b s) as [j Hj]; [assumption|].
    exists j, s. split; [exact Hj|]. exists ts. auto.
  - intros (j & s & Hj & ts & H & Hk & HP). exists ts. split; [|auto].
    apply skipBlock_sound in Hj as (b & Hl & Hb).
    assert (Htl : tl = star :: b ++ star :: slash :: s).
    { unfold classify in Hc. destruct tl as [|d tl]; cbn in Hl, Hc.
      - destruct b; discriminate.
      - assert ((d =? star) = true) as ->%Z.eqb_eq; [|rewrite drop_0 in Hl; congruence].
        destruct (isSpace r c), (hashComments r), (c =? 35), (c =? slash), (d =? slash), (d =? star),
          (isQuote c), (isWord r c); try discriminate; reflexivity. }
    subst tl. by apply LexBlock.
Qed.

Lemma accept_string q tl i k P :
  classify r q tl = Quote ->
  accept r (q :: tl) k P <->
  exists j s, skipString canceled q i tl = Ok (j, s) /\ accept r s (k + 1) (fun ts => P (TString :: ts)).
Proof.
  intros Hc.
  assert (Hq : q <> backslash).
  { intros ->. unfold classify in Hc. cbn in Hc. destruct (isSpace r backslash); [discriminate|].
    destruct (hashComments r); cbn in Hc; destruct (isWord r backslash); discriminate. }
  split.
  - intros (ts & H & Hk & HP). lex_inv H.
    destruct (skipString_complete canceled never q i b s) as [j Hj]; [assumption..|].
    exists j, s. split; [exact Hj|]. eexists. split; [eassumption|]. cbn in Hk. split; [lia|exact HP].
  - intros (j & s & Hj & ts & H & Hk & HP). exists (TString :: ts).
    apply skipString_sound in Hj as (b & -> & Hb). split; [by constructor|]. cbn. split; [lia|exact HP].
Qed.

Lemma accept_word c tl i k P :
  classify r c tl = Word ->
  accept r (c :: tl) k P <->
  accept r (snd (skipWord (isWord r) i tl)) (k + 1) (fun ts => P (TWord :: ts)).
Proof.
  intros Hc. split.
  - intros (ts & H & Hk & HP). lex_inv H. rewrite skipWord_app by assumption.
    eexists. split; [eassumption|]. cbn in Hk. split; [lia|exact HP].
  - intros (ts & H & Hk & HP). exists (TWord :: ts).
    destruct (skipWord_spec (isWord r) i tl) as (b & s & -> & Hs & Hb & He). rewrite Hs in H.
    split; [by constructor|]. cbn. split; [lia|exact HP].
Qed.

Lemma accept_punct c tl k P :
  classify r c tl = Punct ->
  accept r (c :: tl) k P <-> accept r tl (k + 1) (fun ts => P (TPunct c :: ts)).
Proof.
  intros Hc. split.
  - intros (ts & H & Hk & HP). lex_inv H. eexists. split; [eassumption|]. cbn in Hk. split; [lia|exact HP].
  - intros (ts & H & Hk & HP). exists (TPunct c :: ts). split; [by constructor|]. cbn. split; [lia|exact HP].
Qed.

(** A lexeme that is a token does not fit once the limit is reached. *)
Lemma accept_full c tl k P :
  MaxTokens < k + 1 ->
  match classify r c tl with Quote | Word | Punct => True | _ => False end ->
  ~ accept r (c :: tl) k P.
Proof.
  intros Hk Hc (ts & H & Hl & _). inversion H as [|? ? ? E|? ? ? ? E|? ? ? ? E|? ? ? ? E|? ? ? ? E|? ? ? E];
    subst; try (rewrite E in Hc; contradiction); cbn in Hl; lia.
Qed.
End Accept.

Lemma skipLine_length i l : (length (snd (skipLine i l)) <= length l)%nat.
Proof. destruct (skipLine_spec i l) as (b & s & -> & -> & _). rewrite length_app. lia. Qed.
Lemma skipWord_length w i l : (length (snd (skipWord w i l)) <= length l)%nat.
Proof. destruct (skipWord_spec w i l) as (b & s & -> & -> & _). rewrite length_app. lia. Qed.
Lemma skipBlock_length canceled i l j s :
  skipBlock canceled i l = Ok (j, s) -> (length s <= length l)%nat.
Proof. intros (b & -> & _)%skipBlock_sound. rewrite length_app. cbn. lia. Qed.
Lemma skipString_length canceled q i l j s :
  skipString canceled q i l = Ok (j, s) -> (length s <= length l)%nat.
Proof. intros (b & -> & _)%skipString_sound. rewrite length_app. cbn. lia. Qed.

(** ** The validators accept exactly what the reference accepts

    One lemma per kind of lexeme both validators scan with the same loop: the
    rest of the scan is a continuation [K] that is right on shorter sources. *)
Section Cases.
Context (canceled : Z -> bool) (r : rules) (fuel : nat).
Hypothesis never : forall i, canceled i = false.
Context (K : Z -> list Z -> res preflightErr unit) (k : Z) (P : list token -> bool).
Hypothesis K_right : forall i rest, (length rest < fuel)%nat -> K i rest = Ok tt <-> accept r rest k P.

Lemma line_case c tl i :
  (length tl < fuel)%nat -> classify r c tl = LineComment -> (c =? slash) && nextIs slash tl = true ->
  (let '(index, rest) := skipLine (i + 2) (drop 1 tl) in K index rest) = Ok tt <->
  accept r (c :: tl) k P.
Proof.
  intros Hl Hc Hs. rewrite (accept_line _ _ _ 0) by exact Hc. bsplit.
  destruct tl as [|d tl]; [discriminate|]. cbn in H0. bsplit. subst.
  cbn [skipLine drop]. change (slash =? newline) with false. cbn iota.
  rewrite (skipLine_index _ (i + 2)), drop_0. pose proof (skipLine_length (i + 2) tl). cbn in Hl.
  destruct (skipLine (i + 2) tl) as [j s]. cbn [snd] in *. apply K_right. lia.
Qed.

Lemma block_case c tl i :
  (length tl < fuel)%nat -> classify r c tl = BlockComment ->
  match skipBlock canceled (i + 2) (drop 1 tl) with
  | Err e => Err e
  | Ok (index, rest) => K index rest
  end = Ok tt <-> accept r (c :: tl) k P.
Proof.
  intros Hl Hc. rewrite (accept_block _ canceled never _ _ (i + 2)) by exact Hc.
  assert (length (drop 1 tl) <= length tl)%nat by (rewrite length_drop; lia).
  destruct (skipBlock canceled (i + 2) (drop 1 tl)) as [[j s]|e] eqn:Es.
  - apply skipBlock_length in Es. rewrite K_right by lia. split; [eauto|].
    intros (? & ? & [= <- <-] & ?). assumption.
  - split; [discriminate|]. intros (? & ? & ? & _). discriminate.
Qed.
End Cases.

Section TokenCases.
Context (canceled : Z -> bool) (r : rules) (fuel : nat).
Hypothesis never : forall i, canceled i = false.
Context (K : Z -> list Z -> res preflightErr unit) (k : Z) (P : list token -> bool).

Lemma string_case c tl i :
  (forall i rest, (length rest < fuel)%nat ->
     K i rest = Ok tt <-> accept r rest (k + 1) (fun ts => P (TString :: ts))) ->
  (length tl < fuel)%nat -> classify r c tl = Quote ->
  match skipString canceled c (i + 1) tl with
  | Err e => Err e
  | Ok (index, rest) => K index rest
  end = Ok tt <-> accept r (c :: tl) k P.
Proof.
  intros HK Hl Hc. rewrite (accept_string _ canceled never _ _ (i + 1)) by exact Hc.
  destruct (skipString canceled c (i + 1) tl) as [[j s]|e] eqn:Es.
  - apply skipString_length in Es. rewrite HK by lia. split; [eauto|].
    intros (? & ? & [= <- <-] & ?). assumption.
  - split; [discriminate|]. intros (? & ? & ? & _). discriminate.
Qed.

Lemma word_case c tl i :
  (forall i rest, (length rest < fuel)%nat ->
     K i rest = Ok tt <-> accept r rest (k + 1) (fun ts => P (TWord :: ts))) ->
  (length tl < fuel)%nat -> classify r c tl = Word ->
  (let '(index, rest) := skipWord (isWord r) i tl in K index rest) = Ok tt <-> accept r (c :: tl) k P.
Proof.
  intros HK Hl Hc. rewrite (accept_word _ _ _ i) by exact Hc.
  pose proof (skipWord_length (isWord r) i tl). destruct (skipWord (isWord r) i tl) as [j s].
  cbn [snd] in *. apply HK. lia.
Qed.

Lemma full_case c tl :
  MaxTokens < k + 1 -> match classify r c tl with Quote | Word | Punct => True | _ => False end ->
  Err ErrTokens = @Ok preflightErr unit tt <-> accept r (c :: tl) k P.
Proof. intros Hk Hc. split; [discriminate|]. intros H. exfalso. revert H. by apply accept_full. Qed.
End TokenCases.

Ltac classified :=
  unfold classify; cbn [isSpace isWord hashComments thriftRules protoRules andb];
  repeat match goal with E : ?b = _ |- context [if ?b then _ else _] => rewrite E end;
  first [reflexivity
        | repeat match goal with |- context [if ?b then _ else _] => destruct b end; exact I].

Section Equivalence.
Context (canceled : Z -> bool).
Hypothesis never : forall i, canceled i = false.

Lemma scanThrift_accepts fuel : forall i rest depth tokens,
  (length rest < fuel)%nat -> tokens <= MaxTokens -> 0 <= depth ->
  scanThrift canceled fuel i rest depth tokens = Ok tt <->
  accept thriftRules rest tokens (thriftNests depth).
Proof.
  induction fuel as [|fuel IH]; intros i rest depth tokens Hf Ht Hd; [lia|].
  destruct rest as [|c tl]; cbn [scanThrift].
  { rewrite accept_nil by exact Ht. cbn. tauto. }
  cbn in Hf. apply Nat.succ_lt_mono in Hf. rewrite (polled_false canceled never).
  destruct (isThriftSpace c) eqn:E1; [rewrite accept_space by classified; apply IH; lia|].
  destruct (c =? 35) eqn:E2.
  { rewrite (accept_line _ _ _ (i + 1)) by classified. apply Z.eqb_eq in E2 as ->.
    cbn [skipLine]. change (35 =? newline) with false. cbn iota.
    pose proof (skipLine_length (i + 1) tl) as Hl. destruct (skipLine (i + 1) tl) as [j s]. cbn [snd] in *.
    apply IH; lia. }
  destruct ((c =? slash) && nextIs slash tl) eqn:E3.
  { eapply line_case; [|eassumption|classified|exact E3]. intros; apply IH; lia. }
  destruct ((c =? slash) && nextIs star tl) eqn:E4.
  { eapply block_case; [exact never| |eassumption|classified]. intros; apply IH; lia. }
  cbn zeta. destruct (MaxTokens <? tokens + 1) eqn:E5.
  { apply full_case; [apply Z.ltb_lt, E5|classified]. }
  apply Z.ltb_ge in E5.
  destruct (isQuote c) eqn:E6.
  { eapply string_case; [exact never| |eassumption|classified]. intros; apply IH; lia. }
  assert (Hpunct : isThriftWordByte c = false -> forall P,
    accept thriftRules (c :: tl) tokens P <-> accept thriftRules tl (tokens + 1) (fun ts => P (TPunct c :: ts))).
  { intros E7 P. apply accept_punct. classified. }
  destruct ((c =? 123) || (c =? 60)) eqn:E7.
  { rewrite Hpunct by (apply orb_true_iff in E7 as [->%Z.eqb_eq | ->%Z.eqb_eq]; reflexivity).
    cbn [thriftNests]. rewrite E7. destruct (MaxStructuralDepth <? depth + 1) eqn:E8; bsplit.
    - split; [discriminate|]. intros (ts & _ & _ & H). bsplit. lia.
    - rewrite (proj2 (Z.ltb_lt depth _)) by lia. cbn [andb]. apply IH; lia. }
  destruct ((c =? 125) || (c =? 62)) eqn:E8.
  { rewrite Hpunct by (apply orb_true_iff in E8 as [->%Z.eqb_eq | ->%Z.eqb_eq]; reflexivity).
    cbn [thriftNests]. rewrite E7, E8. destruct (0 <? depth) eqn:E; bsplit.
    - rewrite Z.max_r by lia. apply IH; lia.
    - rewrite Z.max_l by lia. replace depth with 0 by lia. apply IH; lia. }
  destruct (isThriftWordByte c) eqn:E9.
  { cbn [skipWord]. rewrite E9. apply (word_case thriftRules fuel
      (fun i rest => scanThrift canceled fuel i rest depth (tokens + 1)));
      [|exact Hf|classified]. intros; apply IH; lia. }
  rewrite Hpunct by reflexivity. cbn [thriftNests]. rewrite E7, E8. apply IH; lia.
Qed.

(** The array of expected closers holds the reference's stack, bottom first. *)
Definition holds (stack : list Z) (depth : nat) (closers : list Z) : Prop :=
  depth = length stack /\ take depth closers = rev stack /\
  length closers = Z.to_nat MaxStructuralDepth /\ (depth <= Z.to_nat MaxStructuralDepth)%nat.

Lemma holds_push stack depth closers c :
  holds stack depth closers -> Z.of_nat depth < MaxStructuralDepth ->
  holds (c :: stack) (S depth) (<[depth := c]> closers).
Proof.
  intros (-> & Htake & Hlen & Hle) Hd. unfold holds, MaxStructuralDepth in *. repeat split.
  - rewrite (take_S_r _ _ c) by (apply list_lookup_insert_eq; lia).
    rewrite take_insert_ge by lia. rewrite Htake. reflexivity.
  - rewrite length_insert. exact Hlen.
  - lia.
Qed.

Lemma holds_top top stack depth closers :
  holds (top :: stack) depth closers ->
  closers !! (depth - 1)%nat = Some top /\ holds stack (depth - 1) closers.
Proof.
  intros (-> & Htake & Hlen & Hle). cbn [length] in *. replace (S (length stack) - 1)%nat with (length stack) by lia.
  assert (Htop : closers !! length stack = Some top).
  { rewrite <- (lookup_take_lt closers (S (length stack))) by lia. rewrite Htake. cbn.
    rewrite lookup_app_r by (rewrite length_rev; lia). rewrite length_rev, Nat.sub_diag. reflexivity. }
  split; [exact Htop|]. split; [reflexivity|]. split; [|split; [exact Hlen|lia]].
  rewrite (take_S_r _ _ top Htop) in Htake. cbn in Htake. apply app_inj_tail in Htake as [-> _]. reflexivity.
Qed.

Lemma scanProtobuf_accepts fuel : forall i rest depth closers tokens stack,
  (length rest < fuel)%nat -> tokens <= MaxTokens -> holds stack depth closers ->
  scanProtobuf canceled fuel i rest depth closers tokens = Ok tt <->
  accept protoRules rest tokens (protoNests stack).
Proof.
  induction fuel as [|fuel IH]; intros i rest depth closers tokens stack Hf Ht Hh; [lia|].
  destruct rest as [|c tl]; cbn [scanProtobuf].
  { rewrite accept_nil by exact Ht. cbn. tauto. }
  cbn in Hf. apply Nat.succ_lt_mono in Hf. rewrite (polled_false canceled never).
  destruct (isProtoSpace c) eqn:E1; [rewrite accept_space by classified; apply IH; auto; lia|].
  destruct ((c =? slash) && nextIs slash tl) eqn:E3.
  { eapply line_case; [|eassumption|classified|exact E3]. intros; apply IH; auto; lia. }
  destruct ((c =? slash) && nextIs star tl) eqn:E4.
  { eapply block_case; [exact never| |eassumption|classified]. intros; apply IH; auto; lia. }
  cbn zeta. destruct (MaxTokens <? tokens + 1) eqn:E5.
  { apply full_case; [apply Z.ltb_lt, E5|classified]. }
  apply Z.ltb_ge in E5. destruct (isQuote c) eqn:E6.
  { eapply string_case; [exact never| |eassumption|classified]. intros; apply IH; auto; lia. }
  destruct (isProtoWordByte c) eqn:E7.
  { apply (word_case protoRules fuel
      (fun i rest => scanProtobuf canceled fuel i rest depth closers (tokens + 1)));
      [|exact Hf|classified]. intros; apply IH; auto; lia. }
  rewrite accept_punct by classified. cbn [protoNests]. pose proof Hh as (Hdepth & _).
  destruct (isProtoOpener c) eqn:E8.
  { rewrite <- Hdepth. destruct (MaxStructuralDepth <=? Z.of_nat depth) eqn:E9; bsplit.
    - split; [discriminate|]. intros (ts & _ & _ & H). bsplit. lia.
    - rewrite (proj2 (Z.ltb_lt _ _)) by lia. cbn [andb]. apply IH; auto. apply holds_push; [exact Hh|lia]. }
  destruct stack as [|top stack].
  { subst depth. cbn [length Nat.ltb Nat.leb andb]. destruct (isProtoCloser c); apply IH; auto. }
  destruct (holds_top _ _ _ _ Hh) as [-> Hpop]. cbn [length] in Hdepth.
  rewrite (proj2 (Nat.ltb_lt 0 depth)) by lia. cbn [andb].
  destruct (isProtoCloser c) eqn:E9; cbn [andb]; [|apply IH; auto].
  destruct (top =? c) eqn:E10; bsplit.
  - subst top. rewrite bool_decide_eq_true_2 by reflexivity. apply IH; auto.
  - rewrite bool_decide_eq_false_2 by congruence. apply IH; auto.
Qed.
End Equivalence.

(** C29: with a context that is never canceled, the preflight accepts a
    source exactly when it is within the byte limit, splits into the
    protocol's lexemes (comments and strings closed, words maximal), has at
    most [MaxTokens] of them that are tokens and never nests deeper than
    [MaxStructuralDepth]. *)
Theorem preflight_accepts_exactly canceled protocol source :
  (forall i, canceled i = false) ->
  Validate canceled protocol source = Ok tt <->
  Z.of_nat (length source) <= MaxFileBytes /\
  exists ts, Lex (rulesOf protocol) source ts /\ Z.of_nat (length ts) <= MaxTokens /\
             nests protocol ts = true.
Proof.
  intros never. unfold Validate. destruct (MaxFileBytes <? _) eqn:El; bsplit.
  { split; [discriminate|lia]. }
  assert (Hspec : forall r P, accept r source 0 P <-> exists ts, Lex r source ts /\
            Z.of_nat (length ts) <= MaxTokens /\ P ts = true) by (intros; reflexivity).
  destruct protocol; cbn [rulesOf nests].
  - rewrite <- Hspec. unfold validateProtobuf.
    rewrite (scanProtobuf_accepts canceled never _ _ _ _ _ _ []); [tauto|lia|unfold MaxTokens; lia|].
    unfold holds, MaxStructuralDepth. cbn. repeat split; lia.
  - rewrite <- Hspec. unfold validateThrift.
    rewrite (scanThrift_accepts canceled never); [tauto|lia|unfold MaxTokens; lia|lia].
  - split; [discriminate|]. intros (_ & ts & _ & _ & H). discriminate.
Qed.

(** ** Cancellation and termination *)
Definition unlessCanceled {A} (x y : res preflightErr A) : Prop := x = Err ErrCanceled \/ x = y.

Section Cancellation.
Context (canceled : Z -> bool).

(** A poll stops the scan or leaves it as it would be without one. *)
Lemma polled_cases {A} i (x y : res preflightErr A) :
  unlessCanceled x y ->
  unlessCanceled (if polled canceled i then Err ErrCanceled else x)
    (if polled (fun _ => false) i then Err ErrCanceled else y).
Proof.
  intros H. rewrite (polled_false (fun _ => false)) by reflexivity.
  destruct (polled canceled i); [left; reflexivity|exact H].
Qed.

Lemma unlessCanceled_bind {A B} (x y : res preflightErr A) (f g : A -> res preflightErr B) :
  unlessCanceled x y -> (forall a, unlessCanceled (f a) (g a)) ->
  unlessCanceled (match x with Err e => Err e | Ok a => f a end)
    (match y with Err e => Err e | Ok a => g a end).
Proof. intros [->| ->] H; [left; reflexivity|]. destruct y; [apply H|right; reflexivity]. Qed.

Lemma skipBlock_canceled l : forall i,
  unlessCanceled (skipBlock canceled i l) (skipBlock (fun _ => false) i l).
Proof.
  induction l as [|c l IH]; intros i; cbn [skipBlock]; [right; reflexivity|].
  destruct l as [|d l]; [right; reflexivity|]. apply polled_cases.
  destruct (_ && _); [right; reflexivity|apply IH].
Qed.

Lemma skipString_canceled q l : forall i,
  unlessCanceled (skipString canceled q i l) (skipString (fun _ => false) q i l).
Proof.
  remember (length l) as n eqn:Hn. revert l Hn.
  induction (lt_wf n) as [n _ IH]. intros [|c l] Hn i; cbn [skipString]; [right; reflexivity|].
  cbn in Hn. apply polled_cases. destruct (c =? backslash).
  - destruct l as [|x l]; [right; reflexivity|]. apply (IH (length l)); [cbn in Hn; lia|reflexivity].
  - destruct (c =? q); [right; reflexivity|]. apply (IH (length l)); [lia|reflexivity].
Qed.

Local Hint Resolve polled_cases unlessCanceled_bind skipBlock_canceled skipString_canceled : core.

Ltac follow IH :=
  repeat match goal with
    | |- unlessCanceled (if ?b then _ else _) _ => destruct b; [try apply IH; try (right; reflexivity)|]
    | |- unlessCanceled (let '(_, _) := ?x in _) _ => destruct x; apply IH
    | |- unlessCanceled (match _ with Err _ => _ | Ok _ => _ end) _ =>
        apply unlessCanceled_bind; [auto|]; intros []; apply IH
    end; try apply IH.

Lemma scanThrift_canceled fuel : forall i rest depth tokens,
  unlessCanceled (scanThrift canceled fuel i rest depth tokens)
    (scanThrift (fun _ => false) fuel i rest depth tokens).
Proof.
  induction fuel as [|fuel IH]; intros i rest depth tokens; [right; reflexivity|].
  destruct rest as [|c tl]; cbn [scanThrift]; [right; reflexivity|]. apply polled_cases. cbn zeta.
  follow IH.
Qed.

Lemma scanProtobuf_canceled fuel : forall i rest depth closers tokens,
  unlessCanceled (scanProtobuf canceled fuel i rest depth closers tokens)
    (scanProtobuf (fun _ => false) fuel i rest depth closers tokens).
Proof.
  induction fuel as [|fuel IH]; intros i rest depth closers tokens; [right; reflexivity|].
  destruct rest as [|c tl]; cbn [scanProtobuf]; [right; reflexivity|]. apply polled_cases. cbn zeta.
  follow IH.
Qed.
End Cancellation.

Section Fuel.
Context (canceled : Z -> bool).

Lemma skipBlock_fuel l : forall i, skipBlock canceled i l <> Err ErrFuel.
Proof.
  induction l as [|c l IH]; intros i; cbn [skipBlock]; [discriminate|].
  destruct l as [|d l]; [discriminate|]. destruct (polled _ _); [discriminate|].
  destruct (_ && _); [discriminate|apply IH].
Qed.

Lemma skipString_fuel q l : forall i, skipString canceled q i l <> Err ErrFuel.
Proof.
  remember (length l) as n eqn:Hn. revert l Hn.
  induction (lt_wf n) as [n _ IH]. intros [|c l] Hn i; cbn [skipString]; [discriminate|].
  cbn in Hn. destruct (polled _ _); [discriminate|]. destruct (c =? backslash).
  - destruct l as [|x l]; [discriminate|]. apply (IH (length l)); [cbn in Hn; lia|reflexivity].
  - destruct (c =? q); [discriminate|]. apply (IH (length l)); [lia|reflexivity].
Qed.

(** Every turn of the outer loop leaves a shorter source. *)
Ltac shorter IH :=
  repeat match goal with
    | |- (if ?b then _ else _) <> _ => destruct b eqn:?; [try (apply IH; cbn in *; lia); try discriminate|]
    | |- (let '(_, _) := skipLine ?i ?l in _) <> _ =>
        let H := fresh in pose proof (skipLine_length i l) as H; destruct (skipLine i l); cbn [snd] in H;
        apply IH; rewrite ?length_drop in *; lia
    | |- (let '(_, _) := skipWord ?w ?i ?l in _) <> _ =>
        let H := fresh in pose proof (skipWord_length w i l) as H; destruct (skipWord w i l); cbn [snd] in H;
        apply IH; lia
    | |- match skipBlock ?c ?i ?l with Err _ => _ | Ok _ => _ end <> _ =>
        let E := fresh in destruct (skipBlock c i l) as [[? ?]|] eqn:E;
        [apply skipBlock_length in E; rewrite length_drop in E; apply IH; lia
        |intros [= ->]; exact (skipBlock_fuel _ _ E)]
    | |- match skipString ?c ?q ?i ?l with Err _ => _ | Ok _ => _ end <> _ =>
        let E := fresh in destruct (skipString c q i l) as [[? ?]|] eqn:E;
        [apply skipString_length in E; apply IH; lia
        |intros [= ->]; exact (skipString_fuel _ _ _ E)]
    end; try (apply IH; cbn in *; lia).

Lemma scanThrift_fuel fuel : forall i rest depth tokens,
  (length rest < fuel)%nat -> scanThrift canceled fuel i rest depth tokens <> Err ErrFuel.
Proof.
  induction fuel as [|fuel IH]; intros i rest depth tokens Hf; [lia|].
  destruct rest as [|c tl]; cbn [scanThrift]; [discriminate|]. cbn in Hf. cbn zeta.
  destruct (polled _ _); [discriminate|]. destruct (isThriftSpace c); [apply IH; lia|].
  destruct (c =? 35) eqn:E.
  { apply Z.eqb_eq in E as ->. cbn [skipLine]. change (35 =? newline) with false. cbn iota. shorter IH. }
  destruct (isThriftWordByte c) eqn:Ew; [cbn [skipWord]; rewrite Ew|]; shorter IH.
Qed.

Lemma scanProtobuf_fuel fuel : forall i rest depth closers tokens,
  (length rest < fuel)%nat -> scanProtobuf canceled fuel i rest depth closers tokens <> Err ErrFuel.
Proof.
  induction fuel as [|fuel IH]; intros i rest depth closers tokens Hf; [lia|].
  destruct rest as [|c tl]; cbn [scanProtobuf]; [discriminate|]. cbn in Hf. cbn zeta. shorter IH.
Qed.
End Fuel.

(** The scan of every source ends within the fuel of its length, and
    cancellation never changes a verdict: the preflight reports the
    cancellation or returns exactly what it would have without one. *)
Theorem preflight_terminates_and_cancels_safely canceled protocol source :
  Validate canceled protocol source <> Err ErrFuel /\
  (Validate canceled protocol source = Err ErrCanceled \/
   Validate canceled protocol source = Validate (fun _ => false) protocol source).
Proof.
  unfold Validate. destruct (MaxFileBytes <? _); [split; [discriminate|right; reflexivity]|].
  destruct protocol.
  - split; [apply scanProtobuf_fuel; lia|apply scanProtobuf_canceled].
  - split; [apply scanThrift_fuel; lia|apply scanThrift_canceled].
  - split; [discriminate|right; reflexivity].
Qed.

(** [message A { /* x */ }] *)
Definition sampleProto : list Z :=
  [109; 101; 115; 115; 97; 103; 101; 32; 65; 32; 123; 32; 47; 42; 32; 120; 32; 42; 47; 32; 125].

Lemma preflight_accepts_exactly_witness :
  exists ts, Lex protoRules sampleProto ts /\ nests Protobuf ts = true.
Proof.
  destruct (proj1 (preflight_accepts_exactly (fun _ => false) Protobuf sampleProto (fun _ => eq_refl))
    ltac:(vm_compute; reflexivity)) as (_ & ts & H1 & _ & H3).
  exists ts. split; assumption.
Defined.
