(* ===== verification/ReadLedger.v ===== *)
(** * The exact-read ledger

    Model of [internal/readaccounting/ledger.go] and
    [search_repositories.go]: a scope of counters with limits, the sticky
    first error, and the optional search-repositories observation.  The
    ledger's mutex makes each operation atomic, so a run is a sequence of
    operations; attaching a ledger to a context is the choice of the ledger an
    operation acts on ([None] when the context carries none). *)
From S2P Require Import Prelude.

Inductive Kind := ControlFileRead | StoreReadAttempt | MemberVisit | StoreWriteAttempt
  | OtherKind.               (** a [uint8] outside the enumeration *)
#[export] Instance Kind_eq_dec : EqDecision Kind.
Proof. solve_decision. Defined.

Record Counts := mkCounts {
  ControlFileReads : Z;
  StoreReadAttempts : Z;
  MemberVisits : Z;
  StoreWriteAttempts : Z
}.
#[export] Instance eta_Counts : Eta Counts :=
  fun c => mkCounts (ControlFileReads c) (StoreReadAttempts c) (MemberVisits c) (StoreWriteAttempts c).

Inductive ledgerErr := ErrScope | ErrEvent | ErrLimit | ErrClosed.

(** [IsError] on the errors an operation can return: an accounting error or
    another one. *)
Definition IsError (e : option (ledgerErr + Z)) : bool :=
  match e with Some (inl _) => true | _ => false end.

Record Ledger := mkLedger {
  ld_counts : Counts;
  ld_limits : Counts;
  ld_closed : bool;
  ld_err : option ledgerErr;
  ld_searchRequired : bool;
  ld_search : option Z
}.
#[export] Instance eta_Ledger : Eta Ledger :=
  fun l => mkLedger (ld_counts l) (ld_limits l) (ld_closed l) (ld_err l) (ld_searchRequired l) (ld_search l).

Definition noCounts : Counts := mkCounts 0 0 0 0.

(** The counter a kind selects; [None] is the [default] case. *)
Definition counter (k : Kind) (c : Counts) : option Z :=
  match k with
  | ControlFileRead => Some (ControlFileReads c)
  | StoreReadAttempt => Some (StoreReadAttempts c)
  | MemberVisit => Some (MemberVisits c)
  | StoreWriteAttempt => Some (StoreWriteAttempts c)
  | OtherKind => None
  end.
Definition setCounter (k : Kind) (v : Z) (c : Counts) : Counts :=
  match k with
  | ControlFileRead => c <| ControlFileReads := v |>
  | StoreReadAttempt => c <| StoreReadAttempts := v |>
  | MemberVisit => c <| MemberVisits := v |>
  | StoreWriteAttempt => c <| StoreWriteAttempts := v |>
  | OtherKind => c
  end.

(** The error [ledger.err] is set to unless one is already there. *)
Definition stick (e : ledgerErr) (l : Ledger) : Ledger :=
  match ld_err l with None => l <| ld_err := Some e |> | Some _ => l end.

(** [Start]: the new ledger or the error, and the parent the context already
    carries, which remembers the refused nesting. *)
Definition Start (ctxNil : bool) (parent : option Ledger) (limits : Counts)
    : res ledgerErr Ledger * option Ledger :=
  if ctxNil then (Err ErrScope, parent)
  else match parent with
  | Some p => (Err ErrScope, Some (stick ErrScope p))
  | None =>
      if (ControlFileReads limits =? MaxUint64) || (StoreReadAttempts limits =? MaxUint64)
         || (MemberVisits limits =? MaxUint64) || (StoreWriteAttempts limits =? MaxUint64)
      then (Err ErrScope, None)
      else (Ok (mkLedger noCounts limits false None false None), None)
  end.

(** [Charge] on a context with a ledger; without one it is a no-op. *)
Definition chargeLedger (kind : Kind) (count : Z) (l : Ledger) : option ledgerErr * Ledger :=
  match ld_err l with
  | Some e => (Some e, l)
  | None =>
      if ld_closed l then (Some ErrClosed, l <| ld_err := Some ErrClosed |>)
      else match counter kind (ld_counts l), counter kind (ld_limits l) with
      | Some value, Some limit =>
          if count =? 0 then (Some ErrEvent, l <| ld_err := Some ErrEvent |>)
          else if u64 (limit - value) <? count
          then (Some ErrLimit, l <| ld_counts ::= setCounter kind (u64 (limit + 1)) |>
                                 <| ld_err := Some ErrLimit |>)
          else (None, l <| ld_counts ::= setCounter kind (u64 (value + count)) |>)
      | _, _ => (Some ErrEvent, l <| ld_err := Some ErrEvent |>)
      end
  end.

Definition Charge (ctx : option Ledger) (kind : Kind) (count : Z) : option ledgerErr * option Ledger :=
  match ctx with
  | None => (None, None)
  | Some l => let '(e, l') := chargeLedger kind count l in (e, Some l')
  end.

Definition Finish (l : Ledger) : Counts * option ledgerErr * Ledger :=
  let l := l <| ld_closed := true |> in
  let l := if ld_searchRequired l && is_nil (ld_search l) && is_nil (ld_err l)
           then l <| ld_err := Some ErrEvent |> else l in
  (ld_counts l, ld_err l, l).

(** [WithSearchRepositories] on a live context that carries [l]. *)
Definition WithSearchRepositories (ctxDone : bool) (l : Ledger) : option ledgerErr * Ledger :=
  if ctxDone then (Some ErrScope, l)
  else if ld_closed l || negb (is_nil (ld_err l)) || ld_searchRequired l
  then let l' := stick ErrScope l in (ld_err l', l')
  else (None, l <| ld_searchRequired := true |>).

Definition ObserveSearchRepositories (ctxDone : bool) (count : Z) (l : Ledger) : option ledgerErr * Ledger :=
  match ld_err l with
  | Some e => (Some e, l)
  | None =>
      if ld_closed l || negb (is_nil (ld_search l)) || ctxDone
      then (Some ErrEvent, l <| ld_err := Some ErrEvent |>)
      else (None, l <| ld_search := Some count |>)
  end.

Definition SearchRepositories (l : Ledger) : option Z := ld_search l.

(** ** Runs *)
Inductive op :=
  | OCharge (kind : Kind) (count : Z)
  | ONested (limits : Counts)
  | ORequireSearch (ctxDone : bool)
  | OObserveSearch (ctxDone : bool) (count : Z)
  | OFinish.

Definition step (o : op) (l : Ledger) : option ledgerErr * Ledger :=
  match o with
  | OCharge k n => chargeLedger k n l
  | ONested limits =>
      let '(r, p) := Start false (Some l) limits in
      (match r with Err e => Some e | Ok _ => None end, default l p)
  | ORequireSearch d => WithSearchRepositories d l
  | OObserveSearch d n => ObserveSearchRepositories d n l
  | OFinish => let '(_, e, l') := Finish l in (e, l')
  end.

Fixpoint run (ops : list op) (l : Ledger) : list (option ledgerErr) * Ledger :=
  match ops with
  | [] => ([], l)
  | o :: ops' => let '(e, l1) := step o l in let '(es, l2) := run ops' l1 in (e :: es, l2)
  end.

(** Everything the operations tried to charge to a kind. *)
Definition charged (k : Kind) (ops : list op) : Z :=
  zsum ((fun o => match o with OCharge k' n => if decide (k' = k) then n else 0 | _ => 0 end) <$> ops).

(** Arguments are unsigned 64-bit. *)
Definition in_range (o : op) : Prop :=
  match o with OCharge _ n | OObserveSearch _ n => 0 <= n <= MaxUint64 | _ => True end.
Definition limits_ok (c : Counts) : Prop := forall k v, counter k c = Some v -> 0 <= v < MaxUint64.

(** ** Counters stay within the limits and count every charge *)
Record exact (limits : Counts) (ops : list op) (l : Ledger) : Prop := {
  ex_limits : ld_limits l = limits;
  ex_bounds : forall k v lim, counter k (ld_counts l) = Some v -> counter k limits = Some lim ->
    0 <= v <= lim + 1 /\ (v = lim + 1 -> ld_err l = Some ErrLimit);
  ex_clean : ld_err l = None -> forall k v lim, counter k (ld_counts l) = Some v ->
    counter k limits = Some lim -> v = charged k ops /\ v <= lim
}.

Lemma counter_set k v c k' :
  counter k' (setCounter k v c) = if decide (k' = k) then option_map (fun _ => v) (counter k c) else counter k' c.
Proof. destruct k, k'; reflexivity. Qed.

Lemma counter_known k c c' v : counter k c = Some v -> exists v', counter k c' = Some v'.
Proof. destruct k; cbn; [eauto..|discriminate]. Qed.

Lemma charged_app k ops o : charged k (ops ++ [o]) = charged k ops + charged k [o].
Proof. unfold charged. rewrite fmap_app, zsum_app. reflexivity. Qed.

(** An operation that leaves the counters alone, and latches an error unless
    it charges nothing. *)
Lemma exact_quiet limits ops l l' o :
  exact limits ops l -> ld_limits l' = ld_limits l -> ld_counts l' = ld_counts l ->
  (ld_err l' = None -> ld_err l = None /\ forall k, charged k [o] = 0) ->
  (ld_err l = Some ErrLimit -> ld_err l' = Some ErrLimit) ->
  exact limits (ops ++ [o]) l'.
Proof.
  intros [H1 H2 H3] El Ec Hn Hs. constructor.
  - congruence.
  - rewrite Ec. intros k v lim Hv Hl. destruct (H2 k v lim Hv Hl) as [Hb Hm]. auto.
  - rewrite Ec. intros He k v lim Hv Hl. destruct (Hn He) as [He' Hc].
    rewrite charged_app, Hc. destruct (H3 He' k v lim Hv Hl). lia.
Qed.

Lemma charge_exact limits ops l k n e l' :
  limits_ok limits -> 0 <= n <= MaxUint64 -> exact limits ops l ->
  chargeLedger k n l = (e, l') -> exact limits (ops ++ [OCharge k n]) l' /\ e = ld_err l'.
Proof.
  intros Hok Hn Hex. pose proof Hex as [H1 H2 H3]. unfold chargeLedger.
  destruct (ld_err l) as [e0|] eqn:Ee.
  { intros [= <- <-]. split; [|auto]. apply (exact_quiet _ _ l); auto. congruence. }
  destruct (ld_closed l).
  { intros [= <- <-]. split; [|reflexivity]. apply (exact_quiet _ _ l); auto; cbn; congruence. }
  destruct (counter k (ld_counts l)) as [value|] eqn:Ev.
  2: { intros [= <- <-]. split; [|reflexivity]. apply (exact_quiet _ _ l); auto; cbn; congruence. }
  rewrite H1. destruct (counter_known _ _ limits _ Ev) as [lim El]. rewrite El.
  destruct (H2 k value lim Ev El) as [Hb _]. destruct (H3 eq_refl k value lim Ev El) as [Hval Hle].
  pose proof (Hok k lim El) as Hlim. unfold MaxUint64 in *.
  destruct (n =? 0) eqn:E0; bsplit.
  { intros [= <- <-]. split; [|reflexivity]. apply (exact_quiet _ _ l); auto; cbn; congruence. }
  rewrite (u64_small (lim - value)) by (unfold MaxUint64; lia).
  destruct (_ <? n) eqn:En; bsplit; intros [= <- <-]; (split; [|auto]).
  - rewrite u64_small by (unfold MaxUint64; lia). constructor; cbn; [exact H1| |discriminate].
    intros k' v lim' Hv Hl. rewrite counter_set in Hv. split; [|auto].
    destruct (decide (k' = k)) as [->|Hne]; [rewrite Ev in Hv; cbn in Hv; simplify_eq; lia|].
    apply (H2 k' v lim' Hv Hl).
  - rewrite u64_small by (unfold MaxUint64; lia). constructor; cbn; [exact H1| |].
    + intros k' v lim' Hv Hl. rewrite counter_set in Hv. rewrite Ee.
      destruct (decide (k' = k)) as [->|Hne]; [rewrite Ev in Hv; cbn in Hv; simplify_eq; split; lia|].
      destruct (H2 k' v lim' Hv Hl). destruct (H3 eq_refl k' v lim' Hv Hl). split; lia.
    + intros _ k' v lim' Hv Hl. rewrite counter_set in Hv. rewrite charged_app. unfold charged at 2. cbn.
      destruct (decide (k' = k)) as [->|Hne].
      * rewrite Ev in Hv. cbn in Hv. simplify_eq. rewrite decide_True by reflexivity. lia.
      * rewrite decide_False by congruence. destruct (H3 eq_refl k' v lim' Hv Hl). lia.
Qed.

Lemma stick_cases e l : ld_counts (stick e l) = ld_counts l /\ ld_limits (stick e l) = ld_limits l /\
  ld_err (stick e l) = Some (default e (ld_err l)).
Proof. unfold stick. destruct (ld_err l) eqn:E; cbn; rewrite ?E; auto. Qed.

Lemma step_exact limits ops l o e l' :
  limits_ok limits -> in_range o -> exact limits ops l -> step o l = (e, l') ->
  exact limits (ops ++ [o]) l' /\
  match o with OCharge _ _ | OObserveSearch _ _ | OFinish => e = ld_err l' | _ => True end.
Proof.
  intros Hok Hr Hex H. destruct o as [k n|lims|d|d n|]; cbn in H.
  - eapply charge_exact; eauto.
  - simplify_eq. split; [|exact I]. destruct (stick_cases ErrScope l) as (E1 & E2 & E3).
    cbn. apply (exact_quiet _ _ l); auto; rewrite E3; [discriminate|intros ->; reflexivity].
  - split; [|exact I]. unfold WithSearchRepositories in H. destruct d; simplify_eq.
    + apply (exact_quiet _ _ l'); auto.
    + destruct (_ || _) eqn:E in H; cbn zeta in H; simplify_eq.
      * destruct (stick_cases ErrScope l) as (E1 & E2 & E3).
        apply (exact_quiet _ _ l); auto; rewrite E3; [discriminate|intros ->; reflexivity].
      * apply (exact_quiet _ _ l); auto.
  - unfold ObserveSearchRepositories in H. destruct (ld_err l) as [e0|] eqn:Ee; simplify_eq.
    + split; [|auto]. apply (exact_quiet _ _ l'); auto.
    + destruct (_ || _) in H; simplify_eq; (split; [|cbn; congruence]);
        apply (exact_quiet _ _ l); auto; cbn; congruence.
  - unfold Finish in H. cbn in H. destruct (_ && _) eqn:E in H; simplify_eq; (split; [|reflexivity]).
    + apply (exact_quiet _ _ l); auto; cbn; [discriminate|]. bsplit. intros He. rewrite He in *. discriminate.
    + apply (exact_quiet _ _ l); auto.
Qed.

Lemma run_exact limits ops : forall done l es l',
  limits_ok limits -> Forall in_range ops -> exact limits done l -> run ops l = (es, l') ->
  exact limits (done ++ ops) l'.
Proof.
  induction ops as [|o ops IH]; intros done l es l' Hok Hr Hex H; cbn in H; simplify_eq.
  { by rewrite app_nil_r. }
  destruct (step o l) as [e l1] eqn:E. destruct (run ops l1) as [es1 l2] eqn:Er. simplify_eq.
  inversion Hr; subst. destruct (step_exact limits done l o e l1) as [Hex1 _]; auto.
  rewrite cons_middle, app_assoc. eapply IH; eauto.
Qed.

Definition u64_counts (c : Counts) : Prop := forall k v, counter k c = Some v -> 0 <= v <= MaxUint64.

Lemma start_exact limits l p :
  u64_counts limits -> Start false None limits = (Ok l, p) -> limits_ok limits /\ exact limits [] l.
Proof.
  intros Hu. cbn. destruct (_ || _) eqn:E; [discriminate|]. bsplit. intros [= <- _].
  assert (Hok : limits_ok limits).
  { intros k v Hk. specialize (Hu k v Hk). destruct k; cbn in Hk; simplify_eq; lia. }
  split; [exact Hok|]. constructor; cbn; [reflexivity| |].
  - intros k v lim Hv Hl. specialize (Hok k lim Hl). destruct k; cbn in Hv; simplify_eq; lia.
  - intros _ k v lim Hv Hl. specialize (Hok k lim Hl). destruct k; cbn in Hv; simplify_eq; cbn; lia.
Qed.

(** ** The first error is final *)
Lemma step_latched o l e r l' :
  ld_err l = Some e -> step o l = (r, l') ->
  ld_err l' = Some e /\ ld_counts l' = ld_counts l /\
  match o with OCharge _ _ | OObserveSearch _ _ | OFinish => r = Some e | _ => r <> None end.
Proof.
  intros He. destruct o as [k n|lims|d|d n|]; cbn -[Finish].
  - unfold chargeLedger. rewrite He. intros [= <- <-]. auto.
  - unfold stick. rewrite He. cbn. intros [= <- <-]. repeat split; auto; discriminate.
  - unfold WithSearchRepositories. rewrite He, orb_true_r. destruct d; intros [= <- <-].
    + repeat split; auto; discriminate.
    + unfold stick. rewrite He. repeat split; auto; congruence.
  - unfold ObserveSearchRepositories. rewrite He. intros [= <- <-]. auto.
  - unfold Finish. cbn. rewrite He, andb_false_r. intros [= <- <-]. cbn. auto.
Qed.

Lemma run_latched ops : forall l es l' e,
  ld_err l = Some e -> run ops l = (es, l') ->
  ld_err l' = Some e /\ ld_counts l' = ld_counts l /\
  (forall i k n, ops !! i = Some (OCharge k n) -> es !! i = Some (Some e)).
Proof.
  induction ops as [|o ops IH]; intros l es l' e He H; cbn in H; simplify_eq.
  { split; [exact He|]. split; [reflexivity|]. intros i k n Hi. discriminate. }
  destruct (step o l) as [r l1] eqn:E. destruct (run ops l1) as [es1 l2] eqn:Er. simplify_eq.
  destruct (step_latched _ _ _ _ _ He E) as (He1 & Hc1 & Hres).
  destruct (IH _ _ _ _ He1 Er) as (He2 & Hc2 & Hch). rewrite Hc2. split; [exact He2|]. split; [exact Hc1|].
  intros [|i] k n Hi; cbn in Hi |- *; [|eauto]. injection Hi as ->. cbn in Hres. by rewrite Hres.
Qed.

(** C33: a scope that [Finish] certifies is exact: whatever operations ran,
    in whatever order, each counter is the sum of every count charged to its
    kind, within its limit; every charge succeeded; and a required search
    observation was made. *)
Theorem certified_ledger_is_exact limits p l0 ops es l c l' :
  u64_counts limits -> Forall in_range ops ->
  Start false None limits = (Ok l0, p) -> run ops l0 = (es, l) -> Finish l = (c, None, l') ->
  (forall k v lim, counter k c = Some v -> counter k limits = Some lim ->
     v = charged k ops /\ v <= lim) /\
  (forall i k n, ops !! i = Some (OCharge k n) -> es !! i = Some None) /\
  (ld_searchRequired l = true -> exists n, SearchRepositories l = Some n).
Proof.
  intros Hu Hr Hs Hrun Hf. destruct (start_exact _ _ _ Hu Hs) as [Hok Hex].
  pose proof (run_exact _ ops [] l0 es l Hok Hr Hex Hrun) as [H1 H2 H3].
  unfold Finish in Hf. cbn in Hf.
  assert (He : ld_err l = None /\ c = ld_counts l /\ (ld_searchRequired l && is_nil (ld_search l)) = false).
  { destruct (ld_searchRequired l && is_nil (ld_search l)) eqn:Eq; destruct (ld_err l) eqn:Ee;
      cbn in Hf; simplify_eq/=; auto. }
  destruct He as (He & -> & Hq). split; [|split].
  - intros k v lim Hv Hl. exact (H3 He k v lim Hv Hl).
  - clear -He Hrun. revert l0 es Hrun. induction ops as [|o ops IH]; intros l0 es Hrun i k n Hi; [discriminate|].
    cbn in Hrun. destruct (step o l0) as [e l1] eqn:Es. destruct (run ops l1) as [es1 l2] eqn:Er. simplify_eq.
    destruct i as [|i]; cbn in Hi |- *; [|exact (IH _ _ Er _ _ _ Hi)]. injection Hi as ->.
    destruct e as [e|]; [|reflexivity]. exfalso.
    assert (Hl1 : ld_err l1 = Some e).
    { cbn in Es. unfold chargeLedger in Es. repeat (case_match; simplify_eq/=; auto). }
    destruct (run_latched _ _ _ _ _ Hl1 Er) as [He' _]. congruence.
  - intros Hreq. rewrite Hreq in Hq. cbn in Hq. unfold SearchRepositories.
    destruct (ld_search l); [eauto|discriminate].
Qed.

(** The first accounting error is final and freezes the evidence: after a
    refused charge the counters never change again, every later charge and
    [Finish] return that same error, and a counter that broke its limit [m]
    shows exactly the sentinel [m + 1], without wrapping. *)
Theorem refused_charge_is_final limits p l0 before es0 l k n e l1 after es l2 :
  u64_counts limits -> Forall in_range before -> 0 <= n <= MaxUint64 ->
  Start false None limits = (Ok l0, p) -> run before l0 = (es0, l) ->
  chargeLedger k n l = (Some e, l1) -> run after l1 = (es, l2) ->
  ld_counts l2 = ld_counts l1 /\
  (forall i k n, after !! i = Some (OCharge k n) -> es !! i = Some (Some e)) /\
  snd (fst (Finish l2)) = Some e /\
  (forall k v lim, counter k (ld_counts l2) = Some v -> counter k limits = Some lim ->
     v <= lim + 1 <= MaxUint64 /\ (v = lim + 1 -> e = ErrLimit)).
Proof.
  intros Hu Hr Hn Hs Hrun Hc Hafter. destruct (start_exact _ _ _ Hu Hs) as [Hok Hex].
  pose proof (run_exact _ before [] l0 es0 l Hok Hr Hex Hrun) as Hex1.
  destruct (charge_exact _ _ _ _ _ _ _ Hok Hn Hex1 Hc) as [[G1 G2 G3] Ge]. symmetry in Ge.
  destruct (run_latched _ _ _ _ _ Ge Hafter) as (He2 & Hc2 & Hch).
  split; [exact Hc2|]. split; [exact Hch|]. split.
  - destruct (Finish l2) as [[c' e'] l3] eqn:Ef.
    assert (Hstep : step OFinish l2 = (e', l3)) by (cbn -[Finish]; rewrite Ef; reflexivity).
    destruct (step_latched _ _ _ _ _ He2 Hstep) as (_ & _ & ->). reflexivity.
  - rewrite Hc2. intros k' v lim Hv Hl. pose proof (Hok k' lim Hl).
    destruct (G2 k' v lim Hv Hl) as [Hb Hm]. split; [lia|]. intros Hv'. specialize (Hm Hv'). congruence.
Qed.

(** ** Witnesses *)
Definition sampleLimits : Counts := mkCounts 2 3 10 0.
Definition sampleLedger : Ledger :=
  match fst (Start false None sampleLimits) with
  | Ok l => l
  | Err _ => mkLedger noCounts noCounts true None false None
  end.
Definition sampleOps : list op :=
  [ORequireSearch false; OCharge ControlFileRead 1; OCharge MemberVisit 7; OObserveSearch false 0;
   OCharge MemberVisit 3].

Lemma sample_limits_u64 : u64_counts sampleLimits.
Proof. intros [] v H; cbn in H; simplify_eq; unfold MaxUint64; lia. Qed.
Lemma sample_ops_range : Forall in_range sampleOps.
Proof. unfold in_range, MaxUint64. repeat constructor; lia. Qed.

Lemma certified_ledger_is_exact_witness :
  charged MemberVisit sampleOps = 10 /\ exists n, SearchRepositories (snd (run sampleOps sampleLedger)) = Some n.
Proof.
  destruct (certified_ledger_is_exact sampleLimits None sampleLedger sampleOps
    (fst (run sampleOps sampleLedger)) (snd (run sampleOps sampleLedger))
    (mkCounts 1 0 10 0) (snd (Finish (snd (run sampleOps sampleLedger))))
    sample_limits_u64 sample_ops_range eq_refl (surjective_pairing _) eq_refl) as (H & _ & Hq).
  split; [|apply Hq; reflexivity]. symmetry. apply (H MemberVisit 10 10 eq_refl eq_refl).
Defined.

Lemma refused_charge_is_final_witness :
  counter MemberVisit (ld_counts (snd (run [OCharge MemberVisit 1] (snd (chargeLedger MemberVisit 5
    (snd (run sampleOps sampleLedger))))))) = Some 11 /\
  snd (fst (Finish (snd (run [OCharge MemberVisit 1] (snd (chargeLedger MemberVisit 5
    (snd (run sampleOps sampleLedger)))))))) = Some ErrLimit.
Proof.
  destruct (refused_charge_is_final sampleLimits None sampleLedger sampleOps
    (fst (run sampleOps sampleLedger)) (snd (run sampleOps sampleLedger)) MemberVisit 5 ErrLimit
    (snd (chargeLedger MemberVisit 5 (snd (run sampleOps sampleLedger)))) [OCharge MemberVisit 1]
    (fst (run [OCharge MemberVisit 1] (snd (chargeLedger MemberVisit 5 (snd (run sampleOps sampleLedger))))))
    (snd (run [OCharge MemberVisit 1] (snd (chargeLedger MemberVisit 5 (snd (run sampleOps sampleLedger))))))
    sample_limits_u64 sample_ops_range ltac:(unfold MaxUint64; lia) eq_refl (surjective_pairing _)
    eq_refl (surjective_pairing _)) as (Hc & _ & Hf & _).
  split; [rewrite Hc; reflexivity|exact Hf].
Defined.
