(* ===== verification/OwnersBarrier.v ===== *)
(** * The owner barrier

    Model of [internal/dispatchadmission/owners.go] and
    [owner_measurement.go]: the barrier that admits complete application turns
    into numbered slots, drains them before dispatch is paused, and lets one
    turn be retained while every other drains.

    The mutex makes the code between two waits one atomic step.  A call that
    waits on [changed] becomes a thread that remembers the channel it waits
    on; [changed] is a counter that [notifyLocked] increments (a fresh channel
    each time), so a sleeping thread is woken by a later value, by its own
    context or by the barrier's.  The nil receiver, which does nothing, is
    outside the model. *)
From S2P Require Import Prelude.

Inductive ownerErr := ErrConfig | ErrCanceled | ErrLimit | ErrProtocol | ErrBusy | ErrFenced
  | ErrCaller.               (** the error of the caller's own context *)

Record OwnerLimits := mkOwnerLimits { ol_Owners : Z; ol_Requests : Z }.

Record Owners := mkOwners {
  ow_ctxErr : bool;          (** [owners.ctx.Err() != nil] *)
  ow_limits : OwnerLimits;
  ow_active : Z;
  ow_requests : Z;
  ow_generations : list Z;
  ow_requestGenerations : list Z;
  ow_waiters : Z;
  ow_paused : bool;
  ow_requestsFenced : bool;
  ow_pausedReady : bool;
  ow_requestsReady : bool;
  ow_terminal : Z;
  ow_measurement : Z;
  ow_measurementUsed : bool;
  ow_changed : Z;
  ow_err : option ownerErr
}.
#[export] Instance eta_Owners : Eta Owners :=
  fun o => mkOwners (ow_ctxErr o) (ow_limits o) (ow_active o) (ow_requests o) (ow_generations o)
    (ow_requestGenerations o) (ow_waiters o) (ow_paused o) (ow_requestsFenced o) (ow_pausedReady o)
    (ow_requestsReady o) (ow_terminal o) (ow_measurement o) (ow_measurementUsed o) (ow_changed o)
    (ow_err o).

Record OwnerTurn := mkTurn { tn_generation : Z; tn_slot : Z; tn_request : bool }.

#[export] Instance OwnerTurn_eq_dec : EqDecision OwnerTurn.
Proof. solve_decision. Defined.

Definition NewOwners (ctxDone : bool) (limits : OwnerLimits) : res ownerErr Owners :=
  if ctxDone || (ol_Owners limits <? 1) || (64 <? ol_Owners limits)
     || (ol_Requests limits <? 1) || (64 <? ol_Requests limits)
  then Err ErrConfig
  else Ok (mkOwners false limits 0 0 (replicate 64 0) (replicate 64 0) 0 false false false false
             0 0 false 0 None).

(** ** The fields a [request] flag selects *)
Definition activeOf (request : bool) (o : Owners) : Z := if request then ow_requests o else ow_active o.
Definition generationsOf (request : bool) (o : Owners) : list Z :=
  if request then ow_requestGenerations o else ow_generations o.
Definition limitOf (request : bool) (o : Owners) : Z :=
  if request then ol_Requests (ow_limits o) else ol_Owners (ow_limits o).
Definition closedOf (request : bool) (o : Owners) : bool :=
  if request then ow_requestsFenced o else ow_paused o.
Definition readyOf (request : bool) (o : Owners) : bool :=
  if request then ow_requestsReady o else ow_pausedReady o.
Definition setActive (request : bool) (v : Z) (o : Owners) : Owners :=
  if request then o <| ow_requests := v |> else o <| ow_active := v |>.
Definition setGenerations (request : bool) (v : list Z) (o : Owners) : Owners :=
  if request then o <| ow_requestGenerations := v |> else o <| ow_generations := v |>.
Definition setClosed (request b : bool) (o : Owners) : Owners :=
  if request then o <| ow_requestsFenced := b |> else o <| ow_paused := b |>.
Definition setReady (request b : bool) (o : Owners) : Owners :=
  if request then o <| ow_requestsReady := b |> else o <| ow_pausedReady := b |>.

(** ** Failure and notification *)
Definition notifyLocked (o : Owners) : Owners := o <| ow_changed ::= fun c => c + 1 |>.
Definition failLocked (e : ownerErr) (o : Owners) : ownerErr * Owners :=
  match ow_err o with
  | Some e0 => (e0, o)
  | None => (e, notifyLocked (o <| ow_err := Some e |> <| ow_ctxErr := true |>))
  end.

(** A call either returns or waits. *)
Inductive outcome (A : Type) := Return (r : res ownerErr A) | Sleep.
Arguments Return {A} r.
Arguments Sleep {A}.
Definition failed {A} (e : ownerErr) (o : Owners) : outcome A * Owners :=
  let '(e', o') := failLocked e o in (Return (Err e'), o').

(** ** Slots *)
Definition maskOf (slot : Z) : Z := u64 (Z.shiftl 1 slot).
Definition TrailingZeros64 (x : Z) : Z :=
  match findIndex (fun i => Z.testbit x (Z.of_nat i)) (seq 0 64) with
  | Some i => Z.of_nat i
  | None => 64
  end.
Definition available (active limit : Z) : Z :=
  Z.land (Z.lxor active MaxUint64) (Z.shiftr MaxUint64 (64 - limit)).

Definition enterLocked (request : bool) (o : Owners) : outcome OwnerTurn * Owners :=
  let avail := available (activeOf request o) (limitOf request o) in
  if avail =? 0 then failed ErrLimit o
  else
    let slot := TrailingZeros64 avail in
    match generationsOf request o !! Z.to_nat slot with
    | None => failed ErrLimit o                       (** out of range: see [slot_in_range] *)
    | Some g =>
        if g =? MaxUint64 then failed ErrLimit o
        else
          let o := setGenerations request (<[Z.to_nat slot := g + 1]> (generationsOf request o)) o in
          let o := setActive request (Z.lor (activeOf request o) (maskOf slot)) o in
          (Return (Ok (mkTurn (g + 1) slot request)), o)
    end.

(** One pass of [Enter]'s loop and, when it returns, its deferred
    [waiters--]. *)
Definition enterLoop (parked callerDone : bool) (o : Owners) : outcome OwnerTurn * Owners :=
  let leave (p : outcome OwnerTurn * Owners) :=
    if parked then (fst p, (snd p) <| ow_waiters ::= fun w => w - 1 |>) else p in
  match ow_err o with
  | Some e => leave (Return (Err e), o)
  | None =>
      if callerDone then leave (Return (Err ErrCaller), o)
      else if ow_ctxErr o then leave (Return (Err ErrCanceled), o)
      else if negb (ow_paused o) then leave (enterLocked false o)
      else if parked then (Sleep, o)
      else if ow_waiters o =? ol_Owners (ow_limits o) then failed ErrLimit o
      else (Sleep, o <| ow_waiters ::= fun w => w + 1 |>)
  end.
Definition Enter (ctxNil callerDone : bool) (o : Owners) : outcome OwnerTurn * Owners :=
  if ctxNil then failed ErrCanceled o else enterLoop false callerDone o.

Definition EnterRequest (ctxNil callerDone : bool) (o : Owners) : outcome OwnerTurn * Owners :=
  if ctxNil then failed ErrCanceled o
  else match ow_err o with
  | Some e => (Return (Err e), o)
  | None =>
      if callerDone then (Return (Err ErrCaller), o)
      else if ow_ctxErr o then (Return (Err ErrCanceled), o)
      else if ow_requestsFenced o then (Return (Err ErrFenced), o)
      else enterLocked true o
  end.

(** The turn's slot is occupied by this very turn. *)
Definition holds (t : OwnerTurn) (o : Owners) : bool :=
  negb (tn_generation t =? 0)
  && negb (Z.land (activeOf (tn_request t) o) (maskOf (tn_slot t)) =? 0)
  && bool_decide (generationsOf (tn_request t) o !! Z.to_nat (tn_slot t) = Some (tn_generation t)).

Definition End (t : OwnerTurn) (o : Owners) : Owners :=
  let mask := maskOf (tn_slot t) in
  if negb (holds t o) then snd (failLocked ErrProtocol o)
  else if negb (tn_request t) && ((ow_terminal o =? mask) || (ow_measurement o =? mask))
  then snd (failLocked ErrProtocol o)
  else
    let o := setActive (tn_request t) (Z.ldiff (activeOf (tn_request t) o) mask) o in
    if (activeOf (tn_request t) o =? 0) && closedOf (tn_request t) o
       || negb (tn_request t)
          && (negb (ow_terminal o =? 0) && (ow_active o =? ow_terminal o)
              || negb (ow_measurement o =? 0) && (ow_active o =? ow_measurement o))
    then notifyLocked o else o.

(** ** Retained turns

    [FenceTerminal] and [FenceMeasurement] wait in the same loop. *)
Definition holdLoop (mask : Z) (callerDone : bool) (o : Owners) : outcome unit * Owners :=
  match ow_err o with
  | Some e => (Return (Err e), o)
  | None =>
      if callerDone || ow_ctxErr o then failed ErrCanceled o
      else if (ow_active o =? mask) && (ow_requests o =? 0) then (Return (Ok tt), o)
      else (Sleep, o)
  end.

Definition retainable (t : OwnerTurn) (o : Owners) : bool :=
  negb (tn_request t) && (tn_slot t <? ol_Owners (ow_limits o)) && holds t o
  && (ow_terminal o =? 0) && (ow_measurement o =? 0) && negb (ow_paused o)
  && negb (ow_requestsFenced o) && negb (ow_pausedReady o) && negb (ow_requestsReady o).

Definition FenceTerminal (t : OwnerTurn) (callerDone bounded : bool) (o : Owners)
    : outcome unit * Owners :=
  match ow_err o with
  | Some e => (Return (Err e), o)
  | None =>
      if callerDone || ow_ctxErr o then failed ErrCanceled o
      else if negb bounded then failed ErrConfig o
      else if negb (retainable t o) then failed ErrProtocol o
      else
        let mask := maskOf (tn_slot t) in
        let o := o <| ow_terminal := mask |> <| ow_paused := true |> <| ow_requestsFenced := true |> in
        holdLoop mask callerDone (notifyLocked o)
  end.

Definition FenceMeasurement (t : OwnerTurn) (callerDone bounded : bool) (o : Owners)
    : outcome unit * Owners :=
  match ow_err o with
  | Some e => (Return (Err e), o)
  | None =>
      if callerDone || ow_ctxErr o then failed ErrCanceled o
      else if negb bounded then failed ErrConfig o
      else if negb (retainable t o) || ow_measurementUsed o then failed ErrProtocol o
      else
        let mask := maskOf (tn_slot t) in
        let o := o <| ow_measurementUsed := true |> <| ow_measurement := mask |>
                   <| ow_paused := true |> <| ow_requestsFenced := true |> in
        holdLoop mask callerDone (notifyLocked o)
  end.

(** [contexts] is the part of the test that reads the two contexts: both
    bounded, the deadline not later than the original one, neither done. *)
Definition validLocked (t : OwnerTurn) (contexts : bool) (o : Owners) : bool :=
  let mask := maskOf (tn_slot t) in
  contexts && negb (ow_ctxErr o) && is_nil (ow_err o) && (ow_measurement o =? mask)
  && bool_decide (ow_generations o !! Z.to_nat (tn_slot t) = Some (tn_generation t))
  && (ow_active o =? mask) && (ow_requests o =? 0) && ow_paused o && ow_requestsFenced o
  && negb (ow_pausedReady o) && negb (ow_requestsReady o) && (ow_terminal o =? 0).

Definition MeasurementResume (t : OwnerTurn) (contexts : bool) (o : Owners) : outcome unit * Owners :=
  if negb (validLocked t contexts o) then failed ErrProtocol o
  else (Return (Ok tt), notifyLocked (o <| ow_measurement := 0 |> <| ow_paused := false |>
                                        <| ow_requestsFenced := false |>)).

(** ** The two-sided fence *)
Definition fenceLoop (request callerDone : bool) (o : Owners) : outcome unit * Owners :=
  match ow_err o with
  | Some e => (Return (Err e), o)
  | None =>
      if callerDone || ow_ctxErr o then failed ErrCanceled o
      else if activeOf request o =? 0 then (Return (Ok tt), setReady request true o)
      else (Sleep, o)
  end.

Definition fence (request ctxNil callerDone : bool) (o : Owners) : outcome unit * Owners :=
  if negb (ow_terminal o =? 0) || negb (ow_measurement o =? 0) then failed ErrProtocol o
  else if ctxNil then failed ErrCanceled o
  else if closedOf request o then failed ErrProtocol o
  else fenceLoop request callerDone (notifyLocked (setClosed request true o)).

Definition reopen (request : bool) (o : Owners) : outcome unit * Owners :=
  if negb (ow_terminal o =? 0) || negb (ow_measurement o =? 0) then failed ErrProtocol o
  else match ow_err o with
  | Some e => (Return (Err e), o)
  | None =>
      if ow_ctxErr o then failed ErrCanceled o
      else if negb (closedOf request o) || negb (readyOf request o) || negb (activeOf request o =? 0)
      then failed ErrBusy o
      else (Return (Ok tt), notifyLocked (setReady request false (setClosed request false o)))
  end.

(** ** Calls, threads and steps

    Every thread in the list is asleep in its call's loop; [seen] is the
    channel it waits on. *)
Inductive thread :=
  | TEnter (seen : Z)
  | TFence (request : bool) (seen : Z)
  | THold (measure : bool) (t : OwnerTurn) (seen : Z)
  | TDone.

(** [sy_handle] is the [OwnerMeasurement] that [FenceMeasurement] returned:
    there is at most one, since a barrier is measured once. *)
Record sys := mkSys {
  sy_owners : Owners;
  sy_threads : list thread;
  sy_handle : option OwnerTurn
}.

Inductive op :=
  | CallEnter (ctxNil callerDone : bool)
  | CallEnterRequest (ctxNil callerDone : bool)
  | CallEnd (t : OwnerTurn)
  | CallFence (request ctxNil callerDone : bool)
  | CallReopen (request : bool)
  | CallFenceTerminal (t : OwnerTurn) (callerDone bounded : bool)
  | CallFenceMeasurement (t : OwnerTurn) (callerDone bounded : bool)
  | CallMeasurementResume (contexts : bool)
  | Wake (i : nat) (callerDone : bool)
  | CancelParent.

Inductive event :=
  | Issued (t : OwnerTurn)
  | Finished (e : option ownerErr)
  | Waiting
  | Idle.

Definition turnEvent (r : res ownerErr OwnerTurn) : event :=
  match r with Ok t => Issued t | Err e => Finished (Some e) end.
Definition doneEvent (r : res ownerErr unit) : event :=
  match r with Ok _ => Finished None | Err e => Finished (Some e) end.

(** The end of a call: its event, or a new sleeping thread. *)
Definition settle {A} (ev : res ownerErr A -> event) (asleep : Z -> thread)
    (p : outcome A * Owners) (s : sys) : event * sys :=
  match p with
  | (Return r, o) => (ev r, mkSys o (sy_threads s) (sy_handle s))
  | (Sleep, o) => (Waiting, mkSys o (sy_threads s ++ [asleep (ow_changed o)]) (sy_handle s))
  end.
Definition resettle {A} (ev : res ownerErr A -> event) (asleep : Z -> thread)
    (p : outcome A * Owners) (i : nat) (s : sys) : event * sys :=
  match p with
  | (Return r, o) => (ev r, mkSys o (<[i := TDone]> (sy_threads s)) (sy_handle s))
  | (Sleep, o) => (Waiting, mkSys o (<[i := asleep (ow_changed o)]> (sy_threads s)) (sy_handle s))
  end.
(** A finished [FenceMeasurement] hands out its measurement. *)
Definition handOut (measure : bool) (t : OwnerTurn) (p : event * sys) : event * sys :=
  match fst p with
  | Finished None =>
      if measure then (fst p, mkSys (sy_owners (snd p)) (sy_threads (snd p)) (Some t)) else p
  | _ => p
  end.

Definition woken (seen : Z) (callerDone : bool) (o : Owners) : bool :=
  callerDone || ow_ctxErr o || negb (seen =? ow_changed o).

Definition exec (a : op) (s : sys) : event * sys :=
  let o := sy_owners s in
  match a with
  | CallEnter n d => settle turnEvent TEnter (Enter n d o) s
  | CallEnterRequest n d => settle turnEvent TEnter (EnterRequest n d o) s
  | CallEnd t => (Finished None, mkSys (End t o) (sy_threads s) (sy_handle s))
  | CallFence r n d => settle doneEvent (TFence r) (fence r n d o) s
  | CallReopen r => settle doneEvent (TFence r) (reopen r o) s
  | CallFenceTerminal t d b => settle doneEvent (THold false t) (FenceTerminal t d b o) s
  | CallFenceMeasurement t d b =>
      handOut true t (settle doneEvent (THold true t) (FenceMeasurement t d b o) s)
  | CallMeasurementResume c =>
      match sy_handle s with
      | Some t => settle doneEvent (THold true t) (MeasurementResume t c o) s
      | None => (Idle, s)
      end
  | Wake i d =>
      match sy_threads s !! i with
      | Some (TEnter seen) =>
          if woken seen d o then resettle turnEvent TEnter (enterLoop true d o) i s else (Idle, s)
      | Some (TFence r seen) =>
          if woken seen d o then resettle doneEvent (TFence r) (fenceLoop r d o) i s else (Idle, s)
      | Some (THold m t seen) =>
          if woken seen d o
          then handOut m t (resettle doneEvent (THold m t) (holdLoop (maskOf (tn_slot t)) d o) i s)
          else (Idle, s)
      | _ => (Idle, s)
      end
  | CancelParent => (Idle, mkSys (o <| ow_ctxErr := true |>) (sy_threads s) (sy_handle s))
  end.

Fixpoint execs (l : list op) (s : sys) : list event * sys :=
  match l with
  | [] => ([], s)
  | a :: l' => let '(e, s1) := exec a s in let '(es, s2) := execs l' s1 in (e :: es, s2)
  end.

(** ** Bits *)
Lemma maskOf_pow s : 0 <= s < 64 -> maskOf s = 2 ^ s.
Proof.
  intros Hs. unfold maskOf. rewrite Z.shiftl_1_l. apply u64_small. unfold MaxUint64.
  assert (2 ^ s <= 2 ^ 63) by (apply Z.pow_le_mono_r; lia).
  assert (0 <= 2 ^ s) by (apply Z.pow_nonneg; lia). lia.
Qed.

Lemma maskOf_testbit s i : 0 <= s < 64 -> 0 <= i -> Z.testbit (maskOf s) i = (i =? s).
Proof.
  intros Hs Hi. rewrite maskOf_pow by exact Hs. rewrite Z.pow2_bits_eqb by lia. apply Z.eqb_sym.
Qed.

Lemma maskOf_inj s s' : 0 <= s < 64 -> 0 <= s' < 64 -> maskOf s = maskOf s' -> s = s'.
Proof. intros Hs Hs'. rewrite !maskOf_pow by assumption. intros H. apply Z.pow_inj_r in H; lia. Qed.

Lemma land_maskOf a s : 0 <= s < 64 -> (Z.land a (maskOf s) =? 0) = negb (Z.testbit a s).
Proof.
  intros Hs. destruct (Z.testbit a s) eqn:E; cbn.
  - apply Z.eqb_neq. intros H. assert (Hb : Z.testbit (Z.land a (maskOf s)) s = false)
      by (rewrite H; apply Z.testbit_0_l).
    rewrite Z.land_spec, E, maskOf_testbit, Z.eqb_refl in Hb by lia. discriminate.
  - apply Z.eqb_eq. apply Z.bits_inj'. intros i Hi. rewrite Z.land_spec, Z.testbit_0_l.
    rewrite maskOf_testbit by lia. destruct (i =? s) eqn:Ei; [|apply andb_false_r].
    apply Z.eqb_eq in Ei as ->. rewrite E. reflexivity.
Qed.

Lemma maskOf_range s : 0 <= s -> 64 <= s -> maskOf s = 0.
Proof.
  intros _ Hs. unfold maskOf, u64. rewrite Z.shiftl_1_l.
  replace s with (64 + (s - 64)) by lia. rewrite Z.pow_add_r by lia. rewrite Z.mul_comm. apply Z.mod_mul. lia.
Qed.

Lemma ones_testbit i : 0 <= i -> Z.testbit MaxUint64 i = (i <? 64).
Proof. intros Hi. change MaxUint64 with (Z.ones 64). rewrite Z.testbit_ones_nonneg by lia. reflexivity. Qed.

Lemma available_testbit a limit i :
  1 <= limit <= 64 -> 0 <= i -> Z.testbit (available a limit) i = negb (Z.testbit a i) && (i <? limit).
Proof.
  intros Hl Hi. unfold available. rewrite Z.land_spec, Z.lxor_spec, Z.shiftr_spec by lia.
  rewrite !ones_testbit by lia. replace (i + (64 - limit) <? 64) with (i <? limit).
  2: { destruct (i <? limit) eqn:E; symmetry; [apply Z.ltb_lt in E; apply Z.ltb_lt|apply Z.ltb_ge in E; apply Z.ltb_ge]; lia. }
  destruct (i <? limit) eqn:E; [|rewrite !andb_false_r; reflexivity]. apply Z.ltb_lt in E.
  rewrite (proj2 (Z.ltb_lt i 64)) by lia. rewrite xorb_true_r. reflexivity.
Qed.

Lemma TrailingZeros64_spec x :
  x <> 0 -> (forall i, 64 <= i -> Z.testbit x i = false) ->
  0 <= TrailingZeros64 x < 64 /\ Z.testbit x (TrailingZeros64 x) = true /\
  forall j, 0 <= j < TrailingZeros64 x -> Z.testbit x j = false.
Proof.
  intros Hx Hhi. unfold TrailingZeros64. destruct (findIndex _ _) as [i|] eqn:E.
  - apply findIndex_Some in E as (k & Hk & Hb & Hlow).
    apply lookup_seq in Hk as [-> Hi]. split; [lia|]. split; [exact Hb|].
    intros j Hj. specialize (Hlow (Z.to_nat j) (Z.to_nat j)). cbn in Hb. rewrite <- (Z2Nat.id j) by lia. apply Hlow; [lia|].
    rewrite lookup_seq_lt by lia. f_equal; lia.
  - exfalso. apply Hx. apply Z.bits_inj'. intros i Hi. rewrite Z.testbit_0_l.
    destruct (Z.lt_ge_cases i 64) as [Hlt|Hge]; [|auto].
    rewrite findIndex_None in E. specialize (E (Z.to_nat i) (Z.to_nat i)).
    rewrite lookup_seq_lt in E by lia. cbn in E. rewrite Z2Nat.id in E by lia. auto.
Qed.

(** ** The invariant of the state *)
Record core (o : Owners) : Prop := {
  co_limit : forall r, 1 <= limitOf r o <= 64;
  co_length : forall r, length (generationsOf r o) = 64%nat;
  co_generation : forall r i g, generationsOf r o !! i = Some g -> 0 <= g <= MaxUint64;
  co_bits : forall r i, 0 <= i -> Z.testbit (activeOf r o) i = true ->
    i < limitOf r o /\ exists g, generationsOf r o !! Z.to_nat i = Some g /\ 1 <= g;
  co_ready : forall r, readyOf r o = true -> closedOf r o = true /\ activeOf r o = 0;
  co_held : forall m, m = ow_terminal o \/ m = ow_measurement o -> m <> 0 ->
    (forall r, closedOf r o = true /\ readyOf r o = false) /\
    exists s, 0 <= s < 64 /\ m = maskOf s /\ Z.testbit (ow_active o) s = true;
  co_excl : ow_terminal o = 0 \/ ow_measurement o = 0;
  co_err : ow_err o <> None -> ow_ctxErr o = true;
  co_used : ow_measurement o <> 0 -> ow_measurementUsed o = true
}.

(** The fields [core] reads, [err] and [ctxErr] apart. *)
Definition frame (o : Owners) :=
  (ow_limits o, ow_active o, ow_requests o, (ow_generations o, ow_requestGenerations o),
   (ow_paused o, ow_requestsFenced o, ow_pausedReady o, ow_requestsReady o),
   (ow_terminal o, ow_measurement o, ow_measurementUsed o)).

Lemma core_frame o o' :
  core o -> frame o' = frame o -> (ow_err o' <> None -> ow_ctxErr o' = true) -> core o'.
Proof.
  intros H Hf He. destruct o, o'. unfold frame in Hf. cbn in *. simplify_eq. destruct H; constructor; auto.
Qed.

Lemma failLocked_frame e o :
  let o' := snd (failLocked e o) in
  frame o' = frame o /\ ow_waiters o' = ow_waiters o /\ ow_changed o <= ow_changed o' /\
  (ow_err o <> None -> o' = o) /\ (ow_err o = None -> ow_err o' = Some e /\ ow_ctxErr o' = true /\ ow_changed o < ow_changed o').
Proof. unfold failLocked. destruct (ow_err o) eqn:E; cbn; repeat split; auto; try lia; congruence. Qed.

Lemma core_fail e o : core o -> core (snd (failLocked e o)).
Proof.
  intros H. destruct (failLocked_frame e o) as (Hf & _ & _ & Hs & Hn).
  apply (core_frame o); auto. intros _. destruct (ow_err o) eqn:E.
  - rewrite Hs by congruence. apply (co_err o H). congruence.
  - apply Hn. reflexivity.
Qed.

(** ** What each primitive does to the state *)
Definition entered (r : bool) (slot g : Z) (o : Owners) : Owners :=
  setActive r (Z.lor (activeOf r o) (maskOf slot))
    (setGenerations r (<[Z.to_nat slot := g + 1]> (generationsOf r o)) o).

(** The chosen slot is free and within the limit, so the generation array is
    never indexed out of range. *)
Lemma slot_in_range r o :
  core o -> available (activeOf r o) (limitOf r o) <> 0 ->
  let slot := TrailingZeros64 (available (activeOf r o) (limitOf r o)) in
  0 <= slot < limitOf r o /\ Z.testbit (activeOf r o) slot = false /\
  exists g, generationsOf r o !! Z.to_nat slot = Some g /\ 0 <= g <= MaxUint64.
Proof.
  intros H Hne. pose proof (co_limit o H r) as Hlim.
  destruct (TrailingZeros64_spec _ Hne) as (Hr & Hb & _).
  { intros i Hi. rewrite available_testbit by lia. rewrite (proj2 (Z.ltb_ge i _)) by lia. apply andb_false_r. }
  rewrite available_testbit in Hb by lia. set (slot := TrailingZeros64 _) in *. clearbody slot.
  apply andb_true_iff in Hb as [Hb Hl]. apply negb_true_iff in Hb. apply Z.ltb_lt in Hl.
  split; [lia|]. split; [exact Hb|]. destruct (lookup_lt_is_Some_2 (generationsOf r o) (Z.to_nat slot)) as [g Hg].
  { rewrite (co_length o H). lia. }
  exists g. split; [exact Hg|]. exact (co_generation o H r _ _ Hg).
Qed.

Lemma enterLocked_cases r o :
  core o ->
  enterLocked r o = failed ErrLimit o \/
  exists slot g, 0 <= slot < limitOf r o /\ Z.testbit (activeOf r o) slot = false /\
    generationsOf r o !! Z.to_nat slot = Some g /\ 0 <= g < MaxUint64 /\
    enterLocked r o = (Return (Ok (mkTurn (g + 1) slot r)), entered r slot g o).
Proof.
  intros H. unfold enterLocked. cbn zeta. destruct (_ =? 0) eqn:E; [left; reflexivity|].
  apply Z.eqb_neq in E. destruct (slot_in_range r o H E) as (Hs & Hb & g & Hg & Hgr).
  set (slot := TrailingZeros64 _) in *. clearbody slot. rewrite Hg.
  destruct (g =? MaxUint64) eqn:Eg; [left; reflexivity|]. apply Z.eqb_neq in Eg.
  right. exists slot, g. repeat split; auto; try lia. unfold entered. destruct r; reflexivity.
Qed.

Lemma lor_mask_testbit a s i :
  0 <= s < 64 -> 0 <= i -> Z.testbit (Z.lor a (maskOf s)) i = Z.testbit a i || (i =? s).
Proof. intros Hs Hi. rewrite Z.lor_spec, maskOf_testbit by lia. reflexivity. Qed.
Lemma ldiff_mask_testbit a s i :
  0 <= s < 64 -> 0 <= i -> Z.testbit (Z.ldiff a (maskOf s)) i = Z.testbit a i && negb (i =? s).
Proof. intros Hs Hi. rewrite Z.ldiff_spec, maskOf_testbit by lia. reflexivity. Qed.

Lemma maskOf_slot s : maskOf s <> 0 -> 0 <= s < 64.
Proof.
  intros Hm. split.
  - destruct (Z.lt_ge_cases s 0) as [Hlt|]; [|assumption]. exfalso. apply Hm.
    unfold maskOf. rewrite Z.shiftl_div_pow2 by lia.
    rewrite Z.div_small; [reflexivity|]. split; [lia|]. apply Z.pow_gt_1; lia.
  - destruct (Z.lt_ge_cases s 64) as [|Hge]; [assumption|]. exfalso. apply Hm. apply maskOf_range; lia.
Qed.

Lemma holds_spec t o :
  core o -> holds t o = true ->
  0 <= tn_slot t < limitOf (tn_request t) o /\ Z.testbit (activeOf (tn_request t) o) (tn_slot t) = true /\
  generationsOf (tn_request t) o !! Z.to_nat (tn_slot t) = Some (tn_generation t).
Proof.
  intros H Hh. unfold holds in Hh. apply andb_true_iff in Hh as [Hh Hg]. apply andb_true_iff in Hh as [_ Hm].
  apply bool_decide_eq_true in Hg. apply negb_true_iff, Z.eqb_neq in Hm.
  assert (Hs : 0 <= tn_slot t < 64).
  { apply maskOf_slot. intros E. apply Hm. rewrite E. apply Z.land_0_r. }
  assert (Hb : Z.testbit (activeOf (tn_request t) o) (tn_slot t) = true).
  { pose proof (land_maskOf (activeOf (tn_request t) o) (tn_slot t) Hs) as E.
    rewrite (proj2 (Z.eqb_neq _ _) Hm) in E. destruct (Z.testbit _ _); [reflexivity|discriminate]. }
  destruct (co_bits o H _ _ (proj1 Hs) Hb) as [Hlt _]. repeat split; auto; lia.
Qed.

Lemma entered_fields r slot g o r' :
  let o' := entered r slot g o in
  limitOf r' o' = limitOf r' o /\ closedOf r' o' = closedOf r' o /\ readyOf r' o' = readyOf r' o /\
  activeOf r' o' = (if Bool.eqb r' r then Z.lor (activeOf r o) (maskOf slot) else activeOf r' o) /\
  generationsOf r' o' = (if Bool.eqb r' r then <[Z.to_nat slot := g + 1]> (generationsOf r o)
                         else generationsOf r' o).
Proof. destruct r, r'; repeat split. Qed.

Lemma open_not_held o r : core o -> closedOf r o = false -> ow_terminal o = 0 /\ ow_measurement o = 0.
Proof.
  intros H Hc.
  assert (Hz : forall m, m = ow_terminal o \/ m = ow_measurement o -> m = 0).
  { intros m Hm. apply dec_stable. intros Hne. destruct (co_held o H m Hm Hne) as [Hcl _].
    destruct (Hcl r). congruence. }
  auto.
Qed.

Lemma core_entered r slot g o :
  core o -> closedOf r o = false -> 0 <= slot < limitOf r o ->
  generationsOf r o !! Z.to_nat slot = Some g -> 0 <= g < MaxUint64 -> core (entered r slot g o).
Proof.
  intros H Hc Hs Hg Hgr. pose proof (co_limit o H r) as Hlim.
  pose proof (open_not_held o r H Hc) as Hnotheld. destruct H as [H1 H2 H3 H4 H5 H6 H7 H8 H9]. destruct Hnotheld as [Ht Hm].
  constructor; try (intros r'; destruct (entered_fields r slot g o r') as (E1 & E2 & E3 & E4 & E5));
    try rewrite E1; try rewrite E2; try rewrite E3; try rewrite E4; try rewrite E5.
  - apply H1.
  - destruct (Bool.eqb r' r); rewrite ?length_insert; apply H2.
  - intros i g'. destruct (Bool.eqb r' r); [|apply H3]. intros Hi.
    destruct (lookup_insert_cases _ _ _ _ _ _ Hg Hi) as [[_ ->]|[_ Hi']]; [lia|exact (H3 r i g' Hi')].
  - intros i Hi. destruct (Bool.eqb r' r) eqn:Er; [|apply H4; exact Hi]. apply Bool.eqb_prop in Er as ->.
    rewrite lor_mask_testbit by lia. destruct (i =? slot) eqn:Ei; bsplit.
    + subst i. intros _. split; [lia|]. exists (g + 1). split; [|lia].
      apply list_lookup_insert_eq. by apply lookup_lt_Some in Hg.
    + rewrite orb_false_r. intros Hb. destruct (H4 r i Hi Hb) as (Hlt & g' & Hg' & Hpos).
      split; [exact Hlt|]. exists g'. rewrite list_lookup_insert_ne by lia. auto.
  - intros Hr. destruct (H5 r' Hr) as [Hcl Ha]. destruct (Bool.eqb r' r) eqn:Er; [|auto].
    apply Bool.eqb_prop in Er as ->. congruence.
  - intros m Hmm Hne. exfalso. destruct r; cbn in Hmm; destruct Hmm; congruence.
  - destruct r; cbn; auto.
  - destruct r; cbn; auto.
  - destruct r; cbn; auto.
Qed.

(** [End] on a turn that holds its slot and is not retained. *)
Definition ended (t : OwnerTurn) (o : Owners) : Owners :=
  setActive (tn_request t) (Z.ldiff (activeOf (tn_request t) o) (maskOf (tn_slot t))) o.

Lemma ended_fields t o r' :
  let o' := ended t o in
  limitOf r' o' = limitOf r' o /\ closedOf r' o' = closedOf r' o /\ readyOf r' o' = readyOf r' o /\
  activeOf r' o' = (if Bool.eqb r' (tn_request t)
                    then Z.ldiff (activeOf (tn_request t) o) (maskOf (tn_slot t)) else activeOf r' o) /\
  generationsOf r' o' = generationsOf r' o /\ ow_terminal o' = ow_terminal o /\
  ow_measurement o' = ow_measurement o /\ ow_changed o' = ow_changed o /\ ow_err o' = ow_err o /\
  ow_ctxErr o' = ow_ctxErr o /\ ow_waiters o' = ow_waiters o.
Proof. unfold ended. destruct (tn_request t), r'; repeat split. Qed.

Lemma core_ended t o :
  core o -> holds t o = true ->
  (tn_request t = false -> ow_terminal o <> maskOf (tn_slot t) /\ ow_measurement o <> maskOf (tn_slot t)) ->
  core (ended t o).
Proof.
  intros H Hh Hnot. destruct (holds_spec t o H Hh) as (Hs & Hb & Hg).
  pose proof (co_limit o H (tn_request t)) as Hlim. destruct H as [H1 H2 H3 H4 H5 H6 H7 H8 H9].
  constructor; try (intros r'; destruct (ended_fields t o r') as (E1 & E2 & E3 & E4 & E5 & _));
    try rewrite E1; try rewrite E2; try rewrite E3; try rewrite E4; try rewrite E5; auto.
  - apply H3.
  - intros i Hi Hbi. apply (H4 r' i Hi). destruct (Bool.eqb r' _) eqn:Er; [|exact Hbi].
    apply Bool.eqb_prop in Er as ->. rewrite ldiff_mask_testbit in Hbi by lia. by apply andb_true_iff in Hbi as [? _].
  - intros Hr. destruct (H5 r' Hr) as [Hcl Ha]. split; [exact Hcl|].
    destruct (Bool.eqb r' _) eqn:Er; [|exact Ha]. apply Bool.eqb_prop in Er as ->.
    rewrite Ha in Hb. rewrite Z.testbit_0_l in Hb. discriminate.
  - destruct (ended_fields t o false) as (_ & _ & _ & E4 & _ & E6 & E7 & _).
    rewrite E6, E7. intros m Hm Hne. destruct (H6 m Hm Hne) as (Hcl & s & Hsr & -> & Hbs). split.
    + intros r. destruct (ended_fields t o r) as (_ & -> & -> & _). apply Hcl.
    + exists s. split; [exact Hsr|]. split; [reflexivity|].
      change (ow_active (ended t o)) with (activeOf false (ended t o)). rewrite E4.
      destruct (tn_request t) eqn:Er; cbn [Bool.eqb]; [exact Hbs|].
      rewrite ldiff_mask_testbit by lia. cbn in *. rewrite Hbs. cbn.
      destruct (s =? tn_slot t) eqn:Es; [|reflexivity]. apply Z.eqb_eq in Es as ->.
      destruct (Hnot eq_refl). destruct Hm; congruence.
  - destruct (ended_fields t o false) as (_ & _ & _ & _ & _ & -> & -> & _). exact H7.
  - destruct (ended_fields t o false) as (_ & _ & _ & _ & _ & _ & _ & _ & -> & -> & _). exact H8.
  - unfold ended. destruct (tn_request t); exact H9.
Qed.

(** Moving the flags only: slots and generations are as they were. *)
Lemma core_flags o o' :
  core o ->
  (forall r, limitOf r o' = limitOf r o /\ generationsOf r o' = generationsOf r o /\
             activeOf r o' = activeOf r o) ->
  (ow_err o', ow_ctxErr o') = (ow_err o, ow_ctxErr o) ->
  (forall r, readyOf r o' = true -> closedOf r o' = true /\ activeOf r o = 0) ->
  (forall m, m = ow_terminal o' \/ m = ow_measurement o' -> m <> 0 ->
    (forall r, closedOf r o' = true /\ readyOf r o' = false) /\
    exists s, 0 <= s < 64 /\ m = maskOf s /\ Z.testbit (ow_active o) s = true) ->
  ow_terminal o' = 0 \/ ow_measurement o' = 0 ->
  (ow_measurement o' <> 0 -> ow_measurementUsed o' = true) -> core o'.
Proof.
  intros [H1 H2 H3 H4 _ _ _ H8 _] Hsame Herr Hready Hheld Hexcl Hused. injection Herr as E1 E2.
  constructor;
    try (intros r; destruct (Hsame r) as (El & Eg & Ea); rewrite ?El, ?Eg, ?Ea; solve [auto | apply H3 | apply H4]).
  - intros m Hm Hne. destruct (Hsame false) as (_ & _ & Ea). cbn in Ea. rewrite Ea. auto.
  - exact Hexcl.
  - rewrite E1, E2. exact H8.
  - exact Hused.
Qed.

Lemma core_setClosed r o :
  core o -> ow_terminal o = 0 -> ow_measurement o = 0 -> core (setClosed r true o).
Proof.
  intros H Ht Hm. apply (core_flags o); try (intros r'; destruct r, r'; auto; fail);
    try (destruct r; cbn; auto; fail); try (destruct r; cbn; congruence).
  - intros r' Hr. pose proof (co_ready o H r'). destruct r, r'; cbn in *; intuition.
  - intros m Hmm Hne. exfalso. destruct r; cbn in Hmm; destruct Hmm; congruence.
Qed.

Lemma core_setReady r o :
  core o -> closedOf r o = true -> activeOf r o = 0 -> ow_terminal o = 0 -> ow_measurement o = 0 ->
  core (setReady r true o).
Proof.
  intros H Hc Ha Ht Hm. apply (core_flags o); try (intros r'; destruct r, r'; auto; fail);
    try (destruct r; cbn; auto; fail); try (destruct r; cbn; congruence).
  - intros r' Hr. pose proof (co_ready o H r'). destruct r, r'; cbn in *; auto.
  - intros m Hmm Hne. exfalso. destruct r; cbn in Hmm; destruct Hmm; congruence.
Qed.

Lemma core_reopened r o :
  core o -> ow_terminal o = 0 -> ow_measurement o = 0 -> core (setReady r false (setClosed r false o)).
Proof.
  intros H Ht Hm. apply (core_flags o); try (intros r'; destruct r, r'; auto; fail);
    try (destruct r; cbn; auto; fail); try (destruct r; cbn; congruence).
  - intros r' Hr. pose proof (co_ready o H r'). destruct r, r'; cbn in *; auto; discriminate.
  - intros m Hmm Hne. exfalso. destruct r; cbn in Hmm; destruct Hmm; congruence.
Qed.

Lemma retainable_spec t o :
  core o -> retainable t o = true ->
  tn_request t = false /\ 0 <= tn_slot t < 64 /\ Z.testbit (ow_active o) (tn_slot t) = true /\
  ow_terminal o = 0 /\ ow_measurement o = 0 /\ (forall r, closedOf r o = false /\ readyOf r o = false).
Proof.
  intros H Hr. unfold retainable in Hr. repeat (apply andb_true_iff in Hr as [Hr ?]).
  apply negb_true_iff in Hr. destruct (holds_spec t o H) as (Hs & Hb & _); [assumption|].
  pose proof (co_limit o H (tn_request t)). rewrite Hr in Hb. bsplit.
  repeat split; auto; try lia; destruct r; assumption.
Qed.

(** Retaining a turn, for the terminal fence or for a measurement. *)
Definition retained (measure : bool) (mask : Z) (o : Owners) : Owners :=
  (if measure then o <| ow_measurementUsed := true |> <| ow_measurement := mask |>
   else o <| ow_terminal := mask |>) <| ow_paused := true |> <| ow_requestsFenced := true |>.

Lemma core_retained measure t o :
  core o -> retainable t o = true -> core (retained measure (maskOf (tn_slot t)) o).
Proof.
  intros H Hr. destruct (retainable_spec t o H Hr) as (_ & Hs & Hb & Ht & Hm & Hopen).
  apply (core_flags o); try (intros r'; destruct measure, r'; auto; fail);
    try (destruct measure; cbn; auto; fail).
  - intros r' Hr'. exfalso. destruct (Hopen r'). destruct measure, r'; cbn in *; congruence.
  - intros m Hmm Hne. split.
    + intros r. destruct (Hopen r). destruct measure, r; cbn in *; auto.
    + exists (tn_slot t). split; [exact Hs|]. split; [|exact Hb].
      destruct measure; cbn in Hmm; destruct Hmm; congruence.
Qed.

Lemma core_released o :
  core o -> ow_terminal o = 0 -> ow_pausedReady o = false -> ow_requestsReady o = false ->
  core (o <| ow_measurement := 0 |> <| ow_paused := false |> <| ow_requestsFenced := false |>).
Proof.
  intros H Ht Hp Hr. apply (core_flags o); auto.
  - intros r' Hr'. exfalso. destruct r'; cbn in Hr'; congruence.
  - intros m Hmm Hne. exfalso. cbn in Hmm. destruct Hmm; congruence.
Qed.
