(* ===== verification/OwnersInvariant.v ===== *)
(** * The owner barrier: the invariant

    What every interleaving of calls on the barrier of [OwnersBarrier]
    preserves: slots, drains, retained turns, parked callers and wake-ups. *)
From S2P Require Import Prelude OwnersBarrier.

(** ** The invariant of sleeping threads

    A thread that would not be woken by [changed] has nothing to return for. *)
Definition heldOf (measure : bool) (o : Owners) : Z :=
  if measure then ow_measurement o else ow_terminal o.

Definition asleep (seen : Z) (o : Owners) : Prop := seen = ow_changed o /\ ow_ctxErr o = false.

Definition tgood (o : Owners) (handle : option OwnerTurn) (th : thread) : Prop :=
  match th with
  | TEnter seen => seen <= ow_changed o /\ (asleep seen o -> ow_paused o = true)
  | TFence r seen =>
      seen <= ow_changed o /\ closedOf r o = true /\ readyOf r o = false /\
      ow_terminal o = 0 /\ ow_measurement o = 0 /\ (asleep seen o -> activeOf r o <> 0)
  | THold m t seen =>
      seen <= ow_changed o /\ heldOf m o = maskOf (tn_slot t) /\ heldOf m o <> 0 /\
      (m = true -> handle = None) /\
      (asleep seen o -> ~ (ow_active o = maskOf (tn_slot t) /\ ow_requests o = 0))
  | TDone => True
  end.

Definition isEnter (th : thread) : Z := match th with TEnter _ => 1 | _ => 0 end.
Definition isFence (r : bool) (th : thread) : Z :=
  match th with TFence r' _ => if Bool.eqb r' r then 1 else 0 | _ => 0 end.
Definition isHold (m : bool) (th : thread) : Z :=
  match th with THold m' _ _ => if Bool.eqb m' m then 1 else 0 | _ => 0 end.
Definition count (f : thread -> Z) (ts : list thread) : Z := zsum (f <$> ts).

Record good (s : sys) : Prop := {
  gd_core : core (sy_owners s);
  gd_waiters : ow_waiters (sy_owners s) = count isEnter (sy_threads s) /\
               ow_waiters (sy_owners s) <= ol_Owners (ow_limits (sy_owners s));
  gd_fence : forall r, count (isFence r) (sy_threads s) <= 1;
  gd_hold : forall m, count (isHold m) (sy_threads s) <= 1;
  gd_threads : Forall (tgood (sy_owners s) (sy_handle s)) (sy_threads s);
  gd_handle : forall t, sy_handle s = Some t ->
    0 <= tn_slot t < 64 /\ ow_measurementUsed (sy_owners s) = true
}.

(** ** State changes the other threads survive *)
Definition stay (o o' : Owners) (h : option OwnerTurn) : Prop := forall th, tgood o h th -> tgood o' h th.

(** A change that notifies, and keeps what sleepers of each kind rely on. *)
Lemma stay_notify o o' h :
  ow_changed o < ow_changed o' ->
  (forall r, closedOf r o = true -> readyOf r o = false -> ow_terminal o = 0 -> ow_measurement o = 0 ->
     closedOf r o' = true /\ readyOf r o' = false /\ ow_terminal o' = 0 /\ ow_measurement o' = 0) ->
  (forall m, heldOf m o <> 0 -> (m = true -> h = None) -> heldOf m o' = heldOf m o) -> stay o o' h.
Proof.
  intros Hc Hf Hh [seen|r seen|m t seen|]; cbn; auto.
  - intros [Hs _]. split; [lia|]. intros [-> _]. lia.
  - intros (Hs & H1 & H2 & H3 & H4 & _). destruct (Hf r H1 H2 H3 H4) as (? & ? & ? & ?).
    repeat split; auto; try lia. intros [-> _]. lia.
  - intros (Hs & H1 & H2 & H3 & _). rewrite (Hh m H2 H3). repeat split; auto; try lia. intros [-> _]. lia.
Qed.

Lemma stay_fail e o h : stay o (snd (failLocked e o)) h.
Proof.
  destruct (failLocked_frame e o) as (Hf & _ & _ & Hs & Hn). unfold frame in Hf.
  destruct (ow_err o) eqn:E.
  - intros th. rewrite Hs by congruence. auto.
  - destruct (Hn eq_refl) as (_ & _ & Hc). injection Hf as ? ? ? ? ? ? ? ? ? ? ? ?.
    apply stay_notify; [exact Hc| |].
    + intros [] ? ? ? ?; cbn in *; repeat split; congruence.
    + intros [] _ _; cbn; congruence.
Qed.

(** A change nobody sleeping can see. *)
Lemma stay_quiet o o' h :
  ow_changed o' = ow_changed o -> (ow_ctxErr o' = false -> ow_ctxErr o = false) ->
  ow_paused o' = ow_paused o -> ow_requestsFenced o' = ow_requestsFenced o ->
  (forall r, readyOf r o' = readyOf r o) -> ow_terminal o' = ow_terminal o -> ow_measurement o' = ow_measurement o ->
  (forall r, closedOf r o = true -> activeOf r o' = activeOf r o) -> core o -> stay o o' h.
Proof.
  intros Hc He Hp Hrf Hr Ht Hm Ha Hcore.
  assert (Hcl : forall r, closedOf r o' = closedOf r o) by (intros []; cbn; assumption).
  assert (Hh : forall m, heldOf m o' = heldOf m o) by (intros []; cbn; assumption).
  assert (Has : forall seen, asleep seen o' -> asleep seen o) by (unfold asleep; intros ? [? ?]; split; [congruence|auto]).
  intros [seen|r seen|m t seen|]; cbn; rewrite ?Hc, ?Hp, ?Hcl, ?Hr, ?Hh, ?Ht, ?Hm; auto.
  - intros (? & ?). auto.
  - intros (? & H1 & ? & ? & ? & H2). repeat split; auto. rewrite (Ha r H1). auto.
  - intros (? & H1 & H2 & H3 & H4). repeat split; auto. intros Hs. specialize (H4 (Has _ Hs)).
    assert (Hcore' : forall r, closedOf r o = true).
    { intros r. destruct (co_held o Hcore (heldOf m o)) as [Hh' _]; [destruct m; cbn; auto|exact H2|].
      destruct (Hh' r). assumption. }
    pose proof (Ha false (Hcore' false)) as E1. pose proof (Ha true (Hcore' true)) as E2. cbn in E1, E2.
    rewrite E1, E2. exact H4.
Qed.

Lemma stay_refl o h : stay o o h.
Proof. intros th H. exact H. Qed.
Lemma stay_trans o1 o2 o3 h : stay o1 o2 h -> stay o2 o3 h -> stay o1 o3 h.
Proof. intros H1 H2 th H. auto. Qed.

Lemma stay_waiters w o h : stay o (o <| ow_waiters := w |>) h.
Proof. intros th. destruct th as [|[]|[]|]; exact (fun H => H). Qed.

Lemma stay_entered r slot g o h : core o -> closedOf r o = false -> stay o (entered r slot g o) h.
Proof.
  intros Hcore Hc. apply stay_quiet; auto; try (destruct r; reflexivity).
  - intros r'. destruct r, r'; reflexivity.
  - intros r' Hc'. destruct (entered_fields r slot g o r') as (_ & _ & _ & -> & _).
    destruct (Bool.eqb r' r) eqn:E; [|reflexivity]. apply Bool.eqb_prop in E as ->. congruence.
Qed.

Lemma notify_changed o : ow_changed o < ow_changed (notifyLocked o).
Proof. cbn. lia. Qed.

(** [End]'s test of whom to wake is exactly whom it concerns. *)
Lemma stay_End t o h : core o -> core (End t o) /\ stay o (End t o) h.
Proof.
  intros Hcore. unfold End. cbn zeta. destruct (negb (holds t o)) eqn:Eh.
  { split; [by apply core_fail|apply stay_fail]. }
  apply negb_false_iff in Eh. destruct (negb (tn_request t) && _) eqn:Er.
  { split; [by apply core_fail|apply stay_fail]. }
  assert (Hnot : tn_request t = false ->
            ow_terminal o <> maskOf (tn_slot t) /\ ow_measurement o <> maskOf (tn_slot t)).
  { intros Hq. rewrite Hq in Er. cbn in Er. bsplit. auto. }
  clear Er.
  pose proof (core_ended t o Hcore Eh Hnot) as Hcore'.
  change (setActive _ _ o) with (ended t o).
  assert (Hkeep : forall r, closedOf r (ended t o) = closedOf r o /\ readyOf r (ended t o) = readyOf r o /\
    ow_terminal (ended t o) = ow_terminal o /\ ow_measurement (ended t o) = ow_measurement o).
  { intros r. destruct (ended_fields t o r) as (_ & -> & -> & _ & _ & -> & -> & _). auto. }
  destruct (_ || _) eqn:En.
  - split; [apply (core_frame (ended t o)); [exact Hcore'|reflexivity|exact (co_err _ Hcore')]|].
    apply stay_notify.
    + destruct (ended_fields t o true) as (_ & _ & _ & _ & _ & _ & _ & E & _). cbn. rewrite E. lia.
    + intros r ? ? ? ?. destruct (Hkeep r) as (K1 & K2 & K3 & K4).
      destruct r; cbn in *; repeat split; congruence.
    + intros m _ _. destruct (Hkeep true) as (_ & _ & K3 & K4). destruct m; cbn in *; assumption.
  - split; [exact Hcore'|]. destruct (ended_fields t o true) as (_ & _ & _ & _ & _ & E6 & E7 & E8 & _ & E10 & _).
    apply orb_false_iff in En as [En1 En2].
    assert (Has : forall seen, asleep seen (ended t o) -> asleep seen o)
      by (unfold asleep; intros ? [? ?]; split; congruence).
    assert (Hact : forall r, closedOf r o = true -> activeOf r o <> 0 -> activeOf r (ended t o) <> 0).
    { intros r Hcl Hne. destruct (Hkeep r) as (K1 & _). destruct (Bool.eqb r (tn_request t)) eqn:Eq.
      - apply Bool.eqb_prop in Eq as ->. rewrite K1, Hcl, andb_true_r in En1. apply Z.eqb_neq, En1.
      - destruct (ended_fields t o r) as (_ & _ & _ & -> & _). rewrite Eq. exact Hne. }
    intros [seen|r seen|m t' seen|]; cbn [tgood]; auto.
    + rewrite E8. intros (? & Hs). split; [assumption|]. intros Ha.
      destruct (Hkeep false) as (K1 & _). cbn in K1. rewrite K1. auto.
    + rewrite E8, E6, E7. destruct (Hkeep r) as (-> & -> & _). intros (? & H1 & ? & ? & ? & Hs).
      repeat split; auto.
    + assert (Eheld : heldOf m (ended t o) = heldOf m o) by (destruct m; cbn; assumption).
      rewrite E8, Eheld. intros (? & Hm & Hne & ? & Hs). repeat split; auto. intros Ha [Hact' Hreq'].
      destruct (co_held o Hcore (heldOf m o)) as [Hcl _]; [destruct m; cbn; auto|exact Hne|].
      destruct (tn_request t) eqn:Eq.
      * apply (Hs (Has _ Ha)). destruct (ended_fields t o false) as (_ & _ & _ & A & _). rewrite Eq in A. cbn in A.
        split; [congruence|]. apply dec_stable. intros Hr. apply (Hact true (proj1 (Hcl true)) Hr). exact Hreq'.
      * cbn in En2. rewrite E6, E7, Hact', <- Hm in En2. clear -En2 Hne.
        destruct m; cbn in *; rewrite Z.eqb_refl, (proj2 (Z.eqb_neq _ 0) Hne), ?orb_true_r in En2;
          cbn in En2; rewrite ?orb_true_r in En2; discriminate.
Qed.

(** ** What each call guarantees *)
Definition fixed (o o' : Owners) : Prop :=
  ow_limits o' = ow_limits o /\ ow_measurementUsed o' = ow_measurementUsed o.
Definition preserves (o o' : Owners) (h : option OwnerTurn) : Prop :=
  core o' /\ stay o o' h /\ fixed o o' /\ ow_waiters o' = ow_waiters o.

Lemma preserves_refl o h : core o -> preserves o o h.
Proof. intros H. split; [exact H|]. split; [apply stay_refl|]. repeat split. Qed.

Lemma preserves_fail e o h : core o -> preserves o (snd (failLocked e o)) h.
Proof.
  intros H. destruct (failLocked_frame e o) as (Hf & Hw & _). unfold frame in Hf.
  split; [by apply core_fail|]. split; [apply stay_fail|]. split; [split; congruence|exact Hw].
Qed.

Lemma failed_spec {A} e o (out : outcome A) o' h :
  core o -> failed e o = (out, o') -> (exists e', out = Return (Err e')) /\ preserves o o' h.
Proof.
  intros H Hf. unfold failed in Hf. pose proof (preserves_fail e o h H) as Hp.
  destruct (failLocked e o) as [e' o1]. injection Hf as <- <-. eauto.
Qed.

Lemma enterLocked_spec r o out o' h :
  core o -> closedOf r o = false -> enterLocked r o = (out, o') -> out <> Sleep /\ preserves o o' h.
Proof.
  intros H Hc He. destruct (enterLocked_cases r o H) as [E|(slot & g & Hs & Hb & Hg & Hgr & E)]; rewrite E in He.
  - destruct (failed_spec _ _ _ _ h H He) as [[e' ->] Hp]. split; [discriminate|exact Hp].
  - injection He as <- <-. split; [discriminate|]. split; [by apply core_entered|].
    split; [by apply stay_entered|]. repeat split; destruct r; reflexivity.
Qed.

Lemma EnterRequest_spec n d o out o' h :
  core o -> EnterRequest n d o = (out, o') -> out <> Sleep /\ preserves o o' h.
Proof.
  intros H. unfold EnterRequest. destruct n.
  { intros He. destruct (failed_spec _ _ _ _ h H He) as [[e' ->] Hp]. split; [discriminate|exact Hp]. }
  destruct (ow_err o); [intros [= <- <-]; split; [discriminate|by apply preserves_refl]|].
  destruct d; [intros [= <- <-]; split; [discriminate|by apply preserves_refl]|].
  destruct (ow_ctxErr o); [intros [= <- <-]; split; [discriminate|by apply preserves_refl]|].
  destruct (ow_requestsFenced o) eqn:E; [intros [= <- <-]; split; [discriminate|by apply preserves_refl]|].
  apply (enterLocked_spec true); auto.
Qed.

(** A parked caller gives its place back exactly when it returns. *)
Lemma enterLoop_spec parked d o out o' h :
  core o -> enterLoop parked d o = (out, o') ->
  core o' /\ stay o o' h /\ fixed o o' /\
  match out with
  | Return _ => ow_waiters o' = ow_waiters o - (if parked then 1 else 0)
  | Sleep => ow_paused o' = true /\
      if parked then o' = o
      else ow_waiters o' = ow_waiters o + 1 /\ ow_waiters o <> ol_Owners (ow_limits o)
  end.
Proof.
  intros H. unfold enterLoop. cbn zeta.
  assert (Hleave : forall p, fst p <> Sleep -> preserves o (snd p) h ->
    (if parked then (fst p, (snd p) <| ow_waiters ::= fun w => w - 1 |>) else p) = (out, o') ->
    core o' /\ stay o o' h /\ fixed o o' /\
    match out with Return _ => ow_waiters o' = ow_waiters o - (if parked then 1 else 0) | Sleep => False end).
  { intros [out1 o1] Hns (Hc & Hs & Hl & Hw). cbn in Hns, Hc, Hs, Hw, Hl.
    destruct parked; intros [= <- <-].
    - split; [apply (core_frame o1); [exact Hc|reflexivity|exact (co_err _ Hc)]|].
      split; [apply (stay_trans _ _ _ _ Hs); apply (stay_waiters _ o1)|]. split; [exact Hl|].
      destruct out1; [cbn; lia|congruence].
    - split; [exact Hc|]. split; [exact Hs|]. split; [exact Hl|]. destruct out1; [lia|congruence]. }
  assert (Hret : forall e, (if parked then (Return (Err e), o <| ow_waiters ::= fun w => w - 1 |>)
      else (Return (Err e), o)) = (out, o') ->
      core o' /\ stay o o' h /\ fixed o o' /\
      match out with Return _ => ow_waiters o' = ow_waiters o - (if parked then 1 else 0) | Sleep => False end).
  { intros e. apply (Hleave (Return (Err e), o)); [discriminate|by apply preserves_refl]. }
  assert (Hfin : (core o' /\ stay o o' h /\ fixed o o' /\
      match out with Return _ => ow_waiters o' = ow_waiters o - (if parked then 1 else 0) | Sleep => False end) ->
      core o' /\ stay o o' h /\ fixed o o' /\
      match out with
      | Return _ => ow_waiters o' = ow_waiters o - (if parked then 1 else 0)
      | Sleep => ow_paused o' = true /\ if parked then o' = o
          else ow_waiters o' = ow_waiters o + 1 /\ ow_waiters o <> ol_Owners (ow_limits o)
      end) by (destruct out; intuition).
  destruct (ow_err o); [intros He; apply Hfin, (Hret _ He)|].
  destruct d; [intros He; apply Hfin, (Hret _ He)|].
  destruct (ow_ctxErr o); [intros He; apply Hfin, (Hret _ He)|].
  destruct (ow_paused o) eqn:Ep; cbn [negb].
  - destruct parked; [intros [= <- <-]; split; [exact H|]; split; [apply stay_refl|]; repeat split; exact Ep|].
    destruct (_ =? _) eqn:Ew.
    + intros He. destruct (failed_spec _ _ _ _ h H He) as [[e' ->] (Hc & Hs & Hl & Hw)].
      split; [exact Hc|]. split; [exact Hs|]. split; [exact Hl|lia].
    + intros [= <- <-]. bsplit. split; [apply (core_frame o); [exact H|reflexivity|exact (co_err _ H)]|].
      split; [apply (stay_waiters _ o)|]. split; [split; reflexivity|]. cbn. auto.
  - intros He. apply Hfin. revert He. pose proof (enterLocked_spec false o) as Hsp.
    destruct (enterLocked false o) as [out1 o1]. destruct (Hsp out1 o1 h H Ep eq_refl) as [Hns Hp].
    apply Hleave; auto.
Qed.

Lemma fenceLoop_spec r d o out o' h :
  core o -> closedOf r o = true -> ow_terminal o = 0 -> ow_measurement o = 0 ->
  fenceLoop r d o = (out, o') ->
  match out with
  | Return (Ok _) => activeOf r o = 0 /\ o' = setReady r true o
  | Return (Err _) => preserves o o' h
  | Sleep => o' = o /\ activeOf r o <> 0
  end.
Proof.
  intros H Hc Ht Hm. unfold fenceLoop.
  destruct (ow_err o); [intros [= <- <-]; by apply preserves_refl|].
  destruct (d || ow_ctxErr o).
  { intros He. destruct (failed_spec _ _ _ _ h H He) as [[e' ->] Hp]. exact Hp. }
  destruct (activeOf r o =? 0) eqn:E; intros [= <- <-]; bsplit; auto.
Qed.

Lemma holdLoop_spec mask d o out o' h :
  core o -> holdLoop mask d o = (out, o') ->
  match out with
  | Return (Ok _) => ow_active o = mask /\ ow_requests o = 0 /\ ow_err o = None /\ o' = o
  | Return (Err _) => preserves o o' h
  | Sleep => o' = o /\ ~ (ow_active o = mask /\ ow_requests o = 0)
  end.
Proof.
  intros H. unfold holdLoop. destruct (ow_err o) eqn:Ee; [intros [= <- <-]; by apply preserves_refl|].
  destruct (d || ow_ctxErr o).
  { intros He. destruct (failed_spec _ _ _ _ h H He) as [[e' ->] Hp]. exact Hp. }
  destruct (_ && _) eqn:E; intros [= <- <-].
  - bsplit. auto.
  - split; [reflexivity|]. intros [Ha Hr]. rewrite Ha, Hr, !Z.eqb_refl in E. discriminate.
Qed.

(** ** Threads of a system *)
Lemma count_insert f ts i th x :
  ts !! i = Some th -> count f (<[i := x]> ts) = count f ts - f th + f x.
Proof. apply zsum_fmap_insert. Qed.
Lemma count_snoc f ts x : count f (ts ++ [x]) = count f ts + f x.
Proof. unfold count. rewrite fmap_app, zsum_app. cbn. lia. Qed.
Lemma count_none f ts : (forall th, th ∈ ts -> f th = 0) -> count f ts = 0.
Proof. intros H. apply zsum_zero. intros x (th & -> & Hth)%list_elem_of_fmap. auto. Qed.

Definition thread_indicator (f : thread -> Z) : Prop :=
  (forall th, 0 <= f th <= 1) /\ f TDone = 0.
Lemma count_pos f ts th : thread_indicator f -> th ∈ ts -> f th <= count f ts.
Proof.
  intros [Hf _] H. unfold count. apply zsum_elem_le.
  - intros y (x & -> & _)%list_elem_of_fmap. apply Hf.
  - apply list_elem_of_fmap. eauto.
Qed.
Lemma isFence_indicator r : thread_indicator (isFence r).
Proof. split; [|reflexivity]. intros []; cbn; try lia. destruct (Bool.eqb _ _); lia. Qed.
Lemma isHold_indicator m : thread_indicator (isHold m).
Proof. split; [|reflexivity]. intros []; cbn; try lia. destruct (Bool.eqb _ _); lia. Qed.

(** When at most one thread counts, every other thread counts for nothing. *)
Lemma count_other f ts i j th th' :
  thread_indicator f -> count f ts <= 1 -> ts !! i = Some th -> f th = 1 -> ts !! j = Some th' ->
  j <> i -> f th' = 0.
Proof.
  intros Hf Hc Hi H1 Hj Hne. pose proof (count_insert f ts i th TDone Hi) as E.
  assert (Hj' : <[i := TDone]> ts !! j = Some th') by (rewrite list_lookup_insert_ne; auto).
  pose proof (count_pos f _ th' Hf (list_elem_of_lookup_2 _ _ _ Hj')).
  destruct Hf as [Hf H0]. pose proof (Hf th'). lia.
Qed.

(** ** Every step preserves the invariant *)
Lemma good_return s o' :
  good s -> core o' -> fixed (sy_owners s) o' -> ow_waiters o' = ow_waiters (sy_owners s) ->
  (forall th, th ∈ sy_threads s -> tgood (sy_owners s) (sy_handle s) th -> tgood o' (sy_handle s) th) ->
  good (mkSys o' (sy_threads s) (sy_handle s)).
Proof.
  intros [H1 [H2 H2'] H3 H4 H5 H6] Hc [Hl Hu] Hw Hs. constructor; cbn [sy_owners sy_threads sy_handle]; auto.
  - rewrite Hw, Hl. auto.
  - rewrite Forall_forall in *. auto.
  - rewrite Hu. exact H6.
Qed.

Lemma good_preserves s o' :
  good s -> preserves (sy_owners s) o' (sy_handle s) -> good (mkSys o' (sy_threads s) (sy_handle s)).
Proof. intros H (Hc & Hs & Hf & Hw). apply good_return; auto. Qed.

(** A thread replaced by one that is good, the others surviving. *)
Lemma good_insert s i th th' o' :
  good s -> sy_threads s !! i = Some th -> core o' -> fixed (sy_owners s) o' ->
  ow_waiters o' = ow_waiters (sy_owners s) - isEnter th + isEnter th' -> isEnter th' <= isEnter th ->
  (forall r, isFence r th' <= isFence r th) -> (forall m, isHold m th' <= isHold m th) ->
  tgood o' (sy_handle s) th' ->
  (forall j x, j <> i -> sy_threads s !! j = Some x ->
     tgood (sy_owners s) (sy_handle s) x -> tgood o' (sy_handle s) x) ->
  good (mkSys o' (<[i := th']> (sy_threads s)) (sy_handle s)).
Proof.
  intros [H1 [H2 H2'] H3 H4 H5 H6] Hi Hc [Hl Hu] Hw He Hf Hh Hg Hothers.
  constructor; cbn [sy_owners sy_threads sy_handle]; auto.
  - rewrite Hl, (count_insert _ _ _ _ _ Hi). split; lia.
  - intros r. rewrite (count_insert _ _ _ _ _ Hi). specialize (H3 r). specialize (Hf r). lia.
  - intros m. rewrite (count_insert _ _ _ _ _ Hi). specialize (H4 m). specialize (Hh m). lia.
  - apply Forall_lookup_2. intros j x Hx.
    destruct (lookup_insert_cases _ _ _ _ _ _ Hi Hx) as [[-> ->]|[Hne Hx']]; [exact Hg|].
    apply (Hothers j x Hne Hx'). by apply (Forall_lookup_1 _ _ _ _ H5 Hx').
  - rewrite Hu. exact H6.
Qed.

(** A call that goes to sleep. *)
Lemma good_snoc s th o' :
  good s -> core o' -> stay (sy_owners s) o' (sy_handle s) ->
  ow_waiters o' = ow_waiters (sy_owners s) + isEnter th ->
  ow_limits o' = ow_limits (sy_owners s) -> ow_waiters o' <= ol_Owners (ow_limits o') ->
  (ow_measurementUsed (sy_owners s) = true -> ow_measurementUsed o' = true) ->
  (forall r, isFence r th = 1 -> count (isFence r) (sy_threads s) = 0) ->
  (forall m, isHold m th = 1 -> count (isHold m) (sy_threads s) = 0) ->
  tgood o' (sy_handle s) th ->
  good (mkSys o' (sy_threads s ++ [th]) (sy_handle s)).
Proof.
  intros [H1 [H2 H2'] H3 H4 H5 H6] Hc Hs Hw Hl Hlim Hu Hf Hh Hg.
  constructor; cbn [sy_owners sy_threads sy_handle]; auto.
  - rewrite count_snoc. split; lia.
  - intros r. rewrite count_snoc. specialize (H3 r). specialize (Hf r).
    destruct (isFence_indicator r) as [Hi _]. specialize (Hi th). destruct (Z.eq_dec (isFence r th) 1); lia.
  - intros m. rewrite count_snoc. specialize (H4 m). specialize (Hh m).
    destruct (isHold_indicator m) as [Hi _]. specialize (Hi th). destruct (Z.eq_dec (isHold m th) 1); lia.
  - apply Forall_app. split; [eapply Forall_impl; [exact H5|exact Hs]|]. by constructor.
  - intros t Ht. destruct (H6 t Ht). auto.
Qed.

Lemma core_notify o : core o -> core (notifyLocked o).
Proof. intros H. apply (core_frame o); [exact H|reflexivity|exact (co_err _ H)]. Qed.

Lemma thread_good s th : good s -> th ∈ sy_threads s -> tgood (sy_owners s) (sy_handle s) th.
Proof. intros H Hth. pose proof (gd_threads s H) as Hf. rewrite Forall_forall in Hf. auto. Qed.

(** No fence is pending on an open side, no turn retained by a barrier that
    holds none. *)
Lemma no_fence s r : good s -> closedOf r (sy_owners s) = false -> forall th, th ∈ sy_threads s -> isFence r th = 0.
Proof.
  intros H Hc th Hth. pose proof (thread_good s th H Hth) as Hg. destruct th as [|r' ?|?|]; try reflexivity.
  cbn in *. destruct (Bool.eqb r' r) eqn:E; [|reflexivity]. apply Bool.eqb_prop in E as ->.
  destruct Hg as (_ & ? & _). congruence.
Qed.
Lemma no_hold s m : good s -> heldOf m (sy_owners s) = 0 -> forall th, th ∈ sy_threads s -> isHold m th = 0.
Proof.
  intros H Hc th Hth. pose proof (thread_good s th H Hth) as Hg. destruct th as [|?|m' ?|]; try reflexivity.
  cbn in *. destruct (Bool.eqb m' m) eqn:E; [|reflexivity]. apply Bool.eqb_prop in E as ->.
  destruct Hg as (_ & _ & ? & _). congruence.
Qed.

Lemma tgood_ready r o h th :
  ow_terminal o = 0 -> ow_measurement o = 0 -> isFence r th = 0 -> tgood o h th -> tgood (setReady r true o) h th.
Proof.
  intros Ht Hm Hf. destruct th as [seen|r' seen|m t seen|]; cbn in Hf |- *; auto.
  - destruct r; exact (fun H => H).
  - destruct r, r'; cbn in Hf |- *; try discriminate; exact (fun H => H).
  - intros (_ & _ & Hne & _). destruct m; cbn in Hne; congruence.
Qed.

Lemma tgood_handle o h h' th : isHold true th = 0 -> tgood o h th -> tgood o h' th.
Proof. destruct th as [|?|[] ? ?|]; cbn; auto; try discriminate. intros _ (? & ? & ? & _ & ?). repeat split; auto; discriminate. Qed.

Lemma settle_failed {A} (ev : res ownerErr A -> event) asl x s e s' :
  good s -> settle ev asl (failed x (sy_owners s)) s = (e, s') -> good s'.
Proof.
  intros H Hx. destruct (failed x (sy_owners s)) as [out o'] eqn:Ef.
  destruct (failed_spec _ _ _ _ (sy_handle s) (gd_core s H) Ef) as [[e' ->] Hp]. cbn in Hx. simplify_eq.
  by apply good_preserves.
Qed.
Lemma settle_same {A} (ev : res ownerErr A -> event) asl r s e s' :
  good s -> settle ev asl (Return r, sy_owners s) s = (e, s') -> good s'.
Proof. intros H Hx. cbn in Hx. simplify_eq. apply good_preserves; [exact H|]. apply preserves_refl, gd_core, H. Qed.

Lemma fence_good s r n d e s' :
  good s -> exec (CallFence r n d) s = (e, s') -> good s'.
Proof.
  intros H He. cbn in He. unfold fence in He. pose proof (gd_core s H) as Hcore.
  destruct (_ || _) eqn:E1; [by apply settle_failed in He|]. destruct n; [by apply settle_failed in He|].
  destruct (closedOf r (sy_owners s)) eqn:Ec; [by apply settle_failed in He|]. bsplit.
  set (o1 := notifyLocked (setClosed r true (sy_owners s))) in *.
  assert (Hc1 : core o1) by (apply core_notify, core_setClosed; auto).
  assert (Hs1 : stay (sy_owners s) o1 (sy_handle s)).
  { apply stay_notify; [destruct r; cbn; lia| |].
    - intros r' ? ? ? ?. destruct r, r'; cbn in *; try congruence; auto.
    - intros m Hne _. destruct m; cbn in Hne; congruence. }
  assert (Hf1 : fixed (sy_owners s) o1 /\ ow_waiters o1 = ow_waiters (sy_owners s) /\ closedOf r o1 = true /\
     ow_terminal o1 = 0 /\ ow_measurement o1 = 0 /\ readyOf r o1 = readyOf r (sy_owners s))
    by (unfold o1; destruct r; repeat split; assumption).
  destruct Hf1 as (Hfix & Hw1 & Hcl1 & Ht1 & Hm1 & Hr1).
  destruct (fenceLoop r d o1) as [out o'] eqn:Efl.
  pose proof (fenceLoop_spec r d o1 out o' (sy_handle s) Hc1 Hcl1 Ht1 Hm1 Efl) as Hspec.
  destruct out as [[[]|e']|]; cbn in He; simplify_eq.
  - destruct Hspec as [Ha ->]. apply good_return; auto.
    + by apply core_setReady.
    + destruct r; exact Hfix.
    + destruct r; exact Hw1.
    + intros th Hth Hg. apply tgood_ready; auto. exact (no_fence s r H Ec th Hth).
  - destruct Hspec as (Hc' & Hs' & [Hl' Hu'] & Hw'). destruct Hfix as [Hl Hu].
    apply good_preserves; [exact H|]. split; [exact Hc'|]. split; [eapply stay_trans; eassumption|].
    split; [split; congruence|congruence].
  - destruct Hspec as [-> Ha]. destruct (gd_waiters s H) as [Hw Hwl]. destruct Hfix as [Hl Hu].
    apply good_snoc; auto.
    + cbn [isEnter]. lia.
    + rewrite Hl, Hw1. exact Hwl.
    + congruence.
    + cbn. intros r' Hr'. apply count_none. destruct (Bool.eqb r r') eqn:E; [|discriminate].
      apply Bool.eqb_prop in E as <-. exact (no_fence s r H Ec).
    + discriminate.
    + cbn. repeat split; auto; [lia|]. rewrite Hr1. destruct (readyOf r (sy_owners s)) eqn:Er; [|reflexivity].
      destruct (co_ready _ Hcore r Er). congruence.
Qed.

Lemma reopen_good s r e s' : good s -> exec (CallReopen r) s = (e, s') -> good s'.
Proof.
  intros H He. cbn in He. unfold reopen in He. pose proof (gd_core s H) as Hcore.
  destruct (_ || _) eqn:E1; [by apply settle_failed in He|].
  destruct (ow_err (sy_owners s)); [by apply settle_same in He|].
  destruct (ow_ctxErr (sy_owners s)); [by apply settle_failed in He|].
  destruct (_ || _ || _) eqn:E2 in He; [by apply settle_failed in He|]. cbn in He. simplify_eq. bsplit.
  apply good_return; auto.
  - by apply core_notify, core_reopened.
  - destruct r; split; reflexivity.
  - destruct r; reflexivity.
  - intros th _. apply stay_notify; [destruct r; cbn; lia| |].
    + intros r' ? ? ? ?. destruct r, r'; cbn in *; try congruence; auto.
    + intros m Hne _. destruct m; cbn in Hne; congruence.
Qed.

Lemma maskOf_nonzero s : 0 <= s < 64 -> maskOf s <> 0.
Proof. intros Hs. rewrite maskOf_pow by exact Hs. pose proof (Z.pow_pos_nonneg 2 s). lia. Qed.

(** The common part of [FenceTerminal] and [FenceMeasurement]. *)
Lemma retain_good m t d s e s' :
  good s -> retainable t (sy_owners s) = true -> (m = true -> sy_handle s = None) ->
  handOut m t (settle doneEvent (THold m t)
    (holdLoop (maskOf (tn_slot t)) d (notifyLocked (retained m (maskOf (tn_slot t)) (sy_owners s)))) s) = (e, s') ->
  good s'.
Proof.
  intros H Hr Hh He. pose proof (gd_core s H) as Hcore.
  destruct (retainable_spec t _ Hcore Hr) as (Hreq & Hs & Hb & Ht & Hm & Hopen).
  pose proof (core_notify _ (core_retained m t _ Hcore Hr)) as Hc1.
  set (o1 := notifyLocked (retained m _ _)) in *.
  assert (Hz : forall m, heldOf m (sy_owners s) = 0) by (intros []; cbn; assumption).
  assert (Hs1 : stay (sy_owners s) o1 (sy_handle s)).
  { apply stay_notify; [destruct m; cbn; lia| |].
    - intros r' Hcl _ _ _. destruct (Hopen r'). congruence.
    - intros m' Hne _. exfalso. apply Hne. apply Hz. }
  assert (Hf1 : ow_limits o1 = ow_limits (sy_owners s) /\ ow_waiters o1 = ow_waiters (sy_owners s) /\
    heldOf m o1 = maskOf (tn_slot t) /\ (ow_measurementUsed (sy_owners s) = true \/ m = true -> ow_measurementUsed o1 = true) /\
    (m = false -> ow_measurementUsed o1 = ow_measurementUsed (sy_owners s)))
    by (unfold o1; destruct m; repeat split; cbn; intuition congruence).
  destruct Hf1 as (Hl1 & Hw1 & Hh1 & Hu1 & Hu1').
  (* the state o1 with the old threads is good, for any handle a new measurement gives *)
  assert (Hg1 : forall o', core o' -> stay o1 o' (sy_handle s) -> fixed o1 o' -> ow_waiters o' = ow_waiters o1 ->
    good (mkSys o' (sy_threads s) (sy_handle s))).
  { intros o' Hc' Hst [Hl' Hu'] Hw'. pose proof H as [G1 [G2 G2'] G3 G4 G5 G6].
    constructor; cbn [sy_owners sy_threads sy_handle]; auto.
    - rewrite Hw', Hl', Hw1, Hl1. auto.
    - eapply Forall_impl; [exact G5|]. intros th Hth. apply Hst, Hs1, Hth.
    - intros t' Ht'. destruct (G6 t' Ht'). rewrite Hu'. auto. }
  destruct (holdLoop _ d o1) as [out o'] eqn:Ehl.
  pose proof (holdLoop_spec _ d o1 out o' (sy_handle s) Hc1 Ehl) as Hspec. unfold handOut in He.
  destruct out as [[[]|e']|]; cbn in He.
  - destruct Hspec as (Ha & Hq & _ & ->).
    pose proof (Hg1 o1 Hc1 (stay_refl _ _) ltac:(split; reflexivity) eq_refl) as [G1 G2 G3 G4 G5 G6].
    destruct m; simplify_eq; [|constructor; assumption].
    constructor; cbn [sy_owners sy_threads sy_handle] in *; auto.
    + rewrite Forall_forall in *. intros th Hth. eapply tgood_handle; [|apply (G5 th Hth)].
      exact (no_hold s true H (Hz true) th Hth).
    + intros t' [= <-]. split; [exact Hs|]. apply Hu1. auto.
  - simplify_eq. destruct Hspec as (Hc' & Hs' & Hf' & Hw'). by apply Hg1.
  - simplify_eq. destruct Hspec as [-> Ha]. destruct (gd_waiters s H) as [Hw Hwl].
    apply good_snoc; auto.
    + cbn [isEnter]. lia.
    + rewrite Hl1, Hw1. exact Hwl.
    + discriminate.
    + intros m' _. apply count_none. apply (no_hold s m' H (Hz m')).
    + cbn. rewrite Hh1. repeat split; auto; [lia|by apply maskOf_nonzero].
Qed.

Lemma terminal_good s t d b e s' : good s -> exec (CallFenceTerminal t d b) s = (e, s') -> good s'.
Proof.
  intros H He. cbn in He. unfold FenceTerminal in He.
  destruct (ow_err (sy_owners s)); [by apply settle_same in He|].
  destruct (d || _); [by apply settle_failed in He|]. destruct (negb b); [by apply settle_failed in He|].
  destruct (negb (retainable t _)) eqn:Er; [by apply settle_failed in He|]. apply negb_false_iff in Er.
  apply (retain_good false t d s e s' H Er); [discriminate|]. cbn zeta in He. unfold handOut.
  change (retained false _ _) with ((sy_owners s) <| ow_terminal := maskOf (tn_slot t) |>
    <| ow_paused := true |> <| ow_requestsFenced := true |>).
  destruct (fst _) as [|[|]| |]; exact He.
Qed.

Lemma handOut_failed m t x asl s e s' :
  good s -> handOut m t (settle doneEvent asl (failed x (sy_owners s)) s) = (e, s') -> good s'.
Proof.
  intros H He. destruct (settle doneEvent asl _ s) as [e0 s0] eqn:E.
  pose proof (settle_failed _ _ _ _ _ _ H E) as Hg. unfold handOut in He. cbn [fst snd] in He.
  unfold failed in E. destruct (failLocked x _) as [e1 o1]. cbn in E. simplify_eq. exact Hg.
Qed.

Lemma measurement_good s t d b e s' : good s -> exec (CallFenceMeasurement t d b) s = (e, s') -> good s'.
Proof.
  intros H He. cbn [exec] in He. unfold FenceMeasurement in He.
  destruct (ow_err (sy_owners s)) eqn:Ee.
  { cbn in He. simplify_eq. apply good_preserves; [exact H|]. apply preserves_refl, gd_core, H. }
  destruct (d || _); [by apply handOut_failed in He|]. destruct (negb b); [by apply handOut_failed in He|].
  destruct (_ || _) eqn:Er in He; [by apply handOut_failed in He|]. bsplit.
  apply (retain_good true t d s e s'); auto.
  intros _. destruct (sy_handle s) as [t'|] eqn:Eh; [|reflexivity].
  destruct (gd_handle s H t' Eh). congruence.
Qed.

Lemma resume_good s c e s' : good s -> exec (CallMeasurementResume c) s = (e, s') -> good s'.
Proof.
  intros H He. cbn in He. destruct (sy_handle s) as [t|] eqn:Eh; [|by simplify_eq].
  unfold MeasurementResume in He. destruct (negb _) eqn:Ev; [by apply settle_failed in He|].
  apply negb_false_iff in Ev. unfold validLocked in Ev. bsplit. cbn in He. simplify_eq.
  pose proof (gd_core s H) as Hcore. destruct (gd_handle s H t Eh) as [Hslot _].
  apply good_return; auto.
  - by apply core_notify, core_released.
  - split; reflexivity.
  - intros th Hth. apply stay_notify; [cbn; lia| |].
    + intros r _ _ _ Hm. exfalso. apply (maskOf_nonzero _ Hslot). congruence.
    + intros [] Hne Hn; cbn in *; [specialize (Hn eq_refl)|]; congruence.
Qed.

Lemma enter_good s n d e s' : good s -> exec (CallEnter n d) s = (e, s') -> good s'.
Proof.
  intros H He. cbn in He. unfold Enter in He. destruct n; [by apply settle_failed in He|].
  destruct (enterLoop false d (sy_owners s)) as [out o'] eqn:El.
  destruct (enterLoop_spec _ _ _ _ _ (sy_handle s) (gd_core s H) El) as (Hc & Hs & Hf & Hout).
  destruct out as [r|]; cbn in He; simplify_eq.
  - apply good_return; auto. lia.
  - destruct Hout as (Hp & Hw & Hne). destruct (gd_waiters s H) as [Hw0 Hwl]. destruct Hf as [Hl Hu].
    apply good_snoc; auto; cbn.
    + rewrite Hl. lia.
    + congruence.
    + discriminate.
    + discriminate.
    + split; [lia|auto].
Qed.

Lemma wake_good s i d e s' : good s -> exec (Wake i d) s = (e, s') -> good s'.
Proof.
  intros H He. cbn [exec] in He. destruct (sy_threads s !! i) as [th|] eqn:Ei; [|by simplify_eq].
  pose proof (thread_good s th H (list_elem_of_lookup_2 _ _ _ Ei)) as Hth. pose proof (gd_core s H) as Hcore.
  destruct th as [seen|r seen|m t seen|]; [| | |by simplify_eq]; (destruct (woken seen d _); [|by simplify_eq]).
  - destruct (enterLoop true d (sy_owners s)) as [out o'] eqn:El.
    destruct (enterLoop_spec _ _ _ _ _ (sy_handle s) Hcore El) as (Hc & Hs & Hf & Hout).
    destruct out as [r|]; cbn in He; simplify_eq.
    + apply (good_insert s i _ _ o' H Ei); auto; try (intros []; cbn; lia); try (cbn; lia); cbn; auto.
    + destruct Hout as [Hp ->]. apply (good_insert s i _ _ _ H Ei); auto; try (intros []; cbn; lia); try (cbn; lia).
      cbn. split; [lia|auto].
  - destruct Hth as (_ & Hcl & Hr & Ht & Hm & _).
    destruct (fenceLoop r d (sy_owners s)) as [out o'] eqn:El.
    pose proof (fenceLoop_spec r d _ out o' (sy_handle s) Hcore Hcl Ht Hm El) as Hspec.
    destruct out as [[[]|e']|]; cbn in He; simplify_eq.
    + destruct Hspec as [Ha ->].
      apply (good_insert s i _ _ _ H Ei); try (intros []; cbn; lia); try (cbn; lia); try exact I.
      * by apply core_setReady.
      * destruct r; split; reflexivity.
      * destruct r; cbn; lia.
      * intros r'. cbn. destruct (Bool.eqb r r'); lia.
      * intros j x Hne Hx Hg. apply tgood_ready; auto.
        apply (count_other _ _ i j _ x (isFence_indicator r) (gd_fence s H r) Ei); auto. cbn.
        by rewrite Bool.eqb_reflx.
    + destruct Hspec as (Hc' & Hs' & Hf' & Hw').
      apply (good_insert s i _ _ _ H Ei); auto; try (intros []; cbn; lia); cbn; auto; try lia.
      intros r'. destruct (Bool.eqb r r'); lia.
    + destruct Hspec as [-> Ha]. apply (good_insert s i _ _ _ H Ei); auto; try (cbn; lia).
      * split; reflexivity.
      * cbn. repeat split; auto; lia.
  - destruct Hth as (_ & Hh & Hne & Hnone & _).
    destruct (holdLoop (maskOf (tn_slot t)) d (sy_owners s)) as [out o'] eqn:El.
    pose proof (holdLoop_spec _ d _ out o' (sy_handle s) Hcore El) as Hspec.
    assert (Hdone : forall o', preserves (sy_owners s) o' (sy_handle s) ->
      good (mkSys o' (<[i := TDone]> (sy_threads s)) (sy_handle s))).
    { intros o1 (Hc' & Hs' & Hf' & Hw'). apply (good_insert s i _ _ _ H Ei); auto; cbn; auto; try lia.
      intros m'. destruct (Bool.eqb m m'); lia. }
    destruct out as [[[]|e']|]; unfold handOut in He; cbn in He.
    + destruct Hspec as (_ & _ & _ & ->). pose proof (Hdone _ (preserves_refl _ _ Hcore)) as [G1 G2 G3 G4 G5 G6].
      destruct m; simplify_eq; [|constructor; assumption].
      specialize (Hnone eq_refl).
      constructor; cbn [sy_owners sy_threads sy_handle] in *; auto.
      * apply Forall_lookup_2. intros j x Hx. eapply tgood_handle; [|exact (Forall_lookup_1 _ _ _ _ G5 Hx)].
        destruct (lookup_insert_cases _ _ _ _ _ _ Ei Hx) as [[-> ->]|[Hj Hx']]; [reflexivity|].
        apply (count_other _ _ i j _ x (isHold_indicator true) (gd_hold s H true) Ei); auto.
      * intros t' [= <-].
        split; [apply maskOf_slot; cbn in Hh, Hne; congruence|]. exact (co_used _ Hcore Hne).
    + simplify_eq. auto.
    + simplify_eq. destruct Hspec as [-> Ha]. apply (good_insert s i _ _ _ H Ei); auto; try (cbn; lia).
      * split; reflexivity.
      * cbn. repeat split; auto; lia.
Qed.

Lemma End_fixed t o : fixed o (End t o) /\ ow_waiters (End t o) = ow_waiters o.
Proof.
  assert (Hf : forall e, fixed o (snd (failLocked e o)) /\ ow_waiters (snd (failLocked e o)) = ow_waiters o).
  { intros e. destruct (failLocked_frame e o) as (F & W & _). unfold frame in F. unfold fixed. split; [split; congruence|exact W]. }
  unfold End. destruct (negb _); [apply Hf|]. destruct (_ && _); [apply Hf|]. cbn zeta.
  destruct (_ || _); destruct (tn_request t); repeat split.
Qed.

Lemma exec_good a s e s' : good s -> exec a s = (e, s') -> good s'.
Proof.
  intros H He. destruct a as [n d|n d|t|r n d|r|t d b|t d b|c|i d|].
  - eapply enter_good; eauto.
  - cbn in He. destruct (EnterRequest n d (sy_owners s)) as [out o'] eqn:E.
    destruct (EnterRequest_spec _ _ _ _ _ (sy_handle s) (gd_core s H) E) as [Hns Hp].
    destruct out; [|congruence]. cbn in He. simplify_eq. by apply good_preserves.
  - cbn in He. simplify_eq. destruct (stay_End t _ (sy_handle s) (gd_core s H)) as [Hc Hs].
    destruct (End_fixed t (sy_owners s)). apply good_return; auto.
  - eapply fence_good; eauto.
  - eapply reopen_good; eauto.
  - eapply terminal_good; eauto.
  - eapply measurement_good; eauto.
  - eapply resume_good; eauto.
  - eapply wake_good; eauto.
  - cbn in He. simplify_eq. pose proof (gd_core s H) as Hc.
    apply good_return; auto; try (repeat split; fail).
    + apply (core_frame (sy_owners s)); auto.
    + intros th _. apply stay_quiet; auto; discriminate.
Qed.

(** The states a barrier reaches from its construction. *)
Definition reachable (s : sys) : Prop :=
  exists limits o ops es, NewOwners false limits = Ok o /\ execs ops (mkSys o [] None) = (es, s).

Lemma new_good limits o : NewOwners false limits = Ok o -> good (mkSys o [] None).
Proof.
  unfold NewOwners. destruct (_ || _) eqn:E; [discriminate|]. intros [= <-]. bsplit. split.
  - constructor.
    + intros []; cbn; lia.
    + intros []; reflexivity.
    + intros r i g Hi. assert (Hr : replicate 64 (0 : Z) !! i = Some g) by (destruct r; exact Hi).
      apply lookup_replicate in Hr as [-> _]. unfold MaxUint64. lia.
    + intros [] i _; cbn; rewrite Z.testbit_0_l; discriminate.
    + intros []; discriminate.
    + intros m Hm Hne. cbn in Hm. exfalso. destruct Hm; congruence.
    + left. reflexivity.
    + intros Hx. exfalso. by apply Hx.
    + intros Hx. exfalso. by apply Hx.
  - cbn. lia.
  - intros r. cbn. lia.
  - intros m. cbn. lia.
  - constructor.
  - discriminate.
Qed.

Lemma execs_good ops s es s' : good s -> execs ops s = (es, s') -> good s'.
Proof.
  revert s es; induction ops as [|a ops IH]; intros s es H He; cbn in He; simplify_eq; [exact H|].
  destruct (exec a s) as [e s1] eqn:E. destruct (execs ops s1) as [es1 s2] eqn:E2. simplify_eq.
  eapply IH; [|exact E2]. eapply exec_good; eauto.
Qed.

Lemma reachable_good s : reachable s -> good s.
Proof. intros (limits & o & ops & es & Hn & He). eapply execs_good; [|exact He]. by apply (new_good limits). Qed.

(** ** Slots change only by entering and ending *)
Definition slots (o : Owners) :=
  (ow_limits o, ow_active o, ow_requests o, ow_generations o, ow_requestGenerations o).

Lemma slots_fail e o : slots (snd (failLocked e o)) = slots o.
Proof. destruct (failLocked_frame e o) as (F & _). unfold frame in F. unfold slots. congruence. Qed.

(** The turn a step may end. *)
Definition endsOf (a : op) : option OwnerTurn := match a with CallEnd t => Some t | _ => None end.

Section Steps.
Context (ending : option OwnerTurn).

(** What a step does to the slots: nothing, one entry, or the end of the
    turn it was called for. *)
Definition slotStep (s : sys) (e : event) (s' : sys) : Prop :=
  (slots (sy_owners s') = slots (sy_owners s) /\ (forall t, e <> Issued t)) \/
  (exists r slot g, closedOf r (sy_owners s) = false /\ 0 <= slot < limitOf r (sy_owners s) /\
     Z.testbit (activeOf r (sy_owners s)) slot = false /\
     generationsOf r (sy_owners s) !! Z.to_nat slot = Some g /\ 0 <= g < MaxUint64 /\
     e = Issued (mkTurn (g + 1) slot r) /\ slots (sy_owners s') = slots (entered r slot g (sy_owners s))) \/
  (exists t, ending = Some t /\ holds t (sy_owners s) = true /\ (forall t, e <> Issued t) /\
     (tn_request t = false -> ow_terminal (sy_owners s) <> maskOf (tn_slot t) /\
        ow_measurement (sy_owners s) <> maskOf (tn_slot t)) /\
     slots (sy_owners s') = slots (ended t (sy_owners s))).

Lemma failed_slots {A} x o (out : outcome A) o' :
  failed x o = (out, o') -> (exists e', out = Return (Err e')) /\ slots o' = slots o.
Proof.
  unfold failed. pose proof (slots_fail x o) as H. destruct (failLocked x o) as [e1 o1].
  intros [= <- <-]. split; [eauto|exact H].
Qed.

Lemma enterLocked_slots r o out o' h ts :
  core o -> closedOf r o = false -> enterLocked r o = (out, o') ->
  exists res, out = Return res /\
  forall o'' ts' h', slots o'' = slots o' -> slotStep (mkSys o ts h) (turnEvent res) (mkSys o'' ts' h').
Proof.
  intros H Hc He. destruct (enterLocked_cases r o H) as [E|(slot & g & Hs & Hb & Hg & Hgr & E)]; rewrite E in He.
  - destruct (failed_slots _ _ _ _ He) as [[e' ->] Hsl]. eexists. split; [reflexivity|]. intros o'' ts' h' Ho. left.
    split; [cbn; congruence|discriminate].
  - injection He as <- <-. eexists. split; [reflexivity|]. intros o'' ts' h' Ho. right; left. exists r, slot, g. auto 10.
Qed.

(** [p] keeps the slots, and a terminal turn once there is one. *)
Definition keeps {A} (o : Owners) (p : outcome A * Owners) : Prop :=
  slots (snd p) = slots o /\ (ow_terminal o <> 0 -> ow_terminal (snd p) = ow_terminal o).

Lemma keeps_failed {A} x o o1 : slots o1 = slots o -> ow_terminal o1 = ow_terminal o -> keeps o (@failed A x o1).
Proof.
  intros Hs Ht. unfold failed, keeps. pose proof (slots_fail x o1) as H.
  destruct (failLocked_frame x o1) as (F & _). unfold frame in F.
  destruct (failLocked x o1) as [e o2]. cbn in *. split; [congruence|]. intros _. congruence.
Qed.
Lemma keeps_same {A} (out : outcome A) o o1 :
  slots o1 = slots o -> (ow_terminal o <> 0 -> ow_terminal o1 = ow_terminal o) -> keeps o (out, o1).
Proof. intros Hs Ht. split; assumption. Qed.

Lemma keeps_fenceLoop r d o o1 :
  slots o1 = slots o -> ow_terminal o1 = ow_terminal o -> keeps o (fenceLoop r d o1).
Proof.
  intros Hs Ht. unfold fenceLoop. destruct (ow_err o1); [apply keeps_same; auto|].
  destruct (_ || _); [apply keeps_failed; auto|]. destruct (_ =? 0); [|apply keeps_same; auto].
  apply keeps_same; destruct r; cbn; auto.
Qed.
Lemma keeps_holdLoop m d o o1 :
  slots o1 = slots o -> (ow_terminal o <> 0 -> ow_terminal o1 = ow_terminal o) -> keeps o (holdLoop m d o1).
Proof.
  intros Hs Ht. unfold holdLoop. destruct (ow_err o1); [apply keeps_same; auto|].
  destruct (_ || _); [|destruct (_ && _); apply keeps_same; auto].
  unfold failed, keeps. pose proof (slots_fail ErrCanceled o1) as H.
  destruct (failLocked_frame ErrCanceled o1) as (F & _). unfold frame in F.
  destruct (failLocked ErrCanceled o1) as [e o2]. cbn in *. split; [congruence|]. intros Hne. rewrite <- Ht by exact Hne. congruence.
Qed.

Lemma keeps_fence r n d o : keeps o (fence r n d o).
Proof.
  unfold fence. destruct (_ || _); [by apply keeps_failed|]. destruct n; [by apply keeps_failed|].
  destruct (closedOf r o); [by apply keeps_failed|]. apply keeps_fenceLoop; destruct r; reflexivity.
Qed.
Lemma keeps_reopen r o : keeps o (reopen r o).
Proof.
  unfold reopen. destruct (_ || _); [by apply keeps_failed|]. destruct (ow_err o); [by apply keeps_same|].
  destruct (ow_ctxErr o); [by apply keeps_failed|]. destruct (_ || _ || _); [by apply keeps_failed|].
  apply keeps_same; destruct r; auto.
Qed.
Lemma keeps_terminal t d b o : core o -> keeps o (FenceTerminal t d b o).
Proof.
  intros H. unfold FenceTerminal. destruct (ow_err o); [by apply keeps_same|].
  destruct (_ || _); [by apply keeps_failed|]. destruct (negb b); [by apply keeps_failed|].
  destruct (negb (retainable t o)) eqn:E; [by apply keeps_failed|]. apply negb_false_iff in E.
  destruct (retainable_spec t o H E) as (_ & _ & _ & Ht & _).
  apply keeps_holdLoop; [reflexivity|]. intros Hne. contradiction.
Qed.
Lemma keeps_measurement t d b o : keeps o (FenceMeasurement t d b o).
Proof.
  unfold FenceMeasurement. destruct (ow_err o); [by apply keeps_same|].
  destruct (_ || _); [by apply keeps_failed|]. destruct (negb b); [by apply keeps_failed|].
  destruct (_ || _); [by apply keeps_failed|]. by apply keeps_holdLoop.
Qed.
Lemma keeps_resume t c o : keeps o (MeasurementResume t c o).
Proof. unfold MeasurementResume. destruct (negb _); [by apply keeps_failed|by apply keeps_same]. Qed.

(** Steps that issue no turn. *)
Lemma done_slots asl p s e s' :
  keeps (sy_owners s) p -> settle doneEvent asl p s = (e, s') ->
  slots (sy_owners s') = slots (sy_owners s) /\ (forall t, e <> Issued t) /\
  (ow_terminal (sy_owners s) <> 0 -> ow_terminal (sy_owners s') = ow_terminal (sy_owners s)).
Proof.
  intros [Hs Ht] He. destruct p as [[[[]|e']|] o']; cbn in *; injection He as <- <-; cbn;
    (split; [assumption|]; split; [discriminate|assumption]).
Qed.
Lemma redone_slots asl p i s e s' :
  keeps (sy_owners s) p -> resettle doneEvent asl p i s = (e, s') ->
  slots (sy_owners s') = slots (sy_owners s) /\ (forall t, e <> Issued t) /\
  (ow_terminal (sy_owners s) <> 0 -> ow_terminal (sy_owners s') = ow_terminal (sy_owners s)).
Proof.
  intros [Hs Ht] He. destruct p as [[[[]|e']|] o']; cbn in *; injection He as <- <-; cbn;
    (split; [assumption|]; split; [discriminate|assumption]).
Qed.
Lemma handOut_fields m t p : fst (handOut m t p) = fst p /\ sy_owners (snd (handOut m t p)) = sy_owners (snd p).
Proof. unfold handOut. destruct p as [[|[]| |] s]; cbn; auto. destruct m; auto. Qed.

Lemma enterLoop_slots parked d s out o' :
  good s -> enterLoop parked d (sy_owners s) = (out, o') ->
  match out with
  | Return r => forall ts h, slotStep s (turnEvent r) (mkSys o' ts h)
  | Sleep => slots o' = slots (sy_owners s)
  end /\ ow_terminal o' = ow_terminal (sy_owners s).
Proof.
  intros H. unfold enterLoop. cbn zeta. pose proof (gd_core s H) as Hcore.
  assert (Hleft : forall r o', slots o' = slots (sy_owners s) -> (forall t, turnEvent r <> Issued t) ->
    forall ts h, slotStep s (turnEvent r) (mkSys o' ts h)) by (intros; left; auto).
  assert (Herr : forall e, (if parked then (Return (Err e), (sy_owners s) <| ow_waiters ::= fun w => w - 1 |>)
      else (Return (Err e), sy_owners s)) = (out, o') ->
      match out with Return r => forall ts h, slotStep s (turnEvent r) (mkSys o' ts h)
      | Sleep => slots o' = slots (sy_owners s) end /\ ow_terminal o' = ow_terminal (sy_owners s)).
  { intros e. destruct parked; intros [= <- <-]; (split; [apply Hleft; [reflexivity|discriminate]|reflexivity]). }
  destruct (ow_err (sy_owners s)); [apply Herr|]. destruct d; [apply Herr|].
  destruct (ow_ctxErr (sy_owners s)); [apply Herr|]. destruct (ow_paused (sy_owners s)) eqn:Ep; cbn [negb].
  - destruct parked; [intros [= <- <-]; auto|]. destruct (_ =? _); [|intros [= <- <-]; auto].
    intros He. destruct (failed_slots _ _ _ _ He) as [[e' ->] Hs].
    split; [apply Hleft; [exact Hs|discriminate]|]. unfold failed in He.
    destruct (failLocked_frame ErrLimit (sy_owners s)) as (F & _). unfold frame in F.
    destruct (failLocked ErrLimit _). injection He as _ <-. cbn in F. congruence.
  - destruct (enterLocked false (sy_owners s)) as [out1 o1] eqn:El.
    destruct (enterLocked_slots false _ _ _ (sy_handle s) (sy_threads s) Hcore Ep El) as (r & -> & Hsp).
    assert (Ht1 : ow_terminal o1 = ow_terminal (sy_owners s)).
    { destruct (enterLocked_cases false _ Hcore) as [E|(sl & g & _ & _ & _ & _ & E)]; rewrite E in El.
      - unfold failed in El. destruct (failLocked_frame ErrLimit (sy_owners s)) as (F & _). unfold frame in F.
        destruct (failLocked ErrLimit _). injection El as _ <-. cbn in F. congruence.
      - injection El as _ <-. reflexivity. }
    destruct s as [o ts0 h0]. destruct parked; intros [= <- <-]; (split; [intros ts h; apply Hsp; reflexivity|exact Ht1]).
Qed.

Lemma End_slots t s :
  ending = Some t ->
  slotStep s (Finished None) (mkSys (End t (sy_owners s)) (sy_threads s) (sy_handle s)) /\
  ow_terminal (End t (sy_owners s)) = ow_terminal (sy_owners s).
Proof.
  intros Hending.
  assert (Hf : forall x, slots (snd (failLocked x (sy_owners s))) = slots (sy_owners s) /\
    ow_terminal (snd (failLocked x (sy_owners s))) = ow_terminal (sy_owners s)).
  { intros x. split; [apply slots_fail|]. destruct (failLocked_frame x (sy_owners s)) as (F & _).
    unfold frame in F. congruence. }
  unfold End. cbn zeta. destruct (negb (holds t _)) eqn:Eh.
  { destruct (Hf ErrProtocol) as [H1 H2]. split; [left; split; [exact H1|discriminate]|exact H2]. }
  apply negb_false_iff in Eh. destruct (negb (tn_request t) && _) eqn:Er.
  { destruct (Hf ErrProtocol) as [H1 H2]. split; [left; split; [exact H1|discriminate]|exact H2]. }
  change (setActive _ _ _) with (ended t (sy_owners s)).
  destruct (ended_fields t (sy_owners s) true) as (_ & _ & _ & _ & _ & E6 & _).
  split; [right; right|match goal with |- ow_terminal (if ?b then _ else _) = _ => destruct b end; exact E6].
  exists t. split; [exact Hending|]. split; [exact Eh|]. split; [discriminate|]. split.
  - intros Hq. rewrite Hq in Er. cbn in Er. bsplit. auto.
  - cbn [sy_owners]. match goal with |- slots (if ?b then _ else _) = _ => destruct b end; reflexivity.
Qed.

Definition stepKeeps (s : sys) (e : event) (s' : sys) : Prop :=
  slotStep s e s' /\
  (ow_terminal (sy_owners s) <> 0 -> ow_terminal (sy_owners s') = ow_terminal (sy_owners s)).

Lemma stepKeeps_idle s e s' :
  slots (sy_owners s') = slots (sy_owners s) -> (forall t, e <> Issued t) ->
  (ow_terminal (sy_owners s) <> 0 -> ow_terminal (sy_owners s') = ow_terminal (sy_owners s)) -> stepKeeps s e s'.
Proof. intros H1 H2 H3. split; [left; auto|exact H3]. Qed.

Lemma stepKeeps_done asl p s e s' :
  keeps (sy_owners s) p -> settle doneEvent asl p s = (e, s') -> stepKeeps s e s'.
Proof. intros Hk Hp. destruct (done_slots _ _ _ _ _ Hk Hp) as (H1 & H2 & H3). by apply stepKeeps_idle. Qed.
Lemma stepKeeps_redone asl p i s e s' :
  keeps (sy_owners s) p -> resettle doneEvent asl p i s = (e, s') -> stepKeeps s e s'.
Proof. intros Hk Hp. destruct (redone_slots _ _ _ _ _ _ Hk Hp) as (H1 & H2 & H3). by apply stepKeeps_idle. Qed.
Lemma stepKeeps_handOut m t q s e s' :
  handOut m t q = (e, s') -> stepKeeps s (fst q) (snd q) -> stepKeeps s e s'.
Proof.
  intros Hq. destruct (handOut_fields m t q) as [F1 F2]. rewrite Hq in F1, F2. cbn in F1, F2.
  unfold stepKeeps, slotStep. rewrite F2, F1. auto.
Qed.
Lemma stepKeeps_failed x s e s' :
  settle turnEvent TEnter (failed x (sy_owners s)) s = (e, s') -> stepKeeps s e s'.
Proof.
  intros Hx. destruct (keeps_failed (A := OwnerTurn) x (sy_owners s) (sy_owners s) eq_refl eq_refl) as [E2 E3].
  unfold failed in *. destruct (failLocked x (sy_owners s)) as [e1 o']. cbn in E2, E3, Hx. injection Hx as <- <-.
  by apply stepKeeps_idle.
Qed.
Lemma stepKeeps_refused x s e s' :
  settle turnEvent TEnter (Return (Err x), sy_owners s) s = (e, s') -> stepKeeps s e s'.
Proof. intros Hx. cbn in Hx. injection Hx as <- <-. by apply stepKeeps_idle. Qed.

Lemma EnterRequest_slots n d s e s' :
  good s -> exec (CallEnterRequest n d) s = (e, s') -> stepKeeps s e s'.
Proof.
  intros H He. cbn [exec] in He. unfold EnterRequest in He.
  destruct n; [by apply stepKeeps_failed in He|]. destruct (ow_err (sy_owners s)); [by apply stepKeeps_refused in He|].
  destruct d; [by apply stepKeeps_refused in He|]. destruct (ow_ctxErr (sy_owners s)); [by apply stepKeeps_refused in He|].
  destruct (ow_requestsFenced (sy_owners s)) eqn:Ef; [by apply stepKeeps_refused in He|].
  destruct (enterLocked_cases true _ (gd_core s H)) as [E|(sl & g & Hs & Hb & Hg & Hgr & E)]; rewrite E in He.
  - by apply stepKeeps_failed in He.
  - cbn in He. injection He as <- <-. split; [|auto]. right; left. exists true, sl, g. auto 10.
Qed.

Lemma Wake_slots i d s e s' : good s -> exec (Wake i d) s = (e, s') -> stepKeeps s e s'.
Proof.
  intros H He. cbn [exec] in He.
  assert (Hidle : (Idle, s) = (e, s') -> stepKeeps s e s') by (intros [= <- <-]; by apply stepKeeps_idle).
  destruct (sy_threads s !! i) as [th|]; [|auto].
  destruct th as [seen|r seen|m t seen|]; auto; (destruct (woken seen d _); [|auto]).
  - destruct (enterLoop true d (sy_owners s)) as [out o'] eqn:El.
    destruct (enterLoop_slots _ _ s _ _ H El) as [Hsp Ht].
    destruct out as [r|]; cbn in He; injection He as <- <-; [split; [apply Hsp|auto]|by apply stepKeeps_idle].
  - by apply stepKeeps_redone in He; [|apply keeps_fenceLoop].
  - apply (stepKeeps_handOut _ _ _ _ _ _ He).
    apply (stepKeeps_redone (THold m t) (holdLoop (maskOf (tn_slot t)) d (sy_owners s)) i);
      [by apply keeps_holdLoop|apply surjective_pairing].
Qed.

End Steps.

Lemma exec_slots a s e s' : good s -> exec a s = (e, s') -> stepKeeps (endsOf a) s e s'.
Proof.
  intros H He. destruct a as [n d|n d|t|r n d|r|t d b|t d b|c|i d|].
  - cbn [exec] in He. unfold Enter in He. destruct n; [by apply (stepKeeps_failed None) in He|].
    destruct (enterLoop false d (sy_owners s)) as [out o'] eqn:El.
    destruct (enterLoop_slots None _ _ s _ _ H El) as [Hsp Ht].
    destruct out as [r|]; cbn in He; injection He as <- <-; [split; [apply Hsp|auto]|by apply stepKeeps_idle].
  - eapply EnterRequest_slots; eauto.
  - cbn in He. injection He as <- <-. destruct (End_slots (Some t) t s eq_refl). split; auto.
  - eapply (stepKeeps_done None); [apply keeps_fence|exact He].
  - eapply stepKeeps_done; [apply keeps_reopen|exact He].
  - eapply stepKeeps_done; [apply keeps_terminal, gd_core, H|exact He].
  - apply (stepKeeps_handOut _ _ _ _ _ _ _ He).
    apply (stepKeeps_done _ (THold true t) (FenceMeasurement t d b (sy_owners s)));
      [apply keeps_measurement|apply surjective_pairing].
  - cbn [exec] in He. destruct (sy_handle s) as [t|].
    + eapply stepKeeps_done; [apply keeps_resume|exact He].
    + injection He as <- <-. by apply stepKeeps_idle.
  - eapply Wake_slots; eauto.
  - injection He as <- <-. by apply stepKeeps_idle.
Qed.
