(* ===== verification/OwnersTheorems.v ===== *)
(** * The owner barrier: theorems

    What holds of every interleaving of calls on the barrier: turns occupy
    their slots alone and end once, a drained side stays empty, no wake-up is
    lost, and a terminal fence isolates its turn for good. *)
From S2P Require Import Prelude OwnersBarrier OwnersInvariant.

(** ** Holding a slot *)
Lemma holds_iff t o :
  core o -> holds t o = true <->
  0 <= tn_slot t < 64 /\ Z.testbit (activeOf (tn_request t) o) (tn_slot t) = true /\
  generationsOf (tn_request t) o !! Z.to_nat (tn_slot t) = Some (tn_generation t).
Proof.
  intros H. split.
  - intros Hh. destruct (holds_spec t o H Hh) as (Hs & Hb & Hg).
    pose proof (co_limit o H (tn_request t)). repeat split; auto; lia.
  - intros (Hs & Hb & Hg). unfold holds.
    destruct (co_bits o H _ _ (proj1 Hs) Hb) as (_ & g & Hg' & Hpos). simplify_eq.
    rewrite land_maskOf, Hb, (proj2 (Z.eqb_neq _ 0)) by lia. cbn. by apply bool_decide_eq_true.
Qed.

Lemma slots_sides o o' r :
  slots o' = slots o -> activeOf r o' = activeOf r o /\ generationsOf r o' = generationsOf r o /\
  limitOf r o' = limitOf r o.
Proof. unfold slots. intros [= E1 E2 E3 E4 E5]. unfold limitOf. rewrite E1. destruct r; auto. Qed.

Lemma holds_slots t o o' : slots o' = slots o -> holds t o' = holds t o.
Proof. intros E. unfold holds. destruct (slots_sides _ _ (tn_request t) E) as (-> & -> & _). reflexivity. Qed.

(** Entering adds exactly the new turn. *)
Lemma holds_entered r slot g o t :
  core o -> closedOf r o = false -> 0 <= slot < limitOf r o -> Z.testbit (activeOf r o) slot = false ->
  generationsOf r o !! Z.to_nat slot = Some g -> 0 <= g < MaxUint64 ->
  holds t (entered r slot g o) = true <-> holds t o = true \/ t = mkTurn (g + 1) slot r.
Proof.
  intros H Hc Hs Hb Hg Hgr. pose proof (co_limit o H r) as Hlim.
  rewrite (holds_iff t _ (core_entered r slot g o H Hc Hs Hg Hgr)), (holds_iff t o H).
  destruct (entered_fields r slot g o (tn_request t)) as (_ & _ & _ & -> & ->).
  destruct t as [tg ts tr]; cbn [tn_request tn_slot tn_generation].
  destruct (Bool.eqb tr r) eqn:Er.
  2: { split; [auto|]. intros [?|[= -> -> ->]]; [assumption|]. by rewrite Bool.eqb_reflx in Er. }
  apply Bool.eqb_prop in Er as ->. split.
  - intros (Hts & Hbit & Hgen). rewrite lor_mask_testbit in Hbit by lia.
    destruct (Z.eq_dec ts slot) as [->|Hne].
    + right. rewrite list_lookup_insert_eq in Hgen by (by apply lookup_lt_Some in Hg). congruence.
    + left. rewrite (proj2 (Z.eqb_neq _ _) Hne), orb_false_r in Hbit.
      rewrite list_lookup_insert_ne in Hgen by lia. auto.
  - intros [(Hts & Hbit & Hgen)|[= -> ->]].
    + assert (ts <> slot) by congruence. rewrite lor_mask_testbit, Hbit by lia.
      rewrite list_lookup_insert_ne by lia. auto.
    + rewrite lor_mask_testbit, Z.eqb_refl, orb_true_r by lia.
      rewrite list_lookup_insert_eq by (by apply lookup_lt_Some in Hg). repeat split; auto; lia.
Qed.

(** Ending removes exactly the ended turn. *)
Lemma holds_ended t' o t :
  core o -> holds t' o = true -> core (ended t' o) ->
  holds t (ended t' o) = true <-> holds t o = true /\ t <> t'.
Proof.
  intros H Hh Hc. rewrite (holds_iff t _ Hc), (holds_iff t o H).
  destruct (proj1 (holds_iff t' o H) Hh) as (Hs' & Hb' & Hg').
  destruct (ended_fields t' o (tn_request t)) as (_ & _ & _ & -> & -> & _).
  destruct t as [tg ts tr], t' as [tg' ts' tr']; cbn [tn_request tn_slot tn_generation] in *.
  destruct (Bool.eqb tr tr') eqn:Er.
  2: { split; [|tauto]. intros Hx. split; [exact Hx|]. intros [= -> -> ->]. by rewrite Bool.eqb_reflx in Er. }
  apply Bool.eqb_prop in Er as ->. split.
  - intros (Hts & Hbit & Hgen). rewrite ldiff_mask_testbit in Hbit by lia.
    apply andb_true_iff in Hbit as [Hbit Hne]. split; [auto|]. intros [= -> ->].
    rewrite Z.eqb_refl in Hne. discriminate.
  - intros [(Hts & Hbit & Hgen) Hne]. split; [exact Hts|]. split; [|exact Hgen].
    rewrite ldiff_mask_testbit, Hbit by lia. cbn. apply negb_true_iff, Z.eqb_neq. intros ->.
    apply Hne. congruence.
Qed.

(** The turns that hold a slot, after one step. *)
Lemma exec_holds a s e s' t :
  good s -> exec a s = (e, s') ->
  (holds t (sy_owners s') = true -> holds t (sy_owners s) = true \/ e = Issued t) /\
  (holds t (sy_owners s) = true -> holds t (sy_owners s') = true \/ a = CallEnd t) /\
  (e = Issued t -> holds t (sy_owners s) = false /\ holds t (sy_owners s') = true /\
     closedOf (tn_request t) (sy_owners s) = false).
Proof.
  intros H He. pose proof (gd_core s H) as Hcore.
  destruct (exec_slots a s e s' H He) as [[[Hsl Hni]|[(r & slot & g & Hc & Hs & Hb & Hg & Hgr & -> & Hsl)|
    (t' & Hend & Hh & Hni & Hnot & Hsl)]] _]; rewrite (holds_slots t _ _ Hsl).
  - split; [auto|]. split; [auto|]. intros ->. by destruct (Hni t).
  - rewrite holds_entered by assumption. split; [intros [?| ->]; auto|]. split; [auto|].
    intros [= <-]. cbn. split; [|auto]. apply not_true_iff_false. intros Hx.
    apply (holds_iff _ _ Hcore) in Hx as (_ & Hx & _). cbn in Hx. congruence.
  - pose proof (core_ended t' _ Hcore Hh Hnot) as Hcend.
    rewrite holds_ended by assumption. split; [tauto|]. split; [|intros ->; by destruct (Hni t)].
    intros Ht. destruct a; try discriminate. cbn in Hend. injection Hend as ->.
    destruct (decide (t = t')) as [->|]; [auto|]. left. auto.
Qed.

(** ** A side that has drained *)
Lemma ready_fail r e o : readyOf r (snd (failLocked e o)) = readyOf r o.
Proof. unfold failLocked. destruct (ow_err o); destruct r; reflexivity. Qed.

(** [p] keeps a side's readiness. *)
Definition keepsReady {A} (r : bool) (o : Owners) (p : outcome A * Owners) : Prop :=
  readyOf r o = true -> readyOf r (snd p) = true.
Lemma keepsReady_failed {A} r e o o1 : readyOf r o1 = readyOf r o -> keepsReady r o (@failed A e o1).
Proof.
  intros E H. unfold failed. pose proof (ready_fail r e o1) as F. destruct (failLocked e o1). cbn in *. congruence.
Qed.
Lemma keepsReady_same {A} r (out : outcome A) o o1 : readyOf r o1 = readyOf r o -> keepsReady r o (out, o1).
Proof. intros E H. cbn. congruence. Qed.
Local Hint Resolve keepsReady_failed keepsReady_same : core.

Lemma keepsReady_enterLocked r q o : keepsReady r o (enterLocked q o).
Proof. unfold enterLocked. cbn zeta. repeat case_match; auto. apply keepsReady_same. destruct q, r; reflexivity. Qed.
Lemma keepsReady_enterLoop r b d o : keepsReady r o (enterLoop b d o).
Proof.
  unfold enterLoop. cbn zeta. pose proof (keepsReady_enterLocked r false o) as He.
  destruct (ow_err o); [destruct b; apply keepsReady_same; destruct r; reflexivity|].
  destruct d; [destruct b; apply keepsReady_same; destruct r; reflexivity|].
  destruct (ow_ctxErr o); [destruct b; apply keepsReady_same; destruct r; reflexivity|].
  destruct (negb _).
  - destruct b; [|exact He]. intros H. specialize (He H). destruct (enterLocked false o). destruct r; exact He.
  - destruct b; [auto|]. destruct (_ =? _); [auto|]. apply keepsReady_same. destruct r; reflexivity.
Qed.
Lemma keepsReady_fenceLoop r q d o o1 :
  readyOf r o1 = readyOf r o -> keepsReady r o (fenceLoop q d o1).
Proof.
  intros E. unfold fenceLoop. repeat case_match; auto. intros Hready. cbn. destruct q, r; cbn in *; congruence.
Qed.
Lemma keepsReady_holdLoop r m d o o1 : readyOf r o1 = readyOf r o -> keepsReady r o (holdLoop m d o1).
Proof. intros E. unfold holdLoop. repeat case_match; auto. Qed.
Lemma keepsReady_fence r q n d o : keepsReady r o (fence q n d o).
Proof.
  unfold fence. repeat case_match; auto. apply keepsReady_fenceLoop. destruct q, r; reflexivity.
Qed.
Lemma keepsReady_reopen r q o : q <> r -> keepsReady r o (reopen q o).
Proof.
  intros Hne. unfold reopen. repeat case_match; auto. apply keepsReady_same. destruct q, r; try contradiction; reflexivity.
Qed.
Lemma keepsReady_terminal r t d b o : keepsReady r o (FenceTerminal t d b o).
Proof.
  unfold FenceTerminal. repeat case_match; auto. apply keepsReady_holdLoop. destruct r; reflexivity.
Qed.
Lemma keepsReady_measurement r t d b o : keepsReady r o (FenceMeasurement t d b o).
Proof.
  unfold FenceMeasurement. repeat case_match; auto. apply keepsReady_holdLoop. destruct r; reflexivity.
Qed.
Lemma keepsReady_resume r t c o : keepsReady r o (MeasurementResume t c o).
Proof. unfold MeasurementResume. repeat case_match; auto; apply keepsReady_same; destruct r; reflexivity. Qed.
Lemma keepsReady_request r n d o : keepsReady r o (EnterRequest n d o).
Proof. unfold EnterRequest. repeat case_match; auto. apply keepsReady_enterLocked. Qed.

Lemma settle_ready {A} (ev : res ownerErr A -> event) asl r p s :
  keepsReady r (sy_owners s) p -> readyOf r (sy_owners s) = true ->
  readyOf r (sy_owners (snd (settle ev asl p s))) = true.
Proof. intros H Hr. specialize (H Hr). destruct p as [[x|] o]; exact H. Qed.
Lemma resettle_ready {A} (ev : res ownerErr A -> event) asl r i p s :
  keepsReady r (sy_owners s) p -> readyOf r (sy_owners s) = true ->
  readyOf r (sy_owners (snd (resettle ev asl p i s))) = true.
Proof. intros H Hr. specialize (H Hr). destruct p as [[x|] o]; exact H. Qed.

Lemma End_ready r t o : readyOf r (End t o) = readyOf r o.
Proof.
  unfold End. cbn zeta. destruct (negb _); [apply ready_fail|]. destruct (_ && _); [apply ready_fail|].
  destruct (tn_request t), r; cbn; repeat case_match; reflexivity.
Qed.

Lemma exec_ready r a s :
  a <> CallReopen r -> readyOf r (sy_owners s) = true -> readyOf r (sy_owners (snd (exec a s))) = true.
Proof.
  intros Hne Hr. destruct a as [n d|n d|t|q n d|q|t d b|t d b|c|i d|]; cbn [exec].
  - apply settle_ready; [|exact Hr]. unfold Enter. destruct n; [auto|apply keepsReady_enterLoop].
  - apply settle_ready; [apply keepsReady_request|exact Hr].
  - cbn. rewrite End_ready. exact Hr.
  - apply settle_ready; [apply keepsReady_fence|exact Hr].
  - apply settle_ready; [apply keepsReady_reopen; congruence|exact Hr].
  - apply settle_ready; [apply keepsReady_terminal|exact Hr].
  - rewrite (proj2 (handOut_fields _ _ _)). apply settle_ready; [apply keepsReady_measurement|exact Hr].
  - destruct (sy_handle s); [|exact Hr]. apply settle_ready; [apply keepsReady_resume|exact Hr].
  - destruct (sy_threads s !! i) as [[seen|q seen|m t seen|]|]; try exact Hr;
      (destruct (woken seen d _); [|exact Hr]).
    + apply resettle_ready; [apply keepsReady_enterLoop|exact Hr].
    + apply resettle_ready; [by apply keepsReady_fenceLoop|exact Hr].
    + rewrite (proj2 (handOut_fields _ _ _)). apply resettle_ready; [by apply keepsReady_holdLoop|exact Hr].
  - destruct r; exact Hr.
Qed.

(** The fence whose return a step may be: a call of [Pause] ([false]) or
    [FenceRequests] ([true]), or the wake-up of one. *)
Definition isFenceOf (r : bool) (a : op) (s : sys) : bool :=
  match a with
  | CallFence q _ _ => Bool.eqb q r
  | Wake i _ => match sy_threads s !! i with Some (TFence q _) => Bool.eqb q r | _ => false end
  | _ => false
  end.

Lemma fenceLoop_ready r d o o' : fenceLoop r d o = (Return (Ok tt), o') -> readyOf r o' = true.
Proof.
  unfold fenceLoop, failed. destruct (ow_err o); [discriminate|].
  destruct (_ || _); [destruct (failLocked _ _); discriminate|].
  destruct (_ =? 0); [|discriminate]. intros [= <-]. destruct r; reflexivity.
Qed.

Lemma fence_returns_ready r a s s1 :
  isFenceOf r a s = true -> exec a s = (Finished None, s1) -> readyOf r (sy_owners s1) = true.
Proof.
  intros Ha He. destruct a as [| | |q n d| | | | |i d|]; try discriminate; cbn [exec isFenceOf] in *.
  - apply Bool.eqb_prop in Ha as ->. unfold fence, failed in He.
    destruct (_ || _) in He; [destruct (failLocked _ _) in He; discriminate|].
    destruct n; [destruct (failLocked _ _) in He; discriminate|].
    destruct (closedOf r _) in He; [destruct (failLocked _ _) in He; discriminate|].
    destruct (fenceLoop r d _) as [[[[]|e]|] o'] eqn:E; cbn in He; simplify_eq. by apply fenceLoop_ready in E.
  - destruct (sy_threads s !! i) as [[|q seen| |]|]; try discriminate. apply Bool.eqb_prop in Ha as ->.
    destruct (woken seen d _) in He; [|discriminate].
    destruct (fenceLoop r d _) as [[[[]|e]|] o'] eqn:E; cbn in He; simplify_eq. by apply fenceLoop_ready in E.
Qed.

Lemma ready_is_empty r s t :
  good s -> readyOf r (sy_owners s) = true -> tn_request t = r -> holds t (sy_owners s) = false.
Proof.
  intros H Hr <-. destruct (co_ready _ (gd_core s H) _ Hr) as [_ Ha]. unfold holds. rewrite Ha, Z.land_0_l.
  cbn. by rewrite andb_false_r.
Qed.

(** Drain safety: once [Pause] (or [FenceRequests]) has returned nil, no
    turn of that side holds a slot and none is admitted, whatever calls run,
    end, wake, fail or are canceled in between, until that side is reopened. *)
Theorem drained_side_stays_empty r s a s1 ops es s2 :
  reachable s -> isFenceOf r a s = true -> exec a s = (Finished None, s1) ->
  Forall (fun b => b <> CallReopen r) ops -> execs ops s1 = (es, s2) ->
  (forall t, tn_request t = r -> holds t (sy_owners s2) = false) /\
  (forall t, Issued t ∈ es -> tn_request t <> r).
Proof.
  intros Hre Ha He Hops Hes. pose proof (exec_good _ _ _ _ (reachable_good s Hre) He) as Hg.
  pose proof (fence_returns_ready r a s s1 Ha He) as Hr. clear -Hg Hr Hops Hes.
  revert s1 es Hg Hr Hes; induction Hops as [|b ops Hb _ IH]; intros s1 es Hg Hr Hes; cbn in Hes; simplify_eq.
  { split; [intros t; by apply ready_is_empty|]. intros t Hin. inversion Hin. }
  destruct (exec b s1) as [e s3] eqn:E. destruct (execs ops s3) as [es' s4] eqn:E'. simplify_eq.
  pose proof (exec_good _ _ _ _ Hg E) as Hg3.
  assert (Hr3 : readyOf r (sy_owners s3) = true).
  { pose proof (exec_ready r b s1 Hb Hr) as H. rewrite E in H. exact H. }
  destruct (IH s3 es' Hg3 Hr3 E') as [IH1 IH2]. split; [exact IH1|].
  intros t Hin. apply elem_of_cons in Hin as [<-|Hin]; [|auto]. intros <-.
  destruct (exec_holds b s1 _ s3 t Hg E) as (_ & _ & Hi). destruct (Hi eq_refl) as (_ & _ & Hc).
  destruct (co_ready _ (gd_core s1 Hg) _ Hr). congruence.
Qed.

(** Slots: in every reachable state a turn that holds a slot is within
    its side's limit and alone in it; a step admits at most the one turn it
    returns, which is new and enters an open side; and a turn loses its slot
    only by its own [End]. *)
Theorem slots_are_exclusive s a e s' t :
  reachable s -> exec a s = (e, s') ->
  (holds t (sy_owners s) = true ->
     0 <= tn_slot t < limitOf (tn_request t) (sy_owners s) /\
     (forall t', holds t' (sy_owners s) = true -> tn_request t' = tn_request t -> tn_slot t' = tn_slot t -> t' = t) /\
     (holds t (sy_owners s') = true \/ a = CallEnd t)) /\
  (holds t (sy_owners s') = true -> holds t (sy_owners s) = true \/ e = Issued t) /\
  (e = Issued t -> holds t (sy_owners s) = false /\ holds t (sy_owners s') = true /\
     closedOf (tn_request t) (sy_owners s) = false).
Proof.
  intros Hre He. pose proof (reachable_good s Hre) as Hg. pose proof (gd_core s Hg) as Hc.
  destruct (exec_holds a s e s' t Hg He) as (H1 & H2 & H3). split; [|auto].
  intros Hh. destruct (holds_spec t _ Hc Hh) as (Hs & _ & Hgen). split; [exact Hs|]. split; [|auto].
  intros t' Hh' Er Es. destruct (holds_spec t' _ Hc Hh') as (_ & _ & Hgen').
  rewrite Er, Es in Hgen'. destruct t, t'; cbn in *. congruence.
Qed.

(** ** Ended turns *)
Definition dead (t : OwnerTurn) (o : Owners) : Prop :=
  holds t o = false /\
  exists g, generationsOf (tn_request t) o !! Z.to_nat (tn_slot t) = Some g /\ tn_generation t <= g.

Lemma exec_dead a s e s' t :
  good s -> exec a s = (e, s') -> 0 <= tn_slot t -> dead t (sy_owners s) -> dead t (sy_owners s') /\ e <> Issued t.
Proof.
  intros H He Hts [Hh (g & Hg & Hle)]. pose proof (exec_holds a s e s' t H He) as (K1 & _ & K3).
  assert (Hni : e <> Issued t).
  { intros ->. destruct (exec_slots a s _ s' H He) as [[[_ Hni]|[(r & sl & g' & _ & _ & _ & Hg' & _ & Ei & _)|
      (t' & _ & _ & Hni & _)]] _]; try (by destruct (Hni t)).
    injection Ei as ->. cbn in *. simplify_eq. lia. }
  split; [|exact Hni]. split.
  { apply not_true_iff_false. intros Hx. destruct (K1 Hx); congruence. }
  destruct (exec_slots a s e s' H He) as [[[Hsl _]|[(r & sl & g' & Hc & Hs & Hb & Hg' & Hgr & _ & Hsl)|
    (t' & _ & Hh' & _ & Hnot & Hsl)]] _]; destruct (slots_sides _ _ (tn_request t) Hsl) as (_ & -> & _).
  - eauto.
  - destruct (entered_fields r sl g' (sy_owners s) (tn_request t)) as (_ & _ & _ & _ & ->).
    destruct (Bool.eqb _ r) eqn:Er; [|eauto]. apply Bool.eqb_prop in Er. rewrite Er in Hg.
    destruct (Z.eq_dec (tn_slot t) sl) as [Es|Hne].
    + rewrite Es in *. assert (g' = g) as -> by congruence. exists (g + 1). split; [|lia].
      apply list_lookup_insert_eq. by apply lookup_lt_Some in Hg.
    + exists g. split; [|exact Hle]. rewrite list_lookup_insert_ne by lia. exact Hg.
  - destruct (ended_fields t' (sy_owners s) (tn_request t)) as (_ & _ & _ & _ & -> & _). eauto.
Qed.

(** An ended turn is dead: once [End] has released a turn's slot, no
    copy of it ever holds a slot again and no later caller is given the same
    turn, so a stale [End] can only fail and never ends another turn. *)
Theorem ended_turn_stays_dead s t e s1 ops es s2 :
  reachable s -> holds t (sy_owners s) = true -> exec (CallEnd t) s = (e, s1) ->
  holds t (sy_owners s1) = false -> execs ops s1 = (es, s2) ->
  holds t (sy_owners s2) = false /\ ~ (Issued t ∈ es) /\
  ow_err (End t (sy_owners s2)) <> None /\
  forall t', holds t' (End t (sy_owners s2)) = holds t' (sy_owners s2).
Proof.
  intros Hre Hh He Hh1 Hes. pose proof (reachable_good s Hre) as Hg.
  pose proof (exec_good _ _ _ _ Hg He) as Hg1.
  destruct (proj1 (holds_iff t _ (gd_core s Hg)) Hh) as (Hs & _ & Hgen).
  assert (Hd : dead t (sy_owners s1)).
  { split; [exact Hh1|]. destruct (exec_slots _ s e s1 Hg He) as [[[Hsl _]|[(r & sl & g & Hc & _ & Hb & Hg' & _ & Ei & Hsl)|
      (t' & _ & _ & _ & _ & Hsl)]] _]; destruct (slots_sides _ _ (tn_request t) Hsl) as (_ & -> & _).
    - eauto using Z.le_refl.
    - cbn in He. congruence.
    - destruct (ended_fields t' (sy_owners s) (tn_request t)) as (_ & _ & _ & _ & -> & _). eauto using Z.le_refl. }
  assert (Hall : dead t (sy_owners s2) /\ ~ (Issued t ∈ es)).
  { clear -Hg1 Hd Hes Hs. revert s1 es Hg1 Hd Hes; induction ops as [|b ops IH]; intros s1 es Hg1 Hd Hes;
      cbn in Hes; simplify_eq; [split; [exact Hd|apply not_elem_of_nil]|].
    destruct (exec b s1) as [e1 s3] eqn:E. destruct (execs ops s3) as [es' s4] eqn:E'. simplify_eq.
    destruct (exec_dead b s1 e1 s3 t Hg1 E (proj1 Hs) Hd) as [Hd3 Hni].
    destruct (IH s3 es' (exec_good _ _ _ _ Hg1 E) Hd3 E') as [? ?]. split; [assumption|].
    apply not_elem_of_cons. auto. }
  destruct Hall as [[Hdead _] Hnin]. split; [exact Hdead|]. split; [exact Hnin|].
  unfold End. rewrite Hdead. cbn [negb]. split.
  - unfold failLocked. destruct (ow_err (sy_owners s2)) eqn:E; cbn; congruence.
  - intros t'. apply holds_slots, slots_fail.
Qed.

(** C15: no wake-up is lost: in every reachable state, a caller that sleeps
    and would not be woken by [changed] nor by a context has nothing to return
    for: running its loop again would put it back to sleep. *)
Theorem no_lost_wakeup s i th :
  reachable s -> sy_threads s !! i = Some th ->
  match th with
  | TEnter seen => woken seen false (sy_owners s) = false ->
      fst (enterLoop true false (sy_owners s)) = Sleep
  | TFence r seen => woken seen false (sy_owners s) = false ->
      fst (fenceLoop r false (sy_owners s)) = Sleep
  | THold m t seen => woken seen false (sy_owners s) = false ->
      fst (holdLoop (maskOf (tn_slot t)) false (sy_owners s)) = Sleep
  | TDone => True
  end.
Proof.
  intros Hre Hi. pose proof (reachable_good s Hre) as Hg.
  pose proof (thread_good s th Hg (list_elem_of_lookup_2 _ _ _ Hi)) as Hth.
  assert (Hw : forall seen, woken seen false (sy_owners s) = false ->
    asleep seen (sy_owners s) /\ ow_err (sy_owners s) = None /\ ow_ctxErr (sy_owners s) = false).
  { intros seen Hw. unfold woken in Hw. cbn in Hw. bsplit. split; [split; assumption|]. split; [|assumption].
    destruct (ow_err (sy_owners s)) eqn:E; [|reflexivity].
    pose proof (co_err _ (gd_core s Hg) ltac:(congruence)). congruence. }
  destruct th as [seen|r seen|m t seen|]; [| | |exact I]; intros Hs; destruct (Hw seen Hs) as (Ha & He & Hc); cbn in Hth.
  - destruct Hth as [_ Hp]. unfold enterLoop. rewrite He, Hc, (Hp Ha). reflexivity.
  - destruct Hth as (_ & _ & _ & _ & _ & Hp). unfold fenceLoop. rewrite He, Hc. cbn.
    rewrite (proj2 (Z.eqb_neq _ _) (Hp Ha)). reflexivity.
  - destruct Hth as (_ & _ & _ & _ & Hp). unfold holdLoop. rewrite He, Hc. cbn.
    destruct (_ && _) eqn:E; [|reflexivity]. bsplit. exfalso. apply (Hp Ha). auto.
Qed.

(** ** The terminal fence *)
Definition isolated (slot : Z) (o : Owners) : Prop :=
  0 <= slot < 64 /\ ow_terminal o = maskOf slot /\ ow_active o = maskOf slot /\ ow_requests o = 0.

Lemma isolated_step a s e s' slot :
  good s -> exec a s = (e, s') -> isolated slot (sy_owners s) ->
  isolated slot (sy_owners s') /\ slots (sy_owners s') = slots (sy_owners s) /\ forall t, e <> Issued t.
Proof.
  intros H He (Hs & Ht & Ha & Hr). pose proof (gd_core s H) as Hcore.
  assert (Hne : ow_terminal (sy_owners s) <> 0) by (rewrite Ht; by apply maskOf_nonzero).
  destruct (exec_slots a s e s' H He) as [Hst Hterm]. specialize (Hterm Hne).
  assert (Hsame : slots (sy_owners s') = slots (sy_owners s) /\ forall t, e <> Issued t).
  { destruct Hst as [Hst|[(r & sl & g & Hc & _)|(t & _ & Hh & _ & Hnot & _)]]; [exact Hst| |]; exfalso.
    - destruct (co_held _ Hcore _ (or_introl eq_refl) Hne) as [Hcl _]. destruct (Hcl r). congruence.
    - destruct (holds_spec t _ Hcore Hh) as (Hts & Hb & _). pose proof (co_limit _ Hcore (tn_request t)).
      destruct (tn_request t); cbn in Hb.
      + rewrite Hr, Z.testbit_0_l in Hb. discriminate.
      + rewrite Ha, maskOf_testbit in Hb by lia. apply Z.eqb_eq in Hb. destruct (Hnot eq_refl). congruence. }
  destruct Hsame as [Hsl Hni]. split; [|auto].
  destruct (slots_sides _ _ false Hsl) as (Ea & _). destruct (slots_sides _ _ true Hsl) as (Er & _).
  cbn in Ea, Er. unfold isolated. rewrite Hterm, Ea, Er. auto.
Qed.

(** A step by which [FenceTerminal] of a turn returns. *)
Definition isTerminalOf (t : OwnerTurn) (a : op) (s : sys) : Prop :=
  match a with
  | CallFenceTerminal t' _ _ => t' = t
  | Wake i _ => exists seen, sy_threads s !! i = Some (THold false t seen)
  | _ => False
  end.

Lemma holdLoop_ok mask d o o' : holdLoop mask d o = (Return (Ok tt), o') -> ow_active o = mask /\ ow_requests o = 0 /\ o' = o.
Proof.
  unfold holdLoop, failed. destruct (ow_err o); [discriminate|].
  destruct (_ || _); [destruct (failLocked _ _); discriminate|].
  destruct (_ && _) eqn:E; [|discriminate]. intros [= <-]. bsplit. auto.
Qed.

Lemma terminal_returns_isolated t a s s1 :
  good s -> isTerminalOf t a s -> exec a s = (Finished None, s1) -> isolated (tn_slot t) (sy_owners s1).
Proof.
  intros H Ha He. pose proof (gd_core s H) as Hcore.
  destruct a as [| | | | |t' d b| | |i d|]; try contradiction; cbn [exec isTerminalOf] in *.
  - subst t'. unfold FenceTerminal, failed in He.
    destruct (ow_err _) in He; [discriminate|].
    destruct (d || _) in He; [destruct (failLocked _ _) in He; discriminate|].
    destruct (negb b); [destruct (failLocked _ _) in He; discriminate|].
    destruct (negb (retainable t _)) eqn:Er in He; [destruct (failLocked _ _) in He; discriminate|].
    apply negb_false_iff in Er. destruct (retainable_spec t _ Hcore Er) as (_ & Hs & _).
    cbn zeta in He. destruct (holdLoop _ d _) as [[[[]|e]|] o'] eqn:E; cbn in He; simplify_eq.
    apply holdLoop_ok in E as (E1 & E2 & ->). cbn in E1, E2. unfold isolated. cbn. auto.
  - destruct Ha as [seen Hi]. rewrite Hi in He.
    pose proof (thread_good s _ H (list_elem_of_lookup_2 _ _ _ Hi)) as (_ & Hm & Hne & _). cbn in Hm, Hne.
    destruct (woken seen d _) in He; [|discriminate].
    destruct (holdLoop _ d _) as [[[[]|e]|] o'] eqn:E; cbn in He; simplify_eq.
    apply holdLoop_ok in E as (E1 & E2 & ->). split; [|auto]. apply maskOf_slot. congruence.
Qed.

(** Terminal isolation: once [FenceTerminal] has returned nil, whatever
    is called afterwards, no turn is ever admitted again, the turns that hold
    slots stay the same, and they are confined to the retained owner slot. *)
Theorem terminal_fence_isolates s a t s1 ops es s2 :
  reachable s -> isTerminalOf t a s -> exec a s = (Finished None, s1) -> execs ops s1 = (es, s2) ->
  (forall t', ~ (Issued t' ∈ es)) /\
  (forall t', holds t' (sy_owners s2) = holds t' (sy_owners s1)) /\
  (forall t', holds t' (sy_owners s2) = true -> tn_request t' = false /\ tn_slot t' = tn_slot t) /\
  exists t', holds t' (sy_owners s2) = true.
Proof.
  intros Hre Ha He Hes. pose proof (reachable_good s Hre) as Hg0.
  pose proof (exec_good _ _ _ _ Hg0 He) as Hg. pose proof (terminal_returns_isolated t a s s1 Hg0 Ha He) as Hiso.
  clear s a He Ha Hre Hg0.
  assert (Hall : (forall t', ~ (Issued t' ∈ es)) /\ slots (sy_owners s2) = slots (sy_owners s1) /\
    isolated (tn_slot t) (sy_owners s2) /\ good s2).
  { revert s1 es Hg Hiso Hes; induction ops as [|b ops IH]; intros s1 es Hg Hiso Hes; cbn in Hes; simplify_eq.
    { split; [intros t' Hin; inversion Hin|auto]. }
    destruct (exec b s1) as [e1 s3] eqn:E. destruct (execs ops s3) as [es' s4] eqn:E'. simplify_eq.
    destruct (isolated_step b s1 e1 s3 _ Hg E Hiso) as (Hiso3 & Hsl & Hni).
    destruct (IH s3 es' (exec_good _ _ _ _ Hg E) Hiso3 E') as (I1 & I2 & I3). split; [|split; [congruence|exact I3]].
    intros t' Hin. apply elem_of_cons in Hin as [<-|Hin]; [by destruct (Hni t')|by apply (I1 t')]. }
  destruct Hall as (H1 & H2 & (Hs & _ & Hact & Hreq) & Hg2). pose proof (gd_core s2 Hg2) as Hcore.
  split; [exact H1|]. split; [intros t'; by apply holds_slots|]. split.
  - intros t' Hh. destruct (holds_spec t' _ Hcore Hh) as (Hts & Hb & _). pose proof (co_limit _ Hcore (tn_request t')).
    destruct (tn_request t') eqn:Er; cbn in Hb.
    + rewrite Hreq, Z.testbit_0_l in Hb. discriminate.
    + rewrite Hact, maskOf_testbit in Hb by lia. apply Z.eqb_eq in Hb. auto.
  - assert (Hb : Z.testbit (activeOf false (sy_owners s2)) (tn_slot t) = true)
      by (cbn; rewrite Hact, maskOf_testbit, Z.eqb_refl by lia; reflexivity).
    destruct (co_bits _ Hcore false _ (proj1 Hs) Hb) as (_ & g & Hgen & _).
    exists (mkTurn g (tn_slot t) false). apply (holds_iff _ _ Hcore). auto.
Qed.

(** ** Witnesses *)
Definition sampleLimits : OwnerLimits := mkOwnerLimits 2 1.
Definition sampleOwners : Owners :=
  match NewOwners false sampleLimits with
  | Ok o => o
  | Err _ => mkOwners true sampleLimits 0 0 [] [] 0 false false false false 0 0 false 0 None
  end.
Definition sampleTurn : OwnerTurn := mkTurn 1 0 false.

(** One turn enters; [Pause] waits for it; a second caller parks; the turn
    ends and wakes the fence. *)
Definition sampleRun : list op :=
  [CallEnter false false; CallFence false false false; CallEnter false false; CallEnd sampleTurn].
Definition sampleState (l : list op) : sys := snd (execs l (mkSys sampleOwners [] None)).

Lemma sample_reachable l : reachable (sampleState l).
Proof.
  exists sampleLimits, sampleOwners, l, (fst (execs l (mkSys sampleOwners [] None))).
  split; [reflexivity|apply surjective_pairing].
Qed.

Lemma drained_side_stays_empty_witness :
  holds (mkTurn 2 0 false) (sy_owners (snd (execs [CallEnter false false; CancelParent]
    (snd (exec (Wake 0 false) (sampleState sampleRun)))))) = false.
Proof.
  destruct (drained_side_stays_empty false (sampleState sampleRun) (Wake 0 false)
    (snd (exec (Wake 0 false) (sampleState sampleRun))) [CallEnter false false; CancelParent]
    (fst (execs [CallEnter false false; CancelParent] (snd (exec (Wake 0 false) (sampleState sampleRun)))))
    (snd (execs [CallEnter false false; CancelParent] (snd (exec (Wake 0 false) (sampleState sampleRun)))))
    (sample_reachable _) ltac:(vm_compute; reflexivity) ltac:(vm_compute; reflexivity)
    ltac:(repeat constructor; discriminate) (surjective_pairing _)) as [H _].
  apply H. reflexivity.
Defined.

Lemma slots_are_exclusive_witness :
  holds sampleTurn (sy_owners (sampleState [])) = false /\
  holds sampleTurn (sy_owners (snd (exec (CallEnter false false) (sampleState [])))) = true.
Proof.
  destruct (slots_are_exclusive (sampleState []) (CallEnter false false) (Issued sampleTurn)
    (snd (exec (CallEnter false false) (sampleState []))) sampleTurn (sample_reachable _)
    ltac:(vm_compute; reflexivity)) as (_ & _ & H).
  destruct (H eq_refl) as (H1 & H2 & _). split; assumption.
Defined.

Lemma ended_turn_stays_dead_witness :
  holds sampleTurn (sy_owners (snd (execs [CallEnter false false]
    (snd (exec (CallEnd sampleTurn) (sampleState [CallEnter false false])))))) = false.
Proof.
  destruct (ended_turn_stays_dead (sampleState [CallEnter false false]) sampleTurn (Finished None)
    (snd (exec (CallEnd sampleTurn) (sampleState [CallEnter false false]))) [CallEnter false false]
    (fst (execs [CallEnter false false] (snd (exec (CallEnd sampleTurn) (sampleState [CallEnter false false])))))
    (snd (execs [CallEnter false false] (snd (exec (CallEnd sampleTurn) (sampleState [CallEnter false false])))))
    (sample_reachable _) ltac:(vm_compute; reflexivity) ltac:(vm_compute; reflexivity)
    ltac:(vm_compute; reflexivity) (surjective_pairing _)) as (H & _).
  exact H.
Defined.

Lemma no_lost_wakeup_witness :
  fst (fenceLoop false false (sy_owners (sampleState [CallEnter false false; CallFence false false false]))) = Sleep.
Proof.
  apply (no_lost_wakeup (sampleState [CallEnter false false; CallFence false false false]) 0
    (TFence false 1) (sample_reachable _)); vm_compute; reflexivity.
Defined.

Lemma terminal_fence_isolates_witness :
  exists t', holds t' (sy_owners (snd (execs [CallEnter false false; CallEnd sampleTurn]
    (snd (exec (CallFenceTerminal sampleTurn false true) (sampleState [CallEnter false false])))))) = true.
Proof.
  destruct (terminal_fence_isolates (sampleState [CallEnter false false]) (CallFenceTerminal sampleTurn false true)
    sampleTurn (snd (exec (CallFenceTerminal sampleTurn false true) (sampleState [CallEnter false false])))
    [CallEnter false false; CallEnd sampleTurn]
    (fst (execs [CallEnter false false; CallEnd sampleTurn]
      (snd (exec (CallFenceTerminal sampleTurn false true) (sampleState [CallEnter false false])))))
    (snd (execs [CallEnter false false; CallEnd sampleTurn]
      (snd (exec (CallFenceTerminal sampleTurn false true) (sampleState [CallEnter false false])))))
    (sample_reachable _) eq_refl ltac:(vm_compute; reflexivity) (surjective_pairing _)) as (_ & _ & _ & H).
  exact H.
Defined.
