(* ===== verification/PhaseControl.v ===== *)
(** * Phase control

    Model of [internal/dispatchadmission/phase_control.go] and of
    [nextConfiguredControlState] in [phase_owners.go]: the configuration, the
    PC01 frame, the control state machine, the parent's exchange and the
    served loop.  Sockets, clocks and contexts are the inputs of one exchange
    or of one served request; the operations of the client that a request
    calls are an argument that returns their result. *)
From S2P Require Import Prelude Bytes DispatchAdmission.

Definition phasePause : Z := 1.
Definition phaseCheckpoint : Z := 2.
Definition phaseResume : Z := 3.
Definition phaseOwnerDrain : Z := 4.
Definition phaseRequestsOpen : Z := 5.
Definition phaseRequestsFence : Z := 6.
Definition phaseOwnersReopen : Z := 7.
Definition phaseTerminalQuiesce : Z := 8.
Definition phaseBackupMeasurementHold : Z := 9.
Definition phaseBackupMeasurementRelease : Z := 10.
(** Local states, never wire operations. *)
Definition phasePreparingRequests : Z := 9.
Definition phaseTerminalCheckpoint : Z := 10.

(** Durations and times are nanoseconds. *)
Record PhaseControlConfig := mkControlConfig {
  cf_PhysicalPostAuthorWorkspace : bool;
  cf_WarmStartWorkspace : bool;
  cf_TerminalAuthor : bool;
  cf_TerminalPhase : Z;
  cf_BackupEndpointCarry : bool;
  cf_BackupMeasurementMaximum : Z;
  cf_OwnerDrainDeadlineUnixNano : Z;
  cf_OwnerControl : bool;
  cf_Phases : list Z;
  cf_InitialPhase : Z;
  cf_MaximumPhases : Z;
  cf_MaximumWireBytes : Z;
  cf_Timeout : Z
}.

Definition second : Z := 1000000000.
Definition slices_Equal (a b : list Z) : bool := bool_decide (a = b).
Definition slices_Contains (l : list Z) (x : Z) : bool := bool_decide (x ∈ l).
Definition slices_Index (l : list Z) (x : Z) : option nat := findIndex (Z.eqb x) l.

(** The loop that refuses zero and repeated phases. *)
Fixpoint distinctPhases (seen l : list Z) : bool :=
  match l with
  | [] => true
  | p :: l' => negb (p =? 0) && negb (slices_Contains seen p) && distinctPhases (seen ++ [p]) l'
  end.

(** The selected profiles. *)
Definition profilesValid (c : PhaseControlConfig) : bool :=
  negb (cf_PhysicalPostAuthorWorkspace c && negb (cf_WarmStartWorkspace c))
  && negb (cf_WarmStartWorkspace c
      && (negb (cf_OwnerControl c) || cf_TerminalAuthor c || negb (cf_TerminalPhase c =? 0)
          || cf_BackupEndpointCarry c || negb (cf_InitialPhase c =? 2) || negb (cf_MaximumPhases c =? 3)
          || negb (slices_Equal (cf_Phases c) [2; 3; 4])))
  && negb (negb (cf_BackupMeasurementMaximum c =? 0)
      && (negb (cf_BackupEndpointCarry c)
          || (cf_MaximumWireBytes c <? u64 (cf_BackupMeasurementMaximum c * 4 * FrameBytes + 2 * FrameBytes))))
  && negb (cf_BackupEndpointCarry c
      && (negb (cf_OwnerControl c) || cf_TerminalAuthor c || negb (cf_TerminalPhase c =? 0)
          || negb (cf_InitialPhase c =? 8) || negb (cf_MaximumPhases c =? 4)
          || negb (slices_Equal (cf_Phases c) [8; 9; 10; 11])))
  && negb (negb (cf_TerminalPhase c =? 0)
      && (negb (cf_TerminalPhase c =? 8) || negb (cf_OwnerControl c) || cf_TerminalAuthor c
          || negb (cf_InitialPhase c =? 6) || negb (cf_MaximumPhases c =? 3)
          || negb (slices_Equal (cf_Phases c) [6; 7; 8])))
  && negb (cf_TerminalAuthor c
      && (cf_OwnerControl c || negb (Z.of_nat (length (cf_Phases c)) =? 1)
          || negb (cf_MaximumPhases c =? 1))).

Definition drainDeadlineValid (now : Z) (c : PhaseControlConfig) : bool :=
  (cf_OwnerDrainDeadlineUnixNano c =? 0)
  || negb (negb (cf_OwnerControl c) || negb (cf_InitialPhase c =? 12)
           || negb (slices_Equal (cf_Phases c) [12; 13; 14]) || (30 * second <? cf_Timeout c)
           || negb (now <? cf_OwnerDrainDeadlineUnixNano c)
           || (now + 4 * 3600 * second <? cf_OwnerDrainDeadlineUnixNano c)).

(** [validate] at the time [now]: the index of the initial phase. *)
Definition validate (now : Z) (c : PhaseControlConfig) : res err nat :=
  if negb (profilesValid c) then Err ErrConfig
  else if (cf_MaximumPhases c <? 1) || (Z.of_nat (length (cf_Phases c)) =? 0)
          || (cf_MaximumPhases c <? Z.of_nat (length (cf_Phases c)))
          || (cf_MaximumWireBytes c <? 2 * FrameBytes) || (cf_Timeout c <=? 0)
  then Err ErrConfig
  else if negb (drainDeadlineValid now c) then Err ErrConfig
  else if negb (distinctPhases [] (cf_Phases c)) then Err ErrConfig
  else match slices_Index (cf_Phases c) (cf_InitialPhase c) with
       | None => Err ErrConfig
       | Some index => Ok index
       end.

(** ** The PC01 frame *)
Record phaseControlFrame := mkControlFrame {
  pf_op : Z;
  pf_phase : Z;
  pf_sequence : Z;
  pf_binding : list Z;
  pf_deadlineUnixNano : Z
}.

Definition magicPC : list Z := ascii_bytes "PC01".
Definition isBackupMeasurement (op : Z) : bool :=
  (op =? phaseBackupMeasurementHold) || (op =? phaseBackupMeasurementRelease).
Definition carriesWorkspace (op phase : Z) : bool :=
  (op =? phaseResume) && (phase =? 3) || (op =? phaseOwnersReopen) && (phase =? 4).

Definition encodeControl (f : phaseControlFrame) : list Z :=
  magicPC ++ [pf_op f; 0; 0; 0] ++ be_put 4 (pf_phase f) ++ [0; 0; 0; 0] ++ be_put 8 (pf_sequence f)
  ++ (if isBackupMeasurement (pf_op f) || carriesWorkspace (pf_op f) (pf_phase f)
      then be_put 8 (u64 (pf_deadlineUnixNano f)) else replicate 8 0)
  ++ pf_binding f.

Definition decodePhaseControl (raw : list Z) : res err phaseControlFrame :=
  let op := nth 4 raw 0 in
  let phase := be_get (slice 8 12 raw) in
  let wire := i64 (be_get (slice 24 32 raw)) in
  let carried := carriesWorkspace op phase in
  let measured := isBackupMeasurement op in
  if carried && (wire <? 0) then Err ErrProtocol
  else if measured && (wire <=? 0) then Err ErrProtocol
  else
    let f := mkControlFrame op phase (be_get (slice 16 24 raw)) (slice 32 64 raw)
               (if carried || measured then wire else 0) in
    if (op <? phasePause) || (phaseBackupMeasurementRelease <? op) || negb (bytes_eqb (encodeControl f) raw)
    then Err ErrProtocol else Ok f.

(** ** The state machine *)
Definition nextControlState (state : Z) (index : nat) (op : Z) (phases : list Z) : res err (Z * nat) :=
  if (op =? phasePause) && (state =? 0) then Ok (phasePause, index)
  else if (op =? phaseCheckpoint) && (state =? phasePause) then Ok (phaseCheckpoint, index)
  else if (op =? phaseResume) && (state =? phaseCheckpoint) && Nat.ltb (index + 1) (length phases)
  then Ok (0, (index + 1)%nat)
  else Err ErrProtocol.

Definition phaseAt (c : PhaseControlConfig) (index : nat) : Z := nth index (cf_Phases c) 0.

Definition nextConfiguredControlState (state : Z) (index : nat) (op : Z) (c : PhaseControlConfig)
    : res err (Z * nat) :=
  if cf_BackupEndpointCarry c && Nat.eqb index 3 && (state =? phasePause) then Err ErrProtocol
  else if (op =? phaseTerminalQuiesce) || (state =? phaseTerminalQuiesce) || (state =? phaseTerminalCheckpoint)
  then
    if (cf_TerminalPhase c =? 8) && cf_OwnerControl c && (phaseAt c index =? cf_TerminalPhase c)
    then if (state =? 0) && (op =? phaseTerminalQuiesce) then Ok (phaseTerminalQuiesce, index)
         else if (state =? phaseTerminalQuiesce) && (op =? phaseCheckpoint)
         then Ok (phaseTerminalCheckpoint, index) else Err ErrProtocol
    else Err ErrProtocol
  else if cf_TerminalAuthor c
  then if (op =? phasePause) && (state =? 0) then Ok (phasePause, index) else Err ErrProtocol
  else if negb (cf_OwnerControl c) then nextControlState state index op (cf_Phases c)
  else if (op =? phaseOwnerDrain) && (state =? 0) then Ok (phaseOwnerDrain, index)
  else if (op =? phasePause) && ((state =? phaseOwnerDrain) || (state =? phaseResume)) then Ok (phasePause, index)
  else if (op =? phaseCheckpoint) && (state =? phasePause) then Ok (phaseCheckpoint, index)
  else if (op =? phaseRequestsOpen) && (state =? phaseOwnerDrain) then Ok (phaseRequestsOpen, index)
  else if (op =? phaseRequestsOpen) && (state =? phaseResume) then Ok (phasePreparingRequests, index)
  else if (op =? phaseRequestsFence) && (state =? phaseRequestsOpen) then Ok (phaseOwnerDrain, index)
  else if (op =? phaseRequestsFence) && (state =? phasePreparingRequests) then Ok (phaseResume, index)
  else if (op =? phaseResume) && (state =? phaseCheckpoint) && Nat.ltb (index + 1) (length (cf_Phases c))
  then Ok (phaseResume, (index + 1)%nat)
  else if (op =? phaseOwnersReopen) && (state =? phaseResume) then Ok (0, index)
  else Err ErrProtocol.

(** ** The parent *)
Record PhaseControl := mkControl {
  pc_config : PhaseControlConfig;
  pc_binding : list Z;
  pc_index : nat;
  pc_state : Z;
  pc_sequence : Z;
  pc_wireBytes : Z;
  pc_requestSequence : Z;
  pc_closed : bool;
  pc_ctxErr : bool;          (** [control.ctx.Err() != nil] *)
  pc_err : option err
}.
#[export] Instance eta_PhaseControl : Eta PhaseControl :=
  fun c => mkControl (pc_config c) (pc_binding c) (pc_index c) (pc_state c) (pc_sequence c)
    (pc_wireBytes c) (pc_requestSequence c) (pc_closed c) (pc_ctxErr c) (pc_err c).

Definition NewPhaseControl (now : Z) (ctxDone : bool) (binding : list Z) (config : PhaseControlConfig)
    : res err PhaseControl :=
  match validate now config with
  | Err _ => Err ErrConfig
  | Ok index =>
      if ctxDone || bytes_eqb binding (replicate 32 0) then Err ErrConfig
      else Ok (mkControl config binding index 0 0 0 0 false false None)
  end.

Definition failControl (e : err) (c : PhaseControl) : err * PhaseControl :=
  match pc_err c with
  | Some e0 => (e0, c)
  | None => (e, c <| pc_err := Some e |> <| pc_ctxErr := true |>)
  end.

(** What one exchange meets outside the control. *)
Record exchangeIO := mkIO {
  io_ctxNil : bool;
  io_gate : bool;            (** the gate was acquired before either context ended *)
  io_opDone : bool;          (** [opCtx.Err() != nil] at the check *)
  io_deadline : option Z;    (** the caller's deadline *)
  io_now : Z;
  io_exact : bool;           (** the deadline is a whole number of nanoseconds since 1970 *)
  io_setDeadline : bool;
  io_write : bool;
  io_ack : option (list Z);
  io_doneAfter : bool        (** a context ended before the ACK was used *)
}.

Definition failed (e : err) (c : PhaseControl) : option err * PhaseControl :=
  let '(e', c') := failControl e c in (Some e', c').

Definition needsWorkspace (c : PhaseControlConfig) (op : Z) (index : nat) : bool :=
  cf_WarmStartWorkspace c && (op =? phaseResume) && (phaseAt c index =? 3)
  || cf_PhysicalPostAuthorWorkspace c && (op =? phaseOwnersReopen) && (phaseAt c index =? 4).

(** The part of [exchange] under the lock: the frame to send and the state
    it leads to. *)
Definition prepare (op : Z) (io : exchangeIO) (c : PhaseControl)
    : res err (phaseControlFrame * Z * nat) * PhaseControl :=
  let refuse e := let '(e', c') := failControl e c in (Err e', c') in
  let next := nextConfiguredControlState (pc_state c) (pc_index c) op (pc_config c) in
  let next :=
    match pc_err c with
    | Some e => Err e
    | None =>
        if pc_closed c || pc_ctxErr c || io_opDone io then Err ErrCanceled
        else if (pc_sequence c =? MaxUint64)
                || (u64 (cf_MaximumWireBytes (pc_config c) - pc_wireBytes c) <? 2 * FrameBytes)
        then Err ErrLimit else next
    end in
  match next with
  | Err e => refuse e
  | Ok (state, index) =>
      let send deadline :=
        let c := c <| pc_sequence := u64 (pc_sequence c + 1) |>
                   <| pc_wireBytes := u64 (pc_wireBytes c + 2 * FrameBytes) |> in
        (Ok (mkControlFrame op (phaseAt (pc_config c) index) (pc_sequence c) (pc_binding c) deadline,
             state, index), c) in
      if needsWorkspace (pc_config c) op index
      then match io_deadline io with
           | None => refuse ErrProtocol
           | Some deadline =>
               if negb (io_now io <? deadline) || (deadline <=? 0) || negb (io_exact io)
               then refuse ErrProtocol else send deadline
           end
      else send 0
  end.

(** The transfer and the ACK. *)
Definition transfer (op : Z) (io : exchangeIO) (f : phaseControlFrame) (state : Z) (index : nat)
    (c : PhaseControl) : option err * PhaseControl :=
  if negb (io_setDeadline io) || negb (io_write io) then failed ErrTransport c
  else match io_ack io with
  | None => failed ErrTransport c
  | Some ack =>
      if negb (bytes_eqb ack (encodeControl f)) then failed ErrProtocol c
      else if io_doneAfter io || pc_ctxErr c then failed ErrCanceled c
      else
        let c := c <| pc_state := state |> <| pc_index := index |> in
        (None, if (op =? phaseRequestsOpen) || (op =? phaseOwnersReopen)
               then c <| pc_requestSequence := pf_sequence f |> else c)
  end.

Definition exchange (op : Z) (io : exchangeIO) (c : PhaseControl) : option err * PhaseControl :=
  if io_ctxNil io || negb (io_gate io) then failed ErrCanceled c
  else match prepare op io c with
  | (Err e, c') => (Some e, c')
  | (Ok (f, state, index), c') => transfer op io f state index c'
  end.

Definition Close (c : PhaseControl) : option err * PhaseControl :=
  let c' := if pc_closed c then c else c <| pc_closed := true |> <| pc_ctxErr := true |> in
  (pc_err c', c').

(** ** The served loop *)
Record served := mkServed {
  sv_state : Z;
  sv_index : nat;
  sv_sequence : Z;
  sv_wireBytes : Z;
  sv_backupMeasurements : Z;
  sv_backupDeadline : Z;
  sv_checkpointAcknowledged : bool;    (** [client.controlCheckpointAcknowledged] *)
  sv_pauseAcknowledged : bool          (** [client.controlPauseAcknowledged] *)
}.
#[export] Instance eta_served : Eta served :=
  fun s => mkServed (sv_state s) (sv_index s) (sv_sequence s) (sv_wireBytes s)
    (sv_backupMeasurements s) (sv_backupDeadline s) (sv_checkpointAcknowledged s) (sv_pauseAcknowledged s).

Definition newServed (index : nat) : served := mkServed 0 index 0 0 0 0 false false.

(** The client operation a request stands for. *)
Inductive clientCall :=
  | ClientPause | ClientPauseAndRetire | ClientCheckpoint | ClientResume (phase : Z)
  | ClientOwners (f : phaseControlFrame) | ClientContinue | ClientQuiesce (phase : Z).

Inductive readResult :=
  | NoFirstByte | PartialFrame | Raw (raw : list Z).

(** What one turn of the loop meets outside the server. *)
Record request := mkRequest {
  rq_closedTop : bool;       (** [clientTerminalClosed] at the top of the loop *)
  rq_idleDeadline : bool;    (** the idle deadline was cleared *)
  rq_closedIdle : bool;      (** [clientTerminalClosed] after the idle wait failed *)
  rq_read : readResult;
  rq_frameDeadline : bool;
  rq_measure : res err unit; (** [serveRetiredBackupMeasurement] *)
  rq_now : Z;
  rq_drainDeadline : bool;
  rq_op : clientCall -> res err unit;
  rq_opDone : bool;          (** [opCtx.Err() != nil] after the operation *)
  rq_ack : bool;
  rq_after : res err unit    (** the physical or the warm callback *)
}.

Inductive served_outcome :=
  | Continue (s : served)
  | Stop (e : option err).

Definition isWarm (c : PhaseControlConfig) (f : phaseControlFrame) : bool :=
  cf_WarmStartWorkspace c && (pf_op f =? phaseResume) && (pf_phase f =? 3).
Definition isPhysical (c : PhaseControlConfig) (f : phaseControlFrame) : bool :=
  cf_PhysicalPostAuthorWorkspace c && (pf_op f =? phaseOwnersReopen) && (pf_phase f =? 4).

Definition callOf (c : PhaseControlConfig) (f : phaseControlFrame) : clientCall :=
  if pf_op f =? phasePause
  then if cf_BackupEndpointCarry c && (pf_phase f =? 11) then ClientPauseAndRetire else ClientPause
  else if pf_op f =? phaseCheckpoint then ClientCheckpoint
  else if pf_op f =? phaseResume then ClientResume (pf_phase f)
  else if pf_op f =? phaseTerminalQuiesce then ClientQuiesce (pf_phase f)
  else if isPhysical c f then ClientContinue else ClientOwners f.

(** A retired backup measurement: HOLD, and the RELEASE its handler serves. *)
Definition serveMeasurement (c : PhaseControlConfig) (rq : request) (f : phaseControlFrame) (s : served)
    : served_outcome :=
  if negb (cf_BackupEndpointCarry c) || (cf_BackupMeasurementMaximum c =? 0)
     || negb (sv_state s =? phasePause) || negb (Nat.eqb (sv_index s) (length (cf_Phases c) - 1))
     || negb (phaseAt c (sv_index s) =? 11) || negb (pf_phase f =? 12)
     || (cf_BackupMeasurementMaximum c <=? sv_backupMeasurements s) || (MaxUint64 - 2 <? sv_sequence s)
     || (u64 (cf_MaximumWireBytes c - sv_wireBytes s) <? 2 * FrameBytes)
     || negb (sv_backupDeadline s =? 0) && negb (sv_backupDeadline s =? pf_deadlineUnixNano f)
  then Stop (Some ErrProtocol)
  else match rq_measure rq with
  | Err e => Stop (Some e)
  | Ok _ =>
      Continue (s <| sv_wireBytes := u64 (sv_wireBytes s + 2 * FrameBytes) |>
                  <| sv_backupMeasurements ::= fun n => u32 (n + 1) |>
                  <| sv_backupDeadline := pf_deadlineUnixNano f |>
                  <| sv_sequence := u64 (sv_sequence s + 2) |>)
  end.

(** The workspace deadline a Resume or a Reopen must or must not carry. *)
Definition workspaceOk (c : PhaseControlConfig) (now : Z) (f : phaseControlFrame) : bool :=
  let selected := isWarm c f || isPhysical c f in
  negb (((pf_op f =? phaseResume) || (pf_op f =? phaseOwnersReopen))
        && (negb (Bool.eqb (negb (pf_deadlineUnixNano f =? 0)) selected)
            || selected && negb (now <? pf_deadlineUnixNano f))).

Definition isSelectedDrain (c : PhaseControlConfig) (f : phaseControlFrame) (s : served) : bool :=
  (sv_state s =? 0) && Nat.eqb (sv_index s) 0 && (pf_op f =? phaseOwnerDrain) && (pf_phase f =? 12)
  && negb (cf_OwnerDrainDeadlineUnixNano c =? 0).

(** A decoded request that is not a measurement; the echo is the ACK. *)
Definition serveRequest (c : PhaseControlConfig) (rq : request) (f : phaseControlFrame) (s : served)
    : served_outcome :=
  match nextConfiguredControlState (sv_state s) (sv_index s) (pf_op f) c with
  | Err _ => Stop (Some ErrProtocol)
  | Ok (nextState, nextIndex) =>
      if negb (pf_phase f =? phaseAt c nextIndex) then Stop (Some ErrProtocol)
      else if negb (workspaceOk c (rq_now rq) f) then Stop (Some ErrProtocol)
      else if isSelectedDrain c f s && negb (rq_now rq <? cf_OwnerDrainDeadlineUnixNano c)
      then Stop (Some ErrCanceled)
      else if isSelectedDrain c f s && negb (rq_drainDeadline rq) then Stop (Some ErrTransport)
      else match rq_op rq (callOf c f) with
      | Err e => Stop (Some e)
      | Ok _ =>
          if rq_opDone rq then Stop (Some ErrCanceled)
          else if negb (rq_ack rq) then Stop (Some ErrTransport)
          else match (if isPhysical c f || isWarm c f then rq_after rq else Ok tt) with
          | Err e => Stop (Some e)
          | Ok _ =>
              let s := s <| sv_sequence := u64 (sv_sequence s + 1) |> <| sv_state := nextState |>
                         <| sv_index := nextIndex |> in
              Continue
                (if pf_op f =? phaseCheckpoint then s <| sv_checkpointAcknowledged := true |>
                 else if cf_TerminalAuthor c && (pf_op f =? phasePause)
                      then s <| sv_pauseAcknowledged := true |> else s)
          end
      end
  end.

(** One turn of [servePhaseControl]'s loop.  [Stop None] is its clean return;
    [Stop (Some e)] is [client.fail e]. *)
Definition serveTurn (c : PhaseControlConfig) (binding : list Z) (rq : request) (s : served)
    : served_outcome :=
  if rq_closedTop rq then Stop None
  else if u64 (cf_MaximumWireBytes c - sv_wireBytes s) <? 2 * FrameBytes then Stop (Some ErrLimit)
  else
    let s := s <| sv_wireBytes := u64 (sv_wireBytes s + 2 * FrameBytes) |> in
    if negb (rq_idleDeadline rq)
    then if rq_closedIdle rq then Stop None else Stop (Some ErrTransport)
    else match rq_read rq with
    | NoFirstByte => if rq_closedIdle rq then Stop None else Stop (Some ErrIncomplete)
    | PartialFrame => Stop (Some ErrTransport)
    | Raw raw =>
        if negb (rq_frameDeadline rq) then Stop (Some ErrTransport)
        else match decodePhaseControl raw with
        | Err _ => Stop (Some ErrProtocol)
        | Ok f =>
            if negb (bytes_eqb (pf_binding f) binding) || (sv_sequence s =? MaxUint64)
               || negb (pf_sequence f =? sv_sequence s + 1)
            then Stop (Some ErrProtocol)
            else if pf_op f =? phaseBackupMeasurementHold then serveMeasurement c rq f s
            else serveRequest c rq f s
        end
    end.

Fixpoint servePhaseControl (c : PhaseControlConfig) (binding : list Z) (l : list request) (s : served)
    : served_outcome :=
  match l with
  | [] => Continue s
  | rq :: l' =>
      match serveTurn c binding rq s with
      | Stop e => Stop e
      | Continue s' => servePhaseControl c binding l' s'
      end
  end.

(** ** The parent's operations *)
Definition ReservedWireBytes (c : PhaseControl) : Z := pc_wireBytes c.
Definition Pause (io : exchangeIO) (c : PhaseControl) := exchange phasePause io c.
Definition Checkpoint (io : exchangeIO) (c : PhaseControl) := exchange phaseCheckpoint io c.
Definition Resume (io : exchangeIO) (c : PhaseControl) := exchange phaseResume io c.
Definition DrainOwners (io : exchangeIO) (c : PhaseControl) := exchange phaseOwnerDrain io c.
Definition OpenRequests (io : exchangeIO) (c : PhaseControl) := exchange phaseRequestsOpen io c.
Definition FenceRequests (io : exchangeIO) (c : PhaseControl) := exchange phaseRequestsFence io c.
Definition ReopenOwners (io : exchangeIO) (c : PhaseControl) := exchange phaseOwnersReopen io c.
