(* ===== verification/PhaseTheorems.v ===== *)
(** * Phase control: theorems

    The PC01 codec is canonical, parent and server move in lock step, and the
    control states refine an abstract barrier over owners, requests and
    dispatch. *)
From S2P Require Import Prelude Bytes DispatchAdmission PhaseControl.

(** ** The codec *)
Definition controlAdmitted (f : phaseControlFrame) : Prop :=
  phasePause <= pf_op f <= phaseBackupMeasurementRelease /\ 0 <= pf_phase f < 2 ^ 32 /\
  0 <= pf_sequence f < 2 ^ 64 /\ length (pf_binding f) = 32%nat /\ Forall isByte (pf_binding f) /\
  if isBackupMeasurement (pf_op f) then 0 < pf_deadlineUnixNano f <= MaxInt64
  else if carriesWorkspace (pf_op f) (pf_phase f) then 0 <= pf_deadlineUnixNano f <= MaxInt64
  else pf_deadlineUnixNano f = 0.

Lemma encodeControl_slices f :
  length (pf_binding f) = 32%nat ->
  slice 8 12 (encodeControl f) = be_put 4 (pf_phase f) /\
  slice 16 24 (encodeControl f) = be_put 8 (pf_sequence f) /\
  slice 24 32 (encodeControl f) =
    (if isBackupMeasurement (pf_op f) || carriesWorkspace (pf_op f) (pf_phase f)
     then be_put 8 (u64 (pf_deadlineUnixNano f)) else replicate 8 0) /\
  slice 32 64 (encodeControl f) = pf_binding f /\ nth 4 (encodeControl f) 0 = pf_op f.
Proof.
  intros Hlen. unfold encodeControl, slice.
  destruct (isBackupMeasurement (pf_op f) || carriesWorkspace (pf_op f) (pf_phase f));
    (repeat split; try reflexivity; unfold magicPC; cbn -[take]; rewrite drop_0, <- Hlen; apply firstn_all).
Qed.

Lemma decodeControl_sound raw f :
  length raw = 64%nat -> Forall isByte raw -> decodePhaseControl raw = Ok f ->
  controlAdmitted f /\ encodeControl f = raw.
Proof.
  intros Hlen Hb H. unfold decodePhaseControl in H. cbn zeta in H.
  set (wire := i64 _) in *. pose proof (i64_range (be_get (slice 24 32 raw))) as Hw. fold wire in Hw.
  destruct (carriesWorkspace _ _ && _) eqn:E1; [discriminate|].
  destruct (isBackupMeasurement _ && _) eqn:E2; [discriminate|].
  destruct (_ || _ || _) eqn:E3 in H; [discriminate|]. injection H as <-.
  apply orb_false_iff in E3 as [E3 Eraw]. apply orb_false_iff in E3 as [Elo Ehi].
  apply negb_false_iff in Eraw. apply bool_decide_eq_true in Eraw. bsplit. split; [|exact Eraw].
  unfold controlAdmitted. cbn [pf_op pf_phase pf_sequence pf_binding pf_deadlineUnixNano].
  split; [lia|]. split; [apply (be_get_slice_range 8 12); auto; lia|].
  split; [apply (be_get_slice_range 16 24); auto; lia|].
  split; [apply length_slice; lia|]. split; [apply slice_bytes, Hb|].
  destruct (isBackupMeasurement _) eqn:Em, (carriesWorkspace _ _) eqn:Ec; cbn in *; bsplit; lia.
Qed.

Lemma decodeControl_complete f : controlAdmitted f -> decodePhaseControl (encodeControl f) = Ok f.
Proof.
  intros (Hop & Hph & Hsq & Hlen & Hb & Hd). unfold decodePhaseControl. cbn zeta.
  destruct (encodeControl_slices f Hlen) as (-> & -> & -> & -> & ->).
  rewrite !be_get_small by (cbn; lia).
  set (wire := i64 _). assert (Hwire : isBackupMeasurement (pf_op f) || carriesWorkspace (pf_op f) (pf_phase f) = true ->
    wire = pf_deadlineUnixNano f).
  { intros E. unfold wire. rewrite E.
    assert (Hr : 0 <= pf_deadlineUnixNano f <= MaxInt64)
      by (destruct (isBackupMeasurement _), (carriesWorkspace _ _); try discriminate; lia).
    unfold MaxInt64 in *. rewrite u64_small by (unfold MaxUint64; lia). rewrite be_get_small by (cbn; lia).
    apply i64_small. unfold MaxInt64. lia. }
  clearbody wire.
  assert (Hself : forall d, d = pf_deadlineUnixNano f ->
    mkControlFrame (pf_op f) (pf_phase f) (pf_sequence f) (pf_binding f) d = f) by (intros; subst; destruct f; reflexivity).
  rewrite Hself.
  2: { destruct (carriesWorkspace _ _) eqn:Ec, (isBackupMeasurement _) eqn:Em; cbn in *; auto. }
  unfold bytes_eqb. rewrite bool_decide_eq_true_2 by reflexivity.
  rewrite (proj2 (Z.ltb_ge _ phasePause)), (proj2 (Z.ltb_ge phaseBackupMeasurementRelease _)) by lia. cbn [orb negb].
  destruct (carriesWorkspace _ _) eqn:Ec, (isBackupMeasurement _) eqn:Em; cbn in *;
    try rewrite Hwire by reflexivity; cbn;
    rewrite ?(proj2 (Z.ltb_ge _ 0)), ?(proj2 (Z.leb_gt _ 0)) by lia; reflexivity.
Qed.

(** The phase-control endpoint decodes exactly the canonical encodings of
    well-formed frames: a deadline is carried by the operations that own one,
    in range, and every other byte is fixed, so the echoed ACK names one
    request. *)
Theorem phase_decode_exact raw f :
  length raw = 64%nat -> Forall isByte raw ->
  (decodePhaseControl raw = Ok f <-> controlAdmitted f /\ raw = encodeControl f).
Proof.
  intros Hlen Hb. split.
  - intros H. apply decodeControl_sound in H as [? <-]; auto.
  - intros [Ha ->]. by apply decodeControl_complete.
Qed.

(** ** The control states refine an abstract barrier *)

(** What is open, whether the phase's checkpoint was taken, whether the phase
    was entered by a Resume and not drained since, and the terminal variant. *)
Record barrier := mkBarrier {
  ba_owners : bool;
  ba_requests : bool;
  ba_dispatch : bool;
  ba_checkpointed : bool;
  ba_resumed : bool;
  ba_terminal : bool;
  ba_index : nat
}.
Definition openBarrier (index : nat) : barrier := mkBarrier true true true false false false index.

Definition selectedTerminal (c : PhaseControlConfig) (index : nat) : bool :=
  (cf_TerminalPhase c =? 8) && (phaseAt c index =? cf_TerminalPhase c).

(** The abstract rules: owners are drained while everything is open; requests
    open and close only between a drain and a pause; dispatch is paused only
    with owners and requests shut; a checkpoint needs a pause, a resume needs
    a checkpoint and moves to the next phase; owners reopen only in a resumed
    phase with requests shut.  The terminal phase quiesces once, and the last
    pause of the backup profile is final. *)
Definition barrierStep (c : PhaseControlConfig) (op : Z) (b : barrier) : option barrier :=
  let 'mkBarrier owners requests dispatch checkpointed resumed terminal index := b in
  let shut := negb owners && negb requests in
  if cf_BackupEndpointCarry c && Nat.eqb index 3 && negb dispatch && negb checkpointed && negb terminal
  then None
  else if op =? phaseOwnerDrain then
    if owners && requests && dispatch then Some (mkBarrier false false true false false false index) else None
  else if op =? phaseRequestsOpen then
    if shut && dispatch then Some (mkBarrier false true true false resumed false index) else None
  else if op =? phaseRequestsFence then
    if negb owners && requests && dispatch then Some (mkBarrier false false true false resumed false index) else None
  else if op =? phasePause then
    if shut && dispatch then Some (mkBarrier false false false false false false index) else None
  else if op =? phaseCheckpoint then
    if negb dispatch && negb checkpointed && (negb terminal || selectedTerminal c index)
    then Some (mkBarrier false false false true false terminal index) else None
  else if op =? phaseResume then
    if checkpointed && negb terminal && Nat.ltb (index + 1) (length (cf_Phases c))
    then Some (mkBarrier false false true false true false (index + 1)) else None
  else if op =? phaseOwnersReopen then
    if shut && dispatch && resumed then Some (openBarrier index) else None
  else if op =? phaseTerminalQuiesce then
    if owners && requests && dispatch && selectedTerminal c index
    then Some (mkBarrier false false false false false true index) else None
  else None.

(** The abstraction of a control state. *)
Definition barrierOf (state : Z) (index : nat) : option barrier :=
  if state =? 0 then Some (openBarrier index)
  else if state =? phaseOwnerDrain then Some (mkBarrier false false true false false false index)
  else if state =? phaseRequestsOpen then Some (mkBarrier false true true false false false index)
  else if state =? phaseResume then Some (mkBarrier false false true false true false index)
  else if state =? phasePreparingRequests then Some (mkBarrier false true true false true false index)
  else if state =? phasePause then Some (mkBarrier false false false false false false index)
  else if state =? phaseCheckpoint then Some (mkBarrier false false false true false false index)
  else if state =? phaseTerminalQuiesce then Some (mkBarrier false false false false false true index)
  else if state =? phaseTerminalCheckpoint then Some (mkBarrier false false false true false true index)
  else None.

Fixpoint controlRun (c : PhaseControlConfig) (ops : list Z) (state : Z) (index : nat) : option (Z * nat) :=
  match ops with
  | [] => Some (state, index)
  | op :: ops' =>
      match nextConfiguredControlState state index op c with
      | Ok (state', index') => controlRun c ops' state' index'
      | Err _ => None
      end
  end.
Fixpoint barrierRun (c : PhaseControlConfig) (ops : list Z) (b : barrier) : option barrier :=
  match ops with
  | [] => Some b
  | op :: ops' => match barrierStep c op b with Some b' => barrierRun c ops' b' | None => None end
  end.

Lemma barrierOf_cases state index b :
  barrierOf state index = Some b ->
  state = 0 \/ state = phaseOwnerDrain \/ state = phaseRequestsOpen \/ state = phaseResume \/
  state = phasePreparingRequests \/ state = phasePause \/ state = phaseCheckpoint \/
  state = phaseTerminalQuiesce \/ state = phaseTerminalCheckpoint.
Proof.
  unfold barrierOf.
  repeat match goal with |- context [if (?s =? ?k) then _ else _] =>
    let E := fresh "E" in destruct (Z.eqb_spec s k) as [E|E]; [tauto|] end.
  discriminate.
Qed.

Lemma op_cases (op : Z) :
  op = 1 \/ op = 2 \/ op = 3 \/ op = 4 \/ op = 5 \/ op = 6 \/ op = 7 \/ op = 8 \/
  ((op =? 1) = false /\ (op =? 2) = false /\ (op =? 3) = false /\ (op =? 4) = false /\
   (op =? 5) = false /\ (op =? 6) = false /\ (op =? 7) = false /\ (op =? 8) = false).
Proof.
  destruct (Z.eq_dec op 1); [tauto|]. destruct (Z.eq_dec op 2); [tauto|].
  destruct (Z.eq_dec op 3); [tauto|]. destruct (Z.eq_dec op 4); [tauto|].
  destruct (Z.eq_dec op 5); [tauto|]. destruct (Z.eq_dec op 6); [tauto|].
  destruct (Z.eq_dec op 7); [tauto|]. destruct (Z.eq_dec op 8); [tauto|].
  right; right; right; right; right; right; right; right.
  repeat split; apply Z.eqb_neq; assumption.
Qed.

(** One step of the code is one step of the barrier, accepted or refused. *)
Lemma barrier_simulates c op state index b :
  cf_OwnerControl c = true -> cf_TerminalAuthor c = false -> barrierOf state index = Some b ->
  match nextConfiguredControlState state index op c with
  | Ok (state', index') => exists b', barrierStep c op b = Some b' /\ barrierOf state' index' = Some b'
  | Err _ => barrierStep c op b = None
  end.
Proof.
  intros Hoc Hta Hb. unfold nextConfiguredControlState. rewrite Hoc, Hta.
  destruct (barrierOf_cases _ _ _ Hb) as [->|[->|[->|[->|[->|[->|[->|[->| ->]]]]]]]];
    vm_compute in Hb; injection Hb as <-; unfold barrierStep, selectedTerminal;
    (destruct (cf_BackupEndpointCarry c) eqn:Eb, (Nat.eqb index 3) eqn:E3; cbn [andb orb negb];
     try (cbn; reflexivity));
    destruct (op_cases op) as [->|[->|[->|[->|[->|[->|[->|[->|(O1 & O2 & O3 & O4 & O5 & O6 & O7 & O8)]]]]]]]];
    unfold phasePause, phaseCheckpoint, phaseResume, phaseOwnerDrain, phaseRequestsOpen,
      phaseRequestsFence, phaseOwnersReopen, phaseTerminalQuiesce, phasePreparingRequests, phaseTerminalCheckpoint;
    rewrite ?O1, ?O2, ?O3, ?O4, ?O5, ?O6, ?O7, ?O8; cbn -[Nat.ltb phaseAt];
    rewrite ?andb_true_r, ?andb_false_r; cbn -[Nat.ltb phaseAt];
    try reflexivity; try (eexists; split; reflexivity).
  all: repeat match goal with
    | |- context [if ?x then _ else _] => destruct x eqn:?; cbn -[Nat.ltb phaseAt] in *
    | |- context [match (if ?x then _ else _) with _ => _ end] => destruct x eqn:?; cbn -[Nat.ltb phaseAt] in *
    end; try reflexivity; try (eexists; split; reflexivity); try congruence.
Qed.

(** C17: for every owner-controlled configuration and every sequence of
    operations, the control's byte-coded states accept and refuse exactly what
    the abstract barrier does and stay its image: dispatch is paused only with
    owners and requests shut, a phase is left only through its checkpoint, and
    owners reopen only in a resumed phase. *)
Theorem control_refines_barrier c ops index :
  cf_OwnerControl c = true -> cf_TerminalAuthor c = false ->
  match controlRun c ops 0 index with
  | Some (state, index') =>
      exists b, barrierRun c ops (openBarrier index) = Some b /\ barrierOf state index' = Some b
  | None => barrierRun c ops (openBarrier index) = None
  end.
Proof.
  intros Hoc Hta.
  assert (Hgen : forall state index b, barrierOf state index = Some b ->
    match controlRun c ops state index with
    | Some (state', index') => exists b', barrierRun c ops b = Some b' /\ barrierOf state' index' = Some b'
    | None => barrierRun c ops b = None
    end).
  { clear index. induction ops as [|op ops IH]; intros state index b Hb; cbn; [eauto|].
    pose proof (barrier_simulates c op state index b Hoc Hta Hb) as Hs.
    destruct (nextConfiguredControlState state index op c) as [[state' index']|e].
    - destruct Hs as (b' & -> & Hb'). apply IH, Hb'.
    - rewrite Hs. reflexivity. }
  apply Hgen. reflexivity.
Qed.

(** ** Parent and server in lock step *)
Definition agree (c : PhaseControlConfig) (p : PhaseControl) (s : served) : Prop :=
  pc_config p = c /\ pc_state p = sv_state s /\ pc_index p = sv_index s /\
  pc_sequence p = sv_sequence s /\ 0 <= pc_sequence p <= MaxUint64.

(** What the two processes are given: a 32-byte binding, 32-bit phases, and
    deadlines that are [int64] nanoseconds. *)
Definition linkOk (c : PhaseControlConfig) (binding : list Z) : Prop :=
  length binding = 32%nat /\ Forall isByte binding /\ Forall (fun p => 0 <= p < 2 ^ 32) (cf_Phases c).
Definition ioOk (io : exchangeIO) : Prop := forall d, io_deadline io = Some d -> d <= MaxInt64.

Definition withAck (ack : option (list Z)) (io : exchangeIO) : exchangeIO :=
  mkIO (io_ctxNil io) (io_gate io) (io_opDone io) (io_deadline io) (io_now io) (io_exact io)
    (io_setDeadline io) (io_write io) ack (io_doneAfter io).
Definition withRead (raw : list Z) (rq : request) : request :=
  mkRequest (rq_closedTop rq) (rq_idleDeadline rq) (rq_closedIdle rq) (Raw raw) (rq_frameDeadline rq)
    (rq_measure rq) (rq_now rq) (rq_drainDeadline rq) (rq_op rq) (rq_opDone rq) (rq_ack rq) (rq_after rq).

(** One exchange over a link that delivers the parent's bytes: the server
    reads what was written, and the parent reads the echo of a request the
    server completed. *)
Definition converse (c : PhaseControlConfig) (binding : list Z) (x : Z * exchangeIO * request)
    (st : PhaseControl * served_outcome) : option err * (PhaseControl * served_outcome) :=
  let '(op, io, rq) := x in
  let '(p, o) := st in
  if io_ctxNil io || negb (io_gate io)
  then let '(e, p') := PhaseControl.failed ErrCanceled p in (e, (p', o))
  else match prepare op io p with
  | (Err e, p') => (Some e, (p', o))
  | (Ok (f, state, index), p') =>
      let o' := match o with
                | Stop e => Stop e
                | Continue s =>
                    if io_setDeadline io && io_write io
                    then serveTurn c binding (withRead (encodeControl f) rq) s else Continue s
                end in
      let ack := match o' with Continue _ => Some (encodeControl f) | Stop _ => None end in
      let '(e, p'') := transfer op (withAck ack io) f state index p' in (e, (p'', o'))
  end.
Fixpoint conversation (c : PhaseControlConfig) (binding : list Z) (l : list (Z * exchangeIO * request))
    (st : PhaseControl * served_outcome) : PhaseControl * served_outcome :=
  match l with
  | [] => st
  | x :: l' => conversation c binding l' (snd (converse c binding x st))
  end.

Lemma failControl_err e p : pc_err (snd (PhaseControl.failed e p)) <> None.
Proof. unfold PhaseControl.failed, failControl. destruct (pc_err p) eqn:E; cbn; congruence. Qed.

(** The operations the state machine accepts are wire operations. *)
Lemma accepted_op state index op c r :
  nextConfiguredControlState state index op c = Ok r -> 1 <= op <= 8.
Proof.
  destruct (op_cases op) as [->|[->|[->|[->|[->|[->|[->|[->|(O1 & O2 & O3 & O4 & O5 & O6 & O7 & O8)]]]]]]]]; try lia.
  unfold nextConfiguredControlState, nextControlState, phasePause, phaseCheckpoint, phaseResume, phaseOwnerDrain,
    phaseRequestsOpen, phaseRequestsFence, phaseOwnersReopen, phaseTerminalQuiesce.
  rewrite O1, O2, O3, O4, O5, O6, O7, O8. cbn [andb orb].
  rewrite !andb_false_r. repeat case_match; discriminate.
Qed.

Lemma phaseAt_range c index :
  Forall (fun p => 0 <= p < 2 ^ 32) (cf_Phases c) -> 0 <= phaseAt c index < 2 ^ 32.
Proof.
  intros H. unfold phaseAt. destruct (nth_in_or_default index (cf_Phases c) 0) as [Hin| ->]; [|lia].
  rewrite Forall_forall in H. apply H, list_elem_of_In, Hin.
Qed.

(** A prepared frame is well formed, and is what the state machine says. *)
Lemma prepare_spec op io p f state index p' :
  linkOk (pc_config p) (pc_binding p) -> ioOk io -> 0 <= pc_sequence p <= MaxUint64 ->
  prepare op io p = (Ok (f, state, index), p') ->
  controlAdmitted f /\ pf_op f = op /\ pf_binding f = pc_binding p /\
  nextConfiguredControlState (pc_state p) (pc_index p) op (pc_config p) = Ok (state, index) /\
  pf_phase f = phaseAt (pc_config p) index /\ pf_sequence f = pc_sequence p + 1 /\
  pc_sequence p < MaxUint64 /\ pc_err p = None /\ pc_ctxErr p = false /\
  (pf_deadlineUnixNano f <> 0 <-> needsWorkspace (pc_config p) op index = true) /\
  pc_config p' = pc_config p /\ pc_binding p' = pc_binding p /\ pc_sequence p' = pc_sequence p + 1 /\
  pc_err p' = None /\ pc_ctxErr p' = false.
Proof.
  intros (Hbl & Hbb & Hph) Hio Hseq H. unfold prepare in H. cbn zeta in H.
  destruct (pc_err p) eqn:Ee; [unfold failControl in H; rewrite Ee in H; discriminate|].
  unfold failControl in H. rewrite Ee in H.
  destruct (_ || _ || io_opDone io) eqn:Ec; [discriminate|].
  destruct ((pc_sequence p =? MaxUint64) || _) eqn:El; [discriminate|].
  destruct (nextConfiguredControlState _ _ op _) as [[state0 index0]|] eqn:En; [|discriminate].
  bsplit. pose proof (accepted_op _ _ _ _ _ En) as Hop.
  assert (Hu : u64 (pc_sequence p + 1) = pc_sequence p + 1) by (apply u64_small; lia).
  assert (Hadm : forall d, 0 <= d <= MaxInt64 -> (d <> 0 -> carriesWorkspace op (phaseAt (pc_config p) index0) = true) ->
    controlAdmitted (mkControlFrame op (phaseAt (pc_config p) index0) (u64 (pc_sequence p + 1)) (pc_binding p) d)).
  { intros d Hd Hw. unfold controlAdmitted. cbn [pf_op pf_phase pf_sequence pf_binding pf_deadlineUnixNano].
    unfold phasePause, phaseBackupMeasurementRelease, MaxUint64 in *. rewrite Hu.
    split; [lia|]. split; [by apply phaseAt_range|]. split; [lia|]. split; [exact Hbl|]. split; [exact Hbb|].
    unfold isBackupMeasurement, phaseBackupMeasurementHold, phaseBackupMeasurementRelease.
    rewrite (proj2 (Z.eqb_neq op 9)), (proj2 (Z.eqb_neq op 10)) by lia. cbn [orb].
    destruct (carriesWorkspace _ _) eqn:E; [exact Hd|]. destruct (Z.eq_dec d 0); [assumption|].
    specialize (Hw n). discriminate. }
  destruct (needsWorkspace _ op index0) eqn:Ew.
  - destruct (io_deadline io) as [d|] eqn:Ed; [|discriminate].
    destruct (_ || _ || _) eqn:Eg in H; [discriminate|]. bsplit. injection H as <- <- <- <-. cbn.
    rewrite Hu. specialize (Hio d Ed).
    assert (Hcw : carriesWorkspace op (phaseAt (pc_config p) index0) = true).
    { clear -Ew. unfold needsWorkspace, carriesWorkspace in *.
      destruct (op =? phaseResume), (op =? phaseOwnersReopen), (phaseAt _ index0 =? 3), (phaseAt _ index0 =? 4);
        cbn in *; rewrite ?andb_false_r in Ew; cbn in *; auto. }
    pose proof (Hadm d ltac:(lia) ltac:(auto)) as Ha. rewrite Hu in Ha.
    assert (Hiff : d <> 0 <-> needsWorkspace (pc_config p) op index0 = true) by (split; [auto|lia]).
    split; [exact Ha|]. repeat match goal with |- _ /\ _ => split end; auto; lia.
  - injection H as <- <- <- <-. cbn. rewrite Hu.
    pose proof (Hadm 0 ltac:(unfold MaxInt64; lia) ltac:(congruence)) as Ha. rewrite Hu in Ha.
    assert (Hiff : 0 <> 0 <-> needsWorkspace (pc_config p) op index0 = true) by (split; congruence).
    split; [exact Ha|]. repeat match goal with |- _ /\ _ => split end; auto; lia.
Qed.

(** A frame the state machine accepts, read by a server in the same state:
    the server answers by its checks of deadlines, the client's operation and
    the transport, and ends in the parent's next state. *)
Lemma serveTurn_frame c binding rq s f state index :
  controlAdmitted f -> pf_binding f = binding -> 0 <= sv_sequence s < MaxUint64 ->
  pf_sequence f = sv_sequence s + 1 ->
  nextConfiguredControlState (sv_state s) (sv_index s) (pf_op f) c = Ok (state, index) ->
  pf_phase f = phaseAt c index ->
  serveTurn c binding (withRead (encodeControl f) rq) s =
    (if rq_closedTop rq then Stop None
     else if u64 (cf_MaximumWireBytes c - sv_wireBytes s) <? 2 * FrameBytes then Stop (Some ErrLimit)
     else if negb (rq_idleDeadline rq) then (if rq_closedIdle rq then Stop None else Stop (Some ErrTransport))
     else if negb (rq_frameDeadline rq) then Stop (Some ErrTransport)
     else serveRequest c (withRead (encodeControl f) rq) f
            (s <| sv_wireBytes := u64 (sv_wireBytes s + 2 * FrameBytes) |>)).
Proof.
  intros Hadm Hbind Hseq Hfs Hnext Hph. unfold serveTurn. cbn [withRead rq_closedTop rq_idleDeadline rq_closedIdle rq_read rq_frameDeadline].
  rewrite (decodeControl_complete f Hadm). pose proof (accepted_op _ _ _ _ _ Hnext) as Hop.
  set (s1 := s <| sv_wireBytes := _ |>). change (sv_sequence s1) with (sv_sequence s).
  unfold bytes_eqb. rewrite Hbind, bool_decide_eq_true_2 by reflexivity.
  rewrite Hfs, Z.eqb_refl, (proj2 (Z.eqb_neq (sv_sequence s) MaxUint64)) by lia. cbn [negb orb].
  unfold phaseBackupMeasurementHold. rewrite (proj2 (Z.eqb_neq (pf_op f) 9)) by lia. reflexivity.
Qed.

Lemma serveRequest_advances c rq f s s' state index :
  nextConfiguredControlState (sv_state s) (sv_index s) (pf_op f) c = Ok (state, index) ->
  0 <= sv_sequence s < MaxUint64 -> serveRequest c rq f s = Continue s' ->
  sv_state s' = state /\ sv_index s' = index /\ sv_sequence s' = sv_sequence s + 1.
Proof.
  intros Hn Hseq. unfold serveRequest. rewrite Hn.
  destruct (negb (_ =? _)); [discriminate|]. destruct (negb (workspaceOk _ _ _)); [discriminate|].
  destruct (_ && _); [discriminate|]. destruct (_ && _); [discriminate|].
  destruct (rq_op rq _); [|discriminate]. destruct (rq_opDone rq); [discriminate|].
  destruct (negb (rq_ack rq)); [discriminate|]. destruct (if _ || _ then _ else _); [|discriminate].
  intros [= <-]. assert (Hu : u64 (sv_sequence s + 1) = sv_sequence s + 1) by (apply u64_small; lia).
  destruct (pf_op f =? phaseCheckpoint); [cbn; rewrite Hu; auto|].
  destruct (_ && _); cbn; rewrite Hu; auto.
Qed.

Lemma failed_not_None e p p' : PhaseControl.failed e p = (None, p') -> False.
Proof. unfold PhaseControl.failed. destruct (failControl _ _). discriminate. Qed.

Lemma transfer_ok op io f state index p p' :
  transfer op io f state index p = (None, p') ->
  io_ack io = Some (encodeControl f) /\ io_setDeadline io = true /\ io_write io = true /\
  pc_state p' = state /\ pc_index p' = index /\ pc_sequence p' = pc_sequence p /\
  pc_config p' = pc_config p /\ pc_binding p' = pc_binding p /\ pc_err p' = pc_err p /\ pc_ctxErr p' = pc_ctxErr p.
Proof.
  unfold transfer. destruct (negb (io_setDeadline io) || negb (io_write io)) eqn:E; [by intros H%failed_not_None|].
  destruct (io_ack io) as [ack|]; [|by intros H%failed_not_None].
  destruct (negb (bytes_eqb ack _)) eqn:Ea; [by intros H%failed_not_None|].
  destruct (io_doneAfter io || _); [by intros H%failed_not_None|].
  apply negb_false_iff, bool_decide_eq_true in Ea. bsplit. intros [= <-].
  subst ack. destruct (_ || _); cbn; auto 12.
Qed.

Lemma transfer_fails op io f state index p e p' :
  transfer op io f state index p = (Some e, p') -> pc_err p' <> None.
Proof.
  unfold transfer. intros H.
  assert (Hf : forall x, PhaseControl.failed x p = (Some e, p') -> pc_err p' <> None).
  { intros x Hx. pose proof (failControl_err x p) as Hne. rewrite Hx in Hne. exact Hne. }
  destruct (_ || _); [eauto|]. destruct (io_ack io); [|eauto]. destruct (negb _); [eauto|].
  destruct (io_doneAfter io || _); [eauto|]. discriminate.
Qed.

Lemma prepare_fails op io p e p' : prepare op io p = (Err e, p') -> pc_err p' <> None.
Proof.
  unfold prepare. cbn zeta. intros H.
  assert (Hf : forall x, (let '(e', c') := failControl x p in (Err e', c')) = (@Err err (phaseControlFrame * Z * nat) e, p') ->
    pc_err p' <> None).
  { intros x Hx. unfold failControl in Hx. destruct (pc_err p) eqn:E; injection Hx as <- <-; cbn; congruence. }
  destruct (match pc_err p with Some _ => _ | None => _ end) as [[state index]|x]; [|eauto].
  destruct (needsWorkspace _ _ _); [|discriminate]. destruct (io_deadline io); [|eauto].
  destruct (_ || _ || _); [eauto|discriminate].
Qed.

(** Errors of the parent are sticky. *)
Lemma converse_latched c binding x p o :
  pc_err p <> None -> pc_err (fst (snd (converse c binding x (p, o)))) <> None.
Proof.
  intros He. destruct x as [[op io] rq]. cbn. destruct (_ || _).
  { unfold PhaseControl.failed, failControl. destruct (pc_err p) eqn:E; [cbn; congruence|contradiction]. }
  unfold prepare. cbn zeta. unfold failControl. destruct (pc_err p) eqn:E; [|contradiction]. cbn. congruence.
Qed.

Lemma converse_step c binding op io rq p s :
  linkOk c binding -> ioOk io -> agree c p s -> pc_binding p = binding ->
  let '(e, (p', o')) := converse c binding (op, io, rq) (p, Continue s) in
  (e = None -> exists s', o' = Continue s' /\ agree c p' s' /\ pc_binding p' = binding) /\
  (e <> None -> pc_err p' <> None).
Proof.
  intros Hlink Hio (Hc & Hst & Hix & Hsq & Hrange) Hb. cbn. destruct (io_ctxNil io || _).
  { destruct (PhaseControl.failed ErrCanceled p) as [e p'] eqn:E. pose proof (failControl_err ErrCanceled p) as Hne.
    rewrite E in Hne. split; [|auto]. intros ->. unfold PhaseControl.failed in E. destruct (failControl _ _); discriminate. }
  destruct (prepare op io p) as [[[[f state] index]|e] p'] eqn:Ep.
  2: { split; [discriminate|]. intros _. by apply prepare_fails in Ep. }
  subst c binding.
  destruct (prepare_spec op io p f state index p' Hlink Hio Hrange Ep)
    as (Hadm & Hop & Hbind & Hnext & Hph & Hfs & Hmax & _ & _ & _ & Hc' & Hb' & Hs' & _ & _).
  set (o' := if _ && _ then _ else _).
  destruct (transfer op _ f state index p') as [e p''] eqn:Et. destruct e as [e|].
  { split; [discriminate|]. intros _. by apply transfer_fails in Et. }
  split; [|congruence]. intros _. destruct (transfer_ok _ _ _ _ _ _ _ Et) as (Hack & Hsd & Hw & T1 & T2 & T3 & T4 & T5 & _).
  cbn in Hack, Hsd, Hw. unfold o' in *. rewrite Hsd, Hw in *. cbn [andb] in *.
  assert (Hturn := serveTurn_frame (pc_config p) (pc_binding p) rq s f state index Hadm Hbind ltac:(lia) ltac:(lia)
    ltac:(rewrite <- Hst, <- Hix, Hop; exact Hnext) Hph).
  destruct (serveTurn _ _ _ s) as [s'|]; [|discriminate]. exists s'. split; [reflexivity|].
  split; [|congruence].
  assert (Hadv : sv_state s' = state /\ sv_index s' = index /\ sv_sequence s' = sv_sequence s + 1).
  { destruct (rq_closedTop rq); [discriminate|]. destruct (_ <? _); [discriminate|].
    destruct (negb (rq_idleDeadline rq)); [destruct (rq_closedIdle rq); discriminate|].
    destruct (negb (rq_frameDeadline rq)); [discriminate|]. symmetry in Hturn.
    apply (serveRequest_advances _ _ _ _ s' state index) in Hturn; cbn; auto; [|lia].
    rewrite <- Hst, <- Hix, Hop. exact Hnext. }
  destruct Hadv as (A1 & A2 & A3). unfold agree. rewrite T1, T2, T3, T4, A1, A2, A3, Hs'.
  repeat split; auto; lia.
Qed.

Lemma conversation_latched c binding l p o :
  pc_err p <> None -> pc_err (fst (conversation c binding l (p, o))) <> None.
Proof.
  revert p o. induction l as [|x l IH]; intros p o He; [exact He|]. cbn [conversation].
  pose proof (converse_latched c binding x p o He) as Hc.
  destruct (snd (converse c binding x (p, o))) as [p' o']. apply IH, Hc.
Qed.

Lemma conversation_step c binding l p s :
  linkOk c binding -> Forall (fun x => ioOk (snd (fst x))) l -> agree c p s -> pc_binding p = binding ->
  let '(p', o') := conversation c binding l (p, Continue s) in
  pc_err p' <> None \/ exists s', o' = Continue s' /\ agree c p' s'.
Proof.
  intros Hlink. revert p s. induction l as [|[[op io] rq] l IH]; intros p s Hl Ha Hb; cbn [conversation]; [eauto|].
  apply Forall_cons in Hl as [Hio Hl].
  pose proof (converse_step c binding op io rq p s Hlink Hio Ha Hb) as Hstep.
  destruct (converse c binding (op, io, rq) (p, Continue s)) as [e [p' o']]. destruct Hstep as [Hok Hbad]. cbn [snd].
  destruct e as [e|].
  - pose proof (conversation_latched c binding l p' o' (Hbad ltac:(discriminate))) as Hc.
    destruct (conversation _ _ _ _). left. exact Hc.
  - destruct (Hok eq_refl) as (s' & -> & Ha' & Hb'). by apply IH.
Qed.

(** What [NewPhaseControl] and the server's own validation start from. *)
Lemma new_agree now now' ctxDone binding c p index :
  NewPhaseControl now ctxDone binding c = Ok p -> validate now' c = Ok index ->
  agree c p (newServed index) /\ pc_binding p = binding /\ pc_err p = None.
Proof.
  unfold NewPhaseControl. intros Hp Hv.
  assert (Hix : forall t i, validate t c = Ok i -> slices_Index (cf_Phases c) (cf_InitialPhase c) = Some i).
  { intros t i H. unfold validate in H. repeat case_match; congruence. }
  destruct (validate now c) as [i|] eqn:E; [|discriminate]. destruct (_ || _); [discriminate|]. injection Hp as <-.
  apply Hix in E, Hv. unfold agree. cbn. repeat split; try congruence; unfold MaxUint64; lia.
Qed.

(** The parent and the server of one binding never diverge: whatever the
    contexts, deadlines, client results and transport do along a conversation,
    either the parent holds a sticky error, or the server is still serving and
    both have the same state, phase and sequence number. *)
Theorem parent_server_lockstep now now' ctxDone binding c p index l :
  NewPhaseControl now ctxDone binding c = Ok p -> validate now' c = Ok index ->
  linkOk c binding -> Forall (fun x => ioOk (snd (fst x))) l ->
  let '(p', o') := conversation c binding l (p, Continue (newServed index)) in
  pc_err p' <> None \/ exists s', o' = Continue s' /\ agree c p' s'.
Proof.
  intros Hp Hv Hlink Hl. destruct (new_agree _ _ _ _ _ _ _ Hp Hv) as (Ha & Hb & _). by apply conversation_step.
Qed.

(** ** A healthy exchange completes *)
Definition healthyIO (c : PhaseControlConfig) (op : Z) (index : nat) (io : exchangeIO) : Prop :=
  io_ctxNil io = false /\ io_gate io = true /\ io_opDone io = false /\ io_exact io = true /\
  io_setDeadline io = true /\ io_write io = true /\ io_doneAfter io = false /\
  (needsWorkspace c op index = true -> exists d, io_deadline io = Some d /\ Z.max 0 (io_now io) < d <= MaxInt64).
Definition healthyRequest (c : PhaseControlConfig) (io : exchangeIO) (rq : request) : Prop :=
  rq_closedTop rq = false /\ rq_idleDeadline rq = true /\ rq_frameDeadline rq = true /\
  rq_drainDeadline rq = true /\ (forall call, rq_op rq call = Ok tt) /\ rq_opDone rq = false /\
  rq_ack rq = true /\ rq_after rq = Ok tt /\
  (forall d, io_deadline io = Some d -> rq_now rq < d) /\
  (cf_OwnerDrainDeadlineUnixNano c <> 0 -> rq_now rq < cf_OwnerDrainDeadlineUnixNano c).
Definition budget (c : PhaseControlConfig) (wire : Z) : Prop :=
  2 * FrameBytes <= u64 (cf_MaximumWireBytes c - wire).

Lemma prepare_healthy op io p state index :
  pc_err p = None -> pc_closed p = false -> pc_ctxErr p = false -> pc_sequence p <> MaxUint64 ->
  budget (pc_config p) (pc_wireBytes p) -> healthyIO (pc_config p) op index io ->
  nextConfiguredControlState (pc_state p) (pc_index p) op (pc_config p) = Ok (state, index) ->
  exists f p', prepare op io p = (Ok (f, state, index), p') /\ pf_deadlineUnixNano f =
    (if needsWorkspace (pc_config p) op index then default 0 (io_deadline io) else 0).
Proof.
  intros He Hcl Hctx Hsq Hbud (H1 & H2 & H3 & H4 & H5 & H6 & H7 & H8) Hn. unfold prepare, budget in *. cbn zeta.
  rewrite He, Hcl, Hctx, H3, (proj2 (Z.eqb_neq _ _) Hsq), (proj2 (Z.ltb_ge _ _) Hbud). cbn [orb]. rewrite Hn.
  destruct (needsWorkspace _ _ _); [|by eexists _, _].
  destruct (H8 eq_refl) as (d & -> & Hd). rewrite H4.
  rewrite (proj2 (Z.ltb_lt (io_now io) d)), (proj2 (Z.leb_gt d 0)) by lia. cbn [orb negb]. by eexists _, _.
Qed.

Lemma serveRequest_healthy c io rq f s state index :
  healthyRequest c io rq -> nextConfiguredControlState (sv_state s) (sv_index s) (pf_op f) c = Ok (state, index) ->
  pf_phase f = phaseAt c index ->
  pf_deadlineUnixNano f = (if needsWorkspace c (pf_op f) index then default 0 (io_deadline io) else 0) ->
  (needsWorkspace c (pf_op f) index = true -> exists d, io_deadline io = Some d /\ 0 < d) ->
  exists s', serveRequest c rq f s = Continue s'.
Proof.
  intros (H1 & H2 & H3 & H4 & H5 & H6 & H7 & H8 & H9 & H10) Hn Hph Hd Hw. unfold serveRequest.
  rewrite Hn, Hph, Z.eqb_refl, H5, H6, H7, H4. cbn [negb].
  assert (Hok : workspaceOk c (rq_now rq) f = true).
  { assert (Hsel : isWarm c f || isPhysical c f = needsWorkspace c (pf_op f) index)
      by (unfold isWarm, isPhysical, needsWorkspace; rewrite Hph; reflexivity).
    unfold workspaceOk. rewrite Hsel, Hd.
    destruct (needsWorkspace _ _ _) eqn:Ew.
    - destruct (Hw eq_refl) as (d & Hdl & Hpos). rewrite Hdl. change (default 0 (Some d)) with d.
      rewrite (proj2 (Z.eqb_neq d 0)), (proj2 (Z.ltb_lt (rq_now rq) d)) by (auto; lia). cbn. by rewrite andb_false_r.
    - cbn. by rewrite andb_false_r. }
  rewrite Hok. cbn [negb].
  assert (Hdr : isSelectedDrain c f s && negb (rq_now rq <? cf_OwnerDrainDeadlineUnixNano c) = false).
  { unfold isSelectedDrain. destruct (Z.eqb_spec (cf_OwnerDrainDeadlineUnixNano c) 0) as [->|Hne]; cbn [negb].
    - by rewrite andb_false_r.
    - rewrite (proj2 (Z.ltb_lt _ _) (H10 Hne)). apply andb_false_r. }
  rewrite Hdr. cbn [negb]. rewrite andb_false_r, H8. destruct (_ || _); eauto.
Qed.

(** A healthy exchange completes: if the state machine allows the
    operation, both wire budgets have room, the deadlines are live, the
    client's operation succeeds and the transport delivers, the exchange
    returns no error and both sides reach the state machine's next state. *)
Theorem healthy_exchange_completes c binding p s op io rq state index :
  linkOk c binding -> ioOk io -> agree c p s -> pc_binding p = binding ->
  pc_err p = None -> pc_closed p = false -> pc_ctxErr p = false -> pc_sequence p <> MaxUint64 ->
  budget c (pc_wireBytes p) -> budget c (sv_wireBytes s) ->
  healthyIO c op index io -> healthyRequest c io rq ->
  nextConfiguredControlState (pc_state p) (pc_index p) op c = Ok (state, index) ->
  exists p' s', converse c binding (op, io, rq) (p, Continue s) = (None, (p', Continue s')) /\
    agree c p' s' /\ pc_state p' = state /\ pc_index p' = index.
Proof.
  intros Hlink Hio Ha Hb He Hcl Hctx Hsq Hb1 Hb2 Hh Hr Hn. pose proof Ha as (Hc & Hst & Hix & Hseq & Hrange).
  pose proof (converse_step c binding op io rq p s Hlink Hio Ha Hb) as Hstep. subst c binding.
  destruct (prepare_healthy op io p state index He Hcl Hctx Hsq Hb1 Hh Hn) as (f & p' & Hp & Hd).
  destruct (prepare_spec op io p f state index p' Hlink Hio Hrange Hp)
    as (Hadm & Hop & Hbind & _ & Hph & Hfs & Hmax & _ & _ & _ & Hc' & Hb' & Hs' & He' & Hctx').
  assert (Hturn := serveTurn_frame (pc_config p) (pc_binding p) rq s f state index Hadm Hbind ltac:(lia) ltac:(lia)
    ltac:(rewrite <- Hst, <- Hix, Hop; exact Hn) Hph).
  pose proof Hr as (R1 & R2 & R3 & _). pose proof Hh as (I1 & I2 & I3 & I4 & I5 & I6 & I7 & I8).
  rewrite R1, R2, R3, (proj2 (Z.ltb_ge _ _) Hb2) in Hturn. cbn [negb] in Hturn.
  destruct (serveRequest_healthy (pc_config p) io (withRead (encodeControl f) rq) f
    (s <| sv_wireBytes := u64 (sv_wireBytes s + 2 * FrameBytes) |>) state index) as [s' Hsv].
  { exact Hr. }
  { cbn. rewrite <- Hst, <- Hix, Hop. exact Hn. }
  { exact Hph. }
  { rewrite Hop. exact Hd. }
  { rewrite Hop. intros Hw. destruct (I8 Hw) as (d & Hdl & ?). exists d. split; [exact Hdl|lia]. }
  rewrite Hsv in Hturn. cbn [converse] in *. rewrite I1, I2, Hp, I5, I6, Hturn in *. cbn [orb negb andb] in *.
  unfold transfer in *. cbn [withAck io_setDeadline io_write io_ack io_doneAfter] in *.
  rewrite I5, I6, I7, Hctx' in *. unfold bytes_eqb in *. rewrite bool_decide_eq_true_2 in * by reflexivity.
  cbn [negb orb] in *. destruct Hstep as [Hstep _]. destruct (Hstep eq_refl) as (s'' & [= <-] & Ha' & _).
  eexists _, s'. split; [reflexivity|]. split; [exact Ha'|].
  destruct (_ || _); split; reflexivity.
Qed.

(** ** Witnesses *)
Definition example_config : PhaseControlConfig :=
  mkControlConfig false false false 0 false 0 0 true [2; 3] 2 2 4096 second.
Definition example_binding : list Z := replicate 32 1.
Definition example_io : exchangeIO := mkIO false true false (Some 100) 10 true true true None false.
Definition example_request : request :=
  mkRequest false true false NoFirstByte true (Ok tt) 10 true (fun _ => Ok tt) false true (Ok tt).
Definition example_control : PhaseControl :=
  mkControl example_config example_binding 0 0 0 0 0 false false None.

Lemma example_link : linkOk example_config example_binding.
Proof.
  repeat split; [apply Forall_replicate; unfold isByte; lia|].
  repeat constructor; lia.
Qed.
Lemma example_ioOk : ioOk example_io.
Proof. intros d [= <-]. unfold MaxInt64. lia. Qed.
Lemma example_agree : agree example_config example_control (newServed 0).
Proof. repeat split; unfold MaxUint64; cbn; lia. Qed.

Lemma phase_decode_exact_witness :
  exists raw f, length raw = 64%nat /\ Forall isByte raw /\ decodePhaseControl raw = Ok f /\ raw = encodeControl f.
Proof.
  set (f := mkControlFrame phaseResume 3 7 example_binding 42).
  exists (encodeControl f), f.
  assert (Hb : Forall isByte (encodeControl f)).
  { apply Forall_forall. intros x Hx.
    assert (Hall : forallb (fun x => (0 <=? x) && (x <? 256)) (encodeControl f) = true) by (vm_compute; reflexivity).
    rewrite forallb_forall in Hall. apply list_elem_of_In, Hall in Hx. unfold isByte. bsplit. lia. }
  assert (Hd : decodePhaseControl (encodeControl f) = Ok f) by (vm_compute; reflexivity).
  split; [reflexivity|]. split; [exact Hb|]. split; [exact Hd|].
  exact (proj2 (proj1 (phase_decode_exact (encodeControl f) f eq_refl Hb) Hd)).
Defined.

Lemma control_refines_barrier_witness :
  exists state index b, controlRun example_config [phaseOwnerDrain; phasePause; phaseCheckpoint; phaseResume] 0 0
      = Some (state, index) /\
    barrierOf state index = Some b /\ ba_index b = 1%nat /\ ba_resumed b = true.
Proof.
  pose proof (control_refines_barrier example_config [phaseOwnerDrain; phasePause; phaseCheckpoint; phaseResume] 0
    eq_refl eq_refl) as H.
  destruct (controlRun _ _ _ _) as [[state index]|] eqn:E; [|vm_compute in E; discriminate].
  destruct H as (b & Hrun & Hb). exists state, index, b. split; [reflexivity|]. split; [exact Hb|].
  vm_compute in Hrun. injection Hrun as <-. split; reflexivity.
Defined.

Lemma parent_server_lockstep_witness :
  exists p' o', conversation example_config example_binding
      [(phaseOwnerDrain, example_io, example_request); (phaseResume, example_io, example_request)]
      (example_control, Continue (newServed 0)) = (p', o') /\
    (pc_err p' <> None \/ exists s', o' = Continue s' /\ agree example_config p' s').
Proof.
  pose proof (parent_server_lockstep 5 6 false example_binding example_config example_control 0
    [(phaseOwnerDrain, example_io, example_request); (phaseResume, example_io, example_request)]
    ltac:(vm_compute; reflexivity) ltac:(vm_compute; reflexivity) example_link
    ltac:(repeat constructor; exact example_ioOk)) as H.
  destruct (conversation _ _ _ _) as [p' o']. exists p', o'. split; [reflexivity|exact H].
Defined.

Lemma healthy_exchange_completes_witness :
  exists p' s', converse example_config example_binding (phaseOwnerDrain, example_io, example_request)
      (example_control, Continue (newServed 0)) = (None, (p', Continue s')) /\
    agree example_config p' s' /\ pc_state p' = phaseOwnerDrain /\ pc_index p' = 0%nat.
Proof.
  apply (healthy_exchange_completes example_config example_binding example_control (newServed 0) phaseOwnerDrain
    example_io example_request phaseOwnerDrain 0 example_link example_ioOk example_agree).
  - reflexivity.
  - reflexivity.
  - reflexivity.
  - reflexivity.
  - discriminate.
  - unfold budget. vm_compute. discriminate.
  - unfold budget. vm_compute. discriminate.
  - repeat split. intros H. vm_compute in H. discriminate.
  - repeat split; [intros d [= <-]; vm_compute; reflexivity|intros H; vm_compute in H; contradiction].
  - vm_compute. reflexivity.
Defined.
