(* ===== verification/DispatchClient.v ===== *)
(** * The dispatch client

    Model of [internal/dispatchadmission/client.go], of [producer_view.go] and
    of [local_producer.go]: the producer's end of the admission socket.  Every
    section of the code under the mutex is one function of the client; the
    request gate is a flag.  Contexts, selects and the transport are inputs;
    the executions of commands and the store lifetime's checkpoint and resume
    are the results they return.  [errors.Join(ErrIncomplete, err)] is its
    first part. *)
From stdpp Require Import sorting.
From S2P Require Import Prelude Bytes DispatchAdmission.

Record commandState := mkCommand {
  cm_pending : bool;
  cm_persistent : bool;
  cm_carried : bool
}.
#[export] Instance eta_commandState : Eta commandState :=
  fun m => mkCommand (cm_pending m) (cm_persistent m) (cm_carried m).

(** [changed] is the number of channels closed so far. *)
Record Client := mkClient {
  cl_binding : list Z;
  cl_sites : gmap Z Site;
  cl_limits : Limits;
  cl_phase : Z;
  cl_ordinal : Z;
  cl_sequence : Z;
  cl_wireBytes : Z;
  cl_active : gmap Z commandState;
  cl_gate : bool;
  cl_changed : Z;
  cl_paused : bool;
  cl_waiters : Z;
  cl_terminalState : Z;
  cl_controlCheckpointAcknowledged : bool;
  cl_fenced : bool;
  cl_checkpoint : bool;
  cl_closed : bool;
  cl_ctxErr : bool;
  cl_err : option err
}.
#[export] Instance eta_Client : Eta Client :=
  fun c => mkClient (cl_binding c) (cl_sites c) (cl_limits c) (cl_phase c) (cl_ordinal c)
    (cl_sequence c) (cl_wireBytes c) (cl_active c) (cl_gate c) (cl_changed c) (cl_paused c)
    (cl_waiters c) (cl_terminalState c) (cl_controlCheckpointAcknowledged c) (cl_fenced c)
    (cl_checkpoint c) (cl_closed c) (cl_ctxErr c) (cl_err c).

(** ** Construction *)
Fixpoint clientSites (sites : gmap Z Site) (input : list Site) : res err (gmap Z Site) :=
  match input with
  | [] => Ok sites
  | s :: rest =>
      if (si_ID s =? 0) || (si_Role s =? 0)
         || match sites !! si_ID s with Some q => negb (si_ID q =? 0) | None => false end
      then Err ErrConfig
      else clientSites (<[si_ID s := s]> sites) rest
  end.

(** [ctxLive] is [ctx != nil && ctx.Err() == nil]. *)
Definition NewClient (ctxLive : bool) (producer : Producer) (phase : Z) (limits : Limits) : res err Client :=
  if negb ctxLive || (pr_ID producer =? 0) || bytes_eqb (pr_Binding producer) zeroDigest || (phase =? 0)
     || (li_ActivePerProducer limits <? 1) || (li_AckTimeout limits <=? 0)
     || (li_WireBytes limits <? 2 * FrameBytes)
     || (Z.of_nat (length (pr_Sites producer)) =? 0)
     || (li_Sites limits <? Z.of_nat (length (pr_Sites producer)))
  then Err ErrConfig
  else match clientSites ∅ (pr_Sites producer) with
       | Err e => Err e
       | Ok sites =>
           Ok (mkClient (pr_Binding producer) sites limits phase 0 0 0 ∅ false 0 false 0 0 false
                 false false false false None)
       end.

Record ProducerLaunch_ := mkLaunch { la_Producer : Producer; la_Limits : Limits; la_Phase : Z }.

(** A configured producer that no endpoint has ever used. *)
Definition untouched (p : producerState) : bool :=
  negb (ps_attached p) && negb (ps_closed p) && (ps_ordinal p =? 0) && (ps_sequence p =? 0)
  && (ps_checkpoint p =? 0) && (ps_pid p =? 0) && negb (ps_eof p) && negb (ps_hardDeath p)
  && Nat.eqb (size (ps_active p)) 0.

Definition siteBefore (a b : Site) : Prop := si_ID a <= si_ID b.
#[export] Instance siteBefore_dec : RelDecision siteBefore.
Proof. intros a b. unfold siteBefore. apply _. Defined.

Definition ProducerLaunch (producer : Z) : op ProducerLaunch_ :=
  checkLocked ;; c <- get ;;
  match c_producers c !! producer with
  | Some p =>
      if c_fenced c || negb (untouched p) then throw ErrProtocol
      else ret (mkLaunch
                  (mkProducer producer (ps_binding p) (merge_sort siteBefore ((map_to_list (ps_sites p)).*2)))
                  (c_limits c) (ph_ID (curPhase c)))
  | None => throw ErrProtocol
  end.

(** [ProducerCount] returns its row beside the sticky error. *)
Definition ProducerCountOf (producer : Z) (c : Controller) : (option ProducerCount * option err) * Controller :=
  match c_producers c !! producer with
  | None => ((None, Some ErrConfig), c)
  | Some p =>
      let '(r, c') := checkLocked c in
      ((Some (producerRow producer p), match r with Ok _ => None | Err e => Some e end), c')
  end.

(** The controller's half of [NewLocalProducer]: attachment under its mutex. *)
Definition attachLocal (ctxDone : bool) (producer phase pid : Z) : op unit :=
  checkLocked ;;
  if ctxDone then failLocked ErrCanceled
  else c <- get ;;
    match c_producers c !! producer with
    | Some p =>
        if c_fenced c || negb (untouched p) || negb (ph_ID (curPhase c) =? phase)
        then failLocked ErrProtocol
        else modify (setProducer producer (p <| ps_attached := true |> <| ps_pid := pid |>))
    | None => failLocked ErrProtocol
    end.

Definition NewLocalProducer (ctxDone later : bool) (producer pid : Z) : op Client :=
  if ctxDone then throw ErrCanceled
  else view <- ProducerLaunch producer ;;
    match NewClient true (la_Producer view) (la_Phase view) (la_Limits view) with
    | Err e => throw e
    | Ok client => attachLocal later producer (la_Phase view) pid ;; ret client
    end.

(** ** The failure latch *)
Definition notifyLocked (c : Client) : Client := c <| cl_changed ::= fun n => n + 1 |>.

Definition failClient (e : err) (c : Client) : err * Client :=
  match cl_err c with
  | Some e0 => (e0, c)
  | None => (e, notifyLocked (c <| cl_err := Some e |> <| cl_ctxErr := true |>))
  end.
Definition refuse {A} (e : err) (c : Client) : res err A * Client :=
  let '(e', c') := failClient e c in (Err e', c').

(** ** The request gate: [taken] when the select took it *)
Definition acquire (ctxNil taken : bool) (c : Client) : res err unit * Client :=
  if ctxNil || negb taken || cl_gate c then refuse ErrCanceled c
  else (Ok tt, c <| cl_gate := true |>).
Definition release (c : Client) : Client := c <| cl_gate := false |>.

(** ** One exchange *)

(** Up to the write: the frame to send. *)
Definition exchangeSend (ctxDone : bool) (op site ordinal : Z) (c : Client) : res err frame * Client :=
  match cl_err c with
  | Some e => refuse e c
  | None =>
      if ctxDone || cl_ctxErr c || cl_closed c then refuse ErrCanceled c
      else if (cl_sequence c =? MaxUint64) || (u64 (li_WireBytes (cl_limits c) - cl_wireBytes c) <? 2 * FrameBytes)
      then refuse ErrLimit c
      else
        let c := c <| cl_sequence := u64 (cl_sequence c + 1) |>
                   <| cl_wireBytes := u64 (cl_wireBytes c + 2 * FrameBytes) |> in
        (Ok (mkFrame op (cl_phase c) site ordinal (cl_sequence c) (cl_binding c)), c)
  end.

(** What the transport does, and whether the context ends before the ACK is
    used. *)
Record exchangeIO := mkExchange {
  ex_setDeadline : bool;
  ex_write : bool;
  ex_ack : option (list Z);
  ex_doneAfter : bool
}.

Definition exchangeEnd (io : exchangeIO) (f : frame) (c : Client) : res err unit * Client :=
  if negb (ex_setDeadline io) || negb (ex_write io) then refuse ErrTransport c
  else match ex_ack io with
  | None => refuse ErrTransport c
  | Some ack =>
      if negb (bytes_eqb ack (encode f)) then refuse ErrProtocol c
      else if ex_doneAfter io || cl_ctxErr c then refuse ErrCanceled c
      else (Ok tt, c)
  end.

(** ** Admission *)
Inductive admitOutcome :=
  | Parked                   (** paused again: release the gate and wait *)
  | Refused (e : err)
  | Granted (ordinal : Z).

(** The locked section of [admitInPhase], with the gate held; [hasProcess] is
    [command.Process != nil]. *)
Definition admitLocked (site : Z) (hasProcess : bool) (phase : Z) (c : Client) : admitOutcome * Client :=
  if cl_paused c && is_nil (cl_err c) && negb (cl_closed c) then (Parked, c)
  else
    let refuse e := let '(e', c') := failClient e c in (Refused e', c') in
    match cl_err c with
    | Some e => refuse e
    | None =>
        match cl_sites c !! site with
        | None => refuse ErrProtocol
        | Some bound =>
            if hasProcess || negb (phase =? 0) && negb (cl_phase c =? phase) then refuse ErrProtocol
            else if cl_fenced c || cl_closed c then refuse ErrFenced
            else if (li_ActivePerProducer (cl_limits c) <=? Z.of_nat (size (cl_active c)))
                    || (cl_ordinal c =? MaxUint64)
            then refuse ErrLimit
            else
              let ordinal := u64 (cl_ordinal c + 1) in
              (Granted ordinal,
               notifyLocked (c <| cl_ordinal := ordinal |>
                 <| cl_active ::= insert ordinal (mkCommand true (si_Persistent bound) false) |>))
        end
    end.

(** The section of [start] after [command.Start()]; [None] is the nil
    dereference of a missing token. *)
Definition startedLocked (ordinal : Z) (c : Client) : option Client :=
  match cl_active c !! ordinal with
  | None => None
  | Some m => Some (notifyLocked (c <| cl_active ::= insert ordinal (m <| cm_pending := false |>) |>))
  end.

(** The section that ends [settle]. *)
Definition settledLocked (ordinal : Z) (c : Client) : Client :=
  notifyLocked (c <| cl_active ::= delete ordinal |>).

(** ** Parked callers *)
Inductive waitErr := Latched (e : err) | CallerErr | ClosedErr | LifetimeErr.
Inductive waitOutcome :=
  | Proceed
  | WaitFailed (e : waitErr)
  | Park.

(** [waitUnpaused] up to its loop. *)
Definition waitEnter (ctxNil ctxDone : bool) (c : Client) : waitOutcome * Client :=
  if ctxNil then let '(e, c') := failClient ErrCanceled c in (WaitFailed (Latched e), c')
  else if negb (cl_paused c) || negb (is_nil (cl_err c)) || cl_closed c then (Proceed, c)
  else if ctxDone then (WaitFailed CallerErr, c)
  else if li_ActivePerProducer (cl_limits c) <=? cl_waiters c
  then let '(e, c') := failClient ErrLimit c in (WaitFailed (Latched e), c')
  else (Park, c <| cl_waiters ::= fun w => w + 1 |>).

(** A pass of its loop and the deferred [waiters--]; [lifetimeEnds] when the
    select took the client's context. *)
Definition waitPass (ctxDone lifetimeEnds : bool) (c : Client) : waitOutcome * Client :=
  let leave o := (o, c <| cl_waiters ::= fun w => w - 1 |>) in
  match cl_err c with
  | Some e => leave (WaitFailed (Latched e))
  | None =>
      if ctxDone then leave (WaitFailed CallerErr)
      else if cl_closed c then leave (WaitFailed ClosedErr)
      else if negb (cl_paused c) then leave Proceed
      else if lifetimeEnds && cl_ctxErr c then leave (WaitFailed LifetimeErr)
      else (Park, c)
  end.

(** ** Pause, checkpoint, close and resume *)
Definition pauseLocked (c : Client) : res err unit * Client :=
  match cl_err c with
  | Some e => refuse e c
  | None =>
      if cl_paused c || cl_fenced c || cl_closed c || cl_checkpoint c then refuse ErrProtocol c
      else (Ok tt, notifyLocked (c <| cl_paused := true |>))
  end.

(** The end of [Pause], when the gate has cleared. *)
Definition pauseEnd (taken ctxDone : bool) (c : Client) : res err unit * Client :=
  match acquire false taken c with
  | (Err e, c') => (Err e, c')
  | (Ok _, c') =>
      if ctxDone || cl_ctxErr c'
      then let '(r, c'') := refuse ErrCanceled c' in (r, release c'')
      else (Ok tt, release c')
  end.

Definition quiescentLocked (closeAll : bool) (c : Client) : bool :=
  forallb (fun kv => negb (closeAll || cm_pending kv.2 || negb (cm_persistent kv.2)))
    (map_to_list (cl_active c)).

Definition fenceClient (c : Client) : Client := c <| cl_fenced := true |>.

(** A pass of the loop of [checkpointOrClose]: [Ok true] when the producer is
    quiescent, [Ok false] to wait for a change. *)
Definition quiescePass (closeAll ends : bool) (c : Client) : res err bool * Client :=
  match cl_err c with
  | Some e => refuse e c
  | None =>
      if cl_closed c || negb closeAll && cl_checkpoint c then refuse ErrProtocol c
      else if quiescentLocked closeAll c then (Ok true, c)
      else if ends then refuse ErrCanceled c
      else (Ok false, c)
  end.

(** [storeCheckpoint]: the store lifetime's part of a checkpoint. *)
Definition storePass (closeAll : bool) (storeCheckpoint : option err) (c : Client) : res err unit * Client :=
  match storeCheckpoint with
  | Some _ => if closeAll then (Ok tt, c) else refuse ErrIncomplete c
  | None => (Ok tt, c)
  end.

(** The tokens to carry, in the order [order] of the map's iteration. *)
Definition carryTokens (order : list Z) (c : Client) : list Z :=
  List.filter (fun k => match cl_active c !! k with Some m => negb (cm_carried m) | None => false end) order.

Definition carriedLocked (token : Z) (c : Client) : option Client :=
  match cl_active c !! token with
  | None => None
  | Some m => Some (c <| cl_active ::= insert token (m <| cm_carried := true |>) |>)
  end.

(** The end of [checkpointOrClose], after the last ACK. *)
Definition checkpointed (closeAll : bool) (c : Client) : Client :=
  let c := notifyLocked (c <| cl_checkpoint := true |> <| cl_closed := closeAll |>) in
  if closeAll then c <| cl_ctxErr := true |> else c.

Definition Resume (storeResume : option err) (phase : Z) (c : Client) : res err unit * Client :=
  match cl_err c with
  | Some e => (Err e, c)
  | None =>
      if negb (cl_checkpoint c) || cl_closed c || negb (cl_terminalState c =? 0) || (phase =? 0)
         || (phase =? cl_phase c)
      then refuse ErrProtocol c
      else match storeResume with
      | Some _ => refuse ErrIncomplete c
      | None =>
          (Ok tt, notifyLocked (c <| cl_phase := phase |> <| cl_controlCheckpointAcknowledged := false |>
                                  <| cl_paused := false |> <| cl_fenced := false |>
                                  <| cl_checkpoint := false |>))
      end
  end.

(** ** The local producer's typed start *)
#[export] Instance Site_eq_dec : EqDecision Site.
Proof. solve_decision. Defined.

(** [StartInPhase] checks the site against the immutable map, then admits in
    the selected phase only. *)
Definition StartInPhase (phase : Z) (site : Site) (hasProcess : bool) (c : Client) : admitOutcome * Client :=
  if phase =? 0 then (Refused ErrConfig, c)
  else match cl_sites c !! si_ID site with
       | Some configured =>
           if decide (configured = site) then admitLocked (si_ID site) hasProcess phase c
           else (Refused ErrConfig, c)
       | None => (Refused ErrConfig, c)
       end.
