(* ===== verification/DispatchLink.v ===== *)
(** * The dispatch client on its controller

    The client of [DispatchClient] and the controller of [DispatchAdmission]
    joined by one socket, as a transition system.  A step is one critical
    section of either side, the delivery of a frame, or a failure of the link;
    the goroutines of the client are the sets of ordinals between the
    admission of a command and its settlement, and the one call that holds the
    request gate.  The steps of the controller's other producers and of its
    owner are the events of [DispatchSteps]. *)
From S2P Require Import Prelude Bytes DispatchAdmission DispatchSteps DispatchClient.

(** The call that holds the gate across an exchange. *)
Inductive rpc :=
  | RpcAdmit (site ordinal : Z)
  | RpcSettle (ordinal : Z)
  | RpcCarry (closeAll : bool) (token : Z) (rest : list Z) (ordinal : Z)
  | RpcFinal (closeAll : bool) (ordinal : Z).

Inductive stage :=
  | Ready                    (** nothing sent *)
  | Sent (f : frame)         (** written, not yet read *)
  | Acked (f : frame)        (** accepted; the echo is on its way *)
  | Dropped (f : frame).     (** refused or lost: no echo *)

Record sys := mkSys {
  sy_client : Client;
  sy_parent : Controller;
  sy_log : list admission;
  sy_rpc : option (rpc * stage);
  sy_starting : gset Z;      (** acknowledged, not yet started *)
  sy_handles : gset Z;       (** started, not yet joined *)
  sy_settling : gset Z;      (** joined or failed to start, not yet settled *)
  sy_checking : list bool;   (** checkpoints and closes past their wait *)
  sy_started : list Z;       (** the ordinals whose command was started *)
  sy_panicked : bool
}.
#[export] Instance eta_sys : Eta sys :=
  fun s => mkSys (sy_client s) (sy_parent s) (sy_log s) (sy_rpc s) (sy_starting s) (sy_handles s)
    (sy_settling s) (sy_checking s) (sy_started s) (sy_panicked s).

Inductive action :=
  | ParentEvent (ev : event)
  | CancelClient
  | WaitEnter (ctxNil ctxDone : bool)
  | WaitPass (ctxDone lifetimeEnds : bool)
  | AcquireFails
  | Admit (site : Z) (hasProcess : bool) (phase : Z)
  | Send (ctxDone : bool)
  | Deliver
  | Lose
  | Finish (setDeadline write doneAfter : bool)
  | StartCommand (ordinal : Z) (ctxDone startOk : bool)
  | Join (ordinal : Z)
  | Settle (ordinal : Z)
  | PauseBegin
  | PauseEnd (ctxDone : bool)
  | FenceClient
  | QuiescePass (closeAll ends : bool)
  | CarryBegin (i : nat) (storeCheckpoint : option err) (order : list Z)
  | ResumeClient (storeResume : option err) (phase : Z).

Section Link.
Context (sha256 : list Z -> list Z) (producer : Z).

Definition onClient (f : Client -> Client) (s : sys) : sys := s <| sy_client ::= f |>.
Definition hold (r : rpc) (s : sys) : sys := s <| sy_rpc := Some (r, Ready) |>.
Definition drop_gate (s : sys) : sys := onClient release (s <| sy_rpc := None |>).

Definition wireOp (r : rpc) : Z :=
  match r with
  | RpcAdmit _ _ => opAdmit
  | RpcSettle _ => opSettle
  | RpcCarry _ _ _ _ => opCarry
  | RpcFinal closeAll _ => if closeAll then opClose else opCheckpoint
  end.
Definition wireSite (r : rpc) : Z := match r with RpcAdmit site _ => site | _ => 0 end.
Definition wireOrdinal (r : rpc) : Z :=
  match r with
  | RpcAdmit _ n => n
  | RpcSettle n => n
  | RpcCarry _ t _ _ => t
  | RpcFinal _ n => n
  end.

(** What the caller does when its exchange returns. *)
Definition complete (r : rpc) (result : res err unit) (s : sys) : sys :=
  match r, result with
  | RpcAdmit _ n, Ok _ => drop_gate (s <| sy_starting ::= fun g => {[n]} ∪ g |>)
  | RpcAdmit _ _, Err _ => drop_gate s
  | RpcSettle n, _ => drop_gate (onClient (settledLocked n) s)
  | RpcCarry closeAll t rest n, Ok _ =>
      match carriedLocked t (sy_client s) with
      | None => s <| sy_panicked := true |>
      | Some c =>
          hold (match rest with [] => RpcFinal closeAll n | t' :: rest' => RpcCarry closeAll t' rest' n end)
            (s <| sy_client := c |>)
      end
  | RpcCarry _ _ _ _, Err _ => drop_gate s
  | RpcFinal closeAll _, Ok _ => drop_gate (onClient (checkpointed closeAll) s)
  | RpcFinal _ _, Err _ => drop_gate s
  end.

(** An event of the controller that is not a frame of this producer. *)
Definition foreign (ev : event) : bool :=
  match ev with EvAccept p _ => negb (p =? producer) | _ => true end.

Definition step (a : action) (s : sys) : sys :=
  let c := sy_client s in
  match a with
  | ParentEvent ev =>
      if foreign ev
      then s <| sy_parent := apply sha256 ev (sy_parent s) |> <| sy_log ::= fun l => l ++ logged sha256 ev (sy_parent s) |>
      else s
  | CancelClient => onClient (fun c => c <| cl_ctxErr := true |>) s
  | WaitEnter n d => s <| sy_client := snd (waitEnter n d c) |>
  | WaitPass d l => s <| sy_client := snd (waitPass d l c) |>
  | AcquireFails => s <| sy_client := snd (acquire false false c) |>
  | Admit site hasProcess phase =>
      match sy_rpc s, acquire false true c with
      | None, (Ok _, c) =>
          match admitLocked site hasProcess phase c with
          | (Granted n, c) => hold (RpcAdmit site n) (s <| sy_client := c |>)
          | (_, c) => s <| sy_client := release c |>
          end
      | _, _ => s
      end
  | Send ctxDone =>
      match sy_rpc s with
      | Some (r, Ready) =>
          match exchangeSend ctxDone (wireOp r) (wireSite r) (wireOrdinal r) c with
          | (Ok f, c) => s <| sy_client := c |> <| sy_rpc := Some (r, Sent f) |>
          | (Err e, c) => complete r (Err e) (s <| sy_client := c |>)
          end
      | _ => s
      end
  | Deliver =>
      match sy_rpc s with
      | Some (r, Sent f) =>
          let ev := EvAccept producer f in
          s <| sy_parent := apply sha256 ev (sy_parent s) |> <| sy_log ::= fun l => l ++ logged sha256 ev (sy_parent s) |>
            <| sy_rpc := Some (r, match fst (accept sha256 producer f (sy_parent s)) with
                                  | Ok _ => Acked f | Err _ => Dropped f end) |>
      | _ => s
      end
  | Lose =>
      match sy_rpc s with
      | Some (r, (Sent f | Acked f)) => s <| sy_rpc := Some (r, Dropped f) |>
      | _ => s
      end
  | Finish setDeadline write doneAfter =>
      let finish r f ack :=
        let '(result, c) := exchangeEnd (mkExchange setDeadline write ack doneAfter) f c in
        complete r result (s <| sy_client := c |>) in
      match sy_rpc s with
      | Some (r, Acked f) => finish r f (Some (encode f))
      | Some (r, Dropped f) => finish r f None
      | _ => s
      end
  | StartCommand n ctxDone startOk =>
      if decide (n ∈ sy_starting s)
      then
        let s := s <| sy_starting ::= fun g => g ∖ {[n]} |> in
        if ctxDone || cl_ctxErr c then s <| sy_client := snd (failClient ErrCanceled c) |>
        else
          let s := s <| sy_started ::= fun l => l ++ [n] |> in
          match startedLocked n c with
          | None => s <| sy_panicked := true |>
          | Some c =>
              let s := s <| sy_client := c |> in
              if startOk then s <| sy_handles ::= fun g => {[n]} ∪ g |>
              else s <| sy_settling ::= fun g => {[n]} ∪ g |>
          end
      else s
  | Join n =>
      if decide (n ∈ sy_handles s)
      then s <| sy_handles ::= fun g => g ∖ {[n]} |> <| sy_settling ::= fun g => {[n]} ∪ g |>
      else s
  | Settle n =>
      if decide (n ∈ sy_settling s)
      then match sy_rpc s, acquire false true c with
           | None, (Ok _, c) => hold (RpcSettle n) (s <| sy_client := c |> <| sy_settling ::= fun g => g ∖ {[n]} |>)
           | _, _ => s
           end
      else s
  | PauseBegin => s <| sy_client := snd (pauseLocked c) |>
  | PauseEnd ctxDone =>
      match sy_rpc s with None => s <| sy_client := snd (pauseEnd true ctxDone c) |> | Some _ => s end
  | FenceClient => onClient fenceClient s
  | QuiescePass closeAll ends =>
      match quiescePass closeAll ends c with
      | (Ok true, c) => s <| sy_client := c |> <| sy_checking ::= fun l => l ++ [closeAll] |>
      | (_, c) => s <| sy_client := c |>
      end
  | CarryBegin i storeCheckpoint order =>
      match sy_checking s !! i with
      | None => s
      | Some closeAll =>
          let s' := s <| sy_checking ::= delete i |> in
          match storePass closeAll storeCheckpoint c with
          | (Err _, c) => s' <| sy_client := c |>
          | (Ok _, c) =>
              match sy_rpc s, acquire false true c with
              | None, (Ok _, c) =>
                  hold (match carryTokens order c with
                        | [] => RpcFinal closeAll (cl_ordinal c)
                        | t :: ts => RpcCarry closeAll t ts (cl_ordinal c)
                        end) (s' <| sy_client := c |>)
              | _, _ => s
              end
          end
      end
  | ResumeClient store phase => s <| sy_client := snd (Resume store phase c) |>
  end.

Definition start (c : Controller) (log : list admission) (client : Client) : sys :=
  mkSys client c log None ∅ ∅ ∅ [] [] false.

Fixpoint behave (l : list action) (s : sys) : sys :=
  match l with
  | [] => s
  | a :: l' => behave l' (step a s)
  end.
End Link.
