(* ===== verification/ClientMirror.v ===== *)
(** * The client mirrors its controller: the invariant

    What every step of [DispatchLink] preserves: the goroutines own disjoint
    tokens that exist, everything started is in the controller's log, and as
    long as the client holds no error, the controller's producer is the
    client's state before or after the exchange in flight. *)
From S2P Require Import Prelude Bytes DispatchAdmission DispatchSteps DispatchInvariant DispatchClient.
From S2P Require Import DispatchLink.

Ltac sys_cbn :=
  cbn [setter sy_log sy_parent sy_panicked sy_client sy_rpc sy_starting sy_handles sy_settling sy_started sy_checking].

Section Mirror.
Context (sha256 : list Z -> list Z) (producer : Z) (config : Config).

(** ** The invariant *)
Definition mview (c : Client) : gmap Z activeDispatch :=
  (fun m => mkActive (cm_persistent m) (cm_carried m)) <$> cl_active c.

Record image := mkImage { im_sequence : Z; im_ordinal : Z; im_active : gmap Z activeDispatch; im_closed : bool }.

Definition idle (c : Client) : image := mkImage (cl_sequence c) (cl_ordinal c) (mview c) (cl_closed c).
(** The controller's producer before it reads the frame of a call ... *)
Definition before (r : rpc) (c : Client) : image :=
  match r with
  | RpcAdmit _ n => mkImage (cl_sequence c) (cl_ordinal c - 1) (delete n (mview c)) (cl_closed c)
  | _ => idle c
  end.
(** ... and after it accepted it. *)
Definition after (r : rpc) (c : Client) : image :=
  match r with
  | RpcAdmit _ _ => idle c
  | RpcSettle n => mkImage (cl_sequence c) (cl_ordinal c) (delete n (mview c)) (cl_closed c)
  | RpcCarry _ t _ _ =>
      mkImage (cl_sequence c) (cl_ordinal c)
        (alter (fun a => mkActive (ad_persistent a) true) t (mview c)) (cl_closed c)
  | RpcFinal closeAll _ => mkImage (cl_sequence c) (cl_ordinal c) (mview c) closeAll
  end.
Definition unsent (i : image) : image :=
  mkImage (im_sequence i - 1) (im_ordinal i) (im_active i) (im_closed i).

Definition expected (r : option (rpc * stage)) (c : Client) : option image :=
  match r with
  | None => Some (idle c)
  | Some (r, Ready) => Some (before r c)
  | Some (r, Sent _) => Some (unsent (before r c))
  | Some (r, Acked _) => Some (after r c)
  | Some (_, Dropped _) => None
  end.

Definition imageOf (p : producerState) : image :=
  mkImage (ps_sequence p) (ps_ordinal p) (ps_active p) (ps_closed p).

Definition counted (n : Z) (log : list admission) : Prop :=
  exists e, e ∈ log /\ am_producer e = producer /\ fr_ordinal (am_frame e) = n.

(** The frame in flight is the one of the call. *)
Definition frameOf (r : rpc) (c : Client) (f : frame) : Prop :=
  fr_op f = wireOp r /\ fr_site f = wireSite r /\ fr_ordinal f = wireOrdinal r /\
  fr_sequence f = cl_sequence c.

Definition tokens (r : rpc) : list Z :=
  match r with
  | RpcAdmit _ n | RpcSettle n => [n]
  | RpcCarry _ t rest _ => t :: rest
  | RpcFinal _ _ => []
  end.
(** The token a call will remove or hand over. *)
Definition owned (r : rpc) : option Z :=
  match r with RpcAdmit _ n | RpcSettle n => Some n | _ => None end.

Definition rpcOK (r : rpc) (st : stage) (c : Client) (started : list Z) (log : list admission) : Prop :=
  (forall n, n ∈ tokens r -> is_Some (cl_active c !! n)) /\
  match r with
  | RpcAdmit site n =>
      n = cl_ordinal c /\ (n ∉ started) /\
      (exists bound pending, cl_sites c !! site = Some bound /\
         cl_active c !! n = Some (mkCommand pending (si_Persistent bound) false)) /\
      match st with Acked _ => counted n log | _ => True end
  | _ => True
  end /\
  match st with Ready => True | Sent f | Acked f | Dropped f => frameOf r c f end.

Record Inv (s : sys) : Prop := {
  iv_runs : runs sha256 config (sy_log s) (sy_parent s);
  iv_panic : sy_panicked s = false;
  iv_gate : cl_gate (sy_client s) = negb (is_nil (sy_rpc s));
  iv_ordinal : 0 <= cl_ordinal (sy_client s) <= MaxUint64;
  iv_sequence : 0 <= cl_sequence (sy_client s) <= MaxUint64;
  iv_keys : forall n, is_Some (cl_active (sy_client s) !! n) -> 1 <= n <= cl_ordinal (sy_client s);
  iv_held : forall n, n ∈ sy_starting s \/ n ∈ sy_handles s \/ n ∈ sy_settling s ->
    is_Some (cl_active (sy_client s) !! n) /\
    (forall r st, sy_rpc s = Some (r, st) -> owned r <> Some n);
  iv_disjoint : (forall n, n ∈ sy_starting s -> (n ∉ sy_handles s) /\ (n ∉ sy_settling s) /\ (n ∉ sy_started s)) /\
    (forall n, n ∈ sy_handles s -> n ∉ sy_settling s);
  iv_started : NoDup (sy_started s) /\ forall n, n ∈ sy_started s -> 1 <= n <= cl_ordinal (sy_client s);
  iv_counted : forall n, n ∈ sy_starting s \/ n ∈ sy_started s -> counted n (sy_log s);
  iv_rpc : forall r st, sy_rpc s = Some (r, st) -> rpcOK r st (sy_client s) (sy_started s) (sy_log s);
  iv_mirror : exists p, c_producers (sy_parent s) !! producer = Some p /\ ps_attached p = true /\
    ps_sites p = cl_sites (sy_client s) /\
    (cl_err (sy_client s) = None -> ps_hardDeath p = false ->
     forall i, expected (sy_rpc s) (sy_client s) = Some i -> imageOf p = i)
}.

(** ** The controller's other events *)
Definition kept (p p' : producerState) : Prop :=
  ps_sequence p' = ps_sequence p /\ ps_ordinal p' = ps_ordinal p /\ ps_sites p' = ps_sites p /\
  (ps_attached p = true -> ps_attached p' = true /\
    (ps_hardDeath p' = false -> ps_hardDeath p = false /\ ps_active p' = ps_active p /\ ps_closed p' = ps_closed p)).

Lemma kept_refl p : kept p p.
Proof. unfold kept. auto 10. Qed.

Definition keeps (c c' : Controller) : Prop :=
  forall p, c_producers c !! producer = Some p -> exists p', c_producers c' !! producer = Some p' /\ kept p p'.

Lemma cm_keeps_same c c' : c_producers c' = c_producers c -> keeps c c'.
Proof. intros H p Hp. exists p. rewrite H. split; [exact Hp|apply kept_refl]. Qed.

Lemma cm_keeps_latched c c' : latched c c' -> keeps c c'.
Proof. intros (e & d & ->). by apply cm_keeps_same. Qed.

Lemma keeps_replaced c c' id q q' :
  c_producers c !! id = Some q -> c_producers c' = <[id := q']> (c_producers c) ->
  (id = producer -> kept q q') -> keeps c c'.
Proof.
  intros Hq Hc Hk p Hp. rewrite Hc. destruct (decide (id = producer)) as [->|Hne].
  - rewrite lookup_insert_eq. exists q'. split; [reflexivity|]. rewrite Hq in Hp. injection Hp as <-. auto.
  - rewrite lookup_insert_ne by exact Hne. exists p. split; [exact Hp|apply kept_refl].
Qed.

Lemma keeps_updates c id (guard : producerState -> Prop) f c' :
  updates c id guard f c' -> (forall p, guard p -> kept p (f p)) -> keeps c c'.
Proof. intros (q & Hq & Hg & ->) Hk. apply (keeps_replaced c _ id q (f q)); [exact Hq|reflexivity|auto]. Qed.

Lemma keeps_accept id f c r c' : id <> producer -> accept sha256 id f c = (r, c') -> keeps c c'.
Proof.
  intros Hne E. apply accept_inv in E as [[Hl _]|(p & HF & Hcase)]; [by apply cm_keeps_latched|].
  pose proof (fd_lookup _ _ _ _ HF) as Hp.
  assert (Hc : exists q', c_producers c' = <[id := q']> (c_producers c)).
  { destruct Hcase as [[(e & d & ->) _]|[_ He]].
    - exists (bumped p). reflexivity.
    - destruct He; (eexists; cbn; rewrite insert_insert_eq; reflexivity). }
  destruct Hc as [q' Hc]. apply (keeps_replaced c c' id p q' Hp Hc). contradiction.
Qed.

Lemma keeps_apply ev c : foreign producer ev = true -> keeps c (apply sha256 ev c).
Proof.
  intros Hf. destruct ev as [|e| | |id|id|id w| | |id pid| |id|id f|id f]; cbn [apply];
    try match goal with |- context [snd (?m ?x)] => destruct (m x) as [r c'] eqn:E; cbn [snd] end.
  - by apply cm_keeps_same.
  - apply cm_keeps_latched. eapply da_failLocked_latched, E.
  - apply da_Fence_inv in E as [[Hl _]| ->]; [by apply cm_keeps_latched|by apply cm_keeps_same].
  - apply da_Advance_inv in E as [[Hl _]|(_ & _ & _ & _ & ->)]; [by apply cm_keeps_latched|by apply cm_keeps_same].
  - apply ExpectHardDeath_inv in E as [[Hl _]|Hu]; [by apply cm_keeps_latched|].
    eapply keeps_updates; [exact Hu|]. intros p _. unfold kept. cbn. repeat split; auto; discriminate.
  - apply CancelUnused_inv in E as [[Hl _]|Hu]; [by apply cm_keeps_latched|].
    eapply keeps_updates; [exact Hu|]. intros p [Ha Hc]. unfold kept. rewrite Ha. repeat split; discriminate.
  - apply CloseHardDeath_inv in E as [[Hl _]|Hu]; [by apply cm_keeps_latched|].
    eapply keeps_updates; [exact Hu|]. intros p [Hh Hc]. unfold kept. cbn. repeat split; auto; congruence.
  - apply RetireBackupEndpoint_inv in E as [[Hl _]|Hu]; [by apply cm_keeps_latched|].
    eapply keeps_updates; [exact Hu|]. intros p _. unfold kept. cbn. auto 10.
  - apply cm_keeps_latched. pose proof (da_Snapshot_state c) as H. rewrite E in H. exact H.
  - apply attach_inv in E as [[Hl _]|Hu]; [by apply cm_keeps_latched|].
    eapply keeps_updates; [exact Hu|]. intros p [Ha Hc]. unfold kept. cbn. rewrite Ha. auto 10.
  - apply reservePair_inv in E as [[Hl _]|(_ & ->)]; [by apply cm_keeps_latched|by apply cm_keeps_same].
  - apply endStream_inv in E as [[Hl _]|(p & c1 & Hp & -> & (e & d & ->))]; [by apply cm_keeps_latched|].
    apply (keeps_replaced c _ id p (p <| ps_eof := true |>)); [exact Hp|reflexivity|].
    intros _. unfold kept. cbn. auto 10.
  - apply cm_keeps_latched. eapply checked_state, E.
  - cbn in Hf. bsplit. eapply keeps_accept; [|exact E]. lia.
Qed.

(** ** Sections that only touch flags and the latch *)
Definition quiet (c c' : Client) : Prop :=
  cl_sites c' = cl_sites c /\ cl_ordinal c' = cl_ordinal c /\ cl_sequence c' = cl_sequence c /\
  mview c' = mview c /\ (forall n, is_Some (cl_active c' !! n) <-> is_Some (cl_active c !! n)) /\
  cl_closed c' = cl_closed c /\ cl_gate c' = cl_gate c /\ (cl_err c' = None -> cl_err c = None).

(** A section that also leaves the tokens alone. *)
Definition flags (c c' : Client) : Prop :=
  cl_sites c' = cl_sites c /\ cl_ordinal c' = cl_ordinal c /\ cl_sequence c' = cl_sequence c /\
  cl_active c' = cl_active c /\ cl_closed c' = cl_closed c /\ cl_gate c' = cl_gate c /\
  (cl_err c' = None -> cl_err c = None).

Lemma flags_refl c : flags c c.
Proof. unfold flags. auto 10. Qed.

Lemma flags_trans c1 c2 c3 : flags c1 c2 -> flags c2 c3 -> flags c1 c3.
Proof. unfold flags. intros (?&?&?&?&?&?&?) (?&?&?&?&?&?&?). repeat split; try congruence. auto. Qed.

Lemma failClient_flags e c : flags c (snd (failClient e c)) /\ cl_err (snd (failClient e c)) <> None.
Proof.
  unfold failClient. destruct (cl_err c) eqn:E; cbn.
  - split; [apply flags_refl|congruence].
  - split; [|discriminate]. unfold flags. cbn. repeat split; discriminate.
Qed.

Lemma refuse_flags {A} e c (r : res err A) c' :
  refuse e c = (r, c') -> flags c c' /\ cl_err c' <> None /\ exists e', r = Err e'.
Proof.
  unfold refuse. pose proof (failClient_flags e c) as [H1 H2]. destruct (failClient e c) as [e' c1].
  intros [= <- <-]. eauto.
Qed.

Ltac client_flags H :=
  repeat match type of H with
  | context [match ?x with _ => _ end] =>
      lazymatch x with context [match _ with _ => _ end] => fail | _ => destruct x eqn:? end
  end;
  first
    [ apply refuse_flags in H as (H & _); exact H
    | injection H as <- <-; first [apply flags_refl | unfold flags; cbn; repeat split; (discriminate || auto)] ].

Lemma waitEnter_flags n d c : flags c (snd (waitEnter n d c)).
Proof.
  unfold waitEnter. pose proof (failClient_flags ErrCanceled c) as [H1 _]. pose proof (failClient_flags ErrLimit c) as [H2 _].
  destruct n; [destruct (failClient ErrCanceled c); exact H1|]. destruct (_ || _); [apply flags_refl|].
  destruct d; [apply flags_refl|]. destruct (_ <=? _); [destruct (failClient ErrLimit c); exact H2|].
  unfold flags. cbn. auto 10.
Qed.

Lemma waitPass_flags d l c : flags c (snd (waitPass d l c)).
Proof.
  unfold waitPass. destruct (cl_err c); [|destruct d; [|destruct (cl_closed c); [|destruct (negb _); [|destruct (_ && _)]]]];
    unfold flags; cbn; auto 10.
Qed.

Lemma acquire_fails_flags c : flags c (snd (acquire false false c)).
Proof. unfold acquire. cbn. destruct (refuse _ c) as [r c'] eqn:E. apply (refuse_flags (A:=unit)) in E as [H _]. exact H. Qed.

Lemma pauseLocked_flags c : flags c (snd (pauseLocked c)).
Proof. destruct (pauseLocked c) as [r c'] eqn:H. unfold pauseLocked in H. cbn. client_flags H. Qed.

Lemma quiescePass_flags closeAll ends c r c' : quiescePass closeAll ends c = (r, c') -> flags c c'.
Proof. intros H. unfold quiescePass in H. client_flags H. Qed.

Lemma storePass_flags closeAll st c r c' : storePass closeAll st c = (r, c') -> flags c c'.
Proof. intros H. unfold storePass in H. client_flags H. Qed.

Lemma Resume_flags st phase c : flags c (snd (Resume st phase c)).
Proof. destruct (Resume st phase c) as [r c'] eqn:H. unfold Resume in H. cbn. client_flags H. Qed.

Lemma exchangeEnd_flags io f c r c' :
  exchangeEnd io f c = (r, c') -> flags c c' /\ (is_ok r = false -> cl_err c' <> None).
Proof.
  unfold exchangeEnd. intros H.
  assert (Hr : forall e, refuse e c = (r, c') -> flags c c' /\ (is_ok r = false -> cl_err c' <> None)).
  { intros e He. apply (refuse_flags (A:=unit)) in He as (? & ? & _). auto. }
  destruct (negb (ex_setDeadline io) || _); [eauto|]. destruct (ex_ack io); [|eauto].
  destruct (negb (bytes_eqb _ _)); [eauto|]. destruct (ex_doneAfter io || _); [eauto|].
  injection H as <- <-. split; [apply flags_refl|discriminate].
Qed.

Lemma pauseEnd_flags d c : cl_gate c = false -> flags c (snd (pauseEnd true d c)).
Proof.
  intros Hg. unfold pauseEnd, acquire. rewrite Hg. cbn [orb negb].
  destruct (_ || _).
  - destruct (refuse _ _) as [r c'] eqn:E. apply (refuse_flags (A:=unit)) in E as ((?&?&?&?&?&?&?) & He & _).
    unfold flags. cbn in *. repeat split; congruence.
  - unfold flags. cbn. rewrite Hg. auto 10.
Qed.

Lemma flags_quiet c c' : flags c c' -> quiet c c'.
Proof. intros (?&?&?&Ha&?&?&?). unfold quiet, mview. rewrite Ha. repeat split; auto; tauto. Qed.

Lemma expected_quiet r c c' : quiet c c' -> expected r c' = expected r c.
Proof.
  intros (Hs & Ho & Hq & Hm & _ & Hc & _). destruct r as [[[] []]|]; cbn; unfold unsent, idle;
    cbn; rewrite ?Ho, ?Hq, ?Hm, ?Hc; reflexivity.
Qed.

Lemma mview_lookup c c' n m :
  mview c' = mview c -> cl_active c !! n = Some m ->
  exists m', cl_active c' !! n = Some m' /\ cm_persistent m' = cm_persistent m /\ cm_carried m' = cm_carried m.
Proof.
  intros H Hn. assert (Hl : mview c' !! n = mview c !! n) by (rewrite H; reflexivity).
  unfold mview in Hl. rewrite !lookup_fmap, Hn in Hl. destruct (cl_active c' !! n) as [m'|]; [|discriminate].
  cbn in Hl. injection Hl as H1 H2. eauto.
Qed.

Lemma rpcOK_quiet r st c c' started log : quiet c c' -> rpcOK r st c started log -> rpcOK r st c' started log.
Proof.
  intros (Hs & Ho & Hq & Hm & Hd & Hc & _) (Ht & Hr & Hf). unfold rpcOK, frameOf in *. rewrite Ho, Hs, Hq.
  split; [intros n Hn; apply Hd, Ht, Hn|]. split; [|exact Hf].
  destruct r; auto. destruct Hr as (H1 & H2 & (b & pn & Hb & Hl) & H3). split; [exact H1|]. split; [exact H2|].
  split; [|exact H3]. destruct (mview_lookup _ _ _ _ Hm Hl) as ([pn' pe ca] & Hl' & E1 & E2). cbn in E1, E2. subst.
  exists b, pn'. auto.
Qed.

Lemma Inv_quiet s c' : Inv s -> quiet (sy_client s) c' -> Inv (s <| sy_client := c' |>).
Proof.
  intros [] Hq. pose proof Hq as (Hs & Ho & Hsq & Hm & Hd & Hc & Hg & He).
  constructor; sys_cbn; rewrite ?Hs, ?Ho, ?Hsq, ?Hg; auto.
  - intros n Hn. apply iv_keys0, Hd, Hn.
  - intros n Hn. destruct (iv_held0 n Hn). split; [by apply Hd|auto].
  - intros r st Hr. eapply rpcOK_quiet; eauto.
  - destruct iv_mirror0 as (p & Hp & Ha & Hsi & Hi). exists p. rewrite (expected_quiet _ _ _ Hq). auto 10.
Qed.

Lemma Inv_flags s c' : Inv s -> flags (sy_client s) c' -> Inv (s <| sy_client := c' |>).
Proof. intros HI Hf. apply Inv_quiet; [exact HI|]. by apply flags_quiet. Qed.

(** ** The controller and the link *)
Hypothesis Hty : typedConfig config.

Lemma counted_app n log log' : counted n log -> counted n (log ++ log').
Proof. intros (e & He & H). exists e. split; [|exact H]. apply elem_of_app. auto. Qed.

Lemma rpcOK_log r st c started log log' : rpcOK r st c started log -> rpcOK r st c started (log ++ log').
Proof.
  intros (Ht & Hr & Hf). split; [exact Ht|]. split; [|exact Hf]. destruct r; auto.
  destruct Hr as (H1 & H2 & H3 & H4). repeat split; auto. destruct st; auto. by apply counted_app.
Qed.

Lemma Inv_parent s ev :
  Inv s -> foreign producer ev = true ->
  Inv (s <| sy_parent := apply sha256 ev (sy_parent s) |>
         <| sy_log ::= fun l => l ++ logged sha256 ev (sy_parent s) |>).
Proof.
  intros [] Hf. constructor; sys_cbn; auto.
  - by constructor.
  - intros n Hn. apply counted_app. auto.
  - intros r st Hr. apply rpcOK_log. auto.
  - destruct iv_mirror0 as (p & Hp & Ha & Hs & Hi).
    destruct (keeps_apply ev _ Hf p Hp) as (p' & Hp' & K1 & K2 & K3 & K4). destruct (K4 Ha) as [K5 K6].
    exists p'. split; [exact Hp'|]. split; [exact K5|]. split; [congruence|].
    intros He Hh i Hx. destruct (K6 Hh) as (Hh' & K7 & K8). rewrite <- (Hi He Hh' i Hx).
    unfold imageOf. congruence.
Qed.

Lemma Inv_lose s r st f :
  Inv s -> sy_rpc s = Some (r, st) -> st = Sent f \/ st = Acked f -> Inv (s <| sy_rpc := Some (r, Dropped f) |>).
Proof.
  intros [] Hr Hst. constructor; sys_cbn; auto.
  - rewrite Hr in iv_gate0. exact iv_gate0.
  - intros n Hn. destruct (iv_held0 n Hn) as [H1 H2]. split; [exact H1|]. intros r' st' [= <- <-]. eauto.
  - intros r' st' [= <- <-]. destruct (iv_rpc0 _ _ Hr) as (Ht & Hk & Hf). split; [exact Ht|].
    split; [|destruct Hst as [-> | ->]; exact Hf].
    destruct r; auto. destruct Hk as (H1 & H2 & H3 & _). auto.
  - destruct iv_mirror0 as (p & Hp & Ha & Hs & _). exists p. repeat split; auto. discriminate.
Qed.

(** ** Delivery *)
Lemma bumped_image p :
  0 <= ps_sequence p < MaxUint64 ->
  imageOf (bumped p) = mkImage (ps_sequence p + 1) (ps_ordinal p) (ps_active p) (ps_closed p).
Proof. intros H. unfold imageOf, bumped. cbn. by rewrite u64_small by lia. Qed.

Lemma wireOp_cases r :
  wireOp r = opAdmit /\ (exists site n, r = RpcAdmit site n) \/
  wireOp r = opSettle /\ (exists n, r = RpcSettle n) \/
  wireOp r = opCarry /\ (exists b t l n, r = RpcCarry b t l n) \/
  wireOp r = opCheckpoint /\ (exists n, r = RpcFinal false n) \/
  wireOp r = opClose /\ (exists n, r = RpcFinal true n).
Proof. destruct r as [| | |[]]; cbn; eauto 20. Qed.

(** What the controller does with the frame of a call is what the client
    expects of it. *)
Lemma effect_image c p r f cl c' started log :
  DispatchOK c -> Framed c producer f p -> effect sha256 producer (bumped p) f (setProducer producer (bumped p) c) c' ->
  rpcOK r (Sent f) cl started log -> ps_sites p = cl_sites cl ->
  (imageOf p = unsent (before r cl) -> forall p', c_producers c' !! producer = Some p' -> imageOf p' = after r cl) /\
  (forall site n, r = RpcAdmit site n -> exists s, ps_sites p !! fr_site f = Some s).
Proof.
  intros Hok HF He (Ht & Hk & (Fop & Fsite & Ford & _)) Hs.
  destruct (proj2 Hok _ _ (fd_lookup _ _ _ _ HF)) as [Hord Hseq _ _ _ _ _]. pose proof (fd_max _ _ _ _ HF) as Hmax.
  pose proof (bumped_image p ltac:(lia)) as Hb. split.
  - intros Hi p' Hp'. 
    pose proof (f_equal im_sequence Hi) as E1. pose proof (f_equal im_ordinal Hi) as E2.
    pose proof (f_equal im_active Hi) as E3. pose proof (f_equal im_closed Hi) as E4.
    pose proof (f_equal im_sequence Hb) as B1. cbn in E1, E2, E3, E4, B1. clear Hi Hb.
    destruct He as [site role Eop Esite Em Eord _ _ _ _ _ _|a Eop Ea|a Eop Ea Epe Eca|Eop Eord _ _|Eop Eord Eact];
      rewrite Fop in Eop; cbn in Hp'; rewrite insert_insert_eq, lookup_insert_eq in Hp'; injection Hp' as <-;
      destruct (wireOp_cases r) as [[E (si & n & ->)]|[[E (n & ->)]|[[E (b & t & l & n & ->)]|[[E (n & ->)]|[E (n & ->)]]]]];
      rewrite E in Eop; try discriminate Eop; clear E Eop;
      unfold imageOf; cbn in *; rewrite ?B1, ?E1, ?E2, ?E3, ?E4; unfold idle.
    + destruct Hk as (-> & _ & (bound & pending & Hbd & Hm) & _). f_equal.
      * lia.
      * rewrite E2 in *. rewrite u64_small by lia. lia.
      * rewrite Ford. rewrite Hs, Fsite in Esite. assert (site = bound) as -> by congruence.
        apply map_eq. intros k. destruct (decide (k = cl_ordinal cl)) as [->|Hne].
        -- rewrite lookup_insert_eq. unfold mview. rewrite lookup_fmap, Hm. reflexivity.
        -- rewrite lookup_insert_ne, lookup_delete_ne by congruence. reflexivity.
    + f_equal; [lia|]. by rewrite Ford.
    + f_equal; [lia|]. rewrite Ford in *. rewrite E3 in Ea. apply map_eq. intros k.
      destruct (decide (k = t)) as [->|Hne].
      * rewrite lookup_insert_eq, lookup_alter_eq, Ea. cbn. by rewrite Epe.
      * rewrite lookup_insert_ne, lookup_alter_ne by congruence. reflexivity.
    + f_equal. lia.
    + f_equal. lia.
  - intros site n ->. destruct He as [s role Eop Esite _ _ _ _ _ _ _ _|a Eop _|a Eop _ _ _|Eop _ _ _|Eop _ _];
      rewrite Fop in Eop; cbn in Eop; try discriminate. eauto.
Qed.

(** An acknowledged frame leaves the producer attached with its sites. *)
Lemma accept_keeps c f r c' p :
  accept sha256 producer f c = (r, c') -> c_producers c !! producer = Some p -> ps_attached p = true ->
  exists p', c_producers c' !! producer = Some p' /\ ps_attached p' = true /\ ps_sites p' = ps_sites p /\
    ps_hardDeath p' = ps_hardDeath p.
Proof.
  intros E Hp Ha. apply accept_inv in E as [[(e & d & ->) _]|(q & HF & Hcase)]; [eauto|].
  pose proof (fd_lookup _ _ _ _ HF) as Hq. assert (q = p) as -> by congruence.
  destruct Hcase as [[(e & d & ->) _]|[_ He]].
  - exists (bumped p). cbn. rewrite lookup_insert_eq. auto.
  - destruct He; (eexists; cbn; rewrite insert_insert_eq, lookup_insert_eq; split; [reflexivity|cbn; auto]).
Qed.

Lemma accept_result id f c r c' :
  accept sha256 id f c = (r, c') -> is_ok r = true ->
  exists p, Framed c id f p /\ effect sha256 id (bumped p) f (setProducer id (bumped p) c) c'.
Proof.
  intros E Hr. apply accept_inv in E as [[_ [e ->]]|(p & HF & [[_ [e ->]]|[_ He]])]; try discriminate. eauto.
Qed.

Lemma Inv_deliver s r f :
  Inv s -> sy_rpc s = Some (r, Sent f) -> Inv (step sha256 producer Deliver s).
Proof.
  intros [] Hr. unfold step. rewrite Hr. cbn zeta.
  destruct (da_runs_ok sha256 _ _ _ Hty iv_runs0) as [Hok _].
  destruct iv_mirror0 as (p & Hp & Ha & Hs & Hi). pose proof (iv_rpc0 _ _ Hr) as Hrpc.
  destruct (accept sha256 producer f (sy_parent s)) as [res c'] eqn:E. cbn [fst].
  destruct (accept_keeps _ _ _ _ _ E Hp Ha) as (p' & Hp' & Ha' & Hs' & Hh').
  assert (Happ : apply sha256 (EvAccept producer f) (sy_parent s) = c') by (cbn; by rewrite E).
  assert (Hok' : is_ok res = true -> exists p, Framed (sy_parent s) producer f p /\
    effect sha256 producer (bumped p) f (setProducer producer (bumped p) (sy_parent s)) c')
    by (apply accept_result, E).
  constructor; sys_cbn; rewrite ?Happ; auto.
  - rewrite <- Happ. by constructor.
  - rewrite Hr in iv_gate0. exact iv_gate0.
  - intros n Hn. destruct (iv_held0 n Hn) as [H1 H2]. split; [exact H1|]. intros r' st' [= <- _]. eauto.
  - intros n Hn. apply counted_app. auto.
  - intros r' st' [= <- <-]. apply (rpcOK_log _ _ _ _ _ (logged sha256 (EvAccept producer f) (sy_parent s))) in Hrpc.
    destruct Hrpc as (Ht & Hk & Hf). split; [exact Ht|]. split; [|destruct res; exact Hf].
    destruct r; auto. destruct Hk as (H1 & H2 & H3 & _). split; [exact H1|]. split; [exact H2|]. split; [exact H3|].
    destruct res as [[]|]; [|exact I]. destruct (Hok' eq_refl) as (q & HF & He).
    assert (q = p) as -> by (pose proof (fd_lookup _ _ _ _ HF); congruence).
    destruct (proj2 (effect_image _ _ _ _ _ _ _ _ Hok HF He (iv_rpc0 _ _ Hr) Hs) _ _ eq_refl) as [st Hst].
    destruct Hf as (Fop & _ & Ford & _). cbn in Fop, Ford.
    exists (mkAdmission producer f (si_Role st)). split; [|split; [reflexivity|exact Ford]].
    apply elem_of_app. right. unfold logged. rewrite E. cbn [fst]. rewrite Fop, Z.eqb_refl, Hp. cbn. rewrite Hst. left.
  - exists p'. split; [exact Hp'|]. split; [exact Ha'|]. split; [congruence|]. intros He Hh i Hx.
    destruct res as [[]|]; [|discriminate]. injection Hx as <-. destruct (Hok' eq_refl) as (q & HF & Heff).
    assert (q = p) as -> by (pose proof (fd_lookup _ _ _ _ HF); congruence).
    apply (proj1 (effect_image _ _ _ _ _ _ _ _ Hok HF Heff (iv_rpc0 _ _ Hr) Hs)); [|exact Hp'].
    apply Hi; [exact He|congruence|]. rewrite Hr. reflexivity.
Qed.

(** ** Taking and leaving the gate *)
Lemma acquire_free c : cl_gate c = false -> acquire false true c = (Ok tt, c <| cl_gate := true |>).
Proof. intros H. unfold acquire. rewrite H. reflexivity. Qed.

Lemma Inv_hold s r c' :
  Inv s -> sy_rpc s = None -> cl_gate c' = true -> flags (sy_client s) (c' <| cl_gate := false |>) ->
  (forall n, n ∈ tokens r -> is_Some (cl_active c' !! n)) -> owned r = None -> before r c' = idle c' ->
  match r with RpcAdmit _ _ => False | _ => True end ->
  Inv (hold r (s <| sy_client := c' |>)).
Proof.
  intros HI Hr Hg Hf Ht Ho Hb Hk. apply Inv_flags in Hf; [|exact HI]. destruct Hf. sys_cbn.
  unfold hold. constructor; cbn in *; auto.
  - intros n Hn. destruct (iv_held0 n Hn). split; [assumption|]. intros r' st' [= <- <-]. congruence.
  - intros r' st' [= <- <-]. split; [exact Ht|]. split; [|exact I]. destruct r; auto. contradiction.
  - destruct iv_mirror0 as (p & Hp & Ha & Hs & Hi). exists p. repeat split; auto. intros He Hh i [= <-].
    rewrite Hb. apply Hi; auto. rewrite Hr. reflexivity.
Qed.

Lemma flags_release c c' : cl_gate c = false -> flags (c <| cl_gate := true |>) c' -> flags c (release c').
Proof.
  intros Hg (H1 & H2 & H3 & H4 & H5 & H6 & H7). unfold flags. cbn in *. repeat split; try congruence. exact H7.
Qed.

Lemma admitLocked_cases site hasProcess phase c out c' :
  0 <= cl_ordinal c <= MaxUint64 -> admitLocked site hasProcess phase c = (out, c') ->
  flags c c' /\ (forall n, out <> Granted n) \/
  exists bound, out = Granted (cl_ordinal c + 1) /\ cl_sites c !! site = Some bound /\
    cl_ordinal c < MaxUint64 /\
    c' = notifyLocked (c <| cl_ordinal := cl_ordinal c + 1 |>
           <| cl_active ::= insert (cl_ordinal c + 1) (mkCommand true (si_Persistent bound) false) |>).
Proof.
  intros Ho H. unfold admitLocked in H.
  assert (Hf : forall e, (let '(e', c1) := failClient e c in (Refused e', c1)) = (out, c') ->
    flags c c' /\ (forall n, out <> Granted n)).
  { intros e He. pose proof (failClient_flags e c) as [Hf _]. destruct (failClient e c).
    injection He as <- <-. split; [exact Hf|discriminate]. }
  destruct (_ && _ && _); [injection H as <- <-; left; split; [apply flags_refl|discriminate]|].
  destruct (cl_err c); [left; eauto|]. destruct (cl_sites c !! site) as [bound|] eqn:Eb; [|left; eauto].
  destruct (_ || _); [left; eauto|]. destruct (_ || _); [left; eauto|].
  destruct (_ || (cl_ordinal c =? MaxUint64)) eqn:E in H; [left; eauto|]. bsplit.
  rewrite u64_small in H by lia. injection H as <- <-. right. exists bound. repeat split; auto. lia.
Qed.

Lemma fresh_token s : Inv s -> cl_active (sy_client s) !! (cl_ordinal (sy_client s) + 1) = None.
Proof.
  intros []. destruct (cl_active (sy_client s) !! _) eqn:E; [|reflexivity].
  assert (1 <= cl_ordinal (sy_client s) + 1 <= cl_ordinal (sy_client s)); [|lia].
  apply iv_keys0. rewrite E. eauto.
Qed.

Lemma mview_insert c n m :
  cl_active c !! n = None ->
  delete n ((fun m => mkActive (cm_persistent m) (cm_carried m)) <$> <[n := m]> (cl_active c)) = mview c.
Proof.
  intros H. rewrite fmap_insert. apply delete_insert_id. unfold mview. by rewrite lookup_fmap, H.
Qed.

Lemma Inv_admit s site hasProcess phase : Inv s -> Inv (step sha256 producer (Admit site hasProcess phase) s).
Proof.
  intros HI. unfold step. cbn zeta. destruct (sy_rpc s) as [|] eqn:Hr; [exact HI|].
  assert (Hg : cl_gate (sy_client s) = false) by (rewrite (iv_gate s HI), Hr; reflexivity).
  rewrite (acquire_free _ Hg). pose proof (fresh_token s HI) as Hfresh.
  destruct (admitLocked _ _ _ _) as [out c'] eqn:E.
  apply admitLocked_cases in E; [|exact (iv_ordinal s HI)].
  destruct E as [[Hf Hout]|(bound & -> & Hb & Hlt & ->)].
  - pose proof (flags_release _ _ Hg Hf) as Hf'. destruct out; [| |by destruct (Hout ordinal)]; by apply Inv_flags.
  - destruct HI. unfold hold. cbn in Hb, Hlt. constructor; cbn; auto; try lia.
    + intros n [m Hm]. destruct (decide (n = cl_ordinal (sy_client s) + 1)) as [->|Hne]; [lia|].
      rewrite lookup_insert_ne in Hm by congruence. specialize (iv_keys0 n ltac:(eauto)). lia.
    + intros n Hn. destruct (iv_held0 n Hn) as [H1 _]. pose proof (iv_keys0 n H1) as Hk. split.
      * rewrite lookup_insert_ne by lia. exact H1.
      * intros r st [= <- <-]. cbn. intros [= <-]. lia.
    + destruct iv_started0 as [H1 H2]. split; [exact H1|]. intros n Hn. specialize (H2 n Hn). lia.
    + intros r st [= <- <-]. split; [|split; [|exact I]].
      * intros n Hn. cbn in Hn. apply elem_of_cons in Hn as [->|Hn]; [|inversion Hn]. cbn.
        rewrite lookup_insert_eq. eauto.
      * cbn. split; [reflexivity|]. split; [|split; [|exact I]].
        -- intros Hin. apply (proj2 iv_started0) in Hin. lia.
        -- exists bound, true. rewrite lookup_insert_eq. auto.
    + destruct iv_mirror0 as (p & Hp & Ha & Hs & Hi). exists p. repeat split; auto. intros He Hh i [= <-].
      rewrite (Hi He Hh (idle (sy_client s))) by (rewrite Hr; reflexivity).
      unfold idle, mview. cbn. f_equal; [lia|]. symmetry. by apply mview_insert.
Qed.

Lemma exchangeSend_cases ctxDone op site ordinal c r c' :
  0 <= cl_sequence c <= MaxUint64 -> exchangeSend ctxDone op site ordinal c = (r, c') ->
  (exists e, r = Err e /\ flags c c' /\ cl_err c' <> None) \/
  exists f, r = Ok f /\ cl_sequence c < MaxUint64 /\ fr_op f = op /\ fr_site f = site /\ fr_ordinal f = ordinal /\
    fr_sequence f = cl_sequence c + 1 /\
    c' = c <| cl_sequence := cl_sequence c + 1 |> <| cl_wireBytes := u64 (cl_wireBytes c + 2 * FrameBytes) |>.
Proof.
  intros Hs H. unfold exchangeSend in H.
  assert (Hf : forall e, refuse e c = (r, c') -> exists e, r = Err e /\ flags c c' /\ cl_err c' <> None).
  { intros e He. apply refuse_flags in He as (? & ? & e' & ->). eauto. }
  destruct (cl_err c); [left; eauto|]. destruct (ctxDone || _ || _); [left; eauto|].
  destruct ((cl_sequence c =? MaxUint64) || _) eqn:E; [left; eauto|]. bsplit.
  rewrite (u64_small (cl_sequence c + 1)) in H by lia. injection H as <- <-. right. eexists. repeat split; auto. lia.
Qed.

(** ** Leaving an exchange *)
Lemma Inv_drop s r st :
  Inv s -> sy_rpc s = Some (r, st) ->
  (cl_err (sy_client s) = None -> forall i, expected (sy_rpc s) (sy_client s) = Some i -> i = idle (sy_client s)) ->
  (cl_err (sy_client s) = None -> is_Some (expected (sy_rpc s) (sy_client s))) ->
  Inv (drop_gate s).
Proof.
  intros [] Hr Hsame Hex. unfold drop_gate, onClient. constructor; cbn; auto.
  - intros n Hn. destruct (iv_held0 n Hn). split; [assumption|]. discriminate.
  - discriminate.
  - destruct iv_mirror0 as (p & Hp & Ha & Hs & Hi). exists p. repeat split; auto. intros He Hh i [= <-].
    destruct (Hex He) as [j Hj]. rewrite (Hi He Hh j Hj). rewrite (Hsame He j Hj). reflexivity.
Qed.

Lemma complete_admitted s site n f :
  Inv s -> sy_rpc s = Some (RpcAdmit site n, Acked f) -> Inv (drop_gate (s <| sy_starting ::= fun g => {[n]} ∪ g |>)).
Proof.
  intros [] Hr. destruct (iv_rpc0 _ _ Hr) as (Ht & (-> & Hns & _ & Hc) & _).
  assert (Hown : forall m, m ∈ sy_starting s \/ m ∈ sy_handles s \/ m ∈ sy_settling s -> m <> cl_ordinal (sy_client s)).
  { intros m Hm ->. apply (proj2 (iv_held0 _ Hm) _ _ Hr). reflexivity. }
  unfold drop_gate, onClient. constructor; cbn; auto.
  - intros m Hm. split; [|discriminate]. rewrite elem_of_union, elem_of_singleton in Hm.
    destruct Hm as [[->|Hm]|Hm]; [apply Ht; left|apply iv_held0; auto..].
  - destruct iv_disjoint0 as [D1 D2]. split; [|exact D2]. intros m Hm.
    rewrite elem_of_union, elem_of_singleton in Hm. destruct Hm as [->|Hm]; [|auto].
    split; [|split; [|exact Hns]]; intros Hin; eapply Hown; eauto.
  - intros m Hm. rewrite elem_of_union, elem_of_singleton in Hm. destruct Hm as [[->|Hm]|Hm]; auto.
  - discriminate.
  - destruct iv_mirror0 as (p & Hp & Ha & Hs & Hi). exists p. repeat split; auto. intros He Hh i [= <-].
    apply Hi; auto. rewrite Hr. reflexivity.
Qed.

Lemma complete_settled s n st :
  Inv s -> sy_rpc s = Some (RpcSettle n, st) ->
  (cl_err (sy_client s) = None -> exists f, st = Acked f) -> Inv (drop_gate (onClient (settledLocked n) s)).
Proof.
  intros [] Hr Hst. unfold drop_gate, onClient. constructor; cbn; auto.
  - intros m Hm. apply iv_keys0. destruct (decide (m = n)) as [->|Hne].
    + rewrite lookup_delete_eq in Hm. destruct Hm; discriminate.
    + rewrite lookup_delete_ne in Hm by congruence. exact Hm.
  - intros m Hm. destruct (iv_held0 m Hm) as [H1 H2]. split; [|discriminate].
    rewrite lookup_delete_ne; [exact H1|]. intros ->. apply (H2 _ _ Hr). reflexivity.
  - discriminate.
  - destruct iv_mirror0 as (p & Hp & Ha & Hs & Hi). exists p. repeat split; auto. intros He Hh i [= <-].
    destruct (Hst He) as [f ->]. rewrite (Hi He Hh (after (RpcSettle n) (sy_client s))) by (rewrite Hr; reflexivity).
    unfold after, idle, mview. cbn. by rewrite fmap_delete.
Qed.

Lemma carried_view c t m :
  cl_active c !! t = Some m ->
  (fun m => mkActive (cm_persistent m) (cm_carried m)) <$> <[t := m <| cm_carried := true |>]> (cl_active c) =
  alter (fun a => mkActive (ad_persistent a) true) t (mview c).
Proof.
  intros H. apply map_eq. intros k. rewrite lookup_fmap. destruct (decide (k = t)) as [->|Hne].
  - rewrite lookup_insert_eq, lookup_alter_eq. unfold mview. rewrite lookup_fmap, H. reflexivity.
  - rewrite lookup_insert_ne, lookup_alter_ne by congruence. unfold mview. by rewrite lookup_fmap.
Qed.

Lemma insert_is_Some {A} (m : gmap Z A) k x n : is_Some (m !! k) -> is_Some (<[k := x]> m !! n) <-> is_Some (m !! n).
Proof.
  intros Hk. destruct (decide (n = k)) as [->|Hne]; [rewrite lookup_insert_eq|rewrite lookup_insert_ne by congruence; reflexivity].
  split; eauto.
Qed.

Lemma complete_carried s closeAll t rest n f :
  Inv s -> sy_rpc s = Some (RpcCarry closeAll t rest n, Acked f) -> Inv (complete (RpcCarry closeAll t rest n) (Ok tt) s).
Proof.
  intros [] Hr. destruct (iv_rpc0 _ _ Hr) as (Ht & _ & _). destruct (Ht t ltac:(left)) as [m Hm].
  unfold complete, carriedLocked. rewrite Hm. unfold hold.
  assert (Hd : forall k, is_Some (<[t := m <| cm_carried := true |>]> (cl_active (sy_client s)) !! k) <->
    is_Some (cl_active (sy_client s) !! k)) by (intros k; apply insert_is_Some; eauto).
  rewrite Hr in iv_gate0.
  constructor; cbn [sy_log sy_parent sy_panicked sy_client sy_rpc sy_starting sy_handles sy_settling sy_started setter]; auto.
  - intros k Hk. cbn. apply iv_keys0, Hd, Hk.
  - intros k Hk. destruct (iv_held0 k Hk). split; [by apply Hd|]. intros r st [= <- _]. destruct rest; discriminate.
  - intros r st [= <- <-]. split; [|split; [destruct rest; exact I|exact I]].
    intros k Hk. apply Hd, Ht. destruct rest; [inversion Hk|]. right. exact Hk.
  - destruct iv_mirror0 as (p & Hp & Ha & Hs & Hi). exists p. repeat split; auto. intros He Hh i Hx.
    rewrite (Hi He Hh (after (RpcCarry closeAll t rest n) (sy_client s))) by (rewrite Hr; reflexivity).
    assert (i = idle ((sy_client s) <| cl_active ::= insert t (m <| cm_carried := true |>) |>)) as ->
      by (destruct rest; injection Hx as <-; reflexivity).
    unfold after, idle, mview at 2. cbn. by rewrite carried_view.
Qed.

Lemma complete_final s closeAll n f :
  Inv s -> sy_rpc s = Some (RpcFinal closeAll n, Acked f) -> Inv (drop_gate (onClient (checkpointed closeAll) s)).
Proof.
  intros [] Hr. set (c' := release (checkpointed closeAll (sy_client s))).
  change (drop_gate _) with (s <| sy_rpc := None |> <| sy_client := c' |>).
  assert (E : cl_sites c' = cl_sites (sy_client s) /\ cl_ordinal c' = cl_ordinal (sy_client s) /\
    cl_sequence c' = cl_sequence (sy_client s) /\ cl_active c' = cl_active (sy_client s) /\
    cl_closed c' = closeAll /\ cl_err c' = cl_err (sy_client s) /\ cl_gate c' = false)
    by (unfold c'; destruct closeAll; cbn; auto 10).
  destruct E as (E1 & E2 & E3 & E4 & E5 & E6 & E7).
  clearbody c'. constructor; sys_cbn; rewrite ?E1, ?E2, ?E3, ?E4, ?E5, ?E6; auto.
  - intros m Hm. destruct (iv_held0 m Hm). split; [assumption|]. discriminate.
  - discriminate.
  - destruct iv_mirror0 as (p & Hp & Ha & Hs & Hi). exists p. repeat split; auto. intros He Hh i [= <-].
    rewrite (Hi He Hh (after (RpcFinal closeAll n) (sy_client s))) by (rewrite Hr; reflexivity).
    unfold after, idle, mview. rewrite E2, E3, E4, E5. reflexivity.
Qed.

Lemma Inv_complete s r st result :
  Inv s -> sy_rpc s = Some (r, st) -> (is_ok result = true -> exists f, st = Acked f) ->
  (is_ok result = false -> cl_err (sy_client s) <> None) -> Inv (complete r result s).
Proof.
  intros HI Hr Hok Hbad.
  assert (Hdrop : is_ok result = false -> Inv (drop_gate s)).
  { intros E. apply (Inv_drop s r st HI Hr); intros He; destruct (Hbad E He). }
  destruct r as [site n|n|closeAll t rest n|closeAll n], result as [[]|e]; cbn [complete]; auto.
  - destruct (Hok eq_refl) as [f ->]. eapply complete_admitted; eauto.
  - destruct (Hok eq_refl) as [f ->]. eapply complete_settled; eauto.
  - eapply complete_settled; eauto. intros He. destruct (Hbad eq_refl He).
  - destruct (Hok eq_refl) as [f ->]. eapply complete_carried; eauto.
  - destruct (Hok eq_refl) as [f ->]. eapply complete_final; eauto.
Qed.

(** ** The remaining steps *)
Lemma Inv_send s ctxDone : Inv s -> Inv (step sha256 producer (Send ctxDone) s).
Proof.
  intros HI. unfold step. cbn zeta. destruct (sy_rpc s) as [[r []]|] eqn:Hr; try exact HI.
  destruct (exchangeSend _ _ _ _ _) as [res c'] eqn:E. apply exchangeSend_cases in E; [|exact (iv_sequence s HI)].
  destruct E as [(e & -> & Hf & He)|(f & -> & Hlt & Fo & Fs & Fr & Fq & ->)].
  - eapply Inv_complete; [by apply Inv_flags|exact Hr|discriminate|intros _; exact He].
  - destruct HI. pose proof (iv_rpc0 _ _ Hr) as (Ht & Hk & _). rewrite Hr in iv_gate0.
    constructor; cbn [sy_log sy_parent sy_panicked sy_client sy_rpc sy_starting sy_handles sy_settling sy_started setter]; auto.
    + cbn. lia.
    + intros n Hn. destruct (iv_held0 n Hn) as [H1 H2]. split; [exact H1|]. intros r' st' [= <- _]. eauto.
    + intros r' st' [= <- <-]. split; [exact Ht|]. split; [destruct r; exact Hk|].
      repeat split; assumption.
    + destruct iv_mirror0 as (p & Hp & Ha & Hs & Hi). exists p. repeat split; auto. intros He Hh i [= <-].
      rewrite (Hi He Hh (before r (sy_client s))) by (rewrite Hr; reflexivity).
      destruct r; unfold unsent, before, idle, mview; cbn; f_equal; lia.
Qed.

Lemma Inv_finish s a b d : Inv s -> Inv (step sha256 producer (Finish a b d) s).
Proof.
  intros HI. unfold step. cbn zeta.
  assert (Hfin : forall r st f ack, sy_rpc s = Some (r, st) -> (st = Acked f \/ ack = None) ->
    Inv (let '(result, c) := exchangeEnd (mkExchange a b ack d) f (sy_client s) in
         complete r result (s <| sy_client := c |>))).
  { intros r st f ack Hr Hst. destruct (exchangeEnd _ _ _) as [res c'] eqn:E.
    destruct (exchangeEnd_flags _ _ _ _ _ E) as [Hf Hbad].
    eapply Inv_complete; [by apply Inv_flags|exact Hr| |exact Hbad].
    intros Hok. destruct Hst as [-> | ->]; [eauto|]. exfalso. unfold exchangeEnd in E. cbn in E.
    destruct (negb a || negb b); apply (refuse_flags (A:=unit)) in E as (_ & _ & e & ->); discriminate. }
  destruct (sy_rpc s) as [[r []]|] eqn:Hr; try exact HI; eapply Hfin; eauto.
Qed.

Lemma started_quiet n c c' : startedLocked n c = Some c' -> quiet c c' /\ is_Some (cl_active c !! n).
Proof.
  unfold startedLocked. destruct (cl_active c !! n) as [m|] eqn:Em; [|discriminate]. intros [= <-].
  split; [|eauto]. unfold quiet, mview. cbn. repeat split; auto.
  - rewrite fmap_insert. apply insert_id. by rewrite lookup_fmap, Em.
  - apply insert_is_Some; eauto.
  - apply insert_is_Some; eauto.
Qed.

(** A token leaves [starting]. *)
Lemma Inv_unstarting s n : Inv s -> Inv (s <| sy_starting ::= fun g => g ∖ {[n]} |>).
Proof.
  intros []. constructor; sys_cbn; auto.
  - intros m Hm. apply iv_held0. rewrite elem_of_difference in Hm. tauto.
  - destruct iv_disjoint0 as [D1 D2]. split; [|exact D2]. intros m Hm. apply D1. rewrite elem_of_difference in Hm. tauto.
  - intros m Hm. apply iv_counted0. rewrite elem_of_difference in Hm. tauto.
Qed.

(** A started command, with the new sets of handles and of settlements. *)
Lemma Inv_started s n handles settling :
  Inv s -> (n ∉ sy_starting s) -> (n ∉ sy_started s) -> counted n (sy_log s) ->
  is_Some (cl_active (sy_client s) !! n) -> (forall r st, sy_rpc s = Some (r, st) -> owned r <> Some n) ->
  (forall m, m ∈ handles \/ m ∈ settling -> m = n \/ m ∈ sy_handles s \/ m ∈ sy_settling s) ->
  (forall m, m ∈ handles -> m ∉ settling) ->
  Inv (s <| sy_started ::= fun l => l ++ [n] |> <| sy_handles := handles |> <| sy_settling := settling |>).
Proof.
  intros [] N1 N2 Hcnt Hsome Hown Hsets Hdis. pose proof (iv_keys0 n Hsome) as Hk.
  assert (Hsn : forall m, m ∈ sy_started s ++ [n] <-> m ∈ sy_started s \/ m = n)
    by (intros m; rewrite elem_of_app, list_elem_of_singleton; reflexivity).
  constructor; sys_cbn; auto.
  - intros m [Hm|Hm]; [apply iv_held0; auto|]. apply Hsets in Hm as [->|Hm]; [auto|apply iv_held0; tauto].
  - destruct iv_disjoint0 as [D1 D2]. split; [|exact Hdis]. intros m Hm. destruct (D1 m Hm) as (A1 & A2 & A3).
    split; [|split]; intros Hin.
    + destruct (Hsets m (or_introl Hin)) as [->|[]]; contradiction.
    + destruct (Hsets m (or_intror Hin)) as [->|[]]; contradiction.
    + apply Hsn in Hin as [| ->]; contradiction.
  - destruct iv_started0 as [H1 H2]. split.
    + apply NoDup_app. split; [exact H1|]. split; [|apply NoDup_singleton].
      intros m Hm Hm'. apply list_elem_of_singleton in Hm' as ->. contradiction.
    + intros m Hm. apply Hsn in Hm as [Hm| ->]; [auto|exact Hk].
  - intros m [Hm|Hm]; [auto|]. apply Hsn in Hm as [Hm| ->]; auto.
  - intros r st Hr. destruct (iv_rpc0 r st Hr) as (Ht & Hkk & Hf). split; [exact Ht|]. split; [|exact Hf].
    destruct r; auto. destruct Hkk as (H1 & H2 & H3). split; [exact H1|]. split; [|exact H3].
    intros Hin. apply Hsn in Hin as [Hin|Hin]; [contradiction|]. apply (Hown _ _ Hr). cbn. by rewrite Hin.
Qed.

Lemma Inv_start s n ctxDone startOk : Inv s -> Inv (step sha256 producer (StartCommand n ctxDone startOk) s).
Proof.
  intros HI. unfold step. cbn zeta. destruct (decide (n ∈ sy_starting s)) as [Hin|]; [|exact HI].
  pose proof (Inv_unstarting s n HI) as Hdrop.
  destruct (_ || _); [apply Inv_flags; [exact Hdrop|apply failClient_flags]|].
  destruct (iv_held s HI n ltac:(auto)) as [Hsome Hown].
  pose proof (proj1 (iv_disjoint s HI) n Hin) as (N1 & N2 & N3). pose proof (iv_counted s HI n ltac:(auto)) as Hcnt.
  destruct (startedLocked n (sy_client s)) as [c'|] eqn:E.
  2: { unfold startedLocked in E. destruct Hsome as [m Hm]. rewrite Hm in E. discriminate. }
  apply started_quiet in E as [Hq _]. pose proof Hq as (_ & _ & _ & _ & Hd & _).
  pose proof (Inv_quiet _ c' Hdrop Hq) as HI'. pose proof (proj2 (iv_disjoint s HI)) as D2.
  assert (Hn : n ∉ sy_starting s ∖ {[n]}) by (rewrite elem_of_difference, elem_of_singleton; tauto).
  destruct startOk.
  - apply (Inv_started _ n ({[n]} ∪ sy_handles s) (sy_settling s) HI'); auto; [by apply Hd| |].
    + intros m. rewrite elem_of_union, elem_of_singleton. tauto.
    + intros m Hm. rewrite elem_of_union, elem_of_singleton in Hm. destruct Hm as [->|Hm]; auto.
  - apply (Inv_started _ n (sy_handles s) ({[n]} ∪ sy_settling s) HI'); auto; [by apply Hd| |].
    + intros m. rewrite elem_of_union, elem_of_singleton. tauto.
    + intros m Hm. rewrite elem_of_union, elem_of_singleton. intros [->|Hm']; [contradiction|]. by apply (D2 m).
Qed.

Lemma Inv_join s n : Inv s -> Inv (step sha256 producer (Join n) s).
Proof.
  intros HI. unfold step. cbn zeta. destruct (decide (n ∈ sy_handles s)) as [Hin|]; [|exact HI].
  destruct HI. constructor; sys_cbn; auto.
  - intros m Hm. apply iv_held0. rewrite elem_of_difference, elem_of_union, !elem_of_singleton in Hm.
    destruct Hm as [Hm|[Hm|[->|Hm]]]; tauto.
  - destruct iv_disjoint0 as [D1 D2]. split; intros m Hm.
    + destruct (D1 m Hm) as (A1 & A2 & A3). rewrite elem_of_difference, elem_of_union, !elem_of_singleton.
      repeat split; [tauto| |exact A3]. intros [->|]; contradiction.
    + rewrite elem_of_difference, elem_of_singleton in Hm. destruct Hm as [Hm Hne].
      rewrite elem_of_union, elem_of_singleton. intros [|Hs]; [contradiction|]. by apply (D2 m).
Qed.

Lemma Inv_settle s n : Inv s -> Inv (step sha256 producer (Settle n) s).
Proof.
  intros HI. unfold step. cbn zeta. destruct (decide (n ∈ sy_settling s)) as [Hin|]; [|exact HI].
  destruct (sy_rpc s) as [|] eqn:Hr; [exact HI|].
  rewrite acquire_free by (rewrite (iv_gate s HI), Hr; reflexivity).
  destruct HI. unfold hold. constructor; cbn; auto.
  - intros m Hm. rewrite elem_of_difference, elem_of_singleton in Hm.
    split; [apply iv_held0; tauto|]. intros r st [= <- <-] [= ->]. destruct iv_disjoint0 as [D1 D2].
    destruct Hm as [Hm|[Hm|[Hm Hne]]]; [apply D1 in Hm; tauto|by apply (D2 m)|contradiction].
  - destruct iv_disjoint0 as [D1 D2]. split; intros m Hm; rewrite elem_of_difference, elem_of_singleton.
    + specialize (D1 m Hm). tauto.
    + specialize (D2 m Hm). tauto.
  - intros r st [= <- <-]. split; [|split; exact I]. intros m Hm. cbn in Hm.
    apply list_elem_of_singleton in Hm as ->. apply iv_held0. auto.
  - destruct iv_mirror0 as (p & Hp & Ha & Hs & Hi). exists p. repeat split; auto. intros He Hh i [= <-].
    apply Hi; auto. rewrite Hr. reflexivity.
Qed.

Lemma carryTokens_active order c n : n ∈ carryTokens order c -> is_Some (cl_active c !! n).
Proof.
  unfold carryTokens. rewrite list_elem_of_In, filter_In. intros [_ H]. destruct (cl_active c !! n); [eauto|discriminate].
Qed.

Lemma Inv_checking s l : Inv s -> Inv (s <| sy_checking := l |>).
Proof. intros []. constructor; sys_cbn; auto. Qed.

Lemma Inv_carry s i storeCheckpoint order : Inv s -> Inv (step sha256 producer (CarryBegin i storeCheckpoint order) s).
Proof.
  intros HI. unfold step. cbn zeta. destruct (sy_checking s !! i) as [closeAll|]; [|exact HI].
  pose proof (Inv_checking s (delete i (sy_checking s)) HI) as HI'.
  destruct (storePass closeAll storeCheckpoint (sy_client s)) as [[[]|e] c] eqn:E; apply storePass_flags in E.
  2: { by apply (Inv_flags _ c HI'). }
  destruct (sy_rpc s) as [|] eqn:Hr; [exact HI|].
  assert (Hg : cl_gate c = false).
  { destruct E as (_ & _ & _ & _ & _ & Hg & _). rewrite Hg, (iv_gate s HI), Hr. reflexivity. }
  rewrite (acquire_free c Hg).
  assert (Hf : flags (sy_client s) (c <| cl_gate := true |> <| cl_gate := false |>)).
  { destruct E as (?&?&?&?&?&?&?). unfold flags. cbn. repeat split; congruence || auto. }
  destruct (carryTokens order _) as [|t ts] eqn:Ec; apply (Inv_hold _ _ _ HI' Hr); auto.
  - intros n Hn. inversion Hn.
  - intros n Hn. apply (carryTokens_active order). rewrite Ec. exact Hn.
Qed.

Lemma Inv_step s a : Inv s -> Inv (step sha256 producer a s).
Proof.
  intros HI. destruct a.
  - unfold step. cbn zeta. destruct (foreign producer ev) eqn:E; [|exact HI]. by apply Inv_parent.
  - apply Inv_flags; [exact HI|]. unfold flags. cbn. auto 10.
  - apply Inv_flags; [exact HI|]. apply waitEnter_flags.
  - apply Inv_flags; [exact HI|]. apply waitPass_flags.
  - apply Inv_flags; [exact HI|]. apply acquire_fails_flags.
  - by apply Inv_admit.
  - by apply Inv_send.
  - destruct (sy_rpc s) as [[r []]|] eqn:Hr; try (unfold step; rewrite Hr; exact HI). by apply (Inv_deliver s r f).
  - unfold step. cbn zeta. destruct (sy_rpc s) as [[r []]|] eqn:Hr; try exact HI; eapply Inv_lose; eauto.
  - by apply Inv_finish.
  - by apply Inv_start.
  - by apply Inv_join.
  - by apply Inv_settle.
  - apply Inv_flags; [exact HI|]. apply pauseLocked_flags.
  - unfold step. cbn zeta. destruct (sy_rpc s) eqn:Hr; [exact HI|]. apply Inv_flags; [exact HI|].
    apply pauseEnd_flags. rewrite (iv_gate s HI), Hr. reflexivity.
  - apply Inv_flags; [exact HI|]. unfold flags, fenceClient. cbn. auto 10.
  - unfold step. cbn zeta. destruct (quiescePass closeAll ends (sy_client s)) as [r c'] eqn:E. apply quiescePass_flags in E.
    pose proof (Inv_flags s c' HI E) as HI'. destruct r as [[]|]; auto.
    by apply (Inv_checking _ (sy_checking s ++ [closeAll]) HI').
  - by apply Inv_carry.
  - apply Inv_flags; [exact HI|]. apply Resume_flags.
Qed.

Lemma Inv_behave l s : Inv s -> Inv (behave sha256 producer l s).
Proof. revert s. induction l as [|a l IH]; intros s HI; [exact HI|]. apply IH, Inv_step, HI. Qed.
End Mirror.
