(* ===== verification/ClientTheorems.v ===== *)
(** * The client mirrors its controller: theorems

    For a producer launched by [NewLocalProducer] and every interleaving of
    its goroutines, the link and the controller's other work: tokens are never
    missing, no command runs that was not counted, and a client without error
    agrees with the controller. *)
From stdpp Require Import sorting.
From S2P Require Import Prelude Bytes DispatchAdmission DispatchSteps DispatchInvariant DispatchTheorems.
From S2P Require Import DispatchClient DispatchLink ClientMirror.

(** ** Sites are stored under their identifiers *)
Definition keyed (m : gmap Z Site) : Prop := forall k s, m !! k = Some s -> si_ID s = k /\ k <> 0.

Lemma keyed_insert m s : keyed m -> si_ID s <> 0 -> keyed (<[si_ID s := s]> m).
Proof.
  intros Hm Hs k q Hq. destruct (decide (k = si_ID s)) as [->|Hne].
  - rewrite lookup_insert_eq in Hq. injection Hq as <-. auto.
  - rewrite lookup_insert_ne in Hq by congruence. auto.
Qed.

Lemma newSites_keyed sites roles input sites' roles' :
  newSites sites roles input = Ok (sites', roles') -> keyed sites -> keyed sites'.
Proof.
  revert sites roles. induction input as [|s input IH]; intros sites roles H Hk; cbn in H; [by injection H as <- <-|].
  destruct (_ || _) eqn:E in H; [discriminate|]. bsplit. apply (IH _ _ H), keyed_insert; [exact Hk|lia].
Qed.

Lemma newProducers_keyed l b ps b' :
  newProducers l b ps = Ok b' -> map_Forall (fun _ p => keyed (ps_sites p)) (bd_producers b) ->
  map_Forall (fun _ p => keyed (ps_sites p)) (bd_producers b').
Proof.
  revert b. induction ps as [|p ps IH]; intros b H Hb; cbn in H; [by injection H as <-|].
  destruct (_ || _) in H; [discriminate|]. destruct (newSites _ _ _) as [[sites roles]|] eqn:E; [|discriminate].
  apply IH in H; [exact H|]. cbn. apply map_Forall_insert_2; [|exact Hb]. cbn.
  apply (newSites_keyed _ _ _ _ _ E). intros k s Hs. rewrite lookup_empty in Hs. discriminate.
Qed.

Lemma accept_sites sha256 id f c r c' p :
  accept sha256 id f c = (r, c') -> c_producers c !! id = Some p ->
  exists p', c_producers c' !! id = Some p' /\ ps_sites p' = ps_sites p.
Proof.
  intros E Hp. apply accept_inv in E as [[(e & d & ->) _]|(q & HF & Hcase)]; [eauto|].
  pose proof (fd_lookup _ _ _ _ HF) as Hq. assert (q = p) as -> by congruence.
  destruct Hcase as [[(e & d & ->) _]|[_ He]].
  - exists (bumped p). cbn. rewrite lookup_insert_eq. auto.
  - destruct He; (eexists; cbn; rewrite insert_insert_eq, lookup_insert_eq; split; reflexivity).
Qed.

Lemma runs_keyed sha256 config log c :
  typedConfig config -> runs sha256 config log c ->
  forall id p, c_producers c !! id = Some p -> keyed (ps_sites p).
Proof.
  intros Hty. induction 1 as [c HN|log c ev Hr IH].
  - unfold New in HN. destruct (_ || _) in HN; [discriminate|].
    destruct (newProducers _ _ _) as [b|] eqn:Ep; [|discriminate].
    destruct (_ <? _); [discriminate|]. destruct (negb _); [discriminate|]. injection HN as <-. cbn.
    apply newProducers_keyed in Ep; [exact Ep|]. apply map_Forall_empty.
  - destruct (da_runs_ok _ _ _ _ Hty Hr) as [Hok _].
    destruct (apply_steps sha256 ev c Hok) as [(_ & _ & _ & Hdom) _]. intros id p' Hp'.
    assert (is_Some (c_producers c !! id)) as [p Hp].
    { apply elem_of_dom. rewrite <- Hdom. apply elem_of_dom. eauto. }
    destruct (foreign id ev) eqn:Ef.
    + destruct (keeps_apply sha256 id ev c Ef p Hp) as (q & Hq & _ & _ & Hs & _).
      assert (q = p') as <- by congruence. rewrite Hs. eauto.
    + destruct ev; try discriminate. cbn in Ef. apply negb_false_iff, Z.eqb_eq in Ef as ->. cbn in Hp'.
      destruct (accept sha256 id f c) as [r c'] eqn:E. destruct (accept_sites _ _ _ _ _ _ _ E Hp) as (q & Hq & Hs).
      cbn in Hp'. assert (q = p') as <- by congruence. rewrite Hs. eauto.
Qed.

(** The client rebuilds the controller's map from its sorted values. *)
Lemma clientSites_lookup sites input sites' k s :
  clientSites sites input = Ok sites' -> keyed sites ->
  sites' !! k = Some s <-> sites !! k = Some s \/ (s ∈ input /\ si_ID s = k).
Proof.
  revert sites. induction input as [|x input IH]; intros sites H Hk; cbn in H.
  - injection H as <-. split; [auto|]. intros [|[Hin _]]; [assumption|inversion Hin].
  - destruct (_ || _) eqn:E in H; [discriminate|]. bsplit.
    assert (Hnone : sites !! si_ID x = None).
    { destruct (sites !! si_ID x) as [q|] eqn:Eq; [|reflexivity]. destruct (Hk _ _ Eq).
      match goal with Hq : negb (si_ID q =? 0) = false |- _ => apply negb_false_iff, Z.eqb_eq in Hq end. congruence. }
    rewrite (IH _ H) by (apply keyed_insert; [exact Hk|lia]).
    rewrite elem_of_cons. destruct (decide (k = si_ID x)) as [->|Hne].
    + rewrite lookup_insert_eq, Hnone. split.
      * intros [[= <-]|]; tauto.
      * intros [|[[->|] ?]]; [discriminate| |]; auto.
    + rewrite lookup_insert_ne by congruence. split; [tauto|]. intros [|[[->|] ?]]; [auto|congruence|auto].
Qed.

Lemma clientSites_view m sites : keyed m -> clientSites ∅ (merge_sort siteBefore (map_to_list m).*2) = Ok sites -> sites = m.
Proof.
  intros Hm H. apply map_eq. intros k. apply option_eq. intros s.
  rewrite (clientSites_lookup _ _ _ _ _ H) by (intros k' s' Hs; rewrite lookup_empty in Hs; discriminate).
  rewrite lookup_empty, merge_sort_Permutation. split.
  - intros [|[Hin <-]]; [discriminate|]. apply list_elem_of_fmap in Hin as ([k' s'] & -> & Hin).
    apply elem_of_map_to_list in Hin. cbn. by destruct (Hm _ _ Hin) as [-> _].
  - intros Hs. right. split; [|by apply Hm]. apply list_elem_of_fmap. exists (k, s). split; [reflexivity|].
    by apply elem_of_map_to_list.
Qed.

(** ** The launch *)
Section Launch.
Context (sha256 : list Z -> list Z) (producer : Z) (config : Config).
Hypothesis Hty : typedConfig config.

Lemma untouched_fresh p :
  untouched p = true -> ps_attached p = false /\ ps_closed p = false /\ ps_ordinal p = 0 /\ ps_sequence p = 0 /\
    ps_hardDeath p = false /\ ps_active p = ∅.
Proof. unfold untouched. intros H. bsplit. repeat split; auto. by apply map_size_empty_inv, Nat.eqb_eq. Qed.

Lemma launch_view pid later c0 client c1 :
  NewLocalProducer false later producer pid c0 = (Ok client, c1) ->
  exists p sites, c_producers c0 !! producer = Some p /\ untouched p = true /\ c_err c0 = None /\ c_done c0 = false /\
    clientSites ∅ (merge_sort siteBefore (map_to_list (ps_sites p)).*2) = Ok sites /\
    client = mkClient (ps_binding p) sites (c_limits c0) (ph_ID (curPhase c0)) 0 0 0 ∅ false 0 false 0 0 false
                 false false false false None /\
    c1 = setProducer producer (p <| ps_attached := true |> <| ps_pid := pid |>) c0.
Proof.
  unfold NewLocalProducer, ProducerLaunch, attachLocal, bind, throw, get, ret, modify, checkLocked, failLocked.
  destruct (c_err c0) eqn:Ee; [discriminate|]. destruct (c_done c0) eqn:Ed; [discriminate|].
  destruct (c_producers c0 !! producer) as [p|] eqn:Ep; [|discriminate].
  destruct (c_fenced c0 || negb (untouched p)) eqn:Eu; [discriminate|]. cbn [la_Producer la_Phase la_Limits].
  unfold NewClient. cbn [pr_ID pr_Binding pr_Sites]. destruct (_ || _) in |- *; [discriminate|].
  destruct (clientSites _ _) as [sites|] eqn:Es; [|discriminate]. rewrite Ee, Ed.
  destruct later; [rewrite Ee; discriminate|]. rewrite Ep, Eu, Z.eqb_refl. cbn [orb negb].
  intros [= <- <-]. bsplit. exists p, sites. auto 10.
Qed.

Lemma launch_inv log pid later c0 client c1 :
  runs sha256 config log c0 -> 0 < pid -> NewLocalProducer false later producer pid c0 = (Ok client, c1) ->
  Inv sha256 producer config (start c1 log client).
Proof.
  intros Hr Hpid H. destruct (launch_view _ _ _ _ _ H) as (p & sites & Hp & Hu & He & Hd & Hs & -> & ->).
  destruct (untouched_fresh p Hu) as (Ha & Hc & Ho & Hsq & Hh & Hact).
  apply clientSites_view in Hs as ->; [|eapply runs_keyed; eauto].
  assert (Hrun : runs sha256 config log (setProducer producer (p <| ps_attached := true |> <| ps_pid := pid |>) c0)).
  { pose proof (runs_step sha256 config log c0 (EvAttach producer pid) Hr) as Hst.
    cbn [logged apply] in Hst. rewrite app_nil_r in Hst. unfold attach, checkLocked, bind, get, modify in Hst.
    rewrite He, Hd, Hp, Ha, Hc, (proj2 (Z.leb_gt pid 0) Hpid) in Hst. exact Hst. }
  constructor; cbn; auto; try (unfold MaxUint64; lia).
  - intros n Hn. rewrite lookup_empty in Hn. destruct Hn; discriminate.
  - intros n [Hn|[Hn|Hn]]; by apply elem_of_empty in Hn.
  - split; intros n Hn; by apply elem_of_empty in Hn.
  - split; [constructor|]. intros n Hn. inversion Hn.
  - intros n [Hn|Hn]; [by apply elem_of_empty in Hn|inversion Hn].
  - discriminate.
  - eexists. rewrite lookup_insert_eq. split; [reflexivity|]. split; [reflexivity|]. split; [reflexivity|].
    intros _ _ i [= <-]. unfold imageOf, idle, mview. cbn. rewrite Ho, Hsq, Hact, Hc, fmap_empty. reflexivity.
Qed.

(** No command runs without a counted admission: along every interleaving
    of the client's goroutines, link failures and the controller's other
    events, every command that was started has its own entry in the
    controller's log under this producer, none is started twice, and so no
    more are started than the controller's ordinal. *)
Theorem commands_are_counted log pid later c0 client c1 l :
  runs sha256 config log c0 -> 0 < pid -> NewLocalProducer false later producer pid c0 = (Ok client, c1) ->
  let s := behave sha256 producer l (start c1 log client) in
  runs sha256 config (sy_log s) (sy_parent s) /\ NoDup (sy_started s) /\
  (forall n, n ∈ sy_started s -> exists e, e ∈ sy_log s /\ am_producer e = producer /\ fr_ordinal (am_frame e) = n) /\
  Z.of_nat (length (sy_started s)) <= tally (byProducer producer) (sy_log s).
Proof.
  intros Hr Hpid H s. pose proof (Inv_behave sha256 producer config Hty l _ (launch_inv _ _ _ _ _ _ Hr Hpid H)) as HI.
  fold s in HI. destruct (iv_started _ _ _ s HI) as [Hnd _].
  assert (Hc : forall n, n ∈ sy_started s -> counted producer n (sy_log s)) by (intros; apply (iv_counted _ _ _ s HI); auto).
  split; [exact (iv_runs _ _ _ s HI)|]. split; [exact Hnd|]. split; [exact Hc|].
  unfold tally. apply Nat2Z.inj_le. rewrite <- (length_map (fun e => fr_ordinal (am_frame e))).
  apply submseteq_length, NoDup_submseteq; [exact Hnd|]. intros n Hn. destruct (Hc n Hn) as (e & Hin & Hp & <-).
  apply list_elem_of_fmap. exists e. split; [reflexivity|].
  apply list_elem_of_In, filter_In. split; [by apply list_elem_of_In|]. unfold byProducer. by rewrite Hp, Z.eqb_refl.
Qed.

(** The client's token discipline: along every interleaving, the sets of
    commands waiting to start, running and settling are disjoint, each of
    their tokens is active in the client (so no token is missing when a
    command starts or a handle is carried), and the request gate is held
    exactly while one call is in progress. *)
Theorem tokens_well_formed log pid later c0 client c1 l :
  runs sha256 config log c0 -> 0 < pid -> NewLocalProducer false later producer pid c0 = (Ok client, c1) ->
  let s := behave sha256 producer l (start c1 log client) in
  sy_panicked s = false /\
  sy_starting s ∪ sy_handles s ∪ sy_settling s ⊆ dom (cl_active (sy_client s)) /\
  sy_starting s ## sy_handles s /\ sy_starting s ## sy_settling s /\ sy_handles s ## sy_settling s /\
  (cl_gate (sy_client s) = true <-> is_Some (sy_rpc s)).
Proof.
  intros Hr Hpid H s. pose proof (Inv_behave sha256 producer config Hty l _ (launch_inv _ _ _ _ _ _ Hr Hpid H)) as HI.
  fold s in HI. destruct (iv_disjoint _ _ _ s HI) as [D1 D2].
  split; [exact (iv_panic _ _ _ s HI)|]. split.
  { intros n Hn. apply elem_of_dom. apply (iv_held _ _ _ s HI). rewrite !elem_of_union in Hn. tauto. }
  split; [intros n H1 H2; apply D1 in H1; tauto|]. split; [intros n H1 H2; apply D1 in H1; tauto|].
  split; [intros n H1 H2; apply D2 in H1; tauto|].
  rewrite (iv_gate _ _ _ s HI). destruct (sy_rpc s); cbn; split; eauto; discriminate || (intros [? ?]; discriminate).
Qed.

(** C10: between calls, a client without error is an exact copy of its
    producer in the controller: the same sequence and ordinal, the same
    active tokens with the same persistence and carry marks, both open or
    both closed.  The only exception is a producer whose hard death the owner
    announced. *)
Theorem client_mirrors_controller log pid later c0 client c1 l p :
  runs sha256 config log c0 -> 0 < pid -> NewLocalProducer false later producer pid c0 = (Ok client, c1) ->
  let s := behave sha256 producer l (start c1 log client) in
  cl_err (sy_client s) = None -> sy_rpc s = None ->
  c_producers (sy_parent s) !! producer = Some p -> ps_hardDeath p = false ->
  ps_sequence p = cl_sequence (sy_client s) /\ ps_ordinal p = cl_ordinal (sy_client s) /\
  ps_closed p = cl_closed (sy_client s) /\
  forall n, ps_active p !! n =
    (fun m => mkActive (cm_persistent m) (cm_carried m)) <$> cl_active (sy_client s) !! n.
Proof.
  intros Hr Hpid H s He Hrpc Hp Hh.
  pose proof (Inv_behave sha256 producer config Hty l _ (launch_inv _ _ _ _ _ _ Hr Hpid H)) as HI.
  fold s in HI. destruct (iv_mirror _ _ _ s HI) as (q & Hq & _ & _ & Hi). assert (q = p) as -> by congruence.
  specialize (Hi He Hh (idle (sy_client s)) ltac:(rewrite Hrpc; reflexivity)). unfold imageOf, idle in Hi. injection Hi as H1 H2 H3 H4.
  repeat split; auto. intros n. rewrite H3. unfold mview. by rewrite lookup_fmap.
Qed.

(** ** A healthy admission *)

(** What the client checks before it asks, ... *)
Record clientReady (c : Client) (site : Z) (bound : Site) : Prop := {
  cr_err : cl_err c = None;
  cr_ctx : cl_ctxErr c = false;
  cr_open : cl_paused c = false /\ cl_fenced c = false /\ cl_closed c = false;
  cr_site : cl_sites c !! site = Some bound;
  cr_window : Z.of_nat (size (cl_active c)) < li_ActivePerProducer (cl_limits c);
  cr_numbers : cl_ordinal c < MaxUint64 /\ cl_sequence c < MaxUint64;
  cr_wire : 2 * FrameBytes <= u64 (li_WireBytes (cl_limits c) - cl_wireBytes c)
}.
(** ... and what only the controller knows. *)
Record controllerReady (k : Controller) (c : Client) (bound : Site) (p : producerState) (role : nat) : Prop := {
  kr_live : c_err k = None /\ c_done k = false;
  kr_lookup : c_producers k !! producer = Some p;
  kr_alive : ps_hardDeath p = false;
  kr_binding : ps_binding p = cl_binding c;
  kr_phase : cl_phase c = ph_ID (curPhase k) /\ ps_checkpoint p <> cl_phase c /\ c_fenced k = false;
  kr_limits : c_limits k = cl_limits c;
  kr_attempts : c_attempts k < li_Attempts (c_limits k);
  kr_role : roleIndex (si_Role bound) (ph_Roles (curPhase k)) = Some role /\ roleCount k role < roleBudget k role
}.

Lemma admit_ready c site bound :
  clientReady c site bound -> 0 <= cl_ordinal c ->
  admitLocked site false 0 c =
    (Granted (cl_ordinal c + 1),
     notifyLocked (c <| cl_ordinal := cl_ordinal c + 1 |>
       <| cl_active ::= insert (cl_ordinal c + 1) (mkCommand true (si_Persistent bound) false) |>)).
Proof.
  intros [He _ (Hp & Hf & Hcl) Hs Hw [Ho _] _] H0. unfold admitLocked. rewrite He, Hp, Hs, Hf, Hcl. cbn [andb orb negb is_nil Z.eqb].
  rewrite (proj2 (Z.leb_gt _ _) Hw), (proj2 (Z.eqb_neq (cl_ordinal c) MaxUint64)) by lia. cbn [orb].
  by rewrite u64_small by lia.
Qed.

Lemma send_ready c op site ordinal :
  cl_err c = None -> cl_ctxErr c = false -> cl_closed c = false -> 0 <= cl_sequence c < MaxUint64 ->
  2 * FrameBytes <= u64 (li_WireBytes (cl_limits c) - cl_wireBytes c) ->
  exchangeSend false op site ordinal c =
    (Ok (mkFrame op (cl_phase c) site ordinal (cl_sequence c + 1) (cl_binding c)),
     c <| cl_sequence := cl_sequence c + 1 |> <| cl_wireBytes := u64 (cl_wireBytes c + 2 * FrameBytes) |>).
Proof.
  intros He Hx Hcl Hs Hw. unfold exchangeSend. rewrite He, Hx, Hcl, (proj2 (Z.eqb_neq (cl_sequence c) MaxUint64)) by lia.
  rewrite (proj2 (Z.ltb_ge _ _) Hw). cbn [orb]. cbn zeta. by rewrite (u64_small (cl_sequence c + 1)) by lia.
Qed.

Lemma accept_ready k c bound p role site f :
  controllerReady k c bound p role -> ps_attached p = true -> ps_closed p = false -> ps_sites p !! site = Some bound ->
  0 <= ps_sequence p < MaxUint64 -> 0 <= ps_ordinal p < MaxUint64 ->
  Z.of_nat (size (ps_active p)) < li_ActivePerProducer (c_limits k) ->
  f = mkFrame opAdmit (cl_phase c) site (ps_ordinal p + 1) (ps_sequence p + 1) (cl_binding c) ->
  fst (accept sha256 producer f k) = Ok tt.
Proof.
  intros [[He Hd] Hp Hh Hb (Hph & Hck & Hf) Hl Hat (Hri & Hrc)] Ha Hcl Hsite Hs Ho Hw ->.
  unfold accept, bind, get, checkLocked. rewrite He, Hd, Hp, Hh, Ha, Hcl. cbn [fr_op fr_binding fr_sequence fr_phase negb orb].
  unfold bytes_eqb. rewrite Hb, bool_decide_eq_true_2 by reflexivity.
  rewrite (proj2 (Z.eqb_neq (ps_sequence p) MaxUint64)), u64_small, Z.eqb_refl by lia.
  rewrite Hph, Z.eqb_refl. cbn [negb orb andb]. unfold modify. change (opAdmit =? opAdmit) with true.
  unfold acceptAdmit, bind, get. cbn [fr_site fr_ordinal fr_phase ps_sites ps_ordinal ps_checkpoint ps_active setter].
  change (ps_sites (p <| ps_sequence := _ |>)) with (ps_sites p). rewrite Hsite.
  change (ps_ordinal (p <| ps_sequence := _ |>)) with (ps_ordinal p).
  change (ps_checkpoint (p <| ps_sequence := _ |>)) with (ps_checkpoint p).
  change (ps_active (p <| ps_sequence := _ |>)) with (ps_active p).
  rewrite (proj2 (Z.eqb_neq (ps_ordinal p) MaxUint64)), u64_small, Z.eqb_refl by lia.
  rewrite (proj2 (Z.eqb_neq (ps_checkpoint p) (ph_ID (curPhase k)))) by congruence. cbn [orb negb].
  cbn. rewrite Hf. rewrite (proj2 (Z.leb_gt _ _) Hw), (proj2 (Z.leb_gt _ _) Hat). cbn [orb].
  unfold curPhase in Hri |- *. cbn in Hri |- *. rewrite Hri.
  unfold roleBudget, roleCount, curPhase, curCount in *. cbn in *. rewrite (proj2 (Z.leb_gt _ _) Hrc). reflexivity.
Qed.

Lemma finish_acked f c : cl_ctxErr c = false -> exchangeEnd (mkExchange true true (Some (encode f)) false) f c = (Ok tt, c).
Proof. intros H. unfold exchangeEnd, bytes_eqb. cbn. rewrite bool_decide_eq_true_2, H by reflexivity. reflexivity. Qed.

(** The steps of a call, when they succeed. *)
Lemma step_admit s site n c' :
  sy_rpc s = None -> cl_gate (sy_client s) = false ->
  admitLocked site false 0 ((sy_client s) <| cl_gate := true |>) = (Granted n, c') ->
  step sha256 producer (Admit site false 0) s = hold (RpcAdmit site n) (s <| sy_client := c' |>).
Proof. intros Hr Hg H. unfold step. cbn zeta. by rewrite Hr, (acquire_free _ Hg), H. Qed.

Lemma step_send s r f c' :
  sy_rpc s = Some (r, Ready) -> exchangeSend false (wireOp r) (wireSite r) (wireOrdinal r) (sy_client s) = (Ok f, c') ->
  step sha256 producer (Send false) s = s <| sy_client := c' |> <| sy_rpc := Some (r, Sent f) |>.
Proof. intros Hr H. unfold step. cbn zeta. by rewrite Hr, H. Qed.

Lemma step_deliver s r f :
  sy_rpc s = Some (r, Sent f) -> fst (accept sha256 producer f (sy_parent s)) = Ok tt ->
  step sha256 producer Deliver s =
    s <| sy_parent := apply sha256 (EvAccept producer f) (sy_parent s) |>
      <| sy_log ::= fun l => l ++ logged sha256 (EvAccept producer f) (sy_parent s) |>
      <| sy_rpc := Some (r, Acked f) |>.
Proof. intros Hr H. unfold step. cbn zeta. by rewrite Hr, H. Qed.

Lemma step_finish s r f :
  sy_rpc s = Some (r, Acked f) -> cl_ctxErr (sy_client s) = false ->
  step sha256 producer (Finish true true false) s = complete r (Ok tt) (s <| sy_client := sy_client s |>).
Proof. intros Hr Hx. unfold step. cbn zeta. by rewrite Hr, (finish_acked f _ Hx). Qed.

Lemma step_start s n c' :
  n ∈ sy_starting s -> cl_ctxErr (sy_client s) = false -> startedLocked n (sy_client s) = Some c' ->
  step sha256 producer (StartCommand n false true) s =
    s <| sy_starting ::= fun g => g ∖ {[n]} |> <| sy_started ::= fun l => l ++ [n] |> <| sy_client := c' |>
      <| sy_handles ::= fun g => {[n]} ∪ g |>.
Proof. intros Hin Hx H. unfold step. cbn zeta. by rewrite decide_True, Hx, H by exact Hin. Qed.

Lemma healthy_run s site bound p role :
  Inv sha256 producer config s -> sy_rpc s = None -> clientReady (sy_client s) site bound ->
  controllerReady (sy_parent s) (sy_client s) bound p role ->
  let n := cl_ordinal (sy_client s) + 1 in
  let f := mkFrame opAdmit (cl_phase (sy_client s)) site n (cl_sequence (sy_client s) + 1) (cl_binding (sy_client s)) in
  let s' := behave sha256 producer
    [Admit site false 0; Send false; Deliver; Finish true true false; StartCommand n false true] s in
  sy_started s' = sy_started s ++ [n] /\ n ∈ sy_handles s' /\ cl_err (sy_client s') = None /\ sy_rpc s' = None /\
  sy_log s' = sy_log s ++ [mkAdmission producer f (si_Role bound)].
Proof.
  intros HI Hrpc Hc Hk n f s'. pose proof Hc as [He Hx (Hpz & Hfn & Hcl) Hsite Hwin [Ho Hq] Hwire].
  pose proof (iv_ordinal _ _ _ s HI) as Hor. pose proof (iv_sequence _ _ _ s HI) as Hsr.
  destruct (iv_mirror _ _ _ s HI) as (q & Hlk & Ha & Hsites & Himg).
  assert (q = p) as -> by (pose proof (kr_lookup _ _ _ _ _ Hk); congruence).
  specialize (Himg He (kr_alive _ _ _ _ _ Hk) (idle (sy_client s)) ltac:(rewrite Hrpc; reflexivity)).
  unfold imageOf, idle in Himg. injection Himg as Iq Io Ia Ic.
  assert (Hacc : fst (accept sha256 producer f (sy_parent s)) = Ok tt).
  { apply (accept_ready (sy_parent s) (sy_client s) bound p role site f Hk); auto; try congruence; try lia.
    - rewrite Ia. unfold mview. rewrite map_size_fmap. rewrite (kr_limits _ _ _ _ _ Hk). exact Hwin.
    - unfold f, n. by rewrite Io, Iq. }
  assert (Hlog : logged sha256 (EvAccept producer f) (sy_parent s) = [mkAdmission producer f (si_Role bound)]).
  { unfold logged. rewrite Hacc. change (fr_op f =? opAdmit) with true. rewrite Hlk. cbn. by rewrite Hsites, Hsite. }
  set (c1 := notifyLocked ((sy_client s) <| cl_gate := true |> <| cl_ordinal := n |>
    <| cl_active ::= insert n (mkCommand true (si_Persistent bound) false) |>)).
  set (c2 := c1 <| cl_sequence := cl_sequence (sy_client s) + 1 |>
    <| cl_wireBytes := u64 (cl_wireBytes (sy_client s) + 2 * FrameBytes) |>).
  unfold s'. cbn [behave].
  rewrite (step_admit s site n c1 Hrpc).
  2: { rewrite (iv_gate _ _ _ s HI), Hrpc. reflexivity. }
  2: { etransitivity; [apply (admit_ready ((sy_client s) <| cl_gate := true |>) site bound)|reflexivity];
       [constructor; cbn; auto|cbn; lia]. }
  rewrite (step_send _ (RpcAdmit site n) f c2); [|reflexivity|].
  2: { etransitivity; [apply (send_ready c1); cbn; auto; lia|reflexivity]. }
  rewrite (step_deliver _ (RpcAdmit site n) f); [|reflexivity|exact Hacc].
  rewrite (step_finish _ (RpcAdmit site n) f); [|reflexivity|exact Hx].
  erewrite (step_start _ n); [|cbn; apply elem_of_union_l, elem_of_singleton; reflexivity|exact Hx|].
  2: { cbn. unfold startedLocked. cbn. rewrite lookup_insert_eq. reflexivity. }
  cbn -[logged]. rewrite Hlog. repeat split; auto. apply elem_of_union_l, elem_of_singleton. reflexivity.
Qed.

(** An admission the client and the controller both have room for goes
    through: whatever happened before, if the client is open and idle and its
    controller is live in the same phase with attempts and role budget left,
    one call starts the command, records exactly its frame in the log and
    leaves the client without error. *)
Theorem healthy_admission_starts log pid later c0 client c1 l site bound p role :
  runs sha256 config log c0 -> 0 < pid -> NewLocalProducer false later producer pid c0 = (Ok client, c1) ->
  let s := behave sha256 producer l (start c1 log client) in
  let c := sy_client s in
  sy_rpc s = None -> clientReady c site bound -> controllerReady (sy_parent s) c bound p role ->
  let n := cl_ordinal c + 1 in
  let s' := behave sha256 producer
    [Admit site false 0; Send false; Deliver; Finish true true false; StartCommand n false true] s in
  sy_started s' = sy_started s ++ [n] /\ n ∈ sy_handles s' /\ cl_err (sy_client s') = None /\ sy_rpc s' = None /\
  sy_log s' = sy_log s ++
    [mkAdmission producer (mkFrame opAdmit (cl_phase c) site n (cl_sequence c + 1) (cl_binding c)) (si_Role bound)].
Proof.
  intros Hr Hpid H s c Hrpc Hc Hk.
  pose proof (Inv_behave sha256 producer config Hty l _ (launch_inv _ _ _ _ _ _ Hr Hpid H)) as HI.
  exact (healthy_run s site bound p role HI Hrpc Hc Hk).
Qed.
End Launch.

(** ** Witnesses *)
Definition noClient : Client :=
  mkClient [] ∅ noLimits 0 0 0 0 ∅ false 0 false 0 0 false false false false false None.
Definition launchedClient : Client :=
  match fst (NewLocalProducer false false 5 100 sampleNew) with Ok c => c | Err _ => noClient end.
Definition launchedParent : Controller := snd (NewLocalProducer false false 5 100 sampleNew).
Definition launched : sys := start launchedParent [] launchedClient.

(** Start a persistent command, then one that fails to start; settle it, fence
    both sides and carry the first over a checkpoint. *)
Definition sampleWork : list action :=
  [Admit 1 false 0; Send false; Deliver; Finish true true false; StartCommand 1 false true;
   Admit 2 false 0; Send false; Deliver; Finish true true false; StartCommand 2 false false;
   Settle 2; Send false; Deliver; Finish true true false;
   ParentEvent EvFence; FenceClient; QuiescePass false false; CarryBegin 0 None [1];
   Send false; Deliver; Finish true true false; Send false; Deliver; Finish true true false].

Lemma sample_launch : NewLocalProducer false false 5 100 sampleNew = (Ok launchedClient, launchedParent).
Proof.
  unfold launchedClient, launchedParent.
  destruct (NewLocalProducer false false 5 100 sampleNew) as [[c|e] k] eqn:E; [reflexivity|].
  exfalso. assert (H : is_ok (fst (NewLocalProducer false false 5 100 sampleNew)) = true) by (vm_compute; reflexivity).
  rewrite E in H. discriminate.
Qed.

Lemma sample_new_runs : runs sampleHash sampleConfig [] sampleNew.
Proof. apply runs_new. vm_compute. reflexivity. Qed.

Lemma commands_are_counted_witness :
  sy_started (behave sampleHash 5 sampleWork launched) = [1; 2] /\
  2 <= tally (byProducer 5) (sy_log (behave sampleHash 5 sampleWork launched)).
Proof.
  assert (E : sy_started (behave sampleHash 5 sampleWork launched) = [1; 2]) by (vm_compute; reflexivity).
  split; [exact E|].
  pose proof (commands_are_counted sampleHash 5 sampleConfig sample_dispatch_typed [] 100 false sampleNew launchedClient
    launchedParent sampleWork sample_new_runs ltac:(lia) sample_launch) as (_ & _ & _ & H).
  fold launched in H. rewrite E in H. exact H.
Defined.

Lemma tokens_well_formed_witness :
  sy_panicked (behave sampleHash 5 sampleWork launched) = false /\
  sy_handles (behave sampleHash 5 sampleWork launched) = {[1]}.
Proof.
  split; [|vm_compute; reflexivity].
  exact (proj1 (tokens_well_formed sampleHash 5 sampleConfig sample_dispatch_typed [] 100 false sampleNew launchedClient
    launchedParent sampleWork sample_new_runs ltac:(lia) sample_launch)).
Defined.

Definition sampleProducerAfter : producerState :=
  match c_producers (sy_parent (behave sampleHash 5 sampleWork launched)) !! 5 with
  | Some p => p
  | None => mkProducerState [] ∅ 0 0 ∅ 0 false 0 false false false false
  end.

Lemma client_mirrors_controller_witness :
  ps_sequence sampleProducerAfter = 5 /\ cl_sequence (sy_client (behave sampleHash 5 sampleWork launched)) = 5 /\
  ps_active sampleProducerAfter !! 1 = Some (mkActive true true).
Proof.
  assert (E1 : cl_sequence (sy_client (behave sampleHash 5 sampleWork launched)) = 5) by (vm_compute; reflexivity).
  assert (E2 : cl_active (sy_client (behave sampleHash 5 sampleWork launched)) !! 1 = Some (mkCommand false true true))
    by (vm_compute; reflexivity).
  pose proof (client_mirrors_controller sampleHash 5 sampleConfig sample_dispatch_typed [] 100 false sampleNew
    launchedClient launchedParent sampleWork sampleProducerAfter sample_new_runs ltac:(lia) sample_launch
    ltac:(vm_compute; reflexivity) ltac:(vm_compute; reflexivity) ltac:(vm_compute; reflexivity)
    ltac:(vm_compute; reflexivity)) as (H1 & _ & _ & H2).
  fold launched in H1, H2. split; [rewrite H1; exact E1|]. split; [exact E1|]. rewrite (H2 1), E2. reflexivity.
Defined.

Lemma sample_client_ready : clientReady launchedClient 1 (mkSite 1 1 true).
Proof. constructor; vm_compute; repeat split; congruence. Qed.

Definition launchedProducer : producerState :=
  match c_producers launchedParent !! 5 with
  | Some p => p
  | None => mkProducerState [] ∅ 0 0 ∅ 0 false 0 false false false false
  end.

Lemma sample_controller_ready :
  controllerReady 5 launchedParent launchedClient (mkSite 1 1 true) launchedProducer 0.
Proof. constructor; vm_compute; repeat split; congruence. Qed.

Lemma healthy_admission_starts_witness :
  sy_started (behave sampleHash 5
    [Admit 1 false 0; Send false; Deliver; Finish true true false; StartCommand 1 false true] launched) = [1].
Proof.
  pose proof (healthy_admission_starts sampleHash 5 sampleConfig sample_dispatch_typed [] 100 false sampleNew
    launchedClient launchedParent [] 1 (mkSite 1 1 true) launchedProducer 0 sample_new_runs ltac:(lia) sample_launch
    eq_refl sample_client_ready sample_controller_ready) as [H _].
  exact H.
Defined.
