(* ===== verification/LoginLimiter.v ===== *)
(** * The login limiter

    Model of [internal/auth/limiter.go]: the bounded table of attempts per
    client, reservations that end in a failure, a success or a cancellation,
    and the window that forgives.  The password login uses reservations, the
    OIDC start uses [consume]; each has a limiter of its own.  A time is its
    nanoseconds since 1970; [int] is 64 bits wide.  [clientIPResolver] is not
    modelled: a client is its key. *)
From S2P Require Import Prelude.

Record loginAttempt := mkAttempt { la_failures : Z; la_inFlight : Z; la_resetAt : Z }.
#[export] Instance eta_loginAttempt : Eta loginAttempt :=
  fun a => mkAttempt (la_failures a) (la_inFlight a) (la_resetAt a).

Record loginLimiter := mkLimiter {
  ll_attempts : gmap string loginAttempt;
  ll_max : Z;
  ll_window : Z;
  ll_maxEntries : Z
}.
#[export] Instance eta_loginLimiter : Eta loginLimiter :=
  fun l => mkLimiter (ll_attempts l) (ll_max l) (ll_window l) (ll_maxEntries l).

Record attemptReservation := mkReservation { ar_key : string; ar_active : bool }.

Definition newLoginLimiter (max window maxEntries : Z) : loginLimiter := mkLimiter ∅ max window maxEntries.

(** The zero [time.Time], the first instant of year 1. *)
Definition zeroTime : Z := - 62135596800 * 10 ^ 9.
Definition zeroAttempt : loginAttempt := mkAttempt 0 0 zeroTime.
Definition attemptOf (key : string) (l : loginLimiter) : loginAttempt := default zeroAttempt (ll_attempts l !! key).

(** [!attempt.resetAt.After(now)]. *)
Definition expired (now : Z) (a : loginAttempt) : bool := la_resetAt a <=? now.
Definition forgettable (now : Z) (a : loginAttempt) : bool := (la_inFlight a =? 0) && expired now a.

Definition makeRoom (key : string) (now : Z) (l : loginLimiter) : bool * loginLimiter :=
  match ll_attempts l !! key with
  | Some _ => (true, l)
  | None =>
      let l := if ll_maxEntries l <=? Z.of_nat (size (ll_attempts l))
               then l <| ll_attempts ::= filter (fun kv => forgettable now kv.2 = false) |>
               else l in
      (Z.of_nat (size (ll_attempts l)) <? ll_maxEntries l, l)
  end.

(** The attempt a call counts on: a new window replaces an expired one that
    nobody is in. *)
Definition currentAttempt (key : string) (now : Z) (l : loginLimiter) : loginAttempt :=
  let a := attemptOf key l in
  if expired now a && (la_inFlight a =? 0) then mkAttempt 0 0 (now + ll_window l) else a.

Definition reserve (key : string) (now : Z) (l : loginLimiter) : option attemptReservation * loginLimiter :=
  let '(room, l) := makeRoom key now l in
  if negb room then (None, l)
  else
    let a := currentAttempt key now l in
    if ll_max l <=? i64 (la_failures a + la_inFlight a) then (None, l)
    else (Some (mkReservation key true),
          l <| ll_attempts ::= insert key (a <| la_inFlight := i64 (la_inFlight a + 1) |>) |>).

Definition consume (key : string) (now : Z) (l : loginLimiter) : bool * loginLimiter :=
  let '(room, l) := makeRoom key now l in
  if negb room then (false, l)
  else
    let a := currentAttempt key now l in
    if ll_max l <=? la_failures a then (false, l)
    else (true, l <| ll_attempts ::= insert key (a <| la_failures := i64 (la_failures a + 1) |>) |>).

Definition leave (a : loginAttempt) : loginAttempt :=
  if 0 <? la_inFlight a then a <| la_inFlight := la_inFlight a - 1 |> else a.
Definition ended (r : attemptReservation) : attemptReservation := mkReservation (ar_key r) false.

(** The reservation methods; a nil reservation does nothing. *)
Definition cancel (r : attemptReservation) (l : loginLimiter) : attemptReservation * loginLimiter :=
  if negb (ar_active r) then (r, l)
  else
    let a := leave (attemptOf (ar_key r) l) in
    (ended r, l <| ll_attempts ::= (if (la_failures a =? 0) && (la_inFlight a =? 0) then delete (ar_key r)
                                    else insert (ar_key r) a) |>).

Definition fail (now : Z) (r : attemptReservation) (l : loginLimiter) : attemptReservation * loginLimiter :=
  if negb (ar_active r) then (r, l)
  else
    let a := attemptOf (ar_key r) l in
    let a := if expired now a then a <| la_failures := 0 |> <| la_resetAt := now + ll_window l |> else a in
    let a := leave a in
    (ended r, l <| ll_attempts ::= insert (ar_key r) (a <| la_failures := i64 (la_failures a + 1) |>) |>).

Definition success (r : attemptReservation) (l : loginLimiter) : attemptReservation * loginLimiter :=
  if negb (ar_active r) then (r, l)
  else
    let a := (leave (attemptOf (ar_key r) l)) <| la_failures := 0 |> in
    (ended r, l <| ll_attempts ::= (if la_inFlight a =? 0 then delete (ar_key r) else insert (ar_key r) a) |>).

(** ** Runs

    The reservations handed out so far are a heap; every method runs under
    the limiter's mutex, so a run is a sequence of calls. *)
Inductive call :=
  | CallReserve (key : string) (now : Z)
  | CallCancel (i : nat)
  | CallFail (i : nat) (now : Z)
  | CallSuccess (i : nat).

Record login := mkLogin { lg_limiter : loginLimiter; lg_reservations : list attemptReservation }.

Definition onReservation (i : nat) (f : attemptReservation -> loginLimiter -> attemptReservation * loginLimiter)
    (s : login) : login :=
  match lg_reservations s !! i with
  | None => s
  | Some r => let '(r', l) := f r (lg_limiter s) in mkLogin l (<[i := r']> (lg_reservations s))
  end.

Definition invoke (c : call) (s : login) : login :=
  match c with
  | CallReserve key now =>
      match reserve key now (lg_limiter s) with
      | (Some r, l) => mkLogin l (lg_reservations s ++ [r])
      | (None, l) => mkLogin l (lg_reservations s)
      end
  | CallCancel i => onReservation i cancel s
  | CallFail i now => onReservation i (fail now) s
  | CallSuccess i => onReservation i success s
  end.

Definition invokes (l : list call) (s : login) : login := fold_left (fun s c => invoke c s) l s.

(** The calls that count a failure of a client. *)
Definition fails (key : string) (c : call) (s : login) : bool :=
  match c with
  | CallFail i _ =>
      match lg_reservations s !! i with
      | Some r => ar_active r && String.eqb (ar_key r) key
      | None => false
      end
  | _ => false
  end.
Fixpoint failures (key : string) (l : list call) (s : login) : Z :=
  match l with
  | [] => 0
  | c :: l' => (if fails key c s then 1 else 0) + failures key l' (invoke c s)
  end.
(** A call that forgives the failures of a client. *)
Definition succeeds (key : string) (c : call) (s : login) : bool :=
  match c with
  | CallSuccess i =>
      match lg_reservations s !! i with
      | Some r => ar_active r && String.eqb (ar_key r) key
      | None => false
      end
  | _ => false
  end.

(** ** The table *)
Definition live (key : string) (r : attemptReservation) : bool := ar_active r && String.eqb (ar_key r) key.
(** The reservations a client still holds. *)
Definition active (key : string) (l : list attemptReservation) : Z :=
  zsum ((fun r => if live key r then 1 else 0) <$> l).

#[local] Arguments active : simpl never.

Record TableOK (s : login) : Prop := {
  to_size : Z.of_nat (size (ll_attempts (lg_limiter s))) <= ll_maxEntries (lg_limiter s);
  to_entry : forall key a, ll_attempts (lg_limiter s) !! key = Some a ->
    0 <= la_failures a /\ la_inFlight a = active key (lg_reservations s) /\
    la_failures a + la_inFlight a <= ll_max (lg_limiter s);
  to_absent : forall key, ll_attempts (lg_limiter s) !! key = None -> active key (lg_reservations s) = 0
}.

Definition sameLimits (l l' : loginLimiter) : Prop :=
  ll_max l' = ll_max l /\ ll_window l' = ll_window l /\ ll_maxEntries l' = ll_maxEntries l.

Lemma active_nonneg key l : 0 <= active key l.
Proof.
  apply zsum_nonneg. intros x (r & -> & _)%list_elem_of_fmap. destruct (live key r); lia.
Qed.

Lemma active_snoc key l r : active key (l ++ [r]) = active key l + (if live key r then 1 else 0).
Proof. unfold active. rewrite fmap_app, zsum_app. cbn. lia. Qed.

Lemma active_end key l i r :
  l !! i = Some r -> active key (<[i := ended r]> l) = active key l - (if live key r then 1 else 0).
Proof.
  intros H. unfold active. rewrite (zsum_fmap_insert _ l i r (ended r) H). cbn. lia.
Qed.

Lemma active_pos key l i r : l !! i = Some r -> live key r = true -> 1 <= active key l.
Proof.
  intros Hi Hl. replace 1 with (if live key r then 1 else 0) by (by rewrite Hl).
  apply (zsum_elem_le _ (if live key r then 1 else 0)).
  - intros y (r' & -> & _)%list_elem_of_fmap. destruct (live key r'); lia.
  - apply list_elem_of_fmap. exists r. split; [reflexivity|]. by eapply list_elem_of_lookup_2.
Qed.

Lemma i64_exact z : 0 <= z <= MaxInt64 -> i64 z = z.
Proof. intros H. apply i64_small. unfold MaxInt64 in *. lia. Qed.

(** What [makeRoom] keeps, and what it makes of the entry of its key. *)
Lemma makeRoom_spec key now l b l' :
  makeRoom key now l = (b, l') ->
  sameLimits l l' /\ ll_attempts l' !! key = ll_attempts l !! key /\
  (forall k a, ll_attempts l' !! k = Some a -> ll_attempts l !! k = Some a) /\
  (forall k a, ll_attempts l !! k = Some a -> ll_attempts l' !! k = None -> forgettable now a = true) /\
  (size (ll_attempts l') <= size (ll_attempts l))%nat /\
  (b = true -> is_Some (ll_attempts l !! key) \/ Z.of_nat (size (ll_attempts l')) < ll_maxEntries l').
Proof.
  unfold makeRoom. intros H. destruct (ll_attempts l !! key) as [a|] eqn:E.
  { injection H as <- <-. repeat split; eauto. congruence. }
  injection H as <- <-. destruct (_ <=? _); cbn.
  - split; [by repeat split|]. split; [rewrite map_lookup_filter_None; left; exact E|].
    split; [intros k a Hk; by apply map_lookup_filter_Some_1_1 in Hk|].
    split; [|split; [apply map_size_filter|intros Hb; right; by apply Z.ltb_lt]].
    intros k a Hk Hn. apply map_lookup_filter_None in Hn as [Hn|Hn]; [congruence|].
    specialize (Hn a Hk). cbn in Hn. by destruct (forgettable now a).
  - split; [by repeat split|]. repeat split; auto; [congruence|]. intros Hb. right. by apply Z.ltb_lt.
Qed.

Section Table.
Context (max : Z).
Hypothesis Hmax : 1 <= max <= MaxInt64.

Definition TableFor (s : login) : Prop := ll_max (lg_limiter s) = max /\ TableOK s.

Lemma attempt_ok s key :
  TableFor s ->
  let a := attemptOf key (lg_limiter s) in
  0 <= la_failures a /\ la_inFlight a = active key (lg_reservations s) /\ la_failures a + la_inFlight a <= max.
Proof.
  intros [<- [_ He Ha]]. cbn. unfold attemptOf. destruct (ll_attempts (lg_limiter s) !! key) as [a|] eqn:E.
  - apply (He key a E).
  - cbn. rewrite (Ha key E). lia.
Qed.

Lemma TableOK_room s key now b l' :
  TableFor s -> makeRoom key now (lg_limiter s) = (b, l') -> TableFor (mkLogin l' (lg_reservations s)).
Proof.
  intros [Hm [Hs He Ha]] E. apply makeRoom_spec in E as ((E1 & _ & E3) & _ & Hkeep & Hgone & Hsize & _).
  split; [cbn; congruence|]. constructor; cbn; rewrite ?E1, ?E3.
  - lia.
  - intros k a Hk. apply He, Hkeep, Hk.
  - intros k Hk. destruct (ll_attempts (lg_limiter s) !! k) as [a|] eqn:Ek; [|auto].
    pose proof (Hgone k a Ek Hk) as Hf. unfold forgettable in Hf. bsplit. destruct (He k a Ek) as (_ & <- & _). assumption.
Qed.

Lemma TableOK_insert s key a rs :
  TableFor s -> (forall k, k <> key -> active k rs = active k (lg_reservations s)) ->
  0 <= la_failures a /\ la_inFlight a = active key rs /\ la_failures a + la_inFlight a <= max ->
  is_Some (ll_attempts (lg_limiter s) !! key) \/
    Z.of_nat (size (ll_attempts (lg_limiter s))) < ll_maxEntries (lg_limiter s) ->
  TableFor (mkLogin ((lg_limiter s) <| ll_attempts ::= insert key a |>) rs).
Proof.
  intros [Hm [Hs He Ha]] Hrs Hok Hroom. split; [exact Hm|]. constructor; cbn.
  - rewrite map_size_insert. destruct (ll_attempts (lg_limiter s) !! key) eqn:E; cbn; [exact Hs|].
    destruct Hroom as [[? Hr]|]; [discriminate|lia].
  - intros k b Hk. destruct (decide (k = key)) as [->|Hne].
    + rewrite lookup_insert_eq in Hk. injection Hk as <-. rewrite Hm. exact Hok.
    + rewrite lookup_insert_ne in Hk by congruence. rewrite Hrs by exact Hne. auto.
  - intros k Hk. destruct (decide (k = key)) as [->|Hne]; [rewrite lookup_insert_eq in Hk; discriminate|].
    rewrite lookup_insert_ne in Hk by congruence. rewrite Hrs by exact Hne. auto.
Qed.

Lemma TableOK_delete s key rs :
  TableFor s -> (forall k, k <> key -> active k rs = active k (lg_reservations s)) -> active key rs = 0 ->
  TableFor (mkLogin ((lg_limiter s) <| ll_attempts ::= delete key |>) rs).
Proof.
  intros [Hm [Hs He Ha]] Hrs H0. split; [exact Hm|]. constructor; cbn.
  - rewrite map_size_delete. destruct (ll_attempts (lg_limiter s) !! key); cbn; lia.
  - intros k b Hk. apply lookup_delete_Some in Hk as [Hne Hk]. rewrite Hrs by congruence. auto.
  - intros k Hk. destruct (decide (k = key)) as [->|Hne]; [exact H0|].
    rewrite lookup_delete_ne in Hk by congruence. rewrite Hrs by exact Hne. auto.
Qed.

(** An ended reservation gives up its place; a live one has an entry. *)
Lemma leave_ok s i r :
  TableFor s -> lg_reservations s !! i = Some r -> ar_active r = true ->
  let rs := <[i := ended r]> (lg_reservations s) in
  is_Some (ll_attempts (lg_limiter s) !! ar_key r) /\
  (forall k, k <> ar_key r -> active k rs = active k (lg_reservations s)) /\
  0 <= active (ar_key r) rs /\
  la_inFlight (attemptOf (ar_key r) (lg_limiter s)) = active (ar_key r) rs + 1 /\
  forall a, la_inFlight a = la_inFlight (attemptOf (ar_key r) (lg_limiter s)) ->
    leave a = mkAttempt (la_failures a) (active (ar_key r) rs) (la_resetAt a).
Proof.
  intros HT Hi Hact rs. pose proof (attempt_ok s (ar_key r) HT) as (_ & Hin & _).
  assert (Hl : live (ar_key r) r = true) by (unfold live; rewrite Hact, String.eqb_refl; reflexivity).
  pose proof (active_end (ar_key r) _ _ _ Hi) as He. rewrite Hl in He.
  pose proof (active_pos (ar_key r) _ _ _ Hi Hl) as Hp. fold rs in He. split.
  - destruct (ll_attempts (lg_limiter s) !! ar_key r) eqn:E; [by eexists|].
    destruct HT as [_ [_ _ Ha]]. rewrite (Ha _ E) in Hp. lia.
  - split.
    { intros k Hk. unfold rs. rewrite (active_end k _ _ _ Hi). unfold live.
      destruct (String.eqb_spec (ar_key r) k); [congruence|]. rewrite andb_false_r. lia. }
    split; [lia|]. split; [lia|]. intros a Ha. unfold leave. rewrite Ha, Hin.
    rewrite (proj2 (Z.ltb_lt 0 _)) by lia. unfold setter. cbn. f_equal. lia.
Qed.

Lemma current_ok s key now :
  TableFor s -> let a := currentAttempt key now (lg_limiter s) in
  0 <= la_failures a /\ la_inFlight a = active key (lg_reservations s) /\ la_failures a + la_inFlight a <= max.
Proof.
  intros HT. pose proof (attempt_ok s key HT) as (H1 & H2 & H3). cbn. unfold currentAttempt.
  destruct (expired now _ && (la_inFlight _ =? 0)) eqn:E; [|auto]. bsplit. cbn. lia.
Qed.

Lemma TableOK_invoke c s : TableFor s -> TableFor (invoke c s).
Proof.
  intros HT. pose proof HT as [Hm _]. destruct c as [key now|i|i now|i]; cbn [invoke].
  - unfold reserve. destruct (makeRoom key now (lg_limiter s)) as [b l'] eqn:E.
    pose proof (TableOK_room s key now b l' HT E) as HT'. destruct b; cbn [negb]; [|exact HT'].
    destruct (_ <=? i64 _) eqn:Ef; [exact HT'|]. pose proof HT' as [Hm' _]. cbn in Hm'.
    pose proof (current_ok (mkLogin l' (lg_reservations s)) key now HT') as (H1 & H2 & H3). cbn [lg_limiter lg_reservations] in *.
    pose proof (active_nonneg key (lg_reservations s)) as Hnn.
    rewrite i64_exact in Ef by lia. bsplit. rewrite Hm' in *.
    apply (TableOK_insert (mkLogin l' (lg_reservations s)) key _ _ HT').
    + intros k Hk. rewrite active_snoc. unfold live. cbn. destruct (String.eqb_spec key k); [congruence|]. lia.
    + rewrite active_snoc. unfold live. cbn. rewrite String.eqb_refl, i64_exact by lia. cbn. lia.
    + apply makeRoom_spec in E as (_ & Hk & _ & _ & _ & Hroom). cbn. rewrite Hk.
      destruct (Hroom eq_refl); [left; assumption|right; assumption].
  - unfold onReservation. destruct (lg_reservations s !! i) as [r|] eqn:Hi; [|exact HT]. unfold cancel.
    destruct (ar_active r) eqn:Hact; cbn [negb]; [|rewrite list_insert_id by exact Hi; destruct s; exact HT].
    destruct (leave_ok s i r HT Hi Hact) as (Hsome & Hrs & Hnn & Hin & Hleave). rewrite (Hleave _ eq_refl). cbn.
    destruct (attempt_ok s (ar_key r) HT) as (A1 & A2 & A3).
    destruct (_ && _) eqn:Ez; bsplit; [by apply (TableOK_delete s)|]. apply (TableOK_insert s); auto. cbn. lia.
  - unfold onReservation. destruct (lg_reservations s !! i) as [r|] eqn:Hi; [|exact HT]. unfold fail.
    destruct (ar_active r) eqn:Hact; cbn [negb]; [|rewrite list_insert_id by exact Hi; destruct s; exact HT].
    destruct (leave_ok s i r HT Hi Hact) as (Hsome & Hrs & Hnn & Hin & Hleave).
    destruct (attempt_ok s (ar_key r) HT) as (A1 & A2 & A3).
    apply (TableOK_insert s); auto. destruct (expired now _); rewrite Hleave by reflexivity; cbn;
      rewrite i64_exact by lia; lia.
  - unfold onReservation. destruct (lg_reservations s !! i) as [r|] eqn:Hi; [|exact HT]. unfold success.
    destruct (ar_active r) eqn:Hact; cbn [negb]; [|rewrite list_insert_id by exact Hi; destruct s; exact HT].
    destruct (leave_ok s i r HT Hi Hact) as (Hsome & Hrs & Hnn & Hin & Hleave).
    destruct (attempt_ok s (ar_key r) HT) as (A1 & A2 & A3). rewrite (Hleave _ eq_refl). cbn.
    destruct (_ =? 0) eqn:Ez; bsplit; [by apply (TableOK_delete s)|]. apply (TableOK_insert s); auto. cbn. lia.
Qed.

Lemma TableOK_invokes l s : TableFor s -> TableFor (invokes l s).
Proof. revert s. induction l as [|c l IH]; intros s HT; [exact HT|]. apply IH, TableOK_invoke, HT. Qed.
End Table.

(** No call changes the limits. *)
Lemma invoke_limits c s : sameLimits (lg_limiter s) (lg_limiter (invoke c s)).
Proof.
  destruct c as [k now|i|i now|i]; cbn [invoke].
  - unfold reserve. destruct (makeRoom k now (lg_limiter s)) as [b l1] eqn:E. apply makeRoom_spec in E as (Hl & _).
    destruct (negb b); [exact Hl|]. destruct (_ <=? i64 _); exact Hl.
  - unfold onReservation, cancel. destruct (_ !! i) as [r|]; [|by repeat split]. destruct (negb _); by repeat split.
  - unfold onReservation, fail. destruct (_ !! i) as [r|]; [|by repeat split]. destruct (negb _); by repeat split.
  - unfold onReservation, success. destruct (_ !! i) as [r|]; [|by repeat split]. destruct (negb _); by repeat split.
Qed.

Lemma invokes_limits l s : sameLimits (lg_limiter s) (lg_limiter (invokes l s)).
Proof.
  revert s. induction l as [|c l IH]; intros s; [by repeat split|]. change (invokes (c :: l) s) with (invokes l (invoke c s)).
  destruct (invoke_limits c s) as (A1 & A2 & A3). destruct (IH (invoke c s)) as (B1 & B2 & B3). repeat split; congruence.
Qed.

(** ** The brute-force bound *)
Section Window.
Context (max : Z) (Hmax : 1 <= max <= MaxInt64) (t : Z) (key : string).

(** The failures a client may still add before [t + window]: a window that
    outlives the interval counts once, any other may be followed by one more. *)
Definition allowance (l : loginLimiter) : Z :=
  match ll_attempts l !! key with
  | None => max
  | Some a => if t + ll_window l <=? la_resetAt a then max - la_failures a else 2 * max - la_failures a
  end.

(** A call inside the interval. *)
Definition within (window : Z) (c : call) : Prop :=
  match c with
  | CallReserve _ now | CallFail _ now => t <= now < t + window
  | _ => True
  end.

Lemma allowance_bounds s : TableFor max s -> 0 <= allowance (lg_limiter s) <= 2 * max.
Proof.
  intros [Hm [_ He _]]. unfold allowance. destruct (ll_attempts (lg_limiter s) !! key) as [a|] eqn:E; [|lia].
  destruct (He key a E) as (H1 & H2 & H3). rewrite Hm in H3. pose proof (active_nonneg key (lg_reservations s)).
  destruct (_ <=? _); lia.
Qed.

Lemma allowance_room s k now b l' :
  TableFor max s -> t <= now < t + ll_window (lg_limiter s) -> makeRoom k now (lg_limiter s) = (b, l') ->
  allowance l' <= allowance (lg_limiter s).
Proof.
  intros [Hm [_ He _]] Hnow E. apply makeRoom_spec in E as ((_ & Hw & _) & _ & Hkeep & Hgone & _).
  unfold allowance. rewrite Hw. destruct (ll_attempts l' !! key) as [a|] eqn:E'; [rewrite (Hkeep _ _ E'); lia|].
  destruct (ll_attempts (lg_limiter s) !! key) as [a|] eqn:E; [|lia].
  pose proof (Hgone _ _ E E') as Hf. unfold forgettable, expired in Hf. bsplit.
  rewrite (proj2 (Z.leb_gt _ _)) by lia. destruct (He key a E) as (_ & H2 & H3). rewrite Hm in H3.
  pose proof (active_nonneg key (lg_reservations s)). lia.
Qed.

Lemma allowance_other l k f :
  k <> key -> (forall m, f m !! key = m !! key) -> allowance (l <| ll_attempts ::= f |>) = allowance l.
Proof. intros _ Hf. unfold allowance. cbn. rewrite Hf. reflexivity. Qed.

Lemma allowance_set l a :
  allowance (l <| ll_attempts ::= insert key a |>) =
  if t + ll_window l <=? la_resetAt a then max - la_failures a else 2 * max - la_failures a.
Proof. unfold allowance. cbn. rewrite lookup_insert_eq. reflexivity. Qed.

(** The entry a call counts on spends no allowance by itself. *)
Lemma allowance_current s now :
  TableFor max s -> zeroTime <= t -> let l := lg_limiter s in
  t <= now < t + ll_window l ->
  let a := currentAttempt key now l in
  (if t + ll_window l <=? la_resetAt a then max - la_failures a else 2 * max - la_failures a) <= allowance l.
Proof.
  intros HT Hz l Hnow. pose proof (attempt_ok max Hmax s key HT) as (H1 & H2 & H3). fold l in H1, H2, H3.
  pose proof (active_nonneg key (lg_reservations s)) as Hnn. cbn zeta.
  unfold allowance, currentAttempt, attemptOf, expired in *.
  destruct (ll_attempts l !! key) as [b|] eqn:E.
  - change (default zeroAttempt (Some b)) with b in *.
    destruct ((la_resetAt b <=? now) && (la_inFlight b =? 0)) eqn:Ee; [|lia]. bsplit. cbn [la_resetAt la_failures].
    rewrite (proj2 (Z.leb_le (t + ll_window l) (now + ll_window l))), (proj2 (Z.leb_gt (t + ll_window l) (la_resetAt b))) by lia.
    lia.
  - change (default zeroAttempt None) with zeroAttempt in *. cbn [la_resetAt la_inFlight zeroAttempt].
    rewrite (proj2 (Z.leb_le zeroTime now)) by lia. cbn.
    rewrite (proj2 (Z.leb_le (t + ll_window l) (now + ll_window l))) by lia. lia.
Qed.

Lemma allowance_reserve s k now r l' :
  TableFor max s -> zeroTime <= t -> t <= now < t + ll_window (lg_limiter s) ->
  reserve k now (lg_limiter s) = (r, l') -> allowance l' <= allowance (lg_limiter s).
Proof.
  intros HT Hz Hnow H. unfold reserve in H. destruct (makeRoom k now (lg_limiter s)) as [b l1] eqn:E.
  pose proof (allowance_room s k now b l1 HT Hnow E) as Hr. pose proof (TableOK_room max s k now b l1 HT E) as HT1.
  assert (Hw : ll_window l1 = ll_window (lg_limiter s)) by (apply makeRoom_spec in E as ((_ & Hw & _) & _); exact Hw).
  destruct (negb b); [injection H as <- <-; exact Hr|].
  destruct (_ <=? i64 _); [injection H as <- <-; exact Hr|]. injection H as <- <-.
  destruct (decide (k = key)) as [->|Hne].
  - rewrite allowance_set. cbn [la_resetAt la_failures setter].
    pose proof (allowance_current (mkLogin l1 (lg_reservations s)) now HT1 Hz ltac:(cbn; lia)) as Hc. cbn zeta in Hc.
    cbn [lg_limiter] in Hc. unfold setter. cbn [la_resetAt la_failures]. lia.
  - rewrite (allowance_other _ k); [exact Hr|exact Hne|]. intros m. by apply lookup_insert_ne.
Qed.

(** Forgetting an entry without failures. *)
Lemma allowance_delete s :
  TableFor max s -> la_failures (attemptOf key (lg_limiter s)) = 0 ->
  allowance ((lg_limiter s) <| ll_attempts ::= delete key |>) <= allowance (lg_limiter s).
Proof.
  intros HT H. unfold allowance, attemptOf in *. cbn. rewrite lookup_delete_eq.
  destruct (ll_attempts (lg_limiter s) !! key) as [a|]; [|lia].
  change (default zeroAttempt (Some a)) with a in H. destruct (_ <=? _); lia.
Qed.

Lemma allowance_invoke c s :
  TableFor max s -> zeroTime <= t -> within (ll_window (lg_limiter s)) c -> succeeds key c s = false ->
  ll_window (lg_limiter (invoke c s)) = ll_window (lg_limiter s) /\
  allowance (lg_limiter (invoke c s)) + (if fails key c s then 1 else 0) <= allowance (lg_limiter s).
Proof.
  intros HT Hz Hin Hsucc. destruct c as [k now|i|i now|i]; cbn [invoke fails].
  - destruct (reserve k now (lg_limiter s)) as [r l'] eqn:E.
    assert (Hw : ll_window l' = ll_window (lg_limiter s)).
    { unfold reserve in E. destruct (makeRoom k now (lg_limiter s)) as [b l1] eqn:Er.
      apply makeRoom_spec in Er as ((_ & Hw & _) & _).
      destruct (negb b); [injection E as <- <-; exact Hw|]. destruct (_ <=? i64 _); injection E as <- <-; exact Hw. }
    pose proof (allowance_reserve s k now r l' HT Hz Hin E). destruct r; cbn; split; auto; lia.
  - unfold onReservation. destruct (lg_reservations s !! i) as [r|] eqn:Hi; [|lia]. unfold cancel.
    destruct (ar_active r) eqn:Hact; cbn [negb]; [|cbn; lia].
    destruct (leave_ok max Hmax s i r HT Hi Hact) as ([a Ha] & _ & _ & _ & Hleave). rewrite (Hleave _ eq_refl).
    cbn [lg_limiter la_failures la_inFlight la_resetAt]. split; [reflexivity|].
    destruct (decide (ar_key r = key)) as [e|Hne].
    + rewrite e in *. destruct (_ && _) eqn:Ez; bsplit; [pose proof (allowance_delete s HT ltac:(assumption)); lia|]. rewrite allowance_set. cbn.
      unfold allowance, attemptOf. rewrite Ha. change (default zeroAttempt (Some a)) with a. lia.
    + rewrite (allowance_other _ (ar_key r)); [lia|exact Hne|]. intros m.
      destruct (_ && _); [by apply lookup_delete_ne|by apply lookup_insert_ne].
  - unfold onReservation. destruct (lg_reservations s !! i) as [r|] eqn:Hi; [|lia]. unfold fail.
    destruct (ar_active r) eqn:Hact; cbn [negb]; [|cbn; lia].
    destruct (leave_ok max Hmax s i r HT Hi Hact) as ([a Ha] & _ & _ & Hin2 & Hleave). cbn [lg_limiter andb].
    split; [reflexivity|]. cbn in Hin. destruct (attempt_ok max Hmax s (ar_key r) HT) as (A1 & A2 & A3).
    pose proof (active_nonneg (ar_key r) (<[i := ended r]> (lg_reservations s))).
    destruct (String.eqb_spec (ar_key r) key) as [e|Hne].
    + rewrite e in *. rewrite allowance_set. unfold allowance. rewrite Ha. unfold attemptOf in *. rewrite Ha in *.
      change (default zeroAttempt (Some a)) with a in *.
      destruct (expired now a) eqn:Ee; rewrite Hleave by reflexivity; unfold expired in Ee; bsplit; cbn;
        rewrite i64_exact by lia.
      * rewrite (proj2 (Z.leb_le _ _)), (proj2 (Z.leb_gt _ (la_resetAt a))) by lia. lia.
      * destruct (_ <=? _); lia.
    + rewrite (allowance_other _ (ar_key r)); [lia|exact Hne|]. intros m. by apply lookup_insert_ne.
  - unfold onReservation. cbn in Hsucc. destruct (lg_reservations s !! i) as [r|] eqn:Hi; [|lia]. unfold success.
    destruct (ar_active r) eqn:Hact; cbn [negb]; [|cbn; lia]. cbn in Hsucc.
    destruct (String.eqb_spec (ar_key r) key) as [|Hne]; [discriminate|]. cbn [lg_limiter]. split; [reflexivity|].
    rewrite (allowance_other _ (ar_key r)); [lia|exact Hne|]. intros m.
    destruct (_ =? _); [by apply lookup_delete_ne|by apply lookup_insert_ne].
Qed.
End Window.

(** No call of the run forgives the client. *)
Fixpoint unforgiven (key : string) (l : list call) (s : login) : bool :=
  match l with
  | [] => true
  | c :: l' => negb (succeeds key c s) && unforgiven key l' (invoke c s)
  end.

Lemma allowance_spent max t key l s :
  1 <= max <= MaxInt64 -> TableFor max s -> zeroTime <= t -> Forall (within t (ll_window (lg_limiter s))) l ->
  unforgiven key l s = true -> failures key l s <= allowance max t key (lg_limiter s).
Proof.
  intros Hmax. revert s. induction l as [|c l IH]; intros s HT Hz Hin Hu; cbn [failures].
  - by apply allowance_bounds.
  - apply Forall_cons in Hin as [Hc Hl]. cbn in Hu. bsplit.
    destruct (allowance_invoke max Hmax t key c s HT Hz Hc ltac:(assumption)) as [Hw Hle].
    specialize (IH (invoke c s) (TableOK_invoke max Hmax c s HT) Hz ltac:(rewrite Hw; exact Hl) ltac:(assumption)). lia.
Qed.

Definition freshLogin (max window maxEntries : Z) : login := mkLogin (newLoginLimiter max window maxEntries) [].

Lemma fresh_table max window maxEntries : 0 <= maxEntries -> TableFor max (freshLogin max window maxEntries).
Proof.
  intros H. split; [reflexivity|]. constructor; cbn.
  - rewrite map_size_empty. exact H.
  - intros k a Hk. rewrite lookup_empty in Hk. discriminate.
  - reflexivity.
Qed.

(** The limiter's table stays bounded and exact: after any calls it has
    at most [maxEntries] clients, every entry counts the reservations that
    are still held, no client exceeds [max] failures and reservations
    together, and a client without an entry holds nothing (no held
    reservation is ever evicted). *)
Theorem limiter_table_bounded max window maxEntries l :
  1 <= max <= MaxInt64 -> 0 <= maxEntries ->
  let s := invokes l (freshLogin max window maxEntries) in
  Z.of_nat (size (ll_attempts (lg_limiter s))) <= maxEntries /\
  (forall key a, ll_attempts (lg_limiter s) !! key = Some a ->
     0 <= la_failures a /\ la_inFlight a = active key (lg_reservations s) /\ la_failures a + la_inFlight a <= max) /\
  (forall key, ll_attempts (lg_limiter s) !! key = None -> active key (lg_reservations s) = 0).
Proof.
  intros Hmax Hn s.
  destruct (TableOK_invokes max Hmax l _ (fresh_table max window maxEntries Hn)) as [Hm [Hs He Ha]]. fold s in Hm, Hs, He, Ha.
  assert (Hl : ll_maxEntries (lg_limiter s) = maxEntries) by apply (invokes_limits l (freshLogin max window maxEntries)).
  rewrite Hl in Hs. rewrite Hm in He. auto.
Qed.

(** C38: the brute-force bound: whatever came before, in any interval no
    longer than the window a client adds at most [2 * max] failed logins
    unless one succeeds, however its requests are interleaved, cancelled,
    repeated or mixed with those of others that fill the table. *)
Theorem brute_force_bounded max window maxEntries before l key t :
  1 <= max <= MaxInt64 -> 0 <= maxEntries -> zeroTime <= t ->
  let s := invokes before (freshLogin max window maxEntries) in
  Forall (within t window) l -> unforgiven key l s = true -> failures key l s <= 2 * max.
Proof.
  intros Hmax Hn Hz s Hin Hu.
  pose proof (TableOK_invokes max Hmax before _ (fresh_table max window maxEntries Hn)) as HT. fold s in HT.
  assert (Hw : ll_window (lg_limiter s) = window) by apply (invokes_limits before (freshLogin max window maxEntries)). rewrite <- Hw in Hin.
  pose proof (allowance_spent max t key l s Hmax HT Hz Hin Hu). pose proof (allowance_bounds max Hmax t key s HT). lia.
Qed.

#[local] Definition threeFailures : list call :=
  [CallReserve "a" 0; CallReserve "a" 1; CallReserve "a" 2; CallFail 0 3; CallFail 1 4; CallReserve "b" 5;
   CallReserve "a" 9].

Lemma limiter_table_bounded_witness :
  let s := invokes threeFailures (freshLogin 2 10 1) in
  ll_attempts (lg_limiter s) !! "a" = Some (mkAttempt 2 0 10) /\
  Z.of_nat (size (ll_attempts (lg_limiter s))) <= 1.
Proof.
  assert (H : 1 <= 2 <= MaxInt64) by (unfold MaxInt64; lia). assert (H1 : 0 <= 1) by lia.
  split; [reflexivity|]. exact (proj1 (limiter_table_bounded 2 10 1 threeFailures H H1)).
Defined.

(** The bound is reached: two failures at the end of one window, two in the
    next. *)
#[local] Definition twoWindows : list call :=
  [CallFail 0 9; CallReserve "a" 9; CallFail 1 9; CallReserve "a" 10; CallReserve "a" 10; CallFail 2 11; CallFail 3 11;
   CallReserve "a" 12].

Lemma brute_force_bounded_witness :
  let s := invokes [CallReserve "a" 0] (freshLogin 2 10 1) in
  failures "a" twoWindows s = 4 /\ failures "a" twoWindows s <= 2 * 2.
Proof.
  assert (H : 1 <= 2 <= MaxInt64) by (unfold MaxInt64; lia). assert (H1 : 0 <= 1) by lia.
  assert (H2 : zeroTime <= 9) by (unfold zeroTime; lia). split; [reflexivity|].
  apply (brute_force_bounded 2 10 1 [CallReserve "a" 0] twoWindows "a" 9 H H1 H2).
  - repeat (constructor; [cbn; lia|]). constructor.
  - reflexivity.
Defined.
