(* ===== verification/RepoLock.v ===== *)
(** * The repository lock

    Model of [internal/repowork/lock.go]: the process-wide registry of locks
    per canonical repository key, entries that are created on demand and
    dropped with their last reference, and waiting that a context can cancel.
    Every step of a goroutine is one critical section of the registry's mutex
    or one channel operation; goroutines interleave.  [CanonicalKey] calls
    case folding and Unicode normalisation of [golang.org/x/text] and is a
    parameter. *)
From S2P Require Import Prelude.

(** The token channel has room for one value: full or empty. *)
Record lockEntry := mkEntry { le_token : bool; le_refs : Z }.
#[export] Instance eta_lockEntry : Eta lockEntry := fun e => mkEntry (le_token e) (le_refs e).

(** Where a goroutine is: in the select of [LockContext], holding the lock,
    between the send and [releaseEntry] of its unlock, or past it.  An entry
    is a pointer into the heap. *)
Inductive locker :=
  | Waiting (key : string) (entry : nat)
  | Holding (key : string) (entry : nat)
  | Unlocking (key : string) (entry : nat)
  | Finished (canceled : bool).

Record registry := mkRegistry {
  rg_entries : gmap string nat;
  rg_heap : list lockEntry;
  rg_lockers : list locker
}.
#[export] Instance eta_registry : Eta registry := fun g => mkRegistry (rg_entries g) (rg_heap g) (rg_lockers g).

Definition emptyRegistry : registry := mkRegistry ∅ [] [].
Definition newEntry : lockEntry := mkEntry true 0.
Definition addRef (e : lockEntry) : lockEntry := e <| le_refs := le_refs e + 1 |>.

Section Lock.
Context (CanonicalKey : string -> string).

(** The critical section of [LockContext]. *)
Definition enter (name : string) (g : registry) : registry :=
  let key := CanonicalKey name in
  match rg_entries g !! key with
  | Some entry => mkRegistry (rg_entries g) (alter addRef entry (rg_heap g)) (rg_lockers g ++ [Waiting key entry])
  | None =>
      let entry := length (rg_heap g) in
      mkRegistry (<[key := entry]> (rg_entries g)) (rg_heap g ++ [addRef newEntry]) (rg_lockers g ++ [Waiting key entry])
  end.

Definition releaseEntry (key : string) (entry : nat) (g : registry) : registry :=
  match rg_heap g !! entry with
  | None => g
  | Some e =>
      let e := e <| le_refs := le_refs e - 1 |> in
      let entries := if (le_refs e =? 0) && bool_decide (rg_entries g !! key = Some entry) then delete key (rg_entries g) else rg_entries g in
      g <| rg_heap ::= insert entry e |> <| rg_entries := entries |>
  end.

Definition moves (i : nat) (l : locker) (g : registry) : registry := g <| rg_lockers ::= insert i l |>.
Definition setToken (entry : nat) (full : bool) (g : registry) : registry :=
  g <| rg_heap ::= alter (fun e => e <| le_token := full |>) entry |>.

(** What a goroutine may do next. *)
Inductive event :=
  | EEnter (name : string)
  | ECancel (i : nat)
  | EAcquire (i : nat)
  | ESend (i : nat)
  | ERelease (i : nat)
  | EUnlockAgain (i : nat).

(** [None] is a step that is not enabled or blocks. *)
Definition step (e : event) (g : registry) : option registry :=
  match e with
  | EEnter name => Some (enter name g)
  | ECancel i =>
      match rg_lockers g !! i with
      | Some (Waiting key entry) => Some (moves i (Finished true) (releaseEntry key entry g))
      | _ => None
      end
  | EAcquire i =>
      match rg_lockers g !! i with
      | Some (Waiting key entry) =>
          match rg_heap g !! entry with
          | Some e => if le_token e then Some (moves i (Holding key entry) (setToken entry false g)) else None
          | None => None
          end
      | _ => None
      end
  | ESend i =>
      match rg_lockers g !! i with
      | Some (Holding key entry) =>
          match rg_heap g !! entry with
          | Some e => if le_token e then None else Some (moves i (Unlocking key entry) (setToken entry true g))
          | None => None
          end
      | _ => None
      end
  | ERelease i =>
      match rg_lockers g !! i with
      | Some (Unlocking key entry) => Some (moves i (Finished false) (releaseEntry key entry g))
      | _ => None
      end
  (** the [sync.Once] of the unlock function *)
  | EUnlockAgain i =>
      match rg_lockers g !! i with
      | Some (Finished false) => Some g
      | _ => None
      end
  end.

Fixpoint steps (l : list event) (g : registry) : option registry :=
  match l with
  | [] => Some g
  | e :: l' => match step e g with Some g' => steps l' g' | None => None end
  end.

(** ** The invariant *)
Definition entryOf (l : locker) : option nat :=
  match l with Waiting _ n | Holding _ n | Unlocking _ n => Some n | Finished _ => None end.
Definition keyOf (l : locker) : option string :=
  match l with Waiting k _ | Holding k _ | Unlocking k _ => Some k | Finished _ => None end.
Definition refersTo (n : nat) (l : locker) : Z := if bool_decide (entryOf l = Some n) then 1 else 0.
Definition holdsEntry (n : nat) (l : locker) : Z := match l with Holding _ m => if Nat.eqb m n then 1 else 0 | _ => 0 end.

Record LockInv (g : registry) : Prop := {
  li_heap : forall n e, rg_heap g !! n = Some e ->
    le_refs e = total (refersTo n) (rg_lockers g) /\
    total (holdsEntry n) (rg_lockers g) = (if le_token e then 0 else 1);
  li_bound : forall i l n, rg_lockers g !! i = Some l -> entryOf l = Some n -> (n < length (rg_heap g))%nat;
  (** a goroutine in flight is on the entry its key is registered with *)
  li_registered : forall i l key n, rg_lockers g !! i = Some l -> keyOf l = Some key -> entryOf l = Some n ->
    rg_entries g !! key = Some n;
  (** a registered entry is referenced, for one key only *)
  li_used : forall key n, rg_entries g !! key = Some n ->
    (n < length (rg_heap g))%nat /\ 1 <= total (refersTo n) (rg_lockers g);
  li_injective : forall k1 k2 n, rg_entries g !! k1 = Some n -> rg_entries g !! k2 = Some n -> k1 = k2
}.

Lemma refersTo_nonneg n l : 0 <= refersTo n l.
Proof. unfold refersTo. destruct (bool_decide _); lia. Qed.
Lemma holdsEntry_nonneg n l : 0 <= holdsEntry n l.
Proof. destruct l; cbn; try lia. destruct (Nat.eqb _ _); lia. Qed.
Lemma holds_refers n l : holdsEntry n l <= refersTo n l.
Proof.
  pose proof (refersTo_nonneg n l). destruct l as [k m|k m|k m|c]; cbn; try lia.
  destruct (Nat.eqb_spec m n) as [->|]; [|lia]. unfold refersTo. by rewrite bool_decide_true.
Qed.
Lemma refersTo_entry n l : entryOf l = Some n -> refersTo n l = 1.
Proof. intros H. unfold refersTo. by rewrite bool_decide_true. Qed.
Lemma refersTo_other n l : entryOf l <> Some n -> refersTo n l = 0.
Proof. intros H. unfold refersTo. by rewrite bool_decide_false. Qed.

(** A goroutine that changes what it does on its entry, without coming or
    going, and the token with it. *)
Lemma Inv_token (g : registry) (i : nat) (l l' : locker) (n : nat) (e : lockEntry) (full : bool) :
  LockInv g -> rg_lockers g !! i = Some l -> rg_heap g !! n = Some e -> entryOf l = Some n ->
  entryOf l' = entryOf l -> keyOf l' = keyOf l ->
  holdsEntry n l' - holdsEntry n l = (if le_token e then 0 else -1) + (if full then 0 else 1) ->
  LockInv (moves i l' (setToken n full g)).
Proof.
  intros [Hh Hb Hr Hu Hj] Hi He Hn Hen Hk Hd.
  assert (Href : forall m, total (refersTo m) (<[i := l']> (rg_lockers g)) = total (refersTo m) (rg_lockers g)).
  { intros m. rewrite (total_insert _ _ _ _ _ Hi). unfold refersTo. rewrite Hen. lia. }
  assert (Hother : forall m, m <> n -> holdsEntry m l' = holdsEntry m l).
  { intros m Hne. assert (H0 : forall x, entryOf x = Some n -> holdsEntry m x = 0).
    { intros [k p|k p|k p|c] Hx; cbn in *; try lia. destruct (Nat.eqb_spec p m); [congruence|reflexivity]. }
    rewrite !H0 by congruence. reflexivity. }
  constructor; cbn.
  - intros m em. rewrite Href, (total_insert _ _ _ _ _ Hi). destruct (decide (m = n)) as [->|Hne].
    + rewrite list_lookup_alter_eq, He. cbn. intros [= <-]. destruct (Hh n e He) as [H1 H2]. cbn. split; [exact H1|].
      destruct (le_token e), full; lia.
    + rewrite list_lookup_alter_ne by congruence. intros Hm. destruct (Hh m em Hm) as [H1 H2]. split; [exact H1|].
      rewrite Hother by exact Hne. lia.
  - intros j lj m Hj' Hm. rewrite length_alter. destruct (lookup_insert_cases _ _ _ _ _ _ Hi Hj') as [[-> ->]|[_ Hj2]]; [|by eapply Hb].
    eapply Hb; [exact Hi|congruence].
  - intros j lj key m Hj' Hkey Hm. destruct (lookup_insert_cases _ _ _ _ _ _ Hi Hj') as [[-> ->]|[_ Hj2]]; [|by eapply Hr].
    eapply Hr; [exact Hi|congruence|congruence].
  - intros key m Hkey. rewrite length_alter, Href. by eapply Hu.
  - exact Hj.
Qed.

Lemma Inv_leave (g : registry) (i : nat) (l : locker) (key : string) (n : nat) (c : bool) :
  LockInv g -> rg_lockers g !! i = Some l -> keyOf l = Some key -> entryOf l = Some n -> (forall m, holdsEntry m l = 0) ->
  LockInv (moves i (Finished c) (releaseEntry key n g)).
Proof.
  intros [Hh Hb Hr Hu Hj] Hi Hk Hn H0. pose proof (Hb i l n Hi Hn) as Hlt. apply lookup_lt_is_Some in Hlt as [e He].
  destruct (Hh n e He) as [Hrefs Htok]. pose proof (Hr i l key n Hi Hk Hn) as Hreg.
  assert (Href : forall m, total (refersTo m) (<[i := Finished c]> (rg_lockers g)) = total (refersTo m) (rg_lockers g) - (if decide (m = n) then 1 else 0)).
  { intros m. rewrite (total_insert _ _ _ _ _ Hi). rewrite (refersTo_other m (Finished c)) by discriminate.
    destruct (decide (m = n)) as [->|Hne]; [rewrite refersTo_entry by exact Hn; lia|rewrite refersTo_other by congruence; lia]. }
  assert (Hhold : forall m, total (holdsEntry m) (<[i := Finished c]> (rg_lockers g)) = total (holdsEntry m) (rg_lockers g)).
  { intros m. rewrite (total_insert _ _ _ _ _ Hi), H0. cbn. lia. }
  unfold releaseEntry. rewrite He. cbn zeta. rewrite (bool_decide_true (rg_entries g !! key = Some n)) by exact Hreg.
  change (le_refs (e <| le_refs := le_refs e - 1 |>)) with (le_refs e - 1). rewrite andb_true_r.
  assert (Hmap : forall k m, (if le_refs e - 1 =? 0 then delete key (rg_entries g) else rg_entries g) !! k = Some m ->
    rg_entries g !! k = Some m /\ (m = n -> 1 < le_refs e)).
  { intros k m. destruct (le_refs e - 1 =? 0) eqn:E; bsplit.
    - intros [Hne Hl]%lookup_delete_Some. split; [exact Hl|]. intros ->. destruct Hne. by eapply Hj.
    - intros Hl. split; [exact Hl|]. intros ->. destruct (Hu k n Hl) as [_ H1]. lia. }
  constructor; cbn.
  - intros m em. rewrite Href, Hhold. destruct (decide (m = n)) as [->|Hne].
    + rewrite list_lookup_insert_eq by (by eapply lookup_lt_Some). intros [= <-]. cbn. split; [lia|exact Htok].
    + rewrite list_lookup_insert_ne by congruence. intros Hm. destruct (Hh m em Hm). split; [lia|assumption].
  - intros j lj m Hj' Hm. rewrite length_insert. destruct (lookup_insert_cases _ _ _ _ _ _ Hi Hj') as [[-> ->]|[_ Hj2]]; [discriminate|by eapply Hb].
  - intros j lj k m Hj' Hkey Hm. destruct (lookup_insert_cases _ _ _ _ _ _ Hi Hj') as [[-> ->]|[Hne Hj2]]; [discriminate|].
    pose proof (Hr j lj k m Hj2 Hkey Hm) as Hkm. destruct (le_refs e - 1 =? 0) eqn:E; [|exact Hkm]. bsplit.
    apply lookup_delete_Some. split; [|exact Hkm]. intros <-. rewrite Hreg in Hkm. injection Hkm as <-.
    pose proof (total_two (refersTo n) _ i j l lj (refersTo_nonneg n) ltac:(congruence) Hi Hj2) as H2.
    rewrite !refersTo_entry in H2 by assumption. lia.
  - intros k m Hk'. apply Hmap in Hk' as [Hk' Hm]. rewrite length_insert, Href. destruct (Hu k m Hk') as [H1 H2]. split; [exact H1|].
    destruct (decide (m = n)) as [->|]; [specialize (Hm eq_refl)|]; lia.
  - intros k1 k2 m Hk1 Hk2. apply Hmap in Hk1 as [Hk1 _], Hk2 as [Hk2 _]. by eapply Hj.
Qed.

Lemma Inv_enter g name : LockInv g -> LockInv (enter name g).
Proof.
  intros [Hh Hb Hr Hu Hj]. unfold enter. set (key := CanonicalKey name). destruct (rg_entries g !! key) as [n|] eqn:Ek.
  - assert (Href : forall m, total (refersTo m) (rg_lockers g ++ [Waiting key n]) = total (refersTo m) (rg_lockers g) + (if decide (m = n) then 1 else 0)).
    { intros m. rewrite total_snoc. destruct (decide (m = n)) as [->|]; [rewrite refersTo_entry by reflexivity|rewrite refersTo_other by (cbn; congruence)]; lia. }
    constructor; cbn.
    + intros m em. rewrite Href, total_snoc. cbn [holdsEntry]. destruct (decide (m = n)) as [->|Hne].
      * rewrite list_lookup_alter_eq. intros (e & He & ->)%fmap_Some. destruct (Hh n e He). cbn. split; lia.
      * rewrite list_lookup_alter_ne by congruence. intros Hm. destruct (Hh m em Hm). split; lia.
    + intros i l m Hi Hm. rewrite length_alter. apply lookup_snoc_Some in Hi as [[_ Hi]|[-> <-]]; [by eapply Hb|].
      injection Hm as <-. by apply (Hu key).
    + intros i l k m Hi Hk Hm. apply lookup_snoc_Some in Hi as [[_ Hi]|[-> <-]]; [by eapply Hr|].
      injection Hk as <-. injection Hm as <-. exact Ek.
    + intros k m Hk. rewrite length_alter, Href. destruct (Hu k m Hk). split; [assumption|]. destruct (decide _); lia.
    + exact Hj.
  - set (n := length (rg_heap g)).
    assert (Hfresh : forall l, l ∈ rg_lockers g -> entryOf l <> Some n).
    { intros l [i Hi]%list_elem_of_lookup_1 E. specialize (Hb i l n Hi E). unfold n in Hb. lia. }
    assert (H0 : total (refersTo n) (rg_lockers g) = 0).
    { apply zsum_zero. intros x (l & -> & Hin)%list_elem_of_fmap. by apply refersTo_other, Hfresh. }
    assert (H0' : total (holdsEntry n) (rg_lockers g) = 0).
    { pose proof (total_nonneg (holdsEntry n) (rg_lockers g) (holdsEntry_nonneg n)).
      assert (total (holdsEntry n) (rg_lockers g) <= total (refersTo n) (rg_lockers g)) by (apply zsum_le; intros; apply holds_refers). lia. }
    assert (Href : forall m, total (refersTo m) (rg_lockers g ++ [Waiting key n]) = total (refersTo m) (rg_lockers g) + (if decide (m = n) then 1 else 0)).
    { intros m. rewrite total_snoc. destruct (decide (m = n)) as [->|]; [rewrite refersTo_entry by reflexivity|rewrite refersTo_other by (cbn; congruence)]; lia. }
    constructor; cbn.
    + intros m em Hm. rewrite Href, total_snoc. cbn [holdsEntry]. apply lookup_snoc_Some in Hm as [[Hlt Hm]|[-> <-]].
      * destruct (Hh m em Hm). destruct (decide (m = n)) as [->|]; [unfold n in Hlt; lia|]. split; lia.
      * rewrite decide_True by reflexivity. cbn. fold n. lia.
    + intros i l m Hi Hm. rewrite length_app. cbn. apply lookup_snoc_Some in Hi as [[_ Hi]|[-> <-]].
      * specialize (Hb i l m Hi Hm). lia.
      * injection Hm as <-. unfold n. lia.
    + intros i l k m Hi Hk Hm. apply lookup_snoc_Some in Hi as [[_ Hi]|[-> <-]].
      * pose proof (Hr i l k m Hi Hk Hm) as Hkm. rewrite lookup_insert_ne by congruence. exact Hkm.
      * injection Hk as <-. injection Hm as <-. apply lookup_insert_eq.
    + intros k m Hk. rewrite length_app, Href. cbn. destruct (decide (k = key)) as [->|Hne].
      * rewrite lookup_insert_eq in Hk. injection Hk as <-. rewrite H0, decide_True by reflexivity. unfold n. lia.
      * rewrite lookup_insert_ne in Hk by congruence. destruct (Hu k m Hk). split; [lia|]. destruct (decide _); lia.
    + intros k1 k2 m. destruct (decide (k1 = key)) as [->|H1], (decide (k2 = key)) as [->|H2]; [auto| | |];
        rewrite ?lookup_insert_eq, ?lookup_insert_ne by congruence.
      * intros [= <-] Hk. destruct (Hu k2 n Hk). unfold n in *. lia.
      * intros Hk [= <-]. destruct (Hu k1 n Hk). unfold n in *. lia.
      * apply Hj.
Qed.

Lemma lockInv_step e g g' : LockInv g -> step e g = Some g' -> LockInv g'.
Proof.
  intros HI H. destruct e as [name|i|i|i|i|i]; cbn in H.
  - injection H as <-. by apply Inv_enter.
  - destruct (rg_lockers g !! i) as [[k n|k n|k n|c]|] eqn:Hi; try discriminate. injection H as <-.
    by eapply Inv_leave.
  - destruct (rg_lockers g !! i) as [[k n|k n|k n|c]|] eqn:Hi; try discriminate.
    destruct (rg_heap g !! n) as [e|] eqn:He; [|discriminate]. destruct (le_token e) eqn:Et; [|discriminate]. injection H as <-.
    eapply Inv_token; eauto. rewrite Et. cbn. rewrite Nat.eqb_refl. lia.
  - destruct (rg_lockers g !! i) as [[k n|k n|k n|c]|] eqn:Hi; try discriminate.
    destruct (rg_heap g !! n) as [e|] eqn:He; [|discriminate]. destruct (le_token e) eqn:Et; [discriminate|]. injection H as <-.
    eapply Inv_token; eauto. rewrite Et. cbn. rewrite Nat.eqb_refl. lia.
  - destruct (rg_lockers g !! i) as [[k n|k n|k n|c]|] eqn:Hi; try discriminate. injection H as <-.
    by eapply Inv_leave.
  - destruct (rg_lockers g !! i) as [[k n|k n|k n|[|]]|] eqn:Hi; try discriminate. by injection H as <-.
Qed.

Lemma lockInv_steps l g g' : LockInv g -> steps l g = Some g' -> LockInv g'.
Proof.
  revert g. induction l as [|e l IH]; intros g HI H; cbn in H; [by injection H as <-|].
  destruct (step e g) as [g1|] eqn:E; [|discriminate]. apply (IH g1); [by eapply lockInv_step|exact H].
Qed.

Lemma Inv_emptyRegistry : LockInv emptyRegistry.
Proof. constructor; cbn; intros; try discriminate; by rewrite lookup_empty in *. Qed.

Lemma reachable_inv l g : steps l emptyRegistry = Some g -> LockInv g.
Proof. apply lockInv_steps, Inv_emptyRegistry. Qed.

Lemma referred_in_flight g key n :
  LockInv g -> rg_entries g !! key = Some n -> exists i l, rg_lockers g !! i = Some l /\ keyOf l = Some key.
Proof.
  intros HI Hk. destruct (li_used g HI key n Hk) as [_ Hp].
  destruct (total_pos (refersTo n) (rg_lockers g)) as (i & l & Hl & Hr); [lia|]. exists i, l. split; [exact Hl|].
  assert (Hn : entryOf l = Some n) by (unfold refersTo in Hr; destruct (bool_decide_reflect (entryOf l = Some n)); [assumption|lia]).
  destruct (keyOf l) as [k'|] eqn:Ek; [|by destruct l].
  f_equal. eapply (li_injective g HI); [|exact Hk]. by eapply (li_registered g HI).
Qed.

(** C40: In every interleaving of goroutines that take, wait for, cancel and
    release repository locks, at most one holds the lock of a canonical key;
    the registry has an entry for a key exactly while some goroutine is in
    flight on it, so entries are neither replaced under a holder or a waiter
    nor leaked. *)
Theorem repo_lock_excludes l g :
  steps l emptyRegistry = Some g ->
  (forall i j key n m, rg_lockers g !! i = Some (Holding key n) -> rg_lockers g !! j = Some (Holding key m) -> i = j) /\
  (forall key, is_Some (rg_entries g !! key) <-> exists i x, rg_lockers g !! i = Some x /\ keyOf x = Some key).
Proof.
  intros HI%reachable_inv. split.
  - intros i j key n m Hi Hj. destruct (decide (i = j)) as [|Hne]; [assumption|exfalso].
    pose proof (li_registered g HI i _ key n Hi eq_refl eq_refl) as H1.
    pose proof (li_registered g HI j _ key m Hj eq_refl eq_refl) as H2. rewrite H1 in H2. injection H2 as <-.
    pose proof (total_two (holdsEntry n) _ i j _ _ (holdsEntry_nonneg n) Hne Hi Hj) as Ht.
    cbn in Ht. rewrite Nat.eqb_refl in Ht.
    destruct (lookup_lt_is_Some_2 _ _ (li_bound g HI i _ n Hi eq_refl)) as [e He].
    destruct (li_heap g HI n e He) as [_ Hh]. destruct (le_token e); lia.
  - intros key. split; [intros [n Hn]; by eapply referred_in_flight|].
    intros (i & x & Hx & Hk). destruct (entryOf x) as [n|] eqn:En; [|by destruct x].
    exists n. by eapply (li_registered g HI).
Qed.

(** The lock makes progress: an unlock never blocks, a released reference
    is always dropped, and a goroutine that waits for a key nobody holds can
    take it at once. *)
Theorem lock_makes_progress l g i x key :
  steps l emptyRegistry = Some g -> rg_lockers g !! i = Some x -> keyOf x = Some key ->
  match x with
  | Holding _ _ => is_Some (step (ESend i) g)
  | Unlocking _ _ => is_Some (step (ERelease i) g)
  | _ => (forall j n, rg_lockers g !! j <> Some (Holding key n)) ->
      exists n g', step (EAcquire i) g = Some g' /\ rg_lockers g' !! i = Some (Holding key n)
  end.
Proof.
  intros HI%reachable_inv Hi Hk. destruct x as [k n|k n|k n|c]; [|..|discriminate Hk]; injection Hk as ->; cbn; rewrite Hi.
  - intros Hfree. pose proof (li_bound g HI i _ n Hi eq_refl) as Hb. destruct (lookup_lt_is_Some_2 _ _ Hb) as [e He].
    rewrite He. destruct (le_token e) eqn:Et.
    + eexists n, _. split; [reflexivity|]. cbn. apply list_lookup_insert_eq. by eapply lookup_lt_Some.
    + exfalso. destruct (li_heap g HI n e He) as [_ Hh]. rewrite Et in Hh.
      destruct (total_pos (holdsEntry n) (rg_lockers g)) as (j & y & Hy & Hp); [lia|].
      destruct y as [k m|k m|k m|c]; cbn in Hp; try lia. destruct (Nat.eqb_spec m n) as [->|]; [|lia].
      apply (Hfree j n). rewrite Hy. do 2 f_equal.
      eapply (li_injective g HI); [by eapply (li_registered g HI)|]. by apply (li_registered g HI i _ key n Hi).
  - destruct (lookup_lt_is_Some_2 _ _ (li_bound g HI i _ n Hi eq_refl)) as [e He]. rewrite He.
    destruct (li_heap g HI n e He) as [_ Hh]. destruct (le_token e); [exfalso|by eexists].
    pose proof (total_le (holdsEntry n) _ i _ (holdsEntry_nonneg n) Hi) as Hle. cbn in Hle. rewrite Nat.eqb_refl in Hle. lia.
  - by eexists.
Qed.
End Lock.

(** Two goroutines on one repository under two spellings, one on another. *)
Definition lockRun : list event :=
  [EEnter "a"; EEnter "A"; EEnter "b"; EAcquire 0; EAcquire 2; EEnter "a"; ECancel 3; ESend 0].
Definition foldCase (k : string) : string := if String.eqb k "A" then "a" else k.

Lemma repo_lock_excludes_witness :
  exists g, steps foldCase lockRun emptyRegistry = Some g /\ rg_lockers g !! 2%nat = Some (Holding "b" 1) /\
    (is_Some (rg_entries g !! "a") <-> exists i x, rg_lockers g !! i = Some x /\ keyOf x = Some "a").
Proof.
  eexists. split; [vm_compute; reflexivity|]. split; [reflexivity|].
  apply (repo_lock_excludes foldCase lockRun). vm_compute. reflexivity.
Defined.

Lemma lock_makes_progress_witness :
  exists g, steps foldCase lockRun emptyRegistry = Some g /\
    exists n g', step foldCase (EAcquire 1) g = Some g' /\ rg_lockers g' !! 1%nat = Some (Holding "a" n).
Proof.
  eexists. split; [vm_compute; reflexivity|].
  refine (lock_makes_progress foldCase lockRun _ 1 (Waiting "a" 0) "a" _ _ _ _); [vm_compute; reflexivity|reflexivity|reflexivity|].
  intros [|[|[|[|j]]]] n; discriminate.
Defined.
