(* ===== verification/PublicationCache.v ===== *)
(** * The relationship-publication cache

    Model of [internal/relationshippublication/cache.go]: publications opened
    from disk are shared by leases; a sweep that wants to remove a generation
    first takes a guard that no lease of it may coexist with.  Every step is
    one critical section of the cache's mutex, or what a caller does between
    two: wait for another caller's open, be canceled, look at its result.
    Callers interleave.  What opening a publication returns is an argument; of
    a publication the cache reads only the generation digest of its root. *)
From Stdlib Require Import Ascii String.
From S2P Require Import Prelude.

Record Publication := mkPublication { GenerationDigest : string }.

(** [ready] is the channel of an open in progress; it is closed and set to
    nil in one critical section. *)
Record cacheEntry := mkCacheEntry {
  ce_publication : option Publication;
  ce_generation : string;
  ce_leases : Z;
  ce_retired : bool;
  ce_ready : bool;
  ce_openErr : option string
}.
#[export] Instance eta_cacheEntry : Eta cacheEntry := fun e =>
  mkCacheEntry (ce_publication e) (ce_generation e) (ce_leases e) (ce_retired e) (ce_ready e) (ce_openErr e).

(** Where a caller is: in [OpenGeneration]; past its critical section on
    another's entry, with a channel to wait for or none; about to release a
    lease it will not return; holding the lease; done. *)
Inductive stage := Opening | Awaiting (ready : bool) | Leaving | Holding | Gone.

(** A caller: what it asked for, and the fields [repository] and [entry] of
    its lease. *)
Record client := mkClient {
  cl_repository : string;
  cl_generation : string;
  cl_key : string;
  cl_entry : nat;
  cl_stage : stage
}.
#[export] Instance eta_client : Eta client := fun l =>
  mkClient (cl_repository l) (cl_generation l) (cl_key l) (cl_entry l) (cl_stage l).

(** Entries are pointers into a heap. [ca_guards] has the guards handed out:
    the key, until its release function has run. *)
Record Cache := mkCache {
  ca_heap : list cacheEntry;
  ca_entries : gmap string nat;
  ca_retired : list nat;
  ca_retiring : gset string;
  ca_clients : list client;
  ca_guards : list (option string)
}.
#[export] Instance eta_Cache : Eta Cache := fun c =>
  mkCache (ca_heap c) (ca_entries c) (ca_retired c) (ca_retiring c) (ca_clients c) (ca_guards c).

Definition newCache : Cache := mkCache [] ∅ [] ∅ [] [].

Definition NUL : ascii := Ascii.zero.
Fixpoint containsNul (s : string) : bool :=
  match s with EmptyString => false | String a s' => Ascii.eqb a NUL || containsNul s' end.
Definition historicalKey (repository generation : string) : string := (repository ++ String NUL generation)%string.

Definition newClient (repository generation key : string) (entry : nat) (at_ : stage) (c : Cache) : Cache :=
  c <| ca_clients ::= fun l => l ++ [mkClient repository generation key entry at_] |>.
Definition moveClient (i : nat) (l : client) (at_ : stage) (c : Cache) : Cache :=
  c <| ca_clients ::= insert i (l <| cl_stage := at_ |>) |>.
Definition updEntry (n : nat) (f : cacheEntry -> cacheEntry) (c : Cache) : Cache := c <| ca_heap ::= alter f n |>.

(** The entry a new lease may share. *)
Definition usable (c : Cache) (key generation : string) : option (nat * cacheEntry) :=
  match ca_entries c !! key with
  | Some n =>
      match ca_heap c !! n with
      | Some e => if negb (ce_retired e) && String.eqb (ce_generation e) generation then Some (n, e) else None
      | None => None
      end
  | None => None
  end.
Definition addLease (e : cacheEntry) : cacheEntry := e <| ce_leases := ce_leases e + 1 |>.

(** The first critical section of [AcquireGeneration]. *)
Definition AcquireGeneration (repository generation : string) (c : Cache) : Cache :=
  let key := historicalKey repository generation in
  if bool_decide (key ∈ ca_retiring c) then c else
  match usable c key generation with
  | Some (n, e) => newClient repository generation key n (Awaiting (ce_ready e)) (updEntry n addLease c)
  | None =>
      let n := length (ca_heap c) in
      newClient repository generation key n Opening
        (c <| ca_heap ::= fun h => h ++ [mkCacheEntry None generation 1 false true None] |>
           <| ca_entries ::= insert key n |>)
  end.

(** The second one, with what [OpenGeneration] returned. *)
Definition opened (i : nat) (publication : option Publication) (err : option string) (c : Cache) : option Cache :=
  match ca_clients c !! i with
  | Some l =>
      match cl_stage l with
      | Opening =>
          let n := cl_entry l in
          let c := updEntry n (fun e => e <| ce_publication := publication |> <| ce_openErr := err |> <| ce_ready := false |>) c in
          Some match err with
               | Some _ =>
                   let entries := if bool_decide (ca_entries c !! cl_key l = Some n) then delete (cl_key l) (ca_entries c) else ca_entries c in
                   moveClient i l Leaving ((updEntry n (fun e => e <| ce_retired := true |>) c) <| ca_entries := entries |>)
               | None => moveClient i l Holding c
               end
      | _ => None
      end
  | None => None
  end.

(** The end of the select and the test of the result that follows. *)
Definition readied (i : nat) (c : Cache) : option Cache :=
  match ca_clients c !! i with
  | Some l =>
      match cl_stage l, ca_heap c !! cl_entry l with
      | Awaiting ready, Some e =>
          if ready && ce_ready e then None else
          Some (moveClient i l (if negb (is_nil (ce_openErr e)) || is_nil (ce_publication e) then Leaving else Holding) c)
      | _, _ => None
      end
  | None => None
  end.
Definition canceled (i : nat) (c : Cache) : option Cache :=
  match ca_clients c !! i with
  | Some l => match cl_stage l with Awaiting true => Some (moveClient i l Leaving c) | _ => None end
  | None => None
  end.

(** A current entry makes way for its successor. *)
Definition supersede (m : nat) (c : Cache) : Cache :=
  let c := updEntry m (fun e => e <| ce_retired := true |>) c in
  match ca_heap c !! m with
  | Some e => if negb (ce_leases e =? 0) then c <| ca_retired ::= fun r => r ++ [m] |> else c
  | None => c
  end.

(** [Acquire] after [OpenCurrent] has returned a publication. *)
Definition acquirePublication (repository : string) (publication : Publication) (c : Cache) : Cache :=
  let generation := GenerationDigest publication in
  if bool_decide (historicalKey repository generation ∈ ca_retiring c) then c else
  match usable c repository generation with
  | Some (n, _) => newClient repository generation repository n Holding (updEntry n addLease c)
  | None =>
      let n := length (ca_heap c) in
      let c := match ca_entries c !! repository with Some m => supersede m c | None => c end in
      newClient repository generation repository n Holding
        (c <| ca_heap ::= fun h => h ++ [mkCacheEntry (Some publication) generation 1 false false None] |>
           <| ca_entries ::= insert repository n |>)
  end.

Fixpoint removeFirst (n : nat) (l : list nat) : list nat :=
  match l with [] => [] | m :: l' => if Nat.eqb m n then l' else m :: removeFirst n l' end.

(** [Lease.Release], inside its [sync.Once]. *)
Definition releaseLease (key : string) (n : nat) (c : Cache) : Cache :=
  match ca_heap c !! n with
  | None => c
  | Some e =>
      let e := if 0 <? ce_leases e then e <| ce_leases := ce_leases e - 1 |> else e in
      let last := (ce_leases e =? 0) && containsNul key in
      let entries := if last && bool_decide (ca_entries c !! key = Some n) then delete key (ca_entries c) else ca_entries c in
      let e := if last then e <| ce_retired := true |> else e in
      let retired := if ce_retired e && (ce_leases e =? 0) then removeFirst n (ca_retired c) else ca_retired c in
      c <| ca_heap ::= insert n e |> <| ca_entries := entries |> <| ca_retired := retired |>
  end.

Definition Release (i : nat) (c : Cache) : option Cache :=
  match ca_clients c !! i with
  | Some l =>
      match cl_stage l with
      | Leaving | Holding => Some (moveClient i l Gone (releaseLease (cl_key l) (cl_entry l) c))
      | Gone => Some c
      | _ => None
      end
  | None => None
  end.

(** ** Pins and guards *)
Definition entryPins (generation : string) (o : option cacheEntry) : bool :=
  match o with Some e => String.eqb (ce_generation e) generation && negb (ce_leases e =? 0) | None => false end.
Definition entryAt (c : Cache) (key : string) : option cacheEntry :=
  match ca_entries c !! key with Some n => ca_heap c !! n | None => None end.

Definition Pinned (repository generation : string) (c : Cache) : bool :=
  entryPins generation (entryAt c repository) || entryPins generation (entryAt c (historicalKey repository generation))
  || existsb (fun n => entryPins generation (ca_heap c !! n)) (ca_retired c).

Definition BeginRetire (repository generation : string) (c : Cache) : Cache :=
  let key := historicalKey repository generation in
  if Pinned repository generation c || bool_decide (key ∈ ca_retiring c) then c
  else c <| ca_retiring ::= union {[key]} |> <| ca_guards ::= fun l => l ++ [Some key] |>.

Definition endRetire (j : nat) (c : Cache) : option Cache :=
  match ca_guards c !! j with
  | Some (Some key) => Some (c <| ca_retiring ::= fun s => s ∖ {[key]} |> <| ca_guards ::= insert j None |>)
  | Some None => Some c
  | None => None
  end.

(** ** Runs *)
Inductive event :=
  | EAcquire (repository : string) (publication : Publication)
  | EAcquireGeneration (repository generation : string)
  | EOpened (i : nat) (publication : option Publication) (err : option string)
  | EReady (i : nat)
  | ECancel (i : nat)
  | ERelease (i : nat)
  | EBeginRetire (repository generation : string)
  | EEndRetire (j : nat).

(** [None] is a step that is not enabled. *)
Definition step (e : event) (c : Cache) : option Cache :=
  match e with
  | EAcquire repository publication => Some (acquirePublication repository publication c)
  | EAcquireGeneration repository generation => Some (AcquireGeneration repository generation c)
  | EOpened i publication err => opened i publication err c
  | EReady i => readied i c
  | ECancel i => canceled i c
  | ERelease i => Release i c
  | EBeginRetire repository generation => Some (BeginRetire repository generation c)
  | EEndRetire j => endRetire j c
  end.

Fixpoint steps (l : list event) (c : Cache) : option Cache :=
  match l with
  | [] => Some c
  | e :: l' => match step e c with Some c' => steps l' c' | None => None end
  end.

(** A repository name has no NUL: it is a path below the data directory. *)
Definition named (e : event) : bool :=
  match e with
  | EAcquire repository _ | EAcquireGeneration repository _ | EBeginRetire repository _ => negb (containsNul repository)
  | _ => true
  end.

(** ** The invariant *)
Definition active (l : client) : bool := match cl_stage l with Gone => false | _ => true end.
Definition sharesEntry (n : nat) (l : client) : Z := if active l && Nat.eqb (cl_entry l) n then 1 else 0.
Definition opens (n : nat) (l : client) : Z :=
  match cl_stage l with Opening => if Nat.eqb (cl_entry l) n then 1 else 0 | _ => 0 end.
(** A caller's lease is under the name of the repository or of the
    generation. *)
Definition keyed (l : client) : Prop :=
  containsNul (cl_repository l) = false /\
  (cl_key l = cl_repository l \/ cl_key l = historicalKey (cl_repository l) (cl_generation l)).

Record ClientOK (c : Cache) (l : client) (e : cacheEntry) : Prop := {
  co_keyed : keyed l;
  co_generation : ce_generation e = cl_generation l;
  co_opening : cl_stage l = Opening -> ce_ready e = true;
  co_waiting : cl_stage l = Awaiting false -> ce_ready e = false;
  co_holding : cl_stage l = Holding -> ce_ready e = false /\ ce_openErr e = None;
  (** where the entry of a lease is found, unless it failed to open *)
  co_placed : ce_openErr e = None ->
    ca_entries c !! cl_key l = Some (cl_entry l) \/ (cl_key l = cl_repository l /\ cl_entry l ∈ ca_retired c);
  co_unretired : ce_openErr e = None -> historicalKey (cl_repository l) (cl_generation l) ∉ ca_retiring c
}.

Record CacheInv (c : Cache) : Prop := {
  ci_heap : forall n e, ca_heap c !! n = Some e ->
    ce_leases e = total (sharesEntry n) (ca_clients c) /\
    total (opens n) (ca_clients c) = (if ce_ready e then 1 else 0) /\
    (ce_ready e = true -> ce_openErr e = None);
  ci_clients : forall i l, ca_clients c !! i = Some l -> active l = true ->
    exists e, ca_heap c !! cl_entry l = Some e /\ ClientOK c l e;
  ci_entries : forall k n, ca_entries c !! k = Some n ->
    exists e, ca_heap c !! n = Some e /\ (n ∉ ca_retired c) /\
      (containsNul k = true -> ce_retired e = false /\ 0 < ce_leases e /\
        exists r, containsNul r = false /\ k = historicalKey r (ce_generation e)) /\
      ce_openErr e = None /\ (containsNul k = false -> ce_ready e = false);
  ci_injective : forall k1 k2 n, ca_entries c !! k1 = Some n -> ca_entries c !! k2 = Some n -> k1 = k2;
  ci_retired : NoDup (ca_retired c) /\ forall n, n ∈ ca_retired c ->
    exists e, ca_heap c !! n = Some e /\ 0 < ce_leases e /\ ce_retired e = true;
  ci_guards : forall i j key, ca_guards c !! i = Some (Some key) ->
    key ∈ ca_retiring c /\ (ca_guards c !! j = Some (Some key) -> i = j)
}.

(** *** Keys *)
#[local] Arguments NUL : simpl never.

Lemma containsNul_key r g : containsNul (historicalKey r g) = true.
Proof.
  unfold historicalKey. induction r as [|a r IH]; [reflexivity|].
  change (Ascii.eqb a NUL || containsNul (r ++ String NUL g)%string = true). rewrite IH. apply orb_true_r.
Qed.

Lemma historicalKey_inj r1 r2 g1 g2 :
  containsNul r1 = false -> containsNul r2 = false -> historicalKey r1 g1 = historicalKey r2 g2 -> r1 = r2 /\ g1 = g2.
Proof.
  unfold historicalKey. revert r2. induction r1 as [|a r1 IH]; intros [|b r2] H1 H2 E; cbn [String.append containsNul] in *.
  - by simplify_eq.
  - injection E as <- _. discriminate.
  - injection E as -> _. discriminate.
  - injection E as -> E. apply orb_false_iff in H1 as [_ H1], H2 as [_ H2]. destruct (IH r2 H1 H2 E) as [-> ->]. auto.
Qed.

Lemma key_not_repository r1 r2 g : containsNul r1 = false -> historicalKey r2 g <> r1.
Proof. intros H E. pose proof (containsNul_key r2 g). congruence. Qed.

(** *** Lists of pointers *)
Lemma elem_removeFirst n m l : m ∈ removeFirst n l -> m ∈ l.
Proof.
  induction l as [|x l IH]; cbn; [auto|]. destruct (Nat.eqb x n); [by right|]. rewrite !elem_of_cons. intros [|]; auto.
Qed.

Lemma removeFirst_NoDup n l : NoDup l -> NoDup (removeFirst n l) /\ n ∉ removeFirst n l.
Proof.
  induction 1 as [|x l Hx Hl IH]; cbn; [split; [constructor|inversion 1]|]. destruct IH as [IH1 IH2].
  destruct (Nat.eqb_spec x n) as [->|Hne]; [auto|]. split.
  - constructor; [|exact IH1]. intros H. by apply Hx, (elem_removeFirst n).
  - rewrite elem_of_cons. intros [->|]; auto.
Qed.

Lemma removeFirst_other n m l : m <> n -> m ∈ l -> m ∈ removeFirst n l.
Proof.
  intros Hne. induction l as [|x l IH]; cbn; [auto|]. destruct (Nat.eqb_spec x n) as [->|]; rewrite !elem_of_cons; intros [->|]; auto.
  congruence.
Qed.

(** *** Counting *)
Lemma sharesEntry_nonneg n l : 0 <= sharesEntry n l.
Proof. unfold sharesEntry. destruct (_ && _); lia. Qed.
Lemma opens_nonneg n l : 0 <= opens n l.
Proof. unfold opens. destruct (cl_stage l); try lia. destruct (Nat.eqb _ _); lia. Qed.
Lemma sharesEntry_active n l : active l = true -> cl_entry l = n -> sharesEntry n l = 1.
Proof. intros H <-. unfold sharesEntry. by rewrite H, Nat.eqb_refl. Qed.
Lemma sharesEntry_other n l : cl_entry l <> n -> sharesEntry n l = 0.
Proof. intros H. unfold sharesEntry. destruct (Nat.eqb_spec (cl_entry l) n); [congruence|]. by rewrite andb_false_r. Qed.
Lemma sharesEntry_inv n l : 0 < sharesEntry n l -> active l = true /\ cl_entry l = n.
Proof. unfold sharesEntry. destruct (active l); cbn; [|lia]. destruct (Nat.eqb_spec (cl_entry l) n); [auto|lia]. Qed.
Lemma opens_inv n l : 0 < opens n l -> cl_stage l = Opening /\ cl_entry l = n.
Proof. unfold opens. destruct (cl_stage l); try lia. destruct (Nat.eqb_spec (cl_entry l) n); [auto|lia]. Qed.
Lemma opens_refers n l : opens n l <= sharesEntry n l.
Proof. unfold opens, sharesEntry, active. destruct (cl_stage l); cbn; try (destruct (Nat.eqb _ _)); lia. Qed.

Lemma leased_client c l i e :
  CacheInv c -> ca_clients c !! i = Some l -> active l = true -> ca_heap c !! cl_entry l = Some e -> 0 < ce_leases e.
Proof.
  intros HI Hi Ha He. destruct (ci_heap c HI _ _ He) as [-> _].
  pose proof (total_le (sharesEntry (cl_entry l)) _ i l (sharesEntry_nonneg _) Hi) as H.
  rewrite (sharesEntry_active _ l Ha eq_refl) in H. lia.
Qed.

(** *** Preservation *)
Lemma ClientOK_mono c c' l e e' :
  ClientOK c l e -> ce_generation e' = ce_generation e -> ce_ready e' = ce_ready e -> ce_openErr e' = ce_openErr e ->
  (ce_openErr e = None -> ca_entries c !! cl_key l = Some (cl_entry l) ->
    ca_entries c' !! cl_key l = Some (cl_entry l) \/ (cl_key l = cl_repository l /\ cl_entry l ∈ ca_retired c')) ->
  (cl_entry l ∈ ca_retired c -> cl_entry l ∈ ca_retired c') ->
  (ce_openErr e = None -> historicalKey (cl_repository l) (cl_generation l) ∉ ca_retiring c ->
    historicalKey (cl_repository l) (cl_generation l) ∉ ca_retiring c') ->
  ClientOK c' l e'.
Proof.
  intros [Hk Hg Ho Hw Hh Hp Hu] Eg Er Ee He Hr Hg'. constructor; rewrite ?Eg, ?Er, ?Ee; auto.
  intros E. destruct (Hp E) as [H|[H1 H2]]; [by apply He|right; auto].
Qed.

(** What a change of the number of leases keeps. *)
Definition alike (x y : cacheEntry) : Prop :=
  ce_generation x = ce_generation y /\ ce_retired x = ce_retired y /\ ce_ready x = ce_ready y /\ ce_openErr x = ce_openErr y.

(** A lease is added to an entry that is in use or can be used again. *)
Lemma Inv_share c r g key n e st :
  CacheInv c -> containsNul r = false -> (key = r \/ key = historicalKey r g) ->
  historicalKey r g ∉ ca_retiring c -> usable c key g = Some (n, e) ->
  st = Awaiting (ce_ready e) \/ (st = Holding /\ key = r) ->
  CacheInv (newClient r g key n st (updEntry n addLease c)).
Proof.
  intros HI Hr Hkey Hret Hu Hst. unfold usable in Hu. destruct (ca_entries c !! key) as [m|] eqn:Ek; [|discriminate].
  destruct (ca_heap c !! m) as [em|] eqn:Em; [|discriminate]. destruct (_ && _) eqn:Eb in Hu; [|discriminate].
  injection Hu as -> ->. apply andb_true_iff in Eb as [_ Eg%String.eqb_eq].
  assert (Hopens : forall m, opens m (mkClient r g key n st) = 0) by (intros; by destruct Hst as [->|[-> _]]).
  assert (Hrefs : forall m, sharesEntry m (mkClient r g key n st) = if Nat.eqb n m then 1 else 0) by (intros; by destruct Hst as [->|[-> _]]).
  assert (Hheap : forall m x, alter addLease n (ca_heap c) !! m = Some x ->
    exists y, ca_heap c !! m = Some y /\ x = (if Nat.eqb n m then addLease y else y)).
  { intros m x. destruct (Nat.eqb_spec n m) as [<-|Hne].
    - rewrite list_lookup_alter_eq, Em. intros [= <-]. by eexists.
    - rewrite list_lookup_alter_ne by exact Hne. by eexists. }
  assert (Hlook : forall m y, ca_heap c !! m = Some y ->
    exists x, alter addLease n (ca_heap c) !! m = Some x /\ ce_leases y <= ce_leases x /\ alike x y).
  { intros m y Hy. destruct (decide (n = m)) as [<-|Hne].
    - rewrite list_lookup_alter_eq, Hy. eexists. split; [reflexivity|]. cbn. split; [lia|by repeat split].
    - rewrite list_lookup_alter_ne by exact Hne. exists y. split; [exact Hy|]. split; [lia|by repeat split]. }
  destruct HI as [Hh Hc He Hj [Hn Hrt] Hgd]. constructor; cbn.
  - intros m x (y & Hy & ->)%Hheap. rewrite !total_snoc, Hopens, Hrefs. destruct (Hh m y Hy) as (H1 & H2 & H3).
    destruct (Nat.eqb n m); cbn; (split; [lia|split; [lia|exact H3]]).
  - intros i l Hi Ha. apply lookup_snoc_Some in Hi as [[_ Hi]|[_ <-]].
    + destruct (Hc i l Hi Ha) as (y & Hy & Hok). destruct (Hlook _ _ Hy) as (x & Hx & _ & E1 & E2 & E3 & E4). exists x. split; [exact Hx|].
      apply (ClientOK_mono c _ l y x); cbn; auto.
    + cbn. rewrite list_lookup_alter_eq, Em. eexists. split; [reflexivity|]. constructor; cbn.
      * split; assumption.
      * exact Eg.
      * by destruct Hst as [->|[-> _]].
      * destruct Hst as [->|[-> _]]; [congruence|discriminate].
      * destruct Hst as [->|[-> ->]]; [discriminate|]. intros _. destruct (He _ _ Ek) as (y & Hy & _ & _ & Ho & Hrd).
        simplify_eq. auto.
      * intros _. by left.
      * intros _. exact Hret.
  - intros k m Hk. destruct (He k m Hk) as (y & Hy & H1 & H2 & H3). destruct (Hlook _ _ Hy) as (x & Hx & Hl & E1 & E2 & E3 & E4). exists x.
    split; [exact Hx|]. rewrite E1, E2, E3, E4. split; [exact H1|]. split; [|exact H3].
    intros H. destruct (H2 H) as (? & ? & ?). split; [assumption|split; [lia|assumption]].
  - exact Hj.
  - split; [exact Hn|]. intros m Hm. destruct (Hrt m Hm) as (y & Hy & H1 & H2). destruct (Hlook _ _ Hy) as (x & Hx & Hl & E1 & E2 & _).
    exists x. split; [exact Hx|]. rewrite E2. split; [lia|assumption].
  - exact Hgd.
Qed.

Lemma alter_inv f n (h : list cacheEntry) m x :
  alter f n h !! m = Some x -> exists y, h !! m = Some y /\ x = (if Nat.eqb n m then f y else y).
Proof.
  destruct (Nat.eqb_spec n m) as [<-|Hne].
  - rewrite list_lookup_alter_eq. intros (y & Hy & ->)%fmap_Some. eauto.
  - rewrite list_lookup_alter_ne by exact Hne. eauto.
Qed.

Lemma alter_lookup f n (h : list cacheEntry) m y :
  h !! m = Some y -> alter f n h !! m = Some (if Nat.eqb n m then f y else y).
Proof.
  intros Hy. destruct (Nat.eqb_spec n m) as [<-|Hne]; [by rewrite list_lookup_alter_eq, Hy|].
  by rewrite list_lookup_alter_ne by exact Hne.
Qed.

Lemma alter_twice (f g : cacheEntry -> cacheEntry) (n : nat) (h : list cacheEntry) : alter f n (alter g n h) = alter (fun e => f (g e)) n h.
Proof. revert n. induction h as [|e h IH]; intros [|n]; try reflexivity. exact (f_equal (cons e) (IH n)). Qed.

Lemma repository_key c l e k : ClientOK c l e -> containsNul k = false -> cl_key l = k -> cl_repository l = k.
Proof.
  intros Hok Hk E. destruct (co_keyed _ _ _ Hok) as [_ [H|H]]; [congruence|].
  rewrite E in H. by destruct (key_not_repository k (cl_repository l) (cl_generation l)).
Qed.

Lemma Inv_supersede c r m :
  CacheInv c -> containsNul r = false -> ca_entries c !! r = Some m -> CacheInv ((supersede m c) <| ca_entries ::= delete r |>).
Proof.
  intros HI Hr Em. destruct (ci_entries c HI r m Em) as (e & He & Hnr & _ & Hoe & _).
  destruct (ci_heap c HI m e He) as (Hl & _). pose proof (total_nonneg (sharesEntry m) (ca_clients c) (sharesEntry_nonneg m)) as Hp.
  set (ret := if ce_leases e =? 0 then ca_retired c else ca_retired c ++ [m]).
  assert (Heq : (supersede m c) <| ca_entries ::= delete r |> =
    mkCache (alter (fun e => e <| ce_retired := true |>) m (ca_heap c)) (delete r (ca_entries c)) ret (ca_retiring c) (ca_clients c) (ca_guards c)).
  { unfold supersede, ret. cbn. rewrite list_lookup_alter_eq, He. cbn. by destruct (ce_leases e =? 0). }
  rewrite Heq. clear Heq.
  assert (Hret : forall k, k ∈ ret <-> k ∈ ca_retired c \/ (k = m /\ ce_leases e <> 0)).
  { intros k. unfold ret. destruct (Z.eqb_spec (ce_leases e) 0) as [E0|E0]; [|rewrite elem_of_app, list_elem_of_singleton]; intuition. }
  constructor; cbn.
  - intros n x (y & Hy & ->)%alter_inv. destruct (ci_heap c HI n y Hy). by destruct (Nat.eqb m n).
  - intros i l Hi Ha. destruct (ci_clients c HI i l Hi Ha) as (y & Hy & Hok). eexists. split; [by apply alter_lookup|].
    apply (ClientOK_mono c _ l y _ Hok); cbn; try (by destruct (Nat.eqb m _)); auto.
    + intros Ho Hk. destruct (decide (cl_key l = r)) as [E|Hne]; [right|left; by rewrite lookup_delete_ne by congruence].
      rewrite E in *. split; [symmetry; by eapply repository_key|]. rewrite Em in Hk. injection Hk as Hk. rewrite Hret. right.
      split; [by rewrite Hk|]. pose proof (leased_client c l i y HI Hi Ha Hy). rewrite <- Hk, He in Hy. injection Hy as ->. lia.
    + intros H. apply Hret. by left.
  - intros k n Hk. apply lookup_delete_Some in Hk as [Hne Hk]. destruct (ci_entries c HI k n Hk) as (y & Hy & H1 & H2).
    assert (Hmn : m <> n) by (intros <-; by destruct Hne; eapply (ci_injective c HI)).
    exists y. rewrite list_lookup_alter_ne by exact Hmn. split; [exact Hy|]. rewrite Hret. split; [|exact H2]. intros [|[]]; congruence.
  - intros k1 k2 n [_ H1]%lookup_delete_Some [_ H2]%lookup_delete_Some. by eapply (ci_injective c HI).
  - destruct (ci_retired c HI) as [Hn Hrt]. split.
    + unfold ret. destruct (ce_leases e =? 0); [exact Hn|]. apply NoDup_app. split; [exact Hn|].
      split; [intros x Hx Hx'%list_elem_of_singleton; congruence|apply NoDup_singleton].
    + intros n [Hin|[-> Hne]]%Hret.
      * destruct (Hrt n Hin) as (y & Hy & Hpos & Hy'). eexists. split; [by apply alter_lookup|]. by destruct (Nat.eqb m n).
      * eexists. split; [by apply alter_lookup|]. rewrite Nat.eqb_refl. cbn. split; [lia|reflexivity].
  - apply (ci_guards c HI).
Qed.

(** The fresh entry of a caller that opens it, or that already has it open. *)
Lemma Inv_install c r g key e0 st :
  CacheInv c -> containsNul r = false -> historicalKey r g ∉ ca_retiring c -> ca_entries c !! key = None ->
  ce_generation e0 = g -> ce_leases e0 = 1 -> ce_openErr e0 = None -> ce_retired e0 = false ->
  (st = Opening /\ ce_ready e0 = true /\ key = historicalKey r g) \/ (st = Holding /\ ce_ready e0 = false /\ key = r) ->
  CacheInv (newClient r g key (length (ca_heap c)) st
    (c <| ca_heap ::= fun h => h ++ [e0] |> <| ca_entries ::= insert key (length (ca_heap c)) |>)).
Proof.
  intros HI Hr Hret Hk Hg Hl Ho Hrt Hst. set (n := length (ca_heap c)). set (l0 := mkClient r g key n st).
  assert (Hfresh : forall i l, ca_clients c !! i = Some l -> sharesEntry n l = 0).
  { intros i l Hi. pose proof (sharesEntry_nonneg n l). destruct (Z.eq_dec (sharesEntry n l) 0) as [|Hne]; [assumption|exfalso].
    destruct (sharesEntry_inv n l) as [Ha En]; [lia|]. destruct (ci_clients c HI i l Hi Ha) as (y & Hy & _).
    apply lookup_lt_Some in Hy. unfold n in En. lia. }
  assert (Hopens : forall i l, ca_clients c !! i = Some l -> opens n l = 0).
  { intros i l Hi. pose proof (Hfresh i l Hi). pose proof (opens_nonneg n l). pose proof (opens_refers n l). lia. }
  assert (Hold : forall m y, ca_heap c !! m = Some y -> m <> n /\ (ca_heap c ++ [e0]) !! m = Some y).
  { intros m y Hy. pose proof (lookup_lt_Some _ _ _ Hy). split; [unfold n; lia|]. by rewrite lookup_app_l. }
  assert (Hnew : (ca_heap c ++ [e0]) !! n = Some e0) by (unfold n; by rewrite lookup_app_r, Nat.sub_diag by lia).
  constructor; cbn.
  - intros m y Hy. rewrite !total_snoc. apply lookup_snoc_Some in Hy as [[Hlt Hy]|[-> <-]].
    + destruct (ci_heap c HI m y Hy) as (H1 & H2 & H3). rewrite (sharesEntry_other m) by (cbn; unfold n; lia).
      assert (opens m l0 = 0) by (unfold opens; cbn; destruct st; try reflexivity; destruct (Nat.eqb_spec n m); [unfold n in *; lia|reflexivity]).
      fold n l0. split; [lia|split; [lia|exact H3]].
    + fold n l0. rewrite !total_zero by eauto. rewrite (sharesEntry_active n l0) by (unfold l0; by destruct Hst as [[-> _]|[-> _]]).
      split; [lia|]. split; [|auto]. unfold opens, l0. cbn. rewrite Nat.eqb_refl. by destruct Hst as [(-> & -> & _)|(-> & -> & _)].
  - intros i l Hi Ha. apply lookup_snoc_Some in Hi as [[_ Hi]|[_ <-]].
    + destruct (ci_clients c HI i l Hi Ha) as (y & Hy & Hok). exists y. split; [by apply Hold|].
      apply (ClientOK_mono c _ l y y Hok); cbn; auto. intros _ Hkl. left. rewrite lookup_insert_ne; congruence.
    + exists e0. split; [exact Hnew|]. constructor; cbn; auto.
      * split; [exact Hr|]. cbn. destruct Hst as [(_ & _ & ->)|(_ & _ & ->)]; auto.
      * by destruct Hst as [(-> & -> & _)|(-> & _)].
      * by destruct Hst as [(-> & _)|(-> & _)].
      * by destruct Hst as [(-> & _)|(-> & -> & _)].
      * intros _. left. apply lookup_insert_eq.
  - intros k m Hkm. destruct (decide (key = k)) as [<-|Hne].
    + rewrite lookup_insert_eq in Hkm. injection Hkm as <-. exists e0. split; [exact Hnew|]. split; [|split; [|split; [exact Ho|]]].
      * intros Hin. destruct (ci_retired c HI) as [_ H]. destruct (H _ Hin) as (y & Hy & _). by apply Hold in Hy as [].
      * intros Hc. split; [exact Hrt|]. split; [lia|]. exists r. split; [exact Hr|].
        destruct Hst as [(_ & _ & ->)|(_ & _ & ->)]; [by rewrite Hg|congruence].
      * intros Hn. destruct Hst as [(_ & _ & ->)|(_ & H & _)]; [|exact H]. by rewrite containsNul_key in Hn.
    + rewrite lookup_insert_ne in Hkm by exact Hne. destruct (ci_entries c HI k m Hkm) as (y & Hy & H). exists y. split; [by apply Hold|exact H].
  - intros k1 k2 m. destruct (decide (key = k1)) as [<-|H1], (decide (key = k2)) as [<-|H2];
      rewrite ?lookup_insert_eq, ?lookup_insert_ne by assumption; [auto| | |apply (ci_injective c HI)].
    + intros [= <-] Hk2. destruct (ci_entries c HI k2 _ Hk2) as (y & Hy & _). by apply Hold in Hy as [].
    + intros Hk1 [= <-]. destruct (ci_entries c HI k1 _ Hk1) as (y & Hy & _). by apply Hold in Hy as [].
  - destruct (ci_retired c HI) as [Hn H]. split; [exact Hn|]. intros m Hm. destruct (H m Hm) as (y & Hy & Hy').
    exists y. split; [by apply Hold|exact Hy'].
  - apply (ci_guards c HI).
Qed.

(** A caller moves on, and its entry with it. *)
Lemma total_move n i l st c :
  ca_clients c !! i = Some l -> active l = true -> active (l <| cl_stage := st |>) = true ->
  total (sharesEntry n) (<[i := l <| cl_stage := st |>]> (ca_clients c)) = total (sharesEntry n) (ca_clients c).
Proof.
  intros Hi H1 H2. rewrite (total_insert _ _ _ _ _ Hi). unfold sharesEntry. rewrite H1, H2. cbn. lia.
Qed.

Lemma Inv_stage c i l st :
  CacheInv c -> ca_clients c !! i = Some l -> (exists b, cl_stage l = Awaiting b) ->
  st = Leaving \/ (st = Holding /\ forall e, ca_heap c !! cl_entry l = Some e -> ce_ready e = false /\ ce_openErr e = None) ->
  CacheInv (moveClient i l st c).
Proof.
  intros HI Hi [b Hb] Hst. assert (Ha : active l = true) by (unfold active; by rewrite Hb).
  assert (Ha' : active (l <| cl_stage := st |>) = true) by (by destruct Hst as [->|[-> _]]).
  constructor; cbn; try apply HI.
  - intros n e He. rewrite (total_move n i l st c Hi Ha Ha'), (total_insert _ _ _ _ _ Hi).
    assert (opens n l = 0) by (unfold opens; by rewrite Hb).
    assert (opens n (l <| cl_stage := st |>) = 0) by (by destruct Hst as [->|[-> _]]).
    destruct (ci_heap c HI n e He) as (H1 & H2 & H3). split; [exact H1|]. split; [lia|exact H3].
  - intros j x Hj Hax. destruct (lookup_insert_cases _ _ _ _ _ _ Hi Hj) as [[-> ->]|[_ Hj2]].
    2: { destruct (ci_clients c HI j x Hj2 Hax) as (y & Hy & Hok). exists y. split; [exact Hy|]. apply (ClientOK_mono c _ x y y Hok); cbn; auto. }
    destruct (ci_clients c HI i l Hi Ha) as (e & He & [? ? ? ? ? ? ?]). exists e. split; [exact He|]. constructor; cbn; auto.
    + by destruct Hst as [->|[-> _]].
    + by destruct Hst as [->|[-> _]].
    + destruct Hst as [->|[-> H]]; [discriminate|]. auto.
Qed.

Lemma opening_once c i j l x :
  CacheInv c -> ca_clients c !! i = Some l -> cl_stage l = Opening ->
  ca_clients c !! j = Some x -> cl_entry x = cl_entry l -> active x = true -> j <> i -> cl_stage x <> Opening /\ cl_stage x <> Holding.
Proof.
  intros HI Hi Hl Hj Hn Ha Hne. assert (Hal : active l = true) by (unfold active; by rewrite Hl).
  destruct (ci_clients c HI i l Hi Hal) as (e & He & Hok). pose proof (co_opening _ _ _ Hok Hl) as Hr. split; intros Hx.
  - destruct (ci_heap c HI _ e He) as (_ & Ht & _). rewrite Hr in Ht.
    pose proof (total_two (opens (cl_entry l)) _ j i x l (opens_nonneg _) Hne Hj Hi) as H2.
    unfold opens in H2 at 1 2. rewrite Hx, Hl, Hn, Nat.eqb_refl in H2. lia.
  - destruct (ci_clients c HI j x Hj Ha) as (e' & He' & Hok'). rewrite Hn, He in He'. injection He' as <-.
    destruct (co_holding _ _ _ Hok' Hx). congruence.
Qed.

(** The open returns: the opener holds the lease, or is about to leave an
    entry nobody will find. *)
Lemma Inv_opened c i pub err c' : CacheInv c -> opened i pub err c = Some c' -> CacheInv c'.
Proof.
  intros HI Hop. unfold opened in Hop. destruct (ca_clients c !! i) as [l|] eqn:Hi; [|discriminate].
  destruct (cl_stage l) eqn:Hl; try discriminate. injection Hop as <-. set (n := cl_entry l).
  assert (Hal : active l = true) by (unfold active; by rewrite Hl).
  destruct (ci_clients c HI i l Hi Hal) as (e & He & Hok). pose proof (co_opening _ _ _ Hok Hl) as Hr.
  destruct (ci_heap c HI n e He) as (_ & Ht & Ho). rewrite Hr in Ht. specialize (Ho Hr).
  set (f := fun e => mkCacheEntry pub (ce_generation e) (ce_leases e) (if negb (is_nil err) then true else ce_retired e) false err).
  set (st := if negb (is_nil err) then Leaving else Holding).
  set (entries := if negb (is_nil err) then (if bool_decide (ca_entries c !! cl_key l = Some n) then delete (cl_key l) (ca_entries c) else ca_entries c) else ca_entries c).
  assert (Heq : forall c1, c1 = mkCache (alter f n (ca_heap c)) entries (ca_retired c) (ca_retiring c) (<[i := l <| cl_stage := st |>]> (ca_clients c)) (ca_guards c) ->
    CacheInv c1).
  2: { apply Heq. destruct err as [x|]; [|reflexivity].
       exact (f_equal (fun h => mkCache h entries (ca_retired c) (ca_retiring c) (<[i := l <| cl_stage := st |>]> (ca_clients c)) (ca_guards c))
         (alter_twice (fun e => e <| ce_retired := true |>)
            (fun e => e <| ce_publication := pub |> <| ce_openErr := Some x |> <| ce_ready := false |>) n (ca_heap c))). }
  intros c1 ->.
  assert (Ha' : active (l <| cl_stage := st |>) = true) by (by unfold st; destruct err).
  assert (Hop' : forall m, opens m (l <| cl_stage := st |>) = 0) by (intros; by unfold st, opens; cbn; destruct err).
  assert (Hent : forall k m, entries !! k = Some m -> ca_entries c !! k = Some m /\ (err <> None -> m <> n)).
  { intros k m Hk. unfold entries in Hk. destruct err as [x|]; cbn [negb is_nil] in Hk; [|split; [exact Hk|congruence]].
    assert (Hcase : ca_entries c !! cl_key l = Some n \/ n ∈ ca_retired c) by (destruct (co_placed _ _ _ Hok Ho) as [|[_ ?]]; auto).
    case_bool_decide as Hb.
    - apply lookup_delete_Some in Hk as [Hne Hk]. split; [exact Hk|]. intros _ ->. by destruct Hne; eapply (ci_injective c HI).
    - split; [exact Hk|]. intros _ ->. destruct Hcase as [|Hin]; [congruence|].
      destruct (ci_entries c HI k n Hk) as (_ & _ & Hnin & _). by apply Hnin. }
  assert (Hkeep : forall k m, m <> n -> ca_entries c !! k = Some m -> entries !! k = Some m).
  { intros k m Hne Hk. unfold entries. destruct err; cbn [negb is_nil]; [|exact Hk]. case_bool_decide; [|exact Hk].
    rewrite lookup_delete_ne; [exact Hk|congruence]. }
  constructor; cbn.
  - intros m x (y & Hy & ->)%alter_inv. rewrite (total_move m i l st c Hi Hal Ha'), (total_insert _ _ _ _ _ Hi), Hop'.
    destruct (ci_heap c HI m y Hy) as (H1 & H2 & H3). destruct (Nat.eqb_spec n m) as [<-|Hne]; cbn.
    + split; [exact H1|]. split; [|discriminate]. unfold opens in *. rewrite Hl in *. unfold n. rewrite Nat.eqb_refl. fold n. lia.
    + split; [exact H1|]. split; [|exact H3]. unfold opens at 2. rewrite Hl. destruct (Nat.eqb_spec (cl_entry l) m); [contradiction|lia].
  - intros j x Hj Hax. destruct (lookup_insert_cases _ _ _ _ _ _ Hi Hj) as [[-> ->]|[Hne Hj2]].
    + exists (f e). split; [change (alter f n (ca_heap c) !! n = Some (f e)); by rewrite (alter_lookup f n _ n e He), Nat.eqb_refl|]. destruct Hok as [? ? _ _ _ Hp Hu].
      constructor; cbn; auto; unfold st, entries; destruct err; auto; discriminate.
    + destruct (ci_clients c HI j x Hj2 Hax) as (y & Hy & Hok'). eexists. split; [by apply alter_lookup|].
      destruct (Nat.eqb_spec n (cl_entry x)) as [En|Hnn].
      * destruct (opening_once c i j l x HI Hi Hl Hj2 (eq_sym En) Hax Hne) as [Hx1 Hx2]. rewrite <- En in Hy. unfold n in Hy. rewrite He in Hy. injection Hy as <-.
        destruct Hok' as [? ? _ _ _ Hp Hu]. constructor; cbn; auto; try contradiction; unfold entries; destruct err; auto; discriminate.
      * apply (ClientOK_mono c _ x y y Hok'); cbn; auto.
  - intros k m Hk. apply Hent in Hk as [Hk Hmn]. destruct (ci_entries c HI k m Hk) as (y & Hy & H1 & H2 & H3 & H4).
    eexists. split; [by apply alter_lookup|]. split; [exact H1|]. destruct (Nat.eqb_spec n m) as [->|]; [|auto]. cbn.
    assert (err = None) as -> by (destruct err; [by destruct Hmn|reflexivity]). auto.
  - intros k1 k2 m [H1 _]%Hent [H2 _]%Hent. by eapply (ci_injective c HI).
  - destruct (ci_retired c HI) as [Hn H]. split; [exact Hn|]. intros m Hm. destruct (H m Hm) as (y & Hy & Hp & Hrt).
    eexists. split; [by apply alter_lookup|]. destruct (Nat.eqb n m); cbn; [|auto]. split; [exact Hp|]. by destruct err.
  - apply (ci_guards c HI).
Qed.

(** The last lease takes a historical entry, or a superseded one, along. *)
Lemma Inv_release c i l :
  CacheInv c -> ca_clients c !! i = Some l -> cl_stage l = Leaving \/ cl_stage l = Holding ->
  CacheInv (moveClient i l Gone (releaseLease (cl_key l) (cl_entry l) c)).
Proof.
  intros HI Hi Hl. set (n := cl_entry l). set (key := cl_key l).
  assert (Hal : active l = true) by (unfold active; by destruct Hl as [->| ->]).
  destruct (ci_clients c HI i l Hi Hal) as (e & He & Hok). pose proof (leased_client c l i e HI Hi Hal He) as Hpos.
  fold n in He. destruct (ci_heap c HI n e He) as (Hle & Hop & Hro).
  unfold releaseLease. rewrite He. replace (0 <? ce_leases e) with true by (symmetry; by apply Z.ltb_lt).
  set (last := (ce_leases (e <| ce_leases := ce_leases e - 1 |>) =? 0) && containsNul key).
  set (entries := if last && _ then delete key (ca_entries c) else ca_entries c).
  set (e' := if last then _ else _). set (retired := if ce_retired e' && _ then removeFirst n (ca_retired c) else ca_retired c).
  assert (He' : ce_leases e' = ce_leases e - 1 /\ ce_generation e' = ce_generation e /\ ce_ready e' = ce_ready e /\ ce_openErr e' = ce_openErr e
    /\ ce_retired e' = last || ce_retired e) by (unfold e'; by destruct last).
  destruct He' as (E1 & E2 & E3 & E4 & E5). clearbody e'.
  assert (Hl' : last = (ce_leases e - 1 =? 0) && containsNul key) by reflexivity. clearbody last.
  assert (Hlast : last = true -> ce_leases e = 1 /\ containsNul key = true).
  { intros H. rewrite H in Hl'. symmetry in Hl'. apply andb_true_iff in Hl' as [H1%Z.eqb_eq H2]. split; [lia|exact H2]. }
  assert (Hent : forall k m, entries !! k = Some m -> ca_entries c !! k = Some m /\ (m = n -> last = false)).
  { intros k m Hk. unfold entries in Hk. destruct last eqn:El; cbn in Hk; [|auto].
    case_bool_decide as Hb; [apply lookup_delete_Some in Hk as [Hne Hk]|]; (split; [exact Hk|]); intros ->; exfalso.
    - by destruct Hne; eapply (ci_injective c HI).
    - destruct (ci_entries c HI k n Hk) as (y & Hy & Hnr & _ & Ho & _). rewrite He in Hy. injection Hy as <-.
      by destruct (co_placed _ _ _ Hok Ho) as [|[_ ?]]. }
  assert (Hkeep : forall k m, m <> n \/ last = false -> ca_entries c !! k = Some m -> entries !! k = Some m).
  { intros k m Hor Hk. unfold entries. destruct last; cbn; [|exact Hk]. case_bool_decide; [|exact Hk].
    destruct Hor; [|discriminate]. rewrite lookup_delete_ne; [exact Hk|congruence]. }
  assert (Hret : forall m, m ∈ retired -> m ∈ ca_retired c /\ (m = n -> 0 < ce_leases e')).
  { intros m Hm. unfold retired in Hm. destruct (ci_retired c HI) as [Hn Hrt]. destruct (ce_retired e' && (ce_leases e' =? 0)) eqn:Eb.
    - split; [by eapply elem_removeFirst|]. intros ->. by apply removeFirst_NoDup in Hm.
    - split; [exact Hm|]. intros ->. destruct (Hrt n Hm) as (y & Hy & _ & Hy'). rewrite He in Hy. injection Hy as <-.
      rewrite E5, Hy', orb_true_r in Eb. cbn in Eb. apply Z.eqb_neq in Eb. lia. }
  assert (Hretk : forall m, m <> n \/ ce_leases e <> 1 -> m ∈ ca_retired c -> m ∈ retired).
  { intros m Hor Hm. unfold retired. destruct (ce_retired e' && (ce_leases e' =? 0)) eqn:Eb; [|exact Hm]. apply andb_true_iff in Eb as [_ Eb%Z.eqb_eq].
    rewrite E1 in Eb. destruct Hor as [Hne|]; [by apply removeFirst_other|lia]. }
  assert (Hlook : forall m y, ca_heap c !! m = Some y -> <[n := e']> (ca_heap c) !! m = Some (if Nat.eqb n m then e' else y)).
  { intros m y Hy. destruct (Nat.eqb_spec n m) as [<-|Hne]; [|by rewrite list_lookup_insert_ne].
    apply list_lookup_insert_eq. by eapply lookup_lt_Some. }
  constructor; cbn.
  - intros m x Hx. rewrite !(total_insert _ _ _ _ _ Hi).
    assert (Hz : opens m l = 0 /\ opens m (l <| cl_stage := Gone |>) = 0) by (unfold opens; by destruct Hl as [->| ->]).
    assert (Hg : sharesEntry m (l <| cl_stage := Gone |>) = 0) by reflexivity. rewrite Hg.
    destruct (decide (m = n)) as [->|Hne].
    + rewrite list_lookup_insert_eq in Hx by (by eapply lookup_lt_Some). injection Hx as <-.
      rewrite (sharesEntry_active n l Hal eq_refl), E1, E3, E4. split; [lia|]. split; [lia|exact Hro].
    + rewrite list_lookup_insert_ne in Hx by congruence. rewrite (sharesEntry_other m l) by (fold n; congruence).
      destruct (ci_heap c HI m x Hx) as (? & ? & ?). split; [lia|]. split; [lia|assumption].
  - intros j x Hj Hax. destruct (lookup_insert_cases _ _ _ _ _ _ Hi Hj) as [[-> ->]|[Hne Hj2]]; [discriminate|].
    destruct (ci_clients c HI j x Hj2 Hax) as (y & Hy & Hok'). eexists. split; [by apply Hlook|].
    assert (Hor : cl_entry x <> n \/ ce_leases e <> 1).
    { destruct (decide (cl_entry x = n)) as [En|]; [right|by left].
      pose proof (total_two (sharesEntry n) _ j i x l (sharesEntry_nonneg n) Hne Hj2 Hi) as H2.
      rewrite !sharesEntry_active in H2 by (assumption || reflexivity). lia. }
    assert (Hor' : cl_entry x <> n \/ last = false).
    { destruct Hor as [|H1]; [by left|right]. destruct last; [|reflexivity]. by destruct (Hlast eq_refl). }
    assert (Hy' : cl_entry x = n -> y = e) by (intros En; rewrite En, He in Hy; by injection Hy).
    apply (ClientOK_mono c _ x y _ Hok'); cbn; auto;
      destruct (Nat.eqb_spec n (cl_entry x)) as [En|]; auto; rewrite (Hy' (eq_sym En)); assumption.
  - intros k m Hk. apply Hent in Hk as [Hk Hmn]. destruct (ci_entries c HI k m Hk) as (y & Hy & H1 & H2 & H3 & H4).
    eexists. split; [by apply Hlook|]. split; [by intros [? _]%Hret|]. destruct (Nat.eqb_spec n m) as [<-|]; [|auto].
    specialize (Hmn eq_refl). rewrite He in Hy. injection Hy as <-. rewrite E1, E2, E3, E4, E5, Hmn. cbn. split; [|auto].
    intros Hc. destruct (H2 Hc) as (Hr & _ & Hk'). split; [exact Hr|]. split; [|exact Hk'].
    assert (k = key) as ->. { destruct (co_placed _ _ _ Hok H3) as [Hp|[_ Hp]]; [by eapply (ci_injective c HI)|by destruct H1]. }
    rewrite Hc, andb_true_r, Hmn in Hl'. symmetry in Hl'. apply Z.eqb_neq in Hl'. lia.
  - intros k1 k2 m [H1 _]%Hent [H2 _]%Hent. by eapply (ci_injective c HI).
  - destruct (ci_retired c HI) as [Hn Hrt]. split; [unfold retired; destruct (ce_retired e' && _); [by apply removeFirst_NoDup|exact Hn]|].
    intros m [Hm Hmn]%Hret. destruct (Hrt m Hm) as (y & Hy & Hp & Hr). eexists. split; [by apply Hlook|].
    destruct (Nat.eqb_spec n m) as [<-|]; [|auto]. rewrite He in Hy. injection Hy as <-. rewrite E5, Hr, orb_true_r. auto.
  - apply (ci_guards c HI).
Qed.

(** *** Pins *)
Lemma pinned_client c i l e :
  CacheInv c -> ca_clients c !! i = Some l -> active l = true -> ca_heap c !! cl_entry l = Some e -> ce_openErr e = None ->
  Pinned (cl_repository l) (cl_generation l) c = true.
Proof.
  intros HI Hi Ha He Ho. destruct (ci_clients c HI i l Hi Ha) as (y & Hy & Hok). rewrite He in Hy. injection Hy as <-.
  assert (Hp : entryPins (cl_generation l) (Some e) = true).
  { cbn. rewrite (co_generation _ _ _ Hok), String.eqb_refl. pose proof (leased_client c l i e HI Hi Ha He).
    destruct (Z.eqb_spec (ce_leases e) 0); [lia|reflexivity]. }
  unfold Pinned, entryAt. destruct (co_placed _ _ _ Hok Ho) as [Hk|[_ Hin]].
  - destruct (co_keyed _ _ _ Hok) as [_ [E|E]]; rewrite E in Hk; rewrite Hk, He, Hp; [reflexivity|by rewrite orb_true_r].
  - apply orb_true_iff. right. apply existsb_exists. exists (cl_entry l). split; [by apply list_elem_of_In|]. by rewrite He.
Qed.

Lemma Inv_BeginRetire c r g : CacheInv c -> containsNul r = false -> CacheInv (BeginRetire r g c).
Proof.
  intros HI Hr. unfold BeginRetire. destruct (Pinned r g c) eqn:Ep; [exact HI|]. case_bool_decide as Hb; [exact HI|].
  set (key := historicalKey r g) in *. constructor; cbn; try apply HI.
  - intros i l Hi Ha. destruct (ci_clients c HI i l Hi Ha) as (e & He & Hok). exists e. split; [exact He|].
    apply (ClientOK_mono c _ l e e Hok); cbn; auto. intros Ho Hn [E%elem_of_singleton|]%elem_of_union; [|contradiction].
    destruct (historicalKey_inj _ _ _ _ (proj1 (co_keyed _ _ _ Hok)) Hr E) as [<- <-].
    by rewrite (pinned_client c i l e) in Ep.
  - intros i j k Hi. assert (Hk : k ∈ {[key]} ∪ ca_retiring c /\ (i = length (ca_guards c) -> k = key)).
    { apply lookup_snoc_Some in Hi as [[Hlt Hi]|[-> [= <-]]]; [|set_solver].
      split; [apply elem_of_union; right; by apply (ci_guards c HI i i k)|lia]. }
    split; [apply Hk|]. intros Hj. apply lookup_snoc_Some in Hi as [[Hlt Hi]|[-> [= <-]]]; apply lookup_snoc_Some in Hj as [[Hlt' Hj]|[-> Ej]].
    + by apply (ci_guards c HI i j k).
    + injection Ej as Ej. destruct (ci_guards c HI i i k Hi) as [H _]. by rewrite <- Ej in H.
    + by destruct (ci_guards c HI j j key Hj).
    + reflexivity.
Qed.

Lemma Inv_endRetire c j c' : CacheInv c -> endRetire j c = Some c' -> CacheInv c'.
Proof.
  intros HI H. unfold endRetire in H. destruct (ca_guards c !! j) as [[key|]|] eqn:Hj; [|injection H as <-; exact HI|discriminate].
  injection H as <-. constructor; cbn; try apply HI.
  - intros i l Hi Ha. destruct (ci_clients c HI i l Hi Ha) as (e & He & Hok). exists e. split; [exact He|].
    apply (ClientOK_mono c _ l e e Hok); cbn; auto. intros _ Hn [? _]%elem_of_difference. contradiction.
  - intros i k x Hi. destruct (lookup_insert_cases _ _ _ _ _ _ Hj Hi) as [[_ E]|[Hne Hi2]]; [discriminate|].
    destruct (ci_guards c HI i j x Hi2) as [Hin Hu]. split.
    + apply elem_of_difference. split; [exact Hin|]. intros ->%elem_of_singleton. by apply Hne, Hu.
    + intros Hk. destruct (lookup_insert_cases _ _ _ _ _ _ Hj Hk) as [[_ E]|[_ Hk2]]; [discriminate|]. by apply (ci_guards c HI i k x).
Qed.

(** *** Steps *)
Lemma usable_fresh c r g :
  CacheInv c -> containsNul r = false -> usable c (historicalKey r g) g = None -> ca_entries c !! historicalKey r g = None.
Proof.
  intros HI Hr Hu. destruct (ca_entries c !! historicalKey r g) as [n|] eqn:Ek; [exfalso|reflexivity].
  destruct (ci_entries c HI _ n Ek) as (e & He & _ & H & _). destruct (H (containsNul_key r g)) as (Hret & _ & r' & Hr' & E).
  destruct (historicalKey_inj _ _ _ _ Hr Hr' E) as [_ Hg].
  unfold usable in Hu. rewrite Ek, He, Hret, <- Hg, String.eqb_refl in Hu. discriminate.
Qed.

Lemma Inv_AcquireGeneration c r g : CacheInv c -> containsNul r = false -> CacheInv (AcquireGeneration r g c).
Proof.
  intros HI Hr. unfold AcquireGeneration. case_bool_decide as Hb; [exact HI|].
  destruct (usable c (historicalKey r g) g) as [[n e]|] eqn:Hu; [by eapply Inv_share; eauto|].
  apply Inv_install; auto. by apply usable_fresh.
Qed.

Lemma supersede_fields m c :
  ca_entries (supersede m c) = ca_entries c /\ ca_retiring (supersede m c) = ca_retiring c /\
  length (ca_heap (supersede m c)) = length (ca_heap c).
Proof.
  unfold supersede. destruct (ca_heap _ !! m) as [e|]; [destruct (negb _)|]; cbn; by rewrite length_alter.
Qed.

Lemma Inv_acquirePublication c r p : CacheInv c -> containsNul r = false -> CacheInv (acquirePublication r p c).
Proof.
  intros HI Hr. unfold acquirePublication. case_bool_decide as Hb; [exact HI|].
  destruct (usable c r (GenerationDigest p)) as [[n e]|] eqn:Hu; [eapply Inv_share; eauto|].
  destruct (ca_entries c !! r) as [m|] eqn:Em; [|apply Inv_install; auto].
  destruct (supersede_fields m c) as (E1 & E2 & E3). pose proof (Inv_supersede c r m HI Hr Em) as HI'.
  pose proof (Inv_install _ r (GenerationDigest p) r (mkCacheEntry (Some p) (GenerationDigest p) 1 false false None) Holding HI' Hr) as H.
  cbn in H. rewrite E1, E2, E3 in H. specialize (H Hb (lookup_delete_eq _ _) eq_refl eq_refl eq_refl eq_refl ltac:(auto)).
  refine (eq_ind _ CacheInv H _ _). destruct (supersede m c) as [h es rt rg cl gd]. cbn in E1, E3 |- *. subst es.
  exact (f_equal (fun es => mkCache (h ++ [mkCacheEntry (Some p) (GenerationDigest p) 1 false false None]) es rt rg
    (cl ++ [mkClient r (GenerationDigest p) r (length (ca_heap c)) Holding]) gd) (insert_delete_eq (ca_entries c) r _)).
Qed.

Lemma cache_Inv_step e c c' : CacheInv c -> named e = true -> step e c = Some c' -> CacheInv c'.
Proof.
  intros HI Hn H. destruct e as [r p|r g|i pub err|i|i|i|r g|j]; cbn in H, Hn; try apply negb_true_iff in Hn.
  - injection H as <-. by apply Inv_acquirePublication.
  - injection H as <-. by apply Inv_AcquireGeneration.
  - by eapply Inv_opened.
  - unfold readied in H. destruct (ca_clients c !! i) as [l|] eqn:Hi; [|discriminate]. destruct (cl_stage l) eqn:Hl; try discriminate.
    destruct (ca_heap c !! cl_entry l) as [e|] eqn:He; [|discriminate]. destruct (ready && ce_ready e) eqn:Er; [discriminate|].
    injection H as <-. apply Inv_stage; eauto. destruct (ce_openErr e) as [x|] eqn:Eo; [by left|].
    destruct (ce_publication e) as [p|] eqn:Epub; [right; split; [reflexivity|]|by left].
    intros e2 He2. rewrite He in He2. injection He2 as <-. split; [|exact Eo].
    destruct ready; [exact Er|]. destruct (ci_clients c HI i l Hi) as (y & Hy & Hok); [unfold active; by rewrite Hl|].
    rewrite He in Hy. injection Hy as <-. by apply (co_waiting _ _ _ Hok).
  - unfold canceled in H. destruct (ca_clients c !! i) as [l|] eqn:Hi; [|discriminate]. destruct (cl_stage l) as [|[|]| | |] eqn:Hl; try discriminate.
    injection H as <-. apply Inv_stage; eauto.
  - unfold Release in H. destruct (ca_clients c !! i) as [l|] eqn:Hi; [|discriminate].
    destruct (cl_stage l) eqn:Hl; try discriminate; injection H as <-; auto using Inv_release.
  - injection H as <-. by apply Inv_BeginRetire.
  - by eapply Inv_endRetire.
Qed.

Lemma Inv_newCache : CacheInv newCache.
Proof.
  constructor; cbn; intros; try discriminate.
  split; [constructor|]. inversion 1.
Qed.

Lemma cache_Inv_steps l c c' : CacheInv c -> forallb named l = true -> steps l c = Some c' -> CacheInv c'.
Proof.
  revert c. induction l as [|e l IH]; intros c HI Hn H; cbn in *; [by injection H as <-|].
  apply andb_true_iff in Hn as [Hn Hns]. destruct (step e c) as [c1|] eqn:E; [|discriminate].
  apply (IH c1); [by eapply cache_Inv_step|exact Hns|exact H].
Qed.

Lemma cache_reachable l c : forallb named l = true -> steps l newCache = Some c -> CacheInv c.
Proof. apply cache_Inv_steps, Inv_newCache. Qed.

(** ** Theorems *)

(** A caller that opens a generation or holds a lease of it. *)
Definition leases (l : client) (repository generation : string) : Prop :=
  cl_repository l = repository /\ cl_generation l = generation /\ (cl_stage l = Opening \/ cl_stage l = Holding).

Lemma leases_open c i l r g :
  CacheInv c -> ca_clients c !! i = Some l -> leases l r g ->
  exists e, active l = true /\ ca_heap c !! cl_entry l = Some e /\ ClientOK c l e /\ ce_openErr e = None.
Proof.
  intros HI Hi (_ & _ & Hl). assert (Ha : active l = true) by (unfold active; by destruct Hl as [->| ->]).
  destruct (ci_clients c HI i l Hi Ha) as (e & He & Hok). exists e. repeat (split; [assumption|]).
  destruct Hl as [Hl|Hl]; [|by apply (co_holding _ _ _ Hok)].
  destruct (ci_heap c HI _ e He) as (_ & _ & H). by apply H, (co_opening _ _ _ Hok).
Qed.

(** C31: Whatever callers, sweeps and failed opens do in between, a generation
    that a caller is opening or holds a lease of is pinned, and no sweep gets
    a guard to retire it. *)
Theorem leased_generation_is_pinned l c i x repository generation :
  forallb named l = true -> steps l newCache = Some c ->
  ca_clients c !! i = Some x -> leases x repository generation ->
  Pinned repository generation c = true /\ BeginRetire repository generation c = c.
Proof.
  intros Hn Hs Hi Hx. pose proof (cache_reachable l c Hn Hs) as HI.
  destruct (leases_open c i x _ _ HI Hi Hx) as (e & Ha & He & _ & Ho). destruct Hx as (<- & <- & _).
  pose proof (pinned_client c i x e HI Hi Ha He Ho) as Hp. split; [exact Hp|]. unfold BeginRetire. by rewrite Hp.
Qed.

(** While a sweep holds the guard of a generation it is the only one, no
    caller is opening or holds a lease of that generation, and none can get
    one, from the current root or by its digest. *)
Theorem retire_excludes_leases l c j repository generation :
  forallb named l = true -> steps l newCache = Some c -> containsNul repository = false ->
  ca_guards c !! j = Some (Some (historicalKey repository generation)) ->
  (forall k, ca_guards c !! k = Some (Some (historicalKey repository generation)) -> k = j) /\
  (forall i x, ca_clients c !! i = Some x -> ~ leases x repository generation) /\
  AcquireGeneration repository generation c = c /\
  acquirePublication repository (mkPublication generation) c = c.
Proof.
  intros Hn Hs Hr Hj. pose proof (cache_reachable l c Hn Hs) as HI. destruct (ci_guards c HI j j _ Hj) as [Hin _]. split; [|split].
  - intros k Hk. by apply (ci_guards c HI k j (historicalKey repository generation)).
  - intros i x Hi Hx. destruct (leases_open c i x _ _ HI Hi Hx) as (e & _ & _ & Hok & Ho). destruct Hx as (<- & <- & _).
    by apply (co_unretired _ _ _ Hok).
  - unfold AcquireGeneration, acquirePublication. cbn. by rewrite !bool_decide_true by exact Hin.
Qed.

(** The cache does not leak: every lease count is the number of callers in
    flight on the entry, superseded and historical entries are kept only while
    someone is, and once all leases are released nothing is left but one
    current entry per repository. *)
Theorem cache_does_not_leak l c :
  forallb named l = true -> steps l newCache = Some c ->
  (forall n e, ca_heap c !! n = Some e -> ce_leases e = total (sharesEntry n) (ca_clients c)) /\
  (forall n, n ∈ ca_retired c \/ (exists k, containsNul k = true /\ ca_entries c !! k = Some n) ->
    exists i x, ca_clients c !! i = Some x /\ active x = true /\ cl_entry x = n) /\
  ((forall i x, ca_clients c !! i = Some x -> active x = false) ->
    ca_retired c = [] /\ forall k n, ca_entries c !! k = Some n -> containsNul k = false).
Proof.
  intros Hn Hs. pose proof (cache_reachable l c Hn Hs) as HI.
  assert (Huse : forall n, n ∈ ca_retired c \/ (exists k, containsNul k = true /\ ca_entries c !! k = Some n) ->
    exists i x, ca_clients c !! i = Some x /\ active x = true /\ cl_entry x = n).
  { intros n Hor. assert (He : exists e, ca_heap c !! n = Some e /\ 0 < ce_leases e).
    { destruct Hor as [Hin|(k & Hk & Hkn)].
      - destruct (ci_retired c HI) as [_ H]. destruct (H n Hin) as (e & He & Hp & _). eauto.
      - destruct (ci_entries c HI k n Hkn) as (e & He & _ & H & _). destruct (H Hk) as (_ & Hp & _). eauto. }
    destruct He as (e & He & Hp). destruct (ci_heap c HI n e He) as [Hl _]. rewrite Hl in Hp.
    destruct (total_pos _ _ Hp) as (i & x & Hi & [Ha Hx]%sharesEntry_inv). eauto. }
  split; [intros n e He; apply (ci_heap c HI n e He)|]. split; [exact Huse|]. intros Hgone. split.
  - destruct (ca_retired c) as [|n r] eqn:E; [reflexivity|]. destruct (Huse n) as (i & x & Hi & Ha & _); [left; by left|].
    by rewrite (Hgone i x Hi) in Ha.
  - intros k n Hk. destruct (containsNul k) eqn:E; [|reflexivity]. destruct (Huse n) as (i & x & Hi & Ha & _); [eauto|].
    by rewrite (Hgone i x Hi) in Ha.
Qed.

(** A current root that is superseded while leased, a historical generation
    shared by two callers, one of which is canceled, an open that fails, and a
    sweep of a generation nobody uses. *)
Definition cacheRun : list event :=
  [EAcquire "r" (mkPublication "g1"); EAcquireGeneration "r" "g0"; EAcquireGeneration "r" "g0"; EAcquire "r" (mkPublication "g2");
   EBeginRetire "r" "g9"; ECancel 2; EOpened 1 (Some (mkPublication "g0")) None; ERelease 2;
   EAcquireGeneration "r" "g9"; EAcquireGeneration "r" "g3"; EOpened 4 None (Some "not found"); ERelease 4].

Lemma leased_generation_is_pinned_witness :
  exists c, steps cacheRun newCache = Some c /\ ca_retired c = [0%nat] /\
    (Pinned "r" "g1" c = true /\ BeginRetire "r" "g1" c = c).
Proof.
  eexists. split; [vm_compute; reflexivity|]. split; [reflexivity|].
  refine (leased_generation_is_pinned cacheRun _ 0 (mkClient "r" "g1" "r" 0 Holding) "r" "g1" eq_refl _ _ _);
    [vm_compute; reflexivity|reflexivity|]. repeat split. by right.
Defined.

Lemma retire_excludes_leases_witness :
  exists c, steps cacheRun newCache = Some c /\ AcquireGeneration "r" "g9" c = c /\
    acquirePublication "r" (mkPublication "g9") c = c.
Proof.
  eexists. split; [vm_compute; reflexivity|].
  refine (proj2 (proj2 (retire_excludes_leases cacheRun _ 0 "r" "g9" eq_refl _ eq_refl _))); [vm_compute; reflexivity|reflexivity].
Defined.

Lemma cache_does_not_leak_witness :
  exists c, steps (cacheRun ++ [ERelease 0; ERelease 1; ERelease 3]) newCache = Some c /\ ca_retired c = [].
Proof.
  eexists. split; [vm_compute; reflexivity|].
  refine (proj1 (proj2 (proj2 (cache_does_not_leak (cacheRun ++ [ERelease 0; ERelease 1; ERelease 3]) _ eq_refl _)) _));
    [vm_compute; reflexivity|].
  intros [|[|[|[|[|i]]]]] x [= <-]; reflexivity.
Defined.
