(* ===== verification/Positions.v ===== *)
(** * Source positions and their encodings

    Model of [internal/codenav/encoding.go] and of the encodings of
    [types.go]: finding a line of a source, converting a character offset
    between UTF-8, UTF-16 and UTF-32 code units, and the cache of sources one
    query reads, with its budget.  Bytes and runes are [Z]; [int32] additions
    are wrapped.  [utf8.DecodeRune] and [utf8.Valid] are translated from their
    definition in the Unicode standard, which the language's library follows.
    Reading a source (Git, or a sealed copy) is an argument. *)
From stdpp Require Import strings.
From S2P Require Import Prelude.

(** ** UTF-8 *)
Definition RuneError : Z := 0xFFFD.

Definition continuation (b : Z) : bool := (0x80 <=? b) && (b <=? 0xBF).

(** The second byte of a well-formed sequence is bounded by the first, which
    excludes overlong forms, surrogates and values above 0x10FFFF. *)
Definition secondOK (b0 b1 : Z) : bool :=
  (if b0 =? 0xE0 then 0xA0 <=? b1 else if b0 =? 0xF0 then 0x90 <=? b1 else 0x80 <=? b1) &&
  (if b0 =? 0xED then b1 <=? 0x9F else if b0 =? 0xF4 then b1 <=? 0x8F else b1 <=? 0xBF).

Definition low6 (b : Z) : Z := Z.land b 0x3F.

(** [utf8.DecodeRune]: the first rune and its width. *)
Definition decodeRune (p : list Z) : Z * Z :=
  match p with
  | [] => (RuneError, 0)
  | b0 :: q =>
      if b0 <? 0x80 then (b0, 1) else
      if b0 <? 0xC2 then (RuneError, 1) else
      if b0 <? 0xE0 then
        match q with
        | b1 :: _ => if secondOK b0 b1 then (Z.lor (Z.shiftl (Z.land b0 0x1F) 6) (low6 b1), 2) else (RuneError, 1)
        | _ => (RuneError, 1)
        end else
      if b0 <? 0xF0 then
        match q with
        | b1 :: b2 :: _ =>
            if secondOK b0 b1 && continuation b2
            then (Z.lor (Z.lor (Z.shiftl (Z.land b0 0xF) 12) (Z.shiftl (low6 b1) 6)) (low6 b2), 3) else (RuneError, 1)
        | _ => (RuneError, 1)
        end else
      if b0 <? 0xF5 then
        match q with
        | b1 :: b2 :: b3 :: _ =>
            if secondOK b0 b1 && continuation b2 && continuation b3
            then (Z.lor (Z.lor (Z.lor (Z.shiftl (Z.land b0 0x7) 18) (Z.shiftl (low6 b1) 12)) (Z.shiftl (low6 b2) 6)) (low6 b3), 4)
            else (RuneError, 1)
        | _ => (RuneError, 1)
        end
      else (RuneError, 1)
  end.

(** The runes of a byte sequence with their widths, one decoding after the
    other; an error takes one byte, so the length is enough fuel. *)
Fixpoint decodeFrom (fuel : nat) (p : list Z) : list (Z * Z) :=
  match fuel with
  | O => []
  | S fuel' => match p with [] => [] | _ => let d := decodeRune p in d :: decodeFrom fuel' (drop (Z.to_nat d.2) p) end
  end.
Definition decode (p : list Z) : list (Z * Z) := decodeFrom (length p) p.

(** [utf8.Valid]: no rune is the one-byte error. *)
Definition Valid (p : list Z) : bool := forallb (fun d : Z * Z => negb ((d.1 =? RuneError) && (d.2 =? 1))) (decode p).

(** ** Encodings *)
Inductive PositionEncoding := EncodingUTF8 | EncodingUTF16 | EncodingUTF32 | EncodingOther (name : string).

Inductive navError := ErrInvalidInput | ErrUnsupportedEncoding | ErrQuerySourceBudget | ErrRead (e : string).

Definition i32 (z : Z) : Z := (z + 2 ^ 31) mod 2 ^ 32 - 2 ^ 31.

Definition runeUnits (r utf8Size : Z) (encoding : PositionEncoding) : Z :=
  match encoding with
  | EncodingUTF8 => i32 utf8Size
  | EncodingUTF16 => if 0xFFFF <? r then 2 else 1
  | EncodingUTF32 => 1
  | EncodingOther _ => 0
  end.

(** The loop of [convertCharacter]. *)
Fixpoint convertLoop (fuel : nat) (line : list Z) (character : Z) (from to : PositionEncoding) (fromUnits toUnits : Z) : res navError Z :=
  match line with
  | [] => if fromUnits =? character then Ok toUnits else Err ErrInvalidInput
  | _ =>
      match fuel with
      | O => Err ErrInvalidInput
      | S fuel' =>
          if fromUnits =? character then Ok toUnits else
          let '(r, size) := decodeRune line in
          let fromUnits := i32 (fromUnits + runeUnits r size from) in
          let toUnits := i32 (toUnits + runeUnits r size to) in
          if character <? fromUnits then Err ErrInvalidInput
          else convertLoop fuel' (drop (Z.to_nat size) line) character from to fromUnits toUnits
      end
  end.

Definition convertCharacter (line : list Z) (character : Z) (from to : PositionEncoding) : res navError Z :=
  if character <? 0 then Err ErrInvalidInput else
  if negb (Valid line) then Err ErrUnsupportedEncoding else
  convertLoop (length line) line character from to 0 0.

(** ** Lines *)
Definition newline : Z := 10.

(** The suffix of a source from a byte on stands for the index of that byte:
    [None] is the index past a source that has no further line. *)
Fixpoint skipLine (source : list Z) : option (list Z) :=
  match source with
  | [] => None
  | b :: rest => if b =? newline then Some rest else skipLine rest
  end.
Fixpoint skipLines (n : nat) (source : list Z) : option (list Z) :=
  match n with
  | O => Some source
  | S n' => match skipLine source with Some rest => skipLines n' rest | None => None end
  end.
Fixpoint lineEnd (source : list Z) : list Z :=
  match source with
  | [] => []
  | b :: rest => if b =? newline then [] else b :: lineEnd rest
  end.

Definition sourceLine (source : list Z) (line : Z) : res navError (list Z) :=
  if line <? 0 then Err ErrInvalidInput else
  match skipLines (Z.to_nat line) source with
  | Some rest => Ok (lineEnd rest)
  | None => Err ErrInvalidInput
  end.

(** ** The converter of a query *)
Record Position := mkPosition { Line : Z; Character : Z }.
Record Range := mkRange { Start : Position; End_ : Position }.

Record rangeConverter := mkConverter {
  rc_target : PositionEncoding;
  rc_sources : gmap string (list Z);
  rc_sourceBytes : Z;
  rc_maxSourceBytes : Z;
  rc_maxQuerySourceBytes : Z
}.
#[export] Instance eta_rangeConverter : Eta rangeConverter := fun c =>
  mkConverter (rc_target c) (rc_sources c) (rc_sourceBytes c) (rc_maxSourceBytes c) (rc_maxQuerySourceBytes c).

Definition newRangeConverter (target : PositionEncoding) (maxSourceBytes maxQuerySourceBytes : Z) : rangeConverter :=
  mkConverter target ∅ 0 maxSourceBytes maxQuerySourceBytes.

(** What reading a path with a size limit returns now: the bytes and the
    capacity of their buffer. *)
Definition reader := string -> Z -> res navError (list Z * Z).

Definition convM A := rangeConverter -> res navError A * rangeConverter.
Definition andThen {A B} (m : convM A) (k : A -> convM B) : convM B :=
  fun c => match m c with (Ok a, c') => k a c' | (Err e, c') => (Err e, c') end.
Definition pure {A} (r : res navError A) : convM A := fun c => (r, c).
Notation "'let*' x := m 'in' k" := (andThen m (fun x => k)) (at level 10, x name, m at level 100, k at level 200).

Definition source (read : reader) (filePath : string) : convM (list Z) := fun c =>
  match rc_sources c !! filePath with
  | Some source => (Ok source, c)
  | None =>
      match read filePath (rc_maxSourceBytes c) with
      | Err e => (Err e, c)
      | Ok (source, allocated) =>
          if negb (Valid source) then (Err ErrUnsupportedEncoding, c) else
          if i64 (rc_maxQuerySourceBytes c - rc_sourceBytes c) <? allocated then (Err ErrQuerySourceBudget, c) else
          (Ok source, c <| rc_sourceBytes := i64 (rc_sourceBytes c + allocated) |> <| rc_sources ::= insert filePath source |>)
      end
  end.

Definition position (read : reader) (filePath : string) (line character : Z) (from to : PositionEncoding) : convM Z :=
  let* data := source read filePath in
  let* lineBytes := pure (sourceLine data line) in
  pure (convertCharacter lineBytes character from to).

Definition codeRange (read : reader) (filePath : string) (r : Range) (from : PositionEncoding) : convM Range := fun c =>
  (let* data := source read filePath in
   let* startLine := pure (sourceLine data (Line (Start r))) in
   let* endLine := pure (sourceLine data (Line (End_ r))) in
   let* start := pure (convertCharacter startLine (Character (Start r)) from (rc_target c)) in
   let* finish := pure (convertCharacter endLine (Character (End_ r)) from (rc_target c)) in
   pure (Ok (mkRange (mkPosition (Line (Start r)) start) (mkPosition (Line (End_ r)) finish)))) c.

(** ** Texts

    The reference: a text is a list of Unicode scalar values with its UTF-8
    and UTF-16 encodings. *)
Definition scalar (r : Z) : Prop := 0 <= r < 0xD800 \/ 0xE000 <= r < 0x110000.

Definition encodeRune (r : Z) : list Z :=
  if r <? 0x80 then [r]
  else if r <? 0x800 then [0xC0 + r / 64; 0x80 + r mod 64]
  else if r <? 0x10000 then [0xE0 + r / 4096; 0x80 + r / 64 mod 64; 0x80 + r mod 64]
  else [0xF0 + r / 262144; 0x80 + r / 4096 mod 64; 0x80 + r / 64 mod 64; 0x80 + r mod 64].
Definition encode16 (r : Z) : list Z :=
  if r <? 0x10000 then [r] else [0xD800 + (r - 0x10000) / 1024; 0xDC00 + (r - 0x10000) mod 1024].
Definition encodeText (t : list Z) : list Z := concat (encodeRune <$> t).

(** The offset of the end of a text in code units of an encoding. *)
Definition offset (encoding : PositionEncoding) (t : list Z) : Z :=
  match encoding with
  | EncodingUTF8 => Z.of_nat (length (encodeText t))
  | EncodingUTF16 => Z.of_nat (length (concat (encode16 <$> t)))
  | EncodingUTF32 => Z.of_nat (length t)
  | EncodingOther _ => 0
  end.
Definition known (encoding : PositionEncoding) : bool := match encoding with EncodingOther _ => false | _ => true end.

Definition isByte (b : Z) : Prop := 0 <= b < 256.

(** *** Bits *)
Lemma lor_shift a b n : 0 <= n -> 0 <= b < 2 ^ n -> Z.lor (Z.shiftl a n) b = a * 2 ^ n + b.
Proof.
  intros Hn Hb. rewrite <- Z.shiftl_mul_pow2 by exact Hn.
  assert (Z.land (Z.shiftl a n) b = 0) as H.
  { apply Z.bits_inj'. intros i Hi. rewrite Z.land_spec, Z.bits_0. destruct (Z.ltb_spec i n).
    - by rewrite Z.shiftl_spec_low.
    - rewrite <- (Z.mod_small b (2 ^ n)) by exact Hb.
      by rewrite Z.mod_pow2_bits_high, andb_false_r by lia. }
  pose proof (Z.add_lor_land (Z.shiftl a n) b). lia.
Qed.

Lemma land_mask a n : 0 <= n -> Z.land a (2 ^ n - 1) = a mod 2 ^ n.
Proof. intros Hn. rewrite <- Z.land_ones by exact Hn. f_equal. rewrite Z.ones_equiv. lia. Qed.

Lemma low6_mod b : low6 b = b mod 64.
Proof. apply (land_mask b 6). lia. Qed.

Lemma join6 a b : 0 <= b < 64 -> Z.lor (Z.shiftl a 6) b = a * 64 + b.
Proof. apply (lor_shift a b 6). lia. Qed.

Lemma join12 a b c : 0 <= b < 64 -> 0 <= c < 64 ->
  Z.lor (Z.lor (Z.shiftl a 12) (Z.shiftl b 6)) c = a * 4096 + b * 64 + c.
Proof.
  intros Hb Hc. rewrite <- Z.lor_assoc, join6 by exact Hc. rewrite (lor_shift a (b * 64 + c) 12) by lia. lia.
Qed.

Lemma join18 a b c d : 0 <= b < 64 -> 0 <= c < 64 -> 0 <= d < 64 ->
  Z.lor (Z.lor (Z.lor (Z.shiftl a 18) (Z.shiftl b 12)) (Z.shiftl c 6)) d = a * 262144 + b * 4096 + c * 64 + d.
Proof.
  intros Hb Hc Hd. rewrite <- !Z.lor_assoc. rewrite (Z.lor_assoc (Z.shiftl b 12)), join12 by assumption.
  rewrite (lor_shift a (b * 4096 + c * 64 + d) 18) by lia. lia.
Qed.

Lemma rune2 b0 b1 : Z.lor (Z.shiftl (Z.land b0 0x1F) 6) (low6 b1) = b0 mod 32 * 64 + b1 mod 64.
Proof. rewrite low6_mod, join6 by (apply Z.mod_pos_bound; lia). by rewrite (land_mask b0 5 ltac:(lia) : Z.land b0 31 = _). Qed.
Lemma rune3 b0 b1 b2 :
  Z.lor (Z.lor (Z.shiftl (Z.land b0 0xF) 12) (Z.shiftl (low6 b1) 6)) (low6 b2) = b0 mod 16 * 4096 + b1 mod 64 * 64 + b2 mod 64.
Proof. rewrite !low6_mod, join12 by (apply Z.mod_pos_bound; lia). by rewrite (land_mask b0 4 ltac:(lia) : Z.land b0 15 = _). Qed.
Lemma rune4 b0 b1 b2 b3 :
  Z.lor (Z.lor (Z.lor (Z.shiftl (Z.land b0 0x7) 18) (Z.shiftl (low6 b1) 12)) (Z.shiftl (low6 b2) 6)) (low6 b3) =
  b0 mod 8 * 262144 + b1 mod 64 * 4096 + b2 mod 64 * 64 + b3 mod 64.
Proof. rewrite !low6_mod, join18 by (apply Z.mod_pos_bound; lia). by rewrite (land_mask b0 3 ltac:(lia) : Z.land b0 7 = _). Qed.

Lemma secondOK_true b0 b1 : secondOK b0 b1 = true <->
  0x80 <= b1 <= 0xBF /\ (b0 = 0xE0 -> 0xA0 <= b1) /\ (b0 = 0xF0 -> 0x90 <= b1) /\ (b0 = 0xED -> b1 <= 0x9F) /\ (b0 = 0xF4 -> b1 <= 0x8F).
Proof.
  unfold secondOK. rewrite andb_true_iff.
  destruct (Z.eqb_spec b0 0xE0), (Z.eqb_spec b0 0xF0), (Z.eqb_spec b0 0xED), (Z.eqb_spec b0 0xF4); rewrite !Z.leb_le; lia.
Qed.

Lemma continuation_true b : continuation b = true <-> 0x80 <= b <= 0xBF.
Proof. unfold continuation. rewrite andb_true_iff, !Z.leb_le. lia. Qed.

Ltac Zify.zify_post_hook ::= Z.to_euclidean_division_equations.

(** *** One rune *)
Lemma divs r : r / 262144 = r / 64 / 64 / 64 /\ r / 4096 = r / 64 / 64.
Proof. by rewrite !Z.div_div by lia. Qed.

Lemma decode_encodeRune r rest :
  scalar r -> decodeRune (encodeRune r ++ rest) = (r, Z.of_nat (length (encodeRune r))).
Proof.
  intros Hr. unfold encodeRune.
  destruct (Z.ltb_spec r 0x80); [cbn; by rewrite (proj2 (Z.ltb_lt r 0x80))|].
  destruct (Z.ltb_spec r 0x800); [|destruct (Z.ltb_spec r 0x10000)]; cbn [app length decodeRune].
  - rewrite (proj2 (Z.ltb_ge _ 0x80)), (proj2 (Z.ltb_ge _ 0xC2)), (proj2 (Z.ltb_lt _ 0xE0)) by lia.
    rewrite (proj2 (secondOK_true _ _)) by lia. rewrite rune2. f_equal. lia.
  - rewrite (proj2 (Z.ltb_ge _ 0x80)), (proj2 (Z.ltb_ge _ 0xC2)), (proj2 (Z.ltb_ge _ 0xE0)), (proj2 (Z.ltb_lt _ 0xF0)) by lia.
    rewrite (proj2 (secondOK_true _ _)) by (destruct Hr; lia). rewrite (proj2 (continuation_true _)) by lia. rewrite rune3. f_equal. lia.
  - rewrite (proj2 (Z.ltb_ge _ 0x80)), (proj2 (Z.ltb_ge _ 0xC2)), (proj2 (Z.ltb_ge _ 0xE0)), (proj2 (Z.ltb_ge _ 0xF0)), (proj2 (Z.ltb_lt _ 0xF5)) by (destruct Hr; lia).
    rewrite (proj2 (secondOK_true _ _)) by (destruct Hr; lia). rewrite !(proj2 (continuation_true _)) by lia. rewrite rune4. f_equal.
    destruct (divs r) as [-> ->]. destruct Hr; lia.
Qed.

Lemma decodeRune_sound p r n :
  p <> [] -> Forall isByte p -> decodeRune p = (r, n) -> ~ (r = RuneError /\ n = 1) ->
  scalar r /\ n = Z.of_nat (length (encodeRune r)) /\ exists rest, p = encodeRune r ++ rest.
Proof.
  intros Hp Hb Hd Hn. destruct p as [|b0 q]; [congruence|]. apply Forall_cons in Hb as [Hb0 Hb]. unfold isByte in *. cbn in Hd.
  destruct (Z.ltb_spec b0 0x80).
  { injection Hd as <- <-. unfold encodeRune. rewrite (proj2 (Z.ltb_lt _ _)) by lia. split; [left; lia|]. split; [reflexivity|]. by exists q. }
  destruct (Z.ltb_spec b0 0xC2); [injection Hd as <- <-; tauto|].
  destruct (Z.ltb_spec b0 0xE0).
  { destruct q as [|b1 q]; [injection Hd as <- <-; tauto|]. apply Forall_cons in Hb as [Hb1 Hb]. unfold isByte in *.
    destruct (secondOK b0 b1) eqn:E1; [|injection Hd as <- <-; tauto]. apply secondOK_true in E1.
    rewrite rune2 in Hd. injection Hd as <- <-. unfold encodeRune.
    rewrite (proj2 (Z.ltb_ge _ _)), (proj2 (Z.ltb_lt _ _)) by lia. split; [left; lia|]. split; [reflexivity|]. exists q.
    cbn [app]. repeat f_equal; lia. }
  destruct (Z.ltb_spec b0 0xF0).
  { destruct q as [|b1 [|b2 q]]; [injection Hd as <- <-; tauto..|]. apply Forall_cons in Hb as [Hb1 [Hb2 Hb]%Forall_cons]. unfold isByte in *.
    destruct (secondOK b0 b1 && continuation b2) eqn:E1; [|injection Hd as <- <-; tauto].
    apply andb_true_iff in E1 as [E1%secondOK_true E2%continuation_true].
    rewrite rune3 in Hd. injection Hd as <- <-. unfold encodeRune.
    rewrite !(proj2 (Z.ltb_ge _ _)), (proj2 (Z.ltb_lt _ _)) by lia. split; [unfold scalar; lia|]. split; [reflexivity|]. exists q.
    cbn [app]. repeat f_equal; lia. }
  destruct (Z.ltb_spec b0 0xF5); [|injection Hd as <- <-; tauto].
  destruct q as [|b1 [|b2 [|b3 q]]]; [injection Hd as <- <-; tauto..|].
  apply Forall_cons in Hb as [Hb1 [Hb2 [Hb3 Hb]%Forall_cons]%Forall_cons]. unfold isByte in *.
  destruct (secondOK b0 b1 && continuation b2 && continuation b3) eqn:E1; [|injection Hd as <- <-; tauto].
  apply andb_true_iff in E1 as [[E1%secondOK_true E2%continuation_true]%andb_true_iff E3%continuation_true].
  rewrite rune4 in Hd. injection Hd as <- <-. unfold encodeRune.
  rewrite !(proj2 (Z.ltb_ge _ _)) by lia. split; [unfold scalar; lia|]. split; [reflexivity|]. exists q.
  cbn [app]. repeat f_equal; lia.
Qed.

Lemma encodeRune_length r : (1 <= length (encodeRune r) <= 4)%nat.
Proof. unfold encodeRune. repeat destruct (_ <? _); cbn; lia. Qed.

Lemma encodeRune_app r rest : exists b q, encodeRune r ++ rest = b :: q.
Proof. pose proof (encodeRune_length r). destruct (encodeRune r) as [|b q]; [cbn in *; lia|]. by eexists _, _. Qed.

(** *** Whole texts *)
Lemma decodeFrom_text t fuel :
  Forall scalar t -> (length (encodeText t) <= fuel)%nat ->
  decodeFrom fuel (encodeText t) = (fun r => (r, Z.of_nat (length (encodeRune r)))) <$> t.
Proof.
  revert fuel. induction t as [|r t IH]; intros fuel Ht Hf; [by destruct fuel|]. apply Forall_cons in Ht as [Hr Ht].
  change (encodeText (r :: t)) with (encodeRune r ++ encodeText t) in *. rewrite length_app in Hf.
  pose proof (encodeRune_length r). destruct fuel as [|fuel]; [lia|].
  pose proof (decode_encodeRune r (encodeText t) Hr) as Hd. cbn [decodeFrom].
  destruct (encodeRune_app r (encodeText t)) as (b & q & E). rewrite E at 1. rewrite Hd. cbn [snd].
  rewrite Nat2Z.id, drop_app_length, IH by (assumption || lia). reflexivity.
Qed.

Lemma decode_text t : Forall scalar t -> decode (encodeText t) = (fun r => (r, Z.of_nat (length (encodeRune r)))) <$> t.
Proof. intros Ht. by apply decodeFrom_text. Qed.

Lemma Valid_text t : Forall scalar t -> Valid (encodeText t) = true.
Proof.
  intros Ht. unfold Valid. rewrite decode_text by exact Ht. apply forallb_forall. intros d Hd.
  apply list_elem_of_In, list_elem_of_fmap in Hd as (r & -> & _). cbn. apply negb_true_iff, andb_false_iff.
  destruct (Z.eqb_spec r RuneError) as [->|]; [right; reflexivity|by left].
Qed.

Lemma decodeFrom_sound fuel p :
  Forall isByte p -> (length p <= fuel)%nat ->
  forallb (fun d : Z * Z => negb ((d.1 =? RuneError) && (d.2 =? 1))) (decodeFrom fuel p) = true ->
  exists t, Forall scalar t /\ p = encodeText t.
Proof.
  revert p. induction fuel as [|fuel IH]; intros p Hb Hf Hv; [destruct p; [by exists []|cbn in Hf; lia]|].
  destruct p as [|b q] eqn:Ep; [by exists []|]. rewrite <- Ep in *. cbn [decodeFrom] in Hv. rewrite Ep in Hv at 1.
  destruct (decodeRune p) as [r n] eqn:Hd. cbn [forallb fst snd] in Hv. apply andb_true_iff in Hv as [Hn Hv].
  destruct (decodeRune_sound p r n) as (Hr & -> & rest & E); [congruence|exact Hb|exact Hd| |].
  { intros [-> ->]. discriminate Hn. }
  rewrite E, Nat2Z.id, drop_app_length in Hv. pose proof (encodeRune_length r). rewrite E, length_app in Hf.
  destruct (IH rest) as (t & Ht & ->); [rewrite E in Hb; by apply Forall_app in Hb as [_ ?]|lia|exact Hv|].
  exists (r :: t). split; [by constructor|exact E].
Qed.

(** [utf8.Valid] accepts exactly the encodings of texts. *)
Lemma Valid_exact p : Forall isByte p -> Valid p = true <-> exists t, Forall scalar t /\ p = encodeText t.
Proof.
  intros Hb. split; [intros Hv; by apply (decodeFrom_sound (length p))|]. intros (t & Ht & ->). by apply Valid_text.
Qed.

(** *** Offsets *)
Lemma offset_cons encoding r t :
  scalar r -> offset encoding (r :: t) = runeUnits r (Z.of_nat (length (encodeRune r))) encoding + offset encoding t.
Proof.
  intros Hr. destruct encoding; cbn [offset runeUnits]; [| | |lia].
  - change (encodeText (r :: t)) with (encodeRune r ++ encodeText t). rewrite length_app.
    pose proof (encodeRune_length r). unfold i32. rewrite Z.mod_small by lia. lia.
  - change (concat (encode16 <$> r :: t)) with (encode16 r ++ concat (encode16 <$> t)). rewrite length_app. unfold encode16.
    destruct (Z.ltb_spec r 0x10000), (Z.ltb_spec 0xFFFF r); cbn [length]; lia.
  - cbn [length]. lia.
Qed.

Lemma units_range encoding r : scalar r ->
  (if known encoding then 1 else 0) <= runeUnits r (Z.of_nat (length (encodeRune r))) encoding <= Z.of_nat (length (encodeRune r)).
Proof.
  intros Hr. pose proof (encodeRune_length r). unfold runeUnits, i32. destruct encoding; cbn [known]; rewrite ?Z.mod_small by lia; try lia.
  destruct (Z.ltb_spec 0xFFFF r); [|lia]. unfold encodeRune. rewrite !(proj2 (Z.ltb_ge _ _)) by lia. cbn. lia.
Qed.

Lemma offset_range encoding t : Forall scalar t -> 0 <= offset encoding t <= Z.of_nat (length (encodeText t)).
Proof.
  induction 1 as [|r t Hr Ht IH]; [destruct encoding; cbn; lia|]. rewrite offset_cons by exact Hr.
  change (encodeText (r :: t)) with (encodeRune r ++ encodeText t). rewrite length_app.
  pose proof (units_range encoding r Hr). destruct (known encoding); lia.
Qed.

Lemma offset_take_cons encoding r t k : scalar r ->
  offset encoding (take (S k) (r :: t)) = runeUnits r (Z.of_nat (length (encodeRune r))) encoding + offset encoding (take k t).
Proof. intros Hr. cbn [take]. by apply offset_cons. Qed.

(** *** The conversion *)
Lemma i32_small z : 0 <= z <= 2 ^ 31 - 1 -> i32 z = z.
Proof. intros H. unfold i32. rewrite Z.mod_small; lia. Qed.

Lemma convertLoop_spec from to character t fuel a b :
  known from = true -> Forall scalar t -> (length (encodeText t) <= fuel)%nat -> 0 <= a -> 0 <= b -> a <= character ->
  a + Z.of_nat (length (encodeText t)) <= 2 ^ 31 - 1 -> b + Z.of_nat (length (encodeText t)) <= 2 ^ 31 - 1 ->
  match convertLoop fuel (encodeText t) character from to a b with
  | Ok n => exists k, (k <= length t)%nat /\ a + offset from (take k t) = character /\ b + offset to (take k t) = n
  | Err e => e = ErrInvalidInput /\ forall k, (k <= length t)%nat -> a + offset from (take k t) <> character
  end.
Proof.
  intros Hk Ht. revert fuel a b. induction Ht as [|r t Hr Ht IH]; intros fuel a b Hf Ha Hb Hac Hma Hmb.
  - assert (H0 : forall e, offset e [] = 0) by (by intros []).
    assert (Heq : convertLoop fuel [] character from to a b = if a =? character then Ok b else Err ErrInvalidInput) by (by destruct fuel).
    change (encodeText []) with (@nil Z). rewrite Heq. destruct (Z.eqb_spec a character) as [<-|Hne].
    + exists O. cbn [take]. rewrite !H0. repeat split; lia.
    + split; [reflexivity|]. intros k _. rewrite take_nil, H0. lia.
  - change (encodeText (r :: t)) with (encodeRune r ++ encodeText t) in *. rewrite length_app in *.
    pose proof (encodeRune_length r). destruct fuel as [|fuel]; [lia|].
    assert (H0 : forall e, offset e [] = 0) by (by intros []).
    pose proof (units_range from r Hr) as Hu. pose proof (units_range to r Hr) as Hu'. rewrite Hk in Hu.
    assert (0 <= runeUnits r (Z.of_nat (length (encodeRune r))) to) by (destruct (known to); lia).
    destruct (encodeRune_app r (encodeText t)) as (c & q & E). rewrite E. cbn [convertLoop]. rewrite <- E.
    destruct (Z.eqb_spec a character) as [<-|Hne].
    { exists O. cbn [take]. rewrite !H0. repeat split; lia. }
    rewrite decode_encodeRune by exact Hr. cbv zeta. rewrite !i32_small by lia. rewrite Nat2Z.id, drop_app_length.
    destruct (Z.ltb_spec character (a + runeUnits r (Z.of_nat (length (encodeRune r))) from)) as [Hlt|Hge].
    + split; [reflexivity|]. intros [|k] Hkl; [cbn [take]; rewrite H0; lia|]. rewrite offset_take_cons by exact Hr.
      pose proof (offset_range from (take k t) (Forall_take _ _ _ Ht)). lia.
    + specialize (IH fuel (a + runeUnits r (Z.of_nat (length (encodeRune r))) from) (b + runeUnits r (Z.of_nat (length (encodeRune r))) to)
        ltac:(lia) ltac:(lia) ltac:(lia) Hge ltac:(lia) ltac:(lia)).
      destruct (convertLoop _ _ _ _ _ _ _) as [n|e].
      * destruct IH as (k & Hkl & <- & <-). exists (S k). rewrite !offset_take_cons by exact Hr. cbn [length]. repeat split; lia.
      * destruct IH as [-> IH]. split; [reflexivity|]. intros [|k] Hkl; [cbn [take]; rewrite H0; lia|].
        rewrite offset_take_cons by exact Hr. cbn [length] in Hkl. specialize (IH k ltac:(lia)). lia.
Qed.

(** *** Lines *)
Fixpoint joinLines (l : list (list Z)) : list Z :=
  match l with [] => [] | [x] => x | x :: l' => x ++ newline :: joinLines l' end.

Lemma skipLine_newline x y : newline ∉ x -> skipLine (x ++ newline :: y) = Some y.
Proof.
  induction x as [|b x IH]; intros Hx; [reflexivity|]. apply not_elem_of_cons in Hx as [Hb Hx]. cbn.
  destruct (Z.eqb_spec b newline); [congruence|]. by apply IH.
Qed.
Lemma skipLine_last x : newline ∉ x -> skipLine x = None.
Proof.
  induction x as [|b x IH]; intros Hx; [reflexivity|]. apply not_elem_of_cons in Hx as [Hb Hx]. cbn.
  destruct (Z.eqb_spec b newline); [congruence|]. by apply IH.
Qed.
Lemma lineEnd_app x y : newline ∉ x -> lineEnd (x ++ newline :: y) = x.
Proof.
  induction x as [|b x IH]; intros Hx; [reflexivity|]. apply not_elem_of_cons in Hx as [Hb Hx]. cbn.
  destruct (Z.eqb_spec b newline); [congruence|]. by rewrite IH.
Qed.
Lemma lineEnd_last x : newline ∉ x -> lineEnd x = x.
Proof.
  induction x as [|b x IH]; intros Hx; [reflexivity|]. apply not_elem_of_cons in Hx as [Hb Hx]. cbn.
  destruct (Z.eqb_spec b newline); [congruence|]. by rewrite IH.
Qed.

Lemma sourceLine_exact l ls line :
  Forall (fun x => newline ∉ x) (l :: ls) -> 0 <= line ->
  sourceLine (joinLines (l :: ls)) line =
    match (l :: ls) !! Z.to_nat line with Some x => Ok x | None => Err ErrInvalidInput end.
Proof.
  intros Hl Hline. unfold sourceLine. rewrite (proj2 (Z.ltb_ge line 0)) by exact Hline.
  generalize (Z.to_nat line). clear line Hline. intros n. revert l ls Hl.
  induction n as [|n IH]; intros l ls Hl; apply Forall_cons in Hl as [Hx Hls]; (destruct ls as [|l2 ls]; [cbn [joinLines]|change (joinLines (l :: l2 :: ls)) with (l ++ newline :: joinLines (l2 :: ls))]); cbn [skipLines lookup list_lookup].
  - by rewrite lineEnd_last.
  - by rewrite lineEnd_app.
  - by rewrite skipLine_last.
  - rewrite skipLine_newline by exact Hx. by apply IH.
Qed.

Lemma newline_text t : newline ∉ t -> newline ∉ encodeText t.
Proof.
  induction t as [|r t IH]; intros Ht; [apply not_elem_of_nil|]. apply not_elem_of_cons in Ht as [Hr Ht].
  change (encodeText (r :: t)) with (encodeRune r ++ encodeText t). rewrite not_elem_of_app. split; [|by apply IH].
  unfold encodeRune, newline in *. destruct (Z.ltb_spec r 0x80); [|destruct (Z.ltb_spec r 0x800); [|destruct (Z.ltb_spec r 0x10000)]];
    rewrite ?not_elem_of_cons; repeat split; try apply not_elem_of_nil; lia.
Qed.

(** ** Theorems *)
Lemma convert_text from to t character :
  known from = true -> Forall scalar t -> Z.of_nat (length (encodeText t)) <= 2 ^ 31 - 1 ->
  match convertCharacter (encodeText t) character from to with
  | Ok n => exists k, (k <= length t)%nat /\ offset from (take k t) = character /\ offset to (take k t) = n
  | Err e => e = ErrInvalidInput /\ forall k, (k <= length t)%nat -> offset from (take k t) <> character
  end.
Proof.
  intros Hk Ht Hlen. unfold convertCharacter. destruct (Z.ltb_spec character 0) as [Hneg|Hc].
  - split; [reflexivity|]. intros k _. pose proof (offset_range from (take k t) (Forall_take _ _ _ Ht)). lia.
  - rewrite Valid_text by exact Ht. cbn [negb].
    pose proof (convertLoop_spec from to character t (length (encodeText t)) 0 0 Hk Ht) as H. apply H; lia.
Qed.

(** The end-to-end specification of a converted position. *)
Definition converted (from to : PositionEncoding) (texts : list (list Z)) (line character n : Z) : Prop :=
  0 <= line /\ exists t k, texts !! Z.to_nat line = Some t /\ (k <= length t)%nat /\
    offset from (take k t) = character /\ offset to (take k t) = n.

(** A position in a source made of lines of Unicode text is converted to
    the offset, in the other encoding, of the same prefix of the same line;
    it is refused exactly when the line does not exist or no prefix of it ends
    at the offset, that is, when the offset lies past the line or splits a
    code point. *)
Theorem position_exact read c c' filePath texts line character from to :
  known from = true -> texts <> [] ->
  Forall (fun t => Forall scalar t /\ (newline ∉ t) /\ Z.of_nat (length (encodeText t)) <= 2 ^ 31 - 1) texts ->
  source read filePath c = (Ok (joinLines (encodeText <$> texts)), c') ->
  match position read filePath line character from to c with
  | (Ok n, c2) => c2 = c' /\ converted from to texts line character n
  | (Err e, c2) => c2 = c' /\ e = ErrInvalidInput /\ forall n, ~ converted from to texts line character n
  end.
Proof.
  intros Hk Hne Ht Hs. unfold position, andThen, pure, converted. rewrite Hs.
  destruct (Z.ltb_spec line 0) as [Hneg|Hline].
  { unfold sourceLine. rewrite (proj2 (Z.ltb_lt line 0)) by exact Hneg. repeat split. intros n [H _]. lia. }
  assert (Hnl : Forall (fun x => newline ∉ x) (encodeText <$> texts)).
  { apply Forall_fmap. eapply Forall_impl; [exact Ht|]. intros t (_ & H & _). by apply newline_text. }
  destruct texts as [|t0 ts]; [congruence|]. rewrite fmap_cons in *.
  rewrite sourceLine_exact by assumption. rewrite <- fmap_cons.
  rewrite list_lookup_fmap. destruct ((t0 :: ts) !! Z.to_nat line) as [t|] eqn:Hl; cbn.
  - rewrite Forall_lookup in Ht. destruct (Ht _ _ Hl) as (Hs' & _ & Hlen). pose proof (convert_text from to t character Hk Hs' Hlen) as H.
    destruct (convertCharacter _ _ _ _) as [n|e].
    + destruct H as (k & Hkl & H1 & H2). split; [reflexivity|]. split; [exact Hline|]. by exists t, k.
    + destruct H as [-> H]. split; [reflexivity|]. split; [reflexivity|]. intros n (_ & t' & k & [= <-] & Hkl & E & _). by apply (H k).
  - split; [reflexivity|]. split; [reflexivity|]. intros n (_ & t' & k & [=] & _).
Qed.

Lemma offset_monotone encoding t k j :
  known encoding = true -> Forall scalar t -> (k < j <= length t)%nat -> offset encoding (take k t) < offset encoding (take j t).
Proof.
  intros Hk Ht. revert k j. induction Ht as [|r t Hr Ht IH]; intros k j Hkj; [cbn in Hkj; lia|]. destruct j as [|j]; [lia|].
  rewrite (offset_take_cons encoding r t j) by exact Hr. pose proof (units_range encoding r Hr) as Hu. rewrite Hk in Hu.
  destruct k as [|k].
  - pose proof (offset_range encoding (take j t) (Forall_take _ _ _ Ht)). assert (offset encoding (take 0 (r :: t)) = 0) by (by destruct encoding). lia.
  - rewrite offset_take_cons by exact Hr. cbn [length] in Hkj. specialize (IH k j ltac:(lia)). lia.
Qed.

Lemma offset_order encoding t k j :
  known encoding = true -> Forall scalar t -> (k <= length t)%nat -> (j <= length t)%nat ->
  (k < j)%nat <-> offset encoding (take k t) < offset encoding (take j t).
Proof.
  intros Hk Ht Hkl Hjl. split; [intros; by apply offset_monotone|]. intros H. destruct (Nat.lt_trichotomy k j) as [|[->|Hlt]]; [assumption|lia|].
  pose proof (offset_monotone encoding t j k Hk Ht ltac:(lia)). lia.
Qed.

(** Between the three encodings conversion is an order isomorphism: a
    converted offset converts back to where it came from, and two offsets of a
    line keep their order. *)
Theorem conversion_round_trips line character n from to :
  known from = true -> known to = true -> Forall isByte line -> Z.of_nat (length line) <= 2 ^ 31 - 1 ->
  convertCharacter line character from to = Ok n ->
  convertCharacter line n to from = Ok character /\
  forall character2 n2, convertCharacter line character2 from to = Ok n2 -> (character < character2 <-> n < n2).
Proof.
  intros Hf Hto Hb Hlen H. assert (Hv : Valid line = true).
  { unfold convertCharacter in H. destruct (character <? 0); [discriminate|]. by destruct (Valid line). }
  apply (Valid_exact line Hb) in Hv as (t & Ht & ->).
  pose proof (convert_text from to t character Hf Ht Hlen) as Hc. rewrite H in Hc. destruct Hc as (k & Hk & Ek & En). split.
  - pose proof (convert_text to from t n Hto Ht Hlen) as Hc. destruct (convertCharacter _ n _ _) as [m|e].
    + destruct Hc as (j & Hj & Ej & <-). f_equal. rewrite <- Ek. f_equal.
      assert (j = k) as ->; [|reflexivity]. destruct (Nat.lt_trichotomy j k) as [Hlt|[->|Hlt]]; [exfalso|reflexivity|exfalso];
        apply (offset_order to t) in Hlt; (lia || assumption).
    + destruct Hc as [_ Hc]. by destruct (Hc k Hk).
  - intros ch2 n2 H2. pose proof (convert_text from to t ch2 Hf Ht Hlen) as Hc. rewrite H2 in Hc. destruct Hc as (j & Hj & Ej & En2).
    rewrite <- Ek, <- Ej, <- En, <- En2, <- !offset_order by assumption. reflexivity.
Qed.

(** ** The sources of one query *)
Inductive conversion :=
  | CPosition (filePath : string) (line character : Z) (from to : PositionEncoding)
  | CRange (filePath : string) (r : Range) (from : PositionEncoding).

(** A query's conversions, each with what reading returns at that time. *)
Fixpoint conversions (l : list (reader * conversion)) (c : rangeConverter) : rangeConverter :=
  match l with
  | [] => c
  | (read, CPosition filePath line character from to) :: l' => conversions l' (position read filePath line character from to c).2
  | (read, CRange filePath r from) :: l' => conversions l' (codeRange read filePath r from c).2
  end.

(** A slice is no longer than its capacity, which is an [int]. *)
Definition honest (read : reader) : Prop :=
  forall filePath limit bytes allocated, read filePath limit = Ok (bytes, allocated) ->
    Z.of_nat (length bytes) <= allocated <= MaxInt64.

Definition cachedBytes (m : gmap string (list Z)) : Z := map_fold (fun _ s n => Z.of_nat (length s) + n) 0 m.

Lemma cachedBytes_insert m filePath bytes :
  m !! filePath = None -> cachedBytes (<[filePath := bytes]> m) = Z.of_nat (length bytes) + cachedBytes m.
Proof.
  intros H. unfold cachedBytes. apply (map_fold_insert_L (fun _ s n => Z.of_nat (length s) + n)).
  - intros; lia.
  - exact H.
Qed.

Record SourcesOK (c : rangeConverter) : Prop := {
  so_cached : cachedBytes (rc_sources c) <= rc_sourceBytes c;
  so_nonneg : 0 <= cachedBytes (rc_sources c);
  so_budget : rc_sourceBytes c <= rc_maxQuerySourceBytes c <= MaxInt64;
  so_valid : forall filePath bytes, rc_sources c !! filePath = Some bytes -> Valid bytes = true
}.

(** What is cached stays, and the limits do not change. *)
Definition extends (c c' : rangeConverter) : Prop :=
  rc_maxQuerySourceBytes c' = rc_maxQuerySourceBytes c /\ rc_sources c ⊆ rc_sources c'.

Lemma unread c : SourcesOK c -> SourcesOK c /\ extends c c.
Proof. intros HS. split; [exact HS|]. by split. Qed.

Lemma source_ok read filePath c :
  honest read -> SourcesOK c -> SourcesOK (source read filePath c).2 /\ extends c (source read filePath c).2.
Proof.
  intros Hh HS. unfold source. destruct (rc_sources c !! filePath) as [s|] eqn:Ec; [by apply unread|].
  destruct (read filePath _) as [[bytes allocated]|e] eqn:Er; [|by apply unread].
  destruct (Valid bytes) eqn:Ev; [|by apply unread]. cbn [negb]. destruct (Z.ltb_spec (i64 (rc_maxQuerySourceBytes c - rc_sourceBytes c)) allocated) as [|Hle]; [by apply unread|].
  pose proof (Hh _ _ _ _ Er) as Hcap. destruct HS as [H1 H2 H3 H4]. rewrite i64_small in Hle by (unfold MaxInt64 in *; lia).
  split; [constructor; cbn|split; cbn; [reflexivity|by apply insert_subseteq]].
  - rewrite cachedBytes_insert by exact Ec. rewrite i64_small by (unfold MaxInt64 in *; lia). lia.
  - rewrite cachedBytes_insert by exact Ec. lia.
  - rewrite i64_small by (unfold MaxInt64 in *; lia). lia.
  - intros path b [[<- <-]|[_ Hb]]%lookup_insert_Some; [exact Ev|by eapply H4].
Qed.

Lemma andThen_keeps {A} read filePath (k : list Z -> convM A) c :
  (forall s c, (k s c).2 = c) -> (andThen (source read filePath) k c).2 = (source read filePath c).2.
Proof. intros Hk. unfold andThen. destruct (source read filePath c) as [[s|e] c']; [apply Hk|reflexivity]. Qed.

Lemma position_reads read filePath line character from to c :
  (position read filePath line character from to c).2 = (source read filePath c).2.
Proof. apply andThen_keeps. intros s c1. unfold andThen, pure. by destruct (sourceLine s line). Qed.

Lemma codeRange_reads read filePath r from c : (codeRange read filePath r from c).2 = (source read filePath c).2.
Proof.
  unfold codeRange. apply andThen_keeps. intros s c1. unfold andThen, pure.
  destruct (sourceLine s _); [|reflexivity]. destruct (sourceLine s _); [|reflexivity].
  destruct (convertCharacter _ _ _ _); [|reflexivity]. by destruct (convertCharacter _ _ _ _).
Qed.

Lemma conversions_ok l c :
  Forall (fun x => honest x.1) l -> SourcesOK c -> SourcesOK (conversions l c) /\ extends c (conversions l c).
Proof.
  intros Hl. revert c. induction Hl as [|[read v] l Hh Hl IH]; intros c HS; [by apply unread|].
  assert (Hstep : exists filePath, conversions ((read, v) :: l) c = conversions l (source read filePath c).2).
  { destruct v; cbn; eexists; [by rewrite position_reads|by rewrite codeRange_reads]. }
  destruct Hstep as [filePath ->]. destruct (source_ok read filePath c Hh HS) as [HS' [E1 E2]].
  destruct (IH _ HS') as [HS2 [E3 E4]]. split; [exact HS2|]. split; [congruence|]. by etransitivity.
Qed.

(** However many conversions a query makes and whatever reading returns,
    the sources it holds are valid UTF-8 and together no larger than its
    budget, and a source that was read once is not read again. *)
Theorem query_sources_bounded l target maxSourceBytes maxQuerySourceBytes l2 :
  0 <= maxQuerySourceBytes <= MaxInt64 -> Forall (fun x => honest x.1) (l ++ l2) ->
  let c := conversions l (newRangeConverter target maxSourceBytes maxQuerySourceBytes) in
  cachedBytes (rc_sources c) <= maxQuerySourceBytes /\
  forall filePath bytes, rc_sources c !! filePath = Some bytes ->
    Valid bytes = true /\ forall read, source read filePath (conversions l2 c) = (Ok bytes, conversions l2 c).
Proof.
  intros Hmax [Hl Hl2]%Forall_app c.
  assert (H0 : SourcesOK (newRangeConverter target maxSourceBytes maxQuerySourceBytes)).
  { constructor; cbn; try lia; try (unfold cachedBytes; rewrite map_fold_empty; lia). intros p b H. by rewrite lookup_empty in H. }
  destruct (conversions_ok l _ Hl H0) as [HS [E _]]. fold c in HS, E. destruct HS as [H1 H2 H3 H4]. cbn in E. split; [lia|].
  intros filePath bytes Hb. split; [by eapply H4|]. intros read.
  destruct (conversions_ok l2 c Hl2 ltac:(by constructor)) as [_ [_ Hsub]].
  unfold source. by rewrite (lookup_weaken _ _ _ _ Hb Hsub).
Qed.

(** *** Examples: an accented letter and an emoji on the second line. *)
Definition sampleTexts : list (list Z) := [[97; 98]; [97; 0xE9; 0x1F600; 98]].
Definition sampleSource : list Z := joinLines (encodeText <$> sampleTexts).
Definition sampleReader : reader := fun _ _ => Ok (sampleSource, 64).
Definition sampleConverter : rangeConverter := newRangeConverter EncodingUTF16 1024 1024.

Lemma sample_scalar : Forall (fun t => Forall scalar t /\ (newline ∉ t) /\ Z.of_nat (length (encodeText t)) <= 2 ^ 31 - 1) sampleTexts.
Proof.
  assert (H : forall r, (0 <=? r) && (r <? 0xD800) || (0xE000 <=? r) && (r <? 0x110000) = true -> scalar r)
    by (intros r; rewrite orb_true_iff, !andb_true_iff, !Z.leb_le, !Z.ltb_lt; unfold scalar; lia).
  unfold sampleTexts. repeat constructor; try (by apply H); try (vm_compute; congruence);
    rewrite ?not_elem_of_cons; repeat split; try apply not_elem_of_nil; unfold newline; lia.
Qed.

Lemma position_exact_witness :
  fst (position sampleReader "f" 1 4 EncodingUTF16 EncodingUTF8 sampleConverter) = Ok 7 /\
  converted EncodingUTF16 EncodingUTF8 sampleTexts 1 4 7 /\
  (forall n, ~ converted EncodingUTF16 EncodingUTF8 sampleTexts 1 3 n).
Proof.
  split; [vm_compute; reflexivity|]. split.
  - pose proof (position_exact sampleReader sampleConverter _ "f" sampleTexts 1 4 EncodingUTF16 EncodingUTF8
      eq_refl ltac:(discriminate) sample_scalar eq_refl) as H. exact (proj2 H).
  - pose proof (position_exact sampleReader sampleConverter _ "f" sampleTexts 1 3 EncodingUTF16 EncodingUTF8
      eq_refl ltac:(discriminate) sample_scalar eq_refl) as H. exact (proj2 (proj2 H)).
Defined.

Lemma conversion_round_trips_witness :
  convertCharacter [97; 0xC3; 0xA9; 98] 2 EncodingUTF32 EncodingUTF8 = Ok 3 /\
  convertCharacter [97; 0xC3; 0xA9; 98] 3 EncodingUTF8 EncodingUTF32 = Ok 2.
Proof.
  split; [reflexivity|].
  apply (conversion_round_trips [97; 0xC3; 0xA9; 98] 2 3 EncodingUTF32 EncodingUTF8 eq_refl eq_refl);
    [repeat constructor; unfold isByte; lia|vm_compute; congruence|reflexivity].
Defined.

Lemma query_sources_bounded_witness :
  let c := conversions [(sampleReader, CPosition "f" 1 4 EncodingUTF16 EncodingUTF8)] sampleConverter in
  cachedBytes (rc_sources c) = 11 /\ cachedBytes (rc_sources c) <= 1024.
Proof.
  split; [vm_compute; reflexivity|].
  apply (query_sources_bounded [(sampleReader, CPosition "f" 1 4 EncodingUTF16 EncodingUTF8)] EncodingUTF16 1024 1024 []);
    [unfold MaxInt64; lia|]. constructor; [|constructor]. intros p limit b a [= <- <-]. vm_compute. split; congruence.
Defined.
