(* ===== verification/GoText.v ===== *)
(** * Go's strings as text

    What the modelled code uses of [strings], [unicode/utf8], [encoding/hex],
    [path] and [encoding/json], on strings of bytes: validity, joining and
    splitting, hexadecimal, lexical cleaning of a path, and the canonical
    encoding of structs of strings, integers and arrays that [json.Marshal]
    produces. *)
From stdpp Require Import pretty.
From Stdlib Require Import Ascii String.
From S2P Require Import Prelude.
From S2P Require Import GoStrings Positions.

(** ** Bytes *)
Definition bytesOf (s : string) : list Z := (fun c => Z.of_nat (nat_of_ascii c)) <$> list_ascii_of_string s.
Definition charOf (b : Z) : ascii := ascii_of_nat (Z.to_nat b).
Definition textOf (p : list Z) : string := string_of_list_ascii (charOf <$> p).
(** [utf8.ValidString]. *)
Definition utf8Valid (s : string) : bool := Positions.Valid (bytesOf s).

Definition inRange (lo hi : ascii) (c : ascii) : bool :=
  Nat.leb (nat_of_ascii lo) (nat_of_ascii c) && Nat.leb (nat_of_ascii c) (nat_of_ascii hi).
Fixpoint all (p : ascii -> bool) (s : string) : bool :=
  match s with EmptyString => true | String c s' => p c && all p s' end.

Definition NUL : string := String Ascii.zero EmptyString.
(** [strings.Join(first :: rest, sep)]. *)
Definition Join (first : string) (rest : list string) (sep : string) : string :=
  foldl (fun b s => b +:+ sep +:+ s) first rest.
Definition HasSuffix (s suffix : string) : bool :=
  Nat.leb (String.length suffix) (String.length s)
  && String.eqb (String.substring (String.length s - String.length suffix) (String.length suffix) s) suffix.
(** [strings.Split] by one character. *)
Fixpoint splitOn (sep : ascii) (s : string) : list string :=
  match s with
  | EmptyString => [""]
  | String c s' =>
      if Ascii.eqb c sep then "" :: splitOn sep s'
      else match splitOn sep s' with [] => [String c ""] | part :: rest => String c part :: rest end
  end.

(** ** Hexadecimal *)
Definition hexDigit (c : ascii) : bool := inRange "0" "9" c || inRange "a" "f" c || inRange "A" "F" c.
Definition hexDigitOf (n : Z) : ascii := charOf (if n <? 10 then 48 + n else 87 + n).
Definition hexByte (b : Z) : string := String (hexDigitOf (b / 16)) (String (hexDigitOf (b mod 16)) EmptyString).
Fixpoint hexEncode (p : list Z) : string := match p with [] => EmptyString | b :: p' => hexByte b +:+ hexEncode p' end.
Definition hexValue (c : ascii) : option Z :=
  let n := Z.of_nat (nat_of_ascii c) in
  if inRange "0" "9" c then Some (n - 48) else if inRange "a" "f" c then Some (n - 87)
  else if inRange "A" "F" c then Some (n - 55) else None.
Fixpoint hexDecode (s : string) : option (list Z) :=
  match s with
  | EmptyString => Some []
  | String a (String b s') =>
      match hexValue a, hexValue b, hexDecode s' with Some x, Some y, Some l => Some (16 * x + y :: l) | _, _, _ => None end
  | String _ EmptyString => None
  end.

(** ** Paths *)
Definition IsAbs (s : string) : bool := String.prefix "/" s.
(** One component; the stack holds the components before it, the last first. *)
Definition cleanStep (rooted : bool) (stack : list string) (component : string) : list string :=
  if String.eqb component "" || String.eqb component "." then stack
  else if String.eqb component ".." then
    match stack with
    | top :: below => if String.eqb top ".." then component :: stack else below
    | [] => if rooted then [] else [component]
    end
  else component :: stack.
Definition Clean (s : string) : string :=
  let rooted := IsAbs s in
  let out := match reverse (foldl (cleanStep rooted) [] (splitOn "/" s)) with [] => "" | c :: rest => Join c rest "/" end in
  if rooted then "/" +:+ out else if String.eqb out "" then "." else out.

(** ** JSON *)
#[local] Set Warnings "-register-all".
Inductive json :=
  | JString (s : string)
  | JInt (n : Z)
  | JArray (l : list json)
  | JObject (l : list (string * json)).

Definition newline : string := String (ascii_of_nat 10) EmptyString.
Definition quote : string := String (ascii_of_nat 34) EmptyString.
(** One byte below 0x80, with the characters HTML treats specially escaped. *)
Definition jsonByte (b : Z) : string :=
  if (b =? 34) || (b =? 92) then String "\" (textOf [b])
  else if b =? 8 then "\b" else if b =? 12 then "\f" else if b =? 10 then "\n" else if b =? 13 then "\r" else if b =? 9 then "\t"
  else if (b <? 32) || (b =? 60) || (b =? 62) || (b =? 38) then "\u00" +:+ hexByte b
  else textOf [b].
Fixpoint jsonFrom (fuel : nat) (p : list Z) : string :=
  match fuel, p with
  | S fuel', b :: _ =>
      let d := decodeRune p in
      (if b <? 0x80 then jsonByte b
       else if (d.1 =? RuneError) && (d.2 =? 1) then "\ufffd"
       else if d.1 =? 0x2028 then "\u2028" else if d.1 =? 0x2029 then "\u2029"
       else textOf (take (Z.to_nat d.2) p)) +:+ jsonFrom fuel' (drop (Z.to_nat d.2) p)
  | _, _ => EmptyString
  end.
Definition jsonString (s : string) : string := quote +:+ jsonFrom (String.length s) (bytesOf s) +:+ quote.

Definition commas (l : list string) : string := match l with [] => "" | first :: rest => Join first rest "," end.
(** [json.Marshal]. *)
Fixpoint Marshal (j : json) : string :=
  match j with
  | JString s => jsonString s
  | JInt n => pretty n
  | JArray l => "[" +:+ commas (Marshal <$> l) +:+ "]"
  | JObject l => "{" +:+ commas ((fun kv : string * json => jsonString kv.1 +:+ ":" +:+ Marshal kv.2) <$> l) +:+ "}"
  end.

Example marshal_sample :
  Marshal (JObject [("a", JArray [JInt 1; JInt (-20)]); ("p", JString "x<y\z")]) =
  "{" +:+ quote +:+ "a" +:+ quote +:+ ":[1,-20]," +:+ quote +:+ "p" +:+ quote +:+ ":" +:+ quote +:+ "x\u003cy\\z" +:+ quote +:+ "}".
Proof. vm_compute. reflexivity. Qed.
Example clean_sample : Clean "a//b/../c/." = "a/c" /\ Clean "../a" = "../a" /\ Clean "/.." = "/" /\ Clean "" = ".".
Proof. vm_compute. auto. Qed.

(** ** Lemmas *)
Definition isByte (b : Z) : Prop := 0 <= b < 256.

Lemma hexValue_digit n : 0 <= n < 16 -> hexValue (hexDigitOf n) = Some n.
Proof.
  intros Hn. assert (Hall : forallb (fun n => bool_decide (hexValue (hexDigitOf n) = Some n)) (seqZ 0 16) = true) by reflexivity.
  rewrite forallb_forall in Hall. apply (bool_decide_eq_true_1 _), Hall, list_elem_of_In, elem_of_seqZ. lia.
Qed.

Lemma hexDecode_Encode p : Forall isByte p -> hexDecode (hexEncode p) = Some p.
Proof.
  induction 1 as [|b p Hb _ IH]; [reflexivity|]. unfold isByte in Hb. cbn [hexEncode hexByte].
  change (hexDecode (String (hexDigitOf (b / 16)) (String (hexDigitOf (b mod 16)) (hexEncode p))) = Some (b :: p)). cbn [hexDecode].
  rewrite !hexValue_digit by (split; [apply Z.div_pos||apply Z.mod_pos_bound; lia|]; apply Z.div_lt_upper_bound || apply Z.mod_pos_bound; lia).
  rewrite IH. f_equal. f_equal. pose proof (Z.div_mod b 16). lia.
Qed.

Lemma hexEncode_inj p q : Forall isByte p -> Forall isByte q -> hexEncode p = hexEncode q -> p = q.
Proof. intros Hp Hq E. apply hexDecode_Encode in Hp, Hq. congruence. Qed.

Lemma length_append a b : String.length (a +:+ b) = (String.length a + String.length b)%nat.
Proof. induction a as [|c a IH]; [done|]. change (S (String.length (a +:+ b)) = S (String.length a + String.length b)). by rewrite IH. Qed.

Lemma length_hexEncode p : String.length (hexEncode p) = (2 * length p)%nat.
Proof. induction p as [|b p IH]; [done|]. cbn [hexEncode]. rewrite length_append, IH. cbn. lia. Qed.

(** *** Lengths of encodings *)
Lemma length_bytesOf s : length (bytesOf s) = String.length s.
Proof. unfold bytesOf. rewrite length_fmap. induction s as [|c s IH]; [done|]. cbn. by rewrite IH. Qed.
Lemma length_textOf p : String.length (textOf p) = length p.
Proof. unfold textOf. induction p as [|b p IH]; [done|]. cbn. by rewrite IH. Qed.

Lemma decodeRune_size b p : 1 <= (decodeRune (b :: p)).2 <= Z.of_nat (length (b :: p)).
Proof. cbn. repeat case_match; subst; cbn; lia. Qed.

Lemma length_jsonByte b : (String.length (jsonByte b) <= 6)%nat.
Proof. unfold jsonByte. repeat case_match; rewrite ?length_append; cbn; rewrite ?length_textOf; cbn; lia. Qed.

Lemma length_jsonFrom fuel p : (String.length (jsonFrom fuel p) <= 6 * length p)%nat.
Proof.
  revert p. induction fuel as [|fuel IH]; intros [|b p]; cbn [jsonFrom]; try (cbn; lia).
  pose proof (decodeRune_size b p) as Hd. generalize dependent (decodeRune (b :: p)). intros d Hd. rewrite length_append. specialize (IH (drop (Z.to_nat d.2) (b :: p))).
  rewrite length_drop in IH. assert (Hone : Z.of_nat (String.length (if b <? 128 then jsonByte b
       else if (d.1 =? RuneError) && (d.2 =? 1) then "\ufffd" else if d.1 =? 8232 then "\u2028" else if d.1 =? 8233 then "\u2029"
       else textOf (take (Z.to_nat d.2) (b :: p)))) <= 6 * d.2).
  { pose proof (length_jsonByte b). repeat case_match; try (cbn; lia). rewrite length_textOf, length_take. lia. }
  cbn in *. lia.
Qed.

Lemma length_jsonString s : (String.length (jsonString s) <= 6 * String.length s + 2)%nat.
Proof. unfold jsonString. rewrite !length_append. pose proof (length_jsonFrom (String.length s) (bytesOf s)) as Hl. rewrite length_bytesOf in Hl. cbn. lia. Qed.

Lemma length_pretty_go x s k : (x < 10 ^ N.of_nat k)%N -> (String.length (pretty_N_go x s) <= k + String.length s)%nat.
Proof.
  revert x s. induction k as [|k IH]; intros x s Hx.
  - assert (x = 0%N) as -> by (cbn in Hx; lia). by rewrite pretty_N_go_0.
  - destruct (N.eq_dec x 0) as [->|Hne]; [rewrite pretty_N_go_0; lia|]. rewrite pretty_N_go_step by lia.
    etransitivity; [apply IH|cbn; lia]. apply N.Div0.div_lt_upper_bound. rewrite Nat2N.inj_succ, N.pow_succ_r' in Hx. lia.
Qed.

Lemma length_pretty (n : Z) k : 0 <= n < 10 ^ Z.of_nat k -> (String.length (pretty n) <= Nat.max 1 k)%nat.
Proof.
  intros Hn. destruct n as [|n|n]; [cbn; lia| |lia]. change (pretty (Z.pos n)) with (pretty (N.pos n)). unfold pretty, pretty_N.
  destruct (decide (N.pos n = 0%N)); [done|]. etransitivity; [apply (length_pretty_go _ _ k)|cbn; lia]. zify. lia.
Qed.

Lemma length_Join first rest sep :
  String.length (Join first rest sep) = (String.length first + sum_list ((fun s => String.length sep + String.length s) <$> rest))%nat.
Proof.
  unfold Join. revert first. induction rest as [|s rest IH]; intros first; cbn; [lia|]. rewrite IH, !length_append. lia.
Qed.

Lemma length_commas l : (String.length (commas l) <= sum_list ((fun s => S (String.length s)) <$> l))%nat.
Proof. destruct l as [|first rest]; [cbn; lia|]. cbn [commas]. rewrite length_Join. cbn. lia. Qed.

Lemma sum_list_le {A} (f : A -> nat) l b : (forall x, x ∈ l -> f x <= b)%nat -> (sum_list (f <$> l) <= b * length l)%nat.
Proof.
  induction l as [|x l IH]; intros Hl; cbn; [lia|]. pose proof (Hl x ltac:(by left)). specialize (IH (fun y Hy => Hl y (list_elem_of_further _ _ _ Hy))). lia.
Qed.

Lemma length_JArray l : (String.length (Marshal (JArray l)) <= 2 + sum_list ((fun j => S (String.length (Marshal j))) <$> l))%nat.
Proof.
  change (Marshal (JArray l)) with ("[" +:+ commas (Marshal <$> l) +:+ "]"). rewrite !length_append. pose proof (length_commas (Marshal <$> l)) as Hl.
  rewrite <- list_fmap_compose in Hl. unfold compose in Hl. cbn [String.length]. lia.
Qed.
Lemma length_JObject (l : list (string * json)) :
  (String.length (Marshal (JObject l)) <= 2 + sum_list ((fun kv : string * json => 2 + String.length (jsonString kv.1) + String.length (Marshal kv.2)) <$> l))%nat.
Proof.
  change (Marshal (JObject l)) with ("{" +:+ commas ((fun kv : string * json => jsonString kv.1 +:+ ":" +:+ Marshal kv.2) <$> l) +:+ "}").
  rewrite !length_append. pose proof (length_commas ((fun kv : string * json => jsonString kv.1 +:+ ":" +:+ Marshal kv.2) <$> l)) as Hl.
  rewrite <- list_fmap_compose in Hl. etransitivity; [|apply Nat.add_le_mono_l]; [|etransitivity; [exact Hl|]]; [cbn; lia|].
  clear Hl. induction l as [|kv l IH]; [done|]. cbn [fmap list_fmap sum_list]. unfold compose at 1. rewrite !length_append. cbn in *. lia.
Qed.

(** *** Classes of bytes *)
Lemma list_ascii_app s t : list_ascii_of_string (s +:+ t) = list_ascii_of_string s ++ list_ascii_of_string t.
Proof. induction s as [|c s IH]; [done|]. change (String c s +:+ t) with (String c (s +:+ t)). cbn. by rewrite IH. Qed.
Lemma list_ascii_inj s t : list_ascii_of_string s = list_ascii_of_string t -> s = t.
Proof. intros E. rewrite <-(string_of_list_ascii_of_string s), <-(string_of_list_ascii_of_string t). by rewrite E. Qed.
Lemma all_append p a b : all p (a +:+ b) = all p a && all p b.
Proof. induction a as [|c a IH]; [done|]. change (p c && all p (a +:+ b) = p c && all p a && all p b). by rewrite IH, andb_assoc. Qed.
Lemma all_mono (p q : ascii -> bool) s : (forall c, p c = true -> q c = true) -> all p s = true -> all q s = true.
Proof. intros Hpq. induction s as [|c s IH]; [done|]. cbn. intros [Hc Hs]%andb_true_iff. by rewrite (Hpq c Hc), IH. Qed.
Lemma all_substring p n m s : all p s = true -> all p (String.substring n m s) = true.
Proof.
  revert n m. induction s as [|c s IH]; intros [|n] [|m]; cbn; try done; intros [Hc Hs]%andb_true_iff; try (by apply IH).
  by rewrite Hc, IH.
Qed.
Lemma hexDigitOf_lower n : 0 <= n < 16 -> inRange "0" "9" (hexDigitOf n) || inRange "a" "f" (hexDigitOf n) = true.
Proof.
  intros Hn. assert (Hall : forallb (fun n => inRange "0" "9" (hexDigitOf n) || inRange "a" "f" (hexDigitOf n)) (seqZ 0 16) = true) by reflexivity.
  rewrite forallb_forall in Hall. apply Hall, list_elem_of_In, elem_of_seqZ. lia.
Qed.
Lemma all_hexEncode p : Forall isByte p -> all (fun c => inRange "0" "9" c || inRange "a" "f" c) (hexEncode p) = true.
Proof.
  induction 1 as [|b p Hb _ IH]; [done|]. unfold isByte in Hb. cbn [hexEncode]. rewrite all_append. cbn [hexByte all].
  rewrite !hexDigitOf_lower, IH; [done|..]; split; (apply Z.div_pos || apply Z.mod_pos_bound || apply Z.div_lt_upper_bound); lia.
Qed.

Lemma substring_all s : String.substring 0 (String.length s) s = s.
Proof. induction s as [|c s IH]; [done|]. cbn. by rewrite IH. Qed.

(** *** Decimal numerals *)
Definition digit (c : ascii) : bool := inRange "0" "9" c || Ascii.eqb c "-".
Lemma pretty_go_digits x s : all digit s = true -> all digit (pretty_N_go x s) = true.
Proof.
  revert s. induction x as [x IH] using (well_founded_induction N.lt_wf_0). intros s Hs.
  destruct (decide (x = 0)%N) as [->|Hx]; [by rewrite pretty_N_go_0|]. rewrite pretty_N_go_step by lia.
  apply IH; [apply N.div_lt; lia|]. cbn. rewrite Hs, andb_true_r. unfold pretty_N_char. repeat case_match; reflexivity.
Qed.
Lemma pretty_digits (z : Z) : all digit (pretty z) = true.
Proof.
  unfold pretty, pretty_Z, pretty, pretty_positive, pretty, pretty_N.
  destruct z; [reflexivity| |]; cbn [decide]; repeat case_match; try reflexivity; try change ("-" +:+ ?s) with (String "-" s); cbn [all];
    try (change (digit "-") with true); rewrite pretty_go_digits; reflexivity.
Qed.

Definition decimalFrom (n : N) (s : string) : N := foldl (fun n c => 10 * n + (N_of_ascii c - 48))%N n (list_ascii_of_string s).
Lemma decimal_go x s : decimalFrom 0 (pretty_N_go x s) = decimalFrom x s.
Proof.
  revert s. induction x as [x IH] using (well_founded_induction N.lt_wf_0). intros s. destruct (decide (x = 0)%N) as [->|Hx]; [by rewrite pretty_N_go_0|].
  rewrite pretty_N_go_step by lia. rewrite IH by (apply N.div_lt; lia). unfold decimalFrom. cbn [list_ascii_of_string foldl]. f_equal.
  assert (Hc : forall d, (d < 10)%N -> (N_of_ascii (pretty_N_char d) - 48 = d)%N).
  { intros d Hd. assert (d = 0 \/ d = 1 \/ d = 2 \/ d = 3 \/ d = 4 \/ d = 5 \/ d = 6 \/ d = 7 \/ d = 8 \/ d = 9)%N as Hd' by lia.
    repeat destruct Hd' as [->|Hd']; try reflexivity. by subst d. }
  rewrite Hc by (apply N.mod_lt; lia). pose proof (N.div_mod x 10 ltac:(lia)). lia.
Qed.
Lemma decimal_pretty (n : Z) : 0 <= n -> Z.of_N (decimalFrom 0 (pretty n)) = n.
Proof.
  intros Hn. destruct n as [|n|n]; [done| |lia]. change (pretty (Z.pos n)) with (pretty (N.pos n)). unfold pretty, pretty_N.
  destruct (decide (N.pos n = 0%N)); [done|]. rewrite decimal_go. done.
Qed.
Lemma decimal_zeros k s : decimalFrom 0 (string_of_list_ascii (repeat "0"%char k) +:+ s) = decimalFrom 0 s.
Proof. induction k as [|k IH]; [done|]. exact IH. Qed.
