(* ===== verification/JobErrors.v ===== *)
(** * Job errors and their backoff

    Model of [internal/store/class.go] and of [DurableErrorText] in
    [internal/store/runner.go]: the failure classes, the markers a handler's
    error carries through wrapping (terminal, yield, deferral, successor
    retry) and the delay before a retry.  An error is its tree under [Unwrap];
    [errors.As] and [errors.Is] search it in preorder.  A duration is its
    nanoseconds. *)
From S2P Require Import Prelude.

Inductive ErrClass := ClassAuth | ClassOOM | ClassCorrupt | ClassExtract | ClassGeneric.
#[export] Instance ErrClass_eq_dec : EqDecision ErrClass.
Proof. solve_decision. Defined.

Definition classText (c : ErrClass) : string :=
  match c with
  | ClassAuth => "auth"
  | ClassOOM => "oom"
  | ClassCorrupt => "corrupt-shard"
  | ClassExtract => "extract"
  | ClassGeneric => "generic"
  end.

(** The dynamic type of an error: a sentinel of [errors.New], a text of
    [fmt.Errorf], a type with a [DurableErrorText] method (which in every
    such type is its [Error] text), or a marker of the package. *)
Inductive node :=
  | NSentinel (text : string)
  | NText (text : string)
  | NDurable (text : string)
  | NClassified (class : ErrClass)
  | NTerminal
  | NYield
  | NDeferral
  | NSuccessorRetry.
#[export] Instance node_eq_dec : EqDecision node.
Proof. solve_decision. Defined.

(** What [Unwrap] returns are the children: one for a marker and for a [%w],
    more for several of them. *)
Inductive err := Wrap (n : node) (causes : list err).
(** An [error]; [None] is nil. *)
Abbreviation error := (option err).

Fixpoint nodes (e : err) : list node :=
  match e with Wrap n causes => n :: flat_map nodes causes end.
Definition chain (e : error) : list node := from_option nodes [] e.

(** [Error()]; [None] is the nil dereference of a marker without a cause. *)
Fixpoint Error (e : err) : option string :=
  match e with
  | Wrap n causes =>
      let inner := match causes with [e'] => Error e' | _ => None end in
      match n with
      | NSentinel text | NText text | NDurable text => Some text
      | NClassified class => (fun t => classText class +:+ ": " +:+ t) <$> inner
      | NTerminal => (fun t => "terminal: " +:+ t) <$> inner
      | NYield => (fun t => "yield: " +:+ t) <$> inner
      | NDeferral => (fun t => "deferred: " +:+ t) <$> inner
      | NSuccessorRetry => inner
      end
  end.

(** [errors.Is] for a sentinel and [errors.As] for a marker type. *)
Definition errorsIs (e : error) (sentinel : string) : bool := existsb (fun n => bool_decide (n = NSentinel sentinel)) (chain e).
Definition errorsAs (e : error) (n : node) : bool := existsb (fun n' => bool_decide (n' = n)) (chain e).

Definition WithClass (class : ErrClass) (e : error) : err := Wrap (NClassified class) (option_list e).
Definition WithTerminal (e : error) : error := (fun e => Wrap NTerminal [e]) <$> e.
Definition IsTerminal (e : error) : bool := errorsAs e NTerminal.
Definition WithYield (e : error) : error := (fun e => Wrap NYield [e]) <$> e.
Definition IsYield (e : error) : bool := errorsAs e NYield.
Definition WithDeferral (e : error) : error := (fun e => Wrap NDeferral [e]) <$> e.
Definition IsDeferral (e : error) : bool := errorsAs e NDeferral.
Definition IsSuccessorRetry (e : error) : bool := errorsAs e NSuccessorRetry.
Definition WithSuccessorRetry (e : error) : error :=
  match e with
  | None => None
  | Some e' => if IsSuccessorRetry e then e else Some (Wrap NSuccessorRetry [e'])
  end.

Definition classOf (n : node) : option ErrClass := match n with NClassified c => Some c | _ => None end.
(** The first classified error in preorder. *)
Definition Classify (e : error) : ErrClass := default ClassGeneric (head (omap classOf (chain e))).

Definition durableOf (n : node) : option string := match n with NDurable text => Some text | _ => None end.
Definition DurableErrorText (e : error) : option string :=
  match e with
  | None => Some ""
  | Some e' => match head (omap durableOf (chain e)) with Some text => Some text | None => Error e' end
  end.

(** ** Backoff *)
Definition Second : Z := 10 ^ 9.
Definition Minute : Z := 60 * Second.
Definition Hour : Z := 60 * Minute.

Definition backoffBase (class : ErrClass) : Z :=
  match class with
  | ClassAuth => 10 * Minute
  | ClassOOM => 5 * Minute
  | ClassCorrupt => Second
  | ClassExtract => 2 * Minute
  | ClassGeneric => 30 * Second
  end.

(** [None] is the panic of a shift by a negative count. *)
Definition DefaultBackoff (e : error) (attempts : Z) : option Z :=
  if attempts <? 0 then None
  else
    let d := i64 (Z.shiftl (backoffBase (Classify e)) attempts) in
    Some (if Hour <? d then Hour else d).

(** The attempts for which no class overflows: ten minutes fit 23 doublings
    into an [int64]. *)
Definition MaxBackoffAttempts : Z := 23.

(** ** Markers *)
Lemma chain_wrap n e : chain (Some (Wrap n [e])) = n :: chain (Some e).
Proof. cbn. rewrite app_nil_r. reflexivity. Qed.

Lemma errorsAs_wrap n n' e : errorsAs (Some (Wrap n [e])) n' = bool_decide (n = n') || errorsAs (Some e) n'.
Proof. unfold errorsAs. rewrite chain_wrap. reflexivity. Qed.

Lemma Classify_wrap n e : Classify (Some (Wrap n [e])) = default (Classify (Some e)) (classOf n).
Proof. unfold Classify. rewrite chain_wrap. destruct n; reflexivity. Qed.

(** The markers other than a class, and what attaches each. *)
Inductive marker : node -> (error -> error) -> Prop :=
  | marker_terminal : marker NTerminal WithTerminal
  | marker_yield : marker NYield WithYield
  | marker_deferral : marker NDeferral WithDeferral
  | marker_successor : marker NSuccessorRetry WithSuccessorRetry.

Lemma marker_spec n f e :
  marker n f ->
  chain (f (Some e)) = n :: chain (Some e) \/ (n = NSuccessorRetry /\ f (Some e) = Some e /\ IsSuccessorRetry (Some e) = true).
Proof.
  intros []; try (left; apply chain_wrap). unfold WithSuccessorRetry.
  destruct (IsSuccessorRetry (Some e)) eqn:E; [right; auto|left; apply chain_wrap].
Qed.

(** The markers of a job error compose in any order: attaching one keeps
    the class and every other marker, makes itself found, and leaves nil
    alone; the outermost class wins and hides no marker. *)
Theorem markers_compose n f class e :
  marker n f ->
  f None = None /\
  errorsAs (f (Some e)) n = true /\
  (forall n', n' <> n -> errorsAs (f (Some e)) n' = errorsAs (Some e) n') /\
  Classify (f (Some e)) = Classify (Some e) /\
  Classify (Some (WithClass class (f (Some e)))) = class /\
  Classify (f (Some (WithClass class (Some e)))) = class /\
  errorsAs (Some (WithClass class (f (Some e)))) n = true.
Proof.
  intros Hm.
  assert (Hn : f None = None) by (destruct Hm; reflexivity).
  assert (Hc : classOf n = None) by (destruct Hm; reflexivity).
  assert (Has : forall e', errorsAs (f (Some e')) n = true).
  { intros e'. destruct (marker_spec n f e' Hm) as [H|(-> & -> & H)]; [|exact H].
    unfold errorsAs. rewrite H. cbn. rewrite bool_decide_true by reflexivity. reflexivity. }
  assert (Hk : forall e', Classify (f (Some e')) = Classify (Some e')).
  { intros e'. destruct (marker_spec n f e' Hm) as [H|(-> & -> & H)]; [|reflexivity].
    unfold Classify. rewrite H. cbn [omap list_omap]. rewrite Hc. reflexivity. }
  split; [exact Hn|]. split; [apply Has|]. split.
  { intros n' Hne. destruct (marker_spec n f e Hm) as [H|(-> & -> & H)]; [|reflexivity].
    unfold errorsAs. rewrite H. cbn. rewrite bool_decide_false by congruence. reflexivity. }
  split; [apply Hk|]. split; [reflexivity|]. split; [rewrite Hk; reflexivity|].
  specialize (Has e). destruct (f (Some e)) as [e'|]; [|discriminate].
  change (errorsAs (Some (Wrap (NClassified class) [e'])) n = true). rewrite errorsAs_wrap, Has. apply orb_true_r.
Qed.

Lemma backoffBase_bounds class : Second <= backoffBase class <= 10 * Minute.
Proof. destruct class; unfold backoffBase, Minute, Second; lia. Qed.

(** The backoff doubles from its class's base and is capped: for up to
    [MaxBackoffAttempts] attempts it is exactly the smaller of the base times
    [2 ^ attempts] and one hour, never under a second, and never shrinks as
    attempts grow. *)
Theorem backoff_exact e attempts :
  0 <= attempts <= MaxBackoffAttempts ->
  exists d, DefaultBackoff e attempts = Some d /\
    d = Z.min Hour (backoffBase (Classify e) * 2 ^ attempts) /\
    Second <= d <= Hour /\
    forall less d', 0 <= less <= attempts -> DefaultBackoff e less = Some d' -> d' <= d.
Proof.
  assert (Hexact : forall n, 0 <= n <= MaxBackoffAttempts ->
    DefaultBackoff e n = Some (Z.min Hour (backoffBase (Classify e) * 2 ^ n)) /\ 1 <= 2 ^ n).
  { intros n Hn. pose proof (backoffBase_bounds (Classify e)) as Hb. unfold DefaultBackoff, MaxBackoffAttempts in *.
    assert (H2 : 1 <= 2 ^ n <= 2 ^ 23) by (split; [apply (Z.pow_le_mono_r 2 0); lia|apply Z.pow_le_mono_r; lia]).
    rewrite (proj2 (Z.ltb_ge n 0)) by lia. rewrite Z.shiftl_mul_pow2 by lia.
    assert (0 <= backoffBase (Classify e) * 2 ^ n <= 10 * Minute * 2 ^ 23) by (unfold Second in *; nia).
    rewrite i64_small by (unfold MaxInt64, Minute, Second in *; lia). split; [|lia]. f_equal.
    destruct (Z.ltb_spec Hour (backoffBase (Classify e) * 2 ^ n)); lia. }
  intros Ha. destruct (Hexact attempts Ha) as [E H1]. pose proof (backoffBase_bounds (Classify e)) as Hb.
  eexists. split; [exact E|]. split; [reflexivity|]. split.
  - split; [|lia]. apply Z.min_glb; [unfold Hour, Minute, Second; lia|]. unfold Second in *. nia.
  - intros less d' Hl E'. destruct (Hexact less ltac:(lia)) as [E2 _]. rewrite E2 in E'. injection E' as <-.
    apply Z.min_le_compat_l, Z.mul_le_mono_nonneg_l; [unfold Second in *; lia|]. apply Z.pow_le_mono_r; lia.
Qed.

(** One doubling more and the longest base wraps to a negative delay. *)
Example backoff_wraps e :
  Classify e = ClassAuth -> exists d, DefaultBackoff e (MaxBackoffAttempts + 1) = Some d /\ d < 0.
Proof. intros H. eexists. unfold DefaultBackoff. rewrite H. split; [reflexivity|]. reflexivity. Qed.

Lemma markers_compose_witness :
  marker NTerminal WithTerminal /\ Classify (WithTerminal (Some (WithClass ClassOOM (Some (Wrap (NText "killed") []))))) = ClassOOM.
Proof.
  split; [constructor|].
  exact (proj1 (proj2 (proj2 (proj2 (proj2 (proj2
    (markers_compose NTerminal WithTerminal ClassOOM (Wrap (NText "killed") []) marker_terminal))))))).
Defined.

Lemma backoff_exact_witness :
  exists d, DefaultBackoff (Some (WithClass ClassExtract None)) 3 = Some d /\ d = 16 * Minute.
Proof.
  destruct (backoff_exact (Some (WithClass ClassExtract None)) 3) as (d & E & Hd & _).
  - unfold MaxBackoffAttempts; lia.
  - exists d. split; [exact E|]. rewrite Hd. reflexivity.
Defined.
