(* ===== verification/StoreErrors.v ===== *)
(** * Store errors

    How the store words an error and which ones a statement may be submitted
    again for ([isRetryable], [isRetryableEnqueue] of [internal/store/surreal.go]). *)
From Stdlib Require Import Ascii String.
From S2P Require Import Prelude.
From S2P Require Import JobErrors.

Definition ErrNotFound : string := "not found".
Definition ErrConflict : string := "conflict".
Definition sentinel (text : string) : err := Wrap (NSentinel text) [].
Definition quoted (s : string) : string := String (ascii_of_nat 34) EmptyString +:+ s +:+ String (ascii_of_nat 34) EmptyString.
Definition wrapping (prefix text : string) : err := Wrap (NText (prefix +:+ text)) [sentinel text].
Definition text (s : string) : err := Wrap (NText s) [].

(** [strings.ToLower], as far as a search for ASCII text can see it: no other
    code point than these two becomes an ASCII letter. *)
Fixpoint toLower (s : string) : string :=
  match s with
  | EmptyString => EmptyString
  | String c s' =>
      let n := nat_of_ascii c in
      if (Nat.leb 65 n && Nat.leb n 90)%bool then String (ascii_of_nat (n + 32)) (toLower s')
      else match s' with
           | String c2 s2 =>
               if Nat.eqb n 196 && Nat.eqb (nat_of_ascii c2) 176 then String "i" (toLower s2)
               else match s2 with
                    | String c3 s3 =>
                        if Nat.eqb n 226 && Nat.eqb (nat_of_ascii c2) 132 && Nat.eqb (nat_of_ascii c3) 170
                        then String "k" (toLower s3) else String c (toLower s')
                    | EmptyString => String c (toLower s')
                    end
           | EmptyString => String c EmptyString
           end
  end.
Fixpoint contains (s sub : string) : bool :=
  String.prefix sub s || match s with EmptyString => false | String _ s' => contains s' sub end.

Definition permanentErrMarker : string := "phebs-permanent:".
Definition messageOf (e : err) : string := toLower (default EmptyString (Error e)).
Definition isRetryable (e : err) : bool :=
  let msg := messageOf e in
  if contains msg permanentErrMarker then false else contains msg "conflict" || contains msg "retry".
Definition isRetryableEnqueue (e : err) : bool :=
  let msg := messageOf e in
  if contains msg permanentErrMarker then false
  else isRetryable e || contains msg "unique" || contains msg "already contains".

Definition maxQueueRetries : nat := 64.
