(* ===== verification/Ranking.v ===== *)
(** * Ranking of search results

    Model of [boundFileBefore] in [internal/search/bound.go] and of the
    selection of the best files that its accumulator repeats: the order on
    files is total up to the fields it compares, and cutting a sorted list to
    the limit commutes with merging, so neither batching nor the order of
    batches matters.  [FileMatch] is Zoekt's; a score or priority is a finite
    [float64], an integer in units of [2^-1074]. *)
From stdpp Require Import sorting.
From Stdlib Require Import Ascii String.
From S2P Require Import Prelude.
From S2P Require Import GoStrings.

(** The compared fields; the content and the matches are [fm_Rest]. *)
Record FileMatch := mkFile {
  fm_Score : Z;
  fm_Repository : string;
  fm_FileName : string;
  fm_Version : string;
  fm_Language : string;
  fm_SubRepositoryName : string;
  fm_SubRepositoryPath : string;
  fm_RepositoryPriority : Z;
  fm_RepositoryID : Z;
  fm_Checksum : list Z;
  fm_Rest : string
}.

(** [bytes.Compare]. *)
Fixpoint bytesCompare (a b : list Z) : comparison :=
  match a, b with
  | [], [] => Eq
  | [], _ => Lt
  | _, [] => Gt
  | x :: a', y :: b' => match x ?= y with Eq => bytesCompare a' b' | c => c end
  end.

Definition boundFileBefore (left right : FileMatch) : bool :=
  if negb (fm_Score left =? fm_Score right) then fm_Score right <? fm_Score left
  else if negb (String.eqb (fm_Repository left) (fm_Repository right)) then str_ltb (fm_Repository left) (fm_Repository right)
  else if negb (String.eqb (fm_FileName left) (fm_FileName right)) then str_ltb (fm_FileName left) (fm_FileName right)
  else if negb (String.eqb (fm_Version left) (fm_Version right)) then str_ltb (fm_Version left) (fm_Version right)
  else if negb (String.eqb (fm_Language left) (fm_Language right)) then str_ltb (fm_Language left) (fm_Language right)
  else if negb (String.eqb (fm_SubRepositoryName left) (fm_SubRepositoryName right))
       then str_ltb (fm_SubRepositoryName left) (fm_SubRepositoryName right)
  else if negb (String.eqb (fm_SubRepositoryPath left) (fm_SubRepositoryPath right))
       then str_ltb (fm_SubRepositoryPath left) (fm_SubRepositoryPath right)
  else if negb (fm_RepositoryPriority left =? fm_RepositoryPriority right)
       then fm_RepositoryPriority right <? fm_RepositoryPriority left
  else if negb (fm_RepositoryID left =? fm_RepositoryID right) then fm_RepositoryID left <? fm_RepositoryID right
  else match bytesCompare (fm_Checksum left) (fm_Checksum right) with Lt => true | _ => false end.

(** ** Lawful comparisons *)
Class LawfulCompare {A} (c : A -> A -> comparison) : Prop := {
  lc_opp : forall x y, c y x = CompOpp (c x y);
  lc_trans : forall x y z, c x y <> Gt -> c y z <> Gt -> c x z <> Gt
}.

Definition lex (c d : comparison) : comparison := match c with Eq => d | _ => c end.

Section Compare.
Context {A : Type} (c : A -> A -> comparison) `{!LawfulCompare c}.

Lemma lc_eq_sym x y : c x y = Eq -> c y x = Eq.
Proof. intros H. by rewrite lc_opp, H. Qed.

Lemma lc_lt_le x y z : c x y = Lt -> c y z <> Gt -> c x z = Lt.
Proof.
  intros H1 H2. assert (H3 : c x z <> Gt) by (eapply lc_trans; [by rewrite H1|exact H2]).
  destruct (c x z) eqn:E; [exfalso|reflexivity|congruence].
  assert (c y x <> Gt) as H by (eapply lc_trans; [exact H2|rewrite (lc_eq_sym _ _ E); discriminate]).
  by rewrite lc_opp, H1 in H.
Qed.

Lemma lc_le_lt x y z : c x y <> Gt -> c y z = Lt -> c x z = Lt.
Proof.
  intros H1 H2. assert (H3 : c x z <> Gt) by (eapply lc_trans; [exact H1|by rewrite H2]).
  destruct (c x z) eqn:E; [exfalso|reflexivity|congruence].
  assert (c z y <> Gt) as H by (eapply lc_trans; [rewrite (lc_eq_sym _ _ E); discriminate|exact H1]).
  by rewrite lc_opp, H2 in H.
Qed.
End Compare.

#[export] Instance lawful_lex {A} (c d : A -> A -> comparison) :
  LawfulCompare c -> LawfulCompare d -> LawfulCompare (fun x y => lex (c x y) (d x y)).
Proof.
  intros Hc Hd. split.
  - intros x y. rewrite (lc_opp (c := c) x y), (lc_opp (c := d) x y). by destruct (c x y).
  - intros x y z H1 H2. unfold lex in *.
    destruct (c x y) eqn:E1; [|rewrite (lc_lt_le c x y z E1); [discriminate|by destruct (c y z)]|congruence].
    destruct (c y z) eqn:E2; [|rewrite (lc_le_lt c x y z); [discriminate|by rewrite E1|exact E2]|congruence].
    assert (c x z = Eq) as ->; [|eapply lc_trans; eassumption].
    destruct (c x z) eqn:E3; [reflexivity|exfalso|exfalso].
    + pose proof (lc_lt_le c x z y E3) as H. rewrite (lc_eq_sym c _ _ E2), E1 in H. by discriminate H.
    + assert (c x z <> Gt) by (eapply lc_trans; [by rewrite E1|by rewrite E2]). congruence.
Qed.

#[export] Instance lawful_Z : LawfulCompare Z.compare.
Proof. split; [intros; apply Z.compare_antisym|]. intros x y z H1 H2. change (x <= z). by transitivity y. Qed.

#[export] Instance lawful_on {A B} (f : A -> B) (c : B -> B -> comparison) :
  LawfulCompare c -> LawfulCompare (fun x y => c (f x) (f y)).
Proof. intros H. split; [intros; apply lc_opp|intros x y z; apply lc_trans]. Qed.

#[export] Instance lawful_flip {A} (c : A -> A -> comparison) : LawfulCompare c -> LawfulCompare (fun x y => c y x).
Proof. intros H. split; [intros; apply lc_opp|intros x y z H1 H2; by apply (lc_trans z y x)]. Qed.

#[export] Instance lawful_string : LawfulCompare String.compare.
Proof.
  split; [intros; apply String.compare_antisym|]. intros a b c H1 H2 H3.
  destruct (String.compare a b) eqn:E1; [|clear H1|congruence].
  { apply String.compare_eq_iff in E1 as ->. congruence. }
  destruct (String.compare b c) eqn:E2; [|clear H2|congruence].
  { apply String.compare_eq_iff in E2 as ->. congruence. }
  rewrite (str_compare_trans _ _ _ E1 E2) in H3. discriminate.
Qed.

Lemma bytesCompare_eq a b : bytesCompare a b = Eq -> a = b.
Proof.
  revert b. induction a as [|x a IH]; intros [|y b]; cbn; try discriminate; [reflexivity|].
  destruct (Z.compare_spec x y) as [->| |]; try discriminate. intros H. f_equal. by apply IH.
Qed.

#[export] Instance lawful_bytes : LawfulCompare bytesCompare.
Proof.
  split.
  - intros a. induction a as [|x a IH]; intros [|y b]; try reflexivity. cbn. rewrite (Z.compare_antisym x y). destruct (x ?= y); try reflexivity.
    apply IH.
  - intros a. induction a as [|x a IH]; intros [|y b] [|z c]; cbn; try congruence. intros H1 H2.
    destruct (Z.compare_spec x y) as [->|Hxy|Hxy]; [| |congruence]; destruct (Z.compare_spec y z) as [->|Hyz|Hyz]; try congruence.
    + by eapply IH.
    + by rewrite (proj2 (Z.compare_lt_iff x z)).
    + rewrite (proj2 (Z.compare_lt_iff x z)) by lia. discriminate.
Qed.

(** ** The order on files *)

(** [boundFileBefore], as the comparison it decides. *)
Definition compareFiles (x y : FileMatch) : comparison :=
  lex (fm_Score y ?= fm_Score x)
  (lex (String.compare (fm_Repository x) (fm_Repository y))
  (lex (String.compare (fm_FileName x) (fm_FileName y))
  (lex (String.compare (fm_Version x) (fm_Version y))
  (lex (String.compare (fm_Language x) (fm_Language y))
  (lex (String.compare (fm_SubRepositoryName x) (fm_SubRepositoryName y))
  (lex (String.compare (fm_SubRepositoryPath x) (fm_SubRepositoryPath y))
  (lex (fm_RepositoryPriority y ?= fm_RepositoryPriority x)
  (lex (fm_RepositoryID x ?= fm_RepositoryID y)
       (bytesCompare (fm_Checksum x) (fm_Checksum y)))))))))).

#[export] Instance lawful_files : LawfulCompare compareFiles.
Proof.
  unfold compareFiles.
  repeat lazymatch goal with
  | |- LawfulCompare (fun x y => lex _ _) => apply lawful_lex
  | |- LawfulCompare (fun x y => ?f y ?= ?f x) => exact (lawful_flip (fun a b => f a ?= f b) (lawful_on f _ _))
  | |- LawfulCompare (fun x y => ?c (?f x) (?f y)) => exact (lawful_on f c _)
  end.
Qed.

Lemma before_number a b (rest : bool) d :
  rest = (match d with Lt => true | _ => false end) ->
  (if negb (a =? b) then b <? a else rest) = match lex (b ?= a) d with Lt => true | _ => false end.
Proof.
  intros ->. by destruct (Z.eqb_spec a b), (Z.ltb_spec b a), (Z.compare_spec b a); try lia.
Qed.

Lemma before_string a b (rest : bool) d :
  rest = (match d with Lt => true | _ => false end) ->
  (if negb (String.eqb a b) then str_ltb a b else rest) = match lex (String.compare a b) d with Lt => true | _ => false end.
Proof.
  intros ->. unfold str_ltb. destruct (String.eqb_spec a b) as [->|Hne].
  - by rewrite str_compare_refl.
  - destruct (String.compare a b) eqn:E; [|reflexivity..]. by apply String.compare_eq_iff in E.
Qed.

Lemma boundFileBefore_compare x y : boundFileBefore x y = match compareFiles x y with Lt => true | _ => false end.
Proof.
  unfold boundFileBefore, compareFiles. apply before_number. do 6 apply before_string. apply before_number.
  rewrite (Z.eqb_sym (fm_RepositoryID x)).
  rewrite <- (before_number (fm_RepositoryID y) (fm_RepositoryID x) _ _ eq_refl). reflexivity.
Qed.

(** Files the order cannot tell apart agree on every compared field. *)
Definition keyOf (f : FileMatch) : FileMatch :=
  mkFile (fm_Score f) (fm_Repository f) (fm_FileName f) (fm_Version f) (fm_Language f) (fm_SubRepositoryName f)
    (fm_SubRepositoryPath f) (fm_RepositoryPriority f) (fm_RepositoryID f) (fm_Checksum f) "".

Lemma lex_eq c d : lex c d = Eq -> c = Eq /\ d = Eq.
Proof. by destruct c. Qed.

Lemma compareFiles_eq x y : compareFiles x y = Eq -> keyOf x = keyOf y.
Proof.
  unfold compareFiles. intros H.
  repeat match goal with H : lex _ _ = Eq |- _ => apply lex_eq in H as [? H] end.
  repeat match goal with
  | H : String.compare _ _ = Eq |- _ => apply String.compare_eq_iff in H
  | H : (_ ?= _) = Eq |- _ => apply Z.compare_eq in H
  | H : bytesCompare _ _ = Eq |- _ => apply bytesCompare_eq in H
  end. unfold keyOf. congruence.
Qed.

(** ** Selecting the best of a list

    On keys the order is antisymmetric, so sorting is a function and the order
    of the input does not matter. *)
Definition fileLe (x y : FileMatch) : Prop := boundFileBefore y x = false.
#[export] Instance fileLe_dec : RelDecision fileLe.
Proof. intros x y. unfold fileLe. apply _. Defined.

Lemma fileLe_compare x y : fileLe x y <-> compareFiles x y <> Gt.
Proof.
  unfold fileLe. rewrite boundFileBefore_compare, (lc_opp (c := compareFiles) x y). by destruct (compareFiles x y).
Qed.

#[export] Instance fileLe_trans : Transitive fileLe.
Proof. intros x y z. rewrite !fileLe_compare. apply lc_trans. Qed.
#[export] Instance fileLe_total : Total fileLe.
Proof.
  intros x y. rewrite !fileLe_compare, (lc_opp (c := compareFiles) x y). destruct (compareFiles x y); cbn; auto.
Qed.
Lemma fileLe_key x y : fileLe x y -> fileLe y x -> keyOf x = keyOf y.
Proof.
  rewrite !fileLe_compare, (lc_opp (c := compareFiles) x y). intros H1 H2. apply compareFiles_eq. by destruct (compareFiles x y).
Qed.
Lemma fileLe_keyOf x y : fileLe (keyOf x) (keyOf y) <-> fileLe x y.
Proof. reflexivity. Qed.

(** Some best files of a list, up to [limit] of them. *)
Definition Picks (limit : nat) (all picked : list FileMatch) : Prop :=
  exists full, full ≡ₚ all /\ StronglySorted fileLe full /\ picked ≡ₚ take limit full.

Lemma sorted_prefix (P : FileMatch -> Prop) `{!forall x, Decision (P x)} l k :
  (forall x y, fileLe x y -> P y -> P x) -> StronglySorted fileLe l -> (k <= length (filter P l))%nat -> Forall P (take k l).
Proof.
  intros Hdown Hl. revert k. induction Hl as [|x l Hl IH Hx]; intros [|k] Hk; cbn [take]; try constructor.
  - assert (exists y, y ∈ x :: l /\ P y) as (y & [->|Hy]%elem_of_cons & HP); [|exact HP|].
    { destruct (filter P (x :: l)) as [|y f] eqn:E; [cbn in Hk; lia|].
      assert (y ∈ filter P (x :: l)) as Hy by (rewrite E; left). apply list_elem_of_filter in Hy as [? ?]. eauto. }
    rewrite Forall_forall in Hx. by apply (Hdown x y (Hx y Hy)).
  - apply IH. rewrite filter_cons in Hk. destruct (decide (P x)); cbn in Hk; lia.
Qed.

Lemma sorted_split l k x y :
  StronglySorted fileLe l -> x ∈ take k l -> y ∈ drop k l -> fileLe x y.
Proof.
  intros Hl. revert k. induction Hl as [|z l Hl IH Hz]; intros [|k] Hx Hy; cbn in *; try (by inversion Hx).
  apply elem_of_cons in Hx as [->|Hx]; [|by apply (IH k)].
  rewrite Forall_forall in Hz. apply Hz. rewrite <- (take_drop k l). apply elem_of_app. by right.
Qed.

Lemma filter_all (P : FileMatch -> Prop) `{!forall x, Decision (P x)} l : Forall P l -> filter P l = l.
Proof. induction 1; [reflexivity|]. rewrite filter_cons_True by assumption. by f_equal. Qed.

(** A list that was cut off is beaten by everything kept from it, and so by
    the best of any merge with it. *)
Lemma cut_below full kept merged k x r :
  StronglySorted fileLe full -> kept ≡ₚ take k full -> r ∈ drop k full ->
  StronglySorted fileLe merged -> (exists others, merged ≡ₚ kept ++ others) -> x ∈ take k merged -> fileLe x r.
Proof.
  intros Hf Hk Hr Hm [others Ho] Hx.
  assert (Hall : Forall (fun y => fileLe y r) kept).
  { rewrite Hk. apply Forall_forall. intros y Hy. by apply (sorted_split full k). }
  assert (Hlen : length kept = k).
  { rewrite Hk, length_take. apply list_elem_of_lookup_1 in Hr as [i Hi]. rewrite lookup_drop in Hi. apply lookup_lt_Some in Hi. lia. }
  pose proof (sorted_prefix (fun y => fileLe y r) merged k) as H. rewrite Forall_forall in H.
  apply H; [intros a b Hab Hb; by transitivity b|exact Hm| |exact Hx].
  rewrite Ho, filter_app, length_app, filter_all by exact Hall. lia.
Qed.

Lemma sorted_app l1 l2 :
  StronglySorted fileLe l1 -> StronglySorted fileLe l2 -> (forall x y, x ∈ l1 -> y ∈ l2 -> fileLe x y) -> StronglySorted fileLe (l1 ++ l2).
Proof.
  intros H1 H2. induction H1 as [|x l1 H1 IH Hx]; intros H; [exact H2|]. cbn. constructor.
  - apply IH. intros. apply H; [by right|assumption].
  - apply Forall_app. split; [exact Hx|]. apply Forall_forall. intros y Hy. apply H; [left|exact Hy].
Qed.

Lemma sorted_take l k : StronglySorted fileLe l -> StronglySorted fileLe (take k l).
Proof.
  intros Hl. revert k. induction Hl as [|z l Hl IH Hz]; intros [|k]; cbn; constructor; [apply IH|by apply Forall_take].
Qed.

(** Merging the kept files of two lists and cutting again keeps the best of
    both lists. *)
Lemma Picks_merge k all1 all2 kept1 kept2 merged :
  Picks k all1 kept1 -> Picks k all2 kept2 -> merged ≡ₚ kept1 ++ kept2 -> StronglySorted fileLe merged ->
  Picks k (all1 ++ all2) (take k merged).
Proof.
  intros (f1 & P1 & S1 & K1) (f2 & P2 & S2 & K2) Hm Sm.
  set (rest := drop k merged ++ drop k f1 ++ drop k f2).
  assert (Hrest : merge_sort fileLe rest ≡ₚ rest) by apply merge_sort_Permutation.
  exists (take k merged ++ merge_sort fileLe rest). split; [|split].
  - rewrite Hrest. unfold rest. rewrite app_assoc, take_drop, Hm, K1, K2, <- P1, <- P2.
    rewrite <- (take_drop k f1) at 3. rewrite <- (take_drop k f2) at 3. solve_Permutation.
  - apply sorted_app; [by apply sorted_take|apply (StronglySorted_merge_sort fileLe)|].
    intros x r Hx Hr. rewrite Hrest in Hr. unfold rest in Hr. rewrite !elem_of_app in Hr. destruct Hr as [Hr|[Hr|Hr]].
    + by apply (sorted_split merged k).
    + apply (cut_below f1 kept1 merged k); eauto.
    + apply (cut_below f2 kept2 merged k); eauto. exists kept1. by rewrite Hm, Permutation_app_comm.
  - assert (Hcut : (length merged < k)%nat -> rest = []).
    { intros Hle. assert (Hl : length merged = (length kept1 + length kept2)%nat) by (by rewrite Hm, length_app).
      rewrite K1, K2, !length_take in Hl. unfold rest. by rewrite (drop_ge merged), (drop_ge f1), (drop_ge f2) by lia. }
    destruct (le_lt_dec k (length merged)) as [Hle|Hlt]; [by rewrite take_app_le, take_take, Nat.min_id by (rewrite length_take; lia)|].
    rewrite Hcut by exact Hlt. by rewrite app_nil_r, take_take, Nat.min_id.
Qed.

Lemma Picks_whole k all : (length all <= k)%nat -> Picks k all all.
Proof.
  intros Hle. exists (merge_sort fileLe all). split; [apply merge_sort_Permutation|].
  split; [apply (StronglySorted_merge_sort fileLe)|]. rewrite take_ge; [by rewrite merge_sort_Permutation|].
  by rewrite merge_sort_Permutation.
Qed.

(** What is picked, in order, is determined up to the fields compared. *)
Lemma Picks_unique k all1 all2 l1 l2 :
  Picks k all1 l1 -> Picks k all2 l2 -> StronglySorted fileLe l1 -> StronglySorted fileLe l2 ->
  keyOf <$> all1 ≡ₚ keyOf <$> all2 -> keyOf <$> l1 = keyOf <$> l2.
Proof.
  intros (f1 & P1 & S1 & K1) (f2 & P2 & S2 & K2) Hs1 Hs2 Hall.
  assert (Huniq : forall a b, StronglySorted fileLe a -> StronglySorted fileLe b -> keyOf <$> a ≡ₚ keyOf <$> b -> keyOf <$> a = keyOf <$> b).
  { intros a b Ha Hb Hab. apply (StronglySorted_unique_strong fileLe); [| | |exact Hab].
    - intros x y (x' & -> & _)%list_elem_of_fmap (y' & -> & _)%list_elem_of_fmap H1 H2. by apply fileLe_key.
    - clear -Ha. induction Ha as [|x a Ha IH Hx]; constructor; [exact IH|]. by apply Forall_fmap.
    - clear -Hb. induction Hb as [|x a Ha IH Hx]; constructor; [exact IH|]. by apply Forall_fmap. }
  apply Huniq; [assumption..|]. rewrite K1, K2.
  assert (keyOf <$> f1 = keyOf <$> f2) as E by (apply Huniq; [assumption..|by rewrite P1, P2]).
  by rewrite !fmap_take, E.
Qed.

Lemma Picks_length k all l : Picks k all l -> length l = Nat.min k (length all).
Proof. intros (f & P & _ & K). by rewrite K, length_take, P. Qed.
