(* ===== verification/BoundSearch.v ===== *)
(** * Bound search

    Model of [runBoundSearch] in [internal/search/bound.go] with its worker
    pool, its result accumulator and its choice of error, and of the two
    filters of [searcher.go] it applies.  One search runs on many backends at
    once; what it returns must not depend on the order in which they end.

    Zoekt is a third party: the counters it adds up are an abstract type with
    the laws of [ZoektStats], what a backend's [Search] returns is an argument
    of the step that ends it, and so are the answers of the validators that
    read the store ([focusedCurrent], [wholeGenerationsCurrent],
    [filterCurrentWholeResult]).  [sort.Slice] may leave equal files in any
    order: it is any function that obeys [SortsFiles]. *)
From stdpp Require Import sorting.
From Stdlib Require Import Ascii String.
From S2P Require Import Prelude.
From S2P Require Import JobErrors Ranking.

(** [Stats.Add] adds counters; the first flush reason that is not zero
    sticks. *)
Class ZoektStats (S : Type) := {
  noStats : S;
  addStats : S -> S -> S;
  stickyReason : Z -> Z -> Z;
  addStats_comm : forall a b, addStats a b = addStats b a;
  addStats_assoc : forall a b c, addStats a (addStats b c) = addStats (addStats a b) c;
  stickyReason_zero : forall f, stickyReason f 0 = f;
  stickyReason_set : forall f g, f <> 0 -> stickyReason f g = f
}.

Class SortsFiles (sortSlice : list FileMatch -> list FileMatch) : Prop := {
  sort_permutes : forall l, sortSlice l ≡ₚ l;
  sort_orders : forall l, StronglySorted fileLe (sortSlice l)
}.

#[export] Instance merge_SortsFiles : SortsFiles (merge_sort fileLe).
Proof. split; [apply merge_sort_Permutation|intros; apply (StronglySorted_merge_sort fileLe)]. Qed.

Definition clamp (v def max : Z) : Z := if v <=? 0 then def else if max <? v then max else v.

Section Search.
Context {Stats : Type} `{!ZoektStats Stats} (sortSlice : list FileMatch -> list FileMatch) `{!SortsFiles sortSlice}.

Record SearchResult := mkResult {
  sr_Stats : Stats;
  sr_FlushReason : Z;
  sr_Duration : Z;
  sr_Files : list FileMatch;
  sr_RepoURLs : gmap string string;
  sr_LineFragments : gmap string string
}.
#[export] Instance eta_SearchResult : Eta SearchResult := fun r =>
  mkResult (sr_Stats r) (sr_FlushReason r) (sr_Duration r) (sr_Files r) (sr_RepoURLs r) (sr_LineFragments r).

(** ** Filters *)
Definition filterResultVersions (versions : gmap string string) (r : SearchResult) : SearchResult :=
  r <| sr_Files ::= filter (fun f => default "" (versions !! fm_Repository f) = fm_Version f) |>.
Definition filterFocusedLeaseResult (repository : string) (r : SearchResult) : SearchResult :=
  r <| sr_Files ::= filter (fun f => fm_Repository f = repository) |>.

(** ** The accumulator *)
Record boundResultAccumulator := mkAccumulator {
  ac_result : SearchResult;
  ac_limit : Z;
  ac_flushReasonSource : Z;
  ac_repoURLSources : gmap string Z;
  ac_fragmentSources : gmap string Z
}.
#[export] Instance eta_boundResultAccumulator : Eta boundResultAccumulator := fun a =>
  mkAccumulator (ac_result a) (ac_limit a) (ac_flushReasonSource a) (ac_repoURLSources a) (ac_fragmentSources a).

Definition newBoundResultAccumulator (maxFiles : Z) : boundResultAccumulator :=
  mkAccumulator (mkResult noStats 0 0 [] ∅ ∅) maxFiles (-1) ∅ ∅.

(** One turn of the range loop of [mergeBoundStringMap]; Go ranges over a map
    in an unspecified order, each key once. *)
Definition mergeEntry (source : Z) (key value : string) (ts : gmap string string * gmap string Z) : gmap string string * gmap string Z :=
  let '(target, sources) := ts in
  if match sources !! key with None => true | Some previous => source <? previous end
  then (<[key := value]> target, <[key := source]> sources) else (target, sources).
Definition mergeBoundStringMap (target : gmap string string) (sources : gmap string Z) (source : Z) (values : gmap string string) :=
  map_fold (mergeEntry source) (target, sources) values.

Definition cut (limit : Z) (files : list FileMatch) : list FileMatch :=
  if limit <? Z.of_nat (length files) then take (Z.to_nat limit) files else files.

Definition addFiles (files : list FileMatch) (a : boundResultAccumulator) : boundResultAccumulator :=
  if (ac_limit a <=? 0) || (Z.of_nat (length files) =? 0) then a else
  let files := if ac_limit a <? Z.of_nat (length files) then cut (ac_limit a) (sortSlice files) else files in
  let combined := sortSlice (sr_Files (ac_result a) ++ files) in
  a <| ac_result ::= fun r => r <| sr_Files := cut (ac_limit a) combined |> |>.

Definition add (source : Z) (result : SearchResult) (a : boundResultAccumulator) : boundResultAccumulator :=
  let reason := stickyReason (sr_FlushReason (ac_result a)) (sr_FlushReason result) in
  let first := negb (sr_FlushReason result =? 0) && ((ac_flushReasonSource a <? 0) || (source <? ac_flushReasonSource a)) in
  let urls := mergeBoundStringMap (sr_RepoURLs (ac_result a)) (ac_repoURLSources a) source (sr_RepoURLs result) in
  let fragments := mergeBoundStringMap (sr_LineFragments (ac_result a)) (ac_fragmentSources a) source (sr_LineFragments result) in
  addFiles (sr_Files result)
    (mkAccumulator
      (mkResult (addStats (sr_Stats (ac_result a)) (sr_Stats result)) (if first then sr_FlushReason result else reason)
         (sr_Duration (ac_result a)) (sr_Files (ac_result a)) urls.1 fragments.1)
      (ac_limit a) (if first then source else ac_flushReasonSource a) urls.2 fragments.2).

Definition finish (duration : Z) (a : boundResultAccumulator) : SearchResult := (ac_result a) <| sr_Duration := duration |>.

(** ** Errors *)
Definition canceledText : string := "context canceled".
Definition deadlineText : string := "context deadline exceeded".
Definition contextTermination (e : err) : bool := errorsIs (Some e) canceledText || errorsIs (Some e) deadlineText.

Record boundSearchError := mkError { be_index : nat; be_err : err }.

Definition selectBoundSearchError (current : option boundSearchError) (candidate : boundSearchError) : option boundSearchError :=
  match current with
  | None => Some candidate
  | Some cur =>
      let currentContext := contextTermination (be_err cur) in
      let candidateContext := contextTermination (be_err candidate) in
      if currentContext && negb candidateContext then Some candidate
      else if Bool.eqb currentContext candidateContext && Nat.ltb (be_index candidate) (be_index cur) then Some candidate
      else current
  end.

Definition generationChanged : string := "whole-repository generation changed during query".
Definition wholeGenerationError (ctxErr : error) (detail : string) : err :=
  match ctxErr with
  | Some e => e
  | None => Wrap (NText (generationChanged +:+ ": " +:+ detail)) [Wrap (NSentinel generationChanged) []]
  end.

(** ** The workers *)
Record outcome := mkOutcome { oc_index : nat; oc_result : option SearchResult; oc_err : error }.

Inductive worker := Idle | Searching (index : nat) | Sending (o : outcome) | Exited.

(** [jobs] is filled and closed before the workers start; [outcomes] has room
    for one outcome per worker; [received] is what the accumulating loop has
    taken out. *)
Record pool := mkPool {
  po_jobs : list nat;
  po_workers : list worker;
  po_outcomes : list outcome;
  po_received : list outcome;
  po_canceled : bool
}.
#[export] Instance eta_pool : Eta pool := fun p =>
  mkPool (po_jobs p) (po_workers p) (po_outcomes p) (po_received p) (po_canceled p).

Definition maxBoundWorkers : Z := 8.
Definition boundWorkerCount (gomaxprocs backends : Z) : Z :=
  if backends <=? 0 then 0 else
  let workers := if gomaxprocs <? 1 then 1 else gomaxprocs in
  let workers := if maxBoundWorkers <? workers then maxBoundWorkers else workers in
  if backends <? workers then backends else workers.

Definition startPool (gomaxprocs : Z) (backends : nat) : pool :=
  mkPool (seq 0 backends) (replicate (Z.to_nat (boundWorkerCount gomaxprocs (Z.of_nat backends))) Idle) [] [] false.

Inductive event :=
  | ETake (w : nat)
  | EFinish (w : nat) (result : option SearchResult) (err : error) (current : bool)
  | ESend (w : nat)
  | EReceive
  | ECancel.

(** [None] is a step that is not enabled or blocks.  A worker takes a job and
    tests its context in one step: a cancellation between the two comes to the
    same as one before them or one after them. *)
Definition step (e : event) (p : pool) : option pool :=
  match e with
  | ETake w =>
      match po_workers p !! w with
      | Some Idle =>
          match po_jobs p with
          | [] => Some (p <| po_workers ::= insert w Exited |>)
          | i :: jobs => Some (p <| po_jobs := jobs |> <| po_workers ::= insert w (if po_canceled p then Exited else Searching i) |>)
          end
      | _ => None
      end
  | EFinish w result err current =>
      match po_workers p !! w with
      | Some (Searching i) =>
          Some (p <| po_workers ::= insert w (Sending (mkOutcome i (if current then result else None) err)) |>
                  <| po_canceled ::= orb (negb (is_nil err)) |>)
      | _ => None
      end
  | ESend w =>
      match po_workers p !! w with
      | Some (Sending o) =>
          if Nat.ltb (length (po_outcomes p)) (length (po_workers p))
          then Some (p <| po_workers ::= insert w Idle |> <| po_outcomes ::= fun b => b ++ [o] |>) else None
      | _ => None
      end
  | EReceive =>
      match po_outcomes p with
      | o :: rest => Some (p <| po_outcomes := rest |> <| po_received ::= fun r => r ++ [o] |>)
      | [] => None
      end
  (** the caller's context ends *)
  | ECancel => Some (p <| po_canceled := true |>)
  end.

Fixpoint steps (l : list event) (p : pool) : option pool :=
  match l with
  | [] => Some p
  | e :: l' => match step e p with Some p' => steps l' p' | None => None end
  end.

(** The waiter closes [outcomes] when the workers have exited, which ends the
    accumulating loop once it is drained. *)
Definition exited (w : worker) : bool := match w with Exited => true | _ => false end.
Definition drained (p : pool) : bool := forallb exited (po_workers p) && is_nil (head (po_outcomes p)).

(** ** The search *)

(** What the accumulating loop needs of the compiled query: the versions and,
    for each backend, the repository of its focused lease. *)
Record compiledSearch := mkCompiled {
  cp_versions : gmap string string;
  cp_focused : list (option string);
  cp_legacyWhole : bool
}.

Definition filtered (c : compiledSearch) (o : outcome) : option SearchResult :=
  (fun r =>
    let r := filterResultVersions (cp_versions c) r in
    match cp_focused c !! oc_index o with
    | Some (Some repository) => filterFocusedLeaseResult repository r
    | _ => r
    end) <$> oc_result o.

Definition consume (c : compiledSearch) (s : boundResultAccumulator * option boundSearchError) (o : outcome) :=
  let '(a, selected) := s in
  (match filtered c o with Some r => add (Z.of_nat (oc_index o)) r a | None => a end,
   match oc_err o with Some e => selectBoundSearchError selected (mkError (oc_index o) e) | None => selected end).

Definition accumulate (c : compiledSearch) (maxMatches : Z) (received : list outcome) :=
  foldl (consume c) (newBoundResultAccumulator (clamp maxMatches 50 500), None) received.

(** What the checks after the loop find; [wholeGenerationError] reads the
    context anew. *)
Record checks := mkChecks {
  ck_callerErr : error;
  ck_ctxErr : error;
  ck_wholeCurrent : bool;
  ck_laterErr : error;
  ck_filterWhole : SearchResult -> SearchResult * bool;
  ck_duration : Z
}.

(** [runBoundSearch] from the outcomes its loop received. *)
Definition runBoundSearch (c : compiledSearch) (maxMatches : Z) (received : list outcome) (k : checks) : res err SearchResult :=
  if Nat.eqb (length (cp_focused c)) 0 then Ok (mkResult noStats 0 0 [] ∅ ∅) else
  let '(a, selected) := accumulate c maxMatches received in
  match selected, ck_callerErr k, ck_ctxErr k with
  | Some e, _, _ => Err (be_err e)
  | _, Some e, _ => Err e
  | _, _, Some e => Err e
  | None, None, None =>
      if negb (ck_wholeCurrent k) then Err (wholeGenerationError (ck_laterErr k) "reader generation changed during search") else
      let result := finish (ck_duration k) a in
      if cp_legacyWhole c then
        let '(result, ok) := ck_filterWhole k result in
        if ok then Ok result else Err (wholeGenerationError (ck_laterErr k) "legacy whole-repository row changed during search")
      else Ok result
  end.
End Search.
