(* ===== verification/BoundSearchTheorems.v ===== *)
(** * Bound search: theorems

    The response does not depend on the order in which backends end, keeps the
    best files, never hides an error, and the worker pool always finishes. *)
From stdpp Require Import sorting.
From Stdlib Require Import Ascii String.
From S2P Require Import Prelude.
From S2P Require Import JobErrors Ranking BoundSearch.

Section Theorems.
Context {Stats : Type} `{!ZoektStats Stats} (sortSlice : list FileMatch -> list FileMatch) `{!SortsFiles sortSlice}.
Implicit Types (r : SearchResult (Stats := Stats)) (o : outcome (Stats := Stats)) (a : boundResultAccumulator (Stats := Stats)) (p : pool (Stats := Stats)).

(** ** Merging maps *)
Definition wins (source : Z) (previous : option Z) : bool :=
  match previous with None => true | Some p => source <? p end.

Lemma merge_lookup target sources source values k :
  let ts := mergeBoundStringMap target sources source values in
  ts.1 !! k = (match values !! k with Some v => if wins source (sources !! k) then Some v else target !! k | None => target !! k end) /\
  ts.2 !! k = (match values !! k with Some _ => if wins source (sources !! k) then Some source else sources !! k | None => sources !! k end).
Proof.
  cbv zeta. unfold mergeBoundStringMap.
  apply (map_fold_weak_ind (fun ts m =>
    ts.1 !! k = (match m !! k with Some v => if wins source (sources !! k) then Some v else target !! k | None => target !! k end) /\
    ts.2 !! k = (match m !! k with Some _ => if wins source (sources !! k) then Some source else sources !! k | None => sources !! k end))).
  - by rewrite lookup_empty.
  - intros j v m [t s] Hj [H1 H2]. cbn in H1, H2. unfold mergeEntry. destruct (decide (j = k)) as [->|Hne].
    + rewrite Hj in H1, H2. rewrite H2. change (match sources !! k with None => true | Some p => source <? p end) with (wins source (sources !! k)).
      rewrite lookup_insert_eq. destruct (wins source (sources !! k)); cbn; rewrite ?lookup_insert_eq; auto.
    + rewrite lookup_insert_ne by exact Hne. destruct (match s !! j with None => true | Some p => source <? p end); cbn;
        rewrite ?lookup_insert_ne by exact Hne; auto.
Qed.

(** The entry of a key is that of the least source that has it. *)
Definition MergedOK (get : SearchResult (Stats := Stats) -> gmap string string) (rs : list (Z * SearchResult (Stats := Stats)))
    (target : gmap string string) (sources : gmap string Z) : Prop :=
  forall k,
    (sources !! k = None /\ target !! k = None /\ forall i r, (i, r) ∈ rs -> get r !! k = None) \/
    (exists i r v, (i, r) ∈ rs /\ get r !! k = Some v /\ sources !! k = Some i /\ target !! k = Some v /\
      forall i' r', (i', r') ∈ rs -> get r' !! k <> None -> i <= i').

Lemma MergedOK_nil get : MergedOK get [] ∅ ∅.
Proof. intros k. left. rewrite !lookup_empty. repeat split. intros i r H. by inversion H. Qed.

Lemma MergedOK_snoc get rs target sources i r :
  MergedOK get rs target sources ->
  let ts := mergeBoundStringMap target sources i (get r) in MergedOK get (rs ++ [(i, r)]) ts.1 ts.2.
Proof.
  intros HM ts k. destruct (merge_lookup target sources i (get r) k) as [H1 H2]. fold ts in H1, H2. rewrite H1, H2. clear ts H1 H2.
  destruct (get r !! k) as [v|] eqn:Ev; destruct (HM k) as [(Hs & Ht & Hn)|(j & rj & w & Hin & Hw & Hs & Ht & Hmin)]; rewrite Hs, Ht; cbn [wins].
  - right. exists i, r, v. rewrite elem_of_app, list_elem_of_singleton. repeat split; auto.
    intros i' r' [Hi|[= -> ->]%list_elem_of_singleton]%elem_of_app Hk; [|lia]. by rewrite (Hn i' r' Hi) in Hk.
  - right. destruct (Z.ltb_spec i j).
    + exists i, r, v. rewrite elem_of_app, list_elem_of_singleton. repeat split; auto.
      intros i' r' [Hi|[= -> ->]%list_elem_of_singleton]%elem_of_app Hk; [|lia]. specialize (Hmin i' r' Hi Hk). lia.
    + exists j, rj, w. rewrite elem_of_app. repeat split; auto.
      intros i' r' [Hi|[= -> ->]%list_elem_of_singleton]%elem_of_app Hk; [by eapply Hmin|lia].
  - left. repeat split. intros i' r' [Hi|[= -> ->]%list_elem_of_singleton]%elem_of_app; [by eapply Hn|exact Ev].
  - right. exists j, rj, w. rewrite elem_of_app. repeat split; auto.
    intros i' r' [Hi|[= -> ->]%list_elem_of_singleton]%elem_of_app Hk; [by eapply Hmin|congruence].
Qed.

Lemma source_unique {A} (rs : list (Z * A)) (i : Z) (a b : A) : NoDup rs.*1 -> (i, a) ∈ rs -> (i, b) ∈ rs -> a = b.
Proof.
  induction rs as [|[j c] rs IH]; intros Hn Ha Hb; [by inversion Ha|]. cbn in Hn. apply NoDup_cons in Hn as [Hj Hn].
  apply elem_of_cons in Ha as [Ha|Ha], Hb as [Hb|Hb]; [congruence| | |by apply IH]; exfalso; apply Hj.
  - injection Ha as <- <-. by apply (list_elem_of_fmap_2 fst _ (i, b)).
  - injection Hb as <- <-. by apply (list_elem_of_fmap_2 fst _ (i, a)).
Qed.

Lemma MergedOK_unique get rs rs' t t' s s' :
  rs ≡ₚ rs' -> NoDup rs.*1 -> MergedOK get rs t s -> MergedOK get rs' t' s' -> t = t'.
Proof.
  intros Hp Hn H1 H2. apply map_eq. intros k.
  destruct (H1 k) as [(_ & -> & Ha)|(i & r & v & Hin & Hv & _ & -> & Hmin)], (H2 k) as [(_ & -> & Hb)|(i' & r' & v' & Hin' & Hv' & _ & -> & Hmin')].
  - reflexivity.
  - rewrite <- Hp in Hin'. by rewrite (Ha _ _ Hin') in Hv'.
  - rewrite Hp in Hin. by rewrite (Hb _ _ Hin) in Hv.
  - assert (i <= i') by (apply (Hmin i' r'); [by rewrite Hp|congruence]).
    assert (i' <= i) by (apply (Hmin' i r); [by rewrite <- Hp|congruence]).
    assert (i = i') as -> by lia. rewrite <- Hp in Hin'. rewrite (source_unique rs i' r r' Hn Hin Hin') in Hv. congruence.
Qed.

(** ** The accumulator *)
Record AccOK (limit : Z) (rs : list (Z * SearchResult (Stats := Stats))) (a : boundResultAccumulator (Stats := Stats)) : Prop := {
  ao_limit : ac_limit a = limit;
  ao_files : Picks (Z.to_nat limit) (flat_map (fun x => sr_Files x.2) rs) (sr_Files (ac_result a));
  ao_sorted : StronglySorted fileLe (sr_Files (ac_result a));
  ao_stats : sr_Stats (ac_result a) = foldl addStats noStats (sr_Stats ∘ snd <$> rs);
  ao_reason : (ac_flushReasonSource a = -1 /\ sr_FlushReason (ac_result a) = 0 /\ forall i r, (i, r) ∈ rs -> sr_FlushReason r = 0) \/
    (exists i r, (i, r) ∈ rs /\ sr_FlushReason r <> 0 /\ ac_flushReasonSource a = i /\ sr_FlushReason (ac_result a) = sr_FlushReason r /\
      forall i' r', (i', r') ∈ rs -> sr_FlushReason r' <> 0 -> i <= i');
  ao_urls : MergedOK sr_RepoURLs rs (sr_RepoURLs (ac_result a)) (ac_repoURLSources a);
  ao_fragments : MergedOK sr_LineFragments rs (sr_LineFragments (ac_result a)) (ac_fragmentSources a)
}.

Lemma AccOK_new limit : AccOK limit [] (newBoundResultAccumulator limit).
Proof.
  constructor; cbn; try apply MergedOK_nil; try reflexivity; try constructor.
  - by apply Picks_whole; cbn; lia.
  - repeat split. intros i r H. by inversion H.
Qed.

Lemma cut_take limit files : cut limit files = take (Z.to_nat limit) files.
Proof. unfold cut. destruct (Z.ltb_spec limit (Z.of_nat (length files))); [reflexivity|]. by rewrite take_ge by lia. Qed.

(** What [addFiles] leaves of the old and the new files. *)
Lemma addFiles_picks limit all files a :
  0 < limit -> ac_limit a = limit ->
  Picks (Z.to_nat limit) all (sr_Files (ac_result a)) -> StronglySorted fileLe (sr_Files (ac_result a)) ->
  let a' := addFiles sortSlice files a in
  Picks (Z.to_nat limit) (all ++ files) (sr_Files (ac_result a')) /\ StronglySorted fileLe (sr_Files (ac_result a')).
Proof.
  intros Hpos Hl Hp Hs. unfold addFiles. rewrite Hl, (proj2 (Z.leb_gt limit 0)) by exact Hpos. cbn [orb].
  destruct (Z.eqb_spec (Z.of_nat (length files)) 0) as [E|E].
  { destruct files; [|cbn in E; lia]. rewrite app_nil_r. by split. }
  cbn. rewrite cut_take. split; [|apply sorted_take, sort_orders].
  eapply Picks_merge; [exact Hp| |apply sort_permutes|apply sort_orders].
  destruct (Z.ltb_spec limit (Z.of_nat (length files))).
  - rewrite cut_take. exists (sortSlice files). split; [apply sort_permutes|]. split; [apply sort_orders|reflexivity].
  - apply Picks_whole. lia.
Qed.

Lemma addFiles_rest files a :
  let a' := addFiles sortSlice files a in
  ac_limit a' = ac_limit a /\ ac_flushReasonSource a' = ac_flushReasonSource a /\
  ac_repoURLSources a' = ac_repoURLSources a /\ ac_fragmentSources a' = ac_fragmentSources a /\
  sr_Stats (ac_result a') = sr_Stats (ac_result a) /\ sr_FlushReason (ac_result a') = sr_FlushReason (ac_result a) /\
  sr_Duration (ac_result a') = sr_Duration (ac_result a) /\
  sr_RepoURLs (ac_result a') = sr_RepoURLs (ac_result a) /\ sr_LineFragments (ac_result a') = sr_LineFragments (ac_result a).
Proof. unfold addFiles. destruct (_ || _); repeat split. Qed.

Lemma AccOK_add limit rs a i r : 0 < limit -> 0 <= i -> (forall j r', (j, r') ∈ rs -> 0 <= j) ->
  AccOK limit rs a -> AccOK limit (rs ++ [(i, r)]) (add sortSlice i r a).
Proof.
  intros Hpos Hi Hrs [Hl Hf Hs Hst Hre Hu Hfr]. unfold add.
  set (first := negb (sr_FlushReason r =? 0) && _). set (b := mkAccumulator _ _ _ _ _).
  destruct (addFiles_rest (sr_Files r) b) as (E1 & E2 & E3 & E4 & E5 & E6 & _ & E7 & E8).
  destruct (addFiles_picks limit (flat_map (fun x => sr_Files x.2) rs) (sr_Files r) b Hpos Hl Hf Hs) as [HP HS].
  constructor; [by rewrite E1| |exact HS|rewrite E5|rewrite E2, E6|rewrite E7, E3|rewrite E8, E4]; cbn [b].
  - rewrite flat_map_app. cbn [flat_map snd]. by rewrite app_nil_r.
  - rewrite fmap_app, foldl_app. cbn. by rewrite <- Hst.
  - cbn. unfold first. clear -Hre Hi Hrs. destruct (Z.eqb_spec (sr_FlushReason r) 0) as [E0|E0]; cbn [negb andb].
    + rewrite E0, stickyReason_zero. destruct Hre as [(H1 & H2 & H3)|(j & rj & Hin & Hne & H1 & H2 & H3)]; [left|right].
      * repeat split; [assumption..|]. intros i' r' [H|[= -> ->]%list_elem_of_singleton]%elem_of_app; [by eapply H3|exact E0].
      * exists j, rj. rewrite elem_of_app. repeat split; auto.
        intros i' r' [H|[= -> ->]%list_elem_of_singleton]%elem_of_app Hk; [by eapply H3|congruence].
    + right. destruct Hre as [(H1 & H2 & H3)|(j & rj & Hin & Hne & H1 & H2 & H3)]; rewrite H1.
      * exists i, r. rewrite elem_of_app, list_elem_of_singleton. repeat split; auto.
        intros i' r' [H|[= -> ->]%list_elem_of_singleton]%elem_of_app Hk; [by rewrite (H3 _ _ H) in Hk|lia].
      * pose proof (Hrs _ _ Hin). rewrite (proj2 (Z.ltb_ge j 0)) by assumption. cbn [orb]. destruct (Z.ltb_spec i j).
        -- exists i, r. rewrite elem_of_app, list_elem_of_singleton. repeat split; auto.
           intros i' r' [H'|[= -> ->]%list_elem_of_singleton]%elem_of_app Hk; [specialize (H3 _ _ H' Hk)|]; lia.
        -- exists j, rj. rewrite elem_of_app, stickyReason_set by congruence. repeat split; auto.
           intros i' r' [H'|[= -> ->]%list_elem_of_singleton]%elem_of_app Hk; [by eapply H3|lia].
  - by apply MergedOK_snoc.
  - by apply MergedOK_snoc.
Qed.

(** Responses that agree on everything but which of several equally ranked
    files stands for them. *)
Definition sameResponse (r r' : SearchResult (Stats := Stats)) : Prop :=
  sr_Stats r = sr_Stats r' /\ sr_FlushReason r = sr_FlushReason r' /\ sr_Duration r = sr_Duration r' /\
  keyOf <$> sr_Files r = keyOf <$> sr_Files r' /\ sr_RepoURLs r = sr_RepoURLs r' /\ sr_LineFragments r = sr_LineFragments r'.
#[export] Instance sameResponse_equiv : Equivalence sameResponse.
Proof.
  split.
  - intros r. by repeat split.
  - intros r r' (? & ? & ? & ? & ? & ?). by repeat split.
  - intros r1 r2 r3 (? & ? & ? & ? & ? & ?) (? & ? & ? & ? & ? & ?). repeat split; congruence.
Qed.

Lemma sum_order (l l' : list Stats) s : l ≡ₚ l' -> foldl addStats s l = foldl addStats s l'.
Proof.
  intros Hp. revert s. induction Hp as [|x l l' _ IH|x y l|l l2 l3 _ IH1 _ IH2]; intros s; cbn; auto.
  - by rewrite <- !addStats_assoc, (addStats_comm y x).
  - by rewrite IH1.
Qed.

Lemma AccOK_unique limit rs rs' a a' d :
  rs ≡ₚ rs' -> NoDup rs.*1 -> AccOK limit rs a -> AccOK limit rs' a' -> sameResponse (finish d a) (finish d a').
Proof.
  intros Hp Hn [_ Hf Hs Hst Hre Hu Hfr] [_ Hf' Hs' Hst' Hre' Hu' Hfr']. unfold sameResponse, finish. cbn.
  split; [rewrite Hst, Hst'; apply sum_order; by rewrite Hp|]. split; [|split; [reflexivity|split; [|split]]].
  - destruct Hre as [(_ & -> & H3)|(i & r & Hin & Hne & _ & -> & H3)], Hre' as [(_ & -> & H3')|(i' & r' & Hin' & Hne' & _ & -> & H3')].
    + reflexivity.
    + rewrite <- Hp in Hin'. by rewrite (H3 _ _ Hin') in Hne'.
    + rewrite Hp in Hin. by rewrite (H3' _ _ Hin) in Hne.
    + assert (i <= i') by (apply (H3 i' r'); [by rewrite Hp|assumption]).
      assert (i' <= i) by (apply (H3' i r); [by rewrite <- Hp|assumption]).
      assert (i = i') as -> by lia. rewrite <- Hp in Hin'. by rewrite (source_unique rs i' r r' Hn Hin Hin').
  - eapply Picks_unique; [exact Hf|exact Hf'|exact Hs|exact Hs'|]. by rewrite Hp.
  - by eapply (MergedOK_unique sr_RepoURLs).
  - by eapply (MergedOK_unique sr_LineFragments).
Qed.

(** ** The error *)
Definition worse (e e' : boundSearchError) : Prop :=
  (contextTermination (be_err e) = true -> contextTermination (be_err e') = true) /\
  (contextTermination (be_err e) = contextTermination (be_err e') -> (be_index e <= be_index e')%nat).

Lemma worse_trans e1 e2 e3 : worse e1 e2 -> worse e2 e3 -> worse e1 e3.
Proof.
  unfold worse. intros [H1 H2] [H3 H4].
  destruct (contextTermination (be_err e1)), (contextTermination (be_err e2)), (contextTermination (be_err e3));
    try (specialize (H1 eq_refl); discriminate); try (specialize (H3 eq_refl); discriminate);
    (split; [auto|intros E; try discriminate E; specialize (H2 eq_refl); specialize (H4 eq_refl); lia]).
Qed.

Definition SelOK (es : list boundSearchError) (selected : option boundSearchError) : Prop :=
  match selected with None => es = [] | Some e => e ∈ es /\ forall e', e' ∈ es -> worse e e' end.

Lemma SelOK_select es selected e : SelOK es selected -> SelOK (es ++ [e]) (selectBoundSearchError selected e).
Proof.
  assert (Hrefl : forall x, worse x x) by (split; auto; lia).
  destruct selected as [cur|]; [|cbn; intros ->; split; [left|intros e' ->%list_elem_of_singleton; apply Hrefl]].
  intros [Hin Hw]. unfold selectBoundSearchError.
  assert (Hnew : worse e cur -> SelOK (es ++ [e]) (Some e)).
  { intros Hc. split; [rewrite elem_of_app, list_elem_of_singleton; by right|].
    intros e' [H| ->%list_elem_of_singleton]%elem_of_app; [|apply Hrefl]. apply (worse_trans e cur e' Hc), Hw, H. }
  assert (Hold : worse cur e -> SelOK (es ++ [e]) (Some cur)).
  { intros Hc. split; [rewrite elem_of_app; by left|]. intros e' [H| ->%list_elem_of_singleton]%elem_of_app; [by apply Hw|exact Hc]. }
  destruct (contextTermination (be_err cur)) eqn:E1, (contextTermination (be_err e)) eqn:E2; cbn [andb negb Bool.eqb];
    try destruct (Nat.ltb_spec (be_index e) (be_index cur)); (apply Hnew || apply Hold); unfold worse; rewrite E1, E2; (split; auto; lia || discriminate).
Qed.

(** ** The accumulating loop *)
Definition delivered (c : compiledSearch) (os : list (outcome (Stats := Stats))) : list (Z * SearchResult (Stats := Stats)) :=
  omap (fun o => (fun r => (Z.of_nat (oc_index o), r)) <$> filtered c o) os.
Definition failures (os : list (outcome (Stats := Stats))) : list boundSearchError :=
  omap (fun o => mkError (oc_index o) <$> oc_err o) os.

Lemma clamp_range v : 0 < clamp v 50 500 <= 500.
Proof. unfold clamp. destruct (Z.leb_spec v 0); [lia|]. destruct (Z.ltb_spec 500 v); lia. Qed.

Lemma delivered_nonneg c os i r : (i, r) ∈ delivered c os -> 0 <= i.
Proof. intros (o & _ & H)%list_elem_of_omap. destruct (filtered c o); [|discriminate]. injection H as <- _. lia. Qed.

Lemma accumulate_ok c maxMatches os :
  AccOK (clamp maxMatches 50 500) (delivered c os) (accumulate sortSlice c maxMatches os).1 /\
  SelOK (failures os) (accumulate sortSlice c maxMatches os).2.
Proof.
  unfold accumulate. set (a0 := newBoundResultAccumulator (clamp maxMatches 50 500)).
  induction os as [|o os IH] using rev_ind; [split; [apply AccOK_new|reflexivity]|].
  rewrite foldl_app. cbn [foldl]. destruct (foldl (consume sortSlice c) (a0, None) os) as [a selected]. cbn in IH. destruct IH as [HA HS].
  unfold delivered, failures. rewrite !omap_app. cbn. fold (delivered c os). fold (failures os). split.
  - destruct (filtered c o) as [r|]; cbn; [|by rewrite app_nil_r].
    apply AccOK_add; [apply clamp_range|lia|apply delivered_nonneg|exact HA].
  - destruct (oc_err o) as [e|]; cbn; [by apply SelOK_select|by rewrite app_nil_r].
Qed.

(** ** The pool *)
Definition heldBy (w : worker (Stats := Stats)) : list nat :=
  match w with Searching i => [i] | Sending o => [oc_index o] | _ => [] end.
Definition held p : list nat :=
  po_jobs p ++ flat_map heldBy (po_workers p) ++ (oc_index <$> po_outcomes p) ++ (oc_index <$> po_received p).
Definition finished p o : Prop := o ∈ po_outcomes p \/ o ∈ po_received p \/ exists w, po_workers p !! w = Some (Sending o).
Definition weight (w : worker (Stats := Stats)) : Z := match w with Idle => 1 | Searching _ => 4 | Sending _ => 3 | Exited => 0 end.
Definition work p : Z := 4 * Z.of_nat (length (po_jobs p)) + total weight (po_workers p) + Z.of_nat (length (po_outcomes p)).

Record PoolInv (n : nat) p : Prop := {
  pi_held : exists lost, held p ++ lost ≡ₚ seq 0 n /\ (po_canceled p = false -> lost = []);
  pi_errors : po_canceled p = false -> forall o, finished p o -> oc_err o = None;
  pi_exited : forall w, po_workers p !! w = Some Exited -> po_jobs p = [] \/ po_canceled p = true;
  pi_room : (length (po_outcomes p) <= length (po_workers p))%nat
}.

Lemma flat_map_insert (f : worker (Stats := Stats) -> list nat) l w x y :
  l !! w = Some y -> flat_map f (<[w := x]> l) ++ f y ≡ₚ flat_map f l ++ f x.
Proof.
  revert w. induction l as [|z l IH]; intros [|w] Hw; try discriminate.
  - injection Hw as ->. cbn. solve_Permutation.
  - cbn. rewrite <- !app_assoc. f_equiv. by apply IH.
Qed.

Lemma heldBy_insert p w x y : po_workers p !! w = Some y -> heldBy y ≡ₚ heldBy x ->
  flat_map heldBy (<[w := x]> (po_workers p)) ≡ₚ flat_map heldBy (po_workers p).
Proof. intros Hw E. pose proof (flat_map_insert heldBy _ w x y Hw) as H. rewrite E in H. by apply Permutation_app_inv_r in H. Qed.

Lemma worker_cases p w x y j z : po_workers p !! w = Some y -> <[w := x]> (po_workers p) !! j = Some z ->
  (j = w /\ z = x) \/ po_workers p !! j = Some z.
Proof. intros Hw Hj. destruct (lookup_insert_cases _ _ _ _ _ _ Hw Hj) as [|[_ ?]]; auto. Qed.

Lemma start_ok g n : PoolInv n (startPool g n).
Proof.
  assert (Hw : forall w x, po_workers (startPool (Stats := Stats) g n) !! w = Some x -> x = Idle).
  { intros w x [H _]%lookup_replicate. exact H. }
  constructor.
  - exists []. split; [|reflexivity]. unfold held. cbn.
    assert (forall k, flat_map heldBy (replicate k (Idle (Stats := Stats))) = []) as -> by (intros k; by induction k). by rewrite !app_nil_r.
  - intros _ o [H|[H|[w Hx]]]; [by inversion H..|]. by apply Hw in Hx.
  - intros w Hx. by apply Hw in Hx.
  - cbn. lia.
Qed.

Lemma step_ok n e p p' : PoolInv n p -> step e p = Some p' -> PoolInv n p'.
Proof.
  intros [[lost [Hh Hl]] He Hx Hr] H. destruct e as [w|w result er current|w| |]; unfold step in H.
  - destruct (po_workers p !! w) as [[| | |]|] eqn:Hw; try discriminate. destruct (po_jobs p) as [|i jobs] eqn:Ej; injection H as <-.
    + constructor; cbn.
      * exists lost. split; [|exact Hl]. rewrite <- Hh. unfold held. cbn. rewrite Ej. by rewrite (heldBy_insert p w _ _ Hw).
      * intros Hc o Ho. apply (He Hc). destruct Ho as [Ho|[Ho|[j Hj]]]; [by left|by right; left|right; right].
        destruct (worker_cases _ _ _ _ _ _ Hw Hj) as [[_ ?]|?]; [discriminate|eauto].
      * auto.
      * by rewrite length_insert.
    + constructor; cbn.
      * destruct (po_canceled p) eqn:Ec.
        -- exists (i :: lost). split; [|discriminate]. rewrite <- Hh. unfold held. cbn. rewrite Ej, (heldBy_insert p w _ _ Hw) by reflexivity.
           solve_Permutation.
        -- exists lost. split; [|exact Hl]. rewrite <- Hh. unfold held. cbn. rewrite Ej.
           pose proof (flat_map_insert heldBy _ w (Searching i) _ Hw) as E. cbn in E. rewrite app_nil_r in E. rewrite E. solve_Permutation.
      * intros Hc o Ho. apply (He Hc). destruct Ho as [Ho|[Ho|[j Hj]]]; [by left|by right; left|right; right].
        destruct (worker_cases _ _ _ _ _ _ Hw Hj) as [[_ ?]|?]; [by destruct (po_canceled p)|eauto].
      * intros j Hj. destruct (worker_cases _ _ _ _ _ _ Hw Hj) as [[_ E]|E]; [right; by destruct (po_canceled p)|].
        destruct (Hx _ E) as [|?]; [discriminate|by right].
      * by rewrite length_insert.
  - destruct (po_workers p !! w) as [[|i| |]|] eqn:Hw; try discriminate. injection H as <-. constructor; cbn.
    + exists lost. split; [|intros [_ Hc]%orb_false_iff; by apply Hl]. rewrite <- Hh. unfold held. cbn. by rewrite (heldBy_insert p w _ _ Hw).
    + intros [Hn Hc]%orb_false_iff o Ho. destruct Ho as [Ho|[Ho|[j Hj]]]; [apply (He Hc); by left|apply (He Hc); by right; left|].
      destruct (worker_cases _ _ _ _ _ _ Hw Hj) as [[_ [= ->]]|E]; [by destruct er|]. apply (He Hc). right; right. eauto.
    + intros j Hj. destruct (worker_cases _ _ _ _ _ _ Hw Hj) as [[_ E]|E]; [discriminate|].
      destruct (Hx _ E) as [|Hc]; [by left|right; rewrite Hc; apply orb_true_r].
    + by rewrite length_insert.
  - destruct (po_workers p !! w) as [[| |o|]|] eqn:Hw; try discriminate. destruct (Nat.ltb (length (po_outcomes p)) (length (po_workers p))) eqn:El in H; [|discriminate].
    apply Nat.ltb_lt in El. injection H as <-. constructor; cbn.
    + exists lost. split; [|exact Hl]. rewrite <- Hh. unfold held. cbn. rewrite fmap_app. cbn.
      pose proof (flat_map_insert heldBy _ w Idle _ Hw) as E. cbn in E. rewrite app_nil_r in E. rewrite <- E. solve_Permutation.
    + intros Hc o' Ho. apply (He Hc). destruct Ho as [[Ho|Ho%list_elem_of_singleton]%elem_of_app|[Ho|[j Hj]]]; [by left|subst; right; right; eauto|by right; left|right; right].
      destruct (worker_cases _ _ _ _ _ _ Hw Hj) as [[_ ?]|?]; [discriminate|eauto].
    + intros j Hj. destruct (worker_cases _ _ _ _ _ _ Hw Hj) as [[_ ?]|E]; [discriminate|eauto].
    + rewrite length_insert, length_app. cbn. lia.
  - destruct (po_outcomes p) as [|o rest] eqn:Eo; [discriminate|]. injection H as <-. constructor; cbn; [|intros Hc o' Ho; apply (He Hc)|exact Hx|cbn in Hr; lia].
    + exists lost. split; [|exact Hl]. rewrite <- Hh. unfold held. cbn. rewrite Eo, fmap_app. cbn. solve_Permutation.
    + unfold finished. rewrite Eo. destruct Ho as [Ho|[[Ho|Ho%list_elem_of_singleton]%elem_of_app|Ho]]; [left; by right|by right; left|subst; left; left|by right; right].
  - injection H as <-. constructor; cbn; [exists lost; split; [exact Hh|discriminate]|discriminate|auto|exact Hr].
Qed.

Definition internal (e : event (Stats := Stats)) : bool := match e with ECancel => false | _ => true end.

Lemma weight_nonneg (w : worker (Stats := Stats)) : 0 <= weight w.
Proof. destruct w; cbn; lia. Qed.

Lemma step_work e p p' : step e p = Some p' -> work p' + (if internal e then 1 else 0) <= work p.
Proof.
  intros H. destruct e as [w|w result er current|w| |]; unfold step in H; unfold work.
  - destruct (po_workers p !! w) as [[| | |]|] eqn:Hw; try discriminate.
    destruct (po_jobs p) as [|i jobs] eqn:Ej; injection H as <-; cbn; rewrite ?Ej, (total_insert _ _ _ _ _ Hw);
      [|destruct (po_canceled p)]; cbn [weight length]; lia.
  - destruct (po_workers p !! w) as [[|i| |]|] eqn:Hw; try discriminate. injection H as <-. cbn. rewrite (total_insert _ _ _ _ _ Hw). cbn [weight]. lia.
  - destruct (po_workers p !! w) as [[| |o|]|] eqn:Hw; try discriminate. destruct (Nat.ltb _ _) in H; [|discriminate].
    injection H as <-. cbn. rewrite (total_insert _ _ _ _ _ Hw), length_app. cbn [weight length]. lia.
  - destruct (po_outcomes p) as [|o rest]; [discriminate|]. injection H as <-. cbn [po_jobs po_workers po_outcomes length internal]. cbn. lia.
  - injection H as <-. cbn. lia.
Qed.

Lemma work_nonneg p : 0 <= work p.
Proof. unfold work. pose proof (total_nonneg weight (po_workers p) weight_nonneg). lia. Qed.

Lemma steps_work l p p' : steps l p = Some p' -> Z.of_nat (length (List.filter internal l)) + work p' <= work p.
Proof.
  revert p. induction l as [|e l IH]; intros p H; cbn in H; [injection H as <-; cbn; lia|].
  destruct (step e p) as [p1|] eqn:E; [|discriminate]. specialize (IH p1 H). pose proof (step_work e p p1 E) as Hs.
  cbn [List.filter]. destruct (internal e); cbn [length]; lia.
Qed.

Lemma steps_ok n l p p' : PoolInv n p -> steps l p = Some p' -> PoolInv n p'.
Proof.
  revert p. induction l as [|e l IH]; intros p HI H; cbn in H; [by injection H as <-|].
  destruct (step e p) as [p1|] eqn:E; [|discriminate]. apply (IH p1); [by eapply step_ok|exact H].
Qed.

Lemma step_workers e p p' : step e p = Some p' -> length (po_workers p') = length (po_workers p).
Proof.
  intros H. destruct e as [w|w result er current|w| |]; unfold step in H.
  - destruct (po_workers p !! w) as [[| | |]|]; try discriminate. destruct (po_jobs p); injection H as <-; cbn; by rewrite length_insert.
  - destruct (po_workers p !! w) as [[| | |]|]; try discriminate. injection H as <-. cbn. by rewrite length_insert.
  - destruct (po_workers p !! w) as [[| | |]|]; try discriminate. destruct (Nat.ltb _ _) in H; [|discriminate]. injection H as <-. cbn. by rewrite length_insert.
  - destruct (po_outcomes p); [discriminate|]. by injection H as <-.
  - by injection H as <-.
Qed.

Lemma steps_workers l p p' : steps l p = Some p' -> length (po_workers p') = length (po_workers p).
Proof.
  revert p. induction l as [|e l IH]; intros p H; cbn in H; [by injection H as <-|].
  destruct (step e p) as [p1|] eqn:E; [|discriminate]. rewrite (IH p1 H). by eapply step_workers.
Qed.

Lemma workerCount_range g n : 0 <= boundWorkerCount g n <= 8 /\ (0 < n -> 1 <= boundWorkerCount g n).
Proof.
  unfold boundWorkerCount, maxBoundWorkers. destruct (Z.leb_spec n 0); [lia|]. cbv zeta.
  set (w := if g <? 1 then 1 else g). assert (1 <= w) by (unfold w; destruct (Z.ltb_spec g 1); lia).
  set (v := if 8 <? w then 8 else w). assert (1 <= v <= 8) by (unfold v; destruct (Z.ltb_spec 8 w); lia).
  destruct (Z.ltb_spec n v); lia.
Qed.

Lemma start_workers g n : length (po_workers (startPool (Stats := Stats) g n)) = Z.to_nat (boundWorkerCount g (Z.of_nat n)).
Proof. apply length_replicate. Qed.

Lemma idle_worker p : drained p = false -> (exists o rest, po_outcomes p = o :: rest) \/ exists w x, po_workers p !! w = Some x /\ x <> Exited.
Proof.
  unfold drained. intros [H|H]%andb_false_iff; [right|left].
  - apply not_true_iff_false in H. destruct (decide (Forall (fun x => exited x = true) (po_workers p))) as [Ha|Hn].
    + destruct H. apply forallb_forall. intros x Hx%list_elem_of_In. rewrite Forall_forall in Ha. by apply Ha.
    + apply not_Forall_Exists in Hn; [|intros x; apply _]. apply Exists_exists in Hn as (x & [w Hw]%list_elem_of_lookup_1 & Hx).
      exists w, x. split; [exact Hw|]. intros ->. by apply Hx.
  - destruct (po_outcomes p); [discriminate|]. eauto.
Qed.

(** The worker pool finishes: however searches end and whenever the caller
    cancels, a search on [n] backends takes at most [4 * n + 8] steps, and until
    every worker has exited and every outcome is received some step is
    possible; meanwhile no more than eight outcomes wait in the channel. *)
Theorem search_pool_finishes gomaxprocs n l p :
  steps l (startPool gomaxprocs n) = Some p ->
  Z.of_nat (length (List.filter internal l)) <= 4 * Z.of_nat n + 8 /\
  (length (po_outcomes p) <= 8)%nat /\
  (drained p = false -> exists e p', internal e = true /\ step e p = Some p').
Proof.
  intros H. pose proof (steps_ok n l _ p (start_ok gomaxprocs n) H) as HI. pose proof (steps_work _ _ _ H) as Hw.
  pose proof (steps_workers _ _ _ H) as Hlen. rewrite start_workers in Hlen. destruct (workerCount_range gomaxprocs (Z.of_nat n)) as [Hc _].
  pose proof (work_nonneg p). pose proof (pi_room n p HI) as Hroom. split; [|split; [lia|]].
  - assert (Hidle : forall k, total weight (replicate k (Idle (Stats := Stats))) = Z.of_nat k).
    { induction k as [|k IH]; [reflexivity|].
      change (total weight (replicate (S k) Idle)) with (weight (Idle (Stats := Stats)) + total weight (replicate k (Idle (Stats := Stats)))).
      rewrite IH. cbn [weight]. lia. }
    unfold work, startPool in Hw. cbn [po_jobs po_workers po_outcomes length] in Hw. rewrite Hidle, length_seq in Hw. unfold work in *. lia.
  - intros [(o & rest & Eo)|(w & x & Hx & Hne)]%idle_worker.
    { exists EReceive. eexists. split; [reflexivity|]. cbn. by rewrite Eo. }
    destruct x as [|i|o|]; [| | |congruence].
    + exists (ETake w). cbn. rewrite Hx. destruct (po_jobs p); by eexists.
    + exists (EFinish w None None true). cbn. rewrite Hx. by eexists.
    + destruct (po_outcomes p) as [|o' rest] eqn:Eo; [|exists EReceive; eexists; split; [reflexivity|]; cbn; by rewrite Eo].
      exists (ESend w). eexists. split; [reflexivity|]. unfold step. rewrite Hx, Eo. destruct (po_workers p); [discriminate|reflexivity].
Qed.

(** ** A drained pool *)
Lemma drained_spec p : drained p = true -> po_outcomes p = [] /\ forall w x, po_workers p !! w = Some x -> x = Exited.
Proof.
  unfold drained. intros [H1 H2]%andb_true_iff. split; [by destruct (po_outcomes p)|]. intros w x Hx.
  rewrite forallb_forall in H1. specialize (H1 x). destruct x; try reflexivity; (discriminate H1 || idtac);
    exfalso; assert (false = true) by (apply H1, list_elem_of_In; by eapply list_elem_of_lookup_2); discriminate.
Qed.

Lemma no_held (l : list (worker (Stats := Stats))) : (forall w x, l !! w = Some x -> x = Exited) -> flat_map heldBy l = [].
Proof.
  induction l as [|x l IH]; intros H; [reflexivity|]. cbn. rewrite (H O x eq_refl), IH; [reflexivity|]. intros w y Hy. by apply (H (S w)).
Qed.

(** Unless the search is canceled, the loop receives one outcome of every
    backend. *)
Lemma received_all gomaxprocs n l p :
  (0 < n)%nat -> steps l (startPool gomaxprocs n) = Some p -> drained p = true -> po_canceled p = false ->
  oc_index <$> po_received p ≡ₚ seq 0 n /\ forall o, o ∈ po_received p -> oc_err o = None.
Proof.
  intros Hn H Hd Hc. pose proof (steps_ok n l _ p (start_ok gomaxprocs n) H) as [(lost & Hh & Hl) He Hx _].
  apply drained_spec in Hd as [Ho Hw]. split; [|intros o Hin; apply (He Hc); by right; left].
  rewrite (Hl Hc), app_nil_r in Hh. unfold held in Hh. rewrite Ho, (no_held _ Hw) in Hh. cbn in Hh.
  pose proof (steps_workers _ _ _ H) as Hlen. rewrite start_workers in Hlen. destruct (workerCount_range gomaxprocs (Z.of_nat n)) as [_ H1].
  destruct (po_workers p) as [|x ws] eqn:Ew; [cbn in Hlen; lia|]. pose proof (Hw O x eq_refl) as ->.
  destruct (Hx O) as [Hj|Hj]; [reflexivity|by rewrite Hj in Hh|congruence].
Qed.

Lemma received_distinct gomaxprocs n l p :
  steps l (startPool gomaxprocs n) = Some p -> NoDup (oc_index <$> po_received p).
Proof.
  intros H. destruct (pi_held n p (steps_ok n l _ p (start_ok gomaxprocs n) H)) as (lost & Hh & _).
  assert (Hnd : NoDup (held p ++ lost)) by (rewrite Hh; apply NoDup_seq). apply NoDup_app in Hnd as (Hnd & _ & _).
  unfold held in Hnd. apply NoDup_app in Hnd as (_ & _ & Hnd). apply NoDup_app in Hnd as (_ & _ & Hnd). by apply NoDup_app in Hnd as (_ & _ & ?).
Qed.

Lemma delivered_distinct c os : NoDup (oc_index <$> os) -> NoDup (delivered c os).*1.
Proof.
  induction os as [|o os IH]; intros Hn; [constructor|]. cbn in Hn. apply NoDup_cons in Hn as [Hi Hn]. unfold delivered. cbn. fold (delivered c os).
  destruct (filtered c o); cbn; [|by apply IH]. constructor; [|by apply IH].
  intros ([j r] & Hj & (o' & Ho & E)%list_elem_of_omap)%list_elem_of_fmap. apply Hi. destruct (filtered c o'); [|discriminate]. injection E as <- _. cbn in Hj.
  apply list_elem_of_fmap. exists o'. split; [lia|exact Ho].
Qed.

Definition sameAnswer (x y : res err (SearchResult (Stats := Stats))) : Prop :=
  match x, y with Ok r, Ok r' => sameResponse r r' | Err e, Err e' => e = e' | _, _ => False end.

#[export] Instance sameAnswer_refl : Reflexive sameAnswer.
Proof. intros [r|e]; [apply sameResponse_equiv|reflexivity]. Qed.

Lemma runBoundSearch_order c maxMatches os os' k :
  os ≡ₚ os' -> NoDup (oc_index <$> os) -> (forall o, o ∈ os -> oc_err o = None) ->
  Proper (sameResponse ==> prod_relation sameResponse eq) (ck_filterWhole k) ->
  sameAnswer (runBoundSearch sortSlice c maxMatches os k) (runBoundSearch sortSlice c maxMatches os' k).
Proof.
  intros Hp Hn He HP. unfold runBoundSearch. destruct (Nat.eqb _ 0); [reflexivity|].
  destruct (accumulate_ok c maxMatches os) as [HA HS], (accumulate_ok c maxMatches os') as [HA' HS'].
  destruct (accumulate sortSlice c maxMatches os) as [a sel], (accumulate sortSlice c maxMatches os') as [a' sel']. cbn in HA, HS, HA', HS'.
  assert (Hnone : forall l s, (forall o, o ∈ l -> oc_err o = None) -> SelOK (failures l) s -> s = None).
  { intros l0 [s|] H; [|reflexivity]. intros [(o & Ho & E)%list_elem_of_omap _]. by rewrite (H o Ho) in E. }
  rewrite (Hnone os sel He HS), (Hnone os' sel'); [|intros o Ho; apply He; by rewrite Hp|exact HS'].
  destruct (ck_callerErr k); [reflexivity|]. destruct (ck_ctxErr k); [reflexivity|]. destruct (ck_wholeCurrent k); [|reflexivity]. cbn [negb].
  assert (Hsame : sameResponse (finish (ck_duration k) a) (finish (ck_duration k) a')).
  { eapply AccOK_unique; [|by apply delivered_distinct|exact HA|exact HA']. unfold delivered. by rewrite Hp. }
  destruct (cp_legacyWhole c); [|exact Hsame]. specialize (HP _ _ Hsame).
  destruct (ck_filterWhole k _) as [r ok], (ck_filterWhole k (finish _ a')) as [r' ok']. destruct HP as [Hr Hok]. cbn in Hr, Hok. subst ok'.
  destruct ok; [exact Hr|reflexivity].
Qed.

(** C34: A search is deterministic: two runs on the same backends that end
    uncanceled, on any number of processors and with searches ending in any
    order, give the same response, down to which of two backends provides a
    URL and why it was flushed, except that among files that agree on every
    field of the ranking any may stand for the others. *)
Theorem search_is_deterministic c maxMatches k (found : nat -> option (SearchResult (Stats := Stats))) g g' l l' p p' :
  let n := length (cp_focused c) in
  steps l (startPool g n) = Some p -> drained p = true -> po_canceled p = false ->
  steps l' (startPool g' n) = Some p' -> drained p' = true -> po_canceled p' = false ->
  (forall o, o ∈ po_received p \/ o ∈ po_received p' -> oc_result o = found (oc_index o)) ->
  Proper (sameResponse ==> prod_relation sameResponse eq) (ck_filterWhole k) ->
  sameAnswer (runBoundSearch sortSlice c maxMatches (po_received p) k) (runBoundSearch sortSlice c maxMatches (po_received p') k).
Proof.
  intros n H Hd Hc H' Hd' Hc' Hf HP. destruct (Nat.eq_dec n 0) as [E|E].
  { unfold runBoundSearch. fold n. rewrite E. reflexivity. }
  destruct (received_all g n l p) as [Hi He]; [lia|assumption..|].
  destruct (received_all g' n l' p') as [Hi' He']; [lia|assumption..|].
  assert (Hform : forall os : list (outcome (Stats := Stats)), (forall o, o ∈ os -> oc_result o = found (oc_index o) /\ oc_err o = None) ->
    os = (fun i => mkOutcome i (found i) None) <$> (oc_index <$> os)).
  { induction os as [|o os IH]; intros Ho; [reflexivity|]. cbn. rewrite <- IH by (intros; apply Ho; by right). f_equal.
    destruct (Ho o ltac:(left)) as [H1 H2]. destruct o. cbn in *. by subst. }
  apply runBoundSearch_order; [|rewrite Hi; apply NoDup_seq|exact He|exact HP].
  rewrite (Hform (po_received p)), (Hform (po_received p')) by (split; auto). by rewrite Hi, Hi'.
Qed.

(** The files of a response are the best of everything the backends
    found that is at the version compiled into the query and, for a focused
    backend, in the repository of its lease: sorted, at most 500 and as many
    as the limit allows. *)
Theorem search_keeps_best c maxMatches os k r :
  runBoundSearch sortSlice c maxMatches os k = Ok r -> cp_legacyWhole c = false -> cp_focused c <> [] ->
  let limit := Z.to_nat (clamp maxMatches 50 500) in
  let all := flat_map (fun o => from_option sr_Files [] (filtered c o)) os in
  Picks limit all (sr_Files r) /\ StronglySorted fileLe (sr_Files r) /\
  length (sr_Files r) = Nat.min limit (length all) /\ (length (sr_Files r) <= 500)%nat /\
  (forall f, f ∈ sr_Files r -> exists o r', o ∈ os /\ oc_result o = Some r' /\ f ∈ sr_Files r' /\
    default "" (cp_versions c !! fm_Repository f) = fm_Version f /\
    forall repository, cp_focused c !! oc_index o = Some (Some repository) -> fm_Repository f = repository).
Proof.
  intros H Hleg Hne limit all. unfold runBoundSearch in H. destruct (Nat.eqb_spec (length (cp_focused c)) 0) as [E|_]; [by destruct (cp_focused c)|].
  destruct (accumulate_ok c maxMatches os) as [HA _]. destruct (accumulate sortSlice c maxMatches os) as [a sel]. cbn in HA.
  destruct sel; [discriminate|]. destruct (ck_callerErr k); [discriminate|]. destruct (ck_ctxErr k); [discriminate|].
  destruct (ck_wholeCurrent k); [|discriminate]. rewrite Hleg in H. cbn in H. injection H as <-.
  assert (Hall : flat_map (fun x : Z * SearchResult (Stats := Stats) => sr_Files x.2) (delivered c os) = all).
  { unfold all, delivered. clear. induction os as [|o os IH]; [reflexivity|]. cbn. destruct (filtered c o); cbn; [by rewrite IH|exact IH]. }
  pose proof (ao_files _ _ _ HA) as HP. rewrite Hall in HP. cbn. pose proof (clamp_range maxMatches). pose proof (Picks_length _ _ _ HP) as Hlen.
  split; [exact HP|]. split; [apply (ao_sorted _ _ _ HA)|]. split; [exact Hlen|]. split; [lia|].
  intros f Hf. destruct HP as (full & Hp & _ & Hpick). rewrite Hpick in Hf. assert (f ∈ full) as Hin by (rewrite <- (take_drop (Z.to_nat (clamp maxMatches 50 500)) full); apply elem_of_app; by left).
  rewrite Hp in Hin. unfold all in Hin. apply list_elem_of_In, in_flat_map in Hin as (o & Ho%list_elem_of_In & Hf').
  unfold filtered in Hf'. destruct (oc_result o) as [r'|] eqn:Er; [|by inversion Hf']. cbn in Hf'. apply list_elem_of_In in Hf'.
  exists o, r'. split; [exact Ho|]. split; [exact Er|].
  destruct (cp_focused c !! oc_index o) as [[repository|]|]; cbn in Hf'; rewrite ?list_elem_of_filter in Hf'; destruct_and?; (split; [assumption|split; [assumption|]]);
    intros ? E; by simplify_eq.
Qed.

(** *** Failures *)
Lemma keep_sending p v x y w o :
  po_workers p !! v = Some y -> (forall o', y <> Sending o') -> po_workers p !! w = Some (Sending o) ->
  <[v := x]> (po_workers p) !! w = Some (Sending o).
Proof. intros Hv Hy Hw. rewrite list_lookup_insert_ne; [exact Hw|]. intros ->. rewrite Hv in Hw. injection Hw as ->. by apply (Hy o). Qed.

Lemma step_finished ev p p' o : step ev p = Some p' -> finished p o -> finished p' o.
Proof.
  intros H Ho. destruct ev as [v|v r er cur|v| |]; unfold step in H.
  - destruct (po_workers p !! v) as [[| | |]|] eqn:Hv; try discriminate.
    destruct (po_jobs p); injection H as <-; (destruct Ho as [Ho|[Ho|[w Hw]]]; [by left|by right; left|right; right; exists w; by eapply keep_sending]).
  - destruct (po_workers p !! v) as [[| | |]|] eqn:Hv; try discriminate. injection H as <-.
    destruct Ho as [Ho|[Ho|[w Hw]]]; [by left|by right; left|right; right; exists w; by eapply keep_sending].
  - destruct (po_workers p !! v) as [[| |o1|]|] eqn:Hv; try discriminate. destruct (Nat.ltb _ _) in H; [|discriminate]. injection H as <-.
    destruct Ho as [Ho|[Ho|[w Hw]]]; [left; apply elem_of_app; by left|by right; left|]. destruct (decide (v = w)) as [->|Hne].
    + rewrite Hw in Hv. injection Hv as <-. left. apply elem_of_app. right. by apply list_elem_of_singleton.
    + right. right. exists w. cbn. by rewrite list_lookup_insert_ne.
  - destruct (po_outcomes p) as [|o1 rest] eqn:Eo; [discriminate|]. injection H as <-. unfold finished in *. rewrite Eo in Ho. cbn.
    rewrite elem_of_app, list_elem_of_singleton. destruct Ho as [[->|Ho]%elem_of_cons|[Ho|Ho]]; auto.
  - injection H as <-. exact Ho.
Qed.

Lemma steps_finished l p p' o : steps l p = Some p' -> finished p o -> finished p' o.
Proof.
  revert p. induction l as [|ev l IH]; intros p H Ho; cbn in H; [by injection H as <-|].
  destruct (step ev p) as [p1|] eqn:E; [|discriminate]. by apply (IH p1 H), (step_finished ev p).
Qed.

(** No error is lost: the outcome of a search that failed is on its way. *)
Lemma error_kept l p p' w result e current :
  steps l p = Some p' -> EFinish w result (Some e) current ∈ l -> exists o, finished p' o /\ oc_err o = Some e.
Proof.
  revert p. induction l as [|ev l IH]; intros p H Hin; cbn in H; [by inversion Hin|].
  destruct (step ev p) as [p1|] eqn:E; [|discriminate]. apply elem_of_cons in Hin as [<-|Hin]; [|by apply (IH p1)].
  unfold step in E. destruct (po_workers p !! w) as [[|j| |]|] eqn:Hv; try discriminate. injection E as <-.
  eexists. split; [eapply steps_finished; [exact H|]; right; right; exists w; cbn; apply list_lookup_insert_eq; by eapply lookup_lt_Some|reflexivity].
Qed.

(** C35: A failure is never hidden: once some backend's search has failed, the
    whole search returns an error, and it is the cause: an error of a received
    outcome that is not the cancellation it provoked if there is any such, and
    of those the one of the first backend. *)
Theorem failed_search_reports_cause c maxMatches k g l p w result e current :
  steps l (startPool g (length (cp_focused c))) = Some p -> drained p = true ->
  EFinish w result (Some e) current ∈ l ->
  exists o cause, o ∈ po_received p /\ oc_err o = Some cause /\
    runBoundSearch sortSlice c maxMatches (po_received p) k = Err cause /\
    forall o' e', o' ∈ po_received p -> oc_err o' = Some e' ->
      (contextTermination cause = true -> contextTermination e' = true) /\
      (contextTermination cause = contextTermination e' -> (oc_index o <= oc_index o')%nat).
Proof.
  intros H Hd Hin. apply drained_spec in Hd as [Ho Hw]. destruct (error_kept _ _ _ _ _ _ _ H Hin) as (o1 & Hf & Ho1).
  assert (Hrec : o1 ∈ po_received p).
  { destruct Hf as [Hf|[Hf|[v Hv]]]; [rewrite Ho in Hf; by inversion Hf|exact Hf|]. by apply Hw in Hv. }
  assert (Hne : length (cp_focused c) <> O).
  { destruct (pi_held _ p (steps_ok _ l _ p (start_ok g _) H)) as (lost & Hh & _). intros E. rewrite E in Hh.
    apply Permutation_length in Hh. unfold held in Hh. rewrite !length_app, !length_fmap in Hh. cbn in Hh.
    destruct (po_received p); [by inversion Hrec|cbn in Hh; lia]. }
  unfold runBoundSearch. destruct (Nat.eqb_spec (length (cp_focused c)) 0) as [E|_]; [contradiction|].
  destruct (accumulate_ok c maxMatches (po_received p)) as [_ HS]. destruct (accumulate sortSlice c maxMatches (po_received p)) as [a sel].
  assert (Hfail : forall o e, o ∈ po_received p -> oc_err o = Some e -> mkError (oc_index o) e ∈ failures (po_received p)).
  { intros o e0 Hin0 E0. apply list_elem_of_omap. exists o. by rewrite E0. }
  destruct sel as [s|]; cbn in HS; [|by specialize (Hfail o1 e Hrec Ho1); rewrite HS in Hfail; inversion Hfail].
  destruct HS as [Hs Hmin]. apply list_elem_of_omap in Hs as (o & Hin0 & Es). destruct (oc_err o) as [cause|] eqn:Ec; [|discriminate].
  injection Es as <-. exists o, cause. repeat split; try assumption; apply (Hmin _ (Hfail _ _ H0 H1)).
Qed.
End Theorems.

(** *** Examples: two backends, both of which answer with the same URL. *)
#[local] Instance count_stats : ZoektStats Z.
Proof.
  refine {| noStats := 0; addStats := Z.add; stickyReason := fun f g => if f =? 0 then g else f |}.
  - intros. lia.
  - intros. lia.
  - intros f. by destruct (Z.eqb_spec f 0).
  - intros f g Hf. by destruct (Z.eqb_spec f 0).
Defined.

Definition sampleFile (score : Z) (repository : string) : FileMatch := mkFile score repository "f.go" "v1" "Go" "" "" 0 1 [] "match".
Definition sampleFound (i : nat) : option (SearchResult (Stats := Z)) :=
  Some (match i with
        | O => mkResult 3 0 9 [sampleFile 5 "a"; sampleFile 7 "a"; sampleFile 7 "old"] {["a" := "http://a"]} ∅
        | _ => mkResult 4 2 9 [sampleFile 6 "b"; sampleFile 8 "c"] {["a" := "http://b"]} ∅
        end).
Definition sampleCompiled : compiledSearch := mkCompiled {["a" := "v1"; "b" := "v1"; "c" := "v1"]} [None; Some "b"] false.
Definition sampleChecks : checks (Stats := Z) := mkChecks None None true None (fun r => (r, true)) 42.

Definition forwards : list (event (Stats := Z)) :=
  [ETake 0; ETake 1; EFinish 0 (sampleFound 0) None true; ESend 0; EReceive; EFinish 1 (sampleFound 1) None true; ESend 1; ETake 0; EReceive; ETake 1].
Definition backwards : list (event (Stats := Z)) :=
  [ETake 1; EFinish 1 (sampleFound 0) None true; ETake 0; EFinish 0 (sampleFound 1) None true; ESend 0; EReceive; ESend 1; EReceive; ETake 0; ETake 1].
Definition failing : list (event (Stats := Z)) :=
  [ETake 0; ETake 1; EFinish 1 None (Some (Wrap (NSentinel "broken shard") [])) true; EFinish 0 None (Some (Wrap (NSentinel canceledText) [])) true;
   ESend 0; ESend 1; EReceive; EReceive; ETake 0; ETake 1].

Lemma search_is_deterministic_witness :
  exists p p', steps forwards (startPool 2 2) = Some p /\ steps backwards (startPool 4 2) = Some p' /\
    fmap oc_index (po_received p') = [1; 0]%nat /\
    sameAnswer (runBoundSearch (merge_sort fileLe) sampleCompiled 10 (po_received p) sampleChecks)
               (runBoundSearch (merge_sort fileLe) sampleCompiled 10 (po_received p') sampleChecks).
Proof.
  eexists _, _. split; [vm_compute; reflexivity|]. split; [vm_compute; reflexivity|]. split; [reflexivity|].
  refine (search_is_deterministic (merge_sort fileLe) sampleCompiled 10 sampleChecks sampleFound 2 4 forwards backwards _ _ _ _ _ _ _ _ _ _);
    [vm_compute; reflexivity|reflexivity|reflexivity|vm_compute; reflexivity|reflexivity|reflexivity| |].
  - intros o [H|H]; repeat (apply elem_of_cons in H as [->|H]; [reflexivity|]); by inversion H.
  - intros r r' H. split; [exact H|reflexivity].
Defined.

Lemma search_keeps_best_witness :
  exists r, runBoundSearch (merge_sort fileLe) sampleCompiled 10 (mkOutcome 1 (sampleFound 1) None :: [mkOutcome 0 (sampleFound 0) None]) sampleChecks = Ok r /\
    fm_Repository <$> sr_Files r = ["a"; "b"; "a"] /\ StronglySorted fileLe (sr_Files r).
Proof.
  eexists. split; [vm_compute; reflexivity|]. split; [reflexivity|].
  refine (proj1 (proj2 (search_keeps_best (merge_sort fileLe) sampleCompiled 10
    [mkOutcome 1 (sampleFound 1) None; mkOutcome 0 (sampleFound 0) None] sampleChecks _ _ eq_refl _)));
    [vm_compute; reflexivity|discriminate].
Defined.

Lemma search_pool_finishes_witness :
  exists p, steps (take 6 forwards) (startPool 2 2) = Some p /\ exists e p', internal e = true /\ step e p = Some p'.
Proof.
  eexists. split; [vm_compute; reflexivity|].
  refine (proj2 (proj2 (search_pool_finishes 2 2 (take 6 forwards) _ _)) _); [vm_compute; reflexivity|vm_compute; reflexivity].
Defined.

Lemma failed_search_reports_cause_witness :
  exists p, steps failing (startPool 2 2) = Some p /\
    exists o cause, o ∈ po_received p /\ oc_err o = Some cause /\
      runBoundSearch (merge_sort fileLe) sampleCompiled 10 (po_received p) sampleChecks = Err cause.
Proof.
  eexists. split; [vm_compute; reflexivity|].
  refine (match failed_search_reports_cause (merge_sort fileLe) sampleCompiled 10 sampleChecks 2 failing _ 1 None
    (Wrap (NSentinel "broken shard") []) true _ _ _ with ex_intro _ o (ex_intro _ cause (conj H1 (conj H2 (conj H3 _)))) =>
      ex_intro _ o (ex_intro _ cause (conj H1 (conj H2 H3))) end); [vm_compute; reflexivity|reflexivity|].
  unfold failing. do 2 right. left.
Defined.
