(* ===== verification/StreamSearch.v ===== *)
(** * Progressive search

    Model of [runBoundStream] in [internal/search/bound.go] and of the sink
    [Searcher.Stream] gives it in [searcher.go]: workers stream batches into a
    bounded channel and wait until the one consumer has filtered, forwarded
    and acknowledged each; the consumer stops at the display limit or at the
    first error and still drains the workers.  What a backend produces and what
    the validators answer are arguments of the steps. *)
From stdpp Require Import sorting.
From Stdlib Require Import Ascii String.
From S2P Require Import Prelude.
From S2P Require Import JobErrors Ranking BoundSearch.

Section Stream.
Context {Stats : Type}.
Abbreviation Result := (SearchResult (Stats := Stats)).

(** Between two backends; in [StreamSearch]; in the sender's select; waiting
    for the acknowledgement; sending the error the backend ended with. *)
Inductive sworker :=
  | SIdle
  | Streaming (backend : nat)
  | Offering (backend : nat) (batch : option Result)
  | Waiting (backend : nat)
  | Failing (e : err)
  | SExited.

(** An [event]: a batch with its backend and the worker whose [ack] channel it
    carries, or an error. *)
Inductive sevent := Batch (w backend : nat) (batch : option Result) | Failure (e : err).

(** [limitReached], [streamErr] and the sink's [remaining]; the batches the
    sink has passed on; whether [runBoundStream] canceled its context, and the
    error of its caller's. *)
Record stream := mkStream {
  ss_jobs : list nat;
  ss_workers : list sworker;
  ss_events : list sevent;
  ss_limitReached : bool;
  ss_streamErr : error;
  ss_remaining : Z;
  ss_sent : list (list FileMatch);
  ss_canceled : bool;
  ss_callerErr : error
}.
#[export] Instance eta_stream : Eta stream := fun s =>
  mkStream (ss_jobs s) (ss_workers s) (ss_events s) (ss_limitReached s) (ss_streamErr s) (ss_remaining s) (ss_sent s)
    (ss_canceled s) (ss_callerErr s).

Definition startStream (gomaxprocs : Z) (backends : nat) (maxMatches : Z) : stream :=
  mkStream (seq 0 backends) (replicate (Z.to_nat (boundWorkerCount gomaxprocs (Z.of_nat backends))) SIdle) []
    false None (clamp maxMatches 50 500) [] false None.

Definition done (s : stream) : bool := ss_canceled s || negb (is_nil (ss_callerErr s)).
Definition room (s : stream) : bool := Nat.ltb (length (ss_events s)) (2 * length (ss_workers s)).
Definition moves (w : nat) (x : sworker) (s : stream) : stream := s <| ss_workers ::= insert w x |>.
Definition cancel (s : stream) : stream := s <| ss_canceled := true |>.

(** [close(event.ack)]. *)
Definition ack (w backend : nat) (s : stream) : stream := moves w (Streaming backend) s.

(** What the validators answer about one batch. *)
Record answers := mkAnswers { an_focused : bool; an_whole : Result -> Result * bool }.

(** ** The sink: what it returns, and the stream with what it passed on *)
Inductive sinkResult := SinkNil | SinkLimit | SinkErr (e : err).

Definition sink (c : compiledSearch) (lease : option string) (r : Result) (s : stream) : sinkResult * stream :=
  let r := match lease with Some repository => filterFocusedLeaseResult repository r | None => r end in
  match ss_callerErr s with
  | Some e => (SinkErr e, s)
  | None =>
      let r := filterResultVersions (cp_versions c) r in
      if ss_remaining s =? 0 then (SinkLimit, s) else
      let files := if ss_remaining s <? Z.of_nat (length (sr_Files r)) then take (Z.to_nat (ss_remaining s)) (sr_Files r) else sr_Files r in
      let s := s <| ss_remaining := ss_remaining s - Z.of_nat (length files) |> in
      let s := if Nat.ltb 0 (length files) then s <| ss_sent ::= fun l => l ++ [files] |> else s in
      (if ss_remaining s =? 0 then SinkLimit else SinkNil, s)
  end.

(** One turn of the consuming loop. *)
Definition forward (c : compiledSearch) (w backend : nat) (lease : option string) (r : Result) (s : stream) : stream :=
  let '(out, s) := sink c lease r s in
  let s := ack w backend s in
  match out with
  | SinkNil => s
  | SinkLimit => cancel (s <| ss_limitReached := true |>)
  | SinkErr e => cancel (s <| ss_streamErr := Some e |>)
  end.

Definition consumeEvent (c : compiledSearch) (an : answers) (ev : sevent) (s : stream) : stream :=
  match ev with
  | Failure e =>
      if (ss_limitReached s || negb (is_nil (ss_streamErr s))) && contextTermination e then s
      else if is_nil (ss_streamErr s) then cancel (s <| ss_streamErr := Some e |>) else s
  | Batch w backend batch =>
      match batch with
      | None => ack w backend s
      | Some r =>
          if negb (is_nil (ss_streamErr s)) || ss_limitReached s then ack w backend s
          else if negb (an_focused an) then ack w backend s
          else
            match mjoin (cp_focused c !! backend) with
            | Some repository => forward c w backend (Some repository) r s
            | None =>
                let '(r, current) := an_whole an (filterResultVersions (cp_versions c) r) in
                if current then forward c w backend None r s
                else
                  let s := ack w backend s in
                  if negb (done s) && is_nil (ss_streamErr s) && negb (ss_limitReached s)
                  then cancel (s <| ss_streamErr := Some (wholeGenerationError None "streamed repository is not current") |>) else s
            end
      end
  end.

(** ** Steps

    Two groups of actions are one step each: a worker takes a backend, tests
    its context and validates the focused generation; the consumer acknowledges
    a batch and, where that batch ends the search, cancels the context.  So a
    worker that still takes a backend between the acknowledgement and the
    cancellation is not a case here. *)
Inductive streamEvent :=
  | STake (w : nat) (current : bool)
  | SOffer (w : nat) (batch : option Result)
  | SSend (w : nat)
  | SSkip (w : nat)
  | SEnd (w : nat) (e : error)
  | SFail (w : nat)
  | SConsume (an : answers)
  | SCallerDone (e : err).

Definition streamStep (c : compiledSearch) (e : streamEvent) (s : stream) : option stream :=
  match e with
  | STake w current =>
      match ss_workers s !! w with
      | Some SIdle =>
          match ss_jobs s with
          | [] => Some (moves w SExited s)
          | i :: jobs =>
              Some (moves w (if done s then SExited else if current then Streaming i else SIdle) (s <| ss_jobs := jobs |>))
          end
      | _ => None
      end
  | SOffer w batch =>
      match ss_workers s !! w with Some (Streaming i) => Some (moves w (Offering i batch) s) | _ => None end
  | SSend w =>
      match ss_workers s !! w with
      | Some (Offering i batch) =>
          if room s then Some ((moves w (Waiting i) s) <| ss_events ::= fun l => l ++ [Batch w i batch] |>) else None
      | _ => None
      end
  | SSkip w =>
      match ss_workers s !! w with
      | Some (Offering i _) => if done s then Some (moves w (Streaming i) s) else None
      | _ => None
      end
  | SEnd w e =>
      match ss_workers s !! w with
      | Some (Streaming i) => Some (moves w (match e with None => SIdle | Some e => Failing e end) s)
      | _ => None
      end
  | SFail w =>
      match ss_workers s !! w with
      | Some (Failing e) =>
          if room s then Some ((moves w SIdle s) <| ss_events ::= fun l => l ++ [Failure e] |>) else None
      | _ => None
      end
  | SConsume an =>
      match ss_events s with
      | ev :: rest => Some (consumeEvent c an ev (s <| ss_events := rest |>))
      | [] => None
      end
  | SCallerDone e => match ss_callerErr s with None => Some (s <| ss_callerErr := Some e |>) | Some _ => None end
  end.

Fixpoint streamSteps (c : compiledSearch) (l : list streamEvent) (s : stream) : option stream :=
  match l with
  | [] => Some s
  | e :: l' => match streamStep c e s with Some s' => streamSteps c l' s' | None => None end
  end.

Definition sexited (w : sworker) : bool := match w with SExited => true | _ => false end.
Definition streamDrained (s : stream) : bool := forallb sexited (ss_workers s) && is_nil (head (ss_events s)).

(** What [runBoundStream] returns once the events are drained. *)
Definition streamResult (backends : nat) (s : stream) (wholeCurrent : bool) : error :=
  if Nat.eqb backends 0 then None else
  match ss_callerErr s with
  | Some e => Some e
  | None =>
      if is_nil (ss_streamErr s) && negb wholeCurrent
      then Some (wholeGenerationError (ss_callerErr s) "reader generation changed during stream")
      else ss_streamErr s
  end.
End Stream.
