(* ===== verification/StreamSearchTheorems.v ===== *)
(** * Progressive search: theorems

    What the stream shows is bounded and current, it never deadlocks and always
    ends, and a stream that returns [nil] hid no failure. *)
From stdpp Require Import sorting.
From Stdlib Require Import Ascii String.
From S2P Require Import Prelude.
From S2P Require Import JobErrors Ranking BoundSearch BoundSearchTheorems StreamSearch.

Section Theorems.
Context {Stats : Type}.
Abbreviation Result := (SearchResult (Stats := Stats)).
Abbreviation stream := (StreamSearch.stream (Stats := Stats)).
Implicit Types (s : stream) (c : compiledSearch) (r : Result) (ev : sevent (Stats := Stats)).

(** Split every guard of an operation of the stream. *)
Ltac split_stream :=
  unfold consumeEvent, forward, sink, ack, cancel, moves in *;
  repeat (case_match; simplify_eq; cbn beta iota zeta in *).

(** ** The consumer *)
Lemma consume_frame c an ev s :
  let s' := consumeEvent c an ev s in
  ss_jobs s' = ss_jobs s /\ ss_events s' = ss_events s /\ ss_callerErr s' = ss_callerErr s /\
  ss_workers s' = match ev with Batch w i _ => <[w := Streaming i]> (ss_workers s) | Failure _ => ss_workers s end.
Proof. cbv zeta. split_stream; cbn; auto. Qed.

Lemma consume_keeps c an ev s :
  let s' := consumeEvent c an ev s in
  (forall e, ss_streamErr s = Some e -> ss_streamErr s' = Some e) /\
  (ss_limitReached s = true -> ss_limitReached s' = true) /\
  (ss_canceled s = true -> ss_canceled s' = true).
Proof.
  cbv zeta. destruct (ss_streamErr s) as [e|] eqn:Ee; [|split; [discriminate|]];
    split_stream; rewrite ?Ee in *; cbn in *; repeat split; intros; simplify_eq; bsplit; auto; congruence.
Qed.

(** *** What the sink passes on *)
Definition versioned c (f : FileMatch) : Prop := default "" (cp_versions c !! fm_Repository f) = fm_Version f.
#[local] Instance versioned_dec c f : Decision (versioned c f) := decide (_ = _).
Definition sentFiles s : list FileMatch := concat (ss_sent s).

Record SentOK c (limit : Z) s : Prop := {
  se_count : Z.of_nat (length (sentFiles s)) + ss_remaining s = limit;
  se_remaining : 0 <= ss_remaining s;
  se_versions : Forall (versioned c) (sentFiles s);
  se_full : ss_remaining s = 0 -> ss_limitReached s = true
}.

Lemma SentOK_same c limit s s' :
  ss_sent s' = ss_sent s -> ss_remaining s' = ss_remaining s -> (ss_limitReached s = true -> ss_limitReached s' = true) ->
  SentOK c limit s -> SentOK c limit s'.
Proof. intros E1 E2 E3 [H1 H2 H3 H4]. unfold sentFiles in *. constructor; unfold sentFiles; rewrite ?E1, ?E2; auto. Qed.

Lemma filter_versioned c r : Forall (versioned c) (sr_Files (filterResultVersions (cp_versions c) r)).
Proof. apply Forall_forall. intros f Hf. cbn in Hf. by apply list_elem_of_filter in Hf as [? _]. Qed.

Lemma sink_sent c limit lease r s out s' :
  SentOK c limit s -> sink c lease r s = (out, s') ->
  Z.of_nat (length (sentFiles s')) + ss_remaining s' = limit /\ 0 <= ss_remaining s' /\ Forall (versioned c) (sentFiles s') /\
  ss_limitReached s' = ss_limitReached s /\ (ss_remaining s' = 0 -> out = SinkLimit \/ ss_limitReached s = true).
Proof.
  intros [H1 H2 H3 H4] HS. unfold sink in HS. set (r' := match lease with Some _ => _ | None => _ end) in HS. cbv zeta in HS.
  destruct (ss_callerErr s) as [e|]; [simplify_eq; repeat split; auto|].
  pose proof (filter_versioned c r') as HF. set (files := sr_Files (filterResultVersions (cp_versions c) r')) in *. clearbody files.
  destruct (Z.eqb_spec (ss_remaining s) 0); [simplify_eq; repeat split; auto|].
  set (cut := if _ <? _ then take _ files else files) in HS.
  assert (Z.of_nat (length cut) <= ss_remaining s /\ Forall (versioned c) cut) as [Hlen Hcut].
  { unfold cut. destruct (Z.ltb_spec (ss_remaining s) (Z.of_nat (length files))); split; auto; [rewrite length_take; lia|by apply Forall_take]. }
  clearbody cut. destruct (Nat.ltb_spec 0 (length cut)) as [Hpos|Hpos]; cbn in HS.
  - injection HS as <- <-. unfold sentFiles in *; cbn. rewrite concat_app, length_app, Forall_app. cbn. rewrite app_nil_r.
    repeat split; auto; try lia. intros ->. by left.
  - assert (cut = []) as -> by (destruct cut; cbn in *; [done|lia]). injection HS as <- <-. unfold sentFiles in *; cbn in *.
    repeat split; auto; try lia.
Qed.

Lemma forward_sent c limit w i lease r s : SentOK c limit s -> SentOK c limit (forward c w i lease r s).
Proof.
  intros HS. unfold forward. destruct (sink c lease r s) as [out s'] eqn:E.
  pose proof (sink_sent _ _ _ _ _ _ _ HS E) as (H1 & H2 & H3 & H4 & H5).
  destruct out; constructor; auto; cbn; intros H0; rewrite H4; destruct (H5 H0); congruence.
Qed.

Lemma consume_sent c limit an ev s : SentOK c limit s -> SentOK c limit (consumeEvent c an ev s).
Proof.
  intros HS. unfold consumeEvent. repeat (case_match; cbn beta iota zeta in *);
    solve [apply forward_sent; exact HS|exact HS|apply (SentOK_same c limit s); auto].
Qed.

(** Past the limit or an error nothing is passed on. *)
Definition closed s : bool := negb (is_nil (ss_streamErr s)) || ss_limitReached s.

Lemma consume_closed c an ev s : closed s = true -> ss_sent (consumeEvent c an ev s) = ss_sent s.
Proof.
  unfold closed. intros HC. unfold consumeEvent. rewrite HC. repeat (case_match; cbn beta iota zeta in *); reflexivity.
Qed.

(** ** The workers and the channel *)
Definition sender ev : option nat := match ev with Batch w _ _ => Some w | Failure _ => None end.

Record StreamOK s : Prop := {
  so_batches : forall w i b, Batch w i b ∈ ss_events s -> ss_workers s !! w = Some (Waiting i);
  so_waiting : forall w i, ss_workers s !! w = Some (Waiting i) -> exists b, Batch w i b ∈ ss_events s;
  so_unique : NoDup (omap sender (ss_events s));
  so_room : (length (ss_events s) <= 2 * length (ss_workers s))%nat;
  so_canceled : closed s = true -> ss_canceled s = true
}.

Lemma elem_sender (w : nat) (evs : list sevent) : w ∈ omap sender evs <-> exists i b, Batch w i b ∈ evs.
Proof.
  rewrite list_elem_of_omap. split.
  - intros ([v i b|e] & Hin & [= ->]); eauto.
  - intros (i & b & Hin). by exists (Batch w i b).
Qed.

(** A worker that is not waiting moves and does not come to wait. *)
Lemma StreamOK_move s s' w x y :
  StreamOK s -> ss_workers s !! w = Some x -> (forall i, x <> Waiting i) -> (forall i, y <> Waiting i) ->
  ss_workers s' = <[w := y]> (ss_workers s) -> ss_events s' = ss_events s ->
  closed s' = closed s -> ss_canceled s' = ss_canceled s -> StreamOK s'.
Proof.
  intros [H1 H2 H3 H4 H5] Hw Hx Hy Ew Ee Ec En. constructor; rewrite ?Ew, ?Ee, ?Ec, ?En, ?length_insert; auto.
  - intros v i b Hin. rewrite list_lookup_insert_ne; [eauto|]. intros ->. specialize (H1 _ _ _ Hin). simplify_eq. by destruct (Hx i).
  - intros v i Hv. apply list_lookup_insert_Some in Hv as [(_ & E & _)|(_ & Hv)]; [by destruct (Hy i)|eauto].
Qed.

Lemma consume_canceled c an ev s : (closed s = true -> ss_canceled s = true) -> closed (consumeEvent c an ev s) = true -> ss_canceled (consumeEvent c an ev s) = true.
Proof.
  intros HC. destruct (consume_keeps c an ev s) as (_ & _ & Hk). destruct (closed s) eqn:E; [auto|].
  unfold closed in *. clear HC Hk. split_stream; cbn in *; congruence.
Qed.

Lemma StreamOK_consume c an ev rest s :
  StreamOK s -> ss_events s = ev :: rest -> StreamOK (consumeEvent c an ev (s <| ss_events := rest |>)).
Proof.
  intros [H1 H2 H3 H4 H5] He. rewrite He in *.
  destruct (consume_frame c an ev (s <| ss_events := rest |>)) as (_ & Ee & _ & Ew). cbn in Ee, Ew.
  assert (HC : closed (consumeEvent c an ev (s <| ss_events := rest |>)) = true -> ss_canceled (consumeEvent c an ev (s <| ss_events := rest |>)) = true)
    by (apply consume_canceled; exact H5).
  destruct ev as [w i b|e].
  - assert (Hw : ss_workers s !! w = Some (Waiting i)) by (eapply H1; left). cbn in H3. inversion H3 as [|? ? Hni HN]; subst.
    constructor; rewrite ?Ee, ?Ew, ?length_insert; auto; try (cbn in H4; lia).
    + intros v j b' Hin. rewrite list_lookup_insert_ne; [eapply H1; by right|]. intros ->. apply Hni, elem_sender. eauto.
    + intros v j Hv. apply list_lookup_insert_Some in Hv as [(_ & E & _)|(Hne & Hv)]; [discriminate|].
      destruct (H2 v j Hv) as [b' [[= -> -> ->]|Hin]%elem_of_cons]; [done|eauto].
  - constructor; rewrite ?Ee, ?Ew; auto; try (cbn in H4; lia).
    + intros v j b' Hin. eapply H1. by right.
    + intros v j Hv. destruct (H2 v j Hv) as [b' [[=]|Hin]%elem_of_cons]. eauto.
Qed.

Ltac stream_move := eapply StreamOK_move; [eassumption|eassumption| | |reflexivity..]; repeat case_match; discriminate.

Lemma StreamOK_step c e s s' : StreamOK s -> streamStep c e s = Some s' -> StreamOK s'.
Proof.
  intros HI HS. unfold streamStep in HS. destruct e as [w current|w batch|w|w|w er|w|an|er].
  - destruct (ss_workers s !! w) as [[]|] eqn:Ew; try discriminate. destruct (ss_jobs s); injection HS as <-.
    + stream_move.
    + stream_move.
  - destruct (ss_workers s !! w) as [[]|] eqn:Ew; try discriminate. injection HS as <-. stream_move.
  - destruct (ss_workers s !! w) as [[| |i b| | |]|] eqn:Ew; try discriminate. destruct (room s) eqn:Er; [|discriminate]. injection HS as <-.
    unfold room in Er. apply Nat.ltb_lt in Er. pose proof (lookup_lt_Some _ _ _ Ew) as Hlt.
    assert (Hw : forall j b', Batch w j b' ∉ ss_events s) by (intros j b' Hin; apply (so_batches s HI) in Hin; congruence).
    destruct HI as [H1 H2 H3 H4 H5]. constructor; cbn; rewrite ?length_insert, ?length_app; cbn; auto; try lia.
    + intros v j b' [Hin|[= -> -> ->]%list_elem_of_singleton]%elem_of_app; [|by rewrite list_lookup_insert_eq].
      rewrite list_lookup_insert_ne; [eauto|]. intros ->. by eapply Hw.
    + intros v j Hv. apply list_lookup_insert_Some in Hv as [(-> & [= ->] & _)|(_ & Hv)].
      * exists b. apply elem_of_app. right. by left.
      * destruct (H2 v j Hv) as [b' Hb]. exists b'. apply elem_of_app. by left.
    + rewrite omap_app. cbn. apply NoDup_app. split; [done|]. split; [|apply NoDup_singleton].
      intros v Hv ->%list_elem_of_singleton. apply elem_sender in Hv as (j & b' & Hin). by eapply Hw.
  - destruct (ss_workers s !! w) as [[]|] eqn:Ew; try discriminate. destruct (done s); [|discriminate]. injection HS as <-. stream_move.
  - destruct (ss_workers s !! w) as [[]|] eqn:Ew; try discriminate. injection HS as <-.
    stream_move.
  - destruct (ss_workers s !! w) as [[]|] eqn:Ew; try discriminate. destruct (room s) eqn:Er; [|discriminate]. injection HS as <-.
    unfold room in Er. apply Nat.ltb_lt in Er.
    assert (StreamOK (moves w SIdle s)) as [H1 H2 H3 H4 H5] by stream_move. cbn in *. rewrite length_insert in *.
    constructor; cbn; rewrite ?length_insert, ?length_app; cbn; auto; try lia.
    + intros v j b' [Hin|[=]%list_elem_of_singleton]%elem_of_app. eauto.
    + intros v j Hv. destruct (H2 v j Hv) as [b' Hb]. exists b'. apply elem_of_app. by left.
    + rewrite omap_app. cbn. by rewrite app_nil_r.
  - destruct (ss_events s) as [|ev rest] eqn:Ee; [discriminate|]. injection HS as <-. by apply StreamOK_consume.
  - destruct (ss_callerErr s); [discriminate|]. injection HS as <-. by destruct HI.
Qed.

(** ** Runs *)
Lemma streamSteps_app c l1 l2 s : streamSteps c (l1 ++ l2) s = match streamSteps c l1 s with Some s' => streamSteps c l2 s' | None => None end.
Proof. revert s. induction l1 as [|e l1 IH]; intros s; cbn; [done|]. by destruct (streamStep c e s). Qed.

Lemma streamSteps_ind c (P : stream -> Prop) l s s' :
  (forall e x x', P x -> streamStep c e x = Some x' -> P x') -> P s -> streamSteps c l s = Some s' -> P s'.
Proof.
  intros Hstep. revert s. induction l as [|e l IH]; intros s HP HS; cbn in HS; [by simplify_eq|].
  destruct (streamStep c e s) as [x|] eqn:E; [|discriminate]. eauto.
Qed.

(** ** Failures *)

(** What a backend ended with and is not received yet, and in a run: the errors
    that backends ended with, and those the consumer received, each with
    whether the display limit had been reached before it. *)
Definition failing (x : sworker (Stats := Stats)) : option err := match x with Failing e => Some e | _ => None end.
Definition failure ev : option err := match ev with Failure e => Some e | Batch _ _ _ => None end.
Definition underway s : list err := omap failing (ss_workers s) ++ omap failure (ss_events s).

Definition ended (l : list (streamEvent (Stats := Stats))) : list err := omap (fun x => match x with SEnd _ e => e | _ => None end) l.
Definition receipt (x : streamEvent (Stats := Stats)) s : list (err * bool) :=
  match x, ss_events s with SConsume _, Failure e :: _ => [(e, ss_limitReached s)] | _, _ => [] end.
Fixpoint received c (l : list streamEvent) s : list (err * bool) :=
  match l with
  | [] => []
  | x :: l => receipt x s ++ match streamStep c x s with Some s' => received c l s' | None => [] end
  end.

Lemma failing_move (ws : list (sworker (Stats := Stats))) w x y :
  ws !! w = Some x -> omap failing (<[w := y]> ws) ++ option_list (failing x) ≡ₚ omap failing ws ++ option_list (failing y).
Proof.
  intros Hw. rewrite (insert_take_drop ws w y) by (by eapply lookup_lt_Some). rewrite <- (take_drop_middle ws w x Hw) at 3.
  rewrite !omap_app. cbn. destruct (failing x), (failing y); cbn; solve_Permutation.
Qed.

(** A worker that moves on without ending in an error or sending one. *)
Lemma underway_move s s' w x y :
  ss_workers s !! w = Some x -> failing x = None -> failing y = None -> ss_workers s' = <[w := y]> (ss_workers s) ->
  omap failure (ss_events s') = omap failure (ss_events s) -> underway s' ≡ₚ underway s.
Proof.
  intros Hw Hx Hy Ew Ee. unfold underway. rewrite Ew, Ee. pose proof (failing_move _ w x y Hw) as HM.
  rewrite Hx, Hy in HM. cbn in HM. rewrite !app_nil_r in HM. by rewrite HM.
Qed.

Ltac underway_move := eapply underway_move; first [eassumption|done|reflexivity|idtac]; try done.

(** No error is lost and none is received twice. *)
Lemma step_underway c x s s' :
  StreamOK s -> streamStep c x s = Some s' -> (receipt x s).*1 ++ underway s' ≡ₚ underway s ++ ended [x].
Proof.
  intros HO HS. unfold receipt, streamStep in *. destruct x as [w current|w batch|w|w|w er|w|an|er]; cbn [ended omap list_omap fmap list_fmap app].
  1-6: destruct (ss_workers s !! w) as [[]|] eqn:Ew; try discriminate.
  - rewrite app_nil_r. repeat case_match; simplify_eq; underway_move.
  - rewrite app_nil_r. simplify_eq. underway_move.
  - rewrite app_nil_r. destruct (room s); [|discriminate]. simplify_eq. underway_move. cbn. by rewrite omap_app, app_nil_r.
  - rewrite app_nil_r. destruct (done s); [|discriminate]. simplify_eq. underway_move.
  - injection HS as <-. unfold underway. cbn. pose proof (failing_move _ w _ (match er with None => SIdle | Some e => Failing e end) Ew) as HM. cbn in HM.
    rewrite app_nil_r in HM. rewrite HM. destruct er as [e|]; cbn; solve_Permutation.
  - destruct (room s); [|discriminate]. injection HS as <-. unfold underway. cbn. pose proof (failing_move _ w _ SIdle Ew) as HM. cbn in HM.
    rewrite app_nil_r in HM. rewrite omap_app, app_nil_r, <- HM. cbn. solve_Permutation.
  - destruct (ss_events s) as [|ev rest] eqn:Ee; [discriminate|]. injection HS as <-. rewrite app_nil_r. unfold underway.
    destruct (consume_frame c an ev (s <| ss_events := rest |>)) as (_ & -> & _ & ->). rewrite Ee. cbn. destruct ev as [w i b|e]; cbn; [|solve_Permutation].
    pose proof (failing_move _ w _ (Streaming i) (so_batches s HO w i b ltac:(rewrite Ee; left))) as HM. cbn in HM. rewrite !app_nil_r in HM. by rewrite HM.
  - destruct (ss_callerErr s); [discriminate|]. injection HS as <-. by rewrite app_nil_r.
Qed.

Lemma received_ended c l s s' :
  StreamOK s -> streamSteps c l s = Some s' -> (received c l s).*1 ++ underway s' ≡ₚ underway s ++ ended l.
Proof.
  revert s. induction l as [|x l IH]; intros s HO HS; cbn [streamSteps received] in *; [injection HS as <-; cbn; by rewrite app_nil_r|].
  destruct (streamStep c x s) as [s1|] eqn:E; [|discriminate]. specialize (IH s1 (StreamOK_step _ _ _ _ HO E) HS). pose proof (step_underway c x s s1 HO E) as HU.
  assert (ended (x :: l) = ended [x] ++ ended l) as -> by (unfold ended; cbn; by case_match).
  rewrite fmap_app, app_assoc, <- HU, <- app_assoc, IH. solve_Permutation.
Qed.

(** While no error is kept, what is received is an end of a context past the
    limit. *)
Definition excused (r : err * bool) : Prop := contextTermination r.1 = true /\ r.2 = true.

Lemma kept_step c x s s' e : ss_streamErr s = Some e -> streamStep c x s = Some s' -> ss_streamErr s' = Some e.
Proof.
  intros He HS. unfold streamStep in HS. destruct x; repeat case_match; simplify_eq; try exact He.
  by apply (proj1 (consume_keeps _ _ _ _)).
Qed.
Lemma kept_steps c l s s' e : ss_streamErr s = Some e -> streamSteps c l s = Some s' -> ss_streamErr s' = Some e.
Proof. intros He. apply (streamSteps_ind c (fun s => ss_streamErr s = Some e)); [|exact He]. intros x a b Ha Hb. by eapply kept_step. Qed.

Lemma received_excused c l s s' : streamSteps c l s = Some s' -> ss_streamErr s' = None -> Forall excused (received c l s).
Proof.
  revert s. induction l as [|x l IH]; intros s HS HN; cbn [streamSteps received] in *; [constructor|].
  destruct (streamStep c x s) as [s1|] eqn:E; [|discriminate]. apply Forall_app. split; [|by apply IH].
  assert (H1 : ss_streamErr s1 = None) by (destruct (ss_streamErr s1) as [e|] eqn:E1; [by rewrite (kept_steps c l s1 s' e E1 HS) in HN|done]).
  assert (H0 : ss_streamErr s = None) by (destruct (ss_streamErr s) as [e|] eqn:E0; [by rewrite (kept_step c x s s1 e E0 E) in H1|done]).
  destruct x; cbn; try by constructor. cbn in E. destruct (ss_events s) as [|[w i b|e] rest]; try by constructor. constructor; [|constructor].
  injection E as <-. cbn in H1. rewrite H0 in H1. cbn in H1. rewrite orb_false_r in H1. unfold excused. cbn.
  destruct (ss_limitReached s), (contextTermination e); cbn in H1; try discriminate; auto.
Qed.

Lemma step_sent c limit e s s' : SentOK c limit s -> streamStep c e s = Some s' -> SentOK c limit s'.
Proof.
  intros HI HS. destruct e; cbn in HS; repeat case_match; simplify_eq;
    try (by apply (SentOK_same c limit s)). apply consume_sent. by apply (SentOK_same c limit s).
Qed.

Lemma start_sent c g n m : SentOK c (clamp m 50 500) (startStream (Stats := Stats) g n m).
Proof. constructor; cbn; auto using Forall_nil_2; unfold clamp; repeat case_match; bsplit; lia. Qed.
Lemma start_OK g n m : StreamOK (startStream (Stats := Stats) g n m).
Proof.
  constructor; cbn; try lia; try constructor; try discriminate.
  - intros w i b Hin. inversion Hin.
  - intros w i H. apply lookup_replicate in H as [H _]. discriminate.
Qed.

Lemma step_closed c e s s' : closed s = true /\ streamStep c e s = Some s' -> closed s' = true /\ ss_sent s' = ss_sent s.
Proof.
  intros [HC HS]. destruct e; cbn in HS; repeat case_match; simplify_eq; try (split; [exact HC|reflexivity]).
  split; [|etransitivity; [apply consume_closed; exact HC|reflexivity]]. match goal with |- closed (consumeEvent ?c ?a ?e ?s') = _ => destruct (consume_keeps c a e s') as (Ks & Kl & _) end.
  cbn in Ks, Kl. unfold closed in *. destruct (ss_streamErr s) as [x|] eqn:Es; [by rewrite (Ks x)|].
  rewrite Kl by exact HC. apply orb_true_r.
Qed.

Lemma drained_underway s : streamDrained s = true -> underway s = [].
Proof.
  unfold streamDrained, underway. intros [HX HE]%andb_true_iff. destruct (ss_events s); [|discriminate]. rewrite app_nil_r. clear HE. revert HX.
  induction (ss_workers s) as [|x ws IH]; cbn; [done|]. destruct x; try discriminate. exact IH.
Qed.
Lemma start_underway g n m : underway (startStream g n m) = [].
Proof. unfold underway, startStream. cbn. rewrite app_nil_r. by induction (Z.to_nat _). Qed.

(** ** Termination *)
Definition weight (x : sworker (Stats := Stats)) : Z :=
  match x with SExited => 0 | SIdle => 1 | Failing _ => 3 | Streaming _ | Waiting _ => 4 | Offering _ _ => 6 end.
Definition work s : Z :=
  4 * Z.of_nat (length (ss_jobs s)) + total weight (ss_workers s) + Z.of_nat (length (ss_events s)) + (if is_nil (ss_callerErr s) then 1 else 0).
(** The batches that backends offer in a run. *)
Definition offer (e : streamEvent (Stats := Stats)) : Z := match e with SOffer _ _ => 1 | _ => 0 end.
Definition offers (l : list streamEvent) : Z := total offer l.

Lemma stream_weight_nonneg x : 0 <= weight x.
Proof. by destruct x. Qed.

Lemma step_works c e s s' : StreamOK s -> streamStep c e s = Some s' -> work s' + 1 <= work s + 3 * offer e.
Proof.
  intros HO HS. destruct e as [w current|w batch|w|w|w er|w|an|er]; cbn [offer]; unfold streamStep in HS.
  1-6: destruct (ss_workers s !! w) as [[]|] eqn:Ew; try discriminate; repeat case_match; simplify_eq; unfold work; cbn;
    rewrite (total_insert _ _ _ _ _ Ew), ?length_app; cbn; try match goal with H : ss_jobs _ = _ |- _ => rewrite H end; cbn [length]; lia.
  - destruct (ss_events s) as [|ev rest] eqn:Ee; [discriminate|]. injection HS as <-.
    unfold work. destruct (consume_frame c an ev (s <| ss_events := rest |>)) as (-> & -> & -> & ->). rewrite Ee. cbn. destruct ev as [w i b|]; [|lia].
    rewrite (total_insert _ _ _ _ _ (so_batches s HO w i b ltac:(rewrite Ee; left))). cbn. lia.
  - destruct (ss_callerErr s) eqn:Er; [discriminate|]. injection HS as <-. unfold work. rewrite Er. cbn. lia.
Qed.

Lemma run_works c l s s' : StreamOK s -> streamSteps c l s = Some s' -> work s' + Z.of_nat (length l) <= work s + 3 * offers l.
Proof.
  revert s. induction l as [|e l IH]; intros s HO HS; cbn in HS; [simplify_eq; unfold offers; rewrite total_nil; cbn; lia|].
  destruct (streamStep c e s) as [x|] eqn:E; [|discriminate]. pose proof (step_works _ _ _ _ HO E).
  specialize (IH x (StreamOK_step _ _ _ _ HO E) HS). change (offers (e :: l)) with (offer e + offers l). cbn [length]. lia.
Qed.

Lemma stream_work_nonneg s : 0 <= work s.
Proof. unfold work. pose proof (total_nonneg weight (ss_workers s) stream_weight_nonneg). destruct (is_nil (ss_callerErr s)); lia. Qed.

(** A step the program takes of its own: not a further batch of a backend and
    not the end of the caller's context. *)
Definition own (e : streamEvent (Stats := Stats)) : bool := match e with SOffer _ _ | SCallerDone _ => false | _ => true end.

Lemma stream_progress c s : StreamOK s -> streamDrained s = false -> exists e s', own e = true /\ streamStep c e s = Some s'.
Proof.
  intros HO HD. destruct (ss_events s) as [|ev rest] eqn:Ee.
  - assert (exists w x, ss_workers s !! w = Some x /\ x <> SExited) as (w & x & Hw & Hx).
    { unfold streamDrained in HD. rewrite Ee in HD. cbn in HD. rewrite andb_true_r in HD. clear -HD. revert HD. generalize (ss_workers s).
      induction l as [|x l IH]; cbn; [discriminate|]. intros H. destruct (sexited x) eqn:E; cbn in H.
      - destruct (IH H) as (w & y & Hw & Hy). by exists (S w), y.
      - exists 0%nat, x. split; [done|]. by intros ->. }
    assert (Hr : room s = true).
    { unfold room. rewrite Ee. apply Nat.ltb_lt. apply lookup_lt_Some in Hw. cbn. lia. }
    destruct x as [|i|i b|i|e|].
    + exists (STake w true). cbn. rewrite Hw. destruct (ss_jobs s); eauto.
    + exists (SEnd w None). cbn. rewrite Hw. eauto.
    + exists (SSend w). unfold streamStep. rewrite Hw, Hr. eauto.
    + destruct (so_waiting s HO w i Hw) as [b Hin]. rewrite Ee in Hin. inversion Hin.
    + exists (SFail w). unfold streamStep. rewrite Hw, Hr. eauto.
    + done.
  - exists (SConsume (mkAnswers true (fun r => (r, true)))). cbn. rewrite Ee. eauto.
Qed.

Lemma start_work g n m : work (startStream g n m) = 4 * Z.of_nat n + boundWorkerCount g (Z.of_nat n) + 1.
Proof.
  unfold work, startStream; cbn. rewrite length_seq. pose proof (workerCount_range g (Z.of_nat n)).
  assert (forall k, total weight (replicate k SIdle) = Z.of_nat k) as ->; [|lia].
  induction k as [|k IH]; [done|]. change (total weight (replicate (S k) SIdle)) with (1 + total weight (replicate k SIdle)). lia.
Qed.

Lemma stream_step_workers c k e s s' : length (ss_workers s) = k -> streamStep c e s = Some s' -> length (ss_workers s') = k.
Proof.
  intros Hk HS. destruct e; cbn in HS; repeat case_match; simplify_eq; cbn; rewrite ?length_insert; try reflexivity.
  match goal with |- context [consumeEvent ?c ?a ?e ?s'] => destruct (consume_frame c a e s') as (_ & _ & _ & ->) end.
  cbn. case_match; by rewrite ?length_insert.
Qed.

(** ** Results *)

(** At every moment of a progressive search what its sink has passed on is
    at most the display limit, itself at most 500, and only files at the
    compiled versions; and once the limit or an error has stopped it the
    context is canceled and nothing more is ever passed on. *)
Theorem stream_is_bounded c g n m l s :
  streamSteps c l (startStream g n m) = Some s ->
  Z.of_nat (length (sentFiles s)) <= clamp m 50 500 <= 500 /\
  Forall (fun f => default "" (cp_versions c !! fm_Repository f) = fm_Version f) (sentFiles s) /\
  (ss_limitReached s = true \/ Z.of_nat (length (sentFiles s)) < clamp m 50 500) /\
  (ss_limitReached s = true \/ ss_streamErr s <> None ->
     ss_canceled s = true /\ forall l' s', streamSteps c l' s = Some s' -> ss_sent s' = ss_sent s).
Proof.
  intros HS. pose proof (streamSteps_ind c (SentOK c (clamp m 50 500)) _ _ _ (step_sent c _) (start_sent c g n m) HS) as [H1 H2 H3 H4].
  pose proof (streamSteps_ind c StreamOK _ _ _ (fun e x x' HO HX => StreamOK_step c e x x' HO HX) (start_OK g n m) HS) as HO.
  split; [split; [lia|unfold clamp; repeat case_match; bsplit; lia]|]. split; [exact H3|]. split.
  - destruct (Z.eqb_spec (ss_remaining s) 0); [left; auto|right; lia].
  - intros HC. assert (Hc : closed s = true).
    { unfold closed. destruct HC as [->|HC]; [apply orb_true_r|]. by destruct (ss_streamErr s). }
    split; [by apply (so_canceled s HO)|]. intros l' s' HS'.
    enough (closed s' = true /\ ss_sent s' = ss_sent s) by tauto.
    eapply (streamSteps_ind c (fun x => closed x = true /\ ss_sent x = ss_sent s)); [|by split|exact HS'].
    intros e x x' [Hx Hs] HX. destruct (step_closed c e x x' (conj Hx HX)) as [? E]. split; [done|congruence].
Qed.

(** C39: A progressive search on [n] backends takes at most [4n + 9] steps and
    three more for each batch a backend offers, its channel never holds more
    than sixteen events, and it is never stuck: until every worker has exited
    and the channel is empty some step of the program itself can be taken,
    without a further batch and without canceling the caller. *)
Theorem stream_finishes c g n m l s :
  streamSteps c l (startStream g n m) = Some s ->
  Z.of_nat (length l) <= 4 * Z.of_nat n + 9 + 3 * offers l /\
  (length (ss_events s) <= 16)%nat /\
  (streamDrained s = false -> exists e s', own e = true /\ streamStep c e s = Some s').
Proof.
  intros HS. pose proof (run_works c l _ _ (start_OK g n m) HS) as HW. pose proof (stream_work_nonneg s).
  pose proof (streamSteps_ind c StreamOK _ _ _ (fun e x x' HO HX => StreamOK_step c e x x' HO HX) (start_OK g n m) HS) as HO.
  pose proof (streamSteps_ind c (fun x => length (ss_workers x) = length (ss_workers (startStream (Stats := Stats) g n m))) _ _ _
    (stream_step_workers c _) eq_refl HS) as HL.
  rewrite start_work in HW. pose proof (workerCount_range g (Z.of_nat n)).
  split; [lia|]. split; [|by apply stream_progress].
  pose proof (so_room s HO) as HR. cbn in HL. rewrite length_replicate in HL. lia.
Qed.

(** C36: A progressive search on at least one backend whose workers have exited
    and whose channel is drained, and which returns no error, hid none: its
    caller's context has not ended, the whole-repository generations were
    current, and the errors its consumer received are those that backends ended
    with, each once, every one the end of a context and received only after the
    display limit had been reached.  (The backend may have ended before: its
    error then waited in the channel behind the batch that reached the limit.) *)
Theorem silent_stream_hid_nothing c g n m l s wholeCurrent :
  streamSteps c l (startStream g n m) = Some s -> streamDrained s = true -> (0 < n)%nat -> streamResult n s wholeCurrent = None ->
  ss_callerErr s = None /\ wholeCurrent = true /\
  (received c l (startStream g n m)).*1 ≡ₚ ended l /\
  Forall (fun r : err * bool => contextTermination r.1 = true /\ r.2 = true) (received c l (startStream g n m)).
Proof.
  intros HS HD Hpos HR. unfold streamResult in HR. destruct (Nat.eqb_spec n 0); [lia|]. destruct (ss_callerErr s); [discriminate|].
  destruct (ss_streamErr s) as [x|] eqn:Es; [discriminate|]. cbn in HR. destruct wholeCurrent; [|discriminate].
  split; [done|]. split; [done|]. split; [|exact (received_excused c l _ s HS Es)].
  pose proof (received_ended c l _ s (start_OK g n m) HS) as HU. rewrite (drained_underway s HD), start_underway, app_nil_r in HU. exact HU.
Qed.
End Theorems.

(** ** Examples *)
Definition streamFile (repo name : string) : FileMatch := mkFile 1 repo name "v1" "" "" "" 0 0 [] "".
Definition streamBatch (l : list FileMatch) : option (SearchResult (Stats := Z)) := Some (mkResult 0 0 0 l ∅ ∅).
Definition streamCompiled : compiledSearch := mkCompiled {["a" := "v1"]} [Some "a"; None] false.
Definition current : answers (Stats := Z) := mkAnswers true (fun r => (r, true)).

(** Two workers; the display limit of one is reached by the second batch, the
    other backend then ends with the cancellation. *)
Definition limited : list (streamEvent (Stats := Z)) :=
  [STake 0 true; STake 1 true;
   SOffer 0 (streamBatch [streamFile "a" "x"; streamFile "b" "x"]); SSend 0;
   SOffer 1 (streamBatch [streamFile "a" "y"; streamFile "a" "z"]); SSend 1;
   SConsume current; SConsume current;
   SOffer 0 None; SSkip 0; SEnd 0 None; STake 0 true;
   SEnd 1 (Some (Wrap (NSentinel canceledText) [])); SFail 1; STake 1 true; SConsume current].

Lemma stream_is_bounded_witness :
  exists s, streamSteps streamCompiled limited (startStream 2 2 2) = Some s /\
    map (map fm_FileName) (ss_sent s) = [["x"]; ["y"]] /\ Z.of_nat (length (sentFiles s)) <= clamp 2 50 500.
Proof.
  eexists. split; [vm_compute; reflexivity|]. split; [reflexivity|].
  refine (proj1 (proj1 (stream_is_bounded streamCompiled 2 2 2 limited _ _))). vm_compute; reflexivity.
Defined.

Lemma stream_finishes_witness :
  exists s, streamSteps streamCompiled (take 9 limited) (startStream 2 2 2) = Some s /\
    exists e s', own e = true /\ streamStep streamCompiled e s = Some s'.
Proof.
  eexists. split; [vm_compute; reflexivity|].
  refine (proj2 (proj2 (stream_finishes streamCompiled 2 2 2 (take 9 limited) _ _)) _); vm_compute; reflexivity.
Defined.

Lemma silent_stream_hid_nothing_witness :
  exists s, streamSteps streamCompiled limited (startStream 2 2 2) = Some s /\
    received streamCompiled limited (startStream 2 2 2) = [(Wrap (NSentinel canceledText) [], true)] /\
    (received streamCompiled limited (startStream 2 2 2)).*1 ≡ₚ ended limited.
Proof.
  eexists. split; [vm_compute; reflexivity|]. split; [vm_compute; reflexivity|].
  refine (proj1 (proj2 (proj2 (silent_stream_hid_nothing streamCompiled 2 2 2 limited _ true _ _ _ _)))); [vm_compute; reflexivity|vm_compute; reflexivity|lia|vm_compute; reflexivity].
Defined.
