(* ===== verification/JobQueue.v ===== *)
(** * The durable job queue: rows and transactions

    Model of the job tables of [internal/store/surreal.go]: one table per kind
    of job, the rows' life cycle and every statement the queue submits.  A
    transaction of SurrealDB is atomic, so each is a function of the table to
    the rows it returns and the next table, or to the text of its error, which
    changes nothing.  Statements are translated clause by clause; the projection
    of the latest job into the [repo] table is left out, and so are
    the truncation flags of diagnostic reads.  A time is its nanoseconds,
    [NONE] is [None], a record id is its rendered string. *)
From stdpp Require Import sorting.
From S2P Require Import Prelude GoStrings JobErrors.

Inductive JobStatus :=
  | StatusPending | StatusClaimed | StatusRunning | StatusDone | StatusFailed | StatusCanceled.
#[export] Instance JobStatus_eq_dec : EqDecision JobStatus.
Proof. solve_decision. Defined.

(** A row of a job table. *)
Record jobRow := mkRow {
  r_target : string;
  r_status : JobStatus;
  r_attempts : Z;
  r_error : string;
  r_createdAt : Z;
  r_notBefore : option Z;
  r_claimedBy : option string;
  r_claimedAt : option Z;
  r_heartbeatAt : option Z;
  r_finishedAt : option Z;
  r_force : bool;
  r_leaseToken : option string;
  r_pendingKey : option string;
  r_recoveryLease : option string
}.
#[export] Instance eta_jobRow : Eta jobRow := fun r =>
  mkRow (r_target r) (r_status r) (r_attempts r) (r_error r) (r_createdAt r) (r_notBefore r) (r_claimedBy r)
    (r_claimedAt r) (r_heartbeatAt r) (r_finishedAt r) (r_force r) (r_leaseToken r) (r_pendingKey r) (r_recoveryLease r).

Abbreviation jobTable := (gmap string jobRow).

(** The Go value a caller holds. *)
Record Job := mkJob {
  j_ID : string;
  j_Target : string;
  j_Status : JobStatus;
  j_Attempts : Z;
  j_NotBefore : option Z;
  j_ClaimedBy : string;
  j_HeartbeatAt : option Z;
  j_Force : bool;
  j_LeaseToken : string
}.

Definition toJob (id : string) (r : jobRow) : Job :=
  mkJob id (r_target r) (r_status r) (r_attempts r) (r_notBefore r) (default "" (r_claimedBy r)) (r_heartbeatAt r)
    (r_force r) (default "" (r_leaseToken r)).

(** ** Statements *)
Definition rows := list (string * jobRow).
Definition statement := jobTable -> res string (rows * jobTable).

Definition censusChanged : string := "phebs-conflict: pending job census changed".
Definition cancelCensusChanged : string := "phebs-conflict: pending cancellation census changed".
Definition indexContains : string := "index already contains the pending key".

(** [ORDER BY created_at LIMIT 1]; the database orders rows of one instant. *)
Fixpoint oldest (l : rows) : option (string * jobRow) :=
  match l with
  | [] => None
  | x :: l' => match oldest l' with
               | Some y => if r_createdAt y.2 <? r_createdAt x.2 then Some y else Some x
               | None => Some x
               end
  end.
Definition selectOldest (p : jobRow -> bool) (t : jobTable) : option string :=
  fst <$> oldest (base.filter (fun kv => p kv.2 = true) (map_to_list t)).

Definition pendingFor (target : string) (r : jobRow) : bool :=
  bool_decide (r_pendingKey r = Some target) && bool_decide (r_status r = StatusPending).
Definition queuePendingSelection (target : string) : jobTable -> option string := selectOldest (pendingFor target).
Definition queueRecoverySelection (target lease : string) : jobTable -> option string :=
  selectOldest (fun r => pendingFor target r && bool_decide (r_recoveryLease r = Some lease)).

(** The UNIQUE index on [pending_key]; [NONE] is not indexed. *)
Definition keyTaken (key : option string) (id : string) (t : jobTable) : bool :=
  match key with
  | None => false
  | Some _ => existsb (fun kv => negb (String.eqb kv.1 id) && bool_decide (r_pendingKey kv.2 = key)) (map_to_list t)
  end.
Definition write (id : string) (r : jobRow) (returned : rows) : statement := fun t =>
  if keyTaken (r_pendingKey r) id t then Err indexContains else Ok (returned, <[id := r]> t).

(** [UPDATE id SET f WHERE p RETURN AFTER]. *)
Definition updateWhere (id : string) (p : jobRow -> bool) (f : jobRow -> jobRow) : statement := fun t =>
  match t !! id with
  | Some r => if p r then write id (f r) [(id, f r)] t else Ok ([], t)
  | None => Ok ([], t)
  end.
Definition always (r : jobRow) : bool := true.

Definition newPending (target : string) (created : Z) (force : bool) (recovery : option string) : jobRow :=
  mkRow target StatusPending 0 "" created None None None None None force None (Some target) recovery.
(** [CREATE]: the database picks an unused record id. *)
Definition create (id : string) (r : jobRow) : statement := fun t =>
  match t !! id with
  | Some _ => Err "record already exists"
  | None => write id r [(id, r)] t
  end.

Definition isActive (s : JobStatus) : bool := match s with StatusClaimed | StatusRunning => true | _ => false end.
Definition isRunning (s : JobStatus) : bool := bool_decide (s = StatusRunning).
(** [status ... AND lease_token = $lease AND claimed_by = $who]. *)
Definition holds (statuses : JobStatus -> bool) (job : Job) (r : jobRow) : bool :=
  statuses (r_status r) && bool_decide (r_leaseToken r = Some (j_LeaseToken job))
  && bool_decide (r_claimedBy r = Some (j_ClaimedBy job)).
(** [(SELECT id FROM type::record($id) WHERE p)[0].id]. *)
Definition selectWhere (id : string) (p : jobRow -> bool) (t : jobTable) : bool := from_option p false (t !! id).

Definition cleared (r : jobRow) : jobRow :=
  r <| r_claimedBy := None |> <| r_claimedAt := None |> <| r_heartbeatAt := None |> <| r_leaseToken := None |>
    <| r_recoveryLease := None |> <| r_finishedAt := None |>.
Definition finished (status : JobStatus) (message : string) (now : Z) (r : jobRow) : jobRow :=
  r <| r_status := status |> <| r_error := message |> <| r_finishedAt := Some now |> <| r_leaseToken := None |>
    <| r_pendingKey := None |>.

(** *** Enqueueing *)
Definition forced (force : bool) (r : jobRow) : jobRow := r <| r_force := if force then true else r_force r |>.

(** [CreateJob]. *)
Definition createJobSQL (target newID : string) (created : Z) : statement := create newID (newPending target created false None).

Definition enqueuePendingSQL (target : string) (force : bool) (pending : option string) (newID : string) (now : Z) : statement := fun t =>
  if bool_decide (queuePendingSelection target t <> pending) then Err censusChanged
  else match pending with
       | None => create newID (newPending target now force None) t
       | Some id =>
           updateWhere id always (fun r => (forced force r) <| r_recoveryLease := None |> <| r_notBefore := None |>) t
       end.

Definition ensureJobSuccessorSQL (job : Job) (force : bool) (pending : option string) (newID : string) (now : Z) : statement := fun t =>
  let owned := selectWhere (j_ID job) (holds isRunning job) t in
  if owned && bool_decide (queuePendingSelection (j_Target job) t <> pending) then Err censusChanged
  else if negb owned then Ok ([], t)
  else match pending with
       | None => create newID (newPending (j_Target job) now force (Some (j_LeaseToken job))) t
       | Some id => updateWhere id always (forced force) t
       end.

(** *** Claiming *)
Definition eligible (now : Z) (r : jobRow) : bool :=
  bool_decide (r_status r = StatusPending) && match r_notBefore r with None => true | Some nb => nb <=? now end.
Definition claimCandidateSQL (now : Z) (t : jobTable) : option string := selectOldest (eligible now) t.

Definition claimSelectedJobSQL (cand who lease : string) (now : Z) : statement :=
  updateWhere cand (fun r => bool_decide (r_status r = StatusPending)) (fun r =>
    r <| r_status := StatusClaimed |> <| r_claimedBy := Some who |> <| r_leaseToken := Some lease |>
      <| r_pendingKey := None |> <| r_claimedAt := Some now |> <| r_heartbeatAt := Some now |>
      <| r_recoveryLease := None |>).

(** *** The holder's updates *)
Definition heartbeatSQL (job : Job) (now : Z) : statement :=
  updateWhere (j_ID job) (holds isRunning job) (fun r => r <| r_heartbeatAt := Some now |>).
Definition startSQL (job : Job) (message : string) : statement :=
  updateWhere (j_ID job) (holds (fun s => bool_decide (s = StatusClaimed)) job) (fun r =>
    r <| r_status := StatusRunning |> <| r_error := message |>).
Definition finishSQL (job : Job) (status : JobStatus) (message : string) (now : Z) : statement :=
  updateWhere (j_ID job) (holds isRunning job) (finished status message now).

(** A heartbeat the reaper observed and its cutoff. *)
Record heartbeatFence := mkFence { hf_observed : Z; hf_cutoff : Z }.
Definition stale (fence : heartbeatFence) (r : jobRow) : bool :=
  match r_heartbeatAt r with
  | Some h => (h =? hf_observed fence) && (h <? hf_cutoff fence)
  | None => false
  end.
Definition reapFailSQL (job : Job) (fence : heartbeatFence) (now : Z) : statement :=
  updateWhere (j_ID job) (fun r => holds isActive job r && stale fence r)
    (finished StatusFailed "reaped: stale claim, attempts exhausted" now).

(** *** Giving a lease back

    Each statement has two texts, chosen by the census: without a pending
    successor the held row itself is rewritten, with one the successor is
    updated first and the held row is canceled. *)
Definition withSuccessor (id successor : string) (p : jobRow -> bool) (update : jobRow -> jobRow)
    (message : string) (now : Z) : statement := fun t =>
  match updateWhere successor always update t with
  | Err e => Err e
  | Ok (_, t) => updateWhere id p (finished StatusCanceled message now) t
  end.

Definition failJobWithSuccessorSQL (job : Job) (message : string) (pending : option string) (now : Z) : statement := fun t =>
  let owned := selectWhere (j_ID job) (holds isRunning job) t in
  let fail r := (finished StatusFailed message now r) <| r_attempts := j_Attempts job + 1 |> <| r_notBefore := None |> in
  if owned && bool_decide (queueRecoverySelection (j_Target job) (j_LeaseToken job) t <> pending) then Err censusChanged
  else if negb owned then Ok ([], t)
  else match pending with
       | None => updateWhere (j_ID job) (holds isRunning job) fail t
       | Some successor =>
           withSuccessor (j_ID job) successor (holds isRunning job)
             (fun r => r <| r_status := StatusFailed |> <| r_attempts := j_Attempts job + 1 |> <| r_error := message |>
                         <| r_notBefore := None |> <| r_finishedAt := Some now |> <| r_pendingKey := None |>)
             ("attempts exhausted by pending successor: " +:+ message) now t
       end.

Definition deferJobSQL (job : Job) (message : string) (notBefore : Z) (pending : option string) (now : Z) : statement := fun t =>
  let owned := selectWhere (j_ID job) (holds isActive job) t in
  if owned && bool_decide (queuePendingSelection (j_Target job) t <> pending) then Err censusChanged
  else if negb owned then Ok ([], t)
  else match pending with
       | None => updateWhere (j_ID job) (holds isActive job) (fun r =>
           (cleared r) <| r_status := StatusPending |> <| r_error := message |> <| r_notBefore := Some notBefore |>
             <| r_createdAt := now |> <| r_pendingKey := Some (j_Target job) |>) t
       | Some successor =>
           withSuccessor (j_ID job) successor (holds isActive job) (forced (j_Force job))
             ("superseded by pending freshness event: " +:+ message) now t
       end.

(** The variables of [returnToPending]: [increment] counts a failed attempt
    and sets the backoff gate, a fence restricts the update to a stale row. *)
Record returnVars := mkReturnVars {
  rv_job : Job; rv_message : string; rv_notBefore : Z; rv_increment : bool; rv_fence : option heartbeatFence
}.
Definition btoi (value : bool) : Z := if value then 1 else 0.
Definition rv_attempts (v : returnVars) : Z := j_Attempts (rv_job v) + btoi (rv_increment v).
Definition rv_gate (v : returnVars) : option Z := if rv_increment v then Some (rv_notBefore v) else None.
Definition returnable (v : returnVars) (r : jobRow) : bool :=
  holds isActive (rv_job v) r && from_option (fun f => stale f r) true (rv_fence v).

Definition returnToPendingSQL (v : returnVars) (pending : option string) (now : Z) : statement := fun t =>
  let job := rv_job v in
  let owned := selectWhere (j_ID job) (returnable v) t in
  if owned && bool_decide (queuePendingSelection (j_Target job) t <> pending) then Err censusChanged
  else if negb owned then Ok ([], t)
  else match pending with
       | None => updateWhere (j_ID job) (returnable v) (fun r =>
           (cleared r) <| r_status := StatusPending |> <| r_attempts := rv_attempts v |> <| r_error := rv_message v |>
             <| r_notBefore := rv_gate v |> <| r_pendingKey := Some (j_Target job) |>) t
       | Some successor =>
           withSuccessor (j_ID job) successor (returnable v) (fun r =>
             (forced (j_Force job) r) <| r_attempts := if rv_increment v then rv_attempts v else r_attempts r |>
               <| r_error := rv_message v |> <| r_notBefore := rv_gate v |> <| r_recoveryLease := None |>)
             ("superseded by pending successor: " +:+ rv_message v) now t
       end.

(** *** Cancelling a repository's pending work *)
Definition cancelable (target : string) (r : jobRow) : bool :=
  bool_decide (r_target r = target) && bool_decide (r_status r = StatusPending).
Definition canceled (now : Z) (r : jobRow) : jobRow :=
  r <| r_status := StatusCanceled |> <| r_error := "repository deleting" |> <| r_finishedAt := Some now |>
    <| r_notBefore := None |> <| r_pendingKey := None |>.
Definition restoreClearRows : nat := 512.
Definition id_le (a b : string) : Prop := str_ltb b a = false.
#[export] Instance id_le_dec a b : Decision (id_le a b) := decide (str_ltb b a = false).

(** [SELECT VALUE id ... ORDER BY id LIMIT $limit]. *)
Definition cancelPendingJobSelection (target : string) (limit : nat) (t : jobTable) : list string :=
  take limit (merge_sort id_le (fst <$> base.filter (fun kv => cancelable target kv.2 = true) (map_to_list t))).

Definition cancelWhere (p : string -> jobRow -> bool) (now : Z) (t : jobTable) : rows * jobTable :=
  (map_to_list (map_imap (fun id r => if p id r then Some (canceled now r) else None) t),
   map_imap (fun id r => Some (if p id r then canceled now r else r)) t).

Definition cancelPendingJobsSelectedSQL (target : string) (ids : list string) (limit : nat) (now : Z) : statement := fun t =>
  if bool_decide (cancelPendingJobSelection target limit t <> ids \/ ~ NoDup ids) then Err cancelCensusChanged
  else Ok (cancelWhere (fun id r => bool_decide (id ∈ ids) && cancelable target r) now t).
(** The statement for more rows than one page. *)
Definition cancelPendingJobsSQL (target : string) (now : Z) : statement := fun t =>
  Ok (cancelWhere (fun _ => cancelable target) now t).

(** ** Queries

    Everything the queue asks of the database. *)
Inductive query :=
  | QPending (target : string)
  | QRecovery (target lease : string)
  | QCreate (target newID : string) (created : Z)
  | QEnqueue (target : string) (force : bool) (pending : option string) (newID : string) (now : Z)
  | QSuccessor (job : Job) (force : bool) (pending : option string) (newID : string) (now : Z)
  | QCandidate (now : Z)
  | QClaim (cand who lease : string) (now : Z)
  | QHeartbeat (job : Job) (now : Z)
  | QStart (job : Job) (message : string)
  | QFinish (job : Job) (status : JobStatus) (message : string) (now : Z)
  | QStale (cutoff : Z) (limit : nat)
  | QReapFail (job : Job) (fence : heartbeatFence) (now : Z)
  | QFailWithSuccessor (job : Job) (message : string) (pending : option string) (now : Z)
  | QDefer (job : Job) (message : string) (notBefore : Z) (pending : option string) (now : Z)
  | QReturn (vars : returnVars) (pending : option string) (now : Z)
  | QCancelSelection (target : string)
  | QCancel (target : string) (census : option (list string)) (now : Z).

(** A selection returns the whole row, a superset of the fields it names. *)
Definition selected (o : option string) (t : jobTable) : rows :=
  match o with Some id => from_option (fun r => [(id, r)]) [] (t !! id) | None => [] end.
Definition heartbeatBefore (cutoff : Z) (r : jobRow) : bool :=
  isActive (r_status r) && match r_heartbeatAt r with Some h => h <? cutoff | None => false end.

Definition run (q : query) : statement := fun t =>
  match q with
  | QPending target => Ok (selected (queuePendingSelection target t) t, t)
  | QRecovery target lease => Ok (selected (queueRecoverySelection target lease t) t, t)
  | QCreate target newID created => createJobSQL target newID created t
  | QEnqueue target force pending newID now => enqueuePendingSQL target force pending newID now t
  | QSuccessor job force pending newID now => ensureJobSuccessorSQL job force pending newID now t
  | QCandidate now => Ok (selected (claimCandidateSQL now t) t, t)
  | QClaim cand who lease now => claimSelectedJobSQL cand who lease now t
  | QHeartbeat job now => heartbeatSQL job now t
  | QStart job message => startSQL job message t
  | QFinish job status message now => finishSQL job status message now t
  | QStale cutoff limit => Ok (take limit (map_to_list (base.filter (fun kv => heartbeatBefore cutoff kv.2 = true) t)), t)
  | QReapFail job fence now => reapFailSQL job fence now t
  | QFailWithSuccessor job message pending now => failJobWithSuccessorSQL job message pending now t
  | QDefer job message notBefore pending now => deferJobSQL job message notBefore pending now t
  | QReturn vars pending now => returnToPendingSQL vars pending now t
  | QCancelSelection target =>
      Ok (omap (fun id => (fun r => (id, r)) <$> t !! id) (cancelPendingJobSelection target (S restoreClearRows) t), t)
  | QCancel target (Some ids) now => cancelPendingJobsSelectedSQL target ids (S restoreClearRows) now t
  | QCancel target None now => cancelPendingJobsSQL target now t
  end.

(** The table after a query: an error rolls the transaction back. *)
Definition after (q : query) (t : jobTable) : jobTable := match run q t with Ok (_, t') => t' | Err _ => t end.
