(* ===== verification/JobQueueRows.v ===== *)
(** * The durable job queue: the life of a row

    What a query can do to a row: the row's state machine ([rowStep]), and the
    proof that every statement of [JobQueue] only takes its steps. *)
From S2P Require Import Prelude JobErrors JobQueue.

(** ** Selections *)
Lemma oldest_spec l x : oldest l = Some x -> x ∈ l /\ forall y, y ∈ l -> r_createdAt x.2 <= r_createdAt y.2.
Proof.
  revert x. induction l as [|z l IH]; intros x H; [discriminate|]. cbn in H.
  destruct (oldest l) as [y|] eqn:E.
  - destruct (IH y eq_refl) as [Hin Hle]. destruct (Z.ltb_spec (r_createdAt y.2) (r_createdAt z.2)); injection H as <-.
    + split; [by right|]. intros w [->|Hw]%elem_of_cons; [lia|auto].
    + split; [by left|]. intros w [->|Hw]%elem_of_cons; [lia|]. specialize (Hle w Hw). lia.
  - injection H as <-. split; [by left|]. intros w [->|Hw]%elem_of_cons; [lia|].
    destruct l as [|v l]; [by apply not_elem_of_nil in Hw|]. cbn in E.
    destruct (oldest l); [destruct (_ <? _)|]; discriminate.
Qed.

Lemma oldest_None l : oldest l = None -> l = [].
Proof. destruct l as [|v l]; [auto|]. cbn. destruct (oldest l); [destruct (_ <? _)|]; discriminate. Qed.

Lemma elem_of_matching p (t : jobTable) kv :
  kv ∈ base.filter (fun kv => p kv.2 = true) (map_to_list t) <-> p kv.2 = true /\ t !! kv.1 = Some kv.2.
Proof. rewrite list_elem_of_filter. destruct kv as [id r]. cbn. rewrite elem_of_map_to_list. reflexivity. Qed.

Lemma selectOldest_Some p t id :
  selectOldest p t = Some id ->
  exists r, t !! id = Some r /\ p r = true /\
    forall id' r', t !! id' = Some r' -> p r' = true -> r_createdAt r <= r_createdAt r'.
Proof.
  unfold selectOldest. intros H. apply fmap_Some in H as ([i r] & H & ->). apply oldest_spec in H as [Hin Hle].
  apply elem_of_matching in Hin as [Hp Hl]. exists r. split; [exact Hl|]. split; [exact Hp|].
  intros id' r' Hl' Hp'. apply (Hle (id', r')). by apply elem_of_matching.
Qed.

Lemma selectOldest_None p t : selectOldest p t = None -> forall id r, t !! id = Some r -> p r = false.
Proof.
  unfold selectOldest. intros H id r Hl. apply fmap_None, oldest_None in H. destruct (p r) eqn:Hp; [|auto].
  assert (Hin : (id, r) ∈ base.filter (fun kv => p kv.2 = true) (map_to_list t)) by (by apply elem_of_matching).
  rewrite H in Hin. by apply not_elem_of_nil in Hin.
Qed.

Lemma pendingFor_true target r : pendingFor target r = true <-> r_pendingKey r = Some target /\ r_status r = StatusPending.
Proof. unfold pendingFor. rewrite andb_true_iff, !bool_decide_eq_true. reflexivity. Qed.

Lemma holds_true ss job r :
  holds ss job r = true <->
  ss (r_status r) = true /\ r_leaseToken r = Some (j_LeaseToken job) /\ r_claimedBy r = Some (j_ClaimedBy job).
Proof. unfold holds. rewrite !andb_true_iff, !bool_decide_eq_true. tauto. Qed.

(** ** Writes *)
Lemma write_Ok id r rs t rs' t' : write id r rs t = Ok (rs', t') -> rs' = rs /\ t' = <[id := r]> t /\ keyTaken (r_pendingKey r) id t = false.
Proof. unfold write. destruct (keyTaken _ _ _); [discriminate|]. intros [= <- <-]. auto. Qed.

Lemma updateWhere_Ok id p f t rs t' :
  updateWhere id p f t = Ok (rs, t') ->
  (exists r, t !! id = Some r /\ p r = true /\ rs = [(id, f r)] /\ t' = <[id := f r]> t) \/
  (selectWhere id p t = false /\ rs = [] /\ t' = t).
Proof.
  unfold updateWhere, selectWhere. destruct (t !! id) as [r|]; cbn; [|intros [= <- <-]; auto].
  destruct (p r) eqn:Hp; [|intros [= <- <-]; auto]. intros (-> & -> & _)%write_Ok. left. exists r. auto.
Qed.

Lemma create_Ok id r t rs t' : create id r t = Ok (rs, t') -> t !! id = None /\ rs = [(id, r)] /\ t' = <[id := r]> t.
Proof. unfold create. destruct (t !! id); [discriminate|]. intros (-> & -> & _)%write_Ok. auto. Qed.

Lemma selectWhere_true id p t : selectWhere id p t = true <-> exists r, t !! id = Some r /\ p r = true.
Proof.
  unfold selectWhere. destruct (t !! id) as [r|]; cbn; [|split; [discriminate|intros (? & ? & ?); discriminate]].
  split; [eauto|]. intros (r' & [= ->] & H). exact H.
Qed.

(** ** The state machine of a row *)
Definition jobOf (q : query) : option Job :=
  match q with
  | QSuccessor job _ _ _ _ | QHeartbeat job _ | QStart job _ | QFinish job _ _ _ | QReapFail job _ _
  | QFailWithSuccessor job _ _ _ | QDefer job _ _ _ _ => Some job
  | QReturn v _ _ => Some (rv_job v)
  | _ => None
  end.
(** The target whose pending row a query may create or merge into. *)
Definition eventOn (q : query) : option string :=
  match q with
  | QCreate target _ _ | QEnqueue target _ _ _ _ => Some target
  | QSuccessor job _ _ _ _ | QDefer job _ _ _ _ => Some (j_Target job)
  | QReturn v _ _ => Some (j_Target (rv_job v))
  | _ => None
  end.
(** The queries that end work for good, and those that give a lease back. *)
Definition endsWork (q : query) : bool :=
  match q with QFinish _ _ _ _ | QReapFail _ _ _ | QFailWithSuccessor _ _ _ _ | QCancel _ _ _ => true | _ => false end.
Definition givesBack (q : query) : bool := match q with QDefer _ _ _ _ _ | QReturn _ _ _ => true | _ => false end.
Definition terminal (s : JobStatus) : bool := match s with StatusDone | StatusFailed | StatusCanceled => true | _ => false end.

(** A return that counts an attempt. *)
Definition countedBy (q : query) (attempts : Z) : Prop :=
  exists v pending now, q = QReturn v pending now /\ attempts = rv_attempts v.

Inductive rowStep (q : query) (id : string) (r r' : jobRow) : Prop :=
  (** merged into: still pending, never less forced, a recovery mark only cleared *)
  | step_event :
      r_status r = StatusPending -> eventOn q = Some (r_target r) ->
      r_target r' = r_target r -> r_status r' = StatusPending -> r_createdAt r' = r_createdAt r ->
      r_leaseToken r' = r_leaseToken r -> r_pendingKey r' = r_pendingKey r ->
      (r_force r = true -> r_force r' = true) -> (r_recoveryLease r' = None \/ r_recoveryLease r' = r_recoveryLease r) ->
      r_attempts r' = r_attempts r \/ countedBy q (r_attempts r') -> rowStep q id r r'
  | step_claim who lease now :
      q = QClaim id who lease now -> r_status r = StatusPending ->
      r' = r <| r_status := StatusClaimed |> <| r_claimedBy := Some who |> <| r_leaseToken := Some lease |>
        <| r_pendingKey := None |> <| r_claimedAt := Some now |> <| r_heartbeatAt := Some now |> <| r_recoveryLease := None |> ->
      rowStep q id r r'
  (** the recovery successor of an exhausted lease *)
  | step_dropped job :
      r_status r = StatusPending -> jobOf q = Some job -> r_recoveryLease r = Some (j_LeaseToken job) ->
      (exists message pending now, q = QFailWithSuccessor job message pending now) ->
      r_target r' = r_target r -> r_status r' = StatusFailed -> r_leaseToken r' = r_leaseToken r -> r_pendingKey r' = None ->
      rowStep q id r r'
  | step_cancel census now :
      r_status r = StatusPending -> q = QCancel (r_target r) census now -> r' = canceled now r -> rowStep q id r r'
  | step_held job :
      jobOf q = Some job -> id = j_ID job -> holds isActive job r = true ->
      r_status r' = r_status r \/ r_status r' = StatusRunning ->
      r_target r' = r_target r -> r_attempts r' = r_attempts r -> r_force r' = r_force r ->
      r_leaseToken r' = r_leaseToken r -> r_claimedBy r' = r_claimedBy r -> r_pendingKey r' = r_pendingKey r ->
      (is_Some (r_heartbeatAt r) -> is_Some (r_heartbeatAt r')) -> rowStep q id r r'
  | step_ended job :
      jobOf q = Some job -> id = j_ID job -> holds isActive job r = true ->
      endsWork q = true \/ (givesBack q = true /\ r_status r' = StatusCanceled) -> terminal (r_status r') = true ->
      r_target r' = r_target r -> r_leaseToken r' = None -> r_pendingKey r' = None -> rowStep q id r r'
  | step_returned job :
      jobOf q = Some job -> givesBack q = true -> id = j_ID job -> holds isActive job r = true ->
      r_target r' = r_target r -> r_status r' = StatusPending -> r_force r' = r_force r ->
      r_leaseToken r' = None -> r_pendingKey r' = Some (j_Target job) -> r_recoveryLease r' = None ->
      r_attempts r' = r_attempts r \/ countedBy q (r_attempts r') -> rowStep q id r r'.

Lemma active_held s s' : s' = s \/ s' = StatusRunning -> isActive s = true -> isActive s' = true.
Proof. intros [-> | ->]; auto. Qed.

Ltac row_cases H :=
  destruct H as
    [Hs He Ht Hs' Hc Hl' Hk' Hf Hrec Hat
    |who' lease' now' Hq Hs Hr'
    |job' Hs Hj Hrec Hq Ht Hs' Hl' Hk'
    |census' now' Hs Hq Hr'
    |job' Hj Hid Hh Ha' Ht Hat Hf Hl' Hw' Hk' Hb'
    |job' Hj Hid Hh He Hterm Ht Hl' Hk'
    |job' Hj He Hid Hh Ht Hs' Hf Hl' Hk' Hrec Hat].

(** A row a query creates. *)
Definition createdBy (q : query) (r : jobRow) : Prop :=
  exists target created force recovery,
    eventOn q = Some target /\ r = newPending target created force recovery /\
    (forall lease, recovery = Some lease -> exists job, jobOf q = Some job /\ j_LeaseToken job = lease).

(** What a query may make of the row of an id. *)
Definition rowChange (q : query) (id : string) (o o' : option jobRow) : Prop :=
  o' = o \/
  (o = None /\ exists r', o' = Some r' /\ createdBy q r') \/
  (exists r r', o = Some r /\ o' = Some r' /\ rowStep q id r r').

(** Pending rows are filed under their target. *)
Definition Keyed (t : jobTable) : Prop :=
  forall id r, t !! id = Some r -> r_status r = StatusPending -> r_pendingKey r = Some (r_target r).

Lemma rowChange_insert q id r r' (t : jobTable) :
  t !! id = Some r -> rowStep q id r r' -> forall id', rowChange q id' (t !! id') (<[id := r']> t !! id').
Proof.
  intros Hl Hs id'. destruct (decide (id' = id)) as [->|Hne].
  - right. right. exists r, r'. rewrite lookup_insert_eq. auto.
  - left. by apply lookup_insert_ne.
Qed.

Lemma rowChange_create q id r (t : jobTable) :
  t !! id = None -> createdBy q r -> forall id', rowChange q id' (t !! id') (<[id := r]> t !! id').
Proof.
  intros Hl Hc id'. destruct (decide (id' = id)) as [->|Hne].
  - right. left. split; [exact Hl|]. exists r. rewrite lookup_insert_eq. auto.
  - left. by apply lookup_insert_ne.
Qed.

(** ** Every statement follows the state machine *)
Definition changes (q : query) (t t' : jobTable) : Prop := forall id, rowChange q id (t !! id) (t' !! id).

Lemma changes_refl q t : changes q t t.
Proof. intros id. by left. Qed.

Lemma update_changes q id p f t rs t' :
  updateWhere id p f t = Ok (rs, t') ->
  (forall r, t !! id = Some r -> p r = true -> rowStep q id r (f r)) -> changes q t t'.
Proof.
  intros [(r & Hl & Hp & _ & ->)|(_ & _ & ->)]%updateWhere_Ok Hs; [|apply changes_refl].
  intros id'. apply (rowChange_insert q id r); auto.
Qed.

(** A pending row found for a target is filed under it. *)
Lemma pending_selected t target id :
  Keyed t -> queuePendingSelection target t = Some id ->
  exists r, t !! id = Some r /\ r_status r = StatusPending /\ r_target r = target.
Proof.
  intros HK H. apply selectOldest_Some in H as (r & Hl & Hp & _). apply pendingFor_true in Hp as [Hk Hs].
  exists r. split; [exact Hl|]. split; [exact Hs|]. rewrite (HK id r Hl Hs) in Hk. congruence.
Qed.

Lemma recovery_selected t target lease id :
  Keyed t -> queueRecoverySelection target lease t = Some id ->
  exists r, t !! id = Some r /\ r_status r = StatusPending /\ r_target r = target /\ r_recoveryLease r = Some lease.
Proof.
  intros HK H. apply selectOldest_Some in H as (r & Hl & Hp & _). apply andb_true_iff in Hp as [Hp Hr].
  apply pendingFor_true in Hp as [Hk Hs]. apply bool_decide_eq_true in Hr.
  exists r. split; [exact Hl|]. split; [exact Hs|]. rewrite (HK id r Hl Hs) in Hk. split; [congruence|exact Hr].
Qed.

(** The two writes of [withSuccessor]. *)
Lemma withSuccessor_Ok q id successor p update message now t rs t' rh rp :
  t !! id = Some rh -> p rh = true -> t !! successor = Some rp -> id <> successor ->
  withSuccessor id successor p update message now t = Ok (rs, t') ->
  rowStep q id rh (finished StatusCanceled message now rh) -> rowStep q successor rp (update rp) ->
  changes q t t' /\ t' !! id = Some (finished StatusCanceled message now rh) /\ t' !! successor = Some (update rp) /\
  rs = [(id, finished StatusCanceled message now rh)].
Proof.
  intros Hh Hp Hs Hne H Hsh Hsp. unfold withSuccessor in H.
  destruct (updateWhere successor always update t) as [[rs1 t1]|] eqn:E1; [|discriminate].
  apply updateWhere_Ok in E1 as [(r & Hl & _ & _ & ->)|(Hf & _ & _)].
  2: { apply not_true_iff_false in Hf. destruct Hf. apply selectWhere_true. exists rp. auto. }
  rewrite Hs in Hl. injection Hl as <-.
  assert (Hh1 : <[successor := update rp]> t !! id = Some rh) by (rewrite lookup_insert_ne by congruence; exact Hh).
  apply updateWhere_Ok in H as [(r & Hl & _ & -> & ->)|(Hf & _ & _)].
  2: { apply not_true_iff_false in Hf. destruct Hf. apply selectWhere_true. exists rh. auto. }
  rewrite Hh1 in Hl. injection Hl as <-. split; [|split; [|split; [|reflexivity]]].
  - intros k. destruct (decide (k = id)) as [->|Hk].
    + rewrite lookup_insert_eq. right. right. eauto.
    + rewrite lookup_insert_ne by congruence. by apply (rowChange_insert q successor rp).
  - apply lookup_insert_eq.
  - rewrite lookup_insert_ne by congruence. apply lookup_insert_eq.
Qed.

(** What a caller's copy of a job must agree on with the row it holds. *)
Definition agrees (job : Job) (t : jobTable) : Prop :=
  forall r, t !! j_ID job = Some r -> holds isActive job r = true ->
    r_target r = j_Target job /\ r_attempts r = j_Attempts job /\ r_force r = j_Force job.

Lemma isRunning_isActive s : isRunning s = true -> isActive s = true.
Proof. unfold isRunning. intros ->%bool_decide_eq_true. reflexivity. Qed.

Lemma holds_weaken (ss : JobStatus -> bool) job r : (forall s, ss s = true -> isActive s = true) -> holds ss job r = true -> holds isActive job r = true.
Proof. intros Hw (H1 & H2 & H3)%holds_true. apply holds_true. auto. Qed.

Lemma returnable_holds v r : returnable v r = true -> holds isActive (rv_job v) r = true.
Proof. unfold returnable. intros [H _]%andb_true_iff. exact H. Qed.

Lemma active_not_pending s : isActive s = true -> s <> StatusPending.
Proof. intros H ->. discriminate. Qed.

(** The statement of a holder: either its lease is not held and nothing
    changes, or it takes one of two branches on the census. *)
Lemma holder_cases (owned moved : bool) t (k : res string (rows * jobTable)) rs t' :
  (if owned && moved then Err censusChanged else if negb owned then Ok ([], t) else k) = Ok (rs, t') ->
  (owned = false /\ rs = [] /\ t' = t) \/ (owned = true /\ moved = false /\ k = Ok (rs, t')).
Proof. destruct owned, moved; cbn; intros H; try discriminate; [right; auto|injection H as <- <-; auto..]. Qed.

Section Statements.
Context (t : jobTable) (HK : Keyed t).

Lemma merge_event q target id f :
  queuePendingSelection target t = Some id -> eventOn q = Some target ->
  (forall r, r_target (f r) = r_target r /\ r_status (f r) = r_status r /\ r_createdAt (f r) = r_createdAt r /\
     r_leaseToken (f r) = r_leaseToken r /\ r_pendingKey (f r) = r_pendingKey r /\
     (r_force r = true -> r_force (f r) = true) /\ (r_recoveryLease (f r) = None \/ r_recoveryLease (f r) = r_recoveryLease r) /\
     (r_attempts (f r) = r_attempts r \/ countedBy q (r_attempts (f r)))) ->
  forall r, t !! id = Some r -> rowStep q id r (f r).
Proof.
  intros Hsel He Hf r Hl. destruct (pending_selected t target id HK Hsel) as (r' & Hl' & Hs & Ht).
  rewrite Hl in Hl'. injection Hl' as <-. destruct (Hf r) as (H1 & H2 & H3 & H4 & H5 & H6 & H7 & H8).
  apply step_event; auto; congruence.
Qed.

Lemma enqueue_changes target force pending newID now rs t' :
  enqueuePendingSQL target force pending newID now t = Ok (rs, t') ->
  changes (QEnqueue target force pending newID now) t t'.
Proof.
  unfold enqueuePendingSQL. destruct (bool_decide _) eqn:Eb; [discriminate|].
  apply bool_decide_eq_false in Eb. apply dec_stable in Eb. destruct pending as [id|]; intros H.
  - eapply update_changes; [exact H|]. intros r Hl _.
    apply (merge_event _ target id (fun r => (forced force r) <| r_recoveryLease := None |> <| r_notBefore := None |>)); auto.
    intros r'. cbn. repeat split; auto. destruct force; auto.
  - apply create_Ok in H as (Hl & _ & ->). intros id. apply rowChange_create; [exact Hl|].
    exists target, now, force, None. repeat split; [discriminate].
Qed.

Lemma successor_changes job force pending newID now rs t' :
  ensureJobSuccessorSQL job force pending newID now t = Ok (rs, t') ->
  changes (QSuccessor job force pending newID now) t t'.
Proof.
  unfold ensureJobSuccessorSQL. intros [(_ & _ & ->)|(Ho & Eb & H)]%holder_cases; [apply changes_refl|].
  apply bool_decide_eq_false in Eb. apply dec_stable in Eb. destruct pending as [id|].
  - eapply update_changes; [exact H|]. intros r Hl _.
    apply (merge_event _ (j_Target job) id (forced force)); auto.
    intros r'. cbn. repeat split; auto. destruct force; auto.
  - apply create_Ok in H as (Hl & _ & ->). intros id. apply rowChange_create; [exact Hl|].
    exists (j_Target job), now, force, (Some (j_LeaseToken job)). repeat split.
    intros lease [= <-]. exists job. auto.
Qed.

Lemma claim_changes cand who lease now rs t' :
  claimSelectedJobSQL cand who lease now t = Ok (rs, t') -> changes (QClaim cand who lease now) t t'.
Proof.
  intros H. eapply update_changes; [exact H|]. intros r _ Hp. apply bool_decide_eq_true in Hp.
  by eapply step_claim.
Qed.

Lemma finished_ends q job (p : jobRow -> bool) status message now r :
  jobOf q = Some job -> endsWork q = true \/ (givesBack q = true /\ status = StatusCanceled) -> terminal status = true ->
  holds isActive job r = true -> rowStep q (j_ID job) r (finished status message now r).
Proof. intros Hj He Ht Hh. by apply (step_ended q _ r _ job). Qed.

Lemma heartbeat_changes job now rs t' : heartbeatSQL job now t = Ok (rs, t') -> changes (QHeartbeat job now) t t'.
Proof.
  intros H. eapply update_changes; [exact H|]. intros r _ Hp. pose proof Hp as (Hs & _ & _)%holds_true.
  apply (holds_weaken _ _ _ isRunning_isActive) in Hp.
  eapply step_held with (job := job); try reflexivity; [exact Hp|by left|by eexists].
Qed.

Lemma start_changes job message rs t' : startSQL job message t = Ok (rs, t') -> changes (QStart job message) t t'.
Proof.
  intros H. eapply update_changes; [exact H|]. intros r _ Hp.
  eapply step_held with (job := job); try reflexivity; auto.
  eapply holds_weaken; [|exact Hp]. intros s ->%bool_decide_eq_true. reflexivity.
Qed.

Lemma finish_changes job status message now rs t' :
  terminal status = true -> finishSQL job status message now t = Ok (rs, t') ->
  changes (QFinish job status message now) t t'.
Proof.
  intros Ht H. eapply update_changes; [exact H|]. intros r _ Hp.
  apply (finished_ends _ job (holds isRunning job)); auto. eapply holds_weaken; [apply isRunning_isActive|exact Hp].
Qed.

Lemma reapFail_changes job fence now rs t' :
  reapFailSQL job fence now t = Ok (rs, t') -> changes (QReapFail job fence now) t t'.
Proof.
  intros H. eapply update_changes; [exact H|]. intros r _ [Hp _]%andb_true_iff.
  apply (finished_ends _ job (holds isActive job)); auto.
Qed.

Lemma failWithSuccessor_changes job message pending now rs t' :
  failJobWithSuccessorSQL job message pending now t = Ok (rs, t') ->
  changes (QFailWithSuccessor job message pending now) t t'.
Proof.
  unfold failJobWithSuccessorSQL. intros [(_ & _ & ->)|(Ho & Eb & H)]%holder_cases; [apply changes_refl|].
  apply bool_decide_eq_false in Eb. apply dec_stable in Eb.
  apply selectWhere_true in Ho as (rh & Hl & Hh). pose proof (holds_weaken _ _ _ isRunning_isActive Hh) as Ha.
  destruct pending as [successor|].
  - destruct (recovery_selected t _ _ _ HK Eb) as (rp & Hlp & Hsp & Htp & Hrp).
    assert (Hne : j_ID job <> successor).
    { intros <-. rewrite Hl in Hlp. injection Hlp as <-. apply holds_true in Ha as (Ha & _). rewrite Hsp in Ha. discriminate. }
    eapply (withSuccessor_Ok _ (j_ID job) successor _ _ _ _ _ _ _ rh rp Hl Hh Hlp Hne H).
    + apply (finished_ends _ job (holds isRunning job)); auto.
    + eapply step_dropped with (job := job); try reflexivity; eauto.
  - eapply update_changes; [exact H|]. intros r Hl' Hp. eapply step_ended with (job := job); try reflexivity; auto.
    eapply holds_weaken; [apply isRunning_isActive|exact Hp].
Qed.

Lemma defer_changes job message notBefore pending now rs t' :
  agrees job t -> deferJobSQL job message notBefore pending now t = Ok (rs, t') ->
  changes (QDefer job message notBefore pending now) t t'.
Proof.
  unfold deferJobSQL. intros Hag [(_ & _ & ->)|(Ho & Eb & H)]%holder_cases; [apply changes_refl|].
  apply bool_decide_eq_false in Eb. apply dec_stable in Eb. apply selectWhere_true in Ho as (rh & Hl & Hh).
  destruct pending as [successor|].
  - destruct (pending_selected t _ _ HK Eb) as (rp & Hlp & Hsp & Htp).
    assert (Hne : j_ID job <> successor).
    { intros <-. rewrite Hl in Hlp. injection Hlp as <-. apply holds_true in Hh as (Ha & _). rewrite Hsp in Ha. discriminate. }
    eapply (withSuccessor_Ok _ (j_ID job) successor _ _ _ _ _ _ _ rh rp Hl Hh Hlp Hne H).
    + apply (finished_ends _ job (holds isActive job)); auto.
    + apply (merge_event _ (j_Target job) successor (forced (j_Force job))); auto.
      intros r'. cbn. repeat split; auto. destruct (j_Force job); auto.
  - eapply update_changes; [exact H|]. intros r Hl' Hp. eapply step_returned with (job := job); try reflexivity; [exact Hp|by left].
Qed.

Lemma return_changes v pending now rs t' :
  agrees (rv_job v) t -> returnToPendingSQL v pending now t = Ok (rs, t') -> changes (QReturn v pending now) t t'.
Proof.
  unfold returnToPendingSQL. intros Hag [(_ & _ & ->)|(Ho & Eb & H)]%holder_cases; [apply changes_refl|].
  apply bool_decide_eq_false in Eb. apply dec_stable in Eb. apply selectWhere_true in Ho as (rh & Hl & Hh).
  pose proof (returnable_holds v rh Hh) as Ha.
  destruct pending as [successor|].
  - destruct (pending_selected t _ _ HK Eb) as (rp & Hlp & Hsp & Htp).
    assert (Hne : j_ID (rv_job v) <> successor).
    { intros <-. rewrite Hl in Hlp. injection Hlp as <-. apply holds_true in Ha as (Ha & _). rewrite Hsp in Ha. discriminate. }
    eapply (withSuccessor_Ok _ (j_ID (rv_job v)) successor _ _ _ _ _ _ _ rh rp Hl Hh Hlp Hne H).
    + apply (finished_ends _ (rv_job v) (returnable v)); auto.
    + apply (merge_event _ (j_Target (rv_job v)) successor (fun r => (forced (j_Force (rv_job v)) r)
        <| r_attempts := if rv_increment v then rv_attempts v else r_attempts r |>
        <| r_error := rv_message v |> <| r_notBefore := rv_gate v |> <| r_recoveryLease := None |>)); auto.
      intros r'. cbn. repeat split; auto; [destruct (j_Force (rv_job v)); auto|].
      destruct (rv_increment v); [right; exists v; eauto|left; reflexivity].
  - eapply update_changes; [exact H|]. intros r Hl' Hp. eapply step_returned with (job := rv_job v); try reflexivity.
    + by apply returnable_holds.
    + right. exists v. eauto.
Qed.

Lemma cancel_changes (p : string -> jobRow -> bool) target census now rs t' :
  (forall id r, p id r = true -> cancelable target r = true) -> cancelWhere p now t = (rs, t') ->
  changes (QCancel target census now) t t'.
Proof.
  intros Hp [= _ <-] id. rewrite map_lookup_imap. destruct (t !! id) as [r|]; cbn; [|by left].
  destruct (p id r) eqn:E; [|by left]. right. right. exists r, (canceled now r).
  apply Hp, andb_true_iff in E as [Ht%bool_decide_eq_true Hs%bool_decide_eq_true]. subst target.
  split; [reflexivity|]. split; [reflexivity|]. by eapply step_cancel.
Qed.
End Statements.

(** The requests the source makes: a status it may set, a job that agrees
    with the row it holds. *)
Definition proper (q : query) (t : jobTable) : Prop :=
  (forall job, jobOf q = Some job -> agrees job t) /\
  match q with QFinish _ status _ _ => status = StatusDone \/ status = StatusFailed | _ => True end.

Lemma run_changes q t rs t' : Keyed t -> proper q t -> run q t = Ok (rs, t') -> changes q t t'.
Proof.
  intros HK [Hj Hq] H. destruct q; cbn [run] in H.
  - injection H as <- <-. apply changes_refl.
  - injection H as <- <-. apply changes_refl.
  - apply create_Ok in H as (Hl & _ & ->). intros id. apply rowChange_create; [exact Hl|].
    exists target, created, false, None. repeat split; [discriminate].
  - eapply enqueue_changes; eauto.
  - eapply successor_changes; eauto.
  - injection H as <- <-. apply changes_refl.
  - eapply claim_changes; eauto.
  - eapply heartbeat_changes; eauto.
  - eapply start_changes; eauto.
  - eapply finish_changes; [|eauto]. destruct Hq as [-> | ->]; reflexivity.
  - injection H as <- <-. apply changes_refl.
  - eapply reapFail_changes; eauto.
  - eapply failWithSuccessor_changes; eauto.
  - eapply defer_changes; eauto.
  - eapply return_changes; eauto.
  - injection H as <- <-. apply changes_refl.
  - destruct census as [ids|].
    + unfold cancelPendingJobsSelectedSQL in H. destruct (bool_decide _); [discriminate|].
      destruct (cancelWhere _ now t) eqn:E. injection H as <- <-. eapply cancel_changes; [|exact E].
      intros k row [_ Hc]%andb_true_iff. exact Hc.
    + unfold cancelPendingJobsSQL in H. destruct (cancelWhere _ now t) eqn:E. injection H as <- <-.
      eapply cancel_changes; [|exact E]. auto.
Qed.

Lemma after_changes q t : Keyed t -> proper q t -> changes q t (after q t).
Proof.
  intros HK HP. unfold after. destruct (run q t) as [[rs t']|] eqn:E; [by eapply run_changes|apply changes_refl].
Qed.
