(* ===== verification/JobQueueInvariant.v ===== *)
(** * The durable job queue: its states and their invariant

    The queue under any interleaving of the queries of workers, reapers and
    producers.  Besides the table a state holds the jobs handed out so far
    ([qs_issued]): a query on behalf of a holder carries one of them, a claim
    draws a fresh lease token.  Replies may be lost: what is handed out need
    not arrive. *)
From S2P Require Import Prelude JobErrors JobQueue JobQueueRows.

Record queueState := mkQueueState { qs_table : jobTable; qs_issued : list Job }.
#[export] Instance eta_queueState : Eta queueState := fun s => mkQueueState (qs_table s) (qs_issued s).

(** The jobs in the reply of a query. *)
Definition issuedBy (q : query) (t : jobTable) : list Job :=
  match q, run q t with
  | QClaim _ _ _ _, Ok (rs, _) | QStale _ _, Ok (rs, _) => (fun kv => toJob kv.1 kv.2) <$> rs
  | _, _ => []
  end.

Definition permitted (q : query) (s : queueState) : Prop :=
  (forall job, jobOf q = Some job -> job ∈ qs_issued s) /\
  match q with
  | QFinish _ status _ _ => status = StatusDone \/ status = StatusFailed
  | QClaim _ _ lease _ => forall job, job ∈ qs_issued s -> j_LeaseToken job <> lease
  | _ => True
  end.
Definition asked (q : query) (s : queueState) : queueState :=
  mkQueueState (after q (qs_table s)) (qs_issued s ++ issuedBy q (qs_table s)).

Inductive asks : list query -> queueState -> queueState -> Prop :=
  | asks_nil s : asks [] s s
  | asks_cons q qs s s' : permitted q s -> asks qs (asked q s) s' -> asks (q :: qs) s s'.

Definition emptyQueue : queueState := mkQueueState ∅ [].
Definition reachable (s : queueState) : Prop := exists qs, asks qs emptyQueue s.

(** ** The invariant *)
Definition isPending (s : JobStatus) : bool := match s with StatusPending => true | _ => false end.

Record rowOK (r : jobRow) : Prop := {
  ok_key : r_pendingKey r = if isPending (r_status r) then Some (r_target r) else None;
  ok_lease : is_Some (r_leaseToken r) <-> isActive (r_status r) = true;
  ok_active : isActive (r_status r) = true -> is_Some (r_claimedBy r) /\ is_Some (r_heartbeatAt r)
}.

(** A job's lease is held by the row it was issued for. *)
Definition held (job : Job) (s : queueState) : Prop := selectWhere (j_ID job) (holds isActive job) (qs_table s) = true.

Definition KeysUnique (t : jobTable) : Prop :=
  forall id1 id2 r1 r2 key, t !! id1 = Some r1 -> t !! id2 = Some r2 ->
    r_pendingKey r1 = Some key -> r_pendingKey r2 = Some key -> id1 = id2.

Record Inv (s : queueState) : Prop := {
  inv_row : forall id r, qs_table s !! id = Some r -> rowOK r;
  inv_keys : KeysUnique (qs_table s);
  inv_agrees : forall job, job ∈ qs_issued s -> agrees job (qs_table s);
  inv_token : forall j1 j2, j1 ∈ qs_issued s -> j2 ∈ qs_issued s -> j_LeaseToken j1 = j_LeaseToken j2 -> j_ID j1 = j_ID j2;
  inv_lease : forall id r lease, qs_table s !! id = Some r -> r_leaseToken r = Some lease ->
    exists job, job ∈ qs_issued s /\ j_LeaseToken job = lease /\ j_ID job = id
}.

(** *** The index *)
Lemma keyTaken_false key id t :
  keyTaken (Some key) id t = false -> forall id' r, t !! id' = Some r -> r_pendingKey r = Some key -> id' = id.
Proof.
  intros H id' r Hl Hk. destruct (String.eqb_spec id' id) as [|Hne]; [assumption|exfalso].
  cbn in H. apply not_true_iff_false in H. apply H, existsb_exists. exists (id', r).
  split; [apply list_elem_of_In, elem_of_map_to_list, Hl|].
  cbn. rewrite Hk, bool_decide_true by reflexivity. apply String.eqb_neq in Hne. rewrite Hne. reflexivity.
Qed.

Lemma KeysUnique_insert t id r : KeysUnique t -> keyTaken (r_pendingKey r) id t = false -> KeysUnique (<[id := r]> t).
Proof.
  intros HU Hk id1 id2 r1 r2 key. destruct (decide (id1 = id)) as [->|H1], (decide (id2 = id)) as [->|H2]; [auto| | |];
    rewrite ?lookup_insert_eq, ?lookup_insert_ne by congruence.
  - intros [= <-] H2l H1k H2k. rewrite H1k in Hk. symmetry. by eapply keyTaken_false.
  - intros H1l [= <-] H1k H2k. rewrite H2k in Hk. by eapply keyTaken_false.
  - intros. by eapply HU.
Qed.

Lemma KeysUnique_update id p f t rs t' : KeysUnique t -> updateWhere id p f t = Ok (rs, t') -> KeysUnique t'.
Proof.
  intros HU. unfold updateWhere. destruct (t !! id) as [r|]; [|by intros [= <- <-]]. destruct (p r); [|by intros [= <- <-]].
  intros (_ & -> & Hk)%write_Ok. by apply KeysUnique_insert.
Qed.

Lemma KeysUnique_create id r t rs t' : KeysUnique t -> create id r t = Ok (rs, t') -> KeysUnique t'.
Proof. intros HU. unfold create. destruct (t !! id); [discriminate|]. intros (_ & -> & Hk)%write_Ok. by apply KeysUnique_insert. Qed.

Lemma KeysUnique_both id successor p update message now t rs t' :
  KeysUnique t -> withSuccessor id successor p update message now t = Ok (rs, t') -> KeysUnique t'.
Proof.
  unfold withSuccessor. intros HU. destruct (updateWhere successor _ _ t) as [[rs1 t1]|] eqn:E; [|discriminate].
  apply KeysUnique_update. by eapply KeysUnique_update.
Qed.

Lemma KeysUnique_cancel p now t : KeysUnique t -> KeysUnique (cancelWhere p now t).2.
Proof.
  intros HU id1 id2 r1 r2 key. cbn. rewrite !map_lookup_imap.
  destruct (t !! id1) as [s1|] eqn:E1, (t !! id2) as [s2|] eqn:E2; cbn; try discriminate.
  intros [= <-] [= <-]. destruct (p id1 s1), (p id2 s2); cbn; try discriminate. eauto.
Qed.

#[local] Hint Resolve KeysUnique_update KeysUnique_create KeysUnique_both : core.

Lemma KeysUnique_run q t rs t' : KeysUnique t -> run q t = Ok (rs, t') -> KeysUnique t'.
Proof.
  intros HU H. destruct q; cbn [run] in H; try (injection H as <- <-; exact HU); try (by eauto).
  - unfold enqueuePendingSQL in H. destruct (bool_decide _); [discriminate|]. destruct pending; eauto.
  - apply holder_cases in H as [(_ & _ & ->)|(_ & _ & H)]; [exact HU|]. destruct pending; eauto.
  - apply holder_cases in H as [(_ & _ & ->)|(_ & _ & H)]; [exact HU|]. destruct pending; eauto.
  - apply holder_cases in H as [(_ & _ & ->)|(_ & _ & H)]; [exact HU|]. destruct pending; eauto.
  - apply holder_cases in H as [(_ & _ & ->)|(_ & _ & H)]; [exact HU|]. destruct pending; eauto.
  - destruct census as [ids|].
    + unfold cancelPendingJobsSelectedSQL in H. destruct (bool_decide _); [discriminate|].
      injection H as <- <-. by apply KeysUnique_cancel.
    + injection H as <- <-. by apply KeysUnique_cancel.
Qed.

Lemma KeysUnique_after q t : KeysUnique t -> KeysUnique (after q t).
Proof. intros HU. unfold after. destruct (run q t) as [[rs t']|] eqn:E; [by eapply KeysUnique_run|exact HU]. Qed.

(** *** Rows *)
Lemma rowOK_pending r : rowOK r -> r_status r = StatusPending -> r_pendingKey r = Some (r_target r) /\ r_leaseToken r = None.
Proof.
  intros [Hk Hl _] Hs. rewrite Hs in Hk, Hl. split; [exact Hk|].
  destruct (r_leaseToken r); [|reflexivity]. pose proof (proj1 Hl ltac:(by eexists)). discriminate.
Qed.

Lemma rowOK_idle r : r_leaseToken r = None -> isActive (r_status r) = false ->
  r_pendingKey r = (if isPending (r_status r) then Some (r_target r) else None) -> rowOK r.
Proof.
  intros Hl Ha Hk. constructor; [exact Hk| |rewrite Ha; discriminate].
  rewrite Hl, Ha. split; [intros [? ?]; discriminate|discriminate].
Qed.

Lemma terminal_idle s : terminal s = true -> isActive s = false /\ isPending s = false.
Proof. destruct s; (discriminate || auto). Qed.

Lemma rowOK_step q id r r' : rowOK r -> (forall job, jobOf q = Some job -> holds isActive job r = true -> j_Target job = r_target r) ->
  rowStep q id r r' -> rowOK r'.
Proof.
  intros HO Hag HS. row_cases HS.
  - destruct (rowOK_pending r HO Hs) as [Hk Hl]. apply rowOK_idle; rewrite ?Hs'; cbn; congruence.
  - subst r'. constructor; cbn; [reflexivity|split; [reflexivity|by eexists]|split; by eexists].
  - destruct (rowOK_pending r HO Hs) as [Hk Hl]. apply rowOK_idle; rewrite ?Hs'; cbn; congruence.
  - subst r'. destruct (rowOK_pending r HO Hs) as [Hk Hl]. apply rowOK_idle; [exact Hl|reflexivity|reflexivity].
  - apply holds_true in Hh as (Ha & Hl & Hw). destruct HO as [Hk _ Hact]. apply (active_held _ _ Ha') in Ha as Ha2. constructor.
    + rewrite Hk', Hk. destruct (r_status r), (r_status r'); (discriminate || reflexivity).
    + rewrite Hl', Hl, Ha2. split; [reflexivity|by eexists].
    + intros _. destruct (Hact Ha). rewrite Hw'. auto.
  - destruct (terminal_idle _ Hterm) as [Ha Hp]. apply rowOK_idle; [assumption|exact Ha|]. rewrite Hp. assumption.
  - apply rowOK_idle; [assumption|by rewrite Hs'|]. rewrite Hs'. cbn. rewrite Hk', Ht. f_equal. by apply Hag.
Qed.

Lemma rowOK_created q r : createdBy q r -> rowOK r /\ r_leaseToken r = None.
Proof. intros (target & created & force & recovery & _ & -> & _). split; [apply rowOK_idle|]; reflexivity. Qed.

(** A lease that is held after a query was held before it, or has just been
    claimed. *)
Lemma rowStep_lease q id r r' lease :
  rowOK r -> rowStep q id r r' -> r_leaseToken r' = Some lease ->
  (r_leaseToken r = Some lease /\ r_claimedBy r' = r_claimedBy r /\ isActive (r_status r) = true /\
   r_target r' = r_target r /\ r_attempts r' = r_attempts r /\ r_force r' = r_force r) \/
  (exists who now, q = QClaim id who lease now /\ r_status r = StatusPending).
Proof.
  intros HO HS Hl. row_cases HS.
  - destruct (rowOK_pending r HO Hs) as [_ Hn]. congruence.
  - subst r'. cbn in Hl. injection Hl as ->. right. eauto.
  - destruct (rowOK_pending r HO Hs) as [_ Hn]. congruence.
  - subst r'. destruct (rowOK_pending r HO Hs) as [_ Hn]. cbn in Hl. congruence.
  - left. apply holds_true in Hh as (Ha & _). repeat split; congruence.
  - congruence.
  - congruence.
Qed.

(** ** Preservation *)
Lemma Inv_Keyed s : Inv s -> Keyed (qs_table s).
Proof. intros HI id r Hl Hs. by apply rowOK_pending; [eapply inv_row|]. Qed.

Lemma permitted_proper q s : Inv s -> permitted q s -> proper q (qs_table s).
Proof.
  intros HI [Hj Hq]. split; [intros job E; by apply (inv_agrees s HI), Hj|].
  destruct q; auto.
Qed.

Lemma Inv_changes q s : Inv s -> permitted q s -> changes q (qs_table s) (after q (qs_table s)).
Proof. intros HI HP. apply after_changes; [by apply Inv_Keyed|by apply permitted_proper]. Qed.

Lemma Inv_rows q s id r' :
  Inv s -> permitted q s -> after q (qs_table s) !! id = Some r' -> rowOK r'.
Proof.
  intros HI HP Hl. destruct (Inv_changes q s HI HP id) as [Heq|[(_ & r & Hl' & Hc)|(r & r2 & Hr & Hl' & HS)]].
  - rewrite Heq in Hl. by eapply inv_row.
  - rewrite Hl in Hl'. injection Hl' as <-. by apply (rowOK_created q).
  - rewrite Hl in Hl'. injection Hl' as <-. eapply (rowOK_step q id r); [by eapply inv_row| |exact HS].
    intros job Hj Hh. symmetry. destruct HP as [Hiss _]. pose proof (inv_agrees s HI job (Hiss job Hj)) as Hag.
    assert (Hid : id = j_ID job).
    { pose proof Hh as (_ & Hlt & _)%holds_true. destruct (inv_lease s HI _ _ _ Hr Hlt) as (j & Hin & Ht & <-).
      apply (inv_token s HI); [exact Hin|by apply Hiss|exact Ht]. }
    subst id. by apply (Hag r Hr Hh).
Qed.

(** A lease in the table after a query was there before, in the same row, or
    is the one just drawn. *)
Lemma lease_after q s id r' lease :
  Inv s -> permitted q s -> after q (qs_table s) !! id = Some r' -> r_leaseToken r' = Some lease ->
  (exists r, qs_table s !! id = Some r /\ r_leaseToken r = Some lease /\ r_claimedBy r' = r_claimedBy r /\
     isActive (r_status r) = true /\ r_target r' = r_target r /\ r_attempts r' = r_attempts r /\ r_force r' = r_force r) \/
  (exists who now, q = QClaim id who lease now /\ In (toJob id r') (issuedBy q (qs_table s))).
Proof.
  intros HI HP Hl Hle. destruct (Inv_changes q s HI HP id) as [Heq|[(_ & r & Hl' & Hc)|(r & r2 & Hr & Hl' & HS)]].
  - left. rewrite Heq in Hl. exists r'. repeat split; auto.
    pose proof (inv_row s HI _ _ Hl) as [_ [Ha _] _]. apply Ha. by eexists.
  - rewrite Hl in Hl'. injection Hl' as <-. destruct (rowOK_created q r' Hc). congruence.
  - rewrite Hl in Hl'. injection Hl' as <-.
    destruct (rowStep_lease q id r r' lease (inv_row s HI _ _ Hr) HS Hle) as [(H1 & H2 & H3 & H4)|(who & now & -> & Hs)].
    + left. exists r. auto.
    + right. exists who, now. split; [reflexivity|]. unfold after, issuedBy in *. cbn [run] in *.
      destruct (claimSelectedJobSQL id who lease now (qs_table s)) as [[rs t']|] eqn:E.
      * pose proof E as [(r2 & Hr2 & _ & -> & ->)|(Hf & _)]%updateWhere_Ok.
        -- rewrite lookup_insert_eq in Hl. injection Hl as <-. by left.
        -- apply not_true_iff_false in Hf. exfalso. apply Hf, selectWhere_true. exists r. split; [exact Hr|].
           by apply bool_decide_eq_true.
      * rewrite Hr in Hl. injection Hl as <-. pose proof (rowOK_pending r (inv_row s HI _ _ Hr) Hs). destruct_and?. congruence.
Qed.

Lemma agrees_after q s job : Inv s -> permitted q s -> job ∈ qs_issued s -> agrees job (after q (qs_table s)).
Proof.
  intros HI HP Hin r' Hl Hh. pose proof Hh as (_ & Hle & Hw)%holds_true.
  destruct (lease_after q s _ _ _ HI HP Hl Hle) as [(r & Hr & H1 & H2 & H3 & H4 & H5 & H6)|(who & now & -> & _)].
  - rewrite H4, H5, H6. apply (inv_agrees s HI job Hin r Hr), holds_true. rewrite <- H2. auto.
  - destruct HP as [_ Hf]. by destruct (Hf job Hin).
Qed.

(** What a query hands out describes a row of the table it leaves. *)
Lemma issuedBy_row q s job :
  Inv s -> permitted q s -> job ∈ issuedBy q (qs_table s) ->
  exists r, after q (qs_table s) !! j_ID job = Some r /\ job = toJob (j_ID job) r /\ isActive (r_status r) = true /\
    ((exists who now, q = QClaim (j_ID job) who (j_LeaseToken job) now) \/ after q (qs_table s) = qs_table s).
Proof.
  intros HI HP Hin. unfold issuedBy, after in *. destruct q; try (destruct (run _ _) as [[? ?]|]; by apply not_elem_of_nil in Hin).
  - destruct (run _ _) as [[rs t']|] eqn:E; [|by apply not_elem_of_nil in Hin].
    apply list_elem_of_fmap in Hin as ([id r] & -> & Hin). cbn [run] in E.
    apply updateWhere_Ok in E as [(r0 & Hr0 & _ & -> & ->)|(_ & -> & _)]; [|by apply not_elem_of_nil in Hin].
    apply list_elem_of_singleton in Hin as [= -> ->]. eexists. cbn. rewrite lookup_insert_eq.
    split; [reflexivity|]. split; [reflexivity|]. split; [reflexivity|]. left. eauto.
  - cbn [run] in Hin |- *. apply list_elem_of_fmap in Hin as ([id r] & -> & Hin).
    apply elem_of_take in Hin as (i & Hin & _). apply list_elem_of_lookup_2, elem_of_map_to_list in Hin.
    apply map_lookup_filter_Some in Hin as [Hl Hb]. cbn in Hb. apply andb_true_iff in Hb as [Ha _].
    exists r. cbn. auto.
Qed.

Lemma active_lease s id r : Inv s -> qs_table s !! id = Some r -> isActive (r_status r) = true -> is_Some (r_leaseToken r).
Proof. intros HI Hl Ha. destruct (inv_row s HI _ _ Hl) as [_ Hi _]. by apply Hi. Qed.

Lemma token_after q s j1 j2 :
  Inv s -> permitted q s -> j1 ∈ qs_issued s \/ j1 ∈ issuedBy q (qs_table s) ->
  j2 ∈ qs_issued s -> j_LeaseToken j1 = j_LeaseToken j2 -> j_ID j1 = j_ID j2.
Proof.
  intros HI HP [H1|H1] H2 Ht; [by eapply inv_token|].
  destruct (issuedBy_row q s j1 HI HP H1) as (r & Hl & Hj & Ha & [(who & now & ->)|Heq]).
  - destruct HP as [_ Hf]. destruct (Hf j2 H2). congruence.
  - rewrite Heq in Hl. destruct (active_lease s _ r HI Hl Ha) as [L HL].
    assert (HtL : j_LeaseToken j1 = L) by (rewrite Hj; cbn; by rewrite HL).
    destruct (inv_lease s HI _ _ _ Hl HL) as (j & Hin & Hjt & Hjid). rewrite <- Hjid.
    apply (inv_token s HI); auto. congruence.
Qed.

Lemma token_fresh q s j1 j2 :
  Inv s -> permitted q s -> j1 ∈ issuedBy q (qs_table s) -> j2 ∈ issuedBy q (qs_table s) ->
  j_LeaseToken j1 = j_LeaseToken j2 -> j_ID j1 = j_ID j2.
Proof.
  intros HI HP H1 H2 Ht.
  destruct (issuedBy_row q s j1 HI HP H1) as (r1 & _ & _ & _ & [(who1 & now1 & E1)|Heq1]);
    destruct (issuedBy_row q s j2 HI HP H2) as (r2 & Hl2 & Hj2 & Ha2 & [(who2 & now2 & E2)|Heq2]); [congruence| | |].
  - subst q. exfalso. rewrite Heq2 in Hl2. destruct (active_lease s _ r2 HI Hl2 Ha2) as [L HL].
    destruct (inv_lease s HI _ _ _ Hl2 HL) as (j & Hin & Hjt & _). destruct HP as [_ Hf]. apply (Hf j Hin).
    rewrite Ht, Hjt, Hj2. cbn. by rewrite HL.
  - subst q. destruct (issuedBy_row _ s j1 HI HP H1) as (r & Hl & Hj & Ha & _).
    exfalso. rewrite Heq1 in Hl. destruct (active_lease s _ r HI Hl Ha) as [L HL].
    destruct (inv_lease s HI _ _ _ Hl HL) as (j & Hin & Hjt & _). destruct HP as [_ Hf]. apply (Hf j Hin).
    rewrite <- Ht, Hjt, Hj. cbn. by rewrite HL.
  - rewrite Heq2 in Hl2. destruct (active_lease s _ r2 HI Hl2 Ha2) as [L HL].
    assert (HtL : j_LeaseToken j2 = L) by (rewrite Hj2; cbn; by rewrite HL).
    destruct (inv_lease s HI _ _ _ Hl2 HL) as (j & Hin & Hjt & Hjid). rewrite <- Hjid.
    apply (token_after q s j1 j HI HP); auto. congruence.
Qed.

Lemma Inv_asked q s : Inv s -> permitted q s -> Inv (asked q s).
Proof.
  intros HI HP. constructor; cbn [asked qs_table qs_issued].
  - intros id r. by apply Inv_rows.
  - apply KeysUnique_after, HI.
  - intros job [Hin|Hin]%elem_of_app; [by apply agrees_after|].
    destruct (issuedBy_row q s job HI HP Hin) as (r & Hl & Hj & _). intros r' Hl' _. rewrite Hl in Hl'.
    injection Hl' as <-. rewrite Hj. cbn. auto.
  - intros j1 j2 [H1|H1]%elem_of_app [H2|H2]%elem_of_app Ht.
    + by apply (inv_token s HI).
    + symmetry. apply (token_after q s j2 j1 HI HP); auto.
    + apply (token_after q s j1 j2 HI HP); auto.
    + by apply (token_fresh q s).
  - intros id r' lease Hl Hle.
    destruct (lease_after q s id r' lease HI HP Hl Hle) as [(r & Hr & H1 & _)|(who & now & -> & Hin)].
    + destruct (inv_lease s HI _ _ _ Hr H1) as (job & Hin & Ht & Hid). exists job. split; [|auto].
      apply elem_of_app. by left.
    + exists (toJob id r'). split; [apply elem_of_app; right; by apply list_elem_of_In|]. cbn. by rewrite Hle.
Qed.

Lemma Inv_asks qs s s' : asks qs s s' -> Inv s -> Inv s'.
Proof. induction 1 as [|q qs s s' HP _ IH]; [auto|]. intros HI. apply IH. by apply Inv_asked. Qed.

Lemma Inv_empty : Inv emptyQueue.
Proof.
  constructor; cbn.
  - intros id r H. by rewrite lookup_empty in H.
  - intros id1 id2 r1 r2 key H. by rewrite lookup_empty in H.
  - intros job H. by apply not_elem_of_nil in H.
  - intros j1 j2 H. by apply not_elem_of_nil in H.
  - intros id r lease H. by rewrite lookup_empty in H.
Qed.

Lemma reachable_Inv s : reachable s -> Inv s.
Proof. intros [qs H]. by apply (Inv_asks _ _ _ H), Inv_empty. Qed.


Lemma asks_issued qs s s' job : asks qs s s' -> job ∈ qs_issued s -> job ∈ qs_issued s'.
Proof. induction 1 as [|q qs s s' _ _ IH]; [auto|]. intros Hin. apply IH, elem_of_app. by left. Qed.

Lemma asks_app qs1 qs2 s1 s2 s3 : asks qs1 s1 s2 -> asks qs2 s2 s3 -> asks (qs1 ++ qs2) s1 s3.
Proof. induction 1; cbn; [auto|]. intros H'. econstructor; eauto. Qed.

Lemma reachable_asks qs s s' : reachable s -> asks qs s s' -> reachable s'.
Proof. intros [qs0 H] H'. exists (qs0 ++ qs). by eapply asks_app. Qed.
