(* ===== verification/JobQueueTheorems.v ===== *)
(** * The durable job queue: what it guarantees

    Rows stay well formed, a lease fences everyone else out and, once lost,
    does nothing; an enqueued event stays pending until it is claimed; a lease
    that is given back leaves its target pending.  All for arbitrary
    interleavings of queries from any number of processes. *)
From S2P Require Import Prelude JobErrors JobQueue JobQueueRows JobQueueInvariant.

(** ** Concrete runs *)
#[export] Instance Job_eq_dec : EqDecision Job.
Proof. solve_decision. Defined.

Definition permittedb (q : query) (s : queueState) : bool :=
  from_option (fun job => bool_decide (job ∈ qs_issued s)) true (jobOf q) &&
  match q with
  | QFinish _ status _ _ => bool_decide (status = StatusDone \/ status = StatusFailed)
  | QClaim _ _ lease _ => forallb (fun job => negb (String.eqb (j_LeaseToken job) lease)) (qs_issued s)
  | _ => true
  end.

Lemma permittedb_sound q s : permittedb q s = true -> permitted q s.
Proof.
  unfold permittedb, permitted. intros [Hj Hq]%andb_true_iff. split.
  - intros job E. rewrite E in Hj. by apply bool_decide_eq_true in Hj.
  - destruct q; try exact I.
    + intros job Hin Heq. rewrite forallb_forall in Hq. specialize (Hq job ltac:(by apply list_elem_of_In)).
      rewrite Heq, String.eqb_refl in Hq. discriminate.
    + by apply bool_decide_eq_true in Hq.
Qed.

Fixpoint askAll (qs : list query) (s : queueState) : option queueState :=
  match qs with
  | [] => Some s
  | q :: qs' => if permittedb q s then askAll qs' (asked q s) else None
  end.

Lemma askAll_sound qs s s' : askAll qs s = Some s' -> asks qs s s'.
Proof.
  revert s. induction qs as [|q qs IH]; cbn; intros s H; [injection H as ->; constructor|].
  destruct (permittedb q s) eqn:E; [|discriminate]. constructor; [by apply permittedb_sound|auto].
Qed.

(** ** Leases *)
Lemma held_iff job s : held job s <-> exists r, qs_table s !! j_ID job = Some r /\ holds isActive job r = true.
Proof. apply selectWhere_true. Qed.

(** Only a claim with its token could make a lease held again. *)
Lemma lost_stays_lost q s job :
  Inv s -> permitted q s -> job ∈ qs_issued s -> ~ held job s -> ~ held job (asked q s).
Proof.
  intros HI HP Hin Hn (r' & Hl & Hh)%held_iff. apply Hn, held_iff. pose proof Hh as (_ & Hle & Hw)%holds_true.
  destruct (lease_after q s _ _ _ HI HP Hl Hle) as [(r & Hr & H1 & H2 & H3 & _)|(who & now & -> & _)].
  - exists r. split; [exact Hr|]. apply holds_true. rewrite <- H2. auto.
  - destruct HP as [_ Hf]. by destruct (Hf job Hin).
Qed.

Lemma lost_stays_lost_asks qs s s' job :
  asks qs s s' -> Inv s -> job ∈ qs_issued s -> ~ held job s -> ~ held job s'.
Proof.
  induction 1 as [|q qs s s' HP _ IH]; [auto|]. intros HI Hin Hn. apply IH.
  - by apply Inv_asked.
  - apply elem_of_app. by left.
  - by apply lost_stays_lost.
Qed.

Lemma not_held_where (p : jobRow -> bool) job t :
  selectWhere (j_ID job) (holds isActive job) t <> true ->
  (forall r, p r = true -> holds isActive job r = true) -> selectWhere (j_ID job) p t = false.
Proof.
  intros Hn Hp. apply not_true_iff_false. intros (r & Hl & H)%selectWhere_true. apply Hn, selectWhere_true. eauto.
Qed.

Lemma updateWhere_none id p f t : selectWhere id p t = false -> updateWhere id p f t = Ok ([], t).
Proof. unfold selectWhere, updateWhere. destruct (t !! id) as [r|]; cbn; [intros ->|]; reflexivity. Qed.

Lemma run_not_held q job t :
  jobOf q = Some job -> selectWhere (j_ID job) (holds isActive job) t <> true -> run q t = Ok ([], t).
Proof.
  intros Hj Hn.
  assert (Hr : selectWhere (j_ID job) (holds isRunning job) t = false).
  { apply not_held_where; [exact Hn|]. intros r. apply holds_weaken, isRunning_isActive. }
  assert (Ha : selectWhere (j_ID job) (holds isActive job) t = false) by (apply not_held_where; auto).
  destruct q; cbn in Hj |- *; try discriminate; injection Hj as <-.
  - unfold ensureJobSuccessorSQL. by rewrite Hr.
  - by apply updateWhere_none.
  - apply updateWhere_none, not_held_where; [exact Hn|]. intros r. apply holds_weaken. intros s ->%bool_decide_eq_true. reflexivity.
  - by apply updateWhere_none.
  - apply updateWhere_none, not_held_where; [exact Hn|]. intros r [H _]%andb_true_iff. exact H.
  - unfold failJobWithSuccessorSQL. by rewrite Hr.
  - unfold deferJobSQL. by rewrite Ha.
  - unfold returnToPendingSQL. rewrite (not_held_where (returnable vars)); [reflexivity|exact Hn|apply returnable_holds].
Qed.

(** ** Events *)
Definition claims (id : string) (q : query) : bool := match q with QClaim cand _ _ _ => String.eqb cand id | _ => false end.
Definition cancels (target : string) (q : query) : bool := match q with QCancel t _ _ => String.eqb t target | _ => false end.
(** A pending row no lease may drop. *)
Definition freshEvent (target : string) (force : bool) (r : jobRow) : Prop :=
  r_status r = StatusPending /\ r_target r = target /\ r_recoveryLease r = None /\ (force = true -> r_force r = true).

Lemma freshEvent_asked q s id target force :
  Inv s -> permitted q s -> claims id q = false -> cancels target q = false ->
  (exists r, qs_table s !! id = Some r /\ freshEvent target force r) ->
  exists r, qs_table (asked q s) !! id = Some r /\ freshEvent target force r.
Proof.
  intros HI HP Hcl Hca (r & Hl & Hs0 & Ht0 & Hr0 & Hf0).
  destruct (Inv_changes q s HI HP id) as [Heq|[(Hn & _)|(r0 & r' & Hr & Hlr & HS)]]; cbn.
  - exists r. rewrite Heq. repeat split; auto.
  - congruence.
  - rewrite Hl in Hr. injection Hr as <-. exists r'. split; [exact Hlr|]. row_cases HS.
    + repeat split; [exact Hs'|congruence|destruct Hrec; congruence|auto].
    + subst q. cbn in Hcl. rewrite String.eqb_refl in Hcl. discriminate.
    + congruence.
    + subst q. cbn in Hca. rewrite Ht0, String.eqb_refl in Hca. discriminate.
    + apply holds_true in Hh as (Ha & _). rewrite Hs0 in Ha. discriminate.
    + apply holds_true in Hh as (Ha & _). rewrite Hs0 in Ha. discriminate.
    + apply holds_true in Hh as (Ha & _). rewrite Hs0 in Ha. discriminate.
Qed.

Lemma freshEvent_asks qs s s' id target force :
  asks qs s s' -> Inv s -> Forall (fun q => claims id q = false /\ cancels target q = false) qs ->
  (exists r, qs_table s !! id = Some r /\ freshEvent target force r) ->
  exists r, qs_table s' !! id = Some r /\ freshEvent target force r.
Proof.
  induction 1 as [|q qs s s' HP _ IH]; [auto|]. intros HI [[Hc Hd] Hqs]%Forall_cons He.
  apply IH; [by apply Inv_asked|exact Hqs|]. by apply freshEvent_asked.
Qed.

(** ** Work *)

(** A target with a row that will be claimed or is being worked on. *)
Definition outstanding (target : string) (t : jobTable) : Prop :=
  exists id r, t !! id = Some r /\ r_target r = target /\ (r_status r = StatusPending \/ isActive (r_status r) = true).
Definition pendingWork (target : string) (force : bool) (t : jobTable) : Prop :=
  exists id r, t !! id = Some r /\ r_target r = target /\ r_status r = StatusPending /\ (force = true -> r_force r = true).

Lemma pendingWork_insert t id r target force :
  r_target r = target -> r_status r = StatusPending -> (force = true -> r_force r = true) ->
  pendingWork target force (<[id := r]> t).
Proof. intros. exists id, r. rewrite lookup_insert_eq. auto. Qed.

(** The common end of [deferJobSQL] and [returnToPendingSQL]. *)
Lemma back_to_pending job p t pending update back message now rs t' :
  Keyed t -> agrees job t -> (forall r, p r = true -> holds isActive job r = true) ->
  queuePendingSelection (j_Target job) t = pending ->
  (forall r, r_target (back r) = r_target r /\ r_status (back r) = StatusPending /\ r_force (back r) = r_force r) ->
  (forall r, r_target (update r) = r_target r /\ r_status (update r) = r_status r /\
     r_force (update r) = (if j_Force job then true else r_force r)) ->
  selectWhere (j_ID job) p t = true ->
  match pending with
  | None => updateWhere (j_ID job) p back t
  | Some successor => withSuccessor (j_ID job) successor p update message now t
  end = Ok (rs, t') ->
  rs <> [] /\ pendingWork (j_Target job) (j_Force job) t' /\ selectWhere (j_ID job) (holds isActive job) t' = false.
Proof.
  intros HK Hag Hp Hsel Hback Hup (rh & Hl & Hh)%selectWhere_true H.
  destruct (Hag rh Hl (Hp rh Hh)) as (Htar & _ & Hfor). unfold selectWhere. destruct pending as [successor|].
  - destruct (pending_selected t _ _ HK Hsel) as (rp & Hlp & Hsp & Htp).
    assert (Hne : j_ID job <> successor).
    { intros <-. rewrite Hl in Hlp. injection Hlp as <-. apply Hp, holds_true in Hh as (Ha & _). rewrite Hsp in Ha. discriminate. }
    unfold withSuccessor in H. destruct (updateWhere successor always update t) as [[rs1 t1]|] eqn:E1; [|discriminate].
    apply updateWhere_Ok in E1 as [(r & Hl1 & _ & _ & ->)|(Hf & _)]; [|unfold selectWhere in Hf; rewrite Hlp in Hf; discriminate].
    rewrite Hlp in Hl1. injection Hl1 as <-.
    apply updateWhere_Ok in H as [(r & Hl1 & _ & -> & ->)|(Hf & _)];
      [|unfold selectWhere in Hf; rewrite lookup_insert_ne, Hl in Hf by congruence; cbn in Hf; congruence].
    split; [discriminate|]. split.
    + destruct (Hup rp) as (H1 & H2 & H3). exists successor, (update rp).
      rewrite lookup_insert_ne, lookup_insert_eq by congruence. repeat split; [congruence|congruence|].
      intros Hj. by rewrite H3, Hj.
    + rewrite lookup_insert_eq. reflexivity.
  - apply updateWhere_Ok in H as [(r & Hl1 & _ & -> & ->)|(Hf & _)];
      [|unfold selectWhere in Hf; rewrite Hl in Hf; cbn in Hf; congruence].
    rewrite Hl in Hl1. injection Hl1 as <-. destruct (Hback rh) as (H1 & H2 & H3). split; [discriminate|]. split.
    + apply pendingWork_insert; [congruence|exact H2|]. intros Hj. congruence.
    + rewrite lookup_insert_eq. cbn. unfold holds. rewrite H2. reflexivity.
Qed.

Lemma forced_if force r : r_force (forced force r) = if force then true else r_force r.
Proof. reflexivity. Qed.

Lemma given_back q job t rs t' :
  Keyed t -> agrees job t -> jobOf q = Some job -> givesBack q = true -> run q t = Ok (rs, t') ->
  (rs = [] /\ t' = t) \/
  (rs <> [] /\ pendingWork (j_Target job) (j_Force job) t' /\ selectWhere (j_ID job) (holds isActive job) t' = false).
Proof.
  intros HK Hag Hj Hg H. destruct q; try discriminate; injection Hj as <-; cbn [run] in H.
  - apply holder_cases in H as [(_ & -> & ->)|(Ho & Eb & H)]; [by left|right].
    apply bool_decide_eq_false in Eb. apply dec_stable in Eb.
    eapply (back_to_pending job0 (holds isActive job0) t pending); try exact H; auto.
  - apply holder_cases in H as [(_ & -> & ->)|(Ho & Eb & H)]; [by left|right].
    apply bool_decide_eq_false in Eb. apply dec_stable in Eb.
    eapply (back_to_pending (rv_job vars) (returnable vars) t pending); try exact H; auto. apply returnable_holds.
Qed.

Lemma outstanding_asked q s target :
  Inv s -> permitted q s -> endsWork q = false -> outstanding target (qs_table s) -> outstanding target (qs_table (asked q s)).
Proof.
  intros HI HP Hend (id & r & Hl & Ht0 & Ha0). cbn.
  destruct (Inv_changes q s HI HP id) as [Heq|[(Hn & _)|(r0 & r' & Hr & Hlr & HS)]].
  - exists id, r. rewrite Heq. auto.
  - congruence.
  - rewrite Hl in Hr. injection Hr as <-.
    assert (Hkeep : r_target r' = r_target r -> r_status r' = StatusPending \/ isActive (r_status r') = true ->
      outstanding target (after q (qs_table s))) by (intros; exists id, r'; repeat split; [exact Hlr|congruence|assumption]).
    row_cases HS.
    + apply Hkeep; auto.
    + subst r'. apply Hkeep; auto.
    + destruct Hq as (message & pending & now & ->). discriminate Hend.
    + subst q. discriminate.
    + apply Hkeep; [assumption|]. right. apply holds_true in Hh as (Ha & _). by apply (active_held (r_status r)).
    + destruct He as [He|[Hg Hst]]; [congruence|].
      unfold after in *. destruct (run q (qs_table s)) as [[rs t']|] eqn:E; [|].
      * pose proof (inv_agrees s HI job' (proj1 HP job' Hj)) as Hag. subst id.
        destruct (given_back q job' _ rs t' (Inv_Keyed s HI) Hag Hj Hg E) as [(_ & ->)|(_ & (id & r2 & H1 & H2 & H3 & _) & _)].
        -- rewrite Hl in Hlr. injection Hlr as <-. apply holds_true in Hh as (Hx & _). rewrite Hst in Hx. discriminate.
        -- destruct (Hag r Hl Hh) as (Htt & _). exists id, r2. repeat split; [exact H1|congruence|auto].
      * rewrite Hl in Hlr. injection Hlr as <-. apply holds_true in Hh as (Hx & _). rewrite Hst in Hx. discriminate.
    + apply Hkeep; auto.
Qed.

(** ** The theorems *)

(** C5: the shape of the queue's table is invariant: a row is filed under its
    target exactly while it is pending, has a lease, a holder and a heartbeat
    exactly while it is claimed or running, no target has two pending rows,
    and no lease token names two rows. *)
Theorem queue_wellformed s :
  reachable s ->
  (forall id r, qs_table s !! id = Some r -> rowOK r) /\
  (forall id1 id2 r1 r2, qs_table s !! id1 = Some r1 -> qs_table s !! id2 = Some r2 ->
     r_status r1 = StatusPending -> r_status r2 = StatusPending -> r_target r1 = r_target r2 -> id1 = id2) /\
  (forall id1 id2 r1 r2 lease, qs_table s !! id1 = Some r1 -> qs_table s !! id2 = Some r2 ->
     r_leaseToken r1 = Some lease -> r_leaseToken r2 = Some lease -> id1 = id2).
Proof.
  intros HI%reachable_Inv. split; [apply (inv_row s HI)|]. split.
  - intros id1 id2 r1 r2 H1 H2 S1 S2 Ht. eapply (inv_keys s HI); [exact H1|exact H2| |].
    + apply (rowOK_pending r1 (inv_row s HI _ _ H1) S1).
    + rewrite Ht. apply (rowOK_pending r2 (inv_row s HI _ _ H2) S2).
  - intros id1 id2 r1 r2 lease H1 H2 L1 L2.
    destruct (inv_lease s HI _ _ _ H1 L1) as (j1 & I1 & T1 & <-).
    destruct (inv_lease s HI _ _ _ H2 L2) as (j2 & I2 & T2 & <-). apply (inv_token s HI); auto. congruence.
Qed.

(** A lease fences: a claimed or running row is changed only by a query
    that carries its token, so a worker's job is never taken from under it
    by anyone who did not read its lease. *)
Theorem lease_fences q s id r :
  reachable s -> permitted q s -> qs_table s !! id = Some r -> isActive (r_status r) = true ->
  qs_table (asked q s) !! id = Some r \/
  exists job, jobOf q = Some job /\ j_ID job = id /\ r_leaseToken r = Some (j_LeaseToken job) /\
    r_claimedBy r = Some (j_ClaimedBy job).
Proof.
  intros HI%reachable_Inv HP Hl Ha.
  destruct (Inv_changes q s HI HP id) as [Heq|[(Hn & _)|(r0 & r' & Hr & Hlr & HS)]]; cbn.
  - left. congruence.
  - congruence.
  - rewrite Hl in Hr. injection Hr as <-.
    row_cases HS; try (rewrite Hs in Ha; discriminate); right; exists job'; apply holds_true in Hh as (_ & H1 & H2); auto.
Qed.

(** C3: a lease that is lost stays lost, and its holder is inert: whatever
    happens after, every heartbeat, start, finish, return, deferral, failure
    or successor it asks for finds no row and changes nothing. *)
Theorem lost_lease_is_inert qs s s' job q :
  reachable s -> job ∈ qs_issued s -> ~ held job s -> asks qs s s' -> jobOf q = Some job ->
  ~ held job s' /\ run q (qs_table s') = Ok ([], qs_table s').
Proof.
  intros HI%reachable_Inv Hin Hn Ha Hj.
  pose proof (lost_stays_lost_asks qs s s' job Ha HI Hin Hn) as Hn'. split; [exact Hn'|]. by apply (run_not_held q job).
Qed.

(** C2: an enqueued event is not lost: an [EnqueuePending] that commits
    leaves one pending row of its target that can be claimed at once, and
    whatever other queries follow, retries that merge into it and exhausted
    leases included, it stays pending, and forced if the event was, until it
    is claimed or its repository is deleted. *)
Theorem enqueued_event_survives s target force pending newID now rs t' :
  reachable s -> run (QEnqueue target force pending newID now) (qs_table s) = Ok (rs, t') ->
  exists id r, rs = [(id, r)] /\ t' !! id = Some r /\ freshEvent target force r /\ eligible now r = true /\
    forall qs s', asks (QEnqueue target force pending newID now :: qs) s s' ->
      Forall (fun q => claims id q = false /\ cancels target q = false) qs ->
      exists r', qs_table s' !! id = Some r' /\ freshEvent target force r'.
Proof.
  intros HI%reachable_Inv H. pose proof H as E. cbn [run] in E. unfold enqueuePendingSQL in E.
  destruct (bool_decide _) eqn:Eb; [discriminate|]. apply bool_decide_eq_false in Eb. apply dec_stable in Eb.
  assert (Hr : exists id r, rs = [(id, r)] /\ t' !! id = Some r /\ freshEvent target force r /\ eligible now r = true).
  { destruct pending as [id|].
    - destruct (pending_selected _ _ _ (Inv_Keyed s HI) Eb) as (r & Hl & Hs & Ht).
      apply updateWhere_Ok in E as [(r0 & Hl0 & _ & -> & ->)|(Hf & _)]; [|unfold selectWhere in Hf; rewrite Hl in Hf; discriminate].
      rewrite Hl in Hl0. injection Hl0 as <-. eexists id, _. rewrite lookup_insert_eq. split; [reflexivity|].
      split; [reflexivity|]. split; [repeat split; auto; cbn; by intros ->|]. unfold eligible. cbn. by rewrite Hs.
    - apply create_Ok in E as (Hl & -> & ->). eexists newID, _. rewrite lookup_insert_eq.
      repeat (split; [reflexivity|]). split; [|reflexivity]. repeat split; auto. }
  destruct Hr as (id & r & Hrs & Hl & Hfe & Hel). exists id, r. repeat (split; [assumption|]).
  intros qs s' Ha Hq. inversion Ha as [|q0 qs0 s0 s1 HP Ha']; subst.
  apply (freshEvent_asks qs _ s' id target force Ha'); [by apply Inv_asked|exact Hq|].
  exists r. cbn [asked qs_table]. unfold after. by rewrite H.
Qed.

(** C4: work is conserved: a target with a pending or active row keeps one
    until a query ends its work, and a return or deferral that finds its
    lease leaves the target pending, forced if the job was, and the lease
    over. *)
Theorem work_is_conserved q s :
  reachable s -> permitted q s ->
  (endsWork q = false -> forall target, outstanding target (qs_table s) -> outstanding target (qs_table (asked q s))) /\
  (givesBack q = true -> forall job rs t', jobOf q = Some job -> run q (qs_table s) = Ok (rs, t') -> rs <> [] ->
     pendingWork (j_Target job) (j_Force job) t' /\ selectWhere (j_ID job) (holds isActive job) t' = false).
Proof.
  intros HI%reachable_Inv HP. split.
  - intros He target. by apply outstanding_asked.
  - intros Hg job rs t' Hj H Hne. pose proof (inv_agrees s HI job (proj1 HP job Hj)) as Hag.
    destruct (given_back q job _ rs t' (Inv_Keyed s HI) Hag Hj Hg H) as [(-> & _)|(_ & Hw)]; [done|exact Hw].
Qed.

(** A row that is done, failed or canceled never changes again. *)
Theorem terminal_rows_are_final qs s s' id r :
  reachable s -> asks qs s s' -> qs_table s !! id = Some r -> terminal (r_status r) = true -> qs_table s' !! id = Some r.
Proof.
  intros HI%reachable_Inv Ha. revert HI. induction Ha as [|q qs s s' HP _ IH]; [auto|]. intros HI Hl Hfin.
  apply IH; [by apply Inv_asked| |exact Hfin]. cbn.
  destruct (Inv_changes q s HI HP id) as [Heq|[(Hn & _)|(r0 & r' & Hr & Hlr & HS)]]; [congruence|congruence|].
  rewrite Hl in Hr. injection Hr as <-. destruct (terminal_idle _ Hfin) as [Hna Hnp].
  row_cases HS; try (rewrite Hs in Hnp; discriminate); apply holds_true in Hh as (Hx & _); congruence.
Qed.

(** ** The attempt budget *)

(** A return that counts an attempt leaves another one. *)
Definition spends (max : Z) (q : query) : Prop :=
  match q with QReturn v _ _ => rv_increment v = true -> j_Attempts (rv_job v) + 1 < max | _ => True end.

Record Budget (max : Z) (s : queueState) : Prop := {
  bu_rows : forall id r, qs_table s !! id = Some r -> terminal (r_status r) = false -> 0 <= r_attempts r < max;
  bu_jobs : forall job, job ∈ qs_issued s -> 0 <= j_Attempts job < max
}.

Lemma Budget_asked max q s : 1 <= max -> Inv s -> permitted q s -> spends max q -> Budget max s -> Budget max (asked q s).
Proof.
  intros Hmax HI HP Hspend [Hr Hjobs].
  assert (Hcount : forall a, countedBy q a -> 0 <= a < max).
  { intros a (v & pending & now & -> & ->). destruct HP as [Hin _]. specialize (Hjobs (rv_job v) (Hin _ eq_refl)).
    unfold spends in Hspend. unfold rv_attempts, btoi. destruct (rv_increment v); [specialize (Hspend eq_refl)|]; lia. }
  assert (Hrows : forall id r', qs_table (asked q s) !! id = Some r' -> terminal (r_status r') = false -> 0 <= r_attempts r' < max).
  { intros id r' Hl Hnt. cbn in Hl.
    destruct (Inv_changes q s HI HP id) as [Heq|[(_ & r & Hl2 & (target & created & force & recovery & _ & -> & _))|(r & r2 & Hl1 & Hl2 & HS)]].
    - rewrite Heq in Hl. eauto.
    - rewrite Hl in Hl2. injection Hl2 as ->. cbn. lia.
    - rewrite Hl in Hl2. injection Hl2 as <-.
      row_cases HS; try (rewrite Hs in *); try (subst r'; cbn in *; apply (Hr id r Hl1); by rewrite Hs); try (rewrite Hs' in Hnt; discriminate).
      + destruct Hat as [-> |Hat]; [|by apply Hcount]. apply (Hr id r Hl1). by rewrite Hs.
      + rewrite Hat. apply (Hr id r Hl1). apply holds_true in Hh as (Ha & _). by destruct (r_status r).
      + congruence.
      + destruct Hat as [-> |Hat]; [|by apply Hcount]. apply (Hr id r Hl1). apply holds_true in Hh as (Ha & _). by destruct (r_status r). }
  constructor; [exact Hrows|]. intros job [Hin|Hin]%elem_of_app; [auto|].
  destruct (issuedBy_row q s job HI HP Hin) as (r & Hl & -> & Ha & _). cbn.
  apply (Hrows (j_ID job) r Hl). by destruct (r_status r).
Qed.

Lemma Budget_asks max qs s s' : 1 <= max -> asks qs s s' -> Inv s -> Forall (spends max) qs -> Budget max s -> Budget max s'.
Proof.
  intros Hmax. induction 1 as [|q qs s s' HP _ IH]; [auto|]. intros HI [Hq Hqs]%Forall_cons HB.
  apply IH; [by apply Inv_asked|exact Hqs|]. by apply Budget_asked.
Qed.

Lemma Budget_empty max : Budget max emptyQueue.
Proof. constructor; cbn; [intros id r H; by rewrite lookup_empty in H|intros job H; by apply not_elem_of_nil in H]. Qed.

(** ** Witnesses

    One worker claims and starts a job, its heartbeat goes stale, a reaper
    returns the job and a second worker claims it. *)
Definition claimed1 : Job := mkJob "j1" "repo" StatusClaimed 0 None "w1" (Some 10) false "L1".
Definition observed1 : Job := mkJob "j1" "repo" StatusRunning 0 None "w1" (Some 10) false "L1".
#[local] Definition reap1 : query := QReturn (mkReturnVars observed1 "reaped: stale claim" 100 true (Some (mkFence 10 60))) None 100.
Definition started_qs : list query := [QEnqueue "repo" false None "j1" 5; QClaim "j1" "w1" "L1" 10; QStart claimed1 ""].
#[local] Definition reclaimed : list query := [QStale 60 256; reap1; QClaim "j1" "w2" "L2" 120].
Definition stateOf (qs : list query) : queueState := default emptyQueue (askAll qs emptyQueue).

Lemma started_reachable : reachable (stateOf started_qs).
Proof. exists started_qs. apply askAll_sound. vm_compute. reflexivity. Defined.
#[local] Lemma reclaimed_reachable : reachable (stateOf (started_qs ++ reclaimed)).
Proof. exists (started_qs ++ reclaimed). apply askAll_sound. vm_compute. reflexivity. Defined.

Lemma queue_wellformed_witness :
  exists r, qs_table (stateOf started_qs) !! "j1" = Some r /\ r_status r = StatusRunning /\ rowOK r.
Proof.
  eexists. split; [vm_compute; reflexivity|]. split; [reflexivity|].
  apply (proj1 (queue_wellformed _ started_reachable) "j1"). vm_compute. reflexivity.
Defined.

Lemma lease_fences_witness :
  exists r job, qs_table (stateOf started_qs) !! "j1" = Some r /\ jobOf reap1 = Some job /\ r_leaseToken r = Some (j_LeaseToken job).
Proof.
  assert (HP : permitted reap1 (asked (QStale 60 256) (stateOf started_qs))) by (apply permittedb_sound; vm_compute; reflexivity).
  assert (HR : reachable (asked (QStale 60 256) (stateOf started_qs))).
  { exists (started_qs ++ [QStale 60 256]). apply askAll_sound. vm_compute. reflexivity. }
  eexists. destruct (lease_fences reap1 _ "j1" _ HR HP ltac:(vm_compute; reflexivity) eq_refl) as [H|(job & H1 & _ & H2 & _)].
  - exfalso. vm_compute in H. discriminate.
  - exists job. split; [vm_compute; reflexivity|]. split; [exact H1|exact H2].
Defined.

Lemma lost_lease_is_inert_witness :
  run (QFinish claimed1 StatusDone "" 130) (qs_table (stateOf (started_qs ++ reclaimed))) = Ok ([], qs_table (stateOf (started_qs ++ reclaimed))).
Proof.
  refine (proj2 (lost_lease_is_inert [] (stateOf (started_qs ++ reclaimed)) _ claimed1 (QFinish claimed1 StatusDone "" 130)
    reclaimed_reachable _ _ (asks_nil _) eq_refl)).
  - apply (bool_decide_eq_true_1 _). vm_compute. reflexivity.
  - unfold held. vm_compute. discriminate.
Defined.

Lemma enqueued_event_survives_witness :
  exists id r, qs_table (stateOf (started_qs ++ [QEnqueue "repo" true None "j2" 20; QStale 60 256])) !! id = Some r /\ freshEvent "repo" true r.
Proof.
  destruct (enqueued_event_survives (stateOf started_qs) "repo" true None "j2" 20 _ _ started_reachable ltac:(vm_compute; reflexivity))
    as (id & r & _ & _ & _ & _ & Hs).
  exists id. apply (Hs [QStale 60 256]).
  - apply askAll_sound. vm_compute. reflexivity.
  - repeat constructor.
Defined.

Lemma work_is_conserved_witness :
  exists t', run reap1 (qs_table (stateOf (started_qs ++ [QStale 60 256]))) = Ok ([("j1", (newPending "repo" 5 false None)
      <| r_attempts := 1 |> <| r_error := "reaped: stale claim" |> <| r_notBefore := Some 100 |>)], t') /\
    pendingWork "repo" false t'.
Proof.
  assert (HP : permitted reap1 (stateOf (started_qs ++ [QStale 60 256]))) by (apply permittedb_sound; vm_compute; reflexivity).
  assert (HR : reachable (stateOf (started_qs ++ [QStale 60 256]))).
  { exists (started_qs ++ [QStale 60 256]). apply askAll_sound. vm_compute. reflexivity. }
  eexists. split; [vm_compute; reflexivity|].
  refine (proj1 (proj2 (work_is_conserved reap1 _ HR HP) eq_refl observed1 _ _ eq_refl _ _)).
  - vm_compute. reflexivity.
  - discriminate.
Defined.

Lemma terminal_rows_are_final_witness :
  exists r, qs_table (stateOf (started_qs ++ [QFinish claimed1 StatusDone "" 50; QEnqueue "repo" false None "j2" 60])) !! "j1" = Some r
    /\ r_status r = StatusDone.
Proof.
  assert (HR : reachable (stateOf (started_qs ++ [QFinish claimed1 StatusDone "" 50]))).
  { exists (started_qs ++ [QFinish claimed1 StatusDone "" 50]). apply askAll_sound. vm_compute. reflexivity. }
  eexists. split.
  - apply (terminal_rows_are_final [QEnqueue "repo" false None "j2" 60] _ _ "j1" _ HR).
    + apply askAll_sound. vm_compute. reflexivity.
    + vm_compute. reflexivity.
    + reflexivity.
  - reflexivity.
Defined.
