(* ===== verification/JobQueueOps.v ===== *)
(** * The durable job queue: the operations

    The Go methods around the statements of [JobQueue]: validation, the census
    before a transaction, the bounded retry on conflicts, the reading of the
    rows that come back.  A method is a program of actions: it asks the
    database, the context, the clock and the token generator, and continues
    with what they answer.  Between two actions anything may happen. *)
From S2P Require Import Prelude JobErrors StoreErrors JobQueue JobQueueRows JobQueueInvariant.
From Stdlib Require Import Ascii.

(** ** Programs *)

(** The database picks the id of a created record and its own time.  The last
    three are a runner's: its own context, the handler with the heartbeat that
    accompanies it, and whether the deadline of a detached write has passed. *)
Inductive action :=
  | ADatabase (q : string -> Z -> query)
  | ACtxErr
  | ANow
  | AToken
  | AContext
  | AHandle
  | ADeadline.
Definition result (a : action) : Type :=
  match a with
  | ADatabase _ => res err rows
  | ACtxErr => error
  | ANow => Z
  | AToken => res err string
  | AContext => error
  | AHandle => error * error
  | ADeadline => bool
  end.

Inductive prog (A : Type) : Type :=
  | Ret (x : A)
  | Act (a : action) (k : result a -> prog A).
Arguments Ret {A} x.
Arguments Act {A} a k.

Fixpoint andThen {A B} (p : prog A) (f : A -> prog B) : prog B :=
  match p with
  | Ret x => f x
  | Act a k => Act a (fun r => andThen (k r) f)
  end.
Notation "'let!' x ':=' p 'in' q" := (andThen p (fun x => q))
  (at level 10, x name, p at level 100, q at level 200) : go_scope.
Definition ask (a : action) : prog (result a) := Act a (fun r => Ret r).
Definition database (q : string -> Z -> query) : prog (res err rows) := ask (ADatabase q).
Definition ctxErr : prog error := ask ACtxErr.

(** ** Errors *)
Definition ErrLeaseLost : string := "job lease lost".
(** [fmt.Errorf("job %q: %w", job.ID, ErrLeaseLost)]; an id holds no
    character that [%q] escapes. *)
Definition leaseLost (id : string) : err := wrapping ("job " +:+ quoted id +:+ ": ") ErrLeaseLost.

(** ** The census and the retry *)
Definition queuePendingIDs (target recoveryLease : string) : prog (res err (option string)) :=
  let! e := ctxErr in
  match e with
  | Some e => Ret (Err e)
  | None =>
      let! r := database (fun _ _ => if String.eqb recoveryLease "" then QPending target else QRecovery target recoveryLease) in
      match r with
      | Err e => Ret (Err e)
      | Ok rs =>
          if Nat.ltb 1 (length rs) then Ret (Err (text "invalid pending job census"))
          else let! e := ctxErr in
               Ret (match e with Some e => Err e | None => Ok (head (fst <$> rs)) end)
      end
  end.

(** One turn of the loop: the census, the transaction; [Err] is an error the
    loop may retry, [Ok] the result it returns. *)
Definition censusTurn {A} (census : prog (res err (option string))) (q : option string -> string -> Z -> query)
    (read : rows -> res err A) : prog (res err (res err A)) :=
  let! ids := census in
  match ids with
  | Err e => Ret (Err e)
  | Ok ids => let! r := database (q ids) in
              Ret (match r with Err e => Err e | Ok rs => Ok (read rs) end)
  end.

(** [left] counts the attempts that remain, this one included. *)
Fixpoint retryEnqueue {A} (turn : prog (res err (res err A))) (left : nat) : prog (res err A) :=
  let! r := turn in
  match r with
  | Ok x => Ret x
  | Err e =>
      if isRetryableEnqueue e then
        let! c := ctxErr in
        match c, left with
        | None, S (S _ as left') => retryEnqueue turn left'
        | _, _ => Ret (Err e)
        end
      else Ret (Err e)
  end.

Definition queryContainsJob (id : string) (rs : rows) : bool := existsb (fun kv => String.eqb kv.1 id) rs.
Definition unlessLost (id : string) (rs : rows) : res err unit :=
  if queryContainsJob id rs then Ok tt else Err (leaseLost id).

(** ** Enqueueing *)
Definition firstJob (what : string) (rs : rows) : res err Job :=
  match rs with
  | [] => Err (text (what +:+ ": empty result"))
  | (id, r) :: _ => Ok (toJob id r)
  end.

Definition CreateJob (target : string) : prog (res err Job) :=
  let! created := ask ANow in
  let! r := database (fun newID _ => QCreate target newID created) in
  Ret (match r with Err e => Err e | Ok rs => firstJob "create" rs end).

Definition EnqueuePending (target : string) (force : bool) : prog (res err Job) :=
  retryEnqueue (censusTurn (queuePendingIDs target "") (fun ids newID now => QEnqueue target force ids newID now)
                  (firstJob "enqueue")) maxQueueRetries.

Definition wrapSuccessorRetry {A} (r : res err A) : res err A :=
  match r with
  | Ok x => Ok x
  | Err e => Err (default e (WithSuccessorRetry (Some e)))
  end.

Definition EnsureJobSuccessor (job : Job) (force : bool) : prog (res err Job) :=
  if String.eqb (j_ID job) "" || String.eqb (j_LeaseToken job) "" || String.eqb (j_ClaimedBy job) "" || String.eqb (j_Target job) ""
  then Ret (wrapSuccessorRetry (Err (leaseLost (j_ID job))))
  else let! r := retryEnqueue (censusTurn (queuePendingIDs (j_Target job) "")
                   (fun ids newID now => QSuccessor job force ids newID now)
                   (fun rs => match rs with [] => Err (leaseLost (j_ID job)) | (id, r) :: _ => Ok (toJob id r) end))
                   maxQueueRetries in
       Ret (wrapSuccessorRetry r).

(** ** Claiming

    The loop of [ClaimJob] has a bound only for a store opened with bounded
    claims; [None] is a loop still running when the fuel ends. *)
Definition MaxBoundedJobClaimAttempts : nat := maxQueueRetries.
Definition mayRetry (bounded : bool) (attempt : nat) : bool :=
  negb bounded || Nat.ltb (attempt + 1) MaxBoundedJobClaimAttempts.

Fixpoint claimLoop (bounded : bool) (who : string) (attempt fuel : nat) : prog (option (res err Job)) :=
  match fuel with
  | O => Ret None
  | S fuel' =>
      let! e := ctxErr in
      match e with
      | Some e => Ret (Some (Err e))
      | None =>
          let! r := database (fun _ now => QCandidate now) in
          match r with
          | Err e =>
              if isRetryable e && mayRetry bounded attempt then claimLoop bounded who (S attempt) fuel' else Ret (Some (Err e))
          | Ok [] => Ret (Some (Err (wrapping "no pending: " ErrNotFound)))
          | Ok ((cand, _) :: _) =>
              let! e := ctxErr in
              match e with
              | Some e => Ret (Some (Err e))
              | None =>
                  let! token := ask AToken in
                  match token with
                  | Err e => Ret (Some (Err e))
                  | Ok lease =>
                      let! r := database (fun _ now => QClaim cand who lease now) in
                      match r with
                      | Err e =>
                          if isRetryable e && mayRetry bounded attempt then claimLoop bounded who (S attempt) fuel'
                          else Ret (Some (Err e))
                      | Ok ((id, row) :: _) => Ret (Some (Ok (toJob id row)))
                      | Ok [] =>
                          if mayRetry bounded attempt then claimLoop bounded who (S attempt) fuel'
                          else Ret (Some (Err (wrapping "claim selection attempts exhausted: " ErrConflict)))
                      end
                  end
              end
          end
      end
  end.
Definition ClaimJob (bounded : bool) (who : string) (fuel : nat) : prog (option (res err Job)) := claimLoop bounded who 0 fuel.

(** ** The holder's operations *)
Definition invalidLease (job : Job) : bool :=
  String.eqb (j_ID job) "" || String.eqb (j_LeaseToken job) "" || String.eqb (j_ClaimedBy job) "".

Definition updateLease (job : Job) (q : Z -> query) : prog (res err unit) :=
  if invalidLease job then Ret (Err (leaseLost (j_ID job)))
  else let! r := database (fun _ now => q now) in
       Ret (match r with
            | Err e => Err e
            | Ok [] => Err (leaseLost (j_ID job))
            | Ok _ => Ok tt
            end).

Definition HeartbeatJob (job : Job) : prog (res err unit) := updateLease job (QHeartbeat job).

Definition SetJobStatus (job : Job) (status : JobStatus) (message : string) : prog (res err unit) :=
  match status with
  | StatusRunning => updateLease job (fun _ => QStart job message)
  | StatusDone | StatusFailed => updateLease job (QFinish job status message)
  | _ => Ret (Err (text "invalid leased job transition"))
  end.

Definition FailJobWithSuccessor (job : Job) (message : string) : prog (res err unit) :=
  if invalidLease job then Ret (Err (leaseLost (j_ID job)))
  else retryEnqueue (censusTurn (queuePendingIDs (j_Target job) (j_LeaseToken job))
         (fun ids _ now => QFailWithSuccessor job message ids now) (unlessLost (j_ID job))) maxQueueRetries.

Definition returnToPending (v : returnVars) : prog (res err unit) :=
  let job := rv_job v in
  if invalidLease job then Ret (Err (leaseLost (j_ID job)))
  else retryEnqueue (censusTurn (queuePendingIDs (j_Target job) "")
         (fun ids _ now => QReturn v ids now) (unlessLost (j_ID job))) maxQueueRetries.

Definition RequeueJob (job : Job) (message : string) (notBefore : Z) : prog (res err unit) :=
  returnToPending (mkReturnVars job message notBefore true None).
(** The zero [time.Time] is the gate of a release, which sets none. *)
Definition ReleaseJob (job : Job) (message : string) : prog (res err unit) :=
  returnToPending (mkReturnVars job message 0 false None).

(** The row of a deferral as it was persisted: the gate it waits for, or
    [None] when a pending successor won. *)
Definition deferredUntil (id : string) (rs : rows) : res err (option Z) :=
  match base.filter (fun kv => (String.eqb kv.1 id && (bool_decide (r_status kv.2 = StatusPending)
                                 || bool_decide (r_status kv.2 = StatusCanceled))) = true) rs with
  | [] => Err (leaseLost id)
  | (_, r) :: _ =>
      if bool_decide (r_status r = StatusCanceled) then Ok None
      else match r_notBefore r with
           | Some nb => Ok (Some nb)
           | None => Err (text "invalid deferred state")
           end
  end.
Definition DeferJob (job : Job) (message : string) (delay : Z) : prog (res err (option Z)) :=
  if invalidLease job || String.eqb (j_Target job) "" || (delay <=? 0) then Ret (Err (leaseLost (j_ID job)))
  else retryEnqueue (let! now := ask ANow in
         censusTurn (queuePendingIDs (j_Target job) "") (fun ids _ t => QDefer job message (now + delay) ids t)
           (deferredUntil (j_ID job))) maxQueueRetries.

(** ** Reaping *)
Definition maxJobReapRows : nat := 256.
Definition reapOne (job : Job) (cutoff maxAttempts : Z) : prog (res err unit) :=
  match j_HeartbeatAt job with
  | None => Ret (Err (wrapping "no observed heartbeat: " ErrLeaseLost))
  | Some observed =>
      let fence := mkFence observed cutoff in
      if maxAttempts <=? j_Attempts job + 1 then updateLease job (QReapFail job fence)
      else let! now := ask ANow in
           returnToPending (mkReturnVars job "reaped: stale claim" now true (Some fence))
  end.

Fixpoint reapRows (rs : list Job) (cutoff maxAttempts : Z) (n : Z) (first : error) : prog (Z * error) :=
  match rs with
  | [] => Ret (n, first)
  | job :: rs' =>
      let! r := reapOne job cutoff maxAttempts in
      match r with
      | Ok _ => reapRows rs' cutoff maxAttempts (n + 1) first
      | Err e =>
          if errorsIs (Some e) ErrLeaseLost then reapRows rs' cutoff maxAttempts n first
          else reapRows rs' cutoff maxAttempts n (match first with None => Some e | Some _ => first end)
      end
  end.
Definition ReapStale (staleAfter maxAttempts : Z) : prog (Z * error) :=
  let! now := ask ANow in
  let cutoff := now - staleAfter in
  let! r := database (fun _ _ => QStale cutoff maxJobReapRows) in
  match r with
  | Err e => Ret (0, Some e)
  | Ok rs => reapRows ((fun kv => toJob kv.1 kv.2) <$> rs) cutoff maxAttempts 0 None
  end.

(** ** Deleting a repository's pending work *)
Definition CancelPendingJobs (target : string) : prog (res err Z) :=
  let! r := database (fun _ _ => QCancelSelection target) in
  match r with
  | Err e => Ret (Err e)
  | Ok rs =>
      let! e := ctxErr in
      match e with
      | Some e => Ret (Err e)
      | None =>
          let ids := fst <$> rs in
          if Nat.eqb (length ids) 0 then Ret (Ok 0)
          else let! r := database (fun _ now => QCancel target (if Nat.leb (length ids) restoreClearRows then Some ids else None) now) in
               Ret (match r with Err e => Err e | Ok rs => Ok (Z.of_nat (length rs)) end)
      end
  end.
