(* ===== verification/JobQueueRuns.v ===== *)
(** * The durable job queue: operations among others

    Runs of the operations of [JobQueueOps] against the table while any other
    process queries it between any two actions, a transaction fails or its
    reply is lost.  What a result means for the lease, how many actions an
    operation takes, and that an undisturbed one succeeds. *)
From S2P Require Import Prelude JobErrors StoreErrors JobQueue JobQueueRows JobQueueInvariant JobQueueTheorems JobQueueOps.

(** ** Runs *)

(** No error of the database claims that a lease is lost. *)
Definition storeError (e : err) : Prop := errorsIs (Some e) ErrLeaseLost = false.

(** A transaction is refused, by its own error or before it starts; or it
    commits and its reply arrives, or is lost. *)
Definition answersQuery (q : string -> Z -> query) (s : queueState) (r : res err rows) (s' : queueState) : Prop :=
  (exists e, r = Err e /\ storeError e /\ s' = s) \/
  exists newID now rs t,
    permitted (q newID now) s /\ run (q newID now) (qs_table s) = Ok (rs, t) /\ s' = asked (q newID now) s /\
    (r = Ok rs \/ exists e, r = Err e /\ storeError e).

Definition answers (a : action) : queueState -> result a -> queueState -> Prop :=
  match a with
  | ADatabase q => answersQuery q
  | ACtxErr => fun s e s' => s' = s /\ forall e', e = Some e' -> storeError e'
  | ANow => fun s _ s' => s' = s
  | AToken => fun s r s' => s' = s /\ forall e, r = Err e -> storeError e
  | AContext | AHandle | ADeadline => fun s _ s' => s' = s
  end.

(** Other processes query the table before every action and at the end. *)
Fixpoint runs {A} (p : prog A) (s : queueState) (x : A) (s' : queueState) : Prop :=
  match p with
  | Ret y => x = y /\ exists qs, asks qs s s'
  | Act a k => exists qs s1 r s2, asks qs s s1 /\ answers a s1 r s2 /\ runs (k r) s2 x s'
  end.

Lemma answers_asks a s r s' : answers a s r s' -> exists qs, asks qs s s'.
Proof.
  destruct a as [q| | | | | |]; cbn; try (intros ->; exists []; constructor).
  - intros [(e & _ & _ & ->)|(newID & now & rs & t & HP & _ & -> & _)]; [exists []; constructor|].
    exists [q newID now]. repeat constructor; apply HP.
  - intros [-> _]. exists []. constructor.
  - intros [-> _]. exists []. constructor.
Qed.

Lemma runs_asks {A} (p : prog A) s x s' : runs p s x s' -> exists qs, asks qs s s'.
Proof.
  revert s. induction p as [y|a k IH]; intros s; cbn; [by intros [_ H]|].
  intros (qs & s1 & r & s2 & H1 & H2 & H3). apply answers_asks in H2 as [qs2 H2]. destruct (IH r s2 H3) as [qs3 H4].
  exists (qs ++ qs2 ++ qs3). eapply asks_app; [exact H1|]. by eapply asks_app.
Qed.

Lemma runs_andThen {A B} (p : prog A) (f : A -> prog B) s y s' :
  runs (andThen p f) s y s' -> exists x s1, runs p s x s1 /\ runs (f x) s1 y s'.
Proof.
  revert s. induction p as [x|a k IH]; intros s H; cbn in H.
  - exists x, s. split; [|exact H]. split; [reflexivity|]. exists []. constructor.
  - destruct H as (qs & s1 & r & s2 & H1 & H2 & H3). destruct (IH r s2 H3) as (x & s3 & H4 & H5).
    exists x, s3. split; [|exact H5]. cbn. eauto 10.
Qed.

(** ** What holds before still holds *)
Lemma runs_Inv {A} (p : prog A) s x s' : runs p s x s' -> Inv s -> Inv s'.
Proof. intros [qs H]%runs_asks. by apply (Inv_asks qs). Qed.
Lemma runs_issued {A} (p : prog A) s x s' job : runs p s x s' -> job ∈ qs_issued s -> job ∈ qs_issued s'.
Proof. intros [qs H]%runs_asks. by apply (asks_issued qs). Qed.
Lemma runs_lost {A} (p : prog A) s x s' job : runs p s x s' -> Inv s -> job ∈ qs_issued s -> ~ held job s -> ~ held job s'.
Proof. intros [qs H]%runs_asks. by apply (lost_stays_lost_asks qs). Qed.


(** A lease whose row, if it is held, is running: its holder has started it. *)
Definition started (job : Job) (s : queueState) : Prop :=
  forall r, qs_table s !! j_ID job = Some r -> holds isActive job r = true -> r_status r = StatusRunning.

Lemma started_asked q s job :
  Inv s -> permitted q s -> job ∈ qs_issued s -> started job s -> started job (asked q s).
Proof.
  intros HI HP Hin Hst r' Hl Hh'. cbn in Hl.
  destruct (Inv_changes q s HI HP (j_ID job)) as [Heq|[(Hn & r & Hl2 & Hc)|(r & r2 & Hr & Hl2 & HS)]].
  - apply (Hst r'); [congruence|exact Hh'].
  - rewrite Hl in Hl2. injection Hl2 as <-. destruct (rowOK_created q r' Hc) as [_ Hn2].
    apply holds_true in Hh' as (_ & Hx & _). congruence.
  - rewrite Hl in Hl2. injection Hl2 as <-. apply holds_true in Hh' as (Hact & Hlt & Hcb).
    destruct (rowStep_lease q _ r r' _ (inv_row s HI _ _ Hr) HS Hlt) as [(H1 & H2 & H3 & _)|(who & now & -> & _)].
    + assert (Hrun : r_status r = StatusRunning) by (apply (Hst r Hr), holds_true; rewrite <- H2; auto).
      row_cases HS; try (rewrite Hs in Hrun; discriminate); try congruence.
      destruct Ha' as [-> | ->]; congruence.
    + destruct HP as [_ Hf]. by destruct (Hf job Hin).
Qed.

(** What a closing operation needs of its lease and job in a state; some are
    for started jobs only. *)
Section Over.
Context (st : bool).
Record heldWell (job : Job) (s : queueState) : Prop := {
  hw_inv : Inv s; hw_issued : job ∈ qs_issued s; hw_started : st = true -> started job s
}.

Lemma heldWell_asks qs s s' job : asks qs s s' -> heldWell job s -> heldWell job s'.
Proof.
  induction 1 as [|q qs s s' HP _ IH]; [auto|]. intros [HI Hin Hst]. apply IH. constructor.
  - by apply Inv_asked.
  - apply elem_of_app. by left.
  - intros E. by apply started_asked; auto.
Qed.

Lemma started_asks qs s s' job : asks qs s s' -> heldWell job s -> started job s -> started job s'.
Proof.
  induction 1 as [|q qs s s' HP Hq IH]; [auto|]. intros HW Hst. apply IH.
  - apply (heldWell_asks [q] s); [repeat constructor; apply HP|exact HW].
  - destruct HW. by apply started_asked.
Qed.

Lemma heldWell_runs {A} (p : prog A) s x s' job : runs p s x s' -> heldWell job s -> heldWell job s'.
Proof. intros [qs H]%runs_asks. by apply (heldWell_asks qs). Qed.

(** ** What a result says about the lease

    Success, and an error that says the lease is lost, both mean that it is
    over. *)
Definition over {A} (job : Job) (r : res err A) (s : queueState) : Prop :=
  match r with
  | Ok _ => ~ held job s
  | Err e => errorsIs (Some e) ErrLeaseLost = true -> ~ held job s
  end.

Lemma over_asks {A} job (r : res err A) qs s s' : asks qs s s' -> heldWell job s -> over job r s -> over job r s'.
Proof.
  intros Ha [HI Hin _] Ho.
  assert (Hl : ~ held job s -> ~ held job s') by (by apply (lost_stays_lost_asks qs)).
  destruct r; cbn in *; auto.
Qed.

Lemma over_store {A} job e s : storeError e -> over (A := A) job (Err e) s.
Proof. unfold storeError. cbn. congruence. Qed.

(** The retry loop returns what its last turn decided. *)
Lemma retry_over {A} (turn : prog (res err (res err A))) job :
  (forall s r s', heldWell job s -> runs turn s r s' ->
     match r with Ok x => over job x s' | Err e => storeError e end) ->
  forall left s r s', heldWell job s -> runs (retryEnqueue turn left) s r s' -> over job r s'.
Proof.
  intros Hturn left. induction left as [left IH] using lt_wf_ind. intros s r s' HP H.
  assert (Hret : forall x s1, heldWell job s1 -> over job x s1 -> runs (Ret x) s1 r s' -> over job r s').
  { intros x s1 H1 H2 [-> [qs Hq]]. by eapply over_asks. }
  assert (Hret2 : forall e s1, heldWell job s1 -> storeError e -> runs (Ret (Err e)) s1 r s' -> over job r s').
  { intros e s1 H1 H2. apply Hret; [exact H1|]. by apply over_store. }
  assert (Hx : exists x s1, heldWell job s1 /\ (match x with Ok y => over job y s1 | Err e => storeError e end) /\
    runs (match x with
          | Ok y => Ret y
          | Err e => if isRetryableEnqueue e
                     then let! c := ctxErr in match c, left with
                                              | None, S (S _ as left') => retryEnqueue turn left'
                                              | _, _ => Ret (Err e) end
                     else Ret (Err e) end) s1 r s').
  { destruct left; cbn [retryEnqueue] in H; apply runs_andThen in H as (x & s1 & H1 & H2); exists x, s1;
      (split; [by eapply heldWell_runs|]); (split; [by eapply Hturn|exact H2]). }
  clear H. destruct Hx as ([y|e] & s1 & H1 & H2 & H3); [by eapply Hret|].
  destruct (isRetryableEnqueue e); [|by eapply Hret2].
  destruct H3 as (qs & s2 & c & s3 & Ha & [-> _] & H). assert (HP2 : heldWell job s2) by (by eapply heldWell_asks).
  destruct c as [c|]; [by eapply Hret2|]. destruct left as [|[|left]]; [by eapply Hret2..|].
  eapply (IH (S left)); [lia|exact HP2|exact H].
Qed.

Lemma census_error target recovery s e s' : runs (queuePendingIDs target recovery) s (Err e) s' -> storeError e.
Proof.
  unfold queuePendingIDs. intros (qs & s1 & c & s2 & _ & [-> Hc] & H). destruct c as [c|].
  { destruct H as [[= ->] _]. by apply Hc. }
  destruct H as (qs2 & s3 & r & s4 & _ & Ha & H). destruct r as [rs|e'].
  - cbn [andThen] in H. destruct (Nat.ltb 1 (length rs)); [destruct H as [[= ->] _]; reflexivity|].
    destruct H as (qs3 & s5 & c & s6 & _ & [-> Hc'] & [H _]). destruct c as [c|]; [|discriminate].
    injection H as ->. by apply Hc'.
  - destruct H as [[= ->] _]. destruct Ha as [(e2 & [= ->] & He & _)|(? & ? & ? & ? & _ & _ & _ & [?|(e2 & [= ->] & He)])];
      [exact He|discriminate|exact He].
Qed.

(** One turn: what its transaction does is decided by the statement. *)
Lemma turn_over {A} census target recovery (q : option string -> string -> Z -> query) (read : rows -> res err A) job :
  census = queuePendingIDs target recovery ->
  (forall ids newID now s rs t, heldWell job s -> permitted (q ids newID now) s ->
     run (q ids newID now) (qs_table s) = Ok (rs, t) ->
     over job (read rs) (asked (q ids newID now) s)) ->
  forall s r s', heldWell job s -> runs (censusTurn census q read) s r s' ->
    match r with Ok x => over job x s' | Err e => storeError e end.
Proof.
  intros -> Hq s r s' HP H. unfold censusTurn in H. apply runs_andThen in H as (c & s1 & H1 & H).
  assert (HP1 : heldWell job s1) by (by eapply heldWell_runs). destruct c as [ids|e].
  - destruct H as (qs & s2 & x & s3 & Ha & Hx & [-> [qs3 H3]]). assert (HP2 : heldWell job s2) by (by eapply heldWell_asks).
    destruct Hx as [(e & -> & He & ->)|(newID & now & rs & t & Hp & Hr & -> & [->|(e & -> & He)])]; [exact He| |exact He].
    eapply over_asks; [exact H3| |by eapply Hq]. eapply heldWell_asks; [|exact HP2]. repeat constructor; apply Hp.
  - destruct H as [-> _]. by eapply census_error.
Qed.

(** *** Closing statements *)
Definition closes (q : query) : bool :=
  match q with
  | QFinish _ _ _ _ | QFailWithSuccessor _ _ _ _ => st
  | QDefer _ _ _ _ _ => true
  | QReturn v _ _ => is_nil (rv_fence v)
  | _ => false
  end.

Lemma not_held_row job s : selectWhere (j_ID job) (holds isActive job) (qs_table s) = false -> ~ held job s.
Proof. unfold held. congruence. Qed.

Lemma not_running_not_held job s :
  started job s -> selectWhere (j_ID job) (holds isRunning job) (qs_table s) = false -> ~ held job s.
Proof.
  intros Hst Hr (r & Hl & Hh)%held_iff. apply not_true_iff_false in Hr. apply Hr, selectWhere_true. exists r.
  split; [exact Hl|]. apply holds_true in Hh as (Ha & H1 & H2). apply holds_true. split; [|auto].
  unfold isRunning. apply bool_decide_eq_true, (Hst r Hl), holds_true. auto.
Qed.

Lemma updated_not_held job p f (t : jobTable) rs t' :
  (forall r, isActive (r_status (f r)) = false) -> selectWhere (j_ID job) p t = true ->
  updateWhere (j_ID job) p f t = Ok (rs, t') -> selectWhere (j_ID job) (holds isActive job) t' = false.
Proof.
  intros Hf Hp [(r & Hl & _ & _ & ->)|(Hn & _)]%updateWhere_Ok; [|congruence].
  unfold selectWhere. rewrite lookup_insert_eq. cbn. unfold holds. rewrite Hf. reflexivity.
Qed.

Lemma closed_after q job s rs t :
  heldWell job s -> permitted q s -> jobOf q = Some job -> closes q = true -> run q (qs_table s) = Ok (rs, t) ->
  ~ held job (asked q s).
Proof.
  intros [HI Hin Hst'] HP Hj Hc H. pose proof (inv_agrees s HI job (proj1 HP job Hj)) as Hag.
  assert (Hlost : ~ held job s -> ~ held job (asked q s)) by (by apply lost_stays_lost).
  assert (Hend : selectWhere (j_ID job) (holds isActive job) t = false -> ~ held job (asked q s)).
  { intros Hf. apply not_held_row. cbn. unfold after. by rewrite H. }
  destruct q as [| | | | | | | | |job0 status message now| | |job0 message pending now|job0 message notBefore pending now|vars pending now| |];
    try discriminate; injection Hj as Hj; try subst job0; try subst job; cbn [run] in H.
  - destruct (selectWhere (j_ID job) (holds isRunning job) (qs_table s)) eqn:E;
      [|by apply Hlost, not_running_not_held; [apply Hst'|]].
    apply Hend. eapply (updated_not_held job); [|exact E|exact H]. destruct HP as [_ [-> | ->]]; reflexivity.
  - apply holder_cases in H as [(Ho & _)|(Ho & Eb & H)];
      [by apply Hlost, not_running_not_held; [apply Hst'|]|]. apply Hend.
    apply bool_decide_eq_false in Eb. apply dec_stable in Eb. destruct pending as [successor|].
    + destruct (recovery_selected _ _ _ _ (Inv_Keyed s HI) Eb) as (rp & Hlp & Hsp & _).
      unfold withSuccessor in H. destruct (updateWhere successor _ _ _) as [[rs1 t1]|] eqn:E1; [|discriminate].
      eapply (updated_not_held job); [|clear H|exact H]; [reflexivity|].
      apply selectWhere_true in Ho as (rh & Hlh & Hh). apply selectWhere_true. exists rh. split; [|exact Hh].
      apply updateWhere_Ok in E1 as [(r1 & Hl1 & _ & _ & ->)|(_ & _ & ->)]; [|exact Hlh].
      rewrite lookup_insert_ne; [exact Hlh|]. intros ->. rewrite Hlh in Hlp. injection Hlp as <-.
      apply holds_true in Hh as (Hr & _). rewrite Hsp in Hr. discriminate.
    + eapply (updated_not_held job); [|exact Ho|exact H]. reflexivity.
  - destruct (given_back (QDefer job message notBefore pending now) job _ rs t (Inv_Keyed s HI) Hag eq_refl eq_refl H) as [(Hrs & Ht)|(_ & _ & Hf)]; [|by apply Hend].
    apply holder_cases in H as [(Ho & _)|(Ho & Eb & H)]; [by apply Hlost, not_held_row|exfalso].
    apply bool_decide_eq_false in Eb. apply dec_stable in Eb.
    enough (rs <> []) by done.
    eapply proj1, (back_to_pending job (holds isActive job) (qs_table s) pending); try exact H; auto. by apply Inv_Keyed.
  - destruct (given_back (QReturn vars pending now) (rv_job vars) _ rs t (Inv_Keyed s HI) Hag eq_refl eq_refl H) as [(Hrs & Ht)|(_ & _ & Hf)]; [|by apply Hend].
    assert (Hret : forall r, returnable vars r = holds isActive (rv_job vars) r).
    { intros r. unfold returnable. cbn in Hc. destruct (rv_fence vars); [discriminate|]. cbn. apply andb_true_r. }
    apply holder_cases in H as [(Ho & _)|(Ho & Eb & H)].
    + apply Hlost, not_held_row. unfold selectWhere in *. destruct (_ !! _); [|reflexivity]. cbn in *. by rewrite <- Hret.
    + exfalso. apply bool_decide_eq_false in Eb. apply dec_stable in Eb.
      enough (rs <> []) by done.
      eapply proj1, (back_to_pending (rv_job vars) (returnable vars) (qs_table s) pending); try exact H; auto.
      * by apply Inv_Keyed.
      * apply returnable_holds.
Qed.

Inductive closing (job : Job) : forall A, prog (res err A) -> Prop :=
  | closing_done message : st = true -> closing job unit (SetJobStatus job StatusDone message)
  | closing_failed message : st = true -> closing job unit (SetJobStatus job StatusFailed message)
  | closing_successor message : st = true -> closing job unit (FailJobWithSuccessor job message)
  | closing_release message : closing job unit (ReleaseJob job message)
  | closing_requeue message notBefore : closing job unit (RequeueJob job message notBefore)
  | closing_defer message delay :
      j_Target job <> EmptyString -> 0 < delay -> closing job (option Z) (DeferJob job message delay).

Lemma over_closed {A} job q s rs t (r : res err A) :
  heldWell job s -> permitted q s -> run q (qs_table s) = Ok (rs, t) -> jobOf q = Some job -> closes q = true ->
  over job r (asked q s).
Proof.
  intros HW HP Hr Hj Hc. pose proof (closed_after q job s rs t HW HP Hj Hc Hr) as Hn. destruct r; cbn; auto.
Qed.

Lemma updateLease_over job (q : Z -> query) s r s' :
  heldWell job s -> invalidLease job = false -> (forall now, jobOf (q now) = Some job /\ closes (q now) = true) ->
  runs (updateLease job q) s r s' -> over job r s'.
Proof.
  intros HW Hv Hq H. unfold updateLease in H. rewrite Hv in H.
  destruct H as (qs & s1 & x & s2 & Ha & Hx & [-> [qs2 H2]]). assert (HW1 : heldWell job s1) by (by eapply heldWell_asks).
  destruct Hx as [(e & -> & He & ->)|(newID & now & rs & t & HP & Hr & -> & Hres)].
  - eapply over_asks; [exact H2|exact HW1|]. by apply over_store.
  - assert (HW2 : heldWell job (asked (q now) s1)) by (apply (heldWell_asks [q now] s1); [repeat constructor; apply HP|exact HW1]).
    eapply over_asks; [exact H2|exact HW2|]. eapply over_closed; eauto; apply Hq.
Qed.

Lemma turn_closed {A} census target recovery q (read : rows -> res err A) job :
  census = queuePendingIDs target recovery ->
  (forall ids newID now, jobOf (q ids newID now) = Some job /\ closes (q ids newID now) = true) ->
  forall s r s', heldWell job s -> runs (censusTurn census q read) s r s' ->
    match r with Ok x => over job x s' | Err e => storeError e end.
Proof.
  intros Hc Hq. eapply (turn_over census target recovery); [exact Hc|]. intros ids newID now s rs t HW HP Hr.
  eapply over_closed; eauto; apply Hq.
Qed.

Lemma closing_over job A (p : prog (res err A)) s r s' :
  closing job A p -> heldWell job s -> invalidLease job = false -> runs p s r s' -> over job r s'.
Proof.
  intros Hp HW Hv H. destruct Hp as [m Hst|m Hst|m Hst|m|m nb|m delay Ht Hd].
  - eapply updateLease_over; eauto. intros now. split; [reflexivity|exact Hst].
  - eapply updateLease_over; eauto. intros now. split; [reflexivity|exact Hst].
  - unfold FailJobWithSuccessor in H. rewrite Hv in H. eapply retry_over; [|exact HW|exact H].
    eapply turn_closed; [reflexivity|]. split; [reflexivity|exact Hst].
  - unfold ReleaseJob, returnToPending in H. cbn [rv_job] in H. rewrite Hv in H. eapply retry_over; [|exact HW|exact H].
    eapply turn_closed; [reflexivity|]. split; reflexivity.
  - unfold RequeueJob, returnToPending in H. cbn [rv_job] in H. rewrite Hv in H. eapply retry_over; [|exact HW|exact H].
    eapply turn_closed; [reflexivity|]. split; reflexivity.
  - unfold DeferJob in H. apply String.eqb_neq in Ht. rewrite Hv, Ht, (proj2 (Z.leb_gt delay 0) Hd) in H.
    eapply retry_over; [|exact HW|exact H]. clear. intros s r s' HW (qs & s1 & now & s2 & Ha & -> & H).
    eapply turn_closed in H; [exact H|reflexivity|split; reflexivity|]. by eapply heldWell_asks.
Qed.
End Over.

(** The result of a closing operation can be trusted: when completing,
    failing, releasing, requeueing or deferring a started job returns nil, or
    an error that says the lease is lost, the lease is over and so is every
    later use of it, however often the operation retried, whatever ran in
    between and whichever replies were lost. *)
Theorem settled_lease_is_over job A (p : prog (res err A)) s r s' :
  closing true job A p -> reachable s -> job ∈ qs_issued s -> started job s -> invalidLease job = false ->
  runs p s r s' -> over job r s'.
Proof.
  intros Hp HR Hin Hst Hv. apply (closing_over true job A p s r s' Hp); [|exact Hv].
  constructor; [by apply reachable_Inv|exact Hin|auto].
Qed.

(** ** How long an operation takes *)
Fixpoint within {A} (n : nat) (p : prog A) {struct p} : Prop :=
  match p with
  | Ret _ => True
  | Act _ k => match n with O => False | S n' => forall r, within n' (k r) end
  end.
(** What every run can return. *)
Fixpoint returns {A} (P : A -> Prop) (p : prog A) : Prop :=
  match p with Ret x => P x | Act _ k => forall r, returns P (k r) end.

Lemma within_more {A} (p : prog A) n m : (n <= m)%nat -> within n p -> within m p.
Proof.
  revert n m. induction p as [x|a k IH]; intros n m Hle; cbn; [auto|].
  destruct n as [|n]; [done|]. destruct m as [|m]; [lia|]. intros H r. apply (IH r n m); [lia|apply H].
Qed.

Lemma within_andThen {A B} (p : prog A) (f : A -> prog B) n m :
  within n p -> (forall x, within m (f x)) -> within (n + m) (andThen p f).
Proof.
  revert n. induction p as [x|a k IH]; intros n; cbn.
  - intros _ H. apply (within_more _ m); [lia|apply H].
  - destruct n as [|n]; [done|]. cbn. intros H Hf r. by apply IH.
Qed.

Lemma within_retry {A} (turn : prog (res err (res err A))) k left :
  within k turn -> within (max 1 left * (k + 1)) (retryEnqueue turn left).
Proof.
  intros Hk. induction left as [left IH] using lt_wf_ind.
  assert (Hlast : forall (e : error) (c : err), within 0 (match e with _ => Ret (Err (A := A) c) end)) by (intros []; exact (fun _ => I)).
  destruct left as [|left]; cbn [retryEnqueue].
  - replace (max 1 0 * (k + 1))%nat with (k + 1)%nat by lia. apply within_andThen; [exact Hk|].
    intros [x|e]; [exact I|]. destruct (isRetryableEnqueue e); [|exact I]. intros []; exact I.
  - replace (max 1 (S left) * (k + 1))%nat with (k + S (left * (k + 1)))%nat by lia. apply within_andThen; [exact Hk|].
    intros [x|e]; [exact I|]. destruct (isRetryableEnqueue e); [|exact I]. intros [c|]; [exact I|].
    destruct left as [|left]; [exact I|]. apply (within_more _ (max 1 (S left) * (k + 1))); [lia|]. apply IH. lia.
Qed.

Lemma within_census target recovery : within 3 (queuePendingIDs target recovery).
Proof. intros [c|]; [exact I|]. intros [rs|e]; [|exact I]. cbn [andThen]. destruct (Nat.ltb 1 _); [exact I|]. intros []; exact I. Qed.

Lemma within_turn {A} target recovery q (read : rows -> res err A) : within 4 (censusTurn (queuePendingIDs target recovery) q read).
Proof.
  apply (within_andThen _ _ 3 1); [apply within_census|]. intros [ids|e]; [|exact I]. intros r. exact I.
Qed.

Definition maxActions : nat := maxQueueRetries * 6.

Lemma within_loop {A} target recovery q (read : rows -> res err A) :
  within maxActions (retryEnqueue (censusTurn (queuePendingIDs target recovery) q read) maxQueueRetries).
Proof.
  apply (within_more _ (max 1 maxQueueRetries * (4 + 1))); [vm_compute; lia|]. apply within_retry, within_turn.
Qed.

Lemma within_updateLease job q : within 1 (updateLease job q).
Proof. unfold updateLease. destruct (invalidLease job); [exact I|]. intros r. exact I. Qed.

Lemma claim_decides who attempt fuel :
  (MaxBoundedJobClaimAttempts <= attempt + fuel)%nat -> (attempt < MaxBoundedJobClaimAttempts)%nat ->
  within (fuel * 5) (claimLoop true who attempt fuel) /\ returns (fun r => r <> None) (claimLoop true who attempt fuel).
Proof.
  revert attempt. induction fuel as [|fuel IH]; intros attempt Hf Ha; [lia|].
  assert (Hnext : mayRetry true attempt = true -> within (fuel * 5) (claimLoop true who (S attempt) fuel) /\
    returns (fun r => r <> None) (claimLoop true who (S attempt) fuel)).
  { intros Hm. unfold mayRetry in Hm. cbn [negb orb] in Hm. apply Nat.ltb_lt in Hm. apply IH; lia. }
  assert (Hw : forall n, mayRetry true attempt = true -> within (n + fuel * 5) (claimLoop true who (S attempt) fuel)).
  { intros n Hm. apply (within_more _ (fuel * 5)); [lia|]. by apply Hnext. }
  change (S fuel * 5)%nat with (5 + fuel * 5)%nat. cbn [claimLoop]. split.
  - intros [c|]; [exact I|]. intros [[|[cand row] rs]|e]; [exact I| |].
    + intros [c|]; [exact I|]. intros [lease|e]; [|exact I]. intros [[|[id row2] rs2]|e]; [|exact I|].
      * cbn [andThen]. destruct (mayRetry true attempt) eqn:Hm; [by apply (Hw 0%nat)|exact I].
      * cbn [andThen]. destruct (isRetryable e && mayRetry true attempt) eqn:Hm; [bsplit; by apply (Hw 0%nat)|exact I].
    + cbn [andThen]. destruct (isRetryable e && mayRetry true attempt) eqn:Hm; [bsplit; by apply (Hw 3%nat)|exact I].
  - intros [c|]; [discriminate|]. intros [[|[cand row] rs]|e]; [discriminate| |].
    + intros [c|]; [discriminate|]. intros [lease|e]; [|discriminate]. intros [[|[id row2] rs2]|e]; [|discriminate|].
      * cbn [andThen]. destruct (mayRetry true attempt) eqn:Hm; [by apply Hnext|discriminate].
      * cbn [andThen]. destruct (isRetryable e && mayRetry true attempt) eqn:Hm; [bsplit; by apply Hnext|discriminate].
    + cbn [andThen]. destruct (isRetryable e && mayRetry true attempt) eqn:Hm; [bsplit; by apply Hnext|discriminate].
Qed.

(** Every operation of the queue is finite: against any database, clock
    and context it returns after at most [maxActions] actions, and a bounded
    claim decides within its 64 selections instead of looping. *)
Theorem operations_terminate job target message force notBefore delay who :
  within maxActions (EnqueuePending target force) /\
  within maxActions (EnsureJobSuccessor job force) /\
  within maxActions (FailJobWithSuccessor job message) /\
  within maxActions (ReleaseJob job message) /\
  within maxActions (RequeueJob job message notBefore) /\
  within maxActions (DeferJob job message delay) /\
  within maxActions (CancelPendingJobs target) /\
  (forall status, within maxActions (SetJobStatus job status message)) /\
  within maxActions (ClaimJob true who MaxBoundedJobClaimAttempts) /\
  returns (fun r => r <> None) (ClaimJob true who MaxBoundedJobClaimAttempts).
Proof.
  split; [apply within_loop|]. split.
  { unfold EnsureJobSuccessor. destruct (_ || _); [exact I|].
    apply (within_more _ (max 1 maxQueueRetries * (4 + 1) + 0)); [vm_compute; lia|].
    apply within_andThen; [apply within_retry, within_turn|]. intros x. exact I. }
  split. { unfold FailJobWithSuccessor. destruct (invalidLease job); [exact I|apply within_loop]. }
  split. { unfold ReleaseJob, returnToPending. destruct (invalidLease _); [exact I|apply within_loop]. }
  split. { unfold RequeueJob, returnToPending. destruct (invalidLease _); [exact I|apply within_loop]. }
  split.
  { unfold DeferJob. destruct (_ || _); [exact I|].
    apply (within_more _ (max 1 maxQueueRetries * (5 + 1))); [vm_compute; lia|]. apply within_retry.
    intros now. apply within_turn. }
  split.
  { apply (within_more _ 3); [vm_compute; lia|]. intros [rs|e]; [|exact I]. intros [c|]; [exact I|].
    cbn [andThen]. destruct (Nat.eqb _ 0); [exact I|]. intros r. exact I. }
  split.
  { intros status. apply (within_more _ 1); [vm_compute; lia|].
    destruct status; try exact I; apply within_updateLease. }
  assert (H : (MaxBoundedJobClaimAttempts <= 0 + MaxBoundedJobClaimAttempts)%nat /\ (0 < MaxBoundedJobClaimAttempts)%nat)
    by (unfold MaxBoundedJobClaimAttempts, maxQueueRetries; lia).
  destruct (claim_decides who 0 MaxBoundedJobClaimAttempts) as [H1 H2]; [apply H|apply H|].
  split; [|exact H2]. apply (within_more _ (MaxBoundedJobClaimAttempts * 5)); [vm_compute; lia|exact H1].
Qed.

(** ** Undisturbed operations *)

(** A run alone with the database at one instant: no fault, no cancellation;
    a created record gets the id [newID], a claim the token [token], the
    handler and the heartbeat end in [outcome]. *)
Section Exec.
Context (newID token : string) (now : Z) (outcome : error * error).
Definition dbError (message : string) : err := text message.
Fixpoint exec {A} (p : prog A) (s : queueState) : A * queueState :=
  match p with
  | Ret x => (x, s)
  | Act (ADatabase q) k =>
      match run (q newID now) (qs_table s) with
      | Ok (rs, _) => exec (k (Ok rs)) (asked (q newID now) s)
      | Err message => exec (k (Err (dbError message))) s
      end
  | Act ACtxErr k => exec (k None) s
  | Act ANow k => exec (k now) s
  | Act AToken k => exec (k (Ok token)) s
  | Act AContext k => exec (k None) s
  | Act AHandle k => exec (k outcome) s
  | Act ADeadline k => exec (k false) s
  end.

Lemma exec_andThen {A B} (p : prog A) (f : A -> prog B) s :
  exec (andThen p f) s = exec (f (exec p s).1) (exec p s).2.
Proof.
  revert s. induction p as [x|a k IH]; intros s; [reflexivity|]. destruct a as [q| | | | | |]; cbn [exec andThen]; try apply IH.
  destruct (run _ _) as [[rs t]|message]; apply IH.
Qed.

Lemma head_selected p t : head (fst <$> selected (selectOldest p t) t) = selectOldest p t.
Proof.
  unfold selected. destruct (selectOldest p t) as [id|] eqn:E; [|reflexivity].
  apply selectOldest_Some in E as (r & -> & _). reflexivity.
Qed.

Lemma length_selected o (t : jobTable) : (length (selected o t) <= 1)%nat.
Proof. unfold selected. destruct o as [id|]; cbn; [|lia]. destruct (t !! id); cbn; lia. Qed.

(** What the census of an operation finds. *)
Definition censusOf (target recovery : string) (t : jobTable) : option string :=
  if String.eqb recovery EmptyString then queuePendingSelection target t else queueRecoverySelection target recovery t.

Lemma exec_census target recovery s :
  exists s1, exec (queuePendingIDs target recovery) s = (Ok (censusOf target recovery (qs_table s)), s1) /\ qs_table s1 = qs_table s.
Proof.
  assert (Hs : exists p, censusOf target recovery (qs_table s) = selectOldest p (qs_table s) /\
    run (if String.eqb recovery EmptyString then QPending target else QRecovery target recovery) (qs_table s) =
      Ok (selected (selectOldest p (qs_table s)) (qs_table s), qs_table s)).
  { unfold censusOf. destruct (String.eqb recovery EmptyString); eexists; split; reflexivity. }
  destruct Hs as (p & -> & Hrun). unfold queuePendingIDs. cbn [andThen ask ctxErr exec database]. rewrite Hrun. cbn [andThen].
  pose proof (length_selected (selectOldest p (qs_table s)) (qs_table s)) as Hlen.
  rewrite (proj2 (Nat.ltb_ge 1 _) Hlen). cbn [andThen exec ask ctxErr]. rewrite head_selected.
  eexists. split; [reflexivity|]. cbn [asked qs_table]. unfold after. by rewrite Hrun.
Qed.

Lemma exec_retry {A} (turn : prog (res err (res err A))) left s x s' :
  exec turn s = (Ok x, s') -> exec (retryEnqueue turn left) s = (x, s').
Proof. intros E. destruct left; cbn [retryEnqueue]; rewrite exec_andThen, E; reflexivity. Qed.

Lemma exec_censusTurn {A} target recovery q (read : rows -> res err A) s rs t :
  run (q (censusOf target recovery (qs_table s)) newID now) (qs_table s) = Ok (rs, t) ->
  exists s', exec (censusTurn (queuePendingIDs target recovery) q read) s = (Ok (read rs), s') /\ qs_table s' = t.
Proof.
  intros Hr. destruct (exec_census target recovery s) as (s1 & E1 & Ht1).
  unfold censusTurn. rewrite exec_andThen, E1. cbn [fst snd andThen ask database exec]. rewrite Ht1, Hr.
  eexists. split; [reflexivity|]. cbn. unfold after. by rewrite Ht1, Hr.
Qed.

Lemma exec_turn {A} target recovery q (read : rows -> res err A) s rs t left :
  run (q (censusOf target recovery (qs_table s)) newID now) (qs_table s) = Ok (rs, t) ->
  exists s', exec (retryEnqueue (censusTurn (queuePendingIDs target recovery) q read) left) s = (read rs, s') /\ qs_table s' = t.
Proof.
  intros Hr. destruct (exec_censusTurn target recovery q read s rs t Hr) as (s' & E & Ht).
  exists s'. split; [by apply exec_retry|exact Ht].
Qed.

(** Every query on the way is one its issuer may make. *)
Fixpoint execPermittedb {A} (p : prog A) (s : queueState) : bool :=
  match p with
  | Ret x => true
  | Act (ADatabase q) k =>
      permittedb (q newID now) s &&
      match run (q newID now) (qs_table s) with
      | Ok (rs, _) => execPermittedb (k (Ok rs)) (asked (q newID now) s)
      | Err message => execPermittedb (k (Err (dbError message))) s
      end
  | Act ACtxErr k => execPermittedb (k None) s
  | Act ANow k => execPermittedb (k now) s
  | Act AToken k => execPermittedb (k (Ok token)) s
  | Act AContext k => execPermittedb (k None) s
  | Act AHandle k => execPermittedb (k outcome) s
  | Act ADeadline k => execPermittedb (k false) s
  end.

(** An undisturbed run is one of the runs. *)
Lemma exec_runs {A} (p : prog A) s : execPermittedb p s = true -> runs p s (exec p s).1 (exec p s).2.
Proof.
  revert s. induction p as [x|a k IH]; intros s H; [split; [reflexivity|exists []; constructor]|].
  destruct a as [q| | | | | |]; cbn [execPermittedb exec] in *; exists [], s.
  - apply andb_true_iff in H as [HP%permittedb_sound H]. destruct (run (q newID now) (qs_table s)) as [[rs t]|message] eqn:E.
    + exists (Ok rs), (asked (q newID now) s). split; [constructor|]. split; [right; exists newID, now, rs, t; auto|by apply IH].
    + exists (Err (dbError message)), s. split; [constructor|].
      split; [left; exists (dbError message); repeat split|by apply IH].
  - exists None, s. split; [constructor|]. split; [split; [reflexivity|discriminate]|by apply IH].
  - exists now, s. split; [constructor|]. split; [reflexivity|by apply IH].
  - exists (Ok token), s. split; [constructor|]. split; [split; [reflexivity|discriminate]|by apply IH].
  - exists None, s. split; [constructor|]. split; [reflexivity|by apply IH].
  - exists outcome, s. split; [constructor|]. split; [reflexivity|by apply IH].
  - exists false, s. split; [constructor|]. split; [reflexivity|by apply IH].
Qed.
End Exec.

(** The census keeps the index from refusing a write. *)
Lemma keyTaken_none target id (t : jobTable) :
  (forall i r, t !! i = Some r -> rowOK r) -> queuePendingSelection target t = None -> keyTaken (Some target) id t = false.
Proof.
  intros HO Hs. apply not_true_iff_false. intros ([i r] & Hin & H)%existsb_exists.
  apply list_elem_of_In, elem_of_map_to_list in Hin. apply andb_true_iff in H as [_ Hk%bool_decide_eq_true]. cbn in Hk.
  pose proof (selectOldest_None _ _ Hs i r Hin) as Hp. destruct (HO i r Hin) as [Hkey _ _]. rewrite Hk in Hkey.
  apply not_true_iff_false in Hp. apply Hp, pendingFor_true. split; [exact Hk|].
  destruct (r_status r); (discriminate || reflexivity).
Qed.

Lemma keyTaken_own key id r (t : jobTable) : KeysUnique t -> t !! id = Some r -> r_pendingKey r = key -> keyTaken key id t = false.
Proof.
  intros HU Hl Hk. destruct key as [key|]; [|reflexivity]. apply not_true_iff_false. intros ([i r2] & Hin & H)%existsb_exists.
  apply list_elem_of_In, elem_of_map_to_list in Hin.
  apply andb_true_iff in H as [Hne%negb_true_iff Hk2%bool_decide_eq_true]. cbn in *. apply String.eqb_neq in Hne.
  apply Hne. by eapply HU.
Qed.

Lemma updateWhere_runs id p f r (t : jobTable) :
  t !! id = Some r -> p r = true -> keyTaken (r_pendingKey (f r)) id t = false ->
  updateWhere id p f t = Ok ([(id, f r)], <[id := f r]> t).
Proof. intros Hl Hp Hk. unfold updateWhere, write. by rewrite Hl, Hp, Hk. Qed.

Lemma return_runs v s now :
  Inv s -> agrees (rv_job v) (qs_table s) -> selectWhere (j_ID (rv_job v)) (returnable v) (qs_table s) = true ->
  exists rs t, run (QReturn v (queuePendingSelection (j_Target (rv_job v)) (qs_table s)) now) (qs_table s) = Ok (rs, t) /\
    queryContainsJob (j_ID (rv_job v)) rs = true.
Proof.
  intros HI Hag Ho. cbn [run]. unfold returnToPendingSQL. rewrite Ho, bool_decide_false by tauto. cbn [andb negb].
  apply selectWhere_true in Ho as (rh & Hl & Hh).
  assert (Hfound : forall r, queryContainsJob (j_ID (rv_job v)) [(j_ID (rv_job v), r)] = true)
    by (intros r; cbn; by rewrite String.eqb_refl).
  destruct (queuePendingSelection _ _) as [successor|] eqn:E.
  - destruct (pending_selected _ _ _ (Inv_Keyed s HI) E) as (rp & Hlp & Hsp & Htp).
    assert (Hne : successor <> j_ID (rv_job v)).
    { intros ->. rewrite Hl in Hlp. injection Hlp as <-. apply returnable_holds, holds_true in Hh as (Ha & _).
      rewrite Hsp in Ha. discriminate. }
    unfold withSuccessor. erewrite updateWhere_runs; [|exact Hlp|reflexivity|].
    + erewrite updateWhere_runs; [eauto|rewrite lookup_insert_ne by exact Hne; exact Hl|exact Hh|reflexivity].
    + eapply keyTaken_own; [apply HI|exact Hlp|reflexivity].
  - erewrite updateWhere_runs; [eauto|exact Hl|exact Hh|]. apply keyTaken_none; [apply HI|exact E].
Qed.

Lemma enqueue_runs target force newID now s :
  Inv s -> qs_table s !! newID = None ->
  exists id r t, run (QEnqueue target force (queuePendingSelection target (qs_table s)) newID now) (qs_table s) = Ok ([(id, r)], t).
Proof.
  intros HI Hn. cbn [run]. unfold enqueuePendingSQL. rewrite bool_decide_false by tauto.
  destruct (queuePendingSelection _ _) as [id|] eqn:E.
  - destruct (pending_selected _ _ _ (Inv_Keyed s HI) E) as (rp & Hlp & _).
    erewrite updateWhere_runs; [eauto|exact Hlp|reflexivity|]. eapply keyTaken_own; [apply HI|exact Hlp|reflexivity].
  - unfold create, write. rewrite Hn, (keyTaken_none target); [eauto|apply HI|exact E].
Qed.

Lemma exec_claim newID token now outcome bounded who fuel s id :
  claimCandidateSQL now (qs_table s) = Some id ->
  exists job s' r, exec newID token now outcome (ClaimJob bounded who (S fuel)) s = (Some (Ok job), s') /\
    qs_table s' !! id = Some r /\ r_status r = StatusClaimed /\ job = toJob id r /\ j_LeaseToken job = token.
Proof.
  intros E. pose proof E as (r & Hl & Hp & _)%selectOldest_Some. apply andb_true_iff in Hp as [Hs _].
  unfold ClaimJob. cbn [claimLoop andThen ask ctxErr database exec run]. rewrite E. unfold selected at 1. rewrite Hl.
  cbn [from_option andThen exec ask]. cbn [asked qs_table]. unfold after at 1. cbn [run]. unfold claimSelectedJobSQL at 1.
  erewrite updateWhere_runs; [|exact Hl|exact Hs|reflexivity]. cbn [andThen exec].
  eexists _, _, _. split; [reflexivity|]. cbn [asked qs_table]. unfold after at 1. cbn [run]. unfold claimSelectedJobSQL at 1.
  unfold after at 1. cbn [run]. erewrite updateWhere_runs; [|exact Hl|exact Hs|reflexivity]. rewrite lookup_insert_eq.
  split; [reflexivity|]. split; [reflexivity|]. split; reflexivity.
Qed.

(** Left alone the operations succeed: a holder's return leaves its target
    pending, an enqueue leaves a pending row, a claim takes the oldest
    eligible row under its fresh token, and reports an empty queue exactly
    when no row is eligible; the UNIQUE index never refuses them. *)
Theorem undisturbed_operations_succeed newID token now outcome s :
  reachable s ->
  (forall v, rv_fence v = None -> invalidLease (rv_job v) = false -> rv_job v ∈ qs_issued s -> held (rv_job v) s ->
     exists s', exec newID token now outcome (returnToPending v) s = (Ok tt, s') /\
       pendingWork (j_Target (rv_job v)) (j_Force (rv_job v)) (qs_table s')) /\
  (forall target force, qs_table s !! newID = None ->
     exists job s', exec newID token now outcome (EnqueuePending target force) s = (Ok job, s') /\ pendingWork target force (qs_table s')) /\
  (forall bounded who fuel,
     match claimCandidateSQL now (qs_table s) with
     | Some id => exists job s' r, exec newID token now outcome (ClaimJob bounded who (S fuel)) s = (Some (Ok job), s') /\
         qs_table s' !! id = Some r /\ r_status r = StatusClaimed /\ job = toJob id r /\ j_LeaseToken job = token
     | None => exists e, (exec newID token now outcome (ClaimJob bounded who (S fuel)) s).1 = Some (Err e) /\ errorsIs (Some e) ErrNotFound = true
     end).
Proof.
  intros HI%reachable_Inv. split; [|split].
  - intros v Hf Hv Hin Hheld. pose proof (inv_agrees s HI _ Hin) as Hag.
    assert (Ho : selectWhere (j_ID (rv_job v)) (returnable v) (qs_table s) = true).
    { apply selectWhere_true in Hheld as (r & Hl & Hh). apply selectWhere_true. exists r. split; [exact Hl|].
      unfold returnable. by rewrite Hf, Hh. }
    destruct (return_runs v s now HI Hag Ho) as (rs & t & Hr & Hc).
    unfold returnToPending. rewrite Hv.
    destruct (exec_turn newID token now outcome (j_Target (rv_job v)) EmptyString (fun ids _ now => QReturn v ids now) (unlessLost (j_ID (rv_job v)))
      s rs t maxQueueRetries Hr) as (s' & E & Ht).
    exists s'. split; [rewrite E; unfold unlessLost; by rewrite Hc|]. rewrite Ht.
    destruct (given_back (QReturn v (queuePendingSelection (j_Target (rv_job v)) (qs_table s)) now) (rv_job v) _ rs t (Inv_Keyed s HI) Hag eq_refl eq_refl Hr) as [(-> & _)|(_ & Hw & _)]; [discriminate|exact Hw].
  - intros target force Hn. destruct (enqueue_runs target force newID now s HI Hn) as (id & r & t & Hr).
    destruct (exec_turn newID token now outcome target EmptyString (fun ids newID now => QEnqueue target force ids newID now) (firstJob "enqueue")
      s _ t maxQueueRetries Hr) as (s' & E & Ht).
    exists (toJob id r), s'. split; [exact E|]. rewrite Ht. cbn [run] in Hr. unfold enqueuePendingSQL in Hr.
    rewrite bool_decide_false in Hr by tauto. destruct (queuePendingSelection _ _) as [old|] eqn:Es.
    + destruct (pending_selected _ _ _ (Inv_Keyed s HI) Es) as (rp & Hlp & Hsp & Htp).
      apply updateWhere_Ok in Hr as [(r0 & Hl0 & _ & _ & ->)|(_ & Hnil & _)]; [|discriminate].
      rewrite Hlp in Hl0. injection Hl0 as <-. apply pendingWork_insert; [exact Htp|exact Hsp|]. cbn. by intros ->.
    + apply create_Ok in Hr as (_ & _ & ->). apply pendingWork_insert; [reflexivity|reflexivity|]. auto.
  - intros bounded who fuel. destruct (claimCandidateSQL now (qs_table s)) as [id|] eqn:E; [by apply exec_claim|].
    eexists. unfold ClaimJob. cbn [claimLoop andThen ask ctxErr database exec run]. rewrite E.
    split; reflexivity.
Qed.

(** ** Witnesses *)
Lemma settled_lease_is_over_witness :
  exists s', runs (SetJobStatus claimed1 StatusDone "") (stateOf started_qs) (Ok tt) s' /\ ~ held claimed1 s'.
Proof.
  assert (Hruns : runs (SetJobStatus claimed1 StatusDone "") (stateOf started_qs) (Ok tt)
                    (asked (QFinish claimed1 StatusDone "" 50) (stateOf started_qs))).
  { exists [], (stateOf started_qs). do 2 eexists. split; [constructor|]. split.
    - right. exists "unused", 50. do 2 eexists. split; [apply permittedb_sound; vm_compute; reflexivity|].
      split; [vm_compute; reflexivity|]. split; [reflexivity|]. left. reflexivity.
    - split; [reflexivity|]. exists []. constructor. }
  eexists. split; [exact Hruns|].
  apply (settled_lease_is_over claimed1 unit (SetJobStatus claimed1 StatusDone "") (stateOf started_qs) (Ok tt) _
    (closing_done true claimed1 "" eq_refl) started_reachable); [| | |exact Hruns].
  - apply (bool_decide_eq_true_1 _). vm_compute. reflexivity.
  - intros r Hl _. vm_compute in Hl. injection Hl as <-. reflexivity.
  - reflexivity.
Defined.

Lemma undisturbed_operations_succeed_witness :
  exists s', exec "j2" "L2" 50 (None, None) (RequeueJob claimed1 "flaky" 80) (stateOf started_qs) = (Ok tt, s') /\
    pendingWork "repo" false (qs_table s').
Proof.
  apply (proj1 (undisturbed_operations_succeed "j2" "L2" 50 (None, None) (stateOf started_qs) started_reachable)
    (mkReturnVars claimed1 "flaky" 80 true None) eq_refl eq_refl).
  - apply (bool_decide_eq_true_1 _). vm_compute. reflexivity.
  - vm_compute. reflexivity.
Defined.
