(* ===== verification/JobRunner.v ===== *)
(** * The job runner

    Model of [internal/store/runner.go]: the defaults, one execution of a
    claimed job from its start to the write that settles it, the detached
    writes that are retried through shutdown, the reap and the drain of a
    poll.  The handler is an answer of the environment, with whatever queries
    it makes in between; the heartbeat goroutine is modelled in
    [RunnerHeartbeat].  [Owners] is the nil fence of a runner outside
    parent-bound execution, logs and reports are left out.  A duration is its
    nanoseconds. *)
From S2P Require Import Prelude JobErrors StoreErrors JobQueue JobQueueOps.

Definition DefaultRunnerMaxAttempts : Z := 3.

Record Runner := mkRunner {
  rn_Who : string;
  rn_Interval : Z;
  rn_HeartbeatEvery : Z;
  rn_StaleAfter : Z;
  rn_MaxAttempts : Z;
  (** [None] is a nil function *)
  rn_Backoff : option (error -> Z -> option Z)
}.
#[export] Instance eta_Runner : Eta Runner := fun r =>
  mkRunner (rn_Who r) (rn_Interval r) (rn_HeartbeatEvery r) (rn_StaleAfter r) (rn_MaxAttempts r) (rn_Backoff r).

Definition defaults (host : string) (r : Runner) : Runner :=
  let r := if rn_Interval r =? 0 then r <| rn_Interval := 15 * Second |> else r in
  let r := if rn_HeartbeatEvery r =? 0
           then r <| rn_HeartbeatEvery := Z.max (Z.quot (rn_Interval r) 3) (5 * Second) |> else r in
  let r := if rn_StaleAfter r =? 0 then r <| rn_StaleAfter := i64 (4 * rn_HeartbeatEvery r) |> else r in
  let r := if rn_MaxAttempts r =? 0 then r <| rn_MaxAttempts := DefaultRunnerMaxAttempts |> else r in
  let r := match rn_Backoff r with None => r <| rn_Backoff := Some DefaultBackoff |> | Some _ => r end in
  if String.eqb (rn_Who r) "" then r <| rn_Who := host |> else r.

(** A negative count panics; a runner passes [job.Attempts + 1]. *)
Definition backoff (r : Runner) (e : error) (attempts : Z) : Z :=
  default 0 (match rn_Backoff r with None => DefaultBackoff e attempts | Some f => f e attempts end).

(** ** Detached writes

    Five seconds with a pause of a tenth after each failed write: no more than
    [persistPauses] pauses fit before the deadline. *)
Definition persistPauses : nat := 50.
Fixpoint persistFor {A} (pauses : nat) (write : prog (res err A)) : prog (option A) :=
  let! r := write in
  match r with
  | Ok x => Ret (Some x)
  | Err e =>
      if errorsIs (Some e) ErrLeaseLost then Ret None
      else let! expired := ask ADeadline in
           match expired, pauses with
           | false, S pauses' => persistFor pauses' write
           | _, _ => Ret None
           end
  end.
Definition persist {A} (write : prog (res err A)) : prog (option A) := persistFor persistPauses write.

(** ** One execution *)
Inductive settled := Released | Completed | FailedTerminally | FailedExhausted | Deferred | Yielded | Requeued.

Inductive verdict :=
  | VDone
  | VRelease (reason : string)
  | VFail (terminal : bool)
  | VDefer
  | VYield
  | VRequeue.

(** [context.Canceled]. *)
Definition Canceled : string := "context canceled".
Definition durableText (e : error) : string := default EmptyString (DurableErrorText e).

(** The handler's error once the heartbeat has reported; [None] is a lost
    lease, after which nothing is written. *)
Definition handled (e hb : error) : option error :=
  match hb with
  | None => Some e
  | Some h =>
      if errorsIs hb ErrLeaseLost then None
      else Some (if is_nil e || errorsIs e Canceled
                 then WithSuccessorRetry (Some (Wrap (NText ("heartbeat: " +:+ default EmptyString (Error h))) [h]))
                 else e)
  end.

(** The switch on the handler's result. *)
Definition judge (r : Runner) (job : Job) (ctx : error) (e : error) : verdict :=
  match e with
  | None => VDone
  | Some _ =>
      match ctx with
      | Some c => VRelease (default EmptyString (Error c))
      | None =>
          if IsTerminal e then VFail true
          else if IsDeferral e then VDefer
          else if IsYield e then VYield
          else if rn_MaxAttempts r <=? j_Attempts job + 1 then VFail false
          else VRequeue
      end
  end.

Definition failing (job : Job) (e : error) : prog (res err unit) :=
  if IsSuccessorRetry e then FailJobWithSuccessor job (durableText e) else SetJobStatus job StatusFailed (durableText e).

Definition settlement {A} (s : settled) (o : option A) : option settled := match o with Some _ => Some s | None => None end.

Definition settle (r : Runner) (job : Job) (e : error) (v : verdict) : prog (option Z * option settled) :=
  match v with
  | VDone => let! o := persist (SetJobStatus job StatusDone "") in Ret (None, settlement Completed o)
  | VRelease reason => let! o := persist (ReleaseJob job reason) in Ret (None, settlement Released o)
  | VFail terminal =>
      let! o := persist (failing job e) in
      Ret (None, settlement (if terminal then FailedTerminally else FailedExhausted) o)
  | VDefer => let! o := persist (DeferJob job (durableText e) (rn_Interval r)) in
              Ret (from_option (fun until => until) None o, settlement Deferred o)
  | VYield => let! o := persist (ReleaseJob job (durableText e)) in Ret (None, settlement Yielded o)
  | VRequeue =>
      let! o := persist (let! now := ask ANow in RequeueJob job (durableText e) (now + backoff r e (j_Attempts job + 1))) in
      Ret (None, settlement Requeued o)
  end.

Definition shutDown : string := "runner shutting down".
Definition release (job : Job) : prog (option Z * option settled) :=
  let! o := persist (ReleaseJob job shutDown) in Ret (None, settlement Released o).

(** Returns the gate of a deferral and the transition it wrote, if any. *)
Definition execute (r : Runner) (job : Job) : prog (option Z * option settled) :=
  let! c := ask AContext in
  match c with
  | Some _ => release job
  | None =>
      let! started := persist (SetJobStatus job StatusRunning "") in
      match started with
      | None => Ret (None, None)
      | Some _ =>
          let! c := ask AContext in
          match c with
          | Some _ => release job
          | None =>
              let! h := ask AHandle in
              match handled h.1 h.2 with
              | None => Ret (None, None)
              | Some e =>
                  let! ctx := (if is_nil e then Ret None else ask AContext) in
                  settle r job e (judge r job ctx e)
              end
          end
      end
  end.

(** ** One poll

    The reap, then claims until the queue is drained, the context ends or the
    first deferral's gate has passed; [None] is a drain still running when
    the fuel ends. *)
Definition reap (r : Runner) : prog (Z * error) := ReapStale (rn_StaleAfter r) (rn_MaxAttempts r).

Fixpoint drain (r : Runner) (bounded : bool) (deadline : option Z) (selections fuel : nat) : prog (option unit) :=
  match fuel with
  | O => Ret None
  | S fuel' =>
      let! c := ask AContext in
      match c with
      | Some _ => Ret (Some tt)
      | None =>
          let! claim := ClaimJob bounded (rn_Who r) selections in
          match claim with
          | None => Ret None
          | Some (Err _) => Ret (Some tt)
          | Some (Ok job) =>
              let! out := execute r job in
              let deadline := match deadline with Some d => Some d | None => out.1 end in
              match deadline with
              | None => drain r bounded None selections fuel'
              | Some d => let! now := ask ANow in
                          if now <? d then drain r bounded (Some d) selections fuel' else Ret (Some tt)
              end
          end
      end
  end.
