(* ===== verification/JobRunnerTheorems.v ===== *)
(** * The job runner: settlement, budget and outcomes

    An execution that reports a transition has ended its lease; runners and
    reapers stay within the attempt budget; undisturbed, the row ends as the
    handler's result asks, by rules stated apart from the model. *)
From S2P Require Import Prelude JobErrors StoreErrors JobQueue JobQueueRows JobQueueInvariant JobQueueTheorems JobQueueOps JobQueueRuns JobRunner.

(** ** Settlement *)

(** Whatever a write reports about the lease is true. *)
Definition overs (st : bool) (job : Job) {A} (p : prog (res err A)) : Prop :=
  forall s r s', heldWell st job s -> runs p s r s' -> over job r s'.

Lemma closing_overs st job A (p : prog (res err A)) : invalidLease job = false -> closing st job A p -> overs st job p.
Proof. intros Hv Hp s r s' HW. by apply (closing_over st job A p s r s'). Qed.

Lemma persist_over st job {A} (write : prog (res err A)) pauses s o s' :
  overs st job write -> heldWell st job s -> runs (persistFor pauses write) s o s' -> is_Some o -> ~ held job s'.
Proof.
  intros Hw. revert s. induction pauses as [|pauses IH]; intros s HW H Ho; cbn [persistFor] in H;
    apply runs_andThen in H as (r & s1 & H1 & H); pose proof (Hw s r s1 HW H1) as Hov;
    (assert (HW1 : heldWell st job s1) by (by eapply heldWell_runs)); destruct r as [x|e].
  - destruct H as [-> [qs Hq]]. eapply (lost_stays_lost_asks qs); [exact Hq|apply HW1|apply HW1|exact Hov].
  - destruct (errorsIs _ _); [destruct H as [-> _]; by destruct Ho|].
    destruct H as (qs & s2 & x & s3 & _ & _ & H). destruct x; destruct H as [-> _]; by destruct Ho.
  - destruct H as [-> [qs Hq]]. eapply (lost_stays_lost_asks qs); [exact Hq|apply HW1|apply HW1|exact Hov].
  - destruct (errorsIs _ _); [destruct H as [-> _]; by destruct Ho|].
    destruct H as (qs & s2 & x & s3 & Hq & -> & H). destruct x; [destruct H as [-> _]; by destruct Ho|].
    eapply IH; [|exact H|exact Ho]. by eapply heldWell_asks.
Qed.

Lemma heldWell_start job s : heldWell false job s -> started job s -> heldWell true job s.
Proof. intros [HI Hin _] Hst. by constructor. Qed.

Lemma heldWell_any job s : heldWell true job s -> heldWell false job s.
Proof. intros [HI Hin _]. by constructor. Qed.

(** A start that returns nil has a running row behind it. *)
Lemma start_started job message s s' :
  heldWell false job s -> runs (SetJobStatus job StatusRunning message) s (Ok tt) s' -> started job s'.
Proof.
  intros HW H. cbn [SetJobStatus] in H. unfold updateLease in H. destruct (invalidLease job); [by destruct H|].
  destruct H as (qs & s1 & x & s2 & Ha & Hx & [Hr [qs2 H2]]). assert (HW1 : heldWell false job s1) by (by eapply heldWell_asks).
  destruct Hx as [(e & -> & _)|(newID & now & rs & t & HP & Hrun & -> & [->|(e & -> & _)])]; [discriminate| |discriminate].
  apply (started_asks false qs2 (asked (QStart job message) s1)); [exact H2|eapply heldWell_asks; [|exact HW1]; repeat constructor; apply HP|].
  intros r Hl Hh. cbn in Hl. unfold after in Hl. rewrite Hrun in Hl. cbn [run] in Hrun.
  apply updateWhere_Ok in Hrun as [(r0 & Hl0 & _ & _ & ->)|(_ & -> & _)]; [|discriminate].
  rewrite lookup_insert_eq in Hl. injection Hl as <-. reflexivity.
Qed.

Lemma persist_started job message pauses s x s' :
  heldWell false job s -> runs (persistFor pauses (SetJobStatus job StatusRunning message)) s (Some x) s' -> started job s'.
Proof.
  revert s. induction pauses as [|pauses IH]; intros s HW H; cbn [persistFor] in H;
    apply runs_andThen in H as (r & s1 & H1 & H); (assert (HW1 : heldWell false job s1) by (by eapply heldWell_runs)); destruct r as [[]|e].
  - destruct H as [_ [qs Hq]]. apply (started_asks false qs s1); [exact Hq|exact HW1|]. exact (start_started job message s s1 HW H1).
  - destruct (errorsIs _ _); [by destruct H|]. destruct H as (qs & s2 & b & s3 & _ & _ & H). destruct b; by destruct H.
  - destruct H as [_ [qs Hq]]. apply (started_asks false qs s1); [exact Hq|exact HW1|]. exact (start_started job message s s1 HW H1).
  - destruct (errorsIs _ _); [by destruct H|]. destruct H as (qs & s2 & b & s3 & Hq & -> & H). destruct b; [by destruct H|].
    eapply IH; [|exact H]. by eapply heldWell_asks.
Qed.

(** The detached write of a settlement, and what follows it. *)
Lemma persist_settles st job {A} (write : prog (res err A)) (d : option A -> option Z) ev s out s' :
  overs st job write -> heldWell st job s ->
  runs (let! o := persist write in Ret (d o, settlement ev o)) s out s' -> is_Some out.2 -> ~ held job s'.
Proof.
  intros Hw HW H Ho. apply runs_andThen in H as (o & s1 & H1 & [-> [qs Hq]]).
  assert (HW1 : heldWell st job s1) by (by eapply heldWell_runs).
  eapply (lost_stays_lost_asks qs); [exact Hq|apply HW1|apply HW1|].
  eapply (persist_over st job write); [exact Hw|exact HW|exact H1|]. destruct o; [by eexists|by destruct Ho].
Qed.

Lemma requeue_overs st job message (f : Z -> Z) :
  invalidLease job = false -> overs st job (let! now := ask ANow in RequeueJob job message (f now)).
Proof.
  intros Hv s r s' HW (qs & s1 & now & s2 & Hq & -> & H).
  eapply (closing_overs st job _ _ Hv (closing_requeue st job message (f now))); [|exact H]. by eapply heldWell_asks.
Qed.

Lemma release_settles job s out s' :
  invalidLease job = false -> heldWell false job s -> runs (release job) s out s' -> is_Some out.2 -> ~ held job s'.
Proof.
  intros Hv. apply (persist_settles false job (ReleaseJob job shutDown) (fun _ => None) Released).
  exact (closing_overs false job unit _ Hv (closing_release false job shutDown)).
Qed.

Lemma settle_settles r job e v s out s' :
  invalidLease job = false -> j_Target job <> EmptyString -> 0 < rn_Interval r -> heldWell true job s ->
  runs (settle r job e v) s out s' -> is_Some out.2 -> ~ held job s'.
Proof.
  intros Hv Ht Hi HW. pose proof (fun A p => closing_overs true job A p Hv) as Hc.
  destruct v as [|reason|terminal| | |]; cbn [settle]; revert HW.
  - apply (persist_settles true job (SetJobStatus job StatusDone EmptyString) (fun _ => None) Completed), Hc.
    exact (closing_done true job EmptyString eq_refl).
  - apply (persist_settles true job (ReleaseJob job reason) (fun _ => None) Released), Hc.
    exact (closing_release true job reason).
  - apply (persist_settles true job (failing job e) (fun _ => None)). unfold failing.
    destruct (IsSuccessorRetry e); apply Hc;
      [exact (closing_successor true job (durableText e) eq_refl)|exact (closing_failed true job (durableText e) eq_refl)].
  - apply (persist_settles true job (DeferJob job (durableText e) (rn_Interval r)) (from_option (fun until => until) None) Deferred), Hc.
    exact (closing_defer true job (durableText e) (rn_Interval r) Ht Hi).
  - apply (persist_settles true job (ReleaseJob job (durableText e)) (fun _ => None) Yielded), Hc.
    exact (closing_release true job (durableText e)).
  - apply (persist_settles true job _ (fun _ => None) Requeued).
    exact (requeue_overs true job (durableText e) (fun now => now + backoff r e (j_Attempts job + 1)) Hv).
Qed.

(** C6: what an execution reports has happened: whenever it returns with a
    transition (released, completed, failed, deferred, yielded or requeued)
    its lease is over, through any interference, lost replies and retried
    writes, so no worker leaves a row behind that only the reaper would free
    while reporting it settled. *)
Theorem executed_job_is_settled r job s d ev s' :
  reachable s -> job ∈ qs_issued s -> invalidLease job = false -> j_Target job <> EmptyString -> 0 < rn_Interval r ->
  runs (execute r job) s (d, Some ev) s' -> ~ held job s'.
Proof.
  intros HR Hin Hv Ht Hi (qs & s1 & c & s2 & Hq & -> & H).
  assert (HW1 : heldWell false job s1).
  { eapply heldWell_asks; [exact Hq|]. constructor; [by apply reachable_Inv|exact Hin|discriminate]. }
  assert (Hsome : is_Some (d, Some ev).2) by (by eexists).
  destruct c as [c|]; [by apply (release_settles job s1 (d, Some ev) s' Hv HW1 H)|].
  cbn [andThen] in H. apply runs_andThen in H as (st & s3 & H1 & H). assert (HW3 : heldWell false job s3) by (by eapply heldWell_runs).
  destruct st as [[]|]; [|by destruct H].
  pose proof (persist_started job EmptyString _ s1 tt s3 HW1 H1) as Hst.
  destruct H as (qs4 & s4 & c & s5 & Hq4 & -> & H). assert (HW4 : heldWell false job s4) by (by eapply heldWell_asks).
  destruct c as [c|]; [by apply (release_settles job s4 (d, Some ev) s' Hv HW4 H)|].
  assert (HT4 : heldWell true job s4) by (apply heldWell_start; [exact HW4|by apply (started_asks false qs4 s3)]).
  destruct H as (qs6 & s6 & h & s7 & Hq6 & -> & H). assert (HT6 : heldWell true job s6) by (by eapply heldWell_asks).
  cbn [andThen] in H. destruct (handled h.1 h.2) as [e|]; [|by destruct H].
  apply runs_andThen in H as (ctx & s8 & H8 & H). assert (HT8 : heldWell true job s8) by (by eapply heldWell_runs).
  by apply (settle_settles r job e (judge r job ctx e) s8 (d, Some ev) s').
Qed.

(** ** The attempt budget *)

(** Every query a program asks. *)
Fixpoint issues {A} (P : query -> Prop) (p : prog A) : Prop :=
  match p with
  | Ret _ => True
  | Act a k => (match a with ADatabase q => forall id now, P (q id now) | _ => True end) /\ forall r, issues P (k r)
  end.

Lemma issues_andThen {A B} P (p : prog A) (f : A -> prog B) :
  issues P p -> (forall x, issues P (f x)) -> issues P (andThen p f).
Proof. induction p as [x|a k IH]; cbn; [auto|]. intros [Ha Hk] Hf. split; [exact Ha|]. intros r. by apply IH. Qed.

Lemma issues_retry {A} P (turn : prog (res err (res err A))) left : issues P turn -> issues P (retryEnqueue turn left).
Proof.
  intros Ht. induction left as [left IH] using lt_wf_ind.
  destruct left as [|left]; cbn [retryEnqueue]; (apply issues_andThen; [exact Ht|]); intros [x|e]; try exact I;
    (destruct (isRetryableEnqueue e); [|exact I]); (split; [exact I|]); intros [c|]; try exact I.
  destruct left as [|left]; [exact I|]. apply IH. lia.
Qed.

Lemma issues_turn {A} P target recovery q (read : rows -> res err A) :
  P (QPending target) -> P (QRecovery target recovery) -> (forall ids id now, P (q ids id now)) ->
  issues P (censusTurn (queuePendingIDs target recovery) q read).
Proof.
  intros H1 H2 Hq. apply issues_andThen.
  - split; [exact I|]. intros [c|]; [exact I|]. split; [intros id now; destruct (String.eqb recovery ""); assumption|].
    intros [rs|e]; [|exact I]. cbn [andThen]. destruct (Nat.ltb 1 (length rs)); [exact I|]. split; [exact I|]. intros []; exact I.
  - intros [ids|e]; [|exact I]. split; [auto|]. intros r. exact I.
Qed.

Lemma issues_persist {A} P (write : prog (res err A)) pauses : issues P write -> issues P (persistFor pauses write).
Proof.
  intros Hw. induction pauses as [|pauses IH]; cbn [persistFor]; (apply issues_andThen; [exact Hw|]); intros [x|e];
    try exact I; (destruct (errorsIs _ _); [exact I|]); (split; [exact I|]); intros []; try exact I. exact IH.
Qed.

Section Budget.
Context (max : Z).
Abbreviation inBudget := (issues (spends max)).

Lemma budget_updateLease job q : (forall now, spends max (q now)) -> inBudget (updateLease job q).
Proof. intros Hq. unfold updateLease. destruct (invalidLease job); [exact I|]. split; [auto|]. intros r. exact I. Qed.

Lemma budget_return v : (rv_increment v = true -> j_Attempts (rv_job v) + 1 < max) -> inBudget (returnToPending v).
Proof.
  intros Hv. unfold returnToPending. destruct (invalidLease _); [exact I|]. apply issues_retry, issues_turn; try exact I. auto.
Qed.

Lemma budget_release job message : inBudget (ReleaseJob job message).
Proof. apply budget_return. discriminate. Qed.

Lemma budget_status job status message : inBudget (SetJobStatus job status message).
Proof. destruct status; try exact I; by apply budget_updateLease. Qed.

Lemma budget_fail job message : inBudget (FailJobWithSuccessor job message).
Proof. unfold FailJobWithSuccessor. destruct (invalidLease _); [exact I|]. by apply issues_retry, issues_turn. Qed.

Lemma budget_defer job message delay : inBudget (DeferJob job message delay).
Proof.
  unfold DeferJob. destruct (_ || _); [exact I|]. apply issues_retry. split; [exact I|]. intros now. by apply issues_turn.
Qed.

(** Closes the goals of single operations, chosen by their name. *)
Ltac budget :=
  lazymatch goal with
  | |- issues _ (ReleaseJob ?job ?message) => exact (budget_release job message)
  | |- issues _ (SetJobStatus ?job ?status ?message) => exact (budget_status job status message)
  | |- issues _ (FailJobWithSuccessor ?job ?message) => exact (budget_fail job message)
  | |- issues _ (DeferJob ?job ?message ?delay) => exact (budget_defer job message delay)
  end.

(** A requeue is only the verdict of an attempt that leaves another. *)
Lemma budget_settle r job ctx e : rn_MaxAttempts r = max -> inBudget (settle r job e (judge r job ctx e)).
Proof.
  intros Hm. assert (Hret : forall (x : option Z * option settled), inBudget (Ret x)) by (intros; exact I).
  destruct (judge r job ctx e) as [|reason|terminal| | |] eqn:Ej; cbn [settle]; (refine (issues_andThen _ _ _ _ _); [apply issues_persist|intros; apply Hret]); try budget.
  - unfold failing. destruct (IsSuccessorRetry e); budget.
  - split; [exact I|]. intros now. apply (budget_return (mkReturnVars _ _ _ _ _)). intros _. cbn.
    unfold judge in Ej. destruct e; [|discriminate]. destruct ctx; [discriminate|].
    destruct (IsTerminal _); [discriminate|]. destruct (IsDeferral _); [discriminate|]. destruct (IsYield _); [discriminate|].
    destruct (rn_MaxAttempts r <=? j_Attempts job + 1) eqn:El; [discriminate|]. apply Z.leb_gt in El. lia.
Qed.

Lemma budget_execute r job : rn_MaxAttempts r = max -> inBudget (execute r job).
Proof.
  intros Hm. assert (Hrel : inBudget (release job)) by (refine (issues_andThen _ _ _ _ _); [apply issues_persist; budget|intros; exact I]).
  split; [exact I|]. intros [c|]; [exact Hrel|]. cbn [andThen]. refine (issues_andThen _ _ _ _ _); [apply issues_persist; budget|].
  intros [[]|]; [|exact I]. split; [exact I|]. intros [c|]; [exact Hrel|]. split; [exact I|]. intros h. cbn [andThen].
  destruct (handled _ _) as [e|]; [|exact I]. apply issues_andThen; [destruct (is_nil e); [exact I|split; [exact I|intros; exact I]]|].
  intros ctx. by apply budget_settle.
Qed.

Lemma budget_reap job cutoff : inBudget (reapOne job cutoff max).
Proof.
  unfold reapOne. destruct (j_HeartbeatAt job) as [observed|]; [|exact I].
  destruct (max <=? j_Attempts job + 1) eqn:E; [by apply budget_updateLease|]. split; [exact I|]. intros now.
  apply budget_return. intros _. cbn. apply Z.leb_gt in E. lia.
Qed.

Lemma budget_ReapStale staleAfter : inBudget (ReapStale staleAfter max).
Proof.
  split; [exact I|]. intros now. split; [intros; exact I|]. intros [rs|e]; [|exact I]. cbn [andThen].
  generalize 0 (@None err). induction ((fun kv => toJob kv.1 kv.2) <$> rs) as [|job jobs IH]; intros n first; [exact I|].
  cbn [reapRows]. apply issues_andThen; [apply budget_reap|]. intros [x|e]; [apply IH|]. destruct (errorsIs _ _); apply IH.
Qed.
End Budget.

(** Retries are bounded: an execution and a reap only ever count an
    attempt that leaves one below [MaxAttempts], and in any interleaving of
    queries that do, a row that is not finished has failed fewer than
    [MaxAttempts] times. *)
Theorem retries_are_bounded max :
  1 <= max ->
  (forall r job, rn_MaxAttempts r = max -> issues (spends max) (execute r job)) /\
  (forall r, rn_MaxAttempts r = max -> issues (spends max) (reap r)) /\
  (forall qs s id r, asks qs emptyQueue s -> Forall (spends max) qs -> qs_table s !! id = Some r ->
     terminal (r_status r) = false -> 0 <= r_attempts r < max).
Proof.
  intros Hmax. split; [intros; by apply budget_execute|]. split; [intros r <-; apply budget_ReapStale|].
  intros qs s id r Ha Hq. apply (bu_rows max s (Budget_asks max qs emptyQueue s Hmax Ha Inv_empty Hq (Budget_empty max))).
Qed.

(** ** Outcomes *)
Section Outcome.
Context (newID token : string) (now : Z) (outcome : error * error) (job : Job).
Hypothesis Hv : invalidLease job = false.
Abbreviation exec := (exec newID token now outcome).

Lemma exec_persist {A} (write : prog (res err A)) s x s' : exec write s = (Ok x, s') -> exec (persist write) s = (Some x, s').
Proof. intros H. unfold persist, persistPauses. cbn [persistFor]. rewrite exec_andThen, H. reflexivity. Qed.

Lemma exec_settlement {A} (write : prog (res err A)) (d : option A -> option Z) ev s x s' :
  exec write s = (Ok x, s') ->
  exec (let! o := persist write in Ret (d o, settlement ev o)) s = ((d (Some x), Some ev), s').
Proof. intros H. rewrite exec_andThen, (exec_persist _ _ _ _ H). reflexivity. Qed.

Lemma asked_table q s rs t : run q (qs_table s) = Ok (rs, t) -> qs_table (asked q s) = t.
Proof. intros H. cbn. unfold after. by rewrite H. Qed.

Lemma exec_updateLease q s r t :
  run (q now) (qs_table s) = Ok ([(j_ID job, r)], t) ->
  exists s', exec (updateLease job q) s = (Ok tt, s') /\ qs_table s' = t.
Proof.
  intros H. exists (asked (q now) s). split; [|by eapply asked_table].
  unfold updateLease. rewrite Hv. cbn [andThen ask database JobQueueRuns.exec]. by rewrite H.
Qed.

(** A running row the job holds, alone for its target. *)
Context (t : jobTable) (r : jobRow).
Hypothesis (Hl : t !! j_ID job = Some r) (Hh : holds isRunning job r = true) (HO : forall id r, t !! id = Some r -> rowOK r)
           (Halone : queuePendingSelection (j_Target job) t = None).

Lemma selectHeld : selectWhere (j_ID job) (holds isRunning job) t = true /\ selectWhere (j_ID job) (holds isActive job) t = true.
Proof.
  split; apply selectWhere_true; exists r; (split; [exact Hl|]); [exact Hh|]. exact (holds_weaken _ _ _ isRunning_isActive Hh).
Qed.

Lemma recoveryAlone lease : queueRecoverySelection (j_Target job) lease t = None.
Proof.
  destruct (queueRecoverySelection _ lease t) as [id|] eqn:E; [|reflexivity].
  apply selectOldest_Some in E as (r' & Hl' & Hp & _). apply andb_true_iff in Hp as [Hp _].
  pose proof (selectOldest_None _ _ Halone id r' Hl'). congruence.
Qed.

Lemma censusAlone recovery : censusOf (j_Target job) recovery t = None.
Proof. unfold censusOf. destruct (String.eqb recovery EmptyString); [exact Halone|apply recoveryAlone]. Qed.

Lemma exec_status status message s :
  status = StatusDone \/ status = StatusFailed -> qs_table s = t ->
  exists s', exec (SetJobStatus job status message) s = (Ok tt, s') /\ qs_table s' !! j_ID job = Some (finished status message now r).
Proof.
  intros Hs Ht.
  assert (Hr : run (QFinish job status message now) (qs_table s) = Ok ([(j_ID job, finished status message now r)], <[j_ID job := finished status message now r]> t))
    by (rewrite Ht; apply updateWhere_runs; [exact Hl|exact Hh|reflexivity]).
  destruct (exec_updateLease (QFinish job status message) s _ _ Hr) as (s' & E & Ht').
  exists s'. split; [destruct Hs as [-> | ->]; exact E|]. rewrite Ht'. apply lookup_insert_eq.
Qed.

Lemma exec_fail message s :
  qs_table s = t ->
  exists s' r', exec (FailJobWithSuccessor job message) s = (Ok tt, s') /\ qs_table s' !! j_ID job = Some r' /\
    r_status r' = StatusFailed /\ r_target r' = r_target r /\ r_error r' = message.
Proof.
  intros Ht. unfold FailJobWithSuccessor. rewrite Hv.
  destruct (exec_turn newID token now outcome (j_Target job) (j_LeaseToken job) (fun ids _ now => QFailWithSuccessor job message ids now)
    (unlessLost (j_ID job)) s [(j_ID job, (finished StatusFailed message now r) <| r_attempts := j_Attempts job + 1 |> <| r_notBefore := None |>)]
    (<[j_ID job := (finished StatusFailed message now r) <| r_attempts := j_Attempts job + 1 |> <| r_notBefore := None |>]> t) maxQueueRetries)
    as (s' & E & Ht').
  - rewrite Ht, censusAlone. cbn [run]. unfold failJobWithSuccessorSQL.
    rewrite (proj1 selectHeld), recoveryAlone, bool_decide_false by tauto. cbn [andb negb].
    erewrite updateWhere_runs; [reflexivity|exact Hl|exact Hh|reflexivity].
  - exists s'. eexists. rewrite E, Ht', lookup_insert_eq. unfold unlessLost. cbn. rewrite String.eqb_refl.
    repeat split.
Qed.

Lemma exec_return v s :
  rv_job v = job -> rv_fence v = None -> qs_table s = t ->
  exists s' r', exec (returnToPending v) s = (Ok tt, s') /\ qs_table s' !! j_ID job = Some r' /\
    r_status r' = StatusPending /\ r_target r' = r_target r /\ r_error r' = rv_message v /\
    r_attempts r' = rv_attempts v /\ r_notBefore r' = rv_gate v.
Proof.
  intros Hj Hf Ht. unfold returnToPending. rewrite Hj, Hv.
  assert (Hret : returnable v r = true).
  { unfold returnable. rewrite Hj, Hf, (holds_weaken _ _ _ isRunning_isActive Hh). reflexivity. }
  eassert (Hr : run (QReturn v (censusOf (j_Target job) EmptyString (qs_table s)) now) (qs_table s) = Ok ([(j_ID job, _)], <[j_ID job := _]> t)).
  { rewrite Ht, censusAlone. cbn [run]. unfold returnToPendingSQL. rewrite Hj.
    rewrite (proj2 (selectWhere_true (j_ID job) (returnable v) t)) by eauto. rewrite Halone, bool_decide_false by tauto. cbn [andb negb].
    erewrite updateWhere_runs; [reflexivity|exact Hl|exact Hret|]. by apply keyTaken_none. }
  destruct (exec_turn newID token now outcome (j_Target job) EmptyString (fun ids _ now => QReturn v ids now)
    (unlessLost (j_ID job)) s _ _ maxQueueRetries Hr) as (s' & E & Ht').
  exists s'. eexists. rewrite E, Ht', lookup_insert_eq. unfold unlessLost. cbn [queryContainsJob existsb fst]. rewrite String.eqb_refl.
  repeat split.
Qed.

Lemma exec_defer message delay s :
  j_Target job <> EmptyString -> 0 < delay -> qs_table s = t ->
  exists s' r', exec (DeferJob job message delay) s = (Ok (Some (now + delay)), s') /\ qs_table s' !! j_ID job = Some r' /\
    r_status r' = StatusPending /\ r_target r' = r_target r /\ r_error r' = message /\
    r_attempts r' = r_attempts r /\ r_notBefore r' = Some (now + delay).
Proof.
  intros Hne Hd Ht. unfold DeferJob. apply String.eqb_neq in Hne. rewrite Hv, Hne, (proj2 (Z.leb_gt delay 0) Hd). cbn [orb].
  eassert (Hr : run (QDefer job message (now + delay) (censusOf (j_Target job) EmptyString (qs_table s)) now) (qs_table s) = Ok ([(j_ID job, _)], <[j_ID job := _]> t)).
  { rewrite Ht, censusAlone. cbn [run]. unfold deferJobSQL.
    rewrite (proj2 selectHeld), Halone, bool_decide_false by tauto. cbn [andb negb].
    erewrite updateWhere_runs; [reflexivity|exact Hl|exact (holds_weaken _ _ _ isRunning_isActive Hh)|].
    by apply keyTaken_none. }
  destruct (exec_censusTurn newID token now outcome (j_Target job) EmptyString (fun ids _ t => QDefer job message (now + delay) ids t)
    (deferredUntil (j_ID job)) s _ _ Hr) as (s' & E & Ht').
  exists s'. eexists. split; [|rewrite Ht', lookup_insert_eq; repeat split].
  erewrite exec_retry; [|exact E].
  unfold deferredUntil. cbn [base.filter list_filter fst]. rewrite String.eqb_refl. reflexivity.
Qed.
End Outcome.

(** What the row of an undisturbed execution ends as, and the gate a deferral
    returns. *)
Definition endsAs (r : Runner) (job : Job) (now : Z) (e : error) (v : verdict) (row : jobRow) (until : option Z) : Prop :=
  match v with
  | VDone => r_status row = StatusDone /\ r_error row = EmptyString /\ until = None
  | VFail _ => r_status row = StatusFailed /\ r_error row = durableText e /\ until = None
  | VDefer => r_status row = StatusPending /\ r_error row = durableText e /\ r_attempts row = j_Attempts job /\
              r_notBefore row = Some (now + rn_Interval r) /\ until = Some (now + rn_Interval r)
  | VYield => r_status row = StatusPending /\ r_error row = durableText e /\ r_attempts row = j_Attempts job /\
              r_notBefore row = None /\ until = None
  | VRelease reason => r_status row = StatusPending /\ r_error row = reason /\ r_attempts row = j_Attempts job /\
                       r_notBefore row = None /\ until = None
  | VRequeue => r_status row = StatusPending /\ r_error row = durableText e /\ r_attempts row = j_Attempts job + 1 /\
                r_notBefore row = Some (now + backoff r e (j_Attempts job + 1)) /\ until = None
  end.

(** What is reported of it. *)
Definition eventOf (v : verdict) : settled :=
  match v with
  | VDone => Completed
  | VFail terminal => if terminal then FailedTerminally else FailedExhausted
  | VDefer => Deferred
  | VYield => Yielded
  | VRelease _ => Released
  | VRequeue => Requeued
  end.

Lemma settle_ends newID token now outcome r job e v (t : jobTable) row s :
  invalidLease job = false -> j_Target job <> EmptyString -> 0 < rn_Interval r ->
  t !! j_ID job = Some row -> holds isRunning job row = true -> (forall id row, t !! id = Some row -> rowOK row) ->
  queuePendingSelection (j_Target job) t = None -> r_attempts row = j_Attempts job -> qs_table s = t ->
  let out := exec newID token now outcome (settle r job e v) s in
  out.1.2 = Some (eventOf v) /\ exists row', qs_table out.2 !! j_ID job = Some row' /\ r_target row' = r_target row /\ endsAs r job now e v row' out.1.1.
Proof.
  intros Hv Hne Hi Hl Hh HO Ha Hat Ht.
  destruct v as [|reason|terminal| | |]; cbn [settle].
  - destruct (exec_status newID token now outcome job Hv t row Hl Hh StatusDone EmptyString s (or_introl eq_refl) Ht) as (s' & E & Hl').
    rewrite (exec_settlement newID token now outcome _ (fun _ => None) _ _ _ _ E). cbn [fst snd].
    split; [reflexivity|]. eexists. split; [exact Hl'|]. repeat split.
  - destruct (exec_return newID token now outcome job Hv t row Hl Hh HO Ha (mkReturnVars job reason 0 false None) s eq_refl eq_refl Ht)
      as (s' & row' & E & Hl' & H1 & H2 & H3 & H4 & H5).
    rewrite (exec_settlement newID token now outcome _ (fun _ => None) _ _ _ _ E). cbn [fst snd].
    split; [reflexivity|]. exists row'. repeat split; auto. rewrite H4. unfold rv_attempts, btoi. cbn. lia.
  - unfold failing. destruct (IsSuccessorRetry e).
    + destruct (exec_fail newID token now outcome job Hv t row Hl Hh Ha (durableText e) s Ht) as (s' & row' & E & Hl' & H1 & H2 & H3).
      rewrite (exec_settlement newID token now outcome _ (fun _ => None) _ _ _ _ E). cbn [fst snd].
      split; [reflexivity|]. exists row'. repeat split; auto.
    + destruct (exec_status newID token now outcome job Hv t row Hl Hh StatusFailed (durableText e) s (or_intror eq_refl) Ht) as (s' & E & Hl').
      rewrite (exec_settlement newID token now outcome _ (fun _ => None) _ _ _ _ E). cbn [fst snd].
      split; [reflexivity|]. eexists. split; [exact Hl'|]. repeat split.
  - destruct (exec_defer newID token now outcome job Hv t row Hl Hh HO Ha (durableText e) (rn_Interval r) s Hne Hi Ht)
      as (s' & row' & E & Hl' & H1 & H2 & H3 & H4 & H5).
    rewrite (exec_settlement newID token now outcome _ (from_option (fun until => until) None) _ _ _ _ E). cbn [fst snd].
    split; [reflexivity|]. exists row'. repeat split; auto. congruence.
  - destruct (exec_return newID token now outcome job Hv t row Hl Hh HO Ha (mkReturnVars job (durableText e) 0 false None) s eq_refl eq_refl Ht)
      as (s' & row' & E & Hl' & H1 & H2 & H3 & H4 & H5).
    rewrite (exec_settlement newID token now outcome _ (fun _ => None) _ _ _ _ E). cbn [fst snd].
    split; [reflexivity|]. exists row'. repeat split; auto. rewrite H4. unfold rv_attempts, btoi. cbn. lia.
  - destruct (exec_return newID token now outcome job Hv t row Hl Hh HO Ha
        (mkReturnVars job (durableText e) (now + backoff r e (j_Attempts job + 1)) true None) s eq_refl eq_refl Ht)
      as (s' & row' & E & Hl' & H1 & H2 & H3 & H4 & H5).
    assert (E' : exec newID token now outcome (let! now := ask ANow in RequeueJob job (durableText e) (now + backoff r e (j_Attempts job + 1))) s = (Ok tt, s'))
      by exact E.
    rewrite (exec_settlement newID token now outcome _ (fun _ => None) _ _ _ _ E'). cbn [fst snd].
    split; [reflexivity|]. exists row'. repeat split; auto.
Qed.

(** *** The rules, as the runner's comments and its switch state them *)

(** What an execution concludes from the handler's error and the heartbeat's:
    the handler's own, unless the heartbeat failed while the handler returned
    no error or that of its canceled context; after a lost lease, nothing. *)
Inductive concludes (handler heartbeat : error) : error -> Prop :=
  | concludes_unbeaten : heartbeat = None -> concludes handler heartbeat handler
  | concludes_handler h e :
      heartbeat = Some h -> errorsIs heartbeat ErrLeaseLost = false -> handler = Some e ->
      errorsIs handler "context canceled" = false -> concludes handler heartbeat handler
  | concludes_heartbeat h :
      heartbeat = Some h -> errorsIs heartbeat ErrLeaseLost = false ->
      handler = None \/ errorsIs handler "context canceled" = true ->
      concludes handler heartbeat (WithSuccessorRetry (Some (Wrap (NText ("heartbeat: " +:+ default EmptyString (Error h))) [h]))).

(** The delay before attempt [n] after an error of a class: that of the
    runner's own function, or its base doubled [n] times, at most an hour. *)
Definition classBase (class : ErrClass) : Z :=
  match class with
  | ClassAuth => 600 * 10 ^ 9
  | ClassOOM => 300 * 10 ^ 9
  | ClassCorrupt => 1 * 10 ^ 9
  | ClassExtract => 120 * 10 ^ 9
  | ClassGeneric => 30 * 10 ^ 9
  end.
Definition waits (r : Runner) (e : err) (n delay : Z) : Prop :=
  match rn_Backoff r with
  | Some f => forall d, f (Some e) n = Some d -> delay = d
  | None => 0 <= n <= 23 -> delay = Z.min (3600 * 10 ^ 9) (classBase (Classify (Some e)) * 2 ^ n)
  end.

(** How a row ends, what is reported of it, and the gate of a deferral. *)
Definition saysWhy (e : err) (row : jobRow) : Prop := forall why, DurableErrorText (Some e) = Some why -> r_error row = why.
Definition unmarked (e : err) : Prop := IsTerminal (Some e) = false /\ IsDeferral (Some e) = false /\ IsYield (Some e) = false.
Definition pendingRow (row : jobRow) (attempts : Z) (gate : option Z) : Prop :=
  r_status row = StatusPending /\ r_attempts row = attempts /\ r_notBefore row = gate.

Inductive ending (r : Runner) (job : Job) (now : Z) (row : jobRow) : error -> settled -> option Z -> Prop :=
  | ending_done : r_status row = StatusDone -> r_error row = EmptyString -> ending r job now row None Completed None
  | ending_terminal e :
      IsTerminal (Some e) = true -> r_status row = StatusFailed -> saysWhy e row -> ending r job now row (Some e) FailedTerminally None
  | ending_deferred e :
      IsTerminal (Some e) = false -> IsDeferral (Some e) = true -> pendingRow row (j_Attempts job) (Some (now + rn_Interval r)) -> saysWhy e row ->
      ending r job now row (Some e) Deferred (Some (now + rn_Interval r))
  | ending_yielded e :
      IsTerminal (Some e) = false -> IsDeferral (Some e) = false -> IsYield (Some e) = true -> pendingRow row (j_Attempts job) None -> saysWhy e row ->
      ending r job now row (Some e) Yielded None
  | ending_exhausted e :
      unmarked e -> rn_MaxAttempts r <= j_Attempts job + 1 -> r_status row = StatusFailed -> saysWhy e row ->
      ending r job now row (Some e) FailedExhausted None
  | ending_requeued e delay :
      unmarked e -> j_Attempts job + 1 < rn_MaxAttempts r -> waits r e (j_Attempts job + 1) delay ->
      pendingRow row (j_Attempts job + 1) (Some (now + delay)) -> saysWhy e row ->
      ending r job now row (Some e) Requeued None.

(** The model follows the rules. *)
Lemma handled_concludes handler heartbeat :
  match handled handler heartbeat with
  | None => errorsIs heartbeat ErrLeaseLost = true
  | Some e => concludes handler heartbeat e
  end.
Proof.
  unfold handled. destruct heartbeat as [h|]; [|by constructor]. destruct (errorsIs (Some h) ErrLeaseLost) eqn:El; [done|].
  destruct handler as [e|]; cbn [is_nil orb]; [|by apply concludes_heartbeat; auto].
  destruct (errorsIs (Some e) Canceled) eqn:Ec; [apply concludes_heartbeat; auto|by apply (concludes_handler _ _ h e)].
Qed.

Lemma backoff_waits r e n : waits r e n (backoff r (Some e) n).
Proof.
  unfold waits, backoff. destruct (rn_Backoff r) as [f|]; [by intros d ->|]. intros Hn.
  destruct (backoff_exact (Some e) n Hn) as (d & -> & -> & _). cbn. destruct (Classify (Some e)); reflexivity.
Qed.

Lemma durable_saysWhy e row : r_error row = durableText (Some e) -> saysWhy e row.
Proof. unfold saysWhy, durableText. by intros -> why ->. Qed.

Lemma judged_ending r job now e row until :
  endsAs r job now e (judge r job None e) row until -> ending r job now row e (eventOf (judge r job None e)) until.
Proof.
  unfold judge. destruct e as [e|]; [|by intros (H1 & H2 & ->); constructor].
  destruct (IsTerminal (Some e)) eqn:Et; [intros (H1 & H2 & ->); constructor; auto using durable_saysWhy|].
  destruct (IsDeferral (Some e)) eqn:Ed; [intros (H1 & H2 & H3 & H4 & ->); constructor; auto using durable_saysWhy; by repeat split|].
  destruct (IsYield (Some e)) eqn:Ey; [intros (H1 & H2 & H3 & H4 & ->); constructor; auto using durable_saysWhy; by repeat split|].
  destruct (Z.leb_spec (rn_MaxAttempts r) (j_Attempts job + 1)).
  - intros (H1 & H2 & ->). constructor; auto using durable_saysWhy. by repeat split.
  - intros (H1 & H2 & H3 & H4 & ->). apply (ending_requeued _ _ _ _ _ (backoff r (Some e) (j_Attempts job + 1)));
      auto using durable_saysWhy, backoff_waits; by repeat split.
Qed.

Lemma unbeaten_concludes handler e : concludes handler None e -> e = handler.
Proof. by inversion 1. Qed.

Lemma unmarked_requeued r job now row e event until :
  unmarked e -> j_Attempts job + 1 < rn_MaxAttempts r -> ending r job now row (Some e) event until ->
  exists delay, waits r e (j_Attempts job + 1) delay /\ pendingRow row (j_Attempts job + 1) (Some (now + delay)).
Proof. intros (Ht & Hd & Hy) Hm He. inversion He; subst; try congruence; [lia|eauto]. Qed.

(** C7: an undisturbed execution ends its row the way the results of the
    handler and of the heartbeat ask.  A lost lease leaves the table as the
    start wrote it and reports nothing.  Otherwise the execution concludes an
    error ([concludes]): that of the handler, or, where the handler returned
    none or that of its canceled context, that of a failed heartbeat, marked to
    keep a successor.  Without an error the row is done; a terminal error fails
    it; a deferral waits one interval and a yield not at all, neither counting
    an attempt; of the others the last attempt fails the row, and any before it
    is counted and waits the backoff of its class; in this order, with the
    durable text of the error in the row and the transition reported
    ([ending]).  A context that ends during the execution is not a case here. *)
Theorem execution_ends_as_judged newID token now outcome r job s row :
  reachable s -> job ∈ qs_issued s -> invalidLease job = false -> j_Target job <> EmptyString -> 0 < rn_Interval r ->
  qs_table s !! j_ID job = Some row -> holds isActive job row = true -> r_status row = StatusClaimed ->
  queuePendingSelection (j_Target job) (qs_table s) = None ->
  let out := exec newID token now outcome (execute r job) s in
  (errorsIs outcome.2 ErrLeaseLost = true /\ out.1 = (None, None) /\
     qs_table out.2 = <[j_ID job := row <| r_status := StatusRunning |> <| r_error := EmptyString |>]> (qs_table s)) \/
  (exists e event until row', concludes outcome.1 outcome.2 e /\ out.1 = (until, Some event) /\
     qs_table out.2 !! j_ID job = Some row' /\ r_target row' = r_target row /\ ending r job now row' e event until).
Proof.
  intros HI%reachable_Inv Hin Hv Hne Hi Hl Hh Hs Ha. cbn zeta.
  set (row1 := row <| r_status := StatusRunning |> <| r_error := EmptyString |>).
  assert (Hrun : run (QStart job EmptyString) (qs_table s) = Ok ([(j_ID job, row1)], <[j_ID job := row1]> (qs_table s))).
  { cbn [run]. unfold startSQL. erewrite updateWhere_runs; [reflexivity|exact Hl| |].
    - apply holds_true in Hh as (_ & H1 & H2). apply holds_true. rewrite Hs. auto.
    - cbn. destruct (inv_row s HI _ _ Hl) as [-> _ _]. rewrite Hs. reflexivity. }
  destruct (exec_updateLease newID token now outcome job Hv (fun _ => QStart job EmptyString) s row1 _ Hrun) as (s1 & E1 & Ht1).
  assert (E1' : exec newID token now outcome (SetJobStatus job StatusRunning EmptyString) s = (Ok tt, s1)) by exact E1.
  unfold execute. cbn [andThen ask JobQueueRuns.exec]. rewrite exec_andThen, (exec_persist newID token now outcome _ _ _ _ E1').
  cbn [fst snd andThen ask JobQueueRuns.exec].
  assert (HP : permitted (QStart job EmptyString) s) by (split; [intros job' [= <-]; exact Hin|exact I]).
  assert (Hal : queuePendingSelection (j_Target job) (<[j_ID job := row1]> (qs_table s)) = None).
  { destruct (queuePendingSelection _ (<[_ := _]> _)) as [id|] eqn:Es; [exfalso|reflexivity].
    apply selectOldest_Some in Es as (r2 & Hl2 & Hp2 & _). apply pendingFor_true in Hp2 as [Hk2 Hs2].
    destruct (decide (id = j_ID job)) as [->|Hne2]; [rewrite lookup_insert_eq in Hl2; injection Hl2 as <-; discriminate|].
    rewrite lookup_insert_ne in Hl2 by congruence. pose proof (selectOldest_None _ _ Ha id r2 Hl2) as Hf.
    apply not_true_iff_false in Hf. apply Hf, pendingFor_true. auto. }
  pose proof (handled_concludes outcome.1 outcome.2) as Hcon. destruct (handled outcome.1 outcome.2) as [e|]; [right|left; split_and!; [exact Hcon|reflexivity|exact Ht1]].
  assert (Hcast : exec newID token now outcome (if is_nil e then Ret None else ask AContext) s1 = (None, s1)) by (destruct e; reflexivity).
  rewrite exec_andThen, Hcast. cbn [fst snd].
  destruct (settle_ends newID token now outcome r job e (judge r job None e) (<[j_ID job := row1]> (qs_table s)) row1 s1)
    as (Hev & row' & Hl' & Htg & Hends); auto.
  - apply lookup_insert_eq.
  - apply holds_true in Hh as (_ & H1 & H2). apply holds_true. auto.
  - intros id row'. replace (<[j_ID job := row1]> (qs_table s)) with (after (QStart job EmptyString) (qs_table s)); [by apply Inv_rows|].
    unfold after. by rewrite Hrun.
  - by apply (inv_agrees s HI job Hin row Hl Hh).
  - exists e, (eventOf (judge r job None e)), (exec newID token now outcome (settle r job e (judge r job None e)) s1).1.1, row'.
    split; [exact Hcon|]. split; [rewrite <- Hev; apply surjective_pairing|]. split; [exact Hl'|]. split; [exact Htg|]. by apply judged_ending.
Qed.

(** ** Witnesses *)
#[local] Definition runner1 : Runner := mkRunner "w1" (15 * Second) (5 * Second) (20 * Second) 3 None.
#[local] Definition claimed_qs : list query := [QEnqueue "repo" true None "j1" 5; QClaim "j1" "w1" "L1" 10].
#[local] Definition forced1 : Job := mkJob "j1" "repo" StatusClaimed 0 None "w1" (Some 10) true "L1".
#[local] Definition outOfMemory : error * error := (Some (WithClass ClassOOM (Some (text "killed"))), None).

#[local] Lemma claimed_reachable : reachable (stateOf claimed_qs).
Proof. exists claimed_qs. apply askAll_sound. vm_compute. reflexivity. Defined.
#[local] Lemma forced1_issued : forced1 ∈ qs_issued (stateOf claimed_qs).
Proof. apply (bool_decide_eq_true_1 _). vm_compute. reflexivity. Defined.

Lemma executed_job_is_settled_witness :
  exists s', runs (execute runner1 forced1) (stateOf claimed_qs) (None, Some Requeued) s' /\ ~ held forced1 s'.
Proof.
  pose proof (exec_runs "j9" "L9" 50 outOfMemory (execute runner1 forced1) (stateOf claimed_qs) ltac:(vm_compute; reflexivity)) as Hr.
  assert (Ho : (exec "j9" "L9" 50 outOfMemory (execute runner1 forced1) (stateOf claimed_qs)).1 = (None, Some Requeued)) by (vm_compute; reflexivity).
  rewrite Ho in Hr. eexists. split; [exact Hr|].
  apply (executed_job_is_settled runner1 forced1 (stateOf claimed_qs) None Requeued _ claimed_reachable forced1_issued eq_refl); [discriminate|reflexivity|exact Hr].
Defined.

Lemma retries_are_bounded_witness :
  issues (spends 3) (execute runner1 forced1).
Proof. apply (proj1 (retries_are_bounded 3 ltac:(lia))). reflexivity. Defined.

(** A handler killed for its memory, and one whose heartbeat failed as it
    returned: both wait the backoff of their class. *)
Lemma execution_ends_as_judged_witness :
  (exists row, qs_table (exec "j9" "L9" 50 outOfMemory (execute runner1 forced1) (stateOf claimed_qs)).2 !! "j1" = Some row /\
     r_status row = StatusPending /\ r_attempts row = 1 /\ r_notBefore row = Some (50 + 600 * 10 ^ 9)) /\
  concludes None (Some (text "refused")) (Some (Wrap NSuccessorRetry [Wrap (NText "heartbeat: refused") [text "refused"]])).
Proof.
  split; [|apply (concludes_heartbeat _ _ (text "refused")); auto].
  destruct (execution_ends_as_judged "j9" "L9" 50 outOfMemory runner1 forced1 (stateOf claimed_qs) _ claimed_reachable forced1_issued
    eq_refl ltac:(discriminate) ltac:(reflexivity) ltac:(vm_compute; reflexivity) eq_refl eq_refl ltac:(vm_compute; reflexivity))
    as [[Hlost _]|(e & event & until & row & Hc & _ & Hl & _ & He)]; [discriminate|].
  exists row. split; [exact Hl|]. apply unbeaten_concludes in Hc as ->.
  apply unmarked_requeued in He as (delay & Hw & H1 & H2 & H3); [|by repeat split|reflexivity].
  split_and!; [exact H1|exact H2|]. rewrite H3, Hw by (cbn; lia). reflexivity.
Defined.

(** The start is the one write whose retry cannot tell its own commit from a
    lost lease: when its reply is lost the second try finds the row running,
    the execution ends as if the lease were gone, and the row stays leased
    until the reaper counts an attempt. *)
Example lost_start_reply_abandons_job :
  exists s', runs (persist (SetJobStatus forced1 StatusRunning EmptyString)) (stateOf claimed_qs) None s' /\ held forced1 s'.
Proof.
  set (s1 := asked (QStart forced1 EmptyString) (stateOf claimed_qs)).
  exists (asked (QStart forced1 EmptyString) s1). split; [|vm_compute; reflexivity].
  exists [], (stateOf claimed_qs), (Err (text "connection reset")), s1. split; [constructor|]. split.
  { right. exists "unused", 20. do 2 eexists. split; [apply permittedb_sound; vm_compute; reflexivity|].
    split; [vm_compute; reflexivity|]. split; [reflexivity|]. right. exists (text "connection reset"). split; reflexivity. }
  exists [], s1, false, s1. split; [constructor|]. split; [reflexivity|].
  exists [], s1, (Ok []), (asked (QStart forced1 EmptyString) s1). split; [constructor|]. split.
  { right. exists "unused", 20, []. eexists. split; [apply permittedb_sound; vm_compute; reflexivity|].
    split; [vm_compute; reflexivity|]. split; [reflexivity|]. left. reflexivity. }
  split; [reflexivity|]. exists []. constructor.
Qed.
