(* ===== verification/RunnerHeartbeat.v ===== *)
(** * The heartbeat of a running job

    Model of the heartbeat goroutine of [Runner.execute]: the ticker, the
    beats with their timeout, the lower bound on the durable heartbeat and the
    rule that stops the handler.  Times are nanoseconds on one clock; the
    goroutine is scheduled at once and a beat ends within its timeout.  The
    end of the handler and the cancellation of its context, which end the
    goroutine without an error, are the end of the list of beats. *)
From S2P Require Import Prelude JobErrors StoreErrors JobQueue JobQueueOps JobRunner.

(** [time.NewTicker(p)] at [t0]: after tick [k] was taken, a receive at [e]
    takes a tick that is waiting, or waits for the next; ticks a slow receiver
    misses are dropped. *)
Definition receive (t0 p k e : Z) : Z * Z :=
  let j := (e - t0) / p in
  if k <? j then (e, j) else (t0 + (k + 1) * p, k + 1).

(** How long a beat's store call takes, and its error. *)
Record beat := mkBeat { bt_duration : Z; bt_error : error }.

Record heartbeat := mkHeartbeat {
  hb_lastConfirmed : Z;
  hb_tick : Z;
  (** when the goroutine waits for its next tick *)
  hb_idle : Z
}.

Definition startHeartbeat (job : Job) (t0 : Z) : heartbeat :=
  mkHeartbeat (match j_HeartbeatAt job with Some at_ => if at_ <? t0 then at_ else t0 | None => t0 end) 0 t0.

(** One beat: the next state, or the time and error that stop the handler. *)
Definition beatOnce (r : Runner) (t0 : Z) (b : beat) (h : heartbeat) : heartbeat + (Z * err) :=
  let '(beatStarted, tick) := receive t0 (rn_HeartbeatEvery r) (hb_tick h) (hb_idle h) in
  let ended := beatStarted + bt_duration b in
  match bt_error b with
  | None => inl (mkHeartbeat beatStarted tick ended)
  | Some e =>
      if errorsIs (Some e) ErrLeaseLost || (rn_StaleAfter r <=? ended - hb_lastConfirmed h + rn_HeartbeatEvery r)
      then inr (ended, e)
      else inl (mkHeartbeat (hb_lastConfirmed h) tick ended)
  end.

(** The state after the beats, or the heartbeat the handler was stopped on. *)
Fixpoint beats (r : Runner) (t0 : Z) (l : list beat) (h : heartbeat) : heartbeat * option (Z * err) :=
  match l with
  | [] => (h, None)
  | b :: l' => match beatOnce r t0 b h with
               | inl h' => beats r t0 l' h'
               | inr stop => (h, Some stop)
               end
  end.

(** The reaper's cutoff is [StaleAfter] before its own clock. *)
Definition reapable (r : Runner) (heartbeatAt now : Z) : bool := heartbeatAt <? now - rn_StaleAfter r.

Section Heartbeat.
Context (r : Runner) (t0 : Z).
Abbreviation P := (rn_HeartbeatEvery r).
Hypothesis HP : 0 < P.
Definition timely (b : beat) : Prop := 0 <= bt_duration b <= P.

(** The goroutine is never ahead of its ticker. *)
Definition ticking (h : heartbeat) : Prop := t0 + hb_tick h * P <= hb_idle h /\ hb_lastConfirmed h <= hb_idle h.

Lemma receive_soon h : ticking h ->
  let '(s, k) := receive t0 P (hb_tick h) (hb_idle h) in hb_idle h <= s <= hb_idle h + P /\ t0 + k * P <= s.
Proof.
  intros [Ht _]. unfold receive. pose proof (Z.div_mod (hb_idle h - t0) P ltac:(lia)) as Hd.
  pose proof (Z.mod_pos_bound (hb_idle h - t0) P HP) as Hm.
  destruct (hb_tick h <? (hb_idle h - t0) / P) eqn:E; bsplit; nia.
Qed.

Lemma beatOnce_ticking b h h' : timely b -> ticking h -> beatOnce r t0 b h = inl h' -> ticking h'.
Proof.
  intros [Hb1 Hb2] Ht H. pose proof (receive_soon h Ht) as Hr. unfold beatOnce in H. destruct Ht as [_ Hl].
  destruct (receive _ _ _ _) as [s k]. destruct (bt_error b) as [e|]; [destruct (_ || _); [discriminate|]|];
    injection H as <-; unfold ticking; cbn; lia.
Qed.

(** How far the handler may be from its last confirmed beat. *)
Definition fresh (h : heartbeat) : Prop := hb_idle h - hb_lastConfirmed h < Z.max (rn_StaleAfter r - P) (P + 1).

Lemma beatOnce_fresh b h h' : timely b -> beatOnce r t0 b h = inl h' -> fresh h'.
Proof.
  intros [Hb1 Hb2] H. unfold beatOnce in H. destruct (receive _ _ _ _) as [s k].
  destruct (bt_error b) as [e|]; [destruct (_ || _) eqn:E; [discriminate|]|]; injection H as <-; unfold fresh; cbn; [|lia].
  bsplit. lia.
Qed.

Lemma beatOnce_stops b h stop e : timely b -> ticking h -> fresh h ->
  beatOnce r t0 b h = inr (stop, e) -> stop - hb_lastConfirmed h < Z.max (rn_StaleAfter r - P) (P + 1) + 2 * P.
Proof.
  intros [Hb1 Hb2] Ht Hf H. pose proof (receive_soon h Ht) as Hr. unfold beatOnce in H. unfold fresh in Hf.
  destruct (receive _ _ _ _) as [s k]. destruct (bt_error b) as [e'|]; [|discriminate].
  destruct (_ || _); [|discriminate]. injection H as <- <-. lia.
Qed.

Lemma beats_stop l h h' stop e : Forall timely l -> ticking h -> fresh h ->
  beats r t0 l h = (h', Some (stop, e)) -> stop - hb_lastConfirmed h' < Z.max (rn_StaleAfter r - P) (P + 1) + 2 * P.
Proof.
  revert h. induction l as [|b l IH]; intros h Hl Ht Hf H; [discriminate|]. apply Forall_cons in Hl as [Hb Hl].
  cbn [beats] in H. destruct (beatOnce r t0 b h) as [h2|[stop2 e2]] eqn:E.
  - apply (IH h2); [exact Hl|by eapply beatOnce_ticking|by eapply beatOnce_fresh|exact H].
  - injection H as <- <- <-. by eapply beatOnce_stops.
Qed.

(** Without a successful beat every beat ends at least a period later, up to
    the first. *)
Lemma beats_fail l h : Forall (fun b => timely b /\ bt_error b <> None) l -> ticking h ->
  (beats r t0 l h).2 = None ->
  hb_lastConfirmed (beats r t0 l h).1 = hb_lastConfirmed h /\ hb_tick h + Z.of_nat (length l) <= hb_tick (beats r t0 l h).1 /\
  ticking (beats r t0 l h).1.
Proof.
  revert h. induction l as [|b l IH]; intros h Hl Ht H; [cbn; split; [reflexivity|split; [lia|exact Ht]]|].
  apply Forall_cons in Hl as [[Hb He] Hl]. cbn [beats] in *. destruct (beatOnce r t0 b h) as [h2|] eqn:E; [|discriminate].
  pose proof (beatOnce_ticking b h h2 Hb Ht E) as Ht2. destruct (IH h2 Hl Ht2 H) as (H1 & H2 & H3).
  unfold beatOnce in E. destruct (receive _ _ _ _) as [s k] eqn:Er. destruct (bt_error b) as [e|]; [|done].
  destruct (_ || _); [discriminate|]. injection E as <-. cbn in H1, H2. split; [exact H1|]. split; [|exact H3].
  unfold receive in Er. destruct (_ <? _) eqn:El in Er; injection Er as <- <-; bsplit; rewrite length_cons; lia.
Qed.
End Heartbeat.

Lemma start_ticking r job t0 : ticking r t0 (startHeartbeat job t0).
Proof. unfold ticking, startHeartbeat. cbn. destruct (j_HeartbeatAt job) as [a|]; [destruct (a <? t0) eqn:E; bsplit|]; lia. Qed.

Section Stopping.
Context (r : Runner) (t0 : Z).
Abbreviation P := (rn_HeartbeatEvery r).
Hypothesis HP : 0 < P.

(** The last confirmed beat started no later than a period after its tick. *)
Definition confirmedBy (h : heartbeat) : Prop := hb_lastConfirmed h < t0 + (hb_tick h + 1) * P.

Lemma beatOnce_confirmed b h h' : ticking r t0 h -> confirmedBy h -> beatOnce r t0 b h = inl h' -> confirmedBy h'.
Proof.
  intros [Ht _] Hc H. unfold beatOnce in H. unfold confirmedBy in *. destruct (receive t0 P (hb_tick h) (hb_idle h)) as [s k] eqn:Er.
  assert (Hk : hb_tick h + 1 <= k /\ s < t0 + (k + 1) * P).
  { unfold receive in Er. pose proof (Z.div_mod (hb_idle h - t0) P ltac:(lia)). pose proof (Z.mod_pos_bound (hb_idle h - t0) P HP).
    destruct (_ <? _) eqn:El; injection Er as <- <-; bsplit; nia. }
  destruct (bt_error b) as [e|]; [destruct (_ || _); [discriminate|]|]; injection H as <-; cbn; nia.
Qed.

(** What holds of a heartbeat as long as the handler runs. *)
Record running (h : heartbeat) : Prop := {
  ru_ticking : ticking r t0 h;
  ru_fresh : fresh r h;
  ru_confirmed : confirmedBy h
}.

Lemma beats_running l h h' : Forall (timely r) l -> running h -> beats r t0 l h = (h', None) -> running h'.
Proof.
  revert h. induction l as [|b l IH]; intros h Hl Hr H; [by injection H as <-|]. apply Forall_cons in Hl as [Hb Hl]. cbn [beats] in H.
  destruct Hr as [Ht Hf Hc]. destruct (beatOnce r t0 b h) as [h2|] eqn:E; [|discriminate]. apply (IH h2 Hl); [|exact H].
  constructor; [by eapply beatOnce_ticking|by eapply beatOnce_fresh|by eapply beatOnce_confirmed].
Qed.

Lemma beats_app l1 l2 h :
  beats r t0 (l1 ++ l2) h = match beats r t0 l1 h with (h1, None) => beats r t0 l2 h1 | stopped => stopped end.
Proof. revert h. induction l1 as [|b l1 IH]; intros h; cbn [beats app]; [done|]. by destruct (beatOnce r t0 b h). Qed.

(** Beats that fail for a stale cutoff do not leave the handler running. *)
Lemma beats_give_up l h h' :
  2 * P < rn_StaleAfter r -> running h -> Forall (fun b => timely r b /\ bt_error b <> None) l -> beats r t0 l h = (h', None) ->
  Z.of_nat (length l) * P < rn_StaleAfter r.
Proof.
  intros Hs Hr Hl H. assert (Hr' : running h').
  { eapply beats_running; [|exact Hr|exact H]. eapply Forall_impl; [exact Hl|]. by intros b [? _]. }
  destruct Hr as [Ht _ Hc], Hr' as [_ Hf _].
  destruct (beats_fail r t0 HP l h Hl Ht ltac:(by rewrite H)) as (H1 & H2 & [H3 _]). rewrite H in H1, H2, H3. cbn [fst] in *.
  unfold fresh, confirmedBy in *. rewrite H1 in Hf. nia.
Qed.
End Stopping.

(** C8: an unreachable store stops the handler in time.  Assume that each beat
    ends within its timeout (one period), that the stale cutoff is more than
    two periods, and that when the ticker starts the lease was confirmed less
    than [StaleAfter] less a period ago.  While the handler runs, the last
    confirmed beat is less than [StaleAfter] less a period ago at the end of
    each beat.  When the heartbeat stops the handler, that is
    less than a stale cutoff and a period after the last confirmed beat, so
    less than a period after the reaper could first take the row.  And it does
    stop it: whatever came before, beats that fail for a stale cutoff (as many
    as take [StaleAfter] at one a period) do not leave the handler running. *)
Theorem failing_heartbeat_stops_handler r job t0 l :
  0 < rn_HeartbeatEvery r -> 2 * rn_HeartbeatEvery r < rn_StaleAfter r ->
  t0 - hb_lastConfirmed (startHeartbeat job t0) < rn_StaleAfter r - rn_HeartbeatEvery r -> Forall (timely r) l ->
  let '(h, stopped) := beats r t0 l (startHeartbeat job t0) in
  match stopped with
  | None =>
      hb_idle h < hb_lastConfirmed h + rn_StaleAfter r - rn_HeartbeatEvery r /\
      forall before failing, l = before ++ failing -> Forall (fun b => bt_error b <> None) failing ->
        Z.of_nat (length failing) * rn_HeartbeatEvery r < rn_StaleAfter r
  | Some (stop, _) =>
      stop < hb_lastConfirmed h + rn_StaleAfter r + rn_HeartbeatEvery r /\
      forall now, reapable r (hb_lastConfirmed h) now = true -> stop - rn_HeartbeatEvery r < now
  end.
Proof.
  intros HP Hs Hf Hl. pose proof (start_ticking r job t0) as Ht.
  assert (Hru : running r t0 (startHeartbeat job t0)).
  { constructor; [exact Ht|unfold fresh; cbn [hb_idle startHeartbeat] in *; lia|]. destruct Ht as [_ Ht]. unfold confirmedBy. cbn in *. lia. }
  destruct (beats r t0 l (startHeartbeat job t0)) as [h [[stop e]|]] eqn:E.
  - pose proof (beats_stop r t0 HP l _ h stop e Hl Ht (ru_fresh _ _ _ Hru) E) as Hb. split; [lia|].
    intros now Hr. unfold reapable in Hr. bsplit. lia.
  - split; [pose proof (ru_fresh _ _ _ (beats_running r t0 HP l _ h Hl Hru E)) as H; unfold fresh in H; lia|].
    intros before failing -> Hfail. apply Forall_app in Hl as [Hl1 Hl2]. rewrite beats_app in E.
    destruct (beats r t0 before _) as [h1 [|]] eqn:E1; [discriminate|].
    eapply (beats_give_up r t0 HP); [exact Hs|exact (beats_running r t0 HP before _ h1 Hl1 Hru E1)|apply Forall_and; auto|exact E].
Qed.

(** With the default intervals, a store that refuses every beat stops the
    handler at the third. *)
Lemma failing_heartbeat_stops_handler_witness :
  let r := mkRunner "w" (15 * Second) (5 * Second) (20 * Second) 3 None in
  let down := mkBeat 0 (Some (text "connection refused")) in
  exists stop e, (beats r 0 [down; down; down; down] (startHeartbeat (mkJob "j" "t" StatusRunning 0 None "w" None false "L") 0)).2 = Some (stop, e) /\
    stop = 15 * Second /\ stop < 25 * Second.
Proof.
  cbn zeta. do 2 eexists. split; [vm_compute; reflexivity|]. split; [reflexivity|].
  exact (proj1 (failing_heartbeat_stops_handler (mkRunner "w" (15 * Second) (5 * Second) (20 * Second) 3 None)
    (mkJob "j" "t" StatusRunning 0 None "w" None false "L") 0 (repeat (mkBeat 0 (Some (text "connection refused"))) 4)
    ltac:(reflexivity) ltac:(reflexivity) ltac:(vm_compute; reflexivity)
    ltac:(repeat (apply Forall_cons; split; [unfold timely; cbn; unfold Second; lia|]); apply Forall_nil; exact I))).
Defined.

(** The one-beat margin does not keep a running handler inside the
    reaper's cutoff: with the default intervals, a second between the claim
    and the ticker, two refused beats and one that blocks for its timeout, the
    row is stale while the handler still runs. *)
Theorem handler_outlives_stale_cutoff :
  exists job t0 l h stop e now,
    let r := defaults "host-1" (mkRunner "" 0 0 0 0 None) in
    rn_StaleAfter r = 4 * rn_HeartbeatEvery r /\ Forall (timely r) l /\ j_HeartbeatAt job = Some (t0 - Second) /\
    beats r t0 l (startHeartbeat job t0) = (h, Some (stop, e)) /\ now < stop /\ reapable r (hb_lastConfirmed h) now = true.
Proof.
  exists (mkJob "j" "t" StatusRunning 0 None "host-1" (Some 0) false "L"), Second,
    [mkBeat 0 (Some (text "refused")); mkBeat 0 (Some (text "refused")); mkBeat (5 * Second) (Some (text "timeout"))].
  do 3 eexists. exists (20 * Second + 1). cbn zeta. split; [reflexivity|]. split.
  { repeat (apply Forall_cons; split; [unfold timely; cbn; unfold Second; lia|]). by apply Forall_nil. }
  split; [reflexivity|]. split; [vm_compute; reflexivity|]. split; reflexivity.
Qed.
