(* ===== verification/GenerationSpec.v ===== *)
(** * Generation schedules: specifications

    The part of [internal/store/generation_schedule.go] that computes: the
    specification of a schedule and its bounds, the digests that name schedules,
    chunks and their scopes, the pages of chunks a schedule fans out to, and the
    validator of a schedule row.  SHA-256 is the function of the class [Hash];
    that it has no collisions on the inputs of a statement is the class
    [CollisionFree], which only the theorems about identities assume. *)
From stdpp Require Import pretty.
From Stdlib Require Import Ascii String.
From S2P Require Import Prelude.
From S2P Require Import GoStrings Positions GoText.

(** The lower-case hexadecimal SHA-256 of a byte string. *)
Class Hash := sha256hex : string -> string.
Class CollisionFree `{Hash} : Prop := sha256hex_inj : forall a b, sha256hex a = sha256hex b -> a = b.

(** ** Constants *)
Definition GenerationScheduleSchema : string := "phebs-generation-schedule-v1".
Definition MaxGenerationStageBytes : nat := 64.
Definition MaxGenerationItems : Z := 80000000.
Definition MaxGenerationChunkItems : Z := 4096.
Definition MaxGenerationChunks : Z := 1000000.
Definition MaxGenerationFanoutPage : Z := 64.
Definition MaxGenerationActiveStagesPerRepository : Z := 8.
Definition MaxGenerationAttempts : Z := 8.
Definition MaxGenerationRepositoryTokens : Z := 8.
Definition MaxGenerationErrorBytes : nat := 2048.
Definition MaxJobHistoryTargetCharacters : nat := 1024.

Definition GenerationResourceCPU : string := "cpu".
Definition GenerationResourceIO : string := "io".
Definition GenerationResourceMemory : string := "memory".
Definition GenerationResourceExtraction : string := "extraction".
Definition GenerationResourceTypedIndex : string := "typed-index".
Definition TypedIndexScheduleStage : string := "typed-index".

(** ** Strings *)
Definition validGenerationToken (value : string) : bool :=
  all (fun c => inRange "a" "z" c || inRange "0" "9" c || Ascii.eqb c "-") value.

(** [validSHA256] of [child.go]: sixty-four characters [hex.DecodeString]
    takes, after the prefix. *)
Definition validSHA256 (value : string) : bool :=
  Nat.eqb (String.length value) 71 && String.prefix "sha256:" value && all hexDigit (String.substring 7 64 value).

(** ** Specifications *)
Record GenerationScheduleSpec := mkSpec {
  sp_Repository : string;
  sp_Stage : string;
  sp_Generation : string;
  sp_ResourceClass : string;
  sp_TotalItems : Z;
  sp_ChunkItems : Z;
  sp_MaxAttempts : Z;
  sp_RepositoryTokens : Z
}.
#[export] Instance GenerationScheduleSpec_eq_dec : EqDecision GenerationScheduleSpec.
Proof. solve_decision. Defined.

Definition validGenerationResourceClass (class : string) : bool :=
  String.eqb class GenerationResourceCPU || String.eqb class GenerationResourceIO || String.eqb class GenerationResourceMemory
  || String.eqb class GenerationResourceExtraction || String.eqb class GenerationResourceTypedIndex.

(** [(total + chunk - 1) / chunk]. *)
Definition chunksOf (total chunk : Z) : Z := (total + chunk - 1) / chunk.

Definition normalizeGenerationScheduleSpec (spec : GenerationScheduleSpec) : res string GenerationScheduleSpec :=
  if negb (trimmed (sp_Repository spec)) || String.eqb (sp_Repository spec) ""
     || Nat.ltb MaxJobHistoryTargetCharacters (String.length (sp_Repository spec)) || negb (utf8Valid (sp_Repository spec))
  then Err "generation schedule repository is invalid" else
  if negb (trimmed (sp_Stage spec)) || String.eqb (sp_Stage spec) ""
     || Nat.ltb MaxGenerationStageBytes (String.length (sp_Stage spec)) || negb (validGenerationToken (sp_Stage spec))
  then Err "generation schedule stage is invalid" else
  if negb (validSHA256 (sp_Generation spec)) then Err "generation schedule identity is invalid" else
  if negb (validGenerationResourceClass (sp_ResourceClass spec)) then Err "generation schedule resource class is invalid" else
  if (sp_TotalItems spec <? 1) || (MaxGenerationItems <? sp_TotalItems spec)
  then Err ("generation schedule items must be from 1 through " +:+ pretty MaxGenerationItems) else
  if (sp_ChunkItems spec <? 1) || (MaxGenerationChunkItems <? sp_ChunkItems spec)
  then Err ("generation chunk items must be from 1 through " +:+ pretty MaxGenerationChunkItems) else
  if (sp_MaxAttempts spec <? 1) || (MaxGenerationAttempts <? sp_MaxAttempts spec)
  then Err ("generation attempts must be from 1 through " +:+ pretty MaxGenerationAttempts) else
  if (sp_RepositoryTokens spec <? 1) || (MaxGenerationRepositoryTokens <? sp_RepositoryTokens spec)
  then Err ("generation repository tokens must be from 1 through " +:+ pretty MaxGenerationRepositoryTokens) else
  if (String.eqb (sp_ResourceClass spec) GenerationResourceTypedIndex
      && (negb (String.eqb (sp_Stage spec) TypedIndexScheduleStage) || negb (sp_TotalItems spec =? 1)
          || negb (sp_ChunkItems spec =? 1) || negb (sp_RepositoryTokens spec =? 1)))
     || (String.eqb (sp_Stage spec) TypedIndexScheduleStage && negb (String.eqb (sp_ResourceClass spec) GenerationResourceTypedIndex))
  then Err "typed-index schedule requires its isolated one-item class and one repository token" else
  let chunks := chunksOf (sp_TotalItems spec) (sp_ChunkItems spec) in
  if MaxGenerationChunks <? chunks
  then Err ("generation schedule has " +:+ pretty chunks +:+ " chunks, limit " +:+ pretty MaxGenerationChunks)
  else Ok spec.

(** ** Identities *)
Section Identities.
Context `{Hash}.

Definition generationSchedulerDigest (domain value : string) : string := "sha256:" +:+ sha256hex (domain +:+ NUL +:+ value).

Definition generationScheduleDigest (spec : GenerationScheduleSpec) : string :=
  generationSchedulerDigest "phebs-generation-schedule-v1"
    (Join (sp_Repository spec)
       [sp_Stage spec; sp_Generation spec; sp_ResourceClass spec; pretty (sp_TotalItems spec); pretty (sp_ChunkItems spec);
        pretty (sp_MaxAttempts spec); pretty (sp_RepositoryTokens spec)] NUL).
Definition GenerationScheduleDigest (spec : GenerationScheduleSpec) : res string string :=
  match normalizeGenerationScheduleSpec spec with Err e => Err e | Ok normalized => Ok (generationScheduleDigest normalized) end.

Definition generationCurrentID (repository stage : string) : string :=
  generationSchedulerDigest "phebs-generation-schedule-current-v1" (repository +:+ NUL +:+ stage).
Definition generationRepositoryID (repository : string) : string :=
  generationSchedulerDigest "phebs-generation-repository-token-v1" repository.
Definition generationChunkID (schedule : string) (offset attempt : Z) : string :=
  generationSchedulerDigest "phebs-generation-chunk-v1" (schedule +:+ NUL +:+ pretty offset +:+ NUL +:+ pretty attempt).
Definition GenerationChunkIdentity (schedule : string) (offset attempt : Z) : res string string :=
  if negb (validSHA256 schedule) || (offset <? 0) || (MaxGenerationItems <=? offset) || (attempt <? 0) || (MaxGenerationAttempts <=? attempt)
  then Err "generation chunk identity input is invalid" else Ok (generationChunkID schedule offset attempt).
End Identities.

(** ** Schedules *)
Inductive GenerationScheduleStatus := ScheduleActive | ScheduleSuperseded | ScheduleSettled.
#[export] Instance GenerationScheduleStatus_eq_dec : EqDecision GenerationScheduleStatus.
Proof. solve_decision. Defined.

(** The row and the Go value; the fields of its specification are together. *)
Record GenerationSchedule := mkSchedule {
  s_Schema : string;
  s_Digest : string;
  s_spec : GenerationScheduleSpec;
  s_TotalChunks : Z;
  s_NextOffset : Z;
  s_Materialized : Z;
  s_Pending : Z;
  s_Running : Z;
  s_Succeeded : Z;
  s_Failed : Z;
  s_Status : GenerationScheduleStatus;
  s_CreatedAt : Z;
  s_UpdatedAt : Z;
  s_LastClaimedAt : option Z
}.
#[export] Instance eta_GenerationSchedule : Eta GenerationSchedule := fun s =>
  mkSchedule (s_Schema s) (s_Digest s) (s_spec s) (s_TotalChunks s) (s_NextOffset s) (s_Materialized s) (s_Pending s)
    (s_Running s) (s_Succeeded s) (s_Failed s) (s_Status s) (s_CreatedAt s) (s_UpdatedAt s) (s_LastClaimedAt s).

(** A time counts nanoseconds from the zero [time.Time]. *)
Definition isZero (t : Z) : bool := t =? 0.

Section Schedules.
Context `{Hash}.

Definition ValidateGenerationSchedule (schedule : GenerationSchedule) : option string :=
  let invalid := Some "generation schedule row is invalid" in
  match normalizeGenerationScheduleSpec (s_spec schedule) with
  | Err _ => invalid
  | Ok spec =>
      if negb (String.eqb (s_Schema schedule) GenerationScheduleSchema)
         || negb (String.eqb (s_Digest schedule) (generationScheduleDigest spec))
         || negb (s_TotalChunks schedule =? chunksOf (sp_TotalItems spec) (sp_ChunkItems spec))
         || (s_NextOffset schedule <? 0) || (sp_TotalItems spec <? s_NextOffset schedule)
         || (s_Materialized schedule <? 0) || (s_TotalChunks schedule * sp_MaxAttempts spec <? s_Materialized schedule)
         || (s_Pending schedule <? 0) || (s_Running schedule <? 0) || (s_Succeeded schedule <? 0) || (s_Failed schedule <? 0)
         || (s_Materialized schedule <? s_Pending schedule) || (s_Materialized schedule - s_Pending schedule <? s_Running schedule)
         || (s_TotalChunks schedule <? s_Succeeded schedule) || (s_TotalChunks schedule - s_Succeeded schedule <? s_Failed schedule)
         || isZero (s_CreatedAt schedule) || isZero (s_UpdatedAt schedule) || (s_UpdatedAt schedule <? s_CreatedAt schedule)
      then invalid else
      match s_Status schedule with
      | ScheduleActive | ScheduleSuperseded => None
      | ScheduleSettled =>
          if negb (s_NextOffset schedule =? sp_TotalItems spec) || negb (s_Pending schedule =? 0) || negb (s_Running schedule =? 0)
             || negb (s_Succeeded schedule =? s_TotalChunks schedule - s_Failed schedule)
          then Some "settled generation schedule row is invalid" else None
      end
  end.
End Schedules.

(** ** Chunks *)
Inductive GenerationChunkStatus := ChunkPending | ChunkRunning | ChunkDone | ChunkFailed | ChunkCanceled.
#[export] Instance GenerationChunkStatus_eq_dec : EqDecision GenerationChunkStatus.
Proof. solve_decision. Defined.

Definition GenerationPriorityNeverRun : Z := 0.
Definition GenerationPriorityRetry : Z := 1.
Definition GenerationPriorityStale : Z := 2.

(** A row of [generation_schedule_chunk]: what never changes, and the rest. *)
Record chunkScope := mkScope {
  k_identity : string;
  k_scheduleDigest : string;
  k_repository : string;
  k_stage : string;
  k_generation : string;
  k_resourceClass : string;
  k_offset : Z;
  k_length : Z;
  k_attempt : Z
}.
#[export] Instance chunkScope_eq_dec : EqDecision chunkScope.
Proof. solve_decision. Defined.

Record chunkRow := mkChunk {
  c_scope : chunkScope;
  c_priority : Z;
  c_status : GenerationChunkStatus;
  c_notBefore : option Z;
  c_claimedBy : string;
  c_claimedAt : option Z;
  c_heartbeatAt : option Z;
  c_finishedAt : option Z;
  c_error : string;
  c_leaseToken : string
}.
#[export] Instance eta_chunkRow : Eta chunkRow := fun c =>
  mkChunk (c_scope c) (c_priority c) (c_status c) (c_notBefore c) (c_claimedBy c) (c_claimedAt c) (c_heartbeatAt c)
    (c_finishedAt c) (c_error c) (c_leaseToken c).

(** The Go value: the row and its record id. *)
Record GenerationChunk := mkGenerationChunk { g_ID : string; g_row : chunkRow }.
Definition g_scope (chunk : GenerationChunk) : chunkScope := c_scope (g_row chunk).

(** [CREATE generation_schedule_chunk CONTENT]. *)
Definition newChunk (scope : chunkScope) (priority : Z) (notBefore : option Z) : chunkRow :=
  mkChunk scope priority ChunkPending notBefore "" None None None "" "".

Section Fanout.
Context `{Hash}.

Definition specCount (schedule : GenerationSchedule) : Z :=
  Z.min MaxGenerationFanoutPage (chunksOf (sp_TotalItems (s_spec schedule) - s_NextOffset schedule) (sp_ChunkItems (s_spec schedule))).
Definition generationChunkSpecs (schedule : GenerationSchedule) : list chunkScope :=
  (fun index =>
    let offset := s_NextOffset schedule + Z.of_nat index * sp_ChunkItems (s_spec schedule) in
    let length := Z.min (sp_ChunkItems (s_spec schedule)) (sp_TotalItems (s_spec schedule) - offset) in
    mkScope (generationChunkID (s_Digest schedule) offset 0) (s_Digest schedule) (sp_Repository (s_spec schedule))
      (sp_Stage (s_spec schedule)) (sp_Generation (s_spec schedule)) (sp_ResourceClass (s_spec schedule)) offset length 0)
  <$> seq 0 (Z.to_nat (specCount schedule)).
End Fanout.

(** [boundedGenerationError]: the longest valid prefix within the bound. *)
Fixpoint validPrefix (length : nat) (message : string) : string :=
  match length with
  | O => ""
  | S length' => let p := String.substring 0 length message in if utf8Valid p then p else validPrefix length' message
  end.
Definition boundedGenerationError (message : string) : string :=
  if negb (utf8Valid message) then "invalid UTF-8 worker error"
  else if Nat.leb (String.length message) MaxGenerationErrorBytes then message
  else validPrefix MaxGenerationErrorBytes message.

(** ** Bounds *)
Record SpecOK (spec : GenerationScheduleSpec) : Prop := {
  so_items : 1 <= sp_TotalItems spec <= MaxGenerationItems;
  so_chunk : 1 <= sp_ChunkItems spec <= MaxGenerationChunkItems;
  so_attempts : 1 <= sp_MaxAttempts spec <= MaxGenerationAttempts;
  so_tokens : 1 <= sp_RepositoryTokens spec <= MaxGenerationRepositoryTokens;
  so_chunks : chunksOf (sp_TotalItems spec) (sp_ChunkItems spec) <= MaxGenerationChunks;
  so_stage : validGenerationToken (sp_Stage spec) = true;
  so_generation : validSHA256 (sp_Generation spec) = true;
  so_class : validGenerationResourceClass (sp_ResourceClass spec) = true;
  so_stageLength : sp_Stage spec <> "" /\ Nat.ltb MaxGenerationStageBytes (String.length (sp_Stage spec)) = false;
  so_typed : String.eqb (sp_ResourceClass spec) GenerationResourceTypedIndex = String.eqb (sp_Stage spec) TypedIndexScheduleStage
}.

Lemma normalize_Ok spec spec' : normalizeGenerationScheduleSpec spec = Ok spec' -> spec' = spec /\ SpecOK spec.
Proof.
  unfold normalizeGenerationScheduleSpec. intros Hn. repeat case_match; try discriminate. simplify_eq. split; [done|].
  repeat match goal with H : (_ || _) = false |- _ => apply orb_false_iff in H as [? ?] end. 
  repeat match goal with H : negb (trimmed _) = false |- _ => clear H end. bsplit. constructor; auto.
  - split; [by apply String.eqb_neq|done].
  - destruct (String.eqb (sp_ResourceClass spec') _), (String.eqb (sp_Stage spec') _); cbn in *; bsplit; done.
Qed.

Lemma chunksOf_bounds total chunk : 1 <= chunk -> 0 <= total -> chunk * (chunksOf total chunk - 1) < total <= chunk * chunksOf total chunk \/ (total = 0 /\ chunksOf total chunk = 0).
Proof.
  intros Hc Ht. unfold chunksOf. pose proof (Z.div_mod (total + chunk - 1) chunk). pose proof (Z.mod_pos_bound (total + chunk - 1) chunk).
  destruct (Z.eqb_spec total 0) as [->|]; [right; split; [done|]; apply Z.div_small; lia|left; nia].
Qed.

(** ** Identities *)
Definition noNUL (s : string) : Prop := Ascii.zero ∉ list_ascii_of_string s.

(** The last separator splits a string in one way. *)
Lemma last_split {A} (n : A) a b x y : n ∉ x -> n ∉ y -> a ++ n :: x = b ++ n :: y -> a = b /\ x = y.
Proof.
  intros Hx Hy E. apply app_eq_app in E as [l [[-> E]|[-> E]]]; (destruct l as [|m l]; cbn in E; [rewrite app_nil_r; by simplify_eq|]);
    injection E as -> ->; exfalso; [apply Hy|apply Hx]; apply elem_of_app; right; left.
Qed.

Lemma append_NUL_inj a b x y : noNUL x -> noNUL y -> a +:+ NUL +:+ x = b +:+ NUL +:+ y -> a = b /\ x = y.
Proof.
  intros Hx Hy E. apply (f_equal list_ascii_of_string) in E. rewrite !list_ascii_app in E. cbn in E.
  apply last_split in E as [Ea Ex]; [|exact Hx|exact Hy]. split; by apply list_ascii_inj.
Qed.

Lemma Join_inj p q ps qs :
  Forall noNUL ps -> Forall noNUL qs -> length ps = length qs -> Join p ps NUL = Join q qs NUL -> p = q /\ ps = qs.
Proof.
  revert qs. induction ps as [|x ps IH] using rev_ind; intros qs Hp Hq Hl E.
  - destruct qs; [|discriminate]. by cbn in E.
  - destruct qs as [|y qs _] using rev_ind; [rewrite length_app in Hl; cbn in Hl; lia|]. unfold Join in E. rewrite !foldl_app in E. cbn in E.
    apply Forall_app in Hp as [Hp Hx], Hq as [Hq Hy]. inversion_clear Hx. inversion_clear Hy.
    apply append_NUL_inj in E as [E ->]; [|done..]. rewrite !length_app in Hl. cbn in Hl.
    destruct (IH qs Hp Hq) as [-> ->]; [lia|exact E|done].
Qed.

Lemma all_noNUL p s : all p s = true -> p Ascii.zero = false -> noNUL s.
Proof.
  intros Ha Hp. induction s as [|c s IH]; cbn in *; [by intros H%not_elem_of_nil|]. apply andb_true_iff in Ha as [Hc Ha].
  intros [<-|Hin]%elem_of_cons; [congruence|by apply IH].
Qed.

Lemma pretty_noNUL (z : Z) : noNUL (pretty z).
Proof. apply (all_noNUL digit); [apply pretty_digits|reflexivity]. Qed.

Lemma token_noNUL s : validGenerationToken s = true -> noNUL s.
Proof. intros H. by eapply all_noNUL. Qed.
Lemma class_noNUL s : validGenerationResourceClass s = true -> noNUL s.
Proof.
  unfold validGenerationResourceClass. intros H. repeat (apply orb_true_iff in H as [H|H]); apply String.eqb_eq in H; subst s;
    by apply token_noNUL.
Qed.

Lemma substring_split n m s : String.length s = (n + m)%nat -> s = String.substring 0 n s +:+ String.substring n m s.
Proof.
  revert s. induction n as [|n IH]; intros s Hl.
  - assert (String.substring 0 0 s = "") as -> by by destruct s. change (s = String.substring 0 m s). cbn in Hl. rewrite <-Hl. clear.
    induction s as [|c s IH]; [done|]. cbn. by f_equal.
  - destruct s as [|c s]; [discriminate|]. cbn [String.substring].
    change (String c s = String c (String.substring 0 n s +:+ String.substring n m s)). f_equal. apply IH. by injection Hl.
Qed.
Lemma noNUL_app s t : noNUL s -> noNUL t -> noNUL (s +:+ t).
Proof. unfold noNUL. rewrite list_ascii_app, elem_of_app. tauto. Qed.
Lemma sha_noNUL s : validSHA256 s = true -> noNUL s.
Proof.
  unfold validSHA256. intros [[Hl%Nat.eqb_eq Hp]%andb_true_iff Hh]%andb_true_iff.
  rewrite (substring_split 7 64 s Hl). apply noNUL_app; [|by apply (all_noNUL hexDigit)].
  apply String.prefix_correct in Hp. cbn in Hp. rewrite Hp. by apply (all_noNUL (fun c => negb (Ascii.eqb c Ascii.zero))).
Qed.

Lemma chunkPreimage s a b : s +:+ NUL +:+ a +:+ NUL +:+ b = Join s [a; b] NUL.
Proof. apply list_ascii_inj. unfold Join. cbn. by rewrite !list_ascii_app, <-!app_assoc. Qed.

Section Distinct.
Context `{CollisionFree}.

Lemma schedulerDigest_inj domain a b : generationSchedulerDigest domain a = generationSchedulerDigest domain b -> a = b.
Proof.
  unfold generationSchedulerDigest. intros E. apply (inj (String.append "sha256:")) in E. apply sha256hex_inj in E.
  by apply (inj (String.append domain)), (inj (String.append NUL)) in E.
Qed.

Lemma scheduleDigest_inj a b : SpecOK a -> SpecOK b -> generationScheduleDigest a = generationScheduleDigest b -> a = b.
Proof.
  intros Oa Ob. unfold generationScheduleDigest. intros E%schedulerDigest_inj. apply Join_inj in E as [Er E]; [| | |done];
    [|repeat constructor; auto using pretty_noNUL, token_noNUL, sha_noNUL, class_noNUL, so_stage, so_generation, so_class..].
  injection E as Es Eg Ec Et Ei Em Ek. apply (inj pretty) in Et, Ei, Em, Ek. destruct a, b; cbn in *. by subst.
Qed.

Lemma currentID_inj r s r' s' :
  validGenerationToken s = true -> validGenerationToken s' = true -> generationCurrentID r s = generationCurrentID r' s' -> r = r' /\ s = s'.
Proof. unfold generationCurrentID. intros Hs Hs' E%schedulerDigest_inj. apply append_NUL_inj in E; auto using token_noNUL. Qed.

Lemma chunkID_inj d o n d' o' n' : generationChunkID d o n = generationChunkID d' o' n' -> d = d' /\ o = o' /\ n = n'.
Proof.
  unfold generationChunkID. intros E%schedulerDigest_inj. rewrite !chunkPreimage in E.
  apply (Join_inj _ _ [pretty o; pretty n] [pretty o'; pretty n']) in E as [E En]; [|by repeat constructor; apply pretty_noNUL..|done].
  injection En as Eo En. apply (inj pretty) in Eo, En. auto.
Qed.

(** Identities are exact: two admitted specifications have the same digest
    only if they are equal in every field, two scopes have the same pointer or
    repository record only if they are the same scope, and two chunks have the
    same identity only if they are the same attempt at the same offset of the
    same schedule.  In particular the separator-joined preimages cannot be
    confused, whatever bytes a repository's name holds. *)
Theorem identities_are_exact a b a' b' :
  GenerationScheduleDigest a = Ok a' -> GenerationScheduleDigest b = Ok b' ->
  (a' = b' -> a = b) /\
  (generationCurrentID (sp_Repository a) (sp_Stage a) = generationCurrentID (sp_Repository b) (sp_Stage b) ->
     sp_Repository a = sp_Repository b /\ sp_Stage a = sp_Stage b) /\
  (generationRepositoryID (sp_Repository a) = generationRepositoryID (sp_Repository b) -> sp_Repository a = sp_Repository b) /\
  (forall o n o' n', generationChunkID a' o n = generationChunkID b' o' n' -> a = b /\ o = o' /\ n = n').
Proof.
  unfold GenerationScheduleDigest. intros Ha Hb.
  destruct (normalizeGenerationScheduleSpec a) eqn:Na; [|discriminate]. destruct (normalizeGenerationScheduleSpec b) eqn:Nb; [|discriminate].
  apply normalize_Ok in Na as [-> Oa], Nb as [-> Ob]. injection Ha as <-. injection Hb as <-.
  split; [by apply scheduleDigest_inj|]. split; [|split].
  - apply currentID_inj; by apply so_stage.
  - apply schedulerDigest_inj.
  - intros o n o' n' (E & ? & ?)%chunkID_inj. auto using scheduleDigest_inj.
Qed.
End Distinct.

(** ** Examples *)
#[local] Instance plain_hash : Hash := fun s => s.
#[local] Instance plain_collisionFree : CollisionFree := fun a b E => E.

Definition zeros : string := "0000000000000000000000000000000000000000000000000000000000000000".
Definition sampleSpec (repository stage : string) : GenerationScheduleSpec :=
  mkSpec repository stage ("sha256:" +:+ zeros) GenerationResourceCPU 10 4 3 2.

(** The joined preimages of these two differ only in where the name ends. *)
Lemma identities_are_exact_witness :
  exists a b, GenerationScheduleDigest (sampleSpec ("r" +:+ NUL +:+ "x") "y") = Ok a /\
    GenerationScheduleDigest (sampleSpec "r" "y") = Ok b /\ a <> b.
Proof.
  eexists _, _. split; [vm_compute; reflexivity|]. split; [vm_compute; reflexivity|]. intros E.
  pose proof (proj1 (identities_are_exact (sampleSpec ("r" +:+ NUL +:+ "x") "y") (sampleSpec "r" "y") _ _ eq_refl eq_refl) E) as Heq.
  discriminate (f_equal sp_Repository Heq).
Defined.
