(* ===== verification/GenerationStore.v ===== *)
(** * Generation schedules: tables and transactions

    Model of the four tables of the durable generation scheduler
    ([internal/store/generation_schedule.go], [generation_lifecycle.go]) and of
    every statement it submits.  A transaction of SurrealDB is atomic: a
    function of the tables to what it returns and the next tables, or to the
    text of its error, which changes nothing.  The expressions of one [SET] read
    the record as it was.  A record id is its rendered string; a created record
    gets an unused id the database picks.  [updated_at] of the pointer and
    repository tables, which nothing reads, is left out.  The rows of the
    typed index and of the V3 service plan belong to other components: what
    their fences find is an argument of the statement. *)
From stdpp Require Import sorting.
From Stdlib Require Import Ascii String.
From S2P Require Import Prelude.
From S2P Require Import GoStrings GoText GenerationSpec.

Record currentRow := mkCurrent {
  u_repository : string;
  u_stage : string;
  u_scheduleDigest : string;
  u_generation : string
}.
Record repositoryRow := mkRepository {
  y_repository : string;
  y_running : Z;
  y_lastClaimedAt : option Z
}.
#[export] Instance eta_repositoryRow : Eta repositoryRow := fun y => mkRepository (y_repository y) (y_running y) (y_lastClaimedAt y).

Record tables := mkTables {
  t_schedules : gmap string GenerationSchedule;
  t_currents : gmap string currentRow;
  t_repositories : gmap string repositoryRow;
  t_chunks : gmap string chunkRow
}.
#[export] Instance eta_tables : Eta tables := fun t => mkTables (t_schedules t) (t_currents t) (t_repositories t) (t_chunks t).
Definition noTables : tables := mkTables ∅ ∅ ∅ ∅.

Definition statement (A : Type) := tables -> res string (A * tables).

(** ** Errors *)
Definition enqueueConflict : string := "generation enqueue prior conflict".
Definition stagesExceeded : string := "phebs-permanent: generation repository active-stage limit exceeded".
Definition claimConflict : string := "generation claim candidate conflict".
Definition typedStale : string := "typed-stale".
Definition recordExists : string := "record already exists".
Definition identityContains : string := "index already contains the identity".
Definition selectionChanged : string := "phebs-permanent: generation lifecycle selection changed".

Section Store.
Context `{Hash}.

(** ** Reads *)
Definition currentDigest (repository stage : string) (t : tables) : option string :=
  u_scheduleDigest <$> t_currents t !! generationCurrentID repository stage.

(** [GetGenerationSchedule] before its validation. *)
Definition currentSchedule (repository stage : string) (t : tables) : option GenerationSchedule :=
  match currentDigest repository stage t with Some digest => t_schedules t !! digest | None => None end.

Definition chunkByIdentity (identity : string) (t : tables) : option (string * chunkRow) :=
  head (base.filter (fun kc => k_identity (c_scope kc.2) = identity) (map_to_list (t_chunks t))).

(** ** Enqueueing *)
Definition isActive (s : GenerationSchedule) : bool := bool_decide (s_Status s = ScheduleActive).

Definition priorIDs (digest : string) (old : option string) (t : tables) : list string :=
  match old with
  | Some old =>
      match t_schedules t !! old with
      | Some s => if negb (String.eqb old digest) && isActive s then [old] else []
      | None => []
      end
  | None => []
  end.

Definition otherActiveStages (repository stage : string) (t : tables) : Z :=
  Z.of_nat (size (filter (fun kv => sp_Repository (s_spec kv.2) = repository /\ s_Status kv.2 = ScheduleActive /\ sp_Stage (s_spec kv.2) <> stage)
    (t_schedules t))).

Definition newSchedule (spec : GenerationScheduleSpec) (now : Z) : GenerationSchedule :=
  mkSchedule GenerationScheduleSchema (generationScheduleDigest spec) spec (chunksOf (sp_TotalItems spec) (sp_ChunkItems spec))
    0 0 0 0 0 0 ScheduleActive now now None.

Definition supersede (now : Z) (s : GenerationSchedule) : GenerationSchedule :=
  if isActive s then s <| s_Status := ScheduleSuperseded |> <| s_UpdatedAt := now |> else s.

Definition upsertRepository (repository : string) (y : option repositoryRow) : repositoryRow :=
  match y with
  | None => mkRepository repository 0 None
  | Some y => y <| y_repository := repository |>
  end.

(** [live]: the fences of the typed index hold. *)
Definition enqueueGenerationScheduleSQL (spec : GenerationScheduleSpec) (live : bool) (observedOld : option string)
    (observedPrior : list string) (now : Z) : statement (option GenerationSchedule) := fun t =>
  let digest := generationScheduleDigest spec in
  let current := generationCurrentID (sp_Repository spec) (sp_Stage spec) in
  let repository := generationRepositoryID (sp_Repository spec) in
  if String.eqb (sp_ResourceClass spec) GenerationResourceTypedIndex && negb live then Err typedStale else
  let old := currentDigest (sp_Repository spec) (sp_Stage spec) t in
  if negb (bool_decide (old = observedOld) && bool_decide (priorIDs digest old t = observedPrior)) then Err enqueueConflict else
  let existing := t_schedules t !! digest in
  if is_nil existing && (MaxGenerationActiveStagesPerRepository <=? otherActiveStages (sp_Repository spec) (sp_Stage spec) t)
  then Err stagesExceeded else
  let t' :=
    if is_nil existing || bool_decide (old = Some digest) then
      let t := match observedPrior with prior :: _ => t <| t_schedules ::= alter (supersede now) prior |> | [] => t end in
      let t := if is_nil existing then t <| t_schedules ::= insert digest (newSchedule spec now) |> else t in
      let t := t <| t_currents ::= insert current (mkCurrent (sp_Repository spec) (sp_Stage spec) digest (sp_Generation spec)) |> in
      t <| t_repositories ::= fun m => <[repository := upsertRepository (sp_Repository spec) (m !! repository)]> m |>
    else t in
  Ok (t_schedules t' !! digest, t').

(** [RetireCurrentGenerationSchedule]: whether it retired. *)
Definition retireCurrentSQL (repository stage generation digest : string) (now : Z) : statement bool := fun t =>
  let current := generationCurrentID repository stage in
  let scopedCurrent := match t_currents t !! current with
    | Some u => String.eqb (u_repository u) repository && String.eqb (u_stage u) stage && String.eqb (u_generation u) generation
                && String.eqb (u_scheduleDigest u) digest
    | None => false
    end in
  let scopedSchedule := match t_schedules t !! digest with
    | Some s => String.eqb (sp_Repository (s_spec s)) repository && String.eqb (sp_Stage (s_spec s)) stage
                && String.eqb (sp_Generation (s_spec s)) generation
    | None => false
    end in
  if scopedCurrent && scopedSchedule
  then Ok (true, t <| t_schedules ::= alter (supersede now) digest |> <| t_currents ::= delete current |>)
  else Ok (false, t).

(** ** Fan-out *)
Definition createChunk (id : string) (c : chunkRow) (t : tables) : res string tables :=
  match t_chunks t !! id, chunkByIdentity (k_identity (c_scope c)) t with
  | Some _, _ => Err recordExists
  | None, Some _ => Err identityContains
  | None, None => Ok (t <| t_chunks ::= insert id c |>)
  end.
Fixpoint createChunks (l : list (string * chunkRow)) (t : tables) : res string tables :=
  match l with
  | [] => Ok t
  | (id, c) :: l' => match createChunk id c t with Ok t' => createChunks l' t' | Err e => Err e end
  end.

(** [ExpandGenerationSchedule] from the schedule it read; [ids] are those the
    database picks. *)
Definition expandGenerationScheduleSQL (schedule : GenerationSchedule) (live : bool) (ids : list string) (now : Z)
    : statement (option GenerationSchedule) := fun t =>
  let chunks := generationChunkSpecs schedule in
  let digest := s_Digest schedule in
  let newOffset := s_NextOffset schedule + zsum (k_length <$> chunks) in
  let count := Z.of_nat (length chunks) in
  if String.eqb (sp_ResourceClass (s_spec schedule)) GenerationResourceTypedIndex && negb live then Err typedStale else
  let owned := match t_schedules t !! digest with
    | Some s => isActive s && (s_NextOffset s =? s_NextOffset schedule)
    | None => false
    end in
  if bool_decide (currentDigest (sp_Repository (s_spec schedule)) (sp_Stage (s_spec schedule)) t = Some digest) && owned then
    match createChunks (zip ids ((fun k => newChunk k GenerationPriorityNeverRun None) <$> chunks)) t with
    | Err e => Err e
    | Ok t =>
        let t := t <| t_schedules ::= alter (fun s => s <| s_NextOffset := newOffset |> <| s_Materialized ::= Z.add count |>
                       <| s_Pending ::= Z.add count |> <| s_UpdatedAt := now |>) digest |> in
        Ok (t_schedules t !! digest, t)
    end
  else Ok (t_schedules t !! digest, t).

(** ** Claiming *)

(** What the claim of a stage of the V3 service plan finds: the applied prefix
    of its plan, if the plan is the one of this schedule. *)
Inductive serialPlan := NoPlan | ForeignPlan | AppliedTo (items : Z).

Definition chunkBefore (a b : chunkRow) : bool :=
  (c_priority a <? c_priority b) || ((c_priority a =? c_priority b)
    && ((k_offset (c_scope a) <? k_offset (c_scope b)) || ((k_offset (c_scope a) =? k_offset (c_scope b))
        && (k_attempt (c_scope a) <? k_attempt (c_scope b))))).
(** [ORDER BY ... LIMIT 1]. *)
Fixpoint first {A} (before : A -> A -> bool) (l : list A) : option A :=
  match l with
  | [] => None
  | x :: l' => match first before l' with
               | Some y => if before y x then Some y else Some x
               | None => Some x
               end
  end.

Definition claimable (digest : string) (plan : serialPlan) (failed now : Z) (c : chunkRow) : bool :=
  String.eqb (k_scheduleDigest (c_scope c)) digest && bool_decide (c_status c = ChunkPending)
  && match c_notBefore c with None => true | Some b => b <=? now end
  && match plan with
     | NoPlan => true
     | ForeignPlan => false
     | AppliedTo items => (0 <? failed) || (k_offset (c_scope c) <=? items)
     end.

(** The candidate of one schedule, if it is eligible.  [NONE] compares below
    every number. *)
Definition claimSelection (schedule : GenerationSchedule) (plan : serialPlan) (now : Z) (t : tables) : option string :=
  let digest := s_Digest schedule in
  match t_schedules t !! digest with
  | Some s =>
      let candidate := first (fun a b : string * chunkRow => chunkBefore a.2 b.2)
        (base.filter (fun kc => claimable digest plan (s_Failed s) now kc.2 = true) (map_to_list (t_chunks t))) in
      let tokensFree := match t_repositories t !! generationRepositoryID (sp_Repository (s_spec schedule)) with
        | Some y => y_running y <? sp_RepositoryTokens (s_spec schedule)
        | None => true
        end in
      if bool_decide (currentDigest (sp_Repository (s_spec schedule)) (sp_Stage (s_spec schedule)) t = Some digest)
         && isActive s && (0 <? s_Pending s) && tokensFree
      then fst <$> candidate else None
  | None => None
  end.

Definition leased (worker lease : string) (now : Z) (c : chunkRow) : chunkRow :=
  c <| c_status := ChunkRunning |> <| c_claimedBy := worker |> <| c_leaseToken := lease |> <| c_claimedAt := Some now |>
    <| c_heartbeatAt := Some now |> <| c_notBefore := None |>.

Definition claimGenerationChunkSQL (schedule : GenerationSchedule) (live : bool) (plan : serialPlan) (chunk worker lease : string)
    (now : Z) : statement (option GenerationChunk) := fun t =>
  if String.eqb (sp_ResourceClass (s_spec schedule)) GenerationResourceTypedIndex && negb live then Err typedStale else
  match claimSelection schedule plan now t with
  | None => Ok (None, t)
  | Some candidate =>
      if negb (String.eqb candidate chunk) then Err claimConflict else
      match t_chunks t !! chunk with
      | Some c =>
          if bool_decide (c_status c = ChunkPending) then
            let c := leased worker lease now c in
            Ok (Some (mkGenerationChunk chunk c),
              t <| t_chunks ::= insert chunk c |>
                <| t_schedules ::= alter (fun s => s <| s_Pending ::= Z.add (-1) |> <| s_Running ::= Z.add 1 |>
                     <| s_LastClaimedAt := Some now |> <| s_UpdatedAt := now |>) (s_Digest schedule) |>
                <| t_repositories ::= alter (fun y => y <| y_running ::= Z.add 1 |> <| y_lastClaimedAt := Some now |>)
                     (generationRepositoryID (sp_Repository (s_spec schedule))) |>)
          else Ok (None, t)
      | None => Ok (None, t)
      end
  end.

(** ** Leases *)

(** [typedChunkStatement]: the complete immutable descriptor is part of every
    lease predicate, and a typed lease needs its live root. *)
Definition typedChunkFence (chunk : GenerationChunk) (live : bool) (t : tables) : bool :=
  let k := g_scope chunk in
  if String.eqb (k_stage k) "" || Nat.ltb MaxGenerationStageBytes (String.length (k_stage k))
     || negb (validGenerationToken (k_stage k)) || negb (validGenerationResourceClass (k_resourceClass k)) then false
  else if negb (String.eqb (k_resourceClass k) GenerationResourceTypedIndex) && negb (String.eqb (k_stage k) TypedIndexScheduleStage) then true
  else match t_chunks t !! g_ID chunk with
       | Some c => String.eqb (k_stage (c_scope c)) TypedIndexScheduleStage
                   && String.eqb (k_resourceClass (c_scope c)) GenerationResourceTypedIndex && live
       | None => false
       end.

Definition holds (chunk : GenerationChunk) (c : chunkRow) : bool :=
  bool_decide (c_status c = ChunkRunning) && String.eqb (c_leaseToken c) (c_leaseToken (g_row chunk))
  && String.eqb (c_claimedBy c) (c_claimedBy (g_row chunk)) && bool_decide (c_scope c = g_scope chunk).

Definition heartbeatGenerationChunkSQL (chunk : GenerationChunk) (live : bool) (now : Z) : statement bool := fun t =>
  if negb (typedChunkFence chunk live t) then Err typedStale else
  match t_chunks t !! g_ID chunk with
  | Some c => if holds chunk c then Ok (true, t <| t_chunks ::= insert (g_ID chunk) (c <| c_heartbeatAt := Some now |>) |>) else Ok (false, t)
  | None => Ok (false, t)
  end.

(** *** The transitions that end a lease

    All of them read the lease and the pointer, change the chunk and its
    schedule, and give back the token of the repository. *)
Record transition := mkTransition { tr_owned : bool; tr_current : bool; tr_exhausted : bool }.

Definition isCurrent (chunk : GenerationChunk) (t : tables) : bool :=
  bool_decide (currentDigest (k_repository (g_scope chunk)) (k_stage (g_scope chunk)) t = Some (k_scheduleDigest (g_scope chunk))).

Definition endLease (chunk : GenerationChunk) (owns : chunkRow -> bool) (f : chunkRow -> chunkRow) (successor : list (string * chunkRow))
    (g : GenerationSchedule -> GenerationSchedule) (answer : bool -> transition) : statement transition := fun t =>
  match t_chunks t !! g_ID chunk with
  | Some c =>
      if owns c then
        match createChunks successor (t <| t_chunks ::= insert (g_ID chunk) (f c) |>) with
        | Err e => Err e
        | Ok t =>
            Ok (answer true,
              t <| t_schedules ::= alter g (k_scheduleDigest (g_scope chunk)) |>
                <| t_repositories ::= alter (fun y => y <| y_running ::= Z.add (-1) |>) (generationRepositoryID (k_repository (g_scope chunk))) |>)
        end
      else Ok (answer false, t)
  | None => Ok (answer false, t)
  end.

(** [status = IF ... THEN 'settled' ELSE status END]. *)
Definition settles (s : GenerationSchedule) : bool :=
  (s_NextOffset s =? sp_TotalItems (s_spec s)) && (s_Pending s =? 0) && (s_Running s =? 1)
  && (s_Succeeded s + s_Failed s + 1 =? s_TotalChunks s).
Definition one (b : bool) : Z := if b then 1 else 0.

Definition finished (status : GenerationChunkStatus) (now : Z) (c : chunkRow) : chunkRow :=
  c <| c_status := status |> <| c_finishedAt := Some now |> <| c_leaseToken := "" |> <| c_heartbeatAt := None |>.

Definition completeGenerationChunkSQL (chunk : GenerationChunk) (live : bool) (now : Z) : statement transition := fun t =>
  if negb (typedChunkFence chunk live t) then Err typedStale else
  let current := isCurrent chunk t in
  endLease chunk (holds chunk)
    (finished (if current then ChunkDone else ChunkCanceled) now) []
    (fun s => s <| s_Running ::= Z.add (-1) |> <| s_Succeeded ::= Z.add (one current) |>
                <| s_Status := if current && settles s then ScheduleSettled else s_Status s |> <| s_UpdatedAt := now |>)
    (fun owned => mkTransition owned current false) t.

Definition failGenerationChunkSQL (chunk : GenerationChunk) (live : bool) (message : string) (now : Z) : statement transition := fun t =>
  if negb (typedChunkFence chunk live t) then Err typedStale else
  let current := isCurrent chunk t in
  endLease chunk (holds chunk)
    (fun c => (finished (if current then ChunkFailed else ChunkCanceled) now c) <| c_error := message |>) []
    (fun s => s <| s_Running ::= Z.add (-1) |> <| s_Failed ::= Z.add (one current) |>
                <| s_Status := if current && settles s then ScheduleSettled else s_Status s |> <| s_UpdatedAt := now |>)
    (fun owned => mkTransition owned current true) t.

Definition successorScope (chunk : GenerationChunk) : chunkScope :=
  let k := g_scope chunk in
  mkScope (generationChunkID (k_scheduleDigest k) (k_offset k) (k_attempt k + 1)) (k_scheduleDigest k) (k_repository k) (k_stage k)
    (k_generation k) (k_resourceClass k) (k_offset k) (k_length k) (k_attempt k + 1).

Definition retryGenerationChunkSQL (chunk : GenerationChunk) (live : bool) (maxAttempts : Z) (message : string) (notBefore : Z)
    (newID : string) (now : Z) : statement transition := fun t =>
  if negb (typedChunkFence chunk live t) then Err typedStale else
  let current := isCurrent chunk t in
  let exhausted := maxAttempts <=? k_attempt (g_scope chunk) + 1 in
  let again := current && negb exhausted in
  endLease chunk (holds chunk)
    (fun c => (finished (if current then ChunkFailed else ChunkCanceled) now c) <| c_error := message |>)
    (if again then [(newID, newChunk (successorScope chunk) GenerationPriorityRetry (Some notBefore))] else [])
    (fun s => s <| s_Running ::= Z.add (-1) |> <| s_Materialized ::= Z.add (one again) |> <| s_Pending ::= Z.add (one again) |>
                <| s_Failed ::= Z.add (one (current && exhausted)) |>
                <| s_Status := if current && exhausted && settles s then ScheduleSettled else s_Status s |> <| s_UpdatedAt := now |>)
    (fun owned => mkTransition owned current exhausted) t.

(** Release, deferral and reaping give the chunk back. *)
Definition givenBack (current : bool) (notBefore : Z) (message : string) (c : chunkRow) : chunkRow :=
  c <| c_status := if current then ChunkPending else ChunkCanceled |>
    <| c_priority := if current then GenerationPriorityStale else c_priority c |>
    <| c_notBefore := if current then Some notBefore else None |> <| c_error := message |> <| c_claimedBy := "" |>
    <| c_claimedAt := None |> <| c_heartbeatAt := None |> <| c_leaseToken := "" |>.
Definition returned (current : bool) (now : Z) (s : GenerationSchedule) : GenerationSchedule :=
  s <| s_Running ::= Z.add (-1) |> <| s_Pending ::= Z.add (one current) |> <| s_UpdatedAt := now |>.

Definition releaseGenerationChunkSQL (chunk : GenerationChunk) (live : bool) (message : string) (now : Z) : statement transition := fun t =>
  if negb (typedChunkFence chunk live t) then Err typedStale else
  let current := isCurrent chunk t in
  endLease chunk (holds chunk) (givenBack current now message) [] (returned current now) (fun owned => mkTransition owned current false) t.

Definition deferGenerationChunkSQL (chunk : GenerationChunk) (live : bool) (message : string) (notBefore now : Z) : statement transition := fun t =>
  if negb (typedChunkFence chunk live t) then Err typedStale else
  let current := isCurrent chunk t in
  endLease chunk (holds chunk) (givenBack current notBefore message) [] (returned current now) (fun owned => mkTransition owned current false) t.

(** The reaper's statement has no typed fence and no scope; it binds the
    heartbeat it read. *)
Definition stale (chunk : GenerationChunk) (cutoff : Z) (c : chunkRow) : bool :=
  bool_decide (c_status c = ChunkRunning) && String.eqb (c_leaseToken c) (c_leaseToken (g_row chunk))
  && String.eqb (c_claimedBy c) (c_claimedBy (g_row chunk))
  && bool_decide (c_heartbeatAt c = c_heartbeatAt (g_row chunk))
  && match c_heartbeatAt c with Some h => h <? cutoff | None => true end.
Definition reapGenerationChunkSQL (chunk : GenerationChunk) (cutoff now : Z) : statement transition := fun t =>
  let current := isCurrent chunk t in
  endLease chunk (stale chunk cutoff) (givenBack current now "stale worker lease reaped") [] (returned current now)
    (fun owned => mkTransition owned current false) t.

(** ** Collection *)
Definition retiredBefore (a b : GenerationSchedule) : Prop :=
  s_UpdatedAt b < s_UpdatedAt a \/ (s_UpdatedAt a = s_UpdatedAt b /\ str_ltb (s_Digest a) (s_Digest b) = false).
#[local] Instance retiredBefore_dec a b : Decision (retiredBefore a b) := decide (_ \/ _).
Definition newestRetired (repository stage : string) (retained : nat) (t : tables) : list string :=
  take retained (s_Digest <$> merge_sort retiredBefore (snd <$> base.filter (fun kv =>
    sp_Repository (s_spec kv.2) = repository /\ sp_Stage (s_spec kv.2) = stage /\ s_Status kv.2 <> ScheduleActive) (map_to_list (t_schedules t)))).

Definition chunkLe (a b : string * chunkRow) : Prop :=
  k_offset (c_scope a.2) < k_offset (c_scope b.2)
  \/ (k_offset (c_scope a.2) = k_offset (c_scope b.2) /\ k_attempt (c_scope a.2) <= k_attempt (c_scope b.2)).
#[local] Instance chunkLe_dec a b : Decision (chunkLe a b) := decide (_ \/ _).
Definition chunksOfSchedule (digest : string) (t : tables) : list (string * chunkRow) :=
  base.filter (fun kc => k_scheduleDigest (c_scope kc.2) = digest) (map_to_list (t_chunks t)).

(** [planOK] and [hasPlan] are of the V3 plan of the generation. *)
Definition lifecycleSelection (repository stage digest : string) (retained limit : nat) (planOK : bool) (t : tables) : option (list string) :=
  match t_schedules t !! digest with
  | Some s =>
      if String.eqb (sp_Repository (s_spec s)) repository && String.eqb (sp_Stage (s_spec s)) stage && negb (isActive s)
         && bool_decide (currentDigest repository stage t <> Some digest)
         && negb (existsb (fun kc => bool_decide (c_status kc.2 = ChunkRunning)) (chunksOfSchedule digest t))
         && bool_decide (digest ∉ newestRetired repository stage retained t) && planOK
      then Some (take limit (fst <$> merge_sort chunkLe (chunksOfSchedule digest t))) else None
  | None => None
  end.

Definition collectGenerationScheduleSQL (repository stage digest : string) (retained limit : nat) (planOK hasPlan : bool)
    (ids : list string) : statement Z := fun t =>
  match lifecycleSelection repository stage digest retained limit planOK t with
  | Some chunkIDs =>
      if negb (bool_decide (chunkIDs = ids)) || negb (bool_decide (NoDup ids)) then Err selectionChanged else
      let t := t <| t_chunks ::= fun m => foldr delete m ids |> in
      match chunksOfSchedule digest t with
      | [] => Ok (Z.of_nat (length ids) + one hasPlan + 1, t <| t_schedules ::= delete digest |>)
      | _ => Ok (Z.of_nat (length ids), t)
      end
  | None => Err selectionChanged
  end.
End Store.
