(* ===== verification/GenerationInvariant.v ===== *)
(** * Generation schedules: the invariant

    Runs of the statements of [GenerationStore] in any order and by anyone, and
    what every table they reach satisfies.  The heart of it is the view of a
    current schedule: an abstract array with one cell per chunk already fanned
    out, whose cell is pending, running, done or failed for good; the counters
    of the schedule's row count its cells. *)
From Stdlib Require Import Ascii String.
From S2P Require Import Prelude.
From S2P Require Import GoStrings GoText GenerationSpec GenerationStore.

Section Invariant.
Context `{CollisionFree}.

(** ** Runs *)
Inductive query :=
  | QEnqueue (spec : GenerationScheduleSpec) (live : bool) (observedOld : option string) (observedPrior : list string)
  | QRetire (repository stage generation digest : string)
  | QExpand (schedule : GenerationSchedule) (live : bool) (ids : list string)
  | QClaim (schedule : GenerationSchedule) (live : bool) (plan : serialPlan) (chunk worker lease : string)
  | QHeartbeat (chunk : GenerationChunk) (live : bool)
  | QComplete (chunk : GenerationChunk) (live : bool)
  | QFail (chunk : GenerationChunk) (live : bool) (message : string)
  | QRetry (chunk : GenerationChunk) (live : bool) (maxAttempts : Z) (message : string) (notBefore : Z) (newID : string)
  | QRelease (chunk : GenerationChunk) (live : bool) (message : string)
  | QDefer (chunk : GenerationChunk) (live : bool) (message : string) (notBefore : Z)
  | QReap (chunk : GenerationChunk) (cutoff : Z)
  | QCollect (repository stage digest : string) (retained limit : nat) (planOK hasPlan : bool) (ids : list string).

(** The tables a query leaves, if it does not fail. *)
Definition after {A} (r : res string (A * tables)) : option tables := match r with Ok (_, t) => Some t | Err _ => None end.
Definition run (q : query) (now : Z) (t : tables) : option tables :=
  match q with
  | QEnqueue spec live old prior => after (enqueueGenerationScheduleSQL spec live old prior now t)
  | QRetire repository stage generation digest => after (retireCurrentSQL repository stage generation digest now t)
  | QExpand schedule live ids => after (expandGenerationScheduleSQL schedule live ids now t)
  | QClaim schedule live plan chunk worker lease => after (claimGenerationChunkSQL schedule live plan chunk worker lease now t)
  | QHeartbeat chunk live => after (heartbeatGenerationChunkSQL chunk live now t)
  | QComplete chunk live => after (completeGenerationChunkSQL chunk live now t)
  | QFail chunk live message => after (failGenerationChunkSQL chunk live message now t)
  | QRetry chunk live maxAttempts message notBefore newID =>
      after (retryGenerationChunkSQL chunk live maxAttempts message notBefore newID now t)
  | QRelease chunk live message => after (releaseGenerationChunkSQL chunk live message now t)
  | QDefer chunk live message notBefore => after (deferGenerationChunkSQL chunk live message notBefore now t)
  | QReap chunk cutoff => after (reapGenerationChunkSQL chunk cutoff now t)
  | QCollect repository stage digest retained limit planOK hasPlan ids =>
      after (collectGenerationScheduleSQL repository stage digest retained limit planOK hasPlan ids t)
  end.

(** The leases ever issued, with the record and the scope of each. *)
Record lease := mkLease { l_token : string; l_chunk : string; l_scope : chunkScope }.
Record world := mkWorld { w_tables : tables; w_clock : Z; w_leases : list lease }.

(** What the Go code guarantees of the statements it submits: specifications
    are admitted ones, a schedule or a chunk it names was read from the tables,
    tokens are fresh. *)
Definition admitted (spec : GenerationScheduleSpec) : Prop := normalizeGenerationScheduleSpec spec = Ok spec.
Definition readSchedule (s : GenerationSchedule) : Prop := admitted (s_spec s) /\ s_Digest s = generationScheduleDigest (s_spec s).
Definition permitted (q : query) (w : world) : Prop :=
  match q with
  | QEnqueue spec _ _ _ => admitted spec
  | QExpand schedule _ ids => readSchedule schedule /\ length ids = length (generationChunkSpecs schedule)
  | QClaim schedule _ _ chunk worker token =>
      readSchedule schedule /\ token <> "" /\ worker <> "" /\ token ∉ l_token <$> w_leases w
  | QRetry chunk _ maxAttempts _ _ _ =>
      exists spec, admitted spec /\ k_scheduleDigest (g_scope chunk) = generationScheduleDigest spec /\ maxAttempts = sp_MaxAttempts spec
  | QReap chunk _ => mkLease (c_leaseToken (g_row chunk)) (g_ID chunk) (g_scope chunk) ∈ w_leases w
  | _ => True
  end.

Definition issued (q : query) (t : tables) (now : Z) : list lease :=
  match q with
  | QClaim schedule live plan chunk worker token =>
      match claimGenerationChunkSQL schedule live plan chunk worker token now t with
      | Ok (Some g, _) => [mkLease token (g_ID g) (g_scope g)]
      | _ => []
      end
  | _ => []
  end.

(** One transaction; the database's clock does not run backwards. *)
Definition asked (q : query) (now : Z) (w : world) : option world :=
  match run q now (w_tables w) with
  | Some t => Some (mkWorld t now (issued q (w_tables w) now ++ w_leases w))
  | None => None
  end.
Inductive asks : list (query * Z) -> world -> world -> Prop :=
  | asks_nil w : asks [] w w
  | asks_cons q now l w w1 w2 :
      permitted q w -> w_clock w <= now -> asked q now w = Some w1 -> asks l w1 w2 -> asks ((q, now) :: l) w w2.
Definition start : world := mkWorld noTables 1 [].
Definition reachable (w : world) : Prop := exists l, asks l start w.

(** ** The view of a schedule *)
Record cell := mkCell { v_id : string; v_status : GenerationChunkStatus; v_attempt : Z }.

Definition isStatus (st : GenerationChunkStatus) (v : cell) : Z := one (bool_decide (v_status v = st)).
Definition attempts (v : cell) : Z := v_attempt v + 1.
(** The chunks fanned out so far. *)
Definition cells (s : GenerationSchedule) : Z := chunksOf (s_NextOffset s) (sp_ChunkItems (s_spec s)).

Record ViewOK (chunks : gmap string chunkRow) (s : GenerationSchedule) (view : gmap Z cell) : Prop := {
  vo_dom : forall j, is_Some (view !! j) <-> 0 <= j < cells s;
  vo_size : msum (fun _ => 1) view = cells s;
  vo_cell : forall j v, view !! j = Some v -> exists c, chunks !! v_id v = Some c /\ k_scheduleDigest (c_scope c) = s_Digest s /\
      k_offset (c_scope c) = j * sp_ChunkItems (s_spec s) /\ c_status c = v_status v /\ k_attempt (c_scope c) = v_attempt v /\
      v_status v <> ChunkCanceled;
  vo_rest : forall id c, chunks !! id = Some c -> k_scheduleDigest (c_scope c) = s_Digest s ->
      exists j v, k_offset (c_scope c) = j * sp_ChunkItems (s_spec s) /\ view !! j = Some v /\
        (v_id v = id \/ (c_status c = ChunkFailed /\ k_attempt (c_scope c) < v_attempt v));
  vo_pending : s_Pending s = msum (isStatus ChunkPending) view;
  vo_running : s_Running s = msum (isStatus ChunkRunning) view;
  vo_succeeded : s_Succeeded s = msum (isStatus ChunkDone) view;
  vo_failed : s_Failed s = msum (isStatus ChunkFailed) view;
  vo_materialized : s_Materialized s = msum attempts view
}.

(** ** Rows *)
Record RowOK (s : GenerationSchedule) : Prop := {
  ro_schema : s_Schema s = GenerationScheduleSchema;
  ro_digest : s_Digest s = generationScheduleDigest (s_spec s);
  ro_spec : admitted (s_spec s);
  ro_total : s_TotalChunks s = chunksOf (sp_TotalItems (s_spec s)) (sp_ChunkItems (s_spec s));
  ro_next : s_NextOffset s = Z.min (sp_TotalItems (s_spec s)) (cells s * sp_ChunkItems (s_spec s)) /\ 0 <= cells s;
  ro_materialized : 0 <= s_Materialized s <= s_TotalChunks s * sp_MaxAttempts (s_spec s);
  ro_pending : 0 <= s_Pending s;
  ro_running : 0 <= s_Running s;
  ro_queued : s_Pending s + s_Running s <= s_Materialized s;
  ro_outcomes : 0 <= s_Succeeded s /\ 0 <= s_Failed s /\ s_Succeeded s + s_Failed s <= s_TotalChunks s;
  ro_times : 1 <= s_CreatedAt s <= s_UpdatedAt s;
  ro_settled : s_Status s = ScheduleSettled ->
      s_NextOffset s = sp_TotalItems (s_spec s) /\ s_Pending s = 0 /\ s_Running s = 0 /\ s_Succeeded s + s_Failed s = s_TotalChunks s;
  ro_live : s_Status s = ScheduleActive -> s_NextOffset s < sp_TotalItems (s_spec s) \/ 0 < s_Pending s + s_Running s;
  ro_tokens : s_Running s <= sp_RepositoryTokens (s_spec s)
}.

(** The scope of a chunk of [s]. *)
Record ScopeOK (s : GenerationSchedule) (k : chunkScope) : Prop := {
  ko_identity : k_identity k = generationChunkID (s_Digest s) (k_offset k) (k_attempt k);
  ko_repository : k_repository k = sp_Repository (s_spec s);
  ko_stage : k_stage k = sp_Stage (s_spec s);
  ko_generation : k_generation k = sp_Generation (s_spec s);
  ko_class : k_resourceClass k = sp_ResourceClass (s_spec s);
  ko_offset : exists j, 0 <= j < cells s /\ k_offset k = j * sp_ChunkItems (s_spec s);
  ko_length : k_length k = Z.min (sp_ChunkItems (s_spec s)) (sp_TotalItems (s_spec s) - k_offset k);
  ko_attempt : 0 <= k_attempt k < sp_MaxAttempts (s_spec s)
}.

Definition runningFor (digest : string) (c : chunkRow) : Z :=
  one (bool_decide (c_status c = ChunkRunning) && String.eqb (k_scheduleDigest (c_scope c)) digest).
Definition runningIn (repository : string) (c : chunkRow) : Z :=
  one (bool_decide (c_status c = ChunkRunning) && String.eqb (generationRepositoryID (k_repository (c_scope c))) repository).

(** The active schedules of a repository. *)
Definition activeIn (repository : string) (s : GenerationSchedule) : Z := one (isActive s && String.eqb (sp_Repository (s_spec s)) repository).

Record Inv (w : world) : Prop := {
  iv_clock : 1 <= w_clock w;
  iv_row : forall d s, t_schedules (w_tables w) !! d = Some s -> d = s_Digest s /\ RowOK s /\ s_UpdatedAt s <= w_clock w;
  iv_repository : forall d s, t_schedules (w_tables w) !! d = Some s ->
      is_Some (t_repositories (w_tables w) !! generationRepositoryID (sp_Repository (s_spec s)));
  iv_tokens : forall k y, t_repositories (w_tables w) !! k = Some y ->
      y_running y = msum (runningIn k) (t_chunks (w_tables w)) /\ y_running y <= MaxGenerationRepositoryTokens;
  iv_running : forall d s, t_schedules (w_tables w) !! d = Some s -> s_Running s = msum (runningFor d) (t_chunks (w_tables w));
  iv_chunk : forall id c, t_chunks (w_tables w) !! id = Some c ->
      exists s, t_schedules (w_tables w) !! k_scheduleDigest (c_scope c) = Some s /\ ScopeOK s (c_scope c);
  iv_lease : forall id c, t_chunks (w_tables w) !! id = Some c -> c_status c = ChunkRunning ->
      mkLease (c_leaseToken c) id (c_scope c) ∈ w_leases w /\ c_leaseToken c <> "" /\ c_claimedBy c <> "" /\ c_heartbeatAt c <> None;
  iv_unique : NoDup (l_token <$> w_leases w);
  iv_active : forall d s, t_schedules (w_tables w) !! d = Some s -> s_Status s = ScheduleActive ->
      currentDigest (sp_Repository (s_spec s)) (sp_Stage (s_spec s)) (w_tables w) = Some d;
  iv_current : forall k u, t_currents (w_tables w) !! k = Some u -> k = generationCurrentID (u_repository u) (u_stage u) /\
      exists s view, t_schedules (w_tables w) !! u_scheduleDigest u = Some s /\ sp_Repository (s_spec s) = u_repository u /\
        sp_Stage (s_spec s) = u_stage u /\ sp_Generation (s_spec s) = u_generation u /\ s_Status s <> ScheduleSuperseded /\
        ViewOK (t_chunks (w_tables w)) s view;
  iv_stages : forall r, msum (activeIn r) (t_schedules (w_tables w)) <= MaxGenerationActiveStagesPerRepository
}.

End Invariant.

(** ** Maintaining a view *)
Ltac view_sums :=
  repeat match goal with
  | H : ?m !! ?k = Some _ |- context [msum ?f (<[?k := _]> ?m)] => rewrite (msum_insert f m k _ _ H)
  | H : ?m !! ?k = None |- context [msum ?f (<[?k := _]> ?m)] => rewrite (msum_insert_new f m k _ H)
  end.

(** Evaluate the weights of a cell in a known state. *)
Lemma isStatus_eq st id n : isStatus st (mkCell id st n) = 1.
Proof. unfold isStatus. by rewrite bool_decide_eq_true_2. Qed.
Lemma isStatus_ne st st' id n : st' <> st -> isStatus st (mkCell id st' n) = 0.
Proof. intros Hne. unfold isStatus. by rewrite bool_decide_eq_false_2. Qed.
Lemma attempts_eq st id n : attempts (mkCell id st n) = n + 1.
Proof. reflexivity. Qed.
Ltac status_eval := rewrite ?isStatus_eq, ?attempts_eq; repeat rewrite isStatus_ne by discriminate.

Section Views.
Context `{CollisionFree}.

(** The changes of a row that move one of its cells from [v] to [v']. *)
Record Moved (s s' : GenerationSchedule) (v v' : cell) : Prop := {
  mv_digest : s_Digest s' = s_Digest s;
  mv_spec : s_spec s' = s_spec s;
  mv_next : s_NextOffset s' = s_NextOffset s;
  mv_pending : s_Pending s' = s_Pending s - isStatus ChunkPending v + isStatus ChunkPending v';
  mv_running : s_Running s' = s_Running s - isStatus ChunkRunning v + isStatus ChunkRunning v';
  mv_succeeded : s_Succeeded s' = s_Succeeded s - isStatus ChunkDone v + isStatus ChunkDone v';
  mv_failed : s_Failed s' = s_Failed s - isStatus ChunkFailed v + isStatus ChunkFailed v';
  mv_materialized : s_Materialized s' = s_Materialized s - attempts v + attempts v'
}.

(** The cell of a chunk that is not failed. *)
Lemma ViewOK_head chunks s view id c :
  ViewOK chunks s view -> chunks !! id = Some c -> k_scheduleDigest (c_scope c) = s_Digest s -> c_status c <> ChunkFailed ->
  exists j v, view !! j = Some v /\ v_id v = id /\ v_status v = c_status c /\ v_attempt v = k_attempt (c_scope c) /\
    k_offset (c_scope c) = j * sp_ChunkItems (s_spec s).
Proof.
  intros HV Hc Hd Hf. destruct (vo_rest _ _ _ HV id c Hc Hd) as (j & v & Ho & Hj & [Hid|[? _]]); [|done].
  exists j, v. destruct (vo_cell _ _ _ HV j v Hj) as (c' & Hc' & _ & _ & Hs & Ha & _). rewrite Hid in Hc'. simplify_eq. auto.
Qed.

Lemma ViewOK_cells chunks s view v' s' j v :
  ViewOK chunks s view -> view !! j = Some v -> Moved s s' v v' ->
  (forall i, is_Some (<[j := v']> view !! i) <-> 0 <= i < cells s') /\ msum (fun _ => 1) (<[j := v']> view) = cells s' /\
  s_Pending s' = msum (isStatus ChunkPending) (<[j := v']> view) /\ s_Running s' = msum (isStatus ChunkRunning) (<[j := v']> view) /\
  s_Succeeded s' = msum (isStatus ChunkDone) (<[j := v']> view) /\ s_Failed s' = msum (isStatus ChunkFailed) (<[j := v']> view) /\
  s_Materialized s' = msum attempts (<[j := v']> view).
Proof.
  intros HV Hj HM. pose proof HV as [Hdom Hsize _ _ Hp Hr Hs Hf Hm]. destruct HM as [Ed Ep En E1 E2 E3 E4 E5].
  assert (Ec : cells s' = cells s) by (unfold cells; congruence). rewrite Ec. view_sums. split; [|repeat split; lia].
  intros i. destruct (decide (i = j)) as [->|Hne].
  - rewrite lookup_insert_eq. split; [intros _; by apply Hdom|eauto].
  - rewrite lookup_insert_ne by congruence. apply Hdom.
Qed.

(** One cell changes state and keeps its chunk. *)
Lemma ViewOK_set chunks s s' view id c c' j v :
  1 <= sp_ChunkItems (s_spec s) -> ViewOK chunks s view -> chunks !! id = Some c -> k_scheduleDigest (c_scope c) = s_Digest s -> view !! j = Some v -> v_id v = id ->
  c_scope c' = c_scope c -> c_status c' <> ChunkCanceled -> Moved s s' v (mkCell id (c_status c') (v_attempt v)) ->
  ViewOK (<[id := c']> chunks) s' (<[j := mkCell id (c_status c') (v_attempt v)]> view).
Proof.
  intros Hci HV Hc Hd Hj Hid Hsc Hcan HM. destruct (ViewOK_cells _ _ _ _ _ _ _ HV Hj HM) as (D & Z1 & Z2 & Z3 & Z4 & Z5 & Z6).
  pose proof (mv_digest _ _ _ _ HM) as Ed. pose proof (mv_spec _ _ _ _ HM) as Es.
  destruct (vo_cell _ _ _ HV j v Hj) as (c0 & Hc0 & Hd0 & Ho0 & Hs0 & Ha0 & _). rewrite Hid in Hc0. simplify_eq.
  constructor; auto.
  - intros i x. rewrite lookup_insert_Some. intros [[<- <-]|[Hne Hi]]; cbn [v_id v_status v_attempt].
    + exists c'. rewrite lookup_insert_eq, Hsc, Ed, Es. auto 10.
    + destruct (vo_cell _ _ _ HV i x Hi) as (cx & Hcx & Hdx & Hox & Hsx & Hax & Hnx). exists cx. rewrite Ed, Es.
      rewrite lookup_insert_ne; [auto 10|]. intros Heq. rewrite <-Heq in Hcx. simplify_eq. rewrite Hox in Ho0.
      apply Hne. nia.
  - intros i cx Hi Hdx. rewrite Ed in Hdx. rewrite Es. apply lookup_insert_Some in Hi as [[<- <-]|[Hne Hi]].
    + exists j. eexists. rewrite lookup_insert_eq. split; [by rewrite Hsc|]. split; [done|]. by left.
    + destruct (vo_rest _ _ _ HV i cx Hi Hdx) as (i' & x & Ho & Hx & Hor). exists i'. destruct (decide (i' = j)) as [->|Hne'].
      * simplify_eq. eexists. rewrite lookup_insert_eq. split; [done|]. split; [done|]. cbn. tauto.
      * exists x. rewrite lookup_insert_ne by congruence. auto.
Qed.

(** The cell of a failed chunk passes to its successor. *)
Lemma ViewOK_retry chunks s s' view id c c' new n j v :
  1 <= sp_ChunkItems (s_spec s) -> ViewOK chunks s view -> chunks !! id = Some c -> k_scheduleDigest (c_scope c) = s_Digest s ->
  view !! j = Some v -> v_id v = id -> c_scope c' = c_scope c -> c_status c' = ChunkFailed ->
  chunks !! new = None -> k_scheduleDigest (c_scope n) = s_Digest s -> k_offset (c_scope n) = k_offset (c_scope c) ->
  k_attempt (c_scope n) = v_attempt v + 1 -> c_status n = ChunkPending -> Moved s s' v (mkCell new ChunkPending (v_attempt v + 1)) ->
  ViewOK (<[new := n]> (<[id := c']> chunks)) s' (<[j := mkCell new ChunkPending (v_attempt v + 1)]> view).
Proof.
  intros Hci HV Hc Hd Hj Hid Hsc Hst Hnew Hdn Hon Han Hsn HM. destruct (ViewOK_cells _ _ _ _ _ _ _ HV Hj HM) as (D & Z1 & Z2 & Z3 & Z4 & Z5 & Z6).
  pose proof (mv_digest _ _ _ _ HM) as Ed. pose proof (mv_spec _ _ _ _ HM) as Es.
  destruct (vo_cell _ _ _ HV j v Hj) as (c0 & Hc0 & Hd0 & Ho0 & Hs0 & Ha0 & _). rewrite Hid in Hc0. simplify_eq.
  assert (Hne : v_id v <> new) by congruence.
  constructor; auto.
  - intros i x. rewrite lookup_insert_Some. intros [[<- <-]|[Hij Hi]]; cbn [v_id v_status v_attempt].
    + exists n. rewrite lookup_insert_eq, Ed, Es. repeat split; auto; congruence.
    + destruct (vo_cell _ _ _ HV i x Hi) as (cx & Hcx & Hdx & Hox & Hsx & Hax & Hnx). exists cx. rewrite Ed, Es.
      rewrite lookup_insert_ne by congruence. rewrite lookup_insert_ne; [auto 10|]. intros Heq. rewrite <-Heq in Hcx. simplify_eq. apply Hij. nia.
  - intros i cx Hi Hdx. rewrite Ed in Hdx. rewrite Es. apply lookup_insert_Some in Hi as [[<- <-]|[Hni Hi]].
    + exists j. eexists. rewrite lookup_insert_eq. split; [congruence|]. split; [done|]. by left.
    + apply lookup_insert_Some in Hi as [[<- <-]|[Hne' Hi]].
      * exists j. eexists. rewrite lookup_insert_eq, Hsc. split; [done|]. split; [done|]. right. cbn. split; [done|lia].
      * destruct (vo_rest _ _ _ HV i cx Hi Hdx) as (i' & x & Ho & Hx & Hor). exists i'. destruct (decide (i' = j)) as [->|Hij].
        -- simplify_eq. eexists. rewrite lookup_insert_eq. split; [done|]. split; [done|]. right. cbn.
           destruct Hor as [Heq|[Hf Hl]]; [congruence|split; [done|lia]].
        -- exists x. rewrite lookup_insert_ne by congruence. auto.
Qed.

(** A fresh chunk takes the next cell. *)
Record Grown (s s' : GenerationSchedule) : Prop := {
  gr_digest : s_Digest s' = s_Digest s;
  gr_spec : s_spec s' = s_spec s;
  gr_cells : cells s' = cells s + 1;
  gr_pending : s_Pending s' = s_Pending s + 1;
  gr_materialized : s_Materialized s' = s_Materialized s + 1;
  gr_rest : s_Running s' = s_Running s /\ s_Succeeded s' = s_Succeeded s /\ s_Failed s' = s_Failed s
}.
Lemma ViewOK_grow chunks s s' view id c :
  0 <= cells s -> ViewOK chunks s view -> chunks !! id = None -> k_scheduleDigest (c_scope c) = s_Digest s ->
  k_offset (c_scope c) = cells s * sp_ChunkItems (s_spec s) -> k_attempt (c_scope c) = 0 -> c_status c = ChunkPending -> Grown s s' ->
  ViewOK (<[id := c]> chunks) s' (<[cells s := mkCell id ChunkPending 0]> view).
Proof.
  intros Hpos HV Hid Hd Ho Ha Hs [Ed Es Ec Ep Em (Er & Eu & Ef)]. pose proof HV as [Hdom Hsize _ _ Hp Hr Hu Hf Hm].
  assert (Hnone : view !! cells s = None) .
  { destruct (view !! cells s) eqn:E; [|done]. assert (D : is_Some (view !! cells s)) by (by rewrite E). apply Hdom in D. lia. }
  constructor; rewrite ?Ec, ?Ep, ?Er, ?Eu, ?Ef, ?Em; view_sums; status_eval; try lia.
  - intros i. destruct (decide (i = cells s)) as [->|Hne].
    + rewrite lookup_insert_eq. split; [lia|eauto].
    + rewrite lookup_insert_ne by congruence. rewrite Hdom. lia.
  - intros i x. rewrite lookup_insert_Some. intros [[<- <-]|[Hne Hi]]; cbn.
    + exists c. rewrite lookup_insert_eq, Ed, Es. repeat split; auto.
    + destruct (vo_cell _ _ _ HV i x Hi) as (cx & Hcx & Hx). exists cx. rewrite Ed, Es.
      rewrite lookup_insert_ne; [auto|]. congruence.
  - intros i cx Hi Hdx. rewrite Ed in Hdx. rewrite Es. apply lookup_insert_Some in Hi as [[<- <-]|[Hne Hi]].
    + exists (cells s). eexists. rewrite lookup_insert_eq. split; [done|]. split; [done|]. by left.
    + destruct (vo_rest _ _ _ HV i cx Hi Hdx) as (i' & x & Hox & Hx & Hor). exists i', x. split; [done|]. split; [|done].
      rewrite lookup_insert_ne; [done|]. intros <-. congruence.
Qed.

(** Chunks of other schedules do not matter, nor the rest of the row. *)
Lemma ViewOK_other chunks chunks' s view :
  ViewOK chunks s view -> (forall id c, k_scheduleDigest (c_scope c) = s_Digest s -> chunks' !! id = Some c <-> chunks !! id = Some c) ->
  ViewOK chunks' s view.
Proof.
  intros [H1 H2 H3 H4 H5 H6 H7 H8 H9] Hiff. constructor; auto.
  - intros j v Hj. destruct (H3 j v Hj) as (c & Hc & Hd & Hrest). exists c. split; [by apply Hiff|]. auto.
  - intros id c Hc Hd. apply (H4 id c); [by apply Hiff|done].
Qed.
Lemma ViewOK_same chunks s s' view :
  ViewOK chunks s view -> s_Digest s' = s_Digest s -> s_spec s' = s_spec s -> s_NextOffset s' = s_NextOffset s ->
  s_Pending s' = s_Pending s -> s_Running s' = s_Running s -> s_Succeeded s' = s_Succeeded s -> s_Failed s' = s_Failed s ->
  s_Materialized s' = s_Materialized s -> ViewOK chunks s' view.
Proof.
  intros [H1 H2 H3 H4 H5 H6 H7 H8 H9] E1 E2 E3 E4 E5 E6 E7 E8. constructor; unfold cells in *; rewrite ?E1, ?E2, ?E3, ?E4, ?E5, ?E6, ?E7, ?E8; auto.
Qed.

(** *** What the counters of a viewed row satisfy *)
Lemma isStatus_range st v : 0 <= isStatus st v <= 1.
Proof. unfold isStatus. destruct (bool_decide _); cbn; lia. Qed.

Lemma ViewOK_counts chunks s view :
  ViewOK chunks s view -> 0 <= cells s -> 1 <= sp_MaxAttempts (s_spec s) ->
  (forall id c, chunks !! id = Some c -> k_scheduleDigest (c_scope c) = s_Digest s -> 0 <= k_attempt (c_scope c) < sp_MaxAttempts (s_spec s)) ->
  0 <= s_Pending s /\ 0 <= s_Running s /\ 0 <= s_Succeeded s /\ 0 <= s_Failed s /\
  s_Pending s + s_Running s + s_Succeeded s + s_Failed s = cells s /\ cells s <= s_Materialized s <= cells s * sp_MaxAttempts (s_spec s).
Proof.
  intros HV Hc Hm Hatt. pose proof HV as [_ Hsize Hcell _ -> -> -> -> ->].
  assert (Hnn : forall st, 0 <= msum (isStatus st) view) by (intros st; apply msum_nonneg; intros; apply isStatus_range).
  repeat split; auto.
  - rewrite <-!msum_add, <-Hsize. apply msum_ext. intros j v Hj. destruct (Hcell j v Hj) as (_ & _ & _ & _ & _ & _ & Hn).
    unfold isStatus. destruct (v_status v); by vm_compute.
  - rewrite <-Hsize. apply msum_le. intros j v Hj. destruct (Hcell j v Hj) as (c & Hi & Hd & _ & _ & Ha & _). unfold attempts.
    specialize (Hatt _ _ Hi Hd). lia.
  - rewrite <-Hsize, Z.mul_comm, <-msum_scale. apply msum_le. intros j v Hj. destruct (Hcell j v Hj) as (c & Hi & Hd & _ & _ & Ha & _). unfold attempts.
    specialize (Hatt _ _ Hi Hd). lia.
Qed.
End Views.
