(* ===== verification/GenerationLeases.v ===== *)
(** * Generation schedules: ending leases

    Whichever way a lease ends, the tables keep their invariant. *)
From stdpp Require Import pretty sorting.
From Stdlib Require Import Ascii String.
From S2P Require Import Prelude.
From S2P Require Import GoStrings GoText GenerationSpec GenerationStore GenerationInvariant.

Section Leases.
Context `{CollisionFree}.
Implicit Types (w : world) (s : GenerationSchedule) (c : chunkRow) (t : tables).

(** ** Rows *)
Lemma admitted_OK spec : admitted spec -> SpecOK spec.
Proof. intros E. by destruct (normalize_Ok _ _ E). Qed.

Lemma RowOK_spec s : RowOK s -> SpecOK (s_spec s).
Proof. intros HR. apply admitted_OK, (ro_spec s HR). Qed.

Lemma chunksOf_mono a b k : 1 <= k -> a <= b -> chunksOf a k <= chunksOf b k.
Proof. intros Hk Hab. unfold chunksOf. apply Z.div_le_mono; lia. Qed.

Lemma chunksOf_nonneg a k : 1 <= k -> 0 <= a -> 0 <= chunksOf a k.
Proof. intros Hk Ha. unfold chunksOf. apply Z.div_pos; lia. Qed.

(** The digest of an admitted specification determines it. *)
Lemma digest_spec a b : admitted a -> admitted b -> generationScheduleDigest a = generationScheduleDigest b -> a = b.
Proof. intros Ha Hb. apply scheduleDigest_inj; by apply admitted_OK. Qed.

Lemma RowOK_viewed s s' chunks view :
  RowOK s -> s_Schema s' = s_Schema s -> s_Digest s' = s_Digest s -> s_spec s' = s_spec s -> s_TotalChunks s' = s_TotalChunks s ->
  (s_NextOffset s' = Z.min (sp_TotalItems (s_spec s)) (cells s' * sp_ChunkItems (s_spec s)) /\ 0 <= cells s') ->
  1 <= s_CreatedAt s' <= s_UpdatedAt s' -> ViewOK chunks s' view ->
  (forall id c, chunks !! id = Some c -> k_scheduleDigest (c_scope c) = s_Digest s -> 0 <= k_attempt (c_scope c) < sp_MaxAttempts (s_spec s)) ->
  (s_Status s' = ScheduleSettled -> s_NextOffset s' = sp_TotalItems (s_spec s) /\ s_Pending s' = 0 /\ s_Running s' = 0 /\
     s_Succeeded s' + s_Failed s' = s_TotalChunks s) ->
  (s_Status s' = ScheduleActive -> s_NextOffset s' < sp_TotalItems (s_spec s) \/ 0 < s_Pending s' + s_Running s') ->
  s_Running s' <= sp_RepositoryTokens (s_spec s) ->
  RowOK s'.
Proof.
  intros HR E1 E2 E3 E4 [Hnext Hcells] Htimes HV Hatt Hset Hlive Htok. pose proof (RowOK_spec s HR) as HS. pose proof HR as [R1 R2 R3 R4 _ _ _ _ _ _ _ _ _ _].
  pose proof (so_chunk _ HS). pose proof (so_attempts _ HS).
  rewrite <-E2, <-E3 in Hatt. destruct (ViewOK_counts chunks s' view HV Hcells) as (C1 & C2 & C3 & C4 & C5 & C6); [rewrite E3; lia|exact Hatt|].
  assert (cells s' <= s_TotalChunks s).
  { rewrite R4. unfold cells at 1. rewrite E3. apply chunksOf_mono; lia. }
  constructor; rewrite ?E1, ?E2, ?E3, ?E4; auto; try lia. split; [lia|]. rewrite E3 in C6. nia.
Qed.

Lemma ScopeOK_same s s' k :
  ScopeOK s k -> s_Digest s' = s_Digest s -> s_spec s' = s_spec s -> cells s <= cells s' -> ScopeOK s' k.
Proof.
  intros [H1 H2 H3 H4 H5 (j & Hj & Ho) H7 H8] E1 E2 Ec. constructor; rewrite ?E1, ?E2; auto. exists j. split; [lia|done].
Qed.

(** ** Ending a lease *)
Lemma runningFor_other d c : c_status c <> ChunkRunning -> runningFor d c = 0.
Proof. intros Hs. unfold runningFor. by rewrite bool_decide_eq_false_2. Qed.
Lemma runningIn_other r c : c_status c <> ChunkRunning -> runningIn r c = 0.
Proof. intros Hs. unfold runningIn. by rewrite bool_decide_eq_false_2. Qed.
Lemma runningFor_digest d c : k_scheduleDigest (c_scope c) <> d -> runningFor d c = 0.
Proof. intros Hs. unfold runningFor. apply String.eqb_neq in Hs. by rewrite Hs, andb_false_r. Qed.
Lemma runningIn_repository r c : generationRepositoryID (k_repository (c_scope c)) <> r -> runningIn r c = 0.
Proof. intros Hs. unfold runningIn. apply String.eqb_neq in Hs. by rewrite Hs, andb_false_r. Qed.
Lemma runningFor_here c : c_status c = ChunkRunning -> runningFor (k_scheduleDigest (c_scope c)) c = 1.
Proof. intros Hs. unfold runningFor. by rewrite bool_decide_eq_true_2, String.eqb_refl. Qed.
Lemma runningIn_here c : c_status c = ChunkRunning -> runningIn (generationRepositoryID (k_repository (c_scope c))) c = 1.
Proof. intros Hs. unfold runningIn. by rewrite bool_decide_eq_true_2, String.eqb_refl. Qed.
Lemma one_range b : 0 <= one b <= 1.
Proof. destruct b; cbn; lia. Qed.

(** [chunks'] is [chunks] after the lease of [id] has ended: its chunk no
    longer runs, and what is new belongs to the same schedule. *)
Record Ended (chunks : gmap string chunkRow) (id : string) (c : chunkRow) (s : GenerationSchedule) (chunks' : gmap string chunkRow) : Prop := {
  en_for : forall d, msum (runningFor d) chunks' = msum (runningFor d) chunks - runningFor d c;
  en_in : forall r, msum (runningIn r) chunks' = msum (runningIn r) chunks - runningIn r c;
  en_rows : forall i x, chunks' !! i = Some x ->
      (i <> id /\ chunks !! i = Some x) \/ (c_status x <> ChunkRunning /\ k_scheduleDigest (c_scope x) = s_Digest s /\ ScopeOK s (c_scope x));
  en_other : forall i x, k_scheduleDigest (c_scope x) <> s_Digest s -> chunks' !! i = Some x <-> chunks !! i = Some x
}.

Lemma Ended_set chunks id c c' s :
  chunks !! id = Some c -> c_status c = ChunkRunning -> k_scheduleDigest (c_scope c) = s_Digest s -> ScopeOK s (c_scope c) ->
  c_scope c' = c_scope c -> c_status c' <> ChunkRunning -> Ended chunks id c s (<[id := c']> chunks).
Proof.
  intros Hc Hr Hd Hk Hsc Hs. constructor.
  - intros d. rewrite (msum_insert _ _ _ _ _ Hc), (runningFor_other d c' Hs). lia.
  - intros r. rewrite (msum_insert _ _ _ _ _ Hc), (runningIn_other r c' Hs). lia.
  - intros i x Hi. apply lookup_insert_Some in Hi as [[<- <-]|[Hne Hi]]; [|auto]. right. by rewrite Hsc.
  - intros i x Hx. rewrite lookup_insert_Some. split.
    + intros [[<- <-]|[_ Hi]]; [congruence|done].
    + intros Hi. right. split; [|done]. intros <-. simplify_eq.
Qed.

Lemma Ended_successor chunks id c s chunks' new n :
  Ended chunks id c s chunks' -> chunks' !! new = None -> c_status n <> ChunkRunning -> k_scheduleDigest (c_scope n) = s_Digest s ->
  ScopeOK s (c_scope n) -> Ended chunks id c s (<[new := n]> chunks').
Proof.
  intros [H1 H2 H3 H4] Hnew Hs Hd Hk. constructor.
  - intros d. by rewrite (msum_insert_new _ _ _ _ Hnew), (runningFor_other d n Hs), H1.
  - intros r. by rewrite (msum_insert_new _ _ _ _ Hnew), (runningIn_other r n Hs), H2.
  - intros i x Hi. apply lookup_insert_Some in Hi as [[<- <-]|[Hne Hi]]; auto.
  - intros i x Hx. rewrite <-(H4 i x Hx), lookup_insert_Some. split.
    + intros [[<- <-]|[_ Hi]]; [congruence|done].
    + intros Hi. right. split; [|done]. intros <-. simplify_eq.
Qed.

(** The row that ends a lease. *)
Record RowEnds s s' (now : Z) : Prop := {
  re_schema : s_Schema s' = s_Schema s;
  re_digest : s_Digest s' = s_Digest s;
  re_spec : s_spec s' = s_spec s;
  re_total : s_TotalChunks s' = s_TotalChunks s;
  re_next : s_NextOffset s' = s_NextOffset s;
  re_created : s_CreatedAt s' = s_CreatedAt s;
  re_updated : s_UpdatedAt s' = now;
  re_running : s_Running s' = s_Running s - 1;
  re_status : s_Status s' = s_Status s \/ s_Status s' = ScheduleSettled
}.

Lemma running_row w id c :
  Inv w -> t_chunks (w_tables w) !! id = Some c -> c_status c = ChunkRunning ->
  exists s y, t_schedules (w_tables w) !! k_scheduleDigest (c_scope c) = Some s /\ ScopeOK s (c_scope c) /\ RowOK s /\
    k_scheduleDigest (c_scope c) = s_Digest s /\ 1 <= s_Running s /\ s_Status s <> ScheduleSettled /\
    t_repositories (w_tables w) !! generationRepositoryID (k_repository (c_scope c)) = Some y /\ 1 <= y_running y.
Proof.
  intros HI Hc Hr. destruct (iv_chunk w HI id c Hc) as (s & Hs & Hk). destruct (iv_row w HI _ _ Hs) as (Ed & HR & _).
  destruct (iv_repository w HI _ _ Hs) as [y Hy]. rewrite <-(ko_repository _ _ Hk) in Hy. exists s, y.
  assert (H1 : 1 <= s_Running s).
  { rewrite (iv_running w HI _ _ Hs), <-(runningFor_here c Hr). eapply msum_elem_le; [|exact Hc]. intros; apply one_range. }
  split_and!; auto.
  - intros Hset. destruct (ro_settled s HR Hset) as (_ & _ & E & _). lia.
  - rewrite (proj1 (iv_tokens w HI _ _ Hy)), <-(runningIn_here c Hr). eapply msum_elem_le; [|exact Hc]. intros; apply one_range.
Qed.

Lemma schedules_ended w now id c s chunks' g :
  Inv w -> w_clock w <= now -> t_chunks (w_tables w) !! id = Some c -> c_status c = ChunkRunning ->
  t_schedules (w_tables w) !! k_scheduleDigest (c_scope c) = Some s -> Ended (t_chunks (w_tables w)) id c s chunks' ->
  RowEnds s (g s) now -> RowOK (g s) ->
  (forall view, isCurrent (mkGenerationChunk id c) (w_tables w) = true -> ViewOK (t_chunks (w_tables w)) s view -> exists view', ViewOK chunks' (g s) view') ->
  Inv (mkWorld ((w_tables w) <| t_chunks := chunks' |> <| t_schedules ::= alter g (k_scheduleDigest (c_scope c)) |>
         <| t_repositories ::= alter (fun y => y <| y_running ::= Z.add (-1) |>) (generationRepositoryID (k_repository (c_scope c))) |>) now (w_leases w)).
Proof.
  intros HI Hnow Hc Hr Hs HE HG HRow HV. set (d := k_scheduleDigest (c_scope c)) in *.
  destruct (running_row w id c HI Hc Hr) as (s0 & y & Hs0 & Hk & HR & Ed & Hpos & Hset & Hy & Hypos). fold d in Hs0, Ed. assert (s0 = s) as -> by congruence.
  assert (Hcells : cells (g s) = cells s) by (unfold cells; rewrite (re_next _ _ _ HG), (re_spec _ _ _ HG); done).
  assert (Hspec : forall d' s', alter g d (t_schedules (w_tables w)) !! d' = Some s' ->
      exists s'', t_schedules (w_tables w) !! d' = Some s'' /\ s_spec s' = s_spec s'' /\ s_Digest s' = s_Digest s'' /\ (s' = s'' \/ (d' = d /\ s'' = s /\ s' = g s))).
  { intros d' s' Hd'. destruct (decide (d' = d)) as [->|Hne].
    - rewrite lookup_alter_eq, Hs in Hd'. injection Hd' as <-. exists s. rewrite (re_spec _ _ _ HG), (re_digest _ _ _ HG). split_and!; auto.
    - rewrite lookup_alter_ne in Hd' by congruence. exists s'. split_and!; auto. }
  constructor; cbn.
  - pose proof (iv_clock w HI). lia.
  - intros d' s' Hd'. destruct (Hspec d' s' Hd') as (s'' & Hs'' & _ & E & [->|(-> & -> & ->)]).
    + destruct (iv_row w HI d' s'' Hs'') as (? & ? & ?). split_and!; auto. lia.
    + rewrite E. split; [done|]. split; [done|]. rewrite (re_updated _ _ _ HG). lia.
  - intros d' s' Hd'. destruct (Hspec d' s' Hd') as (s'' & Hs'' & -> & _). destruct (iv_repository w HI d' s'' Hs'') as [z Hz].
    rewrite lookup_alter. case_decide as E; [rewrite E|]; rewrite Hz; by eexists.
  - intros k z Hz. rewrite (en_in _ _ _ _ _ HE). destruct (decide (k = generationRepositoryID (k_repository (c_scope c)))) as [->|Hne].
    + rewrite lookup_alter_eq, Hy in Hz. injection Hz as <-. cbn. destruct (iv_tokens w HI _ _ Hy) as [-> ?].
      rewrite (runningIn_here c Hr). lia.
    + rewrite lookup_alter_ne in Hz by congruence. destruct (iv_tokens w HI _ _ Hz) as [-> ?]. rewrite runningIn_repository by congruence. lia.
  - intros d' s' Hd'. rewrite (en_for _ _ _ _ _ HE). destruct (decide (d' = d)) as [->|Hne].
    + rewrite lookup_alter_eq, Hs in Hd'. injection Hd' as <-. rewrite (re_running _ _ _ HG), (iv_running w HI _ _ Hs).
      unfold d. rewrite (runningFor_here c Hr). lia.
    + rewrite lookup_alter_ne in Hd' by congruence. rewrite (iv_running w HI _ _ Hd'), runningFor_digest by (fold d; congruence). lia.
  - intros i x Hi. destruct (en_rows _ _ _ _ _ HE i x Hi) as [[Hne Hx]|(_ & Hdx & Hkx)].
    + destruct (iv_chunk w HI i x Hx) as (sx & Hsx & Hkx). destruct (decide (k_scheduleDigest (c_scope x) = d)) as [E|Hned].
      * rewrite E in Hsx |- *. assert (sx = s) as -> by congruence. exists (g s). rewrite lookup_alter_eq, Hs. split; [done|].
        eapply ScopeOK_same; [exact Hkx|apply HG|apply HG|lia].
      * exists sx. rewrite lookup_alter_ne by congruence. auto.
    + rewrite Hdx, <-Ed. exists (g s). rewrite lookup_alter_eq, Hs. split; [done|]. eapply ScopeOK_same; [exact Hkx|apply HG|apply HG|lia].
  - intros i x Hi Hrx. destruct (en_rows _ _ _ _ _ HE i x Hi) as [[Hne Hx]|(Hn & _)]; [|done]. by apply (iv_lease w HI i x Hx).
  - apply (iv_unique w HI).
  - intros d' s' Hd' Hact. destruct (Hspec d' s' Hd') as (s'' & Hs'' & -> & _ & [->|(-> & -> & ->)]).
    + apply (iv_active w HI d' s'' Hs'' Hact).
    + apply (iv_active w HI d s Hs). destruct (re_status _ _ _ HG) as [E|E]; congruence.
  - intros k u Hu. destruct (iv_current w HI k u Hu) as (Hk' & su & view & Hsu & E1 & E2 & E3 & Hst & HVu). split; [done|].
    destruct (decide (u_scheduleDigest u = d)) as [E|Hne].
    + rewrite E in Hsu |- *. assert (su = s) as -> by congruence. destruct (HV view) as [view' HV']; [|done|].
      * unfold isCurrent, currentDigest, g_scope. cbn. apply bool_decide_eq_true_2.
        rewrite (ko_repository _ _ Hk), (ko_stage _ _ Hk), E1, E2, <-Hk', Hu. cbn. by rewrite E.
      * exists (g s), view'. rewrite lookup_alter_eq, Hs, (re_spec _ _ _ HG). split_and!; auto.
        destruct (re_status _ _ _ HG) as [->| ->]; [done|discriminate].
    + exists su, view. rewrite lookup_alter_ne by congruence. split_and!; auto.
      destruct (iv_row w HI _ _ Hsu) as [Edu _]. eapply ViewOK_other; [exact HVu|]. intros i x Hx. apply (en_other _ _ _ _ _ HE). congruence.
  - intros r. etransitivity; [apply msum_alter_le|apply (iv_stages w HI)]. intros x Hx. assert (x = s) as -> by congruence.
    unfold activeIn, isActive. rewrite (re_spec _ _ _ HG). destruct (re_status _ _ _ HG) as [->| ->]; [done|]. apply one_range.
Qed.

(** *** The ways a lease ends *)

(** The row of a schedule after one of its leases ended. *)
Definition ends (p u f m : Z) (settle : bool) (now : Z) s : GenerationSchedule :=
  s <| s_Running ::= Z.add (-1) |> <| s_Pending ::= Z.add p |> <| s_Succeeded ::= Z.add u |> <| s_Failed ::= Z.add f |>
    <| s_Materialized ::= Z.add m |> <| s_Status := if settle && settles s then ScheduleSettled else s_Status s |> <| s_UpdatedAt := now |>.

Lemma RowEnds_ends p u f m settle now s : RowEnds s (ends p u f m settle now s) now.
Proof. constructor; cbn; auto; try lia. destruct (settle && settles s); auto. Qed.

Lemma settles_true s : settles s = true -> s_NextOffset s = sp_TotalItems (s_spec s) /\ s_Pending s = 0 /\ s_Running s = 1 /\
  s_Succeeded s + s_Failed s + 1 = s_TotalChunks s.
Proof. unfold settles. intros Hs. bsplit. auto. Qed.

Lemma isCurrent_view w id c s :
  Inv w -> t_schedules (w_tables w) !! k_scheduleDigest (c_scope c) = Some s -> isCurrent (mkGenerationChunk id c) (w_tables w) = true ->
  exists view, ViewOK (t_chunks (w_tables w)) s view.
Proof.
  intros HI Hs Hcur. unfold isCurrent, currentDigest, g_scope in Hcur. cbn in Hcur. apply bool_decide_eq_true_1 in Hcur.
  destruct (t_currents (w_tables w) !! _) as [u|] eqn:Hu; [|discriminate]. cbn in Hcur. injection Hcur as Hd.
  destruct (iv_current w HI _ _ Hu) as (_ & s' & view & Hs' & _ & _ & _ & _ & HV). rewrite Hd in Hs'. simplify_eq. eauto.
Qed.

Lemma chunk_attempts w s :
  Inv w -> t_schedules (w_tables w) !! s_Digest s = Some s ->
  forall id c, t_chunks (w_tables w) !! id = Some c -> k_scheduleDigest (c_scope c) = s_Digest s -> 0 <= k_attempt (c_scope c) < sp_MaxAttempts (s_spec s).
Proof.
  intros HI Hs id c Hc Hd. destruct (iv_chunk w HI id c Hc) as (s' & Hs' & Hk). rewrite Hd, Hs in Hs'. simplify_eq. apply (ko_attempt _ _ Hk).
Qed.

Definition endedTables t (chunks' : gmap string chunkRow) (k : chunkScope) (g : GenerationSchedule -> GenerationSchedule) : tables :=
  t <| t_chunks := chunks' |> <| t_schedules ::= alter g (k_scheduleDigest k) |>
    <| t_repositories ::= alter (fun y => y <| y_running ::= Z.add (-1) |>) (generationRepositoryID (k_repository k)) |>.

Lemma fenced_inactive w id c s :
  Inv w -> t_schedules (w_tables w) !! k_scheduleDigest (c_scope c) = Some s -> isCurrent (mkGenerationChunk id c) (w_tables w) = false ->
  t_chunks (w_tables w) !! id = Some c -> s_Status s <> ScheduleActive.
Proof.
  intros HI Hs Hcur Hc Hact. unfold isCurrent, g_scope in Hcur. cbn in Hcur. apply bool_decide_eq_false_1 in Hcur. apply Hcur.
  destruct (iv_chunk w HI id c Hc) as (s' & Hs' & Hk). assert (s' = s) as -> by congruence.
  rewrite (ko_repository _ _ Hk), (ko_stage _ _ Hk). by apply (iv_active w HI).
Qed.

(** A superseded lease only leaves the counts of running chunks. *)
Lemma schedules_fenced w now id c c' :
  Inv w -> w_clock w <= now -> t_chunks (w_tables w) !! id = Some c -> c_status c = ChunkRunning ->
  isCurrent (mkGenerationChunk id c) (w_tables w) = false -> c_scope c' = c_scope c -> c_status c' <> ChunkRunning ->
  Inv (mkWorld (endedTables (w_tables w) (<[id := c']> (t_chunks (w_tables w))) (c_scope c) (ends 0 0 0 0 false now)) now (w_leases w)).
Proof.
  intros HI Hnow Hc Hr Hcur Hsc Hst. destruct (running_row w id c HI Hc Hr) as (s & y & Hs & Hk & HR & Ed & Hpos & Hset & Hy & Hypos).
  destruct (iv_row w HI _ _ Hs) as (_ & _ & Hup). apply (schedules_ended w now id c s _ _ HI Hnow Hc Hr Hs); [by eapply Ended_set|apply RowEnds_ends| |congruence].
  assert (Hact : s_Status s <> ScheduleActive) by (intros Hact; by apply (fenced_inactive w id c s HI Hs Hcur Hc)).
  destruct HR as [R1 R2 R3 R4 R5 R6 R7 R8 R9 R10 R11 R12 _ R14]. constructor; unfold cells in *; cbn; auto; try lia; tauto.
Qed.

Definition countsAs (st : GenerationChunkStatus) (now : Z) (settle : bool) : GenerationSchedule -> GenerationSchedule :=
  ends (one (bool_decide (st = ChunkPending))) (one (bool_decide (st = ChunkDone))) (one (bool_decide (st = ChunkFailed))) 0 settle now.

Lemma Moved_countsAs s v st now settle :
  v_status v = ChunkRunning -> st = ChunkPending \/ st = ChunkDone \/ st = ChunkFailed ->
  Moved s (countsAs st now settle s) v (mkCell (v_id v) st (v_attempt v)).
Proof.
  intros Hv Hst. destruct v as [vid vst va]. cbn in Hv. subst vst.
  destruct Hst as [->|[->| ->]]; constructor; cbn [v_id v_attempt]; status_eval; cbn; try reflexivity; vm_compute one; lia.
Qed.

Lemma ended_status st : st = ChunkPending \/ st = ChunkDone \/ st = ChunkFailed -> st <> ChunkRunning /\ st <> ChunkCanceled.
Proof. by intros [->|[->| ->]]. Qed.

(** A current schedule all of whose chunks but one are over is about to settle. *)
Lemma unsettled_live chunks s view :
  RowOK s -> ViewOK chunks s view ->
  (forall id c, chunks !! id = Some c -> k_scheduleDigest (c_scope c) = s_Digest s -> 0 <= k_attempt (c_scope c) < sp_MaxAttempts (s_spec s)) ->
  1 <= s_Running s -> settles s = false -> s_NextOffset s < sp_TotalItems (s_spec s) \/ 0 < s_Pending s + (s_Running s - 1).
Proof.
  intros HR HV Hatt Hpos Hs. pose proof (RowOK_spec s HR) as HS. pose proof (so_attempts _ HS). destruct (ro_next s HR) as [Hn Hc].
  destruct (ViewOK_counts chunks s view HV Hc ltac:(lia) Hatt) as (C1 & C2 & C3 & C4 & C5 & _).
  destruct (Z.eqb_spec (s_NextOffset s) (sp_TotalItems (s_spec s))) as [E|]; [right|left; lia].
  assert (cells s = s_TotalChunks s) by (unfold cells; rewrite E; symmetry; apply (ro_total s HR)).
  unfold settles in Hs. rewrite E, Z.eqb_refl in Hs. cbn [andb] in Hs.
  destruct (Z.eqb_spec (s_Pending s) 0), (Z.eqb_spec (s_Running s) 1); cbn [andb] in Hs; lia.
Qed.

(** A current lease moves its cell: given back, done or failed for good. *)
Lemma schedules_current w now id c c' settle :
  Inv w -> w_clock w <= now -> t_chunks (w_tables w) !! id = Some c -> c_status c = ChunkRunning ->
  isCurrent (mkGenerationChunk id c) (w_tables w) = true -> c_scope c' = c_scope c ->
  c_status c' = ChunkPending \/ c_status c' = ChunkDone \/ c_status c' = ChunkFailed -> (settle = true <-> c_status c' <> ChunkPending) ->
  Inv (mkWorld (endedTables (w_tables w) (<[id := c']> (t_chunks (w_tables w))) (c_scope c) (countsAs (c_status c') now settle)) now (w_leases w)).
Proof.
  intros HI Hnow Hc Hr Hcur Hsc Hst Hsettle. destruct (running_row w id c HI Hc Hr) as (s & y & Hs & Hk & HR & Ed & Hpos & Hset & Hy & Hypos).
  destruct (iv_row w HI _ _ Hs) as (_ & _ & Hup). pose proof (RowOK_spec s HR) as HS. pose proof (so_chunk _ HS).
  assert (HV : forall view, ViewOK (t_chunks (w_tables w)) s view -> exists view', ViewOK (<[id := c']> (t_chunks (w_tables w))) (countsAs (c_status c') now settle s) view').
  { intros view HV. destruct (ViewOK_head _ _ _ _ _ HV Hc Ed) as (j & v & Hj & Hid & Hvs & Hva & _); [congruence|].
    eexists. eapply ViewOK_set; eauto; [lia|apply (ended_status _ Hst)|]. rewrite <-Hid. apply Moved_countsAs; [congruence|exact Hst]. }
  destruct (isCurrent_view w id c s HI Hs Hcur) as [view HVs]. destruct (HV view HVs) as [view' HV'].
  apply (schedules_ended w now id c s _ _ HI Hnow Hc Hr Hs); [| | |intros v _; apply HV].
  - eapply Ended_set; try eassumption. apply (ended_status _ Hst).
  - unfold countsAs. apply RowEnds_ends.
  - eapply (RowOK_viewed s); [exact HR|reflexivity..| | |exact HV'| | | |cbn; pose proof (ro_tokens s HR); lia].
    + apply (ro_next s HR).
    + pose proof (ro_times s HR). cbn. lia.
    + intros i x Hi Hd. apply lookup_insert_Some in Hi as [[<- <-]|[_ Hi]]; [rewrite Hsc; apply (ko_attempt _ _ Hk)|].
      rewrite Ed in Hs. by eapply chunk_attempts.
    + unfold countsAs, ends. cbn. destruct settle; cbn; [|tauto]. destruct (settles s) eqn:Es; [|tauto]. intros _.
      apply settles_true in Es as (S1 & S2 & S3 & S4). rewrite bool_decide_eq_false_2 by (by apply Hsettle).
      destruct Hst as [E|[E|E]]; rewrite E; vm_compute one; [by apply Hsettle in E|lia..].
    + unfold countsAs, ends. cbn. intros Hact. destruct (decide (c_status c' = ChunkPending)) as [E|Hne].
      * rewrite E. vm_compute one. pose proof (ro_pending s HR). right. lia.
      * apply Hsettle in Hne as ->. destruct (settles s) eqn:Es; [discriminate|]. apply (unsettled_live (t_chunks (w_tables w)) s view) in Es; auto; [|by apply (chunk_attempts w s HI); rewrite <-Ed].
        pose proof (one_range (bool_decide (c_status c' = ChunkPending))). lia.
Qed.

(** A current lease whose attempt failed leaves its cell to the successor. *)
Lemma schedules_retried w now id c c' new n :
  Inv w -> w_clock w <= now -> t_chunks (w_tables w) !! id = Some c -> c_status c = ChunkRunning ->
  isCurrent (mkGenerationChunk id c) (w_tables w) = true -> c_scope c' = c_scope c -> c_status c' = ChunkFailed ->
  <[id := c']> (t_chunks (w_tables w)) !! new = None -> c_status n = ChunkPending ->
  c_scope n = successorScope (mkGenerationChunk id c) ->
  (forall s, t_schedules (w_tables w) !! k_scheduleDigest (c_scope c) = Some s -> k_attempt (c_scope c) + 1 < sp_MaxAttempts (s_spec s)) ->
  Inv (mkWorld (endedTables (w_tables w) (<[new := n]> (<[id := c']> (t_chunks (w_tables w)))) (c_scope c) (ends 1 0 0 1 false now)) now (w_leases w)).
Proof.
  intros HI Hnow Hc Hr Hcur Hsc Hst Hnew Hsn Hkn Hmax. destruct (running_row w id c HI Hc Hr) as (s & y & Hs & Hk & HR & Ed & Hpos & Hset & Hy & Hypos).
  specialize (Hmax s Hs). pose proof (RowOK_spec s HR) as HS. pose proof (so_chunk _ HS). pose proof (ko_attempt _ _ Hk).
  assert (Hid : id <> new) by (intros ->; by rewrite lookup_insert_eq in Hnew). pose proof Hnew as Hnew'. rewrite lookup_insert_ne in Hnew' by exact Hid.
  assert (HV : forall view, ViewOK (t_chunks (w_tables w)) s view ->
    exists view', ViewOK (<[new := n]> (<[id := c']> (t_chunks (w_tables w)))) (ends 1 0 0 1 false now s) view').
  { intros view HV. destruct (ViewOK_head _ _ _ _ _ HV Hc Ed) as (j & v & Hj & Hvid & Hvs & Hva & _); [congruence|].
    eexists. eapply ViewOK_retry; eauto; rewrite ?Hkn; cbn; try lia; auto.
    - unfold g_scope. cbn. lia.
    - destruct v as [vid vst va]. cbn in *. rewrite Hr in Hvs. subst. constructor; cbn [v_attempt]; status_eval; cbn; lia || reflexivity. }
  destruct (isCurrent_view w id c s HI Hs Hcur) as [view HVs]. destruct (HV view HVs) as [view' HV'].
  assert (Hkn' : ScopeOK s (c_scope n)).
  { rewrite Hkn. destruct Hk as [K1 K2 K3 K4 K5 K6 K7 K8]. unfold successorScope, g_scope. constructor; cbn; auto; try lia. by rewrite Ed. }
  assert (Hdn : k_scheduleDigest (c_scope n) = s_Digest s) by (rewrite Hkn; exact Ed).
  apply (schedules_ended w now id c s _ _ HI Hnow Hc Hr Hs); [| | |intros v _; apply HV].
  - apply Ended_successor; [|exact Hnew|congruence|exact Hdn|exact Hkn']. eapply Ended_set; try eassumption. congruence.
  - apply RowEnds_ends.
  - destruct (iv_row w HI _ _ Hs) as (_ & _ & Hup). eapply (RowOK_viewed s); [exact HR|reflexivity..| | |exact HV'| | | |cbn; pose proof (ro_tokens s HR); lia].
    + apply (ro_next s HR).
    + pose proof (ro_times s HR). cbn. lia.
    + intros i x Hi Hd. apply lookup_insert_Some in Hi as [[<- <-]|[_ Hi]]; [apply (ko_attempt _ _ Hkn')|].
      apply lookup_insert_Some in Hi as [[<- <-]|[_ Hi]]; [by rewrite Hsc|]. rewrite Ed in Hs. by eapply chunk_attempts.
    + cbn. tauto.
    + cbn. intros _. right. pose proof (ro_pending s HR). lia.
Qed.

(** ** The statements that end a lease *)
Lemma holds_lease chunk c : holds chunk c = true ->
  c_status c = ChunkRunning /\ c_leaseToken c = c_leaseToken (g_row chunk) /\ c_claimedBy c = c_claimedBy (g_row chunk) /\ c_scope c = g_scope chunk.
Proof.
  unfold holds. intros [[[Hs%bool_decide_eq_true_1 Hl%String.eqb_eq]%andb_true_iff Hc%String.eqb_eq]%andb_true_iff Hk%bool_decide_eq_true_1]%andb_true_iff.
  auto.
Qed.

Lemma endLease_Ok chunk owns f successor g answer t a t' :
  endLease chunk owns f successor g answer t = Ok (a, t') ->
  t' = t \/
  exists c t1, t_chunks t !! g_ID chunk = Some c /\ owns c = true /\
    createChunks successor (t <| t_chunks ::= insert (g_ID chunk) (f c) |>) = Ok t1 /\
    t' = endedTables t1 (t_chunks t1) (g_scope chunk) g.
Proof.
  unfold endLease. intros HS. destruct (t_chunks t !! g_ID chunk) as [c|]; [|left; by simplify_eq].
  destruct (owns c) eqn:Eo; [|left; by simplify_eq]. destruct (createChunks _ _) as [t1|] eqn:Ec; [|discriminate].
  right. exists c, t1. by simplify_eq.
Qed.

Lemma isCurrent_scope chunk c t : c_scope c = g_scope chunk -> isCurrent chunk t = isCurrent (mkGenerationChunk (g_ID chunk) c) t.
Proof. intros E. unfold isCurrent. by rewrite <-E. Qed.

Lemma endedTables_ext t chunks' k g g' : (forall s, g s = g' s) -> endedTables t chunks' k g = endedTables t chunks' k g'.
Proof. intros Hg. unfold endedTables, setter. cbn. f_equal. apply map_eq. intros d. rewrite !lookup_alter. case_decide; subst; [|done].
  destruct (t_schedules t !! _); cbn; [by rewrite Hg|done]. Qed.

Lemma NoDup_fmap_eq {A B} (f : A -> B) (l : list A) x y : NoDup (f <$> l) -> x ∈ l -> y ∈ l -> f x = f y -> x = y.
Proof.
  intros HN [i Hi]%list_elem_of_lookup_1 [j Hj]%list_elem_of_lookup_1 E.
  assert (i = j) as ->; [|congruence]. apply (NoDup_lookup (f <$> l) i j (f x)); [exact HN| |].
  - by rewrite list_lookup_fmap, Hi.
  - rewrite list_lookup_fmap, Hj. cbn. by rewrite E.
Qed.

Lemma w_same w now : Inv w -> w_clock w <= now -> Inv (mkWorld (w_tables w) now (w_leases w)).
Proof.
  intros [I1 I2 I3 I4 I5 I6 I7 I8 I9 I10 I11] Hnow. constructor; cbn; auto; [lia|]. intros d s Hs. destruct (I2 d s Hs) as (? & ? & ?). auto with lia.
Qed.

(** A lease that ends without a successor. *)
Lemma schedules_endLease w now chunk owns f g answer a t' :
  Inv w -> w_clock w <= now ->
  endLease chunk owns f [] g answer (w_tables w) = Ok (a, t') ->
  (forall c, t_chunks (w_tables w) !! g_ID chunk = Some c -> owns c = true -> c_status c = ChunkRunning /\ c_scope c = g_scope chunk) ->
  (forall c, c_scope (f c) = c_scope c) ->
  (if isCurrent chunk (w_tables w)
   then exists st settle, (forall c, c_status (f c) = st) /\ (st = ChunkPending \/ st = ChunkDone \/ st = ChunkFailed) /\
          (settle = true <-> st <> ChunkPending) /\ forall s, g s = countsAs st now settle s
   else (forall c, c_status (f c) = ChunkCanceled) /\ forall s, g s = ends 0 0 0 0 false now s) ->
  Inv (mkWorld t' now (w_leases w)).
Proof.
  intros HI Hnow HS Ho Hf Hcase. apply endLease_Ok in HS as [->|(c & t1 & Hc & Eo & Hsucc & ->)]; [by apply w_same|].
  cbn in Hsucc. injection Hsucc as <-. destruct (Ho c Hc Eo) as [Hr Hk]. rewrite (isCurrent_scope _ _ _ Hk) in Hcase. rewrite <-Hk.
  destruct (isCurrent _ _) eqn:Ecur.
  - destruct Hcase as (st & settle & Hst & Hor & Hse & Hg). pose proof (schedules_current w now _ c (f c) settle HI Hnow Hc Hr Ecur (Hf c)) as HC.
    rewrite !Hst in HC. specialize (HC Hor Hse). rewrite (endedTables_ext _ _ _ _ _ Hg). exact HC.
  - destruct Hcase as [Hst Hg]. pose proof (schedules_fenced w now _ c (f c) HI Hnow Hc Hr Ecur (Hf c)) as HC. rewrite Hst in HC.
    rewrite (endedTables_ext _ _ _ _ _ Hg). apply HC. discriminate.
Qed.

Lemma schedule_eta s : s = mkSchedule (s_Schema s) (s_Digest s) (s_spec s) (s_TotalChunks s) (s_NextOffset s) (s_Materialized s) (s_Pending s)
    (s_Running s) (s_Succeeded s) (s_Failed s) (s_Status s) (s_CreatedAt s) (s_UpdatedAt s) (s_LastClaimedAt s).
Proof. by destruct s. Qed.

Lemma schedules_complete w now chunk live a t' :
  Inv w -> w_clock w <= now -> completeGenerationChunkSQL chunk live now (w_tables w) = Ok (a, t') -> Inv (mkWorld t' now (w_leases w)).
Proof.
  intros HI Hnow HS. unfold completeGenerationChunkSQL in HS. destruct (negb _); [discriminate|].
  eapply schedules_endLease; [exact HI|exact Hnow|exact HS|by intros c _ (? & _ & _ & ?)%holds_lease|reflexivity|].
  destruct (isCurrent chunk (w_tables w)); [|by split]. exists ChunkDone, true. split_and!; auto. done.
Qed.

Lemma schedules_fail w now chunk live message a t' :
  Inv w -> w_clock w <= now -> failGenerationChunkSQL chunk live message now (w_tables w) = Ok (a, t') -> Inv (mkWorld t' now (w_leases w)).
Proof.
  intros HI Hnow HS. unfold failGenerationChunkSQL in HS. destruct (negb _); [discriminate|].
  eapply schedules_endLease; [exact HI|exact Hnow|exact HS|by intros c _ (? & _ & _ & ?)%holds_lease|reflexivity|].
  destruct (isCurrent chunk (w_tables w)); [|by split]. exists ChunkFailed, true. split_and!; auto. done.
Qed.

Lemma schedules_givenBack w now chunk owns notBefore message a t' :
  Inv w -> w_clock w <= now ->
  endLease chunk owns (givenBack (isCurrent chunk (w_tables w)) notBefore message) [] (returned (isCurrent chunk (w_tables w)) now)
    (fun owned => mkTransition owned (isCurrent chunk (w_tables w)) false) (w_tables w) = Ok (a, t') ->
  (forall c, t_chunks (w_tables w) !! g_ID chunk = Some c -> owns c = true -> c_status c = ChunkRunning /\ c_scope c = g_scope chunk) ->
  Inv (mkWorld t' now (w_leases w)).
Proof.
  intros HI Hnow HS Ho. eapply schedules_endLease; [exact HI|exact Hnow|exact HS|exact Ho|reflexivity|].
  destruct (isCurrent chunk (w_tables w)); [|by split]. exists ChunkPending, false. split_and!; auto. done.
Qed.

Lemma schedules_reap w now chunk cutoff a t' :
  Inv w -> w_clock w <= now -> mkLease (c_leaseToken (g_row chunk)) (g_ID chunk) (g_scope chunk) ∈ w_leases w ->
  reapGenerationChunkSQL chunk cutoff now (w_tables w) = Ok (a, t') -> Inv (mkWorld t' now (w_leases w)).
Proof.
  intros HI Hnow Hin HS. unfold reapGenerationChunkSQL in HS. eapply schedules_givenBack; [exact HI|exact Hnow|exact HS|].
  intros c Hc Ho. unfold stale in Ho. repeat (apply andb_true_iff in Ho as [Ho ?]). apply bool_decide_eq_true_1 in Ho.
  split; [exact Ho|]. destruct (iv_lease w HI _ c Hc Ho) as (Hl & _). match goal with E : String.eqb (c_leaseToken c) _ = true |- _ => apply String.eqb_eq in E; rewrite E in Hl end.
  assert (E : mkLease (c_leaseToken (g_row chunk)) (g_ID chunk) (c_scope c) = mkLease (c_leaseToken (g_row chunk)) (g_ID chunk) (g_scope chunk)); [|by injection E].
  by apply (NoDup_fmap_eq l_token (w_leases w) _ _ (iv_unique w HI) Hl Hin).
Qed.

Lemma schedules_retry w now chunk live maxAttempts message notBefore newID a t' :
  Inv w -> w_clock w <= now -> permitted (QRetry chunk live maxAttempts message notBefore newID) w ->
  retryGenerationChunkSQL chunk live maxAttempts message notBefore newID now (w_tables w) = Ok (a, t') -> Inv (mkWorld t' now (w_leases w)).
Proof.
  intros HI Hnow (spec & Hadm & Hdig & ->) HS. unfold retryGenerationChunkSQL in HS. destruct (negb _); [discriminate|].
  destruct (isCurrent chunk (w_tables w) && negb (sp_MaxAttempts spec <=? k_attempt (g_scope chunk) + 1)) eqn:Eagain.
  - apply endLease_Ok in HS as [->|(c & t1 & Hc & Eo & Hsucc & ->)]; [by apply w_same|].
    apply holds_lease in Eo as (Hr & _ & _ & Hk). apply andb_true_iff in Eagain as [Ecur Eex]. rewrite Ecur in *. cbn [andb] in *.
    apply negb_true_iff in Eex. rewrite Eex in *. cbn in Hsucc. unfold createChunk in Hsucc. cbn in Hsucc. destruct (<[_ := _]> _ !! newID) eqn:Hnew; [discriminate|].
    destruct (chunkByIdentity _ _); [discriminate|]. injection Hsucc as <-. rewrite (isCurrent_scope _ _ _ Hk) in Ecur. rewrite <-Hk.
    set (c' := _ <| c_error := message |>) in *.
    refine (eq_rect _ (fun t' => Inv (mkWorld t' now (w_leases w))) (schedules_retried w now (g_ID chunk) c c' newID
      (newChunk (successorScope chunk) GenerationPriorityRetry (Some notBefore)) HI Hnow Hc Hr Ecur eq_refl eq_refl Hnew eq_refl _ _) _ _).
    + unfold successorScope, g_scope. cbn. unfold g_scope in Hk. by rewrite Hk.
    + intros s Hs. destruct (iv_row w HI _ _ Hs) as (Ed & HR & _). pose proof (ro_digest s HR) as Edig. rewrite <-Ed, Hk, Hdig in Edig.
      apply digest_spec in Edig; [|exact Hadm|apply (ro_spec s HR)]. rewrite Hk, <-Edig. bsplit. lia.
    + rewrite (endedTables_ext _ _ _ _ (fun s => _ s) (fun s => eq_refl)). reflexivity.
  - eapply schedules_endLease; [exact HI|exact Hnow|exact HS|by intros c _ (? & _ & _ & ?)%holds_lease|reflexivity|].
    destruct (isCurrent chunk (w_tables w)); [|by split]. cbn [andb] in Eagain. apply negb_false_iff in Eagain. rewrite Eagain.
    exists ChunkFailed, true. split_and!; auto. done.
Qed.
End Leases.
