(* ===== verification/GenerationSteps.v ===== *)
(** * Generation schedules: every statement keeps the invariant *)
From stdpp Require Import pretty sorting.
From Stdlib Require Import Ascii String.
From S2P Require Import Prelude.
From S2P Require Import GoStrings GoText GenerationSpec GenerationStore GenerationInvariant GenerationLeases.

Section Steps.
Context `{CollisionFree}.
Implicit Types (w : world) (s : GenerationSchedule) (c : chunkRow) (t : tables).

(** ** Heartbeats *)
Lemma Moved_id s v : Moved s s v (mkCell (v_id v) (v_status v) (v_attempt v)).
Proof. destruct v. constructor; cbn; lia || reflexivity. Qed.

Lemma schedules_heartbeat w now chunk live a t' :
  Inv w -> w_clock w <= now -> heartbeatGenerationChunkSQL chunk live now (w_tables w) = Ok (a, t') -> Inv (mkWorld t' now (w_leases w)).
Proof.
  intros HI Hnow HS. unfold heartbeatGenerationChunkSQL in HS. destruct (negb _); [discriminate|].
  destruct (t_chunks (w_tables w) !! g_ID chunk) as [c|] eqn:Hc; [|injection HS as <- <-; by apply w_same].
  destruct (holds chunk c) eqn:Eh; injection HS as <- <-; [|by apply w_same]. apply holds_lease in Eh as (Hr & _ & _ & Hk).
  destruct (w_same w now HI Hnow) as [I1 I2 I3 I4 I5 I6 I7 I8 I9 I10 I11]. cbn in *. constructor; cbn; auto.
  - intros k y Hy. rewrite (msum_insert _ _ _ _ _ Hc). destruct (I4 k y Hy) as [-> ?]. split; [|done].
    change (runningIn k (c <| c_heartbeatAt := Some now |>)) with (runningIn k c). lia.
  - intros d s Hs. rewrite (msum_insert _ _ _ _ _ Hc), (I5 d s Hs).
    change (runningFor d (c <| c_heartbeatAt := Some now |>)) with (runningFor d c). lia.
  - intros id x Hx. apply lookup_insert_Some in Hx as [[<- <-]|[_ Hx]]; [apply (I6 _ c Hc)|by apply (I6 id x)].
  - intros id x Hx Hrx. apply lookup_insert_Some in Hx as [[<- <-]|[_ Hx]]; [|by apply (I7 id x)].
    destruct (I7 _ c Hc Hr) as (? & ? & ? & _). cbn. split_and!; auto.
  - intros k u Hu. destruct (I10 k u Hu) as (Hk' & s & view & Hs & E1 & E2 & E3 & Hst & HV). split; [done|].
    destruct (I2 _ _ Hs) as (Ed & HR & _). pose proof (so_chunk _ (RowOK_spec s HR)).
    destruct (decide (k_scheduleDigest (c_scope c) = s_Digest s)) as [E|Hne].
    + destruct (ViewOK_head _ _ _ _ _ HV Hc E) as (j & v & Hj & Hid & Hvs & Hva & _); [congruence|]. exists s. eexists.
      split_and!; eauto. eapply ViewOK_set; eauto; cbn; [lia|congruence|]. rewrite <-Hvs, <-Hid. apply Moved_id.
    + exists s, view. split_and!; auto. eapply ViewOK_other; [exact HV|]. intros i x Hx. rewrite lookup_insert_Some. split.
      * intros [[<- <-]|[_ ?]]; [by cbn in Hx|done].
      * intros Hi. right. split; [|done]. intros <-. congruence.
Qed.

(** ** Claiming *)
Lemma first_elem {A} (before : A -> A -> bool) l x : first before l = Some x -> x ∈ l.
Proof.
  revert x. induction l as [|y l IH]; intros x Hf; cbn in Hf; [discriminate|]. destruct (first before l) as [z|].
  - destruct (before z y); injection Hf as <-; [right; by apply IH|left].
  - injection Hf as <-. left.
Qed.

(** What a claim that finds a candidate has checked. *)
Record Claimable t (schedule : GenerationSchedule) (id : string) (now : Z) s c : Prop := {
  cl_row : t_schedules t !! s_Digest schedule = Some s;
  cl_current : currentDigest (sp_Repository (s_spec schedule)) (sp_Stage (s_spec schedule)) t = Some (s_Digest schedule);
  cl_active : s_Status s = ScheduleActive;
  cl_tokens : forall y, t_repositories t !! generationRepositoryID (sp_Repository (s_spec schedule)) = Some y ->
      y_running y < sp_RepositoryTokens (s_spec schedule);
  cl_chunk : t_chunks t !! id = Some c;
  cl_pending : c_status c = ChunkPending;
  cl_due : match c_notBefore c with None => True | Some b => b <= now end;
  cl_digest : k_scheduleDigest (c_scope c) = s_Digest schedule
}.

Lemma claimSelection_Some schedule plan now t id :
  claimSelection schedule plan now t = Some id -> exists s c, Claimable t schedule id now s c.
Proof.
  unfold claimSelection. destruct (t_schedules t !! s_Digest schedule) as [s|] eqn:Hs; [|discriminate].
  match goal with |- context [if ?b then _ else _] => destruct b eqn:Eb end; [|discriminate].
  apply andb_true_iff in Eb as [Eb Etok]. apply andb_true_iff in Eb as [Eb _]. apply andb_true_iff in Eb as [Ecur Eact].
  apply bool_decide_eq_true_1 in Ecur, Eact.
  destruct (first _ _) as [[id' c]|] eqn:Ef; [|discriminate]. intros [= <-]. apply first_elem in Ef.
  apply list_elem_of_filter in Ef as [Ecl Hin]. apply elem_of_map_to_list in Hin. cbn in Ecl. unfold claimable in Ecl.
  repeat (apply andb_true_iff in Ecl as [Ecl ?]). exists s, c. cbn. constructor; auto.
  - intros y Hy. rewrite Hy in Etok. by apply Z.ltb_lt.
  - by match goal with E : bool_decide _ = true |- _ => apply bool_decide_eq_true_1 in E end.
  - destruct (c_notBefore c); [lia|done].
  - by apply String.eqb_eq.
Qed.

Definition claimedTables t (schedule : GenerationSchedule) (id : string) c (now : Z) : tables :=
  t <| t_chunks ::= insert id c |>
    <| t_schedules ::= alter (fun s => s <| s_Pending ::= Z.add (-1) |> <| s_Running ::= Z.add 1 |>
         <| s_LastClaimedAt := Some now |> <| s_UpdatedAt := now |>) (s_Digest schedule) |>
    <| t_repositories ::= alter (fun y => y <| y_running ::= Z.add 1 |> <| y_lastClaimedAt := Some now |>)
         (generationRepositoryID (sp_Repository (s_spec schedule))) |>.

Lemma claim_Ok schedule live plan id worker token now t r t' :
  claimGenerationChunkSQL schedule live plan id worker token now t = Ok (r, t') ->
  (r = None /\ t' = t) \/
  exists s c, Claimable t schedule id now s c /\ r = Some (mkGenerationChunk id (leased worker token now c)) /\
    t' = claimedTables t schedule id (leased worker token now c) now.
Proof.
  unfold claimGenerationChunkSQL. destruct (_ && _); [discriminate|].
  destruct (claimSelection schedule plan now t) as [id'|] eqn:Es; [|intros [= <- <-]; by left].
  destruct (String.eqb_spec id' id) as [->|]; cbn [negb]; [|discriminate]. destruct (claimSelection_Some _ _ _ _ _ Es) as (s & c & HC).
  rewrite (cl_chunk _ _ _ _ _ _ HC), bool_decide_eq_true_2 by apply (cl_pending _ _ _ _ _ _ HC). intros [= <- <-]. right. eauto.
Qed.

(** The row a snapshot was read from still has its specification. *)
Lemma snapshot_spec w schedule s :
  Inv w -> readSchedule schedule -> t_schedules (w_tables w) !! s_Digest schedule = Some s -> s_spec schedule = s_spec s.
Proof.
  intros HI [Hadm Hdig] Hs. destruct (iv_row w HI _ _ Hs) as (Ed & HR & _). apply digest_spec; [exact Hadm|apply (ro_spec s HR)|].
  rewrite <-Hdig, Ed. apply (ro_digest s HR).
Qed.

(** The chunks a schedule runs hold tokens of its repository. *)
Lemma running_le w d s :
  Inv w -> t_schedules (w_tables w) !! d = Some s ->
  exists y, t_repositories (w_tables w) !! generationRepositoryID (sp_Repository (s_spec s)) = Some y /\ s_Running s <= y_running y.
Proof.
  intros HI Hs. destruct (iv_repository w HI d s Hs) as [y Hy]. exists y. split; [exact Hy|].
  rewrite (iv_running w HI d s Hs), (proj1 (iv_tokens w HI _ y Hy)). apply msum_le. intros i x Hx.
  unfold runningFor, runningIn. destruct (String.eqb_spec (k_scheduleDigest (c_scope x)) d) as [E|]; [|rewrite andb_false_r; apply one_range].
  destruct (iv_chunk w HI i x Hx) as (sx & Hsx & Hkx). rewrite E in Hsx. assert (sx = s) as -> by congruence.
  by rewrite (ko_repository _ _ Hkx), String.eqb_refl.
Qed.

Lemma schedules_claimed w now schedule id worker token s c :
  Inv w -> w_clock w <= now -> readSchedule schedule -> token <> "" -> worker <> "" -> token ∉ l_token <$> w_leases w ->
  Claimable (w_tables w) schedule id now s c ->
  Inv (mkWorld (claimedTables (w_tables w) schedule id (leased worker token now c) now) now (mkLease token id (c_scope c) :: w_leases w)).
Proof.
  intros HI Hnow Hread Htok Hwork Hfresh HC. pose proof (cl_row _ _ _ _ _ _ HC) as Hs. pose proof (snapshot_spec w schedule s HI Hread Hs) as Espec.
  pose proof (cl_chunk _ _ _ _ _ _ HC) as Hc. pose proof (cl_pending _ _ _ _ _ _ HC) as Hpend. pose proof (cl_digest _ _ _ _ _ _ HC) as Hdig.
  destruct (iv_row w HI _ _ Hs) as (Ed & HR & Hup). pose proof (RowOK_spec s HR) as HS. pose proof (so_chunk _ HS). pose proof (so_tokens _ HS).
  destruct (iv_chunk w HI id c Hc) as (s0 & Hs0 & Hk). rewrite Hdig in Hs0. assert (s0 = s) as -> by congruence. clear Hs0.
  set (c' := leased worker token now c). set (d := s_Digest schedule) in *. set (rep := generationRepositoryID (sp_Repository (s_spec schedule))).
  set (g := fun s => s <| s_Pending ::= Z.add (-1) |> <| s_Running ::= Z.add 1 |> <| s_LastClaimedAt := Some now |> <| s_UpdatedAt := now |>).
  assert (Hfor : forall d', runningFor d' c = 0 /\ runningFor d' c' = one (String.eqb d d')).
  { intros d'. rewrite runningFor_other by congruence. split; [done|]. unfold runningFor, c', leased. cbn. by rewrite bool_decide_eq_true_2, Hdig. }
  assert (Hin : forall r, runningIn r c = 0 /\ runningIn r c' = one (String.eqb rep r)).
  { intros r. rewrite runningIn_other by congruence. split; [done|]. unfold runningIn, c', leased. cbn. rewrite bool_decide_eq_true_2 by done.
    unfold rep. by rewrite (ko_repository _ _ Hk), Espec. }
  assert (HV : exists u view, t_currents (w_tables w) !! generationCurrentID (sp_Repository (s_spec schedule)) (sp_Stage (s_spec schedule)) = Some u /\
    u_scheduleDigest u = d /\ ViewOK (<[id := c']> (t_chunks (w_tables w))) (g s) view).
  { pose proof (cl_current _ _ _ _ _ _ HC) as Hcur. unfold currentDigest in Hcur. destruct (t_currents _ !! _) as [u|] eqn:Hu; [|discriminate].
    injection Hcur as Hud. destruct (iv_current w HI _ _ Hu) as (_ & s1 & view & Hs1 & _ & _ & _ & _ & HV).
    rewrite Hud in Hs1. fold d in Hs1. assert (s1 = s) as -> by congruence.
    assert (Hdig' : k_scheduleDigest (c_scope c) = s_Digest s) by (rewrite Hdig; exact Ed).
    destruct (ViewOK_head _ _ _ _ _ HV Hc Hdig') as (j & v & Hj & Hid & Hvs & Hva & _); [congruence|].
    exists u. eexists. split; [done|]. split; [done|]. eapply ViewOK_set; eauto; [lia|].
    destruct v as [vid vst va]. cbn in *. rewrite Hpend in Hvs. subst. constructor; cbn [v_attempt c' leased c_status]; status_eval; cbn; lia || reflexivity. }
  destruct HV as (u & view & Hu & Hud & HV).
  assert (HRg : RowOK (g s)).
  { eapply (RowOK_viewed s); [exact HR|reflexivity..| | |exact HV| | | |].
    - apply (ro_next s HR).
    - pose proof (ro_times s HR). cbn. lia.
    - intros i x Hi Hdx. apply lookup_insert_Some in Hi as [[<- <-]|[_ Hi]]; [apply (ko_attempt _ _ Hk)|]. rewrite Ed in Hs. by eapply chunk_attempts.
    - cbn. rewrite (cl_active _ _ _ _ _ _ HC). discriminate.
    - intros _. right. pose proof (vo_pending _ _ _ HV) as Hp. rewrite Hp. cbn. pose proof (ro_running s HR).
      pose proof (msum_nonneg (isStatus ChunkPending) view (fun _ v _ => proj1 (isStatus_range ChunkPending v))). lia.
    - destruct (running_le w d s HI Hs) as (y & Hy & Hle). rewrite <-Espec in Hy |- *. pose proof (cl_tokens _ _ _ _ _ _ HC y Hy). cbn. lia. }
  constructor; cbn.
  - pose proof (iv_clock w HI). lia.
  - intros d' s' Hd'. apply lookup_alter_Some in Hd' as [(<- & s1 & Hs1 & ->)|(_ & Hd')].
    + fold d in Hs1. assert (s1 = s) as -> by congruence. fold (g s). split; [exact Ed|]. split; [exact HRg|]. cbn. lia.
    + destruct (iv_row w HI _ _ Hd') as (? & ? & ?). auto with lia.
  - intros d' s' Hd'. rewrite lookup_alter_is_Some. apply lookup_alter_Some in Hd' as [(<- & s1 & Hs1 & ->)|(_ & Hd')]; [apply (iv_repository w HI _ s1 Hs1)|by eapply (iv_repository w HI)].
  - intros k y Hy. rewrite (msum_insert _ _ _ _ _ Hc), (proj1 (Hin k)), (proj2 (Hin k)). apply lookup_alter_Some in Hy as [(<- & y1 & Hy1 & ->)|(Hne & Hy)].
    + fold rep. rewrite String.eqb_refl. pose proof (cl_tokens _ _ _ _ _ _ HC _ Hy1). destruct (iv_tokens w HI _ _ Hy1) as [E ?]. fold rep in E. cbn.
      rewrite Espec in *. lia.
    + destruct (iv_tokens w HI _ _ Hy) as [-> ?]. rewrite (proj2 (String.eqb_neq rep k)) by exact Hne. cbn. lia.
  - intros d' s' Hd'. rewrite (msum_insert _ _ _ _ _ Hc), (proj1 (Hfor d')), (proj2 (Hfor d')). apply lookup_alter_Some in Hd' as [(<- & s1 & Hs1 & ->)|(Hne & Hd')].
    + fold d in Hs1 |- *. rewrite String.eqb_refl. cbn. rewrite (iv_running w HI _ _ Hs1). lia.
    + rewrite (iv_running w HI _ _ Hd'), (proj2 (String.eqb_neq d d')) by exact Hne. cbn. lia.
  - intros i x Hx. assert (Hx' : exists x', t_chunks (w_tables w) !! i = Some x' /\ c_scope x' = c_scope x).
    { apply lookup_insert_Some in Hx as [[<- <-]|[_ Hx]]; eauto. }
    destruct Hx' as (x' & Hx' & <-). destruct (iv_chunk w HI i x' Hx') as (sx & Hsx & Hkx). rewrite lookup_alter. fold d.
    case_decide as E; [rewrite E|]; rewrite Hsx; cbn; eexists; (split; [reflexivity|]); [|done]. eapply ScopeOK_same; [exact Hkx|reflexivity..|unfold cells; cbn; lia].
  - intros i x Hx Hrx. apply lookup_insert_Some in Hx as [[<- <-]|[_ Hx]].
    + cbn. split_and!; auto. left.
    + destruct (iv_lease w HI i x Hx Hrx) as (? & ?). split; [by right|done].
  - apply NoDup_cons. split; [exact Hfresh|apply (iv_unique w HI)].
  - intros d' s' Hd' Hact. apply lookup_alter_Some in Hd' as [(<- & s1 & Hs1 & ->)|(Hne & Hd')]; [by apply (iv_active w HI _ s1)|by apply (iv_active w HI)].
  - intros k u' Hu'. destruct (iv_current w HI k u' Hu') as (Hk' & su & viewu & Hsu & E1 & E2 & E3 & Hst & HVu). split; [done|].
    rewrite lookup_alter. fold d. case_decide as E; [rewrite E|]; rewrite Hsu; cbn.
    + rewrite <-E in Hsu. assert (su = s) as -> by congruence. exists (g s), view. split_and!; auto.
    + exists su, viewu. split_and!; auto. destruct (iv_row w HI _ _ Hsu) as [Edu _]. eapply ViewOK_other; [exact HVu|].
      intros i x Hx. rewrite lookup_insert_Some. split.
      * intros [[<- <-]|[_ ?]]; [|done]. exfalso. apply E. rewrite Edu, <-Hx. by rewrite <-Hdig.
      * intros Hi. right. split; [|done]. intros <-. assert (x = c) as -> by congruence. apply E. rewrite Edu, <-Hx. by rewrite <-Hdig.
  - intros r. etransitivity; [apply msum_alter_le; intros x _; done|apply (iv_stages w HI)].
Qed.
End Steps.
