(* ===== verification/GenerationFanout.v ===== *)
(** * Generation schedules: fan-out

    A page of fan-out appends its chunks to the view of the schedule.  The
    arithmetic of the pages: as long as items remain, the offset of the schedule
    is a multiple of its chunk size, and the last chunk of the last page ends
    at the number of items. *)
From stdpp Require Import pretty sorting.
From Stdlib Require Import Ascii String.
From S2P Require Import Prelude.
From S2P Require Import GoStrings GoText GenerationSpec GenerationStore GenerationInvariant GenerationLeases GenerationSteps.

(** ** Counting chunks *)
Lemma chunksOf_unique total ci q : 1 <= ci -> (q - 1) * ci < total <= q * ci -> chunksOf total ci = q.
Proof. intros Hc Hq. unfold chunksOf. symmetry. apply (Z.div_unique _ _ _ (total + ci - 1 - ci * q)); nia. Qed.

Lemma chunksOf_below total ci q : 1 <= ci -> q < chunksOf total ci -> q * ci < total.
Proof.
  intros Hc Hq. unfold chunksOf in Hq. pose proof (Z.div_mod (total + ci - 1) ci). pose proof (Z.mod_pos_bound (total + ci - 1) ci). nia.
Qed.

Section Fanout.
Context `{CollisionFree}.
Implicit Types (w : world) (s : GenerationSchedule) (c : chunkRow) (t : tables).

(** The row after [k] more chunks. *)
Definition expandedBy (k : Z) s : GenerationSchedule :=
  s <| s_NextOffset := Z.min (sp_TotalItems (s_spec s)) (s_NextOffset s + k * sp_ChunkItems (s_spec s)) |>
    <| s_Materialized ::= Z.add k |> <| s_Pending ::= Z.add k |>.

Definition room s : Z := chunksOf (sp_TotalItems (s_spec s) - s_NextOffset s) (sp_ChunkItems (s_spec s)).

Lemma next_exact s : RowOK s -> 0 < room s -> s_NextOffset s = cells s * sp_ChunkItems (s_spec s) /\ s_NextOffset s < sp_TotalItems (s_spec s).
Proof.
  intros HR Hroom. pose proof (so_chunk _ (RowOK_spec s HR)). pose proof (chunksOf_below _ _ 0 (proj1 H1) Hroom).
  destruct (ro_next s HR) as [Hn _]. lia.
Qed.

Lemma next_expanded k s : s_NextOffset (expandedBy k s) = Z.min (sp_TotalItems (s_spec s)) (s_NextOffset s + k * sp_ChunkItems (s_spec s)).
Proof. reflexivity. Qed.

Lemma cells_expandedBy s k : RowOK s -> 0 <= k <= room s -> cells (expandedBy k s) = cells s + k.
Proof.
  intros HR Hk. pose proof (so_chunk _ (RowOK_spec s HR)) as Hci. pose proof (so_items _ (RowOK_spec s HR)).
  destruct (decide (k = 0)) as [->|].
  - destruct (ro_next s HR) as [Hn Hc]. unfold cells at 1. replace (s_NextOffset (expandedBy 0 s)) with (s_NextOffset s).
    2: { rewrite next_expanded. lia. }
    change (chunksOf _ _) with (cells s). lia.
  - destruct (next_exact s HR) as [En Hn]; [lia|]. unfold cells at 1, expandedBy. cbn. apply chunksOf_unique; [lia|].
    unfold room in Hk. assert (Hlt : k - 1 < chunksOf (sp_TotalItems (s_spec s) - s_NextOffset s) (sp_ChunkItems (s_spec s))) by lia.
    apply chunksOf_below in Hlt; [|lia]. destruct (ro_next s HR) as [_ Hc]. nia.
Qed.

Lemma next_expandedBy s k : RowOK s -> 0 <= k < room s -> s_NextOffset (expandedBy k s) = s_NextOffset s + k * sp_ChunkItems (s_spec s) /\
  s_NextOffset s + k * sp_ChunkItems (s_spec s) < sp_TotalItems (s_spec s).
Proof.
  intros HR Hk. pose proof (so_chunk _ (RowOK_spec s HR)) as Hci. unfold room in Hk.
  pose proof (chunksOf_below _ _ k (proj1 Hci) (proj2 Hk)). rewrite next_expanded. lia.
Qed.

(** The [index]-th chunk of a page. *)
Definition pageScope (schedule : GenerationSchedule) (index : nat) : chunkScope :=
  let offset := s_NextOffset schedule + Z.of_nat index * sp_ChunkItems (s_spec schedule) in
  let length := Z.min (sp_ChunkItems (s_spec schedule)) (sp_TotalItems (s_spec schedule) - offset) in
  mkScope (generationChunkID (s_Digest schedule) offset 0) (s_Digest schedule) (sp_Repository (s_spec schedule))
    (sp_Stage (s_spec schedule)) (sp_Generation (s_spec schedule)) (sp_ResourceClass (s_spec schedule)) offset length 0.

Lemma pageScope_OK s (k : nat) : RowOK s -> Z.of_nat k < room s -> ScopeOK (expandedBy (Z.of_nat k + 1) s) (pageScope s k).
Proof.
  intros HR Hk. destruct (next_exact s HR) as [En Hn]; [lia|]. pose proof (so_attempts _ (RowOK_spec s HR)).
  pose proof (ro_next s HR). constructor; cbn; auto; try lia. exists (cells s + Z.of_nat k).
  rewrite cells_expandedBy by (auto; lia). split; [lia|]. lia.
Qed.

Lemma expandedBy_grown s (k : nat) : RowOK s -> Z.of_nat k < room s -> Grown (expandedBy (Z.of_nat k) s) (expandedBy (Z.of_nat (S k)) s).
Proof.
  intros HR Hk. constructor; try reflexivity; [|cbn; lia..|done]. rewrite !cells_expandedBy by (auto; lia). lia.
Qed.

(** *** A page of chunks *)
Record Fanned s (a b : nat) (chunks chunks' : gmap string chunkRow) : Prop := {
  fa_view : forall view, ViewOK chunks (expandedBy (Z.of_nat a) s) view -> exists view', ViewOK chunks' (expandedBy (Z.of_nat b) s) view';
  fa_for : forall d, msum (runningFor d) chunks' = msum (runningFor d) chunks;
  fa_in : forall r, msum (runningIn r) chunks' = msum (runningIn r) chunks;
  fa_rows : forall i x, chunks' !! i = Some x ->
      chunks !! i = Some x \/ (c_status x = ChunkPending /\ k_scheduleDigest (c_scope x) = s_Digest s /\ ScopeOK (expandedBy (Z.of_nat b) s) (c_scope x));
  fa_other : forall i x, k_scheduleDigest (c_scope x) <> s_Digest s -> chunks' !! i = Some x <-> chunks !! i = Some x
}.

Lemma createChunks_fanned s : RowOK s -> forall b a ids t t', Z.of_nat (a + b) <= room s ->
  createChunks (zip ids ((fun k => newChunk k GenerationPriorityNeverRun None) <$> (pageScope s <$> seq a b))) t = Ok t' -> length ids = b ->
  exists chunks', t' = t <| t_chunks := chunks' |> /\ Fanned s a (a + b) (t_chunks t) chunks'.
Proof.
  intros HR. induction b as [|b IH]; intros a ids t t' Hroom HC Hl.
  - destruct ids; [|discriminate]. cbn in HC. injection HC as <-. exists (t_chunks t). split; [by destruct t|]. rewrite Nat.add_0_r.
    constructor; eauto.
  - destruct ids as [|id ids]; [discriminate|]. cbn [seq fmap list_fmap zip zip_with createChunks] in HC. unfold createChunk in HC.
    destruct (t_chunks t !! id) eqn:Hid; [discriminate|]. destruct (chunkByIdentity _ _); [discriminate|].
    apply IH in HC as (chunks' & -> & HF); [|lia|by injection Hl]. exists chunks'. split; [by destruct t|].
    set (x := newChunk (pageScope s a) GenerationPriorityNeverRun None) in *. cbn in HF.
    rewrite <-plus_n_Sm in *. destruct HF as [F1 F2 F3 F4 F5].
    destruct (next_expandedBy s (Z.of_nat a) HR ltac:(lia)) as [En Elt]. destruct (next_exact s HR) as [En0 _]; [lia|].
    constructor.
    + intros view HV. apply (F1 (<[cells (expandedBy (Z.of_nat a) s) := mkCell id ChunkPending 0]> view)).
      pose proof (ro_next s HR). eapply ViewOK_grow; [|exact HV|exact Hid|reflexivity| |reflexivity|reflexivity|apply expandedBy_grown; auto; lia];
        rewrite cells_expandedBy by (auto; lia); cbn; lia.
    + intros d. rewrite F2. cbn. rewrite (msum_insert_new _ _ _ _ Hid). rewrite runningFor_other by discriminate. lia.
    + intros r. rewrite F3. cbn. rewrite (msum_insert_new _ _ _ _ Hid). rewrite runningIn_other by discriminate. lia.
    + intros i y Hy. destruct (F4 i y Hy) as [Hy'|?]; [|by right]. apply lookup_insert_Some in Hy' as [[<- <-]|[_ Hy']]; [|by left].
      right. split; [done|]. split; [done|]. eapply ScopeOK_same; [apply (pageScope_OK s a); auto; lia|reflexivity..|].
      rewrite !cells_expandedBy by (auto; lia). lia.
    + intros i y Hy. rewrite (F5 i y Hy). cbn. rewrite lookup_insert_Some. split; [intros [[<- <-]|[_ ?]]; [by destruct Hy|done]|].
      intros Hi. right. split; [|done]. intros <-. congruence.
Qed.

(** Where the page ends. *)
Lemma page_length s (k : nat) : RowOK s -> Z.of_nat k <= room s ->
  s_NextOffset s + zsum (k_length <$> (pageScope s <$> seq 0 k)) = s_NextOffset (expandedBy (Z.of_nat k) s).
Proof.
  intros HR. induction k as [|k IH]; intros Hk.
  - rewrite next_expanded. cbn [seq fmap list_fmap zsum]. destruct (ro_next s HR). lia.
  - rewrite seq_S, !fmap_app, zsum_app, Z.add_assoc, IH by lia. destruct (next_expandedBy s (Z.of_nat k) HR ltac:(lia)) as [En Elt].
    rewrite En, next_expanded. cbn. lia.
Qed.

Lemma room_nonneg s : RowOK s -> 0 <= room s.
Proof.
  intros HR. pose proof (so_chunk _ (RowOK_spec s HR)). apply chunksOf_nonneg; [lia|]. destruct (ro_next s HR). lia.
Qed.

Lemma generationChunkSpecs_page schedule s :
  s_spec schedule = s_spec s -> s_Digest schedule = s_Digest s -> s_NextOffset schedule = s_NextOffset s ->
  generationChunkSpecs schedule = pageScope s <$> seq 0 (Z.to_nat (Z.min MaxGenerationFanoutPage (room s))).
Proof. intros Es Ed En. unfold generationChunkSpecs, specCount, pageScope, room. by rewrite Es, Ed, En. Qed.

(** The tables after a page. *)
Definition fannedTables t (d : string) (n : Z) (chunks' : gmap string chunkRow) (now : Z) : tables :=
  t <| t_chunks := chunks' |> <| t_schedules ::= alter (fun s => expandedBy n s <| s_UpdatedAt := now |>) d |>.

Lemma schedules_fanned w now s (n : nat) chunks' :
  Inv w -> w_clock w <= now -> t_schedules (w_tables w) !! s_Digest s = Some s -> s_Status s = ScheduleActive ->
  Z.of_nat n <= room s -> Fanned s 0 n (t_chunks (w_tables w)) chunks' ->
  Inv (mkWorld (fannedTables (w_tables w) (s_Digest s) (Z.of_nat n) chunks' now) now (w_leases w)).
Proof.
  intros HI Hnow Hs Hact Hn HF. destruct (iv_row w HI _ _ Hs) as (_ & HR & Hup). pose proof (room_nonneg s HR).
  set (g := fun s => expandedBy (Z.of_nat n) s <| s_UpdatedAt := now |>).
  assert (Hcells : cells (g s) = cells s + Z.of_nat n) by (apply (cells_expandedBy s); auto; lia).
  assert (Hrow : forall d' s', alter g (s_Digest s) (t_schedules (w_tables w)) !! d' = Some s' ->
      (d' = s_Digest s /\ s' = g s) \/ (d' <> s_Digest s /\ t_schedules (w_tables w) !! d' = Some s')).
  { intros d' s' Hd'. apply lookup_alter_Some in Hd' as [(<- & s1 & Hs1 & ->)|(Hne & Hd')]; [left; split; congruence|right; auto]. }
  assert (HV : forall view, ViewOK (t_chunks (w_tables w)) s view -> exists view', ViewOK chunks' (g s) view').
  { intros view HV. destruct (fa_view _ _ _ _ _ HF view) as [view' HV'].
    - eapply ViewOK_same; [exact HV|reflexivity..| | | | | |]; cbn; try lia. destruct (ro_next s HR). lia.
    - exists view'. eapply ViewOK_same; [exact HV'|reflexivity..]. }
  assert (Hchunk : forall i x, chunks' !! i = Some x -> t_chunks (w_tables w) !! i = Some x \/
      (c_status x = ChunkPending /\ k_scheduleDigest (c_scope x) = s_Digest s /\ ScopeOK (g s) (c_scope x))).
  { intros i x Hi. destruct (fa_rows _ _ _ _ _ HF i x Hi) as [?|(? & ? & Hk)]; [by left|right]. split_and!; auto.
    eapply ScopeOK_same; [exact Hk|reflexivity..|]. rewrite Hcells, cells_expandedBy by (auto; lia). lia. }
  assert (HRg : RowOK (g s)).
  { pose proof (iv_active w HI _ _ Hs Hact) as Hcur. unfold currentDigest in Hcur. destruct (t_currents _ !! _) as [u|] eqn:Hu; [|discriminate].
    injection Hcur as Hud. destruct (iv_current w HI _ _ Hu) as (_ & s1 & view & Hs1 & _ & _ & _ & _ & HV1).
    assert (s1 = s) as -> by congruence. destruct (HV view HV1) as [view' HV'].
    eapply (RowOK_viewed s); [exact HR|reflexivity..| | |exact HV'| | | |apply (ro_tokens s HR)].
    - destruct (ro_next s HR) as [En Ec]. rewrite Hcells. split; [|lia]. pose proof (so_chunk _ (RowOK_spec s HR)). cbn. nia.
    - pose proof (ro_times s HR). cbn. lia.
    - intros i x Hi Hdx. destruct (Hchunk i x Hi) as [Hx|(_ & _ & Hk)]; [by eapply chunk_attempts|apply (ko_attempt _ _ Hk)].
    - cbn. congruence.
    - intros _. destruct (ro_live s HR Hact) as [Hlt|]; [|right; cbn; lia]. destruct (decide (n = 0%nat)) as [->|]; [left|right]; cbn; [lia|].
      pose proof (ro_pending s HR). pose proof (ro_running s HR). lia. }
  constructor; cbn; fold g.
  - pose proof (iv_clock w HI). lia.
  - intros d' s' Hd'. destruct (Hrow d' s' Hd') as [[-> ->]|[_ Hs']]; [split_and!; auto; cbn; lia|].
    destruct (iv_row w HI _ _ Hs') as (? & ? & ?). auto with lia.
  - intros d' s' Hd'. destruct (Hrow d' s' Hd') as [[-> ->]|[_ Hs']]; [apply (iv_repository w HI _ s Hs)|by eapply (iv_repository w HI)].
  - intros k y Hy. rewrite (fa_in _ _ _ _ _ HF). by apply (iv_tokens w HI).
  - intros d' s' Hd'. rewrite (fa_for _ _ _ _ _ HF). destruct (Hrow d' s' Hd') as [[-> ->]|[_ Hs']]; [exact (iv_running w HI _ s Hs)|by apply (iv_running w HI)].
  - intros i x Hi. destruct (Hchunk i x Hi) as [Hx|(_ & Hdx & Hk)].
    + destruct (iv_chunk w HI i x Hx) as (sx & Hsx & Hkx). rewrite lookup_alter. case_decide as E; [rewrite E in *|]; rewrite Hsx; cbn; eexists; (split; [reflexivity|]); [|done].
      assert (sx = s) as -> by congruence. eapply ScopeOK_same; [exact Hkx|reflexivity..|]. fold (g s). lia.
    + rewrite Hdx, lookup_alter_eq, Hs. eauto.
  - intros i x Hi Hrx. destruct (Hchunk i x Hi) as [Hx|(Hp & _)]; [by apply (iv_lease w HI)|congruence].
  - apply (iv_unique w HI).
  - intros d' s' Hd' Hact'. destruct (Hrow d' s' Hd') as [[-> ->]|[_ Hs']]; [by apply (iv_active w HI _ s)|by apply (iv_active w HI)].
  - intros k u Hu. destruct (iv_current w HI k u Hu) as (Hk & su & view & Hsu & E1 & E2 & E3 & Hst & HVu). split; [done|].
    rewrite lookup_alter. case_decide as E; [rewrite E in *|]; rewrite Hsu; cbn.
    + assert (su = s) as -> by congruence. destruct (HV view HVu) as [view' HV']. exists (g s), view'. split_and!; auto.
    + exists su, view. split_and!; auto. destruct (iv_row w HI _ _ Hsu) as [Edu _]. eapply ViewOK_other; [exact HVu|].
      intros i x Hx. apply (fa_other _ _ _ _ _ HF). congruence.
  - intros r. etransitivity; [apply msum_alter_le; intros x _; done|apply (iv_stages w HI)].
Qed.

Lemma schedules_expand w now schedule live ids a t' :
  Inv w -> w_clock w <= now -> permitted (QExpand schedule live ids) w ->
  expandGenerationScheduleSQL schedule live ids now (w_tables w) = Ok (a, t') -> Inv (mkWorld t' now (w_leases w)).
Proof.
  intros HI Hnow [Hread Hids] HS. unfold expandGenerationScheduleSQL in HS. destruct (_ && negb live); [discriminate|].
  destruct (t_schedules (w_tables w) !! s_Digest schedule) as [s|] eqn:Hs; [|rewrite andb_false_r in HS; injection HS as <- <-; by apply w_same].
  destruct (_ && _) eqn:Ecase; [|injection HS as <- <-; by apply w_same]. apply andb_true_iff in Ecase as [_ Eown].
  apply andb_true_iff in Eown as [Eact%bool_decide_eq_true_1 Enext%Z.eqb_eq].
  destruct (createChunks _ _) as [t1|] eqn:EC; [|discriminate]. injection HS as <- <-.
  pose proof (snapshot_spec w schedule s HI Hread Hs) as Espec. destruct (iv_row w HI _ _ Hs) as (Ed & HR & _). pose proof (room_nonneg s HR).
  rewrite (generationChunkSpecs_page schedule s Espec Ed (eq_sym Enext)) in *. set (n := Z.to_nat (Z.min MaxGenerationFanoutPage (room s))) in *.
  assert (Hn : Z.of_nat n <= room s) by (unfold n, MaxGenerationFanoutPage in *; lia).
  rewrite !length_fmap, length_seq in *. apply (createChunks_fanned s HR n 0) in EC as (chunks' & -> & HF); [|lia|exact Hids].
  rewrite Ed in Hs |- *. pose proof (schedules_fanned w now s n chunks' HI Hnow Hs Eact Hn HF) as HG.
  rewrite <-Enext, (page_length s n HR Hn). 
  match goal with |- Inv (mkWorld ?t _ _) => replace t with (fannedTables (w_tables w) (s_Digest s) (Z.of_nat n) chunks' now); [exact HG|] end.
  unfold fannedTables, setter. cbn. f_equal. apply map_eq. intros d'. rewrite !lookup_alter. case_decide; subst; [|done]. by rewrite Hs.
Qed.
End Fanout.
