(* ===== verification/GenerationScopes.v ===== *)
(** * Generation schedules: pointers and collection

    Enqueueing moves the pointer of a scope from one schedule to another,
    retiring drops it, collection removes chunks no pointer sees.  With the
    other files this gives the invariant of every reachable world. *)
From stdpp Require Import pretty sorting.
From Stdlib Require Import Ascii String.
From S2P Require Import Prelude.
From S2P Require Import GoStrings GoText GenerationSpec GenerationStore GenerationInvariant GenerationLeases GenerationSteps GenerationFanout.

Section Scopes.
Context `{CollisionFree}.
Implicit Types (w : world) (s : GenerationSchedule) (c : chunkRow) (t : tables).

(** ** Dropping a pointer *)
Lemma supersede_spec now s : s_spec (supersede now s) = s_spec s /\ s_Digest (supersede now s) = s_Digest s.
Proof. unfold supersede. by destruct (isActive s). Qed.

Lemma supersede_inactive now s : s_Status (supersede now s) <> ScheduleActive.
Proof. unfold supersede, isActive. case_bool_decide; [discriminate|done]. Qed.

Lemma supersede_idle now s : isActive s = false -> supersede now s = s.
Proof. unfold supersede. by intros ->. Qed.

Lemma RowOK_supersede now s : RowOK s -> s_UpdatedAt s <= now -> RowOK (supersede now s) /\ s_UpdatedAt (supersede now s) <= now.
Proof.
  intros HR Hnow. unfold supersede. destruct (isActive s); [|done]. destruct HR. split; [|cbn; lia]. constructor; cbn; auto; lia || discriminate.
Qed.

Lemma ScopeOK_supersede now s k : ScopeOK s k -> ScopeOK (supersede now s) k.
Proof. unfold supersede. destruct (isActive s); [|done]. intros Hk. by eapply ScopeOK_same. Qed.

(** Two pointers to the same schedule are the same pointer. *)
Lemma pointer_unique w k k' u u' :
  Inv w -> t_currents (w_tables w) !! k = Some u -> t_currents (w_tables w) !! k' = Some u' -> u_scheduleDigest u = u_scheduleDigest u' -> k = k'.
Proof.
  intros HI Hu Hu' E. destruct (iv_current w HI _ _ Hu) as (-> & s & _ & Hs & <- & <- & _).
  destruct (iv_current w HI _ _ Hu') as (-> & s' & _ & Hs' & <- & <- & _). rewrite E in Hs. congruence.
Qed.

Lemma activeIn_supersede now r s : activeIn r (supersede now s) <= activeIn r s.
Proof.
  unfold activeIn. rewrite (proj1 (supersede_spec now s)). pose proof (supersede_inactive now s) as Hs. unfold isActive at 1.
  rewrite bool_decide_eq_false_2 by exact Hs. apply one_range.
Qed.

Lemma schedules_dropped w now k u :
  Inv w -> w_clock w <= now -> t_currents (w_tables w) !! k = Some u ->
  Inv (mkWorld ((w_tables w) <| t_schedules ::= alter (supersede now) (u_scheduleDigest u) |> <| t_currents ::= delete k |>) now (w_leases w)).
Proof.
  intros HI Hnow Hu. destruct (iv_current w HI _ _ Hu) as (Hk & s & view & Hs & E1 & E2 & _). set (d := u_scheduleDigest u) in *.
  assert (Hrow : forall d' s', alter (supersede now) d (t_schedules (w_tables w)) !! d' = Some s' ->
      exists s'', t_schedules (w_tables w) !! d' = Some s'' /\ s_spec s' = s_spec s'' /\ (s' = supersede now s'' /\ d' = d \/ s' = s'' /\ d' <> d)).
  { intros d' s' Hd'. apply lookup_alter_Some in Hd' as [(<- & s1 & Hs1 & ->)|(Hne & Hd')]; eexists; (split; [eassumption|]); [|auto].
    split; [apply supersede_spec|]. auto. }
  constructor; cbn.
  - pose proof (iv_clock w HI). lia.
  - intros d' s' Hd'. destruct (Hrow d' s' Hd') as (s'' & Hs'' & _ & Hor). destruct (iv_row w HI _ _ Hs'') as (Ed & HR & Hup).
    destruct Hor as [[-> ->]|[-> _]]; [|auto with lia]. rewrite (proj2 (supersede_spec now s'')). split; [done|]. apply RowOK_supersede; [done|lia].
  - intros d' s' Hd'. destruct (Hrow d' s' Hd') as (s'' & Hs'' & -> & _). by eapply (iv_repository w HI).
  - apply (iv_tokens w HI).
  - intros d' s' Hd'. destruct (Hrow d' s' Hd') as (s'' & Hs'' & _ & Hor). rewrite <-(iv_running w HI _ _ Hs'').
    destruct Hor as [[-> _]|[-> _]]; [|done]. unfold supersede. by destruct (isActive s'').
  - intros i x Hx. destruct (iv_chunk w HI i x Hx) as (sx & Hsx & Hkx). rewrite lookup_alter. case_decide as E; [rewrite E in *|]; rewrite Hsx; cbn.
    + eexists. split; [reflexivity|]. by apply ScopeOK_supersede.
    + eauto.
  - apply (iv_lease w HI).
  - apply (iv_unique w HI).
  - intros d' s' Hd' Hact. destruct (Hrow d' s' Hd') as (s'' & Hs'' & Espec & Hor). destruct Hor as [[-> _]|[-> Hne]]; [by destruct (supersede_inactive now s'')|].
    pose proof (iv_active w HI _ _ Hs'' Hact) as Hcur. unfold currentDigest in *. cbn. rewrite lookup_delete_ne; [exact Hcur|].
    intros E. rewrite <-E, Hu in Hcur. cbn in Hcur. apply Hne. symmetry. by injection Hcur.
  - intros k' u' Hu'. apply lookup_delete_Some in Hu' as [Hne Hu']. destruct (iv_current w HI _ _ Hu') as (Hk' & s' & view' & Hs' & Hrest). split; [done|].
    exists s', view'. rewrite lookup_alter_ne; [auto|]. intros E. apply Hne. by apply (pointer_unique w k k' u u').
  - intros r. etransitivity; [apply msum_alter_le|apply (iv_stages w HI)]. intros x _. apply activeIn_supersede.
Qed.

(** ** A new schedule *)
Lemma no_chunk w d : Inv w -> t_schedules (w_tables w) !! d = None -> forall id c, t_chunks (w_tables w) !! id = Some c -> k_scheduleDigest (c_scope c) <> d.
Proof. intros HI Hd id c Hc <-. destruct (iv_chunk w HI id c Hc) as (s & Hs & _). congruence. Qed.

Lemma RowOK_new spec now : admitted spec -> 1 <= now -> RowOK (newSchedule spec now).
Proof.
  intros Ha Hnow. pose proof (admitted_OK _ Ha) as HS. destruct (so_items _ HS), (so_chunk _ HS), (so_attempts _ HS).
  assert (Hc : cells (newSchedule spec now) = 0) by (unfold cells, chunksOf; cbn; apply Z.div_small; lia).
  pose proof (chunksOf_nonneg (sp_TotalItems spec) (sp_ChunkItems spec)).
  constructor; rewrite ?Hc; cbn; auto; try lia; try discriminate. destruct (so_tokens _ HS). lia.
Qed.

Lemma ViewOK_new spec now chunks :
  SpecOK spec -> (forall id c, chunks !! id = Some c -> k_scheduleDigest (c_scope c) <> generationScheduleDigest spec) ->
  ViewOK chunks (newSchedule spec now) ∅.
Proof.
  intros HS Hno. destruct (so_chunk _ HS).
  assert (Hc : cells (newSchedule spec now) = 0) by (unfold cells, chunksOf; cbn; apply Z.div_small; lia).
  constructor; rewrite ?Hc; try reflexivity.
  - intros j. rewrite lookup_empty. split; [by intros []|lia].
  - intros j v Hv. by rewrite lookup_empty in Hv.
  - intros id c Hc' Hd. by destruct (Hno id c Hc').
Qed.

(** With no pointer for the stage, every active schedule is of another one. *)
Lemma otherActiveStages_msum repository stage t :
  otherActiveStages repository stage t = msum (fun s => one (isActive s && String.eqb (sp_Repository (s_spec s)) repository
    && negb (String.eqb (sp_Stage (s_spec s)) stage))) (t_schedules t).
Proof.
  apply size_filter_msum. intros d s _. cbn. unfold isActive. case_decide as HP.
  - destruct HP as (-> & Ha & Hs). rewrite bool_decide_eq_true_2, String.eqb_refl by exact Ha. apply String.eqb_neq in Hs. by rewrite Hs.
  - case_bool_decide; [|done]. destruct (String.eqb_spec (sp_Repository (s_spec s)) repository); [|done].
    destruct (String.eqb_spec (sp_Stage (s_spec s)) stage); [done|]. by destruct HP.
Qed.

Lemma stages_other w repository stage :
  Inv w -> t_currents (w_tables w) !! generationCurrentID repository stage = None ->
  msum (activeIn repository) (t_schedules (w_tables w)) = otherActiveStages repository stage (w_tables w).
Proof.
  intros HI Hcur. rewrite otherActiveStages_msum. apply msum_ext. intros d s Hs. unfold activeIn.
  destruct (isActive s) eqn:Ea; [|done]. destruct (String.eqb_spec (sp_Repository (s_spec s)) repository) as [<-|]; [|done].
  destruct (String.eqb_spec (sp_Stage (s_spec s)) stage) as [<-|]; [|done]. apply bool_decide_eq_true_1 in Ea.
  pose proof (iv_active w HI d s Hs Ea) as Hc. unfold currentDigest in Hc. by rewrite Hcur in Hc.
Qed.

Lemma otherActiveStages_drop now repository stage d t f :
  otherActiveStages repository stage (t <| t_schedules ::= alter (supersede now) d |> <| t_currents ::= f |>) <= otherActiveStages repository stage t.
Proof.
  rewrite !otherActiveStages_msum. apply msum_alter_le. intros s _. rewrite (proj1 (supersede_spec now s)).
  pose proof (supersede_inactive now s) as Hs. unfold isActive at 1. rewrite bool_decide_eq_false_2 by exact Hs. apply one_range.
Qed.

Lemma schedules_inserted w now spec :
  Inv w -> w_clock w <= now -> admitted spec -> t_schedules (w_tables w) !! generationScheduleDigest spec = None ->
  t_currents (w_tables w) !! generationCurrentID (sp_Repository spec) (sp_Stage spec) = None ->
  otherActiveStages (sp_Repository spec) (sp_Stage spec) (w_tables w) < MaxGenerationActiveStagesPerRepository ->
  Inv (mkWorld ((w_tables w) <| t_schedules ::= insert (generationScheduleDigest spec) (newSchedule spec now) |>
    <| t_currents ::= insert (generationCurrentID (sp_Repository spec) (sp_Stage spec))
         (mkCurrent (sp_Repository spec) (sp_Stage spec) (generationScheduleDigest spec) (sp_Generation spec)) |>
    <| t_repositories ::= fun m => <[generationRepositoryID (sp_Repository spec) :=
         upsertRepository (sp_Repository spec) (m !! generationRepositoryID (sp_Repository spec))]> m |>) now (w_leases w)).
Proof.
  intros HI Hnow Ha Hnew Hcur Hroom. set (d := generationScheduleDigest spec) in *. pose proof (no_chunk w d HI Hnew) as Hno. pose proof (iv_clock w HI).
  assert (Hrow : forall d' s', <[d := newSchedule spec now]> (t_schedules (w_tables w)) !! d' = Some s' ->
    (d' = d /\ s' = newSchedule spec now) \/ (d' <> d /\ t_schedules (w_tables w) !! d' = Some s')).
  { intros d' s' Hd'. apply lookup_insert_Some in Hd' as [[<- <-]|[Hne Hd']]; auto. }
  constructor; cbn.
  - lia.
  - intros d' s' Hd'. destruct (Hrow d' s' Hd') as [[-> ->]|[_ Hs']].
    + split; [done|]. split; [apply RowOK_new; [done|lia]|cbn; lia].
    + destruct (iv_row w HI _ _ Hs') as (? & ? & ?). auto with lia.
  - intros d' s' Hd'. rewrite lookup_insert_is_Some'. destruct (Hrow d' s' Hd') as [[-> ->]|[_ Hs']]; [by left|right; by eapply (iv_repository w HI)].
  - intros k y Hy. apply lookup_insert_Some in Hy as [[<- <-]|[_ Hy]]; [|by apply (iv_tokens w HI)].
    destruct (t_repositories (w_tables w) !! _) as [y|] eqn:Hy; cbn; [by apply (iv_tokens w HI _ y)|]. split; [|done].
    symmetry. apply msum_all_zero. intros i x Hx. apply runningIn_repository. intros E.
    destruct (iv_chunk w HI i x Hx) as (sx & Hsx & Hkx). destruct (iv_repository w HI _ _ Hsx) as [y Hy']. rewrite <-(ko_repository _ _ Hkx), E in Hy'. congruence.
  - intros d' s' Hd'. destruct (Hrow d' s' Hd') as [[-> ->]|[_ Hs']]; [|by apply (iv_running w HI)].
    symmetry. apply msum_all_zero. intros i x Hx. apply runningFor_digest, (Hno i x Hx).
  - intros i x Hx. destruct (iv_chunk w HI i x Hx) as (sx & Hsx & Hkx). exists sx. rewrite lookup_insert_ne; [auto|]. intros E. by apply (Hno i x Hx).
  - apply (iv_lease w HI).
  - apply (iv_unique w HI).
  - intros d' s' Hd' Hact. unfold currentDigest. cbn. destruct (Hrow d' s' Hd') as [[-> ->]|[Hne Hs']]; [by rewrite lookup_insert_eq|].
    pose proof (iv_active w HI _ _ Hs' Hact) as Hc. unfold currentDigest in Hc. rewrite lookup_insert_ne; [exact Hc|]. intros E. by rewrite <-E, Hcur in Hc.
  - intros k u Hu. apply lookup_insert_Some in Hu as [[<- <-]|[Hne Hu]]; cbn.
    + split; [done|]. exists (newSchedule spec now), ∅. rewrite lookup_insert_eq. split_and!; auto.
      apply ViewOK_new; [by apply admitted_OK|exact Hno].
    + destruct (iv_current w HI _ _ Hu) as (Hk & s & view & Hs & Hrest). split; [done|]. exists s, view.
      rewrite lookup_insert_ne; [auto|]. intros E. by rewrite <-E, Hnew in Hs.
  - intros r. rewrite msum_insert_new by exact Hnew. unfold activeIn at 1. cbn. destruct (String.eqb_spec (sp_Repository spec) r) as [<-|].
    + rewrite (stages_other w _ _ HI Hcur). change (one _) with 1. lia.
    + apply (iv_stages w HI).
Qed.

(** ** Enqueueing *)
Lemma schedules_repointed w now spec s :
  Inv w -> w_clock w <= now -> admitted spec -> t_schedules (w_tables w) !! generationScheduleDigest spec = Some s ->
  currentDigest (sp_Repository spec) (sp_Stage spec) (w_tables w) = Some (generationScheduleDigest spec) ->
  Inv (mkWorld ((w_tables w)
    <| t_currents ::= insert (generationCurrentID (sp_Repository spec) (sp_Stage spec))
         (mkCurrent (sp_Repository spec) (sp_Stage spec) (generationScheduleDigest spec) (sp_Generation spec)) |>
    <| t_repositories ::= fun m => <[generationRepositoryID (sp_Repository spec) :=
         upsertRepository (sp_Repository spec) (m !! generationRepositoryID (sp_Repository spec))]> m |>) now (w_leases w)).
Proof.
  intros HI Hnow Ha Hs Hcur. unfold currentDigest in Hcur. destruct (t_currents _ !! _) as [u|] eqn:Hu; [|discriminate]. injection Hcur as Hud.
  destruct (iv_current w HI _ _ Hu) as (_ & s1 & view & Hs1 & _ & _ & _ & Hst & HV). rewrite Hud in Hs1. assert (s1 = s) as -> by congruence.
  destruct (iv_row w HI _ _ Hs) as (Ed & HR & _). assert (Espec : s_spec s = spec).
  { apply digest_spec; [apply (ro_spec s HR)|exact Ha|]. by rewrite <-(ro_digest s HR). }
  destruct (w_same w now HI Hnow) as [I1 I2 I3 I4 I5 I6 I7 I8 I9 I10 I11]. cbn in *. constructor; cbn; auto.
  - intros d' s' Hd'. rewrite lookup_insert_is_Some'. right. by eapply I3.
  - intros k y Hy. apply lookup_insert_Some in Hy as [[<- <-]|[_ Hy]]; [|by apply I4].
    destruct (I3 _ _ Hs) as [y Hy]. rewrite Espec in Hy. rewrite Hy. cbn. by apply (I4 _ y).
  - intros d' s' Hd' Hact. pose proof (I9 d' s' Hd' Hact) as Hc. unfold currentDigest in *. cbn. rewrite lookup_insert. case_decide as E; [|exact Hc].
    rewrite <-E, Hu in Hc. cbn in *. congruence.
  - intros k u' Hu'. apply lookup_insert_Some in Hu' as [[<- <-]|[Hne Hu']]; cbn; [|by apply I10]. split; [done|]. exists s, view.
    rewrite Espec. split_and!; auto.
Qed.

Lemma priorIDs_superseded w now digest u s :
  t_schedules (w_tables w) !! u_scheduleDigest u = Some s -> u_scheduleDigest u <> digest ->
  t_schedules (match priorIDs digest (Some (u_scheduleDigest u)) (w_tables w) with
    | prior :: _ => (w_tables w) <| t_schedules ::= alter (supersede now) prior |>
    | [] => w_tables w
    end) = alter (supersede now) (u_scheduleDigest u) (t_schedules (w_tables w)).
Proof.
  intros Hs Hne. unfold priorIDs. rewrite Hs. apply String.eqb_neq in Hne. rewrite Hne. cbn [negb andb].
  destruct (isActive s) eqn:Ea; [reflexivity|]. apply map_eq. intros d. rewrite lookup_alter. case_decide; subst; [|done].
  rewrite Hs. cbn. by rewrite supersede_idle.
Qed.

Lemma priorIDs_rest now digest old (t : tables) :
  let t' := match priorIDs digest old t with prior :: _ => t <| t_schedules ::= alter (supersede now) prior |> | [] => t end in
  t_currents t' = t_currents t /\ t_repositories t' = t_repositories t /\ t_chunks t' = t_chunks t.
Proof. by destruct (priorIDs digest old t). Qed.

Lemma tables_eq t t' :
  t_schedules t = t_schedules t' -> t_currents t = t_currents t' -> t_repositories t = t_repositories t' -> t_chunks t = t_chunks t' -> t = t'.
Proof. destruct t, t'. cbn. by intros -> -> -> ->. Qed.

Lemma schedules_enqueue w now spec live old prior a t' :
  Inv w -> w_clock w <= now -> admitted spec -> enqueueGenerationScheduleSQL spec live old prior now (w_tables w) = Ok (a, t') -> Inv (mkWorld t' now (w_leases w)).
Proof.
  intros HI Hnow Ha HS. unfold enqueueGenerationScheduleSQL in HS. destruct (_ && negb live); [discriminate|].
  destruct (negb _) eqn:Eob; [discriminate|]. apply negb_false_iff, andb_true_iff in Eob as [<-%bool_decide_eq_true_1 <-%bool_decide_eq_true_1].
  destruct (_ && _) eqn:Elim; [discriminate|]. injection HS as <- <-. set (d := generationScheduleDigest spec) in *.
  destruct (t_schedules (w_tables w) !! d) as [s|] eqn:Hs; cbn [is_nil orb andb] in *.
  - case_bool_decide as Eold; [|by apply w_same]. rewrite Eold. unfold priorIDs. rewrite Hs, String.eqb_refl. by apply (schedules_repointed w now spec s).
  - destruct (t_currents (w_tables w) !! generationCurrentID (sp_Repository spec) (sp_Stage spec)) as [u|] eqn:Hu.
    + destruct (iv_current w HI _ _ Hu) as (_ & su & _ & Hsu & _). assert (Hne : u_scheduleDigest u <> d) by congruence.
      pose proof (schedules_dropped w now _ u HI Hnow Hu) as HD. eapply (schedules_inserted _ now spec) in HD; cbn -[otherActiveStages] in *; [|lia|exact Ha| |apply lookup_delete_eq|].
      2: { rewrite lookup_alter_ne by exact Hne. exact Hs. }
      2: { eapply Z.le_lt_trans; [apply otherActiveStages_drop|lia]. }
      unfold currentDigest. rewrite Hu. cbn [fmap option_fmap option_map]. fold d in HD.
      match goal with H : Inv (mkWorld ?t _ _) |- Inv (mkWorld ?t' _ _) => replace t' with t; [exact H|] end.
      destruct (priorIDs_rest now d (Some (u_scheduleDigest u)) (w_tables w)) as (R1 & R2 & R3). cbv zeta in R1, R2, R3.
      apply tables_eq; cbn -[priorIDs]; rewrite ?(priorIDs_superseded w now d u su Hsu Hne), ?R1, ?R2, ?R3; try reflexivity. by rewrite insert_delete_eq.
    + unfold currentDigest. rewrite Hu. apply schedules_inserted; auto. lia.
Qed.

(** ** Retiring *)
Lemma schedules_retire w now repository stage generation digest a t' :
  Inv w -> w_clock w <= now -> retireCurrentSQL repository stage generation digest now (w_tables w) = Ok (a, t') -> Inv (mkWorld t' now (w_leases w)).
Proof.
  intros HI Hnow HS. unfold retireCurrentSQL in HS. destruct (_ && _) eqn:Eb; injection HS as <- <-; [|by apply w_same].
  apply andb_true_iff in Eb as [Eb _]. destruct (t_currents _ !! _) as [u|] eqn:Hu; [|discriminate].
  apply andb_true_iff in Eb as [_ <-%String.eqb_eq]. by apply schedules_dropped.
Qed.

(** ** Collection *)
Lemma foldr_delete_Some (ids : list string) (m : gmap string chunkRow) i x : (foldr delete m ids !! i = Some x) <-> (i ∉ ids) /\ m !! i = Some x.
Proof.
  induction ids as [|id ids IH]; cbn; [split; [intros; split; [apply not_elem_of_nil|done]|tauto]|].
  rewrite lookup_delete_Some, IH, not_elem_of_cons. split; intros; destruct_and!; split_and!; auto.
Qed.

Lemma msum_foldr_delete (f : chunkRow -> Z) (ids : list string) (m : gmap string chunkRow) :
  (forall i x, i ∈ ids -> m !! i = Some x -> f x = 0) -> msum f (foldr delete m ids) = msum f m.
Proof.
  intros Hf. induction ids as [|id ids IH]; cbn; [done|]. rewrite <-IH by (intros i x Hi; apply Hf; by right).
  destruct (foldr delete m ids !! id) as [x|] eqn:E; [|by rewrite delete_id]. rewrite (msum_delete _ _ _ _ E).
  apply foldr_delete_Some in E as [_ E]. rewrite (Hf id x); [lia|left|exact E].
Qed.

(** Removing chunks that do not run, of a schedule that is not current. *)
Lemma schedules_removed w now d s ids :
  Inv w -> w_clock w <= now -> t_schedules (w_tables w) !! d = Some s -> (forall k u, t_currents (w_tables w) !! k = Some u -> u_scheduleDigest u <> d) ->
  (forall i x, i ∈ ids -> t_chunks (w_tables w) !! i = Some x -> k_scheduleDigest (c_scope x) = d /\ c_status x <> ChunkRunning) ->
  Inv (mkWorld ((w_tables w) <| t_chunks ::= fun m => foldr delete m ids |>) now (w_leases w)).
Proof.
  intros HI Hnow Hs Hcur Hids. destruct (w_same w now HI Hnow) as [I1 I2 I3 I4 I5 I6 I7 I8 I9 I10 I11]. cbn in *. constructor; cbn; auto.
  - intros k y Hy. rewrite msum_foldr_delete; [by apply I4|]. intros i x Hi Hx. apply runningIn_other. by apply (Hids i x).
  - intros d' s' Hd'. rewrite msum_foldr_delete; [by apply I5|]. intros i x Hi Hx. apply runningFor_other. by apply (Hids i x).
  - intros i x Hx. apply foldr_delete_Some in Hx as [_ Hx]. eauto.
  - intros i x Hx. apply foldr_delete_Some in Hx as [_ Hx]. eauto.
  - intros k u Hu. destruct (I10 k u Hu) as (Hk & su & view & Hsu & E1 & E2 & E3 & Hst & HV). split; [done|]. exists su, view. split_and!; auto.
    destruct (I2 _ _ Hsu) as [Edu _]. eapply ViewOK_other; [exact HV|]. intros i x Hx. rewrite foldr_delete_Some. split; [tauto|].
    intros Hi. split; [|done]. intros Hin. destruct (Hids i x Hin Hi) as [E _]. apply (Hcur k u Hu). congruence.
Qed.

Lemma schedules_emptied w now d :
  Inv w -> w_clock w <= now -> (forall k u, t_currents (w_tables w) !! k = Some u -> u_scheduleDigest u <> d) ->
  (forall i x, t_chunks (w_tables w) !! i = Some x -> k_scheduleDigest (c_scope x) <> d) ->
  Inv (mkWorld ((w_tables w) <| t_schedules ::= delete d |>) now (w_leases w)).
Proof.
  intros HI Hnow Hcur Hno. destruct (w_same w now HI Hnow) as [I1 I2 I3 I4 I5 I6 I7 I8 I9 I10 I11]. cbn in *. constructor; cbn; auto.
  - intros d' s' Hd'. apply lookup_delete_Some in Hd' as [_ Hd']. auto.
  - intros d' s' Hd'. apply lookup_delete_Some in Hd' as [_ Hd']. eauto.
  - intros d' s' Hd'. apply lookup_delete_Some in Hd' as [_ Hd']. eauto.
  - intros i x Hx. destruct (I6 i x Hx) as (sx & Hsx & Hkx). exists sx. rewrite lookup_delete_ne; [auto|]. intros E. by apply (Hno i x Hx).
  - intros d' s' Hd' Hact. apply lookup_delete_Some in Hd' as [_ Hd']. by apply I9.
  - intros k u Hu. destruct (I10 k u Hu) as (Hk & su & view & Hsu & Hrest). split; [done|]. exists su, view.
    rewrite lookup_delete_ne; [auto|]. intros E. by apply (Hcur k u Hu).
  - intros r. destruct (t_schedules (w_tables w) !! d) as [s|] eqn:Hs; [|by rewrite delete_id]. rewrite (msum_delete _ _ _ _ Hs).
    pose proof (one_range (isActive s && String.eqb (sp_Repository (s_spec s)) r)). unfold activeIn at 2. specialize (I11 r). lia.
Qed.

Lemma chunksOfSchedule_elem digest t i x : (i, x) ∈ chunksOfSchedule digest t <-> t_chunks t !! i = Some x /\ k_scheduleDigest (c_scope x) = digest.
Proof. unfold chunksOfSchedule. rewrite list_elem_of_filter, elem_of_map_to_list. cbn. tauto. Qed.

(** What a selection for collection has checked. *)
Record Selected t (repository stage digest : string) (limit : nat) (ids : list string) s : Prop := {
  sl_row : t_schedules t !! digest = Some s;
  sl_scope : sp_Repository (s_spec s) = repository /\ sp_Stage (s_spec s) = stage;
  sl_status : s_Status s <> ScheduleActive;
  sl_current : currentDigest repository stage t <> Some digest;
  sl_idle : forall i x, t_chunks t !! i = Some x -> k_scheduleDigest (c_scope x) = digest -> c_status x <> ChunkRunning;
  sl_ids : ids = take limit (fst <$> merge_sort chunkLe (chunksOfSchedule digest t))
}.
Lemma lifecycleSelection_Some t repository stage digest retained limit planOK ids :
  lifecycleSelection repository stage digest retained limit planOK t = Some ids -> exists s, Selected t repository stage digest limit ids s.
Proof.
  unfold lifecycleSelection. destruct (t_schedules t !! digest) as [s|] eqn:Hs; [|discriminate].
  match goal with |- context [if ?b then _ else _] => destruct b eqn:Eb end; [|discriminate]. intros [= <-]. exists s.
  repeat (apply andb_true_iff in Eb as [Eb ?]). repeat match goal with E : bool_decide _ = true |- _ => apply bool_decide_eq_true_1 in E end.
  bsplit. repeat match goal with E : String.eqb _ _ = true |- _ => apply String.eqb_eq in E end. constructor; auto.
  - intros Hact. unfold isActive in *. rewrite bool_decide_eq_true_2 in * by exact Hact. discriminate.
  - intros i x Hx Hd Hr. match goal with E : existsb _ _ = false |- _ => apply not_true_iff_false in E; apply E end.
    apply existsb_exists. exists (i, x). rewrite <-list_elem_of_In, chunksOfSchedule_elem. split; [done|]. by apply bool_decide_eq_true_2.
Qed.

Lemma Selected_chunk t repository stage digest limit ids s i x :
  Selected t repository stage digest limit ids s -> i ∈ ids -> t_chunks t !! i = Some x -> k_scheduleDigest (c_scope x) = digest /\ c_status x <> ChunkRunning.
Proof.
  intros HS Hi Hx. pose proof Hi as Hin. rewrite (sl_ids _ _ _ _ _ _ _ HS) in Hin. apply elem_of_take in Hin as (n & Hin & _).
  apply list_elem_of_lookup_2 in Hin. apply list_elem_of_fmap in Hin as ([i' y] & -> & Hin). rewrite merge_sort_Permutation in Hin.
  apply chunksOfSchedule_elem in Hin as [Hy Hd]. cbn in Hx. assert (y = x) as -> by congruence. split; [done|]. by eapply (sl_idle _ _ _ _ _ _ _ HS).
Qed.

Lemma Selected_pointer w repository stage digest limit ids s k u :
  Inv w -> Selected (w_tables w) repository stage digest limit ids s -> t_currents (w_tables w) !! k = Some u -> u_scheduleDigest u <> digest.
Proof.
  intros HI HS Hu E. destruct (iv_current w HI _ _ Hu) as (Hk & su & _ & Hsu & E1 & E2 & _). rewrite E, (sl_row _ _ _ _ _ _ _ HS) in Hsu. injection Hsu as <-.
  destruct (sl_scope _ _ _ _ _ _ _ HS) as [<- <-]. apply (sl_current _ _ _ _ _ _ _ HS). unfold currentDigest. rewrite E1, E2, <-Hk, Hu. cbn. by rewrite E.
Qed.

Lemma schedules_collect w now repository stage digest retained limit planOK hasPlan ids a t' :
  Inv w -> w_clock w <= now -> collectGenerationScheduleSQL repository stage digest retained limit planOK hasPlan ids (w_tables w) = Ok (a, t') ->
  Inv (mkWorld t' now (w_leases w)).
Proof.
  intros HI Hnow HS. unfold collectGenerationScheduleSQL in HS. destruct (lifecycleSelection _ _ _ _ _ _ _) as [chunkIDs|] eqn:EL; [|discriminate].
  destruct (negb _ || _) eqn:Eb; [discriminate|]. apply orb_false_iff in Eb as [Eb _]. apply negb_false_iff, bool_decide_eq_true_1 in Eb. subst chunkIDs.
  destruct (lifecycleSelection_Some _ _ _ _ _ _ _ _ EL) as [s HSel].
  pose proof (schedules_removed w now digest s ids HI Hnow (sl_row _ _ _ _ _ _ _ HSel) (fun k u => Selected_pointer w _ _ _ _ _ _ k u HI HSel)
    (fun i x => Selected_chunk _ _ _ _ _ _ _ i x HSel)) as HR.
  destruct (chunksOfSchedule digest _) eqn:Erest; injection HS as <- <-; [|exact HR].
  apply (schedules_emptied _ now digest) in HR; cbn in *; [exact HR|lia|intros k u; by apply (Selected_pointer w _ _ _ _ _ _ k u HI HSel)|].
  intros i x Hx Hd. assert (Hin : (i, x) ∈ chunksOfSchedule digest ((w_tables w) <| t_chunks ::= fun m => foldr delete m ids |>)).
  { apply chunksOfSchedule_elem. auto. }
  rewrite Erest in Hin. by apply not_elem_of_nil in Hin.
Qed.

(** ** Every reachable world *)
Lemma schedules_start : Inv start.
Proof. constructor; cbn; try lia; try (intros k x Hx; by rewrite lookup_empty in Hx); [apply NoDup_nil_2|]. intros r. by rewrite msum_empty. Qed.

Lemma after_Some {A} (r : res string (A * tables)) t : after r = Some t -> exists a, r = Ok (a, t).
Proof. destruct r as [[a t']|]; cbn; [intros [= ->]; eauto|discriminate]. Qed.

Lemma schedules_asked w q now w' : Inv w -> permitted q w -> w_clock w <= now -> asked q now w = Some w' -> Inv w'.
Proof.
  intros HI HP Hnow HA. unfold asked in HA. destruct (run q now (w_tables w)) as [t|] eqn:ER; [|discriminate]. injection HA as <-.
  destruct q; cbn [run issued app] in *; apply after_Some in ER as [a ER].
  - by eapply schedules_enqueue.
  - by eapply schedules_retire.
  - by eapply schedules_expand.
  - destruct HP as (Hread & Htok & Hwork & Hfresh). rewrite ER. destruct (claim_Ok _ _ _ _ _ _ _ _ _ _ ER) as [[-> ->]|(s & c & HC & -> & ->)]; [by apply w_same|].
    by eapply schedules_claimed.
  - by eapply schedules_heartbeat.
  - by eapply schedules_complete.
  - by eapply schedules_fail.
  - by eapply schedules_retry.
  - unfold releaseGenerationChunkSQL in ER. destruct (negb _); [discriminate|]. eapply schedules_givenBack; [done..|]. by intros c _ (? & _ & _ & ?)%holds_lease.
  - unfold deferGenerationChunkSQL in ER. destruct (negb _); [discriminate|]. eapply schedules_givenBack; [done..|]. by intros c _ (? & _ & _ & ?)%holds_lease.
  - by eapply schedules_reap.
  - by eapply schedules_collect.
Qed.

Lemma reachable_schedules w : reachable w -> Inv w.
Proof.
  intros [l HA]. remember start as w0 eqn:E. assert (HI : Inv w0) by (rewrite E; apply schedules_start). clear E.
  induction HA as [|q now l w0 w1 w2 HP Hnow Hq HA IH]; [done|]. apply IH. by eapply schedules_asked.
Qed.
End Scopes.
