(* ===== verification/GenerationSamples.v ===== *)
(** * Generation schedules: sample runs

    Executable runs and two concrete ones, under a hash that is the identity.
    [execute] checks what [permitted] asks for, so that a run it accepts is a
    run of the model. *)
From Stdlib Require Import Ascii String.
From S2P Require Import Prelude.
From S2P Require Import GoStrings GoText GenerationSpec GenerationStore GenerationInvariant.

#[export] Instance lease_eq_dec : EqDecision lease.
Proof. solve_decision. Defined.

Section Execute.
Context `{CollisionFree}.

Definition admittedb (spec : GenerationScheduleSpec) : bool :=
  match normalizeGenerationScheduleSpec spec with Ok spec' => bool_decide (spec' = spec) | Err _ => false end.
Definition readScheduleb (s : GenerationSchedule) : bool := admittedb (s_spec s) && String.eqb (s_Digest s) (generationScheduleDigest (s_spec s)).

(** [spec] is that of the chunks retried. *)
Definition permittedb (spec : GenerationScheduleSpec) (q : query) (w : world) : bool :=
  match q with
  | QEnqueue spec _ _ _ => admittedb spec
  | QExpand schedule _ ids => readScheduleb schedule && Nat.eqb (length ids) (length (generationChunkSpecs schedule))
  | QClaim schedule _ _ chunk worker token =>
      readScheduleb schedule && negb (String.eqb token "") && negb (String.eqb worker "") && bool_decide (token ∉ l_token <$> w_leases w)
  | QRetry chunk _ maxAttempts _ _ _ =>
      admittedb spec && String.eqb (k_scheduleDigest (g_scope chunk)) (generationScheduleDigest spec) && (maxAttempts =? sp_MaxAttempts spec)
  | QReap chunk _ => bool_decide (mkLease (c_leaseToken (g_row chunk)) (g_ID chunk) (g_scope chunk) ∈ w_leases w)
  | _ => true
  end.

Fixpoint execute (spec : GenerationScheduleSpec) (l : list (query * Z)) (w : world) : option world :=
  match l with
  | [] => Some w
  | (q, now) :: l =>
      if permittedb spec q w && (w_clock w <=? now) then
        match asked q now w with Some w' => execute spec l w' | None => None end
      else None
  end.

Lemma admittedb_sound spec : admittedb spec = true -> admitted spec.
Proof. unfold admittedb, admitted. destruct (normalizeGenerationScheduleSpec spec) as [spec'|]; [|discriminate]. by intros ->%bool_decide_eq_true_1. Qed.

Lemma readScheduleb_sound s : readScheduleb s = true -> readSchedule s.
Proof. intros [Ha%admittedb_sound Hd%String.eqb_eq]%andb_true_iff. by split. Qed.

Lemma permittedb_permitted spec q w : permittedb spec q w = true -> permitted q w.
Proof.
  destruct q; cbn; auto using admittedb_sound.
  - intros [Hr Hl%Nat.eqb_eq]%andb_true_iff. split; [by apply readScheduleb_sound|exact Hl].
  - intros [[[Hr Ht]%andb_true_iff Hw]%andb_true_iff Hf%bool_decide_eq_true_1]%andb_true_iff.
    apply negb_true_iff, String.eqb_neq in Ht, Hw. split; [by apply readScheduleb_sound|done].
  - intros [[Ha Hd%String.eqb_eq]%andb_true_iff Hm%Z.eqb_eq]%andb_true_iff. exists spec. split; [by apply admittedb_sound|done].
  - apply bool_decide_eq_true_1.
Qed.

Lemma execute_asks spec l w w' : execute spec l w = Some w' -> asks l w w'.
Proof.
  revert w. induction l as [|[q now] l IH]; intros w HE; cbn in HE; [injection HE as ->; constructor|].
  destruct (permittedb spec q w && _) eqn:Eb; [|discriminate]. apply andb_true_iff in Eb as [HP%permittedb_permitted Hnow%Z.leb_le].
  destruct (asked q now w) as [w1|] eqn:HA; [|discriminate]. eapply asks_cons; eauto.
Qed.

Lemma execute_reachable spec l w : execute spec l start = Some w -> reachable w.
Proof. intros HE%execute_asks. by exists l. Qed.
End Execute.

(** ** Two runs *)
Definition isSome {A} (o : option A) : bool := match o with Some _ => true | None => false end.
Lemma defaulted {A} (o : option A) d : isSome o = true -> o = Some (default d o).
Proof. by destruct o. Qed.
(** Evaluated by the virtual machine; of a closed goal only whether it holds. *)
Ltac evaluated := match goal with |- ?x = ?v => vm_cast_no_check (@eq_refl _ v) end.
Ltac decided := apply (bool_decide_eq_true_1 _); evaluated.

#[local] Existing Instance plain_hash.
#[local] Existing Instance plain_collisionFree.

Definition spec1 : GenerationScheduleSpec := sampleSpec "repository" "stage".
Definition schedule1 : GenerationSchedule := newSchedule spec1 1.
Definition scope1 (i : nat) : chunkScope := nth i (generationChunkSpecs schedule1) (mkScope "" "" "" "" "" "" 0 0 0).
Definition handle (id token : string) (k : chunkScope) : GenerationChunk := mkGenerationChunk id (leased "worker" token 0 (newChunk k 0 None)).
Definition a0 : GenerationChunk := handle "a" "t1" (scope1 0).
Definition b0 : GenerationChunk := handle "b" "t2" (scope1 1).
Definition c0 : GenerationChunk := handle "c" "t3" (scope1 2).
Definition a1 : GenerationChunk := handle "a2" "t4" (successorScope a0).
Definition a2 : GenerationChunk := handle "a3" "t5" (successorScope a1).

(** Three chunks are fanned out; the first fails once, the second completes. *)
Definition run1 : list (query * Z) :=
  [(QEnqueue spec1 true None [], 1); (QExpand schedule1 true ["a"; "b"; "c"], 1);
   (QClaim schedule1 true NoPlan "a" "worker" "t1", 2); (QClaim schedule1 true NoPlan "b" "worker" "t2", 2);
   (QRetry a0 true 3 "boom" 5 "a2", 3); (QComplete b0 true, 4)].
(** The third fails for good; the first fails again and then completes. *)
Definition run2 : list (query * Z) :=
  [(QClaim schedule1 true NoPlan "c" "worker" "t3", 4); (QFail c0 true "bad", 5); (QClaim schedule1 true NoPlan "a2" "worker" "t4", 5);
   (QRetry a1 true 3 "boom" 6 "a3", 6); (QClaim schedule1 true NoPlan "a3" "worker" "t5", 7); (QComplete a2 true, 8)].

Definition world1 : world := default start (execute spec1 run1 start).
Definition world2 : world := default start (execute spec1 (run1 ++ run2) start).

Lemma world1_reachable : reachable world1.
Proof. apply (execute_reachable spec1 run1), defaulted. evaluated. Qed.
Lemma world2_reachable : reachable world2.
Proof. apply (execute_reachable spec1 (run1 ++ run2)), defaulted. evaluated. Qed.

Definition settled2 : GenerationSchedule := default schedule1 (currentSchedule "repository" "stage" (w_tables world2)).
Lemma world2_current : currentSchedule "repository" "stage" (w_tables world2) = Some settled2.
Proof. apply defaulted. evaluated. Qed.
Definition active1 : GenerationSchedule := default schedule1 (currentSchedule "repository" "stage" (w_tables world1)).
Lemma world1_current : currentSchedule "repository" "stage" (w_tables world1) = Some active1.
Proof. apply defaulted. evaluated. Qed.
