(* ===== verification/GenerationTheorems.v ===== *)
(** * Generation schedules: what their tables promise

    Consequences of the invariant for a reader of the tables: a settled
    schedule covers its items, every row is valid and its counters count, the
    budgets of a repository hold. *)
From stdpp Require Import pretty sorting.
From Stdlib Require Import Ascii String.
From S2P Require Import Prelude.
From S2P Require Import GoStrings GoText GenerationSpec GenerationStore GenerationInvariant GenerationLeases GenerationSteps GenerationFanout GenerationScopes GenerationSamples.

Section Theorems.
Context `{CollisionFree}.
Implicit Types (w : world) (s : GenerationSchedule) (c : chunkRow) (t : tables).

(** ** Coverage *)

(** The chunk [c] of [s] holds the item [x]. *)
Definition holdsItem s (x : Z) c : Prop :=
  k_scheduleDigest (c_scope c) = s_Digest s /\ k_offset (c_scope c) <= x < k_offset (c_scope c) + k_length (c_scope c).

Lemma current_view w repository stage s :
  Inv w -> currentSchedule repository stage (w_tables w) = Some s ->
  t_schedules (w_tables w) !! s_Digest s = Some s /\ RowOK s /\ exists view, ViewOK (t_chunks (w_tables w)) s view.
Proof.
  intros HI Hcur. unfold currentSchedule, currentDigest in Hcur. destruct (t_currents (w_tables w) !! _) as [u|] eqn:Hu; [|discriminate].
  cbn in Hcur. destruct (iv_current w HI _ _ Hu) as (Hk & s' & view & Hs & E1 & E2 & _ & _ & HV). assert (s' = s) as -> by congruence.
  destruct (iv_row w HI _ _ Hs) as (Ed & HR & _). rewrite Ed in Hs. split_and!; eauto.
Qed.

(** The items below the offset of a schedule lie in its cells. *)
Lemma cell_of_item s x : RowOK s -> 0 <= x < s_NextOffset s ->
  0 <= x / sp_ChunkItems (s_spec s) < cells s /\
  x / sp_ChunkItems (s_spec s) * sp_ChunkItems (s_spec s) <= x < x / sp_ChunkItems (s_spec s) * sp_ChunkItems (s_spec s) + sp_ChunkItems (s_spec s).
Proof.
  intros HR Hx. destruct (so_chunk _ (RowOK_spec s HR)). destruct (ro_next s HR) as [Hn _].
  pose proof (Z.div_mod x (sp_ChunkItems (s_spec s))). pose proof (Z.mod_pos_bound x (sp_ChunkItems (s_spec s))).
  split; [|lia]. split; [apply Z.div_pos; lia|]. apply Z.div_lt_upper_bound; lia.
Qed.

Lemma holdsItem_cell s x c j :
  RowOK s -> ScopeOK s (c_scope c) -> k_offset (c_scope c) = j * sp_ChunkItems (s_spec s) -> 0 <= x < sp_TotalItems (s_spec s) ->
  (holdsItem s x c <-> k_scheduleDigest (c_scope c) = s_Digest s /\ j = x / sp_ChunkItems (s_spec s)).
Proof.
  intros HR Hk Ho Hx. destruct (so_chunk _ (RowOK_spec s HR)). pose proof (Z.div_mod x (sp_ChunkItems (s_spec s))).
  pose proof (Z.mod_pos_bound x (sp_ChunkItems (s_spec s))). unfold holdsItem. rewrite (ko_length _ _ Hk), Ho. split.
  - intros [Hd Hr]. split; [exact Hd|]. apply (Z.div_unique _ _ _ (x - j * sp_ChunkItems (s_spec s))); lia.
  - intros [Hd ->]. split; [exact Hd|]. lia.
Qed.

(** Where its items are. *)
Lemma current_covers w repository stage s x :
  Inv w -> currentSchedule repository stage (w_tables w) = Some s ->
  (0 <= x < s_NextOffset s \/ s_Status s = ScheduleSettled /\ 0 <= x < sp_TotalItems (s_spec s)) ->
  exists id c, t_chunks (w_tables w) !! id = Some c /\ holdsItem s x c /\ c_status c <> ChunkCanceled /\
    (s_Status s = ScheduleSettled -> c_status c = ChunkDone \/ (c_status c = ChunkFailed /\ 0 < s_Failed s)) /\
    (forall id' c', t_chunks (w_tables w) !! id' = Some c' -> holdsItem s x c' ->
       id' = id \/ (c_status c' = ChunkFailed /\ k_offset (c_scope c') = k_offset (c_scope c) /\ k_attempt (c_scope c') < k_attempt (c_scope c))).
Proof.
  intros HI Hcur Hx. destruct (current_view w repository stage s HI Hcur) as (Hs & HR & view & HV).
  assert (Hx' : 0 <= x < s_NextOffset s /\ x < sp_TotalItems (s_spec s)).
  { destruct (ro_next s HR). destruct Hx as [Hx|[Hset Hx]]; [lia|]. destruct (ro_settled s HR Hset) as (E & _). lia. }
  destruct Hx' as [Hlo Hhi]. destruct (cell_of_item s x HR Hlo) as [Hj _]. apply (vo_dom _ _ _ HV) in Hj as [v Hv].
  assert (Hscope : forall i y, t_chunks (w_tables w) !! i = Some y -> k_scheduleDigest (c_scope y) = s_Digest s -> ScopeOK s (c_scope y)).
  { intros i y Hy Hd. destruct (iv_chunk w HI i y Hy) as (s' & Hs' & Hk). rewrite Hd in Hs'. congruence. }
  destruct (vo_cell _ _ _ HV _ _ Hv) as (c & Hc & Hd & Ho & Hst & Ha & Hn). exists (v_id v), c. split; [exact Hc|].
  assert (Hin : 0 <= x < sp_TotalItems (s_spec s)) by lia. split.
  { apply (holdsItem_cell s x c _ HR (Hscope _ _ Hc Hd) Ho Hin). auto. }
  split; [congruence|]. split.
  - intros Hset. destruct (ro_settled s HR Hset) as (_ & Hp & Hr & _). rewrite (vo_pending _ _ _ HV) in Hp. rewrite (vo_running _ _ _ HV) in Hr.
    pose proof (msum_zero _ view (fun _ v _ => proj1 (isStatus_range ChunkPending v)) Hp _ _ Hv) as Hp'.
    pose proof (msum_zero _ view (fun _ v _ => proj1 (isStatus_range ChunkRunning v)) Hr _ _ Hv) as Hr'. rewrite Hst.
    unfold isStatus in Hp', Hr'. destruct (v_status v) eqn:Ev; [discriminate|discriminate|by left|right; split; [done|]|done].
    rewrite (vo_failed _ _ _ HV). pose proof (msum_elem_le (isStatus ChunkFailed) view _ v (fun _ v _ => proj1 (isStatus_range ChunkFailed v)) Hv) as Hle.
    assert (E1 : isStatus ChunkFailed v = 1) by (unfold isStatus; by rewrite Ev). lia.
  - intros id' c' Hc' Hh. pose proof Hh as [Hd' _]. destruct (vo_rest _ _ _ HV id' c' Hc' Hd') as (j & v' & Ho' & Hv' & Hor).
    apply (holdsItem_cell s x c' j HR (Hscope _ _ Hc' Hd') Ho' Hin) in Hh as [_ ->]. assert (v' = v) as -> by congruence.
    destruct Hor as [<-|[Hf Hlt]]; [by left|right]. split_and!; [exact Hf|congruence|lia].
Qed.

(** C12: A current schedule loses no item and does none twice.  Every item that
    has been fanned out lies in exactly one chunk that is pending, running,
    done or failed for good; every other chunk that ever held the item is a
    failed earlier attempt at the same offset.  When the schedule is settled
    every item has been fanned out and its chunk is done, or failed for good;
    the latter only if the schedule counts a failure. *)
Theorem settled_schedule_covers w repository stage s x :
  reachable w -> currentSchedule repository stage (w_tables w) = Some s ->
  (0 <= x < s_NextOffset s \/ s_Status s = ScheduleSettled /\ 0 <= x < sp_TotalItems (s_spec s)) ->
  exists id c, t_chunks (w_tables w) !! id = Some c /\ holdsItem s x c /\ c_status c <> ChunkCanceled /\
    (s_Status s = ScheduleSettled -> c_status c = ChunkDone \/ (c_status c = ChunkFailed /\ 0 < s_Failed s)) /\
    (forall id' c', t_chunks (w_tables w) !! id' = Some c' -> holdsItem s x c' ->
       id' = id \/ (c_status c' = ChunkFailed /\ k_offset (c_scope c') = k_offset (c_scope c) /\ k_attempt (c_scope c') < k_attempt (c_scope c))).
Proof. intros HI%reachable_schedules. by apply current_covers. Qed.

(** ** Counters *)

(** The chunks of a schedule with a status. *)
Definition rowsWith (digest : string) (st : GenerationChunkStatus) t : Z :=
  Z.of_nat (size (filter (fun kc : string * chunkRow => k_scheduleDigest (c_scope kc.2) = digest /\ c_status kc.2 = st) (t_chunks t))).

Lemma view_rows t s view st :
  1 <= sp_ChunkItems (s_spec s) -> ViewOK (t_chunks t) s view -> st <> ChunkFailed -> msum (isStatus st) view = rowsWith (s_Digest s) st t.
Proof.
  intros Hci HV Hst. rewrite <-(size_filter_msum (fun jv : Z * cell => v_status jv.2 = st)).
  2: { intros j v _. unfold isStatus. cbn. by repeat case_decide || case_bool_decide. }
  unfold rowsWith. f_equal. rewrite <-!length_map_to_list.
  set (cs := map_to_list _). set (rs := map_to_list _).
  rewrite <-(length_fmap (fun jv => v_id jv.2) cs), <-(length_fmap fst rs). apply Permutation_length, NoDup_Permutation.
  - apply NoDup_fmap_2_strong; [|apply NoDup_map_to_list]. intros [j v] [j' v'] Hv Hv' E. cbn in E.
    apply elem_of_map_to_list, map_lookup_filter_Some in Hv as [Hv _], Hv' as [Hv' _].
    destruct (vo_cell _ _ _ HV j v Hv) as (c & Hc & _ & Ho & _). destruct (vo_cell _ _ _ HV j' v' Hv') as (c' & Hc' & _ & Ho' & _).
    rewrite E in Hc. assert (c' = c) as -> by congruence. assert (j' = j) as -> by nia. congruence.
  - apply NoDup_fst_map_to_list.
  - intros id. rewrite !list_elem_of_fmap. split.
    + intros ([j v] & -> & Hv). apply elem_of_map_to_list, map_lookup_filter_Some in Hv as [Hv Hs]. cbn in *.
      destruct (vo_cell _ _ _ HV j v Hv) as (c & Hc & Hd & _ & Hcs & _). exists (v_id v, c). split; [done|].
      apply elem_of_map_to_list, map_lookup_filter_Some. cbn. rewrite Hcs. auto.
    + intros ([id' c] & -> & Hc). apply elem_of_map_to_list, map_lookup_filter_Some in Hc as [Hc [Hd Hs]]. cbn in *.
      destruct (vo_rest _ _ _ HV id' c Hc Hd) as (j & v & _ & Hv & [Hid|[Hf _]]); [|congruence]. exists (j, v). split; [done|].
      apply elem_of_map_to_list, map_lookup_filter_Some. cbn. split; [exact Hv|].
      destruct (vo_cell _ _ _ HV j v Hv) as (c' & Hc' & _ & _ & Hcs & _). rewrite Hid in Hc'. congruence.
Qed.

Lemma RowOK_valid s : RowOK s -> ValidateGenerationSchedule s = None.
Proof.
  intros HR. pose proof (RowOK_spec s HR) as HS. destruct HR as [R1 R2 R3 R4 [R5 R5'] R6 R7 R8 R9 (R10 & R10' & R10'') R11 R12 R13 R14].
  pose proof (so_chunk _ HS). pose proof (so_items _ HS).
  unfold ValidateGenerationSchedule. rewrite R3, R1, R2, !String.eqb_refl, R4, Z.eqb_refl. cbn [negb orb]. unfold isZero.
  rewrite R4 in *. repeat (rewrite (proj2 (Z.ltb_ge _ _)) by (try lia; nia)). rewrite !(proj2 (Z.eqb_neq _ 0)) by lia. cbn [orb].
  destruct (s_Status s); [done..|]. destruct (R12 eq_refl) as (-> & -> & -> & Hc). rewrite !Z.eqb_refl. cbn [negb orb].
  rewrite (proj2 (Z.eqb_eq _ _)) by lia. done.
Qed.

(** C14: Every schedule row the statements ever leave passes the validator of the
    readers, and its counters are exact.  Its running count is always the
    number of chunk records that run for it, whether or not it is current.
    While its scope points to it, the pending and succeeded counts too are
    the numbers of its pending and done records, and the four outcomes add up
    to the chunks that have been fanned out; it never holds more tokens than it
    was given, and an active one can always go on: items remain to be fanned
    out, or a chunk is pending or running. *)
Theorem schedule_rows_are_exact w d s :
  reachable w -> t_schedules (w_tables w) !! d = Some s ->
  d = s_Digest s /\ ValidateGenerationSchedule s = None /\
  s_Running s = rowsWith d ChunkRunning (w_tables w) /\ s_Running s <= sp_RepositoryTokens (s_spec s) /\
  (s_Status s = ScheduleActive -> s_NextOffset s < sp_TotalItems (s_spec s) \/ 0 < s_Pending s + s_Running s) /\
  (currentDigest (sp_Repository (s_spec s)) (sp_Stage (s_spec s)) (w_tables w) = Some d ->
     s_Status s <> ScheduleSuperseded /\
     s_Pending s = rowsWith d ChunkPending (w_tables w) /\ s_Succeeded s = rowsWith d ChunkDone (w_tables w) /\
     s_Pending s + s_Running s + s_Succeeded s + s_Failed s = chunksOf (s_NextOffset s) (sp_ChunkItems (s_spec s))).
Proof.
  intros HI%reachable_schedules Hs. destruct (iv_row w HI d s Hs) as (-> & HR & _). pose proof (so_chunk _ (RowOK_spec s HR)) as Hci.
  split; [done|]. split; [by apply RowOK_valid|]. split; [|split; [apply (ro_tokens s HR)|split; [apply (ro_live s HR)|]]].
  - rewrite (iv_running w HI _ _ Hs). symmetry. apply size_filter_msum. intros id c _. unfold runningFor. cbn.
    case_decide as HP; [by destruct HP as [-> ->]; rewrite String.eqb_refl|]. case_bool_decide; [|done].
    destruct (String.eqb_spec (k_scheduleDigest (c_scope c)) (s_Digest s)); [by destruct HP|done].
  - intros Hcur. destruct (current_view w (sp_Repository (s_spec s)) (sp_Stage (s_spec s)) s HI) as (_ & _ & view & HV).
    { unfold currentSchedule. by rewrite Hcur. }
    assert (Hsup : s_Status s <> ScheduleSuperseded).
    { unfold currentDigest in Hcur. destruct (t_currents (w_tables w) !! _) as [u|] eqn:Hu; [|discriminate]. injection Hcur as Hud.
      destruct (iv_current w HI _ _ Hu) as (_ & s' & _ & Hs' & _ & _ & _ & Hst & _). congruence. }
    destruct (ro_next s HR) as [_ Hc].
    destruct (ViewOK_counts _ s view HV Hc) as (_ & _ & _ & _ & C & _); [destruct (so_attempts _ (RowOK_spec s HR)); lia|by eapply chunk_attempts|].
    split_and!; [exact Hsup| | |exact C].
    + rewrite (vo_pending _ _ _ HV). apply view_rows; [lia|exact HV|discriminate].
    + rewrite (vo_succeeded _ _ _ HV). apply view_rows; [lia|exact HV|discriminate].
Qed.

(** ** Budgets *)
Definition runningOf (repository : string) t : Z :=
  Z.of_nat (size (filter (fun kc : string * chunkRow => k_repository (c_scope kc.2) = repository /\ c_status kc.2 = ChunkRunning) (t_chunks t))).
Definition activeOf (repository : string) t : Z :=
  Z.of_nat (size (filter (fun ds : string * GenerationSchedule => sp_Repository (s_spec ds.2) = repository /\ s_Status ds.2 = ScheduleActive)
    (t_schedules t))).

(** C16: The budgets of a repository hold in every reachable state, whatever
    schedules compete for it: at most [MaxGenerationRepositoryTokens] of its
    chunks run at once and its token row counts exactly these, at most
    [MaxGenerationActiveStagesPerRepository] of its schedules are active, and
    two active schedules of one stage are the same. *)
Theorem repository_budgets_hold w repository :
  reachable w ->
  runningOf repository (w_tables w) <= MaxGenerationRepositoryTokens /\
  (forall y, t_repositories (w_tables w) !! generationRepositoryID repository = Some y -> y_running y = runningOf repository (w_tables w)) /\
  activeOf repository (w_tables w) <= MaxGenerationActiveStagesPerRepository /\
  (forall d s d' s', t_schedules (w_tables w) !! d = Some s -> t_schedules (w_tables w) !! d' = Some s' ->
     s_Status s = ScheduleActive -> s_Status s' = ScheduleActive -> sp_Repository (s_spec s) = repository ->
     sp_Repository (s_spec s') = repository -> sp_Stage (s_spec s) = sp_Stage (s_spec s') -> d = d').
Proof.
  intros HI%reachable_schedules.
  assert (Hrun : msum (runningIn (generationRepositoryID repository)) (t_chunks (w_tables w)) = runningOf repository (w_tables w)).
  { symmetry. apply size_filter_msum. intros id c _. unfold runningIn. cbn. case_decide as HP.
    - destruct HP as [-> ->]. by rewrite String.eqb_refl.
    - case_bool_decide; [|done]. destruct (String.eqb_spec (generationRepositoryID (k_repository (c_scope c))) (generationRepositoryID repository)) as [E|]; [|done].
      apply schedulerDigest_inj in E. by destruct HP. }
  split; [|split; [|split]].
  - rewrite <-Hrun. destruct (t_repositories (w_tables w) !! generationRepositoryID repository) as [y|] eqn:Hy.
    + destruct (iv_tokens w HI _ _ Hy) as [<- ?]. done.
    + rewrite msum_all_zero; [done|]. intros id c Hc. apply runningIn_repository. intros E. destruct (iv_chunk w HI id c Hc) as (s & Hs & Hk).
      destruct (iv_repository w HI _ _ Hs) as [y Hy']. rewrite <-(ko_repository _ _ Hk), E in Hy'. congruence.
  - intros y Hy. rewrite <-Hrun. by apply (iv_tokens w HI).
  - etransitivity; [|apply (iv_stages w HI repository)]. apply Z.eq_le_incl, size_filter_msum. intros d s _. unfold activeIn, isActive. cbn. case_decide as HP.
    + destruct HP as [-> ->]. by rewrite String.eqb_refl.
    + case_bool_decide; [|done]. destruct (String.eqb_spec (sp_Repository (s_spec s)) repository); [by destruct HP|done].
  - intros d s d' s' Hs Hs' Ha Ha' Er Er' Est. pose proof (iv_active w HI _ _ Hs Ha) as Hc. pose proof (iv_active w HI _ _ Hs' Ha') as Hc'.
    rewrite Er, Est in Hc. rewrite Er' in Hc'. congruence.
Qed.
End Theorems.
(** ** Examples *)
#[local] Existing Instance plain_hash.
#[local] Existing Instance plain_collisionFree.

(** Item 2 lies in the chunk that failed twice before it was done. *)
Lemma settled_schedule_covers_witness :
  exists id c, t_chunks (w_tables world2) !! id = Some c /\ holdsItem settled2 2 c /\ (c_status c = ChunkDone \/ c_status c = ChunkFailed).
Proof.
  assert (Hset : s_Status settled2 = ScheduleSettled) by (vm_compute; reflexivity).
  destruct (settled_schedule_covers world2 "repository" "stage" settled2 2 world2_reachable world2_current) as (id & c & Hc & Hh & _ & Hs & _).
  - right. split; [exact Hset|]. split; [lia|vm_compute; reflexivity].
  - exists id, c. split; [exact Hc|]. split; [exact Hh|]. destruct (Hs Hset) as [?|[? _]]; auto.
Defined.

Lemma schedule_rows_are_exact_witness :
  s_Pending active1 = 2 /\ ValidateGenerationSchedule active1 = None /\ s_Running active1 = rowsWith (s_Digest active1) ChunkRunning (w_tables world1).
Proof.
  assert (Hs : t_schedules (w_tables world1) !! s_Digest active1 = Some active1) by (refine (proj1 (current_view world1 "repository" "stage" active1 _ world1_current)); apply reachable_schedules, world1_reachable).
  destruct (schedule_rows_are_exact world1 (s_Digest active1) active1 world1_reachable Hs) as (_ & HV & Hr & _).
  split; [vm_compute; reflexivity|]. by split.
Defined.

Lemma repository_budgets_hold_witness :
  runningOf "repository" (w_tables world1) <= MaxGenerationRepositoryTokens /\ activeOf "repository" (w_tables world1) <= MaxGenerationActiveStagesPerRepository.
Proof. destruct (repository_budgets_hold world1 "repository" world1_reachable) as (Hr & _ & Ha & _). by split. Defined.
