(* ===== verification/GenerationFences.v ===== *)
(** * Generation schedules: leases

    A lease ends once.  Whatever ends it - its worker or the reaper - nothing
    the worker submits under it afterwards finds the chunk again, however
    often the record has been given out since. *)
From stdpp Require Import pretty sorting.
From Stdlib Require Import Ascii String.
From S2P Require Import Prelude.
From S2P Require Import GoStrings GoText GenerationSpec GenerationStore GenerationInvariant GenerationLeases GenerationSteps GenerationFanout GenerationScopes GenerationSamples.

Section Fences.
Context `{CollisionFree}.
Implicit Types (w : world) (s : GenerationSchedule) (c : chunkRow) (t : tables).

(** ** Statements under a lease *)

(** The lease a statement names: the token and the record. *)
Definition leaseOf (q : query) : option (string * string) :=
  match q with
  | QHeartbeat chunk _ | QComplete chunk _ | QFail chunk _ _ | QRetry chunk _ _ _ _ _ | QRelease chunk _ _ | QDefer chunk _ _ _ | QReap chunk _ =>
      Some (c_leaseToken (g_row chunk), g_ID chunk)
  | _ => None
  end.
Definition endsLease (q : query) : bool :=
  match q with
  | QComplete _ _ | QFail _ _ _ | QRetry _ _ _ _ _ _ | QRelease _ _ _ | QDefer _ _ _ _ | QReap _ _ => true
  | _ => false
  end.

(** The answer of the statement: whether it owned the lease. *)
Definition ownedIn (r : res string (transition * tables)) : bool := match r with Ok (a, _) => tr_owned a | Err _ => false end.
Definition owned (q : query) (now : Z) t : bool :=
  match q with
  | QHeartbeat chunk live => match heartbeatGenerationChunkSQL chunk live now t with Ok (b, _) => b | Err _ => false end
  | QComplete chunk live => ownedIn (completeGenerationChunkSQL chunk live now t)
  | QFail chunk live message => ownedIn (failGenerationChunkSQL chunk live message now t)
  | QRetry chunk live maxAttempts message notBefore newID => ownedIn (retryGenerationChunkSQL chunk live maxAttempts message notBefore newID now t)
  | QRelease chunk live message => ownedIn (releaseGenerationChunkSQL chunk live message now t)
  | QDefer chunk live message notBefore => ownedIn (deferGenerationChunkSQL chunk live message notBefore now t)
  | QReap chunk cutoff => ownedIn (reapGenerationChunkSQL chunk cutoff now t)
  | _ => false
  end.

(** ** Running chunks *)
Definition runs t (id : string) c : Prop := t_chunks t !! id = Some c /\ c_status c = ChunkRunning.

Lemma createChunks_rows l t t' : createChunks l t = Ok t' -> forall i x, t_chunks t' !! i = Some x -> t_chunks t !! i = Some x \/ (i, x) ∈ l.
Proof.
  revert t. induction l as [|[id c] l IH]; intros t HC i x Hi; cbn in HC; [injection HC as <-; by left|]. unfold createChunk in HC.
  destruct (t_chunks t !! id) eqn:Hid; [discriminate|]. destruct (chunkByIdentity _ _); [discriminate|].
  destruct (IH _ HC i x Hi) as [Hx|Hx]; [|right; by right]. cbn in Hx. apply lookup_insert_Some in Hx as [[<- <-]|[_ Hx]]; [right; left|by left].
Qed.

(** What a statement that ends a lease leaves running. *)
Lemma endLease_runs chunk owns f l g answer t a t' :
  endLease chunk owns f l g answer t = Ok (a, t') -> (forall b, tr_owned (answer b) = b) ->
  (forall c, c_status (f c) <> ChunkRunning) -> (forall i x, (i, x) ∈ l -> c_status x <> ChunkRunning) ->
  forall id c, runs t' id c -> runs t id c /\ (tr_owned a = true -> id <> g_ID chunk).
Proof.
  intros HS Ha Hf Hl id c [Hc Hr]. unfold endLease in HS.
  destruct (t_chunks t !! g_ID chunk) as [c0|] eqn:Hc0; [|injection HS as <- <-; rewrite Ha; by split].
  destruct (owns c0); [|injection HS as <- <-; rewrite Ha; by split]. destruct (createChunks _ _) as [t1|] eqn:HC; [|discriminate].
  injection HS as <- <-. cbn in Hc. destruct (createChunks_rows _ _ _ HC id c Hc) as [Hc'|Hin]; [|by destruct (Hl id c Hin)].
  cbn in Hc'. apply lookup_insert_Some in Hc' as [[<- <-]|[Hne Hc']]; [by destruct (Hf c0)|]. by split.
Qed.

Lemma givenBack_stopped current notBefore message c : c_status (givenBack current notBefore message c) <> ChunkRunning.
Proof. cbn. by destruct current. Qed.

Lemma stale_true chunk cutoff c : stale chunk cutoff c = true -> c_status c = ChunkRunning /\ c_leaseToken c = c_leaseToken (g_row chunk).
Proof.
  unfold stale. intros Ho. repeat (apply andb_true_iff in Ho as [Ho ?]). apply bool_decide_eq_true_1 in Ho. split; [exact Ho|].
  by match goal with E : String.eqb (c_leaseToken c) _ = true |- _ => apply String.eqb_eq in E end.
Qed.

(** The statements that end leases, all of one shape. *)
Lemma ending_shape q now t t' :
  endsLease q = true -> run q now t = Some t' ->
  exists chunk owns f l g answer a, leaseOf q = Some (c_leaseToken (g_row chunk), g_ID chunk) /\
    endLease chunk owns f l g answer t = Ok (a, t') /\ owned q now t = tr_owned a /\ (forall b, tr_owned (answer b) = b) /\
    (forall c, c_status (f c) <> ChunkRunning) /\ (forall i x, (i, x) ∈ l -> c_status x <> ChunkRunning) /\
    (forall c, owns c = true -> c_status c = ChunkRunning /\ c_leaseToken c = c_leaseToken (g_row chunk)).
Proof.
  intros Hq HR.
  assert (Hholds : forall chunk c, holds chunk c = true -> c_status c = ChunkRunning /\ c_leaseToken c = c_leaseToken (g_row chunk)).
  { intros chunk c (? & ? & _ & _)%holds_lease. auto. }
  assert (Hnil : forall i (x : chunkRow), (i, x) ∈ @nil (string * chunkRow) -> c_status x <> ChunkRunning) by (intros i x Hx%not_elem_of_nil; done).
  destruct q; try discriminate; cbn [run owned leaseOf] in *; apply after_Some in HR as [a HR]; rewrite HR.
  - unfold completeGenerationChunkSQL in HR. destruct (negb _); [discriminate|]. do 7 eexists. split_and!; [done|exact HR|done|done|..]; auto.
    intros c. cbn. by destruct (isCurrent _ _).
  - unfold failGenerationChunkSQL in HR. destruct (negb _); [discriminate|]. do 7 eexists. split_and!; [done|exact HR|done|done|..]; auto.
    intros c. cbn. by destruct (isCurrent _ _).
  - unfold retryGenerationChunkSQL in HR. destruct (negb _); [discriminate|]. do 7 eexists. split_and!; [done|exact HR|done|done|..]; auto.
    + intros c. cbn. by destruct (isCurrent _ _).
    + intros i x. destruct (_ && _); [|by apply Hnil]. intros [= _ ->]%list_elem_of_singleton. discriminate.
  - unfold releaseGenerationChunkSQL in HR. destruct (negb _); [discriminate|]. do 7 eexists. split_and!; [done|exact HR|done|done|..]; auto using givenBack_stopped.
  - unfold deferGenerationChunkSQL in HR. destruct (negb _); [discriminate|]. do 7 eexists. split_and!; [done|exact HR|done|done|..]; auto using givenBack_stopped.
  - unfold reapGenerationChunkSQL in HR. do 7 eexists. split_and!; [done|exact HR|done|done|..]; auto using givenBack_stopped.
    intros c. by apply stale_true.
Qed.

Lemma endLease_owned chunk owns f l g answer t a t' :
  endLease chunk owns f l g answer t = Ok (a, t') -> (forall b, tr_owned (answer b) = b) ->
  (tr_owned a = true -> exists c, t_chunks t !! g_ID chunk = Some c /\ owns c = true) /\ (tr_owned a = false -> t' = t).
Proof.
  unfold endLease. intros HS Ha. destruct (t_chunks t !! g_ID chunk) as [c|]; [|injection HS as <- <-; by rewrite Ha].
  destruct (owns c) eqn:Eo; [|injection HS as <- <-; by rewrite Ha]. destruct (createChunks _ _); [|discriminate].
  injection HS as <- <-. rewrite Ha. split; [eauto|discriminate].
Qed.

(** Running chunks ran before, unless the statement issued their lease. *)
Lemma runs_before w q now w' id c :
  Inv w -> permitted q w -> asked q now w = Some w' -> runs (w_tables w') id c ->
  (exists c0, runs (w_tables w) id c0 /\ c_leaseToken c0 = c_leaseToken c) \/ c_leaseToken c ∉ l_token <$> w_leases w.
Proof.
  intros HI HP HA [Hc Hr]. unfold asked in HA. destruct (run q now (w_tables w)) as [t|] eqn:ER; [|discriminate]. injection HA as <-. cbn in Hc.
  assert (Hsame : t_chunks t = t_chunks (w_tables w) -> exists c0, runs (w_tables w) id c0 /\ c_leaseToken c0 = c_leaseToken c).
  { intros E. exists c. unfold runs. rewrite <-E. auto. }
  destruct (endsLease q) eqn:Eq.
  { destruct (ending_shape q now _ t Eq ER) as (chunk & owns & f & l & g & answer & a & _ & HS & _ & Ha & Hf & Hl & _).
    destruct (endLease_runs _ _ _ _ _ _ _ _ _ HS Ha Hf Hl id c) as [Hrun _]; [by split|]. left. eauto. }
  destruct q; try discriminate; cbn [run] in ER; apply after_Some in ER as [a ER].
  - left. apply Hsame. unfold enqueueGenerationScheduleSQL in ER. revert ER.
    repeat case_match; intros; simplify_eq; reflexivity.
  - left. apply Hsame. unfold retireCurrentSQL in ER. revert ER. case_match; intros; simplify_eq; reflexivity.
  - unfold expandGenerationScheduleSQL in ER. destruct (_ && negb live); [discriminate|].
    destruct (_ && _) in ER; [|injection ER as _ <-; left; by apply Hsame].
    destruct (createChunks _ _) as [t1|] eqn:EC; [|discriminate]. injection ER as _ <-. cbn in Hc.
    destruct (createChunks_rows _ _ _ EC id c Hc) as [Hx|Hx]; [left; exists c; by repeat split|].
    apply elem_of_zip_r in Hx. apply list_elem_of_fmap in Hx as (k & -> & _). discriminate.
  - destruct (claim_Ok _ _ _ _ _ _ _ _ _ _ ER) as [[-> ->]|(s & c0 & HC & -> & ->)]; [left; by apply Hsame|].
    cbn in Hc. apply lookup_insert_Some in Hc as [[<- <-]|[_ Hc]]; [right; apply HP|left; exists c; by repeat split].
  - unfold heartbeatGenerationChunkSQL in ER. destruct (negb _); [discriminate|].
    destruct (t_chunks (w_tables w) !! g_ID chunk) as [c0|] eqn:Hc0; [|injection ER as _ <-; left; by apply Hsame].
    destruct (holds chunk c0) eqn:Eh; injection ER as _ <-; [|left; by apply Hsame]. left. cbn in Hc.
    apply lookup_insert_Some in Hc as [[<- <-]|[_ Hc]]; [exists c0|exists c]; by repeat split.
  - unfold collectGenerationScheduleSQL in ER. destruct (lifecycleSelection _ _ _ _ _ _ _) as [chunkIDs|]; [|discriminate].
    destruct (negb _ || _); [discriminate|]. left. exists c. split; [|done]. split; [|done].
    destruct (chunksOfSchedule _ _); injection ER as _ <-; cbn in Hc; apply foldr_delete_Some in Hc; tauto.
Qed.

(** *** After the end of a lease *)

(** The token was issued and no chunk runs under it. *)
Definition over (token : string) w : Prop :=
  token ∈ l_token <$> w_leases w /\ forall id c, runs (w_tables w) id c -> c_leaseToken c <> token.

Lemma over_asked token w q now w' : Inv w -> permitted q w -> asked q now w = Some w' -> over token w -> over token w'.
Proof.
  intros HI HP HA [Hin Hno]. split.
  - unfold asked in HA. destruct (run _ _ _); [|discriminate]. injection HA as <-. cbn. rewrite fmap_app, elem_of_app. by right.
  - intros id c Hr E. destruct (runs_before w q now w' id c HI HP HA Hr) as [(c0 & Hr0 & E0)|Hfresh].
    + apply (Hno id c0 Hr0). congruence.
    + by rewrite E in Hfresh.
Qed.

Lemma over_statements token l w w' : Inv w -> asks l w w' -> over token w -> over token w' /\ Inv w'.
Proof.
  intros HI HA. induction HA as [|q now l w w1 w2 HP Hnow Hq HA IH]; [done|]. intros Ho. apply IH; [by eapply schedules_asked|by eapply over_asked].
Qed.

(** Two running chunks have different leases. *)
Lemma runs_unique w id c id' c' : Inv w -> runs (w_tables w) id c -> runs (w_tables w) id' c' -> c_leaseToken c = c_leaseToken c' -> id = id'.
Proof.
  intros HI [Hc Hr] [Hc' Hr'] E. destruct (iv_lease w HI _ _ Hc Hr) as (Hl & _). destruct (iv_lease w HI _ _ Hc' Hr') as (Hl' & _).
  pose proof (NoDup_fmap_eq l_token _ _ _ (iv_unique w HI) Hl Hl' E) as Heq. by injection Heq.
Qed.

(** A statement under a lease that is over finds nothing and changes nothing. *)
Lemma over_inert q now w token id :
  over token w -> leaseOf q = Some (token, id) -> owned q now (w_tables w) = false /\ forall t, run q now (w_tables w) = Some t -> t = w_tables w.
Proof.
  intros [_ Hno] Hq. destruct (endsLease q) eqn:Eq.
  - destruct (run q now (w_tables w)) as [t|] eqn:ER.
    + destruct (ending_shape q now _ t Eq ER) as (chunk & owns & f & l & g & answer & a & Hl & HS & Ho & Ha & _ & _ & Hown).
      rewrite Hq in Hl. injection Hl as -> ->. destruct (endLease_owned _ _ _ _ _ _ _ _ _ HS Ha) as [Ht Hf]. rewrite Ho.
      destruct (tr_owned a); [|split; [done|]; intros ? [= <-]; by apply Hf]. destruct (Ht eq_refl) as (c & Hc & Hoc). destruct (Hown c Hoc) as [Hr El].
      by destruct (Hno _ c (conj Hc Hr)).
    + split; [|done]. destruct q; try discriminate; cbn in *; unfold ownedIn; by destruct (_ : res string (transition * tables)) as [[]|].
  - destruct q; try discriminate. cbn in *. injection Hq as <- <-. unfold heartbeatGenerationChunkSQL. destruct (negb _); [done|].
    destruct (t_chunks (w_tables w) !! g_ID chunk) as [c|] eqn:Hc; [|split; [done|]; by intros ? [= <-]].
    destruct (holds chunk c) eqn:Eh; [|split; [done|]; by intros ? [= <-]]. apply holds_lease in Eh as (Hr & El & _). by destruct (Hno _ c (conj Hc Hr)).
Qed.

(** C22: A lease ends once.  After any statement under it - completion, failure,
    retry, release, deferral, or the reaper's - has found the chunk running
    and ended the lease, and after whatever anyone submits next, including
    new claims of the same record by the same worker, every further statement
    under that lease (heartbeats too) answers that it does not own the chunk
    and changes no table. *)
Theorem generation_lease_ends_once w q now w1 l w2 q' now' token id :
  reachable w -> permitted q w -> w_clock w <= now -> asked q now w = Some w1 ->
  leaseOf q = Some (token, id) -> endsLease q = true -> owned q now (w_tables w) = true ->
  asks l w1 w2 -> leaseOf q' = Some (token, id) ->
  owned q' now' (w_tables w2) = false /\ forall t, run q' now' (w_tables w2) = Some t -> t = w_tables w2.
Proof.
  intros HI%reachable_schedules HP Hnow HA Hq Hend How HL Hq'. assert (HI1 : Inv w1) by by eapply schedules_asked.
  enough (Hover : over token w1). { destruct (over_statements token l w1 w2 HI1 HL Hover) as [Hover' _]. by eapply over_inert. }
  pose proof HA as HA'. unfold asked in HA. destruct (run q now (w_tables w)) as [t|] eqn:ER; [|discriminate]. injection HA as <-.
  destruct (ending_shape q now _ t Hend ER) as (chunk & owns & f & l' & g & answer & a & Hl & HS & Ho & Ha & Hf & Hl' & Hown).
  rewrite Hq in Hl. injection Hl as -> ->. rewrite Ho in How. destruct (endLease_owned _ _ _ _ _ _ _ _ _ HS Ha) as [Ht _].
  destruct (Ht How) as (c & Hc & Hoc). destruct (Hown c Hoc) as [Hr El]. split.
  - cbn. rewrite fmap_app, elem_of_app. right. rewrite <-El. destruct (iv_lease w HI _ c Hc Hr) as (Hin & _).
    apply (list_elem_of_fmap_2 l_token) in Hin. exact Hin.
  - intros id' c' Hr' E. cbn in Hr'. destruct (endLease_runs _ _ _ _ _ _ _ _ _ HS Ha Hf Hl' id' c' Hr') as [Hrun Hne].
    apply (Hne How). apply (runs_unique w id' c' (g_ID chunk) c HI Hrun (conj Hc Hr)). congruence.
Qed.
End Fences.

(** ** Examples *)
#[local] Existing Instance plain_hash.
#[local] Existing Instance plain_collisionFree.

(** The lease of the first chunk ended in the retry; four claims later its
    worker still reports completion. *)
Definition prefix1 : list (query * Z) := take 4 run1.
Definition before1 : world := default start (execute spec1 prefix1 start).
Definition after1 : world := default start (asked (QRetry a0 true 3 "boom" 5 "a2") 3 before1).
Definition later1 : world := default start (execute spec1 (drop 5 run1 ++ run2) after1).

Lemma generation_lease_ends_once_witness :
  owned (QRetry a0 true 3 "boom" 5 "a2") 3 (w_tables before1) = true /\ owned (QComplete a0 true) 9 (w_tables later1) = false.
Proof.
  assert (How : owned (QRetry a0 true 3 "boom" 5 "a2") 3 (w_tables before1) = true) by (vm_compute; reflexivity). split; [exact How|].
  assert (HR : reachable before1) by (apply (execute_reachable spec1 prefix1), defaulted; evaluated).
  assert (HP : permitted (QRetry a0 true 3 "boom" 5 "a2") before1) by (apply (permittedb_permitted spec1); vm_compute; reflexivity).
  assert (HA : asked (QRetry a0 true 3 "boom" 5 "a2") 3 before1 = Some after1) by (apply defaulted; evaluated).
  assert (HL : asks (drop 5 run1 ++ run2) after1 later1) by (apply (execute_asks spec1), defaulted; evaluated).
  refine (proj1 (generation_lease_ends_once before1 (QRetry a0 true 3 "boom" 5 "a2") 3 after1 (drop 5 run1 ++ run2) later1 (QComplete a0 true) 9 "t1" "a"
    HR HP _ HA eq_refl eq_refl How HL eq_refl)).
  vm_compute. discriminate.
Defined.
