(* ===== verification/GenerationProgress.v ===== *)
(** * Generation schedules: progress

    An active schedule whose repository is at rest can be carried through: the
    statements of a single worker - fan out, claim, complete - settle it. *)
From stdpp Require Import pretty sorting fin_sets infinite.
From Stdlib Require Import Ascii String.
From S2P Require Import Prelude.
From S2P Require Import GoStrings GoText GenerationSpec GenerationStore GenerationInvariant GenerationLeases GenerationSteps GenerationFanout GenerationScopes GenerationSamples.

Section Progress.
Context `{CollisionFree}.
Implicit Types (w : world) (s : GenerationSchedule) (c : chunkRow) (t : tables).

Lemma statements_app l l' w w1 w2 : asks l w w1 -> asks l' w1 w2 -> asks (l ++ l') w w2.
Proof. induction 1; [done|]. intros. cbn. eapply asks_cons; eauto. Qed.
Lemma asks_one q now w w' : permitted q w -> w_clock w <= now -> asked q now w = Some w' -> asks [(q, now)] w w'.
Proof. intros. eapply asks_cons; eauto. constructor. Qed.

(** ** An idle active schedule *)
Record Idle w s : Prop := {
  id_inv : Inv w;
  id_row : t_schedules (w_tables w) !! s_Digest s = Some s;
  id_active : s_Status s = ScheduleActive;
  id_idle : msum (runningIn (generationRepositoryID (sp_Repository (s_spec s)))) (t_chunks (w_tables w)) = 0
}.

Lemma Idle_current w s : Idle w s -> currentDigest (sp_Repository (s_spec s)) (sp_Stage (s_spec s)) (w_tables w) = Some (s_Digest s).
Proof. intros [HI Hs Ha _]. by apply (iv_active w HI). Qed.
Lemma Idle_row w s : Idle w s -> RowOK s.
Proof. intros HD. by destruct (iv_row w (id_inv w s HD) _ _ (id_row w s HD)) as (_ & HR & _). Qed.
Lemma Idle_view w s : Idle w s -> exists view, ViewOK (t_chunks (w_tables w)) s view.
Proof.
  intros HD. pose proof (Idle_current w s HD) as Hcur. unfold currentDigest in Hcur. destruct (t_currents (w_tables w) !! _) as [u|] eqn:Hu; [|discriminate].
  injection Hcur as Hud. destruct (iv_current w (id_inv w s HD) _ _ Hu) as (_ & s' & view & Hs' & _ & _ & _ & _ & HV).
  rewrite Hud, (id_row w s HD) in Hs'. injection Hs' as <-. eauto.
Qed.
Lemma Idle_running w s : Idle w s -> s_Running s = 0.
Proof.
  intros HD. pose proof (id_inv w s HD) as HI. destruct (running_le w _ s HI (id_row w s HD)) as (y & Hy & Hle).
  rewrite (proj1 (iv_tokens w HI _ _ Hy)), (id_idle w s HD) in Hle. pose proof (ro_running s (Idle_row w s HD)). lia.
Qed.
Lemma Idle_repository w s : Idle w s ->
  exists y, t_repositories (w_tables w) !! generationRepositoryID (sp_Repository (s_spec s)) = Some y /\ y_running y = 0.
Proof.
  intros HD. pose proof (id_inv w s HD) as HI. destruct (iv_repository w HI _ _ (id_row w s HD)) as [y Hy]. exists y. split; [exact Hy|].
  by rewrite (proj1 (iv_tokens w HI _ _ Hy)), (id_idle w s HD).
Qed.

(** ** Fan-out succeeds *)
Lemma chunkByIdentity_None identity t : (forall i c, t_chunks t !! i = Some c -> k_identity (c_scope c) <> identity) -> chunkByIdentity identity t = None.
Proof.
  intros Hno. unfold chunkByIdentity. destruct (base.filter _ _) as [|[i c] l] eqn:E; [done|]. exfalso.
  assert (Hin : (i, c) ∈ base.filter (fun kc : string * chunkRow => k_identity (c_scope kc.2) = identity) (map_to_list (t_chunks t))) by (rewrite E; left).
  apply list_elem_of_filter in Hin as [Hi Hin]. apply elem_of_map_to_list in Hin. by apply (Hno i c Hin).
Qed.

Lemma createChunks_Ok ids rows t :
  NoDup ids -> (forall id, id ∈ ids -> t_chunks t !! id = None) -> NoDup ((fun c => k_identity (c_scope c)) <$> rows) ->
  (forall c, c ∈ rows -> forall i x, t_chunks t !! i = Some x -> k_identity (c_scope x) <> k_identity (c_scope c)) ->
  exists t', createChunks (zip ids rows) t = Ok t'.
Proof.
  revert rows t. induction ids as [|id ids IH]; intros [|c rows] t Hids Hfree Hrows Hids'; cbn [zip zip_with createChunks]; eauto.
  apply NoDup_cons in Hids as [Hid Hids]. cbn in Hrows. apply NoDup_cons in Hrows as [Hc Hrows]. unfold createChunk.
  rewrite (Hfree id) by left. rewrite chunkByIdentity_None by (apply Hids'; left). apply IH; auto; cbn.
  - intros id' Hin. rewrite lookup_insert_ne; [apply Hfree; by right|]. by intros ->.
  - intros c' Hin i x Hi. apply lookup_insert_Some in Hi as [[<- <-]|[_ Hi]].
    + intros E. apply Hc. rewrite E. apply list_elem_of_fmap_2 with (f := fun c => k_identity (c_scope c)). exact Hin.
    + apply (Hids' c' ltac:(by right) i x Hi).
Qed.

(** The identities of a page are new. *)
Lemma page_identity w s (k : nat) i x :
  Inv w -> t_schedules (w_tables w) !! s_Digest s = Some s -> RowOK s -> Z.of_nat k < room s -> t_chunks (w_tables w) !! i = Some x ->
  k_identity (c_scope x) <> k_identity (pageScope s k).
Proof.
  intros HI Hs HR Hk Hx E. destruct (iv_chunk w HI i x Hx) as (sx & Hsx & Hkx). rewrite (ko_identity _ _ Hkx) in E. cbn in E.
  apply chunkID_inj in E as (Ed & Eo & _). destruct (iv_row w HI _ _ Hsx) as (Edx & _). rewrite Edx, Ed, Hs in Hsx. injection Hsx as <-.
  destruct (ko_offset _ _ Hkx) as (j & Hj & Ho). destruct (next_exact s HR) as [En _]; [lia|]. pose proof (so_chunk _ (RowOK_spec s HR)). nia.
Qed.

Lemma page_NoDup s n : RowOK s -> NoDup ((fun c => k_identity (c_scope c)) <$> ((fun k => newChunk k GenerationPriorityNeverRun None) <$> (pageScope s <$> seq 0 n))).
Proof.
  intros HR. rewrite <-!list_fmap_compose. apply NoDup_fmap_2_strong; [|apply NoDup_seq]. intros a b _ _ E. cbn in E.
  apply chunkID_inj in E as (_ & Eo & _). pose proof (so_chunk _ (RowOK_spec s HR)). nia.
Qed.

Lemma ok_tables {A} (a : A) t t' : t = t' -> @Ok string _ (a, t) = Ok (a, t').
Proof. by intros ->. Qed.

Lemma expand_progress w s :
  Idle w s -> s_NextOffset s < sp_TotalItems (s_spec s) ->
  exists q now w' s', permitted q w /\ w_clock w <= now /\ asked q now w = Some w' /\ Idle w' s' /\ s_spec s' = s_spec s /\
    s_NextOffset s < s_NextOffset s' /\ s_Failed s' = s_Failed s.
Proof.
  intros HD Hlt. pose proof (id_inv w s HD) as HI. pose proof (id_row w s HD) as Hs. pose proof (Idle_row w s HD) as HR.
  pose proof (so_chunk _ (RowOK_spec s HR)) as Hci.
  assert (Hroom : 0 < room s). { unfold room, chunksOf. apply Z.div_str_pos. lia. }
  set (n := Z.to_nat (Z.min MaxGenerationFanoutPage (room s))). assert (Hn : 0 < Z.of_nat n <= room s) by (unfold n, MaxGenerationFanoutPage; lia).
  set (ids := fresh_list n (dom (t_chunks (w_tables w)))). pose proof (generationChunkSpecs_page s s eq_refl eq_refl eq_refl) as Epage. fold n in Epage.
  destruct (createChunks_Ok ids ((fun k => newChunk k GenerationPriorityNeverRun None) <$> (pageScope s <$> seq 0 n)) (w_tables w)) as [t1 EC].
  { apply NoDup_fresh_list. }
  { intros id Hid. apply fresh_list_is_fresh in Hid. by apply not_elem_of_dom. }
  { by apply page_NoDup. }
  { intros c Hc i x Hx. apply list_elem_of_fmap in Hc as (k & -> & Hk). apply list_elem_of_fmap in Hk as (m & -> & Hm).
    apply elem_of_seq in Hm. apply (page_identity w s m i x HI Hs HR); [lia|exact Hx]. }
  assert (HP : permitted (QExpand s true ids) w).
  { split; [split; [apply (ro_spec s HR)|apply (ro_digest s HR)]|]. rewrite Epage. unfold ids. by rewrite length_fresh_list, !length_fmap, length_seq. }
  set (g := fun s => s <| s_NextOffset := s_NextOffset (expandedBy (Z.of_nat n) s) |> <| s_Materialized ::= Z.add (Z.of_nat n) |>
    <| s_Pending ::= Z.add (Z.of_nat n) |> <| s_UpdatedAt := w_clock w |>).
  destruct (createChunks_fanned s HR n 0 ids (w_tables w) t1) as (chunks' & -> & HF); [lia|exact EC|apply length_fresh_list|].
  assert (HA : exists a, expandGenerationScheduleSQL s true ids (w_clock w) (w_tables w) =
    Ok (a, (w_tables w) <| t_chunks := chunks' |> <| t_schedules ::= alter g (s_Digest s) |>)).
  { unfold expandGenerationScheduleSQL. rewrite Hs, andb_false_r, (bool_decide_eq_true_2 _ (Idle_current w s HD)). unfold isActive.
    rewrite (bool_decide_eq_true_2 _ (id_active w s HD)), Z.eqb_refl. cbn [andb]. rewrite Epage, EC, (page_length s n HR) by lia.
    rewrite !length_fmap, length_seq. eexists. apply ok_tables. apply tables_eq; [|reflexivity..]. cbn. apply map_eq. intros d.
    rewrite !lookup_alter. case_decide; subst; [|done]. by rewrite Hs. }
  destruct HA as [a HA]. eexists (QExpand s true ids), (w_clock w), _, (g s). split; [exact HP|]. split; [lia|].
  assert (Hask : asked (QExpand s true ids) (w_clock w) w = Some (mkWorld ((w_tables w) <| t_chunks := chunks' |> <| t_schedules ::= alter g (s_Digest s) |>) (w_clock w) (w_leases w))).
  { unfold asked. cbn [run]. rewrite HA. reflexivity. }
  split; [exact Hask|]. split; [constructor|split; [done|split; [|done]]].
  - eapply schedules_asked; [exact HI|exact HP|reflexivity|exact Hask].
  - cbn. by rewrite lookup_alter_eq, Hs.
  - apply (id_active w s HD).
  - cbn. rewrite (fa_in _ _ _ _ _ HF). apply (id_idle w s HD).
  - change (s_NextOffset (g s)) with (s_NextOffset (expandedBy (Z.of_nat n) s)). rewrite next_expanded. nia.
Qed.

(** ** A claim succeeds *)
Lemma first_Some {A} (before : A -> A -> bool) l : l <> [] -> exists x, first before l = Some x.
Proof. destruct l as [|x l]; [done|]. intros _. cbn. destruct (first before l) as [y|]; [destruct (before y x)|]; eauto. Qed.

Lemma pending_chunk w s : Idle w s -> 0 < s_Pending s ->
  exists id c, t_chunks (w_tables w) !! id = Some c /\ k_scheduleDigest (c_scope c) = s_Digest s /\ c_status c = ChunkPending.
Proof.
  intros HD Hp. destruct (Idle_view w s HD) as [view HV]. rewrite (vo_pending _ _ _ HV) in Hp.
  destruct (msum_pos (isStatus ChunkPending) view) as (j & v & Hv & Hne); [lia|]. destruct (vo_cell _ _ _ HV j v Hv) as (c & Hc & Hd & _ & Hs & _).
  exists (v_id v), c. split_and!; auto. rewrite Hs. unfold isStatus in Hne. by case_bool_decide.
Qed.

Lemma selection_progress w s id c now :
  Idle w s -> 0 < s_Pending s -> t_chunks (w_tables w) !! id = Some c -> k_scheduleDigest (c_scope c) = s_Digest s -> c_status c = ChunkPending ->
  default 0 (c_notBefore c) <= now -> exists id', claimSelection s NoPlan now (w_tables w) = Some id'.
Proof.
  intros HD Hp Hc Hd Hst Hdue. unfold claimSelection. rewrite (id_row w s HD). destruct (Idle_repository w s HD) as (y & Hy & Hy0). rewrite Hy, Hy0.
  rewrite (bool_decide_eq_true_2 _ (Idle_current w s HD)). unfold isActive. rewrite (bool_decide_eq_true_2 _ (id_active w s HD)).
  pose proof (so_tokens _ (RowOK_spec s (Idle_row w s HD))). rewrite (proj2 (Z.ltb_lt 0 _) Hp), (proj2 (Z.ltb_lt 0 _)) by lia. cbn [andb].
  match goal with |- context [first ?b ?l] => destruct (first_Some b l) as [[id' c'] ->]; [|by exists id'] end.
  intros E. assert (Hin : (id, c) ∈ base.filter (fun kc : string * chunkRow => claimable (s_Digest s) NoPlan (s_Failed s) now kc.2 = true) (map_to_list (t_chunks (w_tables w)))).
  { apply list_elem_of_filter. split; [|by apply elem_of_map_to_list]. unfold claimable. cbn. rewrite Hd, String.eqb_refl, Hst, bool_decide_eq_true_2 by done. cbn.
    destruct (c_notBefore c); cbn in *; [lia|done]. }
  rewrite E in Hin. by apply not_elem_of_nil in Hin.
Qed.

Definition freshToken w : string := fresh ({[ "" ]} ∪ list_to_set (l_token <$> w_leases w) : gset string).
Lemma freshToken_ok w : freshToken w <> "" /\ freshToken w ∉ l_token <$> w_leases w.
Proof. pose proof (is_fresh ({[ "" ]} ∪ list_to_set (l_token <$> w_leases w) : gset string)) as Hf. fold (freshToken w) in Hf.
  rewrite elem_of_union, elem_of_singleton, elem_of_list_to_set in Hf. tauto. Qed.

(** The fence of a lease of this schedule holds while its root is live. *)
Lemma typedChunkFence_live t s id c row :
  RowOK s -> ScopeOK s (c_scope c) -> t_chunks t !! id = Some c -> c_scope row = c_scope c -> typedChunkFence (mkGenerationChunk id row) true t = true.
Proof.
  intros HR Hk Hc E. pose proof (RowOK_spec s HR) as HS. unfold typedChunkFence, g_scope. cbn [g_ID g_row]. rewrite E, Hc, (ko_stage _ _ Hk), (ko_class _ _ Hk).
  destruct (so_stageLength _ HS) as [Hne ->]. rewrite (proj2 (String.eqb_neq _ _) Hne), (so_stage _ HS), (so_class _ HS), (so_typed _ HS). cbn.
  destruct (String.eqb _ _); done.
Qed.

Definition worker0 : string := "worker".
Definition claimedRow s now : GenerationSchedule :=
  s <| s_Pending ::= Z.add (-1) |> <| s_Running ::= Z.add 1 |> <| s_LastClaimedAt := Some now |> <| s_UpdatedAt := now |>.

Lemma claim_progress w s :
  Idle w s -> 0 < s_Pending s -> exists id c now, w_clock w <= now /\ t_chunks (w_tables w) !! id = Some c /\
    k_scheduleDigest (c_scope c) = s_Digest s /\ c_status c = ChunkPending /\
    permitted (QClaim s true NoPlan id worker0 (freshToken w)) w /\
    asked (QClaim s true NoPlan id worker0 (freshToken w)) now w =
      Some (mkWorld (claimedTables (w_tables w) s id (leased worker0 (freshToken w) now c) now) now (mkLease (freshToken w) id (c_scope c) :: w_leases w)).
Proof.
  intros HD Hp. destruct (pending_chunk w s HD Hp) as (id0 & c0 & Hc0 & Hd0 & Hst0). set (now := Z.max (w_clock w) (default 0 (c_notBefore c0))).
  destruct (selection_progress w s id0 c0 now HD Hp Hc0 Hd0 Hst0) as [id Hsel]; [lia|].
  destruct (claimSelection_Some _ _ _ _ _ Hsel) as (s' & c & HC). exists id, c, now. pose proof (Idle_row w s HD) as HR.
  destruct (freshToken_ok w) as [Hne Hfresh]. split; [lia|]. split; [apply (cl_chunk _ _ _ _ _ _ HC)|]. split; [apply (cl_digest _ _ _ _ _ _ HC)|].
  split; [apply (cl_pending _ _ _ _ _ _ HC)|]. split; [split; [split; [apply (ro_spec s HR)|apply (ro_digest s HR)]|by split_and!]|].
  assert (HA : claimGenerationChunkSQL s true NoPlan id worker0 (freshToken w) now (w_tables w) =
    Ok (Some (mkGenerationChunk id (leased worker0 (freshToken w) now c)), claimedTables (w_tables w) s id (leased worker0 (freshToken w) now c) now)).
  { unfold claimGenerationChunkSQL. rewrite andb_false_r, Hsel, String.eqb_refl. cbn [negb].
    rewrite (cl_chunk _ _ _ _ _ _ HC), bool_decide_eq_true_2 by apply (cl_pending _ _ _ _ _ _ HC). reflexivity. }
  unfold asked. cbn [run issued]. rewrite HA. reflexivity.
Qed.

(** ** A claimed chunk is completed *)
Lemma work_progress w s :
  Idle w s -> 0 < s_Pending s ->
  exists l w' s', asks l w w' /\ Inv w' /\ t_schedules (w_tables w') !! s_Digest s' = Some s' /\
    currentDigest (sp_Repository (s_spec s')) (sp_Stage (s_spec s')) (w_tables w') = Some (s_Digest s') /\
    s_spec s' = s_spec s /\ s_NextOffset s' = s_NextOffset s /\ s_Pending s' = s_Pending s - 1 /\ s_Failed s' = s_Failed s /\
    (Idle w' s' \/ s_Status s' = ScheduleSettled).
Proof.
  intros HD Hp. destruct (claim_progress w s HD Hp) as (id & c & now & Hnow & Hc & Hd & Hst & HP1 & HA1).
  pose proof (id_inv w s HD) as HI. pose proof (Idle_row w s HD) as HR. destruct (iv_chunk w HI id c Hc) as (s1 & Hs1 & Hk). rewrite Hd, (id_row w s HD) in Hs1.
  injection Hs1 as <-. set (c' := leased worker0 (freshToken w) now c) in *. set (g := mkGenerationChunk id c').
  match type of HA1 with asked _ _ _ = Some ?x => set (w1 := x) in * end.
  assert (HI1 : Inv w1) by (by eapply schedules_asked).
  set (h := fun s => s <| s_Running ::= Z.add (-1) |> <| s_Succeeded ::= Z.add 1 |> <| s_Status := if settles s then ScheduleSettled else s_Status s |> <| s_UpdatedAt := now |>).
  set (t2 := endedTables (w_tables w1) (<[id := finished ChunkDone now c']> (t_chunks (w_tables w1))) (c_scope c) h).
  assert (HA2 : asked (QComplete g true) now w1 = Some (mkWorld t2 now (w_leases w1))).
  { unfold asked. cbn [run issued app]. unfold completeGenerationChunkSQL. unfold g at 1.
    rewrite (typedChunkFence_live (w_tables w1) s id c' c' HR Hk) by (cbn; rewrite ?lookup_insert_eq; done). cbn [negb].
    assert (Ecur : isCurrent g (w_tables w1) = true).
    { unfold isCurrent, g_scope. cbn. apply bool_decide_eq_true_2. rewrite (ko_repository _ _ Hk), (ko_stage _ _ Hk), Hd. apply (Idle_current w s HD). }
    rewrite Ecur. unfold endLease. cbn [g_ID g]. assert (Hl : t_chunks (w_tables w1) !! id = Some c') by (cbn; by rewrite lookup_insert_eq). rewrite Hl.
    assert (Hh : holds g c' = true) by (unfold holds, g_scope; cbn; by rewrite !String.eqb_refl, !bool_decide_eq_true_2).
    rewrite Hh. cbn [createChunks after andb one]. reflexivity. }
  assert (HI2 : Inv (mkWorld t2 now (w_leases w1))) by exact (schedules_asked w1 (QComplete g true) now _ HI1 I (Z.le_refl _) HA2).
  exists [(QClaim s true NoPlan id worker0 (freshToken w), now); (QComplete g true, now)], (mkWorld t2 now (w_leases w1)), (h (claimedRow s now)).
  assert (Hrow : t_schedules t2 !! s_Digest s = Some (h (claimedRow s now))).
  { cbn. rewrite Hd, lookup_alter_eq, lookup_alter_eq, (id_row w s HD). reflexivity. }
  split; [eapply asks_cons; [exact HP1|exact Hnow|exact HA1|]; eapply asks_one; [exact I|reflexivity|exact HA2]|]. split; [exact HI2|].
  split; [exact Hrow|]. split; [exact (Idle_current w s HD)|]. split; [done|]. split; [done|]. split; [cbn; lia|]. split; [done|].
  assert (Hstat : s_Status (h (claimedRow s now)) = if settles (claimedRow s now) then ScheduleSettled else s_Status s) by reflexivity.
  destruct (settles (claimedRow s now)); [by right|left]. constructor; [exact HI2|exact Hrow|by rewrite Hstat, (id_active w s HD)|].
  destruct (Idle_repository w s HD) as (y & Hy & Hy0). cbn [w_tables].
  assert (Hy2 : t_repositories t2 !! generationRepositoryID (sp_Repository (s_spec s)) = Some (y <| y_running := -1 + (1 + y_running y) |> <| y_lastClaimedAt := Some now |>)).
  { cbn. rewrite (ko_repository _ _ Hk), lookup_alter_eq, lookup_alter_eq, Hy. reflexivity. }
  pose proof (proj1 (iv_tokens _ HI2 _ _ Hy2)) as Et. cbn in Et. rewrite Hy0 in Et. cbn. lia.
Qed.

(** ** A schedule settles *)
Lemma expand_all n w s :
  Idle w s -> (Z.to_nat (sp_TotalItems (s_spec s) - s_NextOffset s) <= n)%nat ->
  exists l w' s', asks l w w' /\ Idle w' s' /\ s_spec s' = s_spec s /\ s_NextOffset s' = sp_TotalItems (s_spec s) /\ s_Failed s' = s_Failed s.
Proof.
  revert w s. induction n as [|n IH]; intros w s HD Hn; pose proof (ro_next s (Idle_row w s HD)) as [Hnext _].
  - exists [], w, s. split; [constructor|]. split_and!; auto. lia.
  - destruct (decide (s_NextOffset s = sp_TotalItems (s_spec s))) as [E|]; [exists [], w, s; split; [constructor|by split_and!]|].
    destruct (expand_progress w s HD) as (q & now & w1 & s1 & HP & Hnow & HA & HD1 & Es & Hlt & Ef); [lia|].
    destruct (IH w1 s1 HD1) as (l & w2 & s2 & HL & HD2 & Es2 & En2 & Ef2); [rewrite Es; lia|].
    exists ((q, now) :: l), w2, s2. split; [by eapply asks_cons|]. rewrite Es in *. split_and!; auto; congruence.
Qed.

Lemma work_all n w s :
  Idle w s -> s_NextOffset s = sp_TotalItems (s_spec s) -> (Z.to_nat (s_Pending s) <= n)%nat ->
  exists l w' s', asks l w w' /\ Inv w' /\ t_schedules (w_tables w') !! s_Digest s' = Some s' /\
    currentDigest (sp_Repository (s_spec s')) (sp_Stage (s_spec s')) (w_tables w') = Some (s_Digest s') /\
    s_spec s' = s_spec s /\ s_Failed s' = s_Failed s /\ s_Status s' = ScheduleSettled.
Proof.
  revert w s. induction n as [|n IH]; intros w s HD Hnext Hn; pose proof (ro_live s (Idle_row w s HD) (id_active w s HD)) as Hlive;
    rewrite (Idle_running w s HD) in Hlive; [lia|].
  destruct (work_progress w s HD) as (l & w1 & s1 & HL & HI1 & Hs1 & Hc1 & Es & En & Ep & Ef & [HD1|Hset]); [lia|..].
  - destruct (IH w1 s1 HD1) as (l' & w2 & s2 & HL' & HI2 & Hs2 & Hc2 & Es2 & Ef2 & Hset2); [congruence|lia|].
    exists (l ++ l'), w2, s2. split; [by eapply statements_app|]. split_and!; auto; congruence.
  - exists l, w1, s1. split_and!; auto.
Qed.

(** C23: No schedule is stuck.  From every reachable state, an active current
    schedule whose repository runs no chunk can be settled by statements that
    one worker submits - fan out, claim, complete, whatever priorities and
    delays earlier attempts have left - with every chunk that had not failed
    for good done.  The counters, the pointer, the token row and the
    settlement test never disagree in a way that strands it. *)
Theorem schedule_can_settle w repository stage s :
  reachable w -> currentSchedule repository stage (w_tables w) = Some s -> s_Status s = ScheduleActive ->
  (forall id c, t_chunks (w_tables w) !! id = Some c -> k_repository (c_scope c) = sp_Repository (s_spec s) -> c_status c <> ChunkRunning) ->
  exists l w' s', asks l w w' /\ currentSchedule repository stage (w_tables w') = Some s' /\ s_spec s' = s_spec s /\
    s_Status s' = ScheduleSettled /\ s_Failed s' = s_Failed s /\ s_Succeeded s' = s_TotalChunks s' - s_Failed s'.
Proof.
  intros HI%reachable_schedules Hcur Hact Hidle. unfold currentSchedule, currentDigest in Hcur.
  destruct (t_currents (w_tables w) !! generationCurrentID repository stage) as [u|] eqn:Hu; [|discriminate]. cbn in Hcur.
  destruct (iv_row w HI _ _ Hcur) as (Ed & _). rewrite Ed in Hcur.
  assert (HD : Idle w s).
  { constructor; auto. apply msum_all_zero. intros i x Hx. unfold runningIn. case_bool_decide as Hr; [|done]. cbn.
    destruct (String.eqb_spec (generationRepositoryID (k_repository (c_scope x))) (generationRepositoryID (sp_Repository (s_spec s)))) as [E%schedulerDigest_inj|]; [|done].
    by destruct (Hidle i x Hx E). }
  destruct (expand_all _ w s HD (le_n _)) as (l & w1 & s1 & HL & HD1 & Es & En & Ef).
  destruct (work_all _ w1 s1 HD1 ltac:(congruence) (le_n _)) as (l' & w2 & s2 & HL' & HI2 & Hs2 & Hc2 & Es2 & Ef2 & Hset).
  exists (l ++ l'), w2, s2. split; [by eapply statements_app|]. split.
  - destruct (iv_current w HI _ _ Hu) as (Hk & s' & _ & Hs' & E1 & E2 & _). rewrite Ed, Hcur in Hs'. injection Hs' as <-.
    unfold currentSchedule, currentDigest in *. rewrite Es2, Es, E1, E2, <-Hk in Hc2. by rewrite Hc2.
  - destruct (iv_row w2 HI2 _ _ Hs2) as (_ & HR2 & _). destruct (ro_settled s2 HR2 Hset) as (_ & _ & _ & Ht). split_and!; try congruence; lia.
Qed.
End Progress.

(** ** Examples *)
#[local] Existing Instance plain_hash.
#[local] Existing Instance plain_collisionFree.

(** A chunk is pending after a failure, one has never run, one is done. *)
Lemma schedule_can_settle_witness :
  exists l w' s', asks l world1 w' /\ currentSchedule "repository" "stage" (w_tables w') = Some s' /\ s_Status s' = ScheduleSettled /\ s_Failed s' = 0.
Proof.
  assert (Hact : s_Status active1 = ScheduleActive) by (vm_compute; reflexivity).
  destruct (schedule_can_settle world1 "repository" "stage" active1 world1_reachable world1_current Hact) as (l & w' & s' & HL & Hc & _ & Hset & Hf & _).
  - assert (Hall : map_Forall (fun _ c => c_status c <> ChunkRunning) (t_chunks (w_tables world1))) by (apply (bool_decide_eq_true_1 _); vm_compute; reflexivity).
    intros id c Hc _. exact (Hall id c Hc).
  - exists l, w', s'. split; [exact HL|]. split; [exact Hc|]. split; [exact Hset|]. rewrite Hf. vm_compute. reflexivity.
Defined.
