(* ===== verification/GenerationOps.v ===== *)
(** * Generation schedules: operations

    The Go methods around the statements of [GenerationStore]: validation, the
    reads before a transaction, the bounded retry on conflicts, the
    reconciliation of an answer that was lost.  A method is a program of
    actions: it asks the database, the context, the clock, the token generator
    and the typed index, and continues with what they answer.  Between two
    actions anyone may submit statements; a statement that fails may or may
    not have been committed. *)
From stdpp Require Import sorting.
From Stdlib Require Import Ascii String.
From S2P Require Import Prelude.
From S2P Require Import GoStrings GoText JobErrors StoreErrors GenerationSpec GenerationStore GenerationInvariant.

(** ** Programs *)
Inductive reply :=
  | RSchedule (s : option GenerationSchedule)
  | RChunk (c : option GenerationChunk)
  | RTransition (a : transition)
  | RFlag (b : bool)
  | RCount (n : Z).

(** What a statement finds in the tables of the typed index and of the V3
    service plan. *)
Record outside := mkOutside { o_live : bool; o_plan : option Z; o_planOK : bool; o_hasPlan : bool }.

(** The typed index answers which specification its repository wants now and
    whether a root is live; the database evaluates a read at its own time. *)
Inductive action : Type -> Type :=
  | AQuery (q : outside -> query) : action (res err reply)
  | ARead {A} (f : outside -> Z -> tables -> A) : action (res err A)
  | ATyped (repository : string) : action (res err GenerationScheduleSpec)
  | ALiveRoot (repository root : string) : action error
  | ACtxErr : action error
  | AToken : action (res err string)
  | ANow : action Z.

Inductive prog (A : Type) : Type :=
  | Ret (x : A)
  | Act {B} (a : action B) (k : B -> prog A).
Arguments Ret {A} x.
Arguments Act {A B} a k.

Fixpoint andThen {A B} (p : prog A) (f : A -> prog B) : prog B :=
  match p with
  | Ret x => f x
  | Act a k => Act a (fun r => andThen (k r) f)
  end.
Declare Scope generation_scope.
Delimit Scope generation_scope with generation.
Notation "'do!' x ':=' p 'in' q" := (andThen p (fun x => q))
  (at level 10, x name, p at level 100, q at level 200) : generation_scope.
#[local] Open Scope generation_scope.
Definition ask {B} (a : action B) : prog B := Act a Ret.

(** ** Errors *)
Definition ErrGenerationStale : string := "generation schedule is stale".
Definition ErrGenerationLeaseLost : string := "generation chunk lease lost".
Definition ErrGenerationExhausted : string := "generation chunk attempts exhausted".
Definition ErrGenerationScheduleFailed : string := "generation schedule settled with failures".
(** [fmt.Errorf(prefix + ": %w", e)]. *)
Definition during (prefix : string) (e : err) : err := Wrap (NText (prefix +:+ ": " +:+ default "" (Error e))) [e].

Definition MaxGenerationWorkerBytes : nat := 256.
Definition MaxGenerationClaimCandidates : nat := 64.
Definition maxGenerationScheduleClaimCandidates : nat := 512.

Section Operations.
Context `{Hash}.

(** ** Submitting *)
Fixpoint retryQuery {B} (a : action (res err B)) (left : nat) : prog (res err B) :=
  do! r := ask a in
  match r with
  | Ok x => Ret (Ok x)
  | Err e =>
      if negb (isRetryable e) then Ret (Err e) else
      do! c := ask ACtxErr in
      match c, left with
      | None, S (S _ as left') => retryQuery a left'
      | _, _ => Ret (Err e)
      end
  end.
Definition queryGenerationSchedule {B} (a : action (res err B)) : prog (res err B) := retryQuery a maxQueueRetries.

Definition generationChunkByIdentity (identity : string) : prog (res err GenerationChunk) :=
  do! r := queryGenerationSchedule (ARead (fun _ _ t => chunkByIdentity identity t)) in
  Ret (match r with
       | Err e => Err (during "read generation chunk" e)
       | Ok None => Err (during "read generation chunk" (sentinel ErrNotFound))
       | Ok (Some (id, c)) => Ok (mkGenerationChunk id c)
       end).

Definition generationScheduleByDigest (digest : string) : prog (res err GenerationSchedule) :=
  if negb (validSHA256 digest) then Ret (Err (text "generation schedule digest is invalid")) else
  do! r := ask (ARead (fun _ _ t => t_schedules t !! digest)) in
  Ret (match r with
       | Err e => Err (during "read generation schedule" e)
       | Ok None => Err (during "read generation schedule" (sentinel ErrNotFound))
       | Ok (Some s) => Ok s
       end).

Definition GetGenerationSchedule (repository stage : string) : prog (res err GenerationSchedule) :=
  if negb (trimmed repository) || String.eqb repository "" || negb (validGenerationToken stage) || String.eqb stage ""
  then Ret (Err (text "get generation schedule: invalid scope")) else
  do! r := queryGenerationSchedule (ARead (fun _ _ t => currentSchedule repository stage t)) in
  Ret (match r with
       | Err e => Err (during "get generation schedule" e)
       | Ok None => Err (during "get generation schedule" (sentinel ErrNotFound))
       | Ok (Some s) => match ValidateGenerationSchedule s with
                        | Some e => Err (during "get generation schedule" (text e))
                        | None => Ok s
                        end
       end).

(** ** Enqueueing *)
(** An error that may be retried carries what it is wrapped in at last. *)
Definition withEnqueueRetry {A} (turn : prog (res (string * err) (res err A))) : nat -> prog (res err A) :=
  fix go left :=
    do! r := turn in
    match r with
    | Ok x => Ret x
    | Err (prefix, e) =>
        if negb (isRetryableEnqueue e) then Ret (Err (during prefix e)) else
        do! c := ask ACtxErr in
        match c, left with
        | None, S (S _ as left') => go left'
        | _, _ => Ret (Err (during prefix e))
        end
    end.

Definition enqueued (spec : GenerationScheduleSpec) (oldDigest : option string) (r : reply) : res err GenerationSchedule :=
  let digest := generationScheduleDigest spec in
  match r with
  | RSchedule (Some schedule) =>
      if negb (String.eqb (s_Digest schedule) digest) || negb (bool_decide (s_spec schedule = spec))
      then Err (text "enqueue generation schedule: immutable schedule collision") else
      if bool_decide (s_Status schedule = ScheduleActive) then Ok schedule else
      if negb (String.eqb (sp_ResourceClass spec) GenerationResourceTypedIndex) || negb (bool_decide (s_Status schedule = ScheduleSettled))
         || negb (bool_decide (oldDigest = Some digest)) || negb (is_nil (ValidateGenerationSchedule schedule))
      then Err (sentinel ErrGenerationStale) else Ok schedule
  | _ => Err (text "enqueue generation schedule: schedule row is absent")
  end.

Definition EnqueueGenerationSchedule (spec : GenerationScheduleSpec) : prog (res err GenerationSchedule) :=
  match normalizeGenerationScheduleSpec spec with
  | Err e => Ret (Err (text e))
  | Ok spec =>
      let digest := generationScheduleDigest spec in
      do! authority := (if String.eqb (sp_ResourceClass spec) GenerationResourceTypedIndex then
                          do! r := ask (ATyped (sp_Repository spec)) in
                          Ret (match r with
                               | Err e => Some e
                               | Ok current => if bool_decide (current = spec) then None else Some (sentinel ErrGenerationStale)
                               end)
                        else Ret None) in
      match authority with
      | Some e => Ret (Err e)
      | None =>
          withEnqueueRetry (
            do! prior := ask (ARead (fun _ _ t => let old := currentDigest (sp_Repository spec) (sp_Stage spec) t in (old, priorIDs digest old t))) in
            match prior with
            | Err e => Ret (Err ("read generation enqueue prior", e))
            | Ok (old, ids) =>
                do! c := ask ACtxErr in
                match c with Some e => Ret (Ok (Err e)) | None =>
                if match old with Some old => negb (validSHA256 old) | None => false end
                then Ret (Ok (Err (text "read generation enqueue prior: invalid digest"))) else
                do! r := ask (AQuery (fun o => QEnqueue spec (o_live o) old ids)) in
                Ret (match r with Err e => Err ("enqueue generation schedule", e) | Ok r => Ok (enqueued spec old r) end)
                end
            end) maxQueueRetries
      end
  end.

Definition RetireCurrentGenerationSchedule (expected : GenerationSchedule) : prog error :=
  match ValidateGenerationSchedule expected with
  | Some e => Ret (Some (during "retire current generation schedule" (text e)))
  | None =>
      do! r := queryGenerationSchedule (AQuery (fun _ =>
        QRetire (sp_Repository (s_spec expected)) (sp_Stage (s_spec expected)) (sp_Generation (s_spec expected)) (s_Digest expected))) in
      Ret (match r with
           | Err e => Some (during "retire current generation schedule" e)
           | Ok (RFlag true) => None
           | Ok _ => Some (sentinel ErrGenerationStale)
           end)
  end.

(** ** Reading outcomes *)

(** [ORDER BY attempt DESC LIMIT 1]. *)
Definition latestFailure (digest : string) (t : tables) : option GenerationChunk :=
  (fun kc => mkGenerationChunk kc.1 kc.2) <$>
  first (fun a b : string * chunkRow => k_attempt (c_scope b.2) <? k_attempt (c_scope a.2))
    (base.filter (fun kc => k_scheduleDigest (c_scope kc.2) = digest /\ c_status kc.2 = ChunkFailed) (map_to_list (t_chunks t))).

(** Without its receipt, which the text of the error decodes to. *)
Record GenerationScheduleFailure := mkFailure { f_ScheduleDigest : string; f_Generation : string; f_Attempt : Z; f_chunk : GenerationChunk }.

Definition GetGenerationScheduleFailure (repository stage scheduleDigest : string) : prog (res err GenerationScheduleFailure) :=
  do! r := GetGenerationSchedule repository stage in
  match r with
  | Err e => Ret (Err e)
  | Ok schedule =>
      if negb (String.eqb (s_Digest schedule) scheduleDigest) || negb (bool_decide (s_Status schedule = ScheduleSettled)) || (s_Failed schedule <? 1)
      then Ret (Err (sentinel ErrGenerationStale)) else
      do! r := ask (ARead (fun _ _ t => latestFailure scheduleDigest t)) in
      Ret (match r with
           | Err e => Err (during "read generation schedule failure" e)
           | Ok None => Err (during "read generation schedule failure" (sentinel ErrNotFound))
           | Ok (Some chunk) =>
               let k := g_scope chunk in
               if negb (String.eqb (k_scheduleDigest k) (s_Digest schedule)) || negb (String.eqb (k_repository k) repository)
                  || negb (String.eqb (k_stage k) stage) || negb (String.eqb (k_generation k) (sp_Generation (s_spec schedule)))
                  || negb (bool_decide (c_status (g_row chunk) = ChunkFailed)) || (k_attempt k <? 0) || (sp_MaxAttempts (s_spec schedule) <=? k_attempt k)
               then Err (text "read generation schedule failure: invalid failed chunk")
               else Ok (mkFailure (k_scheduleDigest k) (k_generation k) (k_attempt k) chunk)
           end)
  end.

Record SettlementRequest := mkSettlementRequest {
  q_Repository : string;
  q_Stage : string;
  q_Generation : string;
  q_ResourceClass : string;
  q_ScheduleDigest : string
}.
Record GenerationScheduleSettlement := mkSettlement {
  m_ScheduleDigest : string;
  m_Status : GenerationScheduleStatus;
  m_TotalChunks : Z;
  m_Pending : Z;
  m_Running : Z;
  m_Succeeded : Z;
  m_Failed : Z
}.
Definition Complete (value : GenerationScheduleSettlement) : bool :=
  bool_decide (m_Status value = ScheduleSettled) && (0 <? m_TotalChunks value) && (m_Pending value =? 0) && (m_Running value =? 0)
  && (m_Failed value =? 0) && (m_Succeeded value =? m_TotalChunks value).

(** The observation, and the error that may accompany it. *)
Definition generationScheduleSettlement (request : SettlementRequest) (schedule : GenerationSchedule)
    : option GenerationScheduleSettlement * error :=
  if negb (is_nil (ValidateGenerationSchedule schedule)) || negb (String.eqb (s_Digest schedule) (q_ScheduleDigest request))
     || negb (String.eqb (sp_Repository (s_spec schedule)) (q_Repository request)) || negb (String.eqb (sp_Stage (s_spec schedule)) (q_Stage request))
     || negb (String.eqb (sp_Generation (s_spec schedule)) (q_Generation request))
     || negb (String.eqb (sp_ResourceClass (s_spec schedule)) (q_ResourceClass request))
     || negb (s_NextOffset schedule =? sp_TotalItems (s_spec schedule)) || (s_Materialized schedule <? s_TotalChunks schedule)
     || (negb (bool_decide (s_Status schedule = ScheduleActive)) && negb (bool_decide (s_Status schedule = ScheduleSettled)))
  then (None, Some (sentinel ErrGenerationStale)) else
  let value := mkSettlement (s_Digest schedule) (s_Status schedule) (s_TotalChunks schedule) (s_Pending schedule) (s_Running schedule)
                 (s_Succeeded schedule) (s_Failed schedule) in
  if bool_decide (s_Status schedule = ScheduleSettled) && negb (Complete value)
  then (Some value, Some (sentinel ErrGenerationScheduleFailed)) else (Some value, None).

Definition ReadGenerationScheduleSettlement (request : SettlementRequest) : prog (option GenerationScheduleSettlement * error) :=
  if negb (trimmed (q_Repository request)) || String.eqb (q_Repository request) ""
     || Nat.ltb MaxJobHistoryTargetCharacters (String.length (q_Repository request)) || negb (utf8Valid (q_Repository request))
     || negb (validGenerationToken (q_Stage request)) || String.eqb (q_Stage request) ""
     || negb (validSHA256 (q_Generation request)) || negb (validGenerationResourceClass (q_ResourceClass request))
     || negb (validSHA256 (q_ScheduleDigest request))
  then Ret (None, Some (text "read generation schedule settlement: request is invalid")) else
  do! r := GetGenerationSchedule (q_Repository request) (q_Stage request) in
  Ret (match r with
       | Err e => (None, Some (during "read generation schedule settlement" e))
       | Ok schedule => generationScheduleSettlement request schedule
       end).

(** ** Fan-out *)
Definition ExpandGenerationSchedule (repository stage generation : string) (ids : list string) : prog (res err GenerationSchedule) :=
  do! r := GetGenerationSchedule repository stage in
  match r with
  | Err e => Ret (Err e)
  | Ok schedule =>
      if negb (String.eqb (sp_Generation (s_spec schedule)) generation) || negb (bool_decide (s_Status schedule = ScheduleActive))
      then Ret (Err (sentinel ErrGenerationStale)) else
      do! live := (if String.eqb (sp_ResourceClass (s_spec schedule)) GenerationResourceTypedIndex
                   then ask (ALiveRoot repository generation) else Ret None) in
      match live with
      | Some e => Ret (Err e)
      | None =>
          if s_NextOffset schedule =? sp_TotalItems (s_spec schedule) then Ret (Ok schedule) else
          let chunks := generationChunkSpecs schedule in
          let newOffset := s_NextOffset schedule + zsum (k_length <$> chunks) in
          do! r := queryGenerationSchedule (AQuery (fun o => QExpand schedule (o_live o) (take (length chunks) ids))) in
          Ret (match r with
               | Err e => Err (during "expand generation schedule" e)
               | Ok (RSchedule (Some expanded)) => if s_NextOffset expanded =? newOffset then Ok expanded else Err (sentinel ErrGenerationStale)
               | Ok _ => Err (text "expand generation schedule: schedule row is absent")
               end)
      end
  end.

(** *** Orders of the candidates *)
Definition compareOption (a b : option Z) : comparison :=
  match a, b with
  | None, None => Eq
  | None, Some _ => Lt
  | Some _, None => Gt
  | Some a, Some b => (a ?= b)
  end.
Definition compareStrings (a b : string) : comparison := if String.eqb a b then Eq else if str_ltb a b then Lt else Gt.
Fixpoint thenBy (l : list comparison) : comparison := match l with [] => Eq | Eq :: l' => thenBy l' | c :: _ => c end.
Definition orderedBy {A} (compare : A -> A -> comparison) (limit : nat) (l : list A) : list A :=
  take limit (merge_sort (fun a b => compare a b <> Gt) l).

Definition rowsOf (t : tables) : list GenerationSchedule := snd <$> map_to_list (t_schedules t).
Definition chunkRowsOf (t : tables) : list GenerationChunk := (fun kc => mkGenerationChunk kc.1 kc.2) <$> map_to_list (t_chunks t).

Definition expandable (class : string) (t : tables) : list GenerationSchedule :=
  orderedBy (fun a b => thenBy [s_UpdatedAt a ?= s_UpdatedAt b; compareStrings (sp_Repository (s_spec a)) (sp_Repository (s_spec b));
      compareStrings (sp_Stage (s_spec a)) (sp_Stage (s_spec b))]) 1
    (base.filter (fun s => sp_ResourceClass (s_spec s) = class /\ s_Status s = ScheduleActive /\ s_NextOffset s < sp_TotalItems (s_spec s)) (rowsOf t)).

Definition ExpandNextGenerationSchedule (class : string) (ids : list string) : prog (res err GenerationSchedule) :=
  if negb (validGenerationResourceClass class) then Ret (Err (text "expand next generation schedule: invalid resource class")) else
  do! r := queryGenerationSchedule (ARead (fun _ _ t => expandable class t)) in
  match r with
  | Err e => Ret (Err (during "expand next generation schedule" e))
  | Ok [] => Ret (Err (during "expand next generation schedule" (sentinel ErrNotFound)))
  | Ok (s :: _) => ExpandGenerationSchedule (sp_Repository (s_spec s)) (sp_Stage (s_spec s)) (sp_Generation (s_spec s)) ids
  end.

(** ** Claiming *)
Definition ServiceStateV3ReconcileStage : string := "service-state-v3-reconcile".
Definition ServiceStateV3ActivateStage : string := "service-state-v3-activate".
Definition isServiceStateV3 (stage : string) : bool := String.eqb stage ServiceStateV3ReconcileStage || String.eqb stage ServiceStateV3ActivateStage.
Definition planOf (stage : string) (o : outside) : serialPlan :=
  if isServiceStateV3 stage then match o_plan o with Some items => AppliedTo items | None => ForeignPlan end else NoPlan.

Definition claimCandidates (class : string) (t : tables) : list GenerationSchedule :=
  orderedBy (fun a b => thenBy [compareOption (s_LastClaimedAt a) (s_LastClaimedAt b); s_CreatedAt a ?= s_CreatedAt b;
      compareStrings (sp_Repository (s_spec a)) (sp_Repository (s_spec b)); compareStrings (sp_Stage (s_spec a)) (sp_Stage (s_spec b))])
    maxGenerationScheduleClaimCandidates
    (base.filter (fun s => sp_ResourceClass (s_spec s) = class /\ s_Status s = ScheduleActive /\ 0 < s_Pending s) (rowsOf t)).

(** The selection, with the fence of a typed root. *)
Definition selectChunk (schedule : GenerationSchedule) (o : outside) (now : Z) (t : tables) : res string (option string) :=
  if String.eqb (sp_ResourceClass (s_spec schedule)) GenerationResourceTypedIndex && negb (o_live o) then Err typedStale
  else Ok (claimSelection schedule (planOf (sp_Stage (s_spec schedule)) o) now t).

(** [Ok None] goes on with the next schedule. *)
Fixpoint claimAttempts (schedule : GenerationSchedule) (worker lease : string) (left : nat) : prog (res err (option GenerationChunk)) :=
  let again (prefix : string) (e : err) (next : prog (res err (option GenerationChunk))) :=
    if negb (isRetryable e) then Ret (Err (during prefix e)) else
    do! c := ask ACtxErr in
    match c, left with
    | None, S (S _) => next
    | _, _ => Ret (Err (during prefix e))
    end in
  match left with
  | O => Ret (Ok None)
  | S left' =>
      do! selected := ask (ARead (selectChunk schedule)) in
      let selected := match selected with Ok (Ok id) => Ok id | Ok (Err e) => Err (text e) | Err e => Err e end in
      match selected with
      | Err e =>
          if String.eqb (sp_ResourceClass (s_spec schedule)) GenerationResourceTypedIndex && contains (default "" (Error e)) typedStale
          then Ret (Ok None) else again "select generation chunk" e (claimAttempts schedule worker lease left')
      | Ok id =>
          do! c := ask ACtxErr in
          match c, id with
          | Some e, _ => Ret (Err e)
          | None, None => Ret (Ok None)
          | None, Some id =>
              do! r := ask (AQuery (fun o => QClaim schedule (o_live o) (planOf (sp_Stage (s_spec schedule)) o) id worker lease)) in
              match r with
              | Err e => again "claim generation chunk" e (claimAttempts schedule worker lease left')
              | Ok (RChunk c) => Ret (Ok c)
              | Ok _ => Ret (Ok None)
              end
          end
      end
  end.

Fixpoint claimFrom (candidates : list GenerationSchedule) (worker : string) : prog (res err GenerationChunk) :=
  match candidates with
  | [] => Ret (Err (during "claim generation chunk" (sentinel ErrNotFound)))
  | schedule :: candidates =>
      do! token := ask AToken in
      match token with
      | Err e => Ret (Err e)
      | Ok lease =>
          do! r := claimAttempts schedule worker lease maxQueueRetries in
          match r with
          | Err e => Ret (Err e)
          | Ok (Some chunk) => Ret (Ok chunk)
          | Ok None => claimFrom candidates worker
          end
      end
  end.

Definition ClaimGenerationChunk (class worker : string) : prog (res err GenerationChunk) :=
  if negb (validGenerationResourceClass class) || negb (trimmed worker) || String.eqb worker "" || Nat.ltb MaxGenerationWorkerBytes (String.length worker)
     || negb (utf8Valid worker)
  then Ret (Err (text "claim generation chunk: invalid class or worker")) else
  do! r := ask (ARead (fun _ _ t => claimCandidates class t)) in
  match r with
  | Err e => Ret (Err (during "claim generation chunk candidates" e))
  | Ok candidates => claimFrom candidates worker
  end.

(** ** Leases *)
Definition validGenerationChunkLease (chunk : GenerationChunk) : bool :=
  let k := g_scope chunk in
  negb (String.eqb (g_ID chunk) "" || String.eqb (k_scheduleDigest k) "" || String.eqb (k_repository k) "" || String.eqb (k_stage k) ""
        || String.eqb (c_leaseToken (g_row chunk)) "" || String.eqb (c_claimedBy (g_row chunk)) ""
        || negb (bool_decide (c_status (g_row chunk) = ChunkRunning))).
Definition leaseLost : error := Some (sentinel ErrGenerationLeaseLost).

Definition HeartbeatGenerationChunk (chunk : GenerationChunk) : prog error :=
  if negb (validGenerationChunkLease chunk) then Ret leaseLost else
  do! r := queryGenerationSchedule (AQuery (fun o => QHeartbeat chunk (o_live o))) in
  Ret (match r with
       | Err e => Some (during "heartbeat generation chunk" e)
       | Ok (RFlag true) => None
       | Ok _ => leaseLost
       end).

(** What a transition's answer means to its caller. *)
Definition settled (r : reply) : error :=
  match r with
  | RTransition a => if negb (tr_owned a) then leaseLost else if negb (tr_current a) then Some (sentinel ErrGenerationStale) else None
  | _ => leaseLost
  end.
Definition ownedReply (r : reply) : bool := match r with RTransition a => tr_owned a | _ => false end.

(** Whether the completion was applied, and why not. *)
Definition reconcileGenerationCompletion (claimed : GenerationChunk) : prog (bool * error) :=
  do! r := generationChunkByIdentity (k_identity (g_scope claimed)) in
  match r with
  | Err e => Ret (false, Some e)
  | Ok current =>
      let lost := (false, leaseLost) in
      let stale := (false, Some (sentinel ErrGenerationStale)) in
      if negb (String.eqb (g_ID current) (g_ID claimed)) || negb (bool_decide (g_scope current = g_scope claimed)) then Ret lost else
      match c_status (g_row current) with
      | ChunkDone =>
          if negb (String.eqb (c_claimedBy (g_row current)) (c_claimedBy (g_row claimed))) then Ret lost else
          do! r := GetGenerationSchedule (k_repository (g_scope claimed)) (k_stage (g_scope claimed)) in
          Ret (match r with
               | Err e => (false, Some e)
               | Ok schedule =>
                   if negb (String.eqb (s_Digest schedule) (k_scheduleDigest (g_scope claimed)))
                      || negb (String.eqb (sp_Generation (s_spec schedule)) (k_generation (g_scope claimed)))
                   then stale else (true, None)
               end)
      | ChunkCanceled => Ret stale
      | ChunkRunning =>
          Ret (if negb (String.eqb (c_leaseToken (g_row current)) (c_leaseToken (g_row claimed)))
                  || negb (String.eqb (c_claimedBy (g_row current)) (c_claimedBy (g_row claimed)))
               then lost else (false, None))
      | _ => Ret lost
      end
  end.

Definition CompleteGenerationChunk (chunk : GenerationChunk) : prog error :=
  if negb (validGenerationChunkLease chunk) then Ret leaseLost else
  do! r := queryGenerationSchedule (AQuery (fun o => QComplete chunk (o_live o))) in
  let reconciled (otherwise : error) :=
    do! p := reconcileGenerationCompletion chunk in
    Ret (if p.1 then None
         else if errorsIs p.2 ErrGenerationStale || errorsIs p.2 ErrGenerationLeaseLost then p.2 else otherwise) in
  match r with
  | Err e => reconciled (Some (during "complete generation chunk" e))
  | Ok a => if negb (ownedReply a) then reconciled leaseLost else Ret (settled a)
  end.

Definition FailGenerationChunk (chunk : GenerationChunk) (errMessage : string) : prog error :=
  if negb (validGenerationChunkLease chunk) then Ret leaseLost else
  do! r := queryGenerationSchedule (AQuery (fun o => QFail chunk (o_live o) (boundedGenerationError errMessage))) in
  Ret (match r with Err e => Some (during "fail generation chunk" e) | Ok a => settled a end).

Definition reconcileGenerationExhaustion (claimed : GenerationChunk) (maxAttempts : Z) (errMessage : string) : prog bool :=
  if k_attempt (g_scope claimed) + 1 <? maxAttempts then Ret false else
  do! r := generationChunkByIdentity (k_identity (g_scope claimed)) in
  Ret (match r with
       | Err _ => false
       | Ok current =>
           String.eqb (g_ID current) (g_ID claimed) && bool_decide (g_scope current = g_scope claimed)
           && String.eqb (c_claimedBy (g_row current)) (c_claimedBy (g_row claimed)) && bool_decide (c_status (g_row current) = ChunkFailed)
           && String.eqb (c_error (g_row current)) (boundedGenerationError errMessage)
       end).

(** [notBefore] zero is the zero [time.Time]. *)
Definition RetryGenerationChunk (chunk : GenerationChunk) (errMessage : string) (notBefore : Z) (newID : string) : prog (res err GenerationChunk) :=
  if negb (validGenerationChunkLease chunk) then Ret (Err (sentinel ErrGenerationLeaseLost)) else
  if isZero notBefore then Ret (Err (text "retry generation chunk: not-before is required")) else
  do! r := generationScheduleByDigest (k_scheduleDigest (g_scope chunk)) in
  match r with
  | Err e => Ret (Err e)
  | Ok schedule =>
      let maxAttempts := sp_MaxAttempts (s_spec schedule) in
      let attempt := k_attempt (g_scope chunk) in
      if (maxAttempts <? 1) || (MaxGenerationAttempts <? maxAttempts) || (attempt <? 0) || (maxAttempts <=? attempt)
      then Ret (Err (text "retry generation chunk: invalid attempt bounds")) else
      do! r := queryGenerationSchedule (AQuery (fun o => QRetry chunk (o_live o) maxAttempts (boundedGenerationError errMessage) notBefore newID)) in
      let reconciled (otherwise : err) :=
        do! exhausted := reconcileGenerationExhaustion chunk maxAttempts errMessage in
        Ret (Err (if exhausted then sentinel ErrGenerationExhausted else otherwise)) in
      match r with
      | Err e => reconciled (during "retry generation chunk" e)
      | Ok a =>
          match settled a with
          | Some e => if ownedReply a then Ret (Err e) else reconciled (sentinel ErrGenerationLeaseLost)
          | None =>
              if match a with RTransition a => tr_exhausted a | _ => false end then Ret (Err (sentinel ErrGenerationExhausted))
              else generationChunkByIdentity (generationChunkID (k_scheduleDigest (g_scope chunk)) (k_offset (g_scope chunk)) (attempt + 1))
          end
      end
  end.

(** The delay starts anew with every attempt. *)
Fixpoint deferAttempts (chunk : GenerationChunk) (reason : string) (delay : Z) (left : nat) : prog error :=
  do! now := ask ANow in
  do! r := ask (AQuery (fun o => QDefer chunk (o_live o) (boundedGenerationError reason) (now + delay))) in
  match r with
  | Ok a => Ret (settled a)
  | Err e =>
      if negb (isRetryable e) then Ret (Some (during "defer generation chunk" e)) else
      do! c := ask ACtxErr in
      match c, left with
      | None, S (S _ as left') => deferAttempts chunk reason delay left'
      | _, _ => Ret (Some (during "defer generation chunk" e))
      end
  end.
Definition DeferGenerationChunk (chunk : GenerationChunk) (reason : string) (delay : Z) : prog error :=
  if negb (validGenerationChunkLease chunk) then Ret leaseLost else
  if delay <=? 0 then Ret (Some (text "defer generation chunk: delay is required")) else
  deferAttempts chunk reason delay maxQueueRetries.

Definition ReleaseGenerationChunk (chunk : GenerationChunk) (reason : string) : prog error :=
  if negb (validGenerationChunkLease chunk) then Ret leaseLost else
  do! r := queryGenerationSchedule (AQuery (fun o => QRelease chunk (o_live o) (boundedGenerationError reason))) in
  Ret (match r with Err e => Some (during "release generation chunk" e) | Ok a => settled a end).

(** ** Reaping *)
Definition releaseStaleGenerationChunk (chunk : GenerationChunk) (cutoff : Z) : prog error :=
  if negb (validGenerationChunkLease chunk) then Ret leaseLost else
  if match c_heartbeatAt (g_row chunk) with None => true | Some h => cutoff <=? h end then Ret leaseLost else
  do! r := queryGenerationSchedule (AQuery (fun _ => QReap chunk cutoff)) in
  Ret (match r with Err e => Some (during "reap generation chunk" e) | Ok a => settled a end).

Definition staleChunks (class : string) (cutoff : Z) (t : tables) : list GenerationChunk :=
  orderedBy (fun a b => thenBy [compareOption (c_heartbeatAt (g_row a)) (c_heartbeatAt (g_row b));
      compareStrings (k_repository (g_scope a)) (k_repository (g_scope b)); compareStrings (k_stage (g_scope a)) (k_stage (g_scope b));
      k_offset (g_scope a) ?= k_offset (g_scope b)]) MaxGenerationClaimCandidates
    (base.filter (fun g => k_resourceClass (g_scope g) = class /\ c_status (g_row g) = ChunkRunning
       /\ match c_heartbeatAt (g_row g) with None => false | Some h => h <? cutoff end = true) (chunkRowsOf t)).

Fixpoint reapEach (chunks : list GenerationChunk) (cutoff : Z) (reaped : Z) : prog (Z * error) :=
  match chunks with
  | [] => Ret (reaped, None)
  | chunk :: chunks =>
      do! e := releaseStaleGenerationChunk chunk cutoff in
      match e with
      | None => reapEach chunks cutoff (reaped + 1)
      | Some _ =>
          if errorsIs e ErrGenerationStale then reapEach chunks cutoff (reaped + 1)
          else if errorsIs e ErrGenerationLeaseLost then reapEach chunks cutoff reaped
          else Ret (reaped, e)
      end
  end.

Definition reapStaleGenerationChunks (class : string) (staleAfter : Z) : prog (Z * error) :=
  if negb (validGenerationResourceClass class) || (staleAfter <=? 0) then Ret (0, Some (text "reap generation chunks: invalid class or cutoff")) else
  do! now := ask ANow in
  let cutoff := now - staleAfter in
  do! r := queryGenerationSchedule (ARead (fun _ _ t => staleChunks class cutoff t)) in
  match r with
  | Err e => Ret (0, Some (during "reap generation chunk candidates" e))
  | Ok chunks => reapEach chunks cutoff 0
  end.
End Operations.
