(* ===== verification/GenerationLogic.v ===== *)
(** * Generation schedules: a logic for the operations

    [ensures p w Q] holds of a program of [GenerationOps] in a state when,
    whatever anyone submits between its actions and whichever answers are lost,
    it only submits statements the invariants allow and ends as [Q] says.  Its
    rules: sequencing, one action, submitting again after a conflict, and
    the reads the operations share. *)
From stdpp Require Import sorting.
From Stdlib Require Import Ascii String.
From S2P Require Import Prelude.
From S2P Require Import GoStrings GoText JobErrors StoreErrors GenerationSpec GenerationStore GenerationInvariant GenerationLeases GenerationSteps.
From S2P Require Import GenerationFanout GenerationScopes GenerationOps.
#[local] Open Scope generation_scope.

Section Logic.
Context `{CollisionFree}.
Implicit Types (w : world) (s : GenerationSchedule) (c : chunkRow) (t : tables).

(** ** Answers *)
Definition replyTo (q : query) (now : Z) t : reply :=
  let transition (r : res string (transition * tables)) := match r with Ok (a, _) => RTransition a | Err _ => RFlag false end in
  let flag (r : res string (bool * tables)) := RFlag match r with Ok (b, _) => b | Err _ => false end in
  match q with
  | QEnqueue spec live old prior => RSchedule match enqueueGenerationScheduleSQL spec live old prior now t with Ok (s, _) => s | Err _ => None end
  | QRetire repository stage generation digest => flag (retireCurrentSQL repository stage generation digest now t)
  | QExpand schedule live ids => RSchedule match expandGenerationScheduleSQL schedule live ids now t with Ok (s, _) => s | Err _ => None end
  | QClaim schedule live plan chunk worker lease =>
      RChunk match claimGenerationChunkSQL schedule live plan chunk worker lease now t with Ok (c, _) => c | Err _ => None end
  | QHeartbeat chunk live => flag (heartbeatGenerationChunkSQL chunk live now t)
  | QComplete chunk live => transition (completeGenerationChunkSQL chunk live now t)
  | QFail chunk live message => transition (failGenerationChunkSQL chunk live message now t)
  | QRetry chunk live maxAttempts message notBefore newID => transition (retryGenerationChunkSQL chunk live maxAttempts message notBefore newID now t)
  | QRelease chunk live message => transition (releaseGenerationChunkSQL chunk live message now t)
  | QDefer chunk live message notBefore => transition (deferGenerationChunkSQL chunk live message notBefore now t)
  | QReap chunk cutoff => transition (reapGenerationChunkSQL chunk cutoff now t)
  | QCollect repository stage digest retained limit planOK hasPlan ids =>
      RCount match collectGenerationScheduleSQL repository stage digest retained limit planOK hasPlan ids t with Ok (n, _) => n | Err _ => 0 end
  end.

(** A claim's token was drawn fresh, and a conflict reported for a claim was
    not committed: its next attempt takes the same token. *)
Definition freshClaim (q : query) w : Prop :=
  match q with QClaim _ _ _ _ _ token => token ∉ l_token <$> w_leases w | _ => True end.
Definition isClaim (q : query) : bool := match q with QClaim _ _ _ _ _ _ => true | _ => false end.

(** The errors of the database and its driver are not those of the store. *)
Definition foreign (e : err) : Prop :=
  errorsIs (Some e) ErrGenerationStale = false /\ errorsIs (Some e) ErrGenerationLeaseLost = false /\ errorsIs (Some e) ErrGenerationExhausted = false.

Definition answers {B} (a : action B) w w' : B -> Prop :=
  match a in action B return B -> Prop with
  | AQuery q => fun r => exists o now, w_clock w <= now /\ freshClaim (q o) w /\
      ((asked (q o) now w = Some w' /\
          (r = Ok (replyTo (q o) now (w_tables w)) \/ exists e, r = Err e /\ foreign e /\ (isClaim (q o) = true -> isRetryable e = false)))
       \/ (w' = w /\ exists e, r = Err e /\ foreign e))
  | ARead f => fun r => w' = w /\ ((exists o now, w_clock w <= now /\ r = Ok (f o now (w_tables w))) \/ exists e, r = Err e /\ foreign e)
  | AToken => fun r => w' = w /\ match r with Ok token => token <> "" | Err _ => True end
  | _ => fun _ => w' = w
  end.
Definition obligation {B} (a : action B) w : Prop :=
  match a with AQuery q => forall o, freshClaim (q o) w -> permitted (q o) w | _ => True end.

(** Statements by anyone. *)
Definition later w w' : Prop := exists l, asks l w w'.

Fixpoint ensures {A} (p : prog A) w (Q : A -> world -> Prop) : Prop :=
  match p with
  | Ret x => Q x w
  | Act a k => forall w0, later w w0 -> obligation a w0 /\ forall w1 r, answers a w0 w1 r -> ensures (k r) w1 Q
  end.

(** ** Rules *)
Lemma later_refl w : later w w.
Proof. exists []. constructor. Qed.
Lemma later_trans w w1 w2 : later w w1 -> later w1 w2 -> later w w2.
Proof.
  intros [l Hl] [l' Hl']. exists (l ++ l'). revert Hl'. induction Hl; [done|]. intros. cbn. eapply asks_cons; eauto.
Qed.
#[global] Instance later_preorder : PreOrder later.
Proof. split; [exact later_refl|exact later_trans]. Qed.

Lemma later_Inv w w' : Inv w -> later w w' -> Inv w'.
Proof. intros HI [l HL]. induction HL as [|q now l w w1 w2 HP Hnow Hq HA IH]; [done|]. apply IH. by eapply schedules_asked. Qed.

(** An own statement is one of anyone's. *)
Lemma answers_later {B} (a : action B) w w' r : Inv w -> obligation a w -> answers a w w' r -> later w w'.
Proof.
  intros HI HO HA. destruct a; cbn in *; try (by subst; apply later_refl); try (by destruct HA as [-> _]; apply later_refl).
  destruct HA as (o & now & Hnow & Hf & [[HA _]|[-> _]]); [|apply later_refl]. exists [(q o, now)]. eapply asks_cons; eauto. constructor.
Qed.

Lemma ensures_mono {A} (p : prog A) w (Q Q' : A -> world -> Prop) :
  ensures p w Q -> (forall x w', Q x w' -> Q' x w') -> ensures p w Q'.
Proof.
  revert w. induction p as [x|B a k IH]; intros w HE HQ; cbn in *; [by apply HQ|]. intros w0 Hw. destruct (HE w0 Hw) as [HO HK].
  split; [exact HO|]. intros w1 r HA. apply IH; auto.
Qed.

Lemma ensures_bind {A B} (p : prog A) (f : A -> prog B) w Q :
  ensures p w (fun x w' => ensures (f x) w' Q) -> ensures (andThen p f) w Q.
Proof.
  revert w. induction p as [x|C a k IH]; intros w HE; cbn in *; [exact HE|]. intros w0 Hw. destruct (HE w0 Hw) as [HO HK].
  split; [exact HO|]. intros w1 r HA. apply IH; auto.
Qed.

(** A program ends later, and the invariant holds there. *)
Lemma ensures_later {A} (p : prog A) w Q : Inv w -> ensures p w Q -> ensures p w (fun x w' => Q x w' /\ later w w' /\ Inv w').
Proof.
  enough (forall w0, later w0 w -> Inv w -> ensures p w Q -> ensures p w (fun x w' => Q x w' /\ later w0 w' /\ Inv w')) as HG by by apply HG.
  intros w0. revert w. induction p as [x|B a k IH]; intros w Hw HI HE; [done|]. intros w1 Hw1. destruct (HE w1 Hw1) as [HO HK]. split; [exact HO|].
  intros w2 r HA. pose proof (later_Inv w w1 HI Hw1) as HI1. pose proof (answers_later _ _ _ _ HI1 HO HA) as HL.
  apply IH; [transitivity w; [exact Hw|by transitivity w1]|by eapply later_Inv|by apply HK].
Qed.

Lemma ensures_Inv {A} (p : prog A) w Q : Inv w -> ensures p w Q -> ensures p w (fun x w' => Q x w' /\ Inv w').
Proof. intros HI HE. eapply ensures_mono; [exact (ensures_later p w Q HI HE)|]. by intros x w' (? & _ & ?). Qed.

(** One action, from a state the invariant holds in. *)
Lemma ensures_ask {B} (a : action B) w Q :
  Inv w -> (forall w0, later w w0 -> Inv w0 -> obligation a w0) ->
  (forall w0 w1 r, later w w0 -> Inv w0 -> answers a w0 w1 r -> later w w1 -> Inv w1 -> Q r w1) -> ensures (ask a) w Q.
Proof.
  intros HI HO HQ w0 Hw. pose proof (later_Inv w w0 HI Hw) as HI0. pose proof (HO w0 Hw HI0) as HO0. split; [exact HO0|].
  intros w1 r HA. cbn. pose proof (answers_later a w0 w1 r HI0 HO0 HA) as HL. eapply HQ; eauto; [by transitivity w0|by eapply later_Inv].
Qed.

(** Submitting again after a conflict; what fails at last was an answer. *)
Lemma ensures_retried {B} (a : action (res err B)) left w Q :
  Inv w -> (forall w0, later w w0 -> Inv w0 -> obligation a w0) ->
  (forall w0 w1 x, later w w0 -> Inv w0 -> answers a w0 w1 (Ok x) -> later w w1 -> Inv w1 -> Q (Ok x) w1) ->
  (forall w0 w1 w2 e, answers a w0 w1 (Err e) -> later w w2 -> Inv w2 -> Q (Err e) w2) -> ensures (retryQuery a left) w Q.
Proof.
  intros HI HO HQ HE. enough (forall w', later w w' -> ensures (retryQuery a left) w' Q) by by apply H1, later_refl.
  induction left as [|left IH]; intros w' Hw'; pose proof (later_Inv w w' HI Hw') as HI'; cbn [retryQuery]; apply ensures_bind, ensures_ask; auto;
    try (intros w0 Hw0 HI0; apply HO; [by transitivity w'|exact HI0]); intros w0 w1 r Hw0 HI0 HA Hw1 HI1;
    (destruct r as [x|e]; [apply (HQ w0 w1); auto; by transitivity w'|]); destruct (negb (isRetryable e));
    try (apply (HE w0 w1); [exact HA|by transitivity w'|exact HI1]); apply ensures_bind, ensures_ask; auto; try done;
    intros w2 w3 [e'|] Hw2 HI2 HA2 Hw3 HI3; try (apply (HE w0 w1); [exact HA|by transitivity w1; [transitivity w'|]|exact HI3]).
  destruct left; [apply (HE w0 w1); [exact HA|by transitivity w1; [transitivity w'|]|exact HI3]|].
  apply IH. transitivity w1; [by transitivity w'|exact Hw3].
Qed.

Lemma ensures_retry {B} (a : action (res err B)) left w Q :
  Inv w -> (forall w0, later w w0 -> Inv w0 -> obligation a w0) ->
  (forall w0 w1 x, later w w0 -> Inv w0 -> answers a w0 w1 (Ok x) -> later w w1 -> Inv w1 -> Q (Ok x) w1) ->
  (forall w1 e, later w w1 -> Inv w1 -> Q (Err e) w1) -> ensures (retryQuery a left) w Q.
Proof. intros HI HO HQ HE. apply ensures_retried; auto. Qed.

Lemma query_foreign (q : outside -> query) w w1 e : answers (AQuery q) w w1 (Err e) -> foreign e.
Proof. intros (o & now & _ & _ & [[_ [?|(e' & [= ->] & ? & _)]]|(_ & e' & [= ->] & ?)]); done. Qed.
Lemma read_foreign {A} (f : outside -> Z -> tables -> A) w w1 e : answers (ARead f) w w1 (Err e) -> foreign e.
Proof. intros (_ & [(o & now & _ & ?)|(e' & [= ->] & ?)]); done. Qed.

(** What wraps a text around an error carries the same sentinels. *)
Lemma during_foreign prefix e : foreign e -> foreign (during prefix e).
Proof. unfold foreign, during, errorsIs, chain. cbn. by rewrite app_nil_r. Qed.
Lemma text_foreign (x : string) : foreign (text x).
Proof. done. Qed.

(** ** Moments *)

(** [P] held at some moment between two states. *)
Definition sometime (P : world -> Prop) w w' : Prop := exists w1, later w w1 /\ P w1 /\ later w1 w'.

Lemma sometime_now (P : world -> Prop) w w' : later w w' -> P w' -> sometime P w w'.
Proof. intros Hw HP. exists w'. split_and!; auto. apply later_refl. Qed.
Lemma sometime_mono P w w1 w' : sometime P w w1 -> later w1 w' -> sometime P w w'.
Proof. intros (w0 & ? & ? & ?) HL. exists w0. split_and!; auto. by transitivity w1. Qed.

(** The record of [chunk], unchanged in scope and claimant, is over as [st]. *)
Definition recorded (chunk : GenerationChunk) (st : GenerationChunkStatus) w : Prop :=
  exists c, t_chunks (w_tables w) !! g_ID chunk = Some c /\ c_scope c = g_scope chunk /\ c_status c = st /\ c_claimedBy c = c_claimedBy (g_row chunk).
Definition recordedError (chunk : GenerationChunk) (message : string) w : Prop :=
  exists c, t_chunks (w_tables w) !! g_ID chunk = Some c /\ c_scope c = g_scope chunk /\ c_status c = ChunkFailed /\
    c_claimedBy c = c_claimedBy (g_row chunk) /\ c_error c = message.

Lemma createChunks_keeps l t t' : createChunks l t = Ok t' -> forall i x, t_chunks t !! i = Some x -> t_chunks t' !! i = Some x.
Proof.
  revert t. induction l as [|[id c] l IH]; intros t HC i x Hi; cbn in HC; [by injection HC as <-|]. unfold createChunk in HC.
  destruct (t_chunks t !! id) eqn:Hid; [discriminate|]. destruct (chunkByIdentity _ _); [discriminate|]. apply (IH _ HC). cbn.
  rewrite lookup_insert_ne; [exact Hi|congruence].
Qed.

Lemma asked_tables q now w w1 : asked q now w = Some w1 -> run q now (w_tables w) = Some (w_tables w1).
Proof. unfold asked. destruct (run q now (w_tables w)) as [t|]; [|discriminate]. by intros [= <-]. Qed.

(** A statement that ended the lease of [chunk] left its row as [f] makes it. *)
Lemma endLease_row chunk owns f l g answer t a t' :
  endLease chunk owns f l g answer t = Ok (a, t') -> (forall b, tr_owned (answer b) = b) -> tr_owned a = true ->
  exists c, t_chunks t !! g_ID chunk = Some c /\ owns c = true /\ t_chunks t' !! g_ID chunk = Some (f c) /\ a = answer true.
Proof.
  unfold endLease. intros HS Ha Ho. destruct (t_chunks t !! g_ID chunk) as [c|]; [|injection HS as <- <-; by rewrite Ha in Ho].
  destruct (owns c) eqn:Eo; [|injection HS as <- <-; by rewrite Ha in Ho]. destruct (createChunks _ _) as [t1|] eqn:EC; [|discriminate].
  injection HS as <- <-. exists c. split_and!; auto. cbn. eapply createChunks_keeps; [exact EC|cbn; apply lookup_insert_eq].
Qed.

Lemma readIdentity identity t id c : chunkByIdentity identity t = Some (id, c) -> t_chunks t !! id = Some c.
Proof.
  unfold chunkByIdentity. destruct (base.filter _ _) as [|kc l] eqn:E; [discriminate|]. intros [= ->].
  assert (Hin : (id, c) ∈ base.filter (fun kc : string * chunkRow => k_identity (c_scope kc.2) = identity) (map_to_list (t_chunks t))) by (rewrite E; left).
  apply list_elem_of_filter in Hin as [_ Hin]. by apply elem_of_map_to_list in Hin.
Qed.

(** What a lookup by identity returns was a row when it was read. *)
Lemma ensures_identity identity w Q :
  Inv w -> (forall w0 w1 id c, later w w0 -> t_chunks (w_tables w0) !! id = Some c -> later w0 w1 -> Inv w1 -> Q (Ok (mkGenerationChunk id c)) w1) ->
  (forall w1 e, later w w1 -> Inv w1 -> Q (Err e) w1) -> ensures (generationChunkByIdentity identity) w Q.
Proof.
  intros HI HQ HE. apply ensures_bind, ensures_retry; [exact HI|done| |intros w1 e Hw1 HI1; by apply HE].
  intros w0 w1 [[id c]|] Hw0 HI0 HA Hw1 HI1; [|by apply HE].
  destruct HA as [-> [(o & now & _ & [= E])|(e & ? & _)]]; [|discriminate]. symmetry in E. apply readIdentity in E.
  apply (HQ w0 w0); auto. apply later_refl.
Qed.

Lemma row_read w d s : Inv w -> t_schedules (w_tables w) !! d = Some s -> readSchedule s.
Proof. intros HI Hs. destruct (iv_row w HI _ _ Hs) as (_ & HR & _). split; [apply (ro_spec s HR)|apply (ro_digest s HR)]. Qed.

Lemma ensures_getSchedule repository stage w Q :
  Inv w -> (forall w1 r, later w w1 -> Inv w1 -> (forall s, r = Ok s -> readSchedule s) -> Q r w1) -> ensures (GetGenerationSchedule repository stage) w Q.
Proof.
  intros HI HQ. unfold GetGenerationSchedule. destruct (_ || _); [apply HQ; [apply later_refl|exact HI|discriminate]|].
  apply ensures_bind, ensures_retry; [exact HI|done| |intros w1 e Hw1 HI1; by apply HQ].
  intros w0 w1 [s|] _ HI0 HA Hw1 HI1; [|by apply HQ]. destruct HA as [-> [(o & now & _ & [= E])|(e & ? & _)]]; [|discriminate].
  destruct (ValidateGenerationSchedule s); apply HQ; auto; [discriminate|]. intros s' [= <-]. unfold currentSchedule in E.
  destruct (currentDigest _ _ _) as [d|]; [|discriminate]. by apply (row_read w0 d).
Qed.
End Logic.
