(* ===== verification/GenerationRuns.v ===== *)
(** * Generation schedules: what the operations guarantee

    With the logic of [GenerationLogic]: no operation breaks the rules the
    invariants rest on, what the settling operations answer is true, and a
    settlement that reads as complete is complete. *)
From stdpp Require Import sorting.
From Stdlib Require Import Ascii String.
From S2P Require Import Prelude.
From S2P Require Import GoStrings GoText JobErrors StoreErrors GenerationSpec GenerationStore GenerationInvariant GenerationLeases GenerationSteps.
From S2P Require Import GenerationFanout GenerationScopes GenerationSamples GenerationTheorems GenerationOps GenerationLogic.
#[local] Open Scope generation_scope.

Section Runs.
Context `{CollisionFree}.
Implicit Types (w : world) (s : GenerationSchedule) (c : chunkRow) (t : tables).

(** ** Reconciliation *)
Lemma ensures_reconcileCompletion chunk w Q :
  Inv w -> (forall w1, sometime (recorded chunk ChunkDone) w w1 -> Inv w1 -> Q (true, None) w1) ->
  (forall w1 e, later w w1 -> Inv w1 -> Q (false, e) w1) -> ensures (reconcileGenerationCompletion chunk) w Q.
Proof.
  intros HI HT HF. apply ensures_bind, ensures_identity; [exact HI| |by intros w1 e Hw1 HI1; apply HF].
  intros w0 w1 id c Hw0 Hc Hw1 HI1. assert (Hw : later w w1) by by transitivity w0. cbn [g_ID g_row].
  destruct (negb (String.eqb id (g_ID chunk)) || _) eqn:Eid; [by apply HF|].
  apply orb_false_iff in Eid as [Eid%negb_false_iff%String.eqb_eq Ek%negb_false_iff%bool_decide_eq_true_1]. subst id. unfold g_scope in Ek. cbn in Ek.
  destruct (c_status c) eqn:Est; try by apply HF.
  - by destruct (negb _ || negb _); apply HF.
  - destruct (negb _) eqn:Eby; [by apply HF|]. apply negb_false_iff, String.eqb_eq in Eby.
    apply ensures_bind, ensures_getSchedule; [exact HI1|]. intros w2 r Hw2 HI2 _. assert (Hw' : later w w2) by by transitivity w1.
    destruct r as [schedule|e]; [|by apply HF]. destruct (negb _ || negb _); [by apply HF|]. apply HT; [|exact HI2].
    exists w0. split_and!; auto; [|by transitivity w1]. exists c. auto.
Qed.

(** ** The settling operations *)

(** A transition that was answered: who owned it and what it left. *)
Lemma answered_transition (q : outside -> query) w0 w1 r (P : reply -> world -> Prop) :
  answers (AQuery q) w0 w1 (Ok r) ->
  (forall o now, asked (q o) now w0 = Some w1 -> P (replyTo (q o) now (w_tables w0)) w1) -> P r w1.
Proof.
  intros (o & now & _ & _ & [[HA Hr]|(_ & e & ? & _)]) HP; [|discriminate]. destruct Hr as [[= ->]|(e & ? & _)]; [|discriminate]. by apply HP.
Qed.

Lemma settled_owned r : settled r = None -> ownedReply r = true /\ exists a, r = RTransition a /\ tr_owned a = true /\ tr_current a = true.
Proof.
  destruct r as [| |a| |]; try discriminate. cbn. destruct (tr_owned a) eqn:Eo; [|discriminate]. destruct (tr_current a) eqn:Ec; [|discriminate].
  intros _. split; [done|]. exists a. auto.
Qed.

Lemma settled_not_exhausted r e : settled r = Some e -> errorsIs (Some e) ErrGenerationExhausted = false.
Proof. destruct r as [| |a| |]; cbn; try (by intros [= <-]). destruct (tr_owned a), (tr_current a); cbn; by intros [= <-]. Qed.

Lemma complete_recorded chunk live now w w1 :
  asked (QComplete chunk live) now w = Some w1 -> settled (replyTo (QComplete chunk live) now (w_tables w)) = None -> recorded chunk ChunkDone w1.
Proof.
  intros HA%asked_tables (_ & a & Er & Ho & Hc)%settled_owned. cbn [run replyTo] in *. apply after_Some in HA as [b HS]. rewrite HS in Er. injection Er as ->.
  unfold completeGenerationChunkSQL in HS. destruct (negb _); [discriminate|].
  destruct (endLease_row _ _ _ _ _ _ _ _ _ HS (fun b => eq_refl) Ho) as (c & _ & Hh & Hc' & ->). cbn in Hc. rewrite Hc in Hc'.
  apply holds_lease in Hh as (_ & _ & Hby & Hk). eexists. split; [exact Hc'|]. cbn. auto.
Qed.

Lemma fail_recorded chunk live message now w w1 :
  asked (QFail chunk live message) now w = Some w1 -> settled (replyTo (QFail chunk live message) now (w_tables w)) = None -> recordedError chunk message w1.
Proof.
  intros HA%asked_tables (_ & a & Er & Ho & Hc)%settled_owned. cbn [run replyTo] in *. apply after_Some in HA as [b HS]. rewrite HS in Er. injection Er as ->.
  unfold failGenerationChunkSQL in HS. destruct (negb _); [discriminate|].
  destruct (endLease_row _ _ _ _ _ _ _ _ _ HS (fun b => eq_refl) Ho) as (c & _ & Hh & Hc' & ->). cbn in Hc. rewrite Hc in Hc'.
  apply holds_lease in Hh as (_ & _ & Hby & Hk). eexists. split; [exact Hc'|]. cbn. auto.
Qed.

Lemma retry_recorded chunk live maxAttempts message notBefore newID now w w1 :
  asked (QRetry chunk live maxAttempts message notBefore newID) now w = Some w1 ->
  let r := replyTo (QRetry chunk live maxAttempts message notBefore newID) now (w_tables w) in
  settled r = None -> recordedError chunk message w1 /\ r = RTransition (mkTransition true true (maxAttempts <=? k_attempt (g_scope chunk) + 1)).
Proof.
  intros HA%asked_tables r (_ & a & Er & Ho & Hc)%settled_owned. subst r. cbn [run replyTo] in *. apply after_Some in HA as [b HS]. rewrite HS in Er |- *. injection Er as ->.
  unfold retryGenerationChunkSQL in HS. destruct (negb _); [discriminate|].
  destruct (endLease_row _ _ _ _ _ _ _ _ _ HS (fun b => eq_refl) Ho) as (c & _ & Hh & Hc' & ->). cbn in Hc. rewrite Hc in *.
  apply holds_lease in Hh as (_ & _ & Hby & Hk). split; [|done]. eexists. split; [exact Hc'|]. cbn. auto.
Qed.

Lemma ensures_complete chunk w :
  Inv w -> ensures (CompleteGenerationChunk chunk) w (fun e w' => e = None -> sometime (recorded chunk ChunkDone) w w').
Proof.
  intros HI. unfold CompleteGenerationChunk. destruct (negb _); [done|].
  assert (Hrec : forall w1 (e0 : error), later w w1 -> Inv w1 -> e0 <> None ->
    ensures (do! p := reconcileGenerationCompletion chunk in
             Ret (if p.1 then None else if errorsIs p.2 ErrGenerationStale || errorsIs p.2 ErrGenerationLeaseLost then p.2 else e0)) w1
      (fun e w' => e = None -> sometime (recorded chunk ChunkDone) w w')).
  { intros w1 e0 Hw1 HI1 He. apply ensures_bind, ensures_reconcileCompletion; [exact HI1| |].
    - intros w2 (w3 & H3 & HP & H4) _ _. exists w3. split_and!; auto. by transitivity w1.
    - intros w2 [e|] _ _; cbn; [by destruct (_ || _)|done]. }
  apply ensures_bind, ensures_retry; [exact HI|done| |].
  - intros w0 w1 r Hw0 HI0 HA Hw1 HI1. destruct (negb (ownedReply r)); [by apply Hrec|]. intros Hset. cbn.
    apply sometime_now; [exact Hw1|]. revert Hset. apply (answered_transition _ _ _ _ (fun r w1 => settled r = None -> recorded chunk ChunkDone w1) HA).
    intros o now HA'. by eapply complete_recorded.
  - intros w1 e Hw1 HI1. by apply Hrec.
Qed.

Lemma ensures_fail chunk message w :
  Inv w -> ensures (FailGenerationChunk chunk message) w (fun e w' => e = None -> sometime (recordedError chunk (boundedGenerationError message)) w w').
Proof.
  intros HI. unfold FailGenerationChunk. destruct (negb _); [done|]. apply ensures_bind, ensures_retry; [exact HI|done| |done].
  intros w0 w1 r Hw0 HI0 HA Hw1 HI1 Hset. apply sometime_now; [exact Hw1|]. revert Hset.
  apply (answered_transition _ _ _ _ (fun r w1 => settled r = None -> recordedError chunk (boundedGenerationError message) w1) HA).
  intros o now HA'. by eapply fail_recorded.
Qed.

(** *** Retrying *)
Lemma ensures_byDigest digest w Q :
  Inv w -> (forall w1 s, later w w1 -> Inv w1 -> t_schedules (w_tables w1) !! digest = Some s -> Q (Ok s) w1) ->
  (forall w1 e, later w w1 -> Inv w1 -> errorsIs (Some e) ErrGenerationExhausted = false -> Q (Err e) w1) -> ensures (generationScheduleByDigest digest) w Q.
Proof.
  intros HI HQ HE. unfold generationScheduleByDigest. destruct (negb _); [apply HE; [apply later_refl|exact HI|done]|].
  apply ensures_bind, ensures_ask; [exact HI|done|]. intros w0 w1 [[s|]|e] Hw0 HI0 HA Hw1 HI1; [|by apply HE|apply HE; [exact Hw1|exact HI1|]].
  2: by apply during_foreign, (read_foreign _ _ _ _ HA).
  destruct HA as [-> [(o & now & _ & [= E])|(e & ? & _)]]; [|discriminate]. by apply HQ.
Qed.

Lemma ensures_reconcileExhaustion chunk maxAttempts message w Q :
  Inv w -> (forall w1, maxAttempts <= k_attempt (g_scope chunk) + 1 -> sometime (recordedError chunk (boundedGenerationError message)) w w1 -> Inv w1 -> Q true w1) ->
  (forall w1, later w w1 -> Inv w1 -> Q false w1) -> ensures (reconcileGenerationExhaustion chunk maxAttempts message) w Q.
Proof.
  intros HI HT HF. unfold reconcileGenerationExhaustion. destruct (Z.ltb_spec (k_attempt (g_scope chunk) + 1) maxAttempts); [apply HF; [apply later_refl|exact HI]|].
  apply ensures_bind, ensures_identity; [exact HI| |by intros w1 e Hw1 HI1; apply HF]. intros w0 w1 id c Hw0 Hc Hw1 HI1. cbn [g_ID g_row].
  assert (Hw : later w w1) by by transitivity w0. destruct (_ && _) eqn:Eb; [|by apply HF]. apply HT; [lia| |exact HI1].
  apply andb_true_iff in Eb as [[[[Eid%String.eqb_eq Ek%bool_decide_eq_true_1]%andb_true_iff Eby%String.eqb_eq]%andb_true_iff Est%bool_decide_eq_true_1]%andb_true_iff Eer%String.eqb_eq].
  subst id. exists w0. split_and!; auto. exists c. auto.
Qed.

(** The attempts of the schedule of [chunk] end with it. *)
Definition lastAttempt (chunk : GenerationChunk) w : Prop :=
  exists s, t_schedules (w_tables w) !! k_scheduleDigest (g_scope chunk) = Some s /\ sp_MaxAttempts (s_spec s) <= k_attempt (g_scope chunk) + 1.
(** Its successor is a record. *)
Definition succeeded (chunk successor : GenerationChunk) w : Prop :=
  exists c, t_chunks (w_tables w) !! g_ID successor = Some c /\
    k_identity (c_scope c) = generationChunkID (k_scheduleDigest (g_scope chunk)) (k_offset (g_scope chunk)) (k_attempt (g_scope chunk) + 1).

Lemma readIdentity_eq identity t id c : chunkByIdentity identity t = Some (id, c) -> k_identity (c_scope c) = identity.
Proof.
  unfold chunkByIdentity. destruct (base.filter _ _) as [|kc l] eqn:E; [discriminate|]. intros [= ->].
  assert (Hin : (id, c) ∈ base.filter (fun kc : string * chunkRow => k_identity (c_scope kc.2) = identity) (map_to_list (t_chunks t))) by (rewrite E; left).
  by apply list_elem_of_filter in Hin as [? _].
Qed.

Lemma retry_permitted chunk w w0 s (o : outside) message notBefore newID :
  Inv w -> t_schedules (w_tables w) !! k_scheduleDigest (g_scope chunk) = Some s ->
  permitted (QRetry chunk (o_live o) (sp_MaxAttempts (s_spec s)) message notBefore newID) w0.
Proof.
  intros HI Hs. destruct (iv_row w HI _ _ Hs) as (Ed & HR & _). exists (s_spec s). split; [apply (ro_spec s HR)|]. split; [|done].
  rewrite Ed. apply (ro_digest s HR).
Qed.

Definition retryPost (chunk : GenerationChunk) (message : string) w (r : res err GenerationChunk) w' : Prop :=
  match r with
  | Ok successor => sometime (recordedError chunk message) w w' /\ sometime (succeeded chunk successor) w w'
  | Err e => errorsIs (Some e) ErrGenerationExhausted = true -> sometime (recordedError chunk message) w w' /\ sometime (lastAttempt chunk) w w'
  end.

Lemma not_exhausted {e} {P : Prop} : errorsIs (Some e) ErrGenerationExhausted = false -> errorsIs (Some e) ErrGenerationExhausted = true -> P.
Proof. by intros ->. Qed.

Lemma ensures_successor chunk identity w w0 message :
  Inv w0 -> later w w0 -> recordedError chunk message w0 ->
  identity = generationChunkID (k_scheduleDigest (g_scope chunk)) (k_offset (g_scope chunk)) (k_attempt (g_scope chunk) + 1) ->
  ensures (generationChunkByIdentity identity) w0 (retryPost chunk message w).
Proof.
  intros HI Hw HP ->. apply ensures_bind, ensures_retried; [exact HI|done| |].
  2: { intros w1 w2 w3 e HA%read_foreign _ _. apply (during_foreign "read generation chunk") in HA as (_ & _ & HA). exact (not_exhausted HA). }
  intros w1 w2 [[id c]|] Hw1 HI1 HA Hw2 HI2; [|discriminate]. destruct HA as [-> [(o & now & _ & [= E])|(e & ? & _)]]; [|discriminate]. symmetry in E. split.
  - exists w0. auto.
  - exists w1. split; [by transitivity w0|]. split; [|apply later_refl]. exists c. split; [by eapply readIdentity|by eapply readIdentity_eq].
Qed.

Lemma ensures_retryChunk chunk message notBefore newID w :
  Inv w -> ensures (RetryGenerationChunk chunk message notBefore newID) w (retryPost chunk (boundedGenerationError message) w).
Proof.
  intros HI. unfold RetryGenerationChunk. destruct (negb _); [discriminate|]. destruct (isZero notBefore); [discriminate|].
  apply ensures_bind, ensures_byDigest; [exact HI| |intros w1 e _ _; exact not_exhausted].
  intros w1 s Hw1 HI1 Hs. destruct (_ || (_ <=? _)); [discriminate|].
  assert (Hrec : forall w2 (e0 : err), later w1 w2 -> Inv w2 -> errorsIs (Some e0) ErrGenerationExhausted = false ->
    ensures (do! exhausted := reconcileGenerationExhaustion chunk (sp_MaxAttempts (s_spec s)) message in
             Ret (Err (if exhausted then sentinel ErrGenerationExhausted else e0))) w2 (retryPost chunk (boundedGenerationError message) w)).
  { intros w2 e0 Hw2 HI2 He. apply ensures_bind, ensures_reconcileExhaustion; [exact HI2| |intros w3 _ _; exact (not_exhausted He)].
    intros w3 Hmax (w4 & H4 & HP & H5) _ _. split; [exists w4; split_and!; auto; by transitivity w1; [|transitivity w2]|].
    exists w1. split; [exact Hw1|]. split; [by exists s|]. by transitivity w2; [|transitivity w4]. }
  apply ensures_bind, ensures_retried; [exact HI1|intros w0 _ _ o _; by apply (retry_permitted chunk w1)| |intros w2 w2' w3 e HA%query_foreign Hw3 HI3; apply Hrec; [exact Hw3|exact HI3|by apply (during_foreign _ _ HA)]].
  intros w2 w3 r Hw2 HI2 HA Hw3 HI3.
  destruct (settled r) as [e|] eqn:Eset.
  { destruct (ownedReply r) eqn:Eo; [|apply Hrec; auto; by apply (settled_not_exhausted r)]. exact (not_exhausted (settled_not_exhausted r e Eset)). }
  revert Eset. apply (answered_transition _ _ _ _ (fun r w3 => settled r = None -> ensures _ w3 (retryPost chunk (boundedGenerationError message) w)) HA).
  intros o now HA' Hset. destruct (retry_recorded _ _ _ _ _ _ _ _ _ HA' Hset) as [HP ->]. cbn [tr_exhausted].
  assert (Hw13 : later w w3) by by transitivity w1. destruct (Z.leb_spec (sp_MaxAttempts (s_spec s)) (k_attempt (g_scope chunk) + 1)).
  - intros _. split; [by apply sometime_now|]. exists w1. split; [exact Hw1|]. split; [by exists s|exact Hw3].
  - by eapply ensures_successor.
Qed.

(** ** Every operation keeps the rules *)
Definition keeps {A} (p : prog A) w : Prop := ensures p w (fun _ _ => True).

Lemma keeps_ensures {A} (p : prog A) w Q : ensures p w Q -> keeps p w.
Proof. intros HE. by eapply ensures_mono. Qed.

Lemma keeps_Inv {A} (p : prog A) w : Inv w -> keeps p w -> ensures p w (fun _ w' => True /\ Inv w').
Proof. intros HI HK. exact (ensures_Inv p w _ HI HK). Qed.

Lemma keeps_submit (a : action (res err reply)) w (f : res err reply -> error) :
  Inv w -> (forall w0, later w w0 -> Inv w0 -> obligation a w0) -> keeps (do! r := queryGenerationSchedule a in Ret (f r)) w.
Proof. intros HI HO. apply ensures_bind, ensures_retry; auto; done. Qed.

Lemma keeps_heartbeat chunk w : Inv w -> keeps (HeartbeatGenerationChunk chunk) w.
Proof. intros HI. unfold HeartbeatGenerationChunk. destruct (negb _); [done|]. by apply keeps_submit. Qed.
Lemma keeps_release chunk reason w : Inv w -> keeps (ReleaseGenerationChunk chunk reason) w.
Proof. intros HI. unfold ReleaseGenerationChunk. destruct (negb _); [done|]. by apply keeps_submit. Qed.
Lemma keeps_retire expected w : Inv w -> keeps (RetireCurrentGenerationSchedule expected) w.
Proof. intros HI. unfold RetireCurrentGenerationSchedule. destruct (ValidateGenerationSchedule expected); [done|]. by apply keeps_submit. Qed.

Lemma keeps_defer chunk reason delay w : Inv w -> keeps (DeferGenerationChunk chunk reason delay) w.
Proof.
  intros HI. unfold DeferGenerationChunk. destruct (negb _); [done|]. destruct (_ <=? _); [done|]. revert w HI.
  induction maxQueueRetries as [|left IH]; intros w HI; cbn [deferAttempts]; apply ensures_bind, ensures_ask; auto; try done; intros _ w1 now _ _ _ _ HI1;
    apply ensures_bind, ensures_ask; auto; try done; intros _ w2 [r|e] _ _ _ _ HI2; try done; destruct (negb _); try done;
    apply ensures_bind, ensures_ask; auto; try done; intros _ w3 [e'|] _ _ _ _ HI3; try done.
  destruct left; [done|]. by apply IH.
Qed.

Lemma keeps_expand repository stage generation ids w :
  Inv w -> Z.of_nat (length ids) = MaxGenerationFanoutPage -> keeps (ExpandGenerationSchedule repository stage generation ids) w.
Proof.
  intros HI Hids. apply ensures_bind, ensures_getSchedule; [exact HI|]. intros w1 [s|e] _ HI1 Hread; [|done]. specialize (Hread s eq_refl).
  destruct (_ || _); [done|].
  assert (Hgo : forall w2, Inv w2 -> ensures (if s_NextOffset s =? sp_TotalItems (s_spec s) then Ret (Ok s) else
      do! r := queryGenerationSchedule (AQuery (fun o => QExpand s (o_live o) (take (length (generationChunkSpecs s)) ids))) in
      Ret (match r with
           | Err e => Err (during "expand generation schedule" e)
           | Ok (RSchedule (Some expanded)) =>
               if s_NextOffset expanded =? s_NextOffset s + zsum (k_length <$> generationChunkSpecs s) then Ok expanded else Err (sentinel ErrGenerationStale)
           | Ok _ => Err (text "expand generation schedule: schedule row is absent")
           end)) w2 (fun _ _ => True)).
  { intros w2 HI2. destruct (_ =? _); [done|]. apply ensures_bind, ensures_retry; [exact HI2| |done..].
    intros w0 _ _ o _. split; [exact Hread|]. rewrite length_take. unfold generationChunkSpecs, specCount, MaxGenerationFanoutPage in *. rewrite length_fmap, length_seq. lia. }
  destruct (String.eqb _ _); [|by apply Hgo]. apply ensures_bind, ensures_ask; [exact HI1|done|]. intros _ w2 [e|] _ _ _ _ HI2; [done|]. by apply Hgo.
Qed.

Lemma orderedBy_elem {A} (compare : A -> A -> comparison) limit l x : x ∈ orderedBy compare limit l -> x ∈ l.
Proof.
  unfold orderedBy. intros (i & Hi & _)%elem_of_take. apply list_elem_of_lookup_2 in Hi. by rewrite merge_sort_Permutation in Hi.
Qed.
Lemma rowsOf_read w s : Inv w -> s ∈ rowsOf (w_tables w) -> readSchedule s.
Proof. intros HI Hs. apply list_elem_of_fmap in Hs as ([d s'] & -> & Hs). apply elem_of_map_to_list in Hs. by apply (row_read w d). Qed.

Lemma keeps_expandNext class ids w : Inv w -> Z.of_nat (length ids) = MaxGenerationFanoutPage -> keeps (ExpandNextGenerationSchedule class ids) w.
Proof.
  intros HI Hids. unfold ExpandNextGenerationSchedule. destruct (negb _); [done|]. apply ensures_bind, ensures_retry; [exact HI|done| |done].
  intros _ w1 [|s l] _ _ _ _ HI1; [done|]. by apply keeps_expand.
Qed.

(** The record of [chunk] is running, as [worker] holds it. *)
Definition heldBy (worker : string) (chunk : GenerationChunk) w : Prop :=
  t_chunks (w_tables w) !! g_ID chunk = Some (g_row chunk) /\ c_status (g_row chunk) = ChunkRunning /\ c_claimedBy (g_row chunk) = worker.

Lemma claim_held s live plan id worker lease chunk now w w1 :
  asked (QClaim s live plan id worker lease) now w = Some w1 ->
  replyTo (QClaim s live plan id worker lease) now (w_tables w) = RChunk (Some chunk) -> heldBy worker chunk w1.
Proof.
  intros HA%asked_tables Hr. cbn [run replyTo] in *. apply after_Some in HA as [b HS]. rewrite HS in Hr. injection Hr as ->. revert HS.
  unfold claimGenerationChunkSQL. destruct (_ && _); [discriminate|]. destruct (claimSelection _ _ _ _) as [candidate|]; [|discriminate].
  destruct (negb _); [discriminate|]. destruct (t_chunks _ !! id) as [c|]; [|discriminate]. destruct (bool_decide _); [|discriminate].
  intros [= <- Ht]. unfold heldBy. rewrite <- Ht. split; [cbn; apply lookup_insert_eq|done].
Qed.

Definition claimPost (worker : string) w (r : res err (option GenerationChunk)) w' : Prop :=
  forall chunk, r = Ok (Some chunk) -> sometime (heldBy worker chunk) w w'.

Lemma ensures_claimAttempts s worker lease left w0 w :
  Inv w -> later w0 w -> readSchedule s -> worker <> "" -> lease <> "" -> ensures (claimAttempts s worker lease left) w (claimPost worker w0).
Proof.
  intros HI HL Hread Hw Hl. revert w HI HL. induction left as [|left IH]; intros w HI HL; [done|]. cbn [claimAttempts].
  assert (Hagain : forall prefix e w', Inv w' -> later w0 w' -> ensures (if negb (isRetryable e) then Ret (Err (during prefix e)) else
      do! c := ask ACtxErr in
      match c, S left with None, S (S _) => claimAttempts s worker lease left | _, _ => Ret (Err (during prefix e)) end) w' (claimPost worker w0)).
  { intros prefix e w' HI' HL'. destruct (negb _); [done|]. apply ensures_bind, ensures_ask; [exact HI'|done|]. intros _ w3 [e'|] _ _ _ Hw3 HI3; [done|].
    destruct left; [done|]. apply IH; [exact HI3|by transitivity w']. }
  apply ensures_bind, ensures_ask; [exact HI|done|]. intros _ w1 selected _ _ _ Hw1 HI1. assert (HL1 : later w0 w1) by by transitivity w.
  destruct (match selected with Ok (Ok id) => Ok id | Ok (Err e) => Err (text e) | Err e => Err e end) as [id|e].
  - apply ensures_bind, ensures_ask; [exact HI1|done|]. intros _ w2 [e|] _ _ _ Hw2 HI2; [done|]. destruct id as [id|]; [|done].
    apply ensures_bind, ensures_ask; [exact HI2|intros w3 _ _ o Hf; by split_and!|]. intros w3 w4 [r|e] _ _ HA Hw4 HI4.
    + assert (HL4 : later w0 w4) by by transitivity w1; [|transitivity w2].
      assert (Hheld : forall chunk, r = RChunk (Some chunk) -> heldBy worker chunk w4).
      { apply (answered_transition _ _ _ _ (fun r w4 => forall chunk, r = RChunk (Some chunk) -> heldBy worker chunk w4) HA).
        intros o now HA' chunk. by eapply claim_held. }
      destruct r as [|c| | |]; try done. intros chunk [= ->]. apply sometime_now; [exact HL4|by apply Hheld].
    + apply Hagain; [exact HI4|]. by transitivity w1; [|transitivity w2].
  - destruct (_ && _); [done|]. by apply Hagain.
Qed.

Lemma ensures_claim class worker w :
  Inv w -> ensures (ClaimGenerationChunk class worker) w (fun r w' => forall chunk, r = Ok chunk -> sometime (heldBy worker chunk) w w').
Proof.
  intros HI. unfold ClaimGenerationChunk. destruct (_ || negb (utf8Valid worker)) eqn:Ev; [done|].
  repeat (apply orb_false_iff in Ev as [Ev ?]). assert (Hw : worker <> "") by (by apply String.eqb_neq).
  apply ensures_bind, ensures_ask; [exact HI|done|]. intros w0 w1 [candidates|e] _ HI0 HA HL1 HI1; [|done].
  assert (Hall : forall s, s ∈ candidates -> readSchedule s).
  { destruct HA as [-> [(o & now & _ & [= ->])|(e & ? & _)]]; [|discriminate]. intros s Hs%orderedBy_elem. apply list_elem_of_filter in Hs as [_ Hs]. by apply (rowsOf_read w0). }
  clear HA. revert w1 HL1 HI1. induction candidates as [|s candidates IH]; intros w1 HL1 HI1; [done|]. cbn [claimFrom].
  apply ensures_bind, ensures_ask; [exact HI1|done|]. intros w2 w3 [lease|e] _ _ [_ Hl] HL3 HI3; [|done].
  assert (HLw : later w w3) by by transitivity w1.
  pose proof (ensures_later _ _ _ HI3 (ensures_claimAttempts s worker lease maxQueueRetries w w3 HI3 HLw (Hall s (list_elem_of_here _ _)) Hw Hl)) as HK.
  apply ensures_bind, (ensures_mono _ _ _ _ HK).
  intros [[chunk|]|e] w4 (HC & HL4 & HI4); [intros chunk' [= <-]; by apply HC| |done].
  apply IH; [intros s' Hs'; apply Hall; by right|by transitivity w3|exact HI4].
Qed.

Lemma keeps_claim class worker w : Inv w -> keeps (ClaimGenerationChunk class worker) w.
Proof. intros HI. exact (keeps_ensures _ _ _ (ensures_claim class worker w HI)). Qed.

Lemma keeps_enqueue spec w : Inv w -> keeps (EnqueueGenerationSchedule spec) w.
Proof.
  intros HI. unfold EnqueueGenerationSchedule. destruct (normalizeGenerationScheduleSpec spec) as [spec'|e] eqn:En; [|done].
  assert (Ha : admitted spec') by (pose proof En as E; apply normalize_Ok in E as [-> _]; exact En).
  apply ensures_bind. assert (Hgo : forall w1, Inv w1 -> ensures (withEnqueueRetry (
      do! prior := ask (ARead (fun _ _ t => let old := currentDigest (sp_Repository spec') (sp_Stage spec') t in (old, priorIDs (generationScheduleDigest spec') old t))) in
      match prior with
      | Err e => Ret (Err ("read generation enqueue prior", e))
      | Ok (old, ids) =>
          do! c := ask ACtxErr in
          match c with Some e => Ret (Ok (Err e)) | None =>
          if match old with Some old => negb (validSHA256 old) | None => false end
          then Ret (Ok (Err (text "read generation enqueue prior: invalid digest"))) else
          do! r := ask (AQuery (fun o => QEnqueue spec' (o_live o) old ids)) in
          Ret (match r with Err e => Err ("enqueue generation schedule", e) | Ok r => Ok (enqueued spec' old r) end)
          end
      end) maxQueueRetries) w1 (fun _ _ => True)).
  { match goal with |- forall w1, Inv w1 -> ensures (withEnqueueRetry ?turn _) w1 _ => assert (Hturn : forall w1, Inv w1 -> keeps turn w1) end.
    { intros w1 HI1. apply ensures_bind, ensures_ask; [exact HI1|done|]. intros _ w2 [[old ids]|e] _ _ _ _ HI2; [|done].
      apply ensures_bind, ensures_ask; [exact HI2|done|]. intros _ w3 [e|] _ _ _ _ HI3; [done|]. destruct (match old with Some _ => _ | None => _ end); [done|].
      apply ensures_bind, ensures_ask; [exact HI3|intros w4 _ _ o _; exact Ha|done]. }
    induction maxQueueRetries as [|left IH]; intros w1 HI1; cbn [withEnqueueRetry]; apply ensures_bind; (eapply ensures_mono; [apply keeps_Inv, Hturn; exact HI1|]);
      intros [x|[prefix e]] w2 [_ HI2]; try done; destruct (negb _); try done; apply ensures_bind, ensures_ask; auto; try done; intros _ w3 [e'|] _ _ _ _ HI3; try done.
    destruct left; [done|]. by apply IH. }
  destruct (String.eqb _ _); [|by apply Hgo]. apply ensures_bind, ensures_ask; [exact HI|done|]. intros _ w1 [current|e] _ _ _ _ HI1; [|done].
  cbn. destruct (bool_decide _); [by apply Hgo|done].
Qed.

(** *** The reaper *)
Lemma later_leases w w' l : later w w' -> l ∈ w_leases w -> l ∈ w_leases w'.
Proof.
  intros [qs HL] Hl. induction HL as [|q now qs w w1 w2 HP Hnow Hq HA IH]; [done|]. apply IH. unfold asked in Hq.
  destruct (run _ _ _); [|discriminate]. injection Hq as <-. cbn. apply elem_of_app. by right.
Qed.

Lemma keeps_reap class staleAfter w : Inv w -> keeps (reapStaleGenerationChunks class staleAfter) w.
Proof.
  intros HI. unfold reapStaleGenerationChunks. destruct (_ || _); [done|]. apply ensures_bind, ensures_ask; [exact HI|done|]. intros _ w1 now _ _ _ _ HI1.
  apply ensures_bind, ensures_retry; [exact HI1|done| |done]. intros w2 w3 chunks _ HI2 HA _ HI3.
  assert (Hall : forall g, g ∈ chunks -> mkLease (c_leaseToken (g_row g)) (g_ID g) (g_scope g) ∈ w_leases w3).
  { destruct HA as [-> [(o & t & _ & [= ->])|(e & ? & _)]]; [|discriminate]. intros g Hg%orderedBy_elem. apply list_elem_of_filter in Hg as [(_ & Hr & _) Hg].
    apply list_elem_of_fmap in Hg as ([id c] & -> & Hc). apply elem_of_map_to_list in Hc. cbn in *. by apply (iv_lease w2 HI2 id c Hc Hr). }
  clear HA. generalize 0 as n. revert w3 HI3 Hall. induction chunks as [|g chunks IH]; intros w3 HI3 Hall n; [done|]. cbn [reapEach].
  apply ensures_bind. eapply ensures_mono with (Q := fun _ w' => later w3 w' /\ Inv w').
  - unfold releaseStaleGenerationChunk. destruct (negb _); [split; [apply later_refl|exact HI3]|]. destruct (match c_heartbeatAt _ with Some _ => _ | None => _ end); [split; [apply later_refl|exact HI3]|].
    apply ensures_bind, ensures_retry; [exact HI3| |by intros w4 w5 r _ _ _ Hw5 HI5|by intros w4 e Hw4 HI4].
    intros w4 Hw4 _ o _. apply (later_leases w3); [exact Hw4|apply Hall; left].
  - intros e w4 [Hw4 HI4]. assert (Hall' : forall g', g' ∈ chunks -> mkLease (c_leaseToken (g_row g')) (g_ID g') (g_scope g') ∈ w_leases w4).
    { intros g' Hg'. apply (later_leases w3); [exact Hw4|apply Hall; by right]. }
    destruct e; [|by apply IH]. destruct (errorsIs _ ErrGenerationStale); [by apply IH|]. destruct (errorsIs _ ErrGenerationLeaseLost); [by apply IH|done].
Qed.

(** C27: No operation breaks the rules the invariants rest on.  From every
    reachable state, whatever others submit between its steps and whichever
    answers are lost, each method of the store only submits statements that
    are permitted: normalized specifications, schedules as they were read,
    fan-out pages of the right length, the schedule's own attempt bound, leases
    that were issued.  So the assumption on the statements of others holds of
    every client of this interface. *)
Theorem operations_keep_rules w :
  reachable w ->
  (forall spec, keeps (EnqueueGenerationSchedule spec) w) /\
  (forall expected, keeps (RetireCurrentGenerationSchedule expected) w) /\
  (forall class ids, Z.of_nat (length ids) = MaxGenerationFanoutPage -> keeps (ExpandNextGenerationSchedule class ids) w) /\
  (forall class worker, keeps (ClaimGenerationChunk class worker) w) /\
  (forall chunk, keeps (HeartbeatGenerationChunk chunk) w /\ keeps (CompleteGenerationChunk chunk) w) /\
  (forall chunk message, keeps (FailGenerationChunk chunk message) w /\ keeps (ReleaseGenerationChunk chunk message) w) /\
  (forall chunk message notBefore newID, keeps (RetryGenerationChunk chunk message notBefore newID) w) /\
  (forall chunk reason delay, keeps (DeferGenerationChunk chunk reason delay) w) /\
  (forall class staleAfter, keeps (reapStaleGenerationChunks class staleAfter) w).
Proof.
  intros HI%reachable_schedules.
  refine (conj (fun spec => keeps_enqueue spec w HI) (conj (fun expected => keeps_retire expected w HI) (conj (fun class ids Hids => keeps_expandNext class ids w HI Hids)
    (conj (fun class worker => keeps_claim class worker w HI) (conj _ (conj _ (conj _ (conj (fun chunk reason delay => keeps_defer chunk reason delay w HI)
    (fun class staleAfter => keeps_reap class staleAfter w HI))))))))).
  - intros chunk. exact (conj (keeps_heartbeat chunk w HI) (keeps_ensures _ _ _ (ensures_complete chunk w HI))).
  - intros chunk message. exact (conj (keeps_ensures _ _ _ (ensures_fail chunk message w HI)) (keeps_release chunk message w HI)).
  - intros chunk message notBefore newID. exact (keeps_ensures _ _ _ (ensures_retryChunk chunk message notBefore newID w HI)).
Qed.

(** C26: What the settling operations answer is true, even when the database's
    answers are lost.  If completion returns no error, then at some moment of
    the call the chunk's record was done by this worker, in its unchanged
    scope; if failing returns none, the record was failed with this worker's
    message; if a retry returns a successor, the record was failed and the
    successor was a record of the next attempt at the same offset; if it
    reports exhaustion, the record was failed with this message and its attempt
    was the last that the schedule allows. *)
Theorem settling_answers_are_true w chunk :
  reachable w ->
  ensures (CompleteGenerationChunk chunk) w (fun e w' => e = None -> sometime (recorded chunk ChunkDone) w w') /\
  (forall message, ensures (FailGenerationChunk chunk message) w
     (fun e w' => e = None -> sometime (recordedError chunk (boundedGenerationError message)) w w')) /\
  (forall message notBefore newID, ensures (RetryGenerationChunk chunk message notBefore newID) w (fun r w' =>
     match r with
     | Ok successor => sometime (recordedError chunk (boundedGenerationError message)) w w' /\ sometime (succeeded chunk successor) w w'
     | Err e => errorsIs (Some e) ErrGenerationExhausted = true ->
         sometime (recordedError chunk (boundedGenerationError message)) w w' /\ sometime (lastAttempt chunk) w w'
     end)).
Proof.
  intros HI%reachable_schedules. split; [by apply ensures_complete|]. split; [intros message; by apply ensures_fail|].
  intros message notBefore newID. by apply ensures_retryChunk.
Qed.

(** *** Reading a settlement *)

(** Every item of the schedule that is asked for lies in a chunk that is done. *)
Definition allDone (request : SettlementRequest) w : Prop :=
  exists s, currentSchedule (q_Repository request) (q_Stage request) (w_tables w) = Some s /\
    s_Digest s = q_ScheduleDigest request /\ sp_Generation (s_spec s) = q_Generation request /\ s_Status s = ScheduleSettled /\
    forall x, 0 <= x < sp_TotalItems (s_spec s) -> exists id c, t_chunks (w_tables w) !! id = Some c /\ holdsItem s x c /\ c_status c = ChunkDone.

Lemma ensures_current repository stage w Q :
  Inv w ->
  (forall w0 w1 s, later w w0 -> Inv w0 -> currentSchedule repository stage (w_tables w0) = Some s -> later w0 w1 -> Q (Ok s) w1) ->
  (forall w1 e, Q (Err e) w1) -> ensures (GetGenerationSchedule repository stage) w Q.
Proof.
  intros HI HQ HE. unfold GetGenerationSchedule. destruct (_ || _); [apply HE|].
  apply ensures_bind, ensures_retry; [exact HI|done| |intros w1 e Hw1 HI1; apply HE].
  intros w0 w1 [s|] Hw0 HI0 HA Hw1 HI1; [|apply HE]. destruct HA as [-> [(o & now & _ & [= E])|(e & ? & _)]]; [|discriminate].
  destruct (ValidateGenerationSchedule s); [apply HE|]. apply (HQ w0 w0); auto. apply later_refl.
Qed.

(** C13: A settlement that reads as complete is complete.  If the read returns a
    value whose completion test holds, it returns no error, and at some moment
    of the read the scope's current schedule was the requested one of the
    requested generation, settled, with every one of its items in a chunk that
    is done. *)
Theorem complete_settlement_is_done w request :
  reachable w ->
  ensures (ReadGenerationScheduleSettlement request) w (fun r w' =>
    forall value, r.1 = Some value -> Complete value = true -> r.2 = None /\ sometime (allDone request) w w').
Proof.
  intros HI%reachable_schedules. unfold ReadGenerationScheduleSettlement. destruct (_ || _); [discriminate|].
  apply ensures_bind, ensures_current; [exact HI| |discriminate]. intros w0 w1 s Hw0 HI0 Hcur Hw1 value. cbn [ensures].
  unfold generationScheduleSettlement. destruct (_ || (negb (bool_decide _) && _)) eqn:Ev; [discriminate|]. cbv zeta.
  repeat match goal with H : _ || _ = false |- _ => apply orb_false_iff in H as [? ?] end.
  repeat match goal with H : negb (String.eqb _ _) = false |- _ => apply negb_false_iff, String.eqb_eq in H end.
  set (v := mkSettlement _ _ _ _ _ _ _). intros Hv HC. assert (value = v) as -> by (case_match; cbn in Hv; congruence). clear Hv.
  rewrite HC, andb_false_r. split; [done|]. exists w0. split; [exact Hw0|]. split; [|exact Hw1]. unfold Complete in HC. cbn in HC.
  repeat (apply andb_true_iff in HC as [HC ?]). apply bool_decide_eq_true_1 in HC. exists s. split_and!; auto. intros x Hx.
  destruct (current_covers w0 _ _ s x HI0 Hcur (or_intror (conj HC Hx))) as (id & c & Hc & Hh & _ & Hs & _). exists id, c. split_and!; auto.
  destruct (Hs HC) as [?|[_ ?]]; [done|lia].
Qed.
End Runs.

(** ** Examples *)
#[local] Existing Instance plain_hash.
#[local] Existing Instance plain_collisionFree.

(** From a state where the third chunk is still to be claimed, the claim, and
    the completion of a chunk already done. *)
Lemma operations_keep_rules_witness :
  keeps (ClaimGenerationChunk "class" "worker") world1 /\ keeps (RetireCurrentGenerationSchedule active1) world1.
Proof.
  pose proof (operations_keep_rules world1 world1_reachable) as HK.
  exact (conj (proj1 (proj2 (proj2 (proj2 HK))) "class" "worker") (proj1 (proj2 HK) active1)).
Defined.

Lemma settling_answers_are_true_witness :
  ensures (CompleteGenerationChunk b0) world1 (fun e w' => e = None -> sometime (recorded b0 ChunkDone) world1 w') /\ recorded b0 ChunkDone world1.
Proof.
  refine (conj (proj1 (settling_answers_are_true world1 b0 world1_reachable)) _).
  exists (default (g_row b0) (t_chunks (w_tables world1) !! "b")). split; [apply defaulted; evaluated|]. split_and!; decided.
Defined.

(** The run in which the third chunk completes too. *)
Definition run3 : list (query * Z) :=
  run1 ++ ((fun qt : query * Z => match qt.1 with QFail chunk live _ => (QComplete chunk live, qt.2) | _ => qt end) <$> run2).
Definition world3 : world := default start (execute spec1 run3 start).
Definition settled3 : GenerationSchedule := default schedule1 (currentSchedule "repository" "stage" (w_tables world3)).
Definition request3 : SettlementRequest :=
  mkSettlementRequest "repository" "stage" (sp_Generation spec1) (sp_ResourceClass spec1) (s_Digest settled3).

Lemma complete_settlement_is_done_witness :
  ensures (ReadGenerationScheduleSettlement request3) world3 (fun r w' =>
    forall value, r.1 = Some value -> Complete value = true -> r.2 = None /\ sometime (allDone request3) world3 w') /\
  match generationScheduleSettlement request3 settled3 with (Some value, None) => Complete value | _ => false end = true /\
  (generationScheduleSettlement (mkSettlementRequest "repository" "stage" "" "" (s_Digest settled3)) settled3).2 = Some (sentinel ErrGenerationStale) /\
  (generationScheduleSettlement request3 settled2).2 = Some (sentinel ErrGenerationScheduleFailed).
Proof.
  assert (HR : reachable world3) by (apply (execute_reachable spec1 run3), defaulted; evaluated).
  refine (conj (complete_settlement_is_done world3 request3 HR) _). split_and!; evaluated.
Defined.

(** The failure that is read for a settled schedule need not be final.  Its
    query takes the failed record of the highest attempt, and a retried
    attempt stays recorded as failed: in this run the answer is an attempt
    whose retry completed, while the chunk that failed for good is not
    returned. *)
Theorem failure_read_can_be_retried :
  reachable world2 /\ currentSchedule "repository" "stage" (w_tables world2) = Some settled2 /\ s_Status settled2 = ScheduleSettled /\ s_Failed settled2 = 1 /\
  exists failure id done,
    latestFailure (s_Digest settled2) (w_tables world2) = Some failure /\
    t_chunks (w_tables world2) !! id = Some done /\ c_status done = ChunkDone /\
    k_scheduleDigest (c_scope done) = k_scheduleDigest (g_scope failure) /\
    k_offset (c_scope done) = k_offset (g_scope failure) /\ k_attempt (c_scope done) = k_attempt (g_scope failure) + 1.
Proof.
  split; [exact world2_reachable|]. split; [exact world2_current|].
  split; [decided|]. split; [decided|].
  exists (default a0 (latestFailure (s_Digest settled2) (w_tables world2))), "a3", (default (g_row a0) (t_chunks (w_tables world2) !! "a3")).
  split; [apply defaulted; evaluated|]. split; [apply defaulted; evaluated|]. split_and!; decided.
Qed.
