(* ===== verification/GenerationRunner.v ===== *)
(** * Generation schedules: the scheduler

    Model of [internal/generationscheduler/runner.go]: the validation of a
    scheduler and its defaults, the admission all schedulers of a process
    share, and one execution of a claimed chunk from its started report to the
    one store call that settles it.  Handlers and hooks are answers of the
    surroundings ([turn]), as are the ends of the heartbeat goroutines; the
    queries a handler or a heartbeat makes are among those anyone may make
    between two actions.  What an execution says and calls is the list of its
    [effect]s.  Writing a report ([json.Marshal], the sink) follows the code;
    the text of an error report is left out. *)
From stdpp Require Import sorting pretty.
From Stdlib Require Import Ascii String.
From S2P Require Import Prelude.
From S2P Require Import GoStrings GoText JobErrors StoreErrors GenerationSpec GenerationStore GenerationInvariant GenerationOps.
#[local] Open Scope generation_scope.

Definition MaxProcessConcurrency : Z := 64.
Definition MaxProcessMemoryBytes : Z := Z.shiftl 8 30.
Definition MaxProcessDescriptors : Z := 4096.
Definition MaxChunkMemoryBytes : Z := Z.shiftl 1 30.
Definition MaxChunkDescriptors : Z := 256.

Record Budget := mkBudget { MaxMemoryBytes : Z; MaxDescriptors : Z }.
#[export] Instance Budget_eq_dec : EqDecision Budget.
Proof. solve_decision. Defined.

(** The measured container of [typedindex.MeasuredPolicy]. *)
Record Policy := mkPolicy { po_MemoryBytes : Z; po_Tasks : Z; po_Descriptors : Z }.
Definition MeasuredPolicy : Policy := mkPolicy 4533092352 294 128.
Definition typedContainerDescriptors : Z := po_Tasks MeasuredPolicy * po_Descriptors MeasuredPolicy.
Definition TypedIndexBudget : Budget :=
  mkBudget (MaxChunkMemoryBytes + po_MemoryBytes MeasuredPolicy) (MaxChunkDescriptors + po_Tasks MeasuredPolicy * po_Descriptors MeasuredPolicy).

(** Which functions are set. *)
Record Class := mkClass {
  cl_Concurrency : Z;
  cl_Budget : Budget;
  cl_Handle : bool;
  cl_AfterSettlement : bool;
  cl_OnExhausted : bool;
  cl_BeforeLeaseHeartbeat : bool;
  cl_OnStaleLeaseTransition : bool;
  cl_ControlledRelease : bool;
  cl_TerminalHeartbeat : bool;
  cl_MarkerMeasurement : bool
}.

Record Scheduler := mkScheduler {
  sc_Store : bool;
  (** the store is a [GenerationStaleLeaseTransitionReaper] *)
  sc_Reaper : bool;
  sc_Owners : bool;
  (** in the order a [range] over the map visits them *)
  sc_Classes : list (string * Class);
  sc_MaxConcurrency : Z;
  sc_MaxMemoryBytes : Z;
  sc_MaxDescriptors : Z;
  sc_PollEvery : Z;
  sc_HeartbeatEvery : Z;
  sc_StaleAfter : Z;
  sc_StoreCallTimeout : Z;
  (** [None] is a nil function *)
  sc_Backoff : option (Z -> Z);
  sc_WorkerPrefix : string;
  sc_Report : bool;
  sc_Diagnostics : bool;
  sc_ChunkReports : bool;
  sc_ChunkReportFailure : bool
}.
#[export] Instance eta_Scheduler : Eta Scheduler := fun s =>
  mkScheduler (sc_Store s) (sc_Reaper s) (sc_Owners s) (sc_Classes s) (sc_MaxConcurrency s) (sc_MaxMemoryBytes s) (sc_MaxDescriptors s)
    (sc_PollEvery s) (sc_HeartbeatEvery s) (sc_StaleAfter s) (sc_StoreCallTimeout s) (sc_Backoff s) (sc_WorkerPrefix s) (sc_Report s)
    (sc_Diagnostics s) (sc_ChunkReports s) (sc_ChunkReportFailure s).

Definition Millisecond : Z := 10 ^ 6.
Definition deterministicBackoff (attempt : Z) : Z :=
  let attempt := if attempt <? 1 then 1 else attempt in
  Z.shiftl Second (Z.min (attempt - 1) 6).

(** ** Validation *)
Definition isTyped (class : string) : bool := String.eqb class GenerationResourceTypedIndex.

Definition withDefaults (s : Scheduler) : Scheduler :=
  let ceiling := MaxProcessDescriptors + (if existsb (fun cc => isTyped cc.1) (sc_Classes s) then typedContainerDescriptors else 0) in
  let s := if sc_MaxConcurrency s =? 0 then s <| sc_MaxConcurrency := MaxProcessConcurrency |> else s in
  let s := if sc_MaxMemoryBytes s =? 0 then s <| sc_MaxMemoryBytes := MaxProcessMemoryBytes |> else s in
  let s := if sc_MaxDescriptors s =? 0 then s <| sc_MaxDescriptors := ceiling |> else s in
  let s := if sc_PollEvery s =? 0 then s <| sc_PollEvery := 250 * Millisecond |> else s in
  let s := if sc_HeartbeatEvery s =? 0 then s <| sc_HeartbeatEvery := 5 * Second |> else s in
  let s := if sc_StaleAfter s =? 0 then s <| sc_StaleAfter := i64 (4 * sc_HeartbeatEvery s) |> else s in
  let s := if sc_StoreCallTimeout s =? 0 then s <| sc_StoreCallTimeout := 5 * Second |> else s in
  let s := match sc_Backoff s with None => s <| sc_Backoff := Some deterministicBackoff |> | Some _ => s end in
  if String.eqb (sc_WorkerPrefix s) "" then s <| sc_WorkerPrefix := "generation-worker" |> else s.

Inductive refusal :=
  | RequiresStore
  | RequiresSink
  | ProcessBounds
  | InvalidClass (class : string)
  | ClassBounds (class : string)
  | LeaseGate (class : string)
  | TerminalNeedsOwners (class : string)
  | LacksReaper (class : string)
  | ClassBudgets
  | ExceedsAdmission.

Definition validBudget (class : string) (c : Class) : bool :=
  if isTyped class then (cl_Concurrency c =? 1) && bool_decide (cl_Budget c = TypedIndexBudget)
  else (1 <=? MaxMemoryBytes (cl_Budget c)) && (MaxMemoryBytes (cl_Budget c) <=? MaxChunkMemoryBytes)
       && (1 <=? MaxDescriptors (cl_Budget c)) && (MaxDescriptors (cl_Budget c) <=? MaxChunkDescriptors).

(** One class of the loop. *)
Definition checkClass (s : Scheduler) (class : string) (c : Class) : option refusal :=
  if negb (validGenerationResourceClass class) then Some (InvalidClass class)
  else if (cl_Concurrency c <? 1) || (MaxProcessConcurrency <? cl_Concurrency c) || negb (cl_Handle c) || negb (validBudget class c)
  then Some (ClassBounds class)
  else if cl_BeforeLeaseHeartbeat c && negb (cl_OnStaleLeaseTransition c) then Some (LeaseGate class)
  else if (cl_TerminalHeartbeat c || cl_MarkerMeasurement c) && (negb (sc_Owners s) || negb (sc_ChunkReports s) || negb (sc_ChunkReportFailure s))
          || cl_TerminalHeartbeat c && cl_MarkerMeasurement c
  then Some (TerminalNeedsOwners class)
  else if cl_OnStaleLeaseTransition c && negb (sc_Reaper s) then Some (LacksReaper class)
  else None.

Record totals := mkTotals { to_concurrency : Z; to_memory : Z; to_descriptors : Z; to_generic : Z }.
Fixpoint checkClasses (s : Scheduler) (l : list (string * Class)) (t : totals) : res refusal totals :=
  match l with
  | [] => Ok t
  | (class, c) :: l =>
      match checkClass s class c with
      | Some e => Err e
      | None =>
          checkClasses s l (mkTotals (to_concurrency t + cl_Concurrency c)
            (to_memory t + cl_Concurrency c * MaxMemoryBytes (cl_Budget c))
            (to_descriptors t + cl_Concurrency c * MaxDescriptors (cl_Budget c))
            (to_generic t + (if isTyped class then MaxChunkDescriptors else cl_Concurrency c * MaxDescriptors (cl_Budget c))))
      end
  end.

Definition str_le (a b : string) : Prop := str_ltb b a = false.
#[local] Instance str_le_dec a b : Decision (str_le a b) := decide (str_ltb b a = false).
Definition validate (s : Scheduler) : res refusal (Scheduler * list string) :=
  if negb (sc_Store s) || Nat.eqb (length (sc_Classes s)) 0 then Err RequiresStore
  else if sc_ChunkReportFailure s && negb (sc_ChunkReports s) then Err RequiresSink
  else
    let ceiling := MaxProcessDescriptors + (if existsb (fun cc => isTyped cc.1) (sc_Classes s) then typedContainerDescriptors else 0) in
    let s := withDefaults s in
    if (sc_MaxConcurrency s <? 1) || (MaxProcessConcurrency <? sc_MaxConcurrency s) || (sc_MaxMemoryBytes s <? 1)
       || (MaxProcessMemoryBytes <? sc_MaxMemoryBytes s) || (sc_MaxDescriptors s <? 1) || (ceiling <? sc_MaxDescriptors s)
       || (sc_PollEvery s <=? 0) || (sc_HeartbeatEvery s <=? 0) || (sc_StaleAfter s <=? sc_HeartbeatEvery s) || (sc_StoreCallTimeout s <=? 0)
    then Err ProcessBounds
    else match checkClasses s (sc_Classes s) (mkTotals 0 0 0 0) with
         | Err e => Err e
         | Ok t =>
             if (sc_MaxConcurrency s <? to_concurrency t) || (sc_MaxMemoryBytes s <? to_memory t)
                || (sc_MaxDescriptors s <? to_descriptors t) || (MaxProcessDescriptors <? to_generic t)
             then Err ClassBudgets
             else Ok (s, merge_sort str_le (sc_Classes s).*1)
         end.

(** ** Process admission *)
Record admission := mkAdmission { ad_concurrency : Z; ad_memoryBytes : Z; ad_descriptors : Z; ad_typedSlots : Z }.
Definition noAdmission : admission := mkAdmission 0 0 0 0.
Definition admissionAdd (a b : admission) : admission :=
  mkAdmission (ad_concurrency a + ad_concurrency b) (ad_memoryBytes a + ad_memoryBytes b) (ad_descriptors a + ad_descriptors b)
    (ad_typedSlots a + ad_typedSlots b).
Definition admissionSub (a b : admission) : admission :=
  mkAdmission (ad_concurrency a - ad_concurrency b) (ad_memoryBytes a - ad_memoryBytes b) (ad_descriptors a - ad_descriptors b)
    (ad_typedSlots a - ad_typedSlots b).

Definition demandOf (class : string) (c : Class) : admission :=
  mkAdmission (cl_Concurrency c) (cl_Concurrency c * MaxMemoryBytes (cl_Budget c))
    (cl_Concurrency c * MaxDescriptors (cl_Budget c) - (if isTyped class then cl_Concurrency c * typedContainerDescriptors else 0))
    (if isTyped class then cl_Concurrency c else 0).
(** [scheduler.Classes[class]]; a class that is not there is the zero [Class]. *)
Definition zeroClass : Class := mkClass 0 (mkBudget 0 0) false false false false false false false false.
Definition classOf (s : Scheduler) (class : string) : Class :=
  default zeroClass (snd <$> List.find (fun cc => String.eqb cc.1 class) (sc_Classes s)).
Definition demand (s : Scheduler) (classes : list string) : admission :=
  foldr (fun class => admissionAdd (demandOf class (classOf s class))) noAdmission classes.

(** [processAdmission] and the tickets handed out: what each took, and whether
    its [sync.Once] is spent. *)
Record process := mkProcess { pr_total : admission; pr_tickets : list (admission * bool) }.
Definition acquireProcessAdmission (s : Scheduler) (classes : list string) (p : process) : res refusal process :=
  let wanted := demand s classes in
  let total := admissionAdd (pr_total p) wanted in
  if (MaxProcessConcurrency <? ad_concurrency total) || (MaxProcessMemoryBytes <? ad_memoryBytes total)
     || (MaxProcessDescriptors <? ad_descriptors total) || (1 <? ad_typedSlots total)
  then Err ExceedsAdmission
  else Ok (mkProcess total (pr_tickets p ++ [(wanted, false)])).
Definition releaseAdmission (ticket : nat) (p : process) : process :=
  match pr_tickets p !! ticket with
  | Some (held, false) => mkProcess (admissionSub (pr_total p) held) (<[ticket := (held, true)]> (pr_tickets p))
  | _ => p
  end.

(** ** Reports *)
Definition ChunkLifecycleSchema : string := "phebs-generation-chunk-lifecycle-v1".
Definition MaxChunkLifecycleReportSize : Z := Z.shiftl 4 10.

Inductive effect :=
  | EEmitted (event outcome : string)   (* the sink was given the report *)
  | EFailure                            (* [ChunkReportFailure] was called *)
  | EReport                             (* [Report] was called *)
  | EHandled
  | EAfterSettlement
  | EExhausted
  | EObserved
  | EControlled.

(** What a sink does with one report, and the failure callback. *)
Inductive sinkOutcome := SinkOk | SinkFails | SinkPanics.

Record turn := mkTurn {
  tu_started : sinkOutcome;
  tu_settled : sinkOutcome;
  tu_milliseconds : Z;             (* how long it took *)
  tu_gate : error;                 (* [BeforeLeaseHeartbeat] *)
  tu_selected : bool;              (* [MarkerMeasurement] *)
  tu_unavailable : error;          (* [newMarkerMeasurement], [newTerminalHeartbeat] *)
  tu_handled : error;              (* [Handle] *)
  tu_heartbeat : error;            (* the heartbeat's end *)
  tu_used : bool;                  (* the marker or the terminal capability *)
  tu_complete : bool;              (* the marker's observation *)
  tu_controlled : res err bool;    (* [ControlledRelease] *)
  tu_exhausted : error;            (* [OnExhausted] *)
  tu_observed : error;             (* [OnStaleLeaseTransition] *)
  tu_after : error;                (* [AfterSettlement] *)
  tu_newID : string                (* of a successor *)
}.

Section Runner.
Context `{Hash}.

Section Execution.
Context (s : Scheduler) (c : Class) (u : turn) (chunk : GenerationChunk).

(** A report is lost silently unless the failure callback is set. *)
Definition failChunkReport (failed : bool) : bool * list effect :=
  if negb (sc_ChunkReportFailure s) || negb failed then (false, []) else (true, [EFailure]).

Definition ChunkLifecycleReport (event outcome : string) (durationMS : Z) : json :=
  JObject ([("schema", JString ChunkLifecycleSchema); ("event", JString event); ("identity", JString (k_identity (g_scope chunk)));
    ("stage", JString (k_stage (g_scope chunk))); ("generation", JString (k_generation (g_scope chunk)));
    ("attempt", JInt (k_attempt (g_scope chunk))); ("outcome", JString outcome)]
    ++ (if durationMS =? 0 then [] else [("duration_ms", JInt durationMS)])).

(** Whether it failed, and what it did. *)
Definition emitChunkLifecycleDuration (event outcome : string) (durationMS : Z) (sink : sinkOutcome) : bool * list effect :=
  if negb (sc_Diagnostics s) && negb (sc_ChunkReports s) && negb (sc_ChunkReportFailure s) then (false, [])
  else if sc_ChunkReportFailure s && negb (sc_ChunkReports s) then failChunkReport true
  else if MaxChunkLifecycleReportSize <? Z.of_nat (String.length (Marshal (ChunkLifecycleReport event outcome durationMS)))
  then failChunkReport true
  else if negb (sc_ChunkReports s) then (false, [EEmitted event outcome])
  else let (failed, effects) := failChunkReport match sink with SinkOk => false | _ => true end in
       (failed, EEmitted event outcome :: effects).

Definition report : list effect := if sc_Report s then [EReport] else [].
Definition timingEnabled : bool := sc_Diagnostics s || sc_ChunkReports s || sc_ChunkReportFailure s.

(** The deferred calls: the reconciliation, then the settled report. *)
Definition finish (joined retained : bool) (outcome : string) (effects : list effect) : bool * list effect :=
  let '(outcome, after) :=
    if cl_AfterSettlement c && joined && negb retained then
      match tu_after u with
      | None => (outcome, [EAfterSettlement])
      | Some _ => (outcome +:+ "_reconciliation_failed", EAfterSettlement :: report ++ (if sc_ChunkReportFailure s then [EFailure] else []))
      end
    else (outcome, []) in
  let settled :=
    if timingEnabled && negb (String.eqb outcome "") then (emitChunkLifecycleDuration "settled" outcome (tu_milliseconds u) (tu_settled u)).2
    else [] in
  (retained, effects ++ after ++ settled).

Definition fenced (e : error) : bool := errorsIs e ErrGenerationLeaseLost || errorsIs e ErrGenerationStale.

(** [ctx.Err()], asked only where reports are exact. *)
Definition interrupted : prog error := if sc_ChunkReportFailure s then ask ACtxErr else Ret None.

Definition storeCallTimeout : Z := if 0 <? sc_StoreCallTimeout s then sc_StoreCallTimeout s else 5 * Second.
Definition pollEvery : Z := if 0 <? sc_PollEvery s then sc_PollEvery s else 250 * Millisecond.
Definition deferralDelay : Z := storeCallTimeout + pollEvery.
Definition backoffOf (attempt : Z) : Z := match sc_Backoff s with Some f => f attempt | None => deterministicBackoff attempt end.
Definition durableText (e : error) : string := default "" (DurableErrorText e).

(** *** The call that settles the lease *)
Definition releasing (cause : err) (controlled : bool) (effects : list effect) : prog (bool * list effect) :=
  do! e := ReleaseGenerationChunk chunk (default "" (Error cause)) in
  let refused := if controlled && negb (is_nil e) && sc_ChunkReportFailure s then [EFailure] else [] in
  Ret (if negb (is_nil e) && negb (fenced e)
       then finish true false (if sc_ChunkReportFailure s then "release_failed" else "released") (effects ++ refused ++ report)
       else finish true false (if sc_ChunkReportFailure s && negb (is_nil e) then "stale_fenced" else "released") (effects ++ refused)).

Definition completing (effects : list effect) : prog (bool * list effect) :=
  do! e := CompleteGenerationChunk chunk in
  Ret (if negb (is_nil e) && negb (fenced e) then finish true false "completion_failed" (effects ++ report)
       else if fenced e then finish true false "stale_fenced" effects
       else if (c_priority (g_row chunk) =? GenerationPriorityStale) && cl_OnStaleLeaseTransition c
       then finish true false "completed" (effects ++ EObserved :: (if is_nil (tu_observed u) then [] else report))
       else finish true false "completed" effects).

Definition failing (e : error) (effects : list effect) : prog (bool * list effect) :=
  do! r := FailGenerationChunk chunk (durableText e) in
  Ret (if negb (is_nil r) && negb (fenced r) then finish true false "terminal_record_failed" (effects ++ report)
       else if fenced r then finish true false "stale_fenced" effects
       else finish true false "terminal" effects).

Definition deferring (e : error) (effects : list effect) : prog (bool * list effect) :=
  do! r := DeferGenerationChunk chunk (durableText e) deferralDelay in
  Ret (if negb (is_nil r) && negb (fenced r) then finish true false "deferral_failed" (effects ++ report)
       else if fenced r then finish true false "stale_fenced" effects
       else finish true false "deferred" effects).

Definition retrying (e : error) (effects : list effect) : prog (bool * list effect) :=
  let staleHandle := fenced e in
  let outcome := if staleHandle then "stale_fenced" else "handler_failed" in
  do! now := ask ANow in
  do! r := RetryGenerationChunk chunk (durableText e) (now + backoffOf (k_attempt (g_scope chunk) + 1)) (tu_newID u) in
  Ret (match r with
       | Ok _ => finish true false (if staleHandle then outcome else "retried") effects
       | Err e' =>
           if errorsIs (Some e') ErrGenerationExhausted then
             finish true false (if staleHandle then outcome else "exhausted")
               (effects ++ (if cl_OnExhausted c
                            then EExhausted :: (if negb (is_nil (tu_exhausted u)) && negb (errorsIs (tu_exhausted u) ErrGenerationStale) then report else [])
                            else []))
           else if fenced (Some e') then finish true false "stale_fenced" effects
           else finish true false outcome (effects ++ report)
       end).

(** What follows the join of the heartbeat.  A marker that was used must not
    be released. *)
Definition settle (marked : bool) (effects : list effect) : prog (bool * list effect) :=
  match tu_heartbeat u with
  | Some _ =>
      let e := tu_heartbeat u in
      Ret (finish true false (if fenced e then "stale_fenced" else "heartbeat_failed")
             (effects ++ (if errorsIs e ErrGenerationLeaseLost then [] else report)))
  | None =>
      do! ctx := ask ACtxErr in
      let controlled := if is_nil ctx && negb (is_nil (tu_handled u)) && cl_ControlledRelease c then Some (tu_controlled u) else None in
      match controlled with
      | Some (Err _) =>
          Ret (finish true false "handler_failed" (effects ++ EControlled :: (if sc_ChunkReportFailure s then [EFailure] else []) ++ report))
      | _ =>
          let effects := effects ++ match controlled with Some _ => [EControlled] | None => [] end in
          let released := match controlled with Some (Ok b) => b | _ => false end in
          match (match ctx with Some cause => Some cause | None => if released then tu_handled u else None end) with
          | Some cause =>
              if marked && tu_used u
              then Ret (finish true true "" (effects ++ (failChunkReport true).2))
              else releasing cause released effects
          | None =>
              let e := tu_handled u in
              if is_nil e then completing effects
              else if IsTerminal e then failing e effects
              else if IsDeferral e || errorsIs e ErrGenerationStale then deferring e effects
              else retrying e effects
          end
      end
  end.

(** The handler and the end of its heartbeat. *)
Definition handle (effects : list effect) : prog (bool * list effect) :=
  if cl_MarkerMeasurement c && tu_selected u then
    match tu_unavailable u with
    | Some _ => Ret (finish false true "" (effects ++ (failChunkReport true).2))
    | None =>
        do! ctx := ask ACtxErr in
        if negb (is_nil (tu_heartbeat u)) || tu_used u && (negb (tu_complete u) || negb (is_nil (tu_handled u)) || negb (is_nil ctx))
        then Ret (finish false true "" (effects ++ EHandled :: (failChunkReport true).2))
        else settle true (effects ++ [EHandled])
    end
  else if cl_TerminalHeartbeat c then
    match tu_unavailable u with
    | Some _ => Ret (finish false false "" (effects ++ (failChunkReport true).2))
    | None =>
        if tu_used u then Ret (finish false true "" (effects ++ EHandled :: (failChunkReport true).2))
        else settle false (effects ++ [EHandled])
    end
  else settle false (effects ++ [EHandled]).

(** Whether the owner turn and the lease are retained, and the effects. *)
Definition executeOwned : prog (bool * list effect) :=
  do! canceled := interrupted in
  if negb (is_nil canceled) then Ret (false, []) else
  let '(unreported, effects) := emitChunkLifecycleDuration "started" "running" 0 (tu_started u) in
  if unreported then Ret (false, effects) else
  do! canceled := interrupted in
  if negb (is_nil canceled) then Ret (false, effects) else
  match (if cl_BeforeLeaseHeartbeat c then tu_gate u else None) with
  | Some e =>
      if fenced (Some e) then Ret (finish true false "stale_fenced" effects) else
      do! ctx := ask ACtxErr in
      Ret (finish true false "pre_heartbeat_failed" (effects ++ (if is_nil ctx then report else [])))
  | None =>
      do! canceled := interrupted in
      if negb (is_nil canceled) then Ret (finish true false "" effects) else handle effects
  end.
End Execution.

(** ** The loops *)

(** One turn of a worker: what it claims, it executes; [None] found nothing. *)
Definition workTurn (s : Scheduler) (class : string) (c : Class) (index : Z) (u : turn) : prog (option (bool * list effect)) :=
  do! r := ClaimGenerationChunk class (sc_WorkerPrefix s +:+ "-" +:+ class +:+ "-" +:+ pretty index) in
  match r with
  | Ok chunk => do! x := executeOwned s c u chunk in Ret (Some x)
  | Err _ => Ret None
  end.
(** One turn of the planner and of the reaper. *)
Definition planTurn (class : string) (ids : list string) : prog (res err GenerationSchedule) := ExpandNextGenerationSchedule class ids.
Definition reapTurn (s : Scheduler) (class : string) : prog (Z * error) := reapStaleGenerationChunks class (sc_StaleAfter s).
End Runner.
