(* ===== verification/GenerationFenced.v ===== *)
(** * Generation schedules: what a fenced answer means

    An operation that settles a lease and answers that the lease is lost or the
    schedule stale does so for a reason: at some moment of the call the chunk
    was not running under that lease.  With the logic of [GenerationLogic]. *)
From stdpp Require Import sorting.
From Stdlib Require Import Ascii String.
From S2P Require Import Prelude.
From S2P Require Import GoStrings GoText JobErrors StoreErrors GenerationSpec GenerationStore GenerationInvariant GenerationLeases GenerationSteps.
From S2P Require Import GenerationFanout GenerationScopes GenerationSamples GenerationTheorems GenerationFences GenerationOps GenerationLogic GenerationRuns.
From S2P Require Import GenerationRunner.
#[local] Open Scope generation_scope.

Section Fenced.
Context `{CollisionFree}.
Implicit Types (w : world) (c : chunkRow) (t : tables).

(** Two results of one program. *)
Lemma ensures_and {A} (p : prog A) w (Q Q' : A -> world -> Prop) : ensures p w Q -> ensures p w Q' -> ensures p w (fun x w' => Q x w' /\ Q' x w').
Proof.
  revert w. induction p as [x|B a k IH]; intros w HE HE'; cbn in *; [done|]. intros w0 Hw. destruct (HE w0 Hw) as [HO HK], (HE' w0 Hw) as [_ HK'].
  split; [exact HO|]. intros w1 r HA. apply IH; auto.
Qed.

(** ** Leases that are over *)

(** The record of [chunk] does not run under its lease, or its identity is
    another record's. *)
Definition notHeld (chunk : GenerationChunk) w : Prop :=
  (forall c, t_chunks (w_tables w) !! g_ID chunk = Some c -> holds chunk c = false) \/
  (exists id c, id <> g_ID chunk /\ t_chunks (w_tables w) !! id = Some c /\ k_identity (c_scope c) = k_identity (g_scope chunk)).

Lemma not_running_held chunk c : c_status c <> ChunkRunning -> holds chunk c = false.
Proof. intros Hs. apply not_true_iff_false. by intros (? & _)%holds_lease. Qed.

Lemma endLease_over chunk f l g answer t a t' :
  endLease chunk (holds chunk) f l g answer t = Ok (a, t') -> (forall c, c_status (f c) <> ChunkRunning) ->
  forall c, t_chunks t' !! g_ID chunk = Some c -> holds chunk c = false.
Proof.
  unfold endLease. intros HS Hf c. destruct (t_chunks t !! g_ID chunk) as [c0|] eqn:Hc0; [|injection HS as <- <-; congruence].
  destruct (holds chunk c0) eqn:Eh; [|injection HS as <- <-; congruence]. destruct (createChunks _ _) as [t1|] eqn:HC; [|discriminate].
  injection HS as <- <-. cbn. rewrite (createChunks_keeps _ _ _ HC (g_ID chunk) (f c0)) by (cbn; apply lookup_insert_eq).
  intros [= <-]. by apply not_running_held.
Qed.

(** The statements by which an execution ends the lease of [chunk]. *)
Definition endsLeaseOf (chunk : GenerationChunk) (q : query) : Prop :=
  match q with
  | QComplete chunk' _ | QFail chunk' _ _ | QRetry chunk' _ _ _ _ _ | QRelease chunk' _ _ | QDefer chunk' _ _ _ => chunk' = chunk
  | _ => False
  end.

Lemma asked_over chunk q now w w1 : endsLeaseOf chunk q -> asked q now w = Some w1 -> notHeld chunk w1.
Proof.
  intros Hq HA%asked_tables. left. intros c. destruct q; try done; cbn in Hq; subst; cbn [run] in HA; apply after_Some in HA as [a HS];
    unfold completeGenerationChunkSQL, failGenerationChunkSQL, retryGenerationChunkSQL, releaseGenerationChunkSQL, deferGenerationChunkSQL in HS;
    (destruct (negb _); [discriminate|]); revert c; (eapply endLease_over; [exact HS|]); intros c; cbn; by destruct (isCurrent _ _).
Qed.

Lemma answered_over chunk (q : outside -> query) w0 w1 r :
  (forall o, endsLeaseOf chunk (q o)) -> answers (AQuery q) w0 w1 (Ok r) -> notHeld chunk w1.
Proof. intros Hq HA. apply (answered_transition q w0 w1 r (fun _ => notHeld chunk) HA). intros o now. by apply asked_over. Qed.

(** ** Errors that come from outside are no fences *)
Lemma foreign_fenced e : foreign e -> fenced (Some e) = false.
Proof. unfold fenced. by intros (-> & -> & _). Qed.
Lemma during_fenced prefix e : foreign e -> fenced (Some (during prefix e)) = false.
Proof. intros He. by apply foreign_fenced, during_foreign. Qed.

(** What a lookup by identity reads, and why it may fail. *)
Definition identityPost (identity : string) w (r : res err GenerationChunk) w1 : Prop :=
  Inv w1 /\ later w w1 /\
  match r with
  | Ok g => sometime (fun w0 => t_chunks (w_tables w0) !! g_ID g = Some (g_row g) /\ k_identity (g_scope g) = identity) w w1
  | Err e => foreign e
  end.
Lemma ensures_identityPost identity w : Inv w -> ensures (generationChunkByIdentity identity) w (identityPost identity w).
Proof.
  intros HI. apply ensures_bind, ensures_retried; [exact HI|done| |].
  - intros w1 w2 [[id c]|] Hw1 HI1 HA Hw2 HI2; (split; [exact HI2|]; split; [exact Hw2|]); [|done].
    destruct HA as [-> [(o & now & _ & [= E])|(e & ? & _)]]; [|discriminate]. symmetry in E. apply sometime_now; [exact Hw1|].
    split; [by eapply readIdentity|by eapply readIdentity_eq].
  - intros w1 w2 w3 e HA%read_foreign Hw3 HI3. split; [exact HI3|]. split; [exact Hw3|]. by apply during_foreign.
Qed.

Lemma ensures_schedule_foreign repository stage w :
  Inv w -> ensures (GetGenerationSchedule repository stage) w (fun r w1 => forall e, r = Err e -> foreign e).
Proof.
  intros HI. unfold GetGenerationSchedule. destruct (_ || _); [by intros e [= <-]|]. apply ensures_bind, ensures_retried; [exact HI|done| |].
  - intros w1 w2 [s|] _ _ _ _ _ e; [|by intros [= <-]]. by destruct (ValidateGenerationSchedule s); intros [= <-].
  - intros w1 w2 w3 e HA%read_foreign _ _ e' [= <-]. by apply during_foreign.
Qed.

Lemma ensures_byDigest_foreign digest w : Inv w -> ensures (generationScheduleByDigest digest) w (fun r w1 => forall e, r = Err e -> foreign e).
Proof.
  intros HI. unfold generationScheduleByDigest. destruct (negb _); [by intros e [= <-]|]. apply ensures_bind, ensures_ask; [exact HI|done|].
  intros w1 w2 [[s|]|e] _ _ HA _ _ e'; [done|by intros [= <-]|]. intros [= <-]. by apply during_foreign, (read_foreign _ _ _ _ HA).
Qed.

(** ** The settling operations *)

(** An answer that is a fence has its reason. *)
Definition fencedOut (chunk : GenerationChunk) w (e : error) w' : Prop :=
  fenced e = true -> validGenerationChunkLease chunk = false \/ sometime (notHeld chunk) w w'.

Lemma fencedOut_foreign chunk w e w' : foreign e -> fencedOut chunk w (Some e) w'.
Proof. intros He Hf. by rewrite foreign_fenced in Hf. Qed.
Lemma fencedOut_over chunk w e w' : later w w' -> notHeld chunk w' -> fencedOut chunk w e w'.
Proof. intros Hw HN _. right. by apply sometime_now. Qed.
Lemma fencedOut_invalid chunk w e w' : negb (validGenerationChunkLease chunk) = true -> fencedOut chunk w e w'.
Proof. intros Hv%negb_true_iff _. by left. Qed.

(** One statement under the lease. *)
Lemma ensures_fencedOut chunk (q : outside -> query) prefix w :
  Inv w -> (forall o, endsLeaseOf chunk (q o)) -> (forall w0 o, permitted (q o) w0) ->
  ensures (do! r := queryGenerationSchedule (AQuery q) in Ret (match r with Err e => Some (during prefix e) | Ok a => settled a end)) w (fencedOut chunk w).
Proof.
  intros HI Hq Hp. apply ensures_bind, ensures_retried; [exact HI|intros w0 _ _ o _; apply Hp| |].
  - intros w0 w1 r _ _ HA Hw1 _. apply fencedOut_over; [exact Hw1|by eapply answered_over].
  - intros w0 w1 w2 e HA%query_foreign _ _. by apply fencedOut_foreign, during_foreign.
Qed.

Lemma ensures_fail_fenced chunk message w : Inv w -> ensures (FailGenerationChunk chunk message) w (fencedOut chunk w).
Proof. intros HI. unfold FailGenerationChunk. destruct (negb _) eqn:Ev; [by apply fencedOut_invalid|]. by apply ensures_fencedOut. Qed.

Lemma ensures_release_fenced chunk reason w : Inv w -> ensures (ReleaseGenerationChunk chunk reason) w (fencedOut chunk w).
Proof. intros HI. unfold ReleaseGenerationChunk. destruct (negb _) eqn:Ev; [by apply fencedOut_invalid|]. by apply ensures_fencedOut. Qed.

Lemma ensures_deferAttempts_fenced chunk reason delay left w w0 :
  Inv w -> later w0 w -> ensures (deferAttempts chunk reason delay left) w (fencedOut chunk w0).
Proof.
  revert w. induction left as [|left IH]; intros w HI Hw; cbn [deferAttempts]; apply ensures_bind, ensures_ask; auto; try done; intros _ w1 now _ _ _ Hw1 HI1;
    apply ensures_bind, ensures_ask; auto; try done; intros w2 w3 [r|e] Hw2 _ HA Hw3 HI3.
  1, 3: apply fencedOut_over; [by transitivity w; [|transitivity w1]|by eapply answered_over; [|exact HA]].
  all: apply query_foreign in HA; destruct (negb _); [by apply fencedOut_foreign, during_foreign|];
    apply ensures_bind, ensures_ask; auto; try done; intros w4 w5 [e'|] _ _ _ Hw5 HI5; try by apply fencedOut_foreign, during_foreign.
  destruct left; [by apply fencedOut_foreign, during_foreign|]. apply IH; [exact HI5|]. transitivity w; [exact Hw|]. transitivity w1; [exact Hw1|]. by transitivity w3.
Qed.

Lemma ensures_defer_fenced chunk reason delay w : Inv w -> ensures (DeferGenerationChunk chunk reason delay) w (fencedOut chunk w).
Proof.
  intros HI. unfold DeferGenerationChunk. destruct (negb _) eqn:Ev; [by apply fencedOut_invalid|]. destruct (_ <=? _); [by apply fencedOut_foreign|].
  apply ensures_deferAttempts_fenced; [exact HI|apply later_refl].
Qed.

(** What reconciling a completion reads as lost or stale is not held. *)
Lemma ensures_reconcile_fenced chunk w w0 :
  Inv w -> later w0 w -> ensures (reconcileGenerationCompletion chunk) w (fun p w' => fenced p.2 = true -> sometime (notHeld chunk) w0 w').
Proof.
  intros HI Hw. apply ensures_bind. eapply ensures_mono; [by apply ensures_identityPost|]. intros [g|e] w1 (HI1 & Hw1 & HR).
  2: { cbn. intros Hf. by rewrite foreign_fenced in Hf. }
  assert (Hread : forall c, g_row g = c -> (g_ID g = g_ID chunk -> holds chunk c = false) -> forall w', later w1 w' -> sometime (notHeld chunk) w0 w').
  { intros c Ec Hno w' Hw'. destruct HR as (w2 & Hw2 & [Hc Hk] & Hw21). exists w2. split; [by transitivity w|]. split; [|by transitivity w1].
    destruct (decide (g_ID g = g_ID chunk)) as [E|E]; [left|right; exists (g_ID g), (g_row g); auto].
    intros c' Hc'. rewrite E, Hc' in Hc. injection Hc as ->. rewrite Ec. by apply Hno. }
  destruct (negb (String.eqb (g_ID g) (g_ID chunk)) || _) eqn:Eid.
  { intros _. apply (Hread (g_row g) eq_refl); [|apply later_refl]. intros E. rewrite E, String.eqb_refl in Eid. cbn in Eid.
    apply negb_true_iff, bool_decide_eq_false_1 in Eid. apply not_true_iff_false. by intros (_ & _ & _ & ?)%holds_lease. }
  assert (Hstopped : c_status (g_row g) <> ChunkRunning -> forall w', later w1 w' -> sometime (notHeld chunk) w0 w').
  { intros Hs. apply (Hread (g_row g) eq_refl). intros _. by apply not_running_held. }
  destruct (c_status (g_row g)) eqn:Est; try (intros _; by apply Hstopped; [|apply later_refl]).
  - cbv zeta. cbn [ensures]. destruct (negb (String.eqb (c_leaseToken _) _) || negb _) eqn:El; [intros _|done]. apply (Hread (g_row g) eq_refl); [|apply later_refl]. intros _.
    apply not_true_iff_false. intros (_ & Et & Eb & _)%holds_lease. by rewrite Et, Eb, !String.eqb_refl in El.
  - cbv zeta. destruct (negb (String.eqb (c_claimedBy _) _)); [cbn [ensures]; intros _; by apply Hstopped; [|apply later_refl]|].
    apply ensures_bind. eapply ensures_mono; [apply ensures_later; [exact HI1|]; by apply ensures_schedule_foreign|]. cbn [ensures].
    intros [s|e] w2 (He & Hw2 & _); [destruct (negb (String.eqb (s_Digest s) _) || _); [intros _; by apply Hstopped|done]|].
    cbn. intros Hf. by rewrite (foreign_fenced e (He e eq_refl)) in Hf.
Qed.

Lemma ensures_complete_fenced chunk w : Inv w -> ensures (CompleteGenerationChunk chunk) w (fencedOut chunk w).
Proof.
  intros HI. unfold CompleteGenerationChunk. destruct (negb _) eqn:Ev; [by apply fencedOut_invalid|].
  assert (Hrec : forall w1 (e0 : error), later w w1 -> Inv w1 -> (forall w2, later w1 w2 -> fencedOut chunk w e0 w2) ->
    ensures (do! p := reconcileGenerationCompletion chunk in
             Ret (if p.1 then None else if errorsIs p.2 ErrGenerationStale || errorsIs p.2 ErrGenerationLeaseLost then p.2 else e0)) w1 (fencedOut chunk w)).
  { intros w1 e0 Hw1 HI1 He. apply ensures_bind. eapply ensures_mono; [apply ensures_later; [exact HI1|]; by apply (ensures_reconcile_fenced chunk w1 w)|].
    intros [applied e] w2 (Hf & Hw2 & _). cbn in *. destruct applied; [done|]. destruct (_ || _); [|by apply He]. intros Hf'. right. by apply Hf. }
  apply ensures_bind, ensures_retried; [exact HI|done| |].
  - intros w0 w1 r _ _ HA Hw1 HI1. apply answered_over with (chunk := chunk) in HA; [|done].
    destruct (negb (ownedReply r)); [|by apply fencedOut_over]. apply Hrec; [exact Hw1|exact HI1|]. intros w2 Hw2 _. right. by exists w1.
  - intros w0 w1 w2 e HA%query_foreign Hw2 HI2. apply Hrec; [exact Hw2|exact HI2|]. intros w3 _. by apply fencedOut_foreign, during_foreign.
Qed.

Lemma ensures_retry_fenced chunk message notBefore newID w :
  Inv w -> ensures (RetryGenerationChunk chunk message notBefore newID) w (fun r w' => forall e, r = Err e -> fencedOut chunk w (Some e) w').
Proof.
  intros HI. unfold RetryGenerationChunk. destruct (negb _) eqn:Ev; [intros e _; by apply fencedOut_invalid|].
  destruct (isZero notBefore); [intros e [= <-]; by apply fencedOut_foreign|].
  apply ensures_bind. eapply ensures_mono; [apply ensures_and; [|by apply ensures_byDigest_foreign];
    refine (ensures_byDigest _ w (fun r w1 => later w w1 /\ Inv w1 /\ forall s, r = Ok s -> t_schedules (w_tables w1) !! k_scheduleDigest (g_scope chunk) = Some s) HI _ _);
    [intros w1 s Hw1 HI1 Hs; split_and!; auto; by intros s' [= <-]|by intros w1 e Hw1 HI1 _]|].
  intros [s|e] w1 [(Hw1 & HI1 & Hs) He]; [|intros e' [= <-]; by apply fencedOut_foreign, He]. specialize (Hs s eq_refl).
  cbv zeta. destruct (_ || (_ <=? _)); [intros e [= <-]; by apply fencedOut_foreign|].
  assert (Hrec : forall w2 (e0 : err), later w w2 -> Inv w2 -> (forall w3, later w2 w3 -> fencedOut chunk w (Some e0) w3) ->
    ensures (do! exhausted := reconcileGenerationExhaustion chunk (sp_MaxAttempts (s_spec s)) message in
             Ret (Err (if exhausted then sentinel ErrGenerationExhausted else e0))) w2
      (fun (r : res err GenerationChunk) w' => forall e, r = Err e -> fencedOut chunk w (Some e) w')).
  { intros w2 e0 Hw2 HI2 He0. apply ensures_bind, ensures_reconcileExhaustion; [exact HI2| |].
    - intros w3 _ _ _ e [= <-] Hf. discriminate.
    - intros w3 Hw3 _ e [= <-]. by apply He0. }
  apply ensures_bind, ensures_retried; [exact HI1|intros w0 _ _ o _; by apply (retry_permitted chunk w1)| |].
  - intros w2 w3 r _ _ HA Hw3 HI3. assert (Hw : later w w3) by by transitivity w1. apply answered_over with (chunk := chunk) in HA; [|done].
    destruct (settled r) as [e|]; [destruct (ownedReply r); [intros e' _; by apply fencedOut_over|]|].
    + apply Hrec; [exact Hw|exact HI3|]. intros w4 Hw4 _. right. by exists w3.
    + destruct (match r with RTransition _ => _ | _ => false end); [intros e' _; by apply fencedOut_over|].
      eapply ensures_mono; [by apply ensures_identityPost|]. intros [g|e] w4 (_ & _ & HP) e' [= <-]. by apply fencedOut_foreign.
  - intros w2 w2' w3 e HA%query_foreign Hw3 HI3. apply Hrec; [by transitivity w1|exact HI3|]. intros w4 _. by apply fencedOut_foreign, during_foreign.
Qed.
End Fenced.
