(* ===== verification/GenerationRunnerTheorems.v ===== *)
(** * Generation schedules: what the scheduler guarantees

    What an execution reports as settled is true of the database, every turn of
    a scheduler keeps the rules the invariants of the schedules rest on, and
    the schedulers of a process stay within its admission. *)
From stdpp Require Import sorting pretty.
From Stdlib Require Import Ascii String.
From S2P Require Import Prelude.
From S2P Require Import GoStrings GoText JobErrors StoreErrors GenerationSpec GenerationStore GenerationInvariant GenerationLeases GenerationSteps.
From S2P Require Import GenerationFanout GenerationScopes GenerationSamples GenerationTheorems GenerationOps GenerationLogic GenerationRuns GenerationRunner GenerationFenced.
#[local] Open Scope generation_scope.

Section Truth.
Context `{CollisionFree}.
Implicit Types (w : world) (t : tables).

(** ** Giving a chunk back *)

(** The record of [chunk] is pending again, unclaimed, with a message. *)
Definition pendingAgain (chunk : GenerationChunk) (message : string) w : Prop :=
  exists c, t_chunks (w_tables w) !! g_ID chunk = Some c /\ c_scope c = g_scope chunk /\ c_status c = ChunkPending /\
    c_claimedBy c = "" /\ c_error c = message.

Lemma givenBack_recorded q chunk live message (notBefore : Z) now w w1 :
  q = QRelease chunk live message \/ q = QDefer chunk live message notBefore ->
  asked q now w = Some w1 -> settled (replyTo q now (w_tables w)) = None -> pendingAgain chunk message w1.
Proof.
  intros Hq HA%asked_tables (_ & a & Er & Ho & Hc)%settled_owned.
  destruct Hq as [-> | ->]; cbn [run replyTo] in *; apply after_Some in HA as [b HS]; rewrite HS in Er; injection Er as ->;
    unfold releaseGenerationChunkSQL, deferGenerationChunkSQL in HS; (destruct (negb _); [discriminate|]);
    destruct (endLease_row _ _ _ _ _ _ _ _ _ HS (fun b => eq_refl) Ho) as (c & _ & Hh & Hc' & ->); cbn in Hc; rewrite Hc in Hc';
    apply holds_lease in Hh as (_ & _ & Hby & Hk); eexists; (split; [exact Hc'|]); cbn; auto.
Qed.

Lemma ensures_release chunk reason w :
  Inv w -> ensures (ReleaseGenerationChunk chunk reason) w (fun e w' => e = None -> sometime (pendingAgain chunk (boundedGenerationError reason)) w w').
Proof.
  intros HI. unfold ReleaseGenerationChunk. destruct (negb _); [done|]. apply ensures_bind, ensures_retry; [exact HI|done| |done].
  intros w0 w1 r Hw0 HI0 HA Hw1 HI1 Hset. apply sometime_now; [exact Hw1|]. revert Hset.
  apply (answered_transition _ _ _ _ (fun r w1 => settled r = None -> pendingAgain chunk (boundedGenerationError reason) w1) HA).
  intros o now HA'. eapply (givenBack_recorded _ _ _ _ 0); [by left|exact HA'].
Qed.

Lemma ensures_deferAttempts chunk reason delay left w w0 :
  Inv w -> later w0 w ->
  ensures (deferAttempts chunk reason delay left) w (fun e w' => e = None -> sometime (pendingAgain chunk (boundedGenerationError reason)) w0 w').
Proof.
  revert w. induction left as [|left IH]; intros w HI Hw; cbn [deferAttempts]; apply ensures_bind, ensures_ask; auto; try done; intros _ w1 now _ _ _ Hw1 HI1;
    apply ensures_bind, ensures_ask; auto; try done; intros w2 w3 [r|e] Hw2 _ HA Hw3 HI3.
  1, 3: intros Hset; apply sometime_now; [by transitivity w; [|transitivity w1]|]; revert Hset;
    apply (answered_transition _ _ _ _ (fun r w1 => settled r = None -> pendingAgain chunk (boundedGenerationError reason) w1) HA);
    intros o now' HA'; eapply givenBack_recorded; [right; reflexivity|exact HA'].
  all: destruct (negb _); try done; apply ensures_bind, ensures_ask; auto; try done; intros w4 w5 [e'|] _ _ _ Hw5 HI5; try done.
  destruct left; [done|]. apply IH; [exact HI5|]. transitivity w; [exact Hw|]. transitivity w1; [exact Hw1|]. by transitivity w3.
Qed.

Lemma ensures_defer chunk reason delay w :
  Inv w -> ensures (DeferGenerationChunk chunk reason delay) w (fun e w' => e = None -> sometime (pendingAgain chunk (boundedGenerationError reason)) w w').
Proof.
  intros HI. unfold DeferGenerationChunk. destruct (negb _); [done|]. destruct (_ <=? _); [done|]. apply ensures_deferAttempts; [exact HI|apply later_refl].
Qed.

(** ** Reports *)
Section Execution.
Context (s : Scheduler) (c : Class) (u : turn) (chunk : GenerationChunk) (w0 : world).

(** What each outcome of a settled report says, [ran] whether the handler was
    called.  Those of a transition say that the record made it, and of which
    kind the handler's error was; [stale_fenced] why it was fenced; those of a
    failure that the transition asked for is not confirmed, and which it was.
    Without exact reporting a release is reported whether or not it was
    stored. *)
Definition message : string := boundedGenerationError (GenerationRunner.durableText (tu_handled u)).
Definition terminalError : Prop := IsTerminal (tu_handled u) = true.
Definition deferralError : Prop := IsTerminal (tu_handled u) = false /\ (IsDeferral (tu_handled u) = true \/ errorsIs (tu_handled u) ErrGenerationStale = true).
Definition retryError : Prop :=
  tu_handled u <> None /\ IsTerminal (tu_handled u) = false /\ IsDeferral (tu_handled u) = false /\ fenced (tu_handled u) = false.

Inductive tells (ran : bool) w : string -> Prop :=
  | tells_completed : ran = true -> tu_handled u = None -> sometime (recorded chunk ChunkDone) w0 w -> tells ran w "completed"
  | tells_terminal : ran = true -> terminalError -> sometime (recordedError chunk message) w0 w -> tells ran w "terminal"
  | tells_deferred : ran = true -> deferralError -> sometime (pendingAgain chunk message) w0 w -> tells ran w "deferred"
  | tells_retried successor :
      ran = true -> retryError -> sometime (recordedError chunk message) w0 w -> sometime (succeeded chunk successor) w0 w -> tells ran w "retried"
  | tells_exhausted :
      ran = true -> retryError -> sometime (recordedError chunk message) w0 w -> sometime (lastAttempt chunk) w0 w -> tells ran w "exhausted"
  | tells_released :
      ran = true -> (sc_ChunkReportFailure s = true -> exists reason, sometime (pendingAgain chunk reason) w0 w) -> tells ran w "released"
  | tells_fenced_gate e : ran = false -> cl_BeforeLeaseHeartbeat c = true -> tu_gate u = Some e -> fenced (Some e) = true -> tells ran w "stale_fenced"
  | tells_fenced :
      ran = true ->
      fenced (tu_heartbeat u) = true \/ fenced (tu_handled u) = true \/ validGenerationChunkLease chunk = false \/ sometime (notHeld chunk) w0 w ->
      tells ran w "stale_fenced"
  | tells_gate_failed e : ran = false -> cl_BeforeLeaseHeartbeat c = true -> tu_gate u = Some e -> fenced (Some e) = false -> tells ran w "pre_heartbeat_failed"
  | tells_heartbeat_failed e : ran = true -> tu_heartbeat u = Some e -> fenced (Some e) = false -> tells ran w "heartbeat_failed"
  | tells_unreleased : ran = true -> sc_ChunkReportFailure s = true -> tells ran w "release_failed"
  | tells_uncompleted : ran = true -> tu_handled u = None -> tells ran w "completion_failed"
  | tells_unrecorded : ran = true -> terminalError -> tells ran w "terminal_record_failed"
  | tells_undeferred : ran = true -> deferralError -> tells ran w "deferral_failed"
  | tells_handler_failed : ran = true -> tu_handled u <> None -> tells ran w "handler_failed".

(** A report that the reconciliation failed says the same as without, and
    that it failed.  One that says nothing else comes from an execution whose
    gate was interrupted: its handler never ran, and nothing is settled. *)
Definition says (ran : bool) (outcome : string) w : Prop :=
  tells ran w outcome \/
  (exists base, outcome = base +:+ "_reconciliation_failed" /\ cl_AfterSettlement c = true /\ tu_after u <> None /\
    (tells ran w base \/ base = "" /\ ran = false /\ sc_ChunkReportFailure s = true)).

(** Nothing is reported as settled. *)
Definition quiet (effects : list effect) : Prop := forall outcome, EEmitted "settled" outcome ∉ effects.
#[export] Instance effect_eq_dec : EqDecision effect.
Proof. solve_decision. Defined.
Definition ran (effects : list effect) : bool := bool_decide (EHandled ∈ effects).
(** What is reported as settled is true, and what keeps its turn reports nothing. *)
Definition reported (r : bool * list effect) w : Prop :=
  (forall outcome, EEmitted "settled" outcome ∈ r.2 -> says (ran r.2) outcome w) /\ (r.1 = true -> quiet r.2).

Lemma quiet_nil : quiet [].
Proof. intros o. apply not_elem_of_nil. Qed.
Lemma quiet_app a b : quiet a -> quiet b -> quiet (a ++ b).
Proof. intros Ha Hb o [?|?]%elem_of_app; [by apply (Ha o)|by apply (Hb o)]. Qed.
Lemma quiet_cons e a : (forall o, e <> EEmitted "settled" o) -> quiet a -> quiet (e :: a).
Proof. intros He Ha o [?|?]%elem_of_cons; [by apply (He o)|by apply (Ha o)]. Qed.
Lemma quiet_report : quiet (report s).
Proof. unfold report. destruct (sc_Report s); [apply quiet_cons; [done|]|]; apply quiet_nil. Qed.
Lemma quiet_fail b : quiet (failChunkReport s b).2.
Proof. unfold failChunkReport. destruct (_ || _); [|apply quiet_cons; [done|]]; apply quiet_nil. Qed.

Lemma emitted_effects event outcome ms sink o :
  EEmitted "settled" o ∈ (emitChunkLifecycleDuration s chunk event outcome ms sink).2 -> event = "settled" /\ o = outcome.
Proof.
  unfold emitChunkLifecycleDuration. destruct (_ && _); [intros []%elem_of_nil|]. destruct (_ && _); [intros []%quiet_fail|].
  destruct (_ <? _); [intros []%quiet_fail|]. destruct (negb _); [by intros [= -> ->]%list_elem_of_singleton|].
  pose proof (quiet_fail match sink with SinkOk => false | _ => true end) as Hq. destruct (failChunkReport s _) as [failed effects]. cbn in *.
  intros [[= -> ->]|Ho]%elem_of_cons; [done|]. by destruct (Hq o).
Qed.

(** No report calls the handler. *)
Lemma unhandled_report : EHandled ∉ report s.
Proof. unfold report. destruct (sc_Report s); [by intros [=]%list_elem_of_singleton|apply not_elem_of_nil]. Qed.
Lemma unhandled_fail b : EHandled ∉ (failChunkReport s b).2.
Proof. unfold failChunkReport. destruct (_ || _); [apply not_elem_of_nil|by intros [=]%list_elem_of_singleton]. Qed.
Lemma unhandled_emit event outcome ms sink : EHandled ∉ (emitChunkLifecycleDuration s chunk event outcome ms sink).2.
Proof.
  unfold emitChunkLifecycleDuration. destruct (_ && _); [apply not_elem_of_nil|]. destruct (_ && _); [apply unhandled_fail|].
  destruct (_ <? _); [apply unhandled_fail|]. destruct (negb _); [by intros [=]%list_elem_of_singleton|].
  pose proof (unhandled_fail match sink with SinkOk => false | _ => true end) as Hq. destruct (failChunkReport s _) as [failed effects].
  by intros [[=]|?]%elem_of_cons.
Qed.

Lemma ran_app effects more : EHandled ∉ more -> ran (effects ++ more) = ran effects.
Proof. intros Hm. unfold ran. apply bool_decide_ext. rewrite elem_of_app. tauto. Qed.
Lemma ran_handled effects : EHandled ∈ effects -> ran effects = true.
Proof. apply bool_decide_eq_true_2. Qed.
Lemma ran_unhandled effects : EHandled ∉ effects -> ran effects = false.
Proof. apply bool_decide_eq_false_2. Qed.

(** The end of an execution reports its outcome, or that its reconciliation
    failed. *)
Lemma finish_reported joined retained outcome effects w :
  quiet effects -> (outcome <> "" -> tells (ran effects) w outcome) ->
  (outcome = "" -> joined = false \/ retained = true \/ (ran effects = false /\ sc_ChunkReportFailure s = true)) ->
  (retained = true -> outcome = "") -> reported (finish s c u chunk joined retained outcome effects) w.
Proof.
  intros Hq Ht He Hret.
  assert (Hend : forall outcome' after, quiet after -> EHandled ∉ after -> (outcome' <> "" -> says (ran effects) outcome' w) -> (retained = true -> outcome' = "") ->
    reported (retained, effects ++ after ++ (if timingEnabled s && negb (String.eqb outcome' "")
      then (emitChunkLifecycleDuration s chunk "settled" outcome' (tu_milliseconds u) (tu_settled u)).2 else [])) w).
  { intros outcome' after Ha Hu Ho Hr. split; cbn [fst snd].
    - rewrite ran_app by (apply not_elem_of_app; split; [exact Hu|]; destruct (_ && _); [apply unhandled_emit|apply not_elem_of_nil]).
      intros o [?|[?|Hin]%elem_of_app]%elem_of_app; [by destruct (Hq o)|by destruct (Ha o)|].
      destruct (timingEnabled s && _) eqn:Et; [|by apply elem_of_nil in Hin]. apply emitted_effects in Hin as [_ ->].
      apply andb_true_iff in Et as [_ Et%negb_true_iff%String.eqb_neq]. by apply Ho.
    - intros ->. rewrite (Hr eq_refl), String.eqb_refl, andb_false_r, app_nil_r. by apply quiet_app. }
  unfold finish. destruct (cl_AfterSettlement c && joined && negb retained) eqn:Ej.
  2: { apply Hend; [apply quiet_nil|apply not_elem_of_nil|intros Hne; left; by apply Ht|exact Hret]. }
  apply andb_true_iff in Ej as [[Hc ->]%andb_true_iff ->%negb_true_iff]. destruct (tu_after u) as [e|] eqn:Eu.
  - apply Hend; [| |intros _; right|discriminate].
    + apply quiet_cons; [done|]. apply quiet_app; [apply quiet_report|]. destruct (sc_ChunkReportFailure s); [apply quiet_cons; [done|]|]; apply quiet_nil.
    + intros [[=]|[?%unhandled_report|Hin]%elem_of_app]%elem_of_cons; [done|].
      destruct (sc_ChunkReportFailure s); [by apply list_elem_of_singleton in Hin|by apply elem_of_nil in Hin].
    + exists outcome. split; [done|]. split; [exact Hc|]. split; [by rewrite Eu|].
      destruct (decide (outcome = "")) as [E|E]; [right; split; [exact E|]|left; by apply Ht]. by destruct (He E) as [?|[?|?]].
  - apply Hend; [apply quiet_cons; [done|apply quiet_nil]|by intros [=]%list_elem_of_singleton|intros Hne; left; by apply Ht|discriminate].
Qed.

(** An end without an outcome: the turn is retained or was not joined. *)
Lemma finish_silent joined retained effects w :
  joined = false \/ retained = true -> quiet effects -> reported (finish s c u chunk joined retained "" effects) w.
Proof. intros Hj Hq. apply finish_reported; [exact Hq|done|tauto|done]. Qed.

Ltac quieten := repeat first [assumption | apply quiet_nil | apply quiet_report | apply quiet_fail | apply quiet_app | (apply quiet_cons; [done|]) | case_match].
Ltac silent := apply finish_silent; [auto|quieten].
(** The handler was called before. *)
Ltac handled := apply ran_handled; repeat (apply elem_of_app; left); first [assumption | apply elem_of_app; right; by left].
(** An outcome that is told, by its constructor. *)
Ltac told constructor := apply finish_reported; [quieten|intros _; eapply constructor; [handled|..]|discriminate|done].

(** What held at some moment since [w] did since [w0]. *)
Lemma sometime_since (P : world -> Prop) w w' : later w0 w -> sometime P w w' -> sometime P w0 w'.
Proof. intros Hw (w1 & Hw1 & HP & Hw2). exists w1. split_and!; auto. by transitivity w. Qed.

(** A store call that answered with a fence tells why. *)
Lemma fencedOut_tells effects w e w' :
  later w0 w -> ran effects = true -> fencedOut chunk w e w' -> fenced e = true -> tells (ran effects) w' "stale_fenced".
Proof.
  intros Hw Hr Ho Hf. apply tells_fenced; [exact Hr|]. right; right. destruct (Ho Hf) as [?|?]; [by left|right; by eapply sometime_since].
Qed.
Ltac fenced_told := apply finish_reported; [quieten|intros _; eapply fencedOut_tells; [eassumption|handled|eassumption|assumption]|discriminate|done].

Section Settling.
Context (effects : list effect) (w : world) (HI : Inv w) (Hw : later w0 w) (Hq : quiet effects) (Hran : EHandled ∈ effects).

Lemma ensures_releasing cause controlled : ensures (releasing s c u chunk cause controlled effects) w reported.
Proof.
  apply ensures_bind. eapply ensures_mono; [apply ensures_and; [by apply ensures_release|by apply ensures_release_fenced]|]. intros e w' [He Hf]. cbn.
  destruct e as [e|]; cbn [is_nil negb andb].
  - destruct (fenced (Some e)) eqn:Ef; cbn [negb]; rewrite ?andb_true_r; destruct (sc_ChunkReportFailure s) eqn:Ex.
    + fenced_told.
    + told tells_released. intros ?. congruence.
    + told tells_unreleased. exact Ex.
    + told tells_released. intros ?. congruence.
  - rewrite !andb_false_r. told tells_released. intros _. exists (boundedGenerationError (default "" (Error cause))). by apply (sometime_since _ w), He.
Qed.

Lemma ensures_completing : tu_handled u = None -> ensures (completing s c u chunk effects) w reported.
Proof.
  intros Hu. apply ensures_bind. eapply ensures_mono; [apply ensures_and; [by apply ensures_complete|by apply ensures_complete_fenced]|]. intros e w' [He Hf]. cbn.
  destruct e as [e|]; cbn [is_nil negb andb].
  - destruct (fenced (Some e)) eqn:Ef; cbn [negb]; [fenced_told|by told tells_uncompleted].
  - cbn [fenced errorsIs chain from_option existsb orb]. destruct (_ && _); told tells_completed; first [exact Hu|by apply (sometime_since _ w), He].
Qed.

Lemma ensures_failing : terminalError -> ensures (failing s c u chunk (tu_handled u) effects) w reported.
Proof.
  intros Ht. apply ensures_bind. eapply ensures_mono; [apply ensures_and; [by apply ensures_fail|by apply ensures_fail_fenced]|]. intros e w' [He Hf]. cbn.
  destruct e as [e|]; cbn [is_nil negb andb].
  - destruct (fenced (Some e)) eqn:Ef; cbn [negb]; [fenced_told|by told tells_unrecorded].
  - cbn [fenced errorsIs chain from_option existsb orb]. told tells_terminal; [exact Ht|by apply (sometime_since _ w), He].
Qed.

Lemma ensures_deferring : deferralError -> ensures (deferring s c u chunk (tu_handled u) effects) w reported.
Proof.
  intros Hd. apply ensures_bind. eapply ensures_mono; [apply ensures_and; [by apply ensures_defer|by apply ensures_defer_fenced]|]. intros e w' [He Hf]. cbn.
  destruct e as [e|]; cbn [is_nil negb andb].
  - destruct (fenced (Some e)) eqn:Ef; cbn [negb]; [fenced_told|by told tells_undeferred].
  - cbn [fenced errorsIs chain from_option existsb orb]. told tells_deferred; [exact Hd|by apply (sometime_since _ w), He].
Qed.

(** [errors.Is] finds the exhaustion in the error as the store returns it. *)
Lemma ensures_retrying :
  tu_handled u <> None -> IsTerminal (tu_handled u) = false -> IsDeferral (tu_handled u) = false ->
  ensures (retrying s c u chunk (tu_handled u) effects) w reported.
Proof.
  intros Hu Ht Hd. apply ensures_bind, ensures_ask; [exact HI|done|]. intros w1 w2 now _ _ _ Hw2 HI2. assert (Hw02 : later w0 w2) by by transitivity w.
  apply ensures_bind. eapply ensures_mono; [apply ensures_and; [by apply ensures_retryChunk|by apply ensures_retry_fenced]|]. intros r w' [Hr Hf]. cbn [ensures].
  assert (Hsince : forall P, sometime P w2 w' -> sometime P w0 w') by (intros P; by apply sometime_since).
  assert (Hstale : fenced (tu_handled u) = true -> forall more, quiet more -> EHandled ∉ more -> reported (finish s c u chunk true false "stale_fenced" (effects ++ more)) w').
  { intros Hh more Hm Hmu. apply finish_reported; [by apply quiet_app| |discriminate|done]. intros _. apply tells_fenced; [|by right; left].
    rewrite ran_app by exact Hmu. by apply ran_handled. }
  destruct r as [successor|e].
  - destruct Hr as [Hr1 Hr2]. destruct (fenced (tu_handled u)) eqn:Eh.
    + rewrite <- (app_nil_r effects). apply Hstale; [done|apply quiet_nil|apply not_elem_of_nil].
    + told tells_retried; [by repeat split|by apply Hsince|apply Hsince; exact Hr2].
  - destruct (errorsIs (Some e) ErrGenerationExhausted) eqn:Ee.
    + destruct (Hr Ee) as [Hr1 Hr2]. destruct (fenced (tu_handled u)) eqn:Eh.
      * apply Hstale; [done|quieten|]. destruct (cl_OnExhausted c); [|apply not_elem_of_nil].
        intros [[=]|Hin]%elem_of_cons. destruct (_ && _) in Hin; [by apply unhandled_report in Hin|by apply elem_of_nil in Hin].
      * told tells_exhausted; [by repeat split|by apply Hsince|by apply Hsince].
    + destruct (fenced (Some e)) eqn:Ef; [specialize (Hf e eq_refl); fenced_told|]. destruct (fenced (tu_handled u)) eqn:Eh.
      * apply Hstale; [done|apply quiet_report|apply unhandled_report].
      * by told tells_handler_failed.
Qed.
End Settling.

Lemma ensures_settle marked effects w :
  Inv w -> later w0 w -> quiet effects -> EHandled ∈ effects -> ensures (settle s c u chunk marked effects) w reported.
Proof.
  intros HI Hw Hq Hran. unfold settle. destruct (tu_heartbeat u) as [e|] eqn:Eb.
  { cbn [ensures]. destruct (fenced (Some e)) eqn:Ef; [told tells_fenced; left; by rewrite Eb|told tells_heartbeat_failed; [exact Eb|exact Ef]]. }
  apply ensures_bind, ensures_ask; [exact HI|done|]. intros w1 w2 ctx _ _ _ Hw2 HI2. assert (Hw02 : later w0 w2) by by transitivity w.
  cbv zeta. destruct (if is_nil ctx && negb (is_nil (tu_handled u)) && _ then _ else _) as [[released|e]|] eqn:Ec.
  2: { cbn [ensures]. told tells_handler_failed. destruct (is_nil ctx && _ && _) eqn:Eg; [|discriminate].
       apply andb_true_iff in Eg as [[_ Eg]%andb_true_iff _]. intros Hn. by rewrite Hn in Eg. }
  all: match goal with |- context [match ?m with Some cause => _ | None => _ end] => destruct m as [cause|] end.
  all: match goal with Hq : quiet ?l |- context [?l ++ ?more] =>
    assert (Hq' : quiet (l ++ more)) by quieten; assert (Hran' : EHandled ∈ l ++ more) by (apply elem_of_app; by left) end.
  all: try (destruct (marked && tu_used u); [cbn [ensures]; silent|by apply ensures_releasing]).
  all: destruct (tu_handled u) as [h|] eqn:Eu; cbn [is_nil]; [rewrite <- Eu|by apply ensures_completing].
  all: destruct (IsTerminal (tu_handled u)) eqn:Et; [by apply ensures_failing|].
  all: destruct (IsDeferral (tu_handled u)) eqn:Ed; cbn [orb]; [apply ensures_deferring; auto; split; auto|].
  all: destruct (errorsIs (tu_handled u) ErrGenerationStale) eqn:Es; [apply ensures_deferring; auto; split; auto|].
  all: apply ensures_retrying; auto; by rewrite Eu.
Qed.

Lemma ensures_handle effects w : Inv w -> later w0 w -> quiet effects -> ensures (handle s c u chunk effects) w reported.
Proof.
  intros HI Hw Hq. assert (Hran : EHandled ∈ effects ++ [EHandled]) by (apply elem_of_app; right; by left).
  unfold handle. destruct (cl_MarkerMeasurement c && tu_selected u).
  - destruct (tu_unavailable u); [cbn [ensures]; silent|]. apply ensures_bind, ensures_ask; [exact HI|done|].
    intros w1 w2 ctx _ _ _ Hw2 HI2. destruct (_ || _); [cbn [ensures]; silent|]. apply ensures_settle; [exact HI2|by transitivity w|quieten|exact Hran].
  - destruct (cl_TerminalHeartbeat c); [destruct (tu_unavailable u); [cbn [ensures]; silent|]; destruct (tu_used u); [cbn [ensures]; silent|]|];
      (apply ensures_settle; auto; quieten).
Qed.

(** Asking whether the context is over changes nothing. *)
Lemma ensures_interrupted w Q :
  Inv w -> (forall w1 e, later w w1 -> Inv w1 -> (e <> None -> sc_ChunkReportFailure s = true) -> Q e w1) -> ensures (interrupted s) w Q.
Proof.
  intros HI HQ. unfold interrupted. destruct (sc_ChunkReportFailure s) eqn:Ex; [|apply HQ; [apply later_refl|exact HI|done]].
  apply ensures_ask; [exact HI|done|]. intros w1 w2 e _ _ _ Hw2 HI2. by apply HQ.
Qed.

Lemma ensures_executeOwned w : Inv w -> later w0 w -> ensures (executeOwned s c u chunk) w reported.
Proof.
  assert (Hnil : forall b e w', quiet e -> reported (b, e) w') by (intros b e w' He; split; [intros o Ho; by destruct (He o)|done]).
  intros HI Hw. apply ensures_bind, ensures_interrupted; [exact HI|]. intros w1 e1 Hw1 HI1 _. destruct (negb (is_nil e1)); [apply Hnil, quiet_nil|].
  pose proof (unhandled_emit "started" "running" 0 (tu_started u)) as Hun.
  assert (Hst : quiet (emitChunkLifecycleDuration s chunk "started" "running" 0 (tu_started u)).2) by (intros o Ho; by apply emitted_effects in Ho as [? _]).
  destruct (emitChunkLifecycleDuration s chunk "started" "running" 0 (tu_started u)) as [unreported effects]. cbn [snd] in Hst, Hun.
  destruct unreported; [by apply Hnil|]. apply ensures_bind, ensures_interrupted; [exact HI1|]. intros w2 e2 Hw2 HI2 _.
  destruct (negb (is_nil e2)); [by apply Hnil|].
  assert (Hgate : forall e outcome more w', (if cl_BeforeLeaseHeartbeat c then tu_gate u else None) = Some e -> quiet more -> EHandled ∉ more -> outcome <> "" ->
    (cl_BeforeLeaseHeartbeat c = true -> tu_gate u = Some e -> tells false w' outcome) ->
    reported (finish s c u chunk true false outcome (effects ++ more)) w').
  { intros e outcome more w' He Hm Hmu Hne Ht. destruct (cl_BeforeLeaseHeartbeat c); [|discriminate].
    apply finish_reported; [by apply quiet_app| |done|done]. intros _. rewrite ran_app by exact Hmu. rewrite (ran_unhandled _ Hun). by apply Ht. }
  destruct (if cl_BeforeLeaseHeartbeat c then tu_gate u else None) as [e|] eqn:Eg.
  - destruct (fenced (Some e)) eqn:Ef.
    + rewrite <- (app_nil_r effects). apply (Hgate e); [done|apply quiet_nil|apply not_elem_of_nil|done|]. intros Hc Hu. by eapply tells_fenced_gate.
    + apply ensures_bind, ensures_ask; [exact HI2|done|]. intros w3 w4 ctx _ _ _ _ _. cbn [ensures].
      apply (Hgate e); [done|quieten|destruct (is_nil ctx); [apply unhandled_report|apply not_elem_of_nil]|done|]. intros Hc Hu. by eapply tells_gate_failed.
  - apply ensures_bind, ensures_interrupted; [exact HI2|]. intros w3 e3 Hw3 HI3 He3. destruct (negb (is_nil e3)) eqn:En.
    + cbn [ensures]. apply finish_reported; [exact Hst|done| |done]. intros _. right; right. split; [by apply ran_unhandled|].
      apply He3. by destruct e3.
    + apply ensures_handle; [exact HI3| |exact Hst]. transitivity w; [exact Hw|]. transitivity w1; [exact Hw1|]. by transitivity w2.
Qed.
End Execution.

Lemma ensures_workTurn s class c index u w :
  Inv w -> ensures (workTurn s class c index u) w (fun r w' => forall x, r = Some x ->
    exists chunk w0, later w w0 /\ sometime (heldBy (sc_WorkerPrefix s +:+ "-" +:+ class +:+ "-" +:+ pretty index) chunk) w w0 /\ reported s c u chunk w0 x w').
Proof.
  intros HI. apply ensures_bind. refine (ensures_mono _ _ _ _ (ensures_later _ _ _ HI (ensures_claim class _ w HI)) _).
  intros [chunk|e] w1 (Hheld & Hw1 & HI1); [|done]. apply ensures_bind.
  refine (ensures_mono _ _ _ _ (ensures_executeOwned s c u chunk w1 w1 HI1 (later_refl w1)) _).
  intros x w2 Hx x' [= <-]. exists chunk, w1. split_and!; auto.
Qed.
End Truth.

(** ** Process admission *)
Section Admission.
Implicit Types (a : admission) (p : process) (s : Scheduler).

Lemma admissionAdd_assoc a b d : admissionAdd a (admissionAdd b d) = admissionAdd (admissionAdd a b) d.
Proof. destruct a, b, d. unfold admissionAdd; cbn. f_equal; lia. Qed.
Lemma admissionAdd_comm a b : admissionAdd a b = admissionAdd b a.
Proof. destruct a, b. unfold admissionAdd; cbn. f_equal; lia. Qed.
Lemma admissionAdd_idle a : admissionAdd a noAdmission = a.
Proof. destruct a. unfold admissionAdd; cbn. f_equal; lia. Qed.
Lemma admissionSub_add a b : admissionSub (admissionAdd a b) a = b.
Proof. destruct a, b. unfold admissionAdd, admissionSub; cbn. f_equal; lia. Qed.

Definition nonnegative a : Prop := 0 <= ad_concurrency a /\ 0 <= ad_memoryBytes a /\ 0 <= ad_descriptors a /\ 0 <= ad_typedSlots a.
(** What a process may hold. *)
Definition within a : Prop :=
  nonnegative a /\ ad_concurrency a <= MaxProcessConcurrency /\ ad_memoryBytes a <= MaxProcessMemoryBytes /\
  ad_descriptors a <= MaxProcessDescriptors /\ ad_typedSlots a <= 1.

Lemma nonnegative_add a b : nonnegative a -> nonnegative b -> nonnegative (admissionAdd a b).
Proof. unfold nonnegative; cbn. lia. Qed.

(** What the tickets that are not given back hold. *)
Definition held (tickets : list (admission * bool)) : admission :=
  foldr (fun (tk : admission * bool) a => if tk.2 then a else admissionAdd tk.1 a) noAdmission tickets.

Lemma held_app l k : held (l ++ k) = admissionAdd (held l) (held k).
Proof.
  induction l as [|[a []] l IH]; cbn [held app foldr fst snd]; [by rewrite admissionAdd_comm, admissionAdd_idle|exact IH|].
  fold (held (l ++ k)) (held l). by rewrite IH, admissionAdd_assoc.
Qed.

Lemma held_nonnegative l : (forall tk, tk ∈ l -> nonnegative tk.1) -> nonnegative (held l).
Proof.
  induction l as [|[a []] l IH]; intros Hl; cbn [held foldr fst snd]; [by unfold nonnegative, noAdmission; cbn; lia| |].
  - apply IH. intros tk Htk. apply Hl. by right.
  - apply nonnegative_add; [apply (Hl (a, false)); by left|]. apply IH. intros tk Htk. apply Hl. by right.
Qed.

(** *** What validation admits *)
Definition sumOf (l : list (string * Class)) : admission := foldr (fun cc : string * Class => admissionAdd (demandOf cc.1 cc.2)) noAdmission l.

Lemma checkClasses_Ok s l t t' :
  checkClasses s l t = Ok t' ->
  (forall cc, cc ∈ l -> checkClass s cc.1 cc.2 = None) /\
  to_concurrency t' = to_concurrency t + ad_concurrency (sumOf l) /\
  to_memory t' = to_memory t + ad_memoryBytes (sumOf l) /\
  to_generic t' = to_generic t + ad_descriptors (sumOf l).
Proof.
  revert t. induction l as [|[class c] l IH]; intros t; cbn [checkClasses sumOf foldr].
  { intros [= ->]. split; [intros cc []%elem_of_nil|]. cbn. lia. }
  destruct (checkClass s class c) as [e|] eqn:Ec; [discriminate|]. intros (Hall & Hc & Hm & Hg)%IH. split.
  { intros cc [->|Hcc]%elem_of_cons; [exact Ec|by apply Hall]. }
  fold (sumOf l). cbn -[isTyped sumOf] in Hc, Hm, Hg |- *. rewrite Hc, Hm, Hg. split_and!; [lia|lia|]. clear Hc Hm Hg Hall IH. destruct (isTyped class) eqn:Et; [|lia].
  unfold checkClass in Ec. destruct (negb (validGenerationResourceClass class)); [discriminate|].
  destruct (_ || negb (validBudget class c)) eqn:Ev; [discriminate|]. apply orb_false_iff in Ev as [_ Ev%negb_false_iff].
  unfold validBudget in Ev. rewrite Et in Ev. apply andb_true_iff in Ev as [Hcon%Z.eqb_eq Hb%bool_decide_eq_true_1].
  rewrite Hb, Hcon. unfold TypedIndexBudget, typedContainerDescriptors. cbn [MaxDescriptors]. lia.
Qed.

Lemma checkClass_demand s class c : checkClass s class c = None -> nonnegative (demandOf class c).
Proof.
  unfold checkClass. destruct (negb (validGenerationResourceClass class)); [discriminate|].
  destruct (_ || negb (validBudget class c)) eqn:Ev; [discriminate|]. intros _. apply orb_false_iff in Ev as [Ev Hv%negb_false_iff].
  apply orb_false_iff in Ev as [Ev _]. apply orb_false_iff in Ev as [Hc%Z.ltb_ge Hm%Z.ltb_ge]. unfold validBudget in Hv. unfold nonnegative, demandOf; cbn -[isTyped].
  destruct (isTyped class).
  - apply andb_true_iff in Hv as [Hcon%Z.eqb_eq ->%bool_decide_eq_true_1]. rewrite Hcon. vm_compute. intuition discriminate.
  - repeat (apply andb_true_iff in Hv as [Hv ?]). rewrite ?Z.leb_le in *. nia.
Qed.

Lemma validate_Ok s s' names :
  validate s = Ok (s', names) ->
  names ≡ₚ (sc_Classes s').*1 /\ (forall cc, cc ∈ sc_Classes s' -> checkClass s' cc.1 cc.2 = None) /\
  ad_concurrency (sumOf (sc_Classes s')) <= MaxProcessConcurrency /\ ad_memoryBytes (sumOf (sc_Classes s')) <= MaxProcessMemoryBytes /\
  ad_descriptors (sumOf (sc_Classes s')) <= MaxProcessDescriptors.
Proof.
  unfold validate. destruct (_ || _); [discriminate|]. destruct (_ && _); [discriminate|]. cbv zeta.
  generalize (withDefaults s). intros s1. destruct (_ || (sc_StoreCallTimeout s1 <=? 0)) eqn:Eb; [discriminate|].
  destruct (checkClasses s1 _ _) as [t|e] eqn:Ec; [|discriminate]. destruct (_ || (_ <? to_generic t)) eqn:Et; [discriminate|]. intros [= <- <-].
  apply checkClasses_Ok in Ec as (Hall & Hc & Hm & Hg). cbn [to_concurrency to_memory to_generic] in *. repeat (apply orb_false_iff in Eb as [Eb ?]).
  repeat (apply orb_false_iff in Et as [Et ?]). rewrite ?Z.ltb_ge in *. split; [apply merge_sort_Permutation|]. split; [exact Hall|]. lia.
Qed.

Lemma find_own {A} (l : list (string * A)) key : key ∈ l.*1 -> exists x, List.find (fun kx => String.eqb kx.1 key) l = Some (key, x) /\ (key, x) ∈ l.
Proof.
  induction l as [|[k x] l IH]; cbn; [by intros []%elem_of_nil|]. intros Hin. destruct (String.eqb_spec k key) as [->|Hne].
  - exists x. split; [done|by left].
  - apply elem_of_cons in Hin as [?|Hin]; [congruence|]. destruct (IH Hin) as (y & Hf & Hy). exists y. split; [exact Hf|by right].
Qed.

Lemma classOf_own s class : class ∈ (sc_Classes s).*1 -> (class, classOf s class) ∈ sc_Classes s.
Proof. intros (x & Hf & Hx)%find_own. unfold classOf. by rewrite Hf. Qed.

Lemma demand_permutation s names names' : names ≡ₚ names' -> demand s names = demand s names'.
Proof.
  induction 1 as [|x l k _ IH|x y l|l k m _ IH1 _ IH2]; cbn; [done|by f_equal| |congruence].
  rewrite !admissionAdd_assoc. f_equal. apply admissionAdd_comm.
Qed.

Lemma demand_classes s l : (forall cc, cc ∈ l -> classOf s cc.1 = cc.2) -> demand s l.*1 = sumOf l.
Proof.
  induction l as [|[class c] l IH]; intros Hl; [done|]. cbn. f_equal; [f_equal; apply (Hl (class, c)); by left|].
  apply IH. intros cc Hcc. apply Hl. by right.
Qed.

Lemma demand_sum s names : NoDup (sc_Classes s).*1 -> names ≡ₚ (sc_Classes s).*1 -> demand s names = sumOf (sc_Classes s).
Proof.
  intros HN ->%(demand_permutation s). apply demand_classes. intros [class c] Hcc. cbn.
  assert (Hin : class ∈ (sc_Classes s).*1) by (apply list_elem_of_fmap; by exists (class, c)). apply classOf_own in Hin.
  apply list_elem_of_lookup in Hcc as [i Hi], Hin as [j Hj]. assert (i = j) as ->.
  { eapply (NoDup_lookup _ _ _ _ HN); rewrite list_lookup_fmap; [by rewrite Hi|by rewrite Hj]. }
  congruence.
Qed.

Lemma demand_nonnegative s names :
  (forall cc, cc ∈ sc_Classes s -> checkClass s cc.1 cc.2 = None) -> (forall class, class ∈ names -> class ∈ (sc_Classes s).*1) -> nonnegative (demand s names).
Proof.
  intros Hall. induction names as [|class names IH]; intros Hin; cbn; [by unfold nonnegative, noAdmission; cbn; lia|].
  apply nonnegative_add; [|apply IH; intros x Hx; apply Hin; by right].
  apply (checkClass_demand s), (Hall (class, _)), classOf_own, Hin. by left.
Qed.

(** One class has the name of the typed one. *)
Lemma typed_once s l :
  (forall cc, cc ∈ l -> checkClass s cc.1 cc.2 = None) -> NoDup l.*1 ->
  ad_typedSlots (sumOf l) <= (if bool_decide (GenerationResourceTypedIndex ∈ l.*1) then 1 else 0).
Proof.
  induction l as [|[class c] l IH]; intros Hall HN; [done|]. cbn [fmap list_fmap fst] in HN. apply NoDup_cons in HN as [Hout HN].
  assert (Hall' : forall cc, cc ∈ l -> checkClass s cc.1 cc.2 = None) by (intros cc Hcc; apply Hall; by right).
  specialize (IH Hall' HN). specialize (Hall (class, c) ltac:(by left)). cbn -[isTyped] in Hall |- *. fold (sumOf l).
  destruct (isTyped class) eqn:Et.
  - unfold checkClass in Hall. destruct (negb (validGenerationResourceClass class)); [discriminate|].
    destruct (_ || negb (validBudget class c)) eqn:Ev; [discriminate|]. apply orb_false_iff in Ev as [_ Ev%negb_false_iff].
    unfold validBudget in Ev. rewrite Et in Ev. apply andb_true_iff in Ev as [Hcon%Z.eqb_eq _]. rewrite Hcon. apply String.eqb_eq in Et as ->.
    rewrite (bool_decide_eq_false_2 _ Hout) in IH. rewrite bool_decide_eq_true_2 by (by left). lia.
  - apply String.eqb_neq in Et. destruct (bool_decide_reflect (GenerationResourceTypedIndex ∈ l.*1)) as [Hin|Hin].
    + rewrite bool_decide_eq_true_2 by (by right). lia.
    + case_bool_decide; lia.
Qed.

(** The admissions a process goes through: schedulers that validate start, and
    tickets are given back, each as often as one likes. *)
Inductive serving : process -> Prop :=
| serving_idle : serving (mkProcess noAdmission [])
| serving_start s s' names p p' :
    serving p -> validate s = Ok (s', names) -> acquireProcessAdmission s' names p = Ok p' -> serving p'
| serving_stop i p : serving p -> serving (releaseAdmission i p).

Lemma release_held i p : serving p -> pr_total p = held (pr_tickets p) -> pr_total (releaseAdmission i p) = held (pr_tickets (releaseAdmission i p)).
Proof.
  intros _ Hp. unfold releaseAdmission. destruct (pr_tickets p !! i) as [[a []]|] eqn:Ei; [exact Hp| |exact Hp]. cbn [pr_total pr_tickets].
  rewrite insert_take_drop by (by eapply lookup_lt_Some). rewrite Hp. rewrite <- (take_drop_middle _ _ _ Ei) at 1. rewrite !held_app.
  cbn [held foldr fst snd]. fold (held (drop (S i) (pr_tickets p))). rewrite admissionAdd_assoc, (admissionAdd_comm _ a), <- admissionAdd_assoc.
  apply admissionSub_add.
Qed.

Lemma serving_held p : serving p -> pr_total p = held (pr_tickets p) /\ (forall tk, tk ∈ pr_tickets p -> nonnegative tk.1).
Proof.
  induction 1 as [|s s' names p p' HS [IH IHn] HV HA|i p HS [IH IHn]].
  - split; [done|intros tk []%elem_of_nil].
  - unfold acquireProcessAdmission in HA. destruct (_ || _); [discriminate|]. injection HA as <-. cbn [pr_total pr_tickets]. split.
    + rewrite held_app, IH. cbn [held foldr fst snd]. by rewrite admissionAdd_idle.
    + apply validate_Ok in HV as (Hperm & Hall & _). intros tk [Htk| ->%list_elem_of_singleton]%elem_of_app; [by apply IHn|].
      apply demand_nonnegative; [exact Hall|]. intros class Hc. by rewrite <- Hperm.
  - split; [by apply release_held|]. unfold releaseAdmission. destruct (pr_tickets p !! i) as [[a []]|] eqn:Ei; [exact IHn| |exact IHn].
    cbn [pr_tickets]. intros tk (j & Hj)%list_elem_of_lookup. apply list_lookup_insert_Some in Hj as [[<- [<- _]]|[_ Hj]].
    + apply (IHn (a, false)), list_elem_of_lookup. by exists i.
    + apply IHn, list_elem_of_lookup. by exists j.
Qed.

Lemma serving_within p : serving p -> within (pr_total p).
Proof.
  induction 1 as [|s s' names p p' HS IH HV HA|i p HS IH].
  - unfold within, nonnegative. vm_compute. intuition discriminate.
  - assert (HS' : serving p') by by eapply serving_start. apply serving_held in HS' as [Hh Hn]. split; [rewrite Hh; by apply held_nonnegative|].
    unfold acquireProcessAdmission in HA. destruct (_ || _) eqn:Eb; [discriminate|]. injection HA as <-. cbn [pr_total].
    repeat (apply orb_false_iff in Eb as [Eb ?]). rewrite ?Z.ltb_ge in *. split_and!; assumption.
  - assert (HS' : serving (releaseAdmission i p)) by by constructor. apply serving_held in HS' as [Hh Hn]. split; [rewrite Hh; by apply held_nonnegative|].
    apply serving_held in HS as [_ Hp]. destruct IH as (IHn & IH). unfold releaseAdmission in *. destruct (pr_tickets p !! i) as [[a []]|] eqn:Ei; [exact IH| |exact IH].
    assert (Ha : nonnegative a) by (apply (Hp (a, false)), list_elem_of_lookup; by exists i). unfold nonnegative in Ha. cbn in *. lia.
Qed.
End Admission.

(** ** Properties *)

(** C32: What the schedulers of one process hold together is what the tickets
    not yet given back took: never negative, never more than the process
    bounds on chunks, memory and descriptors, and never more than one typed
    slot.  Giving a ticket back twice is giving it back once; when every ticket
    is given back nothing is held; and while nothing is held, every scheduler
    that validates is admitted. *)
Theorem process_admission_is_exact p :
  serving p ->
  pr_total p = held (pr_tickets p) /\ within (pr_total p) /\
  (forall i, releaseAdmission i (releaseAdmission i p) = releaseAdmission i p) /\
  (forallb snd (pr_tickets p) = true -> pr_total p = noAdmission) /\
  (pr_total p = noAdmission -> forall s s' names, NoDup (sc_Classes s').*1 -> validate s = Ok (s', names) ->
     exists p', acquireProcessAdmission s' names p = Ok p').
Proof.
  intros HS. pose proof (serving_held p HS) as [Hh _]. split; [exact Hh|]. split; [by apply serving_within|]. split_and!.
  - intros i. unfold releaseAdmission at 2 3. destruct (pr_tickets p !! i) as [[a []]|] eqn:Ei; unfold releaseAdmission; cbn [pr_tickets]; rewrite ?Ei; try done.
    rewrite list_lookup_insert_eq; [done|by eapply lookup_lt_Some].
  - rewrite Hh. clear. induction (pr_tickets p) as [|[a b] l IH]; [done|]. cbn. intros [-> Hl]%andb_true_iff. by apply IH.
  - intros Hidle s s' names HN HV. apply validate_Ok in HV as (Hperm & Hall & Hc & Hm & Hd). pose proof (typed_once s' _ Hall HN) as Ht.
    unfold acquireProcessAdmission. rewrite Hidle, admissionAdd_comm, admissionAdd_idle, (demand_sum s' names HN Hperm).
    assert (ad_typedSlots (sumOf (sc_Classes s')) <= 1) by (case_bool_decide; lia).
    repeat match goal with |- context [?a <? ?b] => destruct (Z.ltb_spec a b); [lia|] end. by eexists.
Qed.


(** C28: Every turn of a scheduler's loops keeps the rules that the invariants of
    the schedules rest on.  A worker's turn executes only a chunk whose record
    was running in its name when it was claimed, and reports the truth about
    it; the planner's and the reaper's turns submit only permitted statements. *)
Theorem scheduler_turns_keep_rules `{CollisionFree} (w : world) (s : Scheduler) (class : string) :
  reachable w ->
  (forall c index u, ensures (workTurn s class c index u) w (fun r w' => forall x, r = Some x ->
     exists chunk w0, later w w0 /\ sometime (heldBy (sc_WorkerPrefix s +:+ "-" +:+ class +:+ "-" +:+ pretty index) chunk) w w0 /\ reported s c u chunk w0 x w')) /\
  (forall ids, Z.of_nat (length ids) = MaxGenerationFanoutPage -> keeps (planTurn class ids) w) /\ keeps (reapTurn s class) w.
Proof.
  intros HI%reachable_schedules. split; [intros c index u; exact (ensures_workTurn s class c index u w HI)|].
  split; [intros ids Hids; exact (keeps_expandNext class ids w HI Hids)|exact (keeps_reap class (sc_StaleAfter s) w HI)].
Qed.

(** ** Examples *)
#[local] Existing Instance plain_hash.
#[local] Existing Instance plain_collisionFree.

Definition sampleClass : Class := mkClass 2 (mkBudget 1048576 16) true true true false false false false false.
Definition typedClass : Class := mkClass 1 TypedIndexBudget true false false true true false true false.
(** A scheduler with exact reports, its bounds left to the defaults. *)
Definition sampleScheduler : Scheduler :=
  mkScheduler true true true [("typed-index", typedClass); ("cpu", sampleClass)] 0 0 0 0 0 0 0 None "" true true true true.
Definition validated : Scheduler * list string :=
  match validate sampleScheduler with Ok x => x | Err _ => (sampleScheduler, []) end.
Definition process1 : process :=
  match acquireProcessAdmission validated.1 validated.2 (mkProcess noAdmission []) with Ok p => p | Err _ => mkProcess noAdmission [] end.

Definition isOk {E A} (r : res E A) : bool := match r with Ok _ => true | Err _ => false end.

(** Two schedulers with a typed class cannot be admitted together. *)
Lemma process_admission_is_exact_witness :
  serving process1 /\ within (pr_total process1) /\ ad_typedSlots (pr_total process1) = 1 /\ validated.2 = ["cpu"; "typed-index"] /\
  isOk (acquireProcessAdmission validated.1 validated.2 process1) = false /\
  isOk (acquireProcessAdmission validated.1 validated.2 (releaseAdmission 0 process1)) = true.
Proof.
  assert (HS : serving process1).
  { apply (serving_start sampleScheduler validated.1 validated.2 (mkProcess noAdmission [])); [constructor|reflexivity|reflexivity]. }
  split; [exact HS|]. split; [apply (process_admission_is_exact process1 HS)|]. split_and!; reflexivity.
Defined.

(** The suffix alone is reported, where [context.Context] ends during the gate
    and the reconciliation fails: no transition settled the claim. *)
Fixpoint answered {A} (contexts : list error) (p : prog A) : option A :=
  match p, contexts with
  | Ret x, _ => Some x
  | Act a k, e :: contexts => match a in action B return (B -> prog A) -> option A with ACtxErr => fun k => answered contexts (k e) | _ => fun _ => None end k
  | Act _ _, [] => None
  end.
Example interrupted_gate_is_reported :
  answered [None; None; Some (text "context canceled")]
    (executeOwned validated.1 sampleClass (mkTurn SinkOk SinkOk 7 None false None None None false false (Ok false) None None (Some (text "refused")) "id") b0)
  = Some (false, [EEmitted "started" "running"; EAfterSettlement; EReport; EFailure; EEmitted "settled" "_reconciliation_failed"]).
Proof. vm_compute. reflexivity. Qed.



Lemma scheduler_turns_keep_rules_witness :
  keeps (planTurn "cpu" (repeat "id" (Z.to_nat MaxGenerationFanoutPage))) world1 /\ keeps (reapTurn validated.1 "cpu") world1.
Proof.
  pose proof (scheduler_turns_keep_rules world1 validated.1 "cpu" world1_reachable) as HT.
  refine (conj (proj1 (proj2 HT) _ _) (proj2 (proj2 HT))). rewrite repeat_length. reflexivity.
Defined.
