(* ===== verification/PartitionModel.v ===== *)
(** * Source partitions: records, names and identities

    Model of [internal/sourcepartition/model.go], with what it uses of
    [gitobj], [reponame] and [repopath], and the checks
    [repositoryindex/validate.go] makes of every source record before it is
    delivered.  The 32 bytes of a SHA-256 sum are those of the class [Sha256];
    JSON is that of [GoText]. *)
From stdpp Require Import sorting pretty.
From Stdlib Require Import Ascii String.
From S2P Require Import Prelude.
From S2P Require Import GoStrings GoText.
#[local] Open Scope Z_scope.

(** [sha256.Sum256]. *)
Class Sha256 := Sum256 : string -> list Z.
Class Sha256Laws `{Sha256} : Prop := sum256_bytes : forall s, length (Sum256 s) = 32%nat /\ Forall isByte (Sum256 s).

(** ** Bounds *)
Definition ManifestSchema : string := "phebs-source-partition-manifest-v1".
Definition MemberSchema : string := "phebs-source-partition-member-v1".
Definition PolicySchema : string := "phebs-source-partition-policy-v1".
Definition PartitionPolicy : string := "immutable-blob-hash-prefix-v1".
Definition BlobHashPolicy : string := "phebs-source-partition-blob-v1".
Definition InitialPrefixBits : nat := 4.
Definition MaxSuffixes : nat := 16.
Definition MaxSuffixBytes : nat := 32.
Definition MaxBlobsPerPartition : Z := 4096.
Definition MaxPlacementsPerPartition : Z := 4096.
Definition MaxPartitions : Z := 16384.
Definition MaxBlobBytes : Z := Z.shiftl 4 20.
Definition MaxPartitionBlobBytes : Z := Z.shiftl 64 20.
Definition MaxGenerationBlobBytes : Z := Z.shiftl 4 30.
Definition MaxGenerationContentBytes : Z := Z.shiftl 4 30.
Definition MaxMemberContentBytes : Z := Z.shiftl 64 20.
Definition MaxManifestBytes : Z := Z.shiftl 8 20.
Definition MaxRecordBytes : Z := Z.shiftl 4 20.
Definition MaxSpoolBytes : Z := Z.shiftl 8 30.
Definition MaxBatchOutputBytes : Z := Z.shiftl 65 20.
Definition MaxBatchDescriptors : Z := 3.
Definition MaxBatchDuration : Z := 5 * 60 * 10 ^ 9.

(** ** Names *)

(** [gitobj.IsObjectID]. *)
Definition IsObjectID (value : string) : bool :=
  (Nat.eqb (String.length value) 40 || Nat.eqb (String.length value) 64) && all (fun c => inRange "0" "9" c || inRange "a" "f" c) value.

Definition printable (s : string) : bool := all (fun c => negb (inRange (ascii_of_nat 0) (ascii_of_nat 31) c) && negb (Ascii.eqb c (ascii_of_nat 127))) s.
Definition noBackslash (s : string) : bool := all (fun c => negb (Ascii.eqb c "\"%char)) s.
Definition plainComponent (c : string) : bool := negb (String.eqb c "") && negb (String.eqb c ".") && negb (String.eqb c "..").

(** [repopath.Validate]. *)
Definition repopathMaxBytes : nat := 4096.
Definition repopathValidate (value : string) : bool :=
  negb (String.eqb value "" || Nat.ltb repopathMaxBytes (String.length value) || String.eqb value "." || String.prefix "-" value
        || IsAbs value || negb (String.eqb (Clean value) value) || negb (noBackslash value) || negb (utf8Valid value))
  && forallb plainComponent (splitOn "/" value) && printable value.

(** [strings.ToLower], as far as the suffix [.git] can tell: the letters of
    ASCII, and the one other letter (U+0130) whose lower case is one of them. *)
Fixpoint lowered (s : string) : string :=
  match s with
  | EmptyString => EmptyString
  | String c s' =>
      match s' with
      | String d s'' =>
          if Nat.eqb (nat_of_ascii c) 196 && Nat.eqb (nat_of_ascii d) 176 then String "i" (lowered s'')
          else String (if inRange "A" "Z" c then ascii_of_nat (nat_of_ascii c + 32) else c) (lowered s')
      | EmptyString => String (if inRange "A" "Z" c then ascii_of_nat (nat_of_ascii c + 32) else c) EmptyString
      end
  end.
Fixpoint noGitBefore (components : list string) : bool :=
  match components with
  | [] | [_] => true
  | c :: rest => negb (HasSuffix (lowered c) ".git") && noGitBefore rest
  end.

(** [reponame.Validate]. *)
Definition reponameMaxBytes : nat := 1024.
Definition reponameValidate (name : string) : bool :=
  negb (String.eqb name "" || Nat.ltb reponameMaxBytes (String.length name) || negb (utf8Valid name) || negb (trimmed name)
        || negb (noBackslash name) || IsAbs name || negb (String.eqb (Clean name) name) || String.eqb name ".")
  && forallb (fun c => plainComponent c && printable c) (splitOn "/" name) && noGitBefore (splitOn "/" name).

(** [slices.IsSorted]. *)
Fixpoint isSorted {A} (lt : A -> A -> bool) (l : list A) : bool :=
  match l with
  | a :: (b :: _) as rest => negb (lt b a) && isSorted lt rest
  | _ => true
  end.

(** ** The source *)

(** [repositoryindex.SourceRecord]. *)
Record SourceRecord := mkSourceRecord {
  sr_Schema : string;
  sr_Path : string;
  sr_Mode : string;
  sr_Kind : string;
  sr_ObjectID : string;
  sr_DeclaredBytes : Z;
  sr_Revisions : list Z
}.
Definition SourceMemberSchema : string := "phebs-repository-source-member-v1".

(** In range, sorted, none twice: the loop over the revisions. *)
Fixpoint revisionsFrom (revisionCount : Z) (previous : option Z) (l : list Z) : bool :=
  match l with
  | [] => true
  | r :: l =>
      negb ((r <? 0) || (revisionCount <=? r) || match previous with Some p => p =? r | None => false end) && revisionsFrom revisionCount (Some r) l
  end.
Definition validRevisions (revisionCount : Z) (l : list Z) : bool := isSorted Z.ltb l && revisionsFrom revisionCount None l.

Definition validateRecord (r : SourceRecord) (revisionCount : Z) : bool :=
  negb (negb (String.eqb (sr_Schema r) SourceMemberSchema) || String.eqb (sr_Path r) "" || String.eqb (sr_Mode r) "" || String.eqb (sr_ObjectID r) ""
        || (sr_DeclaredBytes r <? 0) || Nat.eqb (length (sr_Revisions r)) 0 || (revisionCount <? Z.of_nat (length (sr_Revisions r)))
        || negb (IsObjectID (sr_ObjectID r)))
  && repopathValidate (sr_Path r)
  && (if String.eqb (sr_Kind r) "regular" then String.eqb (sr_Mode r) "100644" || String.eqb (sr_Mode r) "100755"
      else if String.eqb (sr_Kind r) "symlink" then String.eqb (sr_Mode r) "120000"
      else String.eqb (sr_Kind r) "gitlink" && String.eqb (sr_Mode r) "160000" && (sr_DeclaredBytes r =? 0))
  && validRevisions revisionCount (sr_Revisions r).

Definition recordKey (r : SourceRecord) : string :=
  sr_Path r +:+ NUL +:+ sr_Mode r +:+ NUL +:+ sr_Kind r +:+ NUL +:+ sr_ObjectID r +:+ NUL +:+ pretty (sr_DeclaredBytes r).

(** The walk: valid records in the order of their keys, no path with two owners
    in one revision ([owned] are the revisions of [path] so far). *)
Fixpoint walkFrom (revisionCount : Z) (key path : string) (owned : list Z) (l : list SourceRecord) : bool :=
  match l with
  | [] => true
  | r :: l =>
      let owned := if String.eqb (sr_Path r) path then owned else [] in
      validateRecord r revisionCount && str_ltb key (recordKey r) && forallb (fun v => negb (existsb (Z.eqb v) owned)) (sr_Revisions r)
      && walkFrom revisionCount (recordKey r) (sr_Path r) (owned ++ sr_Revisions r) l
  end.
Definition validSource (revisionCount : Z) (l : list SourceRecord) : bool := walkFrom revisionCount "" "" [] l.

(** ** Policies *)
Record Policy := mkPolicy { po_Schema : string; po_Name : string; po_Version : string; po_IncludeSuffixes : list string }.
#[export] Instance Policy_eq_dec : EqDecision Policy.
Proof. solve_decision. Defined.

Definition validToken (value : string) (maximum : nat) : bool :=
  negb (String.eqb value "" || Nat.ltb maximum (String.length value) || negb (utf8Valid value))
  && all (fun c => inRange "a" "z" c || inRange "0" "9" c || Ascii.eqb c "-") value.
Definition validVersion (value : string) : bool :=
  let parts := splitOn "." value in
  Nat.eqb (length parts) 3
  && forallb (fun part => negb (String.eqb part "") && Nat.leb (String.length part) 8 && all (inRange "0" "9") part) parts.
Definition validSuffix (value : string) : bool :=
  all (fun c => inRange "a" "z" c || inRange "A" "Z" c || inRange "0" "9" c || Ascii.eqb c "." || Ascii.eqb c "_" || Ascii.eqb c "-") value.

Fixpoint suffixesFrom (previous : string) (l : list string) : bool :=
  match l with
  | [] => true
  | s :: l =>
      negb (String.eqb s previous || Nat.ltb (String.length s) 2 || Nat.ltb MaxSuffixBytes (String.length s) || negb (String.prefix "." s) || negb (validSuffix s))
      && suffixesFrom s l
  end.
Definition ValidatePolicy (p : Policy) : bool :=
  negb (negb (String.eqb (po_Schema p) PolicySchema) || negb (validToken (po_Name p) 128) || negb (validVersion (po_Version p))
        || Nat.ltb (length (po_IncludeSuffixes p)) 1 || Nat.ltb MaxSuffixes (length (po_IncludeSuffixes p)) || negb (isSorted str_ltb (po_IncludeSuffixes p)))
  && suffixesFrom "" (po_IncludeSuffixes p).

Definition matches (p : Policy) (path : string) : bool := existsb (HasSuffix path) (po_IncludeSuffixes p).

Record FrozenPolicy := mkFrozenPolicy {
  fp_Name : string;
  fp_BlobHashPolicy : string;
  fp_InitialPrefixBits : Z;
  fp_MaxSuffixes : Z;
  fp_MaxSuffixBytes : Z;
  fp_MaxPartitions : Z;
  fp_MaxBlobsPerPartition : Z;
  fp_MaxPlacementsPerPartition : Z;
  fp_MaxBlobBytes : Z;
  fp_MaxPartitionBlobBytes : Z;
  fp_MaxGenerationBlobBytes : Z;
  fp_MaxGenerationContentBytes : Z;
  fp_MaxMemberContentBytes : Z;
  fp_MaxManifestBytes : Z;
  fp_MaxRecordBytes : Z;
  fp_MaxSpoolBytes : Z;
  fp_MaxBatchOutputBytes : Z;
  fp_MaxBatchDescriptors : Z;
  fp_MaxBatchDuration : Z;
  fp_Ordering : string;
  fp_SplitRule : string
}.
#[export] Instance FrozenPolicy_eq_dec : EqDecision FrozenPolicy.
Proof. solve_decision. Defined.

Definition frozenPolicy : FrozenPolicy :=
  mkFrozenPolicy PartitionPolicy BlobHashPolicy (Z.of_nat InitialPrefixBits) (Z.of_nat MaxSuffixes) (Z.of_nat MaxSuffixBytes)
    MaxPartitions MaxBlobsPerPartition MaxPlacementsPerPartition MaxBlobBytes MaxPartitionBlobBytes MaxGenerationBlobBytes
    MaxGenerationContentBytes MaxMemberContentBytes MaxManifestBytes MaxRecordBytes MaxSpoolBytes MaxBatchOutputBytes
    MaxBatchDescriptors MaxBatchDuration "object-id-then-placement-v1" "next-domain-separated-object-id-hash-bit-v1".
Definition frozenPolicyJSON (p : FrozenPolicy) : json :=
  JObject [("name", JString (fp_Name p)); ("blob_hash_policy", JString (fp_BlobHashPolicy p)); ("initial_prefix_bits", JInt
    (fp_InitialPrefixBits p)); ("max_suffixes", JInt (fp_MaxSuffixes p)); ("max_suffix_bytes", JInt (fp_MaxSuffixBytes p));
    ("max_partitions", JInt (fp_MaxPartitions p)); ("max_blobs_per_partition", JInt (fp_MaxBlobsPerPartition p));
    ("max_placements_per_partition", JInt (fp_MaxPlacementsPerPartition p)); ("max_blob_bytes", JInt (fp_MaxBlobBytes p));
    ("max_partition_blob_bytes", JInt (fp_MaxPartitionBlobBytes p)); ("max_generation_blob_bytes", JInt (fp_MaxGenerationBlobBytes
    p)); ("max_generation_content_bytes", JInt (fp_MaxGenerationContentBytes p)); ("max_member_content_bytes", JInt
    (fp_MaxMemberContentBytes p)); ("max_manifest_bytes", JInt (fp_MaxManifestBytes p)); ("max_record_bytes", JInt
    (fp_MaxRecordBytes p)); ("max_spool_bytes", JInt (fp_MaxSpoolBytes p)); ("max_batch_output_bytes", JInt
    (fp_MaxBatchOutputBytes p)); ("max_batch_descriptors", JInt (fp_MaxBatchDescriptors p)); ("max_batch_duration_ns", JInt
    (fp_MaxBatchDuration p)); ("ordering", JString (fp_Ordering p)); ("split_rule", JString (fp_SplitRule p))].
Definition policyJSON (p : Policy) : json :=
  JObject [("schema", JString (po_Schema p)); ("name", JString (po_Name p)); ("version", JString (po_Version p));
    ("include_suffixes", JArray (JString <$> po_IncludeSuffixes p))].

(** ** Placements and blobs *)
Record Placement := mkPlacement { pl_Path : string; pl_Mode : string; pl_Revisions : list Z }.
#[export] Instance Placement_eq_dec : EqDecision Placement.
Proof. solve_decision. Defined.
Record BlobRecord := mkBlobRecord { br_Schema : string; br_ObjectID : string; br_DeclaredBytes : Z; br_Placements : list Placement }.
#[export] Instance BlobRecord_eq_dec : EqDecision BlobRecord.
Proof. solve_decision. Defined.

Definition placementJSON (p : Placement) : json :=
  JObject [("path", JString (pl_Path p)); ("mode", JString (pl_Mode p)); ("revisions", JArray (JInt <$> pl_Revisions p))].
Definition blobJSON (b : BlobRecord) : json :=
  JObject [("schema", JString (br_Schema b)); ("object_id", JString (br_ObjectID b)); ("declared_bytes", JInt (br_DeclaredBytes b));
    ("placements", JArray (placementJSON <$> br_Placements b))].

(** [slices.Compare] of integers, and the order of placements. *)
Fixpoint compareInts (a b : list Z) : comparison :=
  match a, b with
  | [], [] => Eq
  | [], _ => Lt
  | _, [] => Gt
  | x :: a, y :: b => match Z.compare x y with Eq => compareInts a b | c => c end
  end.
Definition comparePlacement (left right : Placement) : comparison :=
  match String.compare (pl_Path left) (pl_Path right) with
  | Eq => match String.compare (pl_Mode left) (pl_Mode right) with Eq => compareInts (pl_Revisions left) (pl_Revisions right) | c => c end
  | c => c
  end.
Definition isLt (c : comparison) : bool := match c with Lt => true | _ => false end.

Fixpoint placementsFrom (revisionCount : Z) (previous : option Placement) (l : list Placement) : bool :=
  match l with
  | [] => true
  | p :: l =>
      negb (negb (repopathValidate (pl_Path p)) || negb (String.eqb (pl_Mode p) "100644" || String.eqb (pl_Mode p) "100755")
            || Nat.ltb (length (pl_Revisions p)) 1 || (revisionCount <? Z.of_nat (length (pl_Revisions p)))
            || match previous with Some q => negb (isLt (comparePlacement q p)) | None => false end)
      && validRevisions revisionCount (pl_Revisions p) && placementsFrom revisionCount (Some p) l
  end.
Definition validateBlobRecord (b : BlobRecord) (revisionCount : Z) : bool :=
  negb (negb (String.eqb (br_Schema b) MemberSchema) || negb (IsObjectID (br_ObjectID b)) || (br_DeclaredBytes b <? 0) || (MaxBlobBytes <? br_DeclaredBytes b)
        || Nat.ltb (length (br_Placements b)) 1 || (MaxPlacementsPerPartition <? Z.of_nat (length (br_Placements b))))
  && placementsFrom revisionCount None (br_Placements b).

(** ** Members and manifests *)
Record Member := mkMember {
  me_Ordinal : Z;
  me_Count : Z;
  me_Name : string;
  me_Prefix : string;
  me_PrefixBits : Z;
  me_BlobCount : Z;
  me_PlacementCount : Z;
  me_DeclaredBytes : Z;
  me_ContentBytes : Z;
  me_Digest : string;
  me_FirstObjectID : string;
  me_LastObjectID : string
}.
#[export] Instance Member_eq_dec : EqDecision Member.
Proof. solve_decision. Defined.
#[export] Instance eta_Member : Eta Member := fun m =>
  mkMember (me_Ordinal m) (me_Count m) (me_Name m) (me_Prefix m) (me_PrefixBits m) (me_BlobCount m) (me_PlacementCount m)
    (me_DeclaredBytes m) (me_ContentBytes m) (me_Digest m) (me_FirstObjectID m) (me_LastObjectID m).

Record Manifest := mkManifest {
  ma_Schema : string;
  ma_Repository : string;
  ma_SourceGenerationDigest : string;
  ma_RevisionCount : Z;
  ma_Policy : Policy;
  ma_PolicyDigest : string;
  ma_PartitionPolicy : FrozenPolicy;
  ma_GenerationDigest : string;
  ma_Members : list Member;
  ma_BlobCount : Z;
  ma_PlacementCount : Z;
  ma_DeclaredBytes : Z;
  ma_EncodedMemberBytes : Z;
  ma_Digest : string
}.
#[export] Instance Manifest_eq_dec : EqDecision Manifest.
Proof. solve_decision. Defined.
#[export] Instance eta_Manifest : Eta Manifest := fun m =>
  mkManifest (ma_Schema m) (ma_Repository m) (ma_SourceGenerationDigest m) (ma_RevisionCount m) (ma_Policy m) (ma_PolicyDigest m)
    (ma_PartitionPolicy m) (ma_GenerationDigest m) (ma_Members m) (ma_BlobCount m) (ma_PlacementCount m) (ma_DeclaredBytes m)
    (ma_EncodedMemberBytes m) (ma_Digest m).

Definition memberJSON (m : Member) : json :=
  JObject [("ordinal", JInt (me_Ordinal m)); ("count", JInt (me_Count m)); ("name", JString (me_Name m)); ("prefix", JString (me_Prefix m));
    ("prefix_bits", JInt (me_PrefixBits m)); ("blob_count", JInt (me_BlobCount m)); ("placement_count", JInt (me_PlacementCount m));
    ("declared_bytes", JInt (me_DeclaredBytes m)); ("content_bytes", JInt (me_ContentBytes m)); ("digest", JString (me_Digest m));
    ("first_object_id", JString (me_FirstObjectID m)); ("last_object_id", JString (me_LastObjectID m))].
Definition manifestJSON (m : Manifest) : json :=
  JObject [("schema", JString (ma_Schema m)); ("repository", JString (ma_Repository m));
    ("source_generation_digest", JString (ma_SourceGenerationDigest m)); ("revision_count", JInt (ma_RevisionCount m));
    ("policy", policyJSON (ma_Policy m)); ("policy_digest", JString (ma_PolicyDigest m)); ("partition_policy", frozenPolicyJSON (ma_PartitionPolicy m));
    ("generation_digest", JString (ma_GenerationDigest m)); ("members", JArray (memberJSON <$> ma_Members m)); ("blob_count", JInt (ma_BlobCount m));
    ("placement_count", JInt (ma_PlacementCount m)); ("declared_bytes", JInt (ma_DeclaredBytes m));
    ("encoded_member_bytes", JInt (ma_EncodedMemberBytes m)); ("digest", JString (ma_Digest m))].

(** ** Digests *)
Definition validDigest (value : string) : bool :=
  Nat.eqb (String.length value) 71 && String.prefix "sha256:" value
  && match hexDecode (String.substring 7 64 value) with Some decoded => Nat.eqb (length decoded) 32 | None => false end.

Section Digests.
Context `{Sha256}.

Definition digest (domain raw : string) : string := "sha256:" +:+ hexEncode (Sum256 (domain +:+ raw)).

Definition PolicyDigest (p : Policy) : option string :=
  if negb (ValidatePolicy p) then None
  else Some (digest ("phebs-source-partition-policy-v1" +:+ NUL)
    (Marshal (JObject [("policy", policyJSON p); ("partition_policy", frozenPolicyJSON frozenPolicy)]))).
Definition GenerationDigest (repository sourceDigest policyDigest : string) : option string :=
  if negb (reponameValidate repository) || negb (validDigest sourceDigest) || negb (validDigest policyDigest) then None
  else Some (digest ("phebs-source-partition-generation-v1" +:+ NUL) (repository +:+ NUL +:+ sourceDigest +:+ NUL +:+ policyDigest)).
Definition ManifestDigest (m : Manifest) : string :=
  digest ("phebs-source-partition-manifest-v1" +:+ NUL) (Marshal (manifestJSON (m <| ma_Digest := "" |>))).

Definition ManifestName (repository : string) : string := "phebs-source-partitions-" +:+ hexEncode (Sum256 repository) +:+ ".manifest.json".
(** [%05d] of a number that is not negative.  The generation of a member's name
    is a digest: without its prefix [sha256:], it is what starts at 7. *)
Definition pad5 (n : Z) : string := string_of_list_ascii (repeat "0"%char (5 - String.length (pretty n))) +:+ pretty n.
Definition memberName (repository generation : string) (ordinal : Z) : string :=
  "phebs-source-partitions-" +:+ String.substring 0 16 (hexEncode (Sum256 repository)) +:+ "-" +:+ String.substring 7 16 generation
  +:+ "." +:+ pad5 ordinal +:+ ".jsonl".

(** ** Hash prefixes *)
Definition sourceBlobHash (objectID : string) : list Z := Sum256 (BlobHashPolicy +:+ NUL +:+ objectID).
Definition hashBit (hash : list Z) (bit : nat) : Z := Z.land (Z.shiftr (nth (bit / 8) hash 0) (7 - Z.of_nat (bit mod 8))) 1.
Fixpoint bitsFrom (hash : list Z) (bit bits : nat) : string :=
  match bits with O => EmptyString | S bits => String (charOf (48 + hashBit hash bit)) (bitsFrom hash (S bit) bits) end.
Definition bitPrefix (hash : list Z) (bits : nat) : string := bitsFrom hash 0 bits.
Definition hashHasPrefix (objectID prefix : string) : bool := String.eqb (bitPrefix (sourceBlobHash objectID) (String.length prefix)) prefix.
Definition binaryPrefix (value : string) : bool := all (fun c => Ascii.eqb c "0" || Ascii.eqb c "1") value.

(** ** Validation of a manifest *)
(** [filepath.Base value == value] is no separator, or only one. *)
Definition safeBaseName (value : string) : bool :=
  (all (fun c => negb (Ascii.eqb c "/")) value || String.eqb value "/") && negb (String.eqb value ".") && negb (String.eqb value "").
Definition gitObjectRange (m : Member) : bool :=
  IsObjectID (me_FirstObjectID m) && IsObjectID (me_LastObjectID m) && negb (str_ltb (me_LastObjectID m) (me_FirstObjectID m)).

Definition validMember (m : Manifest) (ordinal : Z) (previousPrefix : string) (e : Member) : bool :=
  negb (negb (me_Ordinal e =? ordinal) || negb (me_Count e =? Z.of_nat (length (ma_Members m)))
        || negb (String.eqb (me_Name e) (memberName (ma_Repository m) (ma_GenerationDigest m) ordinal)) || negb (safeBaseName (me_Name e))
        || negb (me_PrefixBits e =? Z.of_nat (String.length (me_Prefix e))) || (me_PrefixBits e <? Z.of_nat InitialPrefixBits) || (256 <? me_PrefixBits e)
        || negb (binaryPrefix (me_Prefix e)) || (me_BlobCount e <? 1) || (MaxBlobsPerPartition <? me_BlobCount e)
        || (me_PlacementCount e <? me_BlobCount e) || (MaxPlacementsPerPartition <? me_PlacementCount e)
        || (me_DeclaredBytes e <? 0) || (MaxPartitionBlobBytes <? me_DeclaredBytes e) || (me_ContentBytes e <? 1)
        || (MaxMemberContentBytes <? me_ContentBytes e) || negb (validDigest (me_Digest e)) || negb (gitObjectRange e)
        || (0 <? ordinal) && (negb (str_ltb previousPrefix (me_Prefix e)) || String.prefix previousPrefix (me_Prefix e))).
Fixpoint validMembers (m : Manifest) (ordinal : Z) (previousPrefix : string) (l : list Member) : bool :=
  match l with
  | [] => true
  | e :: l => validMember m ordinal previousPrefix e && validMembers m (ordinal + 1) (me_Prefix e) l
  end.

(** The empty manifest is empty throughout. *)
Definition emptyShape (m : Manifest) : bool :=
  let none := ma_BlobCount m =? 0 in
  Bool.eqb none (Nat.eqb (length (ma_Members m)) 0) && Bool.eqb none (ma_PlacementCount m =? 0)
  && Bool.eqb none (ma_DeclaredBytes m =? 0) && Bool.eqb none (ma_EncodedMemberBytes m =? 0).

(** The members are a list: the nil slice the code refuses as well is not one. *)
Definition ValidateManifest (m : Manifest) : bool :=
  negb (negb (String.eqb (ma_Schema m) ManifestSchema) || negb (reponameValidate (ma_Repository m)) || negb (validDigest (ma_SourceGenerationDigest m))
        || (ma_RevisionCount m <? 1) || (8 <? ma_RevisionCount m) || negb (validDigest (ma_PolicyDigest m)) || negb (validDigest (ma_GenerationDigest m))
        || negb (validDigest (ma_Digest m)) || (MaxPartitions <? Z.of_nat (length (ma_Members m))) || (ma_BlobCount m <? 0)
        || (ma_PlacementCount m <? ma_BlobCount m) || (ma_DeclaredBytes m <? 0) || (MaxGenerationBlobBytes <? ma_DeclaredBytes m)
        || (ma_EncodedMemberBytes m <? 0) || (MaxGenerationContentBytes <? ma_EncodedMemberBytes m))
  && ValidatePolicy (ma_Policy m)
  && match PolicyDigest (ma_Policy m) with Some d => String.eqb d (ma_PolicyDigest m) | None => false end
  && bool_decide (ma_PartitionPolicy m = frozenPolicy)
  && match GenerationDigest (ma_Repository m) (ma_SourceGenerationDigest m) (ma_PolicyDigest m) with
     | Some d => String.eqb d (ma_GenerationDigest m) | None => false end
  && emptyShape m && validMembers m 0 "" (ma_Members m)
  && (total me_BlobCount (ma_Members m) =? ma_BlobCount m) && (total me_PlacementCount (ma_Members m) =? ma_PlacementCount m)
  && (total me_DeclaredBytes (ma_Members m) =? ma_DeclaredBytes m) && (total me_ContentBytes (ma_Members m) =? ma_EncodedMemberBytes m)
  && String.eqb (ManifestDigest m) (ma_Digest m).
End Digests.
