(* ===== verification/PartitionPlan.v ===== *)
(** * Source partitions: planning and encoding

    Model of [internal/sourcepartition/plan.go] and of the validation of a
    stage in [validate.go].  A spool file is the list of its records, a member
    file the list of the records whose encodings are its lines: a reader
    accepts a line only if it is the encoding of the record it decodes to.  The
    bytes are counted as they are encoded.  Failures of the file system and a
    canceled context, which end a build with their error at any point, are not
    modelled, nor are [repositoryindex.ValidateSourceManifest] and the reading
    of the source manifest: their results are part of the request. *)
From stdpp Require Import sorting pretty.
From Stdlib Require Import Ascii String.
From S2P Require Import Prelude.
From S2P Require Import GoStrings GoText PartitionModel.
#[local] Open Scope Z_scope.
#[local] Open Scope go_scope.

(** ** Errors *)
Inductive dimension :=
  | DimensionBlobBytes
  | DimensionBlobPlacements
  | DimensionPartitionCount
  | DimensionPlanningSpoolBytes
  | DimensionGenerationBlobBytes
  | DimensionGenerationEncodedBytes
  | DimensionGenerationControlBytes.

(** [ErrInvalid], [ErrTooLarge] measured or not, [ErrHashCollision].  The last
    is no error of the code: fuel that is not enough. *)
Inductive planErr :=
  | Invalid (what : string)
  | TooLarge (what : string)
  | Measured (d : dimension) (observed limit : Z)
  | HashCollision
  | OutOfFuel.

Definition checkPlanLimit (d : dimension) (observed limit : Z) : option planErr :=
  if observed <=? limit then None else Some (Measured d observed limit).
(** [return checkPlanLimit(...)]; without an error the caller goes on with [x]. *)
Definition refuse {S A} (d : dimension) (observed limit : Z) (x : A) : M S planErr A :=
  match checkPlanLimit d observed limit with Some e => throw e | None => ret x end.
Definition lift {S A} (r : res planErr A) : M S planErr A := match r with Ok x => ret x | Err e => throw e end.

(** ** Spools *)
Record BuildMetrics := mkMetrics {
  bm_SelectedPlacements : Z;
  bm_UniqueBlobs : Z;
  bm_UniqueBlobBytes : Z;
  bm_PeakSpoolBytes : Z;
  bm_currentSpoolBytes : Z
}.
#[export] Instance eta_BuildMetrics : Eta BuildMetrics := fun m =>
  mkMetrics (bm_SelectedPlacements m) (bm_UniqueBlobs m) (bm_UniqueBlobBytes m) (bm_PeakSpoolBytes m) (bm_currentSpoolBytes m).
Definition noMetrics : BuildMetrics := mkMetrics 0 0 0 0 0.

Record spoolRecord := mkSpoolRecord {
  so_ObjectID : string;
  so_DeclaredBytes : Z;
  so_Path : string;
  so_Mode : string;
  so_Revisions : list Z;
  so_Hash : string
}.
#[export] Instance spoolRecord_eq_dec : EqDecision spoolRecord.
Proof. solve_decision. Defined.
Definition spoolJSON (r : spoolRecord) : json :=
  JObject [("object_id", JString (so_ObjectID r)); ("declared_bytes", JInt (so_DeclaredBytes r)); ("path", JString (so_Path r));
    ("mode", JString (so_Mode r)); ("revisions", JArray (JInt <$> so_Revisions r)); ("hash", JString (so_Hash r))].

Record spool := mkSpool {
  sl_prefix : string;
  sl_bits : nat;
  sl_placements : Z;
  sl_declaredBytes : Z;
  sl_contentBytes : Z;
  sl_records : list spoolRecord
}.
Definition newSpool (prefix : string) (bits : nat) : spool := mkSpool prefix bits 0 0 0 [].

(** The encoding and its newline. *)
Definition encodedLength (j : json) : Z := Z.of_nat (String.length (Marshal j)) + 1.

Definition appendSpool (destination : spool) (r : spoolRecord) : M BuildMetrics planErr spool :=
  if (sl_placements destination =? MaxInt64) || (MaxInt64 - sl_declaredBytes destination <? so_DeclaredBytes r)
  then throw (TooLarge "spool summary overflows") else
  let payload := encodedLength (spoolJSON r) in
  if MaxRecordBytes <? payload then throw (Invalid "spool record violates its encoded bound") else
  metrics <- get ;;
  if MaxSpoolBytes - bm_currentSpoolBytes metrics <? payload
  then refuse DimensionPlanningSpoolBytes (bm_currentSpoolBytes metrics + payload) MaxSpoolBytes destination else
  let current := bm_currentSpoolBytes metrics + payload in
  put (metrics <| bm_currentSpoolBytes := current |> <| bm_PeakSpoolBytes := Z.max current (bm_PeakSpoolBytes metrics) |>) ;;
  ret (mkSpool (sl_prefix destination) (sl_bits destination) (sl_placements destination + 1)
    (sl_declaredBytes destination + so_DeclaredBytes r) (sl_contentBytes destination + payload) (sl_records destination ++ [r])).

Definition removeSpool (current : spool) : M BuildMetrics planErr unit :=
  modify (fun m => m <| bm_currentSpoolBytes := Z.max 0 (bm_currentSpoolBytes m - sl_contentBytes current) |>).

Section Plan.
Context `{Sha256}.

Definition gitObjectAndHashValid (r : spoolRecord) : bool :=
  negb (negb (IsObjectID (so_ObjectID r)) || negb (Nat.eqb (String.length (so_Hash r)) 64) || negb (repopathValidate (so_Path r))
        || negb (String.eqb (so_Mode r) "100644" || String.eqb (so_Mode r) "100755") || Nat.eqb (length (so_Revisions r)) 0
        || negb (isSorted Z.ltb (so_Revisions r)) || (so_DeclaredBytes r <? 0) || (MaxBlobBytes <? so_DeclaredBytes r))
  && match hexDecode (so_Hash r) with Some h => Nat.eqb (length h) 32 | None => false end
  && String.eqb (hexEncode (sourceBlobHash (so_ObjectID r))) (so_Hash r).

(** [forEachSpool]: the records, if each is valid; [visit] is called on a valid
    prefix only, and no visitor of the code has an effect that outlives an
    error. *)
Definition forEachSpool (current : spool) : res planErr (list spoolRecord) :=
  if forallb gitObjectAndHashValid (sl_records current) then Ok (sl_records current) else Err (Invalid "spool record identity is invalid").

(** *** Identity *)
Record identity := mkIdentity { id_firstObject : string; id_firstHash : string; id_allSameObject : bool; id_allSameHash : bool }.
Definition identityStep (i : identity) (r : spoolRecord) : identity :=
  if String.eqb (id_firstObject i) "" then mkIdentity (so_ObjectID r) (so_Hash r) (id_allSameObject i) (id_allSameHash i)
  else mkIdentity (id_firstObject i) (id_firstHash i) (id_allSameObject i && String.eqb (so_ObjectID r) (id_firstObject i))
         (id_allSameHash i && String.eqb (so_Hash r) (id_firstHash i)).
Definition spoolIdentity (current : spool) : res planErr (bool * bool) :=
  match forEachSpool current with
  | Err e => Err e
  | Ok records =>
      let i := foldl identityStep (mkIdentity "" "" true true) records in
      Ok (id_allSameObject i, id_allSameHash i)
  end.

(** *** Splitting *)
Definition addLeaf (current : spool) (leaves : list spool) : M BuildMetrics planErr (list spool) :=
  if MaxPartitions <=? Z.of_nat (length leaves)
  then refuse DimensionPartitionCount (Z.of_nat (length leaves) + 1) MaxPartitions leaves else ret (leaves ++ [current]).

Fixpoint distribute (bit : nat) (l : list spoolRecord) (left right : spool) : M BuildMetrics planErr (spool * spool) :=
  match l with
  | [] => ret (left, right)
  | r :: l =>
      match hexDecode (so_Hash r) with
      | Some hash =>
          if negb (Nat.eqb (length hash) 32) then throw (Invalid "spool hash is invalid")
          else if hashBit hash bit =? 1 then (right <- appendSpool right r ;; distribute bit l left right)
          else (left <- appendSpool left r ;; distribute bit l left right)
      | None => throw (Invalid "spool hash is invalid")
      end
  end.

Fixpoint splitFrom (fuel : nat) (current : spool) (leaves : list spool) : M BuildMetrics planErr (list spool) :=
  same <- lift (spoolIdentity current) ;;
  if same.1 then
    if MaxPlacementsPerPartition <? sl_placements current
    then refuse DimensionBlobPlacements (sl_placements current) MaxPlacementsPerPartition leaves else addLeaf current leaves
  else if (sl_placements current <=? MaxPlacementsPerPartition) && (sl_declaredBytes current <=? MaxPartitionBlobBytes)
  then addLeaf current leaves
  else if Nat.leb 256 (sl_bits current) || same.2 then throw HashCollision
  else match fuel with
       | O => throw OutOfFuel
       | S fuel =>
           let child (digit : string) := newSpool (sl_prefix current +:+ digit) (S (sl_bits current)) in
           records <- lift (forEachSpool current) ;;
           children <- distribute (sl_bits current) records (child "0") (child "1") ;;
           removeSpool current ;;
           leaves <- (if sl_placements children.1 =? 0 then ret leaves else splitFrom fuel children.1 leaves) ;;
           (if sl_placements children.2 =? 0 then ret leaves else splitFrom fuel children.2 leaves)
       end.
Definition splitSpool (current : spool) (leaves : list spool) : M BuildMetrics planErr (list spool) :=
  splitFrom (256 - sl_bits current) current leaves.

(** *** The pass over the source *)
Definition spooled (r : SourceRecord) : spoolRecord :=
  mkSpoolRecord (sr_ObjectID r) (sr_DeclaredBytes r) (sr_Path r) (sr_Mode r) (sr_Revisions r) (hexEncode (sourceBlobHash (sr_ObjectID r))).

Definition selected (p : Policy) (r : SourceRecord) : bool := String.eqb (sr_Kind r) "regular" && matches p (sr_Path r).

Fixpoint walkSource (p : Policy) (l : list SourceRecord) (roots : gmap string spool) : M BuildMetrics planErr (gmap string spool) :=
  match l with
  | [] => ret roots
  | r :: l =>
      if negb (selected p r) then walkSource p l roots
      else if MaxBlobBytes <? sr_DeclaredBytes r then
        (roots <- refuse DimensionBlobBytes (sr_DeclaredBytes r) MaxBlobBytes roots ;; walkSource p l roots)
      else
        metrics <- get ;;
        if bm_SelectedPlacements metrics =? MaxInt64 then throw (TooLarge "selected placement count overflows") else
        let prefix := bitPrefix (sourceBlobHash (sr_ObjectID r)) InitialPrefixBits in
        current <- appendSpool (default (newSpool prefix InitialPrefixBits) (roots !! prefix)) (spooled r) ;;
        modify (fun m => m <| bm_SelectedPlacements ::= Z.add 1 |>) ;;
        walkSource p l (<[prefix := current]> roots)
  end.

(** The order of [slices.Sort]. *)
Definition prefix_le (a b : string) : Prop := str_ltb b a = false.
#[global] Instance prefix_le_dec a b : Decision (prefix_le a b) := decide (str_ltb b a = false).

Fixpoint splitRoots (roots : gmap string spool) (prefixes : list string) (leaves : list spool) : M BuildMetrics planErr (list spool) :=
  match prefixes with
  | [] => ret leaves
  | prefix :: prefixes =>
      leaves <- splitSpool (default (newSpool prefix InitialPrefixBits) (roots !! prefix)) leaves ;;
      splitRoots roots prefixes leaves
  end.

(** [WalkPublishedSource] validates the whole source before it delivers it. *)
Definition planLeaves (p : Policy) (revisionCount : Z) (source : list SourceRecord) : M BuildMetrics planErr (list spool) :=
  if negb (validSource revisionCount source) then throw (Invalid "source records are invalid") else
  roots <- walkSource p source ∅ ;;
  leaves <- splitRoots roots (merge_sort prefix_le (map_to_list roots).*1) [] ;;
  if MaxPartitions <? Z.of_nat (length leaves)
  then refuse DimensionPartitionCount (Z.of_nat (length leaves)) MaxPartitions [] else ret leaves.
End Plan.
