(* ===== verification/PartitionTheorems.v ===== *)
(** * Source partitions: what a plan is

    Every selected record lies in one leaf; the leaves' prefixes are ordered
    and none extends another, so all placements of one object are in one leaf;
    leaves are within their bounds; and planning refuses only limits. *)
From stdpp Require Import sorting pretty.
From Stdlib Require Import Ascii String.
From S2P Require Import Prelude.
From S2P Require Import GoStrings GoText PartitionModel PartitionPlan.
#[local] Open Scope Z_scope.
#[local] Open Scope go_scope.

(** ** What a monadic operation yields, whatever the metrics *)
Definition yields {S E A} (m : M S E A) (Q : A -> Prop) (R : E -> Prop) : Prop :=
  forall s, match (m s).1 with Ok x => Q x | Err e => R e end.

Section Yields.
Context {S E : Type}.

Lemma yields_ret {A} (x : A) (Q : A -> Prop) (R : E -> Prop) : Q x -> yields (S := S) (ret x) Q R.
Proof. intros HQ s. exact HQ. Qed.
Lemma yields_throw {A} (e : E) (Q : A -> Prop) (R : E -> Prop) : R e -> yields (S := S) (throw e) Q R.
Proof. intros HR s. exact HR. Qed.
Lemma yields_get (Q : S -> Prop) (R : E -> Prop) : (forall s, Q s) -> yields get Q R.
Proof. intros HQ s. apply HQ. Qed.
Lemma yields_put s' (Q : unit -> Prop) (R : E -> Prop) : Q tt -> yields (S := S) (put s') Q R.
Proof. intros HQ s. exact HQ. Qed.
Lemma yields_modify (f : S -> S) (Q : unit -> Prop) (R : E -> Prop) : Q tt -> yields (modify f) Q R.
Proof. intros HQ s. exact HQ. Qed.
Lemma yields_bind {A B} (m : M S E A) (k : A -> M S E B) P Q R :
  yields m P R -> (forall x, P x -> yields (k x) Q R) -> yields (bind m k) Q R.
Proof.
  intros Hm Hk s. unfold bind. specialize (Hm s). destruct (m s) as [[x|e] s']; [|exact Hm]. by apply (Hk x).
Qed.
Lemma yields_then {A B} (x : A) (k : A -> M S E B) Q R : yields (k x) Q R -> yields (bind (ret x) k) Q R.
Proof. intros Hk s. exact (Hk s). Qed.
Lemma yields_mono {A} (m : M S E A) (P Q : A -> Prop) (R R' : E -> Prop) :
  yields m P R -> (forall x, P x -> Q x) -> (forall e, R e -> R' e) -> yields m Q R'.
Proof. intros Hm HQ HR s. specialize (Hm s). destruct (m s) as [[x|e] s']; cbn in *; auto. Qed.
End Yields.

(** A limit of the plan: [errors.Is(err, ErrTooLarge)]. *)
Definition isLimit (e : planErr) : bool := match e with TooLarge _ | Measured _ _ _ => true | _ => false end.

Lemma yields_refuse {S A} d observed limit (x : A) (Q : A -> Prop) (R : planErr -> Prop) :
  limit < observed -> (forall e, isLimit e = true -> R e) -> yields (S := S) (refuse d observed limit x) Q R.
Proof.
  intros Hlt HR. unfold refuse, checkPlanLimit. destruct (Z.leb_spec observed limit); [lia|]. by apply yields_throw, HR.
Qed.

(** ** Prefixes *)
Lemma append_cons x a b : String x a +:+ b = String x (a +:+ b).
Proof. reflexivity. Qed.
Lemma append_assoc a b c : a +:+ (b +:+ c) = (a +:+ b) +:+ c.
Proof. induction a as [|x a IH]; [done|]. by rewrite !append_cons, IH. Qed.
Lemma append_nil a : a +:+ "" = a.
Proof. induction a as [|x a IH]; [done|]. by rewrite append_cons, IH. Qed.

(** Neither extends the other, and they are in this order. *)
Definition before (a b : string) : Prop := str_ltb a b = true /\ String.prefix a b = false.

Lemma before_extend p q u v : String.length p = String.length q -> str_ltb p q = true -> before (p +:+ u) (q +:+ v).
Proof.
  unfold before, str_ltb. revert q. induction p as [|a p IH]; intros [|b q]; cbn [String.length]; try discriminate. intros [= Hl].
  rewrite !append_cons. cbn [String.compare String.prefix]. destruct (Ascii.compare a b) eqn:Ec; try discriminate.
  - apply Ascii.compare_eq_iff in Ec as ->. destruct (Ascii.ascii_dec b b) as [_|?]; [|congruence]. by apply IH.
  - intros _. split; [done|]. destruct (Ascii.ascii_dec a b) as [->|_]; [|done]. unfold Ascii.compare in Ec. by rewrite N.compare_refl in Ec.
Qed.

Lemma str_ltb_digits p : str_ltb (p +:+ "0") (p +:+ "1") = true.
Proof.
  unfold str_ltb. induction p as [|a p IH]; [done|]. rewrite !append_cons. cbn [String.compare]. unfold Ascii.compare. by rewrite N.compare_refl.
Qed.

Lemma prefix_append p u : String.prefix p (p +:+ u) = true.
Proof. induction p as [|a p IH]; [by destruct u|]. rewrite append_cons. cbn. destruct (Ascii.ascii_dec a a); [exact IH|congruence]. Qed.

Lemma prefix_not_after p q : String.prefix p q = true -> str_ltb q p = false.
Proof.
  unfold str_ltb. revert q. induction p as [|a p IH]; intros [|b q]; cbn; try done. destruct (Ascii.ascii_dec a b) as [->|_]; [|done].
  intros Hp. unfold Ascii.compare. rewrite N.compare_refl. by apply IH.
Qed.

Lemma bitsFrom_length hash i n : String.length (bitsFrom hash i n) = n.
Proof. revert i. induction n as [|n IH]; intros i; [done|]. cbn. by rewrite IH. Qed.
Lemma bitsFrom_add hash i n m : bitsFrom hash i (n + m) = bitsFrom hash i n +:+ bitsFrom hash (i + n) m.
Proof.
  revert i. induction n as [|n IH]; intros i; cbn; [by rewrite Nat.add_0_r|]. rewrite IH. rewrite Nat.add_succ_r. reflexivity.
Qed.

Lemma hashBit_01 hash bit : hashBit hash bit = 0 \/ hashBit hash bit = 1.
Proof.
  unfold hashBit. generalize (Z.shiftr (nth (bit / 8) hash 0) (7 - Z.of_nat (bit mod 8))). intros x.
  pose proof (Z.land_ones x 1 ltac:(lia)) as Hx. change (Z.ones 1) with 1 in Hx. change (2 ^ 1) with 2 in Hx. rewrite Hx. pose proof (Z.mod_pos_bound x 2). lia.
Qed.

Lemma bitPrefix_next hash n : bitPrefix hash (S n) = bitPrefix hash n +:+ (if hashBit hash n =? 1 then "1" else "0").
Proof.
  unfold bitPrefix. rewrite <- Nat.add_1_r, bitsFrom_add. cbn. destruct (hashBit_01 hash n) as [-> | ->]; reflexivity.
Qed.

(** The bits of a sum determine it. *)
Lemma bitsFrom_inj hash hash' i n : bitsFrom hash i n = bitsFrom hash' i n -> forall k, (i <= k < i + n)%nat -> hashBit hash k = hashBit hash' k.
Proof.
  revert i. induction n as [|n IH]; intros i E k Hk; [lia|]. cbn in E. injection E as Ec E. destruct (Nat.eq_dec k i) as [->|Hne].
  - destruct (hashBit_01 hash i) as [E1|E1], (hashBit_01 hash' i) as [E2|E2]; rewrite E1, E2 in *; done.
  - apply (IH (S i)); [exact E|lia].
Qed.

Lemma byte_bits x y : isByte x -> isByte y -> (forall j, 0 <= j < 8 -> Z.land (Z.shiftr x j) 1 = Z.land (Z.shiftr y j) 1) -> x = y.
Proof.
  unfold isByte. intros Hx Hy Hbits. apply Z.bits_inj'. intros j Hj. destruct (Z.lt_ge_cases j 8) as [Hlt|Hge].
  - specialize (Hbits j (conj Hj Hlt)). change 1 with (Z.ones 1) in Hbits. rewrite !Z.land_ones in Hbits by lia.
    rewrite !Z.shiftr_div_pow2 in Hbits by lia. rewrite !Z.testbit_eqb by lia. change (2 ^ 1) with 2 in Hbits. by rewrite Hbits.
  - assert (Hsmall : forall z, 0 <= z < 256 -> Z.testbit z j = false); [|by rewrite !Hsmall].
    intros z Hz. destruct (Z.eq_dec z 0) as [->|]; [apply Z.bits_0|]. apply Z.bits_above_log2; [lia|].
    apply Z.lt_le_trans with 8; [|exact Hge]. apply Z.log2_lt_pow2; [lia|]. change (2 ^ 8) with 256. lia.
Qed.

Lemma bits_determine hash hash' :
  length hash = 32%nat -> length hash' = 32%nat -> Forall isByte hash -> Forall isByte hash' -> bitPrefix hash 256 = bitPrefix hash' 256 -> hash = hash'.
Proof.
  intros Hl Hl' Hb Hb' E. apply (nth_ext _ _ 0 0); [congruence|]. intros i Hi. rewrite Hl in Hi.
  assert (Hbyte : forall h, length h = 32%nat -> Forall isByte h -> isByte (nth i h 0)).
  { intros h Hh Ha. rewrite Forall_forall in Ha. apply Ha, list_elem_of_In, nth_In. lia. }
  apply byte_bits; auto. intros j Hj. pose proof (bitsFrom_inj _ _ _ _ E (i * 8 + (7 - Z.to_nat j))%nat ltac:(lia)) as Ek. unfold hashBit in Ek.
  replace ((i * 8 + (7 - Z.to_nat j)) / 8)%nat with i in Ek by (apply (Nat.div_unique _ 8 i (7 - Z.to_nat j)); lia).
  replace ((i * 8 + (7 - Z.to_nat j)) mod 8)%nat with (7 - Z.to_nat j)%nat in Ek by (apply (Nat.mod_unique _ 8 i); lia).
  by replace (7 - Z.of_nat (7 - Z.to_nat j)) with j in Ek by lia.
Qed.

(** Two prefixes of one string are comparable. *)
Lemma prefixes_of_one hash n m : (n <= m)%nat -> String.prefix (bitPrefix hash n) (bitPrefix hash m) = true.
Proof. intros Hle. replace m with (n + (m - n))%nat by lia. unfold bitPrefix. rewrite bitsFrom_add. apply prefix_append. Qed.

Section Plans.
Context `{Sha256Laws}.
Implicit Types (r : spoolRecord) (l : list spoolRecord) (x : spool).

(** ** Spools *)

(** What a spool says of itself is what it holds. *)
Record holds (prefix : string) (bits : nat) l x : Prop := mkHolds {
  hd_prefix : sl_prefix x = prefix;
  hd_bits : sl_bits x = bits;
  hd_placements : sl_placements x = Z.of_nat (length l);
  hd_declared : sl_declaredBytes x = total so_DeclaredBytes l;
  hd_records : sl_records x = l
}.

Lemma holds_new prefix bits : holds prefix bits [] (newSpool prefix bits).
Proof. by split. Qed.

(** A record as the walk spools it. *)
Definition good r : Prop := gitObjectAndHashValid r = true.

(** Why a pass over [l] may end. *)
Definition refusal l (e : planErr) : Prop :=
  isLimit e = true \/ (exists r, r ∈ l /\ good r /\ MaxRecordBytes < encodedLength (spoolJSON r)) \/
  (exists a b, a ∈ l /\ b ∈ l /\ so_ObjectID a <> so_ObjectID b /\ sourceBlobHash (so_ObjectID a) = sourceBlobHash (so_ObjectID b)).

Lemma refusal_limit l e : isLimit e = true -> refusal l e.
Proof. by left. Qed.
Lemma refusal_sub l l' e : (forall r, r ∈ l -> r ∈ l') -> refusal l e -> refusal l' e.
Proof.
  intros Hsub [?|[(r & ? & ? & ?)|(a & b & ? & ? & ? & ?)]]; [by left|right; left; exists r; auto|].
  right. right. exists a, b. auto.
Qed.

Lemma appended prefix bits l x r (R : planErr -> Prop) :
  holds prefix bits l x -> good r -> (forall e, refusal [r] e -> R e) -> yields (appendSpool x r) (holds prefix bits (l ++ [r])) R.
Proof.
  intros Hx Hgood HR. unfold appendSpool. destruct (_ || _); [apply yields_throw, HR; by left|].
  destruct (Z.ltb_spec MaxRecordBytes (encodedLength (spoolJSON r))) as [Hlong|_].
  { apply yields_throw, HR. right. left. exists r. split_and!; [by left|exact Hgood|exact Hlong]. }
  apply (yields_bind _ _ (fun _ => True)); [by apply yields_get|]. intros metrics _.
  destruct (Z.ltb_spec (MaxSpoolBytes - bm_currentSpoolBytes metrics) (encodedLength (spoolJSON r))).
  { apply yields_refuse; [lia|]. intros e He. apply HR. by left. }
  apply (yields_bind _ _ (fun _ => True)); [by apply yields_put|]. intros _ _. apply yields_ret. destruct Hx. split; cbn; auto.
  - rewrite length_app. cbn. lia.
  - rewrite total_snoc. congruence.
  - congruence.
Qed.

(** ** Records *)

Lemma good_hash r : good r -> so_Hash r = hexEncode (sourceBlobHash (so_ObjectID r)) /\ hexDecode (so_Hash r) = Some (sourceBlobHash (so_ObjectID r)) /\
  length (sourceBlobHash (so_ObjectID r)) = 32%nat /\ so_ObjectID r <> "".
Proof.
  unfold good, gitObjectAndHashValid. intros Hg. bsplit. destruct (sum256_bytes (BlobHashPolicy +:+ NUL +:+ so_ObjectID r)) as [Hl Hb].
  match goal with Hh : String.eqb _ (so_Hash r) = true |- _ => apply String.eqb_eq in Hh; rename Hh into Hs end. split; [done|]. split; [|split; [exact Hl|]].
  - rewrite <- Hs. by apply hexDecode_Encode.
  - intros E. match goal with Hid : IsObjectID _ = true |- _ => by rewrite E in Hid end.
Qed.

Lemma forEachSpool_good x l prefix bits : holds prefix bits l x -> Forall good l -> forEachSpool x = Ok l.
Proof.
  intros Hx Hl. unfold forEachSpool. rewrite (hd_records _ _ _ _ Hx). rewrite (proj2 (forallb_forall _ _)); [done|].
  intros r Hr%list_elem_of_In. rewrite Forall_forall in Hl. by apply Hl.
Qed.

(** *** Identity *)
Lemma identity_found l first hash so sh :
  first <> "" -> foldl identityStep (mkIdentity first hash so sh) l =
    mkIdentity first hash (so && forallb (fun r => String.eqb (so_ObjectID r) first) l) (sh && forallb (fun r => String.eqb (so_Hash r) hash) l).
Proof.
  intros Hf. revert so sh. induction l as [|r l IH]; intros so sh; cbn [foldl forallb]; [by rewrite !andb_true_r|].
  unfold identityStep at 2. cbn [id_firstObject id_firstHash id_allSameObject id_allSameHash]. destruct (String.eqb_spec first ""); [done|].
  by rewrite IH, !andb_assoc.
Qed.

Lemma identified x l r prefix bits :
  holds prefix bits (r :: l) x -> Forall good (r :: l) ->
  spoolIdentity x = Ok (forallb (fun y => String.eqb (so_ObjectID y) (so_ObjectID r)) l, forallb (fun y => String.eqb (so_Hash y) (so_Hash r)) l).
Proof.
  intros Hx Hl. unfold spoolIdentity. rewrite (forEachSpool_good _ _ _ _ Hx Hl).
  change (foldl identityStep (mkIdentity "" "" true true) (r :: l)) with (foldl identityStep (mkIdentity (so_ObjectID r) (so_Hash r) true true) l).
  rewrite identity_found; [done|]. inversion Hl as [|? ? Hr _]. by apply good_hash.
Qed.

(** ** Splitting *)
Definition bitOf (bit : nat) r : bool := hashBit (sourceBlobHash (so_ObjectID r)) bit =? 1.

Lemma distributed bit l prefix prefix' bits la lb left right (R : planErr -> Prop) :
  holds prefix bits la left -> holds prefix' bits lb right -> Forall good l -> (forall e, refusal l e -> R e) ->
  yields (distribute bit l left right)
    (fun c => holds prefix bits (la ++ base.filter (fun r => bitOf bit r = false) l) c.1 /\ holds prefix' bits (lb ++ base.filter (fun r => bitOf bit r = true) l) c.2) R.
Proof.
  revert la lb left right. induction l as [|r l IH]; intros la lb left right Hla Hlb Hl HR; cbn [distribute].
  { apply yields_ret. cbn. by rewrite !app_nil_r. }
  inversion Hl as [|? ? Hr Hl']; subst. destruct (good_hash r Hr) as (_ & -> & -> & _). cbn [Nat.eqb negb].
  assert (HR1 : forall e, refusal [r] e -> R e) by (intros e He; apply HR; eapply refusal_sub; [|exact He]; intros y ->%list_elem_of_singleton; by left).
  assert (HR2 : forall e, refusal l e -> R e) by (intros e He; apply HR; eapply refusal_sub; [|exact He]; intros y ?; by right).
  change (hashBit (sourceBlobHash (so_ObjectID r)) bit =? 1) with (bitOf bit r). destruct (bitOf bit r) eqn:Eb.
  - rewrite filter_cons_False, filter_cons_True by congruence. eapply yields_bind; [by apply appended|]. intros right' Hr'. cbn beta.
    specialize (IH la (lb ++ [r]) left right' Hla Hr' Hl' HR2). by rewrite <- app_assoc in IH.
  - rewrite filter_cons_True, filter_cons_False by congruence. eapply yields_bind; [by apply appended|]. intros left' Hl2. cbn beta.
    specialize (IH (la ++ [r]) lb left' right Hl2 Hlb Hl' HR2). by rewrite <- app_assoc in IH.
Qed.
(** A leaf: within its bounds, or of one object. *)
Record leafOK x : Prop := mkLeaf {
  lf_placements : sl_placements x = Z.of_nat (length (sl_records x));
  lf_declared : sl_declaredBytes x = total so_DeclaredBytes (sl_records x);
  lf_some : sl_records x <> [];
  lf_good : Forall good (sl_records x);
  lf_bits : (InitialPrefixBits <= sl_bits x <= 256)%nat;
  lf_prefix : forall r, r ∈ sl_records x -> bitPrefix (sourceBlobHash (so_ObjectID r)) (sl_bits x) = sl_prefix x;
  lf_max : sl_placements x <= MaxPlacementsPerPartition;
  lf_bytes : sl_declaredBytes x <= MaxPartitionBlobBytes \/ forall r r', r ∈ sl_records x -> r' ∈ sl_records x -> so_ObjectID r = so_ObjectID r'
}.

(** What the records of a spool are split into. *)
Definition splitInto (prefix : string) l (leaves out : list spool) : Prop :=
  exists new, out = leaves ++ new /\ Forall leafOK new /\ concat (sl_records <$> new) ≡ₚ l /\
    (forall x, x ∈ new -> exists u, sl_prefix x = prefix +:+ u) /\ StronglySorted before (sl_prefix <$> new).

Lemma splitInto_nil prefix leaves : splitInto prefix [] leaves leaves.
Proof. exists []. rewrite app_nil_r. split_and!; auto; [intros x []%elem_of_nil|constructor]. Qed.

Lemma splitInto_one prefix l x leaves : leafOK x -> sl_prefix x = prefix -> sl_records x = l -> splitInto prefix l leaves (leaves ++ [x]).
Proof.
  intros Hx Hp Hl. exists [x]. split_and!; auto; [cbn; by rewrite app_nil_r, Hl| |repeat constructor].
  intros y ->%list_elem_of_singleton. exists "". by rewrite append_nil.
Qed.

Lemma splitInto_two prefix l l0 l1 leaves mid out :
  l0 ++ l1 ≡ₚ l -> splitInto (prefix +:+ "0") l0 leaves mid -> splitInto (prefix +:+ "1") l1 mid out -> splitInto prefix l leaves out.
Proof.
  intros Hl (n0 & -> & Ho0 & Hc0 & Hp0 & Hs0) (n1 & -> & Ho1 & Hc1 & Hp1 & Hs1). exists (n0 ++ n1). split_and!.
  - by rewrite app_assoc.
  - by apply Forall_app_2.
  - by rewrite fmap_app, concat_app, Hc0, Hc1.
  - intros x [Hx|Hx]%elem_of_app; [apply Hp0 in Hx as [u ->]|apply Hp1 in Hx as [u ->]]; rewrite <- append_assoc; by eexists.
  - rewrite fmap_app. apply StronglySorted_app_2; [|exact Hs0|exact Hs1].
    intros a b (x & -> & [u ->]%Hp0)%list_elem_of_fmap (y & -> & [v ->]%Hp1)%list_elem_of_fmap.
    apply before_extend; [by rewrite !length_append|apply str_ltb_digits].
Qed.

Lemma added x leaves prefix l (R : planErr -> Prop) :
  leafOK x -> sl_prefix x = prefix -> sl_records x = l -> (forall e, isLimit e = true -> R e) -> yields (addLeaf x leaves) (splitInto prefix l leaves) R.
Proof.
  intros Hx Hp Hl HR. unfold addLeaf. destruct (Z.leb_spec MaxPartitions (Z.of_nat (length leaves))).
  - apply yields_refuse; [lia|exact HR].
  - apply yields_ret. by apply splitInto_one.
Qed.
(** The records under one prefix. *)
Definition under (prefix : string) (bits : nat) l : Prop :=
  Forall good l /\ (InitialPrefixBits <= bits <= 256)%nat /\ forall r, r ∈ l -> bitPrefix (sourceBlobHash (so_ObjectID r)) bits = prefix.

Lemma under_leaf prefix bits l x :
  holds prefix bits l x -> under prefix bits l -> l <> [] -> sl_placements x <= MaxPlacementsPerPartition ->
  (sl_declaredBytes x <= MaxPartitionBlobBytes \/ forall r r', r ∈ l -> r' ∈ l -> so_ObjectID r = so_ObjectID r') -> leafOK x.
Proof. intros [<- <- Hp Hd Hr] (Hg & Hb & Hu) Hne Hm Hby. split; rewrite ?Hr; auto. Qed.

Lemma under_next prefix bits l (b : bool) :
  under prefix bits l -> (bits < 256)%nat -> under (prefix +:+ (if b then "1" else "0")) (S bits) (base.filter (fun r => bitOf bits r = b) l).
Proof.
  intros (Hg & Hb & Hu) Hlt. split_and!; [|lia|lia|].
  - apply Forall_forall. intros r [_ Hr]%list_elem_of_filter. rewrite Forall_forall in Hg. by apply Hg.
  - intros r [Hbit Hr]%list_elem_of_filter. rewrite bitPrefix_next, (Hu r Hr). unfold bitOf in Hbit. by rewrite Hbit.
Qed.

Lemma bit_halves bit l : base.filter (fun r => bitOf bit r = false) l ++ base.filter (fun r => bitOf bit r = true) l ≡ₚ l.
Proof.
  rewrite <- (filter_app_complement (fun r => bitOf bit r = false) l) at 3. apply Permutation_app_head.
  erewrite list_filter_iff; [reflexivity|]. intros r. cbn. destruct (bitOf bit r); split; done.
Qed.

Lemma same_objects r l : forallb (fun y => String.eqb (so_ObjectID y) (so_ObjectID r)) l = true ->
  forall a b, a ∈ r :: l -> b ∈ r :: l -> so_ObjectID a = so_ObjectID b.
Proof.
  intros Hall. rewrite forallb_forall in Hall. assert (Hr : forall a, a ∈ r :: l -> so_ObjectID a = so_ObjectID r).
  { intros a [->|Ha]%elem_of_cons; [done|]. by apply String.eqb_eq, Hall, list_elem_of_In. }
  intros a b Ha Hb. by rewrite (Hr a Ha), (Hr b Hb).
Qed.

(** Records that are told apart by their object but not by their hash. *)
Lemma collide prefix bits r l e :
  under prefix bits (r :: l) -> forallb (fun y => String.eqb (so_ObjectID y) (so_ObjectID r)) l = false ->
  Nat.leb 256 bits || forallb (fun y => String.eqb (so_Hash y) (so_Hash r)) l = true -> refusal (r :: l) e.
Proof.
  intros (Hg & Hb & Hu) Hso Hh. right. right. rewrite Forall_forall in Hg.
  assert (exists y, y ∈ l /\ so_ObjectID y <> so_ObjectID r) as (y & Hy & Hne).
  { clear -Hso. induction l as [|y l IH]; [discriminate|]. cbn in Hso. destruct (String.eqb_spec (so_ObjectID y) (so_ObjectID r)).
    - destruct (IH Hso) as (z & ? & ?). exists z. split; [by right|done].
    - exists y. split; [by left|done]. }
  assert (Hyr : y ∈ r :: l) by by right. exists y, r. split_and!; [exact Hyr|by left|exact Hne|].
  assert (Hrr : r ∈ r :: l) by by left. apply orb_true_iff in Hh as [Hh%Nat.leb_le|Hh].
  - assert (bits = 256%nat) as -> by lia. destruct (sum256_bytes (BlobHashPolicy +:+ NUL +:+ so_ObjectID y)), (sum256_bytes (BlobHashPolicy +:+ NUL +:+ so_ObjectID r)).
    apply bits_determine; auto. by rewrite (Hu y Hyr), (Hu r Hrr).
  - rewrite forallb_forall in Hh. apply list_elem_of_In, Hh, String.eqb_eq in Hy.
    destruct (good_hash y (Hg y Hyr)) as (_ & Hdy & _), (good_hash r (Hg r Hrr)) as (_ & Hdr & _). rewrite Hy in Hdy. congruence.
Qed.

Lemma nonempty_placements prefix bits l x : holds prefix bits l x -> (sl_placements x =? 0) = true -> l = [].
Proof. intros Hx Hz%Z.eqb_eq. rewrite (hd_placements _ _ _ _ Hx) in Hz. destruct l; [done|cbn in Hz; lia]. Qed.

Lemma splits fuel l current leaves prefix bits (R : planErr -> Prop) :
  holds prefix bits l current -> under prefix bits l -> l <> [] -> (bits + fuel = 256)%nat -> (forall e, refusal l e -> R e) ->
  yields (splitFrom fuel current leaves) (splitInto prefix l leaves) R.
Proof.
  revert l current leaves prefix bits. induction fuel as [|fuel IH]; intros l current leaves prefix bits Hx Hu Hne Hf HR; destruct l as [|r l]; try done.
  all: assert (HL : forall e, isLimit e = true -> R e) by (intros e He; apply HR; by left).
  all: pose proof (identified _ _ _ _ _ Hx (proj1 Hu)) as Hid; cbn [splitFrom]; rewrite Hid; cbn [lift].
  all: apply yields_then; cbn [fst snd].
  all: destruct (forallb (fun y => String.eqb (so_ObjectID y) (so_ObjectID r)) l) eqn:Eo.
  all: try (destruct (Z.ltb_spec MaxPlacementsPerPartition (sl_placements current)); [by apply yields_refuse|];
    apply added; [eapply under_leaf; eauto using same_objects|apply Hx|apply Hx|exact HL]).
  all: destruct ((sl_placements current <=? MaxPlacementsPerPartition) && (sl_declaredBytes current <=? MaxPartitionBlobBytes)) eqn:Ew.
  all: try (bsplit; apply added; [eapply under_leaf; eauto|apply Hx|apply Hx|exact HL]).
  all: rewrite (hd_bits _ _ _ _ Hx).
  all: destruct (Nat.leb 256 bits || forallb (fun y => String.eqb (so_Hash y) (so_Hash r)) l) eqn:Ec; [by apply yields_throw, HR; eapply collide|].
  { exfalso. apply orb_false_iff in Ec as [Ec%Nat.leb_gt _]. lia. }
  apply orb_false_iff in Ec as [Ec%Nat.leb_gt _]. rewrite (hd_prefix _ _ _ _ Hx).
  rewrite (forEachSpool_good _ _ _ _ Hx (proj1 Hu)). apply yields_then.
  eapply yields_bind; [apply (distributed bits (r :: l)); [apply holds_new|apply holds_new|apply Hu|exact HR]|]. intros [left right] [Hl Hr]. cbn [fst snd app] in *.
  apply (yields_bind _ _ (fun _ => True)); [by apply yields_modify|]. intros _ _.
  assert (Hchild : forall (b : bool) child leaves', holds (prefix +:+ (if b then "1" else "0")) (S bits) (base.filter (fun r => bitOf bits r = b) (r :: l)) child ->
    yields (if sl_placements child =? 0 then ret leaves' else splitFrom fuel child leaves')
      (splitInto (prefix +:+ (if b then "1" else "0")) (base.filter (fun r => bitOf bits r = b) (r :: l)) leaves') R).
  { intros b child leaves' Hc. destruct (sl_placements child =? 0) eqn:Ez.
    - apply (nonempty_placements _ _ _ _ Hc) in Ez. rewrite Ez. apply yields_ret, splitInto_nil.
    - apply (IH _ _ _ _ _ Hc); [by apply under_next| |lia|].
      + intros E. rewrite E in Hc. rewrite (hd_placements _ _ _ _ Hc) in Ez. done.
      + intros e He. apply HR. eapply refusal_sub; [|exact He]. by intros y [_ Hy]%list_elem_of_filter. }
  eapply yields_bind; [apply (Hchild false), Hl|]. intros mid Hmid. eapply yields_mono; [apply (Hchild true), Hr| |auto].
  intros out Hout. eapply splitInto_two; [apply (bit_halves bits)|exact Hmid|exact Hout].
Qed.

(** ** The pass over the source *)
Definition rootOf r : string := bitPrefix (sourceBlobHash (so_ObjectID r)) InitialPrefixBits.
Definition inRoot (prefix : string) l : list spoolRecord := base.filter (fun r => rootOf r = prefix) l.
(** What is planned of a source. *)
Definition planned (p : Policy) (source : list SourceRecord) : list spoolRecord := spooled <$> base.filter (fun sr => selected p sr = true) source.

Lemma good_spooled p (r : SourceRecord) revisionCount :
  validateRecord r revisionCount = true -> selected p r = true -> sr_DeclaredBytes r <= MaxBlobBytes -> good (spooled r).
Proof.
  unfold validateRecord, selected. intros Hv Hs Hd. bsplit. match goal with Hk : String.eqb (sr_Kind r) "regular" = true |- _ => rewrite Hk in * end.
  destruct (sum256_bytes (BlobHashPolicy +:+ NUL +:+ sr_ObjectID r)) as [Hl Hb]. unfold validRevisions in *. bsplit.
  unfold good, gitObjectAndHashValid, spooled. cbn. unfold sourceBlobHash. rewrite hexDecode_Encode, length_hexEncode, Hl, String.eqb_refl by exact Hb. cbn.
  repeat match goal with Hx : ?b = _ |- context [?b] => rewrite Hx end. cbn.
  destruct (Z.ltb_spec (sr_DeclaredBytes r) 0); [lia|]. destruct (Z.ltb_spec MaxBlobBytes (sr_DeclaredBytes r)); [lia|].
  destruct (sr_Revisions r); [discriminate|]. done.
Qed.

Record rootsOK l (roots : gmap string spool) : Prop := mkRoots {
  ro_holds : forall prefix, holds prefix InitialPrefixBits (inRoot prefix l) (default (newSpool prefix InitialPrefixBits) (roots !! prefix));
  ro_some : forall prefix, is_Some (roots !! prefix) <-> exists r, r ∈ l /\ rootOf r = prefix
}.

Lemma rootsOK_empty : rootsOK [] ∅.
Proof.
  split; intros prefix; [rewrite lookup_empty; apply holds_new|]. rewrite lookup_empty. split; [by intros [? ?]|by intros (r & []%elem_of_nil & _)].
Qed.

Lemma rootsOK_insert l roots r x :
  rootsOK l roots -> holds (rootOf r) InitialPrefixBits (inRoot (rootOf r) l ++ [r]) x -> rootsOK (l ++ [r]) (<[rootOf r := x]> roots).
Proof.
  intros [Hh Hs] Hx. split; intros prefix; (destruct (decide (prefix = rootOf r)) as [->|Hne]; [rewrite lookup_insert_eq|rewrite lookup_insert_ne by congruence]).
  - unfold inRoot. rewrite filter_app, filter_cons_True by done. exact Hx.
  - unfold inRoot. rewrite filter_app, filter_cons_False by congruence. cbn. rewrite app_nil_r. apply Hh.
  - split; [|done]. intros _. exists r. split; [apply elem_of_app; right; by left|done].
  - rewrite Hs. split; intros (y & Hy & E); exists y; (split; [|exact E]); [by apply elem_of_app; left|].
    apply elem_of_app in Hy as [?| ->%list_elem_of_singleton]; [done|congruence].
Qed.

Lemma walked p source l roots (R : planErr -> Prop) :
  rootsOK l roots -> Forall good l -> Forall (fun sr => exists n, validateRecord sr n = true) source -> (forall e, refusal (planned p source) e -> R e) ->
  yields (walkSource p source roots) (fun roots' => rootsOK (l ++ planned p source) roots' /\ Forall good (l ++ planned p source)) R.
Proof.
  revert l roots. induction source as [|r source IH]; intros l roots Hroots Hl Hv HR; cbn [walkSource].
  { apply yields_ret. unfold planned. cbn. by rewrite app_nil_r. }
  inversion Hv as [|? ? [n Hr] Hv']; subst. unfold planned in *. destruct (selected p r) eqn:Es; cbn [negb].
  - rewrite filter_cons_True by done. rewrite filter_cons_True in HR by done. cbn [fmap list_fmap] in *.
    destruct (Z.ltb_spec MaxBlobBytes (sr_DeclaredBytes r)).
    { eapply (yields_bind _ _ (fun _ => False)); [apply yields_refuse; [lia|]; intros e He; apply HR; by left|done]. }
    apply (yields_bind _ _ (fun _ => True)); [by apply yields_get|]. intros metrics _. destruct (_ =? MaxInt64); [apply yields_throw, HR; by left|].
    eapply yields_bind.
    { apply appended; [apply (ro_holds _ _ Hroots)|by eapply good_spooled|]. intros e He. apply HR. eapply refusal_sub; [|exact He]. intros y ->%list_elem_of_singleton. by left. }
    intros x Hx. apply (yields_bind _ _ (fun _ => True)); [by apply yields_modify|]. intros _ _. cbn beta.
    change (spooled r :: ?rest) with ([spooled r] ++ rest). rewrite app_assoc. apply IH; [by apply (rootsOK_insert _ _ (spooled r))| |exact Hv'|].
    + apply Forall_app_2; [exact Hl|]. constructor; [by eapply good_spooled|constructor].
    + intros e He. apply HR. eapply refusal_sub; [|exact He]. intros y Hy. by right.
  - rewrite filter_cons_False by congruence. rewrite filter_cons_False in HR by congruence. by apply IH.
Qed.

Lemma validSource_records n source : validSource n source = true -> Forall (fun sr => exists n, validateRecord sr n = true) source.
Proof.
  unfold validSource. generalize "" at 1. generalize "". generalize (@nil Z). induction source as [|r source IH]; intros owned path key; cbn [walkFrom]; [constructor|].
  intros Hw. bsplit. constructor; [by exists n|]. by eapply IH.
Qed.

(** *** The roots in order *)
Definition spread (ps : list string) l (leaves out : list spool) : Prop :=
  exists new, out = leaves ++ new /\ Forall leafOK new /\ concat (sl_records <$> new) ≡ₚ concat ((fun p => inRoot p l) <$> ps) /\
    (forall x, x ∈ new -> exists p u, p ∈ ps /\ sl_prefix x = p +:+ u) /\ StronglySorted before (sl_prefix <$> new).

Lemma splitRoots_spread ps l roots leaves (R : planErr -> Prop) :
  rootsOK l roots -> Forall good l -> StronglySorted (fun a b => str_ltb a b = true) ps -> (forall p, p ∈ ps -> is_Some (roots !! p)) ->
  (forall e, refusal l e -> R e) -> yields (splitRoots roots ps leaves) (spread ps l leaves) R.
Proof.
  intros Hroots Hl Hsort Hps HR. revert leaves. induction ps as [|p ps IH]; intros leaves; cbn [splitRoots].
  { apply yields_ret. exists []. rewrite app_nil_r. split_and!; auto; [intros x []%elem_of_nil|constructor]. }
  apply StronglySorted_inv in Hsort as [Hsort Hfirst]. destruct (proj1 (ro_some _ _ Hroots p) (Hps p ltac:(by left))) as (r & Hr & Er).
  assert (Hin : r ∈ inRoot p l) by by apply list_elem_of_filter.
  assert (Hlen : forall q, q ∈ p :: ps -> String.length q = InitialPrefixBits).
  { intros q Hq. destruct (proj1 (ro_some _ _ Hroots q) (Hps q Hq)) as (y & _ & <-). apply bitsFrom_length. }
  eapply yields_bind.
  { unfold splitSpool. rewrite (hd_bits _ _ _ _ (ro_holds _ _ Hroots p)). apply (splits _ (inRoot p l) _ _ p InitialPrefixBits).
    - apply (ro_holds _ _ Hroots).
    - split_and!; [|done|vm_compute; lia|by intros y [Hy _]%list_elem_of_filter].
      apply Forall_forall. intros y [_ Hy]%list_elem_of_filter. rewrite Forall_forall in Hl. by apply Hl.
    - intros E. rewrite E in Hin. by apply elem_of_nil in Hin.
    - done.
    - intros e He. apply HR. eapply refusal_sub; [|exact He]. by intros y [_ Hy]%list_elem_of_filter. }
  intros mid (new & -> & Ho & Hc & Hp & Hs). eapply yields_mono; [apply IH; [exact Hsort|intros q Hq; apply Hps; by right]| |auto].
  intros out (new' & -> & Ho' & Hc' & Hp' & Hs'). exists (new ++ new'). split_and!.
  - by rewrite app_assoc.
  - by apply Forall_app_2.
  - rewrite fmap_app, concat_app. cbn. by rewrite Hc, Hc'.
  - intros x [Hx|Hx]%elem_of_app; [destruct (Hp x Hx) as [u ?]; exists p, u; split; [by left|done]|].
    destruct (Hp' x Hx) as (q & u & ? & ?). exists q, u. split; [by right|done].
  - rewrite fmap_app. apply StronglySorted_app_2; [|exact Hs|exact Hs'].
    intros a b (x & -> & [u ->]%Hp)%list_elem_of_fmap (y & -> & (q & v & Hq & ->)%Hp')%list_elem_of_fmap.
    rewrite List.Forall_forall in Hfirst. apply before_extend; [|by apply Hfirst, list_elem_of_In].
    rewrite !Hlen; [done|by right|by left].
Qed.

#[local] Instance prefix_le_trans : Transitive prefix_le.
Proof.
  intros a b c Hab Hbc. unfold prefix_le in *. apply not_true_is_false. intros Hca. destruct (String.eqb_spec b c) as [->|Hne]; [congruence|].
  pose proof (str_ltb_trans _ _ _ (str_ltb_total _ _ Hbc (not_eq_sym Hne)) Hca). congruence.
Qed.
#[local] Instance prefix_le_total : Total prefix_le.
Proof. intros a b. unfold prefix_le. destruct (str_ltb b a) eqn:E; [right; by apply str_ltb_asym|by left]. Qed.

Lemma strictly_sorted (l : list string) : StronglySorted prefix_le l -> NoDup l -> StronglySorted (fun a b => str_ltb a b = true) l.
Proof.
  induction 1 as [|a l Hs IH Ha]; intros HN; constructor; apply NoDup_cons in HN as [Hna HN]; [by apply IH|].
  rewrite List.Forall_forall in Ha |- *. intros b Hb. apply str_ltb_total; [by apply Ha|]. intros ->. by apply Hna, list_elem_of_In.
Qed.

Lemma by_roots (ps : list string) l : NoDup ps -> (forall r, r ∈ l -> rootOf r ∈ ps) -> concat ((fun p => inRoot p l) <$> ps) ≡ₚ l.
Proof.
  revert l. induction ps as [|p ps IH]; intros l HN Hl; cbn.
  - destruct l as [|r l]; [done|]. by pose proof (Hl r ltac:(by left)) as []%elem_of_nil.
  - apply NoDup_cons in HN as [Hp HN]. set (rest := base.filter (fun r => rootOf r <> p) l).
    assert (E : (fun q => inRoot q l) <$> ps = (fun q => inRoot q rest) <$> ps).
    { apply list_fmap_ext. intros i q Hq%list_elem_of_lookup_2. unfold inRoot, rest. rewrite list_filter_filter. apply list_filter_iff.
      intros r. split; [|by intros [? _]]. intros E. split; [exact E|]. intros E'. apply Hp. congruence. }
    rewrite E, (IH rest HN); [apply filter_app_complement|]. intros r [Hne Hr]%list_elem_of_filter.
    apply Hl in Hr as [?|?]%elem_of_cons; [congruence|done].
Qed.

Lemma plans p n source (R : planErr -> Prop) :
  (forall e, refusal (planned p source) e -> R e) -> (validSource n source = false -> forall e, R e) ->
  yields (planLeaves p n source) (fun leaves =>
    concat (sl_records <$> leaves) ≡ₚ planned p source /\ Forall leafOK leaves /\ StronglySorted before (sl_prefix <$> leaves) /\
    Z.of_nat (length leaves) <= MaxPartitions) R.
Proof.
  intros HR HV. unfold planLeaves. destruct (validSource n source) eqn:Ev; cbn [negb]; [|by apply yields_throw, HV].
  eapply yields_bind; [apply (walked p source [] ∅); [apply rootsOK_empty|constructor|by eapply validSource_records|exact HR]|].
  intros roots [Hroots Hgood]. cbn [app] in *. set (ps := merge_sort prefix_le (map_to_list roots).*1).
  assert (Hperm : ps ≡ₚ (map_to_list roots).*1) by apply merge_sort_Permutation.
  assert (HN : NoDup ps) by (rewrite Hperm; apply NoDup_fst_map_to_list).
  assert (Hps : forall q, q ∈ ps <-> is_Some (roots !! q)).
  { intros q. rewrite Hperm, list_elem_of_fmap. split.
    - intros ([q' x] & -> & Hx%elem_of_map_to_list). by exists x.
    - intros [x Hx]. exists (q, x). split; [done|by apply elem_of_map_to_list]. }
  eapply yields_bind.
  { apply (splitRoots_spread ps (planned p source)); [exact Hroots|exact Hgood| |by intros q; rewrite Hps|exact HR].
    apply strictly_sorted; [|exact HN]. apply StronglySorted_merge_sort; apply _. }
  intros leaves (new & -> & Ho & Hc & _ & Hs). cbn [app] in *. destruct (Z.ltb_spec MaxPartitions (Z.of_nat (length new))).
  { apply yields_refuse; [lia|]. intros e He. apply HR. by left. }
  apply yields_ret. split_and!; auto. rewrite Hc. apply by_roots; [exact HN|]. intros r Hr. apply Hps. apply (ro_some _ _ Hroots). by exists r.
Qed.

(** Leaves whose prefixes do not extend each other share no object. *)
Lemma leaf_of_object leaves i j x y r r' :
  Forall leafOK leaves -> StronglySorted before (sl_prefix <$> leaves) -> leaves !! i = Some x -> leaves !! j = Some y ->
  r ∈ sl_records x -> r' ∈ sl_records y -> so_ObjectID r = so_ObjectID r' -> i = j.
Proof.
  intros Hok Hs. assert (Hlt : forall i j x y r r', (i < j)%nat -> leaves !! i = Some x -> leaves !! j = Some y ->
    r ∈ sl_records x -> r' ∈ sl_records y -> so_ObjectID r <> so_ObjectID r').
  { clear i j x y r r'. intros i j x y r r' Hij Hi Hj Hr Hr' E. rewrite Forall_forall in Hok.
    pose proof (Hok x (list_elem_of_lookup_2 _ _ _ Hi)) as Hx. pose proof (Hok y (list_elem_of_lookup_2 _ _ _ Hj)) as Hy.
    pose proof (lf_prefix x Hx r Hr) as Hpx. pose proof (lf_prefix y Hy r' Hr') as Hpy. rewrite <- E in Hpy.
    assert (Hb : before (sl_prefix x) (sl_prefix y)).
    { assert (Hxi : (sl_prefix <$> leaves) !! i = Some (sl_prefix x)) by (by rewrite list_lookup_fmap, Hi).
      assert (Hyj : (sl_prefix <$> leaves) !! j = Some (sl_prefix y)) by (by rewrite list_lookup_fmap, Hj).
      rewrite <- (take_drop (S i) (sl_prefix <$> leaves)) in Hs. eapply (StronglySorted_app_1_elem_of _ _ _ _ _ Hs).
      - apply (list_elem_of_lookup_2 _ i). rewrite lookup_take_lt by lia. exact Hxi.
      - apply (list_elem_of_lookup_2 _ (j - S i)). rewrite lookup_drop. by replace (S i + (j - S i))%nat with j by lia. }
    destruct Hb as [Hb Hnp]. destruct (Nat.le_ge_cases (sl_bits x) (sl_bits y)) as [Hle|Hle];
      pose proof (prefixes_of_one (sourceBlobHash (so_ObjectID r)) _ _ Hle) as Hpre; rewrite Hpx, Hpy in Hpre; [congruence|].
    by rewrite (prefix_not_after _ _ Hpre) in Hb. }
  intros Hi Hj Hr Hr' E. destruct (Nat.lt_trichotomy i j) as [Hij|[Hij|Hij]]; [|exact Hij|].
  - by destruct (Hlt i j x y r r' Hij Hi Hj Hr Hr').
  - by destruct (Hlt j i y x r' r Hij Hj Hi Hr' Hr).
Qed.

Lemma revisions_range n previous (l : list Z) : revisionsFrom n previous l = true -> forall v, v ∈ l -> 0 <= v < n.
Proof.
  revert previous. induction l as [|x l IH]; intros previous Hl v Hv; [by apply elem_of_nil in Hv|]. cbn in Hl. bsplit.
  apply elem_of_cons in Hv as [->|Hv]; [lia|]. by eapply IH.
Qed.

(** The encoding of a spooled record is within its bound: a path has at most
    4,096 bytes, a byte takes at most six. *)
Lemma spooled_length (r : SourceRecord) n :
  validateRecord r n = true -> n <= 8 -> good (spooled r) -> encodedLength (spoolJSON (spooled r)) <= MaxRecordBytes.
Proof.
  unfold validateRecord, good, gitObjectAndHashValid. intros Hv Hn Hg. bsplit.
  assert (Hid : (String.length (sr_ObjectID r) <= 64)%nat).
  { match goal with Hi : IsObjectID (sr_ObjectID r) = true |- _ => unfold IsObjectID in Hi; apply andb_true_iff in Hi as [Hi _]; apply orb_true_iff in Hi as [Hi|Hi]; apply Nat.eqb_eq in Hi; cbn [spooled so_ObjectID] in *; lia end. }
  assert (Hh : String.length (so_Hash (spooled r)) = 64%nat) by by apply Nat.eqb_eq.
  assert (Hpath : (String.length (sr_Path r) <= 4096)%nat).
  { match goal with Hp : repopathValidate (sr_Path r) = true |- _ => unfold repopathValidate in Hp; bsplit end. apply Nat.ltb_ge. assumption. }
  assert (Hmode : String.length (sr_Mode r) = 6%nat).
  { match goal with Hm : String.eqb (so_Mode _) _ || _ = true |- _ => apply orb_true_iff in Hm as [Hm|Hm]; apply String.eqb_eq in Hm; cbn [spooled so_Mode] in Hm; by rewrite Hm end. }
  assert (Hrev : (String.length (Marshal (JArray (JInt <$> sr_Revisions r))) <= 100)%nat).
  { etransitivity; [apply length_JArray|]. rewrite <- list_fmap_compose.
    assert (Hone : forall v, v ∈ sr_Revisions r -> (((fun j => S (String.length (Marshal j))) ∘ JInt) v <= 2)%nat).
    { intros v Hv. unfold compose. cbn [Marshal]. unfold validRevisions in *. bsplit. match goal with Hr : revisionsFrom n None _ = true |- _ => pose proof (revisions_range _ _ _ Hr v Hv) end.
      assert (Hv10 : 0 <= v < 10 ^ Z.of_nat 1) by (change (10 ^ Z.of_nat 1) with 10; lia). apply length_pretty in Hv10. lia. }
    pose proof (sum_list_le _ _ _ Hone). lia. }
  assert (Hdecl : (String.length (pretty (sr_DeclaredBytes r)) <= 7)%nat).
  { apply (length_pretty _ 7). cbn [spooled so_DeclaredBytes] in *. change (10 ^ Z.of_nat 7) with 10000000. change MaxBlobBytes with 4194304 in *. lia. }
  assert (Hlen : Z.of_nat (String.length (Marshal (spoolJSON (spooled r)))) <= 30000).
  { eapply Z.le_trans; [apply Nat2Z.inj_le, length_JObject|]. cbn [fmap list_fmap sum_list fst snd so_ObjectID so_DeclaredBytes so_Path so_Mode so_Revisions spooled].
    change (Marshal (JString ?x)) with (jsonString x). change (Marshal (JInt ?x)) with (pretty x).
    pose proof (length_jsonString (sr_ObjectID r)). pose proof (length_jsonString (sr_Path r)). pose proof (length_jsonString (sr_Mode r)).
    pose proof (length_jsonString (so_Hash (spooled r))).
    repeat match goal with |- context [String.length (jsonString (String ?c ?s))] =>
      let n := eval vm_compute in (String.length (jsonString (String c s))) in change (String.length (jsonString (String c s))) with n end.
    cbn [spooled so_Hash] in *. unfold id. lia. }
  unfold encodedLength. change MaxRecordBytes with 4194304. lia.
Qed.

Lemma planned_records p n source r : validSource n source = true -> r ∈ planned p source -> exists sr, r = spooled sr /\ sr ∈ source /\ validateRecord sr n = true.
Proof.
  intros Hv (sr & -> & [_ Hin]%list_elem_of_filter)%list_elem_of_fmap. exists sr. split_and!; auto. revert Hv Hin. unfold validSource.
  generalize "" at 1. generalize "". generalize (@nil Z). clear. induction source as [|x source IH]; intros owned path key Hw Hin; [by apply elem_of_nil in Hin|].
  cbn [walkFrom] in Hw. bsplit. apply elem_of_cons in Hin as [->|Hin]; [done|]. by eapply IH.
Qed.
End Plans.

(** ** Properties *)

(** C19: A plan is an exact partition of the source.  Every selected record of
    the source lies in one leaf, as often as in the source; each leaf counts
    its records and bytes, holds only objects whose hash has its prefix, and is
    within the bounds on placements and bytes, unless it holds one object only;
    there are at most 16,384 leaves, in the order of their prefixes, of which
    none extends another.  So all placements of one object lie in one leaf. *)
Theorem plan_partitions_source `{Sha256Laws} p n source metrics leaves metrics' :
  planLeaves p n source metrics = (Ok leaves, metrics') ->
  concat (sl_records <$> leaves) ≡ₚ planned p source /\ Forall leafOK leaves /\ StronglySorted before (sl_prefix <$> leaves) /\
  Z.of_nat (length leaves) <= MaxPartitions /\
  forall i j x y r r', leaves !! i = Some x -> leaves !! j = Some y -> r ∈ sl_records x -> r' ∈ sl_records y -> so_ObjectID r = so_ObjectID r' -> i = j.
Proof.
  intros HP. pose proof (plans p n source (fun _ => True) (fun _ _ => I) (fun _ _ => I) metrics) as HY. rewrite HP in HY. cbn in HY.
  destruct HY as (Hc & Hok & Hs & Hmax). split_and!; auto. intros i j x y r r'. by apply leaf_of_object.
Qed.

(** C30: Planning refuses nothing but limits.  For a valid source of at most eight
    revisions whose selected objects have distinct hashes, the plan either
    succeeds or ends with a limit ([ErrTooLarge]): no hash collision, no
    invalid spool, and the fuel of the recursion suffices. *)
Theorem plan_refuses_only_limits `{Sha256Laws} p n source metrics :
  validSource n source = true -> n <= 8 ->
  (forall a b, a ∈ planned p source -> b ∈ planned p source -> sourceBlobHash (so_ObjectID a) = sourceBlobHash (so_ObjectID b) -> so_ObjectID a = so_ObjectID b) ->
  match (planLeaves p n source metrics).1 with Ok _ => True | Err e => isLimit e = true end.
Proof.
  intros Hv Hn Hinj. apply (yields_mono _ _ (fun _ => True) _ (fun e => isLimit e = true) (plans p n source (refusal (planned p source)) (fun _ He => He) ltac:(congruence)));
    [done|]. intros e [He|[(r & Hr & Hg & Hlong)|(a & b & Ha & Hb & Hne & Eh)]]; [exact He| |].
  - destruct (planned_records _ _ _ _ Hv Hr) as (sr & -> & _ & Hsr). pose proof (spooled_length sr n Hsr Hn Hg). lia.
  - by destruct (Hne (Hinj a b Ha Hb Eh)).
Qed.
