(* ===== verification/PartitionStage.v ===== *)
(** * Source partitions: members, builds and stages

    The rest of [plan.go] (the encoding of a leaf as a member, the build) and
    the validation of a stage in [validate.go].  A stage is its manifest and
    its member files, in the order they were written. *)
From stdpp Require Import sorting pretty.
From Stdlib Require Import Ascii String.
From S2P Require Import Prelude.
From S2P Require Import GoStrings GoText PartitionModel PartitionPlan.
#[local] Open Scope Z_scope.
#[local] Open Scope go_scope.

(** ** Members *)
Definition placementOf (r : spoolRecord) : Placement := mkPlacement (so_Path r) (so_Mode r) (so_Revisions r).
Definition compareSpoolRecord (left right : spoolRecord) : comparison :=
  match String.compare (so_ObjectID left) (so_ObjectID right) with
  | Eq => comparePlacement (placementOf left) (placementOf right)
  | c => c
  end.
(** The order [sort.Slice] sorts by; records it does not tell apart are refused
    below, in whichever order they come. *)
Definition spool_le (a b : spoolRecord) : Prop := compareSpoolRecord b a <> Lt.
#[global] Instance spool_le_dec a b : Decision (spool_le a b).
Proof. unfold spool_le. destruct (compareSpoolRecord b a); [left|right|left]; congruence. Defined.

Definition blobOf (r : spoolRecord) : BlobRecord := mkBlobRecord MemberSchema (so_ObjectID r) (so_DeclaredBytes r) [placementOf r].

(** The records of one object become one blob; [current] is the last. *)
Fixpoint coalesceFrom (current : BlobRecord) (l : list spoolRecord) : res planErr (list BlobRecord) :=
  match l with
  | [] => Ok [current]
  | r :: l =>
      if negb (String.eqb (br_ObjectID current) (so_ObjectID r)) then
        match coalesceFrom (blobOf r) l with Ok blobs => Ok (current :: blobs) | Err e => Err e end
      else if negb (br_DeclaredBytes current =? so_DeclaredBytes r) then Err (Invalid "one object has inconsistent declared sizes")
      else match last (br_Placements current) with
           | Some p =>
               if isLt (comparePlacement p (placementOf r))
               then coalesceFrom (mkBlobRecord (br_Schema current) (br_ObjectID current) (br_DeclaredBytes current) (br_Placements current ++ [placementOf r])) l
               else Err (Invalid "duplicate or unordered placement")
           | None => coalesceFrom (mkBlobRecord (br_Schema current) (br_ObjectID current) (br_DeclaredBytes current) [placementOf r]) l
           end
  end.
Definition coalesce (l : list spoolRecord) : res planErr (list BlobRecord) :=
  match l with [] => Ok [] | r :: l => coalesceFrom (blobOf r) l end.

(** One line of a member. *)
Definition lineOf (b : BlobRecord) : string := Marshal (blobJSON b) +:+ newline.
Definition contentOf (blobs : list BlobRecord) : string := foldr (fun b s => lineOf b +:+ s) "" blobs.
Definition lineBytes (b : BlobRecord) : Z := Z.of_nat (String.length (lineOf b)).

(** The loop that writes the lines: the declared bytes and those written. *)
Fixpoint encodeLoop (blobs : list BlobRecord) (declared content : Z) : res planErr (Z * Z) :=
  match blobs with
  | [] => Ok (declared, content)
  | b :: blobs =>
      if MaxPartitionBlobBytes - declared <? br_DeclaredBytes b then Err (Invalid "planned member bytes violate their partition")
      else if MaxMemberContentBytes - content <? lineBytes b then Err (Invalid "planned member metadata violates its partition")
      else encodeLoop blobs (declared + br_DeclaredBytes b) (content + lineBytes b)
  end.

Section Stage.
Context `{Sha256}.

Definition memberDigest (blobs : list BlobRecord) : string := digest ("phebs-source-partition-member-v1" +:+ NUL) (contentOf blobs).

Definition encodeMember (leaf : spool) : res planErr (Member * list BlobRecord) :=
  match forEachSpool leaf with
  | Err e => Err e
  | Ok records =>
      let records := merge_sort spool_le records in
      match coalesce records with
      | Err e => Err e
      | Ok blobs =>
          if MaxBlobsPerPartition <? Z.of_nat (length blobs) then Err (Invalid "planned member blob count violates its partition")
          else if MaxPlacementsPerPartition <? Z.of_nat (length records) then Err (Invalid "planned member placements violate their partition")
          else match encodeLoop blobs 0 0 with
               | Err e => Err e
               | Ok (declared, content) =>
                   Ok (mkMember 0 0 "" (sl_prefix leaf) (Z.of_nat (sl_bits leaf)) (Z.of_nat (length blobs)) (Z.of_nat (length records)) declared content
                         (memberDigest blobs) (default "" (br_ObjectID <$> head blobs)) (default "" (br_ObjectID <$> last blobs)), blobs)
               end
      end
  end.

(** ** Stages *)
Record stage := mkStage { st_manifest : Manifest; st_members : list (string * list BlobRecord) }.
#[export] Instance eta_stage : Eta stage := fun s => mkStage (st_manifest s) (st_members s).

Definition writeMember (repository generation : string) (count ordinal : Z) (leaf : spool) : res planErr (Member * list BlobRecord) :=
  match encodeMember leaf with
  | Err e => Err e
  | Ok (member, blobs) =>
      Ok (member <| me_Ordinal := ordinal |> <| me_Count := count |> <| me_Name := memberName repository generation ordinal |>, blobs)
  end.

(** What a build is asked for, and what it finds: whether
    [ValidateSourceManifest] accepts the source, the digest of the source
    manifest in the source directory, and whether the output is empty. *)
Record BuildRequest := mkRequest {
  rq_absolute : bool;
  rq_Repository : string;
  rq_sourceValid : bool;
  rq_sourceRepository : string;
  rq_sourceDigest : string;
  rq_openedDigest : option string;
  rq_revisionCount : Z;
  rq_emptyOutput : bool;
  rq_Policy : Policy;
  rq_source : list SourceRecord
}.

(** The loop over the leaves: totals so far, and the files written. *)
Fixpoint writeMembers (repository generation : string) (count ordinal : Z) (leaves : list spool) (m : Manifest) (files : list (string * list BlobRecord)) :
    M BuildMetrics planErr (Manifest * list (string * list BlobRecord)) :=
  match leaves with
  | [] => ret (m, files)
  | leaf :: leaves =>
      written <- lift (writeMember repository generation count ordinal leaf) ;;
      let member := written.1 in
      if MaxGenerationBlobBytes - ma_DeclaredBytes m <? me_DeclaredBytes member
      then refuse DimensionGenerationBlobBytes (ma_DeclaredBytes m + me_DeclaredBytes member) MaxGenerationBlobBytes (m, files)
      else if MaxGenerationContentBytes - ma_EncodedMemberBytes m <? me_ContentBytes member
      then refuse DimensionGenerationEncodedBytes (ma_EncodedMemberBytes m + me_ContentBytes member) MaxGenerationContentBytes (m, files)
      else
        modify (fun b => b <| bm_UniqueBlobs ::= Z.add (me_BlobCount member) |> <| bm_UniqueBlobBytes ::= Z.add (me_DeclaredBytes member) |>) ;;
        removeSpool leaf ;;
        writeMembers repository generation count (ordinal + 1) leaves
          (m <| ma_BlobCount ::= Z.add (me_BlobCount member) |> <| ma_PlacementCount ::= Z.add (me_PlacementCount member) |>
             <| ma_DeclaredBytes ::= Z.add (me_DeclaredBytes member) |> <| ma_EncodedMemberBytes ::= Z.add (me_ContentBytes member) |>
             <| ma_Members ::= fun l => l ++ [member] |>)
          (files ++ [(me_Name member, written.2)])
  end.

(** ** Reading a stage *)
Fixpoint readLines (revisionCount : Z) (prefix previous : string) (l : list BlobRecord) : bool :=
  match l with
  | [] => true
  | b :: l =>
      (Z.of_nat (String.length (Marshal (blobJSON b))) <=? MaxRecordBytes) && validateBlobRecord b revisionCount && str_ltb previous (br_ObjectID b)
      && hashHasPrefix (br_ObjectID b) prefix && readLines revisionCount prefix (br_ObjectID b) l
  end.

Definition readMember (files : list (string * list BlobRecord)) (memberCount revisionCount : Z) (expected : Member) : option (list BlobRecord) :=
  match List.find (fun f => String.eqb f.1 (me_Name expected)) files with
  | None => None
  | Some (_, records) =>
      if negb (Z.of_nat (String.length (contentOf records)) =? me_ContentBytes expected) then None
      else if negb (readLines revisionCount (me_Prefix expected) "" records) then None
      else if (me_Ordinal expected <? 0) || (memberCount <=? me_Ordinal expected) || negb (Z.of_nat (length records) =? me_BlobCount expected)
              || Nat.eqb (length records) 0 || negb (total (fun b => Z.of_nat (length (br_Placements b))) records =? me_PlacementCount expected)
              || negb (total br_DeclaredBytes records =? me_DeclaredBytes expected)
              || negb (String.eqb (default "" (br_ObjectID <$> head records)) (me_FirstObjectID expected))
              || negb (String.eqb (default "" (br_ObjectID <$> last records)) (me_LastObjectID expected))
              || negb (String.eqb (memberDigest records) (me_Digest expected))
      then None else Some records
  end.

Definition controlBytes (m : Manifest) : Z := encodedLength (manifestJSON m).

Definition readManifest (s : stage) (repository : string) : option Manifest :=
  let m := st_manifest s in
  if (MaxManifestBytes <? controlBytes m) || negb (ValidateManifest m) || negb (String.eqb (ma_Repository m) repository) then None else Some m.

(** No entry of the directory but the manifest and the members: the names are
    those wanted, and as many. *)
Definition validateOpenedStage (s : stage) (opened : Manifest) : bool :=
  let wanted := ManifestName (ma_Repository opened) :: (me_Name <$> ma_Members opened) in
  let entries := ManifestName (ma_Repository (st_manifest s)) :: (st_members s).*1 in
  forallb (fun e => match readMember (st_members s) (Z.of_nat (length (ma_Members opened))) (ma_RevisionCount opened) e with Some _ => true | None => false end)
    (ma_Members opened)
  && Nat.eqb (length entries) (length (remove_dups wanted)) && forallb (fun name => existsb (String.eqb name) wanted) entries.

Definition ValidateStage (s : stage) (expected : Manifest) : bool :=
  ValidateManifest expected
  && match readManifest s (ma_Repository expected) with
     | Some opened => String.eqb (ma_Digest opened) (ma_Digest expected) && validateOpenedStage s opened
     | None => false
     end.

(** ** The build *)
Definition Build (rq : BuildRequest) : M BuildMetrics planErr (Manifest * stage) :=
  put noMetrics ;;
  if negb (rq_absolute rq) then throw (Invalid "build directories must be absolute") else
  if negb (ValidatePolicy (rq_Policy rq)) then throw (Invalid "policy") else
  if negb (rq_sourceValid rq) || negb (String.eqb (rq_sourceRepository rq) (rq_Repository rq)) then throw (Invalid "source generation identity is invalid") else
  if negb (bool_decide (rq_openedDigest rq = Some (rq_sourceDigest rq))) then throw (Invalid "source generation changed before planning") else
  if negb (rq_emptyOutput rq) then throw (Invalid "output directory must be empty") else
  match PolicyDigest (rq_Policy rq) with
  | None => throw (Invalid "policy")
  | Some policyDigest =>
      match GenerationDigest (rq_Repository rq) (rq_sourceDigest rq) policyDigest with
      | None => throw (Invalid "generation identity is invalid")
      | Some generationDigest =>
          leaves <- planLeaves (rq_Policy rq) (rq_revisionCount rq) (rq_source rq) ;;
          written <- writeMembers (rq_Repository rq) generationDigest (Z.of_nat (length leaves)) 0 leaves
            (mkManifest ManifestSchema (rq_Repository rq) (rq_sourceDigest rq) (rq_revisionCount rq) (rq_Policy rq) policyDigest frozenPolicy
               generationDigest [] 0 0 0 0 "") [] ;;
          let manifest := written.1 <| ma_Digest := ManifestDigest written.1 |> in
          if MaxManifestBytes <? controlBytes manifest
          then refuse DimensionGenerationControlBytes (controlBytes manifest) MaxManifestBytes (manifest, mkStage manifest []) else
          let built := mkStage manifest written.2 in
          if ValidateStage built manifest then ret (manifest, built) else throw (Invalid "stage")
      end
  end.
End Stage.
