(* ===== verification/PartitionBuild.v ===== *)
(** * Source partitions: what a build writes is what a reader accepts

    The encoding of a leaf as a member loses nothing; the manifest and the
    members a build writes pass the validation of a stage, with two exceptions
    that the theorem names. *)
From stdpp Require Import sorting pretty.
From Stdlib Require Import Ascii String.
From S2P Require Import Prelude.
From S2P Require Import GoStrings GoText PartitionModel PartitionPlan PartitionTheorems PartitionStage.
#[local] Open Scope Z_scope.
#[local] Open Scope go_scope.

(** ** Coalescing *)

(** A record without its hash. *)
Definition flatRecord (r : spoolRecord) : string * Z * Placement := (so_ObjectID r, so_DeclaredBytes r, placementOf r).
Definition flatBlob (b : BlobRecord) : list (string * Z * Placement) := (fun p => (br_ObjectID b, br_DeclaredBytes b, p)) <$> br_Placements b.
Definition flat (blobs : list BlobRecord) : list (string * Z * Placement) := concat (flatBlob <$> blobs).

(** Each placement before the next. *)
Fixpoint ascending (previous : option Placement) (l : list Placement) : bool :=
  match l with
  | [] => true
  | p :: l => match previous with Some q => isLt (comparePlacement q p) | None => true end && ascending (Some p) l
  end.
Lemma ascending_snoc previous l p :
  ascending previous l = true -> match last l with Some q => isLt (comparePlacement q p) | None => match previous with Some q => isLt (comparePlacement q p) | None => true end end = true ->
  ascending previous (l ++ [p]) = true.
Proof.
  revert previous. induction l as [|q l IH]; intros previous; cbn [app ascending]; [cbn; by intros _ ->|].
  intros [-> Hl]%andb_true_iff Hp. cbn [andb]. apply IH; [exact Hl|]. destruct l; [exact Hp|]. rewrite last_cons_cons in Hp. destruct (last (p0 :: l)) eqn:E; [exact Hp|by apply last_None in E].
Qed.

Record blobOK (b : BlobRecord) : Prop := mkBlobOK {
  bo_schema : br_Schema b = MemberSchema;
  bo_some : br_Placements b <> [];
  bo_ascending : ascending None (br_Placements b) = true
}.

Fixpoint idsFrom (previous : string) (blobs : list BlobRecord) : bool :=
  match blobs with [] => true | b :: blobs => str_ltb previous (br_ObjectID b) && idsFrom (br_ObjectID b) blobs end.

(** The order is total, so sorting sorts. *)
Lemma compareInts_antisym a b : compareInts b a = CompOpp (compareInts a b).
Proof. revert b. induction a as [|x a IH]; intros [|y b]; cbn; try done. rewrite Z.compare_antisym. destruct (Z.compare x y); cbn; [apply IH|done|done]. Qed.
Lemma comparePlacement_antisym a b : comparePlacement b a = CompOpp (comparePlacement a b).
Proof.
  unfold comparePlacement. rewrite (String.compare_antisym (pl_Path a)), (String.compare_antisym (pl_Mode a)), compareInts_antisym.
  by destruct (String.compare (pl_Path b) (pl_Path a)), (String.compare (pl_Mode b) (pl_Mode a)), (compareInts (pl_Revisions b) (pl_Revisions a)).
Qed.
#[local] Instance spool_le_total : Total spool_le.
Proof.
  intros a b. unfold spool_le, compareSpoolRecord. rewrite (String.compare_antisym (so_ObjectID a)), (comparePlacement_antisym (placementOf a)).
  destruct (String.compare (so_ObjectID b) (so_ObjectID a)), (comparePlacement (placementOf a) (placementOf b)); cbn; auto; try (by left); by right.
Qed.

Lemma spool_le_ids a b : spool_le a b -> str_ltb (so_ObjectID b) (so_ObjectID a) = false.
Proof. unfold spool_le, compareSpoolRecord, str_ltb. by destruct (String.compare (so_ObjectID b) (so_ObjectID a)). Qed.

Lemma coalesceFrom_Ok l : forall current prev blobs,
  coalesceFrom current l = Ok blobs -> blobOK current -> br_ObjectID current = so_ObjectID prev -> Sorted spool_le (prev :: l) ->
  flat blobs = flatBlob current ++ (flatRecord <$> l) /\ Forall blobOK blobs /\
  exists first rest, blobs = first :: rest /\ br_ObjectID first = br_ObjectID current /\ idsFrom (br_ObjectID current) rest = true.
Proof.
  induction l as [|r l IH]; intros current prev blobs HC Hok Hid Hs; cbn [coalesceFrom] in HC.
  { injection HC as <-. split_and!; [by unfold flat; cbn; rewrite !app_nil_r|by constructor|]. by exists current, []. }
  apply Sorted_inv in Hs as [Hs Hr]. apply HdRel_inv in Hr.
  destruct (String.eqb_spec (br_ObjectID current) (so_ObjectID r)) as [Eid|Hne]; cbn [negb] in HC.
  - destruct (br_DeclaredBytes current =? so_DeclaredBytes r) eqn:Ed; [|discriminate]. apply Z.eqb_eq in Ed. cbn [negb] in HC.
    destruct (last (br_Placements current)) as [p|] eqn:El; [|exfalso; by apply last_None, (bo_some _ Hok) in El].
    destruct (isLt (comparePlacement p (placementOf r))) eqn:Ep; [|discriminate]. apply (IH _ r) in HC; [|split; cbn|exact Eid|exact Hs].
    + destruct HC as (Hf & Ho & Hx). split_and!; [|exact Ho|exact Hx]. rewrite Hf. unfold flatBlob. cbn. rewrite fmap_app. cbn. rewrite <- app_assoc. cbn.
      unfold flatRecord at 2. by rewrite Eid, Ed.
    + apply Hok.
    + by destruct (br_Placements current).
    + apply ascending_snoc; [apply Hok|by rewrite El].
  - destruct (coalesceFrom (blobOf r) l) as [bs|e] eqn:EC; [|discriminate]. injection HC as <-.
    apply (IH _ r) in EC as (Hf & Ho & first & rest & -> & Efirst & Hids); [|by repeat constructor|done|exact Hs].
    split_and!; [|by constructor|].
    + change (flat (current :: first :: rest)) with (flatBlob current ++ flat (first :: rest)). rewrite Hf. reflexivity.
    + exists current, (first :: rest). split_and!; [done|done|]. cbn [idsFrom]. rewrite Efirst. cbn [blobOf br_ObjectID] in *. rewrite Hids, andb_true_r.
      apply spool_le_ids in Hr. apply str_ltb_total; [congruence|congruence].
Qed.

Lemma coalesce_Ok l blobs :
  coalesce l = Ok blobs -> Sorted spool_le l -> Forall (fun r => so_ObjectID r <> "") l ->
  flat blobs = flatRecord <$> l /\ Forall blobOK blobs /\ idsFrom "" blobs = true.
Proof.
  destruct l as [|r l]; cbn [coalesce]; [by intros [= <-]|]. intros HC Hs Hne. inversion Hne as [|? ? Hid _]; subst.
  apply (coalesceFrom_Ok _ _ r) in HC as (Hf & Ho & first & rest & -> & Eid & Hids); [|by repeat constructor|done|exact Hs].
  split_and!; [by rewrite Hf|exact Ho|]. cbn [idsFrom]. rewrite Eid. cbn [blobOf br_ObjectID] in *. rewrite Hids, andb_true_r.
  unfold str_ltb. by destruct (so_ObjectID r).
Qed.

(** ** Encoding *)
Lemma encodeLoop_Ok blobs declared content d c :
  encodeLoop blobs declared content = Ok (d, c) -> d = declared + total br_DeclaredBytes blobs /\ c = content + total lineBytes blobs /\
  (d <= MaxPartitionBlobBytes \/ d = declared) /\ (c <= MaxMemberContentBytes \/ c = content).
Proof.
  revert declared content. induction blobs as [|b blobs IH]; intros declared content; cbn [encodeLoop].
  { intros [= <- <-]. unfold total. cbn. lia. }
  destruct (Z.ltb_spec (MaxPartitionBlobBytes - declared) (br_DeclaredBytes b)); [discriminate|].
  destruct (Z.ltb_spec (MaxMemberContentBytes - content) (lineBytes b)); [discriminate|].
  intros (-> & -> & Hd & Hc)%IH. unfold total in *. cbn in *. lia.
Qed.

Lemma lineBytes_pos b : 1 <= lineBytes b.
Proof. unfold lineBytes, lineOf. rewrite length_append. cbn. lia. Qed.
Lemma total_lineBytes blobs : Z.of_nat (String.length (contentOf blobs)) = total lineBytes blobs.
Proof. induction blobs as [|b blobs IH]; [done|]. cbn [contentOf foldr]. rewrite length_append. unfold total in *. cbn. fold (contentOf blobs). unfold lineBytes at 1. lia. Qed.

Lemma flat_placements blobs : Z.of_nat (length (flat blobs)) = total (fun b => Z.of_nat (length (br_Placements b))) blobs.
Proof. induction blobs as [|b blobs IH]; [done|]. unfold flat, total in *. cbn. rewrite length_app. unfold flatBlob at 1. rewrite length_fmap. lia. Qed.

(** ** Names *)
Section Build.
Context `{Sha256Laws}.

Lemma digest_valid domain raw : validDigest (digest domain raw) = true.
Proof.
  unfold validDigest, digest. destruct (sum256_bytes (domain +:+ raw)) as [Hl Hb]. rewrite length_append, length_hexEncode, Hl. cbn [Nat.add Nat.mul String.length Nat.eqb andb].
  assert (Hsub : String.substring 7 64 ("sha256:" +:+ hexEncode (Sum256 (domain +:+ raw))) = hexEncode (Sum256 (domain +:+ raw))).
  { change 64%nat with (2 * 32)%nat. rewrite <- Hl, <- length_hexEncode. change (String.substring 7 ?n ("sha256:" +:+ ?h)) with (String.substring 0 n h). apply substring_all. }
  rewrite Hsub, hexDecode_Encode, Hl by exact Hb. by rewrite prefix_append.
Qed.

Definition notSlash (c : ascii) : bool := negb (Ascii.eqb c "/").
Lemma hex_notSlash raw : all notSlash (hexEncode (Sum256 raw)) = true.
Proof.
  eapply all_mono; [|apply all_hexEncode; apply sum256_bytes]. intros c Hc. unfold notSlash. destruct (Ascii.eqb_spec c "/"%char) as [->|]; [discriminate|done].
Qed.
Lemma pretty_notSlash (n : Z) : all notSlash (pretty n) = true.
Proof.
  apply (all_mono digit); [intros c Hc; unfold notSlash; destruct (Ascii.eqb_spec c "/"%char) as [->|]; [discriminate|done]|]. apply pretty_digits.
Qed.
Lemma zeros_notSlash k : all notSlash (string_of_list_ascii (repeat "0"%char k)) = true.
Proof. by induction k. Qed.

Lemma memberName_safe repository domain raw ordinal : safeBaseName (memberName repository (digest domain raw) ordinal) = true.
Proof.
  unfold safeBaseName. assert (Ha : all notSlash (memberName repository (digest domain raw) ordinal) = true).
  { unfold memberName, pad5, digest. rewrite !all_append, !all_substring, zeros_notSlash, pretty_notSlash; [done| |apply hex_notSlash].
    rewrite all_append, hex_notSlash. done. }
  unfold notSlash in Ha. by rewrite Ha.
Qed.

Lemma string_append_inj_l a b c : a +:+ b = a +:+ c -> b = c.
Proof. induction a as [|x a IH]; [done|]. rewrite !append_cons. intros [= E]. by apply IH. Qed.
Lemma string_append_inj_r a b c : a +:+ c = b +:+ c -> a = b.
Proof.
  intros E. apply list_ascii_inj. apply (f_equal list_ascii_of_string) in E. rewrite !list_ascii_app in E. by apply app_inv_tail in E.
Qed.

Lemma memberName_inj repository generation n m : 0 <= n -> 0 <= m -> memberName repository generation n = memberName repository generation m -> n = m.
Proof.
  intros Hn Hm E. unfold memberName in E. repeat apply string_append_inj_l in E. apply string_append_inj_r in E. unfold pad5 in E.
  apply (f_equal (decimalFrom 0)) in E. rewrite !decimal_zeros in E. by rewrite <- (decimal_pretty n Hn), <- (decimal_pretty m Hm), E.
Qed.

(** A member ends with [l], a manifest with [n]. *)
Lemma memberName_not_manifest repository generation n repository' : memberName repository generation n <> ManifestName repository'.
Proof.
  intros E. apply (f_equal (fun s => last (list_ascii_of_string s))) in E. unfold memberName, ManifestName in E. rewrite !list_ascii_app in E.
  rewrite !last_app in E. discriminate.
Qed.

(** ** Members *)

(** The revisions of a record are those of a source of [n] revisions. *)
Definition fit (n : Z) (r : spoolRecord) : Prop := validRevisions n (so_Revisions r) = true /\ Z.of_nat (length (so_Revisions r)) <= n.

(** What the member of a leaf is. *)
Record memberOK (n : Z) (x : spool) (m : Member) (blobs : list BlobRecord) : Prop := mkMemberOK {
  mo_prefix : me_Prefix m = sl_prefix x;
  mo_bits : me_PrefixBits m = Z.of_nat (sl_bits x);
  mo_blobs : me_BlobCount m = Z.of_nat (length blobs);
  mo_some : blobs <> [];
  mo_placements : me_PlacementCount m = Z.of_nat (length (sl_records x));
  mo_declared : me_DeclaredBytes m = total br_DeclaredBytes blobs;
  mo_content : me_ContentBytes m = total lineBytes blobs;
  mo_digest : me_Digest m = memberDigest blobs;
  mo_first : me_FirstObjectID m = default "" (br_ObjectID <$> head blobs);
  mo_last : me_LastObjectID m = default "" (br_ObjectID <$> last blobs);
  mo_maxBlobs : me_BlobCount m <= MaxBlobsPerPartition;
  mo_maxPlacements : me_PlacementCount m <= MaxPlacementsPerPartition;
  mo_maxDeclared : me_DeclaredBytes m <= MaxPartitionBlobBytes;
  mo_maxContent : me_ContentBytes m <= MaxMemberContentBytes;
  mo_flat : flat blobs ≡ₚ flatRecord <$> sl_records x;
  mo_valid : Forall (fun b => validateBlobRecord b n = true) blobs;
  mo_ids : idsFrom "" blobs = true;
  mo_hash : Forall (fun b => bitPrefix (sourceBlobHash (br_ObjectID b)) (sl_bits x) = sl_prefix x) blobs
}.

Lemma elem_flat b p blobs : b ∈ blobs -> p ∈ br_Placements b -> (br_ObjectID b, br_DeclaredBytes b, p) ∈ flat blobs.
Proof.
  intros Hb Hp. unfold flat. apply list_elem_of_In, in_concat. exists (flatBlob b). split; apply list_elem_of_In.
  - apply list_elem_of_fmap. by exists b.
  - apply list_elem_of_fmap. by exists p.
Qed.

Lemma placementsFrom_ascending n previous l :
  ascending previous l = true ->
  (forall p, p ∈ l -> repopathValidate (pl_Path p) = true /\ (String.eqb (pl_Mode p) "100644" || String.eqb (pl_Mode p) "100755") = true /\
     pl_Revisions p <> [] /\ Z.of_nat (length (pl_Revisions p)) <= n /\ validRevisions n (pl_Revisions p) = true) ->
  placementsFrom n previous l = true.
Proof.
  revert previous. induction l as [|p l IH]; intros previous; cbn [ascending placementsFrom]; [done|]. intros [Hp Hl]%andb_true_iff Hall.
  destruct (Hall p ltac:(by left)) as (Hpath & Hmode & Hrev & Hlen & Hvr). rewrite Hpath, Hmode, Hvr, (IH _ Hl) by (intros q Hq; apply Hall; by right).
  destruct (Z.ltb_spec n (Z.of_nat (length (pl_Revisions p)))); [lia|]. destruct (pl_Revisions p); [done|]. destruct previous; [by rewrite Hp|done].
Qed.

Lemma blob_valid n blobs records :
  flat blobs ≡ₚ flatRecord <$> records -> Forall blobOK blobs -> Forall good records -> Forall (fit n) records ->
  Z.of_nat (length records) <= MaxPlacementsPerPartition -> Forall (fun b => validateBlobRecord b n = true) blobs.
Proof.
  intros Hflat Hok Hgood Hfit Hmax. rewrite !Forall_forall in *. intros b Hb. specialize (Hok b Hb).
  assert (Hrec : forall p, p ∈ br_Placements b -> exists r, r ∈ records /\ so_ObjectID r = br_ObjectID b /\ so_DeclaredBytes r = br_DeclaredBytes b /\ placementOf r = p).
  { intros p Hp. pose proof (elem_flat b p blobs Hb Hp) as He. rewrite Hflat in He. apply list_elem_of_fmap in He as (r & [= -> -> ->] & Hr). by exists r. }
  assert (Hlen : Z.of_nat (length (br_Placements b)) <= MaxPlacementsPerPartition).
  { apply list_elem_of_lookup in Hb as [i Hi]. pose proof (total_le (fun b => Z.of_nat (length (br_Placements b))) blobs i b ltac:(intros; cbn; lia) Hi) as Ht.
    rewrite <- flat_placements, Hflat, length_fmap in Ht. cbn in Ht. lia. }
  pose proof (bo_some b Hok) as Hsome. destruct (br_Placements b) as [|p0 ps] eqn:Eps; [done|].
  destruct (Hrec p0 ltac:(by left)) as (r0 & Hr0 & Eid & Edecl & _). pose proof (Hgood r0 Hr0) as Hg. unfold good, gitObjectAndHashValid in Hg. bsplit.
  unfold validateBlobRecord. rewrite (bo_schema b Hok), <- Eid, <- Edecl, Eps. cbn [length Nat.ltb Nat.leb] in *.
  repeat match goal with Hx : ?b = true |- context [?b] => rewrite Hx end. rewrite String.eqb_refl.
  destruct (Z.ltb_spec (so_DeclaredBytes r0) 0); [lia|]. destruct (Z.ltb_spec MaxBlobBytes (so_DeclaredBytes r0)); [lia|].
  destruct (Z.ltb_spec MaxPlacementsPerPartition (Z.of_nat (S (length ps)))); [lia|]. cbn [negb orb andb].
  apply placementsFrom_ascending; [rewrite <- Eps; apply Hok|]. intros p Hp. destruct (Hrec p Hp) as (r & Hr & _ & _ & <-).
  specialize (Hgood r Hr). destruct (Hfit r Hr) as [Hvr Hn]. clear - Hgood Hvr Hn. unfold good, gitObjectAndHashValid in Hgood. bsplit. cbn.
  split_and!; auto. intros E. by rewrite E in *.
Qed.

Lemma encoded n x m blobs : leafOK x -> Forall (fit n) (sl_records x) -> encodeMember x = Ok (m, blobs) -> memberOK n x m blobs.
Proof.
  intros Hx Hfit. unfold encodeMember, forEachSpool. pose proof (lf_good x Hx) as Hgood.
  rewrite (proj2 (forallb_forall _ _)) by (intros r Hr%list_elem_of_In; rewrite Forall_forall in Hgood; by apply Hgood).
  set (records := merge_sort spool_le (sl_records x)). assert (Hperm : records ≡ₚ sl_records x) by apply merge_sort_Permutation.
  assert (Hsorted : Sorted spool_le records) by (apply Sorted_merge_sort; apply _). clearbody records.
  destruct (coalesce records) as [bs|e] eqn:EC; [|discriminate].
  apply coalesce_Ok in EC as (Hflat & Hok & Hids); [|exact Hsorted|].
  2: { rewrite Hperm. eapply Forall_impl; [exact Hgood|]. intros r Hr. by apply good_hash. }
  destruct (Z.ltb_spec MaxBlobsPerPartition (Z.of_nat (length bs))); [discriminate|].
  destruct (Z.ltb_spec MaxPlacementsPerPartition (Z.of_nat (length records))); [discriminate|].
  destruct (encodeLoop bs 0 0) as [[d c]|e] eqn:EL; [|discriminate]. intros [= <- <-].
  apply encodeLoop_Ok in EL as (-> & -> & Hd & Hc). rewrite Hperm in *.
  assert (Hflat' : flat bs ≡ₚ flatRecord <$> sl_records x) by by rewrite Hflat, Hperm.
  split; cbn; auto; rewrite ?Z.add_0_l in *; auto.
  - intros ->. cbn in Hflat'. pose proof (lf_some x Hx). symmetry in Hflat'. apply Permutation_nil_r in Hflat'. by destruct (sl_records x).
  - destruct Hd as [?|Hd]; [done|]. rewrite Hd. done.
  - destruct Hc as [?|Hc]; [done|]. rewrite Hc. done.
  - eapply blob_valid; eauto.
  - rewrite Forall_forall in Hok |- *. intros b Hb. specialize (Hok b Hb). destruct (br_Placements b) as [|p ps] eqn:Eps; [by destruct (bo_some b Hok)|].
    pose proof (elem_flat b p bs Hb ltac:(rewrite Eps; by left)) as He. rewrite Hflat' in He. apply list_elem_of_fmap in He as (r & [= -> _ _] & Hr).
    by apply (lf_prefix x Hx).
Qed.

(** *** Reading a member *)
Lemma readLines_Ok n x blobs previous :
  leafOK x -> idsFrom previous blobs = true -> Forall (fun b => validateBlobRecord b n = true) blobs ->
  Forall (fun b => bitPrefix (sourceBlobHash (br_ObjectID b)) (sl_bits x) = sl_prefix x) blobs ->
  readLines n (sl_prefix x) previous blobs = forallb (fun b => Z.of_nat (String.length (Marshal (blobJSON b))) <=? MaxRecordBytes) blobs.
Proof.
  intros Hx. revert previous. induction blobs as [|b blobs IH]; intros previous; cbn [idsFrom readLines forallb]; [done|].
  intros [Hb Hids]%andb_true_iff Hv Hh. inversion_clear Hv as [|? ? Hvb Hv']. inversion_clear Hh as [|? ? Hhb Hh'].
  rewrite (IH _ Hids Hv' Hh'), Hvb, Hb. unfold hashHasPrefix.
  assert (String.length (sl_prefix x) = sl_bits x) as -> by (rewrite <- Hhb; apply bitsFrom_length). by rewrite Hhb, String.eqb_refl, !andb_true_r.
Qed.

(** Every line of a member is within the bound of its readers. *)
Definition linesFit (blobs : list BlobRecord) : bool := forallb (fun b => Z.of_nat (String.length (Marshal (blobJSON b))) <=? MaxRecordBytes) blobs.

Lemma prefix_length x : leafOK x -> String.length (sl_prefix x) = sl_bits x.
Proof.
  intros Hx. destruct (sl_records x) as [|r l] eqn:E; [by destruct (lf_some x Hx)|].
  rewrite <- (lf_prefix x Hx r) by (rewrite E; by left). apply bitsFrom_length.
Qed.

Lemma readMember_Ok n x m blobs files count :
  leafOK x -> memberOK n x m blobs -> List.find (fun f => String.eqb f.1 (me_Name m)) files = Some (me_Name m, blobs) -> 0 <= me_Ordinal m < count ->
  readMember files count n m = if linesFit blobs then Some blobs else None.
Proof.
  intros Hx Hm Hf Ho. unfold readMember. rewrite Hf, total_lineBytes, (mo_content _ _ _ _ Hm), Z.eqb_refl. cbn [negb].
  rewrite (mo_prefix _ _ _ _ Hm), (readLines_Ok n x) by (done || apply Hm). fold (linesFit blobs). destruct (linesFit blobs); [|done]. cbn [negb].
  rewrite (mo_blobs _ _ _ _ Hm), (mo_declared _ _ _ _ Hm), (mo_first _ _ _ _ Hm), (mo_last _ _ _ _ Hm), (mo_digest _ _ _ _ Hm), (mo_placements _ _ _ _ Hm).
  rewrite <- flat_placements, (mo_flat _ _ _ _ Hm), length_fmap, !Z.eqb_refl, !String.eqb_refl. destruct (Z.ltb_spec (me_Ordinal m) 0); [lia|].
  destruct (Z.leb_spec count (me_Ordinal m)); [lia|]. pose proof (mo_some _ _ _ _ Hm). by destruct blobs.
Qed.

(** *** A member in its manifest *)
Lemma bits_binary hash i k : binaryPrefix (bitsFrom hash i k) = true.
Proof.
  unfold binaryPrefix. revert i. induction k as [|k IH]; intros i; [done|]. cbn [bitsFrom all]. rewrite IH, andb_true_r.
  by destruct (hashBit_01 hash i) as [-> | ->].
Qed.
Lemma prefix_binary x : leafOK x -> binaryPrefix (sl_prefix x) = true.
Proof.
  intros Hx. destruct (sl_records x) as [|r l] eqn:E; [by destruct (lf_some x Hx)|].
  rewrite <- (lf_prefix x Hx r) by (rewrite E; by left). apply bits_binary.
Qed.

Lemma ids_last previous blobs b : idsFrom previous blobs = true -> last blobs = Some b -> str_ltb previous (br_ObjectID b) = true.
Proof.
  revert previous. induction blobs as [|a blobs IH]; intros previous; [discriminate|]. cbn [idsFrom]. intros [Ha Hids]%andb_true_iff Hl.
  destruct blobs as [|c blobs]; [by injection Hl as <-|]. eapply str_ltb_trans; [exact Ha|]. by apply IH.
Qed.

Lemma member_range n x m blobs : memberOK n x m blobs -> gitObjectRange m = true.
Proof.
  intros Hm. unfold gitObjectRange. rewrite (mo_first _ _ _ _ Hm), (mo_last _ _ _ _ Hm). pose proof (mo_valid _ _ _ _ Hm) as Hv. rewrite Forall_forall in Hv.
  pose proof (mo_ids _ _ _ _ Hm) as Hids. destruct blobs as [|a blobs]; [by destruct (mo_some _ _ _ _ Hm)|]. cbn [head fmap option_fmap option_map default].
  assert (Hid : forall b, b ∈ a :: blobs -> IsObjectID (br_ObjectID b) = true).
  { intros b Hb. specialize (Hv b Hb). unfold validateBlobRecord in Hv. by bsplit. }
  destruct (last (a :: blobs)) as [b|] eqn:El; [|by apply last_None in El]. cbn.
  rewrite (Hid a ltac:(by left)), (Hid b) by (apply last_Some in El as [l ->]; apply elem_of_app; right; by left). cbn.
  apply negb_true_iff. cbn [idsFrom] in Hids. apply andb_true_iff in Hids as [_ Hids]. destruct blobs as [|c blobs]; [injection El as <-; apply str_ltb_irrefl|].
  apply str_ltb_asym. rewrite last_cons_cons in El. by eapply ids_last.
Qed.

Lemma blobs_placements b n : validateBlobRecord b n = true -> 1 <= Z.of_nat (length (br_Placements b)) /\ 0 <= br_DeclaredBytes b.
Proof. unfold validateBlobRecord. intros Hv. bsplit. match goal with Hl : Nat.ltb _ 1 = false |- _ => apply Nat.ltb_ge in Hl end. lia. Qed.

Lemma count_le_placements n blobs : Forall (fun b => validateBlobRecord b n = true) blobs ->
  Z.of_nat (length blobs) <= total (fun b => Z.of_nat (length (br_Placements b))) blobs /\ 0 <= total br_DeclaredBytes blobs.
Proof.
  induction 1 as [|b blobs Hb _ IH]; unfold total in *; cbn; [lia|]. apply blobs_placements in Hb. lia.
Qed.

Lemma total_lines_pos blobs : blobs <> [] -> 1 <= total lineBytes blobs.
Proof.
  destruct blobs as [|b blobs]; [done|]. intros _. unfold total. cbn. pose proof (lineBytes_pos b).
  pose proof (zsum_nonneg (lineBytes <$> blobs)) as Hz. assert (0 <= zsum (lineBytes <$> blobs)); [|lia].
  apply Hz. intros y (c & -> & _)%list_elem_of_fmap. pose proof (lineBytes_pos c). lia.
Qed.

Lemma member_valid n x m blobs manifest ordinal previous domain raw :
  leafOK x -> memberOK n x m blobs -> me_Ordinal m = ordinal -> me_Count m = Z.of_nat (length (ma_Members manifest)) ->
  me_Name m = memberName (ma_Repository manifest) (ma_GenerationDigest manifest) ordinal -> ma_GenerationDigest manifest = digest domain raw ->
  (0 < ordinal -> before previous (sl_prefix x)) -> validMember manifest ordinal previous m = true.
Proof.
  intros Hx Hm Ho Hc Hn Hd Hp. pose proof (count_le_placements n blobs (mo_valid _ _ _ _ Hm)) as [Hle Hdecl]. pose proof (total_lines_pos blobs (mo_some _ _ _ _ Hm)).
  rewrite <- flat_placements, (mo_flat _ _ _ _ Hm), length_fmap, <- (mo_placements _ _ _ _ Hm), <- (mo_blobs _ _ _ _ Hm) in Hle.
  pose proof (mo_maxBlobs _ _ _ _ Hm). pose proof (mo_maxPlacements _ _ _ _ Hm). pose proof (mo_maxDeclared _ _ _ _ Hm). pose proof (mo_maxContent _ _ _ _ Hm).
  pose proof (lf_bits x Hx) as Hb. assert (1 <= me_BlobCount m) by (rewrite (mo_blobs _ _ _ _ Hm); pose proof (mo_some _ _ _ _ Hm); destruct blobs; [done|cbn; lia]).
  unfold validMember. rewrite Hn, String.eqb_refl, Hd, memberName_safe, (member_range _ _ _ _ Hm), (mo_digest _ _ _ _ Hm). unfold memberDigest. rewrite digest_valid.
  rewrite Ho, Hc, !Z.eqb_refl, (mo_prefix _ _ _ _ Hm), (prefix_binary x Hx), (mo_bits _ _ _ _ Hm), (prefix_length x Hx), Z.eqb_refl.
  rewrite (mo_declared _ _ _ _ Hm), (mo_content _ _ _ _ Hm) in *. cbn [negb orb].
  repeat match goal with |- context [?a <? ?b] => destruct (Z.ltb_spec a b); try lia end; cbn [negb orb andb]; try done.
  destruct (Hp ltac:(assumption)) as [-> ->]. done.
Qed.

(** ** What a build writes *)
Section Written.
Context (n : Z) (repository generation : string) (count : Z).

(** The members of the leaves, from an ordinal on. *)
Inductive written : Z -> list spool -> list (Member * list BlobRecord) -> Prop :=
| written_nil ordinal : written ordinal [] []
| written_cons ordinal leaf leaves w ws :
    memberOK n leaf w.1 w.2 -> me_Ordinal w.1 = ordinal -> me_Count w.1 = count -> me_Name w.1 = memberName repository generation ordinal ->
    written (ordinal + 1) leaves ws -> written ordinal (leaf :: leaves) (w :: ws).

Lemma writeMember_Ok leaf ordinal w :
  leafOK leaf -> Forall (fit n) (sl_records leaf) -> writeMember repository generation count ordinal leaf = Ok w ->
  memberOK n leaf w.1 w.2 /\ me_Ordinal w.1 = ordinal /\ me_Count w.1 = count /\ me_Name w.1 = memberName repository generation ordinal.
Proof.
  intros Hx Hfit. unfold writeMember. destruct (encodeMember leaf) as [[m blobs]|e] eqn:EM; [|discriminate]. intros [= <-].
  apply (encoded n) in EM; [|exact Hx|exact Hfit]. split_and!; [|done|done|done]. destruct EM. by split.
Qed.

(** What does not change while members are written. *)
Definition header (m : Manifest) := (ma_Schema m, ma_Repository m, ma_SourceGenerationDigest m, ma_RevisionCount m, ma_Policy m, ma_PolicyDigest m,
  ma_PartitionPolicy m, ma_GenerationDigest m).

Definition assembled (m : Manifest) (files : list (string * list BlobRecord)) ordinal leaves (out : Manifest * list (string * list BlobRecord)) : Prop :=
  exists ws, written ordinal leaves ws /\ header out.1 = header m /\ ma_Members out.1 = ma_Members m ++ ws.*1 /\
    ma_BlobCount out.1 = ma_BlobCount m + total me_BlobCount ws.*1 /\ ma_PlacementCount out.1 = ma_PlacementCount m + total me_PlacementCount ws.*1 /\
    ma_DeclaredBytes out.1 = ma_DeclaredBytes m + total me_DeclaredBytes ws.*1 /\
    ma_EncodedMemberBytes out.1 = ma_EncodedMemberBytes m + total me_ContentBytes ws.*1 /\
    out.2 = files ++ ((fun w : Member * list BlobRecord => (me_Name w.1, w.2)) <$> ws) /\
    (ma_DeclaredBytes m <= MaxGenerationBlobBytes -> ma_DeclaredBytes out.1 <= MaxGenerationBlobBytes) /\
    (ma_EncodedMemberBytes m <= MaxGenerationContentBytes -> ma_EncodedMemberBytes out.1 <= MaxGenerationContentBytes).

Lemma writeMembers_assembled leaves ordinal m files :
  Forall leafOK leaves -> Forall (fun x => Forall (fit n) (sl_records x)) leaves ->
  yields (writeMembers repository generation count ordinal leaves m files) (assembled m files ordinal leaves) (fun _ => True).
Proof.
  revert ordinal m files. induction leaves as [|leaf leaves IH]; intros ordinal m files Hok Hfit; cbn [writeMembers].
  { apply yields_ret. exists []. cbn. rewrite !app_nil_r. unfold total. cbn. split_and!; try done; [constructor|lia..]. }
  inversion_clear Hok as [|? ? Hx Hok']. inversion_clear Hfit as [|? ? Hfx Hfit'].
  destruct (writeMember repository generation count ordinal leaf) as [w|e] eqn:EW; cbn [lift]; [|by intros s].
  apply yields_then. pose proof (writeMember_Ok leaf ordinal w Hx Hfx EW) as (Hm & Ho & Hc & Hn).
  destruct (Z.ltb_spec (MaxGenerationBlobBytes - ma_DeclaredBytes m) (me_DeclaredBytes w.1)); [apply yields_refuse; [lia|done]|].
  destruct (Z.ltb_spec (MaxGenerationContentBytes - ma_EncodedMemberBytes m) (me_ContentBytes w.1)); [apply yields_refuse; [lia|done]|].
  apply (yields_bind _ _ (fun _ => True)); [by apply yields_modify|]. intros _ _.
  apply (yields_bind _ _ (fun _ => True)); [by apply yields_modify|]. intros _ _.
  eapply yields_mono; [apply (IH (ordinal + 1) _ _ Hok' Hfit')| |done].
  intros out (ws & Hws & Hh & Hms & Hb & Hp & Hd & Hcb & Hf & Hmd & Hmc). exists (w :: ws). cbn in *. unfold total in *. cbn.
  split_and!; [by constructor|exact Hh|by rewrite Hms, <- app_assoc|lia|lia|lia|lia|by rewrite Hf, <- app_assoc|lia|lia].
Qed.

Lemma written_lookup ordinal leaves ws i w :
  written ordinal leaves ws -> ws !! i = Some w ->
  exists leaf, leaves !! i = Some leaf /\ memberOK n leaf w.1 w.2 /\ me_Ordinal w.1 = ordinal + Z.of_nat i /\ me_Count w.1 = count /\
    me_Name w.1 = memberName repository generation (ordinal + Z.of_nat i).
Proof.
  intros HW. revert i. induction HW as [|ordinal leaf leaves v ws Hm Ho Hc Hn HW IH]; intros i Hi; [done|]. destruct i as [|i].
  - injection Hi as <-. exists leaf. rewrite Z.add_0_r. auto.
  - destruct (IH i Hi) as (x & Hx & Hmx & Hox & Hcx & Hnx). exists x. rewrite Nat2Z.inj_succ. replace (ordinal + Z.succ (Z.of_nat i)) with (ordinal + 1 + Z.of_nat i) by lia. auto.
Qed.

Lemma written_names ordinal leaves ws :
  0 <= ordinal -> written ordinal leaves ws -> length ws = length leaves /\ NoDup (me_Name <$> ws.*1).
Proof.
  intros Hord HW. split; [by induction HW; cbn; [|rewrite IHHW by lia]|]. apply NoDup_alt. intros i j name Hi Hj.
  rewrite list_lookup_fmap in Hi, Hj. rewrite list_lookup_fmap in Hi, Hj.
  destruct (ws !! i) as [v|] eqn:Ei, (ws !! j) as [w|] eqn:Ej; try done. injection Hi as <-. injection Hj as Hj.
  destruct (written_lookup _ _ _ _ _ HW Ei) as (_ & _ & _ & _ & _ & En), (written_lookup _ _ _ _ _ HW Ej) as (_ & _ & _ & _ & _ & En').
  rewrite En, En' in Hj. apply memberName_inj in Hj; lia.
Qed.

Lemma find_distinct {A} (l : list (string * A)) i key x : l !! i = Some (key, x) -> NoDup l.*1 -> List.find (fun f => String.eqb f.1 key) l = Some (key, x).
Proof.
  revert i. induction l as [|[k y] l IH]; intros i Hi HN; [done|]. cbn in HN. apply NoDup_cons in HN as [Hk HN]. cbn.
  destruct i as [|i]; [injection Hi as <- <-; by rewrite String.eqb_refl|]. destruct (String.eqb_spec k key) as [->|_]; [|by eapply IH].
  exfalso. apply Hk, list_elem_of_fmap. exists (key, x). split; [done|]. by apply (list_elem_of_lookup_2 _ i).
Qed.

Lemma written_valid manifest ordinal leaves ws previous domain raw :
  written ordinal leaves ws -> 0 <= ordinal -> Forall leafOK leaves -> StronglySorted before (sl_prefix <$> leaves) ->
  (0 < ordinal -> forall first, head (sl_prefix <$> leaves) = Some first -> before previous first) ->
  count = Z.of_nat (length (ma_Members manifest)) -> repository = ma_Repository manifest -> generation = ma_GenerationDigest manifest ->
  ma_GenerationDigest manifest = digest domain raw -> validMembers manifest ordinal previous ws.*1 = true.
Proof.
  intros HW. revert previous. induction HW as [|ordinal leaf leaves w ws Hm Ho Hc Hn HW IH]; intros previous Hord Hok Hs Hp Hcount Hr Hg Hd; cbn; [done|].
  inversion_clear Hok as [|? ? Hx Hok']. cbn in Hs. apply StronglySorted_inv in Hs as [Hs Hfirst].
  rewrite (member_valid n leaf w.1 w.2 manifest ordinal previous domain raw) by (auto; congruence). cbn [andb].
  apply IH; auto; [lia|]. intros _ first Hf. rewrite (mo_prefix _ _ _ _ Hm). rewrite List.Forall_forall in Hfirst. apply Hfirst.
  destruct (sl_prefix <$> leaves); [done|]. injection Hf as ->. by left.
Qed.
End Written.

(** *** Totals *)
Lemma written_counts n repository generation count ordinal leaves ws :
  written n repository generation count ordinal leaves ws ->
  Z.of_nat (length ws) <= total me_BlobCount ws.*1 /\ total me_BlobCount ws.*1 <= total me_PlacementCount ws.*1 /\
  total me_PlacementCount ws.*1 = Z.of_nat (length (concat (sl_records <$> leaves))) /\
  0 <= total me_DeclaredBytes ws.*1 /\ Z.of_nat (length ws) <= total me_ContentBytes ws.*1.
Proof.
  induction 1 as [|ordinal leaf leaves w ws Hm _ _ _ _ IH]; unfold total in *; cbn; [lia|].
  pose proof (count_le_placements n w.2 (mo_valid _ _ _ _ Hm)) as [Hle Hdecl]. pose proof (total_lines_pos w.2 (mo_some _ _ _ _ Hm)).
  rewrite <- flat_placements, (mo_flat _ _ _ _ Hm), length_fmap in Hle. rewrite length_app.
  assert (1 <= Z.of_nat (length w.2)) by (pose proof (mo_some _ _ _ _ Hm); destruct w.2; [done|cbn; lia]).
  rewrite (mo_blobs _ _ _ _ Hm), (mo_placements _ _ _ _ Hm), (mo_declared _ _ _ _ Hm), (mo_content _ _ _ _ Hm). lia.
Qed.

Lemma flat_app a b : flat (a ++ b) = flat a ++ flat b.
Proof. unfold flat. by rewrite fmap_app, concat_app. Qed.

Lemma written_flat n repository generation count ordinal leaves ws :
  written n repository generation count ordinal leaves ws -> flat (concat ws.*2) ≡ₚ flatRecord <$> concat (sl_records <$> leaves).
Proof.
  induction 1 as [|ordinal leaf leaves w ws Hm _ _ _ _ IH]; [done|].
  change (flat (w.2 ++ concat ws.*2) ≡ₚ flatRecord <$> (sl_records leaf ++ concat (sl_records <$> leaves))).
  by rewrite flat_app, fmap_app, IH, (mo_flat _ _ _ _ Hm).
Qed.

(** Every blob of a member is of an object of its leaf. *)
Lemma blob_object n x m blobs b : memberOK n x m blobs -> b ∈ blobs -> exists r, r ∈ sl_records x /\ so_ObjectID r = br_ObjectID b.
Proof.
  intros Hm Hb. pose proof (mo_valid _ _ _ _ Hm) as Hv. rewrite Forall_forall in Hv. specialize (Hv b Hb). apply blobs_placements in Hv as [Hp _].
  destruct (br_Placements b) as [|p ps] eqn:Eps; [cbn in Hp; lia|]. pose proof (elem_flat b p blobs Hb ltac:(rewrite Eps; by left)) as He.
  rewrite (mo_flat _ _ _ _ Hm) in He. apply list_elem_of_fmap in He as (r & [= E _ _] & Hr). by exists r.
Qed.

Lemma ids_nodup previous blobs : idsFrom previous blobs = true ->
  NoDup (br_ObjectID <$> blobs) /\ forall b, b ∈ blobs -> str_ltb previous (br_ObjectID b) = true.
Proof.
  revert previous. induction blobs as [|b blobs IH]; intros previous; cbn [idsFrom fmap list_fmap]; [split; [constructor|by intros b ?%elem_of_nil]|].
  intros [Hb Hids]%andb_true_iff. destruct (IH _ Hids) as [HN Hlt]. split.
  - apply NoDup_cons. split; [|exact HN]. intros (c & E & Hc)%list_elem_of_fmap. apply Hlt in Hc. rewrite E, str_ltb_irrefl in Hc. done.
  - intros c [->|Hc]%elem_of_cons; [exact Hb|]. eapply str_ltb_trans; [exact Hb|by apply Hlt].
Qed.

Lemma written_objects n repository generation count ordinal leaves ws :
  written n repository generation count ordinal leaves ws -> Forall leafOK leaves -> StronglySorted before (sl_prefix <$> leaves) ->
  NoDup (br_ObjectID <$> concat ws.*2).
Proof.
  induction 1 as [|ordinal leaf leaves w ws Hm _ _ _ HW IH]; intros Hok Hs; [constructor|]. pose proof Hs as Hall. cbn in Hs. apply StronglySorted_inv in Hs as [Hs _].
  pose proof Hok as Hokall. apply Forall_cons in Hok as [Hx Hok]. cbn. rewrite fmap_app. apply NoDup_app. split_and!; [by apply (ids_nodup ""), (mo_ids _ _ _ _ Hm)| |by apply IH].
  intros id (b & -> & Hb)%list_elem_of_fmap (c & E & Hc)%list_elem_of_fmap. apply list_elem_of_In, in_concat in Hc as (blobs & Hblobs & Hc).
  apply list_elem_of_In, list_elem_of_fmap in Hblobs as (v & -> & Hv). apply list_elem_of_lookup in Hv as [i Hi].
  destruct (written_lookup _ _ _ _ _ _ _ _ _ HW Hi) as (x & Hxi & Hmx & _). apply list_elem_of_In in Hc.
  destruct (blob_object _ _ _ _ _ Hm Hb) as (r & Hr & Er), (blob_object _ _ _ _ _ Hmx Hc) as (r' & Hr' & Er').
  assert (0%nat = S i); [|done]. eapply (leaf_of_object (leaf :: leaves) 0 (S i) leaf x r r'); auto. congruence.
Qed.

(** *** The manifest *)
Lemma manifest_shape n manifest leaves ws repository generation count :
  written n repository generation count 0 leaves ws -> ma_Members manifest = ws.*1 ->
  ma_BlobCount manifest = total me_BlobCount ws.*1 -> ma_PlacementCount manifest = total me_PlacementCount ws.*1 ->
  ma_EncodedMemberBytes manifest = total me_ContentBytes ws.*1 ->
  emptyShape manifest = Bool.eqb (ma_BlobCount manifest =? 0) (ma_DeclaredBytes manifest =? 0).
Proof.
  intros HW Hm Hb Hp Hc. apply written_counts in HW as HC. destruct HC as (H1 & H2 & _ & _ & H5). unfold emptyShape. rewrite Hm, Hb, Hp, Hc.
  assert (Hlen : length ws.*1 = length ws) by apply length_fmap.
  assert (ws = [] -> total me_BlobCount ws.*1 = 0 /\ total me_PlacementCount ws.*1 = 0 /\ total me_ContentBytes ws.*1 = 0) as Hnil by by intros ->.
  assert (Hnil' : ws <> [] -> 1 <= Z.of_nat (length ws)) by (destruct ws; [done|cbn; lia]).
  destruct ws as [|w ws]; [destruct (Hnil eq_refl) as (-> & -> & ->); cbn; by rewrite andb_true_r|].
  specialize (Hnil' ltac:(done)). destruct (Z.eqb_spec (total me_BlobCount (w :: ws).*1) 0); [lia|].
  destruct (Z.eqb_spec (total me_PlacementCount (w :: ws).*1) 0); [lia|]. destruct (Z.eqb_spec (total me_ContentBytes (w :: ws).*1) 0); [lia|].
  cbn. by rewrite andb_true_r.
Qed.

(** What a build starts from: the identity of a generation, and the manifest
    without members. *)
Definition blank (rq : BuildRequest) (policyDigest generationDigest : string) : Manifest :=
  mkManifest ManifestSchema (rq_Repository rq) (rq_sourceDigest rq) (rq_revisionCount rq) (rq_Policy rq) policyDigest frozenPolicy generationDigest [] 0 0 0 0 "".

Lemma manifest_validates (m : Manifest) :
  ma_Schema m = ManifestSchema -> PolicyDigest (ma_Policy m) = Some (ma_PolicyDigest m) -> ma_PartitionPolicy m = frozenPolicy ->
  GenerationDigest (ma_Repository m) (ma_SourceGenerationDigest m) (ma_PolicyDigest m) = Some (ma_GenerationDigest m) ->
  1 <= ma_RevisionCount m <= 8 -> ma_Digest m = ManifestDigest m -> Z.of_nat (length (ma_Members m)) <= MaxPartitions ->
  0 <= ma_BlobCount m <= ma_PlacementCount m -> 0 <= ma_DeclaredBytes m <= MaxGenerationBlobBytes -> 0 <= ma_EncodedMemberBytes m <= MaxGenerationContentBytes ->
  total me_BlobCount (ma_Members m) = ma_BlobCount m -> total me_PlacementCount (ma_Members m) = ma_PlacementCount m ->
  total me_DeclaredBytes (ma_Members m) = ma_DeclaredBytes m -> total me_ContentBytes (ma_Members m) = ma_EncodedMemberBytes m ->
  validMembers m 0 "" (ma_Members m) = true -> ValidateManifest m = emptyShape m.
Proof.
  intros Hs HP Hf HG Hn Hd Hmax Hb Hdb Hcb Tb Tp Td Tc Hm. unfold ValidateManifest. rewrite Hs, HP, Hf, HG, Hm, Tb, Tp, Td, Tc, <- Hd, !Z.eqb_refl, !String.eqb_refl.
  assert (HvP : ValidatePolicy (ma_Policy m) = true) by (unfold PolicyDigest in HP; by destruct (ValidatePolicy (ma_Policy m))).
  assert (HdP : validDigest (ma_PolicyDigest m) = true).
  { unfold PolicyDigest in HP. rewrite HvP in HP. cbn [negb] in HP. assert (HP' : forall a b : string, Some a = Some b -> b = a) by congruence.
    apply HP' in HP. rewrite HP. apply digest_valid. }
  unfold GenerationDigest in HG. destruct (_ || _) eqn:Eg; [discriminate|]. assert (HG' : forall a b : string, Some a = Some b -> b = a) by congruence. apply HG' in HG. bsplit.
  assert (HdG : validDigest (ma_GenerationDigest m) = true) by (rewrite HG; apply digest_valid).
  assert (HdM : validDigest (ma_Digest m) = true) by (rewrite Hd; apply digest_valid).
  rewrite HvP, HdP, HdG, HdM. repeat match goal with Hx : ?b = true |- context [?b] => rewrite Hx end.
  rewrite bool_decide_eq_true_2 by done.
  repeat match goal with |- context [?a <? ?b] => destruct (Z.ltb_spec a b); [lia|] end. cbn [negb orb andb]. by rewrite !andb_true_r.
Qed.

Lemma built_manifest rq policyDigest generationDigest leaves out :
  PolicyDigest (rq_Policy rq) = Some policyDigest -> GenerationDigest (rq_Repository rq) (rq_sourceDigest rq) policyDigest = Some generationDigest ->
  1 <= rq_revisionCount rq <= 8 -> Forall leafOK leaves -> StronglySorted before (sl_prefix <$> leaves) -> Z.of_nat (length leaves) <= MaxPartitions ->
  assembled (rq_revisionCount rq) (rq_Repository rq) generationDigest (Z.of_nat (length leaves)) (blank rq policyDigest generationDigest) [] 0 leaves out ->
  let manifest := out.1 <| ma_Digest := ManifestDigest out.1 |> in
  ValidateManifest manifest = Bool.eqb (ma_BlobCount manifest =? 0) (ma_DeclaredBytes manifest =? 0).
Proof.
  intros HP HG Hn Hok Hs Hmax (ws & HW & Hh & Hm & Hb & Hp & Hd & Hc & _ & Hmd & Hmc) manifest.
  unfold header in Hh. injection Hh as E1 E2 E3 E4 E5 E6 E7 E8.
  pose proof (written_counts _ _ _ _ _ _ _ HW) as (Ht1 & Ht2 & _ & Ht4 & Ht5). pose proof (proj1 (written_names _ _ _ _ _ _ _ (Z.le_refl 0) HW)) as Hlen.
  specialize (Hmd ltac:(done)). specialize (Hmc ltac:(done)).
  assert (Hmm : ma_Members manifest = ws.*1) by exact Hm. assert (Hgen : ma_GenerationDigest manifest = generationDigest) by exact E8.
  rewrite <- (manifest_shape _ manifest leaves ws _ _ _ HW Hm Hb Hp Hc). apply manifest_validates; try assumption.
  - change (PolicyDigest (ma_Policy out.1) = Some (ma_PolicyDigest out.1)). rewrite E5, E6. exact HP.
  - change (GenerationDigest (ma_Repository out.1) (ma_SourceGenerationDigest out.1) (ma_PolicyDigest out.1) = Some (ma_GenerationDigest out.1)).
    rewrite E2, E3, E6, E8. exact HG.
  - change (1 <= ma_RevisionCount out.1 <= 8). rewrite E4. exact Hn.
  - reflexivity.
  - rewrite Hmm, length_fmap, Hlen. exact Hmax.
  - change (0 <= ma_BlobCount out.1 <= ma_PlacementCount out.1). rewrite Hb, Hp. cbn. lia.
  - change (0 <= ma_DeclaredBytes out.1 <= MaxGenerationBlobBytes). rewrite Hd in *. cbn in *. lia.
  - change (0 <= ma_EncodedMemberBytes out.1 <= MaxGenerationContentBytes). rewrite Hc in *. cbn in *. lia.
  - rewrite Hmm. symmetry. exact Hb.
  - rewrite Hmm. symmetry. exact Hp.
  - rewrite Hmm. symmetry. exact Hd.
  - rewrite Hmm. symmetry. exact Hc.
  - rewrite Hmm. assert (exists raw, generationDigest = digest ("phebs-source-partition-generation-v1" +:+ NUL) raw) as [raw Hraw].
    { unfold GenerationDigest in HG. destruct (_ || _); [discriminate|]. injection HG as <-. by eexists. }
    eapply (written_valid _ _ _ _ manifest 0 leaves ws "" _ raw); [exact HW|lia|exact Hok|exact Hs|lia| |by symmetry|by symmetry|by rewrite Hgen].
    by rewrite Hmm, length_fmap, Hlen.
Qed.

(** *** The stage *)
Lemma names_written (ws : list (Member * list BlobRecord)) : ((fun w : Member * list BlobRecord => (me_Name w.1, w.2)) <$> ws).*1 = me_Name <$> ws.*1.
Proof. induction ws as [|w ws IH]; [done|]. cbn. by rewrite IH. Qed.

Lemma written_read n repository generation leaves ws files w :
  written n repository generation (Z.of_nat (length leaves)) 0 leaves ws -> Forall leafOK leaves ->
  files = ((fun w : Member * list BlobRecord => (me_Name w.1, w.2)) <$> ws) -> w ∈ ws ->
  readMember files (Z.of_nat (length ws)) n w.1 = if linesFit w.2 then Some w.2 else None.
Proof.
  intros HW Hok -> [i Hi]%list_elem_of_lookup. pose proof (written_names _ _ _ _ _ _ _ (Z.le_refl 0) HW) as [Hlen HN].
  destruct (written_lookup _ _ _ _ _ _ _ _ _ HW Hi) as (x & Hx & Hm & Ho & _ & _). apply list_elem_of_lookup_2 in Hx. rewrite Forall_forall in Hok.
  apply (readMember_Ok n x); [by apply Hok|exact Hm| |apply lookup_lt_Some in Hi; lia].
  apply (find_distinct _ i); [by rewrite list_lookup_fmap, Hi|]. by rewrite names_written.
Qed.

Lemma remove_dups_nodup (l : list string) : NoDup l -> length (remove_dups l) = length l.
Proof.
  intros HN. apply Permutation_length, NoDup_Permutation; [apply NoDup_remove_dups|exact HN|]. intros x. apply elem_of_remove_dups.
Qed.

Lemma forallb_fmap_in {A B C} (f : A -> B) (g : A -> C) p q (l : list A) : (forall x, x ∈ l -> p (f x) = q (g x)) -> forallb p (f <$> l) = forallb q (g <$> l).
Proof.
  induction l as [|x l IH]; intros Hl; cbn; [done|]. rewrite (Hl x) by by left. f_equal. apply IH. intros y Hy. apply Hl. by right.
Qed.

Lemma stage_validates n repository generation leaves ws manifest files :
  written n repository generation (Z.of_nat (length leaves)) 0 leaves ws -> Forall leafOK leaves ->
  files = ((fun w : Member * list BlobRecord => (me_Name w.1, w.2)) <$> ws) -> ma_Members manifest = ws.*1 -> ma_RevisionCount manifest = n ->
  ma_Repository manifest = repository -> controlBytes manifest <= MaxManifestBytes ->
  ValidateStage (mkStage manifest files) manifest = ValidateManifest manifest && forallb (fun f : string * list BlobRecord => linesFit f.2) files.
Proof.
  intros HW Hok -> Hm Hn Hr Hcontrol. unfold ValidateStage, readManifest. cbn [st_manifest].
  destruct (ValidateManifest manifest); [|done]. destruct (Z.ltb_spec MaxManifestBytes (controlBytes manifest)); [lia|]. cbn [negb orb andb].
  rewrite !String.eqb_refl. cbn [negb andb]. unfold validateOpenedStage. cbn [st_manifest st_members]. rewrite Hm, Hn, length_fmap.
  pose proof (written_names _ _ _ _ _ _ _ (Z.le_refl 0) HW) as [_ HN].
  rewrite names_written, remove_dups_nodup, Nat.eqb_refl.
  - rewrite (proj2 (forallb_forall _ (ManifestName _ :: _))), !andb_true_r; [|intros x Hx; apply existsb_exists; exists x; split; [exact Hx|apply String.eqb_refl]].
    rewrite String.eqb_refl. cbn [andb]. apply forallb_fmap_in. intros w Hw. rewrite (written_read n repository generation leaves ws _ w HW Hok eq_refl Hw). cbn [fst snd]. by destruct (linesFit w.2).
  - apply NoDup_cons. split; [|exact HN]. rewrite <- list_fmap_compose. intros (w & E & [i Hi]%list_elem_of_lookup)%list_elem_of_fmap.
    destruct (written_lookup _ _ _ _ _ _ _ _ _ HW Hi) as (_ & _ & _ & _ & _ & En). cbn in E. rewrite En in E. symmetry in E. by apply memberName_not_manifest in E.
Qed.

(** The records of a plan are fit. *)
Lemma planned_fit p n source leaves :
  validSource n source = true -> concat (sl_records <$> leaves) ≡ₚ planned p source -> Forall (fun x => Forall (fit n) (sl_records x)) leaves.
Proof.
  intros Hv Hc. apply Forall_forall. intros x Hx. apply Forall_forall. intros r Hr.
  assert (Hin : r ∈ concat (sl_records <$> leaves)).
  { apply list_elem_of_In, in_concat. exists (sl_records x). split; apply list_elem_of_In; [apply list_elem_of_fmap; by exists x|exact Hr]. }
  rewrite Hc in Hin. destruct (planned_records _ _ _ _ Hv Hin) as (sr & -> & _ & Hsr). unfold validateRecord in Hsr. bsplit. by split.
Qed.

Lemma planned_leaves p n source metrics leaves metrics' :
  planLeaves p n source metrics = (Ok leaves, metrics') ->
  validSource n source = true /\ concat (sl_records <$> leaves) ≡ₚ planned p source /\ Forall leafOK leaves /\ StronglySorted before (sl_prefix <$> leaves) /\
  Z.of_nat (length leaves) <= MaxPartitions.
Proof.
  intros HP. split.
  - unfold planLeaves in HP. by destruct (validSource n source).
  - pose proof (plans p n source (fun _ => True) (fun _ _ => I) (fun _ _ => I) metrics) as HY. by rewrite HP in HY.
Qed.

Lemma written_blobs n repository generation count ordinal leaves ws :
  written n repository generation count ordinal leaves ws -> total me_BlobCount ws.*1 = Z.of_nat (length (concat ws.*2)).
Proof.
  induction 1 as [|ordinal leaf leaves w ws Hm _ _ _ _ IH]; [done|]. unfold total in *. cbn. rewrite length_app, (mo_blobs _ _ _ _ Hm). lia.
Qed.

(** The path of a build that succeeds. *)
Lemma build_Ok rq metrics manifest s metrics' :
  1 <= rq_revisionCount rq <= 8 -> Build rq metrics = (Ok (manifest, s), metrics') ->
  st_manifest s = manifest /\ exists policyDigest generationDigest leaves m2 written m3,
    PolicyDigest (rq_Policy rq) = Some policyDigest /\ GenerationDigest (rq_Repository rq) (rq_sourceDigest rq) policyDigest = Some generationDigest /\
    planLeaves (rq_Policy rq) (rq_revisionCount rq) (rq_source rq) noMetrics = (Ok leaves, m2) /\
    writeMembers (rq_Repository rq) generationDigest (Z.of_nat (length leaves)) 0 leaves (blank rq policyDigest generationDigest) [] m2 = (Ok written, m3) /\
    manifest = written.1 <| ma_Digest := ManifestDigest written.1 |> /\ s = mkStage manifest written.2 /\ controlBytes manifest <= MaxManifestBytes /\
    ValidateStage s manifest = true.
Proof.
  intros Hn HB. unfold Build in HB. mrun HB.
  - exfalso. unfold refuse, checkPlanLimit in HB. apply Z.ltb_lt in E10. match type of HB with context [?a <=? ?b] => destruct (Z.leb_spec a b); [lia|done] end.
  - split; [done|]. do 6 eexists. split_and!; try eassumption; try done. by apply Z.ltb_ge.
Qed.
End Build.

(** ** Properties *)

(** C24: Validation accepts what a build writes, but for two shapes.  For any
    valid source and policy, the stage made of the members and the manifest
    that the build assembles from its plan is accepted exactly if its declared
    bytes are zero only when it has no blob, and every encoded blob is within
    the bound of its readers.  So a build whose selected files are all empty,
    or in which one object has too many long placements, fails in its own
    validation, although the plan and the encoding admit it. *)
Theorem built_stage_is_accepted `{Sha256Laws} rq policyDigest generationDigest leaves written m1 m2 m3 m4 :
  PolicyDigest (rq_Policy rq) = Some policyDigest -> GenerationDigest (rq_Repository rq) (rq_sourceDigest rq) policyDigest = Some generationDigest ->
  1 <= rq_revisionCount rq <= 8 -> planLeaves (rq_Policy rq) (rq_revisionCount rq) (rq_source rq) m1 = (Ok leaves, m2) ->
  writeMembers (rq_Repository rq) generationDigest (Z.of_nat (length leaves)) 0 leaves (blank rq policyDigest generationDigest) [] m3 = (Ok written, m4) ->
  let manifest := written.1 <| ma_Digest := ManifestDigest written.1 |> in
  controlBytes manifest <= MaxManifestBytes ->
  ValidateStage (mkStage manifest written.2) manifest =
    Bool.eqb (ma_BlobCount manifest =? 0) (ma_DeclaredBytes manifest =? 0) && forallb (fun f : string * list BlobRecord => linesFit f.2) written.2.
Proof.
  intros HP HG Hn HL HW manifest Hcontrol.
  destruct (planned_leaves _ _ _ _ _ _ HL) as (Hv & Hc & Hok & Hs & Hmax).
  pose proof (writeMembers_assembled (rq_revisionCount rq) (rq_Repository rq) generationDigest (Z.of_nat (length leaves)) leaves 0
    (blank rq policyDigest generationDigest) [] Hok (planned_fit _ _ _ _ Hv Hc) m3) as HA. rewrite HW in HA. cbn [fst] in HA.
  pose proof (built_manifest rq policyDigest generationDigest leaves written HP HG Hn Hok Hs Hmax HA) as HM.
  destruct HA as (ws & HWs & Hh & Hm & _ & _ & _ & _ & Hf & _). unfold header in Hh. injection Hh as E1 E2 E3 E4 E5 E6 E7 E8.
  rewrite (stage_validates (rq_revisionCount rq) (rq_Repository rq) generationDigest leaves ws) by assumption. f_equal. exact HM.
Qed.

(** C20: A build loses nothing.  When it succeeds, every member of its manifest is
    read back, and what is read is every selected placement of the source, as
    often as in the source, with its object and declared size; each object is
    one blob, and the manifest counts blobs and placements exactly. *)
Theorem build_loses_nothing `{Sha256Laws} rq metrics manifest s metrics' :
  1 <= rq_revisionCount rq <= 8 -> Build rq metrics = (Ok (manifest, s), metrics') ->
  st_manifest s = manifest /\ exists contents,
    Forall2 (fun m blobs => readMember (st_members s) (Z.of_nat (length (ma_Members manifest))) (ma_RevisionCount manifest) m = Some blobs) (ma_Members manifest) contents /\
    flat (concat contents) ≡ₚ flatRecord <$> planned (rq_Policy rq) (rq_source rq) /\ NoDup (br_ObjectID <$> concat contents) /\
    ma_BlobCount manifest = Z.of_nat (length (concat contents)) /\ ma_PlacementCount manifest = Z.of_nat (length (planned (rq_Policy rq) (rq_source rq))).
Proof.
  intros Hn HB. apply build_Ok in HB as (Hst & policyDigest & generationDigest & leaves & m2 & out & m3 & HP & HG & HL & HW & -> & -> & Hcontrol & HV); [|exact Hn].
  split; [done|]. destruct (planned_leaves _ _ _ _ _ _ HL) as (Hv & Hc & Hok & Hs & Hmax).
  pose proof (writeMembers_assembled (rq_revisionCount rq) (rq_Repository rq) generationDigest (Z.of_nat (length leaves)) leaves 0
    (blank rq policyDigest generationDigest) [] Hok (planned_fit _ _ _ _ Hv Hc) m2) as HA. rewrite HW in HA. cbn [fst snd] in HA.
  destruct HA as (ws & HWs & Hh & Hm & Hb & Hp & _ & _ & Hf & _). unfold header in Hh. injection Hh as E1 E2 E3 E4 E5 E6 E7 E8.
  rewrite (stage_validates (rq_revisionCount rq) (rq_Repository rq) generationDigest leaves ws) in HV by assumption. apply andb_true_iff in HV as [_ HV].
  rewrite forallb_forall in HV. pose proof (written_counts _ _ _ _ _ _ _ HWs) as (_ & _ & Hplaced & _). rewrite Hc in Hplaced.
  cbn [st_members]. set (manifest := out.1 <| ma_Digest := ManifestDigest out.1 |>).
  change (ma_Members manifest) with (ma_Members out.1). change (ma_RevisionCount manifest) with (ma_RevisionCount out.1).
  change (ma_BlobCount manifest) with (ma_BlobCount out.1). change (ma_PlacementCount manifest) with (ma_PlacementCount out.1).
  rewrite E4, Hm, Hb, Hp. cbn [blank ma_Members ma_RevisionCount ma_BlobCount ma_PlacementCount app]. exists ws.*2. split_and!.
  - apply Forall2_fmap_2, Forall_Forall2_diag, Forall_forall. intros w Hw. rewrite length_fmap.
    rewrite (written_read _ _ _ leaves ws _ w HWs Hok Hf Hw). specialize (HV (me_Name w.1, w.2)). cbn [snd] in HV. rewrite HV; [done|].
    rewrite Hf. apply list_elem_of_In, list_elem_of_fmap. by exists w.
  - by rewrite (written_flat _ _ _ _ _ _ _ HWs), Hc.
  - by eapply written_objects.
  - by rewrite (written_blobs _ _ _ _ _ _ _ HWs).
  - by rewrite Hplaced.
Qed.
