(* ===== verification/PartitionSamples.v ===== *)
(** * Source partitions: samples

    A concrete sum in place of SHA-256 (the bytes of what is summed, after the
    first 31, padded), a source whose plan must split a root, one whose members
    are read back, and one that no build accepts. *)
From stdpp Require Import sorting pretty.
From Stdlib Require Import Ascii String.
From S2P Require Import Prelude.
From S2P Require Import GoStrings GoText PartitionModel PartitionPlan PartitionTheorems PartitionStage PartitionBuild.
#[local] Open Scope Z_scope.
#[local] Open Scope go_scope.

#[local] Instance plain_sum : Sha256 := fun s => take 32 (drop 31 (bytesOf s) ++ repeat 0 32).
#[local] Instance plain_laws : Sha256Laws.
Proof.
  intros s. unfold Sum256, plain_sum. split.
  - rewrite length_take, length_app, repeat_length. lia.
  - apply Forall_take, Forall_app_2; [apply Forall_drop|].
    + unfold bytesOf. apply Forall_fmap, Forall_forall. intros c _. unfold isByte, compose. pose proof (nat_ascii_bounded c). lia.
    + apply Forall_forall. intros b Hb%list_elem_of_In%repeat_spec. subst b. unfold isByte. lia.
Qed.

Definition samplePolicy : Policy := mkPolicy PolicySchema "idl" "1.0.0" [".proto"].
Definition zeros (n : nat) : string := string_of_list_ascii (repeat "0"%char n).
(** An object whose name starts with two digits. *)
Definition sampleObject (a b : Z) : string := pretty a +:+ pretty b +:+ zeros 38.
Definition sampleRecord (path object : string) (bytes : Z) : SourceRecord :=
  mkSourceRecord SourceMemberSchema path "100644" "regular" object bytes [0].

(** Seventeen files of the largest size: more than one leaf may hold. *)
Definition largeSource : list SourceRecord :=
  (fun i => sampleRecord (pretty (i + 10) +:+ ".proto") (sampleObject (i mod 10) (i / 10)) MaxBlobBytes) <$> seqZ 0 17.

(** What holds of a result that is computed. *)
Lemma computed {E A S} (m : res E A * S) (check : A -> bool) :
  match m.1 with Ok x => check x | Err _ => false end = true -> exists x s, m = (Ok x, s) /\ check x = true.
Proof. destruct m as [[x|e] s]; [|discriminate]. intros HC. by exists x, s. Qed.

Lemma plan_partitions_source_witness :
  exists leaves metrics, planLeaves samplePolicy 1 largeSource noMetrics = (Ok leaves, metrics) /\
    concat (sl_records <$> leaves) ≡ₚ planned samplePolicy largeSource /\
    ((fun x => (sl_prefix x, sl_placements x)) <$> leaves) = [("00110", 15); ("00111", 2)].
Proof.
  destruct (computed (planLeaves samplePolicy 1 largeSource noMetrics)
    (fun leaves => bool_decide (((fun x => (sl_prefix x, sl_placements x)) <$> leaves) = [("00110", 15); ("00111", 2)]))) as (leaves & metrics & HP & HC);
    [vm_compute; reflexivity|].
  exists leaves, metrics. split; [exact HP|]. split; [exact (proj1 (plan_partitions_source _ _ _ _ _ _ HP))|exact (bool_decide_eq_true_1 _ HC)].
Defined.

Lemma plan_refuses_only_limits_witness :
  (exists source, isLimit <$> match (planLeaves samplePolicy 1 source noMetrics).1 with Ok _ => None | Err e => Some e end = Some true) /\
  match (planLeaves samplePolicy 1 largeSource noMetrics).1 with Ok _ => True | Err e => isLimit e = true end.
Proof.
  split; [exists [sampleRecord "a.proto" (sampleObject 1 1) (MaxBlobBytes + 1)]; vm_compute; reflexivity|].
  apply (plan_refuses_only_limits samplePolicy 1 largeSource noMetrics); [vm_compute; reflexivity|lia|].
  assert (Hall : forallb (fun a => forallb (fun b => negb (bool_decide (sourceBlobHash (so_ObjectID a) = sourceBlobHash (so_ObjectID b)))
    || String.eqb (so_ObjectID a) (so_ObjectID b)) (planned samplePolicy largeSource)) (planned samplePolicy largeSource) = true) by (vm_compute; reflexivity).
  intros a b Ha Hb Eh. rewrite forallb_forall in Hall. specialize (Hall a (proj1 (list_elem_of_In _ _) Ha)). rewrite forallb_forall in Hall.
  specialize (Hall b (proj1 (list_elem_of_In _ _) Hb)). apply orb_true_iff in Hall as [Hne|He]; [|by apply String.eqb_eq].
  rewrite (bool_decide_eq_true_2 _ Eh) in Hne. discriminate.
Defined.

(** ** Builds *)
Definition sampleRequest (source : list SourceRecord) : BuildRequest :=
  mkRequest true "team/repo" true "team/repo" ("sha256:" +:+ zeros 64) (Some ("sha256:" +:+ zeros 64)) 1 true samplePolicy source.
Definition samplePolicyDigest : string := default "" (PolicyDigest samplePolicy).
Definition sampleGeneration : string := default "" (GenerationDigest "team/repo" ("sha256:" +:+ zeros 64) samplePolicyDigest).

Lemma some_default {A} (o : option A) d : negb (is_nil o) = true -> o = Some (default d o).
Proof. by destruct o. Qed.

(** One empty file. *)
Definition emptySource : list SourceRecord := [sampleRecord "a.proto" (sampleObject 1 1) 0].
(** Two objects, one of them at two paths, in two leaves. *)
Definition smallSource : list SourceRecord :=
  [sampleRecord "a.proto" (sampleObject 1 1) 5; sampleRecord "b.proto" ("a" +:+ zeros 39) 0; sampleRecord "c/d.proto" (sampleObject 1 1) 5].

(** The plan of an empty file is encoded, and the stage is refused. *)
Lemma built_stage_is_accepted_witness :
  exists leaves (written : Manifest * list (string * list BlobRecord)) m, planLeaves samplePolicy 1 emptySource noMetrics = (Ok leaves, m) /\ length leaves = 1%nat /\
    ma_BlobCount written.1 = 1 /\
    ValidateStage (mkStage (written.1 <| ma_Digest := ManifestDigest written.1 |>) written.2) (written.1 <| ma_Digest := ManifestDigest written.1 |>) = false.
Proof.
  assert (HP : PolicyDigest samplePolicy = Some samplePolicyDigest) by (apply some_default; vm_compute; reflexivity).
  assert (HG : GenerationDigest "team/repo" ("sha256:" +:+ zeros 64) samplePolicyDigest = Some sampleGeneration) by (apply some_default; vm_compute; reflexivity).
  destruct (computed (planLeaves samplePolicy 1 emptySource noMetrics) (fun leaves => Nat.eqb (length leaves) 1 &&
    match (writeMembers "team/repo" sampleGeneration (Z.of_nat (length leaves)) 0 leaves (blank (sampleRequest emptySource) samplePolicyDigest sampleGeneration) [] noMetrics).1 with
    | Ok out => (controlBytes (out.1 <| ma_Digest := ManifestDigest out.1 |>) <=? MaxManifestBytes) && ((ma_BlobCount out.1 =? 1) && (ma_DeclaredBytes out.1 =? 0))
    | Err _ => false end)) as (leaves & m & HL & HC); [vm_compute; reflexivity|].
  apply andb_true_iff in HC as [Hlen HC]. destruct (computed _ _ HC) as (out & m' & HW & HC').
  apply andb_true_iff in HC' as [Hcontrol [Hb%Z.eqb_eq Hd%Z.eqb_eq]%andb_true_iff]. apply Z.leb_le in Hcontrol. apply Nat.eqb_eq in Hlen.
  exists leaves, out, m. split; [exact HL|]. split; [exact Hlen|]. split; [exact Hb|].
  pose proof (built_stage_is_accepted (sampleRequest emptySource) samplePolicyDigest sampleGeneration leaves out noMetrics m noMetrics m' HP HG ltac:(cbn; lia) HL HW Hcontrol) as HS.
  rewrite HS. change (Bool.eqb (ma_BlobCount out.1 =? 0) (ma_DeclaredBytes out.1 =? 0) && forallb (fun f : string * list BlobRecord => linesFit f.2) out.2 = false).
  by rewrite Hb, Hd.
Defined.

Lemma build_loses_nothing_witness :
  exists manifest s m, Build (sampleRequest smallSource) noMetrics = (Ok (manifest, s), m) /\ ma_PlacementCount manifest = 3 /\ ma_BlobCount manifest = 2 /\
    exists contents, flat (concat contents) ≡ₚ flatRecord <$> planned samplePolicy smallSource /\ length (concat contents) = 2%nat.
Proof.
  destruct (computed (Build (sampleRequest smallSource) noMetrics)
    (fun out => (ma_PlacementCount out.1 =? 3) && (ma_BlobCount out.1 =? 2))) as ([manifest s] & m & HB & HC); [vm_compute; reflexivity|].
  apply andb_true_iff in HC as [Hp%Z.eqb_eq Hb%Z.eqb_eq]. cbn [fst] in Hp, Hb.
  destruct (build_loses_nothing (sampleRequest smallSource) noMetrics manifest s m ltac:(cbn; lia) HB) as (_ & contents & _ & Hflat & _ & Hblobs & _).
  exists manifest, s, m. split; [exact HB|]. split; [exact Hp|]. split; [exact Hb|]. exists contents. split; [exact Hflat|]. lia.
Defined.

(** The build of the empty file refuses it. *)
Example empty_file_refused : (Build (sampleRequest emptySource) noMetrics).1 = Err (Invalid "stage").
Proof. vm_compute. reflexivity. Qed.
